(* ===== verification/_CoqProject ===== *)
-Q . S2P
Prelude.v
GoStrings.v
Bytes.v
Netip.v
NetipPrefix.v
Http.v
ClientAddr.v
Forwarded.v
Circuit.v
Resilience.v
Admission.v
Affinity.v
Backend.v
Balancer.v
Pool.v
Health.v
PoolRun.v
Retry.v
BudgetRun.v
CanonicalPath.v
Cors.v
Router.v
RouterSpec.v
ProxyProto.v
RateLimit.v
Encoding.v
Compress.v
ClientUse.v
IPNet.v
Egress.v
Rbac.v
AdminAuth.v
Generations.v
Sni.v
Redact.v
Secrets.v
CacheEntry.v
CacheIdentity.v
CacheMem.v
CacheTags.v
CacheGuard.v
CacheControl.v
CacheKey.v
CacheReuse.v
CacheServe.v
CacheFlight.v
CacheSelector.v
CacheFence.v
PluginFetch.v
PluginHost.v
PluginCall.v
PluginPhase.v
ConnLimit.v
Cgi.v
CgiResponse.v
Attribution.v
UwsgiAttempt.v
AuthCreds.v
Jwks.v
AuthGate.v
HttpRule.v
GrpcConns.v
