(* ===== verification/Prelude.v ===== *)
(** * A verification development for jul

    jul is an HTTP edge server and reverse proxy written in Go (under src/).
    This library is a shallow embedding of its traffic core and of the
    mechanisms that guard it: who a request comes from, where it is routed,
    which backend serves it, what the cache may answer in its place, what
    plugins may do to it, what may be dialed on its behalf, and how a
    configuration is replaced while requests are in flight.  Every definition is
    translated from the Go source; the theorems state what the components
    promise each other and the operator.

    ** How the parts interact

    A listener bounds its connections ([ConnLimit]).  A connection may start
    with a PROXY header ([ProxyProto]); a stream
    connection is relayed to the pool its TLS ClientHello selects ([Sni]).  An
    HTTP request first gets its client address ([ClientAddr]), on which the
    access gates, rate limits, affinity keys and forwarded headers build
    ([ClientUse]).  It is served by a handler generation that a reload retires
    once it has drained ([Generations]); the secrets of a generation's
    configuration ([Secrets]) are masked in the logs until then ([Redact]).  The
    router ([CanonicalPath], [Router]) canonicalises the path, picks a server by
    host and a location by path and predicates; the location's authentication
    ([AuthCreds], [Jwks], [AuthGate]), rate limit ([RateLimit]), plugins ([PluginCall], [PluginPhase]), cross-origin policy
    ([Cors]), compression ([Encoding], [Compress]) and response cache ([CacheReuse], [CacheServe]) apply around its
    handler; the cache fetches a missing response once ([CacheFlight]) and does
    not publish what a purge has overtaken ([CacheSelector], [CacheFence]).  A proxying handler runs the retry driver ([Retry]) on a pool
    ([Pool]): the pool's admission gate ([Admission]) bounds concurrent requests
    under the resilience policy ([Resilience]), and each attempt selects a
    backend ([Backend]) through a load balancer ([Balancer], by rendezvous
    hashing ([Affinity]) when the request carries an affinity key) among those
    whose health checks ([Health]) and circuit breaker ([Circuit]) let traffic
    through, and reports its result, attributed to the party at fault
    ([Attribution]), to that breaker.  FastCGI and uWSGI backends are reached
    through adapters of their own ([Cgi], [CgiResponse], [UwsgiAttempt]), gRPC
    ones through a transcoder that maps paths to methods ([HttpRule]) over cached
    connections ([GrpcConns]).  Connections the server
    opens for its own purposes, a plugin's included ([PluginFetch]), pass the
    egress policy ([Egress]); the admin API is guarded by roles ([Rbac],
    [AdminAuth]).

    ** Files

    Foundations:
    - [Prelude]: machine integers, strings as byte lists, labelled transition
      systems and the shared tactics.
    - [GoStrings], [Bytes], [Netip], [NetipPrefix], [IPNet], [Http]: what the
      source uses of Go's strings, encoding/binary, net/netip, net, strconv,
      net/textproto and net/http, as functions with their lemmas (splitting and
      joining, decimal numbers, addresses read back from their text, containment
      in prefixes and networks, canonical header names).

    Identity and access:
    - [ClientAddr], [Forwarded]: internal/clientaddr, the trust policy and the
      derivation of the client, and the Forwarded syntax.
    - [ClientUse]: its consumers in internal/auth/cidr.go, internal/middleware/
      ratelimit.go, internal/affinity/key.go, internal/handler/proxy.go and
      internal/server/proxyproto.go.
    - [Rbac], [AdminAuth]: internal/rbac, internal/config/validate_rbac.go and
      internal/admin/rbac.go.
    - [AuthCreds], [Jwks], [AuthGate]: internal/auth, the password file and the
      key set, the cache of keys as an interleaving of its requests and fetches
      with the validation of tokens, and the middleware with its forward-auth
      exchange.
    - [Egress]: internal/egress.  [ConnLimit]: the connection limits of
      internal/server, for TCP listeners and for QUIC.
    - [ProxyProto]: internal/proxyproto.  [Sni]: internal/stream/sni.go, alpn.go.

    Upstreams:
    - [Circuit]: internal/upstream/circuit.go.  The breaker's state is the
      record [circuit]; each method is a function, [circuit_exec] their
      interleaving with the clock and the outstanding admissions.
    - [Resilience]: internal/resilience/resilience.go, options to policy.
    - [Admission]: internal/upstream/admission.go.  [admission_exec]
      interleaves the atomic actions of Acquire, park, abandon, release,
      SetPolicy and Retire over any number of goroutines.
    - [Affinity]: internal/affinity, the rendezvous_v1 hash, its integer
      logarithm, the candidate order and the extraction of keys.
    - [Backend], [Balancer], [Pool], [PoolRun], [Health]: internal/upstream/
      backend.go, balancer.go, pool.go, snapshot.go and health.go.  Backends are
      objects in a heap, shared by the balancer, snapshots and outstanding
      attempts; the class [Chooser] is what selection needs of a balancer.
      [selectBackend] takes the interference of other goroutines as an argument;
      [pool_exec] runs a whole pool.
    - [Retry]: internal/upstream/retry.go, the eligibility rule, the backoff,
      the budget and the driver [Do], whose attempts and waits are parameters;
      [BudgetRun] interleaves the budget's atomic actions over shared buckets.
    - [Attribution]: whom a failed attempt is attributed to, and the verdict on a
      streamed response body.
    - [Cgi], [CgiResponse], [UwsgiAttempt]: internal/handler/fastcgi.go, the
      parameters and packet of a request, the reading of a response, and what an
      attempt of the uWSGI adapter records.
    - [HttpRule], [GrpcConns]: internal/transcode, the path templates and the
      route table, and the connection cache as an interleaving of its critical
      sections.

    Routing and middleware:
    - [CanonicalPath], [Router], [RouterSpec]: internal/router.  [Router] holds
      the code, [RouterSpec] its specification and theorems.
    - [Cors]: internal/middleware/cors.go and responsepolicy.go.
    - [Encoding], [Compress]: internal/middleware/compress.go and
      cache_control.go, the negotiation of a coding and the response writer.
    - [RateLimit]: internal/middleware/ratelimit.go, the bucket store as an
      interleaving of its critical sections.

    Configuration lifetime:
    - [Generations]: internal/server/server.go, reload_plan.go and
      internal/background.  [Redact], [Secrets]: internal/redact and
      internal/config/secrets.go.

    Response cache (internal/cache):
    - [CacheEntry], [CacheIdentity], [CacheKey], [CacheTags], [CacheGuard],
      [CacheControl]: entries, policy digests, keys, tags, the Vary guard and
      Cache-Control.  [CacheMem]: the memory tier.  [CacheReuse]: building,
      refreshing and reusing entries.  [CacheServe]: conditional and range
      requests.  [CacheFlight]: coalesced fills and validations, as interleavings.
      [CacheSelector], [CacheFence]: the selectors of a purge and the fences that
      keep a response fetched before it from being published after it.

    Plugins (internal/plugins):
    - [PluginFetch], [PluginHost], [PluginCall], [PluginPhase]: guarded outbound
      requests, the host functions of both ABI versions, calls and instances,
      and the response phase.  The class [GuestMemory] is what the host relies
      on of a guest's memory, [KVStore] what it relies on of the store.

    ** What the theorems show

    - Breakers: the state is consistent in every reachable state, the lock-free
      fast paths agree with the locked ones, a breaker trips exactly at its
      threshold, stays shut for its cooldown, reports one recovery, and bounds
      its half-open probes until a probe of an earlier generation reports, which
      lets one too many in.
    - Admission: the counters are exact, the limit holds, a lowered limit only
      drains, and the queue is first in first out, in every interleaving; two
      runs show a lost wakeup and an over-admission after a pool is retired.
    - Pools: the life of every backend of a pool is a run of its breaker, told
      exactly the pool's events (a refinement); the in-flight counters are exact; selection is sound under
      interference and complete without it; a refresh preserves surviving
      state; discovery results are fenced by generation; the health verdict is
      the hysteresis it is configured to be.
    - Balancing: weighted round robin is exactly fair per round, and keyed
      selection is the unique maximum of a strict total order, so that it moves
      only the keys it must.
    - Retries: the driver terminates, never tries an identity twice, retries
      only what may be retried, gives back every slot, and the budget is exact;
      under concurrency each of its buckets is, but a run shows that a rotation
      can lose a claim.
    - Routing: the fast check for canonical paths is exact and the canonical
      path leads where the original does; a request goes to the preferred
      location in the declared precedence; the dry run agrees with the live
      path; queries round trip; rewrite redirects stay on the origin.
    - Client addresses: only hops vouched for by trusted proxies decide the
      client, a forged header gains neither access nor another bucket, and the
      chain sent upstream is read back as the same client.
    - Access: the admin gate serves exactly who may, every guarded dial and
      every plugin fetch reaches permitted destinations only.  Authentication
      fails closed, a client cannot supply the fields a forward-auth service
      vouches for, and keys come from a current key set.  A listener's connection
      count is exact and its cap holds.
    - Attribution and CGI: an attempt counts against a backend exactly when the
      error is the backend's, and a streamed body when it ends short or fails so; the uWSGI adapter is shown to break this in three
      cases.  CGI parameters carry no identity the client claims, the uWSGI packet
      round trips, and a response without an error is complete.
    - Transcoding: a path template matches exactly the paths that spell it and is
      read back from its text; every connection has one owner, is closed once and
      serves only the workload it was dialed for.
    - Middleware and wire formats: preflights are approved exactly as
      configured, responses carry no grant but the policy's, the policy is
      applied once; the coding chosen is the best accepted, and a compressed
      response is the handler's, encoded only if it may be; the bucket store is
      bounded with an exact recency list;
      PROXY headers round trip and are bounded; the ClientHello parser accepts
      exactly the encodings, however they are cut into records.
    - Reloads: in every interleaving the in-flight counts are exact and no drain
      is lost; a run shows that a stale decrement can report a drain early.
      Resolving secrets fails exactly when a reference has no value, and the
      values are among those masked until their generation is retired, none of
      them getting through as long as none contains the mask's character.
    - Caching: the memory tier is exactly a least-recently-used store (a
      refinement in both directions); a stored response answers a request only
      if the header it was published from and the request allow it; range requests get
      exactly the bytes they name.  Misses and validations are coalesced without
      stranding a waiter, unless a leader's repeated lookup panics; a purge, by
      a selector that means what its syntax says, refuses the responses that were
      being fetched, whatever becomes of its fence; the fence of a route cutover,
      once complete, is shown to be forgotten under pressure.
    - Plugins: a response hook is confined to what the response phase allows,
      plugins sharing the store do not see each other, the v2 functions refine
      the v1 ones, instances are bounded, and a response is delivered exactly
      once, after the hook has decided.

    ** Conventions, bounds and fuel

    Sized integers are [Z] with explicit wrap-around where the source's
    arithmetic can wrap ([u64], [i64], [i32]); counters that would need 2^63
    operations to overflow are unbounded.  Times and durations are nanoseconds
    in [Z]; the monotonic clock is an argument or a label.  A concurrent
    component is an executable function from states and labels to states, one
    label per atomic action (a critical section or an atomic operation), and
    its theorems quantify over all traces.  Loops that are not structural take
    fuel, and the theorems show how much is enough: one turn per candidate for
    selection, one more than the number of backends for the retry driver, eight
    groups for an IPv6 address, twenty digits for a 64-bit number, one turn per
    byte for the scanners.

    ** What is not modelled

    Parameters stand for what is not under src/: compiled regular expressions,
    the token bucket of golang.org/x/time/rate, Unicode tables, dates, URLs and
    media types, SHA-256, bcrypt, elliptic curves, the parser of signed tokens,
    structured fields, IDNA, content encoders, content sniffing, the parsing of
    floating-point weights, the iteration order of maps, the WebAssembly runtime,
    and the adapter an attempt runs.  Sockets, TLS, timers, logging, metrics and
    the construction of handlers are left out, as are the disk tier and the purge
    index of the cache, the console's sign-in, the dialing of CGI backends and the
    parameters the FastCGI library computes, the configuration loader and most of
    its validation, the admin API behind its gate, the content handlers, the
    application firewall and the calls of the transcoder, which are input and
    output around the modelled core or integrate third-party engines.
    Memory-model effects below
    the level of a single atomic operation are not modelled. *)

From Stdlib Require Export ZArith Lia.
From stdpp Require Export base tactics strings gmap numbers sorting list.

Declare Scope go_scope.
Delimit Scope go_scope with go.
Open Scope Z_scope.

(** * Machine integers

    Go's sized integers are kept as [Z] and wrapped where the source's
    arithmetic wraps: [u64], [u32] and [u16] reduce modulo the width, [i64] and
    [i32] reduce to the signed representative. *)

Definition wrap (w z : Z) : Z := z mod 2 ^ w.
Definition u64 (z : Z) : Z := wrap 64 z.
Definition u32 (z : Z) : Z := wrap 32 z.
Definition u16 (z : Z) : Z := wrap 16 z.
Definition swrap (w z : Z) : Z := (z + 2 ^ (w - 1)) mod 2 ^ w - 2 ^ (w - 1).
Definition i64 (z : Z) : Z := swrap 64 z.
Definition i32 (z : Z) : Z := swrap 32 z.

Definition max_int64 : Z := 2 ^ 63 - 1.
Definition max_int32 : Z := 2 ^ 31 - 1.
Definition max_uint64 : Z := 2 ^ 64 - 1.

#[global] Arguments wrap : simpl never.
#[global] Arguments swrap : simpl never.
#[global] Arguments u64 : simpl never.
#[global] Arguments u32 : simpl never.
#[global] Arguments u16 : simpl never.
#[global] Arguments i64 : simpl never.
#[global] Arguments i32 : simpl never.

Lemma wrap_range w z : 0 <= w -> 0 <= wrap w z < 2 ^ w.
Proof. intros. unfold wrap. apply Z.mod_pos_bound. lia. Qed.

Lemma wrap_small w z : 0 <= z < 2 ^ w -> wrap w z = z.
Proof. apply Z.mod_small. Qed.

Lemma u64_small z : 0 <= z < 2 ^ 64 -> u64 z = z.
Proof. apply Z.mod_small. Qed.

Lemma u64_range z : 0 <= u64 z < 2 ^ 64.
Proof. apply Z.mod_pos_bound. lia. Qed.

Lemma i32_small z : - 2 ^ 31 <= z < 2 ^ 31 -> i32 z = z.
Proof. intros. unfold i32, swrap. rewrite Z.mod_small; lia. Qed.

Lemma i64_small z : - 2 ^ 63 <= z < 2 ^ 63 -> i64 z = z.
Proof. intros. unfold i64, swrap. rewrite Z.mod_small; lia. Qed.

(** * Go strings

    A Go string or byte slice is the list of its bytes, each a [Z] in
    [0, 256); [str] turns a literal into its bytes. *)

Notation gostring := (list Z).

Definition str (s : string) : gostring :=
  map (fun b => Z.of_N (Byte.to_N b)) (String.list_byte_of_string s).

Definition is_byte (b : Z) : Prop := 0 <= b < 256.

(** * Lists *)

Lemma Forall2_impl_in {A B} (P Q : A -> B -> Prop) l k :
  Forall2 P l k -> (forall x y, x ∈ l -> y ∈ k -> P x y -> Q x y) -> Forall2 Q l k.
Proof.
  induction 1 as [|x y l k Hxy _ IH]; intros H; constructor.
  - apply H; [left|left|done].
  - apply IH. intros x' y' Hx Hy. apply H; by right.
Qed.

Lemma Forall2_permute {A B} (P : A -> B -> Prop) l l' k :
  l ≡ₚ l' -> Forall2 P l k -> exists k', k ≡ₚ k' /\ Forall2 P l' k'.
Proof.
  intros HP. revert k. induction HP as [|x l l' _ IH|x y l|l l1 l2 _ IH1 _ IH2]; intros k HF.
  - by exists k.
  - inversion HF as [|? z ? k0 Hz HF0]; subst. destruct (IH _ HF0) as (k' & Hk & HF').
    exists (z :: k'). split; [by constructor|by constructor].
  - inversion HF as [|? z ? k0 Hz HF0]; subst. inversion HF0 as [|? w ? k1 Hw HF1]; subst.
    exists (w :: z :: k1). split; [constructor|by repeat constructor].
  - destruct (IH1 _ HF) as (k1 & Hk1 & HF1). destruct (IH2 _ HF1) as (k2 & Hk2 & HF2).
    exists k2. split; [by transitivity k1|done].
Qed.

(** * Labelled transition systems

    A concurrent component is given by an executable labelled step; the label
    resolves every scheduling or environment choice.  [trace] is the relation
    the invariants are proved over by rule induction, [exec_trace] the function
    the concrete runs are evaluated with. *)

Section Lts.
Context {St Lb : Type} (exec : St -> Lb -> option St).

Inductive trace : St -> list Lb -> St -> Prop :=
| trace_nil s : trace s [] s
| trace_cons s l s' tr s'' :
    exec s l = Some s' -> trace s' tr s'' -> trace s (l :: tr) s''.

Fixpoint exec_trace (s : St) (tr : list Lb) : option St :=
  match tr with
  | [] => Some s
  | l :: tr => match exec s l with Some s' => exec_trace s' tr | None => None end
  end.

Lemma exec_trace_trace s tr s' : exec_trace s tr = Some s' <-> trace s tr s'.
Proof.
  split.
  - revert s. induction tr as [|l tr IH]; intros s H; simpl in H.
    + injection H as ->. constructor.
    + destruct (exec s l) as [s1|] eqn:E; [|discriminate]. econstructor; eauto.
  - induction 1 as [|s l s1 tr s2 E _ IH]; simpl; [done|]. by rewrite E.
Qed.

Lemma trace_app s tr1 s1 tr2 s2 :
  trace s tr1 s1 -> trace s1 tr2 s2 -> trace s (tr1 ++ tr2) s2.
Proof. induction 1; simpl; eauto using trace. Qed.

Lemma trace_app_inv s tr1 tr2 s2 :
  trace s (tr1 ++ tr2) s2 -> exists s1, trace s tr1 s1 /\ trace s1 tr2 s2.
Proof.
  revert s. induction tr1 as [|l tr1 IH]; intros s H; simpl in H.
  - exists s. eauto using trace.
  - inversion H as [|? ? s1 ? ? E T]; subst.
    destruct (IH _ T) as (sm & T1 & T2). exists sm. eauto using trace.
Qed.

(** Invariance: [P] holds initially and every step preserves it. *)
Lemma trace_invariant (P : St -> Prop) :
  (forall s l s', P s -> exec s l = Some s' -> P s') ->
  forall s tr s', trace s tr s' -> P s -> P s'.
Proof. intros HP s tr s' T. induction T; eauto. Qed.

(** The same with a fuel of remaining steps, for invariants that hold only
    while a machine counter has not wrapped. *)
Lemma trace_invariant_count (P : Z -> St -> Prop) (bound : Z) :
  (forall n s l s', 0 <= n < bound -> P n s -> exec s l = Some s' -> P (n + 1) s') ->
  forall s tr s' n, trace s tr s' -> 0 <= n -> n + Z.of_nat (length tr) <= bound ->
    P n s -> P (n + Z.of_nat (length tr)) s'.
Proof.
  intros HP s tr s' n T. revert n.
  induction T as [s|s l s1 tr s2 E T IH]; intros n Hn Hb HPn; simpl in *.
  - by rewrite Z.add_0_r.
  - replace (n + Z.of_nat (S (length tr))) with ((n + 1) + Z.of_nat (length tr)) by lia.
    apply IH; [lia|lia|]. eapply HP; eauto. lia.
Qed.
End Lts.

(** ** Sums over goroutines *)

Section Total.
Context {A : Type}.

Fixpoint total (f : A -> Z) (ts : list A) : Z :=
  match ts with [] => 0 | p :: ts => f p + total f ts end.

Lemma total_insert f t p q ts :
  ts !! t = Some p -> total f (<[t := q]> ts) = total f ts - f p + f q.
Proof.
  revert t. induction ts as [|x ts IH]; intros [|t] H; simpl in *; try discriminate.
  - injection H as ->. lia.
  - rewrite (IH t) by done. lia.
Qed.

Lemma total_replicate f n p : total f (replicate n p) = Z.of_nat n * f p.
Proof. induction n as [|n IH]; simpl; [lia|]. rewrite IH. lia. Qed.

Lemma total_le f g ts : (forall p, f p <= g p) -> total f ts <= total g ts.
Proof. intros H. induction ts as [|p ts IH]; simpl; [lia|]. specialize (H p). lia. Qed.

Lemma total_nonneg f ts : (forall p, 0 <= f p) -> 0 <= total f ts.
Proof. intros Hf. induction ts as [|y ts IH]; simpl; [lia|]. specialize (Hf y). lia. Qed.

Lemma total_lookup f t p ts : (forall p, 0 <= f p) -> ts !! t = Some p -> f p <= total f ts.
Proof.
  intros Hf. revert t. induction ts as [|x ts IH]; intros [|t] H; simpl in *; try discriminate.
  - injection H as ->. pose proof (total_nonneg f ts Hf). lia.
  - specialize (IH t H). specialize (Hf x). lia.
Qed.

Lemma total_app f ts us : total f (ts ++ us) = total f ts + total f us.
Proof. induction ts as [|x ts IH]; simpl; [done|]. rewrite IH. lia. Qed.

Lemma total_perm f ts us : ts ≡ₚ us -> total f ts = total f us.
Proof. induction 1 as [|x l k _ IH|x y l|l k m _ IH1 _ IH2]; simpl; lia. Qed.

Lemma total_zero f ts : (forall t p, ts !! t = Some p -> f p = 0) -> total f ts = 0.
Proof.
  induction ts as [|x ts IH]; intros H; simpl; [done|]. rewrite (H 0%nat x eq_refl), IH; [done|]. intros t p Ht. apply (H (S t) p Ht).
Qed.
End Total.

(** * Automation *)

Create HintDb jul.
#[export] Hint Resolve u64_range : jul.

(** [lia] with division and remainder by constants. *)
Ltac zlia := Z.div_mod_to_equations; lia.

(** Case analysis on the conditionals and matches of a hypothesis. *)
Ltac step_case H :=
  repeat match type of H with
  | context [if ?b then _ else _] => let E := fresh "E" in destruct b eqn:E
  | context [match ?x with _ => _ end] => let E := fresh "E" in destruct x eqn:E
  end.

(** Case analysis on the conditionals of the goal. *)
Ltac goal_case :=
  repeat match goal with
  | |- context [if ?b then _ else _] => let E := fresh "E" in destruct b eqn:E
  | |- context [match ?x with _ => _ end] => let E := fresh "E" in destruct x eqn:E
  end.

(** The comparisons among the hypotheses as propositions, then [lia]; needed
    where they compare lengths. *)
Ltac bool_props :=
  repeat match goal with
  | H : (_ <=? _) = true |- _ => apply Z.leb_le in H
  | H : (_ <=? _) = false |- _ => apply Z.leb_gt in H
  | H : (_ <? _) = true |- _ => apply Z.ltb_lt in H
  | H : (_ <? _) = false |- _ => apply Z.ltb_ge in H
  | H : (_ =? _) = true |- _ => apply Z.eqb_eq in H
  | H : (_ =? _) = false |- _ => apply Z.eqb_neq in H
  end.
Ltac blia := bool_props; lia.
