(* ===== verification/GoStrings.v ===== *)
(** * Go's string operations used by the modelled code

    The functions of package [strings] and the operators on strings that the
    source calls, on byte lists: comparison, prefixes and suffixes, cutting at
    a separator, trimming a cut set.  Case folding is given on ASCII bytes; the
    callers that fold say what they do with other bytes. *)

From S2P Require Import Prelude.

(** ** Comparison: [<] on strings is byte-wise lexicographic *)

Fixpoint string_ltb (s t : gostring) : bool :=
  match s, t with
  | [], [] => false
  | [], _ :: _ => true
  | _ :: _, [] => false
  | a :: s, b :: t => if a =? b then string_ltb s t else a <? b
  end.

Lemma string_ltb_irrefl s : string_ltb s s = false.
Proof. induction s as [|a s IH]; simpl; [done|]. by rewrite Z.eqb_refl. Qed.

Lemma string_ltb_trans s t u :
  string_ltb s t = true -> string_ltb t u = true -> string_ltb s u = true.
Proof.
  revert t u. induction s as [|a s IH]; intros [|b t] [|c u]; simpl; try done.
  destruct (a =? b) eqn:E1, (b =? c) eqn:E2, (a =? c) eqn:E3; try lia; eauto.
Qed.

Lemma string_ltb_total s t : s <> t -> string_ltb s t = true \/ string_ltb t s = true.
Proof.
  revert t. induction s as [|a s IH]; intros [|b t]; simpl; try by auto.
  intros Hn. rewrite (Z.eqb_sym b a). destruct (a =? b) eqn:E; [|lia].
  apply Z.eqb_eq in E as ->. apply IH. congruence.
Qed.

Lemma string_ltb_asym s t : string_ltb s t = true -> string_ltb t s = false.
Proof.
  intros H. destruct (string_ltb t s) eqn:E; [|done].
  by rewrite <- (string_ltb_irrefl s), (string_ltb_trans _ _ _ H E).
Qed.

(** [sort.Strings]: the order is total and antisymmetric, so the result depends
    on the elements only. *)
Definition string_le (s t : gostring) : Prop := string_ltb t s = false.

#[export] Instance string_le_dec s t : Decision (string_le s t).
Proof. unfold string_le. apply _. Defined.

#[export] Instance string_le_total : Total string_le.
Proof.
  intros s t. unfold string_le. destruct (string_ltb t s) eqn:E; [right; by apply string_ltb_asym|by left].
Qed.

#[export] Instance string_le_antisym : AntiSymm (=) string_le.
Proof.
  intros s t. unfold string_le. intros H1 H2. destruct (decide (s = t)) as [?|E]; [done|].
  destruct (string_ltb_total _ _ E); congruence.
Qed.

#[export] Instance string_le_trans : Transitive string_le.
Proof.
  intros s t u. unfold string_le. intros H1 H2. destruct (string_ltb u s) eqn:E; [|done].
  destruct (decide (s = t)) as [->|Hn]; [congruence|]. destruct (string_ltb_total _ _ Hn) as [H|H]; [|congruence].
  by rewrite (string_ltb_trans _ _ _ E H) in H2.
Qed.

Definition sort_Strings (l : list gostring) : list gostring := merge_sort string_le l.

Lemma sort_Strings_perm l k : sort_Strings l = sort_Strings k <-> l ≡ₚ k.
Proof.
  unfold sort_Strings. split.
  - intros E. by rewrite <- (merge_sort_Permutation string_le l), E, merge_sort_Permutation.
  - intros HP. apply (StronglySorted_unique string_le); [apply StronglySorted_merge_sort; apply _..|]. by rewrite !merge_sort_Permutation.
Qed.

Definition string_eqb (s t : gostring) : bool := bool_decide (s = t).

(** ** Prefixes and suffixes *)

Fixpoint HasPrefix (s p : gostring) : bool :=
  match p, s with
  | [], _ => true
  | b :: p, a :: s => (a =? b) && HasPrefix s p
  | _ :: _, [] => false
  end.

Definition TrimPrefix (s p : gostring) : gostring :=
  if HasPrefix s p then drop (length p) s else s.

Definition HasSuffix (s p : gostring) : bool := HasPrefix (rev s) (rev p).

Definition TrimSuffix (s p : gostring) : gostring :=
  if HasSuffix s p then take (length s - length p) s else s.

Lemma HasPrefix_spec s p : HasPrefix s p = true <-> exists t, s = p ++ t.
Proof.
  revert s. induction p as [|b p IH]; intros s.
  - split; [intros _; by exists s|by destruct s].
  - destruct s as [|a s]; simpl.
    + split; [done|]. intros [t E]. discriminate.
    + rewrite andb_true_iff, IH, Z.eqb_eq. split.
      * intros [-> [t ->]]. by exists t.
      * intros [t [= -> ->]]. eauto.
Qed.

Lemma HasPrefix_app p t : HasPrefix (p ++ t) p = true.
Proof. apply HasPrefix_spec. eauto. Qed.

Lemma TrimPrefix_app p t : TrimPrefix (p ++ t) p = t.
Proof. unfold TrimPrefix. by rewrite HasPrefix_app, drop_app_length. Qed.

Lemma HasSuffix_spec s p : HasSuffix s p = true <-> exists t, s = t ++ p.
Proof.
  unfold HasSuffix. rewrite HasPrefix_spec. split; intros [t E].
  - exists (rev t). apply (f_equal (@rev Z)) in E. by rewrite rev_app_distr, !rev_involutive in E.
  - exists (rev t). by rewrite E, rev_app_distr.
Qed.

Lemma HasSuffix_app p t : HasSuffix (t ++ p) p = true.
Proof. apply HasSuffix_spec. eauto. Qed.

Lemma TrimSuffix_app p t : TrimSuffix (t ++ p) p = t.
Proof.
  unfold TrimSuffix. rewrite HasSuffix_app, length_app.
  replace (length t + length p - length p)%nat with (length t) by lia. apply take_app_length.
Qed.

(** ** Cutting at the first occurrence of a byte *)

Fixpoint IndexByte (s : gostring) (c : Z) : option nat :=
  match s with
  | [] => None
  | a :: s => if a =? c then Some 0%nat else S <$> IndexByte s c
  end.

Lemma IndexByte_notin (s : gostring) c : c ∉ s -> IndexByte s c = None.
Proof.
  induction s as [|a s IH]; simpl; [done|]. intros [Ha Hs]%not_elem_of_cons.
  rewrite (proj2 (Z.eqb_neq a c)) by congruence. by rewrite IH.
Qed.

Lemma IndexByte_app (s t : gostring) c : c ∉ s -> IndexByte (s ++ c :: t) c = Some (length s).
Proof.
  induction s as [|a s IH]; intros Hn; simpl; [by rewrite Z.eqb_refl|]. apply not_elem_of_cons in Hn as [Ha Hs].
  rewrite (proj2 (Z.eqb_neq a c)) by congruence. by rewrite IH.
Qed.

Fixpoint CutByte (s : gostring) (c : Z) : gostring * gostring * bool :=
  match s with
  | [] => ([], [], false)
  | a :: s' =>
      if a =? c then ([], s', true)
      else let '(b, t, ok) := CutByte s' c in (a :: b, t, ok)
  end.

Lemma CutByte_spec s c b t ok :
  CutByte s c = (b, t, ok) ->
  c ∉ b /\ if ok then s = b ++ c :: t else s = b /\ t = [].
Proof.
  revert b t ok. induction s as [|a s IH]; intros b t ok; simpl.
  - intros [= <- <- <-]. split; [apply not_elem_of_nil|done].
  - destruct (a =? c) eqn:E.
    + intros [= <- <- <-]. apply Z.eqb_eq in E as ->. split; [apply not_elem_of_nil|done].
    + destruct (CutByte s c) as [[b1 t1] ok1]. intros [= <- <- <-].
      destruct (IH _ _ _ eq_refl) as [Hb Hs]. split.
      * apply not_elem_of_cons. split; [lia|done].
      * destruct ok1; [by rewrite Hs|]. by destruct Hs as [-> ->].
Qed.

Lemma CutByte_app b c t : c ∉ b -> CutByte (b ++ c :: t) c = (b, t, true).
Proof.
  induction b as [|a b IH]; simpl; intros Hn; [by rewrite Z.eqb_refl|].
  apply not_elem_of_cons in Hn as [Ha Hb]. rewrite (proj2 (Z.eqb_neq a c)) by congruence.
  by rewrite IH.
Qed.

Lemma CutByte_notin s c : c ∉ s -> CutByte s c = (s, [], false).
Proof.
  induction s as [|a s IH]; simpl; intros Hn; [done|].
  apply not_elem_of_cons in Hn as [Ha Hs]. rewrite (proj2 (Z.eqb_neq a c)) by congruence.
  by rewrite IH.
Qed.

(** ** Trimming *)

Fixpoint TrimLeft (cut : Z -> bool) (s : gostring) : gostring :=
  match s with
  | [] => []
  | a :: s' => if cut a then TrimLeft cut s' else s
  end.

Definition Trim (cut : Z -> bool) (s : gostring) : gostring :=
  rev (TrimLeft cut (rev (TrimLeft cut s))).

(** The cut set of [strings.Trim(s, (space, tab))]. *)
Definition blank (b : Z) : bool := (b =? 32) || (b =? 9).

(** [' '], ['\t'], ['\n'], ['\v'], ['\f'] and ['\r']. *)
Definition ascii_space (b : Z) : bool := (b =? 32) || ((9 <=? b) && (b <=? 13)).

(** ** ASCII classes and case *)

Definition is_digit (c : Z) : bool := (48 <=? c) && (c <=? 57).
Definition is_alpha (c : Z) : bool := ((97 <=? c) && (c <=? 122)) || ((65 <=? c) && (c <=? 90)).

Definition lower_byte (b : Z) : Z := if (65 <=? b) && (b <=? 90) then b + 32 else b.
Definition lower_ascii (s : gostring) : gostring := map lower_byte s.
Definition upper_byte (b : Z) : Z := if (97 <=? b) && (b <=? 122) then b - 32 else b.

Lemma lower_byte_idem b : lower_byte (lower_byte b) = lower_byte b.
Proof.
  unfold lower_byte. destruct ((65 <=? b) && (b <=? 90)) eqn:E; [|by rewrite E].
  destruct ((65 <=? b + 32) && (b + 32 <=? 90)) eqn:E2; lia.
Qed.

Lemma lower_ascii_idem s : lower_ascii (lower_ascii s) = lower_ascii s.
Proof.
  unfold lower_ascii. rewrite map_map. apply map_ext. apply lower_byte_idem.
Qed.

(** ** Splitting, joining and searching *)

(** [strings.Split(s, sep)] for a one-byte separator. *)
Fixpoint SplitByte (s : gostring) (c : Z) : list gostring :=
  match s with
  | [] => [[]]
  | a :: s =>
      if a =? c then [] :: SplitByte s c
      else match SplitByte s c with
           | x :: l => (a :: x) :: l
           | [] => [[a]]
           end
  end.

(** [strings.Join(l, sep)] for a one-byte separator. *)
Fixpoint JoinByte (l : list gostring) (c : Z) : gostring :=
  match l with
  | [] => []
  | x :: l => match l with [] => x | _ :: _ => x ++ c :: JoinByte l c end
  end.

Fixpoint Contains (s p : gostring) : bool :=
  HasPrefix s p || match s with [] => false | _ :: s => Contains s p end.

Lemma SplitByte_cons s c : exists x l, SplitByte s c = x :: l.
Proof.
  induction s as [|a s (x & l & E)]; simpl; [by eexists _, _|].
  destruct (a =? c); [by eexists _, _|]. rewrite E. by eexists _, _.
Qed.

Lemma SplitByte_notin s c : Forall (fun x => c ∉ x) (SplitByte s c).
Proof.
  induction s as [|a s IH]; simpl; [repeat constructor; apply not_elem_of_nil|].
  destruct (a =? c) eqn:E; [constructor; [apply not_elem_of_nil|done]|].
  destruct (SplitByte_cons s c) as (x & l & Es). rewrite Es in *. apply Forall_cons in IH as [H1 H2].
  constructor; [|done]. apply not_elem_of_cons. split; [lia|done].
Qed.

Lemma JoinByte_cons x l c : l <> [] -> JoinByte (x :: l) c = x ++ c :: JoinByte l c.
Proof. by destruct l. Qed.

Lemma JoinByte_SplitByte s c : JoinByte (SplitByte s c) c = s.
Proof.
  induction s as [|a s IH]; [done|]. cbn [SplitByte].
  destruct (SplitByte_cons s c) as (x & l & E). rewrite E in *.
  destruct (a =? c) eqn:Ea.
  - apply Z.eqb_eq in Ea as ->. rewrite JoinByte_cons by done. by rewrite IH.
  - destruct l; simpl in *; by rewrite IH.
Qed.

Lemma SplitByte_app x s c : c ∉ x -> SplitByte (x ++ c :: s) c = x :: SplitByte s c.
Proof.
  induction x as [|a x IH]; intros Hn; simpl; [by rewrite Z.eqb_refl|].
  apply not_elem_of_cons in Hn as [Ha Hx]. rewrite (proj2 (Z.eqb_neq a c)) by congruence.
  by rewrite IH.
Qed.

Lemma SplitByte_app_sep s t c : SplitByte (s ++ c :: t) c = SplitByte s c ++ SplitByte t c.
Proof.
  induction s as [|a s IH]; simpl; [by rewrite Z.eqb_refl|]. destruct (a =? c); [by rewrite IH|].
  rewrite IH. by destruct (SplitByte_cons s c) as (x & l & ->).
Qed.

Lemma SplitByte_single x c : c ∉ x -> SplitByte x c = [x].
Proof.
  induction x as [|a x IH]; intros Hn; simpl; [done|].
  apply not_elem_of_cons in Hn as [Ha Hx]. rewrite (proj2 (Z.eqb_neq a c)) by congruence.
  by rewrite IH.
Qed.

Lemma SplitByte_JoinByte l c :
  l <> [] -> Forall (fun x => c ∉ x) l -> SplitByte (JoinByte l c) c = l.
Proof.
  intros Hl HF. induction HF as [|x l Hx HF IH]; [done|]. destruct l as [|y l].
  - by apply SplitByte_single.
  - rewrite JoinByte_cons by done. rewrite SplitByte_app by done. by rewrite IH.
Qed.

(** The cut at the first separator is unique. *)
Lemma cut_unique (x y s t : gostring) c :
  c ∉ x -> c ∉ y -> x ++ c :: s = y ++ c :: t -> x = y /\ s = t.
Proof.
  intros Hx Hy E. pose proof (CutByte_app x c s Hx) as E1. rewrite E, CutByte_app in E1 by done.
  by simplify_eq.
Qed.

(** ** Digests *)

(** SHA-256. *)
Class Sha256 := { sha256 : gostring -> list Z; sha256_length : forall s, length (sha256 s) = 32%nat }.

Lemma pad_length (s : gostring) : length (take 32 (s ++ replicate 32 0)) = 32%nat.
Proof. rewrite length_take, length_app, length_replicate. lia. Qed.

(** A stand-in digest: the first 32 bytes, padded. *)
Definition demo_sha256 : Sha256 := {| sha256 := fun s => take 32 (s ++ replicate 32 0); sha256_length := pad_length |}.
