(* ===== verification/Bytes.v ===== *)
(** * Byte strings and big-endian integers

    Lengths of byte strings as integers, and the big-endian encodings the wire
    formats of the program use. *)

From S2P Require Import Prelude GoStrings.

Definition zlen (s : list Z) : Z := Z.of_nat (length s).

Lemma zlen_nonneg s : 0 <= zlen s.
Proof. unfold zlen. lia. Qed.

Lemma zlen_app s t : zlen (s ++ t) = zlen s + zlen t.
Proof. unfold zlen. rewrite length_app. lia. Qed.

Lemma zlen_cons x s : zlen (x :: s) = 1 + zlen s.
Proof. unfold zlen. cbn [length]. lia. Qed.

Lemma zlen_nil s : zlen s = 0 <-> s = [].
Proof. unfold zlen. destruct s; cbn [length]; split; (done || lia). Qed.

(** Big-endian value of a byte list, and the bytes of a value. *)
Definition be_val (b : list Z) : Z := fold_left (fun acc x => acc * 256 + x) b 0.

Fixpoint be_bytes (n : nat) (v : Z) : list Z :=
  match n with
  | O => []
  | S n => be_bytes n (v / 256) ++ [v mod 256]
  end.

Lemma be_val_app b x : be_val (b ++ [x]) = be_val b * 256 + x.
Proof. unfold be_val. by rewrite fold_left_app. Qed.

Lemma be_val_range b : Forall is_byte b -> 0 <= be_val b < 256 ^ Z.of_nat (length b).
Proof.
  induction b as [|x b IH] using rev_ind; intros HF; [done|].
  apply Forall_app in HF as [Hb Hx%Forall_inv]. specialize (IH Hb). unfold is_byte in Hx.
  rewrite be_val_app, length_app, Nat.add_1_r, Nat2Z.inj_succ, Z.pow_succ_r by lia. lia.
Qed.

Lemma be_bytes_val b : Forall is_byte b -> be_bytes (length b) (be_val b) = b.
Proof.
  induction b as [|x b IH] using rev_ind; intros HF; [done|].
  apply Forall_app in HF as [Hb Hx%Forall_inv]. unfold is_byte in Hx.
  rewrite length_app, Nat.add_1_r, be_val_app. cbn [be_bytes].
  rewrite Z.div_add_l, Z.div_small, Z.add_0_r, IH by (done || lia).
  f_equal. f_equal. rewrite Z.add_comm, Z.mod_add by lia. apply Z.mod_small. lia.
Qed.

Lemma be_val_bytes n v : 0 <= v < 256 ^ Z.of_nat n -> be_val (be_bytes n v) = v.
Proof.
  revert v. induction n as [|n IH]; intros v Hv; [change (256 ^ Z.of_nat 0) with 1 in Hv; change (0 = v); lia|].
  rewrite Nat2Z.inj_succ, Z.pow_succ_r in Hv by lia. cbn [be_bytes]. rewrite be_val_app, IH.
  - pose proof (Z.div_mod v 256 ltac:(lia)). lia.
  - split; [apply Z.div_pos; lia|apply Z.div_lt_upper_bound; lia].
Qed.

Lemma be_bytes_ok n v : length (be_bytes n v) = n /\ Forall is_byte (be_bytes n v).
Proof.
  revert v. induction n as [|n IH]; intros v; cbn [be_bytes]; [done|].
  destruct (IH (v / 256)) as [L F]. split; [rewrite length_app, L; simpl; lia|].
  apply Forall_app. split; [done|]. repeat constructor; unfold is_byte; zlia.
Qed.

Lemma be_zlen n v : zlen (be_bytes n v) = Z.of_nat n.
Proof. unfold zlen. by rewrite (proj1 (be_bytes_ok n v)). Qed.

Lemma lor_disjoint a b n : 0 <= n -> 0 <= b < 2 ^ n -> Z.lor (a * 2 ^ n) b = a * 2 ^ n + b.
Proof.
  intros Hn Hb. symmetry. apply Z.add_nocarry_lor, Z.bits_inj'. intros i Hi.
  rewrite Z.land_spec, Z.bits_0. destruct (decide (i < n)).
  - by rewrite Z.mul_pow2_bits_low.
  - replace b with (b mod 2 ^ n) by (by apply Z.mod_small).
    rewrite Z.mod_pow2_bits_high by lia. apply andb_false_r.
Qed.

(** Shifted bytes, as the readers assemble them. *)
Lemma lor_shift v b k : 0 <= k -> 0 <= b < 2 ^ k -> Z.lor (Z.shiftl v k) b = v * 2 ^ k + b.
Proof. intros Hk Hb. rewrite Z.shiftl_mul_pow2 by lia. by apply lor_disjoint. Qed.
