(* ===== verification/Netip.v ===== *)
(** * The address functions of Go's standard library used by the modelled code

    [netip.ParseAddr], [Addr.String], [Unmap] and [WithZone], and
    [net.SplitHostPort] and [net.JoinHostPort], transcribed on byte lists.  An
    address is its 4 or 16 bytes; an IPv6 address carries a zone, empty when it
    has none. *)

From S2P Require Import Prelude GoStrings.

Inductive Addr :=
| V4 (b : list Z)
| V6 (b : list Z) (zone : gostring).

#[export] Instance Addr_eq_dec : EqDecision Addr.
Proof. solve_decision. Defined.

(** Well-formed addresses: the right number of bytes. *)
Definition addr_ok (a : Addr) : Prop :=
  match a with
  | V4 b => length b = 4%nat /\ Forall is_byte b
  | V6 b _ => length b = 16%nat /\ Forall is_byte b
  end.

(** ** Parsing *)

(** [parseIPv4Fields]: the fields finished so far, the value and digit count of
    the current one, and whether the previous byte was a dot (or the start). *)
Fixpoint ipv4_fields (s : gostring) (fields : list Z) (val : Z) (digLen : nat) (sep : bool)
  : option (list Z) :=
  match s with
  | [] => if bool_decide (length fields = 3%nat) then Some (fields ++ [val]) else None
  | c :: s' =>
      if is_digit c then
        if bool_decide (digLen = 1%nat) && (val =? 0) then None
        else
          let val := val * 10 + (c - 48) in
          if 255 <? val then None else ipv4_fields s' fields val (S digLen) false
      else if c =? 46 then
        if sep || bool_decide (s' = []) then None
        else if bool_decide (length fields = 3%nat) then None
        else ipv4_fields s' (fields ++ [val]) 0 0 true
      else None
  end.

Definition parseIPv4Fields (s : gostring) : option (list Z) := ipv4_fields s [] 0 0 true.

Definition hex_digit (c : Z) : option Z :=
  if is_digit c then Some (c - 48)
  else if (97 <=? c) && (c <=? 102) then Some (c - 97 + 10)
  else if (65 <=? c) && (c <=? 70) then Some (c - 65 + 10)
  else None.

(** One group of hex digits: the value, the number of digits and the rest.
    More than four digits fail. *)
Fixpoint hex_group (s : gostring) (off : nat) (acc : Z) : option (Z * nat * gostring) :=
  match s with
  | [] => Some (acc, off, [])
  | c :: s' =>
      match hex_digit c with
      | Some d => if (3 <? off)%nat then None else hex_group s' (S off) (acc * 16 + d)
      | None => Some (acc, off, s)
      end
  end.

(** The group loop of [parseIPv6]: the bytes so far and the position of the
    ellipsis.  It runs at most eight times, since each turn adds two bytes. *)
Fixpoint ipv6_groups (fuel : nat) (s : gostring) (ip : list Z) (ellipsis : option nat)
  : option (list Z * option nat * gostring) :=
  match fuel with
  | O => Some (ip, ellipsis, s)
  | S fuel =>
      match hex_group s 0 0 with
      | None => None
      | Some (acc, off, rest) =>
          if bool_decide (off = 0%nat) then None
          else if bool_decide (head rest = Some 46) then
            if bool_decide (ellipsis = None) && negb (bool_decide (length ip = 12%nat)) then None
            else if (16 <? length ip + 4)%nat then None
            else match parseIPv4Fields s with
                 | Some v4 => Some (ip ++ v4, ellipsis, [])
                 | None => None
                 end
          else
            let ip := ip ++ [acc / 256; acc mod 256] in
            match rest with
            | [] => Some (ip, ellipsis, [])
            | c :: rest' =>
                if negb (c =? 58) then None
                else match rest' with
                | [] => None
                | c2 :: rest2 =>
                    if c2 =? 58 then
                      if bool_decide (ellipsis <> None) then None
                      else match rest2 with
                           | [] => Some (ip, Some (length ip), [])
                           | _ => ipv6_groups fuel rest2 ip (Some (length ip))
                           end
                    else ipv6_groups fuel rest' ip ellipsis
                end
            end
      end
  end.

Definition expand_ellipsis (ip : list Z) (e : nat) : list Z :=
  take e ip ++ replicate (16 - length ip) 0 ++ drop e ip.

Definition parseIPv6 (s : gostring) : option Addr :=
  let '(s, zone, z) := CutByte s 37 in
  if z && bool_decide (zone = []) then None
  else
    let '(s, ell) := match s with
                     | 58 :: 58 :: s' => (s', Some 0%nat)
                     | _ => (s, None)
                     end in
    if bool_decide (s = []) && bool_decide (ell = Some 0%nat)
    then Some (V6 (replicate 16 0) zone)
    else
      match ipv6_groups 8 s [] ell with
      | Some (ip, ell, []) =>
          if (length ip <? 16)%nat then
            match ell with
            | None => None
            | Some e => Some (V6 (expand_ellipsis ip e) zone)
            end
          else if bool_decide (ell <> None) then None
          else Some (V6 ip zone)
      | _ => None
      end.

(** The first ['.'], [':'] or ['%'] decides. *)
Fixpoint addr_kind (s : gostring) : option Z :=
  match s with
  | [] => None
  | c :: s => if (c =? 46) || (c =? 58) || (c =? 37) then Some c else addr_kind s
  end.

Definition ParseAddr (s : gostring) : option Addr :=
  match addr_kind s with
  | Some 46 => V4 <$> parseIPv4Fields s
  | Some 58 => parseIPv6 s
  | _ => None
  end.

(** ** Classification and conversion *)

Definition Is4 (a : Addr) : bool := match a with V4 _ => true | V6 _ _ => false end.
Definition Is6 (a : Addr) : bool := negb (Is4 a).

Definition Is4In6 (a : Addr) : bool :=
  match a with
  | V4 _ => false
  | V6 b _ => bool_decide (take 12 b = replicate 10 0 ++ [255; 255])
  end.

Definition Unmap (a : Addr) : Addr :=
  match a with
  | V6 b _ => if Is4In6 a then V4 (drop 12 b) else a
  | V4 _ => a
  end.

Definition Zone (a : Addr) : gostring := match a with V4 _ => [] | V6 _ z => z end.

Definition WithZone (a : Addr) (zone : gostring) : Addr :=
  match a with V4 _ => a | V6 b _ => V6 b zone end.

(** ** Printing *)

(** [strconv.FormatUint] in base 10: [n] has at most [fuel] digits. *)
Fixpoint decimal_aux (fuel : nat) (n : Z) (acc : gostring) : gostring :=
  match fuel with
  | O => acc
  | S fuel =>
      let acc := (48 + n mod 10) :: acc in
      if n <? 10 then acc else decimal_aux fuel (n / 10) acc
  end.

(** Twenty digits hold every 64-bit value. *)
Definition FormatUint (n : Z) : gostring := decimal_aux 20 n [].

(** [strconv.Itoa]. *)
Definition Itoa (n : Z) : gostring := if n <? 0 then 45 :: FormatUint (- n) else FormatUint n.

Definition hex_char (d : Z) : Z := if d <? 10 then 48 + d else 87 + d.

(** [hex.EncodeToString]. *)
Definition hex_string (s : list Z) : gostring := concat (map (fun b => [hex_char (b / 16); hex_char (b mod 16)]) s).

(** [appendHex]: a 16-bit group without leading zeros. *)
Definition appendHex (x : Z) : gostring :=
  (if 4096 <=? x then [hex_char (x / 4096)] else []) ++
  (if 256 <=? x then [hex_char (x / 256 mod 16)] else []) ++
  (if 16 <=? x then [hex_char (x / 16 mod 16)] else []) ++
  [hex_char (x mod 16)].

Definition string4 (b : list Z) : gostring :=
  match b with
  | [b0; b1; b2; b3] =>
      FormatUint b0 ++ 46 :: FormatUint b1 ++ 46 :: FormatUint b2 ++ 46 :: FormatUint b3
  | _ => []
  end.

(** The eight 16-bit groups. *)
Fixpoint groups (b : list Z) : list Z :=
  match b with hi :: lo :: b => hi * 256 + lo :: groups b | _ => [] end.

(** The number of leading zero groups. *)
Fixpoint zero_run (gs : list Z) : nat :=
  match gs with 0 :: gs => S (zero_run gs) | _ => 0%nat end.

(** The first longest run of at least two zero groups, as start and end. *)
Fixpoint best_run (i : nat) (gs : list Z) (best : nat * nat) : nat * nat :=
  match gs with
  | [] => best
  | _ :: gs' =>
      let l := zero_run gs in
      let best := if (2 <=? l)%nat && (best.2 - best.1 <? l)%nat
                  then (i, (i + l)%nat) else best in
      best_run (S i) gs' best
  end.

(** The printing loop from group [i] of the eight on; [fuel] bounds its at most
    eight turns. *)
Fixpoint print_groups (fuel i : nat) (gs : list Z) (run : nat * nat) : gostring :=
  match fuel with
  | O => []
  | S fuel =>
      if (8 <=? i)%nat then []
      else if bool_decide (i = run.1) && (run.1 <? run.2)%nat then
        if (8 <=? run.2)%nat then [58; 58]
        else [58; 58] ++ appendHex (default 0 (gs !! run.2)) ++
             print_groups fuel (S run.2) gs run
      else
        (if bool_decide (i = 0%nat) then [] else [58]) ++
        appendHex (default 0 (gs !! i)) ++ print_groups fuel (S i) gs run
  end.

Definition zone_suffix (zone : gostring) : gostring :=
  if bool_decide (zone = []) then [] else 37 :: zone.

Definition string6 (b : list Z) (zone : gostring) : gostring :=
  let gs := groups b in
  print_groups 8 0 gs (best_run 0 gs (255, 255)%nat) ++ zone_suffix zone.

Definition addr_string (a : Addr) : gostring :=
  match a with
  | V4 b => string4 b
  | V6 b zone =>
      if Is4In6 a then str "::ffff:" ++ string4 (drop 12 b) ++ zone_suffix zone
      else string6 b zone
  end.

(** ** Host and port *)

Definition LastIndexByte (s : gostring) (c : Z) : option nat :=
  match IndexByte (rev s) c with Some i => Some (length s - 1 - i)%nat | None => None end.

Definition byte_in (s : gostring) (c : Z) : bool :=
  match IndexByte s c with Some _ => true | None => false end.

(** [strings.ContainsAny]. *)
Definition ContainsAny (s chars : gostring) : bool := existsb (byte_in chars) s.

Definition SplitHostPort (hp : gostring) : option (gostring * gostring) :=
  match LastIndexByte hp 58 with
  | None => None
  | Some i =>
      let finish j k host :=
        if byte_in (drop j hp) 91 then None
        else if byte_in (drop k hp) 93 then None
        else Some (host, drop (S i) hp) in
      if bool_decide (head hp = Some 91) then
        match IndexByte hp 93 with
        | None => None
        | Some e =>
            if bool_decide (S e = length hp) then None
            else if bool_decide (S e = i) then finish 1%nat (S e) (take (e - 1) (drop 1 hp))
            else None
        end
      else
        let host := take i hp in
        if byte_in host 58 then None else finish 0%nat 0%nat host
  end.

Definition JoinHostPort (host port : gostring) : gostring :=
  if byte_in host 58 then 91 :: host ++ [93; 58] ++ port else host ++ 58 :: port.

(** [strconv.ParseUint(s, 10, bits)]. *)
Fixpoint parse_dec (s : gostring) (acc : Z) : option Z :=
  match s with
  | [] => Some acc
  | c :: s => if is_digit c then parse_dec s (acc * 10 + (c - 48)) else None
  end.

Definition ParseUint (s : gostring) (bits : Z) : option Z :=
  if bool_decide (s = []) then None
  else match parse_dec s 0 with
       | Some n => if n <? 2 ^ bits then Some n else None
       | None => None
       end.

(** ** Parsed addresses are well formed *)

Lemma ipv4_fields_ok s fields val digLen sep b :
  Forall is_byte fields -> 0 <= val <= 255 -> ipv4_fields s fields val digLen sep = Some b ->
  length b = 4%nat /\ Forall is_byte b.
Proof.
  revert fields val digLen sep. induction s as [|c s IH]; intros fields val digLen sep HF Hv; simpl.
  - case_bool_decide as E; [|done]. intros [= <-]. rewrite length_app, E. split; [done|].
    apply Forall_app. split; [done|]. repeat constructor; unfold is_byte; lia.
  - destruct (is_digit c) eqn:Ed.
    + destruct (_ && _); [done|]. destruct (255 <? _) eqn:E; [done|]. unfold is_digit in Ed. apply IH; [done|lia].
    + destruct (c =? 46); [|done]. destruct (_ || _); [done|]. case_bool_decide; [done|]. apply IH; [|lia].
      apply Forall_app. split; [done|]. repeat constructor; unfold is_byte; lia.
Qed.

Lemma parseIPv4Fields_ok s b : parseIPv4Fields s = Some b -> length b = 4%nat /\ Forall is_byte b.
Proof. apply ipv4_fields_ok; [constructor|lia]. Qed.

Lemma hex_group_ok s off acc v n rest :
  (off <= 4)%nat -> 0 <= acc < 16 ^ Z.of_nat off -> hex_group s off acc = Some (v, n, rest) -> 0 <= v < 65536.
Proof.
  revert off acc. induction s as [|c s IH]; intros off acc Ho Ha; simpl.
  - intros [= <- _ _]. assert (16 ^ Z.of_nat off <= 16 ^ 4) by (apply Z.pow_le_mono_r; lia). lia.
  - destruct (hex_digit c) as [d|] eqn:Ed.
    + destruct (3 <? off)%nat eqn:E; [done|]. apply Nat.ltb_ge in E. apply IH; [lia|].
      assert (Hd : 0 <= d < 16).
      { unfold hex_digit, is_digit in Ed. repeat (case_match; simplify_eq); try done; lia. }
      rewrite Nat2Z.inj_succ, Z.pow_succ_r by lia. lia.
    + intros [= <- _ _]. assert (16 ^ Z.of_nat off <= 16 ^ 4) by (apply Z.pow_le_mono_r; lia). lia.
Qed.

(** The bytes read so far and the position of the ellipsis among them. *)
Definition ipv6_partial (ip : list Z) (ell : option nat) : Prop :=
  Forall is_byte ip /\ (length ip <= 16)%nat /\ match ell with Some e => (e <= length ip)%nat | None => True end.

Lemma ipv6_groups_ok fuel s ip ell ip' ell' rest :
  ipv6_partial ip ell -> (length ip + 2 * fuel <= 16)%nat ->
  ipv6_groups fuel s ip ell = Some (ip', ell', rest) -> ipv6_partial ip' ell'.
Proof.
  revert s ip ell. induction fuel as [|fuel IH]; intros s ip ell HP Hl; [by intros [= <- <- _]|]. cbn [ipv6_groups].
  destruct (hex_group s 0 0) as [[[acc off] r]|] eqn:Eh; [|done].
  apply hex_group_ok in Eh; [|lia|lia]. case_bool_decide; [done|]. destruct HP as (H1 & H2 & H3).
  case_bool_decide.
  - destruct (_ && _); [done|]. destruct (16 <? length ip + 4)%nat eqn:E16; [done|]. apply Nat.ltb_ge in E16.
    destruct (parseIPv4Fields s) as [v4|] eqn:E4; [|done]. apply parseIPv4Fields_ok in E4 as [L4 F4].
    intros [= <- <- _]. split_and!; [by apply Forall_app|rewrite length_app; lia|].
    destruct ell; [rewrite length_app; lia|done].
  - set (ip1 := ip ++ [acc / 256; acc mod 256]).
    assert (HP1 : forall o, match o with Some e => (e <= length ip1)%nat | None => True end -> ipv6_partial ip1 o).
    { intros o Ho. split_and!; [|subst ip1; rewrite length_app; simpl; lia|done]. apply Forall_app. split; [done|].
      repeat constructor; unfold is_byte; zlia. }
    assert (Hl1 : length ip1 = (length ip + 2)%nat) by (subst ip1; by rewrite length_app).
    assert (He : match ell with Some e => (e <= length ip1)%nat | None => True end) by (destruct ell; [lia|done]).
    destruct r as [|c r]; [intros [= <- <- _]; by apply HP1|]. destruct (negb _); [done|].
    destruct r as [|c2 r2]; [done|]. destruct (c2 =? 58).
    + case_bool_decide; [done|]. destruct r2 as [|c3 r3]; [intros [= <- <- _]; by apply HP1|].
      apply IH; [by apply HP1|lia].
    + apply IH; [by apply HP1|lia].
Qed.

Lemma parseIPv6_ok s a : parseIPv6 s = Some a -> addr_ok a.
Proof.
  unfold parseIPv6. destruct (CutByte s 37) as [[s0 zone] z]. destruct (z && _); [done|].
  destruct (match s0 with 58 :: 58 :: s' => (s', Some 0%nat) | _ => (s0, None) end) as [s1 ell] eqn:E1.
  assert (Hell : ell = None \/ ell = Some 0%nat).
  { repeat case_match; simplify_eq; auto. }
  destruct (_ && _).
  - intros [= <-]. split; [done|]. by repeat constructor.
  - destruct (ipv6_groups 8 s1 [] ell) as [[[ip ell'] [|? ?]]|] eqn:Eg; try done.
    apply ipv6_groups_ok in Eg as (H1 & H2 & H3); [|split_and!; [constructor|simpl; lia|destruct Hell as [-> | ->]; simpl; lia || done]|simpl; lia].
    destruct (length ip <? 16)%nat eqn:El.
    + destruct ell' as [e|]; [|done]. intros [= <-]. apply Nat.ltb_lt in El. simpl. unfold expand_ellipsis. split.
      * rewrite !length_app, length_take, length_replicate, length_drop. lia.
      * rewrite !Forall_app. split_and!; [by apply Forall_take|apply Forall_replicate; unfold is_byte; lia|by apply Forall_drop].
    + case_bool_decide; [done|]. intros [= <-]. apply Nat.ltb_ge in El. simpl. split; [lia|done].
Qed.

Lemma ParseAddr_ok s a : ParseAddr s = Some a -> addr_ok a.
Proof.
  unfold ParseAddr. destruct (addr_kind s) as [k|]; [|done].
  destruct (decide (k = 46)) as [->|].
  - intros (b & E & ->)%fmap_Some. by apply parseIPv4Fields_ok in E.
  - destruct (decide (k = 58)) as [->|]; [apply parseIPv6_ok|].
    destruct k as [|p|p]; try done. do 6 (destruct p as [p|p|]; try done).
Qed.

(** ** Decimal numbers *)

Lemma decimal_aux_parse fuel n acc :
  0 <= n < 10 ^ Z.of_nat fuel -> (0 < fuel)%nat -> parse_dec (decimal_aux fuel n acc) 0 = parse_dec acc n.
Proof.
  revert n acc. induction fuel as [|fuel IH]; intros n acc Hn Hf; [lia|]. cbn [decimal_aux].
  assert (Hd : is_digit (48 + n mod 10) = true).
  { unfold is_digit. pose proof (Z.mod_pos_bound n 10 ltac:(lia)). lia. }
  rewrite Nat2Z.inj_succ, Z.pow_succ_r in Hn by lia. destruct (n <? 10) eqn:E.
  - cbn [parse_dec]. rewrite Hd. f_equal. rewrite Z.mod_small by lia. lia.
  - assert (Hq : 0 <= n / 10 < 10 ^ Z.of_nat fuel) by (split; [apply Z.div_pos; lia|apply Z.div_lt_upper_bound; lia]).
    assert (Hf' : (0 < fuel)%nat). { destruct fuel; [|lia]. change (10 ^ Z.of_nat 0) with 1 in Hn. lia. }
    rewrite IH by done. cbn [parse_dec]. rewrite Hd. f_equal.
    pose proof (Z.div_mod n 10 ltac:(lia)). lia.
Qed.

Lemma FormatUint_parse n : 0 <= n < 10 ^ 20 -> parse_dec (FormatUint n) 0 = Some n.
Proof. intros Hn. unfold FormatUint. by rewrite decimal_aux_parse by lia. Qed.

Lemma decimal_aux_digits fuel n acc :
  Forall (fun c => is_digit c = true) acc -> Forall (fun c => is_digit c = true) (decimal_aux fuel n acc).
Proof.
  revert n acc. induction fuel as [|fuel IH]; intros n acc HF; [done|]. cbn [decimal_aux].
  assert (HF' : Forall (fun c => is_digit c = true) ((48 + n mod 10) :: acc)).
  { constructor; [|done]. unfold is_digit. pose proof (Z.mod_pos_bound n 10 ltac:(lia)). lia. }
  destruct (n <? 10); [done|by apply IH].
Qed.

Lemma FormatUint_digit n c : c ∈ FormatUint n -> is_digit c = true.
Proof. pose proof (decimal_aux_digits 20 n [] (Forall_nil_2 _)) as HF. rewrite Forall_forall in HF. apply HF. Qed.

Lemma FormatUint_notin n c : is_digit c = false -> c ∉ FormatUint n.
Proof. intros Hc Hi%FormatUint_digit. by rewrite Hc in Hi. Qed.

Lemma FormatUint_inj n m : 0 <= n < 10 ^ 20 -> 0 <= m < 10 ^ 20 -> FormatUint n = FormatUint m -> n = m.
Proof. intros Hn Hm E. apply (f_equal (fun s => parse_dec s 0)) in E. rewrite !FormatUint_parse in E by done. by injection E. Qed.

(** A length printed in decimal, and the text after its separator. *)
Lemma Itoa_length_cut (x y : list Z) (s t : gostring) c :
  Z.of_nat (length x) <= max_int64 -> Z.of_nat (length y) <= max_int64 -> is_digit c = false ->
  Itoa (Z.of_nat (length x)) ++ c :: s = Itoa (Z.of_nat (length y)) ++ c :: t -> length x = length y /\ s = t.
Proof.
  intros Hx Hy Hc. unfold max_int64 in *. unfold Itoa. rewrite !(proj2 (Z.ltb_ge _ 0)) by lia.
  intros [E ->]%cut_unique; try by apply FormatUint_notin. apply FormatUint_inj in E; [split; [lia|done]|lia|lia].
Qed.
