(* ===== verification/NetipPrefix.v ===== *)
(** * Address prefixes, ports and the order on addresses

    The part of Go's net/netip that the trust, access and egress policies use
    beyond [Netip]: [ParseAddrPort], [Prefix] with [ParsePrefix], [Masked] and
    [Contains], [Addr.Compare], and the proof that [Addr.String] is read back by
    [ParseAddr].  The zero [netip.Addr], which Go calls invalid, is [None]. *)

From S2P Require Import Prelude GoStrings Bytes Netip.

(** ** Addresses as numbers *)

Definition addr_bytes (a : Addr) : list Z := match a with V4 b | V6 b _ => b end.
Definition BitLen (a : Addr) : Z := match a with V4 _ => 32 | V6 _ _ => 128 end.

Definition addr_val (a : Addr) : Z := be_val (addr_bytes a).

Definition with_val (a : Addr) (v : Z) : Addr :=
  match a with V4 _ => V4 (be_bytes 4 v) | V6 _ z => V6 (be_bytes 16 v) z end.

(** [Addr.Compare]: family, then value, then zone. *)
Definition addr_compare (a b : Addr) : comparison :=
  match BitLen a ?= BitLen b with
  | Eq => match addr_val a ?= addr_val b with
          | Eq => if string_eqb (Zone a) (Zone b) then Eq
                  else if string_ltb (Zone a) (Zone b) then Lt else Gt
          | c => c
          end
  | c => c
  end.

(** ** Address and port *)

(** [splitAddrPort] and [ParseAddrPort]: brackets exactly around IPv6. *)
Definition ParseAddrPort (s : gostring) : option (Addr * Z) :=
  match LastIndexByte s 58 with
  | None => None
  | Some i =>
      let ip := take i s in
      let port := drop (S i) s in
      if bool_decide (ip = []) || bool_decide (port = []) then None
      else
        let v6 := bool_decide (head ip = Some 91) in
        if v6 && ((length ip <? 2)%nat || negb (bool_decide (last ip = Some 93))) then None
        else
          let ip := if v6 then take (length ip - 2) (drop 1 ip) else ip in
          match ParseUint port 16, ParseAddr ip with
          | Some p, Some a => if Bool.eqb v6 (Is6 a) then Some (a, p) else None
          | _, _ => None
          end
  end.

(** ** Prefixes *)

Record Prefix := MkPrefix { p_Addr : Addr; p_Bits : Z }.

#[export] Instance Prefix_eq_dec : EqDecision Prefix.
Proof. solve_decision. Defined.

(** [PrefixFrom] drops the zone and keeps the host bits. *)
Definition PrefixFrom (a : Addr) (bits : Z) : Prefix := MkPrefix (WithZone a []) bits.

(** A valid prefix length for the address. *)
Definition prefix_ok (p : Prefix) : Prop :=
  addr_ok (p_Addr p) /\ Zone (p_Addr p) = [] /\ 0 <= p_Bits p <= BitLen (p_Addr p).

(** The length after the slash: no sign, no leading zero. *)
Definition prefix_len (s : gostring) (maxBits : Z) : option Z :=
  match s with
  | [] => None
  | c :: s' =>
      if negb (bool_decide (s' = [])) && negb ((49 <=? c) && (c <=? 57)) then None
      else match parse_dec s 0 with
           | Some n => if n <=? maxBits then Some n else None
           | None => None
           end
  end.

Definition netip_ParsePrefix (s : gostring) : option Prefix :=
  match LastIndexByte s 47 with
  | None => None
  | Some i =>
      match ParseAddr (take i s) with
      | None => None
      | Some ip =>
          if negb (bool_decide (Zone ip = [])) then None
          else PrefixFrom ip <$> prefix_len (drop (S i) s) (BitLen ip)
      end
  end.

Definition host_bits (p : Prefix) : Z := BitLen (p_Addr p) - p_Bits p.

(** [Masked]: the same length, the host bits cleared. *)
Definition Masked (p : Prefix) : Prefix :=
  MkPrefix (with_val (p_Addr p) (Z.shiftl (Z.shiftr (addr_val (p_Addr p)) (host_bits p)) (host_bits p)))
           (p_Bits p).

(** [Contains]: same family, no zone, and the bits that differ lie in the host
    part. *)
Definition Contains_addr (p : Prefix) (ip : Addr) : bool :=
  if negb (bool_decide (Zone ip = [])) then false
  else if negb (BitLen (p_Addr p) =? BitLen ip) then false
  else Z.shiftr (Z.lxor (addr_val ip) (addr_val (p_Addr p))) (host_bits p) =? 0.

(** ** Values and bytes *)

Lemma addr_val_range a : addr_ok a -> 0 <= addr_val a < 2 ^ BitLen a.
Proof.
  unfold addr_val. destruct a as [b|b z]; cbn [addr_ok addr_bytes BitLen]; intros [L F]; apply be_val_range in F; rewrite L in F; done.
Qed.

(** An address without zone is its family and value. *)
Lemma addr_val_inj a b :
  addr_ok a -> addr_ok b -> BitLen a = BitLen b -> addr_val a = addr_val b -> Zone a = Zone b -> a = b.
Proof.
  unfold addr_val. destruct a as [x|x z], b as [y|y z']; cbn [addr_ok addr_bytes BitLen Zone];
    intros [L1 F1] [L2 F2] E E2 E3; try done; subst;
    (f_equal; rewrite <- (be_bytes_val x), <- (be_bytes_val y) by done; by rewrite L1, L2, E2).
Qed.

Lemma with_val_ok a v : addr_ok (with_val a v).
Proof. destruct a; apply be_bytes_ok. Qed.

Lemma addr_val_with a v : 0 <= v < 2 ^ BitLen a -> addr_val (with_val a v) = v.
Proof. intros Hv. unfold addr_val. destruct a; cbn [with_val addr_bytes]; by apply be_val_bytes. Qed.

Lemma BitLen_with a v : BitLen (with_val a v) = BitLen a.
Proof. by destruct a. Qed.

(** ** What a prefix contains *)

Lemma shiftr_lxor_zero x y k :
  0 <= k -> 0 <= x -> 0 <= y -> Z.shiftr (Z.lxor x y) k = 0 <-> Z.shiftr x k = Z.shiftr y k.
Proof.
  intros Hk Hx Hy. rewrite Z.shiftr_lxor. apply Z.lxor_eq_0_iff.
Qed.

(** Containment is agreement on the network part. *)
Lemma Contains_spec p ip :
  prefix_ok p -> addr_ok ip ->
  Contains_addr p ip = true <->
  Zone ip = [] /\ BitLen ip = BitLen (p_Addr p) /\
  addr_val ip / 2 ^ host_bits p = addr_val (p_Addr p) / 2 ^ host_bits p.
Proof.
  intros (Hp & _ & Hb) Hip. apply addr_val_range in Hp, Hip. unfold Contains_addr.
  assert (Hh : 0 <= host_bits p) by (unfold host_bits; lia).
  case_bool_decide as Ez; simpl; [|split; [done|by intros (? & _)]].
  destruct (BitLen (p_Addr p) =? BitLen ip) eqn:El; simpl; [|split; [done|intros (_ & ? & _); lia]].
  rewrite Z.eqb_eq, shiftr_lxor_zero, !Z.shiftr_div_pow2 by lia. split; [intros ?; split_and!; [done|lia|done]|tauto].
Qed.

(** A prefix is its own mask when its host bits are clear. *)
Lemma Masked_fixed p :
  prefix_ok p -> Masked p = p <-> addr_val (p_Addr p) mod 2 ^ host_bits p = 0.
Proof.
  intros (Hp & Hz & Hb). pose proof (addr_val_range _ Hp) as Hv. destruct p as [a n]. unfold Masked. simpl in *.
  assert (Hh : 0 <= host_bits (MkPrefix a n)) by (unfold host_bits; simpl; lia).
  set (k := host_bits (MkPrefix a n)) in *. rewrite Z.shiftl_mul_pow2, Z.shiftr_div_pow2 by lia.
  pose proof (Z.pow_pos_nonneg 2 k ltac:(lia) Hh) as Hk.
  pose proof (Z.div_mod (addr_val a) (2 ^ k) ltac:(lia)) as Hd.
  pose proof (Z.mod_pos_bound (addr_val a) (2 ^ k) Hk) as Hm.
  assert (Hq : 0 <= addr_val a / 2 ^ k) by (apply Z.div_pos; lia).
  assert (Hr : 0 <= addr_val a / 2 ^ k * 2 ^ k < 2 ^ BitLen a) by nia.
  split.
  - intros [= E]. apply (f_equal addr_val) in E. rewrite addr_val_with in E by lia. lia.
  - intros E. f_equal. apply addr_val_inj; [apply with_val_ok|done|apply BitLen_with|rewrite addr_val_with; lia|].
    by destruct a.
Qed.

Lemma parse_dec_nonneg s acc n : 0 <= acc -> parse_dec s acc = Some n -> 0 <= n.
Proof.
  revert acc. induction s as [|c s IH]; intros acc Ha; simpl; [by intros [= <-]|].
  destruct (is_digit c) eqn:E; [|done]. unfold is_digit in E. apply IH. lia.
Qed.

Lemma prefix_len_ok s m n : prefix_len s m = Some n -> 0 <= n <= m.
Proof.
  destruct s as [|c s]; [done|]. unfold prefix_len. destruct (_ && _); [done|].
  destruct (parse_dec (c :: s) 0) as [k|] eqn:E; [|done]. apply parse_dec_nonneg in E; [|lia].
  destruct (k <=? m) eqn:El; [|done]. intros [= <-]. lia.
Qed.

Lemma addr_ok_WithZone a z : addr_ok a -> addr_ok (WithZone a z).
Proof. by destruct a. Qed.

Lemma BitLen_WithZone a z : BitLen (WithZone a z) = BitLen a.
Proof. by destruct a. Qed.

Lemma Zone_WithZone a : Zone (WithZone a []) = [].
Proof. by destruct a. Qed.

Lemma netip_ParsePrefix_ok s p : netip_ParsePrefix s = Some p -> prefix_ok p.
Proof.
  unfold netip_ParsePrefix. destruct (LastIndexByte s 47) as [i|]; [|done].
  destruct (ParseAddr (take i s)) as [ip|] eqn:E; [|done]. destruct (negb _); [done|].
  intros (n & Hn & ->)%fmap_Some. apply ParseAddr_ok in E. apply prefix_len_ok in Hn.
  split_and!; [by apply addr_ok_WithZone|apply Zone_WithZone|simpl; rewrite ?BitLen_WithZone; lia..].
Qed.

Lemma addr_ok_Unmap a : addr_ok a -> addr_ok (Unmap a).
Proof.
  destruct a as [b|b z]; [done|]. unfold Unmap. destruct (Is4In6 _); [|done]. cbn [addr_ok]. intros [L F].
  split; [rewrite length_drop; lia|by apply Forall_drop].
Qed.

(** ** The order on addresses and prefixes *)

Lemma addr_compare_eq a b : addr_ok a -> addr_ok b -> addr_compare a b = Eq <-> a = b.
Proof.
  intros Ha Hb. unfold addr_compare. split; [|intros ->; by rewrite !Z.compare_refl, (bool_decide_true _ eq_refl : string_eqb _ _ = true)].
  destruct (Z.compare_spec (BitLen a) (BitLen b)); [|done..].
  destruct (Z.compare_spec (addr_val a) (addr_val b)); [|done..].
  unfold string_eqb. case_bool_decide; [|by destruct (string_ltb _ _)]. intros _. by apply addr_val_inj.
Qed.

(** [Compare] is the lexicographic order on family, value and zone. *)
Definition addr_key (a : Addr) : gostring := BitLen a :: addr_val a :: Zone a.

Lemma addr_compare_key a b :
  addr_compare a b =
  if string_eqb (addr_key a) (addr_key b) then Eq
  else if string_ltb (addr_key a) (addr_key b) then Lt else Gt.
Proof.
  unfold addr_compare, addr_key, string_eqb. cbn [string_ltb].
  destruct (Z.compare_spec (BitLen a) (BitLen b)) as [E1|E1|E1].
  - rewrite E1, Z.eqb_refl. destruct (Z.compare_spec (addr_val a) (addr_val b)) as [E2|E2|E2].
    + rewrite E2, Z.eqb_refl. repeat case_bool_decide; congruence.
    + rewrite bool_decide_false by (intros [=]; lia). by rewrite (proj2 (Z.eqb_neq _ _)), (proj2 (Z.ltb_lt _ _)) by lia.
    + rewrite bool_decide_false by (intros [=]; lia). by rewrite (proj2 (Z.eqb_neq _ _)), (proj2 (Z.ltb_ge _ _)) by lia.
  - rewrite bool_decide_false by (intros [=]; lia). by rewrite (proj2 (Z.eqb_neq _ _)), (proj2 (Z.ltb_lt _ _)) by lia.
  - rewrite bool_decide_false by (intros [=]; lia). by rewrite (proj2 (Z.eqb_neq _ _)), (proj2 (Z.ltb_ge _ _)) by lia.
Qed.

(** The order that sorts prefixes: by address, then by length. *)
Definition prefix_less (p q : Prefix) : bool :=
  match addr_compare (p_Addr p) (p_Addr q) with
  | Lt => true
  | Gt => false
  | Eq => p_Bits p <? p_Bits q
  end.

Definition prefix_le (p q : Prefix) : Prop := prefix_less q p = false.

#[export] Instance prefix_le_dec p q : Decision (prefix_le p q).
Proof. unfold prefix_le. apply _. Defined.

Lemma prefix_less_key p q :
  prefix_less p q = string_ltb (addr_key (p_Addr p)) (addr_key (p_Addr q)) ||
                    (string_eqb (addr_key (p_Addr p)) (addr_key (p_Addr q)) && (p_Bits p <? p_Bits q)).
Proof.
  unfold prefix_less. rewrite addr_compare_key. unfold string_eqb. case_bool_decide as E.
  - by rewrite E, string_ltb_irrefl.
  - destruct (string_ltb _ _); done.
Qed.

#[export] Instance prefix_le_total : Total prefix_le.
Proof.
  intros p q. unfold prefix_le. rewrite !prefix_less_key. unfold string_eqb.
  destruct (decide (addr_key (p_Addr p) = addr_key (p_Addr q))) as [E|E].
  - rewrite E, string_ltb_irrefl, bool_decide_true by done. simpl. lia.
  - rewrite !bool_decide_false by congruence. simpl. rewrite !orb_false_r.
    destruct (string_ltb_total _ _ E) as [H|H]; apply string_ltb_asym in H; auto.
Qed.

#[export] Instance prefix_le_trans : Transitive prefix_le.
Proof.
  intros p q r. unfold prefix_le. rewrite !prefix_less_key. unfold string_eqb.
  generalize (addr_key (p_Addr p)) (addr_key (p_Addr q)) (addr_key (p_Addr r)). intros x y z.
  rewrite !orb_false_iff, !andb_false_iff, !bool_decide_eq_false. intros [H1 H2] [H3 H4].
  destruct (decide (z = x)) as [->|Hzx].
  - split; [apply string_ltb_irrefl|]. right. destruct (decide (x = y)) as [->|Hxy].
    + destruct H2, H4; try done. lia.
    + destruct (string_ltb_total _ _ Hxy); congruence.
  - split; [|by left]. destruct (string_ltb z x) eqn:E; [|done].
    destruct (decide (x = y)) as [->|Hxy]; [congruence|].
    destruct (string_ltb_total _ _ Hxy) as [H|H]; [|congruence].
    by rewrite (string_ltb_trans _ _ _ E H) in H3.
Qed.

(** On valid prefixes the order is antisymmetric, so sorting is canonical. *)
Lemma prefix_le_antisym p q :
  prefix_ok p -> prefix_ok q -> prefix_le p q -> prefix_le q p -> p = q.
Proof.
  intros (Hp & Zp & _) (Hq & Zq & _). unfold prefix_le. rewrite !prefix_less_key. unfold string_eqb.
  rewrite !orb_false_iff, !andb_false_iff, !bool_decide_eq_false. intros [H1 H2] [H3 H4].
  destruct (decide (addr_key (p_Addr p) = addr_key (p_Addr q))) as [E|E].
  - destruct H2 as [|H2], H4 as [|H4]; try congruence.
    destruct p as [a n], q as [b m]. unfold addr_key in E. simpl in *. injection E as E1 E2 _.
    f_equal; [apply addr_val_inj; congruence|lia].
  - destruct (string_ltb_total _ _ E); congruence.
Qed.

Lemma merge_sort_unique l k :
  Forall prefix_ok l -> l ≡ₚ k -> merge_sort prefix_le l = merge_sort prefix_le k.
Proof.
  intros HF HP. apply (StronglySorted_unique_strong prefix_le).
  - intros p q Hp Hq. rewrite merge_sort_Permutation in Hp. rewrite merge_sort_Permutation, <- HP in Hq.
    rewrite Forall_forall in HF. apply prefix_le_antisym; auto.
  - apply StronglySorted_merge_sort; apply _.
  - apply StronglySorted_merge_sort; apply _.
  - by rewrite !merge_sort_Permutation.
Qed.

(** ** Printing an address and reading it back *)

Lemma ipv4_digit c s fields v n sep :
  is_digit c = true -> (n = 1%nat -> v <> 0) -> v * 10 + (c - 48) <= 255 ->
  ipv4_fields (c :: s) fields v n sep = ipv4_fields s fields (v * 10 + (c - 48)) (S n) false.
Proof.
  intros Hd Hn Hv. cbn [ipv4_fields]. rewrite Hd.
  rewrite (proj2 (Z.ltb_ge 255 _)) by lia. case_bool_decide; simpl; [|done].
  by rewrite (proj2 (Z.eqb_neq v 0)) by auto.
Qed.

(** The digits of a byte. *)
Lemma FormatUint_byte x : is_byte x ->
  FormatUint x = if x <? 10 then [48 + x] else if x <? 100 then [48 + x / 10; 48 + x mod 10]
                 else [48 + x / 100; 48 + x / 10 mod 10; 48 + x mod 10].
Proof.
  unfold is_byte. intros Hx. unfold FormatUint. cbn [decimal_aux]. destruct (x <? 10) eqn:E1.
  - by rewrite Z.mod_small by lia.
  - destruct (x / 10 <? 10) eqn:E2; destruct (x <? 100) eqn:E3; try zlia.
    + rewrite (Z.mod_small (x / 10)) by zlia. done.
    + rewrite Z.div_div by lia. rewrite (proj2 (Z.ltb_lt (x / (10 * 10)) 10)) by zlia.
      by rewrite (Z.mod_small (x / (10 * 10))) by zlia.
Qed.

Lemma ipv4_fields_byte x s fields : is_byte x ->
  exists n, ipv4_fields (FormatUint x ++ s) fields 0 0 true = ipv4_fields s fields x (S n) false.
Proof.
  intros Hx. rewrite FormatUint_byte by done. unfold is_byte in Hx.
  assert (D : forall y, 0 <= y < 10 -> is_digit (48 + y) = true) by (unfold is_digit; lia).
  destruct (x <? 10) eqn:E1; [|destruct (x <? 100) eqn:E2]; cbn [app].
  - exists 0%nat. rewrite ipv4_digit by (lia || apply D; lia). f_equal. lia.
  - exists 1%nat. do 2 (rewrite ipv4_digit by (zlia || apply D; zlia)). f_equal. zlia.
  - exists 2%nat. do 3 (rewrite ipv4_digit by (zlia || apply D; zlia)). f_equal. zlia.
Qed.

Lemma FormatUint_nonempty x : FormatUint x <> [].
Proof.
  assert (H : forall f n acc, (acc <> [] \/ 0 < f)%nat -> decimal_aux f n acc <> []).
  { induction f as [|f IH]; intros n acc Ha; [destruct Ha; [done|lia]|]. cbn [decimal_aux].
    destruct (n <? 10); [done|]. apply IH. by left. }
  apply H. right. lia.
Qed.

Lemma ipv4_dot s fields x n : s <> [] -> (length fields < 3)%nat ->
  ipv4_fields (46 :: s) fields x n false = ipv4_fields s (fields ++ [x]) 0 0 true.
Proof. intros Hs Hf. cbn. rewrite (bool_decide_false (s = [])) by done. by rewrite bool_decide_false by lia. Qed.

Lemma parseIPv4_string b : length b = 4%nat -> Forall is_byte b -> parseIPv4Fields (string4 b) = Some b.
Proof.
  intros L F. destruct b as [|b0 [|b1 [|b2 [|b3 [|]]]]]; try done.
  apply Forall_cons in F as [H0 F]. apply Forall_cons in F as [H1 F]. apply Forall_cons in F as [H2 F].
  apply Forall_cons in F as [H3 _]. unfold parseIPv4Fields, string4.
  assert (HN : forall x s, FormatUint x ++ s <> []).
  { intros x s E. apply app_eq_nil in E as [E _]. by apply FormatUint_nonempty in E. }
  edestruct (ipv4_fields_byte b0) as [n0 ->]; [done|]. rewrite ipv4_dot by (apply HN || simpl; lia).
  edestruct (ipv4_fields_byte b1) as [n1 ->]; [done|]. rewrite ipv4_dot by (apply HN || simpl; lia).
  edestruct (ipv4_fields_byte b2) as [n2 ->]; [done|].
  rewrite ipv4_dot by (apply FormatUint_nonempty || simpl; lia). rewrite <- (app_nil_r (FormatUint b3)).
  edestruct (ipv4_fields_byte b3) as [n3 ->]; done.
Qed.

Lemma addr_kind_digits s t : Forall (fun c => is_digit c = true) s -> addr_kind (s ++ 46 :: t) = Some 46.
Proof.
  induction 1 as [|c s Hc _ IH]; [done|]. cbn [app addr_kind]. unfold is_digit in Hc.
  by rewrite (proj2 (Z.eqb_neq c 46)), (proj2 (Z.eqb_neq c 58)), (proj2 (Z.eqb_neq c 37)) by lia.
Qed.

Lemma ParseAddr_string4 b : length b = 4%nat -> Forall is_byte b -> ParseAddr (string4 b) = Some (V4 b).
Proof.
  intros L F. unfold ParseAddr. pose proof (parseIPv4_string b L F) as E.
  destruct b as [|b0 [|b1 [|b2 [|b3 [|]]]]]; try done. unfold string4 in *.
  rewrite addr_kind_digits by (by apply decimal_aux_digits). by rewrite E.
Qed.

Lemma hex_step d s off acc :
  0 <= d < 16 -> (off <= 3)%nat -> hex_group (hex_char d :: s) off acc = hex_group s (S off) (acc * 16 + d).
Proof.
  intros Hd Ho. cbn [hex_group].
  assert (E : hex_digit (hex_char d) = Some d).
  { unfold hex_digit, hex_char, is_digit. destruct (d <? 10) eqn:E; repeat case_match; try lia; f_equal; lia. }
  rewrite E. by rewrite (proj2 (Nat.ltb_ge 3 off)) by lia.
Qed.

Lemma hex_stop s off acc :
  (forall c, head s = Some c -> hex_digit c = None) -> hex_group s off acc = Some (acc, off, s).
Proof. destruct s as [|c s]; intros H; simpl; [done|]. by rewrite (H c). Qed.

(** A printed group is read back up to the first byte that is no hex digit. *)
Lemma hex_group_append g s :
  0 <= g < 65536 -> (forall c, head s = Some c -> hex_digit c = None) ->
  exists n, hex_group (appendHex g ++ s) 0 0 = Some (g, S n, s).
Proof.
  intros Hg Hs. unfold appendHex.
  destruct (4096 <=? g) eqn:E1, (256 <=? g) eqn:E2, (16 <=? g) eqn:E3; try lia; cbn [app];
    rewrite ?hex_step by (lia || zlia); rewrite hex_stop by done; eexists; f_equal; f_equal; f_equal; zlia.
Qed.

Lemma appendHex_head g : 0 <= g < 65536 -> exists d t, appendHex g = hex_char d :: t /\ 0 <= d < 16.
Proof.
  intros Hg. unfold appendHex.
  destruct (4096 <=? g) eqn:E1, (256 <=? g) eqn:E2, (16 <=? g) eqn:E3; try lia; cbn [app]; eexists _, _; split;
    [reflexivity|zlia|reflexivity|zlia|reflexivity|zlia|reflexivity|zlia].
Qed.

Lemma hex_char_ne d : 0 <= d < 16 -> hex_char d <> 58 /\ hex_char d <> 37 /\ hex_char d <> 46.
Proof. unfold hex_char. destruct (d <? 10) eqn:E; lia. Qed.

Lemma appendHex_chars g c : 0 <= g < 65536 -> c ∈ appendHex g -> exists d, 0 <= d < 16 /\ c = hex_char d.
Proof.
  intros Hg. unfold appendHex. rewrite !elem_of_app.
  assert (D : 0 <= g / 4096 < 16 /\ 0 <= g / 256 mod 16 < 16 /\ 0 <= g / 16 mod 16 < 16 /\ 0 <= g mod 16 < 16) by zlia.
  destruct D as (D1 & D2 & D3 & D4).
  intros [H|[H|[H|H]]]; repeat case_match; first [apply list_elem_of_singleton in H; eauto|by apply elem_of_nil in H].
Qed.

Definition group_ok (g : Z) : Prop := 0 <= g < 65536.
Definition group_bytes (gs : list Z) : list Z := concat (map (fun g => [g / 256; g mod 256]) gs).
Definition print_join (gs : list Z) : gostring := JoinByte (map appendHex gs) 58.

Lemma group_bytes_cons g gs : group_bytes (g :: gs) = [g / 256; g mod 256] ++ group_bytes gs.
Proof. done. Qed.

Lemma group_bytes_length gs : length (group_bytes gs) = (2 * length gs)%nat.
Proof. induction gs as [|g gs IH]; [done|]. rewrite group_bytes_cons, length_app, IH. simpl. lia. Qed.

Lemma print_join_head gs : Forall group_ok gs -> gs <> [] ->
  exists d t, print_join gs = hex_char d :: t /\ 0 <= d < 16.
Proof.
  intros HF Hn. destruct HF as [|g gs Hg HF]; [done|]. destruct (appendHex_head g Hg) as (d & t & E & Hd).
  unfold print_join. destruct gs as [|g' gs]; cbn [map]; [by exists d, t; rewrite <- E|].
  rewrite JoinByte_cons by done. rewrite E. by eexists _, _.
Qed.

(** The groups of one run without ellipsis. *)
Lemma ipv6_groups_join gs fuel ip ell :
  Forall group_ok gs -> gs <> [] -> (length gs <= fuel)%nat ->
  ipv6_groups fuel (print_join gs) ip ell = Some (ip ++ group_bytes gs, ell, []).
Proof.
  intros HF. revert fuel ip. induction HF as [|g gs Hg HF IH]; intros fuel ip Hn Hf; [done|].
  destruct fuel as [|fuel]; simpl in Hf; [lia|]. cbn [ipv6_groups]. destruct gs as [|g' gs].
  - unfold print_join. cbn [map JoinByte]. rewrite <- (app_nil_r (appendHex g)).
    destruct (hex_group_append g [] Hg) as [n ->]; [done|]. done.
  - assert (E : print_join (g :: g' :: gs) = appendHex g ++ 58 :: print_join (g' :: gs)) by done. rewrite E.
    destruct (hex_group_append g (58 :: print_join (g' :: gs)) Hg) as [n ->]; [by intros c [= <-]|].
    destruct (print_join_head (g' :: gs) HF ltac:(done)) as (d & t & Ej & Hd).
    rewrite Ej. apply hex_char_ne in Hd as (Hd & _ & _).
    cbn -[ipv6_groups]. rewrite (proj2 (Z.eqb_neq _ _) Hd). rewrite <- Ej, IH by (done || simpl in *; lia).
    by rewrite <- app_assoc.
Qed.

(** A run, the ellipsis and a possibly empty second run. *)
Lemma ipv6_groups_ellipsis gs gs' fuel ip :
  Forall group_ok gs -> Forall group_ok gs' -> gs <> [] -> (length gs + length gs' <= fuel)%nat ->
  ipv6_groups fuel (print_join gs ++ [58; 58] ++ print_join gs') ip None =
  Some (ip ++ group_bytes gs ++ group_bytes gs', Some (length ip + 2 * length gs)%nat, []).
Proof.
  intros HF HF'. revert fuel ip. induction HF as [|g gs Hg HF IH]; intros fuel ip Hn Hf; [done|].
  destruct fuel as [|fuel]; simpl in Hf; [lia|]. cbn [ipv6_groups]. destruct gs as [|g' gs].
  - unfold print_join at 1. cbn [map JoinByte].
    destruct (hex_group_append g ([58; 58] ++ print_join gs') Hg) as [n ->]; [by intros c [= <-]|].
    rewrite bool_decide_false by done. cbn [app head]. rewrite bool_decide_false by done.
    rewrite (bool_decide_false (None <> None)) by (intros []; done). cbn -[ipv6_groups].
    rewrite length_app. destruct gs' as [|g2 gs']; [done|].
    destruct (print_join_head (g2 :: gs') HF' ltac:(done)) as (d & t & Ej & _). rewrite Ej, <- Ej.
    rewrite ipv6_groups_join by (done || simpl in *; lia). by rewrite <- app_assoc.
  - assert (E : print_join (g :: g' :: gs) = appendHex g ++ 58 :: print_join (g' :: gs)) by done.
    rewrite E, <- app_assoc. cbn [app].
    match goal with |- context [hex_group (_ ++ 58 :: ?s)] => set (rest := s) in * end.
    destruct (hex_group_append g (58 :: rest) Hg) as [n ->]; [by intros c [= <-]|].
    destruct (print_join_head (g' :: gs) HF ltac:(done)) as (d & t & Ej & Hd).
    assert (Er : rest = hex_char d :: t ++ 58 :: 58 :: print_join gs') by (subst rest; by rewrite Ej).
    rewrite Er. apply hex_char_ne in Hd as (Hd & _ & _).
    cbn -[ipv6_groups]. rewrite (proj2 (Z.eqb_neq _ _) Hd). rewrite <- Er. subst rest.
    rewrite IH by (done || simpl in *; lia). rewrite length_app, <- app_assoc. f_equal. f_equal. f_equal. f_equal. simpl. lia.
Qed.

(** The run of zero groups that the printer elides. *)
Definition run_ok (gs : list Z) (run : nat * nat) : Prop :=
  run = (255, 255)%nat \/
  (run.1 < run.2 <= length gs)%nat /\ forall i, (run.1 <= i < run.2)%nat -> gs !! i = Some 0.

Lemma zero_run_spec gs : (zero_run gs <= length gs)%nat /\ forall i, (i < zero_run gs)%nat -> gs !! i = Some 0.
Proof.
  induction gs as [|g gs [L H]]; [split; [done|simpl; lia]|]. destruct g as [|p|p]; cbn [zero_run length]; [|split; lia..].
  split; [lia|]. intros [|i] Hi; [done|]. apply H. lia.
Qed.

Lemma best_run_ok all i gs best :
  gs = drop i all -> run_ok all best -> run_ok all (best_run i gs best).
Proof.
  revert i best. induction gs as [|g gs IH]; intros i best E HR; [done|]. cbn [best_run]. apply IH.
  - apply (f_equal (drop 1)) in E. by rewrite drop_drop, Nat.add_1_r in E.
  - destruct (_ && _) eqn:Eb; [|done]. apply andb_true_iff in Eb as [Eb _]. apply Nat.leb_le in Eb.
    destruct (zero_run_spec (g :: gs)) as [L H]. right. rewrite E in *. rewrite length_drop in L. simpl.
    split; [lia|]. intros j Hj. specialize (H (j - i)%nat ltac:(lia)). rewrite lookup_drop in H.
    by replace (i + (j - i))%nat with j in H by lia.
Qed.

Lemma print_groups_join gs run : length gs = 8%nat -> run_ok gs run ->
  print_groups 8 0 gs run =
  if bool_decide (run = (255, 255)%nat) then print_join gs
  else print_join (take run.1 gs) ++ [58; 58] ++ print_join (drop run.2 gs).
Proof.
  intros L [-> | [[H1 H2] _]]; destruct gs as [|g0 [|g1 [|g2 [|g3 [|g4 [|g5 [|g6 [|g7 [|]]]]]]]]]; try done.
  - unfold print_join. cbn -[appendHex]. by rewrite ?app_nil_r.
  - destruct run as [a e]. cbn [fst snd] in *. clear L.
    rewrite bool_decide_false by (intros [= -> ->]; simpl in H2; lia). unfold print_join.
    destruct e as [|[|[|[|[|[|[|[|[|e]]]]]]]]]; try (exfalso; simpl in *; lia);
      destruct a as [|[|[|[|[|[|[|[|a]]]]]]]]; try (exfalso; simpl in *; lia);
      cbn -[appendHex]; repeat (rewrite <- app_assoc; cbn [app]); rewrite ?app_nil_r; reflexivity.
Qed.

Lemma print_join_chars gs c : Forall group_ok gs -> c ∈ print_join gs -> c = 58 \/ exists d, 0 <= d < 16 /\ c = hex_char d.
Proof.
  unfold print_join. induction 1 as [|g gs Hg HF IH]; cbn [map]; [by intros ?%elem_of_nil|].
  destruct gs as [|g' gs]; [intros H; right; by apply (appendHex_chars g)|].
  rewrite JoinByte_cons by done. rewrite elem_of_app, elem_of_cons. intros [H|[H|H]]; [right; by apply (appendHex_chars g)|by left|by apply IH].
Qed.

Lemma group_bytes_app a b : group_bytes (a ++ b) = group_bytes a ++ group_bytes b.
Proof. unfold group_bytes. by rewrite map_app, concat_app. Qed.

Lemma group_bytes_zero n gs : length gs = n -> (forall i, (i < n)%nat -> gs !! i = Some 0) -> group_bytes gs = replicate (2 * n) 0.
Proof.
  revert gs. induction n as [|n IH]; intros [|g gs] L H; try done. specialize (H 0%nat ltac:(lia)) as H0. injection H0 as ->.
  rewrite group_bytes_cons, (IH gs); [|by injection L|intros i Hi; apply (H (S i)); lia].
  replace (2 * S n)%nat with (S (S (2 * n))) by lia. done.
Qed.

Lemma groups_ok b : length b = 16%nat -> Forall is_byte b ->
  length (groups b) = 8%nat /\ Forall group_ok (groups b) /\ group_bytes (groups b) = b.
Proof.
  intros L F. do 16 (destruct b as [|? b]; [done|]). destruct b; [|done].
  repeat match goal with H : Forall _ (_ :: _) |- _ => apply Forall_cons in H as [? H] end.
  unfold is_byte in *. split_and!; [done|repeat constructor; unfold group_ok; lia|].
  assert (P : forall a c, 0 <= c < 256 -> (a * 256 + c) / 256 = a /\ (a * 256 + c) mod 256 = c) by (intros; zlia).
  cbn. repeat match goal with |- context [(?a * 256 + ?c) / 256] => destruct (P a c) as [-> ->]; [lia|] end. done.
Qed.

(** The printed form of the groups has only hex digits and colons. *)
Lemma print6_chars gs run c : Forall group_ok gs -> length gs = 8%nat -> run_ok gs run ->
  c ∈ print_groups 8 0 gs run -> c = 58 \/ exists d, 0 <= d < 16 /\ c = hex_char d.
Proof.
  intros HG L HR. rewrite print_groups_join by done. case_bool_decide; [by apply print_join_chars|].
  rewrite !elem_of_app, elem_of_cons, list_elem_of_singleton.
  intros [Hc|[[Hc|Hc]|Hc]]; [|by left|by left|].
  - apply print_join_chars in Hc; [done|by apply Forall_take].
  - apply print_join_chars in Hc; [done|by apply Forall_drop].
Qed.

Lemma no_ellipsis c (t : gostring) : c <> 58 ->
  match c :: t with 58 :: 58 :: s' => (s', Some 0%nat) | _ => (c :: t, None) end = (c :: t, None).
Proof. intros Hc. destruct c as [|p|p]; try done. do 6 (destruct p as [p|p|]; try done). Qed.

Lemma group_bytes_run gs a e : (a <= e <= length gs)%nat -> (forall i, (a <= i < e)%nat -> gs !! i = Some 0) ->
  group_bytes gs = group_bytes (take a gs) ++ replicate (2 * (e - a)) 0 ++ group_bytes (drop e gs).
Proof.
  intros Hae HZ. rewrite <- (take_drop a gs) at 1. rewrite group_bytes_app. f_equal.
  rewrite <- (take_drop (e - a) (drop a gs)), group_bytes_app, drop_drop.
  replace (a + (e - a))%nat with e by lia. f_equal. apply group_bytes_zero.
  - rewrite length_take, length_drop. lia.
  - intros i Hi. rewrite lookup_take_lt by lia. rewrite lookup_drop. apply HZ. lia.
Qed.

(** Re-inserting the elided groups. *)
Lemma expand_run gs a e ip :
  length gs = 8%nat -> (a < e <= 8)%nat -> (forall i, (a <= i < e)%nat -> gs !! i = Some 0) ->
  ip = group_bytes (take a gs) ++ group_bytes (drop e gs) ->
  (length ip <? 16)%nat = true /\ expand_ellipsis ip (2 * a) = group_bytes gs.
Proof.
  intros L Hae HZ ->. assert (Lt : length (take a gs) = a) by (rewrite length_take; lia). unfold expand_ellipsis.
  rewrite length_app, !group_bytes_length, length_drop, Lt, L. split; [apply Nat.ltb_lt; lia|].
  assert (Ll : length (group_bytes (take a gs)) = (2 * a)%nat) by (by rewrite group_bytes_length, Lt).
  rewrite take_app_length', drop_app_length' by done. rewrite (group_bytes_run gs a e) by (done || lia).
  do 3 f_equal. lia.
Qed.

(** Reading the groups, given their three printed shapes. *)
Lemma parseIPv6_string b : length b = 16%nat -> Forall is_byte b -> parseIPv6 (string6 b []) = Some (V6 b []).
Proof.
  intros L F. destruct (groups_ok b L F) as (Lg & HG & Eb). unfold string6, parseIPv6.
  assert (HR : run_ok (groups b) (best_run 0 (groups b) (255, 255)%nat)) by (apply best_run_ok; [reflexivity|by left]).
  revert HR. generalize (best_run 0 (groups b) (255, 255)%nat). intros run HR.
  change (zone_suffix []) with (@nil Z). rewrite app_nil_r. set (gs := groups b) in *.
  rewrite CutByte_notin.
  2: { intros H. destruct (print6_chars _ _ _ HG Lg HR H) as [?|(d & Hd & E)]; [done|].
       by apply hex_char_ne in Hd as (_ & Hd & _). }
  cbn [andb]. rewrite print_groups_join by done. destruct HR as [-> | [[H1 H2] HZ]].
  - rewrite bool_decide_true by done. destruct (print_join_head gs HG) as (d & t & Ej & Hd); [by intros ->|].
    apply hex_char_ne in Hd as (Hd & _ & _). rewrite Ej, no_ellipsis, <- Ej by done.
    rewrite (bool_decide_false (print_join gs = [])) by (by rewrite Ej). cbn [andb].
    rewrite ipv6_groups_join by (done || lia || by intros ->). cbn [app]. by rewrite Eb, L.
  - rewrite bool_decide_false by (intros ->; simpl in *; lia).
    rewrite Lg in H2. pose proof (expand_run gs run.1 run.2) as Hx. rewrite Eb in Hx.
    assert (Lt : length (take run.1 gs) = run.1) by (rewrite length_take; lia).
    destruct (decide (run.1 = 0%nat)) as [E0|E0].
    + rewrite E0 in *. change (print_join (take 0 gs)) with (@nil Z). cbn [app]. destruct (decide (run.2 = 8%nat)) as [E8|E8].
      * rewrite E8, drop_ge in * by lia. destruct (Hx [] Lg ltac:(lia) HZ eq_refl) as [_ X2]. cbn in *. by rewrite <- X2.
      * destruct (Hx (group_bytes (drop run.2 gs)) Lg ltac:(lia) HZ eq_refl) as [X1 X2].
        assert (HD : Forall group_ok (drop run.2 gs)) by (by apply Forall_drop).
        assert (Hn : drop run.2 gs <> []). { intros E. apply (f_equal length) in E. rewrite length_drop in E. simpl in E. lia. }
        destruct (print_join_head _ HD Hn) as (d & t & Ej & _).
        rewrite (bool_decide_false (print_join _ = [])) by (by rewrite Ej). cbn [andb].
        rewrite ipv6_groups_join by (done || rewrite length_drop; lia). cbn [app]. rewrite X1. by rewrite (X2 : expand_ellipsis _ 0 = b).
    + assert (HT : Forall group_ok (take run.1 gs)) by (by apply Forall_take).
      assert (Hn : take run.1 gs <> []) by (intros E; rewrite E in Lt; simpl in Lt; lia).
      destruct (print_join_head _ HT Hn) as (d & t & Ej & Hd). apply hex_char_ne in Hd as (Hd & _ & _).
      rewrite Ej. cbn [app]. rewrite no_ellipsis by done. rewrite bool_decide_false by done. cbn [andb].
      rewrite app_comm_cons, <- Ej.
      pose proof (ipv6_groups_ellipsis _ (drop run.2 gs) 8 [] HT ltac:(by apply Forall_drop) Hn
        ltac:(rewrite Lt, length_drop; lia)) as Eg. cbn [app] in Eg. rewrite Eg.
      destruct (Hx _ Lg ltac:(lia) HZ eq_refl) as [X1 X2]. cbn [length]. by rewrite Nat.add_0_l, Lt, X1, X2.
Qed.

Lemma addr_kind_string6 b : length b = 16%nat -> Forall is_byte b -> addr_kind (string6 b []) = Some 58.
Proof.
  intros L F. destruct (groups_ok b L F) as (Lg & HG & Eb).
  assert (HR : run_ok (groups b) (best_run 0 (groups b) (255, 255)%nat)) by (apply best_run_ok; [reflexivity|by left]).
  assert (HC : forall s, (forall c, c ∈ s -> c = 58 \/ exists d, 0 <= d < 16 /\ c = hex_char d) -> 58 ∈ s -> addr_kind s = Some 58).
  { induction s as [|c s IH]; intros Hs H; [by apply elem_of_nil in H|]. cbn [addr_kind].
    destruct (Hs c ltac:(left)) as [-> |(d & Hd & ->)]; [done|]. apply hex_char_ne in Hd as (N1 & N2 & N3).
    rewrite !(proj2 (Z.eqb_neq _ _)) by done. cbn [orb]. apply IH; [intros c Hc; apply Hs; by right|].
    apply elem_of_cons in H as [H|H]; [congruence|done]. }
  apply HC; unfold string6; change (zone_suffix []) with (@nil Z); rewrite app_nil_r.
  - intros c. by apply print6_chars.
  - rewrite print_groups_join by done. case_bool_decide.
    + destruct (groups b) as [|g0 [|g1 gs]]; try done. unfold print_join. cbn [map]. rewrite JoinByte_cons by done.
      rewrite elem_of_app, elem_of_cons. auto.
    + rewrite !elem_of_app, elem_of_cons. auto.
Qed.

(** [ParseAddr] reads back what [String] prints, for an address without zone
    that is not IPv4 mapped; so distinct addresses have distinct texts. *)
Lemma ParseAddr_string a :
  addr_ok a -> Zone a = [] -> Is4In6 a = false -> ParseAddr (addr_string a) = Some a.
Proof.
  destruct a as [b|b z]; cbn [addr_ok Zone addr_string]; intros [L F] Ez E4; [by apply ParseAddr_string4|].
  subst z. rewrite E4. unfold ParseAddr. rewrite addr_kind_string6 by done. by apply parseIPv6_string.
Qed.
