(* ===== verification/Http.v ===== *)
(** * Headers and requests

    What the routing and middleware code uses of Go's [net/http] and
    [net/textproto]: header maps under canonical names, and the fields of a
    request it reads.  Case folding and trimming of text outside ASCII follow
    the Unicode tables of the standard library, which are a parameter. *)

From S2P Require Import Prelude GoStrings.

(** ** Text outside ASCII *)

Definition ascii (s : gostring) : bool := forallb (fun b => b <? 128) s.

(** Trimming is stable: trimmed text has no white space left at its ends. *)
Class Unicode := {
  uni_lower : gostring -> gostring;
  uni_upper : gostring -> gostring;
  uni_trim : gostring -> gostring;
  uni_fold : gostring -> gostring -> bool;
  uni_fields : gostring -> list gostring;
  uni_trim_idem : forall s, ascii s = false ->
    (if ascii (uni_trim s) then Trim ascii_space (uni_trim s) else uni_trim (uni_trim s)) = uni_trim s
}.

(** The pieces of [s] between the bytes of a cut set, empty ones included. *)
Fixpoint fields_by (cut : Z -> bool) (s : gostring) : list gostring :=
  match s with
  | [] => [[]]
  | a :: s =>
      if cut a then [] :: fields_by cut s
      else match fields_by cut s with x :: l => (a :: x) :: l | [] => [[a]] end
  end.

Section Text.
Context `{Unicode}.

Definition ToLower (s : gostring) : gostring := if ascii s then lower_ascii s else uni_lower s.
Definition ToUpper (s : gostring) : gostring := if ascii s then map upper_byte s else uni_upper s.
Definition TrimSpace (s : gostring) : gostring := if ascii s then Trim ascii_space s else uni_trim s.

(** [bytes.Fields]: the maximal runs without white space. *)
Definition Fields (s : gostring) : list gostring :=
  if ascii s then filter (fun x => x <> []) (fields_by ascii_space s) else uni_fields s.

Definition EqualFold (s t : gostring) : bool :=
  if ascii s && ascii t then string_eqb (lower_ascii s) (lower_ascii t) else uni_fold s t.
End Text.

(** Tables that leave non-ASCII text alone, for evaluating examples. *)
Lemma no_unicode_trim s : ascii s = false -> (if ascii (id s) then Trim ascii_space (id s) else id (id s)) = id s.
Proof. simpl. by intros ->. Qed.

Definition no_unicode : Unicode :=
  {| uni_lower := id; uni_upper := id; uni_trim := id; uni_fold := string_eqb; uni_fields := fun s => [s];
     uni_trim_idem := no_unicode_trim |}.

(** ** Tokens and field names *)

(** RFC 9110 token bytes. *)
Definition token_byte (c : Z) : bool :=
  is_alpha c || is_digit c || bool_decide (c ∈ str "!#$%&'*+-.^_`|~").

Fixpoint canonical_bytes (upper : bool) (s : gostring) : gostring :=
  match s with
  | [] => []
  | c :: s =>
      let c := if upper then upper_byte c else lower_byte c in
      c :: canonical_bytes (c =? 45) s
  end.

(** [textproto.CanonicalMIMEHeaderKey]: a name with a byte that is not a token
    byte is left alone. *)
Definition CanonicalHeaderKey (s : gostring) : gostring :=
  if forallb token_byte s then canonical_bytes true s else s.

(** ** Header maps *)

Notation Header := (gmap (list Z) (list (list Z))).

Definition header_Values (h : Header) (name : gostring) : list gostring :=
  default [] (h !! CanonicalHeaderKey name).
Definition header_Get (h : Header) (name : gostring) : gostring := default [] (head (header_Values h name)).
Definition header_Set (h : Header) (name value : gostring) : Header := <[CanonicalHeaderKey name := [value]]> h.
Definition header_Add (h : Header) (name value : gostring) : Header :=
  <[CanonicalHeaderKey name := header_Values h name ++ [value]]> h.
Definition header_Del (h : Header) (name : gostring) : Header := delete (CanonicalHeaderKey name) h.

(** ** Requests *)

Record Request := MkRequest {
  r_Method : gostring;
  r_Host : gostring;
  r_Path : gostring;
  r_RawPath : gostring;
  r_RawQuery : gostring;
  r_RequestURI : gostring;
  r_Header : Header;
  r_TLS : bool
}.

(** ** Canonical names are case-insensitive and stable *)

Lemma token_byte_lower c : token_byte (lower_byte c) = token_byte c.
Proof.
  unfold lower_byte. destruct ((65 <=? c) && (c <=? 90)) eqn:E; [|done].
  unfold token_byte, is_alpha. rewrite E. rewrite (proj2 (Z.leb_le 97 (c + 32))), (proj2 (Z.leb_le (c + 32) 122)) by lia.
  by rewrite orb_true_r.
Qed.

Lemma token_byte_upper c : token_byte (upper_byte c) = token_byte c.
Proof.
  unfold upper_byte. destruct ((97 <=? c) && (c <=? 122)) eqn:E; [|done].
  unfold token_byte, is_alpha. rewrite E. rewrite (proj2 (Z.leb_le 65 (c - 32))), (proj2 (Z.leb_le (c - 32) 90)) by lia.
  by rewrite orb_true_r.
Qed.

Ltac byte_cases :=
  unfold upper_byte, lower_byte; repeat match goal with |- context [if ?b then _ else _] => destruct b eqn:? end; lia.

Lemma canonical_bytes_lower b s : canonical_bytes b (lower_ascii s) = canonical_bytes b s.
Proof.
  revert b. induction s as [|c s IH]; intros b; [done|]. cbn [lower_ascii map canonical_bytes].
  assert (E : (if b then upper_byte (lower_byte c) else lower_byte (lower_byte c)) =
              if b then upper_byte c else lower_byte c) by (destruct b; byte_cases).
  rewrite E. f_equal. apply IH.
Qed.

Lemma forallb_token_lower s : forallb token_byte (lower_ascii s) = forallb token_byte s.
Proof. induction s as [|c s IH]; simpl; [done|]. by rewrite token_byte_lower, IH. Qed.

(** Names that differ in ASCII case only have one canonical form. *)
Lemma CanonicalHeaderKey_fold s t :
  forallb token_byte s = true -> lower_ascii s = lower_ascii t ->
  CanonicalHeaderKey s = CanonicalHeaderKey t.
Proof.
  intros Hs E. unfold CanonicalHeaderKey. rewrite <- (forallb_token_lower t), <- E, forallb_token_lower, Hs.
  by rewrite <- (canonical_bytes_lower true s), E, canonical_bytes_lower.
Qed.

Lemma lower_canonical_bytes b s : lower_ascii (canonical_bytes b s) = lower_ascii s.
Proof.
  revert b. induction s as [|c s IH]; intros b; [done|]. cbn [lower_ascii map canonical_bytes].
  rewrite (IH _ : map lower_byte _ = map lower_byte _). f_equal. destruct b; byte_cases.
Qed.

Lemma CanonicalHeaderKey_idem s : CanonicalHeaderKey (CanonicalHeaderKey s) = CanonicalHeaderKey s.
Proof.
  destruct (forallb token_byte s) eqn:E; [|unfold CanonicalHeaderKey; rewrite E; by rewrite E].
  symmetry. apply CanonicalHeaderKey_fold; [done|]. unfold CanonicalHeaderKey. rewrite E.
  by rewrite lower_canonical_bytes.
Qed.

(** Setting a field whose name is in canonical form. *)
Lemma set_field (h : Header) (k v : gostring) (k' : gostring) :
  CanonicalHeaderKey k = k -> header_Set h k v !! k' = if decide (k = k') then Some [v] else h !! k'.
Proof.
  intros E. unfold header_Set. rewrite E. case_decide as D; [subst; by rewrite lookup_insert_eq|by rewrite lookup_insert_ne].
Qed.

(** ** Token text *)

Lemma token_byte_range c : token_byte c = true -> 33 <= c < 127.
Proof.
  unfold token_byte. rewrite !orb_true_iff. intros [[Ha|Hd]|Hs].
  - unfold is_alpha in Ha. lia.
  - unfold is_digit in Hd. lia.
  - apply bool_decide_eq_true in Hs. vm_compute in Hs. repeat (apply elem_of_cons in Hs as [->|Hs]; [lia|]).
    by apply elem_of_nil in Hs.
Qed.

(** ** Trimmed text *)

Lemma TrimLeft_suffix cut s : exists p, s = p ++ TrimLeft cut s /\ match TrimLeft cut s with [] => True | c :: _ => cut c = false end.
Proof.
  induction s as [|c s IH]; [by exists []|]. simpl. destruct (cut c) eqn:E; [|by exists []].
  destruct IH as (p & Hp & Hc). exists (c :: p). split; [|done]. simpl. by f_equal.
Qed.

Lemma TrimLeft_stop cut s : match s with [] => True | c :: _ => cut c = false end -> TrimLeft cut s = s.
Proof. destruct s as [|c s]; [done|]. simpl. by intros ->. Qed.

Lemma Trim_parts cut s : exists p q, s = p ++ Trim cut s ++ q /\
  (forall c t, Trim cut s = c :: t -> cut c = false) /\ (forall c t, Trim cut s = t ++ [c] -> cut c = false).
Proof.
  unfold Trim. destruct (TrimLeft_suffix cut s) as (p & Hp & Hc). set (u := TrimLeft cut s) in *.
  destruct (TrimLeft_suffix cut (rev u)) as (q & Hq & Hd). set (v := TrimLeft cut (rev u)) in *.
  assert (Hu : u = rev v ++ rev q) by (rewrite <- (rev_involutive u), Hq; apply rev_app_distr).
  exists p, (rev q). split; [by rewrite <- Hu|]. split; intros c t E.
  - rewrite E in Hu. by rewrite Hu in Hc.
  - assert (Hv : v = c :: rev t) by (rewrite <- (rev_involutive v), E; apply rev_app_distr). by rewrite Hv in Hd.
Qed.

Lemma Trim_idem cut s : Trim cut (Trim cut s) = Trim cut s.
Proof.
  destruct (Trim_parts cut s) as (_ & _ & _ & Hf & Hl). set (t := Trim cut s) in *. unfold Trim.
  rewrite (TrimLeft_stop cut t) by (destruct t as [|c t']; [done|by eapply Hf]).
  rewrite TrimLeft_stop; [apply rev_involutive|]. destruct (rev t) as [|c w] eqn:E; [done|].
  apply (Hl c (rev w)). by rewrite <- (rev_involutive t), E.
Qed.

Lemma Trim_ascii s : ascii s = true -> ascii (Trim ascii_space s) = true.
Proof.
  destruct (Trim_parts ascii_space s) as (p & q & E & _). intros HA. rewrite E in HA. unfold ascii in *.
  rewrite !forallb_app, !andb_true_iff in HA. by destruct HA as (_ & HA & _).
Qed.

Lemma TrimSpace_idem `{Unicode} s : TrimSpace (TrimSpace s) = TrimSpace s.
Proof.
  unfold TrimSpace. destruct (ascii s) eqn:E; [|by apply uni_trim_idem]. rewrite Trim_ascii by done. apply Trim_idem.
Qed.

Lemma Trim_id cut s : Forall (fun c => cut c = false) s -> Trim cut s = s.
Proof.
  intros HF. assert (HL : forall t, Forall (fun c => cut c = false) t -> TrimLeft cut t = t).
  { intros [|c t]; [done|]. intros [Hc _]%Forall_cons. by apply TrimLeft_stop. }
  unfold Trim. rewrite (HL s HF), HL by (by apply Forall_rev). apply rev_involutive.
Qed.

(** Tokens are ASCII text without white space. *)
Lemma token_ascii `{Unicode} s : forallb token_byte s = true -> ascii s = true /\ TrimSpace s = s.
Proof.
  intros HS. assert (HR : forall c, c ∈ s -> 33 <= c < 127).
  { intros c Hc. apply list_elem_of_In in Hc. apply token_byte_range. by eapply forallb_forall in HS. }
  assert (HA : ascii s = true) by (apply forallb_forall; intros c Hc%list_elem_of_In%HR; lia).
  split; [done|]. unfold TrimSpace. rewrite HA. apply Trim_id, Forall_forall. intros c Hc%HR. unfold ascii_space. lia.
Qed.

(** ** Field names and values (golang.org/x/net/http/httpguts) *)

(** RFC 7230 tokens, and values without line breaks or NUL, as the package
    documents. *)
Class HttpGuts := {
  ValidHeaderFieldName : gostring -> bool;
  ValidHeaderFieldValue : gostring -> bool;
  valid_name_token : forall s, ValidHeaderFieldName s = true -> s <> [] /\ forallb token_byte s = true;
  valid_value_line : forall s c, ValidHeaderFieldValue s = true -> c ∈ s -> c <> 0 /\ c <> 10 /\ c <> 13
}.

Definition token_name (s : gostring) : bool := negb (bool_decide (s = [])) && forallb token_byte s.

Lemma token_name_ok s : token_name s = true -> s <> [] /\ forallb token_byte s = true.
Proof. unfold token_name. rewrite andb_true_iff, negb_true_iff, bool_decide_eq_false. done. Qed.

Definition line_value (s : gostring) : bool := forallb (fun c => negb ((c =? 127) || ((c <? 32) && negb (c =? 9)))) s.

Lemma line_value_ok s c : line_value s = true -> c ∈ s -> c <> 0 /\ c <> 10 /\ c <> 13.
Proof.
  unfold line_value. rewrite forallb_forall. intros Hs Hc%list_elem_of_In%Hs. rewrite negb_true_iff, orb_false_iff in Hc. lia.
Qed.

Definition demo_guts : HttpGuts :=
  {| ValidHeaderFieldName := token_name; ValidHeaderFieldValue := line_value;
     valid_name_token := token_name_ok; valid_value_line := line_value_ok |}.
