(* ===== verification/ClientAddr.v ===== *)
(** * Client address derivation

    internal/clientaddr: the trusted-proxy policy of a listener, the parsers of
    the X-Forwarded-For and Forwarded headers, and the derivation of the one
    canonical client address of a request.  The invalid [netip.Addr] is [None];
    a nil policy is [None].  The theorems show that only hops vouched for by
    trusted proxies decide the address, that everything else falls back to the
    transport peer, and that a validated configuration compiles to one policy
    whatever the order of its entries. *)

From S2P Require Import Prelude GoStrings Netip NetipPrefix Http.

(** ** Identities *)

Inductive Source := SourcePeer | SourceForwarded | SourceXFF.
Inductive Result := ResultAccepted | ResultUntrustedPeer | ResultMalformed | ResultTooManyHops.

#[export] Instance Source_eq_dec : EqDecision Source.
Proof. solve_decision. Defined.
#[export] Instance Result_eq_dec : EqDecision Result.
Proof. solve_decision. Defined.

Definition Source_String (s : Source) : gostring :=
  match s with SourceForwarded => str "forwarded" | SourceXFF => str "xff" | SourcePeer => str "peer" end.

Definition Result_String (r : Result) : gostring :=
  match r with
  | ResultUntrustedPeer => str "untrusted_peer"
  | ResultMalformed => str "malformed"
  | ResultTooManyHops => str "too_many_hops"
  | ResultAccepted => str "accepted"
  end.

Record Identity := MkIdentity {
  id_Client : option Addr;
  id_Peer : option Addr;
  id_Source : Source;
  id_Result : Result
}.

Definition Spoofed (i : Identity) : bool := bool_decide (id_Result i = ResultUntrustedPeer).

Definition Attributed (i : Identity) : bool :=
  bool_decide (id_Result i = ResultAccepted) || bool_decide (id_Result i = ResultUntrustedPeer).

Definition normalize_addr (a : Addr) : Addr := WithZone (Unmap a) [].
Definition normalize (a : option Addr) : option Addr := normalize_addr <$> a.

Definition PeerFromRemoteAddr (remote : gostring) : option Addr :=
  if bool_decide (remote = []) then None
  else match ParseAddrPort remote with
       | Some (a, _) => normalize (Some a)
       | None => normalize (ParseAddr remote)
       end.

(** What a request carries of its sender: the identity in its context, when a
    middleware installed one, and the transport address. *)
Record reqctx := MkReqctx { rq_identity : option Identity; rq_RemoteAddr : gostring }.

Definition Client (r : reqctx) : option Addr :=
  match rq_identity r with
  | Some (MkIdentity (Some a) _ _ _) => Some a
  | _ => PeerFromRemoteAddr (rq_RemoteAddr r)
  end.

Definition Peer (r : reqctx) : option Addr :=
  match rq_identity r with
  | Some (MkIdentity _ (Some a) _ _) => Some a
  | _ => PeerFromRemoteAddr (rq_RemoteAddr r)
  end.

(** ** Parsing *)

Inductive chainErr := errMalformed | errTooManyHops.

#[export] Instance chainErr_eq_dec : EqDecision chainErr.
Proof. solve_decision. Defined.

Definition DefaultMaxHops : Z := 16.
Definition MaxHopsLimit : Z := 255.
Definition maxHeaderBytes : Z := 8192.

Definition parseBareAddr (s : gostring) : option Addr :=
  if bool_decide (s = []) || ContainsAny s [37; 47; 32; 9] then None
  else normalize (ParseAddr s).

Definition validPortSuffix (s : gostring) : bool :=
  match s with
  | c :: t => negb ((length s <? 2)%nat || negb (c =? 58) || (6 <? length s)%nat) && forallb is_digit t
  | [] => false
  end.

(** [splitOutsideQuotes]: [cur] is the part since the last separator. *)
Fixpoint split_quotes (s : gostring) (sep : Z) (cur : gostring) (inQuote escaped : bool)
  : option (list gostring) :=
  match s with
  | [] => if inQuote || escaped then None else Some [cur]
  | c :: s =>
      if escaped then split_quotes s sep (cur ++ [c]) inQuote false
      else if inQuote && (c =? 92) then split_quotes s sep (cur ++ [c]) inQuote true
      else if c =? 34 then split_quotes s sep (cur ++ [c]) (negb inQuote) false
      else if (c =? sep) && negb inQuote then cons cur <$> split_quotes s sep [] false false
      else split_quotes s sep (cur ++ [c]) inQuote false
  end.

Definition splitOutsideQuotes (s : gostring) (sep : Z) : chainErr + list gostring :=
  match split_quotes s sep [] false false with Some l => inr l | None => inl errMalformed end.

(** The unescaping loop of [unquote]. *)
Fixpoint unescape (s : gostring) : option gostring :=
  match s with
  | [] => Some []
  | c :: s =>
      if c =? 92 then match s with [] => None | d :: s => cons d <$> unescape s end
      else if c =? 34 then None
      else cons c <$> unescape s
  end.

Definition unquote (s : gostring) : chainErr + gostring :=
  if negb (bool_decide (head s = Some 34)) then
    if ContainsAny s [34; 92] then inl errMalformed else inr s
  else if (length s <? 2)%nat || negb (bool_decide (last s = Some 34)) then inl errMalformed
  else
    let inner := take (length s - 2) (drop 1 s) in
    if negb (byte_in inner 92) then
      if byte_in inner 34 then inl errMalformed else inr inner
    else match unescape inner with Some b => inr b | None => inl errMalformed end.

Section Parse.
Context `{Unicode}.

Definition parseForwardedFor (raw : gostring) : option Addr :=
  if bool_decide (raw = []) || bool_decide (head raw = Some 95) || EqualFold raw (str "unknown") then None
  else if bool_decide (head raw = Some 91) then
    match IndexByte raw 93 with
    | None => None
    | Some e =>
        let rest := drop (S e) raw in
        if negb (bool_decide (rest = [])) && negb (validPortSuffix rest) then None
        else match parseBareAddr (take (e - 1) (drop 1 raw)) with
             | Some a => if Is4 a then None else Some a
             | None => None
             end
    end
  else
    let '(host, port, ok) := CutByte raw 58 in
    if ok then
      if negb (validPortSuffix (58 :: port)) then None
      else match parseBareAddr host with
           | Some a => if Is4 a then Some a else None
           | None => None
           end
    else parseBareAddr raw.

(** The parameter loop of [forwardedElementAddr]: the unquoted [for] value seen
    so far. *)
Fixpoint for_param (params : list gostring) (seen : option gostring) : chainErr + option gostring :=
  match params with
  | [] => inr seen
  | param :: params =>
      let param := TrimSpace param in
      if bool_decide (param = []) then for_param params seen
      else
        let '(name, value, ok) := CutByte param 61 in
        if negb ok then inl errMalformed
        else if negb (EqualFold (TrimSpace name) (str "for")) then for_param params seen
        else if bool_decide (seen <> None) then inl errMalformed
        else match unquote (TrimSpace value) with
             | inl e => inl e
             | inr u => for_param params (Some u)
             end
  end.

Definition forwardedElementAddr (element : gostring) : chainErr + option Addr :=
  if bool_decide (TrimSpace element = []) then inr None
  else match splitOutsideQuotes element 59 with
       | inl e => inl e
       | inr params =>
           match for_param params None with
           | inl e => inl e
           | inr None => inr None
           | inr (Some raw) => inr (parseForwardedFor raw)
           end
       end.

(** The two entry loops: the hop limit is checked before each entry. *)
Fixpoint xff_entries (hops : list (option Addr)) (entries : list gostring) (maxHops : Z)
  : chainErr + list (option Addr) :=
  match entries with
  | [] => inr hops
  | entry :: entries =>
      if maxHops <=? Z.of_nat (length hops) then inl errTooManyHops
      else xff_entries (hops ++ [parseBareAddr (TrimSpace entry)]) entries maxHops
  end.

Definition appendXFF (hops : list (option Addr)) (value : gostring) (maxHops : Z) :=
  xff_entries hops (SplitByte value 44) maxHops.

Fixpoint forwarded_elements (hops : list (option Addr)) (elements : list gostring) (maxHops : Z)
  : chainErr + list (option Addr) :=
  match elements with
  | [] => inr hops
  | element :: elements =>
      if maxHops <=? Z.of_nat (length hops) then inl errTooManyHops
      else match forwardedElementAddr element with
           | inl e => inl e
           | inr a => forwarded_elements (hops ++ [a]) elements maxHops
           end
  end.

Definition appendForwarded (hops : list (option Addr)) (value : gostring) (maxHops : Z) :=
  match splitOutsideQuotes value 44 with
  | inl e => inl e
  | inr elements => forwarded_elements hops elements maxHops
  end.

Fixpoint parse_lines (source : Source) (hops : list (option Addr)) (values : list gostring) (maxHops : Z)
  : chainErr + list (option Addr) :=
  match values with
  | [] => inr hops
  | v :: values =>
      match (if bool_decide (source = SourceForwarded) then appendForwarded hops v maxHops
             else appendXFF hops v maxHops) with
      | inl e => inl e
      | inr hops => parse_lines source hops values maxHops
      end
  end.

Definition parseChain (source : Source) (values : list gostring) (maxHops : Z) : chainErr + list (option Addr) :=
  if maxHeaderBytes <? Z.of_nat (sum_list_with length values) then inl errMalformed
  else match parse_lines source [] values maxHops with
       | inl e => inl e
       | inr [] => inl errMalformed
       | inr hops => inr hops
       end.
End Parse.

(** ** Policies *)

Definition HeaderForwarded : gostring := str "forwarded".
Definition HeaderXFF : gostring := str "x-forwarded-for".
Definition DefaultForwardedHeaders : list gostring := [HeaderXFF].

Record Policy := MkPolicy { trusted : list Prefix; sources : list Source; maxHops : Z }.

Inductive policyErr :=
| ErrMaxHops (n : Z)
| ErrEmptyProxy
| ErrInvalidProxy (raw : gostring)
| ErrMappedProxy (raw : gostring)
| ErrHostBits (raw : gostring)
| ErrDuplicateHeader (raw : gostring)
| ErrUnsupportedHeader (raw : gostring).

(** [sort.Slice] under the address order; [merge_sort_unique] shows that the
    result does not depend on the sorting algorithm. *)
Definition sortPrefixes (l : list Prefix) : list Prefix := merge_sort prefix_le l.

Definition TrustedCount (p : option Policy) : nat :=
  match p with None => 0%nat | Some p => length (trusted p) end.

Definition Trusts (p : option Policy) (addr : option Addr) : bool :=
  match p, addr with
  | Some p, Some a => existsb (fun prefix => Contains_addr prefix (normalize_addr a)) (trusted p)
  | _, _ => false
  end.

Definition headerName (source : Source) : gostring :=
  match source with SourceForwarded => str "Forwarded" | _ => str "X-Forwarded-For" end.

(** The walk of the chain from its right end; [hops] is the chain reversed. *)
Fixpoint walk_hops (p : option Policy) (id : Identity) (source : Source) (leftmost : option Addr)
    (hops : list (option Addr)) : Identity :=
  match hops with
  | [] => MkIdentity leftmost (id_Peer id) source ResultAccepted
  | addr :: hops =>
      match addr with
      | None => MkIdentity (id_Client id) (id_Peer id) (id_Source id) ResultMalformed
      | Some a =>
          if Trusts p (Some a) then walk_hops p id source leftmost hops
          else MkIdentity (Some a) (id_Peer id) source ResultAccepted
      end
  end.

Definition walk (p : option Policy) (id : Identity) (source : Source) (hops : list (option Addr)) : Identity :=
  walk_hops p id source (default None (head hops)) (rev hops).

Section Derivation.
Context `{Unicode}.

Definition ParsePrefix (raw : gostring) : policyErr + Prefix :=
  let entry := TrimSpace raw in
  if bool_decide (entry = []) then inl ErrEmptyProxy
  else if negb (byte_in entry 47) then
    match ParseAddr entry with
    | None => inl (ErrInvalidProxy raw)
    | Some addr => let addr := normalize_addr addr in inr (PrefixFrom addr (BitLen addr))
    end
  else match netip_ParsePrefix entry with
       | None => inl (ErrInvalidProxy raw)
       | Some prefix =>
           if Is4In6 (p_Addr prefix) then inl (ErrMappedProxy raw)
           else if negb (bool_decide (Masked prefix = prefix)) then inl (ErrHostBits raw)
           else inr prefix
       end.

Fixpoint parse_proxies (l : list gostring) : policyErr + list Prefix :=
  match l with
  | [] => inr []
  | raw :: l =>
      match ParsePrefix raw with
      | inl e => inl e
      | inr p => match parse_proxies l with inl e => inl e | inr ps => inr (p :: ps) end
      end
  end.

Fixpoint header_sources (seen : list gostring) (headers : list gostring) : policyErr + list Source :=
  match headers with
  | [] => inr []
  | raw :: headers =>
      let name := ToLower (TrimSpace raw) in
      if bool_decide (name ∈ seen) then inl (ErrDuplicateHeader raw)
      else
        let more src := match header_sources (name :: seen) headers with
                        | inl e => inl e
                        | inr l => inr (src :: l)
                        end in
        if string_eqb name HeaderForwarded then more SourceForwarded
        else if string_eqb name HeaderXFF then more SourceXFF
        else inl (ErrUnsupportedHeader raw)
  end.

(** [forwardedHeaders] is [None] for a nil slice. *)
Definition NewPolicy (trustedProxies : list gostring) (forwardedHeaders : option (list gostring)) (hops : Z)
  : policyErr + Policy :=
  let m := if hops <=? 0 then DefaultMaxHops else hops in
  if MaxHopsLimit <? m then inl (ErrMaxHops hops)
  else match parse_proxies trustedProxies with
       | inl e => inl e
       | inr ps =>
           match header_sources [] (default DefaultForwardedHeaders forwardedHeaders) with
           | inl e => inl e
           | inr ss => inr (MkPolicy (sortPrefixes ps) ss m)
           end
       end.

Definition hasValue (values : list gostring) : bool :=
  existsb (fun v => negb (bool_decide (TrimSpace v = []))) values.

(** The loop of [Derive] over the configured headers: the first that carries a
    value decides. *)
Fixpoint derive_sources (p : Policy) (isTrusted : bool) (id : Identity) (h : Header) (ss : list Source) : Identity :=
  match ss with
  | [] => id
  | source :: ss =>
      let values := header_Values h (headerName source) in
      if negb (hasValue values) then derive_sources p isTrusted id h ss
      else if negb isTrusted then MkIdentity (id_Client id) (id_Peer id) (id_Source id) ResultUntrustedPeer
      else match parseChain source values (maxHops p) with
           | inl errTooManyHops => MkIdentity (id_Client id) (id_Peer id) (id_Source id) ResultTooManyHops
           | inl errMalformed => MkIdentity (id_Client id) (id_Peer id) (id_Source id) ResultMalformed
           | inr hops => walk (Some p) id source hops
           end
  end.

Definition Derive (p : option Policy) (peer : option Addr) (h : Header) : Identity :=
  let peer := normalize peer in
  let id := MkIdentity peer peer SourcePeer ResultAccepted in
  match peer with
  | None => MkIdentity peer peer SourcePeer ResultMalformed
  | Some _ =>
      match p with
      | None => id
      | Some q =>
          if bool_decide (trusted q = []) || bool_decide (sources q = []) then id
          else derive_sources q (Trusts p peer) id h (sources q)
      end
  end.

(** The ClientAddress middleware: the identity it installs in the request. *)
Definition ClientAddress (policy : option Policy) (remote : gostring) (h : Header) : reqctx :=
  MkReqctx (Some (Derive policy (PeerFromRemoteAddr remote) h)) remote.

(** ** Validation of the configuration block

    validateClientAddress of internal/config/validate.go: one error per faulty
    entry, by its position. *)

Inductive clientAddrErr :=
| BadProxy (i : nat) (e : policyErr)
| EmptyHeader (i : nat)
| BadHeader (i : nat) (name : gostring)
| RepeatedHeader (i : nat) (name : gostring)
| NegativeHops
| ExcessHops
| HeadersRequired.

Record ClientAddressConfig := MkClientAddressConfig {
  ca_TrustedProxies : list gostring;
  ca_ForwardedHeaders : option (list gostring);
  ca_MaxHops : Z
}.

Fixpoint validate_proxies (i : nat) (l : list gostring) : list clientAddrErr :=
  match l with
  | [] => []
  | raw :: l =>
      (match ParsePrefix raw with inl e => [BadProxy i e] | inr _ => [] end) ++ validate_proxies (S i) l
  end.

Fixpoint validate_headers (i : nat) (seen l : list gostring) : list clientAddrErr :=
  match l with
  | [] => []
  | name :: l =>
      if bool_decide (name = []) then EmptyHeader i :: validate_headers (S i) seen l
      else if negb (string_eqb name HeaderForwarded || string_eqb name HeaderXFF)
      then BadHeader i name :: validate_headers (S i) seen l
      else if bool_decide (name ∈ seen) then RepeatedHeader i name :: validate_headers (S i) seen l
      else validate_headers (S i) (name :: seen) l
  end.

Definition validateClientAddress (ca : option ClientAddressConfig) : list clientAddrErr :=
  match ca with
  | None => []
  | Some ca =>
      validate_proxies 0 (ca_TrustedProxies ca) ++
      validate_headers 0 [] (default [] (ca_ForwardedHeaders ca)) ++
      (if ca_MaxHops ca <? 0 then [NegativeHops]
       else if MaxHopsLimit <? ca_MaxHops ca then [ExcessHops] else []) ++
      (if negb (bool_decide (ca_TrustedProxies ca = [])) && bool_decide (ca_ForwardedHeaders ca = None)
       then [HeadersRequired] else [])
  end.
End Derivation.

(** ** Canonical addresses *)

(** The one form of address the package compares: well formed, no zone, not an
    IPv4 address in IPv6 clothing. *)
Definition canonical_addr (a : Addr) : Prop := addr_ok a /\ Zone a = [] /\ Is4In6 a = false.

Definition canonical_opt (o : option Addr) : Prop := match o with Some a => canonical_addr a | None => True end.

Lemma normalize_addr_ok a : addr_ok a -> canonical_addr (normalize_addr a).
Proof.
  intros Ha. unfold normalize_addr. split_and!; [by apply addr_ok_WithZone, addr_ok_Unmap|apply Zone_WithZone|].
  destruct a as [b|b z]; [done|]. unfold Unmap. destruct (Is4In6 (V6 b z)) eqn:E; [done|]. exact E.
Qed.

Lemma normalize_canonical a : canonical_addr a -> normalize_addr a = a.
Proof.
  intros (_ & Hz & H4). unfold normalize_addr, Unmap. destruct a as [b|b z]; [done|]. rewrite H4. simpl in *. by subst.
Qed.

Lemma canonical_string a : canonical_addr a -> ParseAddr (addr_string a) = Some a.
Proof. intros (H1 & H2 & H3). by apply ParseAddr_string. Qed.

Lemma normalize_parse_ok s : canonical_opt (normalize (ParseAddr s)).
Proof.
  destruct (ParseAddr s) as [a|] eqn:E; [|done]. by apply normalize_addr_ok, (ParseAddr_ok s).
Qed.

Lemma parseBareAddr_ok s : canonical_opt (parseBareAddr s).
Proof. unfold parseBareAddr. destruct (_ || _); [done|]. apply normalize_parse_ok. Qed.

Lemma ParseAddrPort_ok s a p : ParseAddrPort s = Some (a, p) -> addr_ok a /\ 0 <= p < 65536.
Proof.
  unfold ParseAddrPort. destruct (LastIndexByte s 58) as [i|]; [|done]. destruct (_ || _); [done|].
  destruct (_ && _); [done|]. destruct (ParseUint _ _) as [q|] eqn:Eq; [|done].
  destruct (ParseAddr _) as [b|] eqn:Eb; [|done]. destruct (Bool.eqb _ _); [|done]. intros [= <- <-].
  split; [by apply ParseAddr_ok in Eb|]. unfold ParseUint in Eq. clear Eb. case_bool_decide; [done|].
  destruct (parse_dec _ _) as [n|] eqn:En; [|done]. destruct (n <? 2 ^ 16) eqn:El; [|done]. injection Eq as <-.
  apply parse_dec_nonneg in En; lia.
Qed.

Lemma PeerFromRemoteAddr_ok s : canonical_opt (PeerFromRemoteAddr s).
Proof.
  unfold PeerFromRemoteAddr. case_bool_decide; [done|].
  destruct (ParseAddrPort s) as [[a p]|] eqn:E; [|apply normalize_parse_ok].
  apply ParseAddrPort_ok in E as [E _]. by apply normalize_addr_ok.
Qed.

Section ParseOk.
Context `{Unicode}.

Lemma parseForwardedFor_ok raw : canonical_opt (parseForwardedFor raw).
Proof.
  unfold parseForwardedFor. destruct (_ || _); [done|]. case_bool_decide.
  - destruct (IndexByte raw 93) as [e|]; [|done]. destruct (_ && _); [done|].
    pose proof (parseBareAddr_ok (take (e - 1) (drop 1 raw))) as Ha.
    destruct (parseBareAddr _) as [a|]; [|done]. by destruct (Is4 a).
  - destruct (CutByte raw 58) as [[host port] ok]. destruct ok; [|apply parseBareAddr_ok].
    destruct (negb _); [done|]. pose proof (parseBareAddr_ok host) as Ha.
    destruct (parseBareAddr host) as [a|]; [|done]. by destruct (Is4 a).
Qed.

Lemma forwardedElementAddr_ok el a : forwardedElementAddr el = inr a -> canonical_opt a.
Proof.
  unfold forwardedElementAddr. case_bool_decide; [by intros [= <-]|].
  destruct (splitOutsideQuotes el 59) as [?|ps]; [done|]. destruct (for_param ps None) as [?|[raw|]]; [done| |by intros [= <-]].
  intros [= <-]. apply parseForwardedFor_ok.
Qed.

Lemma forwarded_elements_ok hops els m hops' :
  Forall canonical_opt hops -> forwarded_elements hops els m = inr hops' -> Forall canonical_opt hops'.
Proof.
  revert hops. induction els as [|el els IH]; intros hops HF; simpl; [by intros [= <-]|].
  destruct (m <=? _); [done|]. destruct (forwardedElementAddr el) as [?|a] eqn:E; [done|].
  apply IH. apply Forall_app. split; [done|]. constructor; [by apply (forwardedElementAddr_ok el)|done].
Qed.

(** The X-Forwarded-For loops keep every entry, in order, up to the limit. *)
Lemma xff_entries_spec hops es m :
  xff_entries hops es m =
  if bool_decide (es = []) || (Z.of_nat (length hops + length es) <=? m)
  then inr (hops ++ map (fun e => parseBareAddr (TrimSpace e)) es) else inl errTooManyHops.
Proof.
  revert hops. induction es as [|e es IH]; intros hops; cbn [xff_entries]; [by rewrite app_nil_r|].
  rewrite (bool_decide_false (e :: es = [])) by done. cbn [orb length map].
  destruct (m <=? Z.of_nat (length hops)) eqn:Em.
  - by rewrite (proj2 (Z.leb_gt _ _)) by lia.
  - rewrite IH, length_app, <- app_assoc. cbn [length app]. rewrite <- Nat.add_assoc. cbn [plus].
    destruct (Z.of_nat (length hops + S (length es)) <=? m) eqn:El; [by rewrite orb_true_r|].
    rewrite bool_decide_false; [done|]. intros ->. cbn [length] in *. blia.
Qed.

Definition xff_hops (values : list gostring) : list (option Addr) :=
  concat (map (fun v => map (fun e => parseBareAddr (TrimSpace e)) (SplitByte v 44)) values).

Lemma parse_lines_xff hops values m :
  parse_lines SourceXFF hops values m =
  if bool_decide (values = []) || (Z.of_nat (length hops + length (xff_hops values)) <=? m)
  then inr (hops ++ xff_hops values) else inl errTooManyHops.
Proof.
  revert hops. induction values as [|v vs IH]; intros hops; cbn [parse_lines]; [by rewrite app_nil_r|].
  rewrite (bool_decide_false (SourceXFF = SourceForwarded)) by done. unfold appendXFF. rewrite xff_entries_spec.
  destruct (SplitByte_cons v 44) as (x & l & Es).
  rewrite (bool_decide_false (SplitByte v 44 = [])) by (by rewrite Es). rewrite (bool_decide_false (v :: vs = [])) by done.
  cbn [orb]. assert (E : xff_hops (v :: vs) = map (fun e => parseBareAddr (TrimSpace e)) (SplitByte v 44) ++ xff_hops vs) by done.
  rewrite E, length_app, length_map, Nat.add_assoc.
  destruct (Z.of_nat (length hops + length (SplitByte v 44)) <=? m) eqn:El.
  - rewrite IH, length_app, length_map, <- app_assoc.
    destruct (Z.of_nat (length hops + length (SplitByte v 44) + length (xff_hops vs)) <=? m) eqn:E2; [by rewrite orb_true_r|].
    rewrite bool_decide_false; [done|]. intros ->. cbn [xff_hops map concat length] in E2. blia.
  - by rewrite (proj2 (Z.leb_gt _ _)) by blia.
Qed.

Lemma xff_hops_ok values : Forall canonical_opt (xff_hops values).
Proof.
  unfold xff_hops. induction values as [|v vs IH]; [done|]. cbn [map concat]. apply Forall_app. split; [|done].
  apply Forall_map, Forall_forall. intros e _. apply parseBareAddr_ok.
Qed.

Lemma parse_lines_ok src hops values m hops' :
  Forall canonical_opt hops -> parse_lines src hops values m = inr hops' -> Forall canonical_opt hops'.
Proof.
  revert hops. induction values as [|v vs IH]; intros hops HF; simpl; [by intros [= <-]|].
  case_bool_decide.
  - unfold appendForwarded. destruct (splitOutsideQuotes v 44) as [?|els]; [done|].
    destruct (forwarded_elements hops els m) as [?|hops1] eqn:E; [done|]. by apply IH, (forwarded_elements_ok hops els m).
  - unfold appendXFF. rewrite xff_entries_spec. destruct (_ || _); [|done]. apply IH. apply Forall_app. split; [done|].
    apply Forall_map, Forall_forall. intros e _. apply parseBareAddr_ok.
Qed.

Lemma parseChain_ok src values m hops :
  parseChain src values m = inr hops -> hops <> [] /\ Forall canonical_opt hops.
Proof.
  unfold parseChain. destruct (maxHeaderBytes <? _); [done|].
  destruct (parse_lines src [] values m) as [?|[|o hs]] eqn:E; [done..|]. intros [= <-]. split; [done|].
  by apply parse_lines_ok in E.
Qed.
End ParseOk.

(** ** The walk *)

Lemma Trusts_normalize p a : canonical_addr a -> Trusts p (Some (normalize_addr a)) = Trusts p (Some a).
Proof. intros Ha. by rewrite normalize_canonical. Qed.

(** A hop that a trusted proxy vouches for. *)
Definition trusted_hop (p : option Policy) (o : option Addr) : Prop := exists a, o = Some a /\ Trusts p (Some a) = true.

(** The outcome of a walk: the chain stops at an unusable hop, at the first
    untrusted address from the right, or at its left end. *)
Lemma walk_spec p id src hops :
  hops <> [] ->
  (exists pre post, hops = pre ++ None :: post /\ Forall (trusted_hop p) post /\
     walk p id src hops = MkIdentity (id_Client id) (id_Peer id) (id_Source id) ResultMalformed) \/
  (exists pre c post, hops = pre ++ Some c :: post /\ Forall (trusted_hop p) post /\
     (Trusts p (Some c) = false \/ pre = []) /\
     walk p id src hops = MkIdentity (Some c) (id_Peer id) src ResultAccepted).
Proof.
  intros Hne. unfold walk.
  assert (G : forall l post, hops = rev l ++ post -> Forall (trusted_hop p) post ->
    let r := walk_hops p id src (default None (head hops)) l in
    (exists pre post, hops = pre ++ None :: post /\ Forall (trusted_hop p) post /\
       r = MkIdentity (id_Client id) (id_Peer id) (id_Source id) ResultMalformed) \/
    (exists pre c post, hops = pre ++ Some c :: post /\ Forall (trusted_hop p) post /\
       (Trusts p (Some c) = false \/ pre = []) /\ r = MkIdentity (Some c) (id_Peer id) src ResultAccepted)).
  { induction l as [|o l IH]; intros post E HF; cbn [walk_hops].
    - right. simpl in E. subst post. destruct HF as [|o hs (a & -> & Ha) HF]; [done|]. exists [], a, hs. auto.
    - cbn [rev] in E. rewrite <- app_assoc in E. cbn [app] in E. destruct o as [a|]; [|left; eauto].
      destruct (Trusts p (Some a)) eqn:Et.
      + apply (IH (Some a :: post)); [done|]. constructor; [by exists a|done].
      + right. exists (rev l), a, post. auto. }
  apply (G (rev hops) []); [by rewrite rev_involutive, app_nil_r|constructor].
Qed.

(** The right end of a chain decides: what stands left of the first untrusted
    hop has no influence. *)
Lemma walk_decided p id src pre c post :
  Trusts p (Some c) = false -> Forall (trusted_hop p) post ->
  walk p id src (pre ++ Some c :: post) = MkIdentity (Some c) (id_Peer id) src ResultAccepted.
Proof.
  intros Hc HF. unfold walk. set (left := default None _). clearbody left.
  rewrite rev_app_distr. cbn [rev]. rewrite <- app_assoc. cbn [app].
  induction post as [|o post IH] using rev_ind; cbn [walk_hops rev app]; [by rewrite Hc|].
  apply Forall_app in HF as [HF Ho]. apply Forall_inv in Ho as (a & -> & Ha).
  rewrite rev_app_distr. cbn [rev app walk_hops]. rewrite Ha. by apply IH.
Qed.

Section Theorems.
Context `{Unicode}.

(** *** What the derived identity is *)

(** The address of a derived identity is the peer, or a hop of the header that
    decided, vouched for by every hop right of it. *)
Definition decided_by (p : option Policy) (h : Header) (id : Identity) : Prop :=
  exists q before after pre c post,
    p = Some q /\ sources q = before ++ id_Source id :: after /\
    Forall (fun s => hasValue (header_Values h (headerName s)) = false) before /\
    parseChain (id_Source id) (header_Values h (headerName (id_Source id))) (maxHops q) = inr (pre ++ Some c :: post) /\
    Forall (trusted_hop p) post /\ (Trusts p (Some c) = false \/ pre = []) /\
    id_Client id = Some c /\ id_Result id = ResultAccepted.

Lemma derive_sources_spec q t a h ss before :
  sources q = before ++ ss -> Forall (fun s => hasValue (header_Values h (headerName s)) = false) before ->
  let id := derive_sources q t (MkIdentity (Some a) (Some a) SourcePeer ResultAccepted) h ss in
  id_Peer id = Some a /\
  ((id_Source id = SourcePeer /\ id_Client id = Some a /\ (t = false -> Attributed id = true)) \/
   (t = true /\ decided_by (Some q) h id)).
Proof.
  revert before. induction ss as [|s ss IH]; intros before Es HB; cbn [derive_sources]; [by auto|].
  destruct (hasValue _) eqn:Ev; simpl.
  2: { apply (IH (before ++ [s])); [by rewrite <- app_assoc|]. apply Forall_app. split; [done|]. by constructor. }
  destruct t; simpl; [|by auto].
  destruct (parseChain s _ _) as [[|]|hops] eqn:Ec; [by auto..|].
  destruct (parseChain_ok _ _ _ _ Ec) as [Hne _].
  destruct (walk_spec (Some q) (MkIdentity (Some a) (Some a) SourcePeer ResultAccepted) s hops Hne)
    as [(pre & post & E & _ & ->)|(pre & c & post & E & HF & Hc & ->)]; [by auto|].
  split; [done|]. right. split; [done|]. exists q, before, ss, pre, c, post. subst hops. split_and!; done.
Qed.

Lemma Derive_cases p peer h a :
  normalize peer = Some a ->
  let id := Derive p peer h in
  id_Peer id = Some a /\
  ((id_Source id = SourcePeer /\ id_Client id = Some a /\ (Trusts p (Some a) = false -> Attributed id = true)) \/
   (Trusts p (Some a) = true /\ decided_by p h id)).
Proof.
  intros Hp. unfold Derive. rewrite Hp. destruct p as [q|]; [|by auto 6]. destruct (_ || _); [by auto 6|].
  exact (derive_sources_spec q (Trusts (Some q) (Some a)) a h (sources q) [] eq_refl (Forall_nil_2 _)).
Qed.

(** C32: Whatever the forwarding headers say, the derived identity keeps the
    transport peer, and its client is either that peer or a hop of the first
    configured header that carries a value: a hop whose right neighbours are all
    trusted proxies, and which is itself untrusted or the leftmost.  With an
    untrusted peer no header has any influence on the client. *)
Theorem Derive_sound (p : option Policy) (peer : option Addr) (h : Header) (a : Addr) :
  normalize peer = Some a ->
  id_Peer (Derive p peer h) = Some a /\
  (Trusts p (Some a) = false ->
     id_Client (Derive p peer h) = Some a /\ id_Source (Derive p peer h) = SourcePeer /\
     Attributed (Derive p peer h) = true) /\
  ((id_Source (Derive p peer h) = SourcePeer /\ id_Client (Derive p peer h) = Some a) \/
   (Trusts p (Some a) = true /\ decided_by p h (Derive p peer h))).
Proof.
  intros Hp. destruct (Derive_cases p peer h a Hp) as [HP [(H1 & H2 & H3)|[H1 H2]]]; [by auto 7|].
  split; [done|]. split; [congruence|]. by right.
Qed.

(** Attribution: only a trusted peer whose header cannot be used, or an unknown
    peer, yields an identity that names no client. *)
Lemma Derive_unattributed p peer h :
  Attributed (Derive p peer h) = false ->
  id_Client (Derive p peer h) = normalize peer /\
  (normalize peer = None \/ Trusts p (normalize peer) = true).
Proof.
  destruct (normalize peer) as [a|] eqn:Hp; [|by unfold Derive; rewrite Hp; auto].
  intros Hu. destruct (Derive_cases p peer h a Hp) as [_ [(_ & -> & H3)|[_ (q & b & af & pre & c & post & D)]]].
  - destruct (Trusts p (Some a)); [auto|]. rewrite H3 in Hu by done. done.
  - destruct D as (_ & _ & _ & _ & _ & _ & _ & D). unfold Attributed in Hu. by rewrite D in Hu.
Qed.

(** *** Types *)

Lemma Derive_canonical p peer h :
  canonical_opt (normalize peer) ->
  canonical_opt (id_Client (Derive p peer h)) /\ id_Peer (Derive p peer h) = normalize peer /\
  (id_Client (Derive p peer h) = None <-> normalize peer = None).
Proof.
  intros Hc. destruct (normalize peer) as [a|] eqn:Hp; [|by unfold Derive; rewrite Hp].
  destruct (Derive_cases p peer h a Hp) as [HP [(_ & -> & _)|[_ (q & b & af & pre & c & post & D)]]]; [done|].
  destruct D as (_ & _ & _ & D & _ & _ & -> & _). split_and!; [|done|done].
  apply parseChain_ok in D as [_ D]. by apply Forall_app in D as [_ D%Forall_inv].
Qed.

(** C33: The identity that the middleware installs is well typed: its client and
    its peer are well-formed addresses in canonical form (no zone, no IPv4 in
    IPv6), the peer is the transport peer, and the client is missing exactly when
    the transport peer is unknown, in which case the identity is unattributed. *)
Theorem ClientAddress_typed (p : option Policy) (remote : gostring) (h : Header) :
  exists id, rq_identity (ClientAddress p remote h) = Some id /\
    canonical_opt (id_Client id) /\ canonical_opt (id_Peer id) /\
    id_Peer id = PeerFromRemoteAddr remote /\
    (id_Client id = None <-> id_Peer id = None) /\
    (id_Peer id = None -> Attributed id = false).
Proof.
  eexists. split; [reflexivity|]. pose proof (PeerFromRemoteAddr_ok remote) as HP.
  set (peer := PeerFromRemoteAddr remote) in *. clearbody peer.
  assert (Hn : normalize peer = peer) by (destruct peer as [a|]; simpl; [by rewrite normalize_canonical|done]).
  destruct (Derive_canonical p peer h) as (H1 & H2 & H3); [by rewrite Hn|]. rewrite Hn in *.
  rewrite H2. split; [done|]. split; [done|]. split; [done|]. split; [done|]. intros ->. done.
Qed.

(** *** Forged entries *)

Lemma xff_hops_app vs ws : xff_hops (vs ++ ws) = xff_hops vs ++ xff_hops ws.
Proof. unfold xff_hops. by rewrite map_app, concat_app. Qed.

Lemma derive_first p t id h before s after :
  Forall (fun s => hasValue (header_Values h (headerName s)) = false) before ->
  derive_sources p t id h (before ++ s :: after) = derive_sources p t id h (s :: after).
Proof. induction 1 as [|x l Hx _ IH]; [done|]. cbn [app derive_sources]. by rewrite Hx. Qed.

(** When the last field line of X-Forwarded-For ends with what the trusted
    proxies appended (the address they saw, then their own), any earlier lines
    and any text before it leave the client at that address, or make the chain
    unusable, in which case the identity is the peer, unattributed. *)
Lemma forged_prefix_cases (q : Policy) (peer : option Addr) (a : Addr) (h : Header)
    (before after : list Source) (lines : list gostring) (forged client : gostring) (proxies : list gostring) (c : Addr) :
  normalize peer = Some a -> Trusts (Some q) (Some a) = true ->
  sources q = before ++ SourceXFF :: after ->
  Forall (fun s => hasValue (header_Values h (headerName s)) = false) before ->
  header_Values h (headerName SourceXFF) = lines ++ [forged ++ 44 :: JoinByte (client :: proxies) 44] ->
  hasValue (header_Values h (headerName SourceXFF)) = true ->
  44 ∉ client -> Forall (fun e => 44 ∉ e) proxies ->
  parseBareAddr (TrimSpace client) = Some c -> Trusts (Some q) (Some c) = false ->
  Forall (fun e => trusted_hop (Some q) (parseBareAddr (TrimSpace e))) proxies ->
  let id := Derive (Some q) peer h in
  id_Peer id = Some a /\
  ((id_Client id = Some c /\ Attributed id = true) \/ (id_Client id = Some a /\ Attributed id = false)).
Proof.
  intros Hp Ht Hs HB Hv Hh Hc1 Hc2 Hc3 Hc4 HT id. subst id. unfold Derive. rewrite Hp.
  assert (Htr : trusted q <> []) by (intros E; unfold Trusts in Ht; by rewrite E in Ht).
  rewrite !bool_decide_false by (done || rewrite Hs; by destruct before). cbn [orb].
  rewrite Hs, derive_first by done. cbn [derive_sources]. rewrite Hh, Ht. cbn [negb].
  unfold parseChain. destruct (maxHeaderBytes <? _); [by split; [|right]|].
  rewrite parse_lines_xff, Hv. rewrite bool_decide_false by (by destruct lines). cbn [orb app].
  destruct (Z.of_nat _ <=? maxHops q); [|by split; [|right]].
  assert (E : xff_hops (lines ++ [forged ++ 44 :: JoinByte (client :: proxies) 44]) =
    (xff_hops lines ++ map (fun e => parseBareAddr (TrimSpace e)) (SplitByte forged 44)) ++
    Some c :: map (fun e => parseBareAddr (TrimSpace e)) proxies).
  { rewrite xff_hops_app. unfold xff_hops at 2. cbn [map concat]. rewrite app_nil_r, SplitByte_app_sep, map_app.
    rewrite SplitByte_JoinByte by (done || by constructor). cbn [map]. by rewrite Hc3, app_assoc. }
  rewrite E. set (forged_hops := xff_hops lines ++ _).
  assert (EM : forall A B (o : option Addr), match A ++ o :: B with [] => inl errMalformed | _ :: _ => inr (A ++ o :: B) end
    = inr (A ++ o :: B)) by (by intros [|]). rewrite EM.
  rewrite walk_decided; [by split; [|left]|done|by apply Forall_map].
Qed.

(** *** Compilation *)

Lemma ParsePrefix_ok raw p : ParsePrefix raw = inr p -> prefix_ok p.
Proof.
  unfold ParsePrefix. case_bool_decide; [done|]. destruct (negb _).
  - destruct (ParseAddr _) as [x|] eqn:E; [|done]. intros [= <-]. apply ParseAddr_ok, normalize_addr_ok in E as (H1 & H2 & _).
    split_and!; cbn [PrefixFrom p_Addr p_Bits]; [by apply addr_ok_WithZone|apply Zone_WithZone|..];
      rewrite ?BitLen_WithZone; destruct (normalize_addr x); simpl; lia.
  - destruct (netip_ParsePrefix _) as [x|] eqn:E; [|done]. destruct (Is4In6 _); [done|]. destruct (negb _); [done|].
    intros [= <-]. by apply netip_ParsePrefix_ok in E.
Qed.

Lemma parse_proxies_Forall l ps :
  parse_proxies l = inr ps <-> Forall2 (fun raw p => ParsePrefix raw = inr p) l ps.
Proof.
  revert ps. induction l as [|raw l IH]; intros ps; simpl.
  - split; [intros [= <-]; constructor|by inversion 1].
  - split.
    + destruct (ParsePrefix raw) as [?|p] eqn:E; [done|]. destruct (parse_proxies l) as [?|qs]; [done|]. intros [= <-].
      constructor; [done|]. by apply IH.
    + inversion 1 as [|? p ? qs E HF]; subst. rewrite E. by rewrite (proj2 (IH qs) HF).
Qed.

(** A policy does not depend on the order in which its trusted proxies are
    written: permuting the entries of a list that compiles gives the same
    compiled policy. *)
Theorem NewPolicy_order (proxies proxies' : list gostring) (headers : option (list gostring)) (hops : Z) (q : Policy) :
  proxies ≡ₚ proxies' -> NewPolicy proxies headers hops = inr q -> NewPolicy proxies' headers hops = inr q.
Proof.
  intros HP. unfold NewPolicy. destruct (MaxHopsLimit <? _); [done|].
  destruct (parse_proxies proxies) as [?|ps] eqn:E; [done|]. apply parse_proxies_Forall in E.
  destruct (Forall2_permute _ _ _ _ HP E) as (ps' & HP' & E'). apply parse_proxies_Forall in E'. rewrite E'.
  destruct (header_sources _ _) as [?|ss]; [done|]. intros [= <-]. do 2 f_equal. symmetry.
  apply merge_sort_unique; [|done]. clear E' HP' HP. induction E as [|raw p l k Hp _ IH]; constructor; [|done].
  by apply ParsePrefix_ok in Hp.
Qed.

Lemma parse_proxies_err l e :
  parse_proxies l = inl e <->
  exists pre raw post, l = pre ++ raw :: post /\ ParsePrefix raw = inl e /\
    Forall (fun r => exists p, ParsePrefix r = inr p) pre.
Proof.
  induction l as [|raw l IH]; simpl.
  - split; [done|]. intros (pre & raw & post & E & _). by destruct pre.
  - destruct (ParsePrefix raw) as [e'|p] eqn:E.
    + split; [intros [= ->]; by exists [], raw, l|].
      intros (pre & r & post & El & Er & HF). destruct HF as [|x pre (p & Hp) HF]; simplify_eq/=; congruence.
    + assert (G : parse_proxies (raw :: l) = inl e <-> parse_proxies l = inl e)
        by (simpl; rewrite E; destruct (parse_proxies l); split; congruence).
      simpl in G. rewrite E in G. rewrite G, IH. clear G IH. split.
      * intros (pre & r & post & -> & Er & HF). exists (raw :: pre), r, post. split_and!; [done..|]. constructor; eauto.
      * intros (pre & r & post & El & Er & HF). destruct HF as [|x pre Hx HF]; simplify_eq/=; [congruence|]. by exists pre, r, post.
Qed.

(** The compiled name of a configured header. *)
Definition header_name (raw : gostring) : gostring := ToLower (TrimSpace raw).

Definition supported (name : gostring) : bool := string_eqb name HeaderForwarded || string_eqb name HeaderXFF.

Lemma header_sources_err seen l e :
  header_sources seen l = inl e <->
  exists pre raw post, l = pre ++ raw :: post /\ Forall (fun r => supported (header_name r) = true) pre /\
    NoDup (map header_name pre) /\ (forall r, r ∈ pre -> header_name r ∉ seen) /\
    ((header_name raw ∈ seen ++ map header_name pre /\ e = ErrDuplicateHeader raw) \/
     (header_name raw ∉ seen ++ map header_name pre /\ supported (header_name raw) = false /\ e = ErrUnsupportedHeader raw)).
Proof.
  revert seen. induction l as [|raw l IH]; intros seen; cbn [header_sources].
  - split; [done|]. intros (pre & raw & post & E & _). by destruct pre.
  - fold (header_name raw). case_bool_decide as Hin.
    + split.
      * intros [= <-]. exists [], raw, l. rewrite app_nil_r. split_and!; try done; [constructor|by intros r ?%elem_of_nil|by left].
      * intros (pre & r & post & El & _ & _ & Hs & D). destruct pre as [|x pre]; simplify_eq/=.
        -- rewrite app_nil_r in D. by destruct D as [[_ ->]|[? _]].
        -- by destruct (Hs x ltac:(left)).
    + assert (G : (if string_eqb (header_name raw) HeaderForwarded
          then match header_sources ((header_name raw) :: seen) l with inl e => inl e | inr l => inr (SourceForwarded :: l) end
          else if string_eqb (header_name raw) HeaderXFF
          then match header_sources ((header_name raw) :: seen) l with inl e => inl e | inr l => inr (SourceXFF :: l) end
          else inl (ErrUnsupportedHeader raw)) = inl e <->
          (supported (header_name raw) = false /\ e = ErrUnsupportedHeader raw) \/ (supported (header_name raw) = true /\ header_sources ((header_name raw) :: seen) l = inl e)).
      { unfold supported. destruct (string_eqb (header_name raw) HeaderForwarded), (string_eqb (header_name raw) HeaderXFF), (header_sources ((header_name raw) :: seen) l); simpl;
          naive_solver. }
      rewrite G, IH. clear G IH. split.
      * intros [[Hu ->]|[Hu (pre & r & post & -> & HF & HN & Hs & D)]].
        -- exists [], raw, l. rewrite app_nil_r. split_and!; try done; [constructor|by intros r ?%elem_of_nil|by right].
        -- exists (raw :: pre), r, post. split; [done|]. split; [by constructor|]. split.
           { cbn [map]. constructor; [|done]. intros (r' & E & Hr')%list_elem_of_fmap. apply (Hs r' Hr'). rewrite <- E. left. }
           split; [intros r' [-> |Hr']%elem_of_cons; [done|]; intros ?; apply (Hs r' Hr'); by right|].
           cbn [map]. rewrite !elem_of_app, !elem_of_cons in *. tauto.
      * intros (pre & r & post & El & HF & HN & Hs & D). destruct pre as [|x pre]; simplify_eq/=.
        -- rewrite app_nil_r in D. left. destruct D as [[? _]|(_ & ? & ->)]; done.
        -- right. apply Forall_cons in HF as [Hx HF]. apply NoDup_cons in HN as [Hx2 HN]. split; [done|].
           exists pre, r, post. split_and!; [done..| |].
           2: { rewrite !elem_of_app, !elem_of_cons in D. rewrite !elem_of_cons, !elem_of_app. tauto. }
           intros r' Hr' [E|E]%elem_of_cons; [|by apply (Hs r' ltac:(by right))]. apply Hx2. rewrite <- E.
           apply list_elem_of_fmap. eauto.
Qed.

(** Compilation fails exactly on a hop limit over 255, on the first trusted
    proxy that is no address or clean prefix, or, when the proxies are fine, on
    the first forwarded header that repeats an earlier one or is not supported;
    and it reports that entry. *)
Theorem NewPolicy_error (proxies : list gostring) (headers : option (list gostring)) (hops : Z) (e : policyErr) :
  NewPolicy proxies headers hops = inl e <->
  (MaxHopsLimit < hops /\ e = ErrMaxHops hops) \/
  (hops <= MaxHopsLimit /\ exists pre raw post, proxies = pre ++ raw :: post /\ ParsePrefix raw = inl e /\
     Forall (fun r => exists p, ParsePrefix r = inr p) pre) \/
  (hops <= MaxHopsLimit /\ Forall (fun r => exists p, ParsePrefix r = inr p) proxies /\
   exists pre raw post, default DefaultForwardedHeaders headers = pre ++ raw :: post /\
     Forall (fun r => supported (header_name r) = true) pre /\ NoDup (map header_name pre) /\
     ((header_name raw ∈ map header_name pre /\ e = ErrDuplicateHeader raw) \/
      (header_name raw ∉ map header_name pre /\ supported (header_name raw) = false /\ e = ErrUnsupportedHeader raw))).
Proof.
  unfold NewPolicy. set (m := if hops <=? 0 then DefaultMaxHops else hops).
  assert (Em : (MaxHopsLimit <? m) = (MaxHopsLimit <? hops)).
  { subst m. unfold MaxHopsLimit, DefaultMaxHops. destruct (hops <=? 0) eqn:E; [|done]. destruct (255 <? hops) eqn:E2; [lia|done]. }
  rewrite Em. destruct (MaxHopsLimit <? hops) eqn:El; bool_props; [naive_solver lia|].
  destruct (parse_proxies proxies) as [e'|ps] eqn:Ep.
  - pose proof (proj1 (parse_proxies_err _ _) Ep) as (pre & raw & post & -> & Er & HF). split.
    + intros [= <-]. right. left. split; [done|]. by exists pre, raw, post.
    + intros [[? _]|[[_ HE]|[_ [HA _]]]]; [lia| |].
      * apply parse_proxies_err in HE. congruence.
      * apply Forall_app in HA as [_ HA]. apply Forall_inv in HA as [p Hp]. congruence.
  - assert (HA : Forall (fun r => exists p, ParsePrefix r = inr p) proxies).
    { apply parse_proxies_Forall in Ep. clear -Ep. induction Ep; eauto. }
    pose proof (header_sources_err [] (default DefaultForwardedHeaders headers)) as HS. cbn [app] in HS.
    destruct (header_sources [] _) as [e'|ss].
    + split.
      * intros [= <-]. right. right. split; [done|]. split; [done|].
        destruct (proj1 (HS e') eq_refl) as (pre & raw & post & D). exists pre, raw, post. tauto.
      * intros [[? _]|[[_ HE]|[_ [_ (pre & raw & post & D)]]]]; [lia| |].
        -- apply parse_proxies_err in HE. congruence.
        -- enough (@inl policyErr (list Source) e' = inl e) by congruence. apply HS. exists pre, raw, post.
           split_and!; try tauto. by intros r _ ?%elem_of_nil.
    + split; [done|]. intros [[? _]|[[_ HE]|[_ [_ (pre & raw & post & D)]]]]; [lia| |].
      * apply parse_proxies_err in HE. congruence.
      * enough (@inr policyErr (list Source) ss = inl e) by done. apply HS. exists pre, raw, post.
        split_and!; try tauto. by intros r _ ?%elem_of_nil.
Qed.

Lemma validate_proxies_nil i l : validate_proxies i l = [] -> exists ps, parse_proxies l = inr ps /\ length ps = length l.
Proof.
  revert i. induction l as [|raw l IH]; intros i; simpl; [by exists []|].
  destruct (ParsePrefix raw) as [e|p]; [done|]. intros (ps & -> & E)%IH. exists (p :: ps). simpl. by rewrite E.
Qed.

Lemma validate_headers_nil i seen l :
  validate_headers i seen l = [] -> exists ss, header_sources seen l = inr ss.
Proof.
  revert i seen. induction l as [|name l IH]; intros i seen; cbn [validate_headers header_sources]; [by exists []|].
  case_bool_decide; [done|]. destruct (string_eqb name HeaderForwarded) eqn:E1; [|destruct (string_eqb name HeaderXFF) eqn:E2; [|done]].
  - apply bool_decide_eq_true in E1 as ->. change (ToLower (TrimSpace HeaderForwarded)) with HeaderForwarded.
    cbn [negb orb]. case_bool_decide; [done|]. intros (ss & ->)%IH. eexists. reflexivity.
  - apply bool_decide_eq_true in E2 as ->. change (ToLower (TrimSpace HeaderXFF)) with HeaderXFF.
    cbn [negb orb]. case_bool_decide; [done|]. intros (ss & ->)%IH. rewrite E1. eexists. reflexivity.
Qed.

(** A client_address block that passes validation compiles: it yields a
    policy with one prefix per configured proxy, the configured hop limit (16
    when left at zero), never above 255, so a validated configuration cannot
    fail at publication. *)
Theorem validated_policy_compiles (ca : ClientAddressConfig) :
  validateClientAddress (Some ca) = [] ->
  exists q, NewPolicy (ca_TrustedProxies ca) (ca_ForwardedHeaders ca) (ca_MaxHops ca) = inr q /\
    TrustedCount (Some q) = length (ca_TrustedProxies ca) /\
    maxHops q = (if ca_MaxHops ca =? 0 then DefaultMaxHops else ca_MaxHops ca) /\ 1 <= maxHops q <= MaxHopsLimit.
Proof.
  unfold validateClientAddress. intros E. apply app_eq_nil in E as [E1 E]. apply app_eq_nil in E as [E2 E].
  apply app_eq_nil in E as [E3 _]. apply validate_proxies_nil in E1 as (ps & E1 & EL).
  assert (HS : exists ss, header_sources [] (default DefaultForwardedHeaders (ca_ForwardedHeaders ca)) = inr ss).
  { destruct (ca_ForwardedHeaders ca) as [hs|]; simpl in *; [by apply validate_headers_nil in E2|by eexists]. }
  destruct HS as [ss HS]. unfold NewPolicy. rewrite E1, HS.
  destruct (ca_MaxHops ca <? 0) eqn:En; [done|]. destruct (MaxHopsLimit <? ca_MaxHops ca) eqn:Ex; [done|].
  unfold MaxHopsLimit, DefaultMaxHops in *.
  assert (Em : (255 <? (if ca_MaxHops ca <=? 0 then 16 else ca_MaxHops ca)) = false)
    by (destruct (ca_MaxHops ca <=? 0) eqn:E0; lia).
  rewrite Em. eexists. split; [reflexivity|]. cbn [TrustedCount trusted maxHops].
  split; [unfold sortPrefixes; by rewrite merge_sort_Permutation|].
  destruct (ca_MaxHops ca <=? 0) eqn:E0, (ca_MaxHops ca =? 0) eqn:E9; lia.
Qed.
End Theorems.

(** ** Witnesses *)

Definition demo_policy : Policy := MkPolicy [MkPrefix (V4 [10; 0; 0; 0]) 8] [SourceXFF] 16.
Definition demo_peer : Addr := V4 [10; 0; 0; 1].
Definition demo_header : Header := {[ str "X-Forwarded-For" := [str "6.6.6.6, 203.0.113.9, 10.0.0.2"] ]}.
Definition demo_config : ClientAddressConfig :=
  MkClientAddressConfig [str "10.0.0.0/8"; str "192.0.2.7"] (Some [str "x-forwarded-for"]) 0.

Lemma Derive_sound_witness :
  id_Peer (Derive (H := no_unicode) (Some demo_policy) (Some demo_peer) demo_header) = Some demo_peer.
Proof. destruct (Derive_sound (H := no_unicode) (Some demo_policy) (Some demo_peer) demo_header demo_peer eq_refl) as [E _]. exact E. Defined.

Lemma NewPolicy_order_witness :
  exists q, NewPolicy (H := no_unicode) [str "192.0.2.7"; str "10.0.0.0/8"] None 0 = inr q /\ length (trusted q) = 2%nat.
Proof.
  exists (MkPolicy [MkPrefix (V4 [10; 0; 0; 0]) 8; MkPrefix (V4 [192; 0; 2; 7]) 32] [SourceXFF] 16). split; [|reflexivity].
  apply (NewPolicy_order (H := no_unicode) [str "10.0.0.0/8"; str "192.0.2.7"]); [apply perm_swap|vm_compute; reflexivity].
Defined.

Lemma validated_policy_compiles_witness :
  exists q, NewPolicy (H := no_unicode) (ca_TrustedProxies demo_config) (ca_ForwardedHeaders demo_config) 0 = inr q.
Proof.
  destruct (validated_policy_compiles (H := no_unicode) demo_config) as (q & E & _); [vm_compute; reflexivity|].
  exists q. exact E.
Defined.
