(* ===== verification/Forwarded.v ===== *)
(** * The Forwarded header syntax

    Correctness of the hand-written RFC 7239 scanner of internal/clientaddr
    (parse.go, modelled in [ClientAddr]): splitting at separators outside quoted
    strings is exact, unquoting undoes quoting, and a header written in the
    standard form is read back to the addresses it names. *)

From S2P Require Import Prelude GoStrings Netip NetipPrefix Http ClientAddr.

(** ** Splitting outside quotes *)

(** The scanner's state after a text in which no separator splits; [None] when
    one does. *)
Fixpoint scan (s : gostring) (sep : Z) (inQuote escaped : bool) : option (bool * bool) :=
  match s with
  | [] => Some (inQuote, escaped)
  | c :: s =>
      if escaped then scan s sep inQuote false
      else if inQuote && (c =? 92) then scan s sep inQuote true
      else if c =? 34 then scan s sep (negb inQuote) false
      else if (c =? sep) && negb inQuote then None
      else scan s sep inQuote false
  end.

(** A part: no separator outside its quotes, and its quotes are closed. *)
Definition part (sep : Z) (s : gostring) : Prop := scan s sep false false = Some (false, false).

Lemma quoted_scan_app s t sep q e :
  scan (s ++ t) sep q e = match scan s sep q e with Some (q', e') => scan t sep q' e' | None => None end.
Proof.
  revert q e. induction s as [|c s IH]; intros q e; [done|]. cbn [app scan].
  destruct e; [apply IH|]. destruct (q && _); [apply IH|]. destruct (c =? 34); [apply IH|].
  destruct (_ && _); [done|apply IH].
Qed.

(** The split of a text from a scanner state, by the first separator. *)
Lemma split_quotes_cases s sep cur q e l :
  split_quotes s sep cur q e = Some l <->
  (scan s sep q e = Some (false, false) /\ l = [cur ++ s]) \/
  (exists x t l', s = x ++ sep :: t /\ scan x sep q e = Some (false, false) /\ sep <> 34 /\
     split_quotes t sep [] false false = Some l' /\ l = (cur ++ x) :: l').
Proof.
  revert cur q e. induction s as [|c s IH]; intros cur q e; cbn [split_quotes scan].
  - rewrite app_nil_r. destruct q, e; simpl; split; try done; try (by intros [= <-]; left);
      intros [[? ->]|(x & t & l' & E & _)]; try done; by destruct x.
  - assert (G : forall q' e', (scan s sep q' e' = Some (false, false) /\ l = [(cur ++ [c]) ++ s]) \/
        (exists x t l', s = x ++ sep :: t /\ scan x sep q' e' = Some (false, false) /\ sep <> 34 /\
           split_quotes t sep [] false false = Some l' /\ l = ((cur ++ [c]) ++ x) :: l') <->
        (scan s sep q' e' = Some (false, false) /\ l = [cur ++ c :: s]) \/
        (exists x t l', s = x ++ sep :: t /\ scan x sep q' e' = Some (false, false) /\ sep <> 34 /\
           split_quotes t sep [] false false = Some l' /\ l = (cur ++ c :: x) :: l')).
    { intros q' e'. setoid_rewrite <- app_assoc. done. }
    assert (K : forall q' e', ~ (c = sep /\ q = false /\ e = false /\ c <> 34) ->
        (forall x, scan (c :: x) sep q e = scan x sep q' e') ->
        (exists x t l', s = x ++ sep :: t /\ scan x sep q' e' = Some (false, false) /\ sep <> 34 /\
           split_quotes t sep [] false false = Some l' /\ l = (cur ++ c :: x) :: l') <->
        (exists x t l', c :: s = x ++ sep :: t /\ scan x sep q e = Some (false, false) /\ sep <> 34 /\
           split_quotes t sep [] false false = Some l' /\ l = (cur ++ x) :: l')).
    { intros q' e' Hn Hs. split.
      - intros (x & t & l' & -> & H). exists (c :: x), t, l'. rewrite Hs. done.
      - intros (x & t & l' & E & H). destruct x as [|d x]; simplify_eq/=.
        + exfalso. apply Hn. destruct H as ([= ? ?] & ? & _). done.
        + exists x, t, l'. rewrite <- Hs. done. }
    destruct e; [rewrite IH, G, (K q false); [done|naive_solver|done]|].
    destruct (q && (c =? 92)) eqn:Eq.
    { rewrite IH, G, (K q true); [done|destruct q; naive_solver|]. intros x. cbn [scan]. by rewrite Eq. }
    destruct (c =? 34) eqn:E34; [rewrite IH, G, (K (negb q) false); [done|naive_solver lia|intros x; cbn [scan]; by rewrite Eq, E34]|].
    destruct ((c =? sep) && negb q) eqn:Es.
    + apply andb_true_iff in Es as [Es Hq]. destruct q; [done|]. apply Z.eqb_eq in Es as ->. split.
      * destruct (split_quotes s sep [] false false) as [l'|] eqn:E; [|done]. intros [= <-]. right. exists [], s, l'.
        rewrite app_nil_r. split_and!; try done. lia.
      * intros [[? _]|(x & t & l' & E & Hx & _ & E2 & ->)]; [done|]. destruct x as [|d x]; simplify_eq/=.
        -- rewrite E2. by rewrite app_nil_r.
        -- cbn [scan] in Hx. by rewrite E34, Z.eqb_refl in Hx.
    + rewrite IH, G, (K q false); [done| |intros x; cbn [scan]; by rewrite Eq, E34, Es].
      intros (-> & -> & _ & _). by rewrite Z.eqb_refl in Es.
Qed.

Lemma split_quotes_exact s sep els :
  sep <> 34 ->
  split_quotes s sep [] false false = Some els <-> els <> [] /\ Forall (part sep) els /\ s = JoinByte els sep.
Proof.
  intros Hsep. revert s. induction els as [|x els IH]; intros s; rewrite split_quotes_cases.
  - split; [|by intros [? _]]. by intros [[_ ?]|(? & ? & ? & _ & _ & _ & _ & ?)].
  - cbn [app]. split.
    + intros [[Hs [= -> ->]]|(y & t & l' & -> & Hy & _ & Ht & [= -> ->])].
      * split_and!; [done|by repeat constructor|done].
      * apply IH in Ht as (Hl & HF & ->). split_and!; [done|by constructor|by rewrite JoinByte_cons].
    + intros (_ & HF & ->). apply Forall_cons in HF as [Hx HF]. destruct els as [|y els]; [by left|].
      right. exists x, (JoinByte (y :: els) sep), (y :: els). split_and!; try done. by apply IH.
Qed.

(** Splitting at a separator outside quoted strings is exact: it succeeds
    with some parts precisely when the text is those parts joined by the
    separator, each part having no separator outside its quotes and all its
    quotes closed; so every text has at most one split and no byte is lost. *)
Theorem splitOutsideQuotes_exact (s : gostring) (sep : Z) (els : list gostring) :
  sep <> 34 ->
  splitOutsideQuotes s sep = inr els <-> els <> [] /\ Forall (part sep) els /\ s = JoinByte els sep.
Proof.
  intros Hsep. rewrite <- split_quotes_exact by done. unfold splitOutsideQuotes.
  destruct (split_quotes s sep [] false false); split; congruence.
Qed.

(** ** Quoting *)

Definition escape (s : gostring) : gostring := concat (map (fun c => if (c =? 34) || (c =? 92) then [92; c] else [c]) s).
Definition quote (s : gostring) : gostring := 34 :: escape s ++ [34].

Lemma unescape_escape s : unescape (escape s) = Some s.
Proof.
  induction s as [|c s IH]; [done|]. unfold escape in *. cbn [map concat].
  destruct (c =? 34) eqn:E1; [|destruct (c =? 92) eqn:E2]; cbn [orb app unescape].
  - cbn. by rewrite IH.
  - cbn. by rewrite IH.
  - by rewrite E1, E2, IH.
Qed.

Lemma byte_in_spec s c : byte_in s c = true <-> c ∈ s.
Proof.
  unfold byte_in. induction s as [|a s IH]; simpl; [split; [done|by intros ?%elem_of_nil]|].
  rewrite elem_of_cons, <- IH. destruct (a =? c) eqn:E; [split; [left; lia|done]|].
  destruct (IndexByte s c); simpl; split; auto; intros [?|?]; done || lia.
Qed.

Lemma escape_plain s : byte_in (escape s) 92 = false -> escape s = s /\ 34 ∉ s.
Proof.
  intros H. assert (Hn : 92 ∉ escape s) by (rewrite <- byte_in_spec; congruence). clear H.
  unfold escape in *. induction s as [|c s IH]; [split; [done|apply not_elem_of_nil]|]. cbn [map concat] in *.
  apply not_elem_of_app in Hn as [Hc Hn]. destruct (IH Hn) as [-> Hq]. clear IH.
  destruct ((c =? 34) || (c =? 92)) eqn:E; [by destruct Hc; left|]. split; [done|].
  apply not_elem_of_cons. split; [lia|done].
Qed.

Lemma unquote_quote s : unquote (quote s) = inr s.
Proof.
  unfold unquote, quote. cbn [head]. rewrite bool_decide_true by done. cbn [negb length].
  rewrite last_cons, last_snoc, length_app, bool_decide_true by done.
  cbn [length negb orb]. rewrite Nat.add_1_r.
  replace (S (S (length (escape s))) - 2)%nat with (length (escape s)) by lia. cbn [Nat.ltb Nat.leb orb]. rewrite skipn_cons, drop_0.
  rewrite take_app_length. destruct (byte_in (escape s) 92) eqn:E; cbn [negb]; [by rewrite unescape_escape|].
  apply escape_plain in E as [-> Hq]. destruct (byte_in s 34) eqn:E; [by apply byte_in_spec in E|done].
Qed.

(** ** Node identifiers and whole headers *)

(** The standard forms: an IPv4 address bare, an IPv6 address in brackets, each
    with an optional port of one to five digits. *)
Definition node (a : Addr) (port : gostring) : gostring :=
  (if Is4 a then addr_string a else 91 :: addr_string a ++ [93]) ++
  (if bool_decide (port = []) then [] else 58 :: port).

Definition port_ok (port : gostring) : Prop := (length port <= 5)%nat /\ Forall (fun c => is_digit c = true) port.

Lemma validPortSuffix_ok port : port_ok port -> port <> [] -> validPortSuffix (58 :: port) = true.
Proof.
  intros [L HF] Hn. cbn [validPortSuffix]. destruct port as [|c port]; [done|]. cbn [length] in *.
  rewrite (proj2 (Nat.ltb_ge _ _)), (proj2 (Nat.ltb_ge 6 _)) by lia. cbn [Z.eqb orb negb andb].
  apply forallb_forall. intros x Hx. rewrite Forall_forall in HF. apply HF. by apply list_elem_of_In.
Qed.

(** What an address text is made of. *)
Definition addr_char (c : Z) : Prop := is_digit c = true \/ 97 <= c <= 102 \/ c = 46 \/ c = 58.

Lemma hex_char_addr d : 0 <= d < 16 -> addr_char (hex_char d).
Proof. unfold hex_char, addr_char, is_digit. intros. destruct (d <? 10) eqn:E; lia. Qed.

Lemma addr_string_chars a c : canonical_addr a -> c ∈ addr_string a -> addr_char c.
Proof.
  intros (Hok & Hz & H4). destruct a as [b|b z]; cbn [addr_ok Zone addr_string] in *; destruct Hok as [L F].
  - assert (HD : forall x, c ∈ FormatUint x -> addr_char c).
    { intros x Hx. left. by apply FormatUint_digit in Hx. }
    destruct b as [|b0 [|b1 [|b2 [|b3 [|]]]]]; try done. unfold string4.
    rewrite !elem_of_app, !elem_of_cons, !elem_of_app, !elem_of_cons, !elem_of_app, !elem_of_cons.
    unfold addr_char in *. intros [?|[?|[?|[?|[?|[?|?]]]]]]; eauto.
  - subst z. rewrite H4. unfold string6. change (zone_suffix []) with (@nil Z). rewrite app_nil_r.
    destruct (groups_ok b L F) as (Lg & HG & _). intros Hc. apply print6_chars in Hc; [|done|done|apply best_run_ok; [reflexivity|by left]].
    destruct Hc as [-> |(d & Hd & ->)]; [by right; right; right|by apply hex_char_addr].
Qed.

Lemma addr_string_nonempty a : canonical_addr a -> addr_string a <> [].
Proof. intros Ha E. pose proof (canonical_string a Ha) as Hp. by rewrite E in Hp. Qed.

Lemma parseBareAddr_string a : canonical_addr a -> parseBareAddr (addr_string a) = Some a.
Proof.
  intros Ha. unfold parseBareAddr. rewrite bool_decide_false by (by apply addr_string_nonempty). cbn [orb].
  assert (HC : ContainsAny (addr_string a) [37; 47; 32; 9] = false).
  { unfold ContainsAny. apply not_true_iff_false. intros (c & Hc & Hd)%existsb_exists. apply list_elem_of_In in Hc.
    apply (addr_string_chars _ _ Ha) in Hc. apply byte_in_spec in Hd.
    rewrite !elem_of_cons, elem_of_nil in Hd. unfold addr_char, is_digit in Hc. lia. }
  rewrite HC, canonical_string by done. simpl. by rewrite normalize_canonical.
Qed.

(** The first byte of an address text is a hex digit, or the colon of an IPv6
    address. *)
Lemma addr_string_head a : canonical_addr a -> exists c t, addr_string a = c :: t /\ addr_char c.
Proof.
  intros Ha. destruct (addr_string a) as [|c t] eqn:E; [by apply addr_string_nonempty in E|]. exists c, t. split; [done|].
  apply (addr_string_chars a); [done|]. rewrite E. by left.
Qed.

Lemma Is4_no_colon a : canonical_addr a -> Is4 a = true -> 58 ∉ addr_string a.
Proof.
  intros (Hok & _) H4. destruct a as [b|]; [|done]. cbn [addr_string]. destruct Hok as [L F].
  destruct b as [|b0 [|b1 [|b2 [|b3 [|]]]]]; try done. unfold string4.
  assert (HD : forall x, 58 ∉ FormatUint x).
  { intros x. by apply FormatUint_notin. }
  rewrite !elem_of_app, !elem_of_cons, !elem_of_app, !elem_of_cons, !elem_of_app, !elem_of_cons.
  intros [H|[H|[H|[H|[H|[H|H]]]]]]; done || by apply HD in H.
Qed.

Section Header.
Context `{Unicode}.

Lemma addr_char_ascii s : (forall c, c ∈ s -> addr_char c \/ c = 91 \/ c = 93) -> ascii s = true.
Proof.
  intros Hs. unfold ascii. apply forallb_forall. intros c Hc%list_elem_of_In. apply Hs in Hc.
  unfold addr_char, is_digit in Hc. lia.
Qed.

Lemma node_not_unknown s c t : s = c :: t -> ascii s = true -> lower_byte c <> 117 -> EqualFold s (str "unknown") = false.
Proof.
  intros -> Ha Hc. unfold EqualFold. rewrite Ha. cbn [andb]. change (ascii (str "unknown")) with true. cbn iota.
  apply bool_decide_eq_false. intros E. apply (f_equal head) in E. cbn in E. congruence.
Qed.

Lemma node_chars a port c :
  canonical_addr a -> port_ok port -> c ∈ node a port -> addr_char c \/ c = 91 \/ c = 93.
Proof.
  intros Ha [_ Hp]. unfold node. rewrite Forall_forall in Hp.
  assert (HP : c ∈ (if bool_decide (port = []) then [] else 58 :: port) -> addr_char c).
  { case_bool_decide; [by intros ?%elem_of_nil|]. intros [-> |Hc]%elem_of_cons; [by right; right; right|left; by apply Hp]. }
  rewrite elem_of_app. intros [Hc|Hc]; [|by left; apply HP]. destruct (Is4 a).
  - left. by apply (addr_string_chars a).
  - apply elem_of_cons in Hc as [-> |Hc]; [auto|]. apply elem_of_app in Hc as [Hc|Hc]; [left; by apply (addr_string_chars a)|].
    apply list_elem_of_singleton in Hc. auto.
Qed.

(** A node in standard form names its address. *)
Lemma parseForwardedFor_node a port :
  canonical_addr a -> port_ok port -> parseForwardedFor (node a port) = Some a.
Proof.
  intros Ha Hp. destruct (addr_string_head a Ha) as (c0 & t0 & E0 & Hc0).
  assert (HA : ascii (node a port) = true) by (apply addr_char_ascii; intros c; by apply node_chars).
  assert (Hh : exists c t, node a port = c :: t /\ c <> 95 /\ lower_byte c <> 117 /\ (c = 91 <-> Is4 a = false)).
  { unfold node. destruct (Is4 a); [rewrite E0|]; cbn [app]; eexists _, _; (split; [reflexivity|]).
    - unfold lower_byte, addr_char, is_digit in *. split; [lia|]. split; [destruct ((65 <=? c0) && _) eqn:E; lia|].
      split; [intros Hx; exfalso; lia|done].
    - done. }
  destruct Hh as (c & t & En & H95 & Hu & H91). unfold parseForwardedFor.
  rewrite (node_not_unknown _ c t En HA Hu), (bool_decide_false (node a port = [])), (bool_decide_false (head (node a port) = Some 95))
    by (rewrite En; simpl; congruence). cbn [orb].
  destruct (Is4 a) eqn:E4.
  - rewrite (bool_decide_false (head (node a port) = Some 91)) by (rewrite En; simpl; intros [= ->]; destruct H91 as [H91 _]; by specialize (H91 eq_refl)).
    unfold node. rewrite E4. case_bool_decide as Ep.
    + rewrite app_nil_r, CutByte_notin by (by apply Is4_no_colon). by apply parseBareAddr_string.
    + rewrite CutByte_app by (by apply Is4_no_colon). rewrite validPortSuffix_ok by done. cbn [negb].
      by rewrite parseBareAddr_string, E4 by done.
  - rewrite bool_decide_true by (rewrite En; simpl; f_equal; by apply H91). unfold node. rewrite E4. cbn [app]. rewrite <- app_assoc. cbn [app].
    rewrite app_comm_cons, IndexByte_app.
    2: { rewrite elem_of_cons. intros [?|Hc]; [done|]. apply (addr_string_chars _ _ Ha) in Hc. unfold addr_char, is_digit in Hc. lia. }
    assert (Ed : forall r, drop (S (length (91 :: addr_string a))) ((91 :: addr_string a) ++ 93 :: r) = r).
    { intros r. rewrite drop_app_ge by lia. by rewrite Nat.sub_succ_l, Nat.sub_diag by lia. }
    rewrite Ed. set (r := if bool_decide (port = []) then _ else _).
    assert (Er : negb (bool_decide (r = [])) && negb (validPortSuffix r) = false).
    { subst r. destruct (decide (port = [])) as [->|Ep]; [done|]. rewrite (bool_decide_false (port = [])) by done. rewrite validPortSuffix_ok by done. by rewrite andb_false_r. }
    rewrite Er. cbn [length app]. rewrite skipn_cons, drop_0, Nat.sub_succ, Nat.sub_0_r, take_app_length.
    by rewrite parseBareAddr_string, E4 by done.
Qed.

(** An element naming one node, quoted as the standard asks for IPv6. *)
Definition element (n : gostring) : gostring := str "for=" ++ quote n.

Lemma scan_plain s sep q :
  (forall c, c ∈ s -> c <> 34 /\ c <> 92 /\ c <> sep) -> scan s sep q false = Some (q, false).
Proof.
  induction s as [|c s IH]; intros Hs; [done|]. cbn [scan]. destruct (Hs c ltac:(left)) as (H1 & H2 & H3).
  rewrite (proj2 (Z.eqb_neq _ _) H1), (proj2 (Z.eqb_neq _ _) H2), (proj2 (Z.eqb_neq _ _) H3), andb_false_r. cbn [andb].
  apply IH. intros x Hx. apply Hs. by right.
Qed.

Lemma escape_id s : (forall c, c ∈ s -> c <> 34 /\ c <> 92) -> escape s = s.
Proof.
  unfold escape. induction s as [|c s IH]; intros Hs; [done|]. cbn [map concat]. destruct (Hs c ltac:(left)) as [H1 H2].
  rewrite (proj2 (Z.eqb_neq _ _) H1), (proj2 (Z.eqb_neq _ _) H2). cbn [orb app]. f_equal. apply IH. intros x Hx. apply Hs. by right.
Qed.

Lemma element_part n sep :
  (forall c, c ∈ n -> addr_char c \/ c = 91 \/ c = 93) -> sep = 44 \/ sep = 59 ->
  part sep (element n) /\ escape n = n.
Proof.
  intros Hn Hsep. assert (HP : forall c, c ∈ n -> c <> 34 /\ c <> 92 /\ c <> sep).
  { intros c Hc. apply Hn in Hc. unfold addr_char, is_digit in Hc. lia. }
  assert (HE : escape n = n) by (apply escape_id; intros c Hc; apply HP in Hc; tauto). split; [|done].
  unfold part, element, quote. rewrite HE, quoted_scan_app.
  rewrite scan_plain by (intros c Hc; cbn in Hc; rewrite !elem_of_cons, elem_of_nil in Hc; lia).
  cbn [scan andb]. change (34 =? 34) with true. cbn iota. rewrite quoted_scan_app. cbn [negb].
  by rewrite scan_plain by done.
Qed.

Lemma TrimLeft_tight (cut : Z -> bool) c s : cut c = false -> TrimLeft cut (c :: s) = c :: s.
Proof. intros E. cbn. by rewrite E. Qed.

Lemma TrimSpace_tight c d s : ascii (c :: s ++ [d]) = true -> ascii_space c = false -> ascii_space d = false ->
  TrimSpace (c :: s ++ [d]) = c :: s ++ [d].
Proof.
  intros Ha Hc Hd. unfold TrimSpace. rewrite Ha. unfold Trim. rewrite TrimLeft_tight by done.
  rewrite app_comm_cons, rev_app_distr. cbn [rev app]. rewrite TrimLeft_tight by done.
  cbn [rev]. rewrite rev_app_distr, rev_involutive. done.
Qed.

Lemma element_trim n : ascii n = true -> escape n = n ->
  TrimSpace (element n) = element n /\ TrimSpace (quote n) = quote n.
Proof.
  intros Ha He. unfold element, quote. rewrite He. change (str "for=") with [102; 111; 114; 61]. cbn [app].
  assert (HA : forall x, ascii x = true -> ascii (x ++ n ++ [34]) = true).
  { intros x Hx. unfold ascii in *. by rewrite !forallb_app, Hx, Ha. }
  split.
  - exact (TrimSpace_tight 102 34 ([111; 114; 61; 34] ++ n) ltac:(apply (HA [102; 111; 114; 61; 34]); done) eq_refl eq_refl).
  - exact (TrimSpace_tight 34 34 n ltac:(apply (HA [34]); done) eq_refl eq_refl).
Qed.

Lemma forwardedElementAddr_element a port :
  canonical_addr a -> port_ok port -> forwardedElementAddr (element (node a port)) = inr (Some a).
Proof.
  intros Ha Hp. set (n := node a port).
  assert (Hn : forall c, c ∈ n -> addr_char c \/ c = 91 \/ c = 93) by (intros c; by apply node_chars).
  destruct (element_part n 59 Hn ltac:(auto)) as [HP HE].
  destruct (element_trim n (addr_char_ascii n Hn) HE) as [T1 T2].
  unfold forwardedElementAddr. rewrite T1. rewrite bool_decide_false by done.
  unfold splitOutsideQuotes. rewrite (proj2 (split_quotes_exact (element n) 59 [element n] ltac:(done)))
    by (split_and!; [done|by repeat constructor|done]).
  cbn [for_param]. rewrite T1, bool_decide_false by done. unfold element at 1. change (str "for=") with ([102; 111; 114] ++ [61]).
  rewrite <- app_assoc. cbn [app]. change (102 :: 111 :: 114 :: 61 :: quote n) with ([102; 111; 114] ++ 61 :: quote n).
  rewrite CutByte_app by (rewrite !elem_of_cons, elem_of_nil; lia). cbn [negb].
  change (EqualFold (TrimSpace [102; 111; 114]) (str "for")) with true. cbn [negb].
  rewrite (bool_decide_false (None <> None)) by (intros []; done). rewrite T2, unquote_quote. subst n. by rewrite parseForwardedFor_node.
Qed.

(** Reading back a Forwarded header.  A field line that lists nodes in the
    standard form (quoted, IPv6 in brackets, with or without ports) yields
    exactly their addresses, in order; a list longer than the hop limit is
    refused as too long. *)
Theorem appendForwarded_roundtrip (nodes : list (Addr * gostring)) (m : Z) :
  nodes <> [] -> Forall (fun x => canonical_addr x.1 /\ port_ok x.2) nodes ->
  appendForwarded [] (JoinByte (map (fun x => element (node x.1 x.2)) nodes) 44) m =
  if Z.of_nat (length nodes) <=? m then inr (map (fun x => Some x.1) nodes) else inl errTooManyHops.
Proof.
  intros Hne HF. unfold appendForwarded, splitOutsideQuotes.
  rewrite (proj2 (split_quotes_exact _ 44 (map (fun x => element (node x.1 x.2)) nodes) ltac:(done))).
  2: { split_and!; [by destruct nodes| |done]. apply Forall_map. eapply Forall_impl; [exact HF|]. intros x [H1 H2].
       apply element_part; [intros c; by apply node_chars|auto]. }
  assert (G : forall hops, forwarded_elements hops (map (fun x => element (node x.1 x.2)) nodes) m =
    if Z.of_nat (length hops + length nodes) <=? m then inr (hops ++ map (fun x => Some x.1) nodes) else inl errTooManyHops).
  2: { by rewrite (G []). }
  induction HF as [|x nodes [Hx1 Hx2] HF IH]; [done|]. intros hops. cbn [map forwarded_elements length].
  destruct (m <=? Z.of_nat (length hops)) eqn:Em; [by rewrite (proj2 (Z.leb_gt _ _)) by blia|].
  rewrite forwardedElementAddr_element by done. destruct nodes as [|y nodes].
  - cbn [map forwarded_elements length]. by rewrite (proj2 (Z.leb_le _ _)) by blia.
  - rewrite IH, length_app, <- app_assoc by done. cbn [length app]. by rewrite <- Nat.add_assoc.
Qed.
End Header.

(** ** Witnesses *)

Lemma splitOutsideQuotes_exact_witness :
  splitOutsideQuotes ([102; 61; 34; 44; 34; 44] ++ str "g") 44 = inr [[102; 61; 34; 44; 34]; str "g"].
Proof.
  apply (splitOutsideQuotes_exact _ 44 [[102; 61; 34; 44; 34]; str "g"]); [done|].
  split; [done|]. split; [repeat constructor|reflexivity].
Defined.

Lemma appendForwarded_roundtrip_witness :
  appendForwarded (H := no_unicode) []
    (JoinByte (map (fun x => element (node x.1 x.2)) [(V6 (replicate 15 0 ++ [1]) [], str "443"); (V4 [10; 0; 0; 1], [])]) 44) 16 =
  inr [Some (V6 (replicate 15 0 ++ [1]) []); Some (V4 [10; 0; 0; 1])].
Proof.
  rewrite (appendForwarded_roundtrip (H := no_unicode)); [reflexivity|done|].
  repeat constructor; unfold is_byte; simpl; lia.
Defined.
