(* ===== verification/Circuit.v ===== *)
(** * The per-backend circuit breaker (src/internal/upstream/circuit.go)

    [circuit] is the breaker's state and each method of the Go type is one
    definition, the lock-free fast paths included.  Methods guarded by [c.mu]
    are atomic here; the fast paths are single atomic loads, or a pair of loads
    that writes nothing, so every method is one step of the transition system
    [circuit_exec], whose states also carry the clock and the admissions that
    have been handed out and not yet reported. *)

From S2P Require Import Prelude.

Inductive BackendState :=
| StateAvailable
| StateCircuitOpen
| StateCircuitHalfOpen
| StateHealthUnhealthy
| StateAtCapacity.

Inductive circuitPhase := phaseClosed | phaseOpen | phaseHalfOpen.

#[export] Instance BackendState_eq_dec : EqDecision BackendState.
Proof. solve_decision. Defined.
#[export] Instance circuitPhase_eq_dec : EqDecision circuitPhase.
Proof. solve_decision. Defined.

(** [time.Time{}]: instants are nanoseconds since the zero time. *)
Definition zeroTime : Z := 0.
Definition second : Z := 1000000000.

(** The transition hook only counts: [onTransition] records whether one is
    installed and [hookCalls] the states it has been called with, latest
    first. *)
Record circuit := MkCircuit {
  closedEpoch : Z;
  fails : Z;
  phase : circuitPhase;
  epoch : Z;
  openUntil : Z;
  halfOpenUntil : Z;
  probesInFlight : Z;
  maxFails : Z;
  failTimeout : Z;
  maxProbes : Z;
  onTransition : bool;
  hookCalls : list BackendState
}.

Record admission := MkAdm { adm_epoch : Z; adm_probe : bool }.

#[export] Instance admission_eq_dec : EqDecision admission.
Proof. solve_decision. Defined.

Definition no_admission : admission := MkAdm 0 false.

Definition admission_ok (a : admission) : bool := negb (adm_epoch a =? 0).

Definition setTransitionHook (c : circuit) : circuit :=
  MkCircuit (closedEpoch c) (fails c) (phase c) (epoch c) (openUntil c)
    (halfOpenUntil c) (probesInFlight c) (maxFails c) (failTimeout c)
    (maxProbes c) true (hookCalls c).

Definition transitioned (to : BackendState) (c : circuit) : circuit :=
  if onTransition c then
    MkCircuit (closedEpoch c) (fails c) (phase c) (epoch c) (openUntil c)
      (halfOpenUntil c) (probesInFlight c) (maxFails c) (failTimeout c)
      (maxProbes c) (onTransition c) (to :: hookCalls c)
  else c.

Definition clampMaxFails (mf : Z) : Z := if mf <? 1 then 1 else mf.
Definition clampFailTimeout (ft : Z) : Z := if ft <=? 0 then 10 * second else ft.

Definition newCircuit (mf ft mp : Z) : circuit :=
  {| closedEpoch := 1; fails := 0; phase := phaseClosed; epoch := 1;
     openUntil := zeroTime; halfOpenUntil := zeroTime; probesInFlight := 0;
     maxFails := clampMaxFails mf; failTimeout := clampFailTimeout ft;
     maxProbes := mp; onTransition := false; hookCalls := [] |}.

Definition setLimits (mf ft mp : Z) (c : circuit) : circuit :=
  MkCircuit (closedEpoch c) (fails c) (phase c) (epoch c) (openUntil c)
    (halfOpenUntil c) (probesInFlight c) (clampMaxFails mf)
    (clampFailTimeout ft) mp (onTransition c) (hookCalls c).

(** ** Transitions, called with [mu] held *)

Definition openLocked (now : Z) (c : circuit) : circuit :=
  transitioned StateCircuitOpen
    (MkCircuit 0 0 phaseOpen (u64 (epoch c + 1)) (now + failTimeout c)
       (halfOpenUntil c) 0 (maxFails c) (failTimeout c) (maxProbes c)
       (onTransition c) (hookCalls c)).

Definition closeLocked (c : circuit) : circuit :=
  transitioned StateAvailable
    (MkCircuit (u64 (epoch c + 1)) 0 phaseClosed (u64 (epoch c + 1)) zeroTime
       zeroTime 0 (maxFails c) (failTimeout c) (maxProbes c)
       (onTransition c) (hookCalls c)).

Definition set_probes (n : Z) (c : circuit) : circuit :=
  MkCircuit (closedEpoch c) (fails c) (phase c) (epoch c) (openUntil c)
    (halfOpenUntil c) n (maxFails c) (failTimeout c) (maxProbes c)
    (onTransition c) (hookCalls c).

Definition set_fails (n : Z) (c : circuit) : circuit :=
  MkCircuit (closedEpoch c) n (phase c) (epoch c) (openUntil c)
    (halfOpenUntil c) (probesInFlight c) (maxFails c) (failTimeout c)
    (maxProbes c) (onTransition c) (hookCalls c).

Definition releaseProbeLocked (c : circuit) : circuit :=
  if 0 <? probesInFlight c then set_probes (probesInFlight c - 1) c else c.

Definition halfOpenLocked (now : Z) (c : circuit) : circuit :=
  transitioned StateCircuitHalfOpen
    (MkCircuit (closedEpoch c) (fails c) phaseHalfOpen (epoch c) (openUntil c)
       (now + failTimeout c) 1 (maxFails c) (failTimeout c) (maxProbes c)
       (onTransition c) (hookCalls c)).

(** ** The slow paths, under the lock *)

Definition eligible_slow (now : Z) (c : circuit) : bool :=
  match phase c with
  | phaseClosed => true
  | phaseOpen => negb (now <? openUntil c)
  | phaseHalfOpen => (maxProbes c <=? 0) || (probesInFlight c <? maxProbes c)
  end.

Definition admit_slow (now : Z) (c : circuit) : circuit * admission :=
  match phase c with
  | phaseClosed => (c, MkAdm (epoch c) false)
  | phaseOpen =>
      if now <? openUntil c then (c, no_admission)
      else (halfOpenLocked now c, MkAdm (epoch c) true)
  | phaseHalfOpen =>
      if negb (now <? halfOpenUntil c) then (openLocked now c, no_admission)
      else if (0 <? maxProbes c) && (maxProbes c <=? probesInFlight c)
      then (c, no_admission)
      else (set_probes (probesInFlight c + 1) c, MkAdm (epoch c) true)
  end.

Definition success_slow (a : admission) (c : circuit) : circuit * bool :=
  if negb (adm_epoch a =? epoch c) then
    (if adm_probe a then releaseProbeLocked c else c, false)
  else if adm_probe a then (closeLocked c, true)
  else (set_fails 0 c, false).

Definition state_slow (now : Z) (c : circuit) : BackendState :=
  match phase c with
  | phaseClosed => StateAvailable
  | phaseOpen => if negb (now <? openUntil c) then StateCircuitHalfOpen else StateCircuitOpen
  | phaseHalfOpen => StateCircuitHalfOpen
  end.

(** ** The methods *)

Definition circuit_eligible (now : Z) (c : circuit) : bool :=
  if negb (closedEpoch c =? 0) then true else eligible_slow now c.

Definition circuit_admit (now : Z) (c : circuit) : circuit * admission :=
  if negb (closedEpoch c =? 0) then (c, MkAdm (closedEpoch c) false)
  else admit_slow now c.

Definition circuit_success (a : admission) (c : circuit) : circuit * bool :=
  if negb (admission_ok a) then (c, false)
  else if negb (adm_probe a) && (closedEpoch c =? adm_epoch a) && (fails c =? 0)
  then (c, false)
  else success_slow a c.

Definition circuit_failure (now : Z) (a : admission) (c : circuit) : circuit * bool :=
  if negb (admission_ok a) then (c, false)
  else if negb (adm_epoch a =? epoch c) then
    (if adm_probe a then releaseProbeLocked c else c, false)
  else if adm_probe a then (openLocked now c, true)
  else match phase c with
  | phaseClosed =>
      let f := i32 (fails c + 1) in
      if f <? maxFails c then (set_fails f c, false)
      else (openLocked now (set_fails f c), true)
  | _ => (c, false)
  end.

Definition circuit_releaseProbe (a : admission) (c : circuit) : circuit :=
  if negb (admission_ok a) || negb (adm_probe a) then c
  else if adm_epoch a =? epoch c then releaseProbeLocked c else c.

Definition circuit_forceClose (c : circuit) : circuit * bool :=
  if bool_decide (phase c = phaseClosed) && (fails c =? 0) then (c, false)
  else (closeLocked c, true).

Definition circuit_state (now : Z) (c : circuit) : BackendState :=
  if negb (closedEpoch c =? 0) then StateAvailable else state_slow now c.

Record CircuitStatus := MkCircuitStatus {
  st_State : BackendState;
  st_OpenUntil : Z;
  st_ProbesRemaining : Z;
  st_Fails : Z;
  st_MaxFails : Z;
  st_FailTimeout : Z
}.

Definition circuit_status (now : Z) (c : circuit) : CircuitStatus :=
  match phase c with
  | phaseClosed =>
      MkCircuitStatus StateAvailable zeroTime 0 (fails c) (maxFails c) (failTimeout c)
  | ph =>
      if bool_decide (ph = phaseOpen) && (now <? openUntil c) then
        MkCircuitStatus StateCircuitOpen (openUntil c) 0 (fails c) (maxFails c) (failTimeout c)
      else
        let r := maxProbes c - probesInFlight c in
        MkCircuitStatus StateCircuitHalfOpen zeroTime (if 0 <? r then r else 0)
          (fails c) (maxFails c) (failTimeout c)
  end.

(** ** The breaker in its environment

    Requests are admitted, report a result at most once, or are abandoned; the
    health checker may force the circuit closed, a reload may retune it, and
    time passes.  Each label resolves one such event. *)

Record csys := MkCsys {
  cs_circuit : circuit;
  cs_now : Z;
  cs_out : list admission
}.

Inductive clabel :=
| LAdmit
| LSuccess (i : nat)
| LFailure (i : nat)
| LReleaseProbe (i : nat)
| LAbandon (i : nat)
| LForceClose
| LSetLimits (mf ft mp : Z)
| LTick (d : Z).

Definition circuit_exec (s : csys) (l : clabel) : option csys :=
  let c := cs_circuit s in
  let now := cs_now s in
  let report i (f : admission -> circuit) :=
    match cs_out s !! i with
    | Some a => Some (MkCsys (f a) now (delete i (cs_out s)))
    | None => None
    end in
  match l with
  | LAdmit =>
      let '(c', a) := circuit_admit now c in
      Some (MkCsys c' now (if admission_ok a then a :: cs_out s else cs_out s))
  | LSuccess i => report i (fun a => (circuit_success a c).1)
  | LFailure i => report i (fun a => (circuit_failure now a c).1)
  | LReleaseProbe i => report i (fun a => circuit_releaseProbe a c)
  | LAbandon i => report i (fun _ => c)
  | LForceClose => Some (MkCsys (circuit_forceClose c).1 now (cs_out s))
  | LSetLimits mf ft mp => Some (MkCsys (setLimits mf ft mp c) now (cs_out s))
  | LTick d => if 0 <=? d then Some (MkCsys c (now + d) (cs_out s)) else None
  end.

Definition circuit_init (mf ft mp now : Z) : csys := MkCsys (newCircuit mf ft mp) now [].

(** ** The invariant *)

Record adm_inv (c : circuit) (a : admission) : Prop := {
  ai_pos : 1 <= adm_epoch a;
  ai_le : adm_epoch a <= epoch c;
  ai_cur : adm_epoch a = epoch c ->
    phase c = if adm_probe a then phaseHalfOpen else phaseClosed
}.

(** The gate publishes the generation exactly while CLOSED; failures are only
    on record while CLOSED and probes only while HALF_OPEN. *)
Record circuit_ok (c : circuit) : Prop := {
  co_epoch : 1 <= epoch c;
  co_gate : closedEpoch c = match phase c with phaseClosed => epoch c | _ => 0 end;
  co_fails : phase c <> phaseClosed -> fails c = 0;
  co_probes : 0 <= probesInFlight c;
  co_probes0 : phase c <> phaseHalfOpen -> probesInFlight c = 0;
  co_maxFails : 1 <= maxFails c;
  co_failTimeout : 0 < failTimeout c
}.

(** An outstanding admission of the live generation is a probe exactly while
    HALF_OPEN. *)
Record circuit_inv (s : csys) : Prop := {
  ci_ok : circuit_ok (cs_circuit s);
  ci_out : Forall (adm_inv (cs_circuit s)) (cs_out s)
}.

(** How one method may move the generation. *)
Inductive moved (c c' : circuit) : Prop :=
| mv_stay : epoch c' = epoch c -> phase c' = phase c -> moved c c'
| mv_next : epoch c' = epoch c + 1 -> moved c c'
| mv_half : epoch c' = epoch c -> phase c = phaseOpen ->
    phase c' = phaseHalfOpen -> moved c c'.

(** The hook only counts: every field but its own call log is unchanged. *)
Section TransitionedFields.
Context (to : BackendState) (c : circuit).
Local Ltac field := unfold transitioned; destruct (onTransition c); reflexivity.

Lemma tr_closedEpoch : closedEpoch (transitioned to c) = closedEpoch c.
Proof. field. Qed.
Lemma tr_fails : fails (transitioned to c) = fails c.
Proof. field. Qed.
Lemma tr_phase : phase (transitioned to c) = phase c.
Proof. field. Qed.
Lemma tr_epoch : epoch (transitioned to c) = epoch c.
Proof. field. Qed.
Lemma tr_openUntil : openUntil (transitioned to c) = openUntil c.
Proof. field. Qed.
Lemma tr_halfOpenUntil : halfOpenUntil (transitioned to c) = halfOpenUntil c.
Proof. field. Qed.
Lemma tr_probesInFlight : probesInFlight (transitioned to c) = probesInFlight c.
Proof. field. Qed.
Lemma tr_maxFails : maxFails (transitioned to c) = maxFails c.
Proof. field. Qed.
Lemma tr_failTimeout : failTimeout (transitioned to c) = failTimeout c.
Proof. field. Qed.
Lemma tr_maxProbes : maxProbes (transitioned to c) = maxProbes c.
Proof. field. Qed.
End TransitionedFields.

Create HintDb circuit.
#[export] Hint Rewrite tr_closedEpoch tr_fails tr_phase tr_epoch tr_openUntil
  tr_halfOpenUntil tr_probesInFlight tr_maxFails tr_failTimeout tr_maxProbes : circuit.

(** Unfold the locked transitions and read their fields. *)
Ltac cfields :=
  unfold openLocked, closeLocked, halfOpenLocked, releaseProbeLocked, set_probes,
    set_fails, setLimits in *;
  repeat (autorewrite with circuit in *; simpl in * ).

Lemma moved_adm c c' a : moved c c' -> adm_inv c a -> adm_inv c' a.
Proof.
  intros M [H1 H2 H3]. destruct M as [He Hp|He|He Ho Hh]; split;
    rewrite ?He, ?Hp; auto with lia.
  intros E. rewrite Ho in H3. specialize (H3 ltac:(lia)). by destruct (adm_probe a).
Qed.

Lemma moved_refl c : moved c c.
Proof. by apply mv_stay. Qed.

Lemma openLocked_ok now c :
  circuit_ok c -> epoch c + 1 < 2 ^ 64 ->
  circuit_ok (openLocked now c) /\ moved c (openLocked now c).
Proof.
  intros H Hb. pose proof (co_epoch _ H). pose proof (co_maxFails _ H).
  pose proof (co_failTimeout _ H).
  cfields. rewrite u64_small by lia.
  split; [split; cfields; (done || lia)|]. apply mv_next. by cfields.
Qed.

Lemma closeLocked_ok c :
  circuit_ok c -> epoch c + 1 < 2 ^ 64 ->
  circuit_ok (closeLocked c) /\ moved c (closeLocked c).
Proof.
  intros H Hb. pose proof (co_epoch _ H). pose proof (co_maxFails _ H).
  pose proof (co_failTimeout _ H).
  cfields. rewrite u64_small by lia.
  split; [split; cfields; (done || lia)|]. apply mv_next. by cfields.
Qed.

Lemma set_probes_ok n c :
  circuit_ok c -> 0 <= n -> (phase c <> phaseHalfOpen -> n = 0) ->
  circuit_ok (set_probes n c) /\ moved c (set_probes n c).
Proof. intros [] Hn H0. split; [split; cfields; auto|by apply mv_stay]. Qed.

Lemma set_fails_ok n c :
  circuit_ok c -> (phase c <> phaseClosed -> n = 0) ->
  circuit_ok (set_fails n c) /\ moved c (set_fails n c).
Proof. intros [] Hn. split; [split; cfields; auto|by apply mv_stay]. Qed.

Lemma releaseProbeLocked_ok c :
  circuit_ok c -> circuit_ok (releaseProbeLocked c) /\ moved c (releaseProbeLocked c).
Proof.
  intros H. unfold releaseProbeLocked. destruct (0 <? probesInFlight c) eqn:E.
  - apply set_probes_ok; [done|lia|]. intros Hp. pose proof (co_probes0 _ H Hp). lia.
  - split; [done|apply moved_refl].
Qed.

Lemma halfOpenLocked_ok now c :
  circuit_ok c -> phase c = phaseOpen ->
  circuit_ok (halfOpenLocked now c) /\ moved c (halfOpenLocked now c).
Proof.
  intros H Hp. pose proof (co_gate _ H) as Hg. rewrite Hp in Hg.
  assert (Hf : fails c = 0) by (apply (co_fails _ H); congruence).
  destruct H. split; [split; cfields; (done || lia)|].
  apply mv_half; by cfields.
Qed.

#[export] Hint Resolve openLocked_ok closeLocked_ok releaseProbeLocked_ok moved_refl
  halfOpenLocked_ok : circuit.

(** ** Every method preserves the local invariant and moves the generation *)

Definition preserved (c c' : circuit) : Prop := circuit_ok c' /\ moved c c'.

Lemma preserved_refl c : circuit_ok c -> preserved c c.
Proof. split; [done|apply moved_refl]. Qed.
#[export] Hint Resolve preserved_refl : circuit.

Lemma admit_preserved now c :
  circuit_ok c -> epoch c + 1 < 2 ^ 64 -> preserved c (circuit_admit now c).1.
Proof.
  intros H Hb. unfold circuit_admit, admit_slow, preserved.
  destruct (negb _); [auto with circuit|].
  destruct (phase c) eqn:Hp; [auto with circuit| |].
  - destruct (now <? openUntil c); simpl; auto with circuit.
  - destruct (negb _); simpl; [auto with circuit|].
    destruct (_ && _); simpl; [auto with circuit|].
    pose proof (co_probes _ H). apply set_probes_ok; [done|lia|congruence].
Qed.

Lemma success_preserved a c :
  circuit_ok c -> epoch c + 1 < 2 ^ 64 -> adm_inv c a ->
  preserved c (circuit_success a c).1.
Proof.
  intros H Hb Ha. unfold circuit_success, success_slow, preserved.
  destruct (negb (admission_ok a)); [simpl; auto with circuit|].
  destruct (_ && _); [simpl; auto with circuit|].
  destruct (negb (adm_epoch a =? epoch c)); simpl;
    [destruct (adm_probe a); auto with circuit|].
  destruct (adm_probe a); simpl; [auto with circuit|].
  by apply set_fails_ok.
Qed.

Lemma failure_preserved now a c :
  circuit_ok c -> epoch c + 1 < 2 ^ 64 -> preserved c (circuit_failure now a c).1.
Proof.
  intros H Hb. unfold circuit_failure, preserved.
  destruct (negb (admission_ok a)); [simpl; auto with circuit|].
  destruct (negb (adm_epoch a =? epoch c)); simpl;
    [destruct (adm_probe a); auto with circuit|].
  destruct (adm_probe a); simpl; [auto with circuit|].
  destruct (phase c) eqn:Hp; simpl; [|auto with circuit..].
  assert (Hs : circuit_ok (set_fails (i32 (fails c + 1)) c) /\
    moved c (set_fails (i32 (fails c + 1)) c)) by (apply set_fails_ok; [done|congruence]).
  destruct (_ <? _); simpl; [done|].
  destruct Hs as [Hs _]. destruct (openLocked_ok now _ Hs) as [Ho _]; [done|].
  split; [done|]. apply mv_next. cfields. apply u64_small.
  pose proof (co_epoch _ H). lia.
Qed.

Lemma releaseProbe_preserved a c :
  circuit_ok c -> preserved c (circuit_releaseProbe a c).
Proof.
  intros H. unfold circuit_releaseProbe, preserved.
  destruct (_ || _); [auto with circuit|]. destruct (_ =? _); auto with circuit.
Qed.

Lemma forceClose_preserved c :
  circuit_ok c -> epoch c + 1 < 2 ^ 64 -> preserved c (circuit_forceClose c).1.
Proof.
  intros H Hb. unfold circuit_forceClose, preserved.
  destruct (_ && _); simpl; auto with circuit.
Qed.

Lemma setLimits_preserved mf ft mp c :
  circuit_ok c -> preserved c (setLimits mf ft mp c).
Proof.
  intros []. split; [|by apply mv_stay].
  split; cfields; try done.
  - unfold clampMaxFails. destruct (mf <? 1) eqn:E; lia.
  - unfold clampFailTimeout, second. destruct (ft <=? 0) eqn:E; lia.
Qed.

(** ** The system invariant *)

Lemma admit_adm_inv now c c' a :
  circuit_ok c -> epoch c + 1 < 2 ^ 64 -> circuit_admit now c = (c', a) ->
  admission_ok a = true -> adm_inv c' a.
Proof.
  intros H Hb E Hok. pose proof (co_gate _ H) as Hg. pose proof (co_epoch _ H).
  unfold circuit_admit, admit_slow in E.
  destruct (closedEpoch c =? 0) eqn:G; simpl in E.
  - destruct (phase c) eqn:Hp; [lia| |].
    + destruct (now <? openUntil c); inversion E; subst; [done|].
      split; cfields; (done || lia).
    + destruct (negb _); [by inversion E; subst|].
      destruct (_ && _); inversion E; subst; [done|].
      split; cfields; (done || lia).
  - inversion E; subst. destruct (phase c') eqn:Hp; [|lia..].
    split; simpl; (done || lia).
Qed.

Lemma inv_report s i a c' :
  circuit_inv s -> cs_out s !! i = Some a -> preserved (cs_circuit s) c' ->
  circuit_inv (MkCsys c' (cs_now s) (delete i (cs_out s))).
Proof.
  intros [Hok Hout] Hi [Hok' M]. split; simpl; [done|].
  apply Forall_delete. eapply Forall_impl; [exact Hout|]. eauto using moved_adm.
Qed.

Lemma inv_local s c' now :
  circuit_inv s -> preserved (cs_circuit s) c' ->
  circuit_inv (MkCsys c' now (cs_out s)).
Proof.
  intros [Hok Hout] [Hok' M]. split; simpl; [done|].
  eapply Forall_impl; [exact Hout|]. eauto using moved_adm.
Qed.

Lemma inv_out_adm s i a :
  circuit_inv s -> cs_out s !! i = Some a -> adm_inv (cs_circuit s) a.
Proof. intros [_ Hout] Hi. by eapply Forall_lookup_1. Qed.

Lemma circuit_exec_inv s l s' :
  circuit_inv s -> epoch (cs_circuit s) + 1 < 2 ^ 64 -> circuit_exec s l = Some s' ->
  circuit_inv s'.
Proof.
  intros Hi Hb E. pose proof (ci_ok _ Hi) as Hok.
  destruct l; simpl in E;
    repeat match type of E with
    | (match cs_out s !! ?i with _ => _ end) = _ =>
        destruct (cs_out s !! i) eqn:Ho; [|discriminate]
    end.
  - destruct (circuit_admit (cs_now s) (cs_circuit s)) as [c' a] eqn:Ea.
    injection E as <-.
    pose proof (admit_preserved (cs_now s) _ Hok Hb) as P. rewrite Ea in P.
    destruct (inv_local s c' (cs_now s) Hi P) as [H1 H2].
    split; simpl; [done|]. destruct (admission_ok a) eqn:Oa; [|done].
    constructor; [|done]. exact (admit_adm_inv _ _ _ _ Hok Hb Ea Oa).
  - injection E as <-. eapply inv_report; [exact Hi|exact Ho|]. eauto using success_preserved, inv_out_adm.
  - injection E as <-. eapply inv_report; [exact Hi|exact Ho|]. by apply failure_preserved.
  - injection E as <-. eapply inv_report; [exact Hi|exact Ho|]. by apply releaseProbe_preserved.
  - injection E as <-. eapply inv_report; [exact Hi|exact Ho|]. by apply preserved_refl.
  - injection E as <-. apply inv_local; [done|]. by apply forceClose_preserved.
  - injection E as <-. apply inv_local; [done|]. by apply setLimits_preserved.
  - destruct (0 <=? d); [|discriminate]. injection E as <-.
    apply inv_local; [done|]. by apply preserved_refl.
Qed.

(** Every method moves the generation by at most one. *)
Lemma moved_epoch c c' : moved c c' -> epoch c <= epoch c' <= epoch c + 1.
Proof. destruct 1; lia. Qed.

Lemma exec_epoch s l s' :
  circuit_inv s -> epoch (cs_circuit s) + 1 < 2 ^ 64 -> circuit_exec s l = Some s' ->
  epoch (cs_circuit s) <= epoch (cs_circuit s') <= epoch (cs_circuit s) + 1.
Proof.
  intros Hi Hb E. pose proof (ci_ok _ Hi) as Hok. apply moved_epoch.
  destruct l; simpl in E;
    repeat match type of E with
    | (match cs_out s !! ?i with _ => _ end) = _ =>
        destruct (cs_out s !! i) eqn:Ho; [|discriminate]
    end; try (injection E as <-; simpl).
  - destruct (circuit_admit (cs_now s) (cs_circuit s)) as [c' a] eqn:Ea.
    injection E as <-. pose proof (admit_preserved (cs_now s) _ Hok Hb) as [_ P].
    by rewrite Ea in P.
  - eapply success_preserved; eauto using inv_out_adm.
  - by apply failure_preserved.
  - by apply releaseProbe_preserved.
  - apply moved_refl.
  - by apply forceClose_preserved.
  - by apply setLimits_preserved.
  - destruct (0 <=? d); [|discriminate]. injection E as <-. apply moved_refl.
Qed.

Lemma circuit_init_inv mf ft mp now : circuit_inv (circuit_init mf ft mp now).
Proof.
  split; simpl; [|constructor].
  split; simpl; try (done || lia).
  - unfold clampMaxFails. destruct (mf <? 1) eqn:E; lia.
  - unfold clampFailTimeout, second. destruct (ft <=? 0) eqn:E; lia.
Qed.

(** The runs considered: fewer than 2^64 - 2 events, so the generation counter
    does not wrap. *)
Definition short {A} (tr : list A) : Prop := Z.of_nat (length tr) < 2 ^ 64 - 2.

Lemma circuit_trace_inv s tr s' n :
  trace circuit_exec s tr s' -> 0 <= n -> n + Z.of_nat (length tr) <= 2 ^ 64 - 2 ->
  circuit_inv s -> epoch (cs_circuit s) <= n + 1 ->
  circuit_inv s' /\ epoch (cs_circuit s') <= n + Z.of_nat (length tr) + 1 /\
  epoch (cs_circuit s) <= epoch (cs_circuit s').
Proof.
  intros T. revert n. induction T as [s|s l s1 tr s2 E T IH]; intros n Hn Hb Hi He; simpl in *.
  - split_and!; [done|lia..].
  - pose proof (circuit_exec_inv _ _ _ Hi ltac:(lia) E) as Hi1.
    pose proof (exec_epoch _ _ _ Hi ltac:(lia) E) as He1.
    destruct (IH (n + 1)) as (?&?&?); [lia|lia|done|lia|]. split_and!; [done|lia..].
Qed.

(** ** Properties *)

(** C1: in every run of fewer than 2^64 - 2 events from a fresh breaker --
    admissions, results in any order, abandoned requests, forced closes,
    retunings, the clock -- the gate is non-zero exactly while the phase is
    CLOSED and then equals the live generation, failures are on record only
    while CLOSED, probes only while HALF_OPEN, and an outstanding admission of
    the live generation is a probe exactly while HALF_OPEN. *)
Theorem circuit_reachable_inv mf ft mp now tr s :
  trace circuit_exec (circuit_init mf ft mp now) tr s -> short tr -> circuit_inv s.
Proof.
  intros T Hs. unfold short in Hs.
  eapply (circuit_trace_inv _ _ _ 0 T); [lia|lia|apply circuit_init_inv|simpl; lia].
Qed.

Lemma set_fails_id c n : fails c = n -> set_fails n c = c.
Proof. intros <-. by destruct c. Qed.

Lemma ok_gate_closed c : circuit_ok c -> closedEpoch c <> 0 ->
  phase c = phaseClosed /\ closedEpoch c = epoch c.
Proof. intros H Hn. pose proof (co_gate _ H). destruct (phase c); [done|lia..]. Qed.

(** The lock-free fast paths are observationally the locked paths: in every
    state satisfying the invariant, [eligible], [admit], [state] and
    [success] on an outstanding admission return what the critical sections
    alone would and leave the same state, and [status] agrees with [state]. *)
Theorem circuit_fast_paths_sound s now i a :
  circuit_inv s -> cs_out s !! i = Some a ->
  let c := cs_circuit s in
  circuit_eligible now c = eligible_slow now c /\
  circuit_admit now c = admit_slow now c /\
  circuit_success a c = success_slow a c /\
  circuit_state now c = state_slow now c /\
  st_State (circuit_status now c) = circuit_state now c.
Proof.
  intros Hi Ho c. pose proof (ci_ok _ Hi) as H. pose proof (inv_out_adm _ _ _ Hi Ho) as [Ha _ _].
  unfold circuit_eligible, circuit_admit, circuit_success, circuit_state, circuit_status.
  fold c in H. assert (Hok : admission_ok a = true) by (unfold admission_ok; lia).
  rewrite Hok. simpl. destruct (closedEpoch c =? 0) eqn:G; simpl.
  - pose proof (co_gate _ H) as Hg. pose proof (co_epoch _ H).
    unfold eligible_slow, admit_slow, state_slow.
    assert (Hz : (closedEpoch c =? adm_epoch a) = false) by lia. rewrite Hz, andb_false_r. simpl.
    destruct (phase c) eqn:Hp; [lia| |]; split_and!; try done.
    by destruct (now <? _).
  - destruct (ok_gate_closed c H) as [Hp Hg]; [lia|].
    unfold eligible_slow, admit_slow, state_slow, success_slow. rewrite Hp, Hg.
    split_and!; try done.
    destruct (adm_probe a) eqn:Pa; [done|]. simpl. rewrite (Z.eqb_sym (epoch c)).
    destruct (adm_epoch a =? epoch c) eqn:E; [simpl|done].
    destruct (fails c =? 0) eqn:F; [|done]. rewrite set_fails_id by lia. done.
Qed.

(** [n] consecutive failures of one generation's requests at time [now]. *)
Fixpoint fail_times (now : Z) (a : admission) (n : nat) (c : circuit) : circuit :=
  match n with
  | O => c
  | S n => (circuit_failure now a (fail_times now a n c)).1
  end.

Lemma set_fails_twice n m c : set_fails n (set_fails m c) = set_fails n c.
Proof. done. Qed.

Lemma failure_live now c :
  circuit_ok c -> phase c = phaseClosed ->
  circuit_failure now (MkAdm (epoch c) false) c =
    let f := i32 (fails c + 1) in
    if f <? maxFails c then (set_fails f c, false) else (openLocked now (set_fails f c), true).
Proof.
  intros H Hp. pose proof (co_epoch _ H). unfold circuit_failure, admission_ok. simpl.
  rewrite Z.eqb_refl. assert (E : (epoch c =? 0) = false) by lia. by rewrite E, Hp.
Qed.

Lemma fail_times_below now c n :
  circuit_ok c -> phase c = phaseClosed -> fails c = 0 -> maxFails c <= max_int32 ->
  Z.of_nat n < maxFails c ->
  fail_times now (MkAdm (epoch c) false) n c = set_fails (Z.of_nat n) c.
Proof.
  intros H Hp Hf Hm. unfold max_int32 in Hm. induction n as [|n IH]; intros Hn.
  - simpl. by rewrite set_fails_id.
  - cbn [fail_times]. rewrite IH by lia.
    destruct (set_fails_ok (Z.of_nat n) c H) as [Hk _]; [congruence|].
    pose proof (failure_live now _ Hk Hp) as F. simpl in F. rewrite F.
    rewrite i32_small by lia.
    rewrite Nat2Z.inj_succ in *. unfold Z.succ in *.
    assert (E : (Z.of_nat n + 1 <? maxFails c) = true) by lia.
    by rewrite E.
Qed.

(** A CLOSED breaker with no failures on record trips on exactly the
    [max_fails]-th consecutive failure: each earlier one reports false and only
    counts, a success in between clears the count, and the [max_fails]-th
    reports true, opens until [now + fail_timeout] and starts a new generation
    with the gate shut. *)
Theorem circuit_trips_exactly now c n :
  circuit_ok c -> phase c = phaseClosed -> fails c = 0 -> maxFails c <= max_int32 ->
  epoch c + 1 < 2 ^ 64 -> Z.of_nat n < maxFails c ->
  let a := MkAdm (epoch c) false in
  let cn := fail_times now a n c in
  phase cn = phaseClosed /\ fails cn = Z.of_nat n /\ epoch cn = epoch c /\
  (circuit_success a cn).1 = c /\
  (circuit_failure now a cn).2 = (Z.of_nat n + 1 =? maxFails c) /\
  (Z.of_nat n + 1 = maxFails c ->
    let o := (circuit_failure now a cn).1 in
    phase o = phaseOpen /\ openUntil o = now + failTimeout c /\
    epoch o = epoch c + 1 /\ closedEpoch o = 0).
Proof.
  intros H Hp Hf Hm Hb Hn a cn. subst a cn. rewrite fail_times_below by done.
  destruct (set_fails_ok (Z.of_nat n) c H) as [Hk _]; [congruence|].
  pose proof (failure_live now _ Hk Hp) as F. simpl in F.
  pose proof (co_gate _ H) as Hg. rewrite Hp in Hg. pose proof (co_epoch _ H).
  unfold max_int32 in Hm. rewrite i32_small in F by lia.
  split_and!; [done..| | |].
  - unfold circuit_success, success_slow, admission_ok. simpl. rewrite Hg, Z.eqb_refl.
    assert (E : (epoch c =? 0) = false) by lia. rewrite E. simpl.
    destruct (Z.of_nat n =? 0) eqn:E0; simpl; rewrite ?set_fails_twice;
      apply set_fails_id; lia.
  - rewrite F. destruct (_ <? _) eqn:E; simpl; lia.
  - intros En. cbv zeta. rewrite F.
    assert (E : (Z.of_nat n + 1 <? maxFails c) = false) by lia. rewrite E.
    cfields. rewrite u64_small by lia. done.
Qed.

(** While OPEN no admission of the live generation is outstanding. *)
Lemma open_no_live s i a :
  circuit_inv s -> phase (cs_circuit s) = phaseOpen -> cs_out s !! i = Some a ->
  adm_epoch a <> epoch (cs_circuit s).
Proof.
  intros Hi Hp Ho E. pose proof (inv_out_adm _ _ _ Hi Ho) as [_ _ H].
  specialize (H E). rewrite Hp in H. by destruct (adm_probe a).
Qed.

Lemma ok_probes0_release c :
  circuit_ok c -> phase c <> phaseHalfOpen -> releaseProbeLocked c = c.
Proof.
  intros H Hp. unfold releaseProbeLocked. by rewrite (co_probes0 _ H Hp).
Qed.

(** What a step from OPEN before the deadline can do: nothing but retire
    admissions of earlier generations, retune, or let time pass. *)
Lemma open_step s l s' :
  circuit_inv s -> phase (cs_circuit s) = phaseOpen -> l <> LForceClose ->
  cs_now s < openUntil (cs_circuit s) -> circuit_exec s l = Some s' ->
  phase (cs_circuit s') = phaseOpen /\
  openUntil (cs_circuit s') = openUntil (cs_circuit s) /\
  epoch (cs_circuit s') = epoch (cs_circuit s) /\
  cs_out s' `sublist_of` cs_out s /\ cs_now s <= cs_now s'.
Proof.
  intros Hi Hp Hl Hnow E. pose proof (ci_ok _ Hi) as Hok.
  pose proof (co_gate _ Hok) as Hg. rewrite Hp in Hg.
  pose proof (ok_probes0_release _ Hok ltac:(congruence)) as Hr.
  destruct l as [|i|i|i|i| | |]; simpl in E; try done;
    repeat match type of E with
    | (match cs_out s !! ?i with _ => _ end) = _ =>
        destruct (cs_out s !! i) as [a|] eqn:Ho; [|discriminate];
        pose proof (open_no_live _ _ _ Hi Hp Ho) as Hst; apply Z.eqb_neq in Hst
    end.
  - unfold circuit_admit, admit_slow in E. rewrite Hg, Hp in E. simpl in E.
    assert (Hlt : (cs_now s <? openUntil (cs_circuit s)) = true) by lia.
    rewrite Hlt in E. injection E as <-. by split_and!.
  - unfold circuit_success, success_slow in E.
    rewrite Hg, Hst, Hr in E. injection E as <-. simpl.
    destruct (negb (admission_ok a)), (adm_probe a); simpl;
      repeat destruct (_ && _); simpl; split_and!; (done || apply sublist_delete).
  - unfold circuit_failure in E. rewrite Hst, Hr in E. injection E as <-. simpl.
    destruct (negb (admission_ok a)), (adm_probe a); simpl;
      split_and!; (done || apply sublist_delete).
  - unfold circuit_releaseProbe in E. rewrite Hst in E. injection E as <-. simpl.
    destruct (_ || _); simpl; split_and!; (done || apply sublist_delete).
  - injection E as <-. simpl. split_and!; (done || apply sublist_delete).
  - injection E as <-. by split_and!.
  - destruct (0 <=? d) eqn:Ed; [|discriminate]. injection E as <-. simpl.
    split_and!; (done || lia).
Qed.

Lemma exec_now_mono s l s' : circuit_exec s l = Some s' -> cs_now s <= cs_now s'.
Proof.
  intros E. destruct l; simpl in E; try (destruct (circuit_admit _ _));
    repeat match type of E with
    | (match cs_out s !! ?i with _ => _ end) = _ => destruct (cs_out s !! i); [|discriminate]
    | (if ?b then _ else _) = _ => destruct b eqn:Eb; [|discriminate]
    end; injection E as <-; simpl; lia.
Qed.

Lemma trace_now_mono s tr s' : trace circuit_exec s tr s' -> cs_now s <= cs_now s'.
Proof. induction 1 as [|s l s1 tr s2 E T IH]; [lia|]. apply exec_now_mono in E. lia. Qed.

(** The cooldown is honoured.  From an OPEN breaker, whatever results
    arrive, however often selection asks and even across a retuning, as long as
    the clock has not reached [openUntil] and the health checker does not force
    it closed, the breaker stays OPEN with the same deadline and generation and
    admits nothing: the outstanding admissions only shrink. *)
Theorem circuit_cooldown s tr s' :
  trace circuit_exec s tr s' -> circuit_inv s -> epoch (cs_circuit s) + 1 < 2 ^ 64 ->
  phase (cs_circuit s) = phaseOpen -> LForceClose ∉ tr ->
  cs_now s' < openUntil (cs_circuit s) ->
  phase (cs_circuit s') = phaseOpen /\
  openUntil (cs_circuit s') = openUntil (cs_circuit s) /\
  epoch (cs_circuit s') = epoch (cs_circuit s) /\
  cs_out s' `sublist_of` cs_out s.
Proof.
  induction 1 as [s|s l s1 tr s2 E T IH]; intros Hi Hb Hp Hf Hnow; [by split_and!|].
  apply not_elem_of_cons in Hf as [Hl Hf].
  pose proof (exec_now_mono _ _ _ E). pose proof (trace_now_mono _ _ _ T).
  destruct (open_step s l s1) as (P1 & P2 & P3 & P4 & _); [done..|lia|done|].
  destruct IH as (Q1 & Q2 & Q3 & Q4);
    [by eapply circuit_exec_inv|lia|done|done|lia|].
  split_and!; [done|congruence|congruence|by etrans].
Qed.

Lemma stale_no_report now c a :
  adm_epoch a <> epoch c ->
  (circuit_success a c).2 = false /\ (circuit_failure now a c).2 = false.
Proof.
  intros Hs. apply Z.eqb_neq in Hs.
  unfold circuit_success, success_slow, circuit_failure. rewrite Hs. simpl.
  destruct (admission_ok a), (adm_probe a); simpl; auto. by destruct (_ && _).
Qed.

(** A result of an earlier generation is harmless: it reports no
    transition and, whatever the phase, changes at most the probe counter. *)
Theorem circuit_stale_harmless now c a :
  adm_epoch a <> epoch c ->
  (circuit_success a c).2 = false /\ (circuit_failure now a c).2 = false /\
  ((circuit_success a c).1 = c \/ (circuit_success a c).1 = releaseProbeLocked c) /\
  ((circuit_failure now a c).1 = c \/ (circuit_failure now a c).1 = releaseProbeLocked c) /\
  circuit_releaseProbe a c = c.
Proof.
  intros Hs. destruct (stale_no_report now c a Hs) as [R1 R2].
  split_and!; [done..| | |]; apply Z.eqb_neq in Hs;
    unfold circuit_success, success_slow, circuit_failure, circuit_releaseProbe;
    rewrite Hs; simpl; destruct (admission_ok a), (adm_probe a); simpl; auto.
  destruct (_ && _); auto.
Qed.

(** Of all the results of one generation exactly one returns the backend to
    rotation: once a success has reported recovery, in every later state no
    result carrying the same generation reports a transition. *)
Theorem circuit_recovery_once s i a tr s' a' now :
  circuit_inv s -> epoch (cs_circuit s) + Z.of_nat (length tr) + 3 < 2 ^ 64 ->
  cs_out s !! i = Some a -> (circuit_success a (cs_circuit s)).2 = true ->
  trace circuit_exec s (LSuccess i :: tr) s' -> adm_epoch a' = adm_epoch a ->
  (circuit_success a' (cs_circuit s')).2 = false /\
  (circuit_failure now a' (cs_circuit s')).2 = false.
Proof.
  intros Hi Hb Ho Hr T Ha. inversion T as [|? ? s1 ? ? E T1]; subst.
  pose proof (circuit_exec_inv _ _ _ Hi ltac:(lia) E) as Hi1.
  pose proof (ci_ok _ Hi) as Hok. pose proof (co_epoch _ Hok).
  pose proof (ci_ok _ Hi1) as Hok1. pose proof (co_epoch _ Hok1).
  simpl in E. rewrite Ho in E. injection E as <-.
  unfold circuit_success, success_slow in *. simpl in *.
  destruct (negb (admission_ok a)); [done|]. destruct (_ && _); [done|].
  destruct (adm_epoch a =? epoch (cs_circuit s)) eqn:Ea; [|done].
  destruct (adm_probe a); [|done]. simpl in *.
  assert (He : epoch (closeLocked (cs_circuit s)) = epoch (cs_circuit s) + 1)
    by (cfields; apply u64_small; lia).
  pose proof (circuit_trace_inv _ _ _ (epoch (cs_circuit s)) T1) as (_ & _ & Hm);
    [lia|simpl; lia|done|simpl; lia|]. simpl in Hm.
  apply stale_no_report. lia.
Qed.

(** ** The half-open probe allowance *)

(** The outstanding probes of the live generation. *)
Definition live_probes (s : csys) : list admission :=
  filter (fun a => adm_probe a = true /\ adm_epoch a = epoch (cs_circuit s)) (cs_out s).

(** A label that reports a probe of an earlier generation. *)
Definition stale_probe_report (s : csys) (l : clabel) : bool :=
  match l with
  | LSuccess i | LFailure i =>
      match cs_out s !! i with
      | Some a => adm_probe a && negb (adm_epoch a =? epoch (cs_circuit s))
      | None => false
      end
  | _ => false
  end.

Definition is_setLimits (l : clabel) : bool :=
  match l with LSetLimits _ _ _ => true | _ => false end.

(** Runs in which no probe outlives its generation and the limits are not
    retuned. *)
Definition fresh_exec (s : csys) (l : clabel) : option csys :=
  if stale_probe_report s l || is_setLimits l then None else circuit_exec s l.

Definition probe_inv (s : csys) : Prop :=
  circuit_inv s /\
  (phase (cs_circuit s) = phaseHalfOpen ->
     Z.of_nat (length (live_probes s)) <= probesInFlight (cs_circuit s)) /\
  (0 < maxProbes (cs_circuit s) -> probesInFlight (cs_circuit s) <= maxProbes (cs_circuit s)).

Lemma live_delete s i a c' :
  cs_out s !! i = Some a -> epoch c' = epoch (cs_circuit s) ->
  Z.of_nat (length (live_probes s)) =
    Z.of_nat (length (live_probes (MkCsys c' (cs_now s) (delete i (cs_out s))))) +
    (if adm_probe a && (adm_epoch a =? epoch (cs_circuit s)) then 1 else 0).
Proof.
  intros Ho He. unfold live_probes. simpl. rewrite He.
  assert (Hp : cs_out s ≡ₚ a :: delete i (cs_out s)) by by apply delete_Permutation.
  set (P := fun x => adm_probe x = true /\ adm_epoch x = epoch (cs_circuit s)).
  rewrite (Permutation_length (filter_Permutation P _ _ Hp)).
  destruct (_ && _) eqn:E.
  - rewrite filter_cons_True; [simpl; lia|]. unfold P. split; [by destruct (adm_probe a)|lia].
  - rewrite filter_cons_False; [lia|]. unfold P. intros [H1 H2]. rewrite H1, H2 in E. lia.
Qed.

Lemma open_live_nil s :
  circuit_inv s -> phase (cs_circuit s) = phaseOpen -> live_probes s = [].
Proof.
  intros Hi Hp. unfold live_probes.
  destruct (filter _ _) as [|a l] eqn:E; [done|exfalso].
  assert (Ha : a ∈ a :: l) by left. rewrite <- E in Ha.
  apply list_elem_of_filter in Ha as [[_ He] Hin].
  apply list_elem_of_lookup in Hin as [i Hi']. by eapply open_no_live.
Qed.

Lemma openLocked_not_half now c : phase (openLocked now c) <> phaseHalfOpen.
Proof. by cfields. Qed.
Lemma closeLocked_not_half c : phase (closeLocked c) <> phaseHalfOpen.
Proof. by cfields. Qed.

(** The probe part of [probe_inv] as a property of circuit and live count. *)
Definition probes_ok (c : circuit) (live : Z) : Prop :=
  (phase c = phaseHalfOpen -> live <= probesInFlight c) /\
  (0 < maxProbes c -> probesInFlight c <= maxProbes c).

Lemma probes_ok_openLocked now c n : probes_ok (openLocked now c) n.
Proof. split; [intros H; by apply openLocked_not_half in H|cfields; lia]. Qed.
Lemma probes_ok_closeLocked c n : probes_ok (closeLocked c) n.
Proof. split; [intros H; by apply closeLocked_not_half in H|cfields; lia]. Qed.
Lemma probes_ok_fewer c n m : probes_ok c n -> m <= n -> probes_ok c m.
Proof. intros [H1 H2] Hle. split; [intros H; specialize (H1 H); lia|done]. Qed.
#[export] Hint Resolve probes_ok_openLocked probes_ok_closeLocked : circuit.

Lemma probes_ok_admit s c' a :
  circuit_inv s -> probes_ok (cs_circuit s) (Z.of_nat (length (live_probes s))) ->
  circuit_admit (cs_now s) (cs_circuit s) = (c', a) ->
  probes_ok c' (Z.of_nat (length
    (live_probes (MkCsys c' (cs_now s) (if admission_ok a then a :: cs_out s else cs_out s))))).
Proof.
  intros Hi Hpr E. pose proof (ci_ok _ Hi) as Hok. pose proof (co_gate _ Hok) as Hg.
  pose proof (co_epoch _ Hok). unfold circuit_admit, admit_slow in E.
  destruct (phase (cs_circuit s)) eqn:Hp.
  - assert (G : (closedEpoch (cs_circuit s) =? 0) = false) by lia. rewrite G in E.
    injection E as <- <-. split; [congruence|apply Hpr].
  - rewrite Hg in E. simpl in E. destruct (_ <? _); injection E as <- <-; [done|].
    assert (Hk : admission_ok (MkAdm (epoch (cs_circuit s)) true) = true)
      by (unfold admission_ok; simpl; lia).
    rewrite Hk. pose proof (open_live_nil _ Hi Hp) as Hn. unfold live_probes in *.
    cfields. rewrite filter_cons_True by done. split; cfields; [|lia].
    intros _. simpl. rewrite Hn. simpl. lia.
  - rewrite Hg in E. simpl in E.
    destruct (negb _); [injection E as <- <-; auto with circuit|].
    destruct (_ && _) eqn:Es; injection E as <- <-; [done|].
    assert (Hk : admission_ok (MkAdm (epoch (cs_circuit s)) true) = true)
      by (unfold admission_ok; simpl; lia).
    rewrite Hk. destruct Hpr as [P1 P2]. specialize (P1 Hp). unfold live_probes in *. cfields.
    rewrite filter_cons_True by done. split; cfields; lia.
Qed.

Lemma probes_ok_same s i a :
  probes_ok (cs_circuit s) (Z.of_nat (length (live_probes s))) -> cs_out s !! i = Some a ->
  probes_ok (cs_circuit s) (Z.of_nat (length
    (live_probes (MkCsys (cs_circuit s) (cs_now s) (delete i (cs_out s)))))).
Proof.
  intros H Ho. eapply probes_ok_fewer; [exact H|].
  pose proof (live_delete s i a (cs_circuit s) Ho eq_refl) as L.
  destruct (_ && _); lia.
Qed.

Lemma probes_ok_success s i a :
  circuit_inv s -> probes_ok (cs_circuit s) (Z.of_nat (length (live_probes s))) ->
  cs_out s !! i = Some a -> adm_probe a && negb (adm_epoch a =? epoch (cs_circuit s)) = false ->
  let c' := (circuit_success a (cs_circuit s)).1 in
  probes_ok c' (Z.of_nat (length (live_probes (MkCsys c' (cs_now s) (delete i (cs_out s)))))).
Proof.
  intros Hi Hpr Ho Hf. pose proof (probes_ok_same s i a Hpr Ho) as Hs.
  unfold circuit_success, success_slow.
  destruct (negb (admission_ok a)); [done|]. destruct (_ && (fails _ =? 0)); [done|].
  destruct (adm_epoch a =? epoch (cs_circuit s)); simpl;
    destruct (adm_probe a); simpl in *; auto with circuit; done.
Qed.

Lemma probes_ok_failure s i a :
  circuit_inv s -> probes_ok (cs_circuit s) (Z.of_nat (length (live_probes s))) ->
  cs_out s !! i = Some a -> adm_probe a && negb (adm_epoch a =? epoch (cs_circuit s)) = false ->
  let c' := (circuit_failure (cs_now s) a (cs_circuit s)).1 in
  probes_ok c' (Z.of_nat (length (live_probes (MkCsys c' (cs_now s) (delete i (cs_out s)))))).
Proof.
  intros Hi Hpr Ho Hf. pose proof (probes_ok_same s i a Hpr Ho) as Hs. unfold circuit_failure.
  destruct (negb (admission_ok a)); [done|].
  destruct (adm_epoch a =? epoch (cs_circuit s)); simpl;
    destruct (adm_probe a); simpl in *; auto with circuit; try done.
  destruct (phase (cs_circuit s)); simpl; [|done..].
  destruct (_ <? _); simpl; [done|auto with circuit].
Qed.

Lemma probes_ok_release s i a :
  circuit_inv s -> probes_ok (cs_circuit s) (Z.of_nat (length (live_probes s))) ->
  cs_out s !! i = Some a ->
  let c' := circuit_releaseProbe a (cs_circuit s) in
  probes_ok c' (Z.of_nat (length (live_probes (MkCsys c' (cs_now s) (delete i (cs_out s)))))).
Proof.
  intros Hi Hpr Ho. pose proof (probes_ok_same s i a Hpr Ho) as Hs.
  unfold circuit_releaseProbe.
  destruct (admission_ok a); simpl; [|done]. destruct (adm_probe a) eqn:Pa; simpl; [|done].
  destruct (adm_epoch a =? epoch (cs_circuit s)) eqn:Ea; [|done].
  unfold releaseProbeLocked. destruct (0 <? _) eqn:E; [|done].
  pose proof (live_delete s i a (set_probes (probesInFlight (cs_circuit s) - 1) (cs_circuit s))
    Ho eq_refl) as L.
  rewrite Pa, Ea in L. simpl in L. destruct Hpr as [P1 P2].
  split; cfields; [intros Hp; specialize (P1 Hp); lia|lia].
Qed.

Lemma fresh_exec_probe_inv s l s' :
  probe_inv s -> epoch (cs_circuit s) + 1 < 2 ^ 64 -> fresh_exec s l = Some s' -> probe_inv s'.
Proof.
  intros [Hi Hpr] Hb E. unfold fresh_exec in E.
  destruct (stale_probe_report s l || is_setLimits l) eqn:Ef; [discriminate|].
  apply orb_false_iff in Ef as [Ef El].
  split; [by eapply circuit_exec_inv|].
  change (probes_ok (cs_circuit s') (Z.of_nat (length (live_probes s')))).
  change (probes_ok (cs_circuit s) (Z.of_nat (length (live_probes s)))) in Hpr.
  destruct l; simpl in E, Ef, El; try discriminate;
    repeat match type of E with
    | (match cs_out s !! ?i with _ => _ end) = _ =>
        destruct (cs_out s !! i) eqn:Ho; [|discriminate]
    end.
  - destruct (circuit_admit _ _) as [c' a] eqn:Ea. injection E as <-. simpl.
    by apply probes_ok_admit.
  - injection E as <-. by eapply probes_ok_success.
  - injection E as <-. by eapply probes_ok_failure.
  - injection E as <-. by eapply probes_ok_release.
  - injection E as <-. exact (probes_ok_same _ _ _ Hpr Ho).
  - injection E as <-. simpl. unfold circuit_forceClose.
    destruct (_ && _); simpl; [done|auto with circuit].
  - destruct (0 <=? d); [|discriminate]. injection E as <-. done.
Qed.

Lemma fresh_exec_exec s l s' : fresh_exec s l = Some s' -> circuit_exec s l = Some s'.
Proof. unfold fresh_exec. by destruct (_ || _). Qed.

Lemma exec_maxProbes s l s' :
  is_setLimits l = false -> circuit_exec s l = Some s' ->
  maxProbes (cs_circuit s') = maxProbes (cs_circuit s).
Proof.
  intros Hl E.
  destruct l; simpl in E, Hl; try discriminate;
    repeat match type of E with
    | (match cs_out s !! ?i with _ => _ end) = _ => destruct (cs_out s !! i); [|discriminate]
    | (if ?b then _ else _) = _ => destruct b; [|discriminate]
    end; try (injection E as <-; simpl);
    unfold circuit_admit, admit_slow, circuit_success, success_slow, circuit_failure,
      circuit_releaseProbe, circuit_forceClose, releaseProbeLocked in *;
    repeat (case_match; simplify_eq); cfields; done.
Qed.

Lemma fresh_trace_probe_inv s tr s' n :
  trace fresh_exec s tr s' -> 0 <= n -> n + Z.of_nat (length tr) <= 2 ^ 64 - 2 ->
  probe_inv s -> epoch (cs_circuit s) <= n + 1 ->
  probe_inv s' /\ maxProbes (cs_circuit s') = maxProbes (cs_circuit s).
Proof.
  intros T. revert n. induction T as [s|s l s1 tr s2 E T IH]; intros n Hn Hb Hi He; simpl in *;
    [done|].
  pose proof (fresh_exec_probe_inv _ _ _ Hi ltac:(lia) E) as Hi1.
  pose proof (exec_epoch _ _ _ (proj1 Hi) ltac:(lia) (fresh_exec_exec _ _ _ E)) as He1.
  destruct (IH (n + 1)) as [IH1 IH2]; [lia|lia|done|lia|]. split; [done|].
  rewrite IH2. unfold fresh_exec in E. destruct (_ || _) eqn:El; [discriminate|].
  apply orb_false_iff in El as [_ El]. by eapply exec_maxProbes.
Qed.

(** The half-open probe allowance.  In every run in which no probe reports
    a result after its generation has ended and the limits are not retuned, a
    breaker configured with [mp > 0] half-open probes never has more than [mp]
    probes of the live generation outstanding. *)
Theorem circuit_probe_bound mf ft mp now tr s :
  trace fresh_exec (circuit_init mf ft mp now) tr s -> short tr -> 0 < mp ->
  Z.of_nat (length (live_probes s)) <= mp.
Proof.
  intros T Hs Hmp. unfold short in Hs.
  destruct (fresh_trace_probe_inv _ _ _ 0 T) as [(Hi & P1 & P2) Hm];
    [lia|lia| |simpl; lia|].
  - split; [apply circuit_init_inv|]. split; simpl; [done|lia].
  - simpl in Hm. rewrite Hm in P2. specialize (P2 Hmp).
    destruct (live_probes s) as [|a l] eqn:El; [simpl; lia|].
    assert (Ha : a ∈ live_probes s) by (rewrite El; left).
    unfold live_probes in Ha. apply list_elem_of_filter in Ha as [[Hpr He] Hin].
    apply list_elem_of_lookup in Hin as [i Hi'].
    pose proof (ai_cur _ _ (inv_out_adm _ _ _ Hi Hi') He) as Hph. rewrite Hpr in Hph.
    specialize (P1 Hph). lia.
Qed.

(** A breaker whose allowance is in use within its window. *)
Lemma admit_full now c :
  circuit_ok c -> phase c = phaseHalfOpen -> now < halfOpenUntil c -> 0 < maxProbes c -> probesInFlight c = maxProbes c ->
  circuit_admit now c = (c, no_admission).
Proof.
  intros Hok Hp Hn Hm Hf. unfold circuit_admit, admit_slow. rewrite (co_gate _ Hok), Hp. simpl.
  rewrite (proj2 (Z.ltb_lt _ _) Hn), (proj2 (Z.ltb_lt _ _) Hm), (proj2 (Z.leb_le _ _)) by lia. done.
Qed.

(** And one slot short of it. *)
Lemma admit_one_more now c :
  circuit_ok c -> phase c = phaseHalfOpen -> now < halfOpenUntil c -> 0 < maxProbes c -> probesInFlight c = maxProbes c ->
  circuit_admit now (releaseProbeLocked c) = (c, MkAdm (epoch c) true).
Proof.
  intros Hok Hp Hn Hm Hf. unfold circuit_admit, admit_slow, releaseProbeLocked. rewrite (proj2 (Z.ltb_lt 0 _)) by lia. simpl.
  rewrite (co_gate _ Hok), Hp. simpl. rewrite (proj2 (Z.ltb_lt _ _) Hn), (proj2 (Z.ltb_lt _ _) Hm), (proj2 (Z.leb_gt _ _)) by lia. simpl.
  unfold set_probes. simpl. replace (probesInFlight c - 1 + 1) with (probesInFlight c) by lia. by destruct c.
Qed.

Lemma stale_results now a c :
  admission_ok a = true -> adm_probe a = true -> adm_epoch a <> epoch c ->
  (circuit_success a c).1 = releaseProbeLocked c /\ (circuit_failure now a c).1 = releaseProbeLocked c /\ circuit_releaseProbe a c = c.
Proof.
  intros Hk Hp He. apply Z.eqb_neq in He. unfold circuit_success, circuit_failure, circuit_releaseProbe, success_slow.
  by rewrite Hk, Hp, He.
Qed.


(** With an allowance of one: a probe outlives its window, and the next window
    has its own probe out. *)
Definition demo_stale_run : list clabel :=
  [LAdmit; LFailure 0; LTick second; LAdmit; LTick second; LAdmit; LTick second; LAdmit].
Definition demo_stale_state : csys := default (circuit_init 1 second 1 0) (exec_trace circuit_exec (circuit_init 1 second 1 0) demo_stale_run).


(** ** Eligibility against admission *)

Lemma admit_eligible now c :
  circuit_ok c ->
  let expired := bool_decide (phase c = phaseHalfOpen) && (halfOpenUntil c <=? now) in
  admission_ok (circuit_admit now c).2 = circuit_eligible now c && negb expired /\
  (expired = true -> (circuit_admit now c).1 = openLocked now c).
Proof.
  intros H expired. subst expired. pose proof (co_gate _ H) as Hg. pose proof (co_epoch _ H).
  assert (Hk : forall b, admission_ok (MkAdm (epoch c) b) = true)
    by (intros b; unfold admission_ok; simpl; lia).
  unfold circuit_admit, circuit_eligible, admit_slow, eligible_slow.
  destruct (phase c) eqn:Hp; rewrite Hg; simpl.
  - assert (G : (epoch c =? 0) = false) by lia. rewrite G. simpl. by rewrite Hk.
  - destruct (now <? openUntil c); simpl; [done|]. by rewrite Hk.
  - rewrite Z.ltb_antisym, negb_involutive. destruct (halfOpenUntil c <=? now); simpl.
    + by rewrite andb_false_r.
    + rewrite andb_true_r. split; [|done].
      destruct (0 <? maxProbes c) eqn:E1, (maxProbes c <=? probesInFlight c) eqn:E2; simpl;
        rewrite ?Hk; unfold no_admission, admission_ok; simpl; lia.
Qed.

(** [eligible] and [admit] agree except on an expired half-open window: a
    request is admitted exactly when the breaker is eligible and, if HALF_OPEN,
    the window has not run out; and once the window has run out, [admit]
    re-opens the breaker for a fresh [fail_timeout]. *)
Theorem circuit_admit_iff_eligible now c :
  circuit_ok c ->
  let expired := bool_decide (phase c = phaseHalfOpen) && (halfOpenUntil c <=? now) in
  admission_ok (circuit_admit now c).2 = circuit_eligible now c && negb expired /\
  (expired = true -> (circuit_admit now c).1 = openLocked now c).
Proof. apply admit_eligible. Qed.

(** A saturated HALF_OPEN breaker is ineligible at every instant, so a
    selection that consults [eligible] before [admit] never reaches the
    window's expiry, however far the clock runs. *)
Lemma saturated_not_eligible now c :
  circuit_ok c -> phase c = phaseHalfOpen ->
  0 < maxProbes c <= probesInFlight c -> circuit_eligible now c = false.
Proof.
  intros H Hp Hm. pose proof (co_gate _ H) as Hg. rewrite Hp in Hg.
  unfold circuit_eligible, eligible_slow. rewrite Hg, Hp. simpl. lia.
Qed.

(** ** Witnesses *)

(** A run through all three phases: the backend fails, cools down and is
    probed, while the request of the first generation is still out. *)
Definition probe_run : list clabel := [LAdmit; LAdmit; LFailure 0; LTick second; LAdmit].

Definition run_to (tr : list clabel) : csys :=
  default (circuit_init 1 second 1 0) (exec_trace circuit_exec (circuit_init 1 second 1 0) tr).

Lemma run_to_trace tr :
  is_Some (exec_trace circuit_exec (circuit_init 1 second 1 0) tr) ->
  trace circuit_exec (circuit_init 1 second 1 0) tr (run_to tr).
Proof. intros [s E]. unfold run_to. rewrite E. by apply exec_trace_trace. Qed.

Lemma run_to_inv tr :
  is_Some (exec_trace circuit_exec (circuit_init 1 second 1 0) tr) ->
  Z.of_nat (length tr) < 1000 -> circuit_inv (run_to tr).
Proof.
  intros H Hl. eapply (circuit_trace_inv _ _ _ 0 (run_to_trace tr H)); [lia|lia|apply circuit_init_inv|].
  simpl. lia.
Qed.

Lemma circuit_reachable_inv_witness :
  phase (cs_circuit (run_to probe_run)) = phaseHalfOpen /\ circuit_inv (run_to probe_run).
Proof.
  split; [reflexivity|].
  apply (circuit_reachable_inv 1 second 1 0 probe_run); [|unfold short; simpl; lia].
  apply run_to_trace. vm_compute. eauto.
Defined.

Lemma circuit_fast_paths_sound_witness :
  circuit_success (MkAdm 2 true) (cs_circuit (run_to probe_run)) =
  success_slow (MkAdm 2 true) (cs_circuit (run_to probe_run)).
Proof.
  apply (circuit_fast_paths_sound (run_to probe_run) 0 0); [|reflexivity].
  apply run_to_inv; [vm_compute; eauto|simpl; lia].
Defined.

Lemma circuit_trips_exactly_witness :
  (circuit_failure 7 (MkAdm 1 false)
     (fail_times 7 (MkAdm 1 false) 2 (newCircuit 3 second 1))).2 = true.
Proof.
  apply (circuit_trips_exactly 7 (newCircuit 3 second 1) 2);
    try reflexivity; try (vm_compute; congruence).
  apply (ci_ok _ (circuit_init_inv 3 second 1 0)).
Defined.

Definition open_run : list clabel := [LAdmit; LAdmit; LFailure 0].

Lemma circuit_cooldown_witness :
  phase (cs_circuit (run_to (open_run ++ [LAdmit; LSuccess 0; LTick 5; LAdmit]))) = phaseOpen.
Proof.
  apply (circuit_cooldown (run_to open_run) [LAdmit; LSuccess 0; LTick 5; LAdmit]);
    try reflexivity.
  - by apply exec_trace_trace.
  - apply run_to_inv; [vm_compute; eauto|simpl; lia].
  - set_solver.
Defined.

Lemma circuit_stale_harmless_witness :
  (circuit_failure 0 (MkAdm 1 false) (cs_circuit (run_to probe_run))).2 = false.
Proof. apply (circuit_stale_harmless 0). vm_compute. congruence. Defined.

Lemma circuit_recovery_once_witness :
  (circuit_success (MkAdm 2 true) (cs_circuit (run_to (probe_run ++ [LSuccess 0; LAdmit])))).2
  = false.
Proof.
  apply (circuit_recovery_once (run_to probe_run) 0 (MkAdm 2 true) [LAdmit] _ (MkAdm 2 true) 0);
    try reflexivity.
  - apply run_to_inv; [vm_compute; eauto|simpl; lia].
  - by apply exec_trace_trace.
Defined.

Lemma circuit_probe_bound_witness :
  Z.of_nat (length (live_probes (run_to probe_run))) <= 1.
Proof.
  apply (circuit_probe_bound 1 second 1 0 probe_run); [|unfold short; simpl; lia|lia].
  by apply exec_trace_trace.
Defined.

Lemma circuit_admit_iff_eligible_witness :
  (circuit_admit (3 * second) (cs_circuit (run_to probe_run))).1 =
  openLocked (3 * second) (cs_circuit (run_to probe_run)).
Proof.
  apply (circuit_admit_iff_eligible (3 * second)); [|reflexivity].
  apply run_to_inv; [vm_compute; eauto|simpl; lia].
Defined.
