(* ===== verification/Resilience.v ===== *)
(** * Resilience policy resolution (src/internal/resilience/resilience.go)

    The public [upstreams.resilience] options, their validation and the
    immutable policy every upstream consumer reads. *)

From S2P Require Import Prelude.

(** Durations are nanoseconds. *)
Definition Millisecond : Z := 1000000.
Definition Second : Z := 1000 * Millisecond.
Definition Minute : Z := 60 * Second.

Definition MaxActiveRequestsCeiling : Z := 10000000.
Definition MaxActivePerBackendCeiling : Z := 10000000.
Definition MaxPendingRequestsCeiling : Z := 100000.
Definition MaxConnectionsCeiling : Z := 100000.
Definition PendingTimeoutCeiling : Z := 60 * Second.
Definition RetryAttemptsCeiling : Z := 100.
Definition RetryDeadlineCeiling : Z := 5 * Minute.
Definition RetryBackoffCeiling : Z := 60 * Second.
Definition RetryBudgetPercentCeiling : Z := 1000.
Definition DefaultRetryBackoffMax : Z := 500 * Millisecond.

Record Options := MkOptions {
  o_MaxActiveRequests : Z;
  o_MaxActivePerBackend : Z;
  o_MaxPendingRequests : Z;
  o_PendingTimeout : Z;
  o_MaxConnectionsPerBackend : Z;
  o_RetryAttempts : Z;
  o_RetryDeadline : Z;
  o_RetryBackoffInitial : Z;
  o_RetryBackoffMax : Z;
  o_RetryBudgetPercent : Z
}.

Record Policy := MkPolicy {
  maxActiveRequests : Z;
  maxActivePerBackend : Z;
  maxPendingRequests : Z;
  pendingTimeout : Z;
  maxConnectionsPerBackend : Z;
  retryAttempts : Z;
  retryDeadline : Z;
  retryBackoffInitial : Z;
  retryBackoffMax : Z;
  retryBudgetPercent : Z
}.

#[export] Instance Options_eq_dec : EqDecision Options.
Proof. solve_decision. Defined.
#[export] Instance Policy_eq_dec : EqDecision Policy.
Proof. solve_decision. Defined.

Definition zeroOptions : Options := MkOptions 0 0 0 0 0 0 0 0 0 0.
Definition Default : Policy := MkPolicy 0 0 0 0 0 0 0 0 0 0.

(** One constructor per error message of [check]. *)
Inductive resErr :=
| BadMaxActiveRequests | BadMaxActivePerBackend | BadMaxPendingRequests
| BadPendingTimeout | BadMaxConnections | PendingNeedsActive
| BadRetryAttempts | BadRetryDeadline | BadRetryBackoffInitial
| BadRetryBackoffMax | BadRetryBudgetPercent | BackoffInitialExceedsMax
| BackoffMaxNeedsInitial | BackoffInitialExceedsDeadline.

Definition outside (v ceiling : Z) : bool := (v <? 0) || (ceiling <? v).

Definition check (o : Options) : option resErr :=
  if outside (o_MaxActiveRequests o) MaxActiveRequestsCeiling then Some BadMaxActiveRequests
  else if outside (o_MaxActivePerBackend o) MaxActivePerBackendCeiling then Some BadMaxActivePerBackend
  else if outside (o_MaxPendingRequests o) MaxPendingRequestsCeiling then Some BadMaxPendingRequests
  else if outside (o_PendingTimeout o) PendingTimeoutCeiling then Some BadPendingTimeout
  else if outside (o_MaxConnectionsPerBackend o) MaxConnectionsCeiling then Some BadMaxConnections
  else if (0 <? o_MaxPendingRequests o) && (o_MaxActiveRequests o =? 0) then Some PendingNeedsActive
  else if outside (o_RetryAttempts o) RetryAttemptsCeiling then Some BadRetryAttempts
  else if outside (o_RetryDeadline o) RetryDeadlineCeiling then Some BadRetryDeadline
  else if outside (o_RetryBackoffInitial o) RetryBackoffCeiling then Some BadRetryBackoffInitial
  else if outside (o_RetryBackoffMax o) RetryBackoffCeiling then Some BadRetryBackoffMax
  else if outside (o_RetryBudgetPercent o) RetryBudgetPercentCeiling then Some BadRetryBudgetPercent
  else if (0 <? o_RetryBackoffMax o) && (o_RetryBackoffMax o <? o_RetryBackoffInitial o)
  then Some BackoffInitialExceedsMax
  else if (0 <? o_RetryBackoffMax o) && (o_RetryBackoffInitial o =? 0)
  then Some BackoffMaxNeedsInitial
  else if (0 <? o_RetryDeadline o) && (o_RetryDeadline o <? o_RetryBackoffInitial o)
  then Some BackoffInitialExceedsDeadline
  else None.

Definition Resolve (o : Options) : resErr + Policy :=
  if bool_decide (o = zeroOptions) then inr Default
  else match check o with
  | Some e => inl e
  | None =>
      let backoffMax :=
        if (0 <? o_RetryBackoffInitial o) && (o_RetryBackoffMax o =? 0)
        then DefaultRetryBackoffMax else o_RetryBackoffMax o in
      inr (MkPolicy (o_MaxActiveRequests o) (o_MaxActivePerBackend o)
        (o_MaxPendingRequests o) (o_PendingTimeout o) (o_MaxConnectionsPerBackend o)
        (o_RetryAttempts o) (o_RetryDeadline o) (o_RetryBackoffInitial o) backoffMax
        (o_RetryBudgetPercent o))
  end.

Definition Bounded (p : Policy) : bool :=
  (0 <? maxActiveRequests p) || (0 <? maxActivePerBackend p).

(** ** What validation promises *)

Record policy_ok (p : Policy) : Prop := {
  pok_active : 0 <= maxActiveRequests p <= MaxActiveRequestsCeiling;
  pok_perBackend : 0 <= maxActivePerBackend p <= MaxActivePerBackendCeiling;
  pok_pending : 0 <= maxPendingRequests p <= MaxPendingRequestsCeiling;
  pok_pendingTimeout : 0 <= pendingTimeout p <= PendingTimeoutCeiling;
  pok_conns : 0 <= maxConnectionsPerBackend p <= MaxConnectionsCeiling;
  pok_queue : 0 < maxPendingRequests p -> 0 < maxActiveRequests p;
  pok_attempts : 0 <= retryAttempts p <= RetryAttemptsCeiling;
  pok_deadline : 0 <= retryDeadline p <= RetryDeadlineCeiling;
  pok_initial : 0 <= retryBackoffInitial p <= RetryBackoffCeiling;
  pok_max : 0 <= retryBackoffMax p <= RetryBackoffCeiling;
  pok_budget : 0 <= retryBudgetPercent p <= RetryBudgetPercentCeiling;
  pok_enabled : 0 < retryBackoffInitial p <-> 0 < retryBackoffMax p;
  pok_room : 0 < retryDeadline p -> retryBackoffInitial p <= retryDeadline p
}.

Lemma outside_false v c : outside v c = false <-> 0 <= v <= c.
Proof. unfold outside. lia. Qed.

Lemma check_None o :
  check o = None ->
  0 <= o_MaxActiveRequests o <= MaxActiveRequestsCeiling /\
  0 <= o_MaxActivePerBackend o <= MaxActivePerBackendCeiling /\
  0 <= o_MaxPendingRequests o <= MaxPendingRequestsCeiling /\
  0 <= o_PendingTimeout o <= PendingTimeoutCeiling /\
  0 <= o_MaxConnectionsPerBackend o <= MaxConnectionsCeiling /\
  (0 < o_MaxPendingRequests o -> 0 < o_MaxActiveRequests o) /\
  0 <= o_RetryAttempts o <= RetryAttemptsCeiling /\
  0 <= o_RetryDeadline o <= RetryDeadlineCeiling /\
  0 <= o_RetryBackoffInitial o <= RetryBackoffCeiling /\
  0 <= o_RetryBackoffMax o <= RetryBackoffCeiling /\
  0 <= o_RetryBudgetPercent o <= RetryBudgetPercentCeiling /\
  (0 < o_RetryBackoffMax o -> 0 < o_RetryBackoffInitial o <= o_RetryBackoffMax o) /\
  (0 < o_RetryDeadline o -> o_RetryBackoffInitial o <= o_RetryDeadline o).
Proof.
  intros H. unfold check in H.
  repeat match type of H with
  | (if ?b then _ else _) = None => let E := fresh "E" in destruct b eqn:E; [discriminate|]
  end.
  repeat match goal with E : outside _ _ = false |- _ => apply outside_false in E end.
  split_and!; lia.
Qed.

(** Whatever options [Resolve] accepts, the policy the request path reads
    is within every ceiling, never queues without an admission limit, enables
    backoff and its clamp together, and leaves room for the first backoff in a
    retry deadline. *)
Theorem Resolve_policy_ok o p : Resolve o = inr p -> policy_ok p.
Proof.
  unfold Resolve. case_bool_decide.
  - intros [= <-]. split; simpl; unfold MaxActiveRequestsCeiling, MaxActivePerBackendCeiling,
      MaxPendingRequestsCeiling, PendingTimeoutCeiling, MaxConnectionsCeiling,
      RetryAttemptsCeiling, RetryDeadlineCeiling, RetryBackoffCeiling,
      RetryBudgetPercentCeiling, Minute, Second, Millisecond; lia.
  - destruct (check o) eqn:E; intros [= <-]. apply check_None in E. destruct_and! E.
    split; simpl; try (assumption || (split; assumption)).
    + destruct (_ && _) eqn:Eb; [|lia].
      unfold DefaultRetryBackoffMax, RetryBackoffCeiling, Second, Millisecond. lia.
    + destruct (_ && _) eqn:Eb;
        unfold DefaultRetryBackoffMax, Second, Millisecond; lia.
Qed.

Definition some_options : Options :=
  MkOptions 100 0 10 (5 * Second) 0 3 Second (100 * Millisecond) 0 20.

Lemma Resolve_policy_ok_witness :
  exists p, Resolve some_options = inr p /\ policy_ok p.
Proof. eexists. split; [reflexivity|]. apply (Resolve_policy_ok some_options). reflexivity. Defined.
