(* ===== verification/Admission.v ===== *)
(** * The pool admission limiter (src/internal/upstream/admission.go)

    [Admission] bounds the work in flight: a lock-free fast path below the
    limit, a FIFO of parked goroutines above it, and a direct hand-off on
    release.  The Go code is concurrent and only partly under its mutex, so it
    is modelled as an interleaving of its atomic actions: every goroutine is at
    a program point [apc], and [admission_exec] performs the next atomic action
    of one goroutine (or of a reload, or of a pool close).  A critical section
    that touches [active] or the policy more than once holds [a_mu] across the
    corresponding steps; one that makes a single access to shared lock-free
    state is one step. *)

From S2P Require Import Prelude Resilience.

Inductive waiterState := waiterParked | waiterGranted | waiterRetired.

(** [ErrCtx] stands for the request context's own error. *)
Inductive admErr := ErrOverloaded | ErrRetired | ErrCtx.

#[export] Instance waiterState_eq_dec : EqDecision waiterState.
Proof. solve_decision. Defined.
#[export] Instance admErr_eq_dec : EqDecision admErr.
Proof. solve_decision. Defined.

(** Where one goroutine stands between [Acquire] and the end of its [Release]. *)
Inductive apc :=
| PIdle
| PLoaded (limit : Z)                    (* Acquire: the limit is loaded *)
| PPark                                  (* park: called *)
| PParkPol (pol : Policy)                (* park: policy loaded, before the lock *)
| PWait (pol : Policy) (w : waiterState) (* park: in the select *)
| PAbandon (w : waiterState) (e : admErr)(* abandon: called, before the lock *)
| PHold                                  (* admitted *)
| PRel (e : option admErr)               (* release: called *)
| PDec (e : option admErr)               (* release: unlocked, before the decrement *)
| PDone (e : option admErr).             (* returned *)

Inductive muState := MuFree | MuRelease (t : nat) (limit : Z) | MuWake (limit : Z).

#[export] Instance apc_eq_dec : EqDecision apc.
Proof. solve_decision. Defined.
#[export] Instance muState_eq_dec : EqDecision muState.
Proof. solve_decision. Defined.

Record Admission := MkAdmission {
  a_policy : Policy;
  a_active : Z;
  a_pending : Z;
  a_waiters : list nat;   (* goroutines, FIFO head first *)
  a_mu : muState;
  a_wakers : list Z;      (* SetPolicy calls between the store and the lock *)
  a_threads : list apc
}.

Definition NewAdmission (pol : Policy) (n : nat) : Admission :=
  MkAdmission pol 0 0 [] MuFree [] (replicate n PIdle).

Definition set_thread (t : nat) (p : apc) (s : Admission) : Admission :=
  MkAdmission (a_policy s) (a_active s) (a_pending s) (a_waiters s) (a_mu s) (a_wakers s)
    (<[t := p]> (a_threads s)).

Definition set_active (n : Z) (s : Admission) : Admission :=
  MkAdmission (a_policy s) n (a_pending s) (a_waiters s) (a_mu s) (a_wakers s) (a_threads s).

Definition set_mu (m : muState) (s : Admission) : Admission :=
  MkAdmission (a_policy s) (a_active s) (a_pending s) (a_waiters s) m (a_wakers s) (a_threads s).

Definition set_wakers (ws : list Z) (s : Admission) : Admission :=
  MkAdmission (a_policy s) (a_active s) (a_pending s) (a_waiters s) (a_mu s) ws (a_threads s).

Definition set_waiters (ws : list nat) (pending : Z) (s : Admission) : Admission :=
  MkAdmission (a_policy s) (a_active s) pending ws (a_mu s) (a_wakers s) (a_threads s).

(** Writing a waiter's [state] field: its goroutine is in the select, or has
    already left it to abandon. *)
Definition mark_waiter (w : waiterState) (p : apc) : apc :=
  match p with
  | PWait pol _ => PWait pol w
  | PAbandon _ e => PAbandon w e
  | p => p
  end.

Definition mark_thread (w : waiterState) (t : nat) (s : Admission) : Admission :=
  match a_threads s !! t with
  | Some p => set_thread t (mark_waiter w p) s
  | None => s
  end.

Definition grantLocked (s : Admission) : Admission :=
  match a_waiters s with
  | t :: ws => mark_thread waiterGranted t (set_waiters ws (a_pending s - 1) s)
  | [] => s
  end.

(** ** The atomic actions *)

(** [Acquire]'s loop, from the loaded limit: one successful CAS, or the load
    that found the limit reached.  A failed CAS changes nothing and retries. *)
Definition acquire_step (t : nat) (limit : Z) (s : Admission) : Admission :=
  if limit <=? 0 then set_thread t PHold (set_active (a_active s + 1) s)
  else if limit <=? a_active s then set_thread t PPark s
  else set_thread t PHold (set_active (a_active s + 1) s).

(** [park]'s critical section. *)
Definition park_step (t : nat) (pol : Policy) (s : Admission) : Admission :=
  let limit := maxActiveRequests pol in
  let maxPending := maxPendingRequests pol in
  let len := Z.of_nat (length (a_waiters s)) in
  if bool_decide (a_waiters s = []) && negb ((0 <? limit) && (limit <=? a_active s))
  then set_thread t PHold (set_active (a_active s + 1) s)
  else if (maxPending <=? 0) || (maxPending <=? len)
  then set_thread t (PDone (Some ErrOverloaded)) s
  else set_thread t (PWait pol waiterParked)
         (set_waiters (a_waiters s ++ [t]) (a_pending s + 1) s).

(** [abandon]'s critical section. *)
Definition abandon_step (t : nat) (w : waiterState) (e : admErr) (s : Admission) : Admission :=
  match w with
  | waiterParked =>
      set_thread t (PDone (Some e))
        (set_waiters (filter (fun u => u <> t) (a_waiters s)) (a_pending s - 1) s)
  | _ => set_thread t (PRel (Some e)) s
  end.

(** [release]: entering the critical section, and the decision on the loaded
    limit. *)
Definition release_lock (t : nat) (e : option admErr) (s : Admission) : Admission :=
  match a_waiters s with
  | [] => set_thread t (PDec e) s
  | _ => set_mu (MuRelease t (maxActiveRequests (a_policy s))) s
  end.

Definition release_decide (t : nat) (limit : Z) (e : option admErr) (s : Admission) : Admission :=
  if (limit <=? 0) || (a_active s - 1 <? limit)
  then set_mu MuFree (set_thread t (PDone e) (grantLocked s))
  else set_mu MuFree (set_thread t (PDec e) s).

(** One iteration of [wakeUpToLimit]: claim a slot and grant the head, or
    unlock. *)
Definition wake_step (limit : Z) (s : Admission) : Admission :=
  match a_waiters s with
  | [] => set_mu MuFree s
  | _ =>
      if (0 <? limit) && (limit <=? a_active s) then set_mu MuFree s
      else grantLocked (set_active (a_active s + 1) s)
  end.

Definition Retire (s : Admission) : Admission :=
  fold_left (fun s t => mark_thread waiterRetired t s) (a_waiters s)
    (set_waiters [] 0 s).

Definition SetPolicy (p : Policy) (s : Admission) : Admission :=
  MkAdmission p (a_active s) (a_pending s) (a_waiters s) (a_mu s)
    (a_wakers s ++ [maxActiveRequests p]) (a_threads s).

Inductive alabel :=
| AAcquire (t : nat) | ATry (t : nat) | AParkLoad (t : nat) | AParkLock (t : nat)
| AReceive (t : nat) | AGiveUp (t : nat) (e : admErr) | AAbandonLock (t : nat)
| ARelease (t : nat) | ARelLock (t : nat) | ARelDecide | ADec (t : nat)
| ASetPolicy (p : Policy) | AWakeLock (i : nat) | AWakeStep | ARetire.

#[export] Instance alabel_eq_dec : EqDecision alabel.
Proof. solve_decision. Defined.

Definition mu_free (s : Admission) : bool := bool_decide (a_mu s = MuFree).

Definition admission_exec (s : Admission) (l : alabel) : option Admission :=
  match l with
  | AAcquire t =>
      match a_threads s !! t with
      | Some PIdle => Some (set_thread t (PLoaded (maxActiveRequests (a_policy s))) s)
      | _ => None
      end
  | ATry t =>
      match a_threads s !! t with
      | Some (PLoaded limit) => Some (acquire_step t limit s)
      | _ => None
      end
  | AParkLoad t =>
      match a_threads s !! t with
      | Some PPark => Some (set_thread t (PParkPol (a_policy s)) s)
      | _ => None
      end
  | AParkLock t =>
      match a_threads s !! t with
      | Some (PParkPol pol) => if mu_free s then Some (park_step t pol s) else None
      | _ => None
      end
  | AReceive t =>
      match a_threads s !! t with
      | Some (PWait _ waiterGranted) => Some (set_thread t PHold s)
      | Some (PWait _ waiterRetired) => Some (set_thread t (PDone (Some ErrRetired)) s)
      | _ => None
      end
  | AGiveUp t e =>
      match a_threads s !! t with
      | Some (PWait pol w) =>
          if bool_decide (e = ErrOverloaded) && (pendingTimeout pol <=? 0) then None
          else Some (set_thread t (PAbandon w e) s)
      | _ => None
      end
  | AAbandonLock t =>
      match a_threads s !! t with
      | Some (PAbandon w e) => if mu_free s then Some (abandon_step t w e s) else None
      | _ => None
      end
  | ARelease t =>
      match a_threads s !! t with
      | Some PHold => Some (set_thread t (PRel None) s)
      | _ => None
      end
  | ARelLock t =>
      match a_threads s !! t with
      | Some (PRel e) => if mu_free s then Some (release_lock t e s) else None
      | _ => None
      end
  | ARelDecide =>
      match a_mu s with
      | MuRelease t limit =>
          match a_threads s !! t with
          | Some (PRel e) => Some (release_decide t limit e s)
          | _ => None
          end
      | _ => None
      end
  | ADec t =>
      match a_threads s !! t with
      | Some (PDec e) => Some (set_thread t (PDone e) (set_active (a_active s - 1) s))
      | _ => None
      end
  | ASetPolicy p => Some (SetPolicy p s)
  | AWakeLock i =>
      match a_wakers s !! i with
      | Some limit =>
          if mu_free s then Some (set_mu (MuWake limit) (set_wakers (delete i (a_wakers s)) s))
          else None
      | None => None
      end
  | AWakeStep =>
      match a_mu s with
      | MuWake limit => Some (wake_step limit s)
      | _ => None
      end
  | ARetire => if mu_free s then Some (Retire s) else None
  end.

(** ** Two runs that show the races *)

Definition pol1 : Policy := MkPolicy 1 0 1 0 0 0 0 0 0 0.

Definition lost_wakeup_run : list alabel :=
  [AAcquire 0; ATry 0;             (* goroutine 0 is admitted, limit 1 *)
   AAcquire 1; ATry 1; AParkLoad 1;(* goroutine 1 finds the limit reached *)
   ARelease 0; ARelLock 0;         (* 0 releases: the queue is still empty *)
   AParkLock 1;                    (* 1 re-checks: still at the limit, parks *)
   ADec 0].                        (* 0's decrement frees the slot, wakes nobody *)

Definition retire_race_run : list alabel :=
  [AAcquire 0; ATry 0;
   AAcquire 1; ATry 1; AParkLoad 1; AParkLock 1;
   ARetire;                        (* the waiter is retired, never charged *)
   AGiveUp 1 ErrCtx; AAbandonLock 1; ARelLock 1; ADec 1; (* and yet releases a slot *)
   AAcquire 2; ATry 2].

(** ** Accounting *)

(** The slot a goroutine is charged for. *)
Definition charge (p : apc) : Z :=
  match p with
  | PHold | PWait _ waiterGranted | PAbandon waiterGranted _ | PRel _ | PDec _ => 1
  | _ => 0
  end.

Definition holding (p : apc) : Z := match p with PHold => 1 | _ => 0 end.

(** The goroutines in the FIFO: parked, whether still in the select or on
    their way to abandon. *)
Definition parked (p : apc) : bool :=
  match p with PWait _ waiterParked | PAbandon waiterParked _ => true | _ => false end.

Definition retired (p : apc) : bool :=
  match p with PWait _ waiterRetired | PAbandon waiterRetired _ => true | _ => false end.

Definition in_release (p : apc) : bool := match p with PRel _ => true | _ => false end.

(** The queue holds exactly the parked goroutines, each once; [pending] is its
    length; a release that holds the lock is inside [release]. *)
Record queue_ok (s : Admission) : Prop := {
  q_pending : a_pending s = Z.of_nat (length (a_waiters s));
  q_nodup : NoDup (a_waiters s);
  q_parked : forall t p, a_threads s !! t = Some p -> (t ∈ a_waiters s <-> parked p = true);
  q_range : forall t, t ∈ a_waiters s -> is_Some (a_threads s !! t);
  q_mu : forall t limit, a_mu s = MuRelease t limit ->
    exists p, a_threads s !! t = Some p /\ in_release p = true
}.

(** Exact accounting: [active] is the number of charged goroutines, and no
    waiter has been retired. *)
Record account_ok (s : Admission) : Prop := {
  ac_active : a_active s = total charge (a_threads s);
  ac_retired : forall t p, a_threads s !! t = Some p -> retired p = false
}.

Lemma NewAdmission_ok pol n : queue_ok (NewAdmission pol n) /\ account_ok (NewAdmission pol n).
Proof.
  split; split; simpl; try done.
  - constructor.
  - intros t p H. apply lookup_replicate in H as [-> _]. split; [|done]. by intros ?%elem_of_nil.
  - by intros t ?%elem_of_nil.
  - rewrite total_replicate. simpl. lia.
  - by intros t p [-> _]%lookup_replicate.
Qed.

(** Moving one goroutine that stays in, or outside, the FIFO. *)
Lemma set_thread_queue t p q s :
  queue_ok s -> a_threads s !! t = Some p -> parked q = parked p ->
  (in_release p = true -> a_mu s = MuFree) -> queue_ok (set_thread t q s).
Proof.
  intros [H1 H2 H3 H4 H5] Ht Hp Hm. split; simpl; auto.
  - intros u x Hx. destruct (decide (u = t)) as [->|Hne].
    + rewrite list_lookup_insert_eq in Hx by by eapply lookup_lt_Some.
      injection Hx as <-. rewrite (H3 _ _ Ht). by rewrite Hp.
    + rewrite list_lookup_insert_ne in Hx by done. by apply H3.
  - intros u Hu. destruct (H4 _ Hu) as [x Hx].
    apply lookup_lt_is_Some. rewrite length_insert. by apply lookup_lt_is_Some.
  - intros u limit E. destruct (H5 _ _ E) as (x & Hx & Hr).
    destruct (decide (u = t)) as [->|Hne].
    + simplify_eq. rewrite (Hm Hr) in E. discriminate.
    + exists x. by rewrite list_lookup_insert_ne.
Qed.

Lemma filter_ne_notin (t : nat) (l : list nat) : t ∉ l -> filter (fun u => u <> t) l = l.
Proof.
  induction l as [|x l IH]; intros H; [done|].
  apply not_elem_of_cons in H as [Hx Hl].
  rewrite filter_cons_True by congruence. by rewrite IH.
Qed.

Lemma filter_ne_length (t : nat) (l : list nat) :
  NoDup l -> t ∈ l -> length l = S (length (filter (fun u => u <> t) l)).
Proof.
  induction 1 as [|x l Hx Hnd IH]; intros Hin; [by apply elem_of_nil in Hin|].
  destruct (decide (x = t)) as [->|Hne].
  - rewrite filter_cons_False by congruence. simpl. by rewrite filter_ne_notin.
  - rewrite filter_cons_True by done. apply elem_of_cons in Hin as [->|Hin]; [done|].
    simpl. by rewrite IH at 1.
Qed.

Lemma parked_not_release p : parked p = true -> in_release p = false.
Proof. by destruct p. Qed.

(** Taking a parked goroutine out of the FIFO. *)
Lemma remove_queue t p q s :
  queue_ok s -> a_threads s !! t = Some p -> parked p = true -> parked q = false ->
  queue_ok (set_thread t q
    (set_waiters (filter (fun u => u <> t) (a_waiters s)) (a_pending s - 1) s)).
Proof.
  intros [H1 H2 H3 H4 H5] Ht Hp Hq. pose proof (proj2 (H3 _ _ Ht) Hp) as Hin. split; simpl.
  - rewrite H1, (filter_ne_length t) by done. lia.
  - by apply list.NoDup_filter.
  - intros u x Hx. rewrite list_elem_of_filter. destruct (decide (u = t)) as [->|Hne].
    + rewrite list_lookup_insert_eq in Hx by by eapply lookup_lt_Some.
      injection Hx as <-. rewrite Hq. naive_solver.
    + rewrite list_lookup_insert_ne in Hx by done. rewrite <- (H3 _ _ Hx). naive_solver.
  - intros u [_ Hu]%list_elem_of_filter. destruct (H4 _ Hu) as [x Hx].
    apply lookup_lt_is_Some. rewrite length_insert. by apply lookup_lt_is_Some.
  - intros u limit E. destruct (H5 _ _ E) as (x & Hx & Hr). exists x.
    rewrite list_lookup_insert_ne; [done|]. intros ->.
    apply parked_not_release in Hp. congruence.
Qed.

Lemma filter_head (t : nat) (ws : list nat) :
  NoDup (t :: ws) -> filter (fun u => u <> t) (t :: ws) = ws.
Proof.
  intros [Hn _]%list.NoDup_cons. rewrite filter_cons_False by congruence. by apply filter_ne_notin.
Qed.

Lemma grant_unfold s t ws :
  queue_ok s -> a_waiters s = t :: ws ->
  exists p, a_threads s !! t = Some p /\ parked p = true /\
    grantLocked s = set_thread t (mark_waiter waiterGranted p)
      (set_waiters (filter (fun u => u <> t) (a_waiters s)) (a_pending s - 1) s).
Proof.
  intros Hq Hw. destruct (q_range _ Hq t) as [p Hp]; [rewrite Hw; left|].
  exists p. split; [done|]. split; [apply (q_parked _ Hq _ _ Hp); rewrite Hw; left|].
  unfold grantLocked, mark_thread. rewrite Hw. simpl. rewrite Hp.
  pose proof (q_nodup _ Hq) as Hn. rewrite Hw in Hn. by rewrite filter_head.
Qed.

Lemma mark_granted p :
  parked p = true -> parked (mark_waiter waiterGranted p) = false /\
  retired (mark_waiter waiterGranted p) = false /\
  charge p = 0 /\ charge (mark_waiter waiterGranted p) = 1 /\
  holding (mark_waiter waiterGranted p) = 0.
Proof. destruct p as [| | | |pol w|w e| | | |]; try done; destruct w; done. Qed.

(** A grant moves the head out of the FIFO and charges it. *)
Lemma grant_ok s :
  queue_ok s -> a_waiters s <> [] ->
  queue_ok (grantLocked s) /\
  total charge (a_threads (grantLocked s)) = total charge (a_threads s) + 1 /\
  a_active (grantLocked s) = a_active s /\ a_mu (grantLocked s) = a_mu s /\
  (forall t p, a_threads s !! t = Some p -> in_release p = true ->
     a_threads (grantLocked s) !! t = Some p) /\
  ((forall t p, a_threads s !! t = Some p -> retired p = false) ->
   forall t p, a_threads (grantLocked s) !! t = Some p -> retired p = false).
Proof.
  intros Hq Hne. destruct (a_waiters s) as [|t ws] eqn:Hw; [done|clear Hne].
  destruct (grant_unfold s t ws Hq Hw) as (p & Hp & Hk & ->).
  destruct (mark_granted p Hk) as (M1 & M2 & M3 & M4 & _).
  split; [by eapply remove_queue|]. simpl.
  split; [rewrite (total_insert _ _ p) by done; lia|]. split; [done|]. split; [done|].
  split.
  - intros u x Hx Hr. rewrite list_lookup_insert_ne; [done|]. intros ->.
    apply parked_not_release in Hk. congruence.
  - intros Hr u x Hx. destruct (decide (u = t)) as [->|Hn].
    + rewrite list_lookup_insert_eq in Hx by by eapply lookup_lt_Some. by simplify_eq.
    + rewrite list_lookup_insert_ne in Hx by done. eauto.
Qed.

(** Parking appends the goroutine to the FIFO. *)
Lemma push_queue t p q s :
  queue_ok s -> a_threads s !! t = Some p -> parked p = false -> parked q = true ->
  in_release p = false ->
  queue_ok (set_thread t q (set_waiters (a_waiters s ++ [t]) (a_pending s + 1) s)).
Proof.
  intros [H1 H2 H3 H4 H5] Ht Hp Hq Hr.
  assert (Hn : t ∉ a_waiters s) by (rewrite (H3 _ _ Ht); congruence).
  split; simpl.
  - rewrite H1, length_app. simpl. lia.
  - apply list.NoDup_app. split; [done|]. split; [|apply list.NoDup_singleton].
    intros x Hx ->%list_elem_of_singleton. done.
  - intros u x Hx. rewrite elem_of_app, list_elem_of_singleton.
    destruct (decide (u = t)) as [->|Hne].
    + rewrite list_lookup_insert_eq in Hx by by eapply lookup_lt_Some. simplify_eq. naive_solver.
    + rewrite list_lookup_insert_ne in Hx by done. rewrite <- (H3 _ _ Hx). naive_solver.
  - intros u Hu. apply lookup_lt_is_Some. rewrite length_insert. apply lookup_lt_is_Some.
    apply elem_of_app in Hu as [Hu| ->%list_elem_of_singleton]; eauto.
  - intros u limit E. destruct (H5 _ _ E) as (x & Hx & Hi). exists x.
    rewrite list_lookup_insert_ne; [done|]. intros ->. congruence.
Qed.

Definition adm_ok (s : Admission) : Prop := queue_ok s /\ account_ok s.

Lemma account_move s s' t p q :
  account_ok s -> a_threads s !! t = Some p -> a_threads s' = <[t := q]> (a_threads s) ->
  retired q = false -> a_active s' = a_active s - charge p + charge q -> account_ok s'.
Proof.
  intros [H1 H2] Ht Hs Hq Ha. split.
  - rewrite Ha, Hs, (total_insert _ _ p) by done. lia.
  - intros u x Hx. rewrite Hs in Hx. destruct (decide (u = t)) as [->|Hne].
    + rewrite list_lookup_insert_eq in Hx by by eapply lookup_lt_Some. congruence.
    + rewrite list_lookup_insert_ne in Hx by done. eauto.
Qed.

Lemma queue_frame s s' :
  queue_ok s -> a_pending s' = a_pending s -> a_waiters s' = a_waiters s ->
  a_threads s' = a_threads s -> a_mu s' = a_mu s \/ a_mu s' = MuFree \/
    (exists n, a_mu s' = MuWake n) -> queue_ok s'.
Proof.
  intros [H1 H2 H3 H4 H5] Ep Ew Et Em. split; rewrite ?Ep, ?Ew, ?Et; auto.
  intros t limit E. destruct Em as [Em|[Em|[n Em]]]; rewrite Em in E; [eauto|done..].
Qed.

(** A step of one goroutine outside the lock, changing [active] by the
    difference of its charges. *)
Lemma local_ok s t p q n :
  adm_ok s -> a_threads s !! t = Some p -> parked q = parked p ->
  in_release p = false -> retired q = false -> n = a_active s - charge p + charge q ->
  adm_ok (set_thread t q (set_active n s)).
Proof.
  intros [Hq Ha] Ht Hp Hr Hre ->. split.
  - apply (set_thread_queue t p); simpl; try done; [|congruence].
    apply (queue_frame s); auto.
  - by eapply (account_move s _ t p q).
Qed.

Lemma set_active_id s n : n = a_active s -> set_active n s = s.
Proof. intros ->. by destruct s. Qed.

Lemma local_ok0 s t p q :
  adm_ok s -> a_threads s !! t = Some p -> parked q = parked p ->
  in_release p = false -> retired q = false -> charge q = charge p ->
  adm_ok (set_thread t q s).
Proof.
  intros H Ht Hp Hr Hre Hc. rewrite <- (set_active_id s (a_active s)) by done.
  eapply local_ok; [done..|lia].
Qed.

Lemma acquire_step_ok s t limit :
  adm_ok s -> a_threads s !! t = Some (PLoaded limit) -> adm_ok (acquire_step t limit s).
Proof.
  intros H Ht. unfold acquire_step.
  destruct (limit <=? 0); [|destruct (limit <=? a_active s)];
    [eapply local_ok|eapply local_ok0|eapply local_ok]; (done || (simpl; lia)).
Qed.

Lemma park_step_ok s t pol :
  adm_ok s -> a_threads s !! t = Some (PParkPol pol) -> adm_ok (park_step t pol s).
Proof.
  intros H Ht. unfold park_step.
  destruct (_ && _); [eapply local_ok; (done || (simpl; lia))|].
  destruct (_ || _); [eapply local_ok0; done|].
  destruct H as [Hq Ha]. split; [by eapply push_queue|].
  eapply (account_move s _ t _ (PWait pol waiterParked)); (done || (simpl; lia)).
Qed.

Lemma abandon_step_ok s t w e :
  adm_ok s -> a_threads s !! t = Some (PAbandon w e) -> adm_ok (abandon_step t w e s).
Proof.
  intros [Hq Ha] Ht. pose proof (ac_retired _ Ha _ _ Ht) as Hr.
  destruct w; simpl in Hr; [|by eapply local_ok0|done]. split; [by eapply remove_queue|].
  eapply (account_move s _ t _ (PDone (Some e))); (done || (simpl; lia)).
Qed.

Lemma release_lock_ok s t e :
  adm_ok s -> a_threads s !! t = Some (PRel e) -> a_mu s = MuFree ->
  adm_ok (release_lock t e s).
Proof.
  intros [Hq Ha] Ht Hm. unfold release_lock. destruct (a_waiters s) eqn:Hw.
  - split; [by eapply set_thread_queue|].
    eapply (account_move s _ t _ (PDec e)); (done || (simpl; lia)).
  - split; [|by destruct Ha]. destruct Hq as [Q1 Q2 Q3 Q4 Q5]. split; simpl; auto.
    intros u lim [= <- <-]. eauto.
Qed.

Lemma release_decide_ok s t limit e :
  adm_ok s -> a_threads s !! t = Some (PRel e) -> a_mu s = MuRelease t limit ->
  a_waiters s <> [] -> adm_ok (release_decide t limit e s).
Proof.
  intros H Ht Hm Hw. pose proof H as [Hq [Ha Hr]]. unfold release_decide.
  assert (F : forall s', queue_ok s' -> a_mu s' = a_mu s -> forall q, parked q = false ->
    a_threads s' !! t = Some (PRel e) -> queue_ok (set_mu MuFree (set_thread t q s'))).
  { intros s' Hq' Em q Hk Ht'. change (queue_ok (set_thread t q (set_mu MuFree s'))).
    eapply (set_thread_queue t); [apply (queue_frame s'); auto|done|done|done]. }
  destruct (_ || _).
  - destruct (grant_ok s Hq Hw) as (G1 & G2 & G3 & G4 & G5 & G6).
    pose proof (G5 _ _ Ht eq_refl) as Ht'. split; [by apply F|]. split; simpl.
    + rewrite (total_insert _ _ (PRel e)) by done. simpl. lia.
    + intros u x Hx. destruct (decide (u = t)) as [->|Hn].
      * rewrite list_lookup_insert_eq in Hx by by eapply lookup_lt_Some. by simplify_eq.
      * rewrite list_lookup_insert_ne in Hx by done. eauto.
  - split; [by apply F|].
    eapply (account_move s _ t _ (PDec e)); (done || (simpl; lia)).
Qed.

Lemma wake_step_ok s limit : adm_ok s -> adm_ok (wake_step limit s).
Proof.
  intros H. pose proof H as [Hq Ha]. unfold wake_step.
  destruct (a_waiters s) eqn:Hw.
  - split; [apply (queue_frame s); auto|by destruct Ha].
  - destruct (_ && _); [split; [apply (queue_frame s); auto|by destruct Ha]|].
    assert (Hq' : queue_ok (set_active (a_active s + 1) s)) by (apply (queue_frame s); auto).
    destruct (grant_ok _ Hq') as (G1 & G2 & G3 & _ & _ & G6); [simpl; by rewrite Hw|].
    simpl in *. split; [done|]. split; [|apply G6; apply Ha].
    rewrite G2, G3. pose proof (ac_active _ Ha). lia.
Qed.

(** While a release holds the lock the FIFO is not empty. *)
Definition mu_ok (s : Admission) : Prop :=
  forall t limit, a_mu s = MuRelease t limit -> a_waiters s <> [].

Lemma grant_mu s : a_mu (grantLocked s) = a_mu s.
Proof.
  unfold grantLocked, mark_thread. destruct (a_waiters s); [done|].
  simpl. by destruct (a_threads s !! n).
Qed.

Lemma Retire_mu s : a_mu (Retire s) = a_mu s.
Proof.
  unfold Retire. transitivity (a_mu (set_waiters [] 0 s)); [|done].
  generalize (set_waiters [] 0 s). induction (a_waiters s) as [|t ws IH]; intros s'; [done|].
  simpl. rewrite IH. unfold mark_thread. by destruct (a_threads s' !! t).
Qed.

(** The steps of [exec] by the state they need. *)
Ltac exec_inv E :=
  simpl in E;
  repeat match type of E with
  | match ?x with _ => _ end = Some _ => let H := fresh "Ex" in destruct x eqn:H; try discriminate E
  | Some _ = Some _ => injection E as <-
  end;
  repeat match goal with H : mu_free _ = true |- _ => apply bool_decide_eq_true in H end.

Lemma exec_mu_ok s l s' : mu_ok s -> admission_exec s l = Some s' -> mu_ok s'.
Proof.
  intros H E. unfold mu_ok in *. destruct l; exec_inv E; simpl; auto; try congruence.
  - unfold acquire_step. by repeat case_match.
  - unfold park_step. repeat case_match; simpl; try done. congruence.
  - destruct w; simpl; congruence.
  - unfold release_lock. destruct (a_waiters s) eqn:Hw; simpl; congruence.
  - unfold release_decide. by case_match.
  - unfold wake_step. destruct (a_waiters s) eqn:Hw; simpl; [done|].
    case_match; simpl; [done|]. rewrite grant_mu. simpl. congruence.
  - rewrite Retire_mu. congruence.
Qed.

Lemma exec_adm_ok s l s' :
  adm_ok s -> mu_ok s -> l <> ARetire -> admission_exec s l = Some s' -> adm_ok s'.
Proof.
  intros H Hmu Hl E. destruct l; exec_inv E; try done.
  - by eapply local_ok0.
  - by apply acquire_step_ok.
  - by eapply local_ok0.
  - by apply park_step_ok.
  - by eapply local_ok0.
  - destruct H as [_ [_ Hr]]. by specialize (Hr _ _ Ex).
  - pose proof (ac_retired _ (proj2 H) _ _ Ex) as Hr. by destruct w; eapply local_ok0.
  - by apply abandon_step_ok.
  - by eapply local_ok0.
  - by apply release_lock_ok.
  - apply release_decide_ok; eauto.
  - eapply local_ok; (done || (simpl; lia)).
  - destruct H as [Hq Ha]. split; [apply (queue_frame s); auto|by destruct Ha].
  - destruct H as [Hq Ha]. split; [apply (queue_frame s); simpl; eauto|by destruct Ha].
  - by apply wake_step_ok.
Qed.

Lemma trace_adm_ok s tr s' :
  trace admission_exec s tr s' -> ARetire ∉ tr -> adm_ok s -> mu_ok s -> adm_ok s'.
Proof.
  induction 1 as [|s l s1 tr s2 E T IH]; intros Hn H Hm; [done|].
  apply not_elem_of_cons in Hn as [Hl Hn]. apply IH; [done| |by eapply exec_mu_ok].
  eapply exec_adm_ok; eauto.
Qed.

Lemma NewAdmission_mu pol n : mu_ok (NewAdmission pol n).
Proof. by intros t limit. Qed.

(** ** The admission limit *)

(** Every limit any goroutine or reload has loaded, or may load, is in (0, L]. *)
Definition limit_in (L n : Z) : Prop := 0 < n <= L.

Definition pc_le (L : Z) (p : apc) : Prop :=
  match p with
  | PLoaded n => limit_in L n
  | PParkPol pol => limit_in L (maxActiveRequests pol)
  | _ => True
  end.

Record limits_le (L : Z) (s : Admission) : Prop := {
  ll_policy : limit_in L (maxActiveRequests (a_policy s));
  ll_threads : Forall (pc_le L) (a_threads s);
  ll_wakers : Forall (limit_in L) (a_wakers s);
  ll_mu : forall n, a_mu s = MuWake n -> limit_in L n
}.

Definition label_le (L : Z) (l : alabel) : Prop :=
  match l with ASetPolicy p => limit_in L (maxActiveRequests p) | _ => True end.

Lemma set_thread_limits L t q s :
  limits_le L s -> pc_le L q -> limits_le L (set_thread t q s).
Proof. intros [H1 H2 H3 H4] Hq. split; simpl; auto. by apply Forall_insert. Qed.

Lemma limits_frame L s s' :
  limits_le L s -> a_policy s' = a_policy s -> a_threads s' = a_threads s ->
  a_wakers s' = a_wakers s -> (a_mu s' = a_mu s \/ forall n, a_mu s' <> MuWake n) ->
  limits_le L s'.
Proof.
  intros [H1 H2 H3 H4] Ep Et Ew Em. split; rewrite ?Ep, ?Et, ?Ew; auto.
  intros n E. destruct Em as [Em|Em]; [rewrite Em in E; auto|by apply Em in E].
Qed.

Lemma set_mu_limits L m s :
  limits_le L s -> (forall n, m <> MuWake n) -> limits_le L (set_mu m s).
Proof. intros H Hm. apply (limits_frame L s); auto. Qed.

Lemma mark_thread_limits L w t s : limits_le L s -> limits_le L (mark_thread w t s).
Proof.
  intros H. unfold mark_thread. destruct (a_threads s !! t) as [p|] eqn:E; [|done].
  apply set_thread_limits; [done|].
  pose proof (Forall_lookup_1 _ _ _ _ (ll_threads _ _ H) E). by destruct p.
Qed.

Lemma grant_limits L s : limits_le L s -> limits_le L (grantLocked s).
Proof.
  intros H. unfold grantLocked. destruct (a_waiters s); [done|].
  apply mark_thread_limits. eapply limits_frame; eauto.
Qed.

Lemma grant_active s : a_active (grantLocked s) = a_active s.
Proof.
  unfold grantLocked, mark_thread. destruct (a_waiters s) as [|t ws]; [done|].
  simpl. by destruct (a_threads s !! t).
Qed.

Lemma Retire_limits L s : limits_le L s -> limits_le L (Retire s).
Proof.
  intros H. unfold Retire. assert (H' : limits_le L (set_waiters [] 0 s))
    by (eapply limits_frame; eauto).
  revert H'. generalize (set_waiters [] 0 s).
  induction (a_waiters s) as [|t ws IH]; intros s' Hs'; simpl; [done|].
  apply IH. by apply mark_thread_limits.
Qed.

Lemma Retire_active s : a_active (Retire s) = a_active s.
Proof.
  unfold Retire. transitivity (a_active (set_waiters [] 0 s)); [|done].
  generalize (set_waiters [] 0 s). induction (a_waiters s) as [|t ws IH]; intros s'; [done|].
  simpl. rewrite IH. unfold mark_thread. by destruct (a_threads s' !! t).
Qed.

#[export] Hint Resolve set_thread_limits grant_limits : jul.

Lemma exec_limits L s l s' :
  limits_le L s -> label_le L l -> admission_exec s l = Some s' -> limits_le L s'.
Proof.
  intros H Hl E. pose proof (ll_policy _ _ H) as Hpol. unfold limit_in in *.
  assert (F : forall n, limits_le L (set_active n s)) by (intros n; eapply limits_frame; eauto).
  assert (W : forall ws n, limits_le L (set_waiters ws n s))
    by (intros ws n; eapply limits_frame; eauto).
  destruct l; exec_inv E; try (apply set_thread_limits; by auto).
  - unfold acquire_step. repeat case_match; apply set_thread_limits; auto; done.
  - unfold park_step. repeat case_match; apply set_thread_limits; auto; done.
  - destruct w; apply set_thread_limits; auto; done.
  - unfold release_lock. destruct (a_waiters s); [by apply set_thread_limits|].
    by apply set_mu_limits.
  - unfold release_decide. case_match; apply set_mu_limits; try done;
      apply set_thread_limits; auto with jul; done.
  - destruct H as [H1 H2 H3 H4]. split; simpl; auto. apply Forall_app. split; [done|].
    by apply Forall_singleton.
  - destruct H as [H1 H2 H3 H4]. split; simpl; auto; [by apply Forall_delete|].
    intros n [= <-]. by eapply (Forall_lookup_1 _ (a_wakers s)).
  - unfold wake_step. destruct (a_waiters s) eqn:Hw; [|case_match];
      try (by apply set_mu_limits). by apply grant_limits.
  - by apply Retire_limits.
Qed.

Lemma exec_active L s l s' :
  limits_le L s -> admission_exec s l = Some s' -> a_active s' <= Z.max (a_active s) L.
Proof.
  intros H E. destruct l; exec_inv E; simpl; try lia.
  - pose proof (Forall_lookup_1 _ _ _ _ (ll_threads _ _ H) Ex) as [Hn Hn']. unfold acquire_step.
    destruct (limit <=? 0) eqn:E1; [lia|]. destruct (limit <=? a_active s) eqn:E2; simpl; lia.
  - pose proof (Forall_lookup_1 _ _ _ _ (ll_threads _ _ H) Ex) as [Hn Hn']. unfold park_step.
    destruct (_ && _) eqn:E1; [simpl; lia|]. case_match; simpl; lia.
  - destruct w; simpl; lia.
  - unfold release_lock. destruct (a_waiters s); simpl; lia.
  - unfold release_decide. case_match; simpl; rewrite ?grant_active; lia.
  - destruct (ll_mu _ _ H _ Ex) as [Hn Hn']. unfold wake_step.
    destruct (a_waiters s); simpl; [lia|]. destruct (_ && _) eqn:E1; simpl; [lia|].
    rewrite grant_active. simpl. lia.
  - rewrite Retire_active. lia.
Qed.

(** ** FIFO order *)

Definition before (t1 t2 : nat) (l : list nat) : Prop :=
  exists l1 l2 l3, l = l1 ++ t1 :: l2 ++ t2 :: l3.

(** Program points after the FIFO: a goroutine there never parks again. *)
Definition past (p : apc) : bool :=
  match p with
  | PIdle | PLoaded _ | PPark | PParkPol _ => false
  | p => negb (parked p)
  end.

Definition failed (p : apc) : Prop := exists e, p = PDone (Some e).

Lemma before_app t1 t2 l l' : before t1 t2 l -> before t1 t2 (l ++ l').
Proof.
  intros (l1 & l2 & l3 & ->). exists l1, l2, (l3 ++ l').
  rewrite <- !app_assoc. simpl. by rewrite <- app_assoc.
Qed.

Lemma before_filter t1 t2 t l :
  before t1 t2 l -> t <> t1 -> t <> t2 -> before t1 t2 (filter (fun u => u <> t) l).
Proof.
  intros (l1 & l2 & l3 & ->) H1 H2.
  exists (filter (fun u => u <> t) l1), (filter (fun u => u <> t) l2), (filter (fun u => u <> t) l3).
  rewrite list.filter_app, filter_cons_True by done.
  by rewrite list.filter_app, filter_cons_True.
Qed.

Lemma before_head t1 t2 t ws : before t1 t2 (t :: ws) -> NoDup (t :: ws) -> t <> t2.
Proof.
  intros (l1 & l2 & l3 & E) Hn ->. destruct l1 as [|x l1]; simplify_list_eq;
    apply list.NoDup_cons in Hn as [Hn _]; apply Hn; set_solver.
Qed.

(** How one step changes the FIFO and the goroutine it takes out of it. *)
Lemma exec_waiters s l s' :
  adm_ok s -> mu_ok s -> l <> ARetire -> admission_exec s l = Some s' ->
  a_waiters s' = a_waiters s \/
  (exists t, a_waiters s' = a_waiters s ++ [t]) \/
  (exists t p, a_waiters s' = filter (fun u => u <> t) (a_waiters s) /\
     a_threads s' !! t = Some p /\
     (failed p \/ (past p = true /\ exists ws, a_waiters s = t :: ws))).
Proof.
  intros [Hq Ha] Hmu Hl E.
  assert (G : forall s0 t ws, queue_ok s0 -> a_waiters s0 = t :: ws ->
    exists p, a_waiters (grantLocked s0) = filter (fun u => u <> t) (a_waiters s0) /\
      a_threads (grantLocked s0) !! t = Some p /\ past p = true /\ parked p = false).
  { intros s0 t ws Hq0 Hw. destruct (grant_unfold s0 t ws Hq0 Hw) as (p & Hp & Hk & ->).
    exists (mark_waiter waiterGranted p). split; [done|]. simpl.
    rewrite list_lookup_insert_eq by by eapply lookup_lt_Some.
    split; [done|]. destruct p as [| | | |pol w|w e| | | |]; try done; by destruct w. }
  destruct l; exec_inv E; simpl; auto; try done.
  - unfold acquire_step. repeat case_match; simpl; auto.
  - unfold park_step. repeat case_match; simpl; eauto.
  - destruct w; simpl; auto. right; right. exists t, (PDone (Some e)).
    rewrite list_lookup_insert_eq by by eapply lookup_lt_Some. split_and!; [done..|].
    left. by exists e.
  - unfold release_lock. destruct (a_waiters s) eqn:Hw; simpl; auto.
  - unfold release_decide. case_match; simpl; [|auto].
    destruct (a_waiters s) as [|t0 ws] eqn:Hw; [by apply (Hmu _ _ Ex) in Hw|].
    right; right. destruct (G s t0 ws Hq Hw) as (p & Gw & Gt & Gp & _).
    exists t0, p. rewrite Hw in Gw. split; [done|].
    assert (Hne : t <> t0).
    { intros ->. assert (H0 : t0 ∈ a_waiters s) by (rewrite Hw; left).
      by apply (q_parked _ Hq _ _ Ex0) in H0. }
    rewrite list_lookup_insert_ne by done. split; [done|]. right. eauto.
  - unfold wake_step. destruct (a_waiters s) as [|t0 ws] eqn:Hw; simpl; auto.
    case_match; simpl; [auto|].
    right; right.
    assert (Hq' : queue_ok (set_active (a_active s + 1) s)) by (apply (queue_frame s); auto).
    destruct (G _ t0 ws Hq' Hw) as (p & Gw & Gt & Gp & _).
    exists t0, p. simpl in Gw. rewrite Hw in Gw. split_and!; [done..|]. right. eauto.
Qed.

(** A goroutine past the FIFO stays past it, and a failed one stays failed. *)
Lemma past_not_parked p : past p = true -> parked p = false.
Proof. by destruct p as [| | | |pol []|[] e| | | |]. Qed.

Lemma grant_past s t p :
  queue_ok s -> a_threads s !! t = Some p -> past p = true ->
  a_threads (grantLocked s) !! t = Some p.
Proof.
  intros Hq Ht Hp. destruct (a_waiters s) as [|t0 ws] eqn:Hw.
  - unfold grantLocked. by rewrite Hw.
  - destruct (grant_unfold s t0 ws Hq Hw) as (p0 & Hp0 & Hk & ->). simpl.
    rewrite list_lookup_insert_ne; [done|]. intros ->.
    apply past_not_parked in Hp. congruence.
Qed.

Lemma set_thread_past t q s u p :
  a_threads s !! u = Some p -> past p = true -> (u = t -> past q = true) ->
  exists p', a_threads (set_thread t q s) !! u = Some p' /\ past p' = true /\ (u <> t -> p' = p).
Proof.
  intros Hu Hp Hq. simpl. destruct (decide (u = t)) as [->|Hne].
  - exists q. rewrite list_lookup_insert_eq by by eapply lookup_lt_Some.
    split_and!; [done|auto|done].
  - exists p. by rewrite list_lookup_insert_ne.
Qed.

(** The goroutine a step moves. *)
Definition label_thread (s : Admission) (l : alabel) : option nat :=
  match l with
  | AAcquire t | ATry t | AParkLoad t | AParkLock t | AReceive t | AGiveUp t _
  | AAbandonLock t | ARelease t | ARelLock t | ADec t => Some t
  | ARelDecide => match a_mu s with MuRelease t _ => Some t | _ => None end
  | _ => None
  end.

Lemma exec_past s l s' t p :
  adm_ok s -> l <> ARetire -> admission_exec s l = Some s' ->
  a_threads s !! t = Some p -> past p = true ->
  exists p', a_threads s' !! t = Some p' /\ past p' = true /\
    (label_thread s l <> Some t -> p' = p).
Proof.
  intros [Hq Ha] Hl E Ht Hp.
  assert (K : forall u q s0, a_threads s0 = a_threads s -> (t = u -> past q = true) ->
    exists p', a_threads (set_thread u q s0) !! t = Some p' /\ past p' = true /\
      (Some u <> Some t -> p' = p)).
  { intros u q s0 Es Hu. destruct (set_thread_past u q s0 t p) as (p' & H1 & H2 & H3);
      [by rewrite Es|done..|]. exists p'. split_and!; [done..|]. intros Hn. apply H3. congruence. }
  destruct l; exec_inv E; simpl; try done; eauto;
    try (apply K; [done|]; intros ->; by simplify_eq/=).
  - unfold acquire_step. repeat case_match; apply K; try done; intros ->; by simplify_eq/=.
  - unfold park_step. repeat case_match; apply K; try done; intros ->; by simplify_eq/=.
  - destruct w; apply K; done.
  - unfold release_lock. destruct (a_waiters s); [by apply K|]. simpl. eauto.
  - rewrite Ex. unfold release_decide. case_match; [|by apply K].
    destruct (set_thread_past t0 (PDone e) (grantLocked s) t p) as (p' & H1 & H2 & H3);
      [by apply grant_past|done..|].
    exists p'. split_and!; [done..|]. intros Hn. apply H3. congruence.
  - unfold wake_step. destruct (a_waiters s); [eauto|]. case_match; [eauto|].
    exists p. split_and!; [|done..].
    apply grant_past; [apply (queue_frame s); auto|done..].
Qed.

(** One step keeps [t2] behind [t1] as long as [t1] waits. *)
Definition ordered (t1 t2 : nat) (s : Admission) : Prop :=
  (t1 ∈ a_waiters s /\
     (before t1 t2 (a_waiters s) \/ exists p, a_threads s !! t2 = Some p /\ failed p)) \/
  (exists p, a_threads s !! t1 = Some p /\ past p = true).

Lemma failed_past p : failed p -> past p = true.
Proof. by intros [e ->]. Qed.

Lemma exec_failed s l s' t p :
  adm_ok s -> l <> ARetire -> admission_exec s l = Some s' ->
  a_threads s !! t = Some p -> failed p -> a_threads s' !! t = Some p.
Proof.
  intros H Hl E Ht Hf. pose proof (failed_past p Hf) as Hp.
  destruct (exec_past s l s' t p H Hl E Ht Hp) as (p' & Hp' & _ & Heq).
  rewrite Hp'. f_equal. apply Heq. destruct Hf as [e ->].
  intros El. destruct l; exec_inv E; simpl in El; simplify_eq.
  rewrite Ex in El. congruence.
Qed.

Lemma exec_ordered t1 t2 s l s' :
  adm_ok s -> mu_ok s -> l <> ARetire -> admission_exec s l = Some s' ->
  ordered t1 t2 s -> ordered t1 t2 s'.
Proof.
  intros H Hm Hl E [[Hin Ho]|(p & Hp & Hpast)].
  2: { right. destruct (exec_past s l s' t1 p H Hl E Hp Hpast) as (p' & ? & ? & _). eauto. }
  assert (Hf : (exists p, a_threads s !! t2 = Some p /\ failed p) ->
    exists p, a_threads s' !! t2 = Some p /\ failed p).
  { intros (p & Hp & Hf). exists p. split; [|done]. by eapply exec_failed. }
  unfold ordered. destruct (exec_waiters s l s' H Hm Hl E) as [->|[[t ->]|(t & p & -> & Ht & Hp)]].
  - left. split; [done|]. naive_solver.
  - left. split; [apply elem_of_app; auto|]. naive_solver eauto using before_app.
  - destruct (decide (t = t1)) as [->|Hn1].
    { right. exists p. split; [done|]. destruct Hp as [Hp|[Hp _]]; auto using failed_past. }
    left. split; [apply list_elem_of_filter; split; [congruence|done]|].
    destruct Ho as [Ho|Ho]; [|auto].
    destruct Hp as [Hp|[Hp [ws Hw]]].
    + destruct (decide (t = t2)) as [->|Hn2]; [eauto|]. left. by apply before_filter.
    + left. apply before_filter; [done..|].
      eapply before_head; rewrite <- Hw; [done|]. apply (q_nodup _ (proj1 H)).
Qed.

(** ** Properties *)

(** C2: as long as the pool is not closed, under every interleaving of
    goroutines, cancellations, timeouts and reloads, [active] is exactly the
    number of goroutines that hold or are returning a slot, [pending] is the
    length of the FIFO, and the FIFO holds each parked goroutine once and
    nothing else; so when every goroutine has returned, no slot is leaked. *)
Theorem admission_accounting pol n tr s :
  trace admission_exec (NewAdmission pol n) tr s -> ARetire ∉ tr ->
  a_active s = total charge (a_threads s) /\
  a_pending s = Z.of_nat (length (a_waiters s)) /\ NoDup (a_waiters s) /\
  (forall t p, a_threads s !! t = Some p -> (t ∈ a_waiters s <-> parked p = true)) /\
  (Forall (fun p => exists e, p = PDone e) (a_threads s) -> a_active s = 0).
Proof.
  intros T Hn. destruct (NewAdmission_ok pol n) as [Hq0 Ha0].
  destruct (trace_adm_ok _ _ _ T Hn (conj Hq0 Ha0) (NewAdmission_mu pol n)) as [Hq Ha].
  split_and!; try apply Hq; try apply Ha. intros Hd. rewrite (ac_active _ Ha).
  clear -Hd. induction Hd as [|p ts [e ->] _ IH]; simpl; lia.
Qed.

Lemma trace_limits L s tr s' :
  trace admission_exec s tr s' -> Forall (label_le L) tr -> limits_le L s ->
  a_active s' <= Z.max (a_active s) L.
Proof.
  induction 1 as [|s l s1 tr s2 E T IH]; intros Hf Hl; [lia|].
  apply list.Forall_cons in Hf as [Hl1 Hf].
  pose proof (exec_active L _ _ _ Hl E). pose proof (exec_limits L _ _ _ Hl Hl1 E) as Hl'.
  specialize (IH Hf Hl'). lia.
Qed.

(** With every configured limit in (0, L] and the pool not closed, no
    interleaving ever has more than [L] goroutines admitted. *)
Theorem admission_limit pol n L tr s :
  trace admission_exec (NewAdmission pol n) tr s -> ARetire ∉ tr ->
  limit_in L (maxActiveRequests pol) -> Forall (label_le L) tr ->
  total holding (a_threads s) <= a_active s <= L.
Proof.
  intros T Hn Hp Hf. destruct (NewAdmission_ok pol n) as [Hq0 Ha0].
  destruct (trace_adm_ok _ _ _ T Hn (conj Hq0 Ha0) (NewAdmission_mu pol n)) as [Hq Ha].
  split.
  - rewrite (ac_active _ Ha). apply total_le. by intros [| | | |? []|[] ?| | | |].
  - pose proof (trace_limits L _ _ _ T Hf) as Hb. simpl in Hb.
    unfold limit_in in Hp. rewrite Z.max_r in Hb by lia. apply Hb.
    split; simpl; [done| |constructor|done]. by apply Forall_replicate.
Qed.

(** Recovery after a limit decrease is monotonic.  From any state in which
    the limits already loaded are at most the new limit [L], [active] never
    rises above the larger of its current value and [L], whatever happens. *)
Theorem admission_drain_monotone L s tr s' :
  trace admission_exec s tr s' -> limits_le L s -> Forall (label_le L) tr ->
  a_active s' <= Z.max (a_active s) L.
Proof. intros. by eapply trace_limits. Qed.

(** The FIFO is strict.  If [t2] is queued behind [t1], then as long as
    [t1] still waits, [t2] is still behind it or has given up: it is never
    granted a slot first. *)
Theorem admission_fifo s tr s' t1 t2 :
  trace admission_exec s tr s' -> ARetire ∉ tr -> adm_ok s -> mu_ok s ->
  before t1 t2 (a_waiters s) -> t1 ∈ a_waiters s' ->
  before t1 t2 (a_waiters s') \/
  exists e, a_threads s' !! t2 = Some (PDone (Some e)).
Proof.
  intros T Hn H Hm Hb Hin.
  assert (Ho : ordered t1 t2 s).
  { left. split; [|auto]. destruct Hb as (l1 & l2 & l3 & ->). set_solver. }
  assert (HP : adm_ok s' /\ ordered t1 t2 s').
  { clear Hb Hin. induction T as [|s l s1 tr s2 E T IH]; [done|].
    apply not_elem_of_cons in Hn as [Hl Hn].
    apply IH; eauto using exec_adm_ok, exec_mu_ok, exec_ordered. }
  destruct HP as [[Hq _] [[_ Hord]|(p & Hp & Hpast)]].
  - destruct Hord as [?|(p & Hp & e & ->)]; eauto.
  - apply (q_parked _ Hq _ _ Hp) in Hin. apply past_not_parked in Hpast. congruence.
Qed.

(** C38: the hand-off can be lost.  [release] decrements [active] after it has
    left the lock, so a request that parks in between is not woken: with a
    limit of one and nobody closing or reconfiguring the pool, a run reaches a
    state in which no slot is in use, every other goroutine has returned, and
    the one request left is still parked with nothing to wake it. *)
Theorem admission_lost_wakeup :
  exists tr s, trace admission_exec (NewAdmission pol1 2) tr s /\ ARetire ∉ tr /\
    maxActiveRequests (a_policy s) = 1 /\ a_active s = 0 /\ a_waiters s = [1%nat] /\
    a_threads s = [PDone None; PWait pol1 waiterParked] /\
    (forall l s', admission_exec s l = Some s' ->
       (exists e, l = AGiveUp 1 e) \/ (exists p, l = ASetPolicy p) \/ l = ARetire).
Proof.
  pose (s := MkAdmission pol1 0 1 [1%nat] MuFree [] [PDone None; PWait pol1 waiterParked]).
  exists lost_wakeup_run, s. split; [by apply exec_trace_trace|].
  split; [apply (bool_decide_unpack _); by vm_compute|]. do 4 (split; [done|]).
  intros l s' E.
  destruct l as [[|[|t]]|[|[|t]]|[|[|t]]|[|[|t]]|[|[|t]]|[|[|t]] e|[|[|t]]|[|[|t]]|[|[|t]]
    | |[|[|t]]|p|[|i]| |]; simpl in E; try discriminate; eauto.
Qed.

(** Closing a pool breaks the accounting.  A waiter that [Retire] wakes
    was never charged, but if its context ends at the same moment [abandon]
    releases a slot on its behalf; a run with a limit of one then has two
    goroutines admitted at once. *)
Theorem admission_retire_overadmits :
  exists tr s, trace admission_exec (NewAdmission pol1 3) tr s /\
    maxActiveRequests (a_policy s) = 1 /\ total holding (a_threads s) = 2 /\ a_active s = 1.
Proof.
  pose (s := MkAdmission pol1 1 0 [] MuFree [] [PHold; PDone (Some ErrCtx); PHold]).
  exists retire_race_run, s. split; [by apply exec_trace_trace|done].
Qed.

(** ** Witnesses *)

(** Goroutine 0 is admitted; 1 and 2 queue behind it. *)
Definition pol2 : Policy := MkPolicy 1 0 2 0 0 0 0 0 0 0.

Definition queue_run : list alabel :=
  [AAcquire 0; ATry 0; AAcquire 1; ATry 1; AParkLoad 1; AParkLock 1;
   AAcquire 2; ATry 2; AParkLoad 2; AParkLock 2].

Definition queue_state : Admission :=
  MkAdmission pol2 1 2 [1%nat; 2%nat] MuFree []
    [PHold; PWait pol2 waiterParked; PWait pol2 waiterParked].

Lemma queue_trace : trace admission_exec (NewAdmission pol2 3) queue_run queue_state.
Proof. by apply exec_trace_trace. Qed.

Lemma queue_state_ok : adm_ok queue_state.
Proof.
  eapply trace_adm_ok; [exact queue_trace| |apply NewAdmission_ok|apply NewAdmission_mu].
  apply (bool_decide_unpack _). by vm_compute.
Qed.

Lemma admission_accounting_witness :
  a_active queue_state = total charge (a_threads queue_state).
Proof.
  apply (admission_accounting pol2 3 queue_run); [exact queue_trace|].
  apply (bool_decide_unpack _). by vm_compute.
Defined.

Lemma admission_limit_witness : total holding (a_threads queue_state) <= 1.
Proof.
  etransitivity; apply (admission_limit pol2 3 1 queue_run); try exact queue_trace;
    try (unfold limit_in; simpl; lia); try (repeat constructor);
    apply (bool_decide_unpack _); by vm_compute.
Defined.

(** Goroutines 0 and 1 were admitted under a limit of two, now lowered to one;
    2 is parked, and the releases hand nothing over until one slot is left. *)
Definition drain_state : Admission :=
  MkAdmission pol2 2 1 [2%nat] MuFree [1] [PHold; PHold; PWait pol2 waiterParked].

Definition drain_run : list alabel :=
  [AWakeLock 0; AWakeStep; ARelease 0; ARelLock 0; ARelDecide; ADec 0;
   ARelease 1; ARelLock 1; ARelDecide].

Lemma admission_drain_monotone_witness :
  exists s, trace admission_exec drain_state drain_run s /\ a_active s = 1 /\ a_active s <= 2.
Proof.
  eexists. split; [by apply exec_trace_trace|]. split; [reflexivity|].
  apply (admission_drain_monotone 1 drain_state drain_run); [by apply exec_trace_trace| |].
  - split; unfold limit_in; simpl; [lia| |repeat constructor; unfold limit_in; lia|done].
    repeat constructor.
  - repeat constructor.
Defined.

Lemma admission_fifo_witness :
  exists s, trace admission_exec queue_state [AGiveUp 2 ErrCtx; AAbandonLock 2] s /\
    (before 1 2 (a_waiters s) \/ exists e, a_threads s !! 2%nat = Some (PDone (Some e))).
Proof.
  eexists. split; [by apply exec_trace_trace|].
  apply (admission_fifo queue_state [AGiveUp 2 ErrCtx; AAbandonLock 2]); [by apply exec_trace_trace| |apply queue_state_ok| | |].
  - apply (bool_decide_unpack _). by vm_compute.
  - by intros t limit.
  - by exists [], [], [].
  - apply (bool_decide_unpack _). by vm_compute.
Defined.
