(* ===== verification/Affinity.v ===== *)
(** * Rendezvous hashing (src/internal/affinity)

    [affinity.go]: the 64-bit hash, the integer logarithm, the candidate order
    [Better] and [Rank]; [key.go]: the keys extracted from headers and
    cookies.  All arithmetic is on [Z] with [u64] wherever Go's [uint64]
    arithmetic could wrap. *)

From S2P Require Import Prelude GoStrings Bytes Netip.

(** ** Hashing *)

Definition fnvOffset64 : Z := 14695981039346656037.
Definition fnvPrime64 : Z := 1099511628211.

Definition fmix64 (h : Z) : Z :=
  let h := Z.lxor h (Z.shiftr h 33) in
  let h := u64 (h * 0xff51afd7ed558ccd) in
  let h := Z.lxor h (Z.shiftr h 33) in
  let h := u64 (h * 0xc4ceb9fe1a85ec53) in
  Z.lxor h (Z.shiftr h 33).

Definition fnv_step (h c : Z) : Z := u64 (Z.lxor h c * fnvPrime64).

Definition Sum (s : gostring) : Z := fmix64 (fold_left fnv_step s fnvOffset64).

Definition Score (key backend : Z) : Z := fmix64 (Z.lxor key backend).

(** ** The fixed-point logarithm *)

Definition LeadingZeros64 (x : Z) : Z := if x =? 0 then 64 else 63 - Z.log2 x.

Definition negLog2Frac : Z := 32.
Definition log2TableBits : Z := 10.

(** [bits.Mul64]: the high and low words of the product. *)
Definition Mul64 (x y : Z) : Z * Z := (x * y / 2 ^ 64, (x * y) mod 2 ^ 64).

(** The loop of [log2Exact], on the mantissa and the fraction so far. *)
Fixpoint log2_loop (n : nat) (m frac : Z) : Z :=
  match n with
  | O => frac
  | S n =>
      let '(hi, lo) := Mul64 m m in
      let m := Z.lor (u64 (Z.shiftl hi 2)) (Z.shiftr lo 62) in
      let frac := u64 (Z.shiftl frac 1) in
      if 2 ^ 63 <=? m then log2_loop n (Z.shiftr m 1) (Z.lor frac 1)
      else log2_loop n m frac
  end.

Definition log2Exact (x : Z) : Z :=
  let msb := 63 - LeadingZeros64 x in
  let m := Z.shiftr (u64 (Z.shiftl x (63 - msb))) 1 in
  Z.lor (u64 (Z.shiftl msb negLog2Frac)) (log2_loop (Z.to_nat negLog2Frac) m 0).

(** The table as the function of its index that fills it, for indices in
    [0, 2^log2TableBits]. *)
Definition log2Table (i : Z) : Z :=
  u64 (log2Exact (2 ^ log2TableBits + i) - Z.shiftl log2TableBits negLog2Frac).

Definition negLog2 (h : Z) : Z :=
  let x := Z.lor h 1 in
  let lz := LeadingZeros64 x in
  let m := u64 (Z.shiftl x lz) in
  let i := Z.land (Z.shiftr m (63 - log2TableBits)) (2 ^ log2TableBits - 1) in
  let r := Z.shiftr (u64 (Z.shiftl m (log2TableBits + 1))) (64 - negLog2Frac) in
  let lo := log2Table i in
  let hi := log2Table (i + 1) in
  let frac := u64 (lo + Z.shiftr (u64 (u64 (hi - lo) * r)) negLog2Frac) in
  u64 (Z.shiftl 64 negLog2Frac - u64 (u64 (Z.shiftl (63 - lz) negLog2Frac) + frac)).

(** ** Backend identities *)

(** Host names are lowered as ASCII; other bytes are left as they are. *)
Definition Identity (network address : gostring) : gostring :=
  if bool_decide (network = str "unix") then str "unix:" ++ address
  else match SplitHostPort address with
  | None => lower_ascii address
  | Some (host, port) =>
      let port := match ParseUint port 16 with Some p => FormatUint p | None => port end in
      match ParseAddr host with
      | Some a =>
          let zone := Zone a in
          let a := Unmap a in
          let a := if negb (bool_decide (zone = [])) && Is6 a then WithZone a zone else a in
          JoinHostPort (addr_string a) port
      | None => JoinHostPort (TrimSuffix (lower_ascii host) (str ".")) port
      end
  end.

(** ** The candidate order *)

Record Candidate := MkCandidate { c_Identity : gostring; c_Sum : Z; Weight : Z }.

Definition clampWeight (w : Z) : Z := if w <? 1 then 1 else w.

Definition NewCandidate (network address : gostring) (weight : Z) : Candidate :=
  let id := Identity network address in
  MkCandidate id (Sum id) (clampWeight weight).

Definition Better (key : Z) (a b : Candidate) : bool :=
  let sa := Score key (c_Sum a) in
  let sb := Score key (c_Sum b) in
  let tail := if negb (sa =? sb) then sb <? sa else string_ltb (c_Identity a) (c_Identity b) in
  if negb (Weight a =? Weight b) then
    let la := negLog2 sa in
    let lb := negLog2 sb in
    let '(ahi, alo) := Mul64 (u64 (clampWeight (Weight a))) lb in
    let '(bhi, blo) := Mul64 (u64 (clampWeight (Weight b))) la in
    if negb (ahi =? bhi) then bhi <? ahi
    else if negb (alo =? blo) then blo <? alo
    else tail
  else tail.

(** [Rank]: insertion sort of the indices, by swaps from the right. *)
Definition cand_at (cs : list Candidate) (i : nat) : Candidate :=
  default (MkCandidate [] 0 0) (cs !! i).

Definition swap_at (order : list nat) (j : nat) : list nat :=
  match order !! j, order !! (j - 1)%nat with
  | Some x, Some y => <[(j - 1)%nat := x]> (<[j := y]> order)
  | _, _ => order
  end.

Fixpoint rank_inner (key : Z) (cs : list Candidate) (j : nat) (order : list nat) : list nat :=
  match j with
  | O => order
  | S j' =>
      match order !! j, order !! j' with
      | Some x, Some y =>
          if Better key (cand_at cs x) (cand_at cs y)
          then rank_inner key cs j' (swap_at order j) else order
      | _, _ => order
      end
  end.

Definition Rank (key : Z) (cs : list Candidate) : list nat :=
  fold_left (fun order i => rank_inner key cs i order) (seq 1 (length cs - 1))
    (seq 0 (length cs)).

(** ** Keys ([key.go]) *)

Inductive Status := StatusNone | StatusHashed | StatusMissing | StatusInvalid.

#[export] Instance Status_eq_dec : EqDecision Status.
Proof. solve_decision. Defined.

Record Key := MkKey { k_sum : Z; k_status : Status }.

Definition Hashed (k : Key) : bool := bool_decide (k_status k = StatusHashed).

Definition KeyOf (material : gostring) : Key := MkKey (Sum material) StatusHashed.

Definition MaxKeyBytes : Z := 256.

Definition valueKey (v : gostring) : Key :=
  if bool_decide (v = []) then MkKey 0 StatusMissing
  else if MaxKeyBytes <? Z.of_nat (length v) then MkKey 0 StatusInvalid
  else MkKey (Sum v) StatusHashed.

Definition headerKey (values : list gostring) : Key :=
  match values with
  | [] => MkKey 0 StatusMissing
  | [v] => valueKey (Trim blank v)
  | _ => MkKey 0 StatusInvalid
  end.

(** [';'], ['='] and the double quote. *)
Definition semicolon : Z := 59.
Definition equals : Z := 61.
Definition dquote : Z := 34.

Definition unquote (v : gostring) : gostring :=
  if (2 <=? Z.of_nat (length v)) && bool_decide (head v = Some dquote)
     && bool_decide (last v = Some dquote)
  then take (length v - 2) (drop 1 v) else v.

(** One name-value pair of a [Cookie] line. *)
Definition cookie_part (name part : gostring) : option gostring :=
  let '(k, v, ok) := CutByte (Trim blank part) equals in
  if negb ok || negb (bool_decide (k = name)) then None else Some (unquote v).

(** The inner loop over one line; the line shortens at every turn, so its
    length bounds the turns. *)
Fixpoint cookie_line (fuel : nat) (name line : gostring) : option gostring :=
  match fuel with
  | O => None
  | S fuel =>
      if bool_decide (line = []) then None
      else
        let '(part, rest, _) := CutByte line semicolon in
        match cookie_part name part with
        | Some v => Some v
        | None => cookie_line fuel name rest
        end
  end.

Fixpoint cookieKey (lines : list gostring) (name : gostring) : Key :=
  match lines with
  | [] => MkKey 0 StatusMissing
  | line :: lines =>
      match cookie_line (length line) name line with
      | Some v => valueKey v
      | None => cookieKey lines name
      end
  end.

(** ** [fmix64] is a bijection *)

(** The inverses modulo 2^64 of the two multipliers. *)
Definition unfmix64 (h : Z) : Z :=
  let h := Z.lxor h (Z.shiftr h 33) in
  let h := u64 (h * 0x9cb4b2f8129337db) in
  let h := Z.lxor h (Z.shiftr h 33) in
  let h := u64 (h * 0x4f74430c22a54005) in
  Z.lxor h (Z.shiftr h 33).

Definition xorshift (h : Z) : Z := Z.lxor h (Z.shiftr h 33).

Lemma lxor_u64 a b : 0 <= a < 2 ^ 64 -> 0 <= b < 2 ^ 64 -> 0 <= Z.lxor a b < 2 ^ 64.
Proof.
  intros Ha Hb. split; [apply Z.lxor_nonneg; lia|].
  destruct (decide (Z.lxor a b = 0)) as [->|Hn]; [lia|].
  apply Z.log2_lt_pow2; [pose proof (proj2 (Z.lxor_nonneg a b)); lia|].
  eapply Z.le_lt_trans; [apply Z.log2_lxor; lia|].
  apply Z.max_lub_lt.
  - destruct (decide (a = 0)) as [->|]; [done|]. apply Z.log2_lt_pow2; lia.
  - destruct (decide (b = 0)) as [->|]; [done|]. apply Z.log2_lt_pow2; lia.
Qed.

Lemma shiftr_u64 a n : 0 <= n -> 0 <= a < 2 ^ 64 -> 0 <= Z.shiftr a n < 2 ^ 64.
Proof.
  intros Hn Ha. rewrite Z.shiftr_div_pow2 by done. pose proof (Z.pow_pos_nonneg 2 n).
  split; [apply Z.div_pos; lia|]. eapply Z.le_lt_trans; [|apply Ha]. apply Z.div_le_upper_bound; nia.
Qed.

Lemma xorshift_range h : 0 <= h < 2 ^ 64 -> 0 <= xorshift h < 2 ^ 64.
Proof. intros. apply lxor_u64; [done|]. by apply shiftr_u64. Qed.

Lemma xorshift_involutive h : 0 <= h < 2 ^ 64 -> xorshift (xorshift h) = h.
Proof.
  intros Hh. unfold xorshift. rewrite Z.shiftr_lxor, Z.shiftr_shiftr by lia.
  replace (Z.shiftr h (33 + 33)) with 0.
  - by rewrite Z.lxor_0_r, Z.lxor_assoc, Z.lxor_nilpotent, Z.lxor_0_r.
  - symmetry. rewrite Z.shiftr_div_pow2 by lia. apply Z.div_small. lia.
Qed.

Lemma u64_mul_inv h c d : 0 <= h < 2 ^ 64 -> (c * d) mod 2 ^ 64 = 1 -> u64 (u64 (h * c) * d) = h.
Proof.
  intros Hh Hc. unfold u64, wrap. rewrite Z.mul_mod_idemp_l by lia.
  replace (h * c * d) with (h * (c * d)) by lia.
  rewrite <- Z.mul_mod_idemp_r, Hc, Z.mul_1_r by lia. by apply Z.mod_small.
Qed.

Lemma fmix64_range h : 0 <= h < 2 ^ 64 -> 0 <= fmix64 h < 2 ^ 64.
Proof. intros. apply xorshift_range, u64_range. Qed.

Lemma unfmix64_fmix64 h : 0 <= h < 2 ^ 64 -> unfmix64 (fmix64 h) = h.
Proof.
  intros Hh. unfold unfmix64, fmix64. fold (xorshift h).
  pose proof (xorshift_range _ Hh) as H1. set (h1 := xorshift h) in *.
  set (h2 := u64 (h1 * _)). fold (xorshift h2).
  set (h3 := u64 (xorshift h2 * _)). fold (xorshift h3). fold (xorshift (xorshift h3)).
  rewrite xorshift_involutive by apply u64_range. unfold h3.
  rewrite u64_mul_inv; [|apply xorshift_range, u64_range|reflexivity].
  fold (xorshift (xorshift h2)). rewrite xorshift_involutive by apply u64_range. unfold h2.
  rewrite u64_mul_inv by done. by apply xorshift_involutive.
Qed.

Lemma fmix64_unfmix64 h : 0 <= h < 2 ^ 64 -> fmix64 (unfmix64 h) = h.
Proof.
  intros Hh. unfold unfmix64, fmix64. fold (xorshift h).
  pose proof (xorshift_range _ Hh) as H1. set (h1 := xorshift h) in *.
  set (h2 := u64 (h1 * _)). fold (xorshift h2).
  set (h3 := u64 (xorshift h2 * _)). fold (xorshift h3). fold (xorshift (xorshift h3)).
  rewrite xorshift_involutive by apply u64_range. unfold h3.
  rewrite u64_mul_inv; [|apply xorshift_range, u64_range|reflexivity].
  fold (xorshift (xorshift h2)). rewrite xorshift_involutive by apply u64_range. unfold h2.
  rewrite u64_mul_inv by done. by apply xorshift_involutive.
Qed.

Lemma fmix64_inj h k : 0 <= h < 2 ^ 64 -> 0 <= k < 2 ^ 64 -> fmix64 h = fmix64 k -> h = k.
Proof.
  intros Hh Hk E. by rewrite <- (unfmix64_fmix64 h Hh), <- (unfmix64_fmix64 k Hk), E.
Qed.

Lemma Score_inj key a b :
  0 <= key < 2 ^ 64 -> 0 <= a < 2 ^ 64 -> 0 <= b < 2 ^ 64 ->
  Score key a = Score key b -> a = b.
Proof.
  intros Hk Ha Hb E. apply fmix64_inj in E; try by apply lxor_u64.
  apply (f_equal (Z.lxor key)) in E. by rewrite <- !Z.lxor_assoc, !Z.lxor_nilpotent, !Z.lxor_0_l in E.
Qed.

Lemma Score_range key a : 0 <= key < 2 ^ 64 -> 0 <= a < 2 ^ 64 -> 0 <= Score key a < 2 ^ 64.
Proof. intros. apply fmix64_range. by apply lxor_u64. Qed.

(** ** The logarithm: range and monotonicity *)

Lemma square_word m :
  2 ^ 62 <= m < 2 ^ 63 ->
  Z.lor (u64 (Z.shiftl (m * m / 2 ^ 64) 2)) (Z.shiftr ((m * m) mod 2 ^ 64) 62) = m * m / 2 ^ 62.
Proof.
  intros Hm. assert (0 <= m * m / 2 ^ 64 < 2 ^ 62) as Hd.
  { split; [apply Z.div_pos; lia|]. apply Z.div_lt_upper_bound; nia. }
  rewrite Z.shiftl_mul_pow2, u64_small, Z.shiftr_div_pow2, lor_disjoint; try lia.
  - clear Hd Hm. generalize (m * m). intros x.
    apply (Z.div_unique x _ _ ((x mod 2 ^ 64) mod 2 ^ 62)).
    + left. apply Z.mod_pos_bound. lia.
    + pose proof (Z.div_mod x (2 ^ 64)). pose proof (Z.div_mod (x mod 2 ^ 64) (2 ^ 62)). lia.
  - pose proof (Z.mod_pos_bound (m * m) (2 ^ 64)).
    split; [apply Z.div_pos|apply Z.div_lt_upper_bound]; lia.
Qed.

(** One turn of the loop: square the mantissa, move its integer bit out. *)
Lemma loop_step n m frac :
  2 ^ 62 <= m < 2 ^ 63 -> 0 <= frac < 2 ^ 63 ->
  log2_loop (S n) m frac =
  let m' := m * m / 2 ^ 62 in
  if 2 ^ 63 <=? m' then log2_loop n (m' / 2) (2 * frac + 1) else log2_loop n m' (2 * frac).
Proof.
  intros Hm Hf. cbn [log2_loop]. unfold Mul64. rewrite square_word by done.
  rewrite Z.shiftl_mul_pow2, u64_small, Z.shiftr_div_pow2 by lia.
  rewrite (lor_disjoint frac 1 1) by lia. change (2 ^ 1) with 2.
  by replace (frac * 2) with (2 * frac) by lia.
Qed.

Lemma square_bounds m :
  2 ^ 62 <= m < 2 ^ 63 -> 2 ^ 62 <= m * m / 2 ^ 62 < 2 ^ 64.
Proof.
  intros Hm. split; [apply Z.div_le_lower_bound; nia|apply Z.div_lt_upper_bound; nia].
Qed.

Lemma loop_range n m frac :
  2 ^ 62 <= m < 2 ^ 63 -> 0 <= frac -> (frac + 1) * 2 ^ Z.of_nat n <= 2 ^ 63 ->
  frac * 2 ^ Z.of_nat n <= log2_loop n m frac < (frac + 1) * 2 ^ Z.of_nat n.
Proof.
  revert m frac. induction n as [|n IH]; intros m frac Hm Hf Hb.
  - cbn [log2_loop]. change (2 ^ Z.of_nat 0) with 1. lia.
  - rewrite Nat2Z.inj_succ, Z.pow_succ_r in * by lia.
    pose proof (Z.pow_pos_nonneg 2 (Z.of_nat n)).
    rewrite loop_step by nia. pose proof (square_bounds m Hm). cbv zeta.
    generalize dependent (m * m / 2 ^ 62). intros q Hq.
    destruct (2 ^ 63 <=? q) eqn:E.
    + destruct (IH (q / 2) (2 * frac + 1)); [zlia|lia..].
    + destruct (IH q (2 * frac)); lia.
Qed.

Lemma loop_mono n m1 m2 frac :
  2 ^ 62 <= m1 -> m1 <= m2 -> m2 < 2 ^ 63 -> 0 <= frac ->
  (frac + 1) * 2 ^ Z.of_nat n <= 2 ^ 63 ->
  log2_loop n m1 frac <= log2_loop n m2 frac.
Proof.
  revert m1 m2 frac. induction n as [|n IH]; intros m1 m2 frac H1 H12 H2 Hf Hb; [done|].
  rewrite Nat2Z.inj_succ, Z.pow_succ_r in * by lia.
  pose proof (Z.pow_pos_nonneg 2 (Z.of_nat n)).
  rewrite !loop_step by nia. cbv zeta.
  pose proof (square_bounds m1). pose proof (square_bounds m2).
  assert (m1 * m1 / 2 ^ 62 <= m2 * m2 / 2 ^ 62) by (apply Z.div_le_mono; nia).
  generalize dependent (m1 * m1 / 2 ^ 62). generalize dependent (m2 * m2 / 2 ^ 62).
  intros q2 Hq2 q1 Hq1 Hq.
  destruct (2 ^ 63 <=? q1) eqn:E1, (2 ^ 63 <=? q2) eqn:E2; try lia.
  - apply IH; [zlia|by apply Z.div_le_mono|zlia|lia..].
  - destruct (loop_range n q1 (2 * frac)); [lia..|].
    destruct (loop_range n (q2 / 2) (2 * frac + 1)); [zlia|lia..].
  - apply IH; lia.
Qed.

Lemma log2Table_loop i :
  0 <= i < 1024 -> log2Table i = log2_loop 32 ((1024 + i) * 2 ^ 52) 0.
Proof.
  intros Hi. unfold log2Table, log2Exact, LeadingZeros64, negLog2Frac, log2TableBits.
  change (2 ^ 10) with 1024. rewrite (proj2 (Z.eqb_neq _ _)) by lia.
  assert (Z.log2 (1024 + i) = 10) as -> by (apply Z.log2_unique; lia).
  change (63 - (63 - (63 - 10))) with 53. change (63 - (63 - 10)) with 10.
  change (Z.shiftl 10 32) with (10 * 2 ^ 32).
  rewrite Z.shiftl_mul_pow2 by lia.
  rewrite (u64_small ((1024 + i) * 2 ^ 53)), Z.shiftr_div_pow2, (u64_small (10 * 2 ^ 32)) by lia.
  replace ((1024 + i) * 2 ^ 53 / 2 ^ 1) with ((1024 + i) * 2 ^ 52)
    by (apply Z.div_unique_exact; lia).
  change (Z.to_nat 32) with 32%nat.
  destruct (loop_range 32 ((1024 + i) * 2 ^ 52) 0); [lia..|].
  rewrite lor_disjoint by lia. rewrite u64_small; lia.
Qed.

Lemma log2Table_last : log2Table 1024 = 2 ^ 32.
Proof. reflexivity. Qed.

Lemma log2Table_range i : 0 <= i < 1024 -> 0 <= log2Table i < 2 ^ 32.
Proof.
  intros Hi. rewrite log2Table_loop by done.
  destruct (loop_range 32 ((1024 + i) * 2 ^ 52) 0); lia.
Qed.

Lemma log2Table_mono i j : 0 <= i <= j -> j <= 1024 -> log2Table i <= log2Table j.
Proof.
  intros Hi Hj. destruct (decide (i = 1024)) as [->|Hn1]; [by replace j with 1024 by lia|].
  destruct (decide (j = 1024)) as [->|Hn2].
  - pose proof (log2Table_range i). rewrite log2Table_last. lia.
  - rewrite !log2Table_loop by lia. apply loop_mono; lia.
Qed.

(** The interpolated fraction at a 42-bit position of the mantissa. *)
Definition interp (q : Z) : Z :=
  let lo := log2Table (q / 2 ^ 32) in
  lo + (log2Table (q / 2 ^ 32 + 1) - lo) * (q mod 2 ^ 32) / 2 ^ 32.

Lemma interp_segment q :
  0 <= q < 2 ^ 42 -> log2Table (q / 2 ^ 32) <= interp q <= log2Table (q / 2 ^ 32 + 1) /\
  (interp q < log2Table (q / 2 ^ 32 + 1) \/ interp q = log2Table (q / 2 ^ 32)).
Proof.
  intros Hq. assert (0 <= q / 2 ^ 32 < 1024) as Hi by zlia.
  pose proof (Z.mod_pos_bound q (2 ^ 32) ltac:(lia)) as Hr.
  pose proof (log2Table_mono (q / 2 ^ 32) (q / 2 ^ 32 + 1)) as Hm. unfold interp.
  generalize dependent (log2Table (q / 2 ^ 32 + 1)). generalize (log2Table (q / 2 ^ 32)).
  intros lo hi Hm. specialize (Hm ltac:(lia) ltac:(lia)).
  generalize dependent (q mod 2 ^ 32). intros r Hr.
  assert (0 <= (hi - lo) * r / 2 ^ 32) by (apply Z.div_pos; nia).
  destruct (decide (hi = lo)) as [->|Hn].
  - rewrite Z.sub_diag, Z.mul_0_l, Zdiv_0_l. lia.
  - assert ((hi - lo) * r / 2 ^ 32 < hi - lo) by (apply Z.div_lt_upper_bound; nia). lia.
Qed.

Lemma interp_range q : 0 <= q < 2 ^ 42 -> 0 <= interp q < 2 ^ 32.
Proof.
  intros Hq. assert (0 <= q / 2 ^ 32 < 1024) as Hi by zlia.
  destruct (interp_segment q Hq) as [[H1 H2] H3]. pose proof (log2Table_range _ Hi).
  pose proof (log2Table_mono (q / 2 ^ 32 + 1) 1024) as Hm. rewrite log2Table_last in Hm. lia.
Qed.

Lemma interp_mono q1 q2 : 0 <= q1 <= q2 -> q2 < 2 ^ 42 -> interp q1 <= interp q2.
Proof.
  intros H1 H2. assert (q1 / 2 ^ 32 <= q2 / 2 ^ 32 < 1024) as Hi by (split; [apply Z.div_le_mono|]; zlia).
  destruct (decide (q1 / 2 ^ 32 = q2 / 2 ^ 32)) as [E|Hn].
  - assert (q1 mod 2 ^ 32 <= q2 mod 2 ^ 32) as Hr by zlia.
    pose proof (log2Table_mono (q2 / 2 ^ 32) (q2 / 2 ^ 32 + 1)) as Hm.
    unfold interp. rewrite E. apply Z.add_le_mono_l, Z.div_le_mono; [lia|].
    apply Z.mul_le_mono_nonneg_l; [|done].
    specialize (Hm ltac:(zlia) ltac:(lia)). lia.
  - destruct (interp_segment q1) as [[_ H] _]; [lia|].
    destruct (interp_segment q2) as [[H' _] _]; [lia|].
    etransitivity; [exact H|]. etransitivity; [|exact H'].
    apply log2Table_mono; zlia.
Qed.

Lemma lor_1 h : Z.lor h 1 = 2 * (h / 2) + 1.
Proof.
  pose proof (Z.div_mod h 2 ltac:(lia)) as E. pose proof (lor_disjoint (h / 2) 1 1) as D.
  change (2 ^ 1) with 2 in D. rewrite (Z.mul_comm 2), <- D by lia.
  assert (h mod 2 = 0 \/ h mod 2 = 1) as [E0|E0] by zlia; rewrite E0 in E.
  - by replace (h / 2 * 2) with h by lia.
  - replace h with (Z.lor (h / 2 * 2) 1) at 1 by (rewrite D; lia).
    by rewrite <- Z.lor_assoc, Z.lor_diag.
Qed.

(** The 42 mantissa bits below the leading one. *)
Definition mantissa (x : Z) : Z := x * 2 ^ (63 - Z.log2 x) / 2 ^ 21 - 2 ^ 42.

Lemma mantissa_word x :
  1 <= x < 2 ^ 64 -> 2 ^ 63 <= x * 2 ^ (63 - Z.log2 x) < 2 ^ 64.
Proof.
  intros Hx. pose proof (Z.log2_spec x ltac:(lia)) as [H1 H2].
  pose proof (Z.log2_nonneg x). assert (Z.log2 x < 64) by (apply Z.log2_lt_pow2; lia).
  rewrite Z.pow_succ_r in H2 by lia.
  assert (2 ^ 63 = 2 ^ Z.log2 x * 2 ^ (63 - Z.log2 x)) as E by (rewrite <- Z.pow_add_r; f_equal; lia).
  pose proof (Z.pow_pos_nonneg 2 (63 - Z.log2 x) ltac:(lia) ltac:(lia)).
  change (2 ^ 64) with (2 * 2 ^ 63). rewrite E. nia.
Qed.

Lemma mantissa_range x : 1 <= x < 2 ^ 64 -> 0 <= mantissa x < 2 ^ 42.
Proof. intros Hx. pose proof (mantissa_word x Hx). unfold mantissa. zlia. Qed.

(** [negLog2] without its bit manipulation. *)
Lemma negLog2_eq h :
  0 <= h < 2 ^ 64 ->
  let x := 2 * (h / 2) + 1 in
  negLog2 h = 64 * 2 ^ 32 - (Z.log2 x * 2 ^ 32 + interp (mantissa x)).
Proof.
  intros Hh x. assert (1 <= x < 2 ^ 64) as Hx by (subst x; zlia).
  assert (0 <= Z.log2 x < 64) as Hl by (split; [apply Z.log2_nonneg|apply Z.log2_lt_pow2; lia]).
  unfold negLog2, LeadingZeros64, negLog2Frac, log2TableBits. rewrite lor_1. fold x.
  rewrite (proj2 (Z.eqb_neq x 0)) by lia. replace (63 - (63 - Z.log2 x)) with (Z.log2 x) by lia.
  rewrite (Z.shiftl_mul_pow2 x) by lia.
  pose proof (mantissa_word x Hx) as Hm. pose proof (mantissa_range x Hx) as Hq.
  unfold mantissa in *. generalize dependent (x * 2 ^ (63 - Z.log2 x)). intros m Hm Hq.
  rewrite (u64_small m) by lia.
  set (q := m / 2 ^ 21 - 2 ^ 42) in *.
  assert (Z.land (Z.shiftr m (63 - 10)) (2 ^ 10 - 1) = q / 2 ^ 32) as ->.
  { rewrite Z.shiftr_div_pow2 by lia. change (2 ^ 10 - 1) with (Z.ones 10).
    rewrite Z.land_ones by lia. change (63 - 10) with 53. subst q. zlia. }
  assert (Z.shiftr (u64 (Z.shiftl m (10 + 1))) (64 - 32) = q mod 2 ^ 32) as ->.
  { rewrite Z.shiftl_mul_pow2, Z.shiftr_div_pow2 by lia. unfold u64, wrap.
    change (10 + 1) with 11. change (64 - 32) with 32. subst q. zlia. }
  pose proof (Z.mod_pos_bound q (2 ^ 32) ltac:(lia)) as Hr.
  pose proof (interp_range q Hq) as HF. assert (0 <= q / 2 ^ 32 < 1024) as Hi by zlia.
  pose proof (log2Table_range _ Hi) as Hlo.
  pose proof (log2Table_mono (q / 2 ^ 32) (q / 2 ^ 32 + 1) ltac:(lia) ltac:(lia)) as Hm1.
  pose proof (log2Table_mono (q / 2 ^ 32 + 1) 1024 ltac:(lia) ltac:(lia)) as Hm2.
  rewrite log2Table_last in Hm2. unfold interp in *.
  generalize dependent (log2Table (q / 2 ^ 32 + 1)). generalize dependent (log2Table (q / 2 ^ 32)).
  intros lo Hlo hi. intros. generalize dependent (q mod 2 ^ 32). intros r Hr HF.
  rewrite (u64_small (hi - lo)), (u64_small ((hi - lo) * r)), Z.shiftr_div_pow2 by nia.
  rewrite !Z.shiftl_mul_pow2 by lia.
  rewrite (u64_small (lo + _)), (u64_small (Z.log2 x * _)) by lia.
  rewrite (u64_small (_ + _)), u64_small; lia.
Qed.

Lemma negLog2_range h : 0 <= h < 2 ^ 64 -> 0 < negLog2 h <= 2 ^ 38.
Proof.
  intros Hh. rewrite negLog2_eq by done. cbv zeta. set (x := 2 * (h / 2) + 1).
  assert (1 <= x < 2 ^ 64) as Hx by (subst x; zlia).
  assert (0 <= Z.log2 x < 64) as Hl by (split; [apply Z.log2_nonneg|apply Z.log2_lt_pow2; lia]).
  pose proof (interp_range _ (mantissa_range x Hx)). lia.
Qed.

Lemma negLog2_antitone h k : 0 <= h <= k -> k < 2 ^ 64 -> negLog2 k <= negLog2 h.
Proof.
  intros Hh Hk. rewrite !negLog2_eq by lia. cbv zeta.
  set (x := 2 * (h / 2) + 1). set (y := 2 * (k / 2) + 1).
  assert (1 <= x <= y) as Hxy by (subst x y; zlia). assert (y < 2 ^ 64) as Hy by (subst y; zlia).
  pose proof (Z.log2_le_mono x y ltac:(lia)) as Hl.
  pose proof (mantissa_range x ltac:(lia)) as Hqx. pose proof (mantissa_range y ltac:(lia)) as Hqy.
  pose proof (interp_range _ Hqx). pose proof (interp_range _ Hqy).
  destruct (decide (Z.log2 x = Z.log2 y)) as [E|Hn]; [|lia].
  assert (interp (mantissa x) <= interp (mantissa y)); [|lia].
  apply interp_mono; [|lia]. split; [lia|]. unfold mantissa. rewrite E.
  apply Z.sub_le_mono_r, Z.div_le_mono; [lia|]. apply Z.mul_le_mono_nonneg_r; lia.
Qed.

(** ** The order [Better] decides *)

(** The reference order: greater weight per unit of [-log2], then greater
    score, then smaller identity. *)
Definition outranks (key : Z) (a b : Candidate) : Prop :=
  let sa := Score key (c_Sum a) in
  let sb := Score key (c_Sum b) in
  let pa := clampWeight (Weight a) * negLog2 sb in
  let pb := clampWeight (Weight b) * negLog2 sa in
  pb < pa \/ (pa = pb /\ (sb < sa \/ (sa = sb /\ string_ltb (c_Identity a) (c_Identity b) = true))).

(** A candidate as [NewCandidate] and [affinityCandidate] build it: its sum is
    the hash of its identity, its weight a Go [int]. *)
Record cand_ok (c : Candidate) : Prop := {
  co_sum : c_Sum c = Sum (c_Identity c);
  co_weight : Weight c <= max_int64
}.

Lemma fnv_range s h : 0 <= h < 2 ^ 64 -> 0 <= fold_left fnv_step s h < 2 ^ 64.
Proof. revert h. induction s as [|c s IH]; intros h Hh; simpl; [done|]. apply IH, u64_range. Qed.

Lemma Sum_range s : 0 <= Sum s < 2 ^ 64.
Proof. apply fmix64_range, fnv_range. unfold fnvOffset64. lia. Qed.

Lemma clampWeight_pos w : 1 <= clampWeight w.
Proof. unfold clampWeight. destruct (w <? 1) eqn:E; lia. Qed.

Section Order.
Context (key : Z) (Hkey : 0 <= key < 2 ^ 64).

Lemma cand_score a : cand_ok a -> 0 <= Score key (c_Sum a) < 2 ^ 64.
Proof. intros [-> _]. apply Score_range; [done|apply Sum_range]. Qed.

Lemma cand_log a : cand_ok a -> 0 < negLog2 (Score key (c_Sum a)) <= 2 ^ 38.
Proof. intros H. by apply negLog2_range, cand_score. Qed.

Lemma Mul64_compare x y b :
  (let '(ahi, alo) := (x / 2 ^ 64, x mod 2 ^ 64) in
   let '(bhi, blo) := (y / 2 ^ 64, y mod 2 ^ 64) in
   if negb (ahi =? bhi) then bhi <? ahi
   else if negb (alo =? blo) then blo <? alo else b) = true <->
  y < x \/ (x = y /\ b = true).
Proof.
  cbv beta iota zeta. destruct (x / 2 ^ 64 =? y / 2 ^ 64) eqn:E1; simpl.
  - destruct (x mod 2 ^ 64 =? y mod 2 ^ 64) eqn:E2; simpl.
    + assert (x = y) as -> by zlia. split; [by right|]. intros [?|[_ ?]]; [lia|done].
    + assert (x <> y) by (intros ->; lia). rewrite Z.ltb_lt.
      split; [intros; left; zlia|]. intros [?|[? _]]; [zlia|done].
  - assert (x <> y) by (intros ->; lia). rewrite Z.ltb_lt.
    split; [intros; left; zlia|]. intros [?|[? _]]; [zlia|done].
Qed.

Lemma tail_spec a b :
  (if negb (Score key (c_Sum a) =? Score key (c_Sum b))
   then Score key (c_Sum b) <? Score key (c_Sum a)
   else string_ltb (c_Identity a) (c_Identity b)) = true <->
  Score key (c_Sum b) < Score key (c_Sum a) \/
  (Score key (c_Sum a) = Score key (c_Sum b) /\ string_ltb (c_Identity a) (c_Identity b) = true).
Proof.
  destruct (Score key (c_Sum a) =? Score key (c_Sum b)) eqn:E; simpl.
  - split; [intros; right; split; [lia|done]|]. intros [?|[_ ?]]; [lia|done].
  - rewrite Z.ltb_lt. split; [auto|]. intros [?|[? _]]; lia.
Qed.

(** [Better] decides the reference order; in particular the equal-weight path,
    which skips the logarithm, decides the same order. *)
Lemma Better_outranks a b :
  cand_ok a -> cand_ok b -> Better key a b = true <-> outranks key a b.
Proof.
  intros Ha Hb. pose proof (cand_score a Ha) as Sa. pose proof (cand_score b Hb) as Sb.
  pose proof (cand_log a Ha) as La. pose proof (cand_log b Hb) as Lb.
  pose proof (clampWeight_pos (Weight a)) as Wa. pose proof (clampWeight_pos (Weight b)) as Wb.
  pose proof (tail_spec a b) as T. unfold Better, outranks. cbv zeta.
  destruct (Weight a =? Weight b) eqn:E; cbn [negb].
  - apply Z.eqb_eq in E. rewrite T, E. clear T.
    set (sa := Score key (c_Sum a)) in *. set (sb := Score key (c_Sum b)) in *.
    set (w := clampWeight (Weight b)) in *. clearbody sa sb w.
    destruct (Z.lt_trichotomy sa sb) as [Hs|[->|Hs]].
    + pose proof (negLog2_antitone sa sb). split; [lia|]. nia.
    + split; [intros H; right; by split|]. intros [?|[_ ?]]; [lia|done].
    + pose proof (negLog2_antitone sb sa). split; [|intros _; auto]. intros _.
      assert (w * negLog2 sa <= w * negLog2 sb) by nia. lia.
  - unfold Mul64. assert (forall c, cand_ok c -> u64 (clampWeight (Weight c)) = clampWeight (Weight c)) as U.
    { intros c [_ Hc]. apply u64_small. unfold clampWeight, max_int64 in *.
      destruct (Weight c <? 1) eqn:?; lia. }
    rewrite !U by done. rewrite Mul64_compare, T. done.
Qed.

Lemma outranks_irrefl a : ~ outranks key a a.
Proof. intros [?|[_ [?|[_ E]]]]; [lia..|]. by rewrite string_ltb_irrefl in E. Qed.

Lemma outranks_trans a b c :
  cand_ok a -> cand_ok b -> cand_ok c ->
  outranks key a b -> outranks key b c -> outranks key a c.
Proof.
  intros Ha Hb Hc. pose proof (cand_log a Ha) as La. pose proof (cand_log b Hb) as Lb.
  pose proof (cand_log c Hc) as Lc. unfold outranks. cbv zeta.
  pose proof (clampWeight_pos (Weight a)) as Wa. pose proof (clampWeight_pos (Weight b)) as Wb.
  pose proof (clampWeight_pos (Weight c)) as Wc.
  set (wa := clampWeight (Weight a)) in *. set (wb := clampWeight (Weight b)) in *.
  set (wc := clampWeight (Weight c)) in *. set (sa := Score key (c_Sum a)) in *.
  set (sb := Score key (c_Sum b)) in *. set (sc := Score key (c_Sum c)) in *.
  generalize dependent (negLog2 sa). generalize dependent (negLog2 sb).
  generalize dependent (negLog2 sc). intros lc Hlc lb Hlb la Hla. clearbody wa wb wc sa sb sc.
  intros H1 H2. assert (wb * la <= wa * lb) as P1 by lia. assert (wc * lb <= wb * lc) as P2 by lia.
  assert (wc * la * lb <= wb * la * lc) as P3 by nia.
  assert (wb * la * lc <= wa * lc * lb) as P4 by nia.
  assert (wc * la <= wa * lc) as P5 by nia.
  destruct (decide (wc * la < wa * lc)) as [|Hn]; [by left|]. right. split; [lia|].
  assert (wa * lc = wc * la) as E by lia.
  assert (wb * la = wa * lb) as E1 by nia. assert (wc * lb = wb * lc) as E2 by nia.
  destruct H1 as [?|[_ H1]]; [lia|]. destruct H2 as [?|[_ H2]]; [lia|].
  destruct H1 as [?|[-> H1]], H2 as [?|[-> H2]]; eauto using string_ltb_trans with lia.
Qed.

(** Two candidates neither of which outranks the other are the same backend
    with the same effective weight. *)
Definition same_rank (a b : Candidate) : Prop :=
  c_Identity a = c_Identity b /\ clampWeight (Weight a) = clampWeight (Weight b).

Lemma outranks_total a b :
  cand_ok a -> cand_ok b -> outranks key a b \/ outranks key b a \/ same_rank a b.
Proof.
  intros Ha Hb. pose proof (cand_log a Ha) as La. unfold outranks, same_rank. cbv zeta.
  destruct (decide (c_Identity a = c_Identity b)) as [E|Hn].
  - rewrite (co_sum a Ha), (co_sum b Hb), <- E. rewrite (co_sum a Ha) in La.
    destruct (Z.lt_trichotomy (clampWeight (Weight a)) (clampWeight (Weight b))) as [?|[?|?]];
      [right; left; left; nia|auto|left; left; nia].
  - set (pa := clampWeight (Weight a) * _). set (pb := clampWeight (Weight b) * _).
    destruct (Z.lt_trichotomy pa pb) as [?|[Ep|?]];
      [by right; left; left| |by left; left].
    destruct (Z.lt_trichotomy (Score key (c_Sum a)) (Score key (c_Sum b))) as [?|[E|?]];
      [right; left; right; auto| |left; right; auto].
    destruct (string_ltb_total _ _ Hn); [left|right; left]; right; auto.
Qed.

Lemma same_rank_l a b c :
  cand_ok a -> cand_ok b -> same_rank a b -> outranks key a c <-> outranks key b c.
Proof.
  intros [Sa _] [Sb _] [Ei Ew]. unfold outranks. rewrite Sa, Sb, Ei, Ew. done.
Qed.

Lemma same_rank_r a b c :
  cand_ok a -> cand_ok b -> same_rank a b -> outranks key c a <-> outranks key c b.
Proof.
  intros [Sa _] [Sb _] [Ei Ew]. unfold outranks. rewrite Sa, Sb, Ei, Ew. done.
Qed.

Lemma Better_asym a b :
  cand_ok a -> cand_ok b -> Better key a b = true -> Better key b a = false.
Proof.
  intros Ha Hb H%Better_outranks; try done. apply not_true_is_false.
  rewrite Better_outranks by done. intros H'.
  eapply outranks_irrefl, (outranks_trans a b a); done.
Qed.

Lemma Better_irrefl a : cand_ok a -> Better key a a = false.
Proof.
  intros Ha. apply not_true_is_false. rewrite Better_outranks by done. apply outranks_irrefl.
Qed.

(** [a] may stand before [b]. *)
Lemma not_Better_trans a b c :
  cand_ok a -> cand_ok b -> cand_ok c ->
  Better key b a = false -> Better key c b = false -> Better key c a = false.
Proof.
  intros Ha Hb Hc H1 H2. apply not_true_iff_false in H1, H2. apply not_true_iff_false.
  rewrite Better_outranks in * by done. intros H.
  destruct (outranks_total a b) as [?|[?|Hs]]; try done.
  - apply H2. by apply (outranks_trans c a b).
  - apply H2. by apply (same_rank_r a b).
Qed.
End Order.

(** ** [Rank] sorts *)

Lemma nonempty_length {A} (l : list A) : l <> [] -> (0 < length l)%nat.
Proof. destruct l; simpl; [done|lia]. Qed.

Section Rank.
Context (key : Z) (cs : list Candidate) (Hkey : 0 <= key < 2 ^ 64) (Hcs : Forall cand_ok cs).

Definition before_ok (x y : nat) : Prop := Better key (cand_at cs y) (cand_at cs x) = false.

(** The inner loop on the sorted prefix, read from its end. *)
Fixpoint sink (x : nat) (l : list nat) : list nat :=
  match l with
  | [] => [x]
  | y :: l' => if Better key (cand_at cs x) (cand_at cs y) then y :: sink x l' else x :: l
  end.

Lemma rank_inner_sink l x r :
  rank_inner key cs (length l) (l ++ x :: r) = rev (sink x (rev l)) ++ r.
Proof.
  revert x r. induction l as [|y l IH] using rev_ind; intros x r; [done|].
  rewrite length_app, rev_app_distr. simpl. rewrite Nat.add_1_r. simpl.
  assert (E1 : ((l ++ [y]) ++ x :: r) !! S (length l) = Some x).
  { rewrite lookup_app_r, length_app; simpl; [|rewrite length_app; simpl; lia].
    by replace (S (length l) - (length l + 1))%nat with 0%nat by lia. }
  assert (E2 : ((l ++ [y]) ++ x :: r) !! length l = Some y).
  { rewrite <- app_assoc. by apply list_lookup_middle. }
  rewrite E1, E2. destruct (Better _ _ _); simpl; [|by rewrite rev_involutive, <- !app_assoc].
  assert (swap_at ((l ++ [y]) ++ x :: r) (S (length l)) = l ++ x :: y :: r) as ->.
  { unfold swap_at. rewrite E1. simpl. rewrite Nat.sub_0_r, E2. rewrite <- !app_assoc. simpl.
    rewrite insert_app_r_alt by lia. replace (S (length l) - length l)%nat with 1%nat by lia.
    rewrite insert_app_r_alt by lia. by rewrite Nat.sub_diag. }
  rewrite IH, <- app_assoc. done.
Qed.

Lemma sink_perm x l : Permutation (sink x l) (x :: l).
Proof.
  induction l as [|y l IH]; simpl; [done|]. destruct (Better _ _ _); [|done].
  rewrite IH. apply Permutation_swap.
Qed.

Lemma cand_at_ok x : (x < length cs)%nat -> cand_ok (cand_at cs x).
Proof.
  intros Hx. unfold cand_at. destruct (lookup_lt_is_Some_2 cs x Hx) as [c Hc].
  rewrite Hc. simpl. by eapply Forall_lookup_1.
Qed.

Lemma sink_sorted x l :
  (x < length cs)%nat -> Forall (fun y => (y < length cs)%nat) l ->
  StronglySorted (flip before_ok) l -> StronglySorted (flip before_ok) (sink x l).
Proof.
  intros Hx. induction l as [|y l IH]; intros Hl Hs; simpl; [repeat constructor|].
  apply list.Forall_cons in Hl as [Hy Hl]. apply StronglySorted_cons in Hs as [Hy' Hs].
  pose proof (cand_at_ok x Hx). pose proof (cand_at_ok y Hy).
  destruct (Better key (cand_at cs x) (cand_at cs y)) eqn:E.
  - constructor; [by apply IH|]. rewrite sink_perm. constructor; [|done].
    by apply Better_asym.
  - constructor; [by constructor|]. constructor; [done|].
    rewrite Forall_forall in Hl, Hy' |- *. intros z Hz. pose proof (cand_at_ok z (Hl z Hz)).
    specialize (Hy' z Hz). unfold flip, before_ok in *.
    by apply (not_Better_trans key Hkey (cand_at cs z) (cand_at cs y)).
Qed.

(** The sorted prefix after [k] turns of the outer loop, read from its end. *)
Definition sinks (k : nat) : list nat := fold_left (fun l i => sink i l) (seq 1 k) [0%nat].

Lemma sinks_S k : sinks (S k) = sink (S k) (sinks k).
Proof. unfold sinks. by rewrite seq_S, fold_left_app. Qed.

Lemma sinks_perm k : Permutation (sinks k) (seq 0 (S k)).
Proof.
  induction k as [|k IH]; [done|]. rewrite sinks_S, sink_perm, IH, (seq_S (S k)).
  apply Permutation_cons_append.
Qed.

Lemma sinks_sorted k : (k < length cs)%nat -> StronglySorted (flip before_ok) (sinks k).
Proof.
  induction k as [|k IH]; intros Hk; [repeat constructor|]. rewrite sinks_S.
  apply sink_sorted; [done| |apply IH; lia].
  rewrite sinks_perm. apply Forall_forall. intros y Hy%elem_of_seq. lia.
Qed.

Lemma rank_prefix k n :
  (k < n)%nat ->
  fold_left (fun order i => rank_inner key cs i order) (seq 1 k) (seq 0 n) =
  rev (sinks k) ++ seq (S k) (n - S k).
Proof.
  induction k as [|k IH]; intros Hk.
  - destruct n as [|n]; [lia|]. simpl. by rewrite Nat.sub_0_r.
  - rewrite seq_S, fold_left_app, IH, sinks_S by lia. simpl.
    replace (n - S k)%nat with (S (n - S (S k))) by lia. simpl.
    pose proof (rank_inner_sink (rev (sinks k)) (S k) (seq (S (S k)) (n - S (S k)))) as E.
    rewrite rev_involutive in E. rewrite <- E. f_equal.
    by rewrite length_rev, (Permutation_length (sinks_perm k)), length_seq.
Qed.

Lemma Rank_sinks : cs <> [] -> Rank key cs = rev (sinks (length cs - 1)).
Proof.
  intros Hn%nonempty_length. unfold Rank. rewrite rank_prefix by lia.
  replace (length cs - S (length cs - 1))%nat with 0%nat by lia. simpl. apply app_nil_r.
Qed.

Lemma Rank_perm : Permutation (Rank key cs) (seq 0 (length cs)).
Proof.
  destruct (decide (cs = [])) as [E|Hn]; [unfold Rank; by rewrite E|].
  rewrite Rank_sinks, <- Permutation_rev, sinks_perm by done.
  apply nonempty_length in Hn. by replace (S (length cs - 1)) with (length cs) by lia.
Qed.

Lemma StronglySorted_rev (R : nat -> nat -> Prop) l :
  StronglySorted (flip R) l -> StronglySorted R (rev l).
Proof.
  induction 1 as [|x l Hs IH Hx]; simpl; [constructor|]. rewrite Forall_forall in Hx.
  apply StronglySorted_app_2; [|done|repeat constructor].
  intros y z Hy Hz%list_elem_of_singleton. subst z. apply Hx. by rewrite (Permutation_rev l).
Qed.

Lemma Rank_sorted : StronglySorted before_ok (Rank key cs).
Proof.
  destruct (decide (cs = [])) as [E|Hn]; [unfold Rank; rewrite E; constructor|].
  rewrite Rank_sinks by done. apply StronglySorted_rev, sinks_sorted.
  apply nonempty_length in Hn. lia.
Qed.
End Rank.

(** The ranking as candidates rather than indices. *)
Definition ranked (key : Z) (cs : list Candidate) : list Candidate :=
  map (cand_at cs) (Rank key cs).

Lemma map_cand_at cs : map (cand_at cs) (seq 0 (length cs)) = cs.
Proof.
  apply list_eq. intros i. rewrite list_lookup_fmap.
  destruct (decide (i < length cs)%nat) as [Hi|Hi].
  - rewrite lookup_seq_lt by done. simpl. unfold cand_at.
    destruct (lookup_lt_is_Some_2 cs i Hi) as [c ->]. done.
  - rewrite !lookup_ge_None_2; [done|lia|rewrite length_seq; lia].
Qed.

Lemma ranked_perm key cs : Permutation (ranked key cs) cs.
Proof. unfold ranked. rewrite <- (map_cand_at cs) at 3. by apply Permutation_map, Rank_perm. Qed.

Lemma ranked_sorted key cs :
  0 <= key < 2 ^ 64 -> Forall cand_ok cs ->
  StronglySorted (fun a b => Better key b a = false) (ranked key cs).
Proof.
  intros Hk Hc. eapply (StronglySorted_fmap (cand_at cs)); [|by apply Rank_sorted]. done.
Qed.

(** ** Cookie lines: the loop against a split of the line *)

(** The parts of a line between semicolons; an empty last part is dropped. *)
Fixpoint split_parts (fuel : nat) (line : gostring) : list gostring :=
  match fuel, line with
  | S fuel, _ :: _ => let '(part, rest, _) := CutByte line semicolon in part :: split_parts fuel rest
  | _, _ => []
  end.

Definition join_parts (parts : list gostring) : gostring :=
  concat (map (fun p => p ++ [semicolon]) parts).

Fixpoint first_some {A B} (f : A -> option B) (l : list A) : option B :=
  match l with
  | [] => None
  | x :: l => match f x with Some y => Some y | None => first_some f l end
  end.

Lemma cookie_line_split fuel name line :
  cookie_line fuel name line = first_some (cookie_part name) (split_parts fuel line).
Proof.
  revert line. induction fuel as [|fuel IH]; intros [|c line]; try done.
  cbn [cookie_line split_parts]. rewrite bool_decide_false by done.
  destruct (CutByte (c :: line) semicolon) as [[part rest] ok]. simpl. by rewrite IH.
Qed.

(** The split loses nothing but the final separator: enough fuel. *)
Lemma split_parts_join line :
  forall fuel, (length line <= fuel)%nat ->
  join_parts (split_parts fuel line) = line \/
  join_parts (split_parts fuel line) = line ++ [semicolon].
Proof.
  intros fuel. revert line. induction fuel as [|fuel IH]; intros [|c line] Hl; simpl in Hl; auto; [lia|].
  cbn [split_parts]. destruct (CutByte (c :: line) semicolon) as [[part rest] ok] eqn:E.
  pose proof (CutByte_spec _ _ _ _ _ E) as [_ Hs]. destruct ok.
  - assert (length rest <= fuel)%nat.
    { apply (f_equal length) in Hs. rewrite length_app in Hs. simpl in Hs. lia. }
    unfold join_parts in *. cbn [map concat]. rewrite Hs, <- !app_assoc. simpl.
    destruct (IH rest) as [-> | ->]; auto.
  - destruct Hs as [<- ->]. right. unfold join_parts. by destruct fuel; simpl; rewrite ?app_nil_r.
Qed.

Lemma first_some_app {A B} (f : A -> option B) l k :
  first_some f (l ++ k) = match first_some f l with Some y => Some y | None => first_some f k end.
Proof. induction l as [|x l IH]; simpl; [done|]. by destruct (f x). Qed.

Lemma valueKey_hashed v :
  Hashed (valueKey v) = true ->
  v <> [] /\ Z.of_nat (length v) <= MaxKeyBytes /\ k_sum (valueKey v) = Sum v.
Proof.
  unfold valueKey. case_bool_decide; [done|].
  destruct (MaxKeyBytes <? Z.of_nat (length v)) eqn:E; [done|]. intros _. split_and!; [done|lia|done].
Qed.

Lemma fnv_step_inj h k c : 0 <= h < 2 ^ 64 -> 0 <= k < 2 ^ 64 -> is_byte c ->
  fnv_step h c = fnv_step k c -> h = k.
Proof.
  intros Hh Hk [Hc Hc'] E. assert (0 <= c < 2 ^ 64) as Hc64 by lia.
  apply (f_equal (fun z => u64 (z * 0xce965057aff6957b))) in E. unfold fnv_step in E.
  rewrite !u64_mul_inv in E; try apply lxor_u64; try done.
  apply (f_equal (fun z => Z.lxor z c)) in E.
  by rewrite !Z.lxor_assoc, Z.lxor_nilpotent, !Z.lxor_0_r in E.
Qed.

Lemma fnv_byte_inj h c d : 0 <= h < 2 ^ 64 -> is_byte c -> is_byte d ->
  fnv_step h c = fnv_step h d -> c = d.
Proof.
  intros Hh [Hc Hc'] [Hd Hd'] E. assert (0 <= c < 2 ^ 64 /\ 0 <= d < 2 ^ 64) as [Hc64 Hd64] by lia.
  apply (f_equal (fun z => u64 (z * 0xce965057aff6957b))) in E. unfold fnv_step in E.
  rewrite !u64_mul_inv in E; try apply lxor_u64; try done.
  apply (f_equal (Z.lxor h)) in E. by rewrite <- !Z.lxor_assoc, Z.lxor_nilpotent, !Z.lxor_0_l in E.
Qed.

Lemma fnv_fold_inj s h k : 0 <= h < 2 ^ 64 -> 0 <= k < 2 ^ 64 -> Forall is_byte s ->
  fold_left fnv_step s h = fold_left fnv_step s k -> h = k.
Proof.
  revert h k. induction s as [|c s IH]; intros h k Hh Hk Hs E; simpl in E; [done|].
  apply Forall_cons in Hs as [Hc Hs]. apply (fnv_step_inj h k c); try done.
  apply IH in E; [done|apply u64_range..|done].
Qed.

(** ** Properties *)

(** The mixer [fmix64] is a bijection of the 64-bit words, so for a given
    key two backends with distinct hashes never have the same score; and two
    identities or keys that differ in exactly one byte never have the same
    hash. *)
Theorem fmix64_bijective h :
  0 <= h < 2 ^ 64 ->
  unfmix64 (fmix64 h) = h /\ fmix64 (unfmix64 h) = h /\
  (forall key a b, 0 <= key < 2 ^ 64 -> 0 <= a < 2 ^ 64 -> 0 <= b < 2 ^ 64 ->
     Score key a = Score key b -> a = b) /\
  (forall s c d t, Forall is_byte t -> is_byte c -> is_byte d ->
     Sum (s ++ c :: t) = Sum (s ++ d :: t) -> c = d).
Proof.
  intros Hh. split; [by apply unfmix64_fmix64|]. split; [by apply fmix64_unfmix64|].
  split; [intros key a b ???; by apply (Score_inj key)|]. intros s c d t Ht Hc Hd E.
  pose proof (fnv_range s fnvOffset64 ltac:(unfold fnvOffset64; lia)) as Hs.
  apply fmix64_inj in E; try (apply fnv_range; unfold fnvOffset64; lia).
  rewrite !fold_left_app in E. simpl in E.
  apply fnv_fold_inj in E; [|apply u64_range..|done]. by eapply fnv_byte_inj.
Qed.

Lemma fmix64_bijective_witness : unfmix64 (fmix64 42) = 42.
Proof. apply (fmix64_bijective 42). lia. Defined.

(** The integer logarithm is never zero, is at most 64 in 32-bit fixed
    point, never overflows its word, and never increases with the score. *)
Theorem negLog2_fixed_point h k :
  0 <= h <= k -> k < 2 ^ 64 ->
  0 < negLog2 k <= negLog2 h /\ negLog2 h <= Z.shiftl 64 negLog2Frac.
Proof.
  intros Hh Hk. pose proof (negLog2_range h). pose proof (negLog2_range k).
  pose proof (negLog2_antitone h k). change (Z.shiftl 64 negLog2Frac) with (2 ^ 38). lia.
Qed.

Lemma negLog2_fixed_point_witness : 0 < negLog2 7 <= negLog2 2.
Proof. apply (negLog2_fixed_point 2 7); lia. Defined.

(** [Better] decides the weighted-rendezvous order exactly -- weight per
    unit of [-log2] of the score, then score, then identity, the path that
    skips the logarithm for equal weights included -- and it is a strict order,
    total on distinct backends, so the selected backend is unique. *)
Theorem Better_total_order key a b c :
  0 <= key < 2 ^ 64 -> cand_ok a -> cand_ok b -> cand_ok c ->
  (Better key a b = true <-> outranks key a b) /\
  Better key a a = false /\
  (Better key a b = true -> Better key b c = true -> Better key a c = true) /\
  (c_Identity a <> c_Identity b -> Better key a b = true \/ Better key b a = true).
Proof.
  intros Hk Ha Hb Hc. split; [by apply Better_outranks|]. split; [|split].
  - by apply Better_irrefl.
  - rewrite !Better_outranks by done. by apply outranks_trans.
  - intros Hn. rewrite !Better_outranks by done.
    destruct (outranks_total key Hk a b Ha Hb) as [?|[?|[? _]]]; auto. done.
Qed.

Lemma NewCandidate_ok network address w :
  w <= max_int64 -> cand_ok (NewCandidate network address w).
Proof.
  intros Hw. split; [done|]. simpl. unfold clampWeight, max_int64 in *. destruct (w <? 1); lia.
Qed.

Definition ca : Candidate := NewCandidate (str "tcp") (str "app-a.internal:9000") 1.
Definition cb : Candidate := NewCandidate (str "tcp") (str "app-b.internal:9000") 3.
Definition cc : Candidate := NewCandidate (str "tcp") (str "app-c.internal:9000") 6.

Lemma demo_ok : Forall cand_ok [ca; cb; cc].
Proof. repeat constructor; apply NewCandidate_ok; unfold max_int64; lia. Qed.

Lemma Better_total_order_witness :
  Better (Sum (str "tenant-a")) ca cb = true \/ Better (Sum (str "tenant-a")) cb ca = true.
Proof.
  apply (Better_total_order (Sum (str "tenant-a")) ca cb cc); [apply Sum_range| | | |done];
    apply NewCandidate_ok; unfold max_int64; lia.
Defined.

(** [Rank] lists every candidate once, no candidate better than one before
    it, and the order of distinct backends does not depend on the order they
    are given in: a reordered configuration ranks every key the same. *)
Theorem Rank_canonical key cs cs' :
  0 <= key < 2 ^ 64 -> Forall cand_ok cs ->
  NoDup (map c_Identity cs) -> Permutation cs cs' ->
  Permutation (Rank key cs) (seq 0 (length cs)) /\
  StronglySorted (fun a b => Better key b a = false) (ranked key cs) /\
  ranked key cs = ranked key cs'.
Proof.
  intros Hk Hc Hd Hp. split; [apply Rank_perm|]. split; [by apply ranked_sorted|].
  assert (Hc' : Forall cand_ok cs') by by rewrite <- Hp.
  apply (StronglySorted_unique_strong (fun a b => Better key b a = false));
    [|by apply ranked_sorted..|by rewrite !ranked_perm].
  intros x y Hx Hy H1 H2. rewrite ranked_perm in Hx. rewrite ranked_perm, <- Hp in Hy.
  rewrite Forall_forall in Hc. apply not_true_iff_false in H1, H2.
  rewrite Better_outranks in H1, H2 by auto.
  destruct (outranks_total key Hk x y) as [?|[?|[E _]]]; auto; try done.
  apply list_elem_of_lookup in Hx as [i Hi]. apply list_elem_of_lookup in Hy as [j Hj].
  assert (i = j) as ->; [|congruence].
  eapply (NoDup_lookup _ _ _ (c_Identity x) Hd); rewrite list_lookup_fmap.
  - by rewrite Hi.
  - rewrite Hj. simpl. by rewrite E.
Qed.

Lemma Rank_canonical_witness :
  ranked (Sum (str "tenant-a")) [ca; cb; cc] = ranked (Sum (str "tenant-a")) [cc; cb; ca].
Proof.
  apply (Rank_canonical _ [ca; cb; cc]); [apply Sum_range|apply demo_ok| |].
  - apply (bool_decide_unpack _). by vm_compute.
  - apply (Permutation_rev [ca; cb; cc]).
Defined.

(** A cookie key is taken from the first part of the [Cookie] lines whose
    name is the configured one, unquoted, and a key is hashed only when it is
    not empty and at most 256 bytes, otherwise it says why. *)
Theorem cookieKey_first_match lines name :
  cookieKey lines name =
  match first_some (cookie_part name) (concat (map (fun l => split_parts (length l) l) lines)) with
  | Some v => valueKey v
  | None => MkKey 0 StatusMissing
  end /\
  (Hashed (cookieKey lines name) = true -> exists v,
     v <> [] /\ Z.of_nat (length v) <= MaxKeyBytes /\ k_sum (cookieKey lines name) = Sum v).
Proof.
  assert (E : cookieKey lines name =
    match first_some (cookie_part name) (concat (map (fun l => split_parts (length l) l) lines)) with
    | Some v => valueKey v | None => MkKey 0 StatusMissing end).
  { induction lines as [|line lines IH]; [done|]. cbn [cookieKey map concat].
    rewrite first_some_app, <- cookie_line_split. by destruct (cookie_line _ _ _). }
  split; [done|]. rewrite E. destruct (first_some _ _) as [v|]; [|done].
  intros H%valueKey_hashed. eauto.
Qed.

(** ** Golden vectors (testdata/rendezvous_v1.json) *)

Example golden_sum : Sum (str "tenant-a") = 0xa02bfa3261e19aa5.
Proof. reflexivity. Qed.

Example golden_identity :
  Identity (str "tcp") (str "[2001:DB8:0:0::1]:443") = str "[2001:db8::1]:443" /\
  Identity (str "tcp") (str "[::ffff:10.0.0.1]:08080") = str "10.0.0.1:8080" /\
  Identity (str "tcp") (str "API.Example.COM.:80") = str "api.example.com:80" /\
  Identity (str "tcp") (str "[fe80::1%eth0]:80") = str "[fe80::1%eth0]:80" /\
  Identity (str "tcp") (str "no-port") = str "no-port" /\
  Identity (str "unix") (str "/run//app.sock") = str "unix:/run//app.sock".
Proof. by vm_compute. Qed.

Example golden_log : negLog2 0x9e3779b97f4a7c15 = 0xb1b9d806 /\ negLog2 (2 ^ 64 - 1) = 1.
Proof. split; reflexivity. Qed.

Example golden_rank : Rank (Sum (str "tenant-a")) [ca; cb; cc] = [1; 0; 2]%nat.
Proof. vm_compute. reflexivity. Qed.
