(* ===== verification/Backend.v ===== *)
(** * Backends (src/internal/upstream/backend.go)

    A [Backend] is a heap object shared by the pool, its snapshots and the
    requests that hold an attempt on it, so backends live in a heap and are
    referred to by pointer, their position in it. *)

From S2P Require Import Prelude GoStrings Netip Affinity Circuit.

Definition NetworkTCP : gostring := str "tcp".
Definition NetworkUnix : gostring := str "unix".

Definition ParseSocketAddress (pass : gostring) : gostring * gostring :=
  if HasPrefix pass (str "unix:") then (NetworkUnix, TrimPrefix pass (str "unix:"))
  else if HasPrefix pass (str "tcp://") then (NetworkTCP, TrimPrefix pass (str "tcp://"))
  else (NetworkTCP, pass).

Record BackendIdentity := MkIdentity {
  id_Scheme : gostring;
  id_Network : gostring;
  id_Address : gostring
}.

#[export] Instance BackendIdentity_eq_dec : EqDecision BackendIdentity.
Proof. solve_decision. Defined.

(** [URL] is the scheme and host of the dial target, absent for a socket. *)
Record Backend := MkBackend {
  b_Address : gostring;
  b_Network : gostring;
  b_URL : option (gostring * gostring);
  b_scheme : gostring;
  b_id : gostring;
  b_weight : Z;
  b_inflight : Z;
  b_circuit : circuit;
  b_activeHealthy : bool;
  b_affinityID : gostring;
  b_affinitySum : Z
}.

Definition set_weight (w : Z) (b : Backend) : Backend :=
  MkBackend (b_Address b) (b_Network b) (b_URL b) (b_scheme b) (b_id b) w (b_inflight b)
    (b_circuit b) (b_activeHealthy b) (b_affinityID b) (b_affinitySum b).

Definition set_inflight (n : Z) (b : Backend) : Backend :=
  MkBackend (b_Address b) (b_Network b) (b_URL b) (b_scheme b) (b_id b) (b_weight b) n
    (b_circuit b) (b_activeHealthy b) (b_affinityID b) (b_affinitySum b).

Definition set_circuit (c : circuit) (b : Backend) : Backend :=
  MkBackend (b_Address b) (b_Network b) (b_URL b) (b_scheme b) (b_id b) (b_weight b)
    (b_inflight b) c (b_activeHealthy b) (b_affinityID b) (b_affinitySum b).

Definition setActiveHealthy (h : bool) (b : Backend) : Backend :=
  MkBackend (b_Address b) (b_Network b) (b_URL b) (b_scheme b) (b_id b) (b_weight b)
    (b_inflight b) (b_circuit b) h (b_affinityID b) (b_affinitySum b).

Definition affinityCandidate (b : Backend) : Candidate :=
  MkCandidate (b_affinityID b) (b_affinitySum b) (b_weight b).

Definition backend_Identity (b : Backend) : BackendIdentity :=
  MkIdentity (b_scheme b) (b_Network b) (b_Address b).

Definition available (now : Z) (b : Backend) : bool :=
  b_activeHealthy b && circuit_eligible now (b_circuit b).

(** [admit]: the backend after the claim and, if the circuit agreed, the
    admission. *)
Definition backend_admit (now : Z) (b : Backend) : Backend * option admission :=
  if negb (b_activeHealthy b) then (b, None)
  else
    let '(c, adm) := circuit_admit now (b_circuit b) in
    (set_circuit c b, if admission_ok adm then Some adm else None).

Definition backend_State (now : Z) (b : Backend) : BackendState :=
  if negb (b_activeHealthy b) then StateHealthUnhealthy
  else circuit_state now (b_circuit b).

Definition backend_CircuitStatus (now : Z) (b : Backend) : CircuitStatus :=
  let st := circuit_status now (b_circuit b) in
  if negb (b_activeHealthy b)
  then MkCircuitStatus StateHealthUnhealthy zeroTime 0 (st_Fails st) (st_MaxFails st)
         (st_FailTimeout st)
  else st.

Definition acquire (b : Backend) : Backend := set_inflight (b_inflight b + 1) b.
Definition Release (b : Backend) : Backend := set_inflight (b_inflight b - 1) b.

(** ** The heap *)

Notation heap := (list Backend).
Notation ptr := nat.

Definition nil_backend : Backend :=
  MkBackend [] [] None [] [] 0 0 (newCircuit 0 0 0) false [] 0.

(** Dereferencing; every pointer in use is allocated. *)
Definition deref (h : heap) (p : ptr) : Backend := default nil_backend (h !! p).

Lemma deref_lookup h p b : h !! p = Some b -> deref h p = b.
Proof. unfold deref. by intros ->. Qed.

Lemma deref_insert_eq h p b : (p < length h)%nat -> deref (<[p := b]> h) p = b.
Proof. intros Hp. unfold deref. by rewrite list_lookup_insert_eq. Qed.

Lemma deref_insert_ne h p q b : p <> q -> deref (<[p := b]> h) q = deref h q.
Proof. intros Hp. unfold deref. by rewrite list_lookup_insert_ne. Qed.

Lemma deref_app_l h k p : (p < length h)%nat -> deref (h ++ k) p = deref h p.
Proof. intros Hp. unfold deref. by rewrite lookup_app_l. Qed.

(** A backend as the pool maintains it: a breaker satisfying its invariant, a
    weight of at least one that fits an [int], and the hash of its identity. *)
Record backend_ok (b : Backend) : Prop := {
  bo_circuit : circuit_ok (b_circuit b);
  bo_weight : 1 <= b_weight b <= max_int64;
  bo_affinity : b_affinitySum b = Sum (b_affinityID b)
}.

Lemma affinityCandidate_ok b : backend_ok b -> cand_ok (affinityCandidate b).
Proof. intros [_ Hw Ha]. split; simpl; [done|lia]. Qed.

(** The breaker admits exactly the backends that are available and whose
    half-open window, if they are in one, has not run out. *)
Definition expired (now : Z) (c : circuit) : bool :=
  bool_decide (phase c = phaseHalfOpen) && (halfOpenUntil c <=? now).

Lemma backend_admit_spec now b :
  backend_ok b ->
  (exists adm, (backend_admit now b).2 = Some adm) <->
  available now b = true /\ expired now (b_circuit b) = false.
Proof.
  intros [Hc _ _]. unfold backend_admit, available.
  destruct (b_activeHealthy b); simpl; [|split; [by intros [? ?]|by intros [? _]]].
  destruct (admit_eligible now (b_circuit b) Hc) as [E _]. fold (expired now (b_circuit b)) in E.
  destruct (circuit_admit now (b_circuit b)) as [c adm]. simpl in *. rewrite E.
  destruct (circuit_eligible now (b_circuit b)), (expired now (b_circuit b)); simpl;
    (split; [intros [? [=]]; by auto|intros [[=] [=]]; by eauto]).
Qed.
