(* ===== verification/Balancer.v ===== *)
(** * Load balancers (src/internal/upstream/balancer.go)

    The four strategies as one inductive type of balancer states, each [pick] a
    function of the heap, the state and the available backends that returns the
    chosen pointer and the next state.  The class [Chooser] is what selection
    needs of a balancer: it chooses one of the available backends whenever
    there is one. *)

From S2P Require Import Prelude GoStrings Netip Affinity Circuit Backend.

Inductive Balancer :=
| roundRobin (n : Z)
| leastConn
| weightedRR (weights : gmap ptr Z)
| rendezvous (fallback : Balancer).

(** ** The strategies *)

Definition roundRobin_pick (n : Z) (a : list ptr) : option ptr * Balancer :=
  match a with
  | [] => (None, roundRobin n)
  | _ =>
      let n' := u64 (n + 1) in
      let i := u64 (n' - 1) in
      (a !! Z.to_nat (i mod Z.of_nat (length a)), roundRobin n')
  end.

Fixpoint leastConn_loop (h : heap) (a : list ptr) (best : option (ptr * Z)) : option ptr :=
  match a with
  | [] => fst <$> best
  | p :: a =>
      let c := b_inflight (deref h p) in
      match best with
      | None => leastConn_loop h a (Some (p, c))
      | Some (_, min) => leastConn_loop h a (if c <? min then Some (p, c) else best)
      end
  end.

Definition leastConn_pick (h : heap) (a : list ptr) : option ptr := leastConn_loop h a None.

Notation weight_of h p := (b_weight (deref h p)).
Notation cur m p := (default 0 (m !! p)).

(** The loop of [weightedRR.pick]: the accumulators, the total and the best
    backend so far. *)
Fixpoint wrr_loop (h : heap) (a : list ptr) (m : gmap ptr Z) (total : Z) (best : option ptr)
  : gmap ptr Z * Z * option ptr :=
  match a with
  | [] => (m, total, best)
  | p :: a =>
      let weight := weight_of h p in
      let cw := i64 (cur m p + weight) in
      let m := <[p := cw]> m in
      let total := i64 (total + weight) in
      let best := match best with
                  | None => Some p
                  | Some q => if cur m q <? cw then Some p else best
                  end in
      wrr_loop h a m total best
  end.

Definition weightedRR_pick (h : heap) (m : gmap ptr Z) (a : list ptr)
  : option ptr * gmap ptr Z :=
  match a with
  | [] => (None, m)
  | _ =>
      let '(m, total, best) := wrr_loop h a m 0 None in
      match best with
      | Some q => (Some q, <[q := i64 (cur m q - total)]> m)
      | None => (None, m)
      end
  end.

Fixpoint pickKey_loop (h : heap) (key : Z) (a : list ptr) (best : ptr) : ptr :=
  match a with
  | [] => best
  | p :: a =>
      pickKey_loop h key a
        (if Better key (affinityCandidate (deref h p)) (affinityCandidate (deref h best))
         then p else best)
  end.

Definition pickKey (h : heap) (a : list ptr) (key : Z) : option ptr :=
  match a with [] => None | p :: a => Some (pickKey_loop h key a p) end.

(** ** Dispatch *)

Fixpoint bal_pick (h : heap) (bal : Balancer) (a : list ptr) : option ptr * Balancer :=
  match bal with
  | roundRobin n => roundRobin_pick n a
  | leastConn => (leastConn_pick h a, leastConn)
  | weightedRR m => let '(p, m) := weightedRR_pick h m a in (p, weightedRR m)
  | rendezvous f => let '(p, f) := bal_pick h f a in (p, rendezvous f)
  end.

Definition pickFor (h : heap) (bal : Balancer) (a : list ptr) (key : Key) : option ptr * Balancer :=
  match bal with
  | rendezvous _ => if Hashed key then (pickKey h a (k_sum key), bal) else bal_pick h bal a
  | _ => bal_pick h bal a
  end.

Fixpoint updateBackends (bal : Balancer) : Balancer :=
  match bal with
  | weightedRR _ => weightedRR ∅
  | rendezvous f => rendezvous (updateBackends f)
  | _ => bal
  end.

(** [newBalancer(strategy, "")], where the inner fallback is round robin. *)
Definition newBalancer0 (strategy : gostring) : Balancer :=
  if bool_decide (strategy = str "least_conn") then leastConn
  else if bool_decide (strategy = str "weighted_round_robin") then weightedRR ∅
  else if bool_decide (strategy = str "consistent_hash") then rendezvous (roundRobin 0)
  else roundRobin 0.

Definition newBalancer (strategy fallback : gostring) : Balancer :=
  if bool_decide (strategy = str "consistent_hash") then rendezvous (newBalancer0 fallback)
  else newBalancer0 strategy.

(** ** What selection relies on *)

Class Chooser (B : Type) := choose : heap -> B -> list ptr -> Key -> option ptr * B.

Class ChooserOk (B : Type) `{Chooser B} := {
  choose_in h b a k p : (choose h b a k).1 = Some p -> p ∈ a;
  choose_some h b a k : a <> [] -> is_Some (choose h b a k).1
}.

#[export] Instance Balancer_chooser : Chooser Balancer := pickFor.

Lemma roundRobin_pick_in n a p : (roundRobin_pick n a).1 = Some p -> p ∈ a.
Proof. destruct a; [done|]. apply list_elem_of_lookup_2. Qed.

Lemma roundRobin_pick_some n a : a <> [] -> is_Some (roundRobin_pick n a).1.
Proof.
  intros Ha%nonempty_length. destruct a as [|x a]; [simpl in Ha; lia|]. cbn [roundRobin_pick fst].
  apply lookup_lt_is_Some_2.
  pose proof (Z.mod_pos_bound (u64 (u64 (n + 1) - 1)) (Z.of_nat (length (x :: a))) ltac:(lia)). lia.
Qed.

Lemma leastConn_loop_in h a best p :
  leastConn_loop h a best = Some p -> p ∈ a \/ fst <$> best = Some p.
Proof.
  revert best. induction a as [|q a IH]; intros best; simpl; [by auto|].
  destruct best as [[r m]|]; intros [?|E]%IH; try (left; by right).
  - destruct (_ <? m); simpl in E; [|by auto]. injection E as ->. left; left.
  - simpl in E. injection E as ->. left; left.
Qed.

Lemma leastConn_loop_some h a best : a <> [] \/ is_Some best -> is_Some (leastConn_loop h a best).
Proof.
  revert best. induction a as [|q a IH]; intros best; simpl.
  - intros [?|[x ->]]; [done|]. simpl. eauto.
  - intros _. destruct best as [[r m]|]; apply IH; right; [destruct (_ <? m)|]; eauto.
Qed.

Lemma wrr_loop_best h a m t best :
  forall q, (wrr_loop h a m t best).2 = Some q -> q ∈ a \/ best = Some q.
Proof.
  revert m t best. induction a as [|p a IH]; intros m t best q; simpl; [by auto|].
  intros [?|E]%IH; [left; by right|]. destruct best as [r|].
  - destruct (_ <? _); [|by auto]. injection E as ->. left; left.
  - injection E as ->. left; left.
Qed.

Lemma wrr_loop_some h a m t best :
  a <> [] \/ is_Some best -> is_Some (wrr_loop h a m t best).2.
Proof.
  revert m t best. induction a as [|p a IH]; intros m t best; simpl; [by intros [?|?]|].
  intros _. apply IH. right. destruct best; [destruct (_ <? _)|]; eauto.
Qed.

Lemma weightedRR_pick_in h m a p : (weightedRR_pick h m a).1 = Some p -> p ∈ a.
Proof.
  unfold weightedRR_pick. destruct a as [|x a]; [done|].
  pose proof (wrr_loop_best h (x :: a) m 0 None) as H.
  destruct (wrr_loop h (x :: a) m 0 None) as [[m' t] [q|]]; [|done].
  simpl in *. intros [= ->]. destruct (H p eq_refl); [done|discriminate].
Qed.

Lemma weightedRR_pick_some h m a : a <> [] -> is_Some (weightedRR_pick h m a).1.
Proof.
  intros Ha. unfold weightedRR_pick. pose proof (wrr_loop_some h a m 0 None (or_introl Ha)) as H.
  destruct a as [|x a]; [done|]. destruct (wrr_loop h (x :: a) m 0 None) as [[m' t] best].
  simpl in H. destruct H as [q ->]. simpl. eauto.
Qed.

Lemma pickKey_loop_in h key a best : pickKey_loop h key a best ∈ best :: a.
Proof.
  revert best. induction a as [|p a IH]; intros best; simpl; [left|].
  destruct (Better _ _ _).
  - specialize (IH p). apply elem_of_cons in IH as [->|?]; [right; left|by right; right].
  - specialize (IH best). apply elem_of_cons in IH as [->|?]; [left|by right; right].
Qed.

Lemma bal_pick_in h bal a p : (bal_pick h bal a).1 = Some p -> p ∈ a.
Proof.
  induction bal as [n| |m|f IH]; simpl.
  - apply roundRobin_pick_in.
  - intros [?|?]%leastConn_loop_in; done.
  - pose proof (weightedRR_pick_in h m a p). by destruct (weightedRR_pick h m a).
  - by destruct (bal_pick h f a).
Qed.

Lemma bal_pick_some h bal a : a <> [] -> is_Some (bal_pick h bal a).1.
Proof.
  intros Ha. induction bal as [n| |m|f IH]; simpl.
  - by apply roundRobin_pick_some.
  - apply leastConn_loop_some. by left.
  - pose proof (weightedRR_pick_some h m a Ha). by destruct (weightedRR_pick h m a).
  - by destruct (bal_pick h f a).
Qed.

#[export] Instance Balancer_chooser_ok : ChooserOk Balancer.
Proof.
  split; intros h bal a k; unfold choose, Balancer_chooser, pickFor.
  - intros p. destruct bal; try apply bal_pick_in. destruct (Hashed k); [|apply bal_pick_in].
    simpl. destruct a; simpl; [done|]. intros [= <-]. apply pickKey_loop_in.
  - intros Ha. destruct bal; try by apply bal_pick_some. destruct (Hashed k); [|by apply bal_pick_some].
    destruct a; simpl; [done|]. eauto.
Qed.

(** ** Smooth weighted round robin *)

Definition sumZ (f : ptr -> Z) (a : list ptr) : Z := foldr (fun p s => f p + s) 0 a.

Lemma sumZ_ext f g a : (forall p, p ∈ a -> f p = g p) -> sumZ f a = sumZ g a.
Proof.
  induction a as [|p a IH]; intros H; simpl; [done|].
  rewrite (H p), IH; [done| |left]. intros q Hq. apply H. by right.
Qed.

Lemma sumZ_add f g a : sumZ (fun p => f p + g p) a = sumZ f a + sumZ g a.
Proof. induction a as [|p a IH]; simpl; lia. Qed.

Lemma sumZ_scale c f a : sumZ (fun p => c * f p) a = c * sumZ f a.
Proof. induction a as [|p a IH]; simpl; lia. Qed.

Lemma sumZ_le f g a : (forall p, p ∈ a -> f p <= g p) -> sumZ f a <= sumZ g a.
Proof.
  induction a as [|p a IH]; intros H; simpl; [lia|].
  assert (f p <= g p) by (apply H; left). assert (sumZ f a <= sumZ g a); [|lia].
  apply IH. intros q Hq. apply H. by right.
Qed.

Lemma sumZ_const c a : sumZ (fun _ => c) a = c * Z.of_nat (length a).
Proof. induction a as [|p a IH]; simpl; lia. Qed.

(** Changing one term. *)
Lemma sumZ_update f p d a :
  NoDup a -> p ∈ a -> sumZ (fun q => f q + (if bool_decide (q = p) then d else 0)) a = sumZ f a + d.
Proof.
  induction 1 as [|x a Hx Hn IH]; intros Hp; [by apply elem_of_nil in Hp|]. simpl.
  destruct (decide (x = p)) as [->|Hne].
  - rewrite bool_decide_true by done. rewrite (sumZ_ext _ f); [lia|].
    intros q Hq. rewrite bool_decide_false; [lia|]. by intros ->.
  - rewrite bool_decide_false by done. rewrite IH; [lia|]. by apply elem_of_cons in Hp as [->|].
Qed.

(** If no term exceeds its counterpart and the sums agree, the terms agree. *)
Lemma sumZ_tight f g a :
  (forall p, p ∈ a -> f p <= g p) -> sumZ f a = sumZ g a -> forall p, p ∈ a -> f p = g p.
Proof.
  induction a as [|x a IH]; intros H E p Hp; [by apply elem_of_nil in Hp|]. simpl in E.
  assert (f x <= g x) by (apply H; left).
  assert (Ha : forall q, q ∈ a -> f q <= g q) by (intros q Hq; apply H; by right).
  pose proof (sumZ_le _ _ _ Ha). apply elem_of_cons in Hp as [->|Hp]; [lia|]. apply IH; auto. lia.
Qed.

Lemma nonempty_elem {A} (l : list A) : l <> [] -> exists x, x ∈ l.
Proof. destruct l as [|x l]; [done|]. exists x. left. Qed.

Lemma weightedRR_unfold h m l :
  l <> [] -> weightedRR_pick h m l =
  let '(m, total, best) := wrr_loop h l m 0 None in
  match best with
  | Some q => (Some q, <[q := i64 (cur m q - total)]> m)
  | None => (None, m)
  end.
Proof. by destruct l. Qed.

Section WeightedRR.
Context (h : heap) (a : list ptr).
Context (Hnd : NoDup a) (Hne : a <> []).
Context (Hw : forall p, p ∈ a -> 1 <= weight_of h p).

Definition W : Z := sumZ (fun p => weight_of h p) a.

(** Room for the accumulators in a Go [int]. *)
Context (Hroom : W * (Z.of_nat (length a) + 1) <= max_int64).

Lemma length_pos : 1 <= Z.of_nat (length a).
Proof. apply nonempty_length in Hne. lia. Qed.

Lemma weight_le_W p : p ∈ a -> 1 <= weight_of h p <= W.
Proof.
  intros Hp. split; [by apply Hw|]. unfold W. clear Hnd Hne Hroom. revert Hw Hp.
  induction a as [|x l IH]; intros Hl Hp; [by apply elem_of_nil in Hp|]. simpl.
  assert (Hl' : forall q, q ∈ l -> 1 <= weight_of h q) by (intros q Hq; apply Hl; by right).
  assert (0 <= sumZ (fun p => weight_of h p) l).
  { pose proof (sumZ_le (fun _ => 0) (fun p => weight_of h p) l) as H. rewrite sumZ_const in H.
    assert (forall p, p ∈ l -> 0 <= weight_of h p) as H0 by (intros q Hq; specialize (Hl' q Hq); lia).
    specialize (H H0). lia. }
  apply elem_of_cons in Hp as [->|Hp]; [lia|]. assert (1 <= weight_of h x) by (apply Hl; left).
  specialize (IH Hl' Hp). lia.
Qed.

Lemma W_pos : 1 <= W.
Proof. destruct (nonempty_elem a Hne) as [p Hp]. pose proof (weight_le_W p Hp). lia. Qed.

(** The accumulators as the algorithm keeps them: they sum to zero and none
    has fallen a whole round behind. *)
Definition acc_ok (m : gmap ptr Z) : Prop :=
  sumZ (fun p => cur m p) a = 0 /\ forall p, p ∈ a -> - W < cur m p.

Lemma acc_upper m p : acc_ok m -> p ∈ a -> cur m p <= W * Z.of_nat (length a).
Proof.
  intros [Hs Hl] Hp. pose proof W_pos.
  pose proof (sumZ_update (fun q => cur m q) p (- W - cur m p) a Hnd Hp) as E. rewrite Hs, Z.add_0_l in E.
  assert (- W * Z.of_nat (length a) <= - W - cur m p) as H'; [|lia].
  rewrite <- E, <- sumZ_const. apply sumZ_le. intros q Hq. specialize (Hl q Hq).
  destruct (decide (q = p)) as [->|]; [rewrite bool_decide_true by done; lia|].
  rewrite bool_decide_false by done. lia.
Qed.

(** The loop's room: every sum it forms fits an [int]. *)
Definition loop_room (l : list ptr) (m : gmap ptr Z) (t : Z) : Prop :=
  (forall p, p ∈ l -> 1 <= weight_of h p) /\
  (forall p, p ∈ l -> - 2 ^ 63 <= cur m p + weight_of h p < 2 ^ 63) /\
  0 <= t /\ t + sumZ (fun p => weight_of h p) l < 2 ^ 63.

Lemma loop_room_cons x l m t :
  NoDup (x :: l) -> loop_room (x :: l) m t ->
  i64 (cur m x + weight_of h x) = cur m x + weight_of h x /\
  i64 (t + weight_of h x) = t + weight_of h x /\
  loop_room l (<[x := cur m x + weight_of h x]> m) (t + weight_of h x).
Proof.
  intros [Hx Hn]%NoDup_cons (Hwt & Hr & Ht & Hs). simpl in Hs.
  assert (Hwx : 1 <= weight_of h x) by (apply Hwt; left).
  assert (Hw' : forall p, p ∈ l -> 1 <= weight_of h p) by (intros p Hp; apply Hwt; by right).
  assert (Hw0 : 0 <= sumZ (fun p => weight_of h p) l).
  { rewrite <- (Z.mul_0_l (Z.of_nat (length l))), <- sumZ_const. apply sumZ_le.
    intros p Hp. specialize (Hw' p Hp). lia. }
  split; [apply i64_small, Hr; left|]. split; [apply i64_small; lia|].
  split_and!; [done| |lia|lia]. intros p Hp. rewrite lookup_insert_ne by (by intros ->).
  apply Hr. by right.
Qed.

(** The loop adds every weight once. *)
Lemma wrr_loop_values l m t best :
  NoDup l -> loop_room l m t ->
  (wrr_loop h l m t best).1.2 = t + sumZ (fun p => weight_of h p) l /\
  forall p, cur (wrr_loop h l m t best).1.1 p =
    cur m p + (if bool_decide (p ∈ l) then weight_of h p else 0).
Proof.
  revert m t best. induction l as [|x l IH]; intros m t best Hn Hroom'.
  - simpl. split; [lia|]. intros p. lia.
  - destruct (loop_room_cons _ _ _ _ Hn Hroom') as (E1 & E2 & Hr'). simpl. rewrite E1, E2.
    apply NoDup_cons in Hn as [Hx Hn].
    destruct (IH _ _ (match best with None => Some x
      | Some q => if cur (<[x := cur m x + weight_of h x]> m) q <? cur m x + weight_of h x
                  then Some x else best end) Hn Hr') as [H1 H2].
    split; [rewrite H1; lia|]. intros p. rewrite H2.
    destruct (decide (p = x)) as [->|Hpx].
    + rewrite lookup_insert_eq. rewrite (bool_decide_false (x ∈ l)) by done.
      rewrite (bool_decide_true (x ∈ x :: l)) by left. simpl. lia.
    + rewrite lookup_insert_ne by done. f_equal.
      destruct (decide (p ∈ l)); [rewrite !bool_decide_true; [done|by right|done]|].
      rewrite !bool_decide_false; [done| |done]. by rewrite elem_of_cons; intros [?|?].
Qed.

(** And finds a maximum. *)
Lemma wrr_loop_max l m t best q :
  NoDup l -> loop_room l m t -> (forall r, best = Some r -> r ∉ l) ->
  (wrr_loop h l m t best).2 = Some q ->
  (forall p, p ∈ l -> cur (wrr_loop h l m t best).1.1 p <= cur (wrr_loop h l m t best).1.1 q) /\
  (forall r, best = Some r ->
     cur (wrr_loop h l m t best).1.1 r <= cur (wrr_loop h l m t best).1.1 q).
Proof.
  revert m t best. induction l as [|x l IH]; intros m t best Hn Hroom' Hb.
  - simpl. intros ->. split; [by intros p ?%elem_of_nil|]. by intros r [= ->].
  - destruct (loop_room_cons _ _ _ _ Hn Hroom') as (E1 & E2 & Hr'). simpl. rewrite E1, E2.
    apply NoDup_cons in Hn as [Hx Hn]. set (m1 := <[x := _]> m) in *.
    set (best1 := match best with None => _ | Some r => _ end). intros Hq.
    assert (Hb1 : forall r, best1 = Some r -> r ∉ l).
    { subst best1. intros r. destruct best as [r'|]; [|by intros [= <-]].
      destruct (_ <? _); intros [= <-]; [done|]. specialize (Hb _ eq_refl).
      by apply not_elem_of_cons in Hb as [_ ?]. }
    destruct (wrr_loop_values l m1 (t + weight_of h x) best1 Hn Hr') as [_ Hv].
    destruct (IH _ _ _ Hn Hr' Hb1 Hq) as [M1 M2]. clear IH.
    set (m' := (wrr_loop h l m1 (t + weight_of h x) best1).1.1) in *. clearbody m'.
    assert (Hout : forall p, p ∉ l -> cur m' p = cur m1 p).
    { intros p Hp. rewrite Hv, bool_decide_false by done. lia. }
    assert (Hm1x : cur m1 x = cur m x + weight_of h x) by (unfold m1; by rewrite lookup_insert_eq).
    assert (cur m' x <= cur m' q /\ forall r, best = Some r -> cur m' r <= cur m' q) as [Mx Mr].
    { subst best1. destruct best as [r|]; [|split; [by apply M2|done]].
      specialize (Hb r eq_refl). apply not_elem_of_cons in Hb as [Hrx Hrl].
      rewrite (Hout x Hx), Hm1x. destruct (cur m1 r <? cur m x + weight_of h x) eqn:E.
      - specialize (M2 x eq_refl). rewrite (Hout x Hx), Hm1x in M2. split; [done|].
        intros r' [= <-]. rewrite (Hout r Hrl). lia.
      - specialize (M2 r eq_refl). rewrite (Hout r Hrl) in M2. split; [lia|].
        intros r' [= <-]. rewrite (Hout r Hrl). lia. }
    split; [|done]. intros p [->|Hp]%elem_of_cons; auto.
Qed.

Lemma acc_room m : acc_ok m -> loop_room a m 0.
Proof.
  intros Hm. split_and!; [done| |lia|].
  - intros p Hp. pose proof (acc_upper m p Hm Hp). destruct Hm as [_ Hl].
    specialize (Hl p Hp). pose proof (weight_le_W p Hp). unfold max_int64 in *. nia.
  - fold W. pose proof W_pos. pose proof length_pos. unfold max_int64 in *. nia.
Qed.

(** One pick: every accumulator gains its weight, the chosen one loses a
    round. *)
Lemma weightedRR_step m :
  acc_ok m -> exists q m', weightedRR_pick h m a = (Some q, m') /\ q ∈ a /\ acc_ok m' /\
    forall p, p ∈ a -> cur m' p = cur m p + weight_of h p - (if bool_decide (p = q) then W else 0).
Proof.
  intros Hm. pose proof (acc_room m Hm) as Hr.
  destruct (weightedRR_pick_some h m a Hne) as [q Hq]. pose proof (weightedRR_pick_in h m a q Hq) as Hin.
  destruct (wrr_loop_values a m 0 None Hnd Hr) as [Ht Hv].
  pose proof (wrr_loop_max a m 0 None q Hnd Hr) as Hmax.
  rewrite weightedRR_unfold in Hq |- * by exact Hne.
  destruct (wrr_loop h a m 0 None) as [[m1 t] [b|]]; [|done]. simpl in *. injection Hq as ->.
  destruct Hmax as [Hmax _]; [done..|]. rewrite Z.add_0_l in Ht. fold W in Ht. subst t.
  assert (Hv' : forall p, p ∈ a -> cur m1 p = cur m p + weight_of h p).
  { intros p Hp. by rewrite Hv, bool_decide_true. }
  assert (Hsum : sumZ (fun p => cur m1 p) a = W).
  { rewrite (sumZ_ext _ _ _ Hv'), sumZ_add. destruct Hm as [-> _]. apply Z.add_0_l. }
  pose proof (acc_upper m q Hm Hin). pose proof (weight_le_W q Hin). pose proof (Hv' q Hin).
  assert (Hpos : 0 < cur m1 q).
  { destruct (Z.lt_ge_cases 0 (cur m1 q)) as [|Hle]; [done|exfalso].
    assert (sumZ (fun p => cur m1 p) a <= sumZ (fun _ => 0) a).
    { apply sumZ_le. intros p Hp. specialize (Hmax p Hp). lia. }
    rewrite sumZ_const in *. pose proof W_pos. lia. }
  assert (E : i64 (cur m1 q - W) = cur m1 q - W).
  { apply i64_small. unfold max_int64 in *. nia. }
  rewrite E. eexists q, _. split; [done|]. split; [done|].
  assert (Hval : forall p, p ∈ a -> cur (<[q := cur m1 q - W]> m1) p =
    cur m1 p + (if bool_decide (p = q) then - W else 0)).
  { intros p Hp. destruct (decide (p = q)) as [->|Hpq].
    - rewrite lookup_insert_eq, bool_decide_true by done. simpl. lia.
    - rewrite lookup_insert_ne, bool_decide_false by done. lia. }
  split; [split|].
  - rewrite (sumZ_ext _ _ _ Hval), sumZ_update by done. lia.
  - intros p Hp. rewrite Hval by done. destruct Hm as [_ Hl]. specialize (Hl p Hp).
    rewrite Hv' by done. pose proof (weight_le_W p Hp).
    destruct (decide (p = q)) as [->|]; [rewrite bool_decide_true by done; lia|].
    rewrite bool_decide_false by done. lia.
  - intros p Hp. rewrite Hval, Hv' by done. destruct (bool_decide (p = q)); lia.
Qed.

(** [k] picks in a row: the choices in order and the accumulators after. *)
Fixpoint wrr_picks (k : nat) (m : gmap ptr Z) : list ptr * gmap ptr Z :=
  match k with
  | O => ([], m)
  | S k =>
      let '(ps, m) := wrr_picks k m in
      match weightedRR_pick h m a with
      | (Some q, m) => (ps ++ [q], m)
      | (None, m) => (ps, m)
      end
  end.

Definition countZ (p : ptr) (l : list ptr) : Z :=
  sumZ (fun q => if bool_decide (q = p) then 1 else 0) l.

Lemma countZ_snoc p q l : countZ p (l ++ [q]) = countZ p l + (if bool_decide (q = p) then 1 else 0).
Proof. unfold countZ. induction l as [|x l IH]; simpl; lia. Qed.

Lemma wrr_picks_spec k :
  acc_ok (wrr_picks k ∅).2 /\ length (wrr_picks k ∅).1 = k /\
  Forall (fun q => q ∈ a) (wrr_picks k ∅).1 /\
  forall p, p ∈ a ->
    cur (wrr_picks k ∅).2 p = Z.of_nat k * weight_of h p - W * countZ p (wrr_picks k ∅).1.
Proof.
  induction k as [|k (Hacc & Hlen & Hall & Hcur)].
  - simpl. split; [split|split; [done|split; [constructor|]]].
    + by rewrite (sumZ_ext _ (fun _ => 0)), sumZ_const.
    + intros p _. rewrite lookup_empty. pose proof W_pos. simpl. lia.
    + intros p _. rewrite lookup_empty. unfold countZ. simpl. lia.
  - cbn [wrr_picks]. destruct (wrr_picks k ∅) as [ps m]. simpl in *.
    destruct (weightedRR_step m Hacc) as (q & m' & E & Hq & Hacc' & Hv). rewrite E. simpl.
    split; [done|]. split; [rewrite length_app; simpl; lia|].
    split; [apply Forall_app; split; [done|by apply Forall_singleton]|].
    intros p Hp. rewrite Hv, Hcur, countZ_snoc by done.
    destruct (decide (p = q)) as [->|Hpq]; [rewrite !bool_decide_true by done; lia|].
    rewrite !bool_decide_false by congruence. lia.
Qed.

Lemma sum_counts l : Forall (fun q => q ∈ a) l -> sumZ (fun p => countZ p l) a = Z.of_nat (length l).
Proof.
  induction 1 as [|q l Hq _ IH]; [by rewrite (sumZ_ext _ (fun _ => 0)), sumZ_const|].
  rewrite (sumZ_ext _ (fun p => countZ p l + (if bool_decide (p = q) then 1 else 0))).
  - rewrite sumZ_update, IH by done. simpl. lia.
  - intros p _. unfold countZ. simpl. rewrite (bool_decide_ext (q = p) (p = q)) by done. lia.
Qed.
End WeightedRR.

(** ** Rendezvous selection *)

Notation cand h p := (affinityCandidate (deref h p)).

Section Rendezvous.
Context (h : heap) (key : Z) (Hkey : 0 <= key < 2 ^ 64).

Lemma pickKey_loop_best a best :
  Forall (fun p => backend_ok (deref h p)) (best :: a) ->
  Forall (fun q => Better key (cand h q) (cand h (pickKey_loop h key a best)) = false) (best :: a).
Proof.
  revert best. induction a as [|x a IH]; intros best Hok; simpl.
  - apply Forall_cons in Hok as [Hok _]. repeat constructor.
    by apply Better_irrefl, affinityCandidate_ok.
  - apply Forall_cons in Hok as [Hb Hok]. pose proof Hok as [Hx Ha]%Forall_cons.
    pose proof (affinityCandidate_ok _ Hb). pose proof (affinityCandidate_ok _ Hx).
    set (b' := if Better key (cand h x) (cand h best) then x else best).
    assert (Hb' : backend_ok (deref h b')) by (subst b'; by destruct (Better _ _ _)).
    assert (Hok' : Forall (fun p => backend_ok (deref h p)) (b' :: a)) by by constructor.
    pose proof (IH b' Hok') as [H1 H2]%Forall_cons.
    assert (Hp : cand_ok (cand h (pickKey_loop h key a b'))).
    { apply affinityCandidate_ok. rewrite Forall_forall in Hok'. apply Hok', pickKey_loop_in. }
    assert (Hle : forall q, q = best \/ q = x -> Better key (cand h q) (cand h b') = false).
    { subst b'. intros q Hq. destruct (Better key (cand h x) (cand h best)) eqn:E.
      - destruct Hq as [->| ->]; [by apply Better_asym|by apply Better_irrefl].
      - destruct Hq as [->| ->]; [by apply Better_irrefl|done]. }
    apply affinityCandidate_ok in Hb'.
    constructor; [|constructor; [|done]];
      apply (not_Better_trans key Hkey _ (cand h b')); auto.
Qed.

(** The pick is the one backend no other is better than. *)
Lemma pickKey_iff a p :
  Forall (fun p => backend_ok (deref h p)) a ->
  NoDup (map (fun p => b_affinityID (deref h p)) a) ->
  pickKey h a key = Some p <->
  p ∈ a /\ Forall (fun q => Better key (cand h q) (cand h p) = false) a.
Proof.
  intros Hok Hn. destruct a as [|x a]; [split; [done|by intros [?%elem_of_nil _]]|]. simpl pickKey.
  pose proof (pickKey_loop_best a x Hok) as Hbest. pose proof (pickKey_loop_in h key a x) as Hin.
  set (r := pickKey_loop h key a x) in *. clearbody r. split; [by intros [= ->]|].
  intros [Hp Hall]. f_equal. rewrite Forall_forall in Hok, Hbest, Hall.
  pose proof (Hbest p Hp) as H1. pose proof (Hall r Hin) as H2.
  pose proof (affinityCandidate_ok _ (Hok p Hp)). pose proof (affinityCandidate_ok _ (Hok r Hin)).
  apply not_true_iff_false in H1, H2. rewrite Better_outranks in H1, H2 by done.
  destruct (outranks_total key Hkey (cand h p) (cand h r)) as [?|[?|[E _]]]; try done.
  apply list_elem_of_lookup in Hp as [i Hi]. apply list_elem_of_lookup in Hin as [j Hj].
  assert (i = j) as ->; [|congruence].
  eapply (NoDup_lookup _ _ _ (b_affinityID (deref h p)) Hn); rewrite list_lookup_fmap.
  - by rewrite Hi.
  - rewrite Hj. simpl in *. by rewrite E.
Qed.

Lemma pickKey_strict a p q :
  Forall (fun p => backend_ok (deref h p)) a ->
  NoDup (map (fun p => b_affinityID (deref h p)) a) -> pickKey h a key = Some p ->
  q ∈ a -> q <> p -> Better key (cand h p) (cand h q) = true.
Proof.
  intros Hok Hn Hp Hq Hne. pose proof Hp as [Hin Hbest]%pickKey_iff; [|done..].
  destruct (Better key (cand h p) (cand h q)) eqn:E; [done|]. exfalso. apply Hne.
  assert (Hpq : pickKey h a key = Some q); [|congruence].
  apply pickKey_iff; [done..|]. split; [done|]. rewrite Forall_forall in Hok, Hbest |- *.
  intros r Hr. pose proof (affinityCandidate_ok _ (Hok r Hr)).
  pose proof (affinityCandidate_ok _ (Hok p Hin)). pose proof (affinityCandidate_ok _ (Hok q Hq)).
  apply (not_Better_trans key Hkey _ (cand h p)); auto.
Qed.

(** The pick heads the reference ranking. *)
Lemma pickKey_head a p :
  Forall (fun p => backend_ok (deref h p)) a ->
  NoDup (map (fun p => b_affinityID (deref h p)) a) -> pickKey h a key = Some p ->
  head (ranked key (map (fun q => cand h q) a)) = Some (cand h p).
Proof.
  intros Hok Hn Hp. pose proof Hp as [Hin _]%pickKey_iff; [|done..].
  assert (Hc : Forall cand_ok (map (fun q => cand h q) a)).
  { apply Forall_map. eapply Forall_impl; [exact Hok|]. intros q Hq. by apply affinityCandidate_ok. }
  pose proof (ranked_sorted key _ Hkey Hc) as Hs.
  pose proof (ranked_perm key (map (fun q => cand h q) a)) as Hpm.
  destruct (ranked key (map (fun q => cand h q) a)) as [|c l].
  { apply Permutation_nil in Hpm. destruct a; [by apply elem_of_nil in Hin|done]. }
  simpl. f_equal. apply StronglySorted_cons in Hs as [Hs _]. rewrite Forall_forall in Hs.
  assert (Hc' : c ∈ map (fun q => cand h q) a) by (rewrite <- Hpm; left).
  apply list_elem_of_fmap in Hc' as (q & -> & Hq).
  destruct (decide (q = p)) as [->|Hne]; [done|]. exfalso.
  assert (Hp' : cand h p ∈ cand h q :: l) by (rewrite Hpm; apply list_elem_of_fmap; eauto).
  pose proof (pickKey_strict a p q Hok Hn Hp Hq Hne) as Hb. apply elem_of_cons in Hp' as [E|Hp'].
  - rewrite E, Better_irrefl in Hb; [done..|]. rewrite Forall_forall in Hok.
    apply affinityCandidate_ok; auto.
  - rewrite (Hs _ Hp') in Hb. done.
Qed.
End Rendezvous.

(** ** Least connections *)

Lemma leastConn_loop_min h a best p :
  leastConn_loop h a best = Some p ->
  (forall q m, best = Some (q, m) -> m = b_inflight (deref h q)) ->
  (forall q, q ∈ a -> b_inflight (deref h p) <= b_inflight (deref h q)) /\
  (forall q m, best = Some (q, m) -> b_inflight (deref h p) <= m).
Proof.
  revert best. induction a as [|x a IH]; intros best Hp Hb; simpl in Hp.
  - split; [by intros q ?%elem_of_nil|]. intros q m ->. simpl in Hp. injection Hp as ->.
    by rewrite (Hb _ _ eq_refl).
  - destruct best as [[r m]|].
    + destruct (b_inflight (deref h x) <? m) eqn:E; apply IH in Hp as [H1 H2].
      * specialize (H2 _ _ eq_refl). split; [by intros q [->|?]%elem_of_cons; auto|].
        intros q m' [= <- <-]. lia.
      * by intros q m' [= <- <-].
      * specialize (H2 _ _ eq_refl).
        split; [intros q [->|?]%elem_of_cons; [lia|auto]|]. by intros q m' [= <- <-].
      * done.
    + apply IH in Hp as [H1 H2]; [|by intros q m [= <- <-]]. specialize (H2 _ _ eq_refl).
      split; [by intros q [->|?]%elem_of_cons; auto|done].
Qed.

(** ** Round robin *)

Lemma roundRobin_index n a :
  a <> [] -> 0 <= n -> n + 1 < 2 ^ 64 ->
  roundRobin_pick n a = (a !! Z.to_nat (n mod Z.of_nat (length a)), roundRobin (n + 1)).
Proof.
  intros Ha Hn Hb. destruct a as [|x a]; [done|]. unfold roundRobin_pick.
  rewrite (u64_small (n + 1)), u64_small by lia. by replace (n + 1 - 1) with n by lia.
Qed.

(** [k] picks in a row on the same backends. *)
Fixpoint rr_picks (k : nat) (n : Z) (a : list ptr) : list (option ptr) :=
  match k with
  | O => []
  | S k => match roundRobin_pick n a with
           | (p, roundRobin n') => p :: rr_picks k n' a
           | (p, _) => [p]
           end
  end.

Lemma rr_picks_lookup k n a i :
  a <> [] -> 0 <= n -> n + Z.of_nat k < 2 ^ 64 -> (i < k)%nat ->
  rr_picks k n a !! i = Some (a !! Z.to_nat ((n + Z.of_nat i) mod Z.of_nat (length a))).
Proof.
  revert n i. induction k as [|k IH]; intros n i Ha Hn Hk Hi; [lia|].
  cbn [rr_picks]. rewrite roundRobin_index by (done || lia). destruct i as [|i]; simpl.
  - by rewrite Z.add_0_r.
  - rewrite IH by (done || lia).
    by replace (n + Z.of_nat (S i)) with (n + 1 + Z.of_nat i) by lia.
Qed.

Lemma rr_picks_length k n a : a <> [] -> 0 <= n -> n + Z.of_nat k < 2 ^ 64 -> length (rr_picks k n a) = k.
Proof.
  revert n. induction k as [|k IH]; intros n Ha Hn Hk; [done|].
  cbn [rr_picks]. rewrite roundRobin_index by (done || lia). simpl. rewrite IH by (done || lia). done.
Qed.

(** One turn is the list rotated to the counter's position. *)
Lemma rr_turn n a :
  a <> [] -> 0 <= n -> n + Z.of_nat (length a) < 2 ^ 64 ->
  let r := Z.to_nat (n mod Z.of_nat (length a)) in
  rr_picks (length a) n a = map Some (drop r a ++ take r a).
Proof.
  intros Ha Hn Hb r. pose proof (nonempty_length a Ha) as Hl.
  pose proof (Z.mod_pos_bound n (Z.of_nat (length a)) ltac:(lia)) as Hr.
  apply list_eq. intros i. destruct (decide (i < length a)%nat) as [Hi|Hi].
  - rewrite rr_picks_lookup by (done || lia). rewrite list_lookup_fmap.
    destruct (decide (i < length a - r)%nat) as [Hir|Hir].
    + rewrite lookup_app_l, lookup_drop by (rewrite length_drop; lia).
      assert (E : Z.to_nat ((n + Z.of_nat i) mod Z.of_nat (length a)) = (r + i)%nat).
      { rewrite <- Z.add_mod_idemp_l, Z.mod_small by lia. subst r. lia. }
      rewrite E. destruct (lookup_lt_is_Some_2 a (r + i)) as [x ->]; [lia|done].
    + rewrite lookup_app_r, length_drop, lookup_take_lt by (rewrite ?length_drop; lia).
      assert (E : Z.to_nat ((n + Z.of_nat i) mod Z.of_nat (length a)) = (i - (length a - r))%nat).
      { rewrite <- Z.add_mod_idemp_l by lia.
        replace (n mod Z.of_nat (length a) + Z.of_nat i)
          with (Z.of_nat (i - (length a - r)) + 1 * Z.of_nat (length a)) by (subst r; lia).
        rewrite Z.mod_add, Z.mod_small by lia. lia. }
      rewrite E. destruct (lookup_lt_is_Some_2 a (i - (length a - r))) as [x ->]; [lia|done].
  - rewrite !lookup_ge_None_2; [done| |].
    + rewrite length_map, length_app, length_drop, length_take. lia.
    + rewrite rr_picks_length by (done || lia). lia.
Qed.

(** ** Properties *)

(** Smooth weighted round robin is exact and smooth.  On a fixed set of
    backends with weights summing to [W], after any number [k] of picks no
    backend is a full turn ahead of its share [k * weight / W], and every [W]
    picks each backend has been chosen exactly [weight] times and the
    accumulators are back at zero. *)
Theorem weightedRR_fair h a :
  NoDup a -> a <> [] -> (forall p, p ∈ a -> 1 <= weight_of h p) ->
  W h a * (Z.of_nat (length a) + 1) <= max_int64 ->
  (forall k p, p ∈ a ->
     W h a * countZ p (wrr_picks h a k ∅).1 < Z.of_nat k * weight_of h p + W h a) /\
  (forall p, p ∈ a ->
     countZ p (wrr_picks h a (Z.to_nat (W h a)) ∅).1 = weight_of h p /\
     cur (wrr_picks h a (Z.to_nat (W h a)) ∅).2 p = 0).
Proof.
  intros Hnd Hne Hw Hroom. pose proof (W_pos h a Hne Hw) as HW.
  pose proof (wrr_picks_spec h a Hnd Hne Hw Hroom) as Hspec. split.
  - intros k p Hp. destruct (Hspec k) as ([_ Hl] & _ & _ & Hc). specialize (Hl p Hp).
    rewrite Hc in Hl by done. lia.
  - destruct (Hspec (Z.to_nat (W h a))) as ([_ Hl] & Hlen & Hall & Hc).
    destruct (wrr_picks h a (Z.to_nat (W h a)) ∅) as [ps m]. simpl in *.
    rewrite Z2Nat.id in Hc by lia.
    assert (Hle : forall p, p ∈ a -> countZ p ps <= weight_of h p).
    { intros p Hp. specialize (Hl p Hp). rewrite Hc in Hl by done. nia. }
    assert (Heq : forall p, p ∈ a -> countZ p ps = weight_of h p).
    { apply sumZ_tight; [done|]. rewrite (sum_counts a Hnd ps Hall), Hlen. unfold W in *. lia. }
    intros p Hp. split; [by apply Heq|]. rewrite Hc, Heq by done. lia.
Qed.

Definition demo_backend (addr : gostring) (w inflight : Z) : Backend :=
  let id := Identity (str "tcp") addr in
  MkBackend addr (str "tcp") (Some (str "http", addr)) (str "http") [] w inflight
    (newCircuit 3 0 1) true id (Sum id).

Definition demo_heap : heap :=
  [demo_backend (str "a:80") 5 4; demo_backend (str "b:80") 1 2; demo_backend (str "c:80") 1 3].

Lemma demo_heap_ok : Forall (fun p => backend_ok (deref demo_heap p)) [0; 1; 2]%nat.
Proof.
  repeat constructor; simpl; unfold max_int64; try lia; done.
Qed.

Lemma weightedRR_fair_witness :
  W demo_heap [0; 1; 2]%nat = 7 /\
  countZ 0%nat (wrr_picks demo_heap [0; 1; 2]%nat (Z.to_nat (W demo_heap [0; 1; 2]%nat)) ∅).1 =
  weight_of demo_heap 0%nat.
Proof.
  split; [reflexivity|].
  destruct (weightedRR_fair demo_heap [0; 1; 2]%nat) as [_ H]; [|done| |by vm_compute|].
  - apply (bool_decide_unpack _). by vm_compute.
  - intros p [->|[->|[->|?%elem_of_nil]%elem_of_cons]%elem_of_cons]%elem_of_cons;
      [vm_compute; congruence..|done].
  - destruct (H 0%nat) as [E _]; [left|exact E].
Defined.

(** Keyed selection is the unique best backend of the eligible set, hence
    the head of the key's [Rank]; and it is minimally disruptive: as long as
    the backend a key is on stays in the set, no arrival, departure or
    reordering of other backends moves the key, and when it leaves, the key
    goes to the best of the rest. *)
Theorem pickKey_minimal_disruption h key a a' p :
  0 <= key < 2 ^ 64 -> Forall (fun p => backend_ok (deref h p)) a ->
  NoDup (map (fun p => b_affinityID (deref h p)) a) -> pickKey h a key = Some p ->
  head (ranked key (map (fun q => cand h q) a)) = Some (cand h p) /\
  (forall q, q ∈ a -> q <> p -> Better key (cand h p) (cand h q) = true) /\
  (a' `sublist_of` a -> p ∈ a' -> pickKey h a' key = Some p) /\
  (Permutation a a' -> pickKey h a' key = Some p).
Proof.
  intros Hk Hok Hn Hp. pose proof Hp as [Hin Hbest]%pickKey_iff; [|done..].
  split; [by apply pickKey_head|]. split; [intros; by eapply pickKey_strict|].
  rewrite Forall_forall in Hok, Hbest. split.
  - intros Hsub Hp'. apply pickKey_iff; [done| | |split; [done|]].
    + apply Forall_forall. intros q Hq. apply Hok. by eapply elem_of_sublist.
    + eapply sublist_NoDup; [exact Hn|]. by apply fmap_sublist.
    + apply Forall_forall. intros q Hq. apply Hbest. by eapply elem_of_sublist.
  - intros Hperm. apply pickKey_iff; [done| | |rewrite <- Hperm, Forall_forall; done].
    + rewrite <- Hperm. by apply Forall_forall.
    + eapply NoDup_Permutation_proper; [|exact Hn]. symmetry. by apply Permutation_map.
Qed.

Lemma pickKey_minimal_disruption_witness :
  pickKey demo_heap [1; 2]%nat (Sum (str "user:42")) = Some 1%nat.
Proof.
  destruct (pickKey_minimal_disruption demo_heap (Sum (str "user:42")) [0; 1; 2]%nat [1; 2]%nat 1)
    as (_ & _ & H & _).
  - apply Sum_range.
  - apply demo_heap_ok.
  - apply (bool_decide_unpack _). by vm_compute.
  - by vm_compute.
  - apply H; [by apply sublist_cons|left].
Defined.

(** Round robin gives every backend exactly one turn in each window of as
    many picks as there are backends, in a fixed cyclic order, wherever the
    counter stands (short of its 64-bit wrap). *)
Theorem roundRobin_turn n a :
  a <> [] -> 0 <= n -> n + Z.of_nat (length a) < 2 ^ 64 ->
  Permutation (rr_picks (length a) n a) (map Some a).
Proof.
  intros Ha Hn Hb. rewrite rr_turn by done. apply Permutation_map.
  rewrite Permutation_app_comm. by rewrite take_drop.
Qed.

Lemma roundRobin_turn_witness :
  Permutation (rr_picks 3 7 [4; 5; 6]%nat) (map Some [4; 5; 6]%nat).
Proof. apply (roundRobin_turn 7 [4; 5; 6]%nat); [done|lia|simpl; lia]. Defined.

(** Least connections picks an available backend with the fewest in-flight
    requests. *)
Theorem leastConn_min h a p :
  leastConn_pick h a = Some p ->
  p ∈ a /\ forall q, q ∈ a -> b_inflight (deref h p) <= b_inflight (deref h q).
Proof.
  intros E. split; [by apply leastConn_loop_in in E as [?|?]|].
  by apply leastConn_loop_min in E as [? _].
Qed.

Lemma leastConn_min_witness : b_inflight (deref demo_heap 1%nat) <= b_inflight (deref demo_heap 0%nat).
Proof. apply (leastConn_min demo_heap [0; 1; 2]%nat); [reflexivity|left]. Defined.
