(* ===== verification/Pool.v ===== *)
(** * Pools (src/internal/upstream/pool.go, snapshot.go)

    Backend selection, result reporting, and the replacement of the backend set
    by a reload or a discovery refresh.  Backends are heap objects shared by the
    pool, its snapshots and outstanding attempts. *)

From S2P Require Import Prelude GoStrings Netip Affinity Circuit Resilience Backend Balancer.

Inductive poolErr := ErrNoAvailableBackend | ErrBackendAtCapacity.

(** ** Selection *)

(** The state selection runs in: the backends and the clock. *)
Record World := MkWorld { w_heap : heap; w_now : Z }.

Definition set_backend (p : ptr) (b : Backend) (w : World) : World :=
  MkWorld (<[p := b]> (w_heap w)) (w_now w).

(** The eligibility filter: the candidates in order and whether one was left
    out for capacity alone. *)
Fixpoint select_filter (now : Z) (h : heap) (perBackend : Z) (excluded : list BackendIdentity)
    (backends : list ptr) : list ptr * bool :=
  match backends with
  | [] => ([], false)
  | p :: rest =>
      let b := deref h p in
      let '(avail, saturated) := select_filter now h perBackend excluded rest in
      if negb (available now b) then (avail, saturated)
      else if bool_decide (backend_Identity b ∈ excluded) then (avail, saturated)
      else if (0 <? perBackend) && (perBackend <=? b_inflight b) then (avail, true)
      else (p :: avail, saturated)
  end.

Fixpoint removeBackend (s : list ptr) (b : ptr) : list ptr :=
  match s with
  | [] => []
  | c :: s => if bool_decide (c = b) then s else c :: removeBackend s b
  end.

Section Select.
Context {B : Type} `{ChooserOk B}.

(** Selection does not run alone: [env n] is what other goroutines and the
    clock did before the claim made with [n] turns left. *)
Variable env : nat -> World -> World.

Fixpoint select_loop (fuel : nat) (w : World) (bal : B) (avail : list ptr) (key : Key)
  : World * B * option (ptr * admission) :=
  match fuel, avail with
  | S fuel, _ :: _ =>
      let w := env fuel w in
      match choose (w_heap w) bal avail key with
      | (None, bal) => (w, bal, None)
      | (Some p, bal) =>
          let '(b, r) := backend_admit (w_now w) (deref (w_heap w) p) in
          match r with
          | Some adm => (set_backend p (acquire b) w, bal, Some (p, adm))
          | None => select_loop fuel (set_backend p b w) bal (removeBackend avail p) key
          end
      end
  | _, _ => (w, bal, None)
  end.

Definition selectBackend (w : World) (backends : list ptr) (bal : B) (perBackend : Z)
    (excluded : list BackendIdentity) (key : Key) : World * B * (poolErr + ptr * admission) :=
  let '(avail, saturated) := select_filter (w_now w) (w_heap w) perBackend excluded backends in
  match select_loop (length avail) w bal avail key with
  | (w, bal, Some at_) => (w, bal, inr at_)
  | (w, bal, None) =>
      (w, bal, inl (if saturated then ErrBackendAtCapacity else ErrNoAvailableBackend))
  end.
End Select.

(** Selection running alone. *)
Definition alone (n : nat) (w : World) : World := w.

(** ** Attempts *)

Record Attempt := MkAttempt { at_Backend : ptr; at_adm : admission }.

Definition MarkSuccess (a : Attempt) (h : heap) : heap * bool :=
  let b := deref h (at_Backend a) in
  let '(c, r) := circuit_success (at_adm a) (b_circuit b) in
  (<[at_Backend a := set_circuit c b]> h, r).

Definition MarkFailure (now : Z) (a : Attempt) (h : heap) : heap * bool :=
  let b := deref h (at_Backend a) in
  let '(c, r) := circuit_failure now (at_adm a) (b_circuit b) in
  (<[at_Backend a := set_circuit c b]> h, r).

Definition ReleaseProbe (a : Attempt) (h : heap) : heap :=
  let b := deref h (at_Backend a) in
  <[at_Backend a := set_circuit (circuit_releaseProbe (at_adm a) (b_circuit b)) b]> h.

Definition pool_Release (a : Attempt) (h : heap) : heap :=
  <[at_Backend a := Release (deref h (at_Backend a))]> h.

Definition ForceClose (p : ptr) (h : heap) : heap * bool :=
  let b := deref h p in
  let '(c, r) := circuit_forceClose (b_circuit b) in
  (<[p := set_circuit c b]> h, r).

(** ** The pool *)

Record circuitParams := MkCircuitParams {
  cp_maxFails : Z;
  cp_failTimeout : Z;
  cp_halfOpenProbes : Z
}.

Record Target := MkTarget { t_Address : gostring; t_Weight : Z; t_ID : gostring }.

(** [circuitHook] records whether a transition hook is installed; [discoveryOn]
    whether a discovery worker holds an uncancelled context. *)
Record Pool := MkPool {
  p_name : gostring;
  p_scheme : gostring;
  p_strategy : gostring;
  p_balancer : Balancer;
  p_circuit : circuitParams;
  p_circuitHook : bool;
  p_backends : list ptr;
  p_discoveryEpoch : Z;
  p_discoveryOn : bool;
  p_policy : Policy;
  p_closed : bool
}.

Definition newBackendFor (rawAddress : gostring) (weight : Z) (id scheme : gostring)
    (cp : circuitParams) : Backend :=
  let weight := if weight <? 1 then 1 else weight in
  let '(network, address) := ParseSocketAddress rawAddress in
  let affinityID := Identity network address in
  MkBackend address network
    (if bool_decide (network = NetworkTCP) then Some (scheme, address) else None)
    scheme id weight 0 (newCircuit (cp_maxFails cp) (cp_failTimeout cp) (cp_halfOpenProbes cp))
    true affinityID (Sum affinityID).

Definition newBackend (s : gostring * Z) (scheme : gostring) (cp : circuitParams) : Backend :=
  newBackendFor s.1 s.2 [] scheme cp.

(** Allocation: the new objects at the end of the heap. *)
Definition alloc (bs : list Backend) (h : heap) : heap * list ptr :=
  (h ++ bs, seq (length h) (length bs)).

(** The parts of an upstream's configuration [NewPool] reads; [uc_Resilience]
    are the options of its resilience block, [uc_circuit] the resolved breaker
    parameters and [uc_dynamic] whether discovery is enabled. *)
Record UpstreamConfig := MkUpstreamConfig {
  uc_Name : gostring;
  uc_Strategy : gostring;
  uc_Fallback : gostring;
  uc_Servers : list (gostring * Z);
  uc_dynamic : bool;
  uc_Resilience : Options;
  uc_circuit : circuitParams
}.

Inductive newPoolErr := NoServers | BadResilience (e : resErr).

Definition NewPool (cfg : UpstreamConfig) (scheme : gostring) (h : heap) : newPoolErr + heap * Pool :=
  if bool_decide (uc_Servers cfg = []) && negb (uc_dynamic cfg) then inl NoServers
  else match Resolve (uc_Resilience cfg) with
  | inl e => inl (BadResilience e)
  | inr policy =>
      let fallback :=
        if bool_decide (uc_Strategy cfg = str "consistent_hash") then uc_Fallback cfg else [] in
      let '(h, ps) := alloc (map (fun s => newBackend s scheme (uc_circuit cfg)) (uc_Servers cfg)) h in
      inr (h, MkPool (uc_Name cfg) scheme (uc_Strategy cfg) (newBalancer (uc_Strategy cfg) fallback)
                (uc_circuit cfg) false ps 0 false policy false)
  end.

Record reuseKey := MkReuseKey { rk_id : gostring; rk_network : gostring; rk_address : gostring }.

#[export] Instance reuseKey_eq_dec : EqDecision reuseKey.
Proof. solve_decision. Defined.

Definition keyFor (b : Backend) : reuseKey := MkReuseKey (b_id b) (b_Network b) (b_Address b).

(** The map from reuse keys to current backends, a later entry overwriting an
    earlier one with the same key. *)
Notation reuseMap := (list (reuseKey * ptr)).

Fixpoint rm_lookup (k : reuseKey) (m : reuseMap) : option ptr :=
  match m with
  | [] => None
  | (k', p) :: m => if bool_decide (k = k') then Some p else rm_lookup k m
  end.

Definition rm_delete (k : reuseKey) (m : reuseMap) : reuseMap :=
  filter (fun e => e.1 <> k) m.

Definition rm_insert (k : reuseKey) (p : ptr) (m : reuseMap) : reuseMap :=
  (k, p) :: rm_delete k m.

(** The loop over the incoming backends. *)
Fixpoint reuse_loop (next : list ptr) (prev : reuseMap) (h : heap) : heap * list ptr :=
  match next with
  | [] => (h, [])
  | n :: next =>
      let b := deref h n in
      match rm_lookup (keyFor b) prev with
      | None => let '(h, ps) := reuse_loop next prev h in (h, n :: ps)
      | Some e =>
          let h := <[e := set_weight (b_weight b) (deref h e)]> h in
          let '(h, ps) := reuse_loop next (rm_delete (keyFor b) prev) h in
          (h, e :: ps)
      end
  end.

Definition applyCircuitHook (hook : bool) (ps : list ptr) (h : heap) : heap :=
  if hook
  then fold_left (fun h p =>
    <[p := set_circuit (setTransitionHook (b_circuit (deref h p))) (deref h p)]> h) ps h
  else h.

Definition set_backends (ps : list ptr) (bal : Balancer) (pl : Pool) : Pool :=
  MkPool (p_name pl) (p_scheme pl) (p_strategy pl) bal (p_circuit pl) (p_circuitHook pl) ps
    (p_discoveryEpoch pl) (p_discoveryOn pl) (p_policy pl) (p_closed pl).

Definition replaceBackends (next : list ptr) (h : heap) (pl : Pool) : heap * Pool :=
  let prev := fold_left (fun m p => rm_insert (keyFor (deref h p)) p m) (p_backends pl) [] in
  let '(h, ps) := reuse_loop next prev h in
  let h := applyCircuitHook (p_circuitHook pl) ps h in
  (h, set_backends ps (updateBackends (p_balancer pl)) pl).

Definition UpdateBackends (servers : list (gostring * Z)) (h : heap) (pl : Pool) : heap * Pool :=
  let '(h, next) := alloc (map (fun s => newBackend s (p_scheme pl) (p_circuit pl)) servers) h in
  replaceBackends next h pl.

Definition UpdateTargets (targets : list Target) (h : heap) (pl : Pool) : heap * Pool :=
  let '(h, next) := alloc (map (fun t => newBackendFor (t_Address t) (t_Weight t) (t_ID t)
    (p_scheme pl) (p_circuit pl)) targets) h in
  replaceBackends next h pl.

Definition setCircuitLimits (cp : circuitParams) (h : heap) (pl : Pool) : heap * Pool :=
  (fold_left (fun h p => <[p := set_circuit (setLimits (cp_maxFails cp) (cp_failTimeout cp)
      (cp_halfOpenProbes cp) (b_circuit (deref h p))) (deref h p)]> h) (p_backends pl) h,
   MkPool (p_name pl) (p_scheme pl) (p_strategy pl) (p_balancer pl) cp (p_circuitHook pl)
     (p_backends pl) (p_discoveryEpoch pl) (p_discoveryOn pl) (p_policy pl) (p_closed pl)).

Definition SetCircuitHook (h : heap) (pl : Pool) : heap * Pool :=
  (applyCircuitHook true (p_backends pl) h,
   MkPool (p_name pl) (p_scheme pl) (p_strategy pl) (p_balancer pl) (p_circuit pl) true
     (p_backends pl) (p_discoveryEpoch pl) (p_discoveryOn pl) (p_policy pl) (p_closed pl)).

Definition HealthyCount (h : heap) (pl : Pool) : Z :=
  Z.of_nat (length (filter (fun p => b_activeHealthy (deref h p) = true) (p_backends pl))).

(** ** Discovery generations *)

Definition set_discovery (epoch : Z) (on : bool) (pl : Pool) : Pool :=
  MkPool (p_name pl) (p_scheme pl) (p_strategy pl) (p_balancer pl) (p_circuit pl)
    (p_circuitHook pl) (p_backends pl) epoch on (p_policy pl) (p_closed pl).

Definition StopDiscovery (pl : Pool) : Pool :=
  set_discovery (u64 (p_discoveryEpoch pl + 1)) false pl.

Definition beginDiscoveryGeneration (pl : Pool) : Pool * Z :=
  let e := u64 (p_discoveryEpoch pl + 1) in (set_discovery e true pl, e).

Definition applyDiscoveryTargets (epoch : Z) (targets : list Target) (h : heap) (pl : Pool)
  : heap * Pool * bool :=
  if negb (p_discoveryEpoch pl =? epoch) then (h, pl, false)
  else let '(h, pl) := UpdateTargets targets h pl in (h, pl, true).

Definition Close (pl : Pool) : Pool :=
  if p_closed pl then pl
  else
    let pl := StopDiscovery pl in
    MkPool (p_name pl) (p_scheme pl) (p_strategy pl) (p_balancer pl) (p_circuit pl)
      (p_circuitHook pl) (p_backends pl) (p_discoveryEpoch pl) (p_discoveryOn pl) (p_policy pl) true.

(** ** Snapshots *)

(** A generation's view of a pool: the backends at capture with a balancer of
    its own, or the live pool when discovery owns the set. *)
Record PoolSnapshot := MkSnapshot {
  sn_backends : list ptr;
  sn_balancer : Balancer;
  sn_dynamic : bool
}.

Definition Snapshot (dynamic : bool) (fallback : gostring) (pl : Pool) : PoolSnapshot :=
  MkSnapshot (p_backends pl) (newBalancer (p_strategy pl) fallback) dynamic.

Definition pool_pickKeyed (env : nat -> World -> World) (w : World) (pl : Pool)
    (excluded : list BackendIdentity) (key : Key) : World * Pool * (poolErr + ptr * admission) :=
  let '(w, bal, r) := selectBackend env w (p_backends pl) (p_balancer pl)
    (maxActivePerBackend (p_policy pl)) excluded key in
  (w, set_backends (p_backends pl) bal pl, r).

Definition snap_pickKeyed (env : nat -> World -> World) (w : World) (sn : PoolSnapshot) (pl : Pool)
    (excluded : list BackendIdentity) (key : Key)
  : World * PoolSnapshot * Pool * (poolErr + ptr * admission) :=
  if sn_dynamic sn then
    let '(w, pl, r) := pool_pickKeyed env w pl excluded key in (w, sn, pl, r)
  else
    let '(w, bal, r) := selectBackend env w (sn_backends sn) (sn_balancer sn)
      (maxActivePerBackend (p_policy pl)) excluded key in
    (w, MkSnapshot (sn_backends sn) bal (sn_dynamic sn), pl, r).

(** ** The filter *)

Definition at_capacity (perBackend : Z) (b : Backend) : bool :=
  (0 <? perBackend) && (perBackend <=? b_inflight b).

(** In rotation and not excluded, capacity aside. *)
Definition usable (now : Z) (excluded : list BackendIdentity) (b : Backend) : bool :=
  available now b && negb (bool_decide (backend_Identity b ∈ excluded)).

Definition candidate (now : Z) (h : heap) (perBackend : Z) (excluded : list BackendIdentity)
    (p : ptr) : Prop :=
  usable now excluded (deref h p) = true /\ at_capacity perBackend (deref h p) = false.

#[export] Instance candidate_dec now h perBackend excluded p :
  Decision (candidate now h perBackend excluded p).
Proof. unfold candidate. apply _. Defined.

Lemma select_filter_eq now h perBackend excluded backends :
  select_filter now h perBackend excluded backends =
  (filter (candidate now h perBackend excluded) backends,
   existsb (fun p => usable now excluded (deref h p) && at_capacity perBackend (deref h p)) backends).
Proof.
  induction backends as [|p ps IH]; [done|]. cbn [select_filter existsb]. rewrite IH, filter_cons.
  fold (at_capacity perBackend (deref h p)).
  destruct (available now (deref h p)) eqn:E1; cbn [negb].
  - destruct (bool_decide (backend_Identity (deref h p) ∈ excluded)) eqn:E2.
    + assert (U : usable now excluded (deref h p) = false) by (unfold usable; by rewrite E1, E2).
      rewrite U, decide_False; [done|]. intros [? _]. congruence.
    + assert (U : usable now excluded (deref h p) = true) by (unfold usable; by rewrite E1, E2).
      rewrite U. destruct (at_capacity perBackend (deref h p)) eqn:E3.
      * rewrite decide_False; [done|]. intros [_ ?]. congruence.
      * by rewrite decide_True by done.
  - assert (U : usable now excluded (deref h p) = false) by (unfold usable; by rewrite E1).
    rewrite U, decide_False; [done|]. intros [? _]. congruence.
Qed.

Lemma removeBackend_perm s p : p ∈ s -> Permutation s (p :: removeBackend s p).
Proof.
  induction s as [|c s IH]; intros Hp; [by apply elem_of_nil in Hp|]. simpl.
  case_bool_decide; [by subst|]. apply elem_of_cons in Hp as [->|Hp]; [done|].
  rewrite (IH Hp) at 1. apply Permutation_swap.
Qed.

(** ** Selection under interference *)

Section SelectSound.
Context {B : Type} `{ChooserOk B} (env : nat -> World -> World).

Lemma select_loop_sound fuel w bal avail key w' bal' p adm :
  select_loop env fuel w bal avail key = (w', bal', Some (p, adm)) ->
  p ∈ avail /\ exists w1 b, backend_admit (w_now w1) (deref (w_heap w1) p) = (b, Some adm) /\
    w' = set_backend p (acquire b) w1.
Proof.
  revert w bal avail. induction fuel as [|fuel IH]; intros w bal [|x avail] E; try discriminate.
  cbn [select_loop] in E. pose proof (choose_in (w_heap (env fuel w)) bal (x :: avail) key) as Hin.
  destruct (choose _ _ _ _) as [[q|] bal1]; [|done].
  destruct (backend_admit _ _) as [b [adm'|]] eqn:Ea.
  - injection E as <- <- <- <-. split; [by apply Hin|]. eauto.
  - apply IH in E as [Hp E]. split; [|done]. specialize (Hin q eq_refl).
    rewrite (removeBackend_perm _ _ Hin). by right.
Qed.
End SelectSound.

(** ** Selection running alone *)

Definition heap_ok (h : heap) (ps : list ptr) : Prop :=
  forall p, p ∈ ps -> (p < length h)%nat /\ backend_ok (deref h p).

(** How far selection may touch a backend it does not choose: an expired
    half-open breaker is re-opened. *)
Definition touched (now : Z) (b b' : Backend) : Prop :=
  b' = b \/ (expired now (b_circuit b) = true /\ b' = set_circuit (openLocked now (b_circuit b)) b).

Lemma backend_admit_refused now b :
  backend_ok b -> available now b = true -> (backend_admit now b).2 = None ->
  expired now (b_circuit b) = true /\
  (backend_admit now b).1 = set_circuit (openLocked now (b_circuit b)) b.
Proof.
  intros Hok Hav Hr. assert (He : expired now (b_circuit b) = true).
  { destruct (expired now (b_circuit b)) eqn:E; [done|].
    destruct (proj2 (backend_admit_spec now b Hok) (conj Hav E)) as [adm Ha]. congruence. }
  split; [done|]. unfold backend_admit, available in *.
  destruct (b_activeHealthy b); [|discriminate].
  destruct (admit_eligible now (b_circuit b) (bo_circuit _ Hok)) as [_ E].
  specialize (E He). simpl. by destruct (circuit_admit now (b_circuit b)) as [c adm]; simpl in *; subst.
Qed.

Section SelectAlone.
Context {B : Type} `{ChooserOk B}.

Record alone_result (w w' : World) (avail : list ptr) (r : option (ptr * admission)) : Prop := {
  ar_now : w_now w' = w_now w;
  ar_length : length (w_heap w') = length (w_heap w);
  ar_others : forall q, (forall adm, r <> Some (q, adm)) ->
    touched (w_now w) (deref (w_heap w) q) (deref (w_heap w') q);
  ar_none : r = None -> forall q, q ∈ avail -> expired (w_now w) (b_circuit (deref (w_heap w) q)) = true;
  ar_some : forall p adm, r = Some (p, adm) ->
    p ∈ avail /\ expired (w_now w) (b_circuit (deref (w_heap w) p)) = false /\
    exists b, backend_admit (w_now w) (deref (w_heap w) p) = (b, Some adm) /\
      deref (w_heap w') p = acquire b
}.

Lemma alone_result_refused w w' avail r p :
  p ∈ avail -> NoDup avail -> heap_ok (w_heap w) avail ->
  available (w_now w) (deref (w_heap w) p) = true ->
  (backend_admit (w_now w) (deref (w_heap w) p)).2 = None ->
  alone_result (set_backend p (backend_admit (w_now w) (deref (w_heap w) p)).1 w) w'
    (removeBackend avail p) r ->
  alone_result w w' avail r.
Proof.
  intros Hp Hn Hok Hav Hr [R1 R2 R3 R4 R5]. simpl in *. rewrite length_insert in R2.
  pose proof (removeBackend_perm _ _ Hp) as Hperm. rewrite Hperm in Hn. apply NoDup_cons in Hn as [Hpn _].
  destruct (Hok p Hp) as [Hlt Hokp].
  destruct (backend_admit_refused _ _ Hokp Hav Hr) as [He Hb].
  assert (Hne : forall q, q ∈ removeBackend avail p -> p <> q) by (by intros q Hq ->).
  split; [done|done| | |].
  - intros q Hq. destruct (decide (p = q)) as [<-|Hpq].
    + specialize (R3 p Hq). rewrite deref_insert_eq, Hb in R3 by done. right. split; [done|].
      destruct R3 as [->|[He' _]]; [done|]. simpl in He'. unfold expired in He'. cfields. done.
    + specialize (R3 q Hq). by rewrite deref_insert_ne in R3.
  - intros Hrn q Hq. rewrite Hperm in Hq. apply elem_of_cons in Hq as [->|Hq]; [done|].
    specialize (R4 Hrn q Hq). rewrite deref_insert_ne in R4; auto.
  - intros q adm E. destruct (R5 q adm E) as (Hq & He' & Hb').
    rewrite deref_insert_ne in He', Hb' by auto. split; [|done]. rewrite Hperm. by right.
Qed.

Lemma select_loop_alone fuel w bal avail key :
  (length avail <= fuel)%nat -> NoDup avail -> heap_ok (w_heap w) avail ->
  Forall (fun p => available (w_now w) (deref (w_heap w) p) = true) avail ->
  let '(w', _, r) := select_loop alone fuel w bal avail key in alone_result w w' avail r.
Proof.
  revert w bal avail. induction fuel as [|fuel IH]; intros w bal avail Hf Hn Hok Hav.
  - destruct avail; [|simpl in Hf; lia]. split; try done; [by left|by intros _ q ?%elem_of_nil].
  - destruct avail as [|x avail]; [split; try done; [by left|by intros _ q ?%elem_of_nil]|].
    cbn [select_loop]. cbv zeta. change (alone fuel w) with w.
    pose proof (choose_in (w_heap w) bal (x :: avail) key) as Hin.
    destruct (choose_some (w_heap w) bal (x :: avail) key) as [p Hp]; [done|]. specialize (Hin p Hp).
    destruct (choose (w_heap w) bal (x :: avail) key) as [o bal1]. simpl in Hp. subst o.
    pose proof Hav as Hav'. rewrite Forall_forall in Hav'.
    destruct (Hok p Hin) as [Hlt Hokp]. specialize (Hav' p Hin).
    destruct (backend_admit (w_now w) (deref (w_heap w) p)) as [b [adm|]] eqn:Ea.
    + split; simpl; [done|by rewrite length_insert| |done|].
      * intros q Hq. rewrite deref_insert_ne; [by left|]. intros ->. by apply (Hq adm).
      * intros p' adm' [= <- <-]. split; [done|].
        destruct (proj1 (backend_admit_spec (w_now w) _ Hokp)) as [_ He]; [rewrite Ea; eauto|].
        split; [done|]. exists b. split; [done|]. by rewrite deref_insert_eq.
    + pose proof (removeBackend_perm _ _ Hin) as Hperm.
      assert (Hrest : forall q, q ∈ removeBackend (x :: avail) p -> q ∈ x :: avail /\ p <> q).
      { intros q Hq. rewrite Hperm in Hn. apply NoDup_cons in Hn as [Hpn _].
        split; [rewrite Hperm; by right|by intros ->]. }
      specialize (IH (set_backend p b w) bal1 (removeBackend (x :: avail) p)).
      destruct (select_loop alone fuel _ _ _ _) as [[w' bal2] r].
      apply (alone_result_refused w w' (x :: avail) r p); try done; [by rewrite Ea|].
      rewrite Ea. apply IH; clear IH.
      * apply Permutation_length in Hperm. simpl in *. lia.
      * rewrite Hperm in Hn. by apply NoDup_cons in Hn as [_ ?].
      * intros q Hq. destruct (Hrest q Hq) as [Hq' Hne].
        simpl. rewrite length_insert, deref_insert_ne by done. by apply Hok.
      * apply Forall_forall. intros q Hq. destruct (Hrest q Hq) as [Hq' Hne].
        simpl. rewrite deref_insert_ne by done. rewrite Forall_forall in Hav. by apply Hav.
Qed.

(** A backend that is not a candidate is left alone. *)
Lemma select_loop_outside fuel w bal avail key p :
  p ∉ avail ->
  let '(w', _, r) := select_loop alone fuel w bal avail key in
  deref (w_heap w') p = deref (w_heap w) p /\ forall adm, r <> Some (p, adm).
Proof.
  revert w bal avail. induction fuel as [|fuel IH]; intros w bal [|x avail] Hna; try done.
  cbn [select_loop]. cbv zeta. change (alone fuel w) with w.
  pose proof (choose_in (w_heap w) bal (x :: avail) key) as Hin.
  destruct (choose _ _ _ _) as [[q|] bal1]; [|done]. specialize (Hin q eq_refl).
  assert (Hqp : q <> p) by (by intros ->).
  destruct (backend_admit _ _) as [b [adm|]].
  - simpl. rewrite deref_insert_ne by done. split; [done|]. intros adm' [= ? ?]. done.
  - specialize (IH (set_backend q b w) bal1 (removeBackend (x :: avail) q)).
    destruct (select_loop alone fuel _ _ _ _) as [[w' bal2] r].
    simpl in IH. rewrite deref_insert_ne in IH by done. apply IH.
    intros Hr. apply Hna. rewrite (removeBackend_perm _ _ Hin). by right.
Qed.
End SelectAlone.

(** ** Properties of selection *)

(** Selection is sound under interference.  Whatever other goroutines do
    between the filter and the claim, a returned attempt is on a backend that
    passed the filter (in rotation, not excluded, below its capacity limit),
    whose health gate and breaker admitted exactly this request at the moment
    of the claim, and the claim adds exactly one to that backend's in-flight
    count and changes no other backend. *)
Theorem selectBackend_sound {B} `{ChooserOk B} env w backends (bal : B) perBackend excluded key
    w' bal' p adm :
  selectBackend env w backends bal perBackend excluded key = (w', bal', inr (p, adm)) ->
  p ∈ backends /\ candidate (w_now w) (w_heap w) perBackend excluded p /\
  exists w1, let b := deref (w_heap w1) p in
    b_activeHealthy b = true /\ admission_ok adm = true /\
    (circuit_admit (w_now w1) (b_circuit b)).2 = adm /\
    w' = set_backend p (acquire (set_circuit (circuit_admit (w_now w1) (b_circuit b)).1 b)) w1.
Proof.
  unfold selectBackend. rewrite select_filter_eq.
  destruct (select_loop _ _ _ _ _ _) as [[w1 bal1] [[q adm']|]] eqn:E; intros [= <- <- <- <-].
  apply select_loop_sound in E as [Hq (w2 & b & Ha & ->)].
  apply list_elem_of_filter in Hq as [Hc Hq]. split; [done|]. split; [done|]. exists w2.
  unfold backend_admit in Ha. destruct (b_activeHealthy (deref (w_heap w2) q)); [|done].
  simpl in Ha. destruct (circuit_admit _ _) as [c a] eqn:Ec.
  destruct (admission_ok a) eqn:Ea; [|discriminate]. by injection Ha as <- <-.
Qed.

(** The candidates a claim would succeed on. *)
Definition claimable (w : World) (perBackend : Z) (excluded : list BackendIdentity)
    (backends : list ptr) (p : ptr) : Prop :=
  p ∈ backends /\ candidate (w_now w) (w_heap w) perBackend excluded p /\
  expired (w_now w) (b_circuit (deref (w_heap w) p)) = false.

Lemma selectBackend_result {B} `{ChooserOk B} w backends (bal : B) perBackend excluded key :
  NoDup backends -> heap_ok (w_heap w) backends ->
  exists w' bal' r,
    selectBackend alone w backends bal perBackend excluded key =
      (w', bal', match r with
                 | Some x => inr x
                 | None => inl (if existsb (fun p => usable (w_now w) excluded (deref (w_heap w) p) &&
                                    at_capacity perBackend (deref (w_heap w) p)) backends
                                then ErrBackendAtCapacity else ErrNoAvailableBackend)
                 end) /\
    alone_result w w' (filter (candidate (w_now w) (w_heap w) perBackend excluded) backends) r.
Proof.
  intros Hn Hok. unfold selectBackend. rewrite select_filter_eq.
  set (avail := filter _ backends). pose proof (select_loop_alone (length avail) w bal avail key) as Hl.
  destruct (select_loop alone _ _ _ _ _) as [[w' bal'] r]. exists w', bal', r.
  split; [by destruct r|]. apply Hl; [lia|by apply NoDup_filter| |].
  - intros p [_ Hp]%list_elem_of_filter. by apply Hok.
  - apply Forall_forall. intros p [[Hu _] _]%list_elem_of_filter. unfold usable in Hu.
    by apply andb_true_iff in Hu as [? _].
Qed.

(** Selection is complete and classifies its failures.  Running alone it
    returns an attempt exactly when some backend is in rotation, not excluded,
    below capacity and not in an expired half-open window; otherwise it
    reports [ErrBackendAtCapacity] exactly when a usable backend was left out
    for capacity.  Of the backends it does not choose it re-opens expired
    half-open breakers and touches nothing else. *)
Theorem selectBackend_complete {B} `{ChooserOk B} w backends (bal : B) perBackend excluded key :
  NoDup backends -> heap_ok (w_heap w) backends ->
  let '(w', _, r) := selectBackend alone w backends bal perBackend excluded key in
  (forall q, (forall adm, r <> inr (q, adm)) ->
     touched (w_now w) (deref (w_heap w) q) (deref (w_heap w') q)) /\
  match r with
  | inr (p, _) =>
      claimable w perBackend excluded backends p /\
      b_inflight (deref (w_heap w') p) = b_inflight (deref (w_heap w) p) + 1
  | inl e =>
      (forall p, ~ claimable w perBackend excluded backends p) /\
      (e = ErrBackendAtCapacity <-> exists p, p ∈ backends /\
         usable (w_now w) excluded (deref (w_heap w) p) = true /\
         at_capacity perBackend (deref (w_heap w) p) = true)
  end.
Proof.
  intros Hn Hok.
  destruct (selectBackend_result w backends bal perBackend excluded key Hn Hok)
    as (w' & bal' & r & -> & [R1 R2 R3 R4 R5]).
  destruct r as [[p adm]|]; 
    (split; [intros q Hq; apply R3; intros adm' Ha; simplify_eq; by eapply Hq|]).
  - destruct (R5 p adm eq_refl) as (Hp & He & b & Ha & Hb). apply list_elem_of_filter in Hp as [Hc Hp].
    split; [done|]. rewrite Hb. unfold backend_admit in Ha.
    destruct (b_activeHealthy _); simpl in Ha; [|done].
    destruct (circuit_admit _ _). by injection Ha as <- _.
  - split.
    + intros p (Hp & Hc & He). rewrite R4 in He; [done..|by apply list_elem_of_filter].
    + destruct (existsb _ _) eqn:E.
      * apply existsb_exists in E as (p & Hp%list_elem_of_In & [? ?]%andb_true_iff). by split; eauto.
      * split; [done|]. intros (p & Hp & Hu & Hcap).
        rewrite <- not_true_iff_false, existsb_exists in E. exfalso. apply E. exists p.
        split; [by apply list_elem_of_In|]. by rewrite Hu, Hcap.
Qed.

(** C40: a half-open backend whose probes are all out never comes back through
    selection.  At every instant, even long after the half-open window has run
    out, selection neither chooses it nor runs the expiry that [admit] would
    perform, because the filter drops it first: if the probes never report, the
    backend stays out of rotation for good. *)
Theorem hung_probe_pins_backend {B} `{ChooserOk B} h t backends (bal : B) perBackend excluded key p :
  NoDup backends -> heap_ok h backends -> p ∈ backends ->
  phase (b_circuit (deref h p)) = phaseHalfOpen ->
  0 < maxProbes (b_circuit (deref h p)) <= probesInFlight (b_circuit (deref h p)) ->
  let '(w', _, r) := selectBackend alone (MkWorld h t) backends bal perBackend excluded key in
  deref (w_heap w') p = deref h p /\ forall adm, r <> inr (p, adm).
Proof.
  intros Hn Hok Hp Hph Hpr. unfold selectBackend. rewrite select_filter_eq. simpl.
  set (avail := filter _ backends).
  assert (Hna : p ∉ avail).
  { intros [[Hu _] _]%list_elem_of_filter. unfold usable, available in Hu.
    rewrite (saturated_not_eligible t) in Hu; [|apply Hok; done|done|done].
    by rewrite andb_false_r in Hu. }
  pose proof (select_loop_outside (length avail) (MkWorld h t) bal avail key p Hna) as Hgen.
  destruct (select_loop alone _ _ _ _ _) as [[w' bal'] [[q adm]|]]; destruct Hgen as [H1 H2].
  - split; [done|]. intros adm' [= -> ->]. by apply (H2 adm').
  - by split.
Qed.

(** ** Replacing the backend set *)

(** The reuse map during the loop: one entry per key, each for an allocated
    backend with that key that is not one of the incoming ones. *)
Definition prev_ok (prev : reuseMap) (h : heap) (next : list ptr) : Prop :=
  NoDup (map fst prev) /\
  forall k e, (k, e) ∈ prev -> keyFor (deref h e) = k /\ (e < length h)%nat /\ e ∉ next.

Lemma rm_lookup_elem k p m : rm_lookup k m = Some p -> (k, p) ∈ m.
Proof.
  induction m as [|[k' q] m IH]; simpl; [done|]. case_bool_decide; [|right; auto].
  intros [= ->]. subst. left.
Qed.

Lemma rm_lookup_None k m : rm_lookup k m = None -> k ∉ map fst m.
Proof.
  induction m as [|[k' q] m IH]; simpl; [by intros _ ?%elem_of_nil|]. case_bool_decide; [done|].
  intros Hn. apply not_elem_of_cons. auto.
Qed.

Lemma rm_lookup_iff k p m : NoDup (map fst m) -> rm_lookup k m = Some p <-> (k, p) ∈ m.
Proof.
  intros Hn. split; [apply rm_lookup_elem|]. intros Hin.
  destruct (rm_lookup k m) as [q|] eqn:E.
  - apply rm_lookup_elem in E. f_equal. apply list_elem_of_lookup in E as [i Hi].
    apply list_elem_of_lookup in Hin as [j Hj].
    assert (i = j) as ->; [|congruence].
    eapply (NoDup_lookup _ _ _ k Hn); rewrite list_lookup_fmap; [by rewrite Hi|by rewrite Hj].
  - apply rm_lookup_None in E. exfalso. apply E, list_elem_of_fmap. by exists (k, p).
Qed.

Lemma rm_delete_elem k k' p m : (k', p) ∈ rm_delete k m <-> (k', p) ∈ m /\ k' <> k.
Proof. unfold rm_delete. rewrite list_elem_of_filter. simpl. tauto. Qed.

Lemma rm_delete_nodup k m : NoDup (map fst m) -> NoDup (map fst (rm_delete k m)).
Proof.
  unfold rm_delete. induction m as [|[k' q] m IH]; simpl; [done|].
  intros [Hk Hm]%NoDup_cons. rewrite filter_cons. case_decide; simpl; [|auto].
  apply NoDup_cons. split; [|auto]. intros Hin. apply Hk.
  apply list_elem_of_fmap in Hin as (e & -> & He%list_elem_of_filter).
  apply list_elem_of_fmap. exists e. tauto.
Qed.

Lemma keyFor_set_weight w b : keyFor (set_weight w b) = keyFor b.
Proof. done. Qed.

(** What became of an incoming backend: it is kept, its key being new, or
    dropped for the current backend with its key, which takes its weight. *)
Definition placed (prev : reuseMap) (h h' : heap) (n p : ptr) : Prop :=
  (p = n /\ deref h' n = deref h n) \/
  ((keyFor (deref h n), p) ∈ prev /\ deref h' p = set_weight (b_weight (deref h n)) (deref h p)).

Lemma prev_ok_step prev h n next k e b :
  prev_ok prev h (n :: next) -> (k, e) ∈ prev -> keyFor b = k ->
  prev_ok (rm_delete k prev) (<[e := b]> h) next.
Proof.
  intros [Hn Hp] Hin Hb. split; [by apply rm_delete_nodup|]. intros k' e' [Hin' Hk]%rm_delete_elem.
  destruct (Hp _ _ Hin') as (Hk' & Hl & Hnx). apply not_elem_of_cons in Hnx as [_ Hnx].
  assert (e <> e') by (intros ->; destruct (Hp _ _ Hin) as [? _]; congruence).
  rewrite deref_insert_ne, length_insert by done. done.
Qed.

Lemma placed_range prev h h' next ps p :
  prev_ok prev h next -> Forall2 (placed prev h h') next ps -> p ∈ ps ->
  p ∈ next \/ exists k, (k, p) ∈ prev.
Proof.
  intros Hp Hf [i Hi]%list_elem_of_lookup.
  destruct (Forall2_lookup_r _ _ _ _ _ Hf Hi) as (m & Hm & [[-> _]|[Hin _]]); [left|eauto].
  by eapply list_elem_of_lookup_2.
Qed.

Lemma placed_step prev h h' next k e b m p :
  prev_ok prev h next -> (k, e) ∈ prev -> m ∈ next ->
  placed (rm_delete k prev) (<[e := b]> h) h' m p -> placed prev h h' m p.
Proof.
  intros [_ Hp] He Hm H. assert (Hem : e <> m) by (intros ->; by apply (Hp _ _ He)).
  unfold placed in *. rewrite !(deref_insert_ne h e m) in H by done.
  destruct H as [?|[Hin Hd]]; [by left|]. right. apply rm_delete_elem in Hin as [Hin Hk].
  split; [done|]. rewrite Hd, deref_insert_ne; [done|]. intros ->.
  destruct (Hp _ _ Hin) as [? _]. destruct (Hp _ _ He) as [? _]. congruence.
Qed.

(** The loop: every incoming backend is placed, no current backend twice, and
    every backend not in the new set is untouched. *)
Lemma reuse_loop_spec next prev h :
  prev_ok prev h next -> NoDup next -> (forall n, n ∈ next -> (n < length h)%nat) ->
  let '(h', ps) := reuse_loop next prev h in
  length h' = length h /\ Forall2 (placed prev h h') next ps /\ NoDup ps /\
  (forall q, q ∉ ps -> deref h' q = deref h q).
Proof.
  revert prev h. induction next as [|n next IH]; intros prev h Hprev Hn Hlt.
  { simpl. split_and!; auto; constructor. }
  assert (Hprev' : prev_ok prev h next).
  { destruct Hprev as [Hnd Hp]. split; [done|]. intros k e He. destruct (Hp _ _ He) as (? & ? & Hx).
    apply not_elem_of_cons in Hx. tauto. }
  apply NoDup_cons in Hn as [Hnn Hn]. cbn [reuse_loop].
  assert (Hlt' : forall m, m ∈ next -> (m < length h)%nat) by (intros m Hm; apply Hlt; by right).
  destruct (rm_lookup (keyFor (deref h n)) prev) as [e|] eqn:E.
  - apply rm_lookup_elem in E. set (k := keyFor (deref h n)) in *.
    destruct (proj2 Hprev _ _ E) as (Hke & Hle & Hne).
    set (b := set_weight (b_weight (deref h n)) (deref h e)).
    assert (Hstep : prev_ok (rm_delete k prev) (<[e := b]> h) next).
    { eapply prev_ok_step; [exact Hprev|done|]. subst b. by rewrite keyFor_set_weight. }
    specialize (IH _ _ Hstep Hn). rewrite length_insert in IH.
    destruct (reuse_loop next (rm_delete k prev) (<[e := b]> h)) as [h' ps].
    destruct IH as (Hl & Hf & Hnd & Ho); [done|].
    assert (Heps : e ∉ ps).
    { intros Hin. destruct (placed_range _ _ _ _ _ _ Hstep Hf Hin) as [Hx|[k' Hx]].
      - apply Hne. by right.
      - apply rm_delete_elem in Hx as [Hx Hk]. destruct (proj2 Hprev _ _ Hx). congruence. }
    split_and!; [done| |by constructor|].
    + constructor; [right; split; [done|]; rewrite (Ho e Heps); by rewrite deref_insert_eq|].
      eapply Forall2_impl_in; [exact Hf|]. intros m p Hm _. by apply (placed_step prev h h' next k e b).
    + intros q [Hqe Hq]%not_elem_of_cons. rewrite Ho by done. by rewrite deref_insert_ne.
  - specialize (IH _ _ Hprev' Hn Hlt'). destruct (reuse_loop next prev h) as [h' ps].
    destruct IH as (Hl & Hf & Hnd & Ho).
    assert (Hnps : n ∉ ps).
    { intros Hin. destruct (placed_range _ _ _ _ _ _ Hprev' Hf Hin) as [?|[k' Hx]]; [done|].
      destruct (proj2 Hprev _ _ Hx) as (_ & _ & Hx'). apply Hx'. left. }
    split_and!; [done| |by constructor|].
    + constructor; [left; split; [done|by apply Ho]|done].
    + intros q [_ Hq]%not_elem_of_cons. by apply Ho.
Qed.

(** A current backend whose key is among the incoming ones survives. *)
Lemma reuse_loop_survives next prev h k e n :
  prev_ok prev h next -> NoDup next -> (k, e) ∈ prev -> n ∈ next -> keyFor (deref h n) = k ->
  e ∈ (reuse_loop next prev h).2.
Proof.
  revert prev h. induction next as [|m next IH]; intros prev h Hprev Hn He Hin Hk;
    [by apply elem_of_nil in Hin|].
  apply NoDup_cons in Hn as [Hmn Hn]. cbn [reuse_loop].
  destruct (decide (keyFor (deref h m) = k)) as [Hm|Hm].
  - rewrite Hm, (proj2 (rm_lookup_iff k e prev (proj1 Hprev)) He).
    destruct (reuse_loop _ _ _). left.
  - apply elem_of_cons in Hin as [->|Hin]; [done|].
    destruct (rm_lookup (keyFor (deref h m)) prev) as [e'|] eqn:E.
    + apply rm_lookup_elem in E. destruct (proj2 Hprev _ _ E) as (Hke & Hle & Hne).
      set (b := set_weight _ _).
      specialize (IH (rm_delete (keyFor (deref h m)) prev) (<[e' := b]> h)).
      destruct (reuse_loop next _ _) as [h' ps]. right. apply IH.
      * eapply prev_ok_step; [exact Hprev|done|done].
      * done.
      * apply rm_delete_elem. split; [done|congruence].
      * done.
      * rewrite deref_insert_ne; [done|]. intros ->. apply Hne. by right.
    + assert (Hprev' : prev_ok prev h next).
      { destruct Hprev as [Hnd Hp]. split; [done|]. intros k' x Hx. destruct (Hp _ _ Hx) as (? & ? & Hx').
        apply not_elem_of_cons in Hx'. tauto. }
      specialize (IH prev h Hprev' Hn He Hin Hk). destruct (reuse_loop next prev h). by right.
Qed.

Definition build_prev (h : heap) (ps : list ptr) : reuseMap :=
  fold_left (fun m p => rm_insert (keyFor (deref h p)) p m) ps [].

Lemma build_prev_gen h ps m :
  NoDup (map fst m) ->
  (forall k e, (k, e) ∈ m -> keyFor (deref h e) = k) ->
  let m' := fold_left (fun m p => rm_insert (keyFor (deref h p)) p m) ps m in
  NoDup (map fst m') /\
  (forall k e, (k, e) ∈ m' -> keyFor (deref h e) = k /\ (e ∈ ps \/ (k, e) ∈ m)) /\
  (NoDup (map (fun p => keyFor (deref h p)) ps) -> forall e, e ∈ ps -> (keyFor (deref h e), e) ∈ m') /\
  (forall k e, (k, e) ∈ m -> k ∉ map (fun p => keyFor (deref h p)) ps -> (k, e) ∈ m').
Proof.
  revert m. induction ps as [|p ps IH]; intros m Hn Hk; simpl.
  - split_and!; [done|by auto|by intros _ e ?%elem_of_nil|done].
  - destruct (IH (rm_insert (keyFor (deref h p)) p m)) as (H1 & H2 & H3 & H4).
    + unfold rm_insert. simpl. apply NoDup_cons. split; [|by apply rm_delete_nodup].
      intros ([k' e'] & -> & Hin)%list_elem_of_fmap. by apply rm_delete_elem in Hin as [_ ?].
    + intros k e [[= -> ->]|Hin]%elem_of_cons; [done|]. apply rm_delete_elem in Hin as [? _]. auto.
    + split_and!; [done| | |].
      * intros k e He. destruct (H2 k e He) as [Hke [?|Hin]]; split; auto; [left; by right|].
        unfold rm_insert in Hin. apply elem_of_cons in Hin as [[= -> ->]|Hin]; [left; left|].
        apply rm_delete_elem in Hin as [? _]. auto.
      * intros [Hp Hps]%NoDup_cons e [->|He]%elem_of_cons; [|auto]. apply H4; [left|done].
      * intros k e He [Hkp Hkps]%not_elem_of_cons. apply H4; [|done]. right. by apply rm_delete_elem.
Qed.

(** The transition hook as a discovery refresh installs it. *)
Definition hooked (hook : bool) (b : Backend) : Backend :=
  if hook then set_circuit (setTransitionHook (b_circuit b)) b else b.

Lemma hooked_idem hook b : hooked hook (hooked hook b) = hooked hook b.
Proof. by destruct hook. Qed.

Lemma applyCircuitHook_spec hook ps h :
  (forall p, p ∈ ps -> (p < length h)%nat) ->
  length (applyCircuitHook hook ps h) = length h /\
  forall q, deref (applyCircuitHook hook ps h) q =
    if bool_decide (q ∈ ps) then hooked hook (deref h q) else deref h q.
Proof.
  destruct hook; simpl; [|intros _; split; [done|]; intros q; by case_bool_decide].
  revert h. induction ps as [|p ps IH]; intros h Hlt; simpl; [done|].
  set (h1 := <[p := _]> h). destruct (IH h1) as [E1 E2].
  { intros q Hq. unfold h1. rewrite length_insert. apply Hlt. by right. }
  unfold h1 at 2 in E1. rewrite length_insert in E1. split; [done|]. intros q. rewrite E2.
  assert (Hp : (p < length h)%nat) by (apply Hlt; left).
  destruct (decide (q = p)) as [->|Hqp].
  - unfold h1. rewrite deref_insert_eq by done. rewrite (bool_decide_true (p ∈ p :: ps)) by left.
    by case_bool_decide.
  - unfold h1. rewrite deref_insert_ne by done.
    destruct (decide (q ∈ ps)); [rewrite !bool_decide_true; [done|by right|done]|].
    rewrite !bool_decide_false; [done| |done]. by intros [?|?]%elem_of_cons.
Qed.

(** A pool over a heap: its backends are allocated. *)
Definition pool_ok (h : heap) (pl : Pool) : Prop :=
  forall p, p ∈ p_backends pl -> (p < length h)%nat.

Definition distinct_keys (h : heap) (pl : Pool) : Prop :=
  NoDup (map (fun p => keyFor (deref h p)) (p_backends pl)).

Definition target_backend (pl : Pool) (t : Target) : Backend :=
  newBackendFor (t_Address t) (t_Weight t) (t_ID t) (p_scheme pl) (p_circuit pl).

(** What a target becomes: the current backend with its key, with the new
    weight and all its other state, or a new backend with fresh state. *)
Definition target_placed (h h' : heap) (pl : Pool) (t : Target) (p : ptr) : Prop :=
  let n := target_backend pl t in
  (p ∈ p_backends pl /\ keyFor (deref h p) = keyFor n /\
   deref h' p = hooked (p_circuitHook pl) (set_weight (b_weight n) (deref h p))) \/
  ((length h <= p)%nat /\ deref h' p = hooked (p_circuitHook pl) n).

Lemma replaceBackends_eq next h pl :
  replaceBackends next h pl =
  let '(h1, ps) := reuse_loop next (build_prev h (p_backends pl)) h in
  (applyCircuitHook (p_circuitHook pl) ps h1, set_backends ps (updateBackends (p_balancer pl)) pl).
Proof. unfold replaceBackends, build_prev. by destruct (reuse_loop _ _ _). Qed.

Lemma alloc_prev_ok h bs pl :
  pool_ok h pl ->
  prev_ok (build_prev (h ++ bs) (p_backends pl)) (h ++ bs) (seq (length h) (length bs)) /\
  (forall k e, (k, e) ∈ build_prev (h ++ bs) (p_backends pl) ->
     e ∈ p_backends pl /\ keyFor (deref h e) = k) /\
  (distinct_keys h pl ->
   forall e, e ∈ p_backends pl -> (keyFor (deref h e), e) ∈ build_prev (h ++ bs) (p_backends pl)).
Proof.
  intros Hlt.
  destruct (build_prev_gen (h ++ bs) (p_backends pl) []) as (H1 & H2 & H3 & _);
    [constructor|by intros k e ?%elem_of_nil|].
  assert (Hd : forall p, p ∈ p_backends pl -> deref (h ++ bs) p = deref h p).
  { intros p Hp. apply deref_app_l. auto. }
  assert (Hmem : forall k e, (k, e) ∈ build_prev (h ++ bs) (p_backends pl) ->
     e ∈ p_backends pl /\ keyFor (deref h e) = k).
  { intros k e He. destruct (H2 _ _ He) as [Hk [?|?%elem_of_nil]]; [|done]. rewrite Hd in Hk; auto. }
  split_and!; [split; [done|]|done|].
  - intros k e He. destruct (Hmem _ _ He) as [Hp _]. destruct (H2 _ _ He) as [Hk _].
    specialize (Hlt e Hp). split; [done|]. rewrite length_app. split; [lia|].
    intros ?%elem_of_seq. lia.
  - intros Hnd e He. rewrite <- (Hd e He). apply H3; [|done]. erewrite map_ext_in; [exact Hnd|].
    intros p Hp%list_elem_of_In. simpl. by rewrite Hd.
Qed.

Lemma UpdateTargets_spec targets h pl :
  pool_ok h pl ->
  let '(h', pl') := UpdateTargets targets h pl in
  Forall2 (target_placed h h' pl) targets (p_backends pl') /\ NoDup (p_backends pl') /\
  (distinct_keys h pl -> forall p t, p ∈ p_backends pl -> t ∈ targets ->
     keyFor (deref h p) = keyFor (target_backend pl t) -> p ∈ p_backends pl') /\
  (forall q, q ∉ p_backends pl' -> deref h' q = deref (h ++ map (target_backend pl) targets) q) /\
  length h' = (length h + length targets)%nat /\ pool_ok h' pl' /\
  p_circuitHook pl' = p_circuitHook pl /\
  p_balancer pl' = updateBackends (p_balancer pl).
Proof.
  intros Hok. unfold UpdateTargets, alloc. rewrite replaceBackends_eq.
  change (map _ targets) with (map (target_backend pl) targets). set (bs := map _ targets).
  destruct (alloc_prev_ok h bs pl Hok) as (Hprev & Hmem & Hall).
  set (prev := build_prev _ _) in *. set (next := seq _ _) in *.
  assert (Hnx : forall n, n ∈ next -> (length h <= n < length (h ++ bs))%nat).
  { intros n Hn%elem_of_seq. rewrite length_app. lia. }
  assert (Hnew : forall i t, targets !! i = Some t -> deref (h ++ bs) (length h + i) = target_backend pl t).
  { intros i t Ht. apply deref_lookup. rewrite lookup_app_r by lia.
    replace (length h + i - length h)%nat with i by lia. unfold bs. by rewrite list_lookup_fmap, Ht. }
  pose proof (reuse_loop_spec next prev (h ++ bs) Hprev (NoDup_seq _ _) (fun n Hn => proj2 (Hnx n Hn))) as Hs.
  pose proof (reuse_loop_survives next prev (h ++ bs)) as Hsurv.
  destruct (reuse_loop next prev (h ++ bs)) as [h1 ps]. destruct Hs as (Hl & Hf & Hnd & Ho).
  assert (Hps : forall p, p ∈ ps -> (p < length h1)%nat).
  { intros p Hp. rewrite Hl. destruct (placed_range _ _ _ _ _ _ Hprev Hf Hp) as [?|[k Hk]].
    - by apply Hnx.
    - by apply (proj2 Hprev) in Hk as (_ & ? & _). }
  destruct (applyCircuitHook_spec (p_circuitHook pl) ps h1 Hps) as [Hlh Hhook]. simpl.
  split_and!; [|done| | | | |done|done].
  - apply Forall2_same_length_lookup. split.
    { apply Forall2_length in Hf. unfold next in Hf. rewrite length_seq in Hf.
      unfold bs in Hf. by rewrite length_map in Hf. }
    intros i t p Ht Hp. assert (Hi : next !! i = Some (length h + i)%nat).
    { apply lookup_seq. split; [done|]. unfold bs. rewrite length_map. by eapply lookup_lt_Some. }
    pose proof (Forall2_lookup_lr _ _ _ _ _ _ Hf Hi Hp) as Hpl. unfold target_placed, placed in *.
    rewrite (Hnew i t Ht) in Hpl. rewrite Hhook, bool_decide_true by by eapply list_elem_of_lookup_2.
    destruct Hpl as [[-> Hd]|[Hin Hd]]; [right; split; [lia|by rewrite Hd]|]. left.
    destruct (Hmem _ _ Hin) as [Hpb Hk]. split; [done|]. split; [done|].
    rewrite Hd, deref_app_l; [done|]. by apply Hok.
  - intros Hdk p t Hp [i Ht]%list_elem_of_lookup Hk. simpl in Hsurv.
    apply (Hsurv (keyFor (deref h p)) p (length h + i)%nat); [done|apply NoDup_seq|by apply Hall| |].
    + apply elem_of_seq. apply lookup_lt_Some in Ht. unfold bs. rewrite length_map. lia.
    + by rewrite (Hnew i t Ht).
  - intros q Hqp. rewrite Hhook, bool_decide_false by done. by rewrite Ho.
  - rewrite Hlh, Hl. unfold bs. by rewrite length_app, length_map.
  - intros p Hp. rewrite Hlh. by apply Hps.
Qed.

(** A reload or discovery refresh keeps the state that should survive it.
    Every target gets a backend of its identity and weight: the current one
    with the same logical id, network and address, with its in-flight count,
    breaker and health verdict untouched, or else a new one with fresh state.
    No backend is used twice, every current backend whose identity is still
    wanted is kept, backends that leave the set keep their state for the
    requests still holding them, and the balancer's accumulators are reset. *)
Theorem UpdateTargets_preserves_state targets h pl :
  pool_ok h pl ->
  let '(h', pl') := UpdateTargets targets h pl in
  Forall2 (target_placed h h' pl) targets (p_backends pl') /\ NoDup (p_backends pl') /\
  (distinct_keys h pl -> forall p t, p ∈ p_backends pl -> t ∈ targets ->
     keyFor (deref h p) = keyFor (target_backend pl t) -> p ∈ p_backends pl') /\
  (forall q, (q < length h)%nat -> q ∉ p_backends pl' -> deref h' q = deref h q) /\
  p_balancer pl' = updateBackends (p_balancer pl).
Proof.
  intros Hok. pose proof (UpdateTargets_spec targets h pl Hok) as H.
  destruct (UpdateTargets targets h pl) as [h' pl'].
  destruct H as (H1 & H2 & H3 & H4 & _ & _ & _ & H5). split_and!; try done.
  intros q Hq Hqp. rewrite (H4 q Hqp). by apply deref_app_l.
Qed.

(** ** Witnesses *)

(** Three backends: [0] at its capacity of four, [1] half-open with its only
    probe out, [2] free. *)
Definition pool_heap : heap :=
  [demo_backend (str "a:80") 5 4;
   set_circuit (cs_circuit (run_to probe_run)) (demo_backend (str "b:80") 1 1);
   demo_backend (str "c:80") 1 0].

Lemma pool_heap_ok : heap_ok pool_heap [0; 1; 2]%nat.
Proof.
  assert (Hc : circuit_ok (cs_circuit (run_to probe_run)))
    by (apply run_to_inv; [vm_compute; eauto|simpl; lia]).
  assert (Hn : circuit_ok (newCircuit 3 0 1)) by apply (circuit_init_inv 3 0 1 0).
  intros p [->|[->|[->|?%elem_of_nil]%elem_of_cons]%elem_of_cons]%elem_of_cons; [..|done];
    (split; [simpl; lia|]; split; [done|simpl; unfold max_int64; lia|reflexivity]).
Qed.

Lemma three_nodup : NoDup [0; 1; 2]%nat.
Proof. apply (bool_decide_unpack _). by vm_compute. Qed.

Definition k0 : Key := MkKey 0 StatusNone.

Lemma selectBackend_sound_witness :
  2%nat ∈ [0; 1; 2]%nat /\ candidate 7 pool_heap 4 [] 2.
Proof.
  destruct (selectBackend alone (MkWorld pool_heap 7) [0; 1; 2]%nat (roundRobin 0) 4 [] k0)
    as [[w' bal'] r] eqn:E.
  assert (Hr : exists adm, r = inr (2%nat, adm)) by (vm_compute in E; injection E as _ _ <-; eauto).
  destruct Hr as [adm ->].
  destruct (selectBackend_sound _ _ _ _ _ _ _ _ _ _ _ E) as (H1 & H2 & _). by split.
Defined.

Lemma selectBackend_complete_witness :
  (forall p, ~ claimable (MkWorld pool_heap 7) 4 [] [0; 1]%nat p) /\
  (selectBackend alone (MkWorld pool_heap 7) [0; 1]%nat (roundRobin 0) 4 [] k0).2 =
  inl ErrBackendAtCapacity.
Proof.
  pose proof (selectBackend_complete (MkWorld pool_heap 7) [0; 1]%nat (roundRobin 0) 4 [] k0) as H.
  destruct (selectBackend _ _ _ _ _ _ _) as [[w' bal'] r] eqn:E.
  assert (Hr : r = inl ErrBackendAtCapacity) by (vm_compute in E; congruence). subst r.
  split; [|done]. apply H.
  - apply (bool_decide_unpack _). by vm_compute.
  - intros p Hp. apply pool_heap_ok. set_solver.
Defined.

Lemma hung_probe_pins_backend_witness :
  phase (b_circuit (deref pool_heap 1)) = phaseHalfOpen /\
  forall adm, (selectBackend alone (MkWorld pool_heap (1000000 * second)) [0; 1; 2]%nat
    (roundRobin 0) 0 [] k0).2 <> inr (1%nat, adm).
Proof.
  split; [reflexivity|].
  pose proof (hung_probe_pins_backend pool_heap (1000000 * second) [0; 1; 2]%nat (roundRobin 0) 0 [] k0 1
    three_nodup pool_heap_ok) as H.
  destruct (selectBackend _ _ _ _ _ _ _) as [[w' bal'] r]. apply H.
  - set_solver.
  - reflexivity.
  - vm_compute. split; congruence.
Defined.

Definition demo_pool : Pool :=
  MkPool (str "app") (str "http") (str "round_robin") (roundRobin 0) (MkCircuitParams 3 0 1) false
    [0; 1; 2]%nat 0 false Default false.

Lemma UpdateTargets_preserves_state_witness :
  1%nat ∈ p_backends (UpdateTargets [MkTarget (str "b:80") 9 []] pool_heap demo_pool).2.
Proof.
  pose proof (UpdateTargets_preserves_state [MkTarget (str "b:80") 9 []] pool_heap demo_pool) as H.
  destruct (UpdateTargets _ _ _) as [h' pl']. destruct H as (_ & _ & H & _).
  - intros p Hp. by apply pool_heap_ok.
  - apply (H ltac:(apply (bool_decide_unpack _); by vm_compute) 1%nat (MkTarget (str "b:80") 9 []));
      [set_solver|left|reflexivity].
Defined.
