(* ===== verification/Health.v ===== *)
(** * Active health checks (internal/upstream/health.go)

    The resolved parameters, the decision of a probe from what the backend
    answered, the hysteresis of the verdict and a round of the checker, on the
    heap of backends that [Pool] describes.  What the network answers is a
    parameter; traffic that runs between probes is an arbitrary change of the
    heap that leaves the verdict, which only the checker writes, alone.  The
    probe counters are kept as unbounded integers: a counter grows by one per
    round. *)

From S2P Require Import Prelude GoStrings Circuit Backend Pool.

(** ** Parameters *)

Record HealthCheckConfig := MkHealthConfig {
  hcfg_Type : gostring;
  hcfg_Path : gostring;
  hcfg_Host : gostring;
  hcfg_Headers : gmap gostring gostring;
  hcfg_Interval : Z;
  hcfg_Timeout : Z;
  hcfg_HealthyThreshold : Z;
  hcfg_UnhealthyThreshold : Z;
  hcfg_ExpectStatus : list Z;
  hcfg_ExpectBody : gostring;
  hcfg_Service : gostring
}.

Record healthParams := MkHealthParams {
  hp_typ : gostring;
  hp_host : gostring;
  hp_headers : gmap gostring gostring;
  hp_path : gostring;
  hp_interval : Z;
  hp_timeout : Z;
  hp_healthyThreshold : Z;
  hp_unhealthyThreshold : Z;
  hp_expectStatus : list Z;
  hp_expectBody : gostring;
  hp_service : gostring
}.

Definition healthParamsFrom (cfg : HealthCheckConfig) : healthParams :=
  let typ := if bool_decide (hcfg_Type cfg = []) then str "http" else hcfg_Type cfg in
  let interval := if hcfg_Interval cfg <=? 0 then 5 * 10 ^ 9 else hcfg_Interval cfg in
  let timeout := if (hcfg_Timeout cfg <=? 0) || (interval <=? hcfg_Timeout cfg) then interval `quot` 2 else hcfg_Timeout cfg in
  MkHealthParams typ (hcfg_Host cfg) (hcfg_Headers cfg) (hcfg_Path cfg) interval timeout
    (if hcfg_HealthyThreshold cfg <? 1 then 2 else hcfg_HealthyThreshold cfg)
    (if hcfg_UnhealthyThreshold cfg <? 1 then 3 else hcfg_UnhealthyThreshold cfg)
    (if string_eqb typ (str "http") && bool_decide (hcfg_ExpectStatus cfg = []) then [200] else hcfg_ExpectStatus cfg)
    (hcfg_ExpectBody cfg) (hcfg_Service cfg).

(** [jitter]; [r] is the random number below half of the interval. *)
Definition jitter (d r : Z) : Z :=
  if d <=? 0 then 0 else let half := d `quot` 2 in if half <=? 0 then d else half + r.

(** ** Probes *)

Definition statusAllowed (code : Z) (expect : list Z) : bool :=
  match expect with
  | [] => (200 <=? code) && (code <? 300)
  | _ => existsb (fun c => c =? code) expect
  end.

Definition probe_limit : nat := Z.to_nat 65536.

(** A response: the status, the bytes of the body until its end or a read error,
    and whether it ended in an error. *)
Record probeResponse := MkProbeResponse { pr_Status : Z; pr_Body : list Z; pr_ReadErr : bool }.

(** [io.ReadAll] of a reader limited to [n] bytes. *)
Definition ReadAllLimited (n : nat) (r : probeResponse) : option (list Z) :=
  if pr_ReadErr r && (length (pr_Body r) <? n)%nat then None else Some (take n (pr_Body r)).

(** [probeHTTP], from the answer of the client; [None] is a failed request. *)
Definition probeHTTP (p : healthParams) (resp : option probeResponse) : bool :=
  match resp with
  | None => false
  | Some r =>
      if negb (statusAllowed (pr_Status r) (hp_expectStatus p)) then false
      else if negb (bool_decide (hp_expectBody p = [])) then
        match ReadAllLimited (S probe_limit) r with
        | None => false
        | Some body => if (probe_limit <? length body)%nat then false else Contains body (hp_expectBody p)
        end
      else true
  end.

(** What the network answers, by kind of probe: whether a connection opens, the
    gRPC health status when the build has that probe, or a response. *)
Record probeAnswer := MkAnswer { an_tcp : bool; an_grpc : option bool; an_http : option probeResponse }.

Definition probe (p : healthParams) (a : probeAnswer) : bool :=
  if string_eqb (hp_typ p) (str "tcp") then an_tcp a
  else if string_eqb (hp_typ p) (str "grpc") then default false (an_grpc a)
  else probeHTTP p (an_http a).

(** ** The verdict *)

Record probeState := MkProbeState { consecutiveOK : Z; consecutiveFail : Z; healthy : bool }.

(** What the hooks are told. *)
Inductive healthEvent :=
| OnHealth (b : ptr) (h : bool)
| OnProbe (ok : bool)
| CircuitHealth (b : ptr).

Notation states := (gmap nat probeState).

Section Checker.
Variable p : healthParams.

(** [probeOne] up to the probe: the state of the backend, seeded on first sight. *)
Definition seed (sts : states) (b : ptr) : probeState * states * list healthEvent :=
  match sts !! b with
  | Some st => (st, sts, [])
  | None => let st := MkProbeState 0 0 true in (st, <[b := st]> sts, [OnHealth b true])
  end.

(** [probeOne] after the probe answered [ok], on the heap of that moment;
    [retired] tells whether the pool is closed by then. *)
Definition settle (retired : bool) (h : heap) (sts : states) (st : probeState) (b : ptr) (ok : bool)
  : heap * states * list healthEvent :=
  if retired then (h, sts, [])
  else if ok then
    let n := consecutiveOK st + 1 in
    if negb (healthy st) && (hp_healthyThreshold p <=? n) then
      let h := <[b := setActiveHealthy true (deref h b)]> h in
      let '(h, changed) := ForceClose b h in
      (h, <[b := MkProbeState n 0 true]> sts,
       [OnProbe true] ++ (if changed then [CircuitHealth b] else []) ++ [OnHealth b true])
    else (h, <[b := MkProbeState n 0 (healthy st)]> sts, [OnProbe true])
  else
    let n := consecutiveFail st + 1 in
    if healthy st && (hp_unhealthyThreshold p <=? n) then
      (<[b := setActiveHealthy false (deref h b)]> h, <[b := MkProbeState 0 n false]> sts, [OnProbe false; OnHealth b false])
    else (h, <[b := MkProbeState 0 n (healthy st)]> sts, [OnProbe false]).

(** What happens around one probe: whether the pool is closed before it and
    after it, what traffic did meanwhile, and the answer. *)
Record turn := MkTurn { t_closed : bool; t_retired : bool; t_traffic : heap -> heap; t_answer : probeAnswer }.

Definition probeOne (h : heap) (sts : states) (b : ptr) (t : turn) : heap * states * list healthEvent :=
  let '(st, sts, ev) := seed sts b in
  let '(h, sts, ev') := settle (t_retired t) (t_traffic t h) sts st b (probe p (t_answer t)) in
  (h, sts, ev ++ ev').

(** [probeAll]: every backend once, stopping without the cleanup when the pool
    closes; then the states of backends that left are dropped.  The backends of
    the round are read at its start; [turns] has an element for each. *)
Fixpoint probe_each (h : heap) (sts : states) (bs : list ptr) (turns : list turn) : heap * states * list healthEvent * bool :=
  match bs, turns with
  | b :: bs, t :: turns =>
      if t_closed t then (h, sts, [], false)
      else
        let '(h, sts, ev) := probeOne h sts b t in
        let '(h, sts, ev', fin) := probe_each h sts bs turns in (h, sts, ev ++ ev', fin)
  | _, _ => (h, sts, [], true)
  end.

Definition probeAll (h : heap) (sts : states) (bs : list ptr) (turns : list turn) : heap * states * list healthEvent :=
  let '(h, sts, ev, fin) := probe_each h sts bs turns in
  (h, if fin then filter (fun e => e.1 ∈ bs) sts else sts, ev).

(** The probes of one backend in order. *)
Fixpoint probe_many (h : heap) (sts : states) (b : ptr) (turns : list turn) : heap * states * list healthEvent :=
  match turns with
  | [] => (h, sts, [])
  | t :: turns =>
      let '(h, sts, ev) := probeOne h sts b t in
      let '(h, sts, ev') := probe_many h sts b turns in (h, sts, ev ++ ev')
  end.
End Checker.

(** ** The verdict as a function of the history *)

(** Out of rotation after these results, oldest first: somewhere [U] failures in
    a row, and after them never [H] successes in a row. *)
Definition out_of_rotation (H U : nat) (hist : list bool) : Prop :=
  exists a b, hist = a ++ replicate U false ++ b /\ ~ exists x y, b = x ++ replicate H true ++ y.

(** The same with the newest result first. *)
Definition out_newest (H U : nat) (r : list bool) : Prop :=
  exists b a, r = b ++ replicate U false ++ a /\ ~ exists x y, b = x ++ replicate H true ++ y.

Lemma rev_replicate {A} n (x : A) : rev (replicate n x) = replicate n x.
Proof. rewrite rev_alt, <- reverse_replicate at 1. unfold reverse. by rewrite !rev_append_rev, !app_nil_r, rev_involutive. Qed.

Lemma out_rev H U r : out_of_rotation H U (rev r) <-> out_newest H U r.
Proof.
  assert (HR : forall b, (exists x y, rev b = x ++ replicate H true ++ y) <-> exists x y, b = x ++ replicate H true ++ y).
  { assert (HX : forall b, (exists x y, b = x ++ replicate H true ++ y) -> exists x y, rev b = x ++ replicate H true ++ y).
    { intros b (x & y & ->). exists (rev y), (rev x). by rewrite !rev_app_distr, rev_replicate, app_assoc. }
    intros b. split; [|apply HX]. intros HB%HX. by rewrite rev_involutive in HB. }
  split; intros (a & b & E & Hn).
  - exists (rev b), (rev a). split; [|by rewrite HR]. apply (f_equal (@rev bool)) in E. rewrite rev_involutive in E.
    by rewrite E, !rev_app_distr, rev_replicate, app_assoc.
  - exists (rev b), (rev a). split; [|by rewrite HR]. by rewrite E, !rev_app_distr, rev_replicate, app_assoc.
Qed.

(** The length of the run of [c] at the front. *)
Fixpoint lead (c : bool) (r : list bool) : nat :=
  match r with x :: r => if Bool.eqb x c then S (lead c r) else 0%nat | [] => 0%nat end.

Lemma lead_ge c r n : (n <= lead c r)%nat <-> exists x, r = replicate n c ++ x.
Proof.
  revert n. induction r as [|x r IH]; intros n; cbn [lead].
  - split; [intros ?; exists []; by destruct n; [|lia]|]. intros [y E]. destruct n; [lia|done].
  - destruct n as [|n]; [split; [by eexists|lia]|]. destruct (Bool.eqb x c) eqn:E.
    + apply Bool.eqb_prop in E as ->. rewrite <- Nat.succ_le_mono, IH. cbn [replicate app]. split; intros [y Ey]; exists y; [by rewrite Ey|by injection Ey].
    + split; [lia|]. intros [y [= -> _]]. by rewrite Bool.eqb_reflx in E.
Qed.

Section Hysteresis.
Variables (H U : nat) (HH : (1 <= H)%nat) (HU : (1 <= U)%nat).

Lemma no_run_nil : ~ exists x y, @nil bool = x ++ replicate H true ++ y.
Proof. intros (x & y & E). symmetry in E. apply app_eq_nil in E as [_ E]. apply app_eq_nil in E as [E _]. by destruct H; [lia|]. Qed.

(** A result is added in front of the failures, or is the first of them. *)
Lemma out_cons c r : out_newest H U (c :: r) <->
  (out_newest H U r /\ ~ (c = true /\ (H <= S (lead true r))%nat)) \/ (c = false /\ (U <= S (lead false r))%nat).
Proof.
  split.
  - intros (b & a & E & Hn). destruct b as [|c' b].
    + right. destruct U as [|u]; [lia|]. cbn in E. injection E as -> E. split; [done|]. apply le_n_S, lead_ge. by exists a.
    + injection E as <- E. left. split.
      * exists b, a. split; [done|]. intros (x & y & Eb). apply Hn. exists (c :: x), y. by rewrite Eb.
      * intros [-> Hl]. assert (Hl' : (H <= lead true (true :: r))%nat) by done. apply lead_ge in Hl' as [y Ey]. apply Hn.
        (* the failures come after the leading successes *)
        rewrite E, app_comm_cons in Ey. clear - Ey HU. exists []. cbn [app]. revert Ey. generalize (true :: b) as l. intros l. clear b.
        revert H. induction l as [|x l IH]; intros n Ey.
        { destruct n; [by exists []|]. destruct U; [lia|done]. }
        destruct n as [|n]; [by eexists|]. cbn in Ey. injection Ey as -> Ey. destruct (IH n Ey) as [z ->]. by exists z.
  - intros [[(b & a & -> & Hn) Hc]|[-> Hu]].
    + exists (c :: b), a. split; [done|]. intros (x & y & Eb). destruct x as [|x0 x].
      * apply Hc. destruct H as [|n]; [lia|]. cbn in Eb. injection Eb as -> Eb. split; [done|]. apply le_n_S, lead_ge. rewrite Eb.
        eexists. by rewrite <- app_assoc.
      * injection Eb as _ Eb. apply Hn. by exists x, y.
    + assert (Hu' : (U <= lead false (false :: r))%nat) by done. apply lead_ge in Hu' as [a Ea]. exists [], a. split; [done|]. apply no_run_nil.
Qed.
End Hysteresis.

(** ** The checker computes the verdict *)

Lemma healthParamsFrom_thresholds cfg :
  1 <= hp_healthyThreshold (healthParamsFrom cfg) /\ 1 <= hp_unhealthyThreshold (healthParamsFrom cfg).
Proof.
  unfold healthParamsFrom. cbn [hp_healthyThreshold hp_unhealthyThreshold].
  split; [destruct (hcfg_HealthyThreshold cfg <? 1) eqn:E|destruct (hcfg_UnhealthyThreshold cfg <? 1) eqn:E]; lia.
Qed.

(** A turn in which the pool stays open and traffic leaves the verdict alone. *)
Definition quiet (b : ptr) (t : turn) : Prop :=
  t_retired t = false /\
  forall h, length (t_traffic t h) = length h /\ b_activeHealthy (deref (t_traffic t h) b) = b_activeHealthy (deref h b).

(** The value the health gauge was last given. *)
Definition gauge (b : ptr) (ev : list healthEvent) : option bool :=
  last (omap (fun e => match e with OnHealth b' v => if bool_decide (b' = b) then Some v else None | _ => None end) ev).

Lemma forceClose_closed c : phase (circuit_forceClose c).1 = phaseClosed.
Proof.
  unfold circuit_forceClose. case_bool_decide as E; cbn [andb]; [destruct (fails c =? 0); [done|]|]; cbn [fst]; unfold closeLocked; by autorewrite with circuit.
Qed.

Section Verdict.
Variable p : healthParams.
Hypothesis (Hh : 1 <= hp_healthyThreshold p) (Hu : 1 <= hp_unhealthyThreshold p).
Let H : nat := Z.to_nat (hp_healthyThreshold p).
Let U : nat := Z.to_nat (hp_unhealthyThreshold p).

(** The state of a backend after the results [r], newest first. *)
Record tracks (h : heap) (b : ptr) (st : probeState) (r : list bool) : Prop := {
  tr_ok : consecutiveOK st = Z.of_nat (lead true r);
  tr_fail : consecutiveFail st = Z.of_nat (lead false r);
  tr_verdict : healthy st = false <-> out_newest H U r;
  tr_active : b_activeHealthy (deref h b) = healthy st;
  tr_alloc : (b < length h)%nat
}.

Lemma settle_tracks h sts st b r ok : tracks h b st r ->
  let '(h', sts', ev) := settle p false h sts st b ok in
  (exists st', sts' = <[b := st']> sts /\ tracks h' b st' (ok :: r)) /\
  (default (healthy st) (gauge b ev) = b_activeHealthy (deref h' b)) /\
  (out_newest H U r -> ~ out_newest H U (ok :: r) -> phase (b_circuit (deref h' b)) = phaseClosed).
Proof.
  intros [T1 T2 T3 T4 T5]. assert (HH1 : (1 <= H)%nat) by (unfold H; lia). assert (HU1 : (1 <= U)%nat) by (unfold U; lia).
  pose proof (out_cons H U HH1 HU1 ok r) as HO. unfold settle. destruct ok.
  - assert (EH : (hp_healthyThreshold p <=? consecutiveOK st + 1) = bool_decide (H <= S (lead true r))%nat).
    { rewrite T1. case_bool_decide; unfold H in *; lia. }
    rewrite EH. destruct (healthy st) eqn:Est; cbn [negb andb].
    + assert (HV : ~ out_newest H U r) by (rewrite <- T3; done).
      split; [|split; [cbn; by rewrite T4|naive_solver]]. eexists. split; [reflexivity|]. split; cbn [consecutiveOK consecutiveFail healthy lead Bool.eqb]; try done; [lia|].
      split; [done|]. rewrite HO. naive_solver.
    + assert (HV : out_newest H U r) by (apply T3; done). case_bool_decide as EL.
      * unfold ForceClose. destruct (circuit_forceClose _) as [c changed] eqn:Ec.
        assert (HD : deref (<[b := set_circuit c (deref (<[b := setActiveHealthy true (deref h b)]> h) b)]> (<[b := setActiveHealthy true (deref h b)]> h)) b =
          set_circuit c (setActiveHealthy true (deref h b))) by (rewrite deref_insert_eq by (by rewrite length_insert); by rewrite deref_insert_eq).
        split; [|split].
        -- eexists. split; [reflexivity|]. split; cbn [consecutiveOK consecutiveFail healthy lead Bool.eqb]; try done; [lia| |by rewrite HD|by rewrite !length_insert]. split; [done|]. rewrite HO. naive_solver.
        -- rewrite HD. unfold gauge. rewrite !omap_app. destruct changed; cbn; rewrite bool_decide_true by done; done.
        -- intros _ _. rewrite HD. cbn. replace c with (circuit_forceClose (b_circuit (deref (<[b := setActiveHealthy true (deref h b)]> h) b))).1 by (by rewrite Ec).
           apply forceClose_closed.
      * split; [|split; [cbn; by rewrite T4|naive_solver]]. eexists. split; [reflexivity|]. split; cbn [consecutiveOK consecutiveFail healthy lead Bool.eqb]; try done; [lia|]. rewrite HO. naive_solver.
  - assert (EU : (hp_unhealthyThreshold p <=? consecutiveFail st + 1) = bool_decide (U <= S (lead false r))%nat).
    { rewrite T2. case_bool_decide; unfold U in *; lia. }
    rewrite EU. destruct (healthy st) eqn:Est; cbn [andb].
    + assert (HV : ~ out_newest H U r) by (rewrite <- T3; done). case_bool_decide as EL.
      * split; [|split; [|naive_solver]].
        -- eexists. split; [reflexivity|]. split; cbn [consecutiveOK consecutiveFail healthy lead Bool.eqb]; try done; [lia| |by rewrite deref_insert_eq|by rewrite length_insert]. rewrite HO. naive_solver.
        -- rewrite deref_insert_eq by done. unfold gauge. cbn. by rewrite bool_decide_true.
      * split; [|split; [cbn; by rewrite T4|naive_solver]]. eexists. split; [reflexivity|]. split; cbn [consecutiveOK consecutiveFail healthy lead Bool.eqb]; try done; [lia|]. rewrite HO. naive_solver.
    + assert (HV : out_newest H U r) by (apply T3; done).
      split; [|split; [cbn; by rewrite T4|naive_solver]]. eexists. split; [reflexivity|]. split; cbn [consecutiveOK consecutiveFail healthy lead Bool.eqb]; try done; [lia|]. rewrite HO. naive_solver.
Qed.

Lemma tracks_traffic h h' b st r : tracks h b st r -> length h' = length h -> b_activeHealthy (deref h' b) = b_activeHealthy (deref h b) ->
  tracks h' b st r.
Proof. intros [T1 T2 T3 T4 T5] HL HA. split; try done; congruence || lia. Qed.

Lemma gauge_app b e1 e2 : gauge b (e1 ++ e2) = match gauge b e2 with Some v => Some v | None => gauge b e1 end.
Proof. unfold gauge. rewrite omap_app, last_app. by destruct (last _). Qed.

Lemma probe_many_tracks h sts b turns st r : tracks h b st r -> sts !! b = Some st -> Forall (quiet b) turns ->
  let '(h', sts', ev) := probe_many p h sts b turns in
  exists st', sts' !! b = Some st' /\ tracks h' b st' (rev (map (fun t => probe p (t_answer t)) turns) ++ r) /\
    default (healthy st) (gauge b ev) = healthy st'.
Proof.
  revert h sts st r. induction turns as [|t turns IH]; intros h sts st r HT Hs HQ; cbn [probe_many]; [by exists st|].
  apply Forall_cons in HQ as [[Hr Ht] HQ]. unfold probeOne, seed. rewrite Hs, Hr. destruct (Ht h) as [HL HA].
  pose proof (settle_tracks (t_traffic t h) sts st b r (probe p (t_answer t)) (tracks_traffic _ _ _ _ _ HT HL HA)) as HS.
  destruct (settle p false (t_traffic t h) sts st b (probe p (t_answer t))) as [[h1 sts1] ev1]. destruct HS as ((st1 & -> & HT1) & HG & _).
  specialize (IH h1 (<[b := st1]> sts) st1 _ HT1 (lookup_insert_eq _ _ _) HQ).
  destruct (probe_many p h1 (<[b := st1]> sts) b turns) as [[h2 sts2] ev2]. destruct IH as (st2 & H2 & HT2 & HG2).
  exists st2. split; [done|]. cbn [map rev]. rewrite <- app_assoc. split; [done|]. cbn [app]. rewrite gauge_app.
  destruct (gauge b ev2); [done|]. cbn in HG2. rewrite HG, (tr_active _ _ _ _ HT1). done.
Qed.
End Verdict.

Lemma probe_many_app p h sts b ts us :
  probe_many p h sts b (ts ++ us) =
  let '(h1, s1, e1) := probe_many p h sts b ts in
  let '(h2, s2, e2) := probe_many p h1 s1 b us in (h2, s2, e1 ++ e2).
Proof.
  revert h sts. induction ts as [|t ts IH]; intros h sts; cbn [app probe_many].
  - by destruct (probe_many p h sts b us) as [[h2 s2] e2].
  - destruct (probeOne p h sts b t) as [[h1 s1] e1]. rewrite IH. destruct (probe_many p h1 s1 b ts) as [[h2 s2] e2].
    destruct (probe_many p h2 s2 b us) as [[h3 s3] e3]. by rewrite app_assoc.
Qed.

(** The first sight of a backend seeds its state and the gauge. *)
Lemma probe_many_seed p h b t ts :
  probe_many p h ∅ b (t :: ts) =
  let '(h', s', ev) := probe_many p h (<[b := MkProbeState 0 0 true]> ∅) b (t :: ts) in (h', s', OnHealth b true :: ev).
Proof.
  cbn [probe_many]. unfold probeOne, seed. rewrite lookup_empty, lookup_insert_eq.
  destruct (settle _ _ _ _ _ _ _) as [[h1 s1] e1]. by destruct (probe_many p h1 s1 b ts) as [[h2 s2] e2].
Qed.

(** The health verdict is exact.  A backend that starts in rotation and is
    probed while its pool stays open is out of rotation exactly when, somewhere
    in the history of its probes, the configured number of failures came in a
    row and the configured number of successes in a row never came after them;
    a flapping backend changes nothing.  The health gauge always shows that
    verdict, and the probe that brings a backend back closes its circuit
    breaker. *)
Theorem health_verdict (cfg : HealthCheckConfig) (h : heap) (b : ptr) (turns : list turn) (t : turn) :
  (b < length h)%nat -> b_activeHealthy (deref h b) = true -> Forall (quiet b) (turns ++ [t]) ->
  let p := healthParamsFrom cfg in
  let out := out_of_rotation (Z.to_nat (hp_healthyThreshold p)) (Z.to_nat (hp_unhealthyThreshold p)) in
  let hist := map (fun t => probe p (t_answer t)) turns in
  let last := probe p (t_answer t) in
  let '(h', sts', ev) := probe_many p h ∅ b (turns ++ [t]) in
  (b_activeHealthy (deref h' b) = false <-> out (hist ++ [last])) /\
  gauge b ev = Some (b_activeHealthy (deref h' b)) /\
  (out hist -> ~ out (hist ++ [last]) -> phase (b_circuit (deref h' b)) = phaseClosed).
Proof.
  intros Hb Hact HQ p out hist last. destruct (healthParamsFrom_thresholds cfg) as [Hh Hu]. fold p in Hh, Hu. clearbody p.
  assert (E1 : exists t0 ts, turns ++ [t] = t0 :: ts) by (destruct turns as [|t0 ts]; [by exists t, []|by exists t0, (ts ++ [t])]).
  destruct E1 as (t0 & ts & E1). rewrite E1, probe_many_seed, <- E1. clear t0 ts E1. rewrite probe_many_app.
  apply Forall_app in HQ as [HQ [Hr Ht]%Forall_inv].
  assert (T0 : tracks p h b (MkProbeState 0 0 true) []).
  { split; cbn; try done. split; [done|]. intros (x & y & E & _). symmetry in E. apply app_eq_nil in E as [_ E]. apply app_eq_nil in E as [E _].
    apply (f_equal length) in E. rewrite length_replicate in E. cbn in E. lia. }
  pose proof (probe_many_tracks p Hh Hu h _ b turns _ _ T0 (lookup_insert_eq ∅ b _) HQ) as HP.
  destruct (probe_many p h _ b turns) as [[h1 s1] e1]. destruct HP as (st1 & Hs1 & HT1 & HG1). rewrite app_nil_r in HT1. fold hist in HT1.
  cbn [probe_many]. unfold probeOne, seed. rewrite Hs1, Hr. destruct (Ht h1) as [HL HA].
  pose proof (settle_tracks p Hh Hu _ s1 st1 b _ last (tracks_traffic _ _ _ _ _ _ HT1 HL HA)) as HS. fold last.
  destruct (settle p false (t_traffic t h1) s1 st1 b last) as [[h2 s2] e2]. destruct HS as ((st2 & -> & HT2) & HG2 & Hc).
  assert (EO : forall r, out (rev r) <-> out_newest (Z.to_nat (hp_healthyThreshold p)) (Z.to_nat (hp_unhealthyThreshold p)) r) by (intros r; apply out_rev).
  assert (E2 : hist ++ [last] = rev (last :: rev hist)) by (cbn [rev]; by rewrite rev_involutive).
  rewrite E2, EO. replace (out hist) with (out (rev (rev hist))) by (by rewrite rev_involutive). rewrite EO. split_and!.
  - rewrite (tr_active _ _ _ _ _ HT2). apply HT2.
  - cbn [app]. rewrite app_nil_r. change (OnHealth b true :: e1 ++ e2) with ([OnHealth b true] ++ (e1 ++ e2)). rewrite !gauge_app.
    assert (HB : gauge b [OnHealth b true] = Some true) by (unfold gauge; cbn; by rewrite bool_decide_true).
    rewrite HB, <- HG2. destruct (gauge b e2); [done|]. cbn in HG1 |- *. rewrite <- HG1. by destruct (gauge b e1).
  - done.
Qed.

(** A round that completes keeps states of backends in the pool only. *)
Lemma probeAll_states p h sts bs turns h' sts' ev :
  length turns = length bs -> Forall (fun t => t_closed t = false) turns ->
  probeAll p h sts bs turns = (h', sts', ev) -> forall b, is_Some (sts' !! b) -> b ∈ bs.
Proof.
  intros HL HC. unfold probeAll. destruct (probe_each p h sts bs turns) as [[[h1 s1] e1] fin] eqn:E. intros [= <- <- <-].
  assert (fin = true) as ->.
  { revert h sts h1 s1 e1 turns HL HC E. induction bs as [|b bs IH]; intros h sts h1 s1 e1 [|t turns] HL HC; cbn [probe_each]; try done.
    - by intros [= _ _ _ <-].
    - apply Forall_cons in HC as [-> HC]. destruct (probeOne p h sts b t) as [[h2 s2] e2].
      destruct (probe_each p h2 s2 bs turns) as [[[h3 s3] e3] f3] eqn:E3. intros [= _ _ _ <-]. eapply IH; [|done|done]. by injection HL. }
  intros b [st Hst]. by apply map_lookup_filter_Some in Hst as [_ ?].
Qed.

(** ** Examples *)

Definition demo_health : HealthCheckConfig :=
  MkHealthConfig [] (str "/ready") [] ∅ (2 * 10 ^ 9) 0 2 3 [] (str "ok") [].

Definition demo_answer (ok : bool) : probeAnswer :=
  MkAnswer ok None (Some (MkProbeResponse (if ok then 200 else 503) (str "all ok here") false)).

Definition demo_turn (ok : bool) : turn := MkTurn false false id (demo_answer ok).

Lemma demo_quiet b ok : quiet b (demo_turn ok).
Proof. by split. Qed.

(** Three failures with flapping after them, then two successes: back, with the
    breaker closed. *)
Lemma health_verdict_witness :
  let p := healthParamsFrom demo_health in
  let '(h', _, ev) := probe_many p pool_heap ∅ 0 (map demo_turn [true; false; false; false; true; false; true] ++ [demo_turn true]) in
  gauge 0 ev = Some true /\ phase (b_circuit (deref h' 0)) = phaseClosed.
Proof.
  pose proof (health_verdict demo_health pool_heap 0 (map demo_turn [true; false; false; false; true; false; true]) (demo_turn true)
    ltac:(vm_compute; lia) eq_refl ltac:(repeat constructor)) as HV. cbn zeta in HV |- *.
  destruct (probe_many _ _ _ _ _) as [[h' s'] ev] eqn:E. destruct HV as (HA & HG & HC).
  vm_compute in E. injection E as <- <- <-. split; [exact HG|]. apply HC.
  - exists [true], [true; false; true]. split; [reflexivity|]. intros (x & y & Ex).
    destruct x as [|? [|? [|? [|? x]]]]; try done; destruct y; done.
  - intros Ho. apply HA in Ho. vm_compute in Ho. discriminate.
Defined.
