(* ===== verification/PoolRun.v ===== *)
(** * A pool in operation

    The pool's operations as one transition system: requests are placed by
    selection, report a result or give their probe back, and release; the
    health checker, reloads and discovery act in between.  The projection of a
    run on one backend is a run of its circuit breaker, which carries the
    breaker's theorems over to pools. *)

From S2P Require Import Prelude GoStrings Netip Affinity Circuit Resilience Backend Balancer Pool.

(** An attempt that has been handed out, and whether it has reported. *)
Record psys := MkPsys {
  ps_heap : heap;
  ps_pool : Pool;
  ps_now : Z;
  ps_attempts : list (Attempt * bool)
}.

Inductive plabel :=
| PSelect (excluded : list BackendIdentity) (key : Key)
| PSuccess (i : nat)
| PFailure (i : nat)
| PReleaseProbe (i : nat)
| PRelease (i : nat)
| PForceClose (p : ptr)
| PSetHealthy (p : ptr) (healthy : bool)
| PUpdateTargets (targets : list Target)
| PSetLimits (cp : circuitParams)
| PTick (d : Z).

Definition set_balancer (bal : Balancer) (pl : Pool) : Pool :=
  set_backends (p_backends pl) bal pl.

(** A report by attempt [i], which has not reported yet. *)
Definition report (s : psys) (i : nat) (f : Attempt -> heap) : option psys :=
  match ps_attempts s !! i with
  | Some (a, false) =>
      Some (MkPsys (f a) (ps_pool s) (ps_now s) (<[i := (a, true)]> (ps_attempts s)))
  | _ => None
  end.

Definition pool_exec (s : psys) (l : plabel) : option psys :=
  let h := ps_heap s in
  let pl := ps_pool s in
  match l with
  | PSelect excluded key =>
      let '(w, bal, r) := selectBackend alone (MkWorld h (ps_now s)) (p_backends pl)
        (p_balancer pl) (maxActivePerBackend (p_policy pl)) excluded key in
      Some (MkPsys (w_heap w) (set_balancer bal pl) (ps_now s)
        match r with
        | inr (p, adm) => (MkAttempt p adm, false) :: ps_attempts s
        | inl _ => ps_attempts s
        end)
  | PSuccess i => report s i (fun a => (MarkSuccess a h).1)
  | PFailure i => report s i (fun a => (MarkFailure (ps_now s) a h).1)
  | PReleaseProbe i => report s i (fun a => ReleaseProbe a h)
  | PRelease i =>
      match ps_attempts s !! i with
      | Some (a, _) =>
          Some (MkPsys (pool_Release a h) pl (ps_now s) (delete i (ps_attempts s)))
      | None => None
      end
  | PForceClose p =>
      if bool_decide (p ∈ p_backends pl)
      then Some (MkPsys (ForceClose p h).1 pl (ps_now s) (ps_attempts s)) else None
  | PSetHealthy p b =>
      if bool_decide (p ∈ p_backends pl)
      then Some (MkPsys (<[p := setActiveHealthy b (deref h p)]> h) pl (ps_now s) (ps_attempts s))
      else None
  | PUpdateTargets targets =>
      let '(h, pl) := UpdateTargets targets h pl in
      Some (MkPsys h pl (ps_now s) (ps_attempts s))
  | PSetLimits cp =>
      let '(h, pl) := setCircuitLimits cp h pl in
      Some (MkPsys h pl (ps_now s) (ps_attempts s))
  | PTick d => if 0 <=? d then Some (MkPsys h pl (ps_now s + d) (ps_attempts s)) else None
  end.

(** ** One backend's view *)

Definition out_of (p : ptr) (a : Attempt * bool) : option admission :=
  if bool_decide (at_Backend a.1 = p) && negb a.2 then Some (at_adm a.1) else None.

Definition proj (p : ptr) (s : psys) : csys :=
  MkCsys (b_circuit (deref (ps_heap s) p)) (ps_now s) (omap (out_of p) (ps_attempts s)).

(** The attempts a backend is serving. *)
Definition serving (p : ptr) (l : list (Attempt * bool)) : Z :=
  Z.of_nat (length (filter (fun a => at_Backend a.1 = p) l)).

(** The invariant after [n] steps: every allocated backend is well-formed, its
    breaker satisfies its invariant against the admissions that are still out,
    and its in-flight count is the number of attempts it is serving. *)
Record pool_inv (n : Z) (s : psys) : Prop := {
  pi_circuit : forall p, (p < length (ps_heap s))%nat -> circuit_inv (proj p s);
  pi_epoch : forall p, (p < length (ps_heap s))%nat -> epoch (b_circuit (deref (ps_heap s) p)) <= n + 1;
  pi_weight : forall p, (p < length (ps_heap s))%nat -> 1 <= b_weight (deref (ps_heap s) p) <= max_int64;
  pi_affinity : forall p, (p < length (ps_heap s))%nat ->
    b_affinitySum (deref (ps_heap s) p) = Sum (b_affinityID (deref (ps_heap s) p));
  pi_inflight : forall p, (p < length (ps_heap s))%nat ->
    b_inflight (deref (ps_heap s) p) = serving p (ps_attempts s);
  pi_nodup : NoDup (p_backends (ps_pool s));
  pi_valid : pool_ok (ps_heap s) (ps_pool s);
  pi_attempts : Forall (fun a => (at_Backend a.1 < length (ps_heap s))%nat) (ps_attempts s);
  pi_hook : p_circuitHook (ps_pool s) = false
}.

(** Targets come with a weight that fits a Go [int]. *)
Definition plabel_ok (l : plabel) : Prop :=
  match l with
  | PUpdateTargets ts => Forall (fun t => t_Weight t <= max_int64) ts
  | _ => True
  end.

(** ** The attempts list and its projection *)

(** The position, among the unreported attempts on [p], of attempt [i]. *)
Definition out_index (p : ptr) (l : list (Attempt * bool)) (i : nat) : nat :=
  length (omap (out_of p) (take i l)).

Lemma omap_split {A B} (f : A -> option B) l i x :
  l !! i = Some x ->
  omap f l = omap f (take i l) ++ omap f [x] ++ omap f (drop (S i) l).
Proof.
  intros Hi. rewrite <- (take_drop_middle l i x Hi) at 1. rewrite omap_app. f_equal.
  apply (omap_app f [x]).
Qed.

Lemma out_single p a : at_Backend a = p -> omap (out_of p) [(a, false)] = [at_adm a].
Proof. intros Hp. simpl. unfold out_of. simpl. by rewrite bool_decide_true. Qed.

Lemma out_lookup p (l : list (Attempt * bool)) (i : nat) a :
  l !! i = Some (a, false) -> at_Backend a = p ->
  omap (out_of p) l !! out_index p l i = Some (at_adm a).
Proof.
  intros Hi Hp. rewrite (omap_split _ _ _ _ Hi), out_single by done.
  by apply list_lookup_middle.
Qed.

(** Replacing attempt [i] by one that is not out removes it from the view. *)
Lemma out_insert p (l : list (Attempt * bool)) (i : nat) a b :
  l !! i = Some (a, false) -> at_Backend a = p -> out_of p b = None ->
  omap (out_of p) (<[i := b]> l) = delete (out_index p l i) (omap (out_of p) l).
Proof.
  intros Hi Hp Hb. assert (Hlt : (i < length l)%nat) by by eapply lookup_lt_Some.
  rewrite (omap_split _ _ _ _ Hi), out_single, insert_take_drop, omap_app by done.
  simpl. rewrite Hb. unfold out_index. by rewrite delete_middle.
Qed.

Lemma out_insert_other p (l : list (Attempt * bool)) (i : nat) a b :
  l !! i = Some a -> out_of p a = None -> out_of p b = None ->
  omap (out_of p) (<[i := b]> l) = omap (out_of p) l.
Proof.
  intros Hi Ha Hb. assert (Hlt : (i < length l)%nat) by by eapply lookup_lt_Some.
  rewrite (omap_split _ _ _ _ Hi), insert_take_drop, omap_app by done. simpl. by rewrite Ha, Hb.
Qed.

Lemma out_delete p (l : list (Attempt * bool)) (i : nat) a :
  l !! i = Some (a, false) -> at_Backend a = p ->
  omap (out_of p) (delete i l) = delete (out_index p l i) (omap (out_of p) l).
Proof.
  intros Hi Hp. rewrite (omap_split _ _ _ _ Hi), out_single, delete_take_drop, omap_app by done.
  unfold out_index. simpl. by rewrite delete_middle.
Qed.

Lemma out_delete_other p (l : list (Attempt * bool)) (i : nat) a :
  l !! i = Some a -> out_of p a = None -> omap (out_of p) (delete i l) = omap (out_of p) l.
Proof.
  intros Hi Ha. rewrite (omap_split _ _ _ _ Hi), delete_take_drop, omap_app. simpl. by rewrite Ha.
Qed.

Lemma serving_cons p a l :
  serving p (a :: l) = (if bool_decide (at_Backend a.1 = p) then 1 else 0) + serving p l.
Proof.
  unfold serving. rewrite filter_cons. case_decide; [rewrite bool_decide_true by done|rewrite bool_decide_false by done];
    simpl; lia.
Qed.

Lemma serving_app p l k : serving p (l ++ k) = serving p l + serving p k.
Proof. unfold serving. rewrite filter_app, length_app. lia. Qed.

Lemma serving_report p (l : list (Attempt * bool)) (i : nat) a r :
  l !! i = Some (a, r) -> serving p (<[i := (a, true)]> l) = serving p l.
Proof.
  intros Hi. assert (Hlt : (i < length l)%nat) by by eapply lookup_lt_Some.
  rewrite insert_take_drop by done. rewrite <- (take_drop_middle l i _ Hi) at 3.
  rewrite !serving_app, !serving_cons. done.
Qed.

Lemma serving_delete p (l : list (Attempt * bool)) (i : nat) a :
  l !! i = Some a ->
  serving p (delete i l) = serving p l - (if bool_decide (at_Backend a.1 = p) then 1 else 0).
Proof.
  intros Hi. rewrite delete_take_drop. rewrite <- (take_drop_middle l i _ Hi) at 3.
  rewrite !serving_app, !serving_cons. lia.
Qed.

(** ** The simulation *)

(** The request is placed on [p]. *)
Definition placed (p : ptr) (s s' : psys) : Prop :=
  exists adm, ps_attempts s' = (MkAttempt p adm, false) :: ps_attempts s.

(** The event of attempt [i], if it is an attempt on [p] that has not reported. *)
Definition reported (p : ptr) (s : psys) (i : nat) (L : nat -> clabel) : list clabel :=
  match ps_attempts s !! i with
  | Some (a, false) => if bool_decide (at_Backend a = p) then [L (out_index p (ps_attempts s) i)] else []
  | _ => []
  end.

(** What the breaker of [p] is told by an event of the pool.  A request placed on
    [p] is an admission, and one placed elsewhere at most a refused admission of
    a half-open breaker whose window is over. *)
Definition told (p : ptr) (s : psys) (l : plabel) (s' : psys) (e : list clabel) : Prop :=
  match l with
  | PSelect _ _ =>
      (placed p s s' -> e = [LAdmit]) /\
      (~ placed p s s' -> e = [] \/ e = [LAdmit] /\ expired (ps_now s) (b_circuit (deref (ps_heap s) p)) = true)
  | PSuccess i => e = reported p s i LSuccess
  | PFailure i => e = reported p s i LFailure
  | PReleaseProbe i => e = reported p s i LReleaseProbe
  | PRelease i => e = reported p s i LAbandon
  | PForceClose q => e = if bool_decide (q = p) then [LForceClose] else []
  | PSetHealthy _ _ | PUpdateTargets _ => e = []
  | PSetLimits cp =>
      e = if bool_decide (p ∈ p_backends (ps_pool s))
          then [LSetLimits (cp_maxFails cp) (cp_failTimeout cp) (cp_halfOpenProbes cp)] else []
  | PTick d => e = [LTick d]
  end.

(** Every step of the pool is what each breaker is told, at most one step. *)
Definition sim (p : ptr) (s : psys) (l : plabel) (s' : psys) : Prop :=
  exists e, told p s l s' e /\ (length e <= 1)%nat /\ trace circuit_exec (proj p s) e (proj p s').

Lemma sim_same p s l s' : told p s l s' [] -> proj p s' = proj p s -> sim p s l s'.
Proof. intros HT E. exists []. split_and!; [done|simpl; lia|]. rewrite E. constructor. Qed.

Lemma sim_one p s l s' e : told p s l s' [e] -> circuit_exec (proj p s) e = Some (proj p s') -> sim p s l s'.
Proof. intros HT E. exists [e]. split_and!; [done|simpl; lia|]. econstructor; [exact E|constructor]. Qed.

(** A backend whose breaker is new. *)
Definition born (cp : circuitParams) (p : ptr) (s : psys) : Prop :=
  proj p s = circuit_init (cp_maxFails cp) (cp_failTimeout cp) (cp_halfOpenProbes cp) (ps_now s).

(** What each step keeps: the simulation, and the invariant one step later. *)
Definition step_ok (n : Z) (s : psys) (l : plabel) (s' : psys) : Prop :=
  (forall p, (p < length (ps_heap s))%nat ->
     (p < length (ps_heap s'))%nat /\ sim p s l s') /\
  (forall p, (length (ps_heap s) <= p < length (ps_heap s'))%nat -> born (p_circuit (ps_pool s)) p s') /\
  pool_inv (n + 1) s'.

(** The invariant from the simulation and what the breaker does not see. *)
Lemma pool_inv_sim n s l s' :
  pool_inv n s -> 0 <= n < 2 ^ 64 - 2 ->
  (length (ps_heap s) <= length (ps_heap s'))%nat ->
  (forall p, (p < length (ps_heap s))%nat -> sim p s l s') ->
  (forall p, (length (ps_heap s) <= p < length (ps_heap s'))%nat -> born (p_circuit (ps_pool s)) p s') ->
  (forall p, (p < length (ps_heap s'))%nat ->
     1 <= b_weight (deref (ps_heap s') p) <= max_int64 /\
     b_affinitySum (deref (ps_heap s') p) = Sum (b_affinityID (deref (ps_heap s') p)) /\
     b_inflight (deref (ps_heap s') p) = serving p (ps_attempts s')) ->
  NoDup (p_backends (ps_pool s')) -> pool_ok (ps_heap s') (ps_pool s') ->
  Forall (fun a => (at_Backend a.1 < length (ps_heap s'))%nat) (ps_attempts s') ->
  p_circuitHook (ps_pool s') = false ->
  step_ok n s l s'.
Proof.
  intros [I1 I2 I3 I4 I5 I6 I7 I8 I9] Hn Hle Hsim Hnew Hfields Hnd Hok Hatt Hhook.
  assert (Hc : forall p, (p < length (ps_heap s'))%nat ->
    circuit_inv (proj p s') /\ epoch (b_circuit (deref (ps_heap s') p)) <= n + 1 + 1).
  { intros p Hp. destruct (decide (p < length (ps_heap s))%nat) as [Hlt|Hge].
    - destruct (Hsim p Hlt) as (ctr & _ & Hl & T).
      destruct (circuit_trace_inv _ _ _ n T) as (H1 & H2 & _); [lia|lia|by apply I1|by apply I2|].
      simpl in H2. split; [done|]. lia.
    - assert (Hb : born (p_circuit (ps_pool s)) p s') by (apply Hnew; lia). unfold born in Hb.
      split; [rewrite Hb; apply circuit_init_inv|]. change (b_circuit _) with (cs_circuit (proj p s')). rewrite Hb. simpl. lia. }
  split; [intros p Hp; split; [lia|auto]|]. split; [done|].
  split; try done; intros p Hp; try (by apply Hc); by apply Hfields.
Qed.

(** One backend changes, together with the attempts. *)
Lemma pool_inv_update n s l q b atts :
  pool_inv n s -> 0 <= n < 2 ^ 64 - 2 -> (q < length (ps_heap s))%nat ->
  b_weight b = b_weight (deref (ps_heap s) q) ->
  b_affinitySum b = b_affinitySum (deref (ps_heap s) q) ->
  b_affinityID b = b_affinityID (deref (ps_heap s) q) ->
  b_inflight b = serving q atts ->
  (forall p, p <> q -> serving p atts = serving p (ps_attempts s)) ->
  Forall (fun a => (at_Backend a.1 < length (ps_heap s))%nat) atts ->
  let s' := MkPsys (<[q := b]> (ps_heap s)) (ps_pool s) (ps_now s) atts in
  (forall p, (p < length (ps_heap s))%nat -> sim p s l s') -> step_ok n s l s'.
Proof.
  intros Hi Hn Hq Hw Hs Hid Hin Hsv Hatt s' Hsim.
  assert (Hlen : length (ps_heap s') = length (ps_heap s)) by apply length_insert.
  apply (pool_inv_sim n s); try done; try apply Hi; [by rewrite Hlen| | | |].
  - intros p Hp. lia.
  - intros p Hp. rewrite Hlen in Hp. simpl. destruct (decide (p = q)) as [->|Hne].
    + rewrite deref_insert_eq by done. rewrite Hw, Hs, Hid.
      split_and!; [by apply (pi_weight _ _ Hi)|by apply (pi_weight _ _ Hi)|by apply Hi|done].
    + rewrite deref_insert_ne, Hsv by done.
      split_and!; [by apply (pi_weight _ _ Hi)|by apply (pi_weight _ _ Hi)|by apply Hi|by apply Hi].
  - intros p Hp. rewrite Hlen. by apply (pi_valid _ _ Hi).
  - by rewrite Hlen.
Qed.

Lemma proj_update_ne p q s b atts :
  p <> q -> omap (out_of p) atts = omap (out_of p) (ps_attempts s) ->
  proj p (MkPsys (<[q := b]> (ps_heap s)) (ps_pool s) (ps_now s) atts) = proj p s.
Proof. intros Hne Ho. unfold proj. simpl. by rewrite deref_insert_ne, Ho. Qed.

(** A report is one step of the breaker it is about. *)
Lemma report_inv n s l i f s' (L : nat -> clabel) (c' : Attempt -> circuit) :
  pool_inv n s -> 0 <= n < 2 ^ 64 - 2 ->
  (forall a, f a = <[at_Backend a := set_circuit (c' a) (deref (ps_heap s) (at_Backend a))]> (ps_heap s)) ->
  (forall a c j, cs_out c !! j = Some (at_adm a) ->
     cs_circuit c = b_circuit (deref (ps_heap s) (at_Backend a)) -> cs_now c = ps_now s ->
     circuit_exec c (L j) = Some (MkCsys (c' a) (cs_now c) (delete j (cs_out c)))) ->
  (forall p s' e, told p s l s' e <-> e = reported p s i L) ->
  report s i f = Some s' -> step_ok n s l s'.
Proof.
  intros Hi Hn Hf HL HT E. unfold report in E.
  destruct (ps_attempts s !! i) as [[a [|]]|] eqn:Ha; try discriminate. injection E as <-.
  set (q := at_Backend a). assert (Hq : (q < length (ps_heap s))%nat).
  { by apply (Forall_lookup_1 _ _ _ _ (pi_attempts _ _ Hi) Ha). }
  rewrite Hf. apply pool_inv_update; try done; simpl.
  - rewrite (serving_report _ _ _ _ _ Ha). by apply Hi.
  - intros p _. by rewrite (serving_report _ _ _ _ _ Ha).
  - apply Forall_insert; [apply Hi|done].
  - intros p Hp. destruct (decide (p = q)) as [->|Hne].
    + apply (sim_one _ _ _ _ (L (out_index q (ps_attempts s) i))).
      { apply HT. unfold reported. rewrite Ha. by rewrite bool_decide_true. }
      rewrite (HL a); [|simpl; by apply out_lookup|done|done].
      unfold proj. simpl. rewrite deref_insert_eq by done.
      rewrite (out_insert q _ _ a) by (done || (unfold out_of; simpl; by rewrite andb_false_r)). done.
    + apply sim_same; [apply HT; unfold reported; rewrite Ha; rewrite bool_decide_false; [done|by intros <-]|].
      apply proj_update_ne; [done|]. apply (out_insert_other _ _ _ (a, false)); [done|..];
        unfold out_of; simpl; rewrite bool_decide_false by (intros <-; by apply Hne); done.
Qed.

(** Selection is one admission of the chosen breaker, and one refused admission
    of each expired half-open breaker it tried. *)
Lemma select_sim n s excluded key s' :
  pool_inv n s -> pool_exec s (PSelect excluded key) = Some s' ->
  exists w' r,
    alone_result (MkWorld (ps_heap s) (ps_now s)) w'
      (filter (candidate (ps_now s) (ps_heap s) (maxActivePerBackend (p_policy (ps_pool s))) excluded)
         (p_backends (ps_pool s))) r /\
    ps_heap s' = w_heap w' /\ ps_now s' = ps_now s /\
    p_backends (ps_pool s') = p_backends (ps_pool s) /\
    p_circuitHook (ps_pool s') = p_circuitHook (ps_pool s) /\
    ps_attempts s' = match r with
                     | Some (p, adm) => (MkAttempt p adm, false) :: ps_attempts s
                     | None => ps_attempts s
                     end.
Proof.
  intros Hi E. cbn [pool_exec] in E.
  destruct (selectBackend_result (MkWorld (ps_heap s) (ps_now s)) (p_backends (ps_pool s))
    (p_balancer (ps_pool s)) (maxActivePerBackend (p_policy (ps_pool s))) excluded key)
    as (w' & bal' & r & Es & Hr); [apply Hi| |].
  - intros p Hp. simpl. pose proof (pi_valid _ _ Hi p Hp) as Hlt. split; [done|].
    split; [apply (ci_ok _ (pi_circuit _ _ Hi p Hlt))|by apply Hi|by apply Hi].
  - rewrite Es in E. injection E as <-. exists w', r. split; [done|]. simpl.
    split_and!; try done. by destruct r as [[p adm]|].
Qed.

Lemma touched_sim p s excluded key s' :
  circuit_inv (proj p s) -> ps_now s' = ps_now s ->
  omap (out_of p) (ps_attempts s') = omap (out_of p) (ps_attempts s) ->
  ~ placed p s s' -> touched (ps_now s) (deref (ps_heap s) p) (deref (ps_heap s') p) -> sim p s (PSelect excluded key) s'.
Proof.
  intros Hi Hn Ho Hp [E|[He E]].
  - apply sim_same; [split; [done|by left]|]. unfold proj. by rewrite E, Hn, Ho.
  - apply (sim_one _ _ _ _ LAdmit); [split; [done|by right]|]. simpl.
    destruct (admit_eligible (ps_now s) _ (ci_ok _ Hi)) as [A1 A2]. simpl in *. specialize (A2 He).
    unfold expired in He. rewrite He, andb_false_r in A1.
    destruct (circuit_admit _ _) as [c a]. simpl in *. rewrite A1. unfold proj.
    by rewrite Hn, Ho, E, A2.
Qed.

(** What the invariant needs of a backend besides its breaker. *)
Definition kept (p : ptr) (s s' : psys) : Prop :=
  b_weight (deref (ps_heap s') p) = b_weight (deref (ps_heap s) p) /\
  b_affinitySum (deref (ps_heap s') p) = b_affinitySum (deref (ps_heap s) p) /\
  b_affinityID (deref (ps_heap s') p) = b_affinityID (deref (ps_heap s) p) /\
  b_inflight (deref (ps_heap s') p) - serving p (ps_attempts s') =
  b_inflight (deref (ps_heap s) p) - serving p (ps_attempts s).

Lemma select_chosen s excluded key s' p adm b :
  (p < length (ps_heap s))%nat -> ps_now s' = ps_now s ->
  ps_attempts s' = (MkAttempt p adm, false) :: ps_attempts s ->
  backend_admit (ps_now s) (deref (ps_heap s) p) = (b, Some adm) ->
  deref (ps_heap s') p = acquire b -> sim p s (PSelect excluded key) s' /\ kept p s s'.
Proof.
  intros Hlt Hn Ha Hadm Hd. unfold backend_admit in Hadm.
  destruct (b_activeHealthy _); [|discriminate]. simpl in Hadm.
  destruct (circuit_admit _ _) as [c a] eqn:Ec. destruct (admission_ok a) eqn:Ea; [|discriminate].
  injection Hadm as <- ->. split.
  - apply (sim_one _ _ _ _ LAdmit).
    { split; [done|]. intros Hp. exfalso. apply Hp. by eexists. }
    cbn [circuit_exec proj cs_circuit cs_now]. rewrite Ec, Ea.
    unfold proj. rewrite Hn, Hd, Ha. simpl. unfold out_of at 2. simpl. by rewrite bool_decide_true.
  - unfold kept. rewrite Hd, Ha, serving_cons. simpl. rewrite bool_decide_true by done.
    split_and!; try done. lia.
Qed.

Lemma select_other s excluded key s' p r :
  circuit_inv (proj p s) -> ps_now s' = ps_now s ->
  ps_attempts s' = match r with
                   | Some (q, adm) => (MkAttempt q adm, false) :: ps_attempts s
                   | None => ps_attempts s
                   end ->
  (forall adm, r <> Some (p, adm)) ->
  touched (ps_now s) (deref (ps_heap s) p) (deref (ps_heap s') p) -> sim p s (PSelect excluded key) s' /\ kept p s s'.
Proof.
  intros Hi Hn Ha Hp Ht.
  assert (Ho : omap (out_of p) (ps_attempts s') = omap (out_of p) (ps_attempts s) /\
    serving p (ps_attempts s') = serving p (ps_attempts s)).
  { rewrite Ha. destruct r as [[q adm]|]; [|done].
    assert (q <> p) by (intros ->; by apply (Hp adm)).
    split; [|rewrite serving_cons; simpl; by rewrite bool_decide_false].
    simpl. unfold out_of at 1. simpl. by rewrite bool_decide_false. }
  assert (Hn' : ~ placed p s s').
  { intros [adm E]. rewrite Ha in E. destruct r as [[q adm']|].
    - injection E as -> ->. by apply (Hp adm).
    - apply (f_equal length) in E. simpl in E. lia. }
  destruct Ho as [Ho Hs]. split; [by apply touched_sim|].
  unfold kept. rewrite Hs. by destruct Ht as [->|[_ ->]].
Qed.

Lemma kept_fields n p s s' :
  pool_inv n s -> (p < length (ps_heap s))%nat -> kept p s s' ->
  1 <= b_weight (deref (ps_heap s') p) <= max_int64 /\
  b_affinitySum (deref (ps_heap s') p) = Sum (b_affinityID (deref (ps_heap s') p)) /\
  b_inflight (deref (ps_heap s') p) = serving p (ps_attempts s').
Proof.
  intros Hi Hp (Hw & Hs & Hid & Hf). rewrite Hw, Hs, Hid.
  pose proof (pi_inflight _ _ Hi p Hp). split_and!; [apply Hi|apply Hi|apply Hi|lia]; done.
Qed.

Lemma select_inv n s excluded key s' :
  pool_inv n s -> 0 <= n < 2 ^ 64 - 2 -> pool_exec s (PSelect excluded key) = Some s' ->
  step_ok n s (PSelect excluded key) s'.
Proof.
  intros Hi Hn E.
  destruct (select_sim _ _ _ _ _ Hi E) as (w' & r & [R1 R2 R3 R4 R5] & Hh & Hnow & Hb & Hk & Ha).
  simpl in *. rewrite <- Hh in *.
  assert (Hp : forall p, (p < length (ps_heap s))%nat -> sim p s (PSelect excluded key) s' /\ kept p s s').
  { intros p Hlt. destruct r as [[q adm]|]; [destruct (decide (p = q)) as [->|Hne]|].
    - destruct (R5 q adm eq_refl) as (_ & _ & b & Hadm & Hd). by eapply select_chosen.
    - assert (Hr : forall adm', Some (q, adm) <> Some (p, adm')) by congruence.
      apply (select_other s excluded key s' p (Some (q, adm))); [by apply Hi|done|done|done|by apply R3].
    - apply (select_other s excluded key s' p None); [by apply Hi|done|done|done|by apply R3]. }
  apply (pool_inv_sim n s); try done; [by rewrite R2| | | | | | |].
  - intros p Hlt. by apply Hp.
  - intros p Hlt. lia.
  - intros p Hlt. rewrite R2 in Hlt. eapply kept_fields; [done..|]. by apply Hp.
  - rewrite Hb. apply Hi.
  - intros p Hin. rewrite R2. rewrite Hb in Hin. by apply (pi_valid _ _ Hi).
  - rewrite R2, Ha. destruct r as [[q adm]|]; [|apply Hi]. constructor; [|apply Hi]. simpl.
    destruct (R5 q adm eq_refl) as (Hq & _). apply list_elem_of_filter in Hq as [_ Hq].
    by apply (pi_valid _ _ Hi).
  - rewrite Hk. apply Hi.
Qed.

Lemma release_inv n s i s' :
  pool_inv n s -> 0 <= n < 2 ^ 64 - 2 -> pool_exec s (PRelease i) = Some s' -> step_ok n s (PRelease i) s'.
Proof.
  intros Hi Hn E. cbn [pool_exec] in E.
  destruct (ps_attempts s !! i) as [[a r]|] eqn:Ha; [|discriminate]. injection E as <-.
  set (q := at_Backend a).
  assert (Hq : (q < length (ps_heap s))%nat) by apply (Forall_lookup_1 _ _ _ _ (pi_attempts _ _ Hi) Ha).
  apply pool_inv_update; try done; simpl.
  - rewrite (serving_delete _ _ _ _ Ha). simpl. fold q. rewrite bool_decide_true by done.
    by rewrite (pi_inflight _ _ Hi q Hq).
  - intros p Hne. rewrite (serving_delete _ _ _ _ Ha). simpl. fold q.
    rewrite bool_decide_false by done. lia.
  - apply Forall_delete, Hi.
  - intros p Hp. destruct r; [|destruct (decide (p = q)) as [->|Hne]].
    + apply sim_same; [simpl; unfold reported; by rewrite Ha|]. unfold proj. simpl.
      rewrite (out_delete_other _ _ _ (a, true)) by (done || (unfold out_of; simpl; by rewrite andb_false_r)).
      destruct (decide (p = q)) as [->|Hne]; [by rewrite deref_insert_eq|by rewrite deref_insert_ne].
    + apply (sim_one _ _ _ _ (LAbandon (out_index q (ps_attempts s) i))).
      { simpl. unfold reported. rewrite Ha. by rewrite bool_decide_true. }
      unfold proj. simpl.
      rewrite (out_lookup q _ _ a) by done. rewrite (out_delete q _ _ a) by done.
      by rewrite deref_insert_eq.
    + apply sim_same; [simpl; unfold reported; rewrite Ha; rewrite bool_decide_false; [done|by intros <-]|].
      apply proj_update_ne; [done|]. apply (out_delete_other _ _ _ (a, false)); [done|].
      unfold out_of. simpl. rewrite bool_decide_false by (intros <-; by apply Hne). done.
Qed.

(** A change of one backend that its breaker is told by [e]. *)
Lemma local_inv n s l q b e :
  pool_inv n s -> 0 <= n < 2 ^ 64 - 2 -> q ∈ p_backends (ps_pool s) ->
  b_weight b = b_weight (deref (ps_heap s) q) ->
  b_affinitySum b = b_affinitySum (deref (ps_heap s) q) ->
  b_affinityID b = b_affinityID (deref (ps_heap s) q) ->
  b_inflight b = b_inflight (deref (ps_heap s) q) ->
  let s' := MkPsys (<[q := b]> (ps_heap s)) (ps_pool s) (ps_now s) (ps_attempts s) in
  (forall p, p <> q -> told p s l s' []) ->
  (told q s l s' [] /\ b_circuit b = b_circuit (deref (ps_heap s) q) \/
   told q s l s' [e] /\ circuit_exec (proj q s) e = Some (MkCsys (b_circuit b) (ps_now s) (cs_out (proj q s)))) ->
  step_ok n s l (MkPsys (<[q := b]> (ps_heap s)) (ps_pool s) (ps_now s) (ps_attempts s)).
Proof.
  intros Hi Hn Hin Hw Hs Hid Hf s' HT Hc. pose proof (pi_valid _ _ Hi q Hin) as Hq.
  apply pool_inv_update; try done; [rewrite Hf; by apply Hi|apply Hi|].
  intros p Hp. destruct (decide (p = q)) as [->|Hne]; [|by apply sim_same; [apply HT|apply proj_update_ne]].
  destruct Hc as [[Ht Hc]|[Ht Hc]].
  - apply sim_same; [done|]. unfold proj. simpl. by rewrite deref_insert_eq, Hc.
  - apply (sim_one _ _ _ _ e); [done|]. rewrite Hc. unfold proj. simpl. by rewrite deref_insert_eq.
Qed.

Lemma tick_inv n s d s' :
  pool_inv n s -> 0 <= n < 2 ^ 64 - 2 -> pool_exec s (PTick d) = Some s' -> step_ok n s (PTick d) s'.
Proof.
  intros Hi Hn E. simpl in E. destruct (0 <=? d) eqn:Hd; [|discriminate]. injection E as <-.
  apply (pool_inv_sim n s); try done; try apply Hi.
  - intros p Hp. apply (sim_one _ _ _ _ (LTick d)); [done|]. simpl. by rewrite Hd.
  - intros p Hp. simpl in Hp. lia.
  - intros p Hp. eapply kept_fields; [done..|]. done.
Qed.

Lemma setLimits_fold cp ps h :
  NoDup ps -> (forall p, p ∈ ps -> (p < length h)%nat) ->
  let h' := fold_left (fun h p => <[p := set_circuit (setLimits (cp_maxFails cp) (cp_failTimeout cp)
      (cp_halfOpenProbes cp) (b_circuit (deref h p))) (deref h p)]> h) ps h in
  length h' = length h /\
  forall q, deref h' q = if bool_decide (q ∈ ps)
    then set_circuit (setLimits (cp_maxFails cp) (cp_failTimeout cp) (cp_halfOpenProbes cp)
           (b_circuit (deref h q))) (deref h q)
    else deref h q.
Proof.
  intros Hn. revert h. induction Hn as [|p ps Hp Hn IH]; intros h Hlt; simpl; [done|].
  set (h1 := <[p := _]> h). destruct (IH h1) as [E1 E2].
  { intros q Hq. unfold h1. rewrite length_insert. apply Hlt. by right. }
  unfold h1 at 2 in E1. rewrite length_insert in E1. split; [done|]. intros q. rewrite E2.
  assert (Hlp : (p < length h)%nat) by (apply Hlt; left).
  destruct (decide (q = p)) as [->|Hqp].
  - rewrite (bool_decide_false (p ∈ ps)), (bool_decide_true (p ∈ p :: ps)) by (done || left).
    unfold h1. by rewrite deref_insert_eq.
  - unfold h1. rewrite deref_insert_ne by done.
    destruct (decide (q ∈ ps)); [rewrite !bool_decide_true; [done|by right|done]|].
    rewrite !bool_decide_false; [done| |done]. by intros [?|?]%elem_of_cons.
Qed.

Lemma setLimits_inv n s cp s' :
  pool_inv n s -> 0 <= n < 2 ^ 64 - 2 -> pool_exec s (PSetLimits cp) = Some s' -> step_ok n s (PSetLimits cp) s'.
Proof.
  intros Hi Hn E. cbn [pool_exec setCircuitLimits] in E. injection E as <-.
  destruct (setLimits_fold cp (p_backends (ps_pool s)) (ps_heap s) (pi_nodup _ _ Hi) (pi_valid _ _ Hi))
    as [Hl Hd]. set (h' := fold_left _ _ _) in *.
  match goal with |- step_ok _ _ _ ?x => set (s' := x) end.
  apply (pool_inv_sim n s); try done; try apply Hi; [simpl; lia| | | | |].
  - intros p Hp. destruct (decide (p ∈ p_backends (ps_pool s))) as [Hin|Hin].
    + apply (sim_one _ _ _ _ (LSetLimits (cp_maxFails cp) (cp_failTimeout cp) (cp_halfOpenProbes cp))).
      { simpl. by rewrite bool_decide_true. }
      unfold proj. simpl. by rewrite Hd, bool_decide_true.
    + apply sim_same; [simpl; by rewrite bool_decide_false|]. unfold proj. simpl. by rewrite Hd, bool_decide_false.
  - intros p Hp. simpl in Hp. lia.
  - intros p Hp. simpl in Hp. rewrite Hl in Hp. apply (kept_fields n p s s'); [done..|].
    unfold kept. simpl. rewrite Hd. by case_bool_decide.
  - intros p Hp. simpl. rewrite Hl. by apply (pi_valid _ _ Hi).
  - simpl. rewrite Hl. apply Hi.
Qed.

Lemma new_backend_fields pl t :
  let b := target_backend pl t in
  b_inflight b = 0 /\ b_affinitySum b = Sum (b_affinityID b) /\
  (t_Weight t <= max_int64 -> 1 <= b_weight b <= max_int64) /\
  b_circuit b = newCircuit (cp_maxFails (p_circuit pl)) (cp_failTimeout (p_circuit pl))
                  (cp_halfOpenProbes (p_circuit pl)).
Proof.
  unfold target_backend, newBackendFor. destruct (ParseSocketAddress (t_Address t)) as [network address].
  simpl. split_and!; try done. intros Hw. unfold max_int64 in *. destruct (t_Weight t <? 1) eqn:E; lia.
Qed.

Lemma unused_pointer p s :
  Forall (fun a => (at_Backend a.1 < length (ps_heap s))%nat) (ps_attempts s) ->
  (length (ps_heap s) <= p)%nat ->
  omap (out_of p) (ps_attempts s) = [] /\ serving p (ps_attempts s) = 0.
Proof.
  intros Ha Hp. induction Ha as [|[a r] l Hx _ IH]; [done|]. destruct IH as [IH1 IH2]. simpl in Hx.
  rewrite serving_cons. simpl. unfold out_of at 1. simpl. rewrite bool_decide_false by lia. simpl.
  split; [exact IH1|lia].
Qed.

(** What a refresh does to each pointer. *)
Lemma update_pointer targets h pl h' pl' p :
  pool_ok h pl -> p_circuitHook pl = false -> UpdateTargets targets h pl = (h', pl') ->
  ((p < length h)%nat -> deref h' p = deref h p \/ exists t, t ∈ targets /\
     deref h' p = set_weight (b_weight (target_backend pl t)) (deref h p)) /\
  ((length h <= p < length h')%nat -> exists t, t ∈ targets /\ deref h' p = target_backend pl t).
Proof.
  intros Hok Hk E. pose proof (UpdateTargets_spec targets h pl Hok) as H. rewrite E in H.
  destruct H as (H1 & _ & _ & H4 & Hlen & _). rewrite Hlen.
  assert (Hin : forall p, p ∈ p_backends pl' -> exists t, t ∈ targets /\ target_placed h h' pl t p).
  { intros q [i Hi]%list_elem_of_lookup. destruct (Forall2_lookup_r _ _ _ _ _ H1 Hi) as (t & Ht & Hp).
    exists t. split; [by eapply list_elem_of_lookup_2|done]. }
  unfold target_placed in Hin. rewrite Hk in Hin. split; intros Hp.
  - destruct (decide (p ∈ p_backends pl')) as [Hp'|Hp'].
    + destruct (Hin p Hp') as (t & Ht & [(_ & _ & Hd)|[? _]]); [right; by exists t|lia].
    + left. rewrite (H4 p Hp'). by apply deref_app_l.
  - destruct (decide (p ∈ p_backends pl')) as [Hp'|Hp'].
    + destruct (Hin p Hp') as (t & Ht & [(Hb & _)|[_ Hd]]); [apply Hok in Hb; lia|]. by exists t.
    + rewrite (H4 p Hp'). destruct (lookup_lt_is_Some_2 targets (p - length h)) as [t Ht]; [lia|].
      exists t. split; [by eapply list_elem_of_lookup_2|]. apply deref_lookup.
      rewrite lookup_app_r by lia. by rewrite list_lookup_fmap, Ht.
Qed.

Lemma update_inv n s targets s' :
  pool_inv n s -> 0 <= n < 2 ^ 64 - 2 -> plabel_ok (PUpdateTargets targets) ->
  pool_exec s (PUpdateTargets targets) = Some s' -> step_ok n s (PUpdateTargets targets) s'.
Proof.
  intros Hi Hn Hl E. cbn [pool_exec] in E. simpl in Hl. rewrite Forall_forall in Hl.
  pose proof (UpdateTargets_spec targets _ _ (pi_valid _ _ Hi)) as Hs.
  pose proof (fun h' pl' p => update_pointer targets (ps_heap s) (ps_pool s) h' pl' p
    (pi_valid _ _ Hi) (pi_hook _ _ Hi)) as Hu.
  destruct (UpdateTargets targets (ps_heap s) (ps_pool s)) as [h' pl'].
  destruct Hs as (_ & Hnd & _ & _ & Hlen & Hok & Hk & _). injection E as <-.
  match goal with |- step_ok _ _ _ ?x => set (s' := x) end.
  apply (pool_inv_sim n s); try done; [simpl; lia| | | | |].
  - intros p Hp. apply sim_same; [done|]. unfold proj. simpl.
    by destruct (Hu _ _ p eq_refl) as [[->|(t & _ & ->)] _].
  - intros p Hp. destruct (Hu _ _ p eq_refl) as [_ (t & Ht & Hd)]; [done|].
    destruct (new_backend_fields (ps_pool s) t) as (_ & _ & _ & Hc).
    destruct (unused_pointer p s (pi_attempts _ _ Hi)) as [Ho _]; [lia|].
    unfold born, proj. simpl. by rewrite Hd, Ho, Hc.
  - intros p Hp. simpl in *. destruct (Hu _ _ p eq_refl) as [H1 H2].
    destruct (decide (p < length (ps_heap s))%nat) as [Hlt|Hge].
    + destruct (H1 Hlt) as [->|(t & Ht & ->)]; simpl.
      * split_and!; [by apply (pi_weight _ _ Hi)|by apply (pi_weight _ _ Hi)|by apply Hi|by apply Hi].
      * destruct (new_backend_fields (ps_pool s) t) as (_ & _ & Hw & _). specialize (Hw (Hl t Ht)).
        split_and!; [lia|lia|by apply Hi|by apply Hi].
    + destruct H2 as (t & Ht & ->); [lia|].
      destruct (new_backend_fields (ps_pool s) t) as (Hf & Ha & Hw & _). specialize (Hw (Hl t Ht)).
      destruct (unused_pointer p s (pi_attempts _ _ Hi)) as [_ ->]; [lia|].
      split_and!; [lia|lia|done|done].
  - simpl. eapply Forall_impl; [apply Hi|]. simpl. intros a Ha. rewrite Hlen. lia.
  - simpl. rewrite Hk. apply Hi.
Qed.

Lemma pool_exec_inv n s l s' :
  pool_inv n s -> 0 <= n < 2 ^ 64 - 2 -> plabel_ok l -> pool_exec s l = Some s' -> step_ok n s l s'.
Proof.
  intros Hi Hn Hl E. destruct l.
  - by eapply select_inv.
  - apply (report_inv n s (PSuccess i) i _ s' LSuccess (fun a =>
      (circuit_success (at_adm a) (b_circuit (deref (ps_heap s) (at_Backend a)))).1)) in E; try done.
    + intros a. unfold MarkSuccess. by destruct (circuit_success _ _).
    + intros a c j Ho Hc _. simpl. by rewrite Ho, Hc.
  - apply (report_inv n s (PFailure i) i _ s' LFailure (fun a => (circuit_failure (ps_now s) (at_adm a)
      (b_circuit (deref (ps_heap s) (at_Backend a)))).1)) in E; try done.
    + intros a. unfold MarkFailure. by destruct (circuit_failure _ _ _).
    + intros a c j Ho Hc Hnow. simpl. by rewrite Ho, Hc, Hnow.
  - apply (report_inv n s (PReleaseProbe i) i _ s' LReleaseProbe (fun a => circuit_releaseProbe (at_adm a)
      (b_circuit (deref (ps_heap s) (at_Backend a))))) in E; try done.
    intros a c j Ho Hc _. simpl. by rewrite Ho, Hc.
  - by eapply release_inv.
  - cbn [pool_exec] in E. case_bool_decide; [|discriminate]. injection E as <-.
    unfold ForceClose. destruct (circuit_forceClose _) as [c r] eqn:Ec.
    apply (local_inv n s _ p _ LForceClose); try done.
    + intros q Hq. simpl. by rewrite bool_decide_false.
    + right. simpl. rewrite bool_decide_true by done. by rewrite Ec.
  - cbn [pool_exec] in E. case_bool_decide; [|discriminate]. injection E as <-.
    apply (local_inv n s _ p _ LForceClose); try done. by left.
  - by eapply update_inv.
  - by eapply setLimits_inv.
  - by eapply tick_inv.
Qed.

(** A run of the pool, with what the breaker of [p] is told by it. *)
Inductive told_run (p : ptr) : psys -> list plabel -> psys -> list clabel -> Prop :=
| told_nil s : told_run p s [] s []
| told_cons s l s1 tr s2 e es :
    pool_exec s l = Some s1 -> told p s l s1 e -> told_run p s1 tr s2 es -> told_run p s (l :: tr) s2 (e ++ es).

Lemma pool_trace_inv s tr s' n :
  trace pool_exec s tr s' -> 0 <= n -> n + Z.of_nat (length tr) <= 2 ^ 64 - 2 ->
  Forall plabel_ok tr -> pool_inv n s ->
  pool_inv (n + Z.of_nat (length tr)) s' /\
  forall p, (p < length (ps_heap s))%nat -> (p < length (ps_heap s'))%nat /\
    exists ctr, told_run p s tr s' ctr /\ trace circuit_exec (proj p s) ctr (proj p s').
Proof.
  intros T. revert n. induction T as [s|s l s1 tr s2 E T IH]; intros n Hn Hb Hl Hi.
  - split; [by rewrite Z.add_0_r|]. intros p Hp. split; [done|]. exists []. split; constructor.
  - apply Forall_cons in Hl as [Hl1 Hl]. simpl in Hb.
    destruct (pool_exec_inv n s l s1 Hi ltac:(lia) Hl1 E) as (Hs & _ & Hi1).
    destruct (IH (n + 1)) as [Hi2 Hs2]; [lia|lia|done|done|].
    replace (n + Z.of_nat (length (l :: tr))) with (n + 1 + Z.of_nat (length tr)) by (simpl; lia).
    split; [done|]. intros p Hp. destruct (Hs p Hp) as [Hp1 (c1 & Hc1 & _ & T1)].
    destruct (Hs2 p Hp1) as [Hp2 (c2 & Hc2 & T2)]. split; [done|]. exists (c1 ++ c2).
    split; [by econstructor|by eapply trace_app].
Qed.

(** A pool as [NewPool] builds it from an empty heap. *)
Definition pool_init (cfg : UpstreamConfig) (scheme : gostring) (now : Z) : option psys :=
  match NewPool cfg scheme [] with
  | inr (h, pl) => Some (MkPsys h pl now [])
  | inl _ => None
  end.

Lemma pool_init_inv cfg scheme now s :
  Forall (fun sv => sv.2 <= max_int64) (uc_Servers cfg) ->
  pool_init cfg scheme now = Some s -> pool_inv 0 s.
Proof.
  intros Hw E. unfold pool_init, NewPool in E. destruct (_ && _); [discriminate|].
  destruct (Resolve (uc_Resilience cfg)) as [|policy]; [discriminate|]. simpl in E. injection E as <-.
  set (bs := map _ (uc_Servers cfg)).
  assert (Hb : forall p, (p < length bs)%nat -> exists sv, sv ∈ uc_Servers cfg /\
    deref bs p = newBackend sv scheme (uc_circuit cfg)).
  { intros p Hp. unfold bs in Hp. rewrite length_map in Hp.
    destruct (lookup_lt_is_Some_2 (uc_Servers cfg) p Hp) as [sv Hsv].
    exists sv. split; [by eapply list_elem_of_lookup_2|]. apply deref_lookup. unfold bs.
    by rewrite list_lookup_fmap, Hsv. }
  assert (Hf : forall p, (p < length bs)%nat ->
    b_circuit (deref bs p) = newCircuit (cp_maxFails (uc_circuit cfg)) (cp_failTimeout (uc_circuit cfg))
      (cp_halfOpenProbes (uc_circuit cfg)) /\
    1 <= b_weight (deref bs p) <= max_int64 /\ b_inflight (deref bs p) = 0 /\
    b_affinitySum (deref bs p) = Sum (b_affinityID (deref bs p))).
  { intros p Hp. destruct (Hb p Hp) as (sv & Hsv & ->). unfold newBackend, newBackendFor.
    destruct (ParseSocketAddress sv.1) as [network address]. simpl. rewrite Forall_forall in Hw.
    specialize (Hw sv Hsv). unfold max_int64 in *. split_and!; try done; destruct (sv.2 <? 1) eqn:Hs; lia. }
  clear Hb. clearbody bs.
  split; simpl; try (intros p Hp; destruct (Hf p Hp) as (Hc & Hwt & Hi & Ha)); try done.
  - unfold proj. simpl. rewrite Hc. apply circuit_init_inv.
  - rewrite Hc. simpl. lia.
  - apply NoDup_seq.
  - intros p Hp%elem_of_seq. lia.
Qed.

(** The backends a pool is built with have new breakers. *)
Lemma pool_init_born cfg scheme now s p :
  pool_init cfg scheme now = Some s -> (p < length (ps_heap s))%nat -> born (uc_circuit cfg) p s.
Proof.
  unfold pool_init, NewPool. destruct (_ && _); [done|]. destruct (Resolve (uc_Resilience cfg)) as [|policy]; [done|]. simpl.
  intros [= <-]. simpl. rewrite length_map. intros Hp. destruct (lookup_lt_is_Some_2 (uc_Servers cfg) p Hp) as [sv Hsv].
  unfold born, proj. simpl. erewrite deref_lookup by (by rewrite list_lookup_fmap, Hsv). unfold newBackend, newBackendFor.
  by destruct (ParseSocketAddress sv.1) as [network address].
Qed.

(** ** Properties *)

(** C9: a pool never loses count.  In every run of a pool as configured --
    requests selected, reporting in any order or not at all, released, reloads,
    discovery refreshes, health verdicts -- each backend's in-flight counter is
    exactly the number of attempts it is serving, so it is zero again when they
    have all been released; and every backend keeps the invariants selection
    relies on. *)
Theorem pool_accounting cfg scheme now s tr s' :
  pool_init cfg scheme now = Some s -> Forall (fun sv => sv.2 <= max_int64) (uc_Servers cfg) ->
  trace pool_exec s tr s' -> short tr -> Forall plabel_ok tr ->
  (forall p, (p < length (ps_heap s'))%nat ->
     b_inflight (deref (ps_heap s') p) = serving p (ps_attempts s') /\
     (ps_attempts s' = [] -> b_inflight (deref (ps_heap s') p) = 0)) /\
  NoDup (p_backends (ps_pool s')) /\ heap_ok (ps_heap s') (p_backends (ps_pool s')).
Proof.
  intros Es Hw T Hs Hl. unfold short in Hs. pose proof (pool_init_inv _ _ _ _ Hw Es) as Hi.
  destruct (pool_trace_inv _ _ _ 0 T) as [Hi' _]; [lia|lia|done|done|].
  split; [|split; [apply Hi'|]].
  - intros p Hp. rewrite (pi_inflight _ _ Hi' p Hp). split; [done|]. by intros ->.
  - intros p Hp. pose proof (pi_valid _ _ Hi' p Hp) as Hlt. split; [done|].
    split; [apply (ci_ok _ (pi_circuit _ _ Hi' p Hlt))|by apply Hi'|by apply Hi'].
Qed.

(** The step at which [p] is allocated, with a new breaker under the limits in
    force: [NewPool] or a refresh of the targets. *)
Definition allocated (cfg : UpstreamConfig) (p : ptr) (s : psys) (tr : list plabel) (s1 : psys) : Prop :=
  (tr = [] /\ s1 = s /\ born (uc_circuit cfg) p s1) \/
  exists tr0 l s0, tr = tr0 ++ [l] /\ trace pool_exec s tr0 s0 /\ pool_exec s0 l = Some s1 /\
    (length (ps_heap s0) <= p < length (ps_heap s1))%nat /\ born (p_circuit (ps_pool s0)) p s1.

Lemma pool_allocated cfg s tr s' p :
  (forall q, (q < length (ps_heap s))%nat -> born (uc_circuit cfg) q s) -> pool_inv 0 s ->
  trace pool_exec s tr s' -> Z.of_nat (length tr) <= 2 ^ 64 - 2 -> Forall plabel_ok tr -> (p < length (ps_heap s'))%nat ->
  exists tr1 s1 tr2, tr = tr1 ++ tr2 /\ trace pool_exec s tr1 s1 /\ trace pool_exec s1 tr2 s' /\
    (p < length (ps_heap s1))%nat /\ allocated cfg p s tr1 s1.
Proof.
  intros Hb Hi T. revert s' T. induction tr as [|l tr IH] using rev_ind; intros s' T Hs Hl Hp.
  - inversion T; subst. exists [], s', []. split_and!; [done|done|done|done|]. left. split_and!; [done|done|by apply Hb].
  - apply trace_app_inv in T as (s0 & T0 & T1). inversion T1 as [|? ? s2 ? ? E T2]; subst. inversion T2; subst.
    apply Forall_app in Hl as [Hl0 [Hl1 _]%Forall_cons]. rewrite length_app in Hs. simpl in Hs.
    destruct (pool_trace_inv _ _ _ 0 T0) as [Hi0 _]; [lia|lia|done|done|].
    destruct (pool_exec_inv _ _ _ _ Hi0 ltac:(lia) Hl1 E) as (_ & Hnew & _).
    destruct (decide (p < length (ps_heap s0))%nat) as [Hlt|Hge].
    + destruct (IH s0 T0) as (tr1 & s1 & tr2 & -> & TA & TB & Hp1 & HA); [lia|done|done|].
      exists tr1, s1, (tr2 ++ [l]). rewrite <- app_assoc. split_and!; [done|done|by eapply trace_app|done|done].
    + exists (tr ++ [l]), s', []. rewrite app_nil_r. split_and!; [done|by eapply trace_app|constructor|done|].
      right. exists tr, l, s0. split_and!; [done|done|done|lia|lia|apply Hnew; lia].
Qed.

(** C3: a pool refines its breakers.  The life of every backend a pool ever has,
    from its allocation on, seen from that backend -- its breaker, the clock, the
    admissions on it that have not reported -- is a run of the breaker's own
    transition system that starts with a new breaker and in which the breaker is
    told exactly the pool's events: a success, a failure or a returned probe of
    the admission that reports it, the end of an attempt that does not report,
    the health checker's close, the limits of a reload, the time, and the
    requests placed on it.  So what is proved of all breaker runs holds of every
    backend of a pool; in particular the breaker's invariant does. *)
Theorem pool_refines_breakers cfg scheme now s tr s' p :
  pool_init cfg scheme now = Some s -> Forall (fun sv => sv.2 <= max_int64) (uc_Servers cfg) ->
  trace pool_exec s tr s' -> short tr -> Forall plabel_ok tr -> (p < length (ps_heap s'))%nat ->
  circuit_inv (proj p s') /\
  exists tr1 s1 tr2 ctr, tr = tr1 ++ tr2 /\ trace pool_exec s tr1 s1 /\ allocated cfg p s tr1 s1 /\
    told_run p s1 tr2 s' ctr /\ trace circuit_exec (proj p s1) ctr (proj p s').
Proof.
  intros Es Hw T Hs Hl Hp. unfold short in Hs. pose proof (pool_init_inv _ _ _ _ Hw Es) as Hi.
  destruct (pool_trace_inv _ _ _ 0 T) as [Hi' _]; [lia|lia|done|done|]. split; [by apply Hi'|].
  destruct (pool_allocated cfg s tr s' p) as (tr1 & s1 & tr2 & -> & T1 & T2 & Hp1 & HA); [intros q; by eapply pool_init_born|done|done|lia|done|done|].
  apply Forall_app in Hl as [Hl1 Hl2]. rewrite length_app in Hs.
  destruct (pool_trace_inv _ _ _ 0 T1) as [Hi1 _]; [lia|lia|done|done|].
  destruct (pool_trace_inv _ _ _ (0 + Z.of_nat (length tr1)) T2) as [_ Hsim]; [lia|lia|done|done|].
  destruct (Hsim p Hp1) as [_ (ctr & HC & TC)]. by exists tr1, s1, tr2, ctr.
Qed.

(** ** Discovery generations *)

(** The pool as discovery sees it: the epochs handed to workers, in order, and
    the results applied. *)
Inductive dlabel :=
| DBegin
| DStop
| DApply (epoch : Z) (targets : list Target).

Record dsys := MkDsys {
  d_heap : heap;
  d_pool : Pool;
  d_issued : list Z;    (* epochs handed to workers, latest first *)
  d_applied : list Z    (* epochs whose results were applied, latest first *)
}.

Definition discovery_exec (s : dsys) (l : dlabel) : option dsys :=
  match l with
  | DBegin =>
      let '(pl, e) := beginDiscoveryGeneration (d_pool s) in
      Some (MkDsys (d_heap s) pl (e :: d_issued s) (d_applied s))
  | DStop => Some (MkDsys (d_heap s) (StopDiscovery (d_pool s)) (d_issued s) (d_applied s))
  | DApply e targets =>
      if bool_decide (e ∈ d_issued s) then
        let '(h, pl, ok) := applyDiscoveryTargets e targets (d_heap s) (d_pool s) in
        Some (MkDsys h pl (d_issued s) (if ok then e :: d_applied s else d_applied s))
      else None
  end.

Lemma UpdateTargets_epoch targets h pl :
  p_discoveryEpoch (UpdateTargets targets h pl).2 = p_discoveryEpoch pl.
Proof.
  unfold UpdateTargets, alloc. rewrite replaceBackends_eq.
  by destruct (reuse_loop _ _ _).
Qed.

Lemma discovery_fence e s tr s' :
  trace discovery_exec s tr s' -> p_discoveryEpoch (d_pool s) + Z.of_nat (length tr) < 2 ^ 64 ->
  0 <= e < p_discoveryEpoch (d_pool s) ->
  e < p_discoveryEpoch (d_pool s') /\
  length (filter (.= e) (d_applied s')) = length (filter (.= e) (d_applied s)).
Proof.
  induction 1 as [s|s l s1 tr s2 E T IH]; intros Hb He; [lia|]. simpl in Hb.
  destruct l as [| |e' ts]; simpl in E.
  - injection E as <-. simpl in *. rewrite u64_small in IH by lia. apply IH; lia.
  - injection E as <-. simpl in *. rewrite u64_small in IH by lia. apply IH; lia.
  - case_bool_decide; [|discriminate]. unfold applyDiscoveryTargets in E.
    destruct (p_discoveryEpoch (d_pool s) =? e') eqn:Ee; simpl in E; [|injection E as <-; apply IH; simpl; lia].
    pose proof (UpdateTargets_epoch ts (d_heap s) (d_pool s)) as Hep.
    destruct (UpdateTargets _ _ _) as [h pl]. injection E as <-. simpl in *. rewrite Hep in IH.
    destruct IH as [IH1 IH2]; [lia|lia|]. split; [done|]. rewrite IH2.
    rewrite filter_cons_False; [done|]. lia.
Qed.

(** Once a discovery worker's generation has been fenced off -- by a newer
    generation or by stopping discovery -- no result it delivers later is ever
    applied: after [StopDiscovery] or another [beginDiscoveryGeneration], the
    number of applied results of every earlier epoch is final. *)
Theorem discovery_fenced e l s s1 tr s' :
  discovery_exec s l = Some s1 -> l = DStop \/ l = DBegin ->
  trace discovery_exec s1 tr s' ->
  0 <= e <= p_discoveryEpoch (d_pool s) ->
  p_discoveryEpoch (d_pool s) + Z.of_nat (length tr) + 1 < 2 ^ 64 ->
  length (filter (.= e) (d_applied s')) = length (filter (.= e) (d_applied s)).
Proof.
  intros E Hl T He Hb.
  assert (p_discoveryEpoch (d_pool s1) = p_discoveryEpoch (d_pool s) + 1 /\ d_applied s1 = d_applied s) as [E1 E2].
  { destruct Hl as [->| ->]; simpl in E; injection E as <-; simpl; rewrite u64_small by lia; done. }
  rewrite <- E2. eapply discovery_fence; [exact T|lia|lia].
Qed.

(** ** Witnesses *)

Definition cfg1 : UpstreamConfig :=
  MkUpstreamConfig (str "app") (str "weighted_round_robin") [] [(str "10.0.0.1:80", 2); (str "10.0.0.2:80", 1)]
    false zeroOptions (MkCircuitParams 1 second 1).

Definition cfg1_start : psys :=
  default (MkPsys [] demo_pool 0 []) (pool_init cfg1 (str "http") 0).

Definition pool_run : list plabel :=
  [PSelect [] k0; PSelect [] k0; PFailure 0; PRelease 0;
   PUpdateTargets [MkTarget (str "10.0.0.2:80") 4 []]; PTick second; PSelect [] k0; PSuccess 0].

Definition pool_run_end : psys :=
  default cfg1_start (exec_trace pool_exec cfg1_start pool_run).

Lemma pool_run_trace : trace pool_exec cfg1_start pool_run pool_run_end.
Proof.
  apply exec_trace_trace. unfold pool_run_end.
  destruct (exec_trace pool_exec cfg1_start pool_run) as [s|] eqn:E; [done|].
  exfalso. vm_compute in E. discriminate.
Qed.

Lemma cfg1_weights : Forall (fun sv => sv.2 <= max_int64) (uc_Servers cfg1).
Proof. repeat constructor; simpl; unfold max_int64; lia. Qed.

Lemma pool_run_labels : Forall plabel_ok pool_run.
Proof. repeat constructor; simpl; unfold max_int64; lia. Qed.

Lemma pool_accounting_witness :
  b_inflight (deref (ps_heap pool_run_end) 0) = serving 0 (ps_attempts pool_run_end).
Proof.
  destruct (pool_accounting cfg1 (str "http") 0 cfg1_start pool_run pool_run_end) as [H _];
    [by vm_compute|apply cfg1_weights|apply pool_run_trace|unfold short; simpl; lia|apply pool_run_labels|].
  apply (H 0%nat). vm_compute. lia.
Defined.

(** The backend allocated by the refresh of the run. *)
Lemma pool_refines_breakers_witness :
  circuit_inv (proj 2 pool_run_end) /\
  exists tr1 s1 tr2 ctr, pool_run = tr1 ++ tr2 /\ allocated cfg1 2 cfg1_start tr1 s1 /\
    told_run 2 s1 tr2 pool_run_end ctr /\ trace circuit_exec (proj 2 s1) ctr (proj 2 pool_run_end).
Proof.
  destruct (pool_refines_breakers cfg1 (str "http") 0 cfg1_start pool_run pool_run_end 2)
    as (HC & tr1 & s1 & tr2 & ctr & E & _ & HA & HT & TC);
    [by vm_compute|apply cfg1_weights|apply pool_run_trace|unfold short; simpl; lia|apply pool_run_labels|vm_compute; lia|].
  split; [done|]. by exists tr1, s1, tr2, ctr.
Defined.

Definition disc_start : dsys := MkDsys pool_heap (set_discovery 1 true demo_pool) [1] [].

Lemma discovery_fenced_witness :
  length (filter (.= 1) (d_applied (default disc_start
    (exec_trace discovery_exec disc_start [DStop; DApply 1 [MkTarget (str "d:80") 1 []]])))) = 0%nat.
Proof.
  apply (discovery_fenced 1 DStop disc_start
    (MkDsys pool_heap (StopDiscovery (set_discovery 1 true demo_pool)) [1] [])
    [DApply 1 [MkTarget (str "d:80") 1 []]]);
    [reflexivity|by left|apply exec_trace_trace; by vm_compute|simpl; lia|simpl; lia].
Defined.
