(* ===== verification/Retry.v ===== *)
(** * The retry driver (src/internal/upstream/retry.go)

    The eligibility rule [Retryable], the backoff, the retry budget and the
    driver [Do].  The driver's adapter and the passage of time are parameters:
    an attempt may do anything to the pool's state that does not change the
    identity of its backends. *)

From S2P Require Import Prelude GoStrings Netip Affinity Circuit Resilience Backend Balancer Pool.

(** ** The rule *)

Inductive StopReason :=
| StopNone | StopSuccess | StopAttempts | StopNotRetryable | StopResponseStarted
| StopTerminalError | StopCancelled | StopDeadline | StopBudget | StopNoBackend.

#[export] Instance StopReason_eq_dec : EqDecision StopReason.
Proof. solve_decision. Defined.

(** An error, of which the rule asks only whether it is [context.Canceled]. *)
Record derr := MkErr { err_canceled : bool; err_tag : Z }.

Record Decision_ := MkDecision {
  d_Err : option derr;
  d_Attempts : Z;
  d_MaxAttempts : Z;
  d_ResponseStarted : bool;
  d_Replayable : bool;
  d_Terminal : bool;
  d_Remaining : Z;
  d_UntriedBackend : bool;
  d_BudgetAllows : bool
}.

Definition Retryable (d : Decision_) : StopReason :=
  match d_Err d with
  | None => StopSuccess
  | Some e =>
      if d_ResponseStarted d then StopResponseStarted
      else if negb (d_Replayable d) then StopNotRetryable
      else if d_Terminal d then StopTerminalError
      else if err_canceled e then StopCancelled
      else if (0 <? d_MaxAttempts d) && (d_MaxAttempts d <=? d_Attempts d) then StopAttempts
      else if d_Remaining d <=? 0 then StopDeadline
      else if negb (d_UntriedBackend d) then StopNoBackend
      else if negb (d_BudgetAllows d) then StopBudget
      else StopNone
  end.

(** ** Backoff *)

(** The doubling loop: at most [k] more doublings. *)
Fixpoint backoff_loop (k : nat) (d max : Z) : Z :=
  match k with
  | O => d
  | S k =>
      if d <? max then
        let d := i64 (d * 2) in
        if d <=? 0 then max else backoff_loop k d max
      else d
  end.

(** The interval before jitter. *)
Definition backoff_interval (n initial max : Z) : Z :=
  let d := backoff_loop (Z.to_nat (n - 1)) initial max in
  if (0 <? max) && (max <? d) then max else d.

Definition backoffFor (n initial max remaining : Z) (jitter : Z -> Z) : Z * bool :=
  if initial <=? 0 then (0, 0 <? remaining)
  else
    let d := jitter (backoff_interval n initial max) in
    if remaining <=? d then (0, false) else (d, true).

(** ** The budget *)

Definition retryBudgetWindow : Z := 10 * Second.
Definition minFreeRetries : Z := 3.

Record budgetWindow := MkWindow {
  bw_epoch : Z;
  bw_prevPrimaries : Z;
  bw_prevRetries : Z;
  bw_primaries : Z;
  bw_retries : Z
}.

Record Budget := MkBudget { bg_percent : Z; bg_win : budgetWindow }.

Definition NewBudget (percent now : Z) : Budget :=
  MkBudget percent (MkWindow (Z.quot now retryBudgetWindow) 0 0 0 0).

Definition SetPercent (percent : Z) (b : Budget) : Budget := MkBudget percent (bg_win b).

(** The bucket that replaces [w] when the epoch has advanced. *)
Definition rotate (epoch : Z) (w : budgetWindow) : budgetWindow :=
  if epoch =? bw_epoch w + 1
  then MkWindow epoch (bw_primaries w) (bw_retries w) 0 0
  else MkWindow epoch 0 0 0 0.

Definition window (now : Z) (b : Budget) : Budget :=
  let epoch := Z.quot now retryBudgetWindow in
  if epoch <=? bw_epoch (bg_win b) then b
  else MkBudget (bg_percent b) (rotate epoch (bg_win b)).

Definition add_primary (w : budgetWindow) : budgetWindow :=
  MkWindow (bw_epoch w) (bw_prevPrimaries w) (bw_prevRetries w) (bw_primaries w + 1) (bw_retries w).

Definition add_retry (w : budgetWindow) : budgetWindow :=
  MkWindow (bw_epoch w) (bw_prevPrimaries w) (bw_prevRetries w) (bw_primaries w) (bw_retries w + 1).

Definition Primary (now : Z) (b : Budget) : Budget :=
  if bg_percent b <=? 0 then b
  else let b := window now b in MkBudget (bg_percent b) (add_primary (bg_win b)).

(** The retries the window's traffic has earned. *)
Definition allowance (percent : Z) (w : budgetWindow) : Z :=
  Z.quot ((bw_primaries w + bw_prevPrimaries w) * percent) 100 + minFreeRetries.

Definition Allow (now : Z) (b : Budget) : Budget * bool :=
  if bg_percent b <=? 0 then (b, true)
  else
    let b := window now b in
    let w := bg_win b in
    if allowance (bg_percent b) w <=? bw_retries w + bw_prevRetries w then (b, false)
    else (MkBudget (bg_percent b) (add_retry w), true).

Record BudgetStatus := MkBudgetStatus {
  bs_Percent : Z; bs_Primaries : Z; bs_Retries : Z; bs_Remaining : Z
}.

Definition budget_Status (now : Z) (b : Budget) : Budget * BudgetStatus :=
  if bg_percent b <=? 0 then (b, MkBudgetStatus (bg_percent b) 0 0 0)
  else
    let b := window now b in
    let w := bg_win b in
    let retries := bw_retries w + bw_prevRetries w in
    let r := allowance (bg_percent b) w - retries in
    (b, MkBudgetStatus (bg_percent b) (bw_primaries w + bw_prevPrimaries w) retries
          (if 0 <? r then r else 0)).

(** ** Requests *)

Record RetryRequest := MkRetryRequest {
  rr_MaxAttempts : Z;
  rr_Deadline : Z;
  rr_BackoffInitial : Z;
  rr_BackoffMax : Z;
  rr_Replayable : bool;
  rr_Key : Key
}.

Record RetryOverride := MkOverride {
  ro_Attempts : Z; ro_Deadline : Z; ro_BackoffInitial : Z; ro_BackoffMax : Z
}.

(** [RetryRequestFor] on a pool's live policy, [None] standing for no pool. *)
Definition RetryRequestFor (policy : option Policy) (o : RetryOverride) (replayable : bool)
  : RetryRequest :=
  match policy with
  | None => MkRetryRequest (ro_Attempts o) (ro_Deadline o) (ro_BackoffInitial o) (ro_BackoffMax o)
              replayable (MkKey 0 StatusNone)
  | Some p =>
      MkRetryRequest
        (if ro_Attempts o =? 0 then retryAttempts p else ro_Attempts o)
        (if ro_Deadline o =? 0 then retryDeadline p else ro_Deadline o)
        (if ro_BackoffInitial o =? 0 then retryBackoffInitial p else ro_BackoffInitial o)
        (if ro_BackoffInitial o =? 0 then retryBackoffMax p
         else if ro_BackoffMax o =? 0 then DefaultRetryBackoffMax else ro_BackoffMax o)
        replayable (MkKey 0 StatusNone)
  end.

Definition RetrySafeMethod (method : gostring) : bool :=
  bool_decide (method ∈ map str ["GET"; "HEAD"; "OPTIONS"; "TRACE"; "PUT"; "DELETE"]%string).

(** ** The driver *)

Record AttemptResult := MkResult {
  ar_Err : option derr;
  ar_ResponseStarted : bool;
  ar_Terminal : bool;
  ar_Retain : bool
}.

(** What the driver runs in: the backends' state and the clock, the candidate set
    and per-backend limit the next selection reads (a discovery update or a
    reload may have replaced them since the last one), the balancer, the
    budget, and whether the caller's context has been cancelled. *)
Record RWorld {B : Type} := MkRWorld {
  rw_world : World;
  rw_candidates : list ptr;
  rw_perBackend : Z;
  rw_bal : B;
  rw_budget : Budget;
  rw_ctxDone : bool
}.
Arguments RWorld : clear implicits.

Definition rw_set_world {B} (w : World) (rw : RWorld B) : RWorld B :=
  MkRWorld _ w (rw_candidates rw) (rw_perBackend rw) (rw_bal rw) (rw_budget rw) (rw_ctxDone rw).

Definition rw_set_bal {B} (bal : B) (rw : RWorld B) : RWorld B :=
  MkRWorld _ (rw_world rw) (rw_candidates rw) (rw_perBackend rw) bal (rw_budget rw) (rw_ctxDone rw).

Definition rw_set_budget {B} (bg : Budget) (rw : RWorld B) : RWorld B :=
  MkRWorld _ (rw_world rw) (rw_candidates rw) (rw_perBackend rw) (rw_bal rw) bg (rw_ctxDone rw).

Definition noDeadline : Z := max_int64.

Section Do.
Context {B : Type} `{ChooserOk B}.

(** The adapter's closure, the wait (the world after it and whether the context
    ended it), and the jitter. *)
Variable attempt : Z -> ptr * admission -> RWorld B -> RWorld B * AttemptResult.
Variable wait : Z -> RWorld B -> RWorld B * bool.
Variable jitter : Z -> Z.

(** The request, and the deadline of the caller's context, if it has one. *)
Variable rr : RetryRequest.
Variable ctxDeadline : option Z.

(** The deadline of the context the call runs under: [context.WithTimeout] keeps
    the earlier of the caller's and its own. *)
Definition callDeadline (now : Z) : option Z :=
  if 0 <? rr_Deadline rr then
    Some (match ctxDeadline with
          | Some d => Z.min d (now + rr_Deadline rr)
          | None => now + rr_Deadline rr
          end)
  else ctxDeadline.

Definition remainingFor (deadline : option Z) (rw : RWorld B) : Z :=
  match deadline with
  | Some d => d - w_now (rw_world rw)
  | None => if rw_ctxDone rw then 0 else noDeadline
  end.

Definition hasUntried (tried : list BackendIdentity) (rw : RWorld B) : bool :=
  existsb (fun p => negb (bool_decide (backend_Identity (deref (w_heap (rw_world rw)) p) ∈ tried))
                    && available (w_now (rw_world rw)) (deref (w_heap (rw_world rw)) p))
    (rw_candidates rw).

Definition release_in (p : ptr) (rw : RWorld B) : RWorld B :=
  rw_set_world (set_backend p (Release (deref (w_heap (rw_world rw)) p)) (rw_world rw)) rw.

(** The end of the call: the state, the attempts in order with what each
    reported, the stop reason and the error. *)
Record outcome := MkOutcome {
  oc_world : RWorld B;
  oc_log : list (ptr * AttemptResult);
  oc_reason : StopReason;
  oc_err : option (derr + poolErr)
}.

(** Turn [n] of the loop; [None] only when the fuel runs out. *)
Fixpoint Do_loop (deadline : option Z) (fuel : nat) (n : Z) (tried : list BackendIdentity) (lastErr : option derr)
    (log : list (ptr * AttemptResult)) (rw : RWorld B) : option outcome :=
  match fuel with
  | O => None
  | S fuel =>
      let '(w, bal, sel) := selectBackend alone (rw_world rw) (rw_candidates rw) (rw_bal rw)
                              (rw_perBackend rw) tried (rr_Key rr) in
      let rw := rw_set_bal bal (rw_set_world w rw) in
      match sel with
      | inl e =>
          Some (MkOutcome rw log StopNoBackend
                  (match lastErr with Some le => Some (inl le) | None => Some (inr e) end))
      | inr (p, adm) =>
          let rw := if n =? 1
                    then rw_set_budget (Primary (w_now (rw_world rw)) (rw_budget rw)) rw
                    else rw in
          let '(rw, res) := attempt n (p, adm) rw in
          let log := log ++ [(p, res)] in
          match ar_Err res with
          | None =>
              Some (MkOutcome (if ar_Retain res then rw else release_in p rw) log StopSuccess None)
          | Some err =>
              let rw := release_in p rw in
              let tried := backend_Identity (deref (w_heap (rw_world rw)) p) :: tried in
              let remaining := remainingFor deadline rw in
              let d := MkDecision (Some err) n (rr_MaxAttempts rr) (ar_ResponseStarted res)
                         (rr_Replayable rr) (ar_Terminal res) remaining (hasUntried tried rw) true in
              let stop r rw := Some (MkOutcome rw log r (Some (inl err))) in
              match Retryable d with
              | StopNone =>
                  let '(bg, granted) := Allow (w_now (rw_world rw)) (rw_budget rw) in
                  let rw := rw_set_budget bg rw in
                  if negb granted then stop StopBudget rw
                  else
                    let '(delay, ok) := backoffFor n (rr_BackoffInitial rr) (rr_BackoffMax rr)
                                          remaining jitter in
                    if negb ok then stop StopDeadline rw
                    else if 0 <? delay then
                      let '(rw, ended) := wait delay rw in
                      if ended then stop StopDeadline rw
                      else Do_loop deadline fuel (n + 1) tried (Some err) log rw
                    else Do_loop deadline fuel (n + 1) tried (Some err) log rw
              | reason => stop reason rw
              end
          end
      end
  end.

Definition Do (fuel : nat) (rw : RWorld B) : option outcome :=
  Do_loop (callDeadline (w_now (rw_world rw))) fuel 1 [] None [] rw.
End Do.

(** ** Backoff *)


(** Doubling stops at or above [max]; below it, it is exact. *)
Lemma backoff_loop_min k d max :
  0 < d -> 0 < max <= max_int64 -> Z.min (backoff_loop k d max) max = Z.min (d * 2 ^ Z.of_nat k) max.
Proof.
  intros Hd Hm. unfold max_int64 in Hm. revert d Hd. induction k as [|k IH]; intros d Hd.
  - cbn [backoff_loop]. change (2 ^ Z.of_nat 0) with 1. f_equal. lia.
  - cbn [backoff_loop]. rewrite Nat2Z.inj_succ, Z.pow_succ_r by lia.
    pose proof (Z.pow_pos_nonneg 2 (Z.of_nat k) ltac:(lia) ltac:(lia)).
    destruct (d <? max) eqn:E; [|rewrite !Z.min_r; nia].
    destruct (decide (d * 2 < 2 ^ 63)) as [Hs|Hs].
    + rewrite i64_small by lia. rewrite (proj2 (Z.leb_gt (d * 2) 0)) by lia.
      rewrite IH by lia. f_equal. lia.
    + assert (Hw : i64 (d * 2) <= 0).
      { unfold i64, swrap. change (64 - 1) with 63.
        replace (d * 2 + 2 ^ 63) with (d * 2 - 2 ^ 63 + 1 * 2 ^ 64) by lia.
        rewrite Z.mod_add, Z.mod_small by lia. lia. }
      rewrite (proj2 (Z.leb_le _ _) Hw). rewrite !Z.min_r; nia.
Qed.

Lemma backoff_interval_eq n initial max :
  1 <= n -> 0 < initial -> max <= max_int64 ->
  backoff_interval n initial max =
  if 0 <? max then Z.min (initial * 2 ^ (n - 1)) max else initial.
Proof.
  intros Hn Hi Hm. unfold backoff_interval. destruct (0 <? max) eqn:E; simpl.
  - pose proof (backoff_loop_min (Z.to_nat (n - 1)) initial max Hi ltac:(lia)) as L.
    rewrite Z2Nat.id in L by lia. rewrite <- L.
    destruct (max <? backoff_loop _ _ _) eqn:E2; lia.
  - assert (forall k, backoff_loop k initial max = initial) as ->; [|done].
    intros k. destruct k; [done|]. cbn [backoff_loop]. rewrite (proj2 (Z.ltb_ge initial max)) by lia. done.
Qed.

(** ** What the driver's steps leave alone *)

(** A function of a backend that selection and release do not change. *)
Class Stable {X} (f : Backend -> X) := {
  stable_circuit c b : f (set_circuit c b) = f b;
  stable_inflight n b : f (set_inflight n b) = f b
}.

#[export] Instance stable_identity : Stable backend_Identity.
Proof. by split. Qed.

Lemma stable_insert {X} (f : Backend -> X) h p b q :
  f b = f (deref h p) -> f (deref (<[p := b]> h) q) = f (deref h q).
Proof.
  intros Hb. destruct (decide (p = q)) as [<-|Hne]; [|by rewrite deref_insert_ne].
  destruct (decide (p < length h)%nat) as [Hl|Hl]; [by rewrite deref_insert_eq|].
  by rewrite list_insert_ge by lia.
Qed.

Lemma backend_admit_stable {X} (f : Backend -> X) `{!Stable f} now b :
  f (backend_admit now b).1 = f b.
Proof.
  unfold backend_admit. destruct (negb _); [done|]. destruct (circuit_admit _ _). simpl.
  apply stable_circuit.
Qed.

Section Frame.
Context {B : Type} `{ChooserOk B}.

Lemma select_loop_frame {X} (f : Backend -> X) `{!Stable f} fuel w (bal : B) avail key q :
  f (deref (w_heap (select_loop alone fuel w bal avail key).1.1) q) = f (deref (w_heap w) q) /\
  length (w_heap (select_loop alone fuel w bal avail key).1.1) = length (w_heap w) /\
  w_now (select_loop alone fuel w bal avail key).1.1 = w_now w.
Proof.
  revert w bal avail. induction fuel as [|fuel IH]; intros w bal [|x avail]; try done.
  cbn [select_loop]. cbv zeta. change (alone fuel w) with w.
  destruct (choose _ _ _ _) as [[p|] bal1]; [|done].
  pose proof (backend_admit_stable f (w_now w) (deref (w_heap w) p)) as Hs.
  destruct (backend_admit _ _) as [b [adm|]]; simpl in *.
  - rewrite length_insert. split; [|done]. apply stable_insert. unfold acquire.
    by rewrite stable_inflight.
  - destruct (IH (set_backend p b w) bal1 (removeBackend (x :: avail) p)) as (E1 & E2 & E3).
    simpl in *. rewrite E1, E2, E3, length_insert. split; [|done]. by apply stable_insert.
Qed.

Lemma selectBackend_frame {X} (f : Backend -> X) `{!Stable f} w backends (bal : B) perBackend excluded key q :
  let w' := (selectBackend alone w backends bal perBackend excluded key).1.1 in
  f (deref (w_heap w') q) = f (deref (w_heap w) q) /\ length (w_heap w') = length (w_heap w) /\
  w_now w' = w_now w.
Proof.
  unfold selectBackend. destruct (select_filter _ _ _ _ _) as [avail sat].
  pose proof (select_loop_frame f (length avail) w bal avail key q) as E.
  by destruct (select_loop _ _ _ _ _ _) as [[w' bal'] [?|]].
Qed.

(** Selection adds one to the in-flight count of the backend it returns. *)
Lemma select_loop_inflight fuel w (bal : B) avail key q :
  (forall p, p ∈ avail -> (p < length (w_heap w))%nat) ->
  let '(w', _, r) := select_loop alone fuel w bal avail key in
  b_inflight (deref (w_heap w') q) = b_inflight (deref (w_heap w) q) +
    match r with Some (p, _) => if bool_decide (p = q) then 1 else 0 | None => 0 end.
Proof.
  revert w bal avail. induction fuel as [|fuel IH]; intros w bal [|x avail] Hv; simpl; try lia.
  cbv zeta. change (alone fuel w) with w.
  pose proof (choose_in (w_heap w) bal (x :: avail) key) as Hin.
  destruct (choose _ _ _ _) as [[p|] bal1]; [|lia]. specialize (Hin p eq_refl).
  assert (Hf : b_inflight (backend_admit (w_now w) (deref (w_heap w) p)).1 = b_inflight (deref (w_heap w) p)).
  { unfold backend_admit. destruct (negb _); [done|]. by destruct (circuit_admit _ _). }
  destruct (backend_admit _ _) as [b [adm|]]; simpl in Hf.
  - simpl. case_bool_decide as E.
    + subst q. rewrite deref_insert_eq by auto. simpl. lia.
    + rewrite deref_insert_ne by done. lia.
  - specialize (IH (set_backend p b w) bal1 (removeBackend (x :: avail) p)).
    destruct (select_loop alone fuel _ _ _ _) as [[w' bal2] r]. rewrite IH.
    + simpl. by rewrite (stable_insert b_inflight).
    + simpl. intros y Hy. rewrite length_insert. apply Hv.
      rewrite (removeBackend_perm _ _ Hin). by right.
Qed.

Lemma selectBackend_inflight w backends (bal : B) perBackend excluded key q :
  (forall p, p ∈ backends -> (p < length (w_heap w))%nat) ->
  let '(w', _, r) := selectBackend alone w backends bal perBackend excluded key in
  b_inflight (deref (w_heap w') q) = b_inflight (deref (w_heap w) q) +
    match r with inr (p, _) => if bool_decide (p = q) then 1 else 0 | inl _ => 0 end.
Proof.
  intros Hv. unfold selectBackend. rewrite select_filter_eq. set (avail := filter _ backends).
  pose proof (select_loop_inflight (length avail) w bal avail key q) as E.
  destruct (select_loop _ _ _ _ _ _) as [[w' bal'] [[p adm]|]]; apply E;
    intros x [_ Hx]%list_elem_of_filter; auto.
Qed.

(** A returned backend is one of the set, and its identity not excluded. *)
Lemma selectBackend_untried w backends (bal : B) perBackend excluded key p adm :
  (selectBackend alone w backends bal perBackend excluded key).2 = inr (p, adm) ->
  p ∈ backends /\ backend_Identity (deref (w_heap w) p) ∉ excluded.
Proof.
  unfold selectBackend. rewrite select_filter_eq.
  destruct (select_loop _ _ _ _ _ _) as [[w' bal'] [[q adm']|]] eqn:E; simpl; [|done].
  intros [= -> ->]. apply select_loop_sound in E as [[[Hu _] Hp]%list_elem_of_filter _].
  split; [done|]. unfold usable in Hu. apply andb_true_iff in Hu as [_ Hu].
  by apply negb_true_iff, bool_decide_eq_false in Hu.
Qed.
End Frame.

(** ** The rule, as a conjunction *)

Lemma Retryable_none d :
  Retryable d = StopNone <->
  exists e, d_Err d = Some e /\ d_ResponseStarted d = false /\ d_Replayable d = true /\
    d_Terminal d = false /\ err_canceled e = false /\
    (d_MaxAttempts d <= 0 \/ d_Attempts d < d_MaxAttempts d) /\
    0 < d_Remaining d /\ d_UntriedBackend d = true /\ d_BudgetAllows d = true.
Proof.
  unfold Retryable. destruct (d_Err d) as [e|]; [|split; [done|by intros (e & ? & _)]].
  split.
  - destruct (d_ResponseStarted d), (d_Replayable d), (d_Terminal d), (err_canceled e) eqn:Ec; try done.
    simpl. destruct (_ && _) eqn:E1; [done|]. destruct (_ <=? 0) eqn:E2; [done|].
    destruct (d_UntriedBackend d), (d_BudgetAllows d); try done. intros _. exists e.
    split_and!; try done; lia.
  - intros (e' & [= <-] & -> & -> & -> & -> & Hm & Hr & -> & ->). simpl.
    destruct (_ && _) eqn:E1; [lia|]. destruct (_ <=? 0) eqn:E2; [lia|done].
Qed.

Section DoProofs.
Context {B : Type} `{ChooserOk B}.
Context (attempt : Z -> ptr * admission -> RWorld B -> RWorld B * AttemptResult).
Context (wait : Z -> RWorld B -> RWorld B * bool) (jitter : Z -> Z).
Context (rr : RetryRequest) (deadline : option Z) (universe : list ptr).

Notation heap_of rw := (w_heap (rw_world rw)).
Notation loop := (Do_loop attempt wait jitter rr deadline).

(** What may happen to the pool while an attempt or a wait is running: the clock,
    the breakers, the budget and the candidate set change as they please, but no
    backend is renamed, and the candidates stay within [universe]. *)
Record drifts (rw rw' : RWorld B) : Prop := {
  dr_identity q : backend_Identity (deref (heap_of rw') q) = backend_Identity (deref (heap_of rw) q);
  dr_universe : (forall p, p ∈ rw_candidates rw -> p ∈ universe) ->
                forall p, p ∈ rw_candidates rw' -> p ∈ universe
}.

Definition env_drifts : Prop :=
  (forall n a rw, drifts rw (attempt n a rw).1) /\ (forall d rw, drifts rw (wait d rw).1).

(** Attempts and waits that leave the in-flight counters as they found them, and
    whose candidates stay allocated. *)
Record balanced (rw rw' : RWorld B) : Prop := {
  ba_inflight q : b_inflight (deref (heap_of rw') q) = b_inflight (deref (heap_of rw) q);
  ba_allocated : (forall p, p ∈ rw_candidates rw -> (p < length (heap_of rw))%nat) ->
                 forall p, p ∈ rw_candidates rw' -> (p < length (heap_of rw'))%nat;
  ba_heap : (length (heap_of rw) <= length (heap_of rw'))%nat
}.

Definition env_balanced : Prop :=
  (forall n a rw, balanced rw (attempt n a rw).1) /\ (forall d rw, balanced rw (wait d rw).1).

Definition untried (ident : ptr -> BackendIdentity) (tried : list BackendIdentity) : nat :=
  length (filter (fun p => ident p ∉ tried) universe).

Lemma untried_decreases ident tried p :
  p ∈ universe -> ident p ∉ tried -> (untried ident (ident p :: tried) < untried ident tried)%nat.
Proof.
  intros Hp Hn. unfold untried.
  assert (Hle : forall l, (length (filter (fun q => ident q ∉ ident p :: tried) l) <=
                           length (filter (fun q => ident q ∉ tried) l))%nat).
  { induction l as [|x l IH]; [done|]. rewrite !filter_cons. destruct (decide (ident x ∉ ident p :: tried)) as [H1|H1].
    - rewrite decide_True; [simpl; lia|]. intros Hx. apply H1. by right.
    - case_decide; simpl; lia. }
  apply list_elem_of_split in Hp as (l1 & l2 & ->). rewrite !filter_app, !length_app, !filter_cons.
  rewrite decide_False, decide_True by (done || (intros H1; apply H1; left)).
  specialize (Hle l1) as H1. specialize (Hle l2) as H2. simpl. lia.
Qed.

(** An attempt the rule lets be followed by another. *)
Definition retried (res : AttemptResult) : Prop :=
  exists err, ar_Err res = Some err /\ err_canceled err = false /\ ar_ResponseStarted res = false /\
    ar_Terminal res = false /\ rr_Replayable rr = true.

Record log_ok (ident : ptr -> BackendIdentity) (log : list (ptr * AttemptResult)) : Prop := {
  lo_distinct : NoDup (map ident log.*1);
  lo_universe : forall p, p ∈ log.*1 -> p ∈ universe;
  lo_max : 0 < rr_MaxAttempts rr -> Z.of_nat (length log) <= rr_MaxAttempts rr;
  lo_retried : Forall retried (removelast log).*2
}.

Lemma log_ok_snoc ident log p res :
  log_ok ident log -> Forall retried log.*2 -> p ∈ universe -> ident p ∉ rev (map ident log.*1) ->
  (0 < rr_MaxAttempts rr -> Z.of_nat (length log) < rr_MaxAttempts rr) -> log_ok ident (log ++ [(p, res)]).
Proof.
  intros [L1 L2 L3 L4] Hr Hp Hn Hm. rewrite <- Permutation_rev in Hn. split.
  - rewrite fmap_app, map_app. apply NoDup_app. split; [done|]. split; [|apply NoDup_singleton].
    intros x Hx Hs. by apply list_elem_of_singleton in Hs as ->.
  - rewrite fmap_app. intros q [Hq|Hq]%elem_of_app; [by apply L2|]. by apply list_elem_of_singleton in Hq as ->.
  - rewrite length_app. simpl. lia.
  - by rewrite removelast_last.
Qed.

Lemma release_identity p (rw : RWorld B) q :
  backend_Identity (deref (heap_of (release_in p rw)) q) = backend_Identity (deref (heap_of rw) q).
Proof. simpl. by apply stable_insert. Qed.

Lemma Do_loop_spec ident fuel n tried lastErr log rw :
  env_drifts -> (forall q, backend_Identity (deref (heap_of rw) q) = ident q) ->
  (forall p, p ∈ rw_candidates rw -> p ∈ universe) ->
  tried = rev (map ident log.*1) -> n = Z.of_nat (length log) + 1 ->
  log_ok ident log -> Forall retried log.*2 -> (0 < rr_MaxAttempts rr -> n <= rr_MaxAttempts rr) ->
  (untried ident tried < fuel)%nat ->
  exists oc, loop fuel n tried lastErr log rw = Some oc /\ log_ok ident (oc_log oc).
Proof.
  intros [Hatt Hwait]. revert n tried lastErr log rw.
  induction fuel as [|fuel IH]; intros n tried lastErr log rw Hid Hu Ht Hn Hlog Hr Hmax Hf; [lia|].
  cbn [Do_loop].
  pose proof (fun q => proj1 (selectBackend_frame backend_Identity (rw_world rw) (rw_candidates rw) (rw_bal rw)
    (rw_perBackend rw) tried (rr_Key rr) q)) as Hsel. simpl in Hsel.
  pose proof (selectBackend_untried (rw_world rw) (rw_candidates rw) (rw_bal rw) (rw_perBackend rw) tried (rr_Key rr)) as Hun.
  destruct (selectBackend _ _ _ _ _ _ _) as [[w bal] [e|[p adm]]]; [by eexists|].
  destruct (Hun p adm eq_refl) as [Hp%Hu Hpt]. rewrite Hid in Hpt. cbv zeta.
  set (rw1 := if n =? 1 then _ else _).
  assert (Hid1 : forall q, backend_Identity (deref (heap_of rw1) q) = ident q).
  { intros q. rewrite <- Hid, <- Hsel. subst rw1. by destruct (n =? 1). }
  specialize (Hatt n (p, adm) rw1). destruct (attempt n (p, adm) rw1) as [rw2 res]. destruct Hatt as [Hatt Hu2].
  assert (Hc1 : rw_candidates rw1 = rw_candidates rw) by (subst rw1; by destruct (n =? 1)).
  rewrite Hc1 in Hu2. specialize (Hu2 Hu).
  assert (Hlog' : log_ok ident (log ++ [(p, res)])).
  { apply log_ok_snoc; [done|done|done|by rewrite <- Ht|]. intros Hm. specialize (Hmax Hm). lia. }
  destruct (ar_Err res) as [err|] eqn:Eerr; [|by eexists].
  rewrite release_identity, Hatt, Hid1. set (d := MkDecision _ _ _ _ _ _ _ _ _).
  pose proof (proj1 (Retryable_none d)) as Hd.
  destruct (Retryable d); try (by eexists).
  destruct (Hd eq_refl) as (? & [= <-] & Hd1 & Hd2 & Hd3 & Hd4 & Hm & _). simpl in Hd1, Hd2, Hd3, Hd4, Hm. clear Hd.
  destruct (Allow _ _) as [bg granted]. destruct granted; [|by eexists]. cbn [negb].
  destruct (backoffFor _ _ _ _ _) as [delay ok]. destruct ok; [|by eexists]. cbn [negb].
  assert (Hrec : forall rw4, (forall q, backend_Identity (deref (heap_of rw4) q) = ident q) ->
    (forall p, p ∈ rw_candidates rw4 -> p ∈ universe) ->
    exists oc, loop fuel (n + 1) (ident p :: tried) (Some err) (log ++ [(p, res)]) rw4 = Some oc /\ log_ok ident (oc_log oc)).
  { intros rw4 Hid4 Hu4. apply IH; try done.
    - rewrite fmap_app, map_app, rev_app_distr. simpl. by rewrite Ht.
    - rewrite length_app. simpl. lia.
    - rewrite fmap_app. apply Forall_app. split; [done|]. apply Forall_singleton. by exists err.
    - lia.
    - pose proof (untried_decreases ident tried p Hp Hpt). lia. }
  set (rw3 := rw_set_budget bg (release_in p rw2)).
  assert (Hid3 : forall q, backend_Identity (deref (heap_of rw3) q) = ident q).
  { intros q. subst rw3. simpl. rewrite <- Hid1, <- Hatt. by apply (release_identity p rw2). }
  destruct (0 <? delay); [|by apply Hrec].
  specialize (Hwait delay rw3). destruct (wait delay rw3) as [rw4 ended]. destruct Hwait as [Hw1 Hw2].
  specialize (Hw2 Hu2).
  destruct ended; [by eexists|]. apply Hrec; [|done]. intros q. by rewrite Hw1.
Qed.
(** The slot the adapter keeps: the last attempt's, when it succeeded and asked to
    retain it. *)
Definition retained (oc : @outcome B) (q : ptr) : Z :=
  match oc_reason oc, last (oc_log oc) with
  | StopSuccess, Some (p, res) => if ar_Retain res && bool_decide (p = q) then 1 else 0
  | _, _ => 0
  end.

Lemma Retryable_success d : Retryable d = StopSuccess -> d_Err d = None.
Proof.
  unfold Retryable. destruct (d_Err d); [|done].
  repeat (match goal with |- context [if ?b then _ else _] => destruct b end; try done).
Qed.

Lemma release_inflight p (rw : RWorld B) q :
  (p < length (heap_of rw))%nat ->
  b_inflight (deref (heap_of (release_in p rw)) q) =
  b_inflight (deref (heap_of rw) q) - (if bool_decide (p = q) then 1 else 0).
Proof.
  intros Hl. simpl. case_bool_decide as E; [subst q|].
  - rewrite deref_insert_eq by done. simpl. lia.
  - rewrite deref_insert_ne by done. lia.
Qed.

Lemma Do_loop_inflight fuel n tried lastErr log rw oc q :
  env_balanced -> (forall p, p ∈ rw_candidates rw -> (p < length (heap_of rw))%nat) ->
  loop fuel n tried lastErr log rw = Some oc ->
  b_inflight (deref (heap_of (oc_world oc)) q) = b_inflight (deref (heap_of rw) q) + retained oc q.
Proof.
  intros [Hatt Hwait]. revert n tried lastErr log rw.
  induction fuel as [|fuel IH]; intros n tried lastErr log rw Hv Hoc; [done|]. cbn [Do_loop] in Hoc.
  pose proof (selectBackend_inflight (rw_world rw) (rw_candidates rw) (rw_bal rw) (rw_perBackend rw)
    tried (rr_Key rr) q Hv) as Hsel.
  pose proof (fun q => proj1 (proj2 (selectBackend_frame backend_Identity (rw_world rw) (rw_candidates rw) (rw_bal rw)
    (rw_perBackend rw) tried (rr_Key rr) q)) : _ = _) as Hlen. simpl in Hlen.
  pose proof (selectBackend_untried (rw_world rw) (rw_candidates rw) (rw_bal rw) (rw_perBackend rw) tried (rr_Key rr)) as Hun.
  destruct (selectBackend _ _ _ _ _ _ _) as [[w bal] [e|[p adm]]]; [by simplify_eq/=|].
  destruct (Hun p adm eq_refl) as [Hp%Hv _]. cbv zeta in Hoc. revert Hoc.
  set (rw1 := if n =? 1 then _ else _).
  assert (Hw1 : rw_world rw1 = w) by (subst rw1; by destruct (n =? 1)).
  specialize (Hatt n (p, adm) rw1). destruct (attempt n (p, adm) rw1) as [rw2 res]. destruct Hatt as [Ha1 Ha2 Ha3].
  assert (Hc1 : rw_candidates rw1 = rw_candidates rw) by (subst rw1; by destruct (n =? 1)).
  specialize (Hlen q). specialize (Ha1 q). simpl in Ha1, Ha2, Ha3, Hlen. rewrite Hw1 in Ha1, Ha2, Ha3.
  rewrite Hc1, Hlen in Ha2. specialize (Ha2 Hv).
  assert (Hrel : b_inflight (deref (heap_of (release_in p rw2)) q) = b_inflight (deref (heap_of rw) q)).
  { rewrite release_inflight by lia. rewrite Ha1, Hsel. lia. }
  destruct (ar_Err res) as [err|].
  2:{ intros [= <-]. unfold retained. cbn [oc_log oc_reason oc_world]. rewrite last_snoc.
      destruct (ar_Retain res); [rewrite Ha1, Hsel; done|rewrite Hrel; simpl; lia]. }
  set (d := MkDecision _ _ _ _ _ _ _ _ _). pose proof (Retryable_success d) as Hd.
  destruct (Retryable d); try (intros [= <-]; unfold retained; cbn [oc_log oc_reason oc_world]; lia).
  2:{ by specialize (Hd eq_refl). }
  destruct (Allow _ _) as [bg granted]. destruct granted; cbn [negb];
    [|intros [= <-]; unfold retained; simpl in *; lia].
  destruct (backoffFor _ _ _ _ _) as [delay ok]. destruct ok; cbn [negb];
    [|intros [= <-]; unfold retained; simpl in *; lia].
  set (rw3 := rw_set_budget bg (release_in p rw2)).
  change (b_inflight (deref (heap_of rw3) q) = b_inflight (deref (heap_of rw) q)) in Hrel.
  assert (Hv3 : forall x, x ∈ rw_candidates rw3 -> (x < length (heap_of rw3))%nat).
  { subst rw3. simpl. intros x Hx. rewrite length_insert. auto. }
  clearbody rw3. destruct (0 <? delay); [|intros Hoc%IH; [lia|done]].
  specialize (Hwait delay rw3). destruct (wait delay rw3) as [rw4 ended]. destruct Hwait as [Hb1 Hb2 Hb3].
  specialize (Hb1 q). specialize (Hb2 Hv3). simpl in Hb1, Hb2. destruct ended; [|intros Hoc%IH; [lia|done]].
  intros [= <-]. unfold retained. cbn [oc_log oc_reason oc_world]. lia.
Qed.
End DoProofs.

(** ** The budget against its log *)

(** What is done to a budget, and when.  A percentage stays positive: at zero the
    budget is off and counts nothing. *)
Inductive budget_op := OpPrimary | OpAllow | OpStatus | OpSetPercent (p : positive).

Definition budget_epoch (now : Z) : Z := Z.quot now retryBudgetWindow.

(** The state, and the log of what was charged: the epoch and whether it was a
    retry. *)
Definition budget_step (s : Budget * list (Z * bool)) (o : Z * budget_op) : Budget * list (Z * bool) :=
  let '(b, evs) := s in
  let '(now, op) := o in
  match op with
  | OpPrimary => (Primary now b, (budget_epoch now, false) :: evs)
  | OpAllow => let '(b, ok) := Allow now b in (b, if ok then (budget_epoch now, true) :: evs else evs)
  | OpStatus => ((budget_Status now b).1, evs)
  | OpSetPercent p => (SetPercent (Z.pos p) b, evs)
  end.

Definition budget_run (percent : positive) (t0 : Z) (ops : list (Z * budget_op)) : Budget * list (Z * bool) :=
  fold_left budget_step ops (NewBudget (Z.pos percent) t0, []).

Definition charged (retry : bool) (e : Z) (evs : list (Z * bool)) : Z :=
  Z.of_nat (length (filter (fun ev => ev = (e, retry)) evs)).

(** The two windows that count at [now]. *)
Definition charged_at (retry : bool) (now : Z) (evs : list (Z * bool)) : Z :=
  charged retry (budget_epoch now) evs + charged retry (budget_epoch now - 1) evs.

Record budget_inv (now : Z) (b : Budget) (evs : list (Z * bool)) : Prop := {
  bi_percent : 0 < bg_percent b;
  bi_epoch : bw_epoch (bg_win b) <= budget_epoch now;
  bi_primaries : bw_primaries (bg_win b) = charged false (bw_epoch (bg_win b)) evs;
  bi_retries : bw_retries (bg_win b) = charged true (bw_epoch (bg_win b)) evs;
  bi_prevPrimaries : bw_prevPrimaries (bg_win b) = charged false (bw_epoch (bg_win b) - 1) evs;
  bi_prevRetries : bw_prevRetries (bg_win b) = charged true (bw_epoch (bg_win b) - 1) evs;
  bi_future k e : bw_epoch (bg_win b) < e -> charged k e evs = 0
}.

Lemma charged_cons k e e' k' evs :
  charged k e ((e', k') :: evs) = charged k e evs + (if bool_decide (e' = e /\ k' = k) then 1 else 0).
Proof.
  unfold charged. rewrite filter_cons. case_decide as E; case_bool_decide as E'; simpl; try lia;
    exfalso; naive_solver.
Qed.

Lemma window_percent now b : bg_percent (window now b) = bg_percent b.
Proof. unfold window. by destruct (_ <=? _). Qed.

Lemma budget_epoch_mono a b : a <= b -> budget_epoch a <= budget_epoch b.
Proof. intros ?. apply Z.quot_le_mono; [reflexivity|done]. Qed.

(** After [window], the bucket is the clock's. *)
Lemma window_inv now now' b evs :
  now <= now' -> budget_inv now b evs ->
  budget_inv now' (window now' b) evs /\ bw_epoch (bg_win (window now' b)) = budget_epoch now'.
Proof.
  intros Hn%budget_epoch_mono [I1 I2 I3 I4 I5 I6 I7]. unfold window. fold (budget_epoch now').
  destruct (_ <=? _) eqn:E; [split; [|lia]; split; auto; lia|]. unfold rotate.
  destruct (_ =? _) eqn:E2; (split; [split|]); simpl; auto; try lia.
  all: try (symmetry; apply I7; lia).
  - replace (budget_epoch now' - 1) with (bw_epoch (bg_win b)) by lia. done.
  - replace (budget_epoch now' - 1) with (bw_epoch (bg_win b)) by lia. done.
  - intros k e He. apply I7. lia.
  - intros k e He. apply I7. lia.
Qed.

(** Solves the goals of charging one event to the bucket. *)
Ltac charge :=
  try (intros k e He); rewrite ?charged_cons;
  repeat case_bool_decide; destruct_and?; try done; try lia; simplify_eq;
  repeat match goal with H : _ = charged _ _ _ |- _ => rewrite <- H end;
  repeat match goal with H : forall k e, _ -> charged k e _ = 0 |- _ => rewrite H by lia end; lia.

Lemma budget_step_inv now now' op b evs :
  now <= now' -> budget_inv now b evs ->
  budget_inv now' (budget_step (b, evs) (now', op)).1 (budget_step (b, evs) (now', op)).2.
Proof.
  intros Hn HI. destruct (window_inv now now' b evs Hn HI) as [[W1 W2 W3 W4 W5 W6 W7] We].
  rewrite window_percent in W1. rewrite We in *. destruct op; simpl.
  - unfold Primary. rewrite (proj2 (Z.leb_gt _ _) W1).
    split; simpl; rewrite ?window_percent, ?We; charge.
  - unfold Allow. rewrite (proj2 (Z.leb_gt _ _) W1).
    destruct (_ <=? bw_retries _ + _); split; simpl; rewrite ?window_percent, ?We; charge.
  - unfold budget_Status. rewrite (proj2 (Z.leb_gt _ _) W1). simpl. by split; rewrite ?window_percent, ?We.
  - destruct HI as [I1 I2 I3 I4 I5 I6 I7]. apply budget_epoch_mono in Hn. split; simpl; auto; lia.
Qed.

Lemma budget_run_inv ops now0 now b evs :
  budget_inv now0 b evs -> Sorted Z.le (now0 :: ops.*1 ++ [now]) ->
  exists now1, now1 <= now /\
    budget_inv now1 (fold_left budget_step ops (b, evs)).1 (fold_left budget_step ops (b, evs)).2.
Proof.
  revert now0 b evs. induction ops as [|[t op] ops IH]; intros now0 b evs HI Hs;
    apply Sorted_inv in Hs as [Hs Hh]; apply HdRel_inv in Hh.
  - by exists now0.
  - pose proof (budget_step_inv now0 t op b evs Hh HI) as Hst. cbn [fold_left].
    destruct (budget_step (b, evs) (t, op)) as [b' evs']. by apply (IH t).
Qed.

(** ** Theorems *)

(** The retry budget is exact over any run of its operations under a clock
    that does not go back: a retry is granted exactly when the retries granted
    in the current and the previous window, this one included, stay within the
    configured percentage of the primaries counted in those windows plus the
    free allowance, and the status reports exactly what is left to grant. *)
Theorem budget_exact (percent : positive) (t0 now : Z) (ops : list (Z * budget_op)) :
  Sorted Z.le (t0 :: ops.*1 ++ [now]) ->
  let '(b, evs) := budget_run percent t0 ops in
  let room := Z.quot (charged_at false now evs * bg_percent b) 100 + minFreeRetries
              - charged_at true now evs in
  ((Allow now b).2 = true <-> 1 <= room) /\
  bs_Remaining (budget_Status now b).2 = Z.max 0 room.
Proof.
  intros Hs. unfold budget_run.
  assert (H0 : budget_inv t0 (NewBudget (Z.pos percent) t0) []) by (split; simpl; auto; reflexivity).
  destruct (budget_run_inv ops t0 now _ _ H0 Hs) as (now1 & Hle & HI).
  destruct (fold_left _ _ _) as [b evs]. simpl in HI. cbv zeta.
  destruct (window_inv now1 now b evs Hle HI) as [[W1 W2 W3 W4 W5 W6 W7] We].
  rewrite window_percent in W1. rewrite We in *.
  unfold Allow, budget_Status, charged_at. rewrite (proj2 (Z.leb_gt _ _) W1). unfold allowance.
  rewrite window_percent, W3, W4, W5, W6. split.
  - destruct (_ <=? charged true _ _ + _) eqn:E; simpl; lia.
  - simpl. destruct (0 <? _) eqn:E; lia.
Qed.

Definition budget_ops : list (Z * budget_op) :=
  [(0, OpPrimary); (1, OpAllow); (2, OpAllow); (3, OpAllow); (4, OpAllow)].

(** Three free retries are granted to one primary; the fourth is refused, and
    so is a fifth in the next window. *)
Lemma budget_exact_witness :
  charged_at true (12 * Second) (budget_run 20 0 budget_ops).2 = 3 /\
  ((Allow (12 * Second) (budget_run 20 0 budget_ops).1).2 = true <-> 1 <= 0).
Proof.
  split; [reflexivity|].
  destruct (budget_exact 20 0 (12 * Second) budget_ops) as [E _]; [simpl; repeat constructor; done|exact E].
Defined.

(** The backoff before attempt [n + 1] is at most the initial interval doubled
    [n - 1] times, capped by the configured maximum even where the doubling would
    overflow 64 bits, and always leaves the call time to make the attempt; the
    driver gives up only when the drawn interval would not. *)
Theorem backoffFor_bounded (n initial max remaining : Z) (jitter : Z -> Z) :
  1 <= n -> 0 < initial -> max <= max_int64 -> (forall d, 0 < d -> 0 <= jitter d <= d) ->
  let bound := if 0 <? max then Z.min (initial * 2 ^ (n - 1)) max else initial in
  let r := backoffFor n initial max remaining jitter in
  (r.2 = true -> 0 <= r.1 <= bound /\ r.1 < remaining) /\
  (r.2 = false -> r.1 = 0 /\ remaining <= bound).
Proof.
  intros Hn Hi Hm Hj. unfold backoffFor. rewrite (proj2 (Z.leb_gt _ _) Hi). cbv zeta.
  rewrite backoff_interval_eq by done. set (bound := if 0 <? max then _ else _).
  assert (Hb : 0 < bound).
  { subst bound. destruct (0 <? max) eqn:E; [|done].
    pose proof (Z.pow_pos_nonneg 2 (n - 1) ltac:(lia) ltac:(lia)). nia. }
  specialize (Hj bound Hb). destruct (remaining <=? jitter bound) eqn:E; (split; intros ?); try done; simpl; lia.
Qed.

Lemma backoffFor_bounded_witness :
  backoffFor 40 100 5000 6000 (fun d => d) = (5000, true) /\
  (backoffFor 40 100 5000 6000 (fun d => d)).1 < 6000.
Proof.
  split; [reflexivity|].
  apply (backoffFor_bounded 40 100 5000 6000 (fun d => d)); unfold max_int64; lia || done.
Defined.

Section DriverTheorems.
Context {B : Type} `{ChooserOk B}.
Context (attempt : Z -> ptr * admission -> RWorld B -> RWorld B * AttemptResult).
Context (wait : Z -> RWorld B -> RWorld B * bool) (jitter : Z -> Z).

(** C11: whatever the attempts do to the pool meanwhile (state, budget, clock and
    candidate set included, identities excepted), the driver terminates; it
    never tries a backend identity twice, makes at most [MaxAttempts] attempts
    when a maximum is set, and follows an attempt by another only when that
    attempt failed with an error that is not a cancellation, before a response
    byte, not terminally, for a replayable request. *)
Theorem Do_terminates rr ctxDeadline universe (rw : RWorld B) fuel :
  env_drifts attempt wait universe ->
  (forall p, p ∈ rw_candidates rw -> p ∈ universe) -> (length universe < fuel)%nat ->
  exists oc, Do attempt wait jitter rr ctxDeadline fuel rw = Some oc /\
    NoDup (map (fun p => backend_Identity (deref (w_heap (rw_world rw)) p)) (oc_log oc).*1) /\
    (0 < rr_MaxAttempts rr -> Z.of_nat (length (oc_log oc)) <= rr_MaxAttempts rr) /\
    Forall (retried rr) (removelast (oc_log oc)).*2.
Proof.
  intros Henv Hu Hf. unfold Do.
  set (ident p := backend_Identity (deref (w_heap (rw_world rw)) p)).
  destruct (Do_loop_spec attempt wait jitter rr (callDeadline rr ctxDeadline (w_now (rw_world rw))) universe
    ident fuel 1 [] None [] rw) as (oc & E & [L1 L2 L3 L4]); try done.
  - split; simpl; [apply NoDup_nil_2|by intros ? ?%elem_of_nil|lia|constructor].
  - lia.
  - unfold untried. pose proof (length_filter (fun p => ident p ∉ []) universe). lia.
  - by exists oc.
Qed.

(** C14: every in-flight slot the driver claims it gives back, on every path
    (success, exhaustion, deadline, budget, cancellation), except the one of a
    successful attempt that asked to retain it. *)
Theorem Do_releases rr ctxDeadline (rw : RWorld B) fuel oc q :
  env_balanced attempt wait ->
  (forall p, p ∈ rw_candidates rw -> (p < length (w_heap (rw_world rw)))%nat) ->
  Do attempt wait jitter rr ctxDeadline fuel rw = Some oc ->
  b_inflight (deref (w_heap (rw_world (oc_world oc))) q) =
  b_inflight (deref (w_heap (rw_world rw)) q) + retained oc q.
Proof. apply Do_loop_inflight. Qed.
End DriverTheorems.

(** A pool of three backends whose attempts always fail, and one whose second
    attempt succeeds and keeps its slot. *)
Definition demo_world : RWorld Balancer :=
  MkRWorld _ (MkWorld demo_heap 0) [0; 1; 2]%nat 0 (roundRobin 0) (NewBudget 20 0) false.

Definition demo_request : RetryRequest := MkRetryRequest 0 0 0 0 true k0.

Definition refused : AttemptResult := MkResult (Some (MkErr false 1)) false false false.

Definition all_fail (n : Z) (a : ptr * admission) (rw : RWorld Balancer) : RWorld Balancer * AttemptResult :=
  (rw, refused).

Definition second_succeeds (n : Z) (a : ptr * admission) (rw : RWorld Balancer)
  : RWorld Balancer * AttemptResult :=
  (rw, if n =? 2 then MkResult None true false true else refused).

Definition no_wait (d : Z) (rw : RWorld Balancer) : RWorld Balancer * bool := (rw, false).

Lemma Do_terminates_witness :
  env_drifts all_fail no_wait [0; 1; 2]%nat /\
  exists oc, Do all_fail no_wait (fun d => d) demo_request None 4 demo_world = Some oc /\
    length (oc_log oc) = 3%nat /\ oc_reason oc = StopNoBackend /\
    Forall (retried demo_request) (removelast (oc_log oc)).*2.
Proof.
  assert (Henv : env_drifts all_fail no_wait [0; 1; 2]%nat) by (split; intros; by split).
  split; [exact Henv|].
  destruct (Do_terminates all_fail no_wait (fun d => d) demo_request None [0; 1; 2]%nat demo_world 4 Henv)
    as (oc & E & _ & _ & R); [done|simpl; lia|].
  exists oc. vm_compute in E. injection E as <-. split; [reflexivity|]. split; [reflexivity|].
  split; [reflexivity|exact R].
Defined.

Definition demo_outcome : @outcome Balancer :=
  match Do second_succeeds no_wait (fun d => d) demo_request None 4 demo_world with
  | Some oc => oc
  | None => MkOutcome demo_world [] StopNone None
  end.

Lemma Do_releases_witness :
  oc_log demo_outcome = [(0%nat, refused); (2%nat, MkResult None true false true)] /\
  b_inflight (deref (w_heap (rw_world (oc_world demo_outcome))) 2) =
  b_inflight (deref demo_heap 2) + 1.
Proof.
  split; [reflexivity|].
  apply (Do_releases second_succeeds no_wait (fun d => d) demo_request None demo_world 4 demo_outcome 2).
  - split; intros; by split.
  - simpl. intros p Hp. set_unfold. lia.
  - reflexivity.
Defined.
