(* ===== verification/BudgetRun.v ===== *)
(** * The retry budget under concurrency (src/internal/upstream/retry.go)

    [Allow] and [Primary] as interleavings of their atomic actions: obtaining
    the live bucket (rotating it by compare-and-swap when the epoch advanced),
    loading its counters, and the compare-and-swap that claims a retry.
    Buckets are shared objects: a goroutine may still hold one that has been
    rotated away. *)

From S2P Require Import Prelude GoStrings Netip Affinity Circuit Resilience Backend Balancer Pool Retry.

(** Where a goroutine is in [Allow]: holding a bucket, or having loaded its
    retry counter and found room. *)
Inductive bphase := BHas (w : nat) | BRead (w : nat) (cur : Z).

Record bsys := MkBsys {
  bs_percent : Z;
  bs_wins : list budgetWindow;
  bs_live : nat;
  bs_threads : gmap nat bphase;
  (** The retries granted, newest first: the epoch of the grant by the clock. *)
  bs_grants : list Z
}.

Definition budget_init (percent now : Z) : bsys :=
  MkBsys percent [bg_win (NewBudget percent now)] 0 ∅ [].

(** The live bucket at [now], rotated if need be. *)
Definition live_window (now : Z) (s : bsys) : bsys * nat :=
  match bs_wins s !! bs_live s with
  | Some w =>
      let epoch := budget_epoch now in
      if epoch <=? bw_epoch w then (s, bs_live s)
      else
        let p := length (bs_wins s) in
        (MkBsys (bs_percent s) (bs_wins s ++ [rotate epoch w]) p (bs_threads s) (bs_grants s), p)
  | None => (s, bs_live s)
  end.

Definition upd_wins (wins : list budgetWindow) (s : bsys) : bsys :=
  MkBsys (bs_percent s) wins (bs_live s) (bs_threads s) (bs_grants s).
Definition upd_threads (th : gmap nat bphase) (s : bsys) : bsys :=
  MkBsys (bs_percent s) (bs_wins s) (bs_live s) th (bs_grants s).

Inductive blabel :=
| BPrimary (now : Z)          (* the counter is added to the bucket window() returned *)
| BEnter (g : nat) (now : Z)  (* Allow obtains the bucket *)
| BLoad (g : nat)             (* it loads the counters and decides *)
| BCas (g : nat) (now : Z).   (* it claims the retry, or starts over *)

Definition budget_exec (s : bsys) (l : blabel) : option bsys :=
  match l with
  | BPrimary now =>
      let '(s, p) := live_window now s in Some (upd_wins (alter add_primary p (bs_wins s)) s)
  | BEnter g now =>
      match bs_threads s !! g with
      | None => let '(s, p) := live_window now s in Some (upd_threads (<[g := BHas p]> (bs_threads s)) s)
      | Some _ => None
      end
  | BLoad g =>
      match bs_threads s !! g with
      | Some (BHas p) =>
          w ← bs_wins s !! p;
          if allowance (bs_percent s) w <=? bw_retries w + bw_prevRetries w
          then Some (upd_threads (delete g (bs_threads s)) s)
          else Some (upd_threads (<[g := BRead p (bw_retries w)]> (bs_threads s)) s)
      | _ => None
      end
  | BCas g now =>
      match bs_threads s !! g with
      | Some (BRead p cur) =>
          w ← bs_wins s !! p;
          if bw_retries w =? cur then
            Some (MkBsys (bs_percent s) (<[p := add_retry w]> (bs_wins s)) (bs_live s)
                    (delete g (bs_threads s)) (budget_epoch now :: bs_grants s))
          else Some (upd_threads (<[g := BHas p]> (bs_threads s)) s)
      | _ => None
      end
  end.

(** ** Each bucket keeps its own bound *)

(** A bucket's retries fit its allowance, except for those it started with; and
    a goroutine that found room still has it while the counter is unchanged. *)
Definition win_ok (percent : Z) (w : budgetWindow) : Prop :=
  0 <= bw_retries w /\ 0 <= bw_primaries w /\ 0 <= bw_prevPrimaries w /\
  (bw_retries w = 0 \/ bw_retries w + bw_prevRetries w <= allowance percent w).

Definition phase_win (ph : bphase) : nat := match ph with BHas p => p | BRead p _ => p end.

Record budget_ok (s : bsys) : Prop := {
  bk_percent : 0 < bs_percent s;
  bk_wins p w : bs_wins s !! p = Some w -> win_ok (bs_percent s) w;
  bk_live : (bs_live s < length (bs_wins s))%nat;
  bk_alloc g ph : bs_threads s !! g = Some ph -> (phase_win ph < length (bs_wins s))%nat;
  bk_threads g p cur w : bs_threads s !! g = Some (BRead p cur) -> bs_wins s !! p = Some w ->
    cur <= bw_retries w /\
    (bw_retries w = cur -> cur + bw_prevRetries w < allowance (bs_percent s) w)
}.

Lemma allowance_add_primary percent w :
  0 < percent -> 0 <= bw_primaries w -> 0 <= bw_prevPrimaries w ->
  allowance percent w <= allowance percent (add_primary w).
Proof.
  intros. unfold allowance, add_primary. simpl.
  pose proof (Z.quot_le_mono ((bw_primaries w + bw_prevPrimaries w) * percent)
    ((bw_primaries w + 1 + bw_prevPrimaries w) * percent) 100 ltac:(lia) ltac:(nia)). lia.
Qed.

Lemma live_window_ok now s :
  budget_ok s ->
  budget_ok (live_window now s).1 /\ bs_threads (live_window now s).1 = bs_threads s /\
  ((live_window now s).2 < length (bs_wins (live_window now s).1))%nat.
Proof.
  intros HI. pose proof HI as [H1 H2 H3 H4 H5]. unfold live_window.
  destruct (bs_wins s !! bs_live s) as [w|] eqn:E; [|done]. destruct (_ <=? _); [done|].
  simpl. rewrite length_app. split_and!; [|done|simpl; lia]. split; simpl; rewrite ?length_app; simpl; [done| |lia| |].
  - intros p w' [Hp|[_ Hp]]%lookup_app_Some; [by eapply H2|]. apply list_lookup_singleton_Some in Hp as [_ <-].
    destruct (H2 _ _ E) as (? & ? & ? & ?). unfold win_ok, rotate. destruct (_ =? _); simpl; (split_and!; [lia..|by left]).
  - intros g ph Hg. specialize (H4 g ph Hg). lia.
  - intros g p cur w' Hg [Hp|[Hl Hp]]%lookup_app_Some; [by eapply H5|].
    specialize (H4 g _ Hg). simpl in H4. lia.
Qed.

(** Changing one bucket without lowering its allowance or its retry counter. *)
Lemma upd_win_ok s p f :
  budget_ok s ->
  (forall w, win_ok (bs_percent s) w -> win_ok (bs_percent s) (f w) /\ bw_retries (f w) = bw_retries w /\
     bw_prevRetries (f w) = bw_prevRetries w /\ allowance (bs_percent s) w <= allowance (bs_percent s) (f w)) ->
  budget_ok (upd_wins (alter f p (bs_wins s)) s).
Proof.
  intros [H1 H2 H3 H4 H5] Hf. unfold upd_wins. split; simpl; rewrite ?length_alter; try done.
  - intros q w Hq. destruct (decide (p = q)) as [<-|Hn]; [|rewrite list_lookup_alter_ne in Hq by done; by eapply H2].
    rewrite list_lookup_alter_eq in Hq. apply fmap_Some in Hq as (w0 & Hw & ->). by apply Hf, (H2 p).
  - intros g q cur w Hg Hq. destruct (decide (p = q)) as [<-|Hn]; [|rewrite list_lookup_alter_ne in Hq by done; by eapply H5].
    rewrite list_lookup_alter_eq in Hq. apply fmap_Some in Hq as (w0 & Hw & ->).
    destruct (Hf w0 (H2 p w0 Hw)) as (_ & E1 & E2 & E3). rewrite E1, E2. specialize (H5 g p cur w0 Hg Hw). lia.
Qed.

Lemma budget_exec_ok s l s' : budget_ok s -> budget_exec s l = Some s' -> budget_ok s'.
Proof.
  intros HI E. destruct l as [now|g now|g|g now]; cbn [budget_exec] in E.
  - destruct (live_window_ok now s HI) as (HI' & _ & _). destruct (live_window now s) as [s1 p]. injection E as <-.
    apply upd_win_ok; [done|]. intros w (W1 & W2 & W3 & W4).
    pose proof (allowance_add_primary (bs_percent s1) w (bk_percent _ HI') W2 W3).
    split; [|split_and!; [done|done|done]]. unfold win_ok. simpl. split_and!; [done|lia|done|]. destruct W4; [by left|right; lia].
  - destruct (bs_threads s !! g) eqn:Eg; [done|]. destruct (live_window_ok now s HI) as (HI' & Et & Hp).
    destruct (live_window now s) as [s1 p]. injection E as <-. destruct HI' as [H1 H2 H3 H4 H5]. simpl in *.
    split; simpl; try done.
    + intros g' ph. destruct (decide (g = g')) as [<-|Hn]; [rewrite lookup_insert_eq; by intros [= <-]|].
      rewrite lookup_insert_ne by done. apply H4.
    + intros g' q cur w. destruct (decide (g = g')) as [<-|Hn]; [by rewrite lookup_insert_eq|].
      rewrite lookup_insert_ne by done. apply H5.
  - destruct (bs_threads s !! g) as [[p|p cur]|] eqn:Eg; [|done|done]. apply bind_Some in E as (w & Hw & E).
    destruct HI as [H1 H2 H3 H4 H5]. destruct (_ <=? _) eqn:Ea; injection E as <-; split; simpl; try done.
    + intros g' ph [_ Hg]%lookup_delete_Some. by eapply H4.
    + intros g' q cur w' [_ Hg]%lookup_delete_Some. by eapply H5.
    + intros g' ph. destruct (decide (g = g')) as [<-|Hn].
      * rewrite lookup_insert_eq. intros [= <-]. simpl. by apply (H4 g _ Eg).
      * rewrite lookup_insert_ne by done. apply H4.
    + intros g' q cur w'. destruct (decide (g = g')) as [<-|Hn].
      * rewrite lookup_insert_eq. intros [= <- <-] Hq. assert (w' = w) as -> by congruence. lia.
      * rewrite lookup_insert_ne by done. apply H5.
  - destruct (bs_threads s !! g) as [[p|p cur]|] eqn:Eg; [done| |done]. apply bind_Some in E as (w & Hw & E).
    destruct HI as [H1 H2 H3 H4 H5]. destruct (bw_retries w =? cur) eqn:Ec; injection E as <-; split; simpl; rewrite ?length_insert; try done.
    + intros q w' Hq. apply list_lookup_insert_Some in Hq as [(<- & <- & _)|[_ Hq]]; [|by eapply H2].
      destruct (H2 p w Hw) as (W1 & W2 & W3 & W4). destruct (H5 g p cur w Eg Hw) as [_ H6]. specialize (H6 ltac:(lia)).
      unfold win_ok, add_retry, allowance in *. simpl. split_and!; [lia|done|done|right; lia].
    + intros g' ph [_ Hg]%lookup_delete_Some. by eapply H4.
    + intros g' q cur' w' [_ Hg]%lookup_delete_Some Hq.
      apply list_lookup_insert_Some in Hq as [(<- & <- & _)|[_ Hq]]; [|by eapply H5].
      destruct (H5 g' p cur' w Hg Hw) as [H6 _]. simpl. lia.
    + intros g' ph. destruct (decide (g = g')) as [<-|Hn].
      * rewrite lookup_insert_eq. intros [= <-]. simpl. by apply (H4 g _ Eg).
      * rewrite lookup_insert_ne by done. apply H4.
    + intros g' q cur' w'. destruct (decide (g = g')) as [<-|Hn]; [by rewrite lookup_insert_eq|].
      rewrite lookup_insert_ne by done. apply H5.
Qed.

(** ** Theorems *)

(** In every interleaving of primaries and retries, clock jumps and rotations
    included, each bucket grants retries only within the percentage of the
    primaries it has counted and inherited plus the free allowance: no two
    goroutines holding one bucket spend its last retry. *)
Theorem budget_bucket_bound (percent now : Z) tr s p w :
  0 < percent -> trace budget_exec (budget_init percent now) tr s -> bs_wins s !! p = Some w ->
  bw_retries w = 0 \/ bw_retries w + bw_prevRetries w <= allowance percent w.
Proof.
  intros Hp T Hw.
  assert (H0 : budget_ok (budget_init percent now)).
  { split; simpl; try done; [|lia]. intros q w' Hq. apply list_lookup_singleton_Some in Hq as [_ <-].
    unfold win_ok. simpl. split_and!; [lia..|by left]. }
  pose proof (trace_invariant budget_exec budget_ok budget_exec_ok _ _ _ T H0) as HI.
  assert (Hpc : bs_percent s = percent).
  { clear -T. change percent with (bs_percent (budget_init percent now)).
    induction T as [|s0 l s1 tr s2 E _ IH]; [done|]. rewrite IH. symmetry.
    destruct l; simpl in E; repeat (case_match; simplify_eq/=; try done);
      unfold live_window in *; repeat (case_match; simplify_eq/=; try done);
      apply bind_Some in E as (? & _ & E); repeat (case_match; simplify_eq/=; try done). }
  destruct (bk_wins _ HI p w Hw) as (_ & _ & _ & H). by rewrite Hpc in H.
Qed.

(** The grants of the epochs [e - 1] and [e]. *)
Definition grants_in (e : Z) (s : bsys) : nat :=
  length (filter (fun x => x = e \/ x = e - 1) (bs_grants s)).

(** Two retries of one epoch, then two that race with the rotation: goroutine 3
    still claims from the old bucket after its counter was copied. *)
Definition rotation_race : list blabel :=
  [BEnter 1 0; BLoad 1; BCas 1 0; BEnter 2 0; BLoad 2; BCas 2 0;
   BEnter 3 0; BLoad 3; BEnter 4 (10 * Second); BCas 3 (10 * Second); BLoad 4; BCas 4 (10 * Second)].

(** Across a rotation two goroutines can both spend the last retry: four are
    granted in two consecutive windows that earned none, where the free
    allowance is three. *)
Theorem budget_rotation_race :
  exists s, exec_trace budget_exec (budget_init 20 0) rotation_race = Some s /\
    grants_in 1 s = 4%nat /\ Forall (fun w => bw_primaries w = 0) (bs_wins s) /\ minFreeRetries = 3.
Proof. eexists. split; [vm_compute; reflexivity|]. split; [reflexivity|]. split; [by repeat constructor|reflexivity]. Qed.

Lemma budget_bucket_bound_witness :
  match exec_trace budget_exec (budget_init 20 0) rotation_race with
  | Some s => match bs_wins s !! 0%nat with
              | Some w => bw_retries w = 3 /\ (bw_retries w = 0 \/ bw_retries w + bw_prevRetries w <= allowance 20 w)
              | None => False
              end
  | None => False
  end.
Proof.
  destruct (exec_trace budget_exec (budget_init 20 0) rotation_race) as [s|] eqn:E; [|by vm_compute in E].
  destruct (bs_wins s !! 0%nat) as [w|] eqn:Ew.
  - split; [vm_compute in E; injection E as <-; vm_compute in Ew; by injection Ew as <-|].
    apply (budget_bucket_bound 20 0 rotation_race s 0%nat w); [done|by apply exec_trace_trace|exact Ew].
  - exfalso. vm_compute in E. injection E as <-. by vm_compute in Ew.
Defined.
