(* ===== verification/CanonicalPath.v ===== *)
(** * Canonical request paths (src/internal/router/canonical.go)

    The removal of dot segments and repeated slashes that runs before location
    selection, its fast check, and the walk a static root or an upstream
    performs on a path. *)

From S2P Require Import Prelude GoStrings.

(** ** The code *)

Definition slash : Z := 47.
Definition dot : gostring := str ".".
Definition dotdot : gostring := str "..".

Definition needsCanonical (p : gostring) : bool :=
  Contains p (str "//") || Contains p (str "/./") || Contains p (str "/../") ||
  HasSuffix p (str "/.") || HasSuffix p (str "/..").

(** The loop over the segments: what is kept, and whether a slash trails. *)
Fixpoint canonical_loop (segs out : list gostring) (trailing : bool) : list gostring * bool :=
  match segs with
  | [] => (out, trailing)
  | s :: segs =>
      let last := match segs with [] => true | _ => false end in
      if string_eqb s [] || string_eqb s dot then canonical_loop segs out last
      else if string_eqb s dotdot then canonical_loop segs (removelast out) last
      else canonical_loop segs (out ++ [s]) false
  end.

Definition canonical_slow (p : gostring) : gostring :=
  let '(out, trailing) := canonical_loop (SplitByte (drop 1 p) slash) [] false in
  let res := slash :: JoinByte out slash in
  if trailing && negb (bool_decide (out = [])) then res ++ [slash] else res.

Definition canonicalPath (p : gostring) : gostring :=
  match p with
  | [] => p
  | c :: _ => if negb (c =? slash) || negb (needsCanonical p) then p else canonical_slow p
  end.

Example canonicalPath_examples :
  canonicalPath (str "/public/../admin") = str "/admin" /\
  canonicalPath (str "/a//b/./c/") = str "/a/b/c/" /\
  canonicalPath (str "/../..") = str "/" /\
  canonicalPath (str "/a/..") = str "/" /\ canonicalPath (str "*") = str "*".
Proof. by vm_compute. Qed.

(** ** Segments *)

(** A segment a walk enters. *)
Definition proper (s : gostring) : Prop := s <> [] /\ s <> dot /\ s <> dotdot.

#[export] Instance proper_dec s : Decision (proper s) := ltac:(unfold proper; apply _).

(** Segments of a path already in canonical form: all proper, except that the
    last may be empty. *)
Definition clean (segs : list gostring) : Prop :=
  Forall proper (removelast segs) /\ last segs <> Some dot /\ last segs <> Some dotdot.

(** The rooted path of some segments. *)
Definition rooted (segs : list gostring) : gostring := slash :: JoinByte segs slash.

Lemma rooted_cons x segs :
  rooted (x :: segs) = slash :: x ++ match segs with [] => [] | _ => rooted segs end.
Proof. unfold rooted. destruct segs; simpl; [by rewrite app_nil_r|done]. Qed.

Lemma Contains_skip x s p :
  slash ∉ x -> Contains (x ++ s) (slash :: p) = Contains s (slash :: p).
Proof.
  induction x as [|a x IH]; intros Hn; [done|]. apply not_elem_of_cons in Hn as [Ha Hx].
  cbn [app Contains HasPrefix]. rewrite (proj2 (Z.eqb_neq a slash)) by congruence. by rewrite IH.
Qed.

(** [/x/] occurs in a path exactly when [x] is a segment other than the last. *)
Lemma Contains_segment segs x :
  segs <> [] -> Forall (fun s => slash ∉ s) segs -> slash ∉ x ->
  Contains (rooted segs) (slash :: x ++ [slash]) = true <-> x ∈ removelast segs.
Proof.
  intros Hne HF Hx. induction HF as [|s segs Hs HF IH]; [done|]. rewrite rooted_cons.
  cbn [Contains]. rewrite Contains_skip by done. rewrite orb_true_iff, HasPrefix_spec.
  destruct segs as [|y segs].
  - rewrite app_nil_r. simpl. split; [|by intros ?%elem_of_nil].
    intros [[t E]|?]; [|done]. injection E as ->. exfalso. apply Hs.
    rewrite <- app_assoc. set_solver.
  - specialize (IH ltac:(done)). cbn [removelast]. change (removelast (s :: y :: segs)) with (s :: removelast (y :: segs)).
    rewrite elem_of_cons. rewrite IH. split; (intros [H|H]; [left|by right]).
    + destruct H as [t E]. injection E as E. rewrite <- app_assoc in E. simpl in E.
      unfold rooted in E. by destruct (cut_unique s x _ _ slash Hs Hx E) as [-> _].
    + subst x. exists (JoinByte (y :: segs) slash). simpl. by rewrite <- app_assoc.
Qed.

Lemma rooted_snoc l y : exists pre, rooted (l ++ [y]) = pre ++ slash :: y.
Proof.
  induction l as [|x l [pre IH]]; [by exists []|]. exists (slash :: x ++ pre).
  simpl. rewrite rooted_cons, <- app_assoc, <- IH. by destruct l.
Qed.

(** [/x] ends a path exactly when [x] is its last segment. *)
Lemma HasSuffix_segment segs x :
  segs <> [] -> Forall (fun s => slash ∉ s) segs -> slash ∉ x ->
  HasSuffix (rooted segs) (slash :: x) = true <-> last segs = Some x.
Proof.
  intros Hne HF Hx. rewrite HasSuffix_spec.
  destruct (exists_last Hne) as (l & y & ->). rewrite last_snoc.
  apply Forall_app in HF as [_ Hy]. apply Forall_inv in Hy.
  destruct (rooted_snoc l y) as [pre ->]. split; [|intros [= ->]; by exists pre].
  intros [t E]. f_equal. apply (f_equal (@rev Z)) in E. rewrite !rev_app_distr in E. simpl in E.
  rewrite <- !app_assoc in E. simpl in E.
  apply (cut_unique (rev y) (rev x) (rev pre) (rev t)) in E as [E _];
    [|by rewrite <- Permutation_rev|by rewrite <- Permutation_rev].
  by rewrite <- (rev_involutive y), E, rev_involutive.
Qed.

(** The fast check is exact: it fails exactly on paths in canonical form. *)
Lemma needsCanonical_clean segs :
  segs <> [] -> Forall (fun s => slash ∉ s) segs -> needsCanonical (rooted segs) = false <-> clean segs.
Proof.
  intros Hne HF. unfold needsCanonical, clean. rewrite !orb_false_iff, <- !not_true_iff_false.
  change (str "//") with (slash :: [] ++ [slash]). change (str "/./") with (slash :: dot ++ [slash]).
  change (str "/../") with (slash :: dotdot ++ [slash]).
  change (str "/.") with (slash :: dot). change (str "/..") with (slash :: dotdot).
  rewrite !Contains_segment, !HasSuffix_segment by (try done; vm_compute; set_solver).
  rewrite Forall_forall. unfold proper. split.
  - intros [[[[H1 H2] H3] H4] H5]. split_and!; [|done|done]. intros x Hx. split_and!; congruence.
  - intros (H1 & H2 & H3). split_and!; try done; intros (? & ? & ?)%H1; done.
Qed.

(** Following the segments of a path from a directory, as a file system or an
    upstream does: empty and [.] segments stay, [..] goes to the parent. *)
Definition enter (dir : list gostring) (s : gostring) : list gostring :=
  if string_eqb s [] || string_eqb s dot then dir
  else if string_eqb s dotdot then removelast dir else dir ++ [s].

Definition walk (dir : list gostring) (segs : list gostring) : list gostring := fold_left enter segs dir.

(** The segments of a rooted path, and where it leads from the root. *)
Definition segments (p : gostring) : list gostring := SplitByte (drop 1 p) slash.
Definition resolve (p : gostring) : list gostring := walk [] (segments p).

Lemma enter_proper dir s : proper s -> enter dir s = dir ++ [s].
Proof.
  intros (H1 & H2 & H3). unfold enter, string_eqb.
  by rewrite !bool_decide_false by done.
Qed.

Lemma walk_proper l dir : Forall proper l -> walk dir l = dir ++ l.
Proof.
  intros HF. revert dir. induction HF as [|x l Hx _ IH]; intros dir; simpl; [by rewrite app_nil_r|].
  rewrite IH, enter_proper by done. by rewrite <- app_assoc.
Qed.

Lemma walk_Forall (P : gostring -> Prop) segs dir :
  Forall P segs -> Forall (fun s => P s /\ proper s) dir -> Forall (fun s => P s /\ proper s) (walk dir segs).
Proof.
  intros HF. revert dir. induction HF as [|x l Hx _ IH]; intros dir Hd; [done|]. simpl. apply IH.
  unfold enter, string_eqb. repeat case_bool_decide; simpl; try done.
  - apply Forall_forall. intros s Hs. rewrite Forall_forall in Hd. apply Hd.
    destruct dir as [|d dir] using rev_ind; [done|]. rewrite removelast_last in Hs. set_solver.
  - apply Forall_app. split; [done|]. by repeat constructor.
Qed.

Lemma canonical_loop_walk segs out t : (canonical_loop segs out t).1 = walk out segs.
Proof.
  revert out t. induction segs as [|s segs IH]; intros out t; [done|].
  cbn [canonical_loop walk fold_left]. unfold enter.
  destruct (string_eqb s [] || string_eqb s dot); [apply IH|]. destruct (string_eqb s dotdot); apply IH.
Qed.

Lemma canonical_loop_trailing l y out t : (canonical_loop (l ++ [y]) out t).2 = bool_decide (~ proper y).
Proof.
  revert out t. induction l as [|x l IH]; intros out t; cbn [app canonical_loop].
  - unfold proper, string_eqb. repeat case_bool_decide; simpl; try done; naive_solver.
  - destruct (string_eqb x [] || string_eqb x dot); [apply IH|]. destruct (string_eqb x dotdot); apply IH.
Qed.

Lemma JoinByte_snoc l c : l <> [] -> JoinByte (l ++ [[]]) c = JoinByte l c ++ [c].
Proof.
  induction l as [|x l IH]; [done|]. intros _. destruct l as [|y l]; [done|].
  change ((x :: y :: l) ++ [[]]) with (x :: (y :: l) ++ [[]]). rewrite !JoinByte_cons by done.
  rewrite IH by done. by rewrite <- app_assoc.
Qed.

(** The segments of the result: where the path leads, and the empty one of a
    trailing slash. *)
Definition canonical_segments (segs : list gostring) : list gostring :=
  let out := walk [] segs in
  if bool_decide (out = []) then [[]]
  else if negb (bool_decide (proper (default [] (last segs)))) then out ++ [[]] else out.

Lemma canonical_slow_rooted p : canonical_slow p = rooted (canonical_segments (segments p)).
Proof.
  unfold canonical_slow, canonical_segments, segments.
  destruct (SplitByte_cons (drop 1 p) slash) as (x & l & E). rewrite E.
  assert (Hne : x :: l <> []) by done. destruct (exists_last Hne) as (k & y & ->).
  pose proof (canonical_loop_walk (k ++ [y]) [] false) as H1.
  pose proof (canonical_loop_trailing k y [] false) as H2.
  destruct (canonical_loop _ _ _) as [out t]. simpl in H1, H2. subst t. rewrite <- H1, last_snoc.
  cbn [default]. unfold rooted. destruct (decide (out = [])) as [->|Hn].
  - by rewrite andb_false_r.
  - rewrite (bool_decide_false (out = [])) by done. rewrite andb_true_r.
    destruct (decide (proper y)) as [Hy|Hy].
    + by rewrite (bool_decide_false (~ proper y)), (bool_decide_true (proper y)) by tauto.
    + rewrite (bool_decide_true (~ proper y)), (bool_decide_false (proper y)) by tauto.
      simpl. by rewrite JoinByte_snoc.
Qed.

Lemma filter_proper l : Forall proper l -> filter (fun s => s <> []) l = l.
Proof.
  induction 1 as [|x l [Hx _] _ IH]; [done|]. rewrite filter_cons, decide_True by done. by rewrite IH.
Qed.

Lemma canonical_segments_ok segs :
  Forall (fun s => slash ∉ s) segs ->
  canonical_segments segs <> [] /\ Forall (fun s => slash ∉ s) (canonical_segments segs) /\
  clean (canonical_segments segs) /\ filter (fun s => s <> []) (canonical_segments segs) = walk [] segs.
Proof.
  intros HF. pose proof (walk_Forall (fun s => slash ∉ s) segs [] HF (Forall_nil_2 _)) as Hw.
  unfold canonical_segments. set (out := walk [] segs) in *. clearbody out.
  assert (Hs : Forall (fun s => slash ∉ s) out) by (eapply Forall_impl; [exact Hw|simpl; tauto]).
  assert (Hp : Forall proper out) by (eapply Forall_impl; [exact Hw|simpl; tauto]).
  pose proof (filter_proper out Hp) as Hf.
  case_bool_decide as Eo; [subst out|case_bool_decide as Ey; simpl].
  - split_and!; [done|repeat constructor; apply not_elem_of_nil| |done]. by repeat constructor.
  - split_and!; [done|done| |done]. split.
    + apply Forall_forall. intros s Hs'. rewrite Forall_forall in Hp. apply Hp.
      destruct (exists_last Eo) as (l & y & ->). rewrite removelast_last in Hs'. set_solver.
    + split; intros (l & ->)%last_Some; apply Forall_app in Hp as [_ Hp]; apply Forall_inv in Hp;
        by destruct Hp as (? & ? & ?).
  - split_and!; [by destruct out|apply Forall_app; split; [done|repeat constructor; apply not_elem_of_nil]| |].
    + unfold clean. by rewrite removelast_last, last_snoc.
    + rewrite filter_app, Hf. simpl. by rewrite app_nil_r.
Qed.

Lemma segments_rooted segs :
  segs <> [] -> Forall (fun s => slash ∉ s) segs -> segments (rooted segs) = segs.
Proof. intros Hn HF. unfold segments, rooted. simpl. rewrite drop_0. by apply SplitByte_JoinByte. Qed.

Lemma rooted_segments p : head p = Some slash -> rooted (segments p) = p.
Proof.
  destruct p as [|c p]; [done|]. intros [= ->]. unfold rooted, segments. simpl.
  by rewrite drop_0, JoinByte_SplitByte.
Qed.

(** A clean path is its own canonical form. *)
Lemma canonical_segments_clean segs : segs <> [] -> clean segs -> rooted (canonical_segments segs) = rooted segs.
Proof.
  intros Hne. destruct (exists_last Hne) as (l & y & ->). unfold clean. rewrite removelast_last, last_snoc.
  intros (Hp & H1 & H2). unfold canonical_segments. rewrite last_snoc. cbn [default].
  unfold walk. rewrite fold_left_app. fold (walk [] l). rewrite walk_proper by done. simpl.
  destruct (decide (y = [])) as [->|Hy].
  - unfold enter. rewrite (bool_decide_false (proper [])) by (intros [? _]; done). simpl.
    case_bool_decide as E; [by rewrite E|done].
  - assert (Py : proper y) by (repeat split; congruence). rewrite enter_proper by done.
    rewrite (bool_decide_true (proper y)) by done. rewrite bool_decide_false; [done|]. by destruct l.
Qed.

(** Once walked, a path's canonical segments walk to the same place. *)
Lemma walk_clean segs : clean segs -> walk [] segs = filter (fun s => s <> []) segs.
Proof.
  destruct (decide (segs = [])) as [->|Hne]; [done|]. destruct (exists_last Hne) as (l & y & ->).
  unfold clean. rewrite removelast_last, last_snoc. intros (Hp & H1 & H2).
  pose proof (filter_proper l Hp) as Hf.
  unfold walk. rewrite fold_left_app, filter_app, Hf. fold (walk [] l). rewrite walk_proper by done. simpl.
  rewrite filter_cons, filter_nil. case_decide as E.
  - apply enter_proper. repeat split; congruence.
  - subst y. by rewrite app_nil_r.
Qed.

(** ** Theorem *)

(** C10: on every rooted path the fast check never changes the answer; the result
    is a fixed point without empty, [.] or [..] segments before its end; and it
    leads where the original path leads, by exactly its own segments, so a
    location matched on the canonical path is the one whose content a handler
    that resolves dot segments would serve. *)
Theorem canonicalPath_canonical (p : gostring) :
  head p = Some slash ->
  canonicalPath p = canonical_slow p /\
  needsCanonical (canonicalPath p) = false /\
  canonicalPath (canonicalPath p) = canonicalPath p /\
  resolve (canonicalPath p) = resolve p /\
  filter (fun s => s <> []) (segments (canonicalPath p)) = resolve p.
Proof.
  intros Hh. assert (Hs : segments p <> []).
  { unfold segments. destruct (SplitByte_cons (drop 1 p) slash) as (x & l & ->). done. }
  pose proof (SplitByte_notin (drop 1 p) slash) as HF. fold (segments p) in HF.
  assert (Hslow : canonicalPath p = canonical_slow p).
  { unfold canonicalPath. destruct p as [|c p']; [done|]. injection Hh as ->. simpl.
    destruct (needsCanonical (slash :: p')) eqn:E; [done|]. simpl.
    rewrite canonical_slow_rooted. rewrite <- (rooted_segments (slash :: p') eq_refl) in E |- * at 1.
    apply needsCanonical_clean in E; [|done|done]. by rewrite canonical_segments_clean. }
  destruct (canonical_segments_ok _ HF) as (K1 & K2 & K3 & K4).
  assert (Hn : needsCanonical (canonicalPath p) = false).
  { rewrite Hslow, canonical_slow_rooted. by apply needsCanonical_clean. }
  split_and!; [done|done| | |].
  - unfold canonicalPath at 1. rewrite Hn. destruct (canonicalPath p); [done|].
    by rewrite orb_true_r.
  - unfold resolve at 1. rewrite Hslow, canonical_slow_rooted, segments_rooted by done.
    rewrite walk_clean by done. done.
  - by rewrite Hslow, canonical_slow_rooted, segments_rooted.
Qed.

Lemma canonicalPath_canonical_witness :
  canonicalPath (str "/public/../admin/") = str "/admin/" /\
  resolve (canonicalPath (str "/public/../admin/")) = [str "admin"].
Proof.
  destruct (canonicalPath_canonical (str "/public/../admin/") eq_refl) as (_ & _ & _ & E & _).
  split; [reflexivity|]. rewrite E. reflexivity.
Defined.
