(* ===== verification/Cors.v ===== *)
(** * CORS and response policy (src/internal/middleware/cors.go, preflight.go,
      responsepolicy.go)

    The compiled policy of a location, the preflight test and decision, the
    decoration of ordinary responses, and the writer that applies a location's
    response policy once, at the first final status. *)

From S2P Require Import Prelude GoStrings Netip Http.

(** ** The compiled policy *)

Record CORSConfig := MkCORSConfig {
  cc_Enabled : bool;
  cc_AllowedOrigins : list gostring;
  cc_AllowedMethods : option (list gostring);
  cc_AllowedHeaders : list gostring;
  cc_ExposedHeaders : list gostring;
  cc_AllowCredentials : bool;
  cc_MaxAge : option Z
}.

Record CORSPolicy := MkCORSPolicy {
  wildcard : bool;
  origins : gset (list Z);
  allowCredentials : bool;
  allowedMethods : list gostring;
  allowedMethodSet : gset (list Z);
  allowedHeaders : list gostring;
  allowedHeaderSet : gset (list Z);
  exposedHeaders : list gostring;
  maxAgeSeconds : option Z
}.

Definition defaultCORSMethods : list gostring := [str "GET"; str "HEAD"; str "POST"].
Definition maxPreflightRequestHeaders : Z := 64.

Definition star : gostring := str "*".
Definition hOrigin : gostring := str "Origin".
Definition hVary : gostring := str "Vary".
Definition hACRM : gostring := str "Access-Control-Request-Method".
Definition hACRH : gostring := str "Access-Control-Request-Headers".
Definition hACAO : gostring := str "Access-Control-Allow-Origin".
Definition hACAM : gostring := str "Access-Control-Allow-Methods".
Definition hACAH : gostring := str "Access-Control-Allow-Headers".
Definition hACMA : gostring := str "Access-Control-Max-Age".
Definition hACAC : gostring := str "Access-Control-Allow-Credentials".
Definition hACEH : gostring := str "Access-Control-Expose-Headers".

(** The fields of a policy are read through [int(d.Seconds())], whole seconds. *)
Definition isCORSToken (s : gostring) : bool := negb (bool_decide (s = [])) && forallb token_byte s.

Definition JoinComma (l : list gostring) : gostring :=
  match l with [] => [] | x :: l => x ++ concat (map (fun y => str ", " ++ y) l) end.

Section Cors.
Context `{Unicode}.

Definition CompileCORS (c : option CORSConfig) : option CORSPolicy :=
  match c with
  | None => None
  | Some c =>
      if negb (cc_Enabled c) then None
      else
        let wild := existsb (string_eqb star) (cc_AllowedOrigins c) in
        let methods := default defaultCORSMethods (cc_AllowedMethods c) in
        Some (MkCORSPolicy wild
          (if wild then ∅ else list_to_set (map ToLower (cc_AllowedOrigins c)))
          (cc_AllowCredentials c)
          methods (list_to_set (map ToUpper methods))
          (cc_AllowedHeaders c) (list_to_set (map CanonicalHeaderKey (cc_AllowedHeaders c)))
          (cc_ExposedHeaders c) (cc_MaxAge c))
  end.

(** ** Preflights *)

Definition IsPreflight (r : Request) : bool :=
  string_eqb (r_Method r) (str "OPTIONS") &&
  bool_decide (length (header_Values (r_Header r) hOrigin) = 1%nat) &&
  match header_Values (r_Header r) hACRM with
  | [m] => isCORSToken m
  | _ => false
  end.

(** The inner loop over the tokens of one line; [None] is a refusal. *)
Fixpoint approved_tokens (p : CORSPolicy) (toks : list gostring) (total : Z) : option Z :=
  match toks with
  | [] => Some total
  | tok :: toks =>
      let tok := TrimSpace tok in
      if negb (isCORSToken tok) then None
      else if maxPreflightRequestHeaders <? total + 1 then None
      else if bool_decide (CanonicalHeaderKey tok ∈ allowedHeaderSet p)
           then approved_tokens p toks (total + 1) else None
  end.

Fixpoint approved_lines (p : CORSPolicy) (values : list gostring) (total : Z) : bool :=
  match values with
  | [] => true
  | v :: values =>
      match approved_tokens p (SplitByte v 44) total with
      | Some total => approved_lines p values total
      | None => false
      end
  end.

Definition requestedHeadersApproved (p : CORSPolicy) (values : list gostring) : bool :=
  approved_lines p values 0.

Definition EvaluatePreflight (p : CORSPolicy) (r : Request) : option gostring :=
  let origin := header_Get (r_Header r) hOrigin in
  if negb (wildcard p) && negb (bool_decide (ToLower origin ∈ origins p)) then None
  else if negb (bool_decide (ToUpper (header_Get (r_Header r) hACRM) ∈ allowedMethodSet p)) then None
  else if negb (requestedHeadersApproved p (header_Values (r_Header r) hACRH)) then None
  else Some (if wildcard p then star else origin).

Definition WritePreflightResponse (p : CORSPolicy) (h : Header) (grantOrigin : gostring) : Header * Z :=
  let h := header_Set h hACAO grantOrigin in
  let h := if bool_decide (allowedMethods p = []) then h
           else header_Set h hACAM (JoinComma (allowedMethods p)) in
  let h := if bool_decide (allowedHeaders p = []) then h
           else header_Set h hACAH (JoinComma (allowedHeaders p)) in
  let h := match maxAgeSeconds p with Some n => header_Set h hACMA (Itoa n) | None => h end in
  let h := if allowCredentials p then header_Set h hACAC (str "true") else h in
  let vary := (if wildcard p then [] else [hOrigin]) ++ [hACRM; hACRH] in
  (header_Set h hVary (JoinComma vary), 204).

(** ** Ordinary responses *)

Definition addVary (h : Header) (value : gostring) : Header :=
  if existsb (fun v => string_eqb v star || EqualFold v value) (header_Values h hVary) then h
  else header_Add h hVary value.

Definition grantPrefix : gostring := str "Access-Control-".

Definition strip_grants (h : Header) : Header :=
  filter (fun kv => HasPrefix kv.1 grantPrefix = false) h.

Definition ApplyToResponse (p : CORSPolicy) (h : Header) (r : Request) : Header :=
  let h := strip_grants h in
  let expose h := if bool_decide (exposedHeaders p = []) then h
                  else header_Set h hACEH (JoinComma (exposedHeaders p)) in
  if wildcard p then expose (header_Set h hACAO star)
  else
    let h := addVary h hOrigin in
    match header_Values (r_Header r) hOrigin with
    | [o] =>
        if bool_decide (ToLower o ∈ origins p) then
          let h := header_Set h hACAO o in
          expose (if allowCredentials p then header_Set h hACAC (str "true") else h)
        else h
    | _ => h
    end.

(** ** What a preflight must ask for *)

(** The field names a preflight lists, over all its lines. *)
Definition requested (values : list gostring) : list gostring :=
  map TrimSpace (concat (map (fun v => SplitByte v 44) values)).

Definition allowed_header (p : CORSPolicy) (tok : gostring) : Prop :=
  isCORSToken tok = true /\ CanonicalHeaderKey tok ∈ allowedHeaderSet p.

Lemma approved_tokens_spec p toks total n :
  0 <= total <= maxPreflightRequestHeaders ->
  approved_tokens p toks total = Some n <->
  Forall (allowed_header p) (map TrimSpace toks) /\ n = total + Z.of_nat (length toks) /\
  n <= maxPreflightRequestHeaders.
Proof.
  revert total. induction toks as [|tok toks IH]; intros total Ht.
  - simpl. split; [intros [= <-]; split_and!; [constructor|lia|lia]|]. intros (_ & -> & _). f_equal. lia.
  - cbn [approved_tokens map length]. rewrite Forall_cons. unfold allowed_header at 1.
    destruct (isCORSToken (TrimSpace tok)); simpl; [|split; [done|by intros ([[] _] & _)]].
    destruct (maxPreflightRequestHeaders <? total + 1) eqn:E; [split; [done|lia]|].
    case_bool_decide as Ec; [|split; [done|by intros ([[_ ?] _] & _)]].
    rewrite IH by lia. split; [intros (H1 & H2 & H3)|intros ([_ H1] & H2 & H3)]; split_and!; done || lia.
Qed.

Lemma approved_lines_spec p values total :
  0 <= total <= maxPreflightRequestHeaders ->
  approved_lines p values total = true <->
  Forall (allowed_header p) (requested values) /\
  total + Z.of_nat (length (requested values)) <= maxPreflightRequestHeaders.
Proof.
  unfold requested. revert total. induction values as [|v values IH]; intros total Ht; cbn [approved_lines map concat].
  - split; [intros _; split; [constructor|simpl; lia]|done].
  - rewrite map_app, Forall_app, length_app, !length_map.
    destruct (approved_tokens p (SplitByte v 44) total) as [n|] eqn:E.
    + apply approved_tokens_spec in E as (H1 & -> & H2); [|done].
      rewrite IH by lia. rewrite length_map, Nat2Z.inj_add. split; [intros [Ha Hb]|intros [[_ Ha] Hb]];
        split_and!; done || lia.
    + split; [done|]. intros ([H1 H2] & H3). exfalso.
      assert (E' : approved_tokens p (SplitByte v 44) total = Some (total + Z.of_nat (length (SplitByte v 44)))).
      { apply approved_tokens_spec; [done|]. split_and!; [done|done|lia]. }
      congruence.
Qed.

(** ** What a response grants *)

(** The origin a response is granted to. *)
Definition granted (p : CORSPolicy) (r : Request) : option gostring :=
  if wildcard p then Some star
  else match header_Values (r_Header r) hOrigin with
       | [o] => if bool_decide (ToLower o ∈ origins p) then Some o else None
       | _ => None
       end.

Lemma strip_lookup (h : Header) k :
  strip_grants h !! k = if HasPrefix k grantPrefix then None else h !! k.
Proof.
  unfold strip_grants. rewrite map_lookup_filter. destruct (h !! k) as [v|]; simpl; [|by destruct (HasPrefix _ _)].
  destruct (HasPrefix k grantPrefix) eqn:E; case_guard; simpl in *; congruence.
Qed.

Lemma addVary_lookup h v k : k <> hVary -> addVary h v !! k = h !! k.
Proof.
  intros Hk. unfold addVary. destruct (existsb _ _); [done|]. unfold header_Add.
  rewrite lookup_insert_ne; [done|]. by change (CanonicalHeaderKey hVary) with hVary.
Qed.

Lemma addVary_covers h value : EqualFold value value = true ->
  exists v, v ∈ header_Values (addVary h value) hVary /\ (v = star \/ EqualFold v value = true).
Proof.
  intros Hv. unfold addVary. destruct (existsb _ _) eqn:E.
  - apply existsb_exists in E as (v & Hin & E). exists v. rewrite list_elem_of_In. split; [done|].
    apply orb_true_iff in E as [E|E]; [left|by right]. by apply bool_decide_eq_true in E.
  - exists value. split; [|by right]. unfold header_Values at 1, header_Add.
    rewrite lookup_insert_eq. simpl. set_solver.
Qed.

(** Case analysis on which field is looked up. *)
Ltac field_cases :=
  repeat case_decide; simplify_eq;
  repeat match goal with H : HasPrefix ?x ?y = _ |- context [HasPrefix ?x ?y] => rewrite H end; try done;
  repeat match goal with |- context [HasPrefix ?x ?y] => destruct (HasPrefix x y) end; congruence.

Lemma ApplyToResponse_lookup p h r k :
  ApplyToResponse p h r !! k =
  if decide (k = hVary) then (if wildcard p then h else addVary (strip_grants h) hOrigin) !! k
  else if HasPrefix k grantPrefix then
    g ← granted p r;
    if decide (k = hACAO) then Some [g]
    else if decide (k = hACAC) then
      if negb (wildcard p) && allowCredentials p then Some [str "true"] else None
    else if decide (k = hACEH) then
      if bool_decide (exposedHeaders p = []) then None else Some [JoinComma (exposedHeaders p)]
    else None
  else h !! k.
Proof.
  assert (HP : HasPrefix hACAO grantPrefix = true /\ HasPrefix hACAC grantPrefix = true /\
               HasPrefix hACEH grantPrefix = true /\ HasPrefix hVary grantPrefix = false) by done.
  destruct HP as (P1 & P2 & P3 & P4).
  unfold ApplyToResponse, granted. destruct (wildcard p); simpl.
  - case_bool_decide; repeat rewrite set_field by reflexivity; rewrite strip_lookup; field_cases.
  - assert (Hb : addVary (strip_grants h) hOrigin !! k =
      if decide (k = hVary) then addVary (strip_grants h) hOrigin !! k
      else if HasPrefix k grantPrefix then None else h !! k).
    { case_decide; [done|]. by rewrite addVary_lookup, strip_lookup. }
    destruct (header_Values (r_Header r) hOrigin) as [|o [|o' l]]; simpl; [exact Hb| |exact Hb].
    destruct (bool_decide (ToLower o ∈ origins p)); simpl; [|exact Hb].
    case_bool_decide; destruct (allowCredentials p); repeat rewrite set_field by reflexivity; rewrite Hb; field_cases.
Qed.
End Cors.

(** ** The response policy writer (responsepolicy.go) *)

Record responseHeaderOp := MkHeaderOp { op_op : gostring; op_name : gostring; op_value : gostring }.

Definition apply_op (h : Header) (o : responseHeaderOp) : Header :=
  if string_eqb (op_op o) (str "add") then header_Add h (op_name o) (op_value o)
  else if string_eqb (op_op o) (str "set") then header_Set h (op_name o) (op_value o)
  else if string_eqb (op_op o) (str "remove") then header_Del h (op_name o)
  else h.

Definition expirationStatus (code : Z) : bool :=
  bool_decide (code ∈ [200; 201; 204; 206; 301; 302; 303; 304; 307; 308]).

(** The policy of a location, and the request it applies to. *)
Record responsePolicy := MkPolicy {
  rp_ops : list responseHeaderOp;
  rp_cors : option CORSPolicy;
  rp_expires : option Z;
  rp_req : Request
}.

(** A status delegated outward: whether the response was marked generated, the
    header map the policy found and the one it sent. *)
Record sentStatus := MkSent {
  s_now : Z; s_code : Z; s_skip : bool; s_before : Header; s_after : Header
}.

Record policyWriter := MkPolicyWriter {
  pw_header : Header;
  pw_wroteHeader : bool;
  pw_hijacked : bool;
  pw_skip : bool;
  pw_sent : list sentStatus  (** newest first *)
}.

Section Writer.
Context `{Unicode}.

(** [http.TimeFormat] of a time in nanoseconds, truncated to the second and
    shifted by a duration. *)
Variable expiresAt : Z -> Z -> gostring.

Definition applyExpiration (h : Header) (duration now : Z) : Header :=
  let h := header_Set h (str "Expires") (expiresAt now duration) in
  header_Set h (str "Cache-Control")
    (if 0 <=? duration then str "max-age=" ++ Itoa (Z.quot duration 1000000000) else str "no-cache").

Variable rp : responsePolicy.

(** The headers a final status is sent with. *)
Definition decorate (now code : Z) (h : Header) : Header :=
  let h := match rp_expires rp with
           | Some d => if expirationStatus code then applyExpiration h d now else h
           | None => h
           end in
  let h := fold_left apply_op (rp_ops rp) h in
  match rp_cors rp with
  | Some p => if code =? 101 then h else ApplyToResponse p h (rp_req rp)
  | None => h
  end.

Definition interim (code : Z) : bool := (100 <=? code) && (code <? 200) && negb (code =? 101).

Definition WriteHeader (now code : Z) (w : policyWriter) : policyWriter :=
  if pw_wroteHeader w || pw_hijacked w then w
  else if interim code then
    MkPolicyWriter (pw_header w) (pw_wroteHeader w) (pw_hijacked w) (pw_skip w)
      (MkSent now code (pw_skip w) (pw_header w) (pw_header w) :: pw_sent w)
  else
    let h := if pw_skip w then pw_header w else decorate now code (pw_header w) in
    MkPolicyWriter h true (pw_hijacked w) (pw_skip w) (MkSent now code (pw_skip w) (pw_header w) h :: pw_sent w).

(** What a handler does with the writer: change the header map, write a status,
    a body or flush, hijack the connection, or mark the response generated. *)
Inductive wop :=
| WHeader (f : Header -> Header) | WStatus (now code : Z) | WBody (now : Z) | WFlush (now : Z)
| WHijack (ok : bool) | WGenerated.

Definition writer_step (w : policyWriter) (o : wop) : policyWriter :=
  match o with
  | WHeader f => MkPolicyWriter (f (pw_header w)) (pw_wroteHeader w) (pw_hijacked w) (pw_skip w) (pw_sent w)
  | WStatus now code => WriteHeader now code w
  | WBody now | WFlush now =>
      if pw_hijacked w then w else if pw_wroteHeader w then w else WriteHeader now 200 w
  | WHijack ok =>
      MkPolicyWriter (pw_header w) (pw_wroteHeader w) (ok || pw_hijacked w) (pw_skip w) (pw_sent w)
  | WGenerated => MkPolicyWriter (pw_header w) (pw_wroteHeader w) (pw_hijacked w) true (pw_sent w)
  end.

Definition writer_run (h : Header) (ops : list wop) : policyWriter :=
  fold_left writer_step ops (MkPolicyWriter h false false false []).

Definition sent_ok (s : sentStatus) : Prop :=
  s_after s = if interim (s_code s) || s_skip s then s_before s
              else decorate (s_now s) (s_code s) (s_before s).

(** The log while no final status has been written, and after. *)
Definition writer_inv (w : policyWriter) : Prop :=
  Forall sent_ok (pw_sent w) /\
  exists finals interims, pw_sent w = finals ++ interims /\
    Forall (fun s => interim (s_code s) = true) interims /\
    Forall (fun s => interim (s_code s) = false) finals /\
    length finals = if pw_wroteHeader w then 1%nat else 0%nat.

Lemma WriteHeader_inv now code w : writer_inv w -> writer_inv (WriteHeader now code w).
Proof.
  intros (H1 & fs & ints & H2 & H3 & H4 & H5). unfold WriteHeader.
  destruct (pw_wroteHeader w || pw_hijacked w) eqn:E; [repeat split; [done|by exists fs, ints]|].
  apply orb_false_iff in E as [E _]. rewrite E in H5. destruct fs as [|f fs]; [|done]. simpl in H2.
  destruct (interim code) eqn:Ei; split; simpl.
  - constructor; [|done]. unfold sent_ok. simpl. by rewrite Ei.
  - exists [], (MkSent now code (pw_skip w) (pw_header w) (pw_header w) :: pw_sent w). rewrite H2, E.
    split_and!; [done|by constructor|done|done].
  - constructor; [|done]. unfold sent_ok. simpl. by rewrite Ei.
  - eexists [_], (pw_sent w). split_and!; [done|by rewrite H2| |done]. by repeat constructor.
Qed.

Lemma writer_step_inv w o : writer_inv w -> writer_inv (writer_step w o).
Proof.
  intros HI. destruct o; simpl; try done.
  - by apply WriteHeader_inv.
  - destruct (pw_hijacked w); [done|]. destruct (pw_wroteHeader w); [done|]. by apply WriteHeader_inv.
  - destruct (pw_hijacked w); [done|]. destruct (pw_wroteHeader w); [done|]. by apply WriteHeader_inv.
Qed.
End Writer.

(** ** Theorems *)

Section Theorems.
Context `{Unicode}.

(** A preflight is approved exactly when its origin is listed (or the policy
    is the wildcard), its method is allowed up to case, and every field name it
    lists over all its lines is a token that is allowed up to case, at most 64
    of them; the origin granted is the request's own, or [*]. *)
Theorem preflight_exact (c : CORSConfig) (p : CORSPolicy) (r : Request) (g : gostring) :
  CompileCORS (Some c) = Some p ->
  let origin := header_Get (r_Header r) hOrigin in
  let names := requested (header_Values (r_Header r) hACRH) in
  EvaluatePreflight p r = Some g <->
  (star ∈ cc_AllowedOrigins c \/ ToLower origin ∈ map ToLower (cc_AllowedOrigins c)) /\
  ToUpper (header_Get (r_Header r) hACRM) ∈
    map ToUpper (default defaultCORSMethods (cc_AllowedMethods c)) /\
  Forall (fun n => isCORSToken n = true /\
                   CanonicalHeaderKey n ∈ map CanonicalHeaderKey (cc_AllowedHeaders c)) names /\
  Z.of_nat (length names) <= maxPreflightRequestHeaders /\
  g = (if bool_decide (star ∈ cc_AllowedOrigins c) then star else origin).
Proof.
  unfold CompileCORS. destruct (cc_Enabled c); [|done]. intros [= <-]. cbv zeta.
  assert (Hw : existsb (string_eqb star) (cc_AllowedOrigins c) = bool_decide (star ∈ cc_AllowedOrigins c)).
  { apply eq_bool_prop_intro. rewrite !Is_true_true, bool_decide_eq_true, existsb_exists.
    setoid_rewrite list_elem_of_In. unfold string_eqb. setoid_rewrite bool_decide_eq_true. naive_solver. }
  rewrite Hw. unfold EvaluatePreflight, requestedHeadersApproved. cbn [wildcard origins allowedMethodSet].
  match goal with |- context [approved_lines ?q ?v 0] =>
    pose proof (approved_lines_spec q v 0 ltac:(done)) as HL end.
  unfold allowed_header in HL. cbn [allowedHeaderSet] in HL.
  setoid_rewrite elem_of_list_to_set in HL.
  destruct (approved_lines _ _ 0).
  2:{ split; [by repeat (case_match; try done)|]. intros (_ & _ & H1 & H2 & _). exfalso.
      by apply diff_false_true, HL. }
  destruct (proj1 HL eq_refl) as [H1 H2]. clear HL. rewrite Z.add_0_l in H2.
  rewrite (bool_decide_ext (ToUpper _ ∈ list_to_set _) _ (elem_of_list_to_set _ _)).
  case_bool_decide as E1; simpl.
  - case_bool_decide as E2; simpl; [|split; [done|tauto]].
    split; [intros [= <-]; split_and!; auto|by intros (_ & _ & _ & _ & ->)].
  - rewrite (bool_decide_ext (ToLower _ ∈ list_to_set _) _ (elem_of_list_to_set _ _)).
    case_bool_decide as E2; simpl; [|split; [done|tauto]].
    case_bool_decide as E3; simpl; [|split; [done|tauto]].
    split; [intros [= <-]; split_and!; auto|by intros (_ & _ & _ & _ & ->)].
Qed.

(** A decorated response carries no cross-origin grant but the policy's own,
    whatever the upstream set: the allowed origin is the request's single listed
    [Origin] (or [*] under the wildcard, never with credentials), an ungranted
    response has no [Access-Control-] field at all, a policy that depends on the
    origin says so in [Vary], and every other field is left alone. *)
Theorem ApplyToResponse_grants (p : CORSPolicy) (h : Header) (r : Request) :
  let h' := ApplyToResponse p h r in
  h' !! hACAO = (fun g => [g]) <$> granted p r /\
  (h' !! hACAC <> None -> wildcard p = false /\ allowCredentials p = true /\ granted p r <> None) /\
  (forall k, HasPrefix k grantPrefix = true -> h' !! k <> None ->
     granted p r <> None /\ k ∈ [hACAO; hACAC; hACEH]) /\
  (wildcard p = false -> exists v, v ∈ header_Values h' hVary /\ (v = star \/ EqualFold v hOrigin = true)) /\
  (forall k, HasPrefix k grantPrefix = false -> k <> hVary -> h' !! k = h !! k) /\
  (wildcard p = true -> h' !! hVary = h !! hVary).
Proof.
  cbv zeta. split_and!.
  - rewrite ApplyToResponse_lookup. change (HasPrefix hACAO grantPrefix) with true.
    rewrite decide_False by done. cbn iota. by destruct (granted p r).
  - rewrite ApplyToResponse_lookup. change (HasPrefix hACAC grantPrefix) with true.
    rewrite decide_False by done. cbn iota. destruct (granted p r); simpl; [|done].
    by destruct (wildcard p), (allowCredentials p).
  - intros k Hk. rewrite ApplyToResponse_lookup, Hk, decide_False by (by intros ->).
    destruct (granted p r); simpl; [|done]. repeat case_decide; subst; try done; intros _; split; set_solver.
  - intros Hw. destruct (addVary_covers (strip_grants h) hOrigin eq_refl) as (v & Hv & Hv'). exists v. split; [|done].
    unfold header_Values in *. change (CanonicalHeaderKey hVary) with hVary in *.
    by rewrite ApplyToResponse_lookup, decide_True, Hw.
  - intros k Hk Hv. by rewrite ApplyToResponse_lookup, Hk, decide_False.
  - intros Hw. by rewrite ApplyToResponse_lookup, decide_True, Hw.
Qed.

(** Whatever a handler does with the writer, at most one final status leaves
    it, after every interim one; interim statuses go out with the handler's own
    headers, and the final one with the response policy applied exactly once to
    them, unless the response was marked as generated. *)
Theorem response_policy_once (expiresAt : Z -> Z -> gostring) (rp : responsePolicy) (h : Header) (ops : list wop) :
  let w := writer_run expiresAt rp h ops in
  Forall (sent_ok expiresAt rp) (pw_sent w) /\
  exists finals interims, pw_sent w = finals ++ interims /\
    Forall (fun s => interim (s_code s) = true) interims /\
    Forall (fun s => interim (s_code s) = false) finals /\
    length finals = if pw_wroteHeader w then 1%nat else 0%nat.
Proof.
  cbv zeta. unfold writer_run.
  assert (HI : writer_inv expiresAt rp (MkPolicyWriter h false false false [])).
  { split; [constructor|]. by exists [], []. }
  revert HI. generalize (MkPolicyWriter h false false false []).
  induction ops as [|o ops IH]; intros w HI; [exact HI|]. simpl. by apply IH, writer_step_inv.
Qed.
End Theorems.

Definition demo_cors : CORSConfig :=
  MkCORSConfig true [str "https://a.example"] None [str "X-Token"] [] true None.

Definition demo_preflight : Request :=
  MkRequest (str "OPTIONS") (str "api.example") (str "/v1") [] [] (str "/v1")
    (list_to_map [(hOrigin, [str "https://A.example"]); (hACRM, [str "post"]); (hACRH, [str "x-token, X-TOKEN"])])
    true.

Lemma preflight_exact_witness :
  match CompileCORS (H := no_unicode) (Some demo_cors) with
  | Some p => EvaluatePreflight (H := no_unicode) p demo_preflight = Some (str "https://A.example")
  | None => False
  end.
Proof.
  destruct (CompileCORS (H := no_unicode) (Some demo_cors)) as [p|] eqn:E; [|by vm_compute in E].
  apply (preflight_exact (H := no_unicode) demo_cors p demo_preflight (str "https://A.example") E).
  split_and!; [right; by vm_compute; left|vm_compute; set_solver| |by vm_compute|by vm_compute].
  by repeat constructor; vm_compute.
Defined.
