(* ===== verification/Router.v ===== *)
(** * Request routing (src/internal/router)

    Server selection by host, location selection by path and predicates, the
    bounded query parser, rewrites, and the dry run that explains a selection.
    Compiled regular expressions are a parameter: a pattern is the functions its
    [regexp.Regexp] offers. *)

From S2P Require Import Prelude GoStrings Netip Http Cors CanonicalPath.

Record Regexp := MkRegexp {
  MatchString : gostring -> bool;
  ReplaceAllString : gostring -> gostring -> gostring
}.

(** ** Hosts (host.go, middleware.CanonicalHTTPHost) *)

Definition port_value (port : gostring) : Z := fold_left (fun v c => 10 * v + (c - 48)) port 0.

(** [strconv.Atoi] on digits fails only past the range of an int, where the value
    is over the limit anyway. *)
Definition validHTTPHostPort (port : gostring) : bool :=
  negb (bool_decide (port = [])) && forallb is_digit port && (port_value port <=? 65535).

Definition countByte (s : gostring) (c : Z) : nat := length (filter (fun b => b = c) s).

Section Hosts.
Context `{Unicode}.

Definition CanonicalHTTPHost (host : gostring) : gostring :=
  let host := ToLower (TrimSpace host) in
  if HasPrefix host (str "[") then
    match IndexByte host 93 with
    | Some e =>
        let rest := drop (S e) host in
        if bool_decide (rest = []) || (HasPrefix rest (str ":") && validHTTPHostPort (drop 1 rest))
        then take (S e) host else []
    | None => []
    end
  else
    let finish host :=
      let host := TrimSuffix host (str ".") in
      if HasPrefix host (str ".") || HasSuffix host (str ".") || Contains host (str "..") then [] else host in
    match LastIndexByte host 58 with
    | Some e =>
        if negb (bool_decide (countByte host 58 = 1%nat)) || negb (validHTTPHostPort (drop (S e) host)) then []
        else finish (take e host)
    | None => finish host
    end.

Definition normalizeHost : gostring -> gostring := CanonicalHTTPHost.

Definition needsServerNameNormalization (name : gostring) : bool :=
  match name with
  | [] => false
  | c :: _ =>
      let e := default 0 (last name) in
      (c <=? 32) || (e <=? 32) || (e =? 46) ||
      existsb (fun c => ((65 <=? c) && (c <=? 90)) || (128 <=? c)) name
  end.

Definition normalizeServerName (name : gostring) : gostring :=
  if negb (needsServerNameNormalization name) then name
  else TrimSuffix (ToLower (TrimSpace name)) (str ".").

Definition normalizeServerNames (names : list gostring) : list gostring := map normalizeServerName names.

(** The loop of both scores: 3 exact, 2 wildcard, 0 none. *)
Fixpoint score_loop (norm : gostring -> gostring) (names : list gostring) (host : gostring) (best : Z) : Z :=
  match names with
  | [] => best
  | name :: names =>
      let name := norm name in
      if string_eqb name host then 3
      else if HasPrefix name (str "*.") then
        let suffix := drop 1 name in
        if bool_decide (length suffix < length host)%nat && HasSuffix host suffix
        then score_loop norm names host (if best <? 2 then 2 else best)
        else score_loop norm names host best
      else score_loop norm names host best
  end.

Definition hostScore (names : list gostring) (host : gostring) : Z :=
  score_loop normalizeServerName names host 0.
Definition normalizedHostScore (names : list gostring) (host : gostring) : Z :=
  score_loop id names host 0.
End Hosts.

(** ** Predicates (predicates.go) *)

Record compiledHeaderPredicate := MkHeaderPred {
  hp_name : gostring; hp_op : gostring; hp_value : gostring; hp_re : option Regexp
}.
Record compiledQueryPredicate := MkQueryPred { qp_name : gostring; qp_op : gostring; qp_value : gostring }.

Record compiledPredicates := MkPredicates {
  cp_methods : option (list gostring);
  cp_acceptsHEAD : bool;
  cp_preflightWidening : bool;
  cp_headers : list compiledHeaderPredicate;
  cp_query : list compiledQueryPredicate
}.

Inductive predicateFailure := NoFailure | MethodFailure | HeaderFailure (i : nat) | QueryFailure (i : nat).

Definition MaxQueryPairsParsed : nat := 1024.

Definition hex_value (c : Z) : option Z :=
  if (48 <=? c) && (c <=? 57) then Some (c - 48)
  else if (97 <=? c) && (c <=? 102) then Some (c - 87)
  else if (65 <=? c) && (c <=? 70) then Some (c - 55)
  else None.

(** [url.QueryUnescape]; [None] is a malformed escape. *)
Fixpoint QueryUnescape (s : gostring) : option gostring :=
  match s with
  | [] => Some []
  | 37 :: s =>
      match s with
      | a :: b :: s => x ← hex_value a; y ← hex_value b; t ← QueryUnescape s; Some ((16 * x + y) :: t)
      | _ => None
      end
  | c :: s => t ← QueryUnescape s; Some ((if c =? 43 then 32 else c) :: t)
  end.

Record queryPair := MkPair { q_name : gostring; q_value : gostring }.

(** One pair of the query; [None] when it is empty or unusable. *)
Definition parse_pair (kv : gostring) : option queryPair :=
  if bool_decide (kv = []) then None
  else if bool_decide (59 ∈ kv) then None
  else
    let '(name, value, _) := CutByte kv 61 in
    n ← QueryUnescape name; v ← QueryUnescape value; Some (MkPair n v).

(** The loop, over at most [n] more pairs. *)
Fixpoint parse_loop (n : nat) (raw : gostring) : list queryPair :=
  match n with
  | O => []
  | S n =>
      match raw with
      | [] => []
      | _ => let '(kv, raw, _) := CutByte raw 38 in
             match parse_pair kv with Some q => q :: parse_loop n raw | None => parse_loop n raw end
      end
  end.

Definition parseBoundedQuery (raw : gostring) : list queryPair := parse_loop MaxQueryPairsParsed raw.

(** The query, parsed at most once. *)
Record requestQuery := MkQuery { rq_raw : gostring; rq_parsed : bool; rq_pairs : list queryPair }.

Definition ensureParsed (q : requestQuery) : requestQuery :=
  if rq_parsed q then q else MkQuery (rq_raw q) true (parseBoundedQuery (rq_raw q)).

Definition rq_present (q : requestQuery) (name : gostring) : requestQuery * bool :=
  let q := ensureParsed q in (q, existsb (fun p => string_eqb (q_name p) name) (rq_pairs q)).

Definition rq_hasValue (q : requestQuery) (name value : gostring) : requestQuery * bool :=
  let q := ensureParsed q in
  (q, existsb (fun p => string_eqb (q_name p) name && string_eqb (q_value p) value) (rq_pairs q)).

Definition query_match (p : compiledQueryPredicate) (q : requestQuery) : requestQuery * bool :=
  if string_eqb (qp_op p) (str "present") then rq_present q (qp_name p)
  else if string_eqb (qp_op p) (str "exact") then rq_hasValue q (qp_name p) (qp_value p)
  else (q, false).

Definition header_match (p : compiledHeaderPredicate) (h : Header) : bool :=
  let values := header_Values h (hp_name p) in
  if string_eqb (hp_op p) (str "present") then negb (bool_decide (values = []))
  else if string_eqb (hp_op p) (str "exact") then existsb (fun v => string_eqb v (hp_value p)) values
  else if string_eqb (hp_op p) (str "regex") then
    match hp_re p with Some re => existsb (MatchString re) values | None => false end
  else false.

Definition matchMethod (p : compiledPredicates) (r : Request) : bool :=
  match cp_methods p with
  | None => true
  | Some ms =>
      existsb (string_eqb (r_Method r)) ms ||
      (cp_acceptsHEAD p && string_eqb (r_Method r) (str "HEAD")) ||
      (cp_preflightWidening p && IsPreflight r)
  end.

Fixpoint headers_match (i : nat) (ps : list compiledHeaderPredicate) (h : Header) : option nat :=
  match ps with
  | [] => None
  | p :: ps => if header_match p h then headers_match (S i) ps h else Some i
  end.

Fixpoint queries_match (i : nat) (ps : list compiledQueryPredicate) (q : requestQuery)
  : requestQuery * option nat :=
  match ps with
  | [] => (q, None)
  | p :: ps => let '(q, ok) := query_match p q in if ok then queries_match (S i) ps q else (q, Some i)
  end.

Definition predicates_match (p : option compiledPredicates) (r : Request) (q : requestQuery)
  : requestQuery * predicateFailure :=
  match p with
  | None => (q, NoFailure)
  | Some p =>
      if negb (matchMethod p r) then (q, MethodFailure)
      else match headers_match 0 (cp_headers p) (r_Header r) with
           | Some i => (q, HeaderFailure i)
           | None =>
               let '(q, f) := queries_match 0 (cp_query p) q in
               (q, match f with Some i => QueryFailure i | None => NoFailure end)
           end
  end.

(** ** Configuration and its compilation (predicates.go, location.go, router.go) *)

Record HeaderMatch := MkHeaderMatch { hm_Name : gostring; hm_Op : gostring; hm_Value : option gostring }.
Record QueryMatch := MkQueryMatch { qm_Name : gostring; qm_Op : gostring; qm_Value : option gostring }.

Record MatchConfig := MkMatchConfig {
  m_Type : gostring;
  m_Path : gostring;
  m_Methods : option (list gostring);
  m_Headers : list HeaderMatch;
  m_Query : list QueryMatch
}.

Definition HasPredicates (m : MatchConfig) : bool :=
  negb (bool_decide (default [] (m_Methods m) = [])) || negb (bool_decide (m_Headers m = [])) ||
  negb (bool_decide (m_Query m = [])).

Inductive Action :=
| ActionStatic | ActionProxy | ActionFastCGI | ActionRedirect | ActionReturn | ActionDeny
| ActionGRPCTranscode | ActionPlugin.

Record RewriteConfig := MkRewriteConfig { rw_Pattern : gostring; rw_Replacement : gostring; rw_Flag : gostring }.

(** The fields of a location that routing reads. *)
Record LocationConfig := MkLocationConfig {
  l_Match : MatchConfig;
  l_Rewrites : list RewriteConfig;
  l_CORS : option CORSConfig;
  l_Withdrawn : bool;
  l_Deny : bool;
  l_Redirect : gostring;
  l_Return : Z;
  l_ProxyPass : gostring;
  l_FastCGIPass : gostring;
  l_UWSGIPass : gostring;
  l_GRPCTranscode : bool;
  l_Plugin : gostring;
  l_Root : gostring
}.

Definition nonempty_string (s : gostring) : bool := negb (bool_decide (s = [])).

Definition actionOf (l : LocationConfig) : option Action :=
  if l_Deny l then Some ActionDeny
  else if nonempty_string (l_Redirect l) then Some ActionRedirect
  else if negb (l_Return l =? 0) then Some ActionReturn
  else if nonempty_string (l_ProxyPass l) then Some ActionProxy
  else if nonempty_string (l_FastCGIPass l) || nonempty_string (l_UWSGIPass l) then Some ActionFastCGI
  else if l_GRPCTranscode l then Some ActionGRPCTranscode
  else if nonempty_string (l_Plugin l) then Some ActionPlugin
  else if nonempty_string (l_Root l) then Some ActionStatic
  else None.

Definition LocationPreflightWidening (l : LocationConfig) : bool :=
  match l_CORS l with Some c => cc_Enabled c | None => false end && bool_decide (is_Some (m_Methods (l_Match l))).

Record compiledRewrite := MkRewrite { cr_re : Regexp; cr_replacement : gostring; cr_flag : gostring }.

Record locationRoute := MkLocationRoute {
  lr_matchType : gostring;
  lr_path : gostring;
  lr_re : option Regexp;
  lr_predicates : option compiledPredicates;
  lr_rewrites : list compiledRewrite;
  lr_withdrawn : bool;
  lr_action : Action;
  lr_index : Z
}.

Section Compile.
Context `{Unicode}.
Variable Compile : gostring -> option Regexp.

Definition compile_header (h : HeaderMatch) : option compiledHeaderPredicate :=
  let name := CanonicalHeaderKey (TrimSpace (hm_Name h)) in
  let value := default [] (hm_Value h) in
  if string_eqb (hm_Op h) (str "regex")
  then re ← Compile value; Some (MkHeaderPred name (hm_Op h) value (Some re))
  else Some (MkHeaderPred name (hm_Op h) value None).

(** [None] is a pattern that does not compile. *)
Definition compilePredicates (l : LocationConfig) : option (option compiledPredicates) :=
  let m := l_Match l in
  if negb (HasPredicates m) then Some None
  else
    hs ← mapM compile_header (m_Headers m);
    Some (Some (MkPredicates (match m_Methods m with Some [] => None | ms => ms end)
      (existsb (string_eqb (str "GET")) (default [] (m_Methods m)))
      (LocationPreflightWidening l) hs
      (map (fun q => MkQueryPred (qm_Name q) (qm_Op q) (default [] (qm_Value q))) (m_Query m)))).

Definition compileRewrites (rules : list RewriteConfig) : option (list compiledRewrite) :=
  mapM (fun r => re ← Compile (rw_Pattern r); Some (MkRewrite re (rw_Replacement r) (rw_Flag r))) rules.

(** The routing part of a location's compilation in [buildServerRoute]. *)
Definition compile_location (i : Z) (l : LocationConfig) : option locationRoute :=
  re ← (if string_eqb (m_Type (l_Match l)) (str "regex")
        then Some <$> Compile (m_Path (l_Match l)) else Some None);
  preds ← compilePredicates l;
  rewrites ← compileRewrites (l_Rewrites l);
  action ← actionOf l;
  Some (MkLocationRoute (m_Type (l_Match l)) (m_Path (l_Match l)) re preds rewrites (l_Withdrawn l) action i).
End Compile.

(** ** The selection tiers (router.go) *)

Record serverRoute := MkServerRoute {
  sr_names : list gostring;
  sr_locations : list locationRoute;
  sr_exact : list locationRoute;
  sr_exactByPath : option (gmap (list Z) (list locationRoute));
  sr_prefix : list locationRoute;
  sr_regex : list locationRoute;
  sr_root : list locationRoute;
  sr_redirectHTTPS : Z;
  sr_index : Z
}.

Definition exactMapThreshold : nat := 4.

Definition is_exact (l : locationRoute) : bool := string_eqb (lr_matchType l) (str "exact").
Definition is_regex (l : locationRoute) : bool := string_eqb (lr_matchType l) (str "regex").

(** The tier of a location: the cases of the switch, in order. *)
Definition tier (l : locationRoute) : Z :=
  if is_exact l then 1 else if is_regex l then 3
  else if string_eqb (lr_path l) (str "/") then 4 else 2.

(** A stable sort by descending path length. *)
Fixpoint insert_prefix (l : locationRoute) (ls : list locationRoute) : list locationRoute :=
  match ls with
  | [] => [l]
  | x :: ls' => if bool_decide (length (lr_path l) < length (lr_path x))%nat
                then x :: insert_prefix l ls' else l :: ls
  end.
Definition sort_prefixes (ls : list locationRoute) : list locationRoute := foldr insert_prefix [] ls.

Definition by_path (ls : list locationRoute) : gmap (list Z) (list locationRoute) :=
  fold_left (fun m l => <[lr_path l := default [] (m !! lr_path l) ++ [l]]> m) ls ∅.

Definition indexLocations (s : serverRoute) : serverRoute :=
  let of_tier t := filter (fun l => tier l = t) (sr_locations s) in
  let exact := of_tier 1 in
  MkServerRoute (sr_names s) (sr_locations s) exact
    (if bool_decide (exactMapThreshold < length exact)%nat then Some (by_path exact) else None)
    (sort_prefixes (of_tier 2)) (of_tier 3) (of_tier 4) (sr_redirectHTTPS s) (sr_index s).

(** ** Selection (matcher.go) *)

Section Visit.
Context {S : Type} (visit : Z -> locationRoute -> S -> S * bool).

(** One tier's loop: the state after it, and whether a candidate was selected. *)
Fixpoint visit_tier (t : Z) (guard : locationRoute -> bool) (ls : list locationRoute) (s : S) : S * bool :=
  match ls with
  | [] => (s, false)
  | l :: ls =>
      if guard l then
        let '(s, selected) := visit t l s in
        if selected then (s, true) else visit_tier t guard ls s
      else visit_tier t guard ls s
  end.

Definition regex_matches (path : gostring) (l : locationRoute) : bool :=
  match lr_re l with Some re => MatchString re path | None => false end.

Definition eachCandidate (sr : serverRoute) (path : gostring) (s : S) : S :=
  let '(s, selected) :=
    match sr_exactByPath sr with
    | Some m => visit_tier 1 (fun _ => true) (default [] (m !! path)) s
    | None => visit_tier 1 (fun l => string_eqb (lr_path l) path) (sr_exact sr) s
    end in
  if selected then s
  else
    let '(s, selected) := visit_tier 2 (fun l => HasPrefix path (lr_path l)) (sr_prefix sr) s in
    if selected then s
    else
      let '(s, selected) := visit_tier 3 (regex_matches path) (sr_regex sr) s in
      if selected then s
      else (visit_tier 4 (fun _ => HasPrefix path (str "/")) (sr_root sr) s).1.
End Visit.

Definition is_match (f : predicateFailure) : bool := match f with NoFailure => true | _ => false end.

Definition selectLocation (sr : serverRoute) (r : Request) : option locationRoute :=
  (eachCandidate (fun _ l '(q, sel) =>
      let '(q, f) := predicates_match (lr_predicates l) r q in
      if is_match f then ((q, Some l), true) else ((q, sel), false))
    sr (r_Path r) (MkQuery (r_RawQuery r) false [], None)).2.

(** ** Rewrites (matcher.go) *)

(** The loop that keeps a redirect on this origin. *)
Fixpoint strip_slashes (t : gostring) : gostring :=
  match t with
  | c :: t' => if (c =? 47) || (c =? 92) then strip_slashes t' else t
  | [] => []
  end.

Definition localRedirectTarget (target : gostring) : gostring :=
  match target with
  | c :: t => if c =? slash then slash :: strip_slashes t else target
  | [] => target
  end.

Definition set_path (p : gostring) (r : Request) : Request :=
  MkRequest (r_Method r) (r_Host r) p (r_RawPath r) (r_RawQuery r) (r_RequestURI r) (r_Header r) (r_TLS r).

(** The request after the rules, and the redirect they answered with, if any. *)
Fixpoint applyRewrites (rules : list compiledRewrite) (r : Request) : Request * option (Z * gostring) :=
  match rules with
  | [] => (r, None)
  | rw :: rules =>
      if negb (MatchString (cr_re rw) (r_Path r)) then applyRewrites rules r
      else
        let target := ReplaceAllString (cr_re rw) (r_Path r) (cr_replacement rw) in
        if string_eqb (cr_flag rw) (str "redirect") then (r, Some (302, localRedirectTarget target))
        else if string_eqb (cr_flag rw) (str "permanent") then (r, Some (301, localRedirectTarget target))
        else
          let r := set_path target r in
          if string_eqb (cr_flag rw) (str "last") || string_eqb (cr_flag rw) (str "break") then (r, None)
          else applyRewrites rules r
  end.

(** ** The router (router.go) *)

Record addrRouter := MkAddrRouter { ar_servers : list serverRoute; ar_def : option serverRoute }.

Record ServerConfig := MkServerConfig {
  s_Listen : gostring; s_ServerNames : list gostring; s_Locations : list LocationConfig; s_RedirectHTTPS : Z
}.

Section Router.
Context `{Unicode}.
Variable Compile : gostring -> option Regexp.

Definition buildServerRoute (i : Z) (srv : ServerConfig) : option serverRoute :=
  locs ← mapM (fun '(j, l) => compile_location Compile (Z.of_nat j) l) (imap pair (s_Locations srv));
  Some (indexLocations (MkServerRoute (normalizeServerNames (s_ServerNames srv)) locs [] None [] [] []
                          (s_RedirectHTTPS srv) i)).

Fixpoint New_loop (i : Z) (servers : list ServerConfig) (byAddr : gmap (list Z) addrRouter)
  : option (gmap (list Z) addrRouter) :=
  match servers with
  | [] => Some byAddr
  | srv :: servers =>
      if bool_decide (s_Listen srv = []) then New_loop (i + 1) servers byAddr
      else
        sr ← buildServerRoute i srv;
        let ar := default (MkAddrRouter [] None) (byAddr !! s_Listen srv) in
        let ar := MkAddrRouter (ar_servers ar ++ [sr])
                    (match ar_def ar with Some d => Some d | None => Some sr end) in
        New_loop (i + 1) servers (<[s_Listen srv := ar]> byAddr)
  end.

Definition New (servers : list ServerConfig) : option (gmap (list Z) addrRouter) := New_loop 0 servers ∅.

Definition score (s : serverRoute) (host : gostring) : Z := normalizedHostScore (sr_names s) host.

Fixpoint match_loop (h : gostring) (ss : list serverRoute) (best : option serverRoute) (bestScore : Z)
  : option serverRoute * Z :=
  match ss with
  | [] => (best, bestScore)
  | s :: ss =>
      let sc := score s h in
      if bestScore <? sc then match_loop h ss (Some s) sc else match_loop h ss best bestScore
  end.

Definition addr_match (ar : addrRouter) (host : gostring) : option serverRoute * bool :=
  let '(best, sc) := match_loop (normalizeHost host) (ar_servers ar) (ar_def ar) 0 in (best, 0 <? sc).

Definition canonicalizeRequest (r : Request) : Request :=
  let c := canonicalPath (r_Path r) in
  if string_eqb c (r_Path r) then r
  else MkRequest (r_Method r) (r_Host r) c [] (r_RawQuery r) (r_RequestURI r) (r_Header r) (r_TLS r).

Definition redirectToHTTPS (r : Request) (code : Z) : Z * gostring :=
  let code := if negb (code =? 301) && negb (code =? 308) then 301 else code in
  let host := match SplitHostPort (r_Host r) with Some (h, _) => h | None => r_Host r end in
  (code, str "https://" ++ host ++ r_RequestURI r).

(** How the handler of a listen address answers. *)
Inductive Answer :=
| NotFound
| RedirectHTTPS (code : Z) (target : gostring)
| Withdrawn (l : locationRoute)
| RewriteRedirect (l : locationRoute) (code : Z) (target : gostring)
| Serve (l : locationRoute) (r : Request).

Definition For (byAddr : gmap (list Z) addrRouter) (addr : gostring) (r : Request) : Answer :=
  match byAddr !! addr with
  | None => NotFound
  | Some ar =>
      match (addr_match ar (r_Host r)).1 with
      | None => NotFound
      | Some srv =>
          if negb (sr_redirectHTTPS srv =? 0) && negb (r_TLS r) then
            let '(code, target) := redirectToHTTPS r (sr_redirectHTTPS srv) in RedirectHTTPS code target
          else
            let r := canonicalizeRequest r in
            match selectLocation srv r with
            | None => NotFound
            | Some loc =>
                if lr_withdrawn loc then Withdrawn loc
                else match applyRewrites (lr_rewrites loc) r with
                     | (_, Some (code, target)) => RewriteRedirect loc code target
                     | (r, None) => Serve loc r
                     end
            end
      end
  end.

(** ** The dry run (explain.go) *)

Record RouteCandidate := MkCandidate {
  rc_LocationIndex : Z; rc_Tier : Z; rc_Selected : bool; rc_Rejection : predicateFailure
}.

Record Explanation := MkExplanation {
  ex_ServerMatched : bool; ex_ServerIndex : Z; ex_Candidates : list RouteCandidate; ex_Selected : Z
}.

(** The block a dry run resolves to, over the servers in some iteration order. *)
Fixpoint bestServer_loop (h : gostring) (ss : list serverRoute) (best : option (serverRoute * Z))
  : option (serverRoute * Z) :=
  match ss with
  | [] => best
  | s :: ss =>
      let sc := score s h in
      let sc := if (sc =? 0) && bool_decide (sr_names s = []) then 1 else sc in
      if sc =? 0 then bestServer_loop h ss best
      else
        let better := match best with
                      | None => true
                      | Some (b, bs) => (bs <? sc) || ((sc =? bs) && (sr_index s <? sr_index b))
                      end in
        bestServer_loop h ss (if better then Some (s, sc) else best)
  end.

(** [order] is the order in which the map of addresses is ranged over. *)
Definition bestServerForHost (order : list addrRouter) (host : gostring) : option serverRoute :=
  fst <$> bestServer_loop (normalizeHost host) (concat (map ar_servers order)) None.

Definition explain_server (srv : serverRoute) (r : Request) : Explanation :=
  let '(_, cands, sel) :=
    eachCandidate (fun t l '(q, cands, sel) =>
        let '(q, f) := predicates_match (lr_predicates l) r q in
        let c := MkCandidate (lr_index l) t (is_match f) f in
        if is_match f then ((q, cands ++ [c], Z.of_nat (length cands)), true)
        else ((q, cands ++ [c], sel), false))
      srv (canonicalPath (r_Path r)) (MkQuery (r_RawQuery r) false [], [], -1) in
  MkExplanation true (sr_index srv) cands sel.

Definition Explain (order : list addrRouter) (host : gostring) (r : Request) : Explanation :=
  match bestServerForHost order host with
  | None => MkExplanation false 0 [] (-1)
  | Some srv => explain_server srv r
  end.
End Router.
