(* ===== verification/RouterSpec.v ===== *)
(** * What routing guarantees

    Location selection against its declarative order, the dry run against the
    live path, server selection, the query parser against an encoder, and the
    targets of rewrite redirects. *)

From S2P Require Import Prelude GoStrings Netip Http Cors CanonicalPath Router.

(** ** The lazily parsed query *)

(** A query in use: its raw form, and its pairs once parsed. *)
Definition query_ok (raw : gostring) (q : requestQuery) : Prop :=
  rq_raw q = raw /\ (rq_parsed q = true -> rq_pairs q = parseBoundedQuery raw).

Definition fresh_query (raw : gostring) : requestQuery := MkQuery raw false [].

Lemma ensureParsed_pairs raw q :
  query_ok raw q -> query_ok raw (ensureParsed q) /\ rq_pairs (ensureParsed q) = parseBoundedQuery raw.
Proof.
  intros [Hr Hp]. unfold ensureParsed, query_ok. destruct (rq_parsed q) eqn:E; simpl; rewrite ?Hr, ?E; auto.
Qed.

(** Whether an earlier candidate already parsed the query does not matter. *)
Lemma query_match_cached raw q p :
  query_ok raw q ->
  query_ok raw (query_match p q).1 /\ (query_match p q).2 = (query_match p (fresh_query raw)).2.
Proof.
  intros Hq. destruct (ensureParsed_pairs raw q Hq) as [H1 H2].
  unfold query_match, rq_present, rq_hasValue. destruct (string_eqb (qp_op p) (str "present")); simpl; [by rewrite H2|].
  destruct (string_eqb (qp_op p) (str "exact")); simpl; [by rewrite H2|done].
Qed.

Lemma queries_match_cached raw i ps q q' :
  query_ok raw q -> query_ok raw q' ->
  query_ok raw (queries_match i ps q).1 /\ (queries_match i ps q).2 = (queries_match i ps q').2.
Proof.
  revert i q q'. induction ps as [|p ps IH]; intros i q q' Hq Hq'; [done|]. cbn [queries_match].
  destruct (query_match_cached raw q p Hq) as [H1 H2], (query_match_cached raw q' p Hq') as [H1' H2'].
  destruct (query_match p q) as [q1 ok], (query_match p q') as [q1' ok']. simpl in *. rewrite H2, H2'.
  destruct (query_match p (fresh_query raw)).2; [by apply IH|done].
Qed.

(** The verdict of a location's predicates on a request. *)
Definition verdict (r : Request) (l : locationRoute) : predicateFailure :=
  (predicates_match (lr_predicates l) r (fresh_query (r_RawQuery r))).2.

Lemma predicates_match_cached r l q :
  query_ok (r_RawQuery r) q ->
  query_ok (r_RawQuery r) (predicates_match (lr_predicates l) r q).1 /\
  (predicates_match (lr_predicates l) r q).2 = verdict r l.
Proof.
  intros Hq. unfold verdict, predicates_match. destruct (lr_predicates l) as [p|]; [|done].
  destruct (negb (matchMethod p r)); [done|]. destruct (headers_match 0 _ _); [done|].
  destruct (queries_match_cached (r_RawQuery r) 0 (cp_query p) q (fresh_query (r_RawQuery r)) Hq) as [H1 H2]; [done|].
  destruct (queries_match 0 (cp_query p) q) as [q1 f]. destruct (queries_match 0 _ (fresh_query _)) as [q2 f2].
  simpl in *. by rewrite H2.
Qed.

(** ** The candidates in enumeration order *)

Definition path_matches (path : gostring) (l : locationRoute) : bool :=
  if tier l =? 1 then string_eqb (lr_path l) path
  else if tier l =? 2 then HasPrefix path (lr_path l)
  else if tier l =? 3 then regex_matches path l
  else HasPrefix path (str "/").

Definition candidates (s : serverRoute) (path : gostring) : list locationRoute :=
  filter (fun l => path_matches path l = true)
    (filter (fun l => tier l = 1) (sr_locations s) ++ sort_prefixes (filter (fun l => tier l = 2) (sr_locations s)) ++
     filter (fun l => tier l = 3) (sr_locations s) ++ filter (fun l => tier l = 4) (sr_locations s)).

Section Visit.
Context {S : Type} (visit : Z -> locationRoute -> S -> S * bool).

(** Visiting a list of candidates until one is selected. *)
Fixpoint scan (ls : list locationRoute) (s : S) : S * bool :=
  match ls with
  | [] => (s, false)
  | l :: ls => let '(s, sel) := visit (tier l) l s in if sel then (s, true) else scan ls s
  end.

Lemma scan_app l1 l2 s :
  scan (l1 ++ l2) s = let '(s, sel) := scan l1 s in if sel then (s, true) else scan l2 s.
Proof.
  revert s. induction l1 as [|l l1 IH]; intros s; simpl; [done|].
  destruct (visit (tier l) l s) as [s1 []]; [done|]. apply IH.
Qed.

Lemma visit_tier_scan t guard ls s :
  Forall (fun l => tier l = t) ls ->
  visit_tier visit t guard ls s = scan (filter (fun l => guard l = true) ls) s.
Proof.
  intros HF. revert s. induction HF as [|l ls Hl _ IH]; intros s; [done|]. cbn [visit_tier].
  rewrite filter_cons. destruct (guard l); [rewrite decide_True by done|rewrite decide_False by done; apply IH].
  cbn [scan]. rewrite Hl. destruct (visit t l s) as [s1 []]; [done|]. apply IH.
Qed.
End Visit.

Lemma by_path_lookup (ls : list locationRoute) (m : gmap (list Z) (list locationRoute)) (p : list Z) :
  default [] (fold_left (fun m l => <[lr_path l := default [] (m !! lr_path l) ++ [l]]> m) ls m !! p) =
  default [] (m !! p) ++ filter (fun l => string_eqb (lr_path l) p = true) ls.
Proof.
  revert m. induction ls as [|l ls IH]; intros m; simpl; [by rewrite app_nil_r|]. rewrite IH.
  rewrite filter_cons. unfold string_eqb at 2. case_decide as D.
  - apply bool_decide_eq_true in D. rewrite D, lookup_insert_eq. simpl. by rewrite <- app_assoc.
  - rewrite lookup_insert_ne; [done|]. intros E. apply D. by apply bool_decide_eq_true.
Qed.

Lemma sort_prefixes_perm ls : sort_prefixes ls ≡ₚ ls.
Proof.
  induction ls as [|l ls IH]; simpl; [done|]. rewrite <- IH at 2. clear IH.
  induction (sort_prefixes ls) as [|x k IH]; simpl; [done|]. case_bool_decide; [|done].
  rewrite IH. constructor.
Qed.

Lemma filter_tier_all t ls : Forall (fun l => tier l = t) (filter (fun l => tier l = t) ls).
Proof. apply Forall_forall. by intros l [? _]%list_elem_of_filter. Qed.

Lemma prefix_tier ls : Forall (fun l => tier l = 2) (sort_prefixes (filter (fun l => tier l = 2) ls)).
Proof. rewrite sort_prefixes_perm. apply filter_tier_all. Qed.

Lemma filter_path_matches path t (guard : locationRoute -> bool) ls :
  Forall (fun l => tier l = t) ls -> (forall l, tier l = t -> path_matches path l = guard l) ->
  filter (fun l => path_matches path l = true) ls = filter (fun l => guard l = true) ls.
Proof.
  intros HF Hg. induction HF as [|l ls Hl _ IH]; [done|]. rewrite !filter_cons, IH.
  by rewrite (decide_ext (path_matches path l = true) (guard l = true)) by (by rewrite Hg).
Qed.

Lemma exact_tier_scan {S} (visit : Z -> locationRoute -> S -> S * bool) (b : bool) ex path st :
  Forall (fun l => tier l = 1) ex ->
  match (if b then Some (by_path ex) else None) with
  | Some m => visit_tier visit 1 (fun _ => true) (default [] (m !! path)) st
  | None => visit_tier visit 1 (fun l => string_eqb (lr_path l) path) ex st
  end = scan visit (filter (fun l => string_eqb (lr_path l) path = true) ex) st.
Proof.
  intros HF. destruct b; [|by apply visit_tier_scan]. unfold by_path. rewrite by_path_lookup, lookup_empty.
  cbn [default app]. rewrite visit_tier_scan.
  - by rewrite (list_filter_filter_r (fun _ => true = true)).
  - rewrite Forall_forall in *. intros l [_ Hl]%list_elem_of_filter. by apply HF.
Qed.

(** The four loops are one scan of the candidates, whether or not the exact
    locations are indexed by path. *)
Lemma eachCandidate_scan {S} (visit : Z -> locationRoute -> S -> S * bool) s path st :
  eachCandidate visit (indexLocations s) path st = (scan visit (candidates s path) st).1.
Proof.
  pose proof (filter_tier_all 1 (sr_locations s)) as F1.
  pose proof (prefix_tier (sr_locations s)) as F2.
  pose proof (filter_tier_all 3 (sr_locations s)) as F3.
  pose proof (filter_tier_all 4 (sr_locations s)) as F4.
  unfold candidates. rewrite !filter_app.
  rewrite (filter_path_matches path 1 (fun l => string_eqb (lr_path l) path)), (filter_path_matches path 2 (fun l => HasPrefix path (lr_path l))),
    (filter_path_matches path 3 (regex_matches path)), (filter_path_matches path 4 (fun _ => HasPrefix path (str "/")))
    by first [assumption|intros l Hl; unfold path_matches; rewrite Hl; reflexivity].
  rewrite scan_app. unfold eachCandidate. cbn [indexLocations sr_exactByPath sr_exact sr_prefix sr_regex sr_root].
  rewrite exact_tier_scan by done. destruct (scan visit _ st) as [s1 []]; [done|].
  rewrite scan_app, (visit_tier_scan visit 2) by done. destruct (scan visit _ s1) as [s2 []]; [done|].
  rewrite scan_app, (visit_tier_scan visit 3) by done. destruct (scan visit _ s2) as [s3 []]; [done|].
  by rewrite (visit_tier_scan visit 4) by done.
Qed.

(** ** The declared order of precedence *)

(** [a] is preferred to [b]: a lower tier; among prefixes the longer path; then
    the earlier declaration. *)
Definition outranks_loc (a b : locationRoute) : Prop :=
  tier a < tier b \/
  (tier a = tier b /\
   if tier a =? 2 then (length (lr_path b) < length (lr_path a))%nat \/
     (length (lr_path a) = length (lr_path b) /\ lr_index a < lr_index b)
   else lr_index a < lr_index b).

Definition declared (a b : locationRoute) : Prop := lr_index a < lr_index b.

Lemma insert_prefix_sorted l ls :
  tier l = 2 -> Forall (fun x => tier x = 2) ls -> Forall (declared l) ls ->
  StronglySorted outranks_loc ls -> StronglySorted outranks_loc (insert_prefix l ls).
Proof.
  intros Hl Ht Hd Hs. induction Hs as [|x ls Hs IH Hx]; simpl; [repeat constructor|].
  apply Forall_cons in Ht as [Htx Ht]. apply Forall_cons in Hd as [Hdx Hd]. case_bool_decide as E.
  - constructor; [by apply IH|]. apply Forall_forall. intros y Hy.
    assert (Hp : y ∈ l :: ls).
    { clear -Hy. induction ls as [|z ls IH]; simpl in Hy; [done|].
      case_bool_decide; [|done]. set_solver. }
    apply elem_of_cons in Hp as [->|Hp]; [|rewrite Forall_forall in Hx; by apply Hx].
    right. split; [lia|]. rewrite Htx. simpl. by left.
  - assert (Ho : forall y, y ∈ x :: ls -> (length (lr_path y) <= length (lr_path x))%nat).
    { intros y [->|Hy]%elem_of_cons; [done|]. rewrite Forall_forall in Hx, Ht.
      destruct (Hx y Hy) as [?|[_ Hxy]]; [specialize (Ht y Hy); simpl in Ht; lia|]. rewrite Htx in Hxy. simpl in Hxy. lia. }
    constructor; [by constructor|]. apply Forall_forall. intros y Hy. right.
    assert (Hty : tier y = 2) by (apply elem_of_cons in Hy as [->|Hy]; [done|]; rewrite Forall_forall in Ht; by apply Ht).
    split; [lia|]. rewrite Hl. simpl. specialize (Ho y Hy).
    assert (Hdy : declared l y) by (apply elem_of_cons in Hy as [->|Hy]; [done|]; rewrite Forall_forall in Hd; by apply Hd).
    unfold declared in Hdy. lia.
Qed.

Lemma sort_prefixes_sorted ls :
  Forall (fun x => tier x = 2) ls -> StronglySorted declared ls -> StronglySorted outranks_loc (sort_prefixes ls).
Proof.
  intros Ht Hs. induction Hs as [|l ls Hs IH Hl]; simpl; [constructor|]. apply Forall_cons in Ht as [Hl2 Ht].
  apply insert_prefix_sorted; [done| | |by apply IH]; by rewrite sort_prefixes_perm.
Qed.

Lemma declared_sorted t ls :
  t <> 2 -> Forall (fun x => tier x = t) ls -> StronglySorted declared ls -> StronglySorted outranks_loc ls.
Proof.
  intros Hn Ht Hs. induction Hs as [|l ls Hs IH Hl]; [constructor|]. apply Forall_cons in Ht as [Hl2 Ht].
  constructor; [by apply IH|]. apply Forall_forall. intros y Hy. rewrite Forall_forall in Hl, Ht. right.
  specialize (Ht y Hy). simpl in Ht. split; [lia|]. rewrite Hl2, (proj2 (Z.eqb_neq t 2)) by done. by apply Hl.
Qed.

Lemma StronglySorted_filter' {A} (R : A -> A -> Prop) (P : A -> Prop) `{!forall x, Decision (P x)} l :
  StronglySorted R l -> StronglySorted R (filter P l).
Proof.
  induction 1 as [|x l Hs IH Hx]; [constructor|]. rewrite filter_cons. case_decide; [|done].
  constructor; [done|]. apply Forall_forall. intros y [_ Hy]%list_elem_of_filter. rewrite Forall_forall in Hx. auto.
Qed.

Lemma StronglySorted_app_tiers l1 l2 t :
  StronglySorted outranks_loc l1 -> StronglySorted outranks_loc l2 ->
  Forall (fun l => tier l <= t) l1 -> Forall (fun l => t < tier l) l2 -> StronglySorted outranks_loc (l1 ++ l2).
Proof.
  intros S1 S2 F1 F2. induction S1 as [|x l1 S1 IH Hx]; [done|]. apply Forall_cons in F1 as [Hxt F1].
  simpl. constructor; [by apply IH|]. apply Forall_app. split; [done|].
  eapply Forall_impl; [exact F2|]. intros y Hy. simpl in Hy. left. lia.
Qed.

Lemma tier_cases l : tier l = 1 \/ tier l = 2 \/ tier l = 3 \/ tier l = 4.
Proof. unfold tier. repeat case_match; tauto. Qed.

Lemma candidates_sorted s path :
  StronglySorted declared (sr_locations s) -> StronglySorted outranks_loc (candidates s path).
Proof.
  intros Hs. unfold candidates. apply StronglySorted_filter'.
  assert (Hf : forall t, StronglySorted declared (filter (fun l => tier l = t) (sr_locations s))).
  { intros t. by apply StronglySorted_filter'. }
  assert (Ht : forall t, t <> 2 -> StronglySorted outranks_loc (filter (fun l => tier l = t) (sr_locations s))).
  { intros t Hn. apply (declared_sorted t); [done|apply filter_tier_all|done]. }
  pose proof (filter_tier_all 1 (sr_locations s)) as F1. pose proof (prefix_tier (sr_locations s)) as F2.
  pose proof (filter_tier_all 3 (sr_locations s)) as F3. pose proof (filter_tier_all 4 (sr_locations s)) as F4.
  apply (StronglySorted_app_tiers _ _ 1); [by apply Ht|apply (StronglySorted_app_tiers _ _ 2)|..].
  - apply sort_prefixes_sorted; [apply filter_tier_all|done].
  - apply (StronglySorted_app_tiers _ _ 3); [by apply Ht|by apply Ht|..];
      (eapply Forall_impl; [eassumption|]; simpl; lia).
  - eapply Forall_impl; [exact F2|]. simpl. lia.
  - apply Forall_app. split; (eapply Forall_impl; [eassumption|]; simpl; lia).
  - eapply Forall_impl; [exact F1|]. simpl. lia.
  - repeat (apply Forall_app; split); (eapply Forall_impl; [eassumption|]; simpl; lia).
Qed.

Lemma elem_of_candidates s path l :
  l ∈ candidates s path <-> l ∈ sr_locations s /\ path_matches path l = true.
Proof.
  unfold candidates. rewrite list_elem_of_filter, !elem_of_app, sort_prefixes_perm, !list_elem_of_filter.
  pose proof (tier_cases l). tauto.
Qed.

(** ** Selection *)

Lemma selectLocation_find s r :
  selectLocation (indexLocations s) r = find (fun l => is_match (verdict r l)) (candidates s (r_Path r)).
Proof.
  unfold selectLocation. rewrite eachCandidate_scan.
  assert (Hq : query_ok (r_RawQuery r) (MkQuery (r_RawQuery r) false [])) by done. revert Hq.
  generalize (MkQuery (r_RawQuery r) false []). induction (candidates s (r_Path r)) as [|l ls IH]; intros q Hq; [done|].
  cbn [scan find]. destruct (predicates_match_cached r l q Hq) as [H1 H2].
  destruct (predicates_match (lr_predicates l) r q) as [q1 f]. simpl in H1, H2. rewrite H2.
  destruct (is_match (verdict r l)); [done|]. by apply IH.
Qed.

(** A location that may take the request. *)
Definition takes (r : Request) (l : locationRoute) : Prop :=
  path_matches (r_Path r) l = true /\ verdict r l = NoFailure.

Lemma is_match_true f : is_match f = true <-> f = NoFailure.
Proof. by destruct f. Qed.

Lemma find_sorted (R : locationRoute -> locationRoute -> Prop) (p : locationRoute -> bool) ls :
  StronglySorted R ls ->
  match find p ls with
  | Some l => l ∈ ls /\ p l = true /\ forall l', l' ∈ ls -> p l' = true -> l' = l \/ R l l'
  | None => forall l, l ∈ ls -> p l = false
  end.
Proof.
  induction 1 as [|x ls Hs IH Hx]; simpl; [by intros l ?%elem_of_nil|].
  destruct (p x) eqn:E.
  - split_and!; [left|done|]. intros l' [->|Hl']%elem_of_cons _; [by left|right].
    rewrite Forall_forall in Hx. by apply Hx.
  - destruct (find p ls) as [l|].
    + destruct IH as (H1 & H2 & H3). split_and!; [by right|done|]. intros l' [->|Hl']%elem_of_cons Hp; [congruence|by apply H3].
    + intros l [->|Hl]%elem_of_cons; [done|by apply IH].
Qed.

(** The location selected is the preferred one of those that take the request. *)
Definition preferred (s : serverRoute) (r : Request) (l : locationRoute) : Prop :=
  l ∈ sr_locations s /\ takes r l /\
  forall l', l' ∈ sr_locations s -> takes r l' -> l' = l \/ outranks_loc l l'.

Lemma selectLocation_preferred s r :
  StronglySorted declared (sr_locations s) ->
  match selectLocation (indexLocations s) r with
  | Some l => preferred s r l
  | None => forall l, l ∈ sr_locations s -> ~ takes r l
  end.
Proof.
  intros Hs. rewrite selectLocation_find.
  pose proof (find_sorted outranks_loc (fun l => is_match (verdict r l)) _ (candidates_sorted s (r_Path r) Hs)) as H.
  unfold preferred.
  unfold takes. destruct (find _ _) as [l|].
  - destruct H as ([H1 H2]%elem_of_candidates & H3 & H4). apply is_match_true in H3.
    split_and!; try done. intros l' Hl' [Hp Hv]. apply H4; [by apply elem_of_candidates|by apply is_match_true].
  - intros l Hl [Hp Hv]. specialize (H l ltac:(by apply elem_of_candidates)). simpl in H. by rewrite Hv in H.
Qed.

(** ** The compiled table *)

(** A server route as [buildServerRoute] leaves it. *)
Definition built (sr : serverRoute) : Prop :=
  exists s, sr = indexLocations s /\ StronglySorted declared (sr_locations s).

Section Table.
Context `{Unicode}.
Variable Compile : gostring -> option Regexp.

Lemma compile_locations_sorted (ls : list LocationConfig) k locs :
  mapM (fun '(j, l) => compile_location Compile (Z.of_nat j) l) (imap (fun i l => ((k + i)%nat, l)) ls) = Some locs ->
  StronglySorted declared locs /\ Forall (fun l => Z.of_nat k <= lr_index l) locs.
Proof.
  revert k locs. induction ls as [|l ls IH]; intros k locs E.
  - injection E as <-. split; constructor.
  - rewrite imap_cons in E. cbn [mapM] in E.
    apply bind_Some in E as (lr & E1 & E). apply bind_Some in E as (locs' & E2 & [= <-]).
    assert (Hi : lr_index lr = Z.of_nat (k + 0)).
    { unfold compile_location in E1. repeat (apply bind_Some in E1 as (? & _ & E1)). by injection E1 as <-. }
    destruct (IH (S k) locs') as [H1 H2].
    { rewrite <- E2. f_equal. apply imap_ext. intros i x _. simpl. f_equal. lia. }
    split; [constructor; [done|]|constructor; [lia|]].
    + eapply Forall_impl; [exact H2|]. unfold declared. simpl. lia.
    + eapply Forall_impl; [exact H2|]. simpl. lia.
Qed.

Lemma buildServerRoute_built i srv sr : buildServerRoute Compile i srv = Some sr -> built sr.
Proof.
  unfold buildServerRoute. intros (locs & E & [= <-])%bind_Some.
  eexists. split; [done|]. simpl. by apply (compile_locations_sorted (s_Locations srv) 0).
Qed.

(** Every address has its servers in declaration order, the first its default. *)
Definition table_ok (byAddr : gmap (list Z) addrRouter) : Prop :=
  map_Forall (fun _ ar => Forall built (ar_servers ar) /\ ar_def ar = head (ar_servers ar) /\ ar_servers ar <> []) byAddr.

Lemma New_table_ok servers byAddr : New Compile servers = Some byAddr -> table_ok byAddr.
Proof.
  unfold New. assert (H0 : table_ok ∅) by apply map_Forall_empty. revert H0. generalize (∅ : gmap (list Z) addrRouter) 0.
  induction servers as [|srv servers IH]; intros m i Hm E; [by injection E as <-|]. cbn [New_loop] in E.
  case_bool_decide; [by apply (IH m (i + 1))|].
  apply bind_Some in E as (sr & E1 & E). apply IH in E; [done|]. apply map_Forall_insert_2; [|done].
  apply buildServerRoute_built in E1. destruct (m !! s_Listen srv) as [ar|] eqn:El; simpl; [|by repeat constructor].
  destruct (Hm _ _ El) as (H1 & H2 & H3). rewrite H2.
  split_and!; [apply Forall_app; by repeat constructor| |by destruct (ar_servers ar)].
  by destruct (ar_servers ar).
Qed.
End Table.

(** ** Servers *)

Section Servers.
Context `{Unicode}.

Lemma match_loop_spec h ss best sc :
  0 <= sc ->
  let '(b, bs) := match_loop h ss best sc in
  (b = best /\ bs = sc /\ Forall (fun s => score s h <= sc) ss) \/
  (exists i s, b = Some s /\ ss !! i = Some s /\ bs = score s h /\ sc < bs /\
     forall j s', ss !! j = Some s' -> score s' h <= bs /\ ((j < i)%nat -> score s' h < bs)).
Proof.
  revert best sc. induction ss as [|s ss IH]; intros best sc Hsc; simpl; [by left|].
  destruct (sc <? score s h) eqn:E.
  - specialize (IH (Some s) (score s h) ltac:(lia)). destruct (match_loop h ss (Some s) (score s h)) as [b bs]. right.
    destruct IH as [(-> & -> & HF)|(i & s' & -> & Hi & -> & Hlt & Hall)].
    + exists 0%nat, s. split_and!; try done; [lia|]. intros [|j] s' Hj; simpl in Hj.
      * injection Hj as <-. lia.
      * apply list_elem_of_lookup_2 in Hj. rewrite Forall_forall in HF. specialize (HF s' Hj). simpl in HF. lia.
    + exists (S i), s'. split_and!; try done; [lia|]. intros [|j] s2 Hj; simpl in Hj; [injection Hj as <-; lia|].
      destruct (Hall j s2 Hj). split; [done|]. intros. auto with lia.
  - specialize (IH best sc Hsc). destruct (match_loop h ss best sc) as [b bs].
    destruct IH as [(-> & -> & HF)|(i & s' & -> & Hi & -> & Hlt & Hall)].
    + left. split_and!; try done. constructor; [lia|done].
    + right. exists (S i), s'. split_and!; try done. intros [|j] s2 Hj; simpl in Hj; [injection Hj as <-; lia|].
      destruct (Hall j s2 Hj). split; [done|]. intros. auto with lia.
Qed.

Lemma addr_match_in byAddr addr ar host s :
  table_ok byAddr -> byAddr !! addr = Some ar -> (addr_match ar host).1 = Some s -> s ∈ ar_servers ar.
Proof.
  intros HT Ha. destruct (HT addr ar Ha) as (_ & Hdef & _). unfold addr_match.
  pose proof (match_loop_spec (normalizeHost host) (ar_servers ar) (ar_def ar) 0 ltac:(lia)) as HL.
  destruct (match_loop _ _ _ _) as [b bs]. simpl. intros ->.
  destruct HL as [(E & _)|(i & s' & [= ->] & Hi & _)]; [|by eapply list_elem_of_lookup_2].
  rewrite Hdef in E. destruct (ar_servers ar); [done|]. injection E as ->. left.
Qed.

(** How well a list of names fits a host. *)
Definition wildcard_fits (host name : gostring) : bool :=
  HasPrefix name (str "*.") && bool_decide (length (drop 1 name) < length host)%nat && HasSuffix host (drop 1 name).

Lemma score_loop_spec norm names host best :
  0 <= best <= 2 ->
  score_loop norm names host best =
  if existsb (fun n => string_eqb (norm n) host) names then 3
  else if existsb (fun n => wildcard_fits host (norm n)) names then 2 else best.
Proof.
  revert best. induction names as [|n names IH]; intros best Hb; [done|]. cbn [score_loop existsb].
  destruct (string_eqb (norm n) host); [done|]. simpl. unfold wildcard_fits at 1.
  destruct (HasPrefix (norm n) (str "*.")); simpl; [|by apply IH].
  destruct (bool_decide (length (drop 1 (norm n)) < length host)%nat && HasSuffix host (drop 1 (norm n))) eqn:E;
    rewrite IH by (destruct (best <? 2); lia); [|done].
  destruct (existsb _ names); [done|]. simpl. destruct (existsb _ names); [done|]. destruct (best <? 2) eqn:?; lia.
Qed.

(** The names as the configuration means them: trimmed, folded, without the root
    dot.  The shortcut for names already in that form is exact. *)
Definition canonical_name (name : gostring) : gostring := TrimSuffix (ToLower (TrimSpace name)) (str ".").

Lemma TrimLeft_id cut s : match s with [] => true | c :: _ => negb (cut c) end = true -> TrimLeft cut s = s.
Proof. destruct s as [|c s]; [done|]. simpl. by intros ->%negb_true_iff. Qed.

Lemma normalizeServerName_eq name : normalizeServerName name = canonical_name name.
Proof.
  unfold normalizeServerName. destruct (needsServerNameNormalization name) eqn:E; [done|]. simpl. unfold canonical_name.
  destruct name as [|c name]; [reflexivity|]. cbn [needsServerNameNormalization] in E.
  assert (Hne : c :: name <> []) by done. destruct (exists_last Hne) as (l & e & El).
  assert (Ee : default 0 (last (c :: name)) = e) by (by rewrite El, last_snoc). rewrite Ee in E. rewrite !orb_false_iff in E. destruct E as [[[E1 E2] E3] E4].
  assert (Ha : forall b, b ∈ c :: name -> b < 128 /\ ~ (65 <= b <= 90)).
  { intros b Hb. destruct ((65 <=? b) && (b <=? 90) || (128 <=? b)) eqn:Eb; [|lia]. exfalso.
    apply diff_true_false. rewrite <- E4. symmetry. apply existsb_exists. exists b. by rewrite <- list_elem_of_In. }
  assert (Has : ascii (c :: name) = true).
  { apply forallb_forall. intros b Hb%list_elem_of_In. destruct (Ha b Hb). lia. }
  unfold TrimSpace. rewrite Has. unfold Trim.
  rewrite (TrimLeft_id ascii_space (c :: name)) by (unfold ascii_space; lia).
  rewrite TrimLeft_id, rev_involutive.
  2:{ rewrite El, rev_app_distr. simpl. unfold ascii_space. lia. }
  unfold ToLower. rewrite Has.
  assert (Hl : lower_ascii (c :: name) = c :: name).
  { unfold lower_ascii. rewrite <- (map_id (c :: name)) at 2. apply map_ext_in. intros b Hb%list_elem_of_In.
    destruct (Ha b Hb). unfold lower_byte. destruct ((65 <=? b) && (b <=? 90)) eqn:?; [lia|done]. }
  rewrite Hl, El. unfold TrimSuffix, HasSuffix. rewrite rev_app_distr. simpl.
  rewrite E3. done.
Qed.

(** The score of a host, declaratively. *)
Definition fit (names : list gostring) (host : gostring) : Z :=
  if bool_decide (host ∈ names) then 3 else if existsb (wildcard_fits host) names then 2 else 0.

Lemma normalizedHostScore_fit names host : normalizedHostScore names host = fit names host.
Proof.
  unfold normalizedHostScore. rewrite score_loop_spec by lia. unfold fit, id.
  assert (E : existsb (fun n => string_eqb n host) names = bool_decide (host ∈ names)).
  { apply eq_bool_prop_intro. rewrite !Is_true_true, bool_decide_eq_true, existsb_exists.
    setoid_rewrite list_elem_of_In. unfold string_eqb. setoid_rewrite bool_decide_eq_true. naive_solver. }
  by rewrite E.
Qed.

Lemma score_loop_map norm names host best :
  score_loop norm names host best = score_loop id (map norm names) host best.
Proof.
  revert best. induction names as [|n names IH]; intros best; [done|]. cbn [score_loop map]. unfold id.
  by rewrite !IH.
Qed.

Lemma hostScore_fit names host : hostScore names host = fit (map canonical_name names) host.
Proof.
  unfold hostScore. rewrite score_loop_map. fold (normalizedHostScore (map normalizeServerName names) host).
  rewrite normalizedHostScore_fit. f_equal. apply map_ext, normalizeServerName_eq.
Qed.
End Servers.

(** ** The dry run *)

(** What the dry run reports of a visited location. *)
Definition report (r : Request) (l : locationRoute) : RouteCandidate :=
  MkCandidate (lr_index l) (tier l) (is_match (verdict r l)) (verdict r l).

(** The candidates visited: up to the first that takes the request. *)
Fixpoint visited (r : Request) (ls : list locationRoute) : list locationRoute :=
  match ls with
  | [] => []
  | l :: ls => if is_match (verdict r l) then [l] else l :: visited r ls
  end.

Lemma explain_candidates s r :
  let ex := explain_server (indexLocations s) r in
  let cs := candidates s (canonicalPath (r_Path r)) in
  ex_Candidates ex = map (report r) (visited r cs) /\
  ex_Selected ex = match find (fun l => is_match (verdict r l)) cs with
                   | Some _ => Z.of_nat (length (ex_Candidates ex)) - 1 | None => -1 end.
Proof.
  cbv zeta. unfold explain_server. rewrite eachCandidate_scan.
  set (cs := candidates s (canonicalPath (r_Path r))). clearbody cs.
  set (visit := fun t l (st : requestQuery * list RouteCandidate * Z) => _).
  assert (Hg : forall q acc sel, query_ok (r_RawQuery r) q ->
    let res := (scan visit cs (q, acc, sel)).1 in
    res.1.2 = acc ++ map (report r) (visited r cs) /\
    res.2 = match find (fun l => is_match (verdict r l)) cs with
            | Some _ => Z.of_nat (length res.1.2) - 1 | None => sel end).
  { induction cs as [|l cs IH]; intros q acc sel Hq; cbn [scan find visited map].
    - by rewrite app_nil_r.
    - unfold visit at 1 3 5. destruct (predicates_match_cached r l q Hq) as [H1 H2].
      destruct (predicates_match (lr_predicates l) r q) as [q1 f]. simpl in H1, H2. subst f.
      destruct (is_match (verdict r l)) eqn:Em; simpl.
      + unfold report. rewrite Em. split; [done|]. rewrite length_app. simpl. lia.
      + destruct (IH q1 (acc ++ [MkCandidate (lr_index l) (tier l) false (verdict r l)]) sel H1) as [H3 H4].
        assert (Er : report r l = MkCandidate (lr_index l) (tier l) false (verdict r l)) by (unfold report; by rewrite Em).
        rewrite H4, H3, Er. by rewrite <- app_assoc. }
  destruct (Hg (MkQuery (r_RawQuery r) false []) [] (-1)) as [H1 H2]; [done|].
  destruct (scan visit cs _) as [[[q c] sel] b]. simpl in *. by rewrite H1 in *.
Qed.

Lemma visited_last r ls l :
  find (fun l => is_match (verdict r l)) ls = Some l -> last (visited r ls) = Some l /\ verdict r l = NoFailure.
Proof.
  induction ls as [|x ls IH]; simpl; [done|]. destruct (is_match (verdict r x)) eqn:E.
  - intros [= ->]. split; [done|]. by apply is_match_true.
  - intros Hf. destruct (IH Hf) as [H1 H2]. split; [|done]. destruct (visited r ls); done.
Qed.

Lemma visited_rejected r ls :
  find (fun l => is_match (verdict r l)) ls = None -> Forall (fun l => is_match (verdict r l) = false) (visited r ls).
Proof.
  induction ls as [|x ls IH]; simpl; [constructor|]. destruct (is_match (verdict r x)) eqn:E; [done|].
  intros Hf. constructor; [done|by apply IH].
Qed.

Lemma canonicalizeRequest_path r : r_Path (canonicalizeRequest r) = canonicalPath (r_Path r).
Proof.
  unfold canonicalizeRequest. destruct (string_eqb _ _) eqn:E; [|done]. by apply bool_decide_eq_true in E.
Qed.

Lemma canonicalizeRequest_verdict r l : verdict (canonicalizeRequest r) l = verdict r l.
Proof. unfold canonicalizeRequest. by destruct (string_eqb _ _). Qed.

Lemma find_ext_verdict r r' ls :
  (forall l, verdict r l = verdict r' l) ->
  find (fun l => is_match (verdict r l)) ls = find (fun l => is_match (verdict r' l)) ls.
Proof. intros E. induction ls as [|l ls IH]; simpl; [done|]. by rewrite E, IH. Qed.

Section BestServer.
Context `{Unicode}.

Definition effective (h : gostring) (s : serverRoute) : Z :=
  if (score s h =? 0) && bool_decide (sr_names s = []) then 1 else score s h.

Definition better (h : gostring) (a b : serverRoute) : Prop :=
  effective h b < effective h a \/ (effective h a = effective h b /\ sr_index a < sr_index b).

(** The loop keeps a server none of those seen is better than. *)
Lemma bestServer_loop_spec h ss best :
  match best with Some (s, sc) => sc = effective h s /\ sc <> 0 | None => True end ->
  let seen s := s ∈ ss \/ fst <$> best = Some s in
  match bestServer_loop h ss best with
  | Some (b, sc) => effective h b <> 0 /\ seen b /\ forall s, seen s -> effective h s <> 0 -> ~ better h s b
  | None => best = None /\ forall s, s ∈ ss -> effective h s = 0
  end.
Proof.
  cbv zeta. revert best. induction ss as [|s ss IH]; intros best Hb; cbn [bestServer_loop].
  - destruct best as [[b sc]|]; [|split; [done|by intros s ?%elem_of_nil]]. destruct Hb as [-> Hb].
    split_and!; [done|by right|]. intros s [?%elem_of_nil|[= <-]] _; [done|]. unfold better. lia.
  - fold (effective h s). destruct (effective h s =? 0) eqn:E0.
    + specialize (IH best Hb). destruct (bestServer_loop h ss best) as [[b sc]|].
      * destruct IH as (H1 & H2 & H3). split_and!; [done|destruct H2; [left; by right|by right]|].
        intros x [[->|Hx]%elem_of_cons|Hx] Hx0; [lia|by apply H3; [left|]|by apply H3; [right|]].
      * destruct IH as [H1 H2]. split; [done|]. intros x [->|Hx]%elem_of_cons; [lia|by apply H2].
    + set (better_s := match best with None => true | Some _ => _ end).
      assert (Hnew : match (if better_s then Some (s, effective h s) else best) with
                     | Some (s, sc) => sc = effective h s /\ sc <> 0 | None => True end)
        by (destruct better_s; [split; lia|done]).
      specialize (IH _ Hnew). destruct (bestServer_loop h ss _) as [[b sc]|].
      2:{ destruct IH as [H1 _]. subst better_s. by destruct best as [[b bs]|]; [destruct (_ || _)|]. }
      destruct IH as (H1 & H2 & H3). subst better_s. destruct best as [[b0 bs]|].
      * destruct Hb as [-> Hb]. destruct (_ || _) eqn:Eb.
        -- split_and!; [done|destruct H2 as [H2|[= <-]]; left; [by right|left]|].
           intros x [[->|Hx]%elem_of_cons|[= <-]] Hx0; [by apply H3; [right|]|by apply H3; [left|]|].
           intros Hbt. specialize (H3 s (or_intror eq_refl) ltac:(lia)). unfold better in *. lia.
        -- split_and!; [done|destruct H2 as [H2|H2]; [left; by right|by right]|].
           intros x [[->|Hx]%elem_of_cons|Hx] Hx0; [|by apply H3; [left|]|by apply H3; [right|]].
           intros Hbt. specialize (H3 b0 (or_intror eq_refl) Hb). unfold better in *. lia.
      * split_and!; [done|destruct H2 as [H2|[= <-]]; left; [by right|left]|].
        intros x [[->|Hx]%elem_of_cons|Hx] Hx0; [by apply H3; [right|]|by apply H3; [left|]|done].
Qed.

Lemma bestServer_loop_perm h ss ss' :
  ss ≡ₚ ss' -> (forall a b, a ∈ ss -> b ∈ ss -> sr_index a = sr_index b -> a = b) ->
  fst <$> bestServer_loop h ss None = fst <$> bestServer_loop h ss' None.
Proof.
  intros Hp Hinj. pose proof (bestServer_loop_spec h ss None I) as H1.
  pose proof (bestServer_loop_spec h ss' None I) as H2. simpl in H1, H2.
  destruct (bestServer_loop h ss None) as [[b sc]|], (bestServer_loop h ss' None) as [[b' sc']|]; simpl.
  - destruct H1 as (H1 & [Hb|?] & H1'), H2 as (H2 & [Hb'|?] & H2'); try done.
    f_equal. apply Hinj; [done|by rewrite Hp|].
    specialize (H1' b' ltac:(left; by rewrite Hp) H2). specialize (H2' b ltac:(left; by rewrite <- Hp) H1).
    unfold better in *. lia.
  - destruct H1 as (H1 & [Hb|?] & _), H2 as [_ H2]; [|done]. rewrite Hp in Hb. by specialize (H2 b Hb).
  - destruct H2 as (H2 & [Hb|?] & _), H1 as [_ H1]; [|done]. rewrite <- Hp in Hb. by specialize (H1 b' Hb).
  - done.
Qed.
End BestServer.

(** The servers of a table, and that their indices tell them apart. *)
Definition in_table (byAddr : gmap (list Z) addrRouter) (s : serverRoute) : Prop :=
  exists addr ar, byAddr !! addr = Some ar /\ s ∈ ar_servers ar.

Definition indices_ok (i : Z) (byAddr : gmap (list Z) addrRouter) : Prop :=
  (forall s, in_table byAddr s -> sr_index s < i) /\
  (forall a b, in_table byAddr a -> in_table byAddr b -> sr_index a = sr_index b -> a = b).

Lemma in_table_insert byAddr addr sr d s :
  in_table (<[addr := MkAddrRouter (ar_servers (default (MkAddrRouter [] None) (byAddr !! addr)) ++ [sr]) d]> byAddr) s ->
  in_table byAddr s \/ s = sr.
Proof.
  intros (a & ar & Ha & Hs). destruct (decide (addr = a)) as [<-|Hn].
  - rewrite lookup_insert_eq in Ha. injection Ha as <-. simpl in Hs.
    apply elem_of_app in Hs as [Hs|Hs%list_elem_of_singleton]; [|by right]. left.
    destruct (byAddr !! addr) as [ar|] eqn:E; simpl in Hs; [by exists addr, ar|by apply elem_of_nil in Hs].
  - rewrite lookup_insert_ne in Ha by done. left. by exists a, ar.
Qed.

Lemma New_indices `{Unicode} Compile servers byAddr :
  New Compile servers = Some byAddr ->
  forall a b, in_table byAddr a -> in_table byAddr b -> sr_index a = sr_index b -> a = b.
Proof.
  unfold New. assert (H0 : indices_ok 0 ∅).
  { split; [intros s|intros a b]; intros (? & ? & E & _); by rewrite lookup_empty in E. }
  revert H0. generalize (∅ : gmap (list Z) addrRouter) 0.
  induction servers as [|srv servers IH]; intros m i [Hm1 Hm2] E; [by injection E as <-|]. cbn [New_loop] in E.
  case_bool_decide.
  - apply (IH m (i + 1)); [|done]. split; [|done]. intros s Hs. specialize (Hm1 s Hs). lia.
  - apply bind_Some in E as (sr & E1 & E). eapply IH; [|exact E].
    assert (Hi : sr_index sr = i) by (unfold buildServerRoute in E1; apply bind_Some in E1 as (? & _ & E1); by injection E1 as <-).
    split.
    + intros s [Hs| ->]%in_table_insert; [specialize (Hm1 s Hs)|]; lia.
    + intros a b [Ha| ->]%in_table_insert [Hb| ->]%in_table_insert Eab; [by apply Hm2| | |done].
      * specialize (Hm1 a Ha). lia.
      * specialize (Hm1 b Hb). lia.
Qed.

Lemma in_table_concat (byAddr : gmap (list Z) addrRouter) order s :
  order ≡ₚ (map_to_list byAddr).*2 -> s ∈ concat (map ar_servers order) -> in_table byAddr s.
Proof.
  intros Ho Hs. apply list_elem_of_In, in_concat in Hs as (l & Hl & Hs).
  apply in_map_iff in Hl as (ar & <- & Har). apply list_elem_of_In in Har, Hs.
  rewrite Ho in Har. apply list_elem_of_fmap in Har as ([k v] & -> & Hkv). exists k, v.
  split; [by apply elem_of_map_to_list|done].
Qed.

(** ** The query parser against an encoder *)

Definition unreserved (c : Z) : bool := is_alpha c || is_digit c || bool_decide (c ∈ str "-_.~").

Definition hex_digit (d : Z) : Z := if d <? 10 then 48 + d else 55 + d.

(** [url.QueryEscape]. *)
Definition escape_byte (c : Z) : gostring :=
  if unreserved c then [c] else if c =? 32 then [43] else [37; hex_digit (c / 16); hex_digit (c mod 16)].
Definition QueryEscape (s : gostring) : gostring := concat (map escape_byte s).

Definition encode_pair (p : queryPair) : gostring := QueryEscape (q_name p) ++ 61 :: QueryEscape (q_value p).
Definition encode_query (ps : list queryPair) : gostring := JoinByte (map encode_pair ps) 38.

Lemma hex_value_digit d : 0 <= d < 16 -> hex_value (hex_digit d) = Some d.
Proof.
  intros Hd. unfold hex_digit. destruct (d <? 10) eqn:E; unfold hex_value.
  - rewrite (proj2 (andb_true_iff _ _)) by lia. f_equal. lia.
  - destruct (_ && _) eqn:E1; [lia|]. destruct ((97 <=? _) && _) eqn:E2; [lia|].
    destruct ((65 <=? _) && _) eqn:E3; [f_equal; lia|lia].
Qed.

Lemma QueryUnescape_other c s :
  c <> 37 -> QueryUnescape (c :: s) = t ← QueryUnescape s; Some ((if c =? 43 then 32 else c) :: t).
Proof.
  intros Hn. destruct c as [|p|p]; [done| |done]. do 6 (destruct p as [p|p|]; try done).
Qed.

Lemma QueryUnescape_byte c s :
  is_byte c -> QueryUnescape (escape_byte c ++ s) = t ← QueryUnescape s; Some (c :: t).
Proof.
  intros Hc. unfold is_byte in Hc. unfold escape_byte. destruct (unreserved c) eqn:E.
  - assert (Hn : c <> 37 /\ c <> 43) by (split; intros ->; by vm_compute in E).
    change ([c] ++ s) with (c :: s). rewrite QueryUnescape_other by tauto. by rewrite (proj2 (Z.eqb_neq c 43)) by tauto.
  - destruct (c =? 32) eqn:E2; [apply Z.eqb_eq in E2 as ->; done|]. cbn [app QueryUnescape].
    rewrite !hex_value_digit by zlia. cbn [mbind option_bind].
    by replace (16 * (c / 16) + c mod 16) with c by zlia.
Qed.

Lemma QueryUnescape_Escape s : Forall is_byte s -> QueryUnescape (QueryEscape s) = Some s.
Proof.
  induction 1 as [|c s Hc _ IH]; [done|]. unfold QueryEscape. cbn [map concat].
  rewrite QueryUnescape_byte by done. fold (QueryEscape s). by rewrite IH.
Qed.

(** The separators never survive escaping. *)
Lemma QueryEscape_clean s c : Forall is_byte s -> c ∈ [38; 59; 61] -> c ∉ QueryEscape s.
Proof.
  intros HF Hc. unfold QueryEscape. induction HF as [|b s Hb _ IH]; [apply not_elem_of_nil|].
  cbn [map concat]. rewrite elem_of_app. intros [H|H]; [|by apply IH].
  unfold escape_byte in H. unfold is_byte in Hb. destruct (unreserved b) eqn:E.
  - apply list_elem_of_singleton in H as ->. set_unfold in Hc. destruct Hc as [->|[->|[->|[]]]]; by vm_compute in E.
  - assert (Hh : forall d, 0 <= d < 16 -> hex_digit d <> c).
    { intros d Hd. unfold hex_digit. set_unfold in Hc. destruct (d <? 10) eqn:?; lia. }
    destruct (b =? 32); [apply list_elem_of_singleton in H; set_unfold in Hc; lia|].
    apply elem_of_cons in H as [->|H]; [set_unfold in Hc; lia|].
    apply elem_of_cons in H as [->|H]; [by apply (Hh (b / 16)); [zlia|]|].
    apply list_elem_of_singleton in H as ->. by apply (Hh (b mod 16)); [zlia|].
Qed.

Definition pair_ok (p : queryPair) : Prop := Forall is_byte (q_name p) /\ Forall is_byte (q_value p).

Lemma encode_pair_clean p c : pair_ok p -> c ∈ [38; 59] -> c ∉ encode_pair p.
Proof.
  intros [H1 H2] Hc. unfold encode_pair. rewrite elem_of_app, elem_of_cons.
  intros [H|[->|H]]; [|set_solver|]; revert H; apply QueryEscape_clean; set_solver.
Qed.

Lemma parse_encode_pair p : pair_ok p -> parse_pair (encode_pair p) = Some p.
Proof.
  intros Hp. unfold parse_pair.
  rewrite (bool_decide_false (encode_pair p = [])) by (unfold encode_pair; by destruct (QueryEscape _)).
  rewrite (bool_decide_false (59 ∈ encode_pair p)) by (apply encode_pair_clean; [done|set_solver]).
  destruct Hp as [H1 H2]. unfold encode_pair. rewrite CutByte_app by (apply QueryEscape_clean; [done|set_solver]).
  rewrite !QueryUnescape_Escape by done. by destruct p.
Qed.

Lemma parse_encode_query n ps : Forall pair_ok ps -> parse_loop n (encode_query ps) = take n ps.
Proof.
  intros HF. revert n. induction HF as [|p ps Hp HF IH]; intros n; [by destruct n|].
  destruct n as [|n]; [done|]. cbn [take parse_loop].
  assert (Hne : encode_pair p <> []) by (unfold encode_pair; by destruct (QueryEscape _)).
  assert (Hcut : CutByte (encode_query (p :: ps)) 38 =
                 (encode_pair p, encode_query ps, negb (bool_decide (ps = [])))).
  { assert (Hc : 38 ∉ encode_pair p) by (apply encode_pair_clean; [done|set_solver]).
    destruct ps as [|p' ps]; [by apply CutByte_notin|]. unfold encode_query. cbn [map].
    rewrite JoinByte_cons by done. by apply CutByte_app. }
  destruct (encode_query (p :: ps)) as [|c s] eqn:E.
  - exfalso. simpl in Hcut. injection Hcut as Hcut _ _. by apply Hne.
  - rewrite Hcut, parse_encode_pair by done. f_equal. apply IH.
Qed.

(** ** Redirect targets *)

(** What a browser reads as a URL on another host. *)
Definition scheme_relative (t : gostring) : bool := HasPrefix t (str "//") || HasPrefix t (str "/\").

Lemma localRedirectTarget_safe t : scheme_relative (localRedirectTarget t) = false.
Proof.
  assert (Hs : forall s, match strip_slashes s with c :: _ => c <> 47 /\ c <> 92 | [] => True end).
  { induction s as [|c s IH]; simpl; [done|]. destruct ((c =? 47) || (c =? 92)) eqn:E; [done|]. lia. }
  unfold localRedirectTarget, scheme_relative. destruct t as [|c t]; [done|].
  destruct (c =? slash) eqn:E.
  - specialize (Hs t). destruct (strip_slashes t) as [|d u]; [done|]. simpl.
    rewrite (proj2 (Z.eqb_neq d 47)), (proj2 (Z.eqb_neq d 92)) by tauto. done.
  - simpl. unfold slash in E. by rewrite E.
Qed.

Lemma applyRewrites_safe rules r code target :
  (applyRewrites rules r).2 = Some (code, target) -> scheme_relative target = false.
Proof.
  revert r. induction rules as [|rw rules IH]; intros r; simpl; [done|].
  destruct (negb _); [apply IH|]. destruct (string_eqb _ (str "redirect")); [intros [= _ <-]; apply localRedirectTarget_safe|].
  destruct (string_eqb _ (str "permanent")); [intros [= _ <-]; apply localRedirectTarget_safe|].
  destruct (_ || _); [done|apply IH].
Qed.

(** ** Theorems *)

(** Every pair of an encoded query is recovered, up to the parsing bound:
    parsing inverts [url.QueryEscape] and never looks past the first 1024
    pairs. *)
Theorem query_roundtrip (ps : list queryPair) :
  Forall pair_ok ps -> parseBoundedQuery (encode_query ps) = take MaxQueryPairsParsed ps.
Proof. apply parse_encode_query. Qed.

Lemma query_roundtrip_witness :
  parseBoundedQuery (str "a+b=%26%3D&x=") = [MkPair (str "a b") (str "&="); MkPair (str "x") []].
Proof.
  apply (query_roundtrip [MkPair (str "a b") (str "&="); MkPair (str "x") []]).
  repeat constructor; vm_compute; intuition congruence.
Defined.

Section Theorems.
Context `{Unicode}.
Variable Compile : gostring -> option Regexp.

(** On a compiled table the server of an address is chosen by its names: the
    first declared of those that fit the host best (an exact name before a
    wildcard), and the address's first server when none fits; configured names
    are compared trimmed, folded and without the root dot, whether normalised at
    build time or on the fly. *)
Theorem server_selection (servers : list ServerConfig) byAddr addr ar host :
  New Compile servers = Some byAddr -> byAddr !! addr = Some ar ->
  let fits s := fit (sr_names s) (normalizeHost host) in
  match addr_match ar host with
  | (Some s, true) => exists i, ar_servers ar !! i = Some s /\ 0 < fits s /\
      forall j s', ar_servers ar !! j = Some s' -> fits s' <= fits s /\ ((j < i)%nat -> fits s' < fits s)
  | (s, false) => s = head (ar_servers ar) /\ is_Some s /\ forall s', s' ∈ ar_servers ar -> fits s' = 0
  | (None, true) => False
  end /\
  (forall names h, hostScore names h = fit (map canonical_name names) h).
Proof.
  intros HN Ha. split; [|intros; apply hostScore_fit].
  destruct (New_table_ok Compile servers byAddr HN addr ar Ha) as (_ & Hdef & Hne). unfold addr_match.
  assert (Hs : forall s, score s (normalizeHost host) = fit (sr_names s) (normalizeHost host)).
  { intros s. apply normalizedHostScore_fit. }
  pose proof (match_loop_spec (normalizeHost host) (ar_servers ar) (ar_def ar) 0 ltac:(lia)) as HL.
  destruct (match_loop _ _ _ _) as [b bs]. destruct HL as [(-> & -> & HF)|(i & s & -> & Hi & -> & Hlt & Hall)].
  - simpl. rewrite Hdef. destruct (ar_servers ar) as [|s0 ss]; [done|]. simpl. split_and!; [done|by eexists|].
    intros s' Hs'. rewrite Forall_forall in HF. specialize (HF s' Hs'). simpl in HF. rewrite Hs in HF.
    unfold fit in *. destruct (bool_decide _); [lia|]. destruct (existsb _ _); lia.
  - rewrite (proj2 (Z.ltb_lt _ _) Hlt). exists i. rewrite <- Hs. split_and!; [done|done|].
    intros j s' Hj. rewrite <- Hs. by apply Hall.
Qed.

(** C5: on a compiled table a request that is not sent to HTTPS is matched on its
    canonical path, and answered by the preferred location of its server (exact
    path, then the longest prefix, then regular expressions, then the root; ties
    by declaration order) among those whose path and predicates take it, or not
    found only when none does.  A withdrawn location is never served, and a
    rewrite redirect never leaves for another host by a scheme-relative target. *)
Theorem For_routes (servers : list ServerConfig) byAddr addr ar srv (r : Request) :
  New Compile servers = Some byAddr -> byAddr !! addr = Some ar ->
  (addr_match ar (r_Host r)).1 = Some srv ->
  sr_redirectHTTPS srv = 0 \/ r_TLS r = true ->
  let r1 := canonicalizeRequest r in
  r_Path r1 = canonicalPath (r_Path r) /\
  match For byAddr addr r with
  | NotFound => forall l, l ∈ sr_locations srv -> ~ takes r1 l
  | RedirectHTTPS _ _ => False
  | Withdrawn l => preferred srv r1 l /\ lr_withdrawn l = true
  | RewriteRedirect l _ target =>
      preferred srv r1 l /\ lr_withdrawn l = false /\ scheme_relative target = false
  | Serve l _ => preferred srv r1 l /\ lr_withdrawn l = false
  end.
Proof.
  intros HN Ha Hm Hr. pose proof (addr_match_in _ _ _ _ _ (New_table_ok Compile servers byAddr HN) Ha Hm) as Hin. cbv zeta. split; [apply canonicalizeRequest_path|].
  unfold For. rewrite Ha, Hm.
  assert (E : negb (sr_redirectHTTPS srv =? 0) && negb (r_TLS r) = false) by (destruct Hr as [-> | ->]; simpl; by rewrite ?andb_false_r).
  rewrite E. destruct (New_table_ok Compile servers byAddr HN addr ar Ha) as (HB & _ & _).
  rewrite Forall_forall in HB. destruct (HB srv Hin) as (s & -> & Hs).
  pose proof (selectLocation_preferred s (canonicalizeRequest r) Hs) as HP.
  destruct (selectLocation (indexLocations s) (canonicalizeRequest r)) as [l|]; [|exact HP].
  destruct (lr_withdrawn l) eqn:Ew; [by split|].
  pose proof (applyRewrites_safe (lr_rewrites l) (canonicalizeRequest r)) as HR.
  destruct (applyRewrites _ _) as [r2 [[code target]|]]; [|by split]. split_and!; [done|done|by apply (HR code)].
Qed.

(** The dry run agrees with the live router: for the same server it visits
    the same locations in the same order and selects the one the live path
    selects, reporting it last, and a predicate that failed for every other; and
    the server it picks does not depend on the order in which the table's
    addresses are ranged over. *)
Theorem Explain_agrees (servers : list ServerConfig) byAddr (srv : serverRoute) (r : Request) host order :
  New Compile servers = Some byAddr -> in_table byAddr srv -> order ≡ₚ (map_to_list byAddr).*2 ->
  let ex := explain_server srv r in
  match selectLocation srv (canonicalizeRequest r) with
  | Some l => ex_Selected ex = Z.of_nat (length (ex_Candidates ex)) - 1 /\
      last (ex_Candidates ex) = Some (MkCandidate (lr_index l) (tier l) true NoFailure)
  | None => ex_Selected ex = -1 /\
      Forall (fun c => rc_Selected c = false /\ rc_Rejection c <> NoFailure) (ex_Candidates ex)
  end /\
  bestServerForHost order host = bestServerForHost (map_to_list byAddr).*2 host.
Proof.
  intros HN (addr & ar & Ha & Hin) Ho. cbv zeta. split.
  - destruct (New_table_ok Compile servers byAddr HN addr ar Ha) as (HB & _ & _).
    rewrite Forall_forall in HB. destruct (HB srv Hin) as (s & -> & Hs).
    destruct (explain_candidates s r) as [H1 H2]. rewrite selectLocation_find, canonicalizeRequest_path.
    rewrite (find_ext_verdict (canonicalizeRequest r) r) by apply canonicalizeRequest_verdict.
    destruct (find _ _) as [l|] eqn:Ef; (split; [done|]); rewrite H1.
    + apply visited_last in Ef as [Hl Hv]. rewrite fmap_last, Hl. simpl. unfold report. by rewrite Hv.
    + apply visited_rejected in Ef. apply Forall_map. eapply Forall_impl; [exact Ef|]. intros l Hl. simpl in Hl |- *.
      split; [done|]. intros E. by rewrite E in Hl.
  - unfold bestServerForHost. apply bestServer_loop_perm; [by rewrite Ho|].
    intros a b Ha' Hb'. apply (New_indices Compile servers byAddr HN).
    + by apply (in_table_concat byAddr order).
    + by apply (in_table_concat byAddr order).
Qed.
End Theorems.

(** ** A small table *)

(** Patterns read as suffixes. *)
Definition suffix_regexp (p : gostring) : option Regexp :=
  Some (MkRegexp (fun s => HasSuffix s p) (fun _ repl => repl)).

Definition demo_location (type path root : string) (deny : bool) : LocationConfig :=
  MkLocationConfig (MkMatchConfig (str type) (str path) None [] []) [] None false deny [] 0 [] [] [] false [] (str root).

Definition demo_servers : list ServerConfig :=
  [MkServerConfig (str ":80") [str "*.Example.com"] [demo_location "prefix" "/" "/srv" false] 0;
   MkServerConfig (str ":80") [str "api.example.com."]
     [demo_location "prefix" "/" "/srv" false; demo_location "regex" ".php" "/php" false;
      demo_location "prefix" "/admin" "/srv" true] 0].

Definition demo_table : gmap (list Z) addrRouter := default ∅ (New (H := no_unicode) suffix_regexp demo_servers).

Definition demo_get (host path : string) : Request :=
  MkRequest (str "GET") (str host) (str path) [] [] (str path) ∅ false.

Definition demo_ar : addrRouter := default (MkAddrRouter [] None) (demo_table !! str ":80").
Definition demo_srv : serverRoute :=
  default (MkServerRoute [] [] [] None [] [] [] 0 0) (ar_servers demo_ar !! 1%nat).

Lemma server_selection_witness :
  match addr_match (H := no_unicode) demo_ar (str "API.example.com:80") with
  | (Some s, true) => sr_index s = 1
  | _ => False
  end.
Proof.
  destruct (server_selection (H := no_unicode) suffix_regexp demo_servers demo_table (str ":80") demo_ar
    (str "API.example.com:80") eq_refl eq_refl) as [E _].
  destruct (addr_match _ _) as [[s|] []] eqn:Em; [|by vm_compute in Em|done|by vm_compute in Em].
  vm_compute in Em. by injection Em as <-.
Defined.

Lemma For_routes_witness :
  exists l r, For (H := no_unicode) demo_table (str ":80") (demo_get "api.example.com" "/public/../admin/x.php") = Serve l r /\
    lr_action l = ActionDeny /\
    preferred demo_srv (canonicalizeRequest (demo_get "api.example.com" "/public/../admin/x.php")) l.
Proof.
  destruct (For_routes (H := no_unicode) suffix_regexp demo_servers demo_table (str ":80") demo_ar demo_srv
    (demo_get "api.example.com" "/public/../admin/x.php") eq_refl eq_refl eq_refl (or_introl eq_refl)) as [_ E].
  destruct (For _ _ _) as [| | | |l r] eqn:Ef; try by vm_compute in Ef.
  exists l, r. split; [done|]. split; [by vm_compute in Ef; injection Ef as <- _|apply E].
Defined.

Lemma Explain_agrees_witness :
  ex_Selected (explain_server demo_srv (demo_get "api.example.com" "/x.php")) = 0 /\
  bestServerForHost (H := no_unicode) [demo_ar] (str "api.example.com") =
  bestServerForHost (H := no_unicode) (map_to_list demo_table).*2 (str "api.example.com").
Proof.
  split; [by vm_compute|].
  apply (Explain_agrees (H := no_unicode) suffix_regexp demo_servers demo_table demo_srv
    (demo_get "api.example.com" "/x.php") (str "api.example.com") [demo_ar]); [reflexivity| |reflexivity].
  exists (str ":80"), demo_ar. split; [reflexivity|]. right. left.
Defined.
