(* ===== verification/ProxyProto.v ===== *)
(** * The PROXY protocol (src/internal/proxyproto/proxyproto.go)

    Reading a version 1 or version 2 header off a byte stream, and writing a
    version 2 header.  The buffered reader is the bytes still to come; running
    out of them is the read error. *)

From S2P Require Import Prelude GoStrings Netip Http.

(** ** Addresses: what [net.IP] and [net.TCPAddr] offer *)

Definition v4InV6Prefix : list Z := replicate 10 0 ++ [255; 255].

Definition To4 (ip : list Z) : option (list Z) :=
  if bool_decide (length ip = 4%nat) then Some ip
  else if bool_decide (length ip = 16%nat) && bool_decide (take 12 ip = v4InV6Prefix) then Some (drop 12 ip)
  else None.

Definition To16 (ip : list Z) : option (list Z) :=
  if bool_decide (length ip = 4%nat) then Some (v4InV6Prefix ++ ip)
  else if bool_decide (length ip = 16%nat) then Some ip
  else None.

(** [net.ParseIP]: sixteen bytes, and no zone. *)
Definition ParseIP (s : gostring) : option (list Z) :=
  match ParseAddr s with
  | Some (V4 b) => Some (v4InV6Prefix ++ b)
  | Some (V6 b zone) => if bool_decide (zone = []) then Some b else None
  | None => None
  end.

(** [strconv.Atoi], within the range of an int. *)
Definition Atoi (s : gostring) : option Z :=
  let unsigned (neg : bool) (s : gostring) : option Z :=
    if bool_decide (s = []) then None
    else n ← parse_dec s 0;
         let n := if neg then - n else n in
         if (- 2 ^ 63 <=? n) && (n <=? max_int64) then Some n else None in
  match s with
  | 45 :: t => unsigned true t
  | 43 :: t => unsigned false t
  | _ => unsigned false s
  end.

Record TCPAddr := MkTCPAddr { IP : list Z; Port : Z }.

(** A [net.Addr] that may be of another kind. *)
Notation NetAddr := (option TCPAddr).

(** ** Reading *)

Inductive proxyErr :=
| ErrSignature | ErrMissing | ErrV1Read | ErrV1TooLong | ErrV1CRLF | ErrV1Malformed | ErrV1Fields
| ErrV1Source | ErrV1Destination | ErrV1TCP4 | ErrV1TCP6 | ErrV1SourcePort | ErrV1DestinationPort
| ErrV1Transport | ErrV2Read | ErrV2Version | ErrV2Addresses | ErrV2ShortIPv4 | ErrV2ShortIPv6.

(** The address advertised, if any, and the bytes left. *)
Notation result := (proxyErr + option TCPAddr * list Z)%type.

Definition v2Signature : list Z := [13; 10; 13; 10; 0; 13; 10; 81; 85; 73; 84; 10].
Definition v1MaxLen : nat := 108.

(** The read loop: the bytes up to a newline, or as many as fit. *)
Fixpoint read_line (room : nat) (s : list Z) : option (list Z * list Z) :=
  match room with
  | O => Some ([], s)
  | S room =>
      match s with
      | [] => None
      | b :: s => if b =? 10 then Some ([b], s)
                  else '(l, rest) ← read_line room s; Some (b :: l, rest)
      end
  end.

Definition port_of (s : gostring) : option Z :=
  n ← Atoi s; if (n <? 0) || (65535 <? n) then None else Some n.

Section Read.
Context `{Unicode}.

Definition parse_v1 (line : gostring) : proxyErr + option TCPAddr :=
  match Fields line with
  | proxy :: transport :: rest =>
      if negb (string_eqb proxy (str "PROXY")) then inl ErrV1Malformed
      else if string_eqb transport (str "UNKNOWN") then inr None
      else
        let tcp4 := string_eqb transport (str "TCP4") in
        let tcp6 := string_eqb transport (str "TCP6") in
        if negb tcp4 && negb tcp6 then inl ErrV1Transport
        else match rest with
        | [src; dst; sport; dport] =>
            match ParseIP src, ParseIP dst with
            | None, _ => inl ErrV1Source
            | Some _, None => inl ErrV1Destination
            | Some s, Some d =>
                let is4 ip := bool_decide (is_Some (To4 ip)) in
                if tcp4 && (negb (is4 s) || negb (is4 d)) then inl ErrV1TCP4
                else if tcp6 && (is4 s || is4 d) then inl ErrV1TCP6
                else match port_of sport, port_of dport with
                     | None, _ => inl ErrV1SourcePort
                     | Some _, None => inl ErrV1DestinationPort
                     | Some p, Some _ => inr (Some (MkTCPAddr s p))
                     end
            end
        | _ => inl ErrV1Fields
        end
  | _ => inl ErrV1Malformed
  end.

Definition readV1 (s : list Z) : result :=
  match read_line v1MaxLen s with
  | None => inl ErrV1Read
  | Some (l, rest) =>
      let n := length l in
      if bool_decide (n = v1MaxLen) && negb (bool_decide (last l = Some 10)) then inl ErrV1TooLong
      else if (n <? 2)%nat || negb (bool_decide (l !! (n - 2)%nat = Some 13)) then inl ErrV1CRLF
      else match parse_v1 (take (n - 2) l) with
           | inl e => inl e
           | inr a => inr (a, rest)
           end
  end.

Definition be16 (hi lo : Z) : Z := hi * 256 + lo.

Definition readV2 (s : list Z) : result :=
  if (length s <? 16)%nat then inl ErrV2Read
  else
    let hdr := take 16 s in
    let s := drop 16 s in
    let at_ i := default 0 (hdr !! i) in
    let verCmd := at_ 12%nat in
    if negb (Z.shiftr verCmd 4 =? 2) then inl ErrV2Version
    else
      let famProto := at_ 13%nat in
      let length_ := Z.to_nat (be16 (at_ 14%nat) (at_ 15%nat)) in
      if (length s <? length_)%nat then inl ErrV2Addresses
      else
        let block := take length_ s in
        let rest := drop length_ s in
        let port i := be16 (default 0 (block !! i)) (default 0 (block !! (S i))) in
        if Z.land verCmd 15 =? 0 then inr (None, rest)
        else if Z.shiftr famProto 4 =? 1 then
          if (length block <? 12)%nat then inl ErrV2ShortIPv4
          else inr (Some (MkTCPAddr (take 4 block) (port 8%nat)), rest)
        else if Z.shiftr famProto 4 =? 2 then
          if (length block <? 36)%nat then inl ErrV2ShortIPv6
          else inr (Some (MkTCPAddr (take 16 block) (port 32%nat)), rest)
        else inr (None, rest).

Definition ReadHeader (s : list Z) : result :=
  if (length s <? 12)%nat then inl ErrSignature
  else if string_eqb (take 12 s) v2Signature then readV2 s
  else if HasPrefix (take 12 s) (str "PROXY ") then readV1 s
  else inl ErrMissing.
End Read.

(** ** Writing *)

Definition put16 (n : Z) : list Z := [u16 n / 256; u16 n mod 256].

Definition WriteV2 (src dst : NetAddr) : list Z :=
  v2Signature ++
  match src, dst with
  | Some s, Some d =>
      match To4 (IP s), To4 (IP d) with
      | Some s4, Some d4 =>
          [33; 17] ++ put16 12 ++ s4 ++ d4 ++ put16 (Port s) ++ put16 (Port d)
      | _, _ =>
          [33; 33] ++ put16 36 ++ default [] (To16 (IP s)) ++ default [] (To16 (IP d)) ++
          put16 (Port s) ++ put16 (Port d)
      end
  | _, _ => [32; 0; 0; 0]
  end.

(** ** Well-formed addresses *)

Definition tcp_ok (a : TCPAddr) : Prop :=
  (length (IP a) = 4%nat \/ length (IP a) = 16%nat) /\ Forall is_byte (IP a) /\ 0 <= Port a < 65536.

Lemma To4_length ip b : To4 ip = Some b -> length b = 4%nat.
Proof.
  unfold To4. case_bool_decide; [by intros [= <-]|]. case_bool_decide as E; simpl; [|done].
  case_bool_decide; [|done]. intros [= <-]. rewrite length_drop. lia.
Qed.

Lemma To16_To4 ip b : To4 ip = Some b -> To16 b = To16 ip.
Proof.
  unfold To4, To16. case_bool_decide as E4; [by intros [= <-]; rewrite bool_decide_true|].
  case_bool_decide as E; simpl; [|done]. case_bool_decide as Ep; [|done]. intros [= <-].
  rewrite (bool_decide_true (length (drop 12 ip) = 4%nat)) by (rewrite length_drop; lia).
  rewrite <- (take_drop 12 ip) at 2. by rewrite Ep.
Qed.

Lemma To16_ok a : tcp_ok a -> exists b, To16 (IP a) = Some b /\ length b = 16%nat.
Proof.
  intros ([E|E] & _ & _); unfold To16.
  - rewrite bool_decide_true by done. eexists. split; [done|]. rewrite length_app, E. done.
  - rewrite bool_decide_false by lia. rewrite bool_decide_true by done. by eexists.
Qed.

Lemma put16_be16 n : 0 <= n < 65536 -> be16 (n / 256) (n mod 256) = n.
Proof. intros. unfold be16. zlia. Qed.

Lemma put16_eq n : 0 <= n < 65536 -> put16 n = [n / 256; n mod 256].
Proof. intros Hn. unfold put16. unfold u16, wrap. by rewrite Z.mod_small by lia. Qed.

(** Reading a version 2 block with a given header. *)
Lemma readV2_block (verCmd fam : Z) (block rest : list Z) :
  Z.shiftr verCmd 4 = 2 -> Z.of_nat (length block) < 65536 ->
  readV2 (v2Signature ++ [verCmd; fam] ++ put16 (Z.of_nat (length block)) ++ block ++ rest) =
  if Z.land verCmd 15 =? 0 then inr (None, rest)
  else if Z.shiftr fam 4 =? 1 then
    if (length block <? 12)%nat then inl ErrV2ShortIPv4
    else inr (Some (MkTCPAddr (take 4 block) (be16 (default 0 (block !! 8%nat)) (default 0 (block !! 9%nat)))), rest)
  else if Z.shiftr fam 4 =? 2 then
    if (length block <? 36)%nat then inl ErrV2ShortIPv6
    else inr (Some (MkTCPAddr (take 16 block) (be16 (default 0 (block !! 32%nat)) (default 0 (block !! 33%nat)))), rest)
  else inr (None, rest).
Proof.
  intros Hv Hl. rewrite put16_eq by lia. unfold readV2.
  set (inp := v2Signature ++ _).
  assert (Hi : inp = (v2Signature ++ [verCmd; fam; Z.of_nat (length block) / 256; Z.of_nat (length block) mod 256]) ++ block ++ rest) by done.
  assert (Hn : (length inp <? 16)%nat = false).
  { apply Nat.ltb_ge. rewrite Hi, !length_app. simpl. lia. }
  assert (Ht : take 16 inp = v2Signature ++ [verCmd; fam; Z.of_nat (length block) / 256; Z.of_nat (length block) mod 256])
    by (rewrite Hi; by apply take_app_length').
  assert (Hd : drop 16 inp = block ++ rest) by (rewrite Hi; by apply drop_app_length').
  rewrite Hn, Ht, Hd. cbn [v2Signature app lookup list_lookup default option_rect].
  unfold default, id. rewrite Hv. simpl negb. cbn iota.
  rewrite put16_be16 by lia. rewrite Nat2Z.id, take_app_length, drop_app_length.
  rewrite (proj2 (Nat.ltb_ge (length (block ++ rest)) (length block))) by (rewrite length_app; lia).
  done.
Qed.

Definition v1_shape (hdr : list Z) : Prop :=
  (length hdr <= v1MaxLen)%nat /\ exists l, hdr = l ++ [13; 10] /\ 10 ∉ l.

Lemma read_line_spec room s l rest :
  read_line room s = Some (l, rest) ->
  s = l ++ rest /\ (length l <= room)%nat /\
  ((exists k, l = k ++ [10] /\ 10 ∉ k) \/ (length l = room /\ 10 ∉ l)).
Proof.
  revert s l rest. induction room as [|room IH]; intros s l rest; simpl.
  - intros [= <- <-]. split_and!; [done|done|right; split; [done|apply not_elem_of_nil]].
  - destruct s as [|b s]; [done|]. destruct (b =? 10) eqn:E.
    + intros [= <- <-]. apply Z.eqb_eq in E as ->. split_and!; [done|simpl; lia|]. left. exists [].
      split; [done|apply not_elem_of_nil].
    + intros ([l' r'] & Hr & [= <- <-])%bind_Some. destruct (IH _ _ _ Hr) as (-> & H2 & H3).
      split_and!; [done|simpl; lia|]. destruct H3 as [(k & -> & Hk)|[<- Hk]].
      * left. exists (b :: k). split; [done|]. apply not_elem_of_cons. split; [lia|done].
      * right. split; [done|]. apply not_elem_of_cons. split; [lia|done].
Qed.

(** A line with its CRLF, within the limit. *)
Lemma v1_line_shape l rest s :
  read_line v1MaxLen s = Some (l, rest) ->
  bool_decide (length l = v1MaxLen) && negb (bool_decide (last l = Some 10)) = false ->
  (length l <? 2)%nat || negb (bool_decide (l !! (length l - 2)%nat = Some 13)) = false ->
  s = l ++ rest /\ v1_shape l.
Proof.
  intros Hr H1 H2. apply read_line_spec in Hr as (-> & Hl & Hn). split; [done|]. split; [done|].
  destruct Hn as [(k & -> & Hk)|[E Hk]].
  - rewrite length_app in H2. simpl in H2. replace (length k + 1 - 2)%nat with (length k - 1)%nat in H2 by lia.
    apply orb_false_iff in H2 as [H2 H3]. apply Nat.ltb_ge in H2. apply negb_false_iff, bool_decide_eq_true in H3.
    destruct k as [|c k _] using rev_ind; [simpl in H2; lia|]. rewrite length_app in H3. simpl in H3.
    rewrite <- app_assoc in H3. rewrite lookup_app_r in H3 by lia.
    replace (length k + 1 - 1 - length k)%nat with 0%nat in H3 by lia. simpl in H3. injection H3 as ->.
    exists k. split; [by rewrite <- app_assoc|]. set_solver.
  - exfalso. rewrite E in H1. rewrite bool_decide_true in H1 by done. simpl in H1.
    apply negb_false_iff, bool_decide_eq_true in H1. apply Hk. apply last_Some in H1 as [l' ->]. set_solver.
Qed.

Lemma ParseIP_ok s ip : ParseIP s = Some ip -> length ip = 16%nat /\ Forall is_byte ip.
Proof.
  unfold ParseIP. destruct (ParseAddr s) as [a|] eqn:E; [|done]. apply ParseAddr_ok in E. destruct a as [b|b zone]; simpl in E.
  - intros [= <-]. destruct E as [E1 E2]. rewrite !length_cons, E1. split; [done|].
    repeat (apply Forall_cons; split; [unfold is_byte; lia|]). done.
  - case_bool_decide; [|done]. by intros [= <-].
Qed.

Lemma port_of_range s n : port_of s = Some n -> 0 <= n < 65536.
Proof.
  unfold port_of. intros (m & _ & E)%bind_Some. destruct ((m <? 0) || (65535 <? m)) eqn:Eb; [done|].
  injection E as <-. lia.
Qed.

Lemma parse_v1_ok `{Unicode} line a : parse_v1 line = inr (Some a) -> tcp_ok a.
Proof.
  unfold parse_v1. destruct (Fields line) as [|f1 [|f2 rest]]; try done.
  destruct (negb _); [done|]. destruct (string_eqb f2 _); [done|]. destruct (_ && _); [done|].
  destruct rest as [|src [|dst [|sp [|dp [|? ?]]]]]; try done.
  destruct (ParseIP src) as [s|] eqn:Es; [|done]. destruct (ParseIP dst) as [d|]; [|done].
  destruct (_ && _); [done|]. destruct (_ && _); [done|].
  destruct (port_of sp) as [p|] eqn:Ep; [|done]. destruct (port_of dp); [|done]. intros [= <-].
  apply ParseIP_ok in Es as [E1 E2]. apply port_of_range in Ep.
  unfold tcp_ok. simpl. split_and!; [by right|done|lia|lia].
Qed.

(** ** Theorems *)

Lemma readV2_sound s a rest :
  Forall is_byte s -> readV2 s = inr (a, rest) ->
  exists hdr, s = hdr ++ rest /\ (16 <= length hdr)%nat /\ match a with Some t => tcp_ok t | None => True end.
Proof.
  intros HF. unfold readV2. destruct (length s <? 16)%nat eqn:E16; [done|]. apply Nat.ltb_ge in E16.
  destruct (negb _); [done|]. set (n := Z.to_nat _). clearbody n.
  destruct (length (drop 16 s) <? n)%nat eqn:En; [done|]. apply Nat.ltb_ge in En.
  set (block := take n (drop 16 s)).
  assert (Hs : s = (take 16 s ++ block) ++ drop n (drop 16 s)).
  { subst block. by rewrite <- app_assoc, !take_drop. }
  assert (HB : Forall is_byte block) by (by apply Forall_take, Forall_drop).
  assert (Hb : forall i, 0 <= default 0 (block !! i) < 256).
  { intros i. destruct (block !! i) as [b|] eqn:Eb; simpl; [|lia]. rewrite Forall_lookup in HB. by apply (HB i). }
  assert (Hd : forall a', a' = a -> (match a' with Some t => tcp_ok t | None => True end) -> drop n (drop 16 s) = rest ->
    exists hdr, s = hdr ++ rest /\ (16 <= length hdr)%nat /\ match a with Some t => tcp_ok t | None => True end).
  { intros a' -> Ha <-. exists (take 16 s ++ block). split_and!; [done|rewrite length_app, length_take; lia|done]. }
  assert (Hport : forall i, 0 <= be16 (default 0 (block !! i)) (default 0 (block !! S i)) < 65536).
  { intros i. unfold be16. pose proof (Hb i). pose proof (Hb (S i)). lia. }
  clearbody block. destruct (_ =? 0); [intros [= E1 E2]; by apply (Hd None)|].
  destruct (_ =? 1).
  - destruct (length block <? 12)%nat eqn:El; [done|]. apply Nat.ltb_ge in El. intros [= E1 E2]. eapply Hd; [exact E1| |done].
    split_and!; simpl; [left; rewrite length_take; lia|by apply Forall_take|apply (Hport 8%nat)|apply (Hport 8%nat)].
  - destruct (_ =? 2); [|intros [= E1 E2]; by apply (Hd None)].
    destruct (length block <? 36)%nat eqn:El; [done|]. apply Nat.ltb_ge in El. intros [= E1 E2]. eapply Hd; [exact E1| |done].
    split_and!; simpl; [right; rewrite length_take; lia|by apply Forall_take|apply (Hport 32%nat)|apply (Hport 32%nat)].
Qed.

Section Theorems.
Context `{Unicode}.

Lemma ReadHeader_written (s d : TCPAddr) (rest : list Z) :
  tcp_ok s -> tcp_ok d ->
  (exists ip, ReadHeader (WriteV2 (Some s) (Some d) ++ rest) = inr (Some (MkTCPAddr ip (Port s)), rest) /\
     To16 ip = To16 (IP s)) /\
  (forall src dst, src = None \/ dst = None ->
     ReadHeader (WriteV2 src dst ++ rest) = inr (None, rest)).
Proof.
  intros Hs Hd. assert (Hrd : forall body, ReadHeader ((v2Signature ++ body) ++ rest) = readV2 (v2Signature ++ body ++ rest)).
  { intros body. rewrite <- app_assoc. unfold ReadHeader.
    rewrite (proj2 (Nat.ltb_ge _ _)) by (rewrite !length_app; simpl; lia). by rewrite take_app_length'. }
  split.
  - unfold WriteV2. rewrite Hrd. destruct Hs as (Hs1 & Hs2 & Hs3), Hd as (Hd1 & Hd2 & Hd3).
    assert (H16 : exists s16 d16, To16 (IP s) = Some s16 /\ To16 (IP d) = Some d16 /\ length s16 = 16%nat /\ length d16 = 16%nat).
    { destruct (To16_ok s) as (s16 & E1 & L1), (To16_ok d) as (d16 & E2 & L2); try done. by exists s16, d16. }
    destruct H16 as (s16 & d16 & E1 & E2 & L1 & L2).
    destruct (To4 (IP s)) as [s4|] eqn:E4s; [destruct (To4 (IP d)) as [d4|] eqn:E4d|].
    1:{ exists s4. split; [|by apply To16_To4]. pose proof (To4_length _ _ E4s) as L4s. pose proof (To4_length _ _ E4d) as L4d.
        rewrite <- !app_assoc. pose proof (readV2_block 33 17 (s4 ++ d4 ++ put16 (Port s) ++ put16 (Port d)) rest) as R.
        rewrite !(put16_eq (Port _)) in * by done.
        rewrite !length_app, L4s, L4d in R. simpl length in R. rewrite <- !app_assoc in R.
        change (Z.of_nat (4 + (4 + (2 + 2)))) with 12 in R. cbn [app] in R |- *. rewrite R by (done || lia).
        destruct s4 as [|x1 [|x2 [|x3 [|x4 [|? ?]]]]]; try done. destruct d4 as [|y1 [|y2 [|y3 [|y4 [|? ?]]]]]; try done.
        simpl. by rewrite put16_be16. }
    all: exists s16; (split; [|by rewrite E1; unfold To16; rewrite bool_decide_false, bool_decide_true by lia]);
      rewrite E1, E2; cbn [default]; unfold id; rewrite <- !app_assoc;
      pose proof (readV2_block 33 33 (s16 ++ d16 ++ put16 (Port s) ++ put16 (Port d)) rest) as R;
      rewrite !(put16_eq (Port _)) in * by done;
      rewrite !length_app, L1, L2 in R; simpl length in R; rewrite <- !app_assoc in R;
      change (Z.of_nat (16 + (16 + (2 + 2)))) with 36 in R; cbn [app] in R |- *; rewrite R by (done || lia);
      change (Z.land 33 15 =? 0) with false; change (Z.shiftr 33 4 =? 1) with false; change (Z.shiftr 33 4 =? 2) with true;
      cbn iota; rewrite take_app_length' by done; rewrite !lookup_app_r by lia; rewrite L1, L2; simpl; by rewrite put16_be16.
  - intros src dst Hn. unfold WriteV2. rewrite Hrd. by destruct src, dst; destruct Hn.
Qed.

(** A header written for two TCP addresses is read back, whatever follows it
    on the stream: exactly its bytes are consumed and the source address and
    port are the ones written (an IPv4 address in either of its forms); a header
    for other addresses reads as one without an address. *)
Theorem WriteV2_roundtrip (s d : TCPAddr) (rest : list Z) :
  tcp_ok s -> tcp_ok d ->
  (exists ip, ReadHeader (WriteV2 (Some s) (Some d) ++ rest) = inr (Some (MkTCPAddr ip (Port s)), rest) /\
     To16 ip = To16 (IP s)) /\
  (forall src dst, src = None \/ dst = None ->
     ReadHeader (WriteV2 src dst ++ rest) = inr (None, rest)).
Proof. apply ReadHeader_written. Qed.

(** A header that is accepted is a prefix of the stream and nothing beyond it
    is consumed; a text header is one line of at most 108 bytes ending in CRLF;
    and an address it advertises is a well-formed IPv4 or IPv6 address with a
    port in range. *)
Theorem ReadHeader_sound (s : list Z) (a : option TCPAddr) (rest : list Z) :
  Forall is_byte s -> ReadHeader s = inr (a, rest) ->
  exists hdr, s = hdr ++ rest /\
    (HasPrefix hdr v2Signature = true \/ (HasPrefix hdr (str "PROXY ") = true /\ v1_shape hdr)) /\
    match a with Some t => tcp_ok t | None => True end.
Proof.
  intros HF. unfold ReadHeader. destruct (length s <? 12)%nat eqn:E12; [done|]. apply Nat.ltb_ge in E12.
  destruct (string_eqb (take 12 s) v2Signature) eqn:E2.
  - apply bool_decide_eq_true in E2. intros (hdr & Hs & Hl & Ha)%readV2_sound; [|done]. exists hdr.
    split_and!; [done| |done]. left. apply HasPrefix_spec. exists (drop 12 hdr).
    rewrite <- E2, Hs, take_app_le by lia. by rewrite take_drop.
  - destruct (HasPrefix (take 12 s) (str "PROXY ")) eqn:Ep; [|done]. unfold readV1.
    destruct (read_line v1MaxLen s) as [[l r]|] eqn:Er; [|done].
    destruct (_ && _) eqn:E3; [done|]. destruct (_ || _) eqn:E4; [done|].
    destruct (parse_v1 _) as [e|a'] eqn:Ev; [done|]. intros [= -> <-].
    destruct (v1_line_shape _ _ _ Er E3 E4) as [Hs Hsh]. exists l. split_and!; [done| |].
    + right. split; [|done]. apply HasPrefix_spec in Ep as [t Ep]. destruct Hsh as (_ & k & El & Hk).
      apply HasPrefix_spec. exists (drop 6 l).
      assert (Hl : (6 <= length l)%nat).
      { destruct (decide (6 <= length l)%nat) as [|Hn]; [done|]. exfalso.
        assert (H10 : 10 ∈ take 6 (take 12 s)).
        { rewrite take_take, Hs, El. rewrite take_app_ge by (rewrite <- El; lia).
          rewrite !elem_of_app. left. right. right. left. }
        rewrite Ep, take_app_length' in H10 by done. revert H10.
        by apply (proj1 (bool_decide_eq_false (10 ∈ str "PROXY "))). }
      assert (H6 : take 6 (take 12 s) = take 6 l) by (rewrite take_take, Hs; by apply take_app_le).
      rewrite Ep, take_app_length' in H6 by done. by rewrite H6, take_drop.
    + destruct a as [t|]; [|done]. by eapply parse_v1_ok.
Qed.
End Theorems.

Definition demo_src : TCPAddr := MkTCPAddr [10; 0; 0; 7] 40000.
Definition demo_dst : TCPAddr := MkTCPAddr (replicate 15 0 ++ [1]) 443.

Lemma WriteV2_roundtrip_witness :
  exists ip, ReadHeader (H := no_unicode) (WriteV2 (Some demo_src) (Some demo_dst) ++ str "GET /") =
    inr (Some (MkTCPAddr ip 40000), str "GET /") /\ To16 ip = Some (v4InV6Prefix ++ [10; 0; 0; 7]).
Proof.
  destruct (WriteV2_roundtrip (H := no_unicode) demo_src demo_dst (str "GET /")) as [E _].
  - split_and!; [by left|by repeat constructor|simpl; lia|simpl; lia].
  - split_and!; [by right|by repeat constructor|simpl; lia|simpl; lia].
  - exact E.
Defined.

Definition demo_v1 : list Z := str "PROXY TCP4 10.0.0.7 10.0.0.1 40000 80" ++ [13; 10] ++ str "GET".

Lemma ReadHeader_sound_witness :
  ReadHeader (H := no_unicode) demo_v1 =
    inr (Some (MkTCPAddr (v4InV6Prefix ++ [10; 0; 0; 7]) 40000), str "GET") /\
  exists hdr, demo_v1 = hdr ++ str "GET" /\ tcp_ok (MkTCPAddr (v4InV6Prefix ++ [10; 0; 0; 7]) 40000).
Proof.
  split; [reflexivity|].
  destruct (ReadHeader_sound (H := no_unicode) demo_v1 (Some (MkTCPAddr (v4InV6Prefix ++ [10; 0; 0; 7]) 40000)) (str "GET"))
    as (hdr & E & _ & T); [by repeat constructor|reflexivity|]. by exists hdr.
Defined.
