(* ===== verification/RateLimit.v ===== *)
(** * Rate limiting (src/internal/middleware/ratelimit.go)

    The sharded store of token buckets: lookup under a shard's lock with
    capacity eviction, the reservation outside it, and the idle sweep, as an
    interleaving of their critical sections over any number of goroutines.  The
    token bucket itself is [golang.org/x/time/rate], a parameter. *)

From S2P Require Import Prelude GoStrings Netip.

Definition rateLimiterShards : nat := 32.
Definition maxLimiterBucketsPerShard : nat := 4096.

(** ** Keys *)

(** The store key of a scope's key: [scopedLimiter.prefix + key]. *)
Definition scoped_key (scope key : gostring) : gostring :=
  Itoa (Z.of_nat (length scope)) ++ 58 :: scope ++ key.

Definition fnv32_step (h c : Z) : Z := u32 (Z.lxor h c * 16777619).

Definition shardIndex (key : gostring) : nat :=
  Z.to_nat (fold_left fnv32_step key 2166136261 mod Z.of_nat rateLimiterShards).

(** ** The store *)

Record rateLimiterEntry := MkEntry { e_lim : nat; e_limit : Z; e_burst : Z; e_lastSeen : Z }.

(** [order] is the list of keys, least recently used first; an element is named
    by its key. *)
Record rateLimiterShard := MkShard {
  sh_entries : gmap (list Z) rateLimiterEntry;
  sh_order : list gostring
}.

Definition list_remove (k : gostring) (l : list gostring) : list gostring := filter (fun x => x <> k) l.

Section Store.
Context {Lim Rsv : Type}.
Context (NewLimiter : Z -> Z -> Lim) (SetLimit SetBurst : Z -> Lim -> Lim).
Context (ReserveN : Z -> Lim -> Lim * Rsv) (rsv_OK : Rsv -> bool) (DelayFrom : Rsv -> Z -> Z)
  (CancelAt : Rsv -> Z -> Lim -> Lim).

(** The buckets by address, the shards, the reservations still to be made by a
    goroutine (the bucket it looked up and its clock reading), and the verdicts
    given. *)
Record store := MkStore {
  st_heap : list Lim;
  st_shards : list rateLimiterShard;
  st_pending : gmap nat (nat * Z);
  st_verdicts : list (nat * bool * Z)
}.

Definition NewRateLimiterStore : store :=
  MkStore [] (replicate rateLimiterShards (MkShard ∅ [])) ∅ [].

(** The eviction of the front of a full shard.  A full shard's order is never
    empty, so there is a front. *)
Definition make_room (sh : rateLimiterShard) : rateLimiterShard :=
  if bool_decide (maxLimiterBucketsPerShard <= size (sh_entries sh))%nat
  then match sh_order sh with
       | old :: rest => MkShard (delete old (sh_entries sh)) rest
       | [] => sh
       end
  else sh.

(** The critical section of [allow] on its shard: the bucket to reserve from. *)
Definition lookup_bucket (key : gostring) (limit burst now : Z) (heap : list Lim) (sh : rateLimiterShard)
  : list Lim * rateLimiterShard * nat :=
  match sh_entries sh !! key with
  | None =>
      let sh := make_room sh in
      let p := length heap in
      (heap ++ [NewLimiter limit burst],
       MkShard (<[key := MkEntry p limit burst now]> (sh_entries sh)) (sh_order sh ++ [key]), p)
  | Some e =>
      let heap := if e_limit e =? limit then heap else alter (SetLimit limit) (e_lim e) heap in
      let heap := if e_burst e =? burst then heap else alter (SetBurst burst) (e_lim e) heap in
      (heap, MkShard (<[key := MkEntry (e_lim e) limit burst now]> (sh_entries sh))
               (list_remove key (sh_order sh) ++ [key]), e_lim e)
  end.

(** The reservation after it. *)
Definition reserve (now : Z) (l : Lim) : Lim * (bool * Z) :=
  let '(l, r) := ReserveN now l in
  if negb (rsv_OK r) then (l, (false, 0))
  else
    let d := DelayFrom r now in
    if 0 <? d then (CancelAt r now l, (false, d)) else (l, (true, 0)).

Definition idle (cutoff : Z) (e : option rateLimiterEntry) : bool :=
  match e with Some e => e_lastSeen e <? cutoff | None => false end.

Definition evict_shard (cutoff : Z) (sh : rateLimiterShard) : rateLimiterShard :=
  MkShard (filter (fun ke => idle cutoff (Some ke.2) = false) (sh_entries sh))
    (filter (fun k => idle cutoff (sh_entries sh !! k) = false) (sh_order sh)).

Inductive rlabel :=
| RLookup (g : nat) (key : gostring) (limit burst now : Z)
| RReserve (g : nat)
| REvict (i : nat) (cutoff : Z).

Definition rate_exec (s : store) (l : rlabel) : option store :=
  match l with
  | RLookup g key limit burst now =>
      match st_pending s !! g, st_shards s !! shardIndex key with
      | None, Some sh =>
          let '(heap, sh, p) := lookup_bucket key limit burst now (st_heap s) sh in
          Some (MkStore heap (<[shardIndex key := sh]> (st_shards s)) (<[g := (p, now)]> (st_pending s))
                  (st_verdicts s))
      | _, _ => None
      end
  | RReserve g =>
      match st_pending s !! g with
      | Some (p, now) =>
          l ← st_heap s !! p;
          let '(l, (ok, d)) := reserve now l in
          Some (MkStore (<[p := l]> (st_heap s)) (st_shards s) (delete g (st_pending s))
                  ((g, ok, d) :: st_verdicts s))
      | None => None
      end
  | REvict i cutoff =>
      sh ← st_shards s !! i;
      Some (MkStore (st_heap s) (<[i := evict_shard cutoff sh]> (st_shards s)) (st_pending s) (st_verdicts s))
  end.

(** ** The invariant *)

(** The keys looked up, in the order of their last lookup. *)
Definition use (uses : list gostring) (l : rlabel) : list gostring :=
  match l with RLookup _ key _ _ _ => list_remove key uses ++ [key] | _ => uses end.

Record shard_ok (uses : list gostring) (i : nat) (sh : rateLimiterShard) : Prop := {
  so_nodup : NoDup (sh_order sh);
  so_entries k : k ∈ sh_order sh <-> is_Some (sh_entries sh !! k);
  so_bound : (size (sh_entries sh) <= maxLimiterBucketsPerShard)%nat;
  so_index k : k ∈ sh_order sh -> shardIndex k = i;
  so_lru : sh_order sh `sublist_of` uses
}.

Definition store_ok (uses : list gostring) (s : store) : Prop :=
  length (st_shards s) = rateLimiterShards /\
  forall i sh, st_shards s !! i = Some sh -> shard_ok uses i sh.

Lemma sublist_list_remove k l1 l2 : l1 `sublist_of` l2 -> list_remove k l1 `sublist_of` list_remove k l2.
Proof.
  unfold list_remove. induction 1 as [|x l1 l2 _ IH|x l1 l2 _ IH]; [constructor| |].
  - rewrite !filter_cons. case_decide; [by constructor|done].
  - rewrite filter_cons. case_decide; [by constructor|done].
Qed.

Lemma list_remove_notin k l : k ∉ l -> list_remove k l = l.
Proof.
  intros Hn. unfold list_remove. induction l as [|x l IH]; [done|]. apply not_elem_of_cons in Hn as [Hx Hl].
  rewrite filter_cons, decide_True by congruence. by rewrite IH.
Qed.

Lemma elem_of_list_remove k x l : x ∈ list_remove k l <-> x <> k /\ x ∈ l.
Proof. unfold list_remove. by rewrite list_elem_of_filter. Qed.

(** A key of another shard may be used without changing this one. *)
Lemma shard_ok_other uses i sh l :
  match l with RLookup _ key _ _ _ => shardIndex key <> i | _ => True end ->
  shard_ok uses i sh -> shard_ok (use uses l) i sh.
Proof.
  intros Hl [H1 H2 H3 H4 H5]. split; try done. destruct l as [g key lim b now|g|j c]; simpl; try done.
  apply sublist_inserts_r. rewrite <- (list_remove_notin key (sh_order sh)); [by apply sublist_list_remove|].
  intros Hk. apply Hl. by apply H4.
Qed.

Lemma make_room_ok uses i key sh :
  shard_ok uses i sh -> key ∉ sh_order sh ->
  shard_ok uses i (make_room sh) /\ (size (sh_entries (make_room sh)) < maxLimiterBucketsPerShard)%nat /\
  key ∉ sh_order (make_room sh) /\ sh_entries (make_room sh) !! key = None.
Proof.
  intros [H1 H2 H3 H4 H5] Hni. unfold make_room.
  assert (E : sh_entries sh !! key = None) by (apply eq_None_not_Some; by rewrite <- H2).
  case_bool_decide as Eb; [|split_and!; [done|lia|done|done]].
  destruct (sh_order sh) as [|old rest] eqn:Eo.
  { exfalso. assert (Hz : sh_entries sh = ∅).
    { apply map_empty. intros k. apply eq_None_not_Some. intros Hk. apply H2, elem_of_nil in Hk. done. }
    rewrite Hz, map_size_empty in Eb. unfold maxLimiterBucketsPerShard in Eb. lia. }
  apply NoDup_cons in H1 as [Ho H1]. apply not_elem_of_cons in Hni as [Hko Hni].
  assert (Hsz : size (delete old (sh_entries sh)) = pred (size (sh_entries sh))).
  { apply map_size_delete_Some. apply H2. left. }
  simpl. split_and!; [|rewrite Hsz; unfold maxLimiterBucketsPerShard in *; lia|done|by rewrite lookup_delete_ne].
  split; simpl; [done| |lia|intros k Hk; apply H4; by right|].
  - intros k. destruct (decide (k = old)) as [->|Hn]; [rewrite lookup_delete_eq; split; [done|by intros [? ?]]|].
    rewrite lookup_delete_ne, <- H2 by done. rewrite elem_of_cons. tauto.
  - eapply sublist_cons_l in H5 as (? & ? & -> & H5). by apply sublist_inserts_l, sublist_cons.
Qed.

Lemma lookup_bucket_ok uses i key limit burst now heap sh :
  shardIndex key = i -> shard_ok uses i sh ->
  shard_ok (list_remove key uses ++ [key]) i (lookup_bucket key limit burst now heap sh).1.2.
Proof.
  intros Hi [H1 H2 H3 H4 H5]. unfold lookup_bucket. destruct (sh_entries sh !! key) as [e|] eqn:E; simpl.
  - assert (Hin : key ∈ sh_order sh) by (apply H2; by eexists). split; simpl.
    + apply NoDup_app. split; [by apply NoDup_filter|]. split; [|apply NoDup_singleton].
      intros x [Hx _]%elem_of_list_remove Hk. by apply list_elem_of_singleton in Hk.
    + intros k. rewrite elem_of_app, elem_of_list_remove, list_elem_of_singleton.
      destruct (decide (k = key)) as [->|Hn]; [rewrite lookup_insert_eq; split; [by eexists|by right]|].
      rewrite lookup_insert_ne, H2 by done. tauto.
    + rewrite map_size_insert_Some by done. done.
    + intros k. rewrite elem_of_app, elem_of_list_remove, list_elem_of_singleton.
      intros [[_ Hk]|Hk]; [by apply H4|by rewrite Hk].
    + apply sublist_app; [by apply sublist_list_remove|done].
  - assert (Hni : key ∉ sh_order sh) by (rewrite H2; intros [e He]; congruence).
    pose proof (make_room_ok uses i key sh (Build_shard_ok _ _ _ H1 H2 H3 H4 H5) Hni) as S1.
    set (sh1 := make_room sh) in *.
    clearbody sh1. destruct S1 as ([K1 K2 K3 K4 K5] & Ks & Kn & Ke). split; simpl.
    + apply NoDup_app. split; [done|]. split; [|apply NoDup_singleton]. intros x Hx Hk.
      apply list_elem_of_singleton in Hk as ->. done.
    + intros k. rewrite elem_of_app, list_elem_of_singleton.
      destruct (decide (k = key)) as [->|Hn]; [rewrite lookup_insert_eq; split; [by eexists|by right]|].
      rewrite lookup_insert_ne, K2 by done. tauto.
    + rewrite map_size_insert_None by done. lia.
    + intros k. rewrite elem_of_app, list_elem_of_singleton. intros [Hk|Hk]; [by apply K4|by rewrite Hk].
    + apply sublist_app; [|done]. rewrite <- (list_remove_notin key (sh_order sh1)) by done. by apply sublist_list_remove.
Qed.

Lemma evict_shard_ok uses i cutoff sh : shard_ok uses i sh -> shard_ok uses i (evict_shard cutoff sh).
Proof.
  intros [H1 H2 H3 H4 H5]. unfold evict_shard. split; simpl.
  - by apply NoDup_filter.
  - intros k. rewrite list_elem_of_filter, H2, map_lookup_filter. split.
    + intros [Hi [e He]]. rewrite He in *. simpl in *. exists e. by rewrite option_guard_True.
    + intros [e (e' & He & Hg)%bind_Some]. rewrite He. simpl. case_guard; [|done]. split; [done|by eexists].
  - etrans; [apply map_size_filter|]. done.
  - intros k [_ Hk]%list_elem_of_filter. by apply H4.
  - etrans; [apply sublist_filter|done].
Qed.

Lemma rate_exec_ok uses s l s' : store_ok uses s -> rate_exec s l = Some s' -> store_ok (use uses l) s'.
Proof.
  intros [Hn Hs] E. destruct l as [g key limit burst now|g|i cutoff]; cbn [rate_exec use] in *.
  - destruct (st_pending s !! g); [done|]. destruct (st_shards s !! shardIndex key) as [sh|] eqn:Esh; [|done].
    pose proof (lookup_bucket_ok uses _ key limit burst now (st_heap s) sh eq_refl (Hs _ _ Esh)) as Hok.
    destruct (lookup_bucket _ _ _ _ _ _) as [[heap sh'] p]. injection E as <-. split; simpl; [by rewrite length_insert|].
    intros i sh2 Hi. apply list_lookup_insert_Some in Hi as [(<- & <- & _)|[Hne Hi]]; [done|].
    by apply (shard_ok_other uses i sh2 (RLookup g key limit burst now)), Hs.
  - destruct (st_pending s !! g) as [[p now]|]; [|done]. apply bind_Some in E as (lm & _ & E).
    destruct (reserve now lm) as [l' [ok d]]. by injection E as <-.
  - apply bind_Some in E as (sh & Esh & [= <-]). split; simpl; [by rewrite length_insert|].
    intros j sh2 Hj. apply list_lookup_insert_Some in Hj as [(<- & <- & _)|[_ Hj]]; [by apply evict_shard_ok, Hs|by apply Hs].
Qed.
End Store.

(** ** Theorems *)

(** In every interleaving of lookups, reservations and sweeps, from an empty
    store, each shard holds at most 4096 buckets, all of keys that hash to it;
    its recency list names exactly its buckets, each once, in the order of
    their last use, so that the bucket a full shard drops is the least recently
    used one and always exists. *)
Theorem rate_store_bounded {Lim Rsv} (NewLimiter : Z -> Z -> Lim) SetLimit SetBurst
    (ReserveN : Z -> Lim -> Lim * Rsv) rsv_OK DelayFrom CancelAt tr s i sh :
  trace (rate_exec NewLimiter SetLimit SetBurst ReserveN rsv_OK DelayFrom CancelAt) NewRateLimiterStore tr s ->
  st_shards s !! i = Some sh ->
  (i < rateLimiterShards)%nat /\ shard_ok (fold_left use tr []) i sh.
Proof.
  intros T Hi.
  assert (Hg : forall s0 uses, store_ok uses s0 ->
    trace (rate_exec NewLimiter SetLimit SetBurst ReserveN rsv_OK DelayFrom CancelAt) s0 tr s ->
    store_ok (fold_left use tr uses) s).
  { clear. induction tr as [|l tr IH]; intros s0 uses H0 T; inversion T as [|? ? s1 ? ? E T1]; subst; [done|].
    simpl. apply (IH s1); [|done]. by eapply rate_exec_ok. }
  assert (H0 : store_ok [] (NewRateLimiterStore (Lim := Lim))).
  { split; [done|]. intros j sh0 [-> _]%lookup_replicate. split; simpl; try done.
    - apply NoDup_nil_2.
    - intros k. rewrite lookup_empty, elem_of_nil. split; [done|by intros [? ?]].
    - rewrite map_size_empty. unfold maxLimiterBucketsPerShard. lia.
    - by intros k ?%elem_of_nil. }
  destruct (Hg _ _ H0 T) as [Hn Hs]. split; [|by apply Hs]. rewrite <- Hn. by eapply lookup_lt_Some.
Qed.

(** Two policies never share a bucket: the store key of a scope and a key
    determines both, so distinct scopes, or distinct keys of one scope, have
    distinct buckets. *)
Theorem scoped_key_injective (scope scope' key key' : gostring) :
  Z.of_nat (length scope) <= max_int64 -> Z.of_nat (length scope') <= max_int64 ->
  scoped_key scope key = scoped_key scope' key' -> scope = scope' /\ key = key'.
Proof.
  intros Hl Hl' E. apply Itoa_length_cut in E as [E1 E2]; try done. by apply app_inj_1 in E2.
Qed.

Lemma scoped_key_injective_witness :
  scoped_key (str "api") (str "1:x") = str "3:api1:x" /\
  (scoped_key (str "api") (str "1:x") = scoped_key (str "api") (str "1:x") -> str "api" = str "api" /\ str "1:x" = str "1:x").
Proof.
  split; [reflexivity|].
  apply (scoped_key_injective (str "api") (str "api") (str "1:x") (str "1:x")); vm_compute; congruence.
Defined.

(** A bucket that always grants, for a concrete run. *)
Definition demo_exec : store (Lim := Z) -> rlabel -> option (store (Lim := Z)) :=
  rate_exec (fun _ burst => burst) (fun _ l => l) (fun b _ => b) (fun _ l => (l - 1, 0 <? l))
    (fun ok => ok) (fun _ _ => 0) (fun _ _ l => l + 1).

Definition demo_run : list rlabel :=
  [RLookup 1 (str "a") 5 2 10; RLookup 2 (str "b") 5 2 11; RReserve 1; RLookup 1 (str "a") 5 2 12; RReserve 2; RReserve 1].

Lemma rate_store_bounded_witness :
  match exec_trace demo_exec NewRateLimiterStore demo_run with
  | Some s => match st_shards s !! shardIndex (str "a") with
              | Some sh => sh_order sh = [str "a"] /\ shard_ok (fold_left use demo_run []) (shardIndex (str "a")) sh
              | None => False
              end
  | None => False
  end.
Proof.
  destruct (exec_trace demo_exec NewRateLimiterStore demo_run) as [s|] eqn:E; [|by vm_compute in E].
  destruct (st_shards s !! shardIndex (str "a")) as [sh|] eqn:Es.
  - split; [|by eapply (rate_store_bounded (fun _ burst => burst) (fun _ l => l) (fun b _ => b)
      (fun _ l => (l - 1, 0 <? l)) (fun ok => ok) (fun _ _ => 0) (fun _ _ l => l + 1) demo_run s);
      [apply exec_trace_trace; exact E|exact Es]].
    vm_compute in E. injection E as <-. vm_compute in Es. by injection Es as <-.
  - exfalso. vm_compute in E. injection E as <-. by vm_compute in Es.
Defined.
