(* ===== verification/Encoding.v ===== *)
(** * Content negotiation of the compression middleware
      (src/internal/middleware/compress.go, cache_control.go)

    Which content coding a request accepts, which media types are compressed,
    and the no-transform directive.  A weight is a float64 between 0 and 1; it is
    given by its bits, which order these numbers, and strconv.ParseFloat is a
    parameter. *)

From S2P Require Import Prelude GoStrings Http.

(** ** Weights *)

(** The bits of 1.0. *)
Definition one : Z := 4607182418800017408.

(** [strconv.ParseFloat] followed by the test for a number between 0 and 1;
    [None] stands for an error, a number outside, and not-a-number. *)
Class Weights := {
  parse_weight : gostring -> option Z;
  parse_weight_range : forall s w, parse_weight s = Some w -> 0 <= w <= one
}.

(** ** What a request accepts *)

(** The array of sixteen entries and the map behind it. *)
Record acceptEncodingSet := MkAccept { ae_entries : list (gostring * Z); ae_overflow : gmap gostring Z }.

Definition no_codings : acceptEncodingSet := MkAccept [] ∅.

Section Accept.
Context `{Unicode, Weights}.

(** The first entry of a name, lowered to a smaller weight. *)
Fixpoint lower_entry (name : gostring) (q : Z) (l : list (gostring * Z)) : option (list (gostring * Z)) :=
  match l with
  | [] => None
  | (n, w) :: l => if EqualFold n name then Some ((n, if q <? w then q else w) :: l) else cons (n, w) <$> lower_entry name q l
  end.

Definition record (name : gostring) (q : Z) (s : acceptEncodingSet) : acceptEncodingSet :=
  match lower_entry name q (ae_entries s) with
  | Some l => MkAccept l (ae_overflow s)
  | None =>
      if (length (ae_entries s) <? 16)%nat then MkAccept (ae_entries s ++ [(name, q)]) (ae_overflow s)
      else
        let key := ToLower name in
        match ae_overflow s !! key with
        | Some old => if q <? old then MkAccept (ae_entries s) (<[key := q]> (ae_overflow s)) else s
        | None => MkAccept (ae_entries s) (<[key := q]> (ae_overflow s))
        end
  end.

Definition exactQuality (s : acceptEncodingSet) (name : gostring) : option Z :=
  match List.find (fun e => EqualFold e.1 name) (ae_entries s) with
  | Some e => Some e.2
  | None => ae_overflow s !! ToLower name
  end.

Definition quality (s : acceptEncodingSet) (name : gostring) : option Z :=
  match exactQuality s name with Some q => Some q | None => exactQuality s (str "*") end.

(** The parameters of a coding, cut at semicolons while any text is left: one
    weight, and anything else refuses the coding. *)
Fixpoint weigh (seen : bool) (q : Z) (params : list gostring) : Z :=
  match params with
  | [] | [[]] => q
  | p :: params =>
      let p := TrimSpace p in
      if negb (HasPrefix p (str "q=")) || seen then 0
      else match parse_weight (TrimSpace (drop 2 p)) with
           | None => 0
           | Some v => weigh true v params
           end
  end.

(** An element of the list between commas, trimmed. *)
Definition coding (part : gostring) : gostring * Z :=
  let '(name, params, hasParams) := CutByte part 59 in
  if hasParams then (TrimSpace name, weigh false one (SplitByte params 59)) else (name, one).

Definition header_codings (header : gostring) : list (gostring * Z) :=
  map coding (filter (fun part => part <> []) (map TrimSpace (SplitByte header 44))).

Definition parseHeader (header : gostring) (s : acceptEncodingSet) : acceptEncodingSet :=
  foldl (fun s c => record c.1 c.2 s) s (header_codings header).

(** The best of the codings on offer, in server order. *)
Definition better (s : acceptEncodingSet) (best : option gostring * Z) (name : gostring) : option gostring * Z :=
  match quality s name with
  | Some q => if (q <=? 0) || (q <=? best.2) then best else (Some name, q)
  | None => best
  end.

Definition negotiate (pools : list gostring) (h : Header) : option gostring :=
  let values := header_Values h (str "Accept-Encoding") in
  if bool_decide (values = []) then None
  else
    let s := foldl (fun s v => parseHeader v s) no_codings values in
    if bool_decide (ae_entries s = []) then None else (foldl (better s) (None, 0) pools).1.

Definition AcceptsEncoding (header name : gostring) : bool :=
  match quality (parseHeader header no_codings) name with Some q => 0 <? q | None => false end.

(** ** Media types *)

Record mimeMatcher := MkMime { mm_all : bool; mm_exact : gset gostring; mm_families : gset gostring }.

Definition add_type (m : mimeMatcher) (t : gostring) : mimeMatcher :=
  let t := ToLower (TrimSpace t) in
  if string_eqb t [] then m
  else if string_eqb t (str "*") || string_eqb t (str "*/*") then MkMime true (mm_exact m) (mm_families m)
  else if HasSuffix t (str "/*") then MkMime (mm_all m) (mm_exact m) ({[TrimSuffix t (str "/*")]} ∪ mm_families m)
  else MkMime (mm_all m) ({[t]} ∪ mm_exact m) (mm_families m).

Definition newMimeMatcher (types : list gostring) : mimeMatcher := foldl add_type (MkMime false ∅ ∅) types.

Definition mediaType (contentType : gostring) : gostring :=
  ToLower (TrimSpace (match IndexByte contentType 59 with Some i => take i contentType | None => contentType end)).

Definition mime_match (m : mimeMatcher) (contentType : gostring) : bool :=
  if mm_all m then true
  else
    let mt := mediaType contentType in
    if string_eqb mt [] then false
    else if bool_decide (mt ∈ mm_exact m) then true
    else match IndexByte mt 47 with
         | Some i => (0 <? i)%nat && bool_decide (take i mt ∈ mm_families m)
         | None => false
         end.

(** ** The no-transform directive *)

Definition is_no_transform (part : gostring) : bool :=
  let part := TrimSpace part in
  let part := match IndexByte part 61 with Some eq => TrimSpace (take eq part) | None => part end in
  EqualFold part (str "no-transform").

(** The scan of a value: [cur] is the text since the last comma. *)
Fixpoint scan_directives (cur : gostring) (quoted escaped : bool) (value : gostring) : bool :=
  match value with
  | [] => is_no_transform cur
  | c :: value =>
      if negb quoted && (c =? 44) then is_no_transform cur || scan_directives [] quoted escaped value
      else if (c =? 92) && quoted && negb escaped then scan_directives (cur ++ [c]) quoted true value
      else if (c =? 34) && negb escaped then scan_directives (cur ++ [c]) (negb quoted) false value
      else scan_directives (cur ++ [c]) quoted false value
  end.

Definition cacheControlNoTransform (h : Header) : bool :=
  existsb (scan_directives [] false false) (header_Values h (str "Cache-Control")).
End Accept.

(** ** The weight of a coding *)

(** The lowest of the weights a list gives a name, whatever its case. *)
Definition lowest_of (o : option Z) (q : Z) : option Z := Some (match o with Some w => Z.min w q | None => q end).

Definition lowest (l : list (gostring * Z)) (name : gostring) (o : option Z) : option Z :=
  foldl (fun o c => if string_eqb (lower_ascii c.1) (lower_ascii name) then lowest_of o c.2 else o) o l.

(** Its own weight, or that of the wildcard. *)
Definition weight (l : list (gostring * Z)) (name : gostring) : option Z :=
  match lowest l name None with Some q => Some q | None => lowest l (str "*") None end.

Definition ascii_named (c : gostring * Z) : Prop := ascii c.1 = true.

Definition set_ok (s : acceptEncodingSet) : Prop :=
  Forall ascii_named (ae_entries s) /\ ((length (ae_entries s) < 16)%nat -> ae_overflow s = ∅).

Section Quality.
Context `{Unicode, Weights}.

Lemma string_eqb_eq s t : string_eqb s t = true <-> s = t.
Proof. apply bool_decide_eq_true. Qed.

Lemma EqualFold_ascii a b : ascii a = true -> ascii b = true -> EqualFold a b = string_eqb (lower_ascii a) (lower_ascii b).
Proof. intros Ha Hb. unfold EqualFold. by rewrite Ha, Hb. Qed.

Lemma ToLower_ascii a : ascii a = true -> ToLower a = lower_ascii a.
Proof. intros Ha. unfold ToLower. by rewrite Ha. Qed.

Definition entry_weight (l : list (gostring * Z)) (name : gostring) : option Z :=
  snd <$> List.find (fun e => EqualFold e.1 name) l.

Lemma exactQuality_entry s name :
  exactQuality s name = match entry_weight (ae_entries s) name with Some q => Some q | None => ae_overflow s !! ToLower name end.
Proof. unfold exactQuality, entry_weight. by destruct (List.find _ _). Qed.

Lemma lower_entry_named name q l l' : Forall ascii_named l -> lower_entry name q l = Some l' -> Forall ascii_named l' /\ length l' = length l.
Proof.
  intros HF. revert l'. induction HF as [|[n w] l Hn HF IH]; intros l'; cbn; [done|]. destruct (EqualFold n name).
  - intros [= <-]. split; [by constructor|done].
  - intros (k & E & ->)%fmap_Some. apply IH in E as [HF' HL]. split; [by constructor|cbn; lia].
Qed.

Lemma lower_entry_weight name q l name' : Forall ascii_named l -> ascii name = true -> ascii name' = true ->
  match lower_entry name q l with
  | Some l' => is_Some (entry_weight l name) /\
      entry_weight l' name' = if string_eqb (lower_ascii name) (lower_ascii name') then lowest_of (entry_weight l name') q else entry_weight l name'
  | None => entry_weight l name = None
  end.
Proof.
  intros HF Ha Ha'. unfold entry_weight. induction HF as [|[n w] l Hn HF IH]; [done|]. cbn in *. unfold ascii_named in Hn. cbn in Hn.
  rewrite !EqualFold_ascii by done. destruct (string_eqb (lower_ascii n) (lower_ascii name)) eqn:E1; cbn.
  - rewrite !EqualFold_ascii by done. split; [by eexists|]. apply string_eqb_eq in E1. rewrite <- E1.
    destruct (string_eqb (lower_ascii n) (lower_ascii name')); [|done]. cbn. unfold lowest_of. f_equal. destruct (q <? w) eqn:Eq; lia.
  - destruct (lower_entry name q l) as [l'|]; cbn; [|exact IH]. rewrite EqualFold_ascii by done. destruct IH as [HS IH]. split; [done|].
    destruct (string_eqb (lower_ascii n) (lower_ascii name')) eqn:E2; [|done]. apply string_eqb_eq in E2. rewrite <- E2.
    destruct (string_eqb (lower_ascii name) (lower_ascii n)) eqn:E3; [|done]. apply string_eqb_eq in E3.
    by rewrite E3, (proj2 (string_eqb_eq _ _) eq_refl) in E1.
Qed.

Lemma entry_weight_app l e name : entry_weight (l ++ [e]) name =
  match entry_weight l name with Some q => Some q | None => if EqualFold e.1 name then Some e.2 else None end.
Proof.
  unfold entry_weight. induction l as [|x l IH]; cbn; [by destruct (EqualFold e.1 name)|]. by destruct (EqualFold x.1 name).
Qed.

Lemma entry_weight_fold l name name' : Forall ascii_named l -> ascii name = true -> ascii name' = true ->
  lower_ascii name = lower_ascii name' -> entry_weight l name = entry_weight l name'.
Proof.
  intros HF Ha Ha' E. unfold entry_weight. induction HF as [|x l Hx HF IH]; [done|]. cbn.
  rewrite !EqualFold_ascii by done. rewrite E. by destruct (string_eqb _ _).
Qed.

Lemma record_ok name q s : ascii name = true -> set_ok s -> set_ok (record name q s).
Proof.
  intros Ha [HF HO]. unfold record. destruct (lower_entry name q (ae_entries s)) as [l|] eqn:E.
  - apply lower_entry_named in E as [HF' HL]; [|done]. split; cbn; [done|]. by rewrite HL.
  - destruct (length (ae_entries s) <? 16)%nat eqn:EL.
    + split; cbn; [by apply Forall_app; repeat constructor|]. intros _. by apply HO, Nat.ltb_lt.
    + apply Nat.ltb_ge in EL. repeat case_match; (split; cbn; [done|intros; exfalso; lia]).
Qed.

Lemma record_quality name q s name' : ascii name = true -> ascii name' = true -> set_ok s ->
  exactQuality (record name q s) name' =
  if string_eqb (lower_ascii name) (lower_ascii name') then lowest_of (exactQuality s name') q else exactQuality s name'.
Proof.
  intros Ha Ha' [HF HO]. rewrite !exactQuality_entry, (ToLower_ascii name') by done. unfold record. rewrite (ToLower_ascii name) by done.
  pose proof (lower_entry_weight name q (ae_entries s) name' HF Ha Ha') as HW.
  destruct (lower_entry name q (ae_entries s)) as [l|]; cbn [ae_entries ae_overflow].
  - destruct HW as [[w Hw] ->]. destruct (string_eqb _ _) eqn:E; [|done]. apply string_eqb_eq in E.
    rewrite (entry_weight_fold _ _ name') in Hw by done. by rewrite Hw.
  - destruct (string_eqb (lower_ascii name) (lower_ascii name')) eqn:E.
    + apply string_eqb_eq in E. pose proof HW as HW'. rewrite (entry_weight_fold _ _ name') in HW' by done. rewrite <- E, HW'.
      destruct (length (ae_entries s) <? 16)%nat eqn:EL; cbn [ae_entries ae_overflow].
      * rewrite entry_weight_app, EqualFold_ascii by done. rewrite HW'. cbn [fst snd]. rewrite E, (proj2 (string_eqb_eq _ _) eq_refl).
        apply Nat.ltb_lt in EL. rewrite HO by done. by rewrite lookup_empty.
      * destruct (ae_overflow s !! lower_ascii name) as [w|] eqn:EO; [destruct (q <? w) eqn:Eq|]; cbn [ae_entries ae_overflow]; rewrite HW'.
        -- rewrite lookup_insert_eq. unfold lowest_of. f_equal. lia.
        -- rewrite EO. unfold lowest_of. f_equal. lia.
        -- by rewrite lookup_insert_eq.
    + assert (lower_ascii name <> lower_ascii name') as En by (intros Eq; by rewrite Eq, (proj2 (string_eqb_eq _ _) eq_refl) in E).
      destruct (length (ae_entries s) <? 16)%nat eqn:EL; cbn [ae_entries ae_overflow].
      * rewrite entry_weight_app, EqualFold_ascii by done. cbn [fst snd]. rewrite E. by destruct (entry_weight _ name').
      * destruct (ae_overflow s !! lower_ascii name) as [w|]; [destruct (q <? w)|]; cbn [ae_entries ae_overflow]; try done; by rewrite lookup_insert_ne.
Qed.

Lemma records_quality l : forall s name, Forall ascii_named l -> ascii name = true -> set_ok s ->
  set_ok (foldl (fun s c => record c.1 c.2 s) s l) /\
  exactQuality (foldl (fun s c => record c.1 c.2 s) s l) name = lowest l name (exactQuality s name).
Proof.
  induction l as [|c l IH]; intros s name HF Ha HS; [done|]. inversion_clear HF as [|?? Hc HF']. cbn.
  destruct (IH (record c.1 c.2 s) name HF' Ha) as [HS' ->]; [by apply record_ok|]. split; [done|].
  unfold lowest. cbn. by rewrite record_quality.
Qed.

(** All the codings of a request, over its lines. *)
Definition request_codings (h : Header) : list (gostring * Z) :=
  concat (map header_codings (header_Values h (str "Accept-Encoding"))).

Lemma parseHeaders_records values : forall s,
  foldl (fun s v => parseHeader v s) s values = foldl (fun s c => record c.1 c.2 s) s (concat (map header_codings values)).
Proof. induction values as [|v values IH]; intros s; [done|]. cbn. rewrite IH, foldl_app. done. Qed.

Lemma request_quality h name : Forall ascii_named (request_codings h) -> ascii name = true ->
  quality (foldl (fun s v => parseHeader v s) no_codings (header_Values h (str "Accept-Encoding"))) name = weight (request_codings h) name.
Proof.
  intros HF Ha. rewrite parseHeaders_records. fold (request_codings h). unfold quality, weight.
  assert (set_ok no_codings) as HS by (split; [constructor|done]).
  rewrite (proj2 (records_quality _ _ name HF Ha HS)).
  by rewrite (proj2 (records_quality _ _ (str "*") HF eq_refl HS)).
Qed.

(** ** The choice *)

(** The codings before the best one are worse, and those behind no better. *)
Lemma better_best s pools : forall best n q,
  0 <= best.2 -> (best.1 = None -> best.2 = 0) -> foldl (better s) best pools = (Some n, q) ->
  (best = (Some n, q) /\ Forall (fun m => default 0 (quality s m) <= q) pools) \/
  (best.2 < q /\ exists before after, pools = before ++ n :: after /\ quality s n = Some q /\
    Forall (fun m => default 0 (quality s m) < q) before /\ Forall (fun m => default 0 (quality s m) <= q) after).
Proof.
  induction pools as [|m pools IH]; intros best n q Hb Hn; cbn [foldl]; [intros ->; by left; split|].
  unfold better at 2. destruct (quality s m) as [w|] eqn:Eq; [destruct ((w <=? 0) || (w <=? best.2)) eqn:Ew|].
  - intros [[-> HF]|(Hlt & before & after & -> & HQ & HB & HA)]%IH; [left|right|done|done].
    + split; [done|]. constructor; [|done]. rewrite Eq. cbn in *. lia.
    + split; [done|]. exists (m :: before), after. split_and!; [done|done| |done]. constructor; [|done]. rewrite Eq. cbn. lia.
  - intros [[[= -> ->] HF]|(Hlt & before & after & -> & HQ & HB & HA)]%IH; cbn in *; [right|right|lia|done].
    + split; [lia|]. by exists [], pools.
    + split; [lia|]. exists (m :: before), after. split_and!; [done|done| |done]. constructor; [|done]. rewrite Eq. cbn. lia.
  - intros [[-> HF]|(Hlt & before & after & -> & HQ & HB & HA)]%IH; [left|right|done|done].
    + split; [done|]. constructor; [|done]. rewrite Eq. cbn in *. lia.
    + split; [done|]. exists (m :: before), after. split_and!; [done|done| |done]. constructor; [|done]. rewrite Eq. cbn. lia.
Qed.

Lemma better_none s pools : forall best, 0 <= best.2 ->
  ((foldl (better s) best pools).1 = None <-> best.1 = None /\ Forall (fun m => default 0 (quality s m) <= best.2) pools).
Proof.
  induction pools as [|m pools IH]; intros best Hb; cbn [foldl]; [split; [by split|by intros [? _]]|].
  unfold better at 2. destruct (quality s m) as [w|] eqn:Eq; [destruct ((w <=? 0) || (w <=? best.2)) eqn:Ew|].
  - rewrite IH by done. rewrite Forall_cons, Eq. cbn. split; [intros [? ?]; split_and!; [done|lia|done]|naive_solver].
  - rewrite IH by (cbn; lia). rewrite Forall_cons, Eq. cbn. split; [by intros [? _]|intros (_ & ? & _); lia].
  - rewrite IH by done. rewrite Forall_cons, Eq. cbn. split; [intros [? ?]; split_and!; [done|lia|done]|naive_solver].
Qed.

(** The coding chosen is the first, in server order, of those with the greatest
    weight above zero; none is chosen exactly when no coding on offer has one.
    The weight of a coding is the lowest the request gives it on any of its lines,
    however many codings it names, and the wildcard's if it does not name it. *)
Theorem negotiate_exact (pools : list gostring) (h : Header) :
  Forall ascii_named (request_codings h) -> Forall (fun n => ascii n = true) pools ->
  let w n := default 0 (weight (request_codings h) n) in
  match negotiate pools h with
  | Some n => exists before after, pools = before ++ n :: after /\ 0 < w n /\
      Forall (fun m => w m < w n) before /\ Forall (fun m => w m <= w n) after
  | None => Forall (fun m => w m <= 0) pools
  end.
Proof.
  intros HF HP w. unfold negotiate. set (values := header_Values h (str "Accept-Encoding")).
  set (s := foldl (fun s v => parseHeader v s) no_codings values).
  assert (forall m, m ∈ pools -> w m = default 0 (quality s m)) as Hw.
  { intros m Hm. subst w. cbn. f_equal. symmetry. apply request_quality; [done|]. by eapply Forall_forall in HP. }
  assert (forall l, (forall m, m ∈ l -> m ∈ pools) -> forall P : Z -> Prop,
    Forall (fun m => P (default 0 (quality s m))) l -> Forall (fun m => P (w m)) l) as HQ.
  { intros l Hl P. rewrite !Forall_forall. intros HA m Hm. rewrite Hw by auto. by apply HA. }
  destruct (bool_decide (values = [])) eqn:Ev; [|destruct (bool_decide (ae_entries s = [])) eqn:Ee].
  - apply (HQ pools (fun _ => id) (fun z => z <= 0)). apply bool_decide_eq_true in Ev. subst s. rewrite Ev. by apply Forall_true.
  - apply (HQ pools (fun _ => id) (fun z => z <= 0)). apply bool_decide_eq_true in Ee. apply Forall_true. intros m.
    assert (set_ok s) as [_ HO].
    { subst s. rewrite parseHeaders_records. apply (records_quality _ _ []); [done|done|]. by split; [constructor|]. }
    unfold quality, exactQuality. rewrite Ee, HO by (rewrite Ee; cbn; lia). cbn. by rewrite !lookup_empty.
  - destruct (foldl (better s) (None, 0) pools) as [[n|] q] eqn:EB; cbn.
    + apply better_best in EB as [[? _]|(Hq & before & after & E & EQ & HB & HA)]; [done| |done|done].
      exists before, after. assert (w n = q) as -> by (rewrite Hw by (rewrite E; set_solver); by rewrite EQ). split_and!; [done|done| |].
      * apply (HQ before) with (P := fun z => z < q); [rewrite E; set_solver|done].
      * apply (HQ after) with (P := fun z => z <= q); [rewrite E; set_solver|done].
    + apply (HQ pools (fun _ => id) (fun z => z <= 0)). by apply (better_none s pools (None, 0)); [|rewrite EB].
Qed.
End Quality.

(** ** Media types *)

(** What the entries of the allow-list stand for. *)
Definition type_allows `{Unicode} (t contentType : gostring) : Prop :=
  let t := ToLower (TrimSpace t) in
  let mt := mediaType contentType in
  t = str "*" \/ t = str "*/*" \/ (t <> [] /\ HasSuffix t (str "/*") = false /\ mt = t) \/
  exists family sub, t = family ++ str "/*" /\ family <> [] /\ 47 ∉ family /\ mt = family ++ 47 :: sub.

Section Mime.
Context `{Unicode}.

Definition in_family (families : gset gostring) (mt : gostring) : Prop :=
  exists family sub, family ∈ families /\ family <> [] /\ 47 ∉ family /\ mt = family ++ 47 :: sub.

Lemma family_index (families : gset gostring) mt :
  match IndexByte mt 47 with Some i => (0 <? i)%nat && bool_decide (take i mt ∈ families) | None => false end = true <-> in_family families mt.
Proof.
  destruct (decide (47 ∈ mt)) as [Hin|Hn].
  - apply list_elem_of_split_l in Hin as (family & sub & -> & Hf). rewrite IndexByte_app, take_app_length by done.
    rewrite andb_true_iff, Nat.ltb_lt, bool_decide_eq_true. split.
    + intros [Hl Hm]. exists family, sub. by destruct family; [cbn in Hl; lia|].
    + intros (f & s & Hm & Hn & Hf' & E). apply cut_unique in E as [-> ->]; [|done|done]. split; [|done]. destruct f; [done|cbn; lia].
  - rewrite IndexByte_notin by done. split; [done|]. intros (f & s & _ & _ & _ & ->). set_solver.
Qed.

Lemma mime_match_iff m ct : mime_match m ct = true <->
  mm_all m = true \/ (mediaType ct <> [] /\ (mediaType ct ∈ mm_exact m \/ in_family (mm_families m) (mediaType ct))).
Proof.
  unfold mime_match. destruct (mm_all m); [naive_solver|]. unfold string_eqb. case_bool_decide as E1; [naive_solver|].
  case_bool_decide as E2; [naive_solver|]. rewrite family_index. naive_solver.
Qed.

Lemma add_type_match m t ct : mime_match (add_type m t) ct = true <-> mime_match m ct = true \/ type_allows t ct.
Proof.
  rewrite !mime_match_iff. unfold add_type, type_allows. cbv zeta. set (u := ToLower (TrimSpace t)). set (mt := mediaType ct).
  destruct (string_eqb u []) eqn:E0; [|destruct (string_eqb u (str "*") || string_eqb u (str "*/*")) eqn:E1; [|destruct (HasSuffix u (str "/*")) eqn:E2]].
  - apply string_eqb_eq in E0. rewrite E0. split; [by left|]. intros [?|[?|[?|[[? _]|(f & s & E & _)]]]]; try done. by destruct f.
  - apply orb_true_iff in E1. rewrite !string_eqb_eq in E1. cbn. naive_solver.
  - apply HasSuffix_spec in E2 as [f Ef]. rewrite Ef, TrimSuffix_app. cbn [mm_all mm_exact mm_families]. rewrite Ef in E1.
    apply orb_false_iff in E1 as [E1 E1']. split.
    + intros [?|[Hm [?|(f' & s & Hf & Hn & Hs & E)]]]; [by left; left|left; right; naive_solver|].
      apply elem_of_union in Hf as [->%elem_of_singleton|Hf].
      * right. right. right. right. by exists f, s.
      * left. right. split; [done|]. right. by exists f', s.
    + intros [[?|[Hm [?|(f' & s & Hf & HR)]]]|[Hs|[Hs|[(_ & Hs & _)|(f' & s & E & Hn & Hs & Em)]]]].
      * by left.
      * right. naive_solver.
      * right. split; [done|]. right. exists f', s. split; [set_solver|done].
      * by rewrite Hs in E1.
      * by rewrite Hs in E1'.
      * done.
      * apply app_inv_tail in E as ->. right. split; [rewrite Em; by destruct f'|]. right. exists f', s. split; [set_solver|done].
  - cbn [mm_all mm_exact mm_families]. apply orb_false_iff in E1 as [E1 E1'].
    assert (u <> []) as Hu by (intros E; by rewrite E in E0).
    split.
    + intros [?|[Hm [Hx|?]]]; [by left; left| |left; right; naive_solver].
      apply elem_of_union in Hx as [->%elem_of_singleton|Hx]; [right; right; right; by left|left; right; naive_solver].
    + intros [[?|[Hm [?|?]]]|[Hs|[Hs|[(_ & _ & Hs)|(f' & s & E & _)]]]]; [by left|right; set_solver|right; naive_solver| | | |].
      * by rewrite Hs in E1.
      * by rewrite Hs in E1'.
      * right. rewrite Hs. split; [done|]. left. set_solver.
      * by rewrite E, HasSuffix_app in E2.
Qed.

(** A media type is compressed exactly when an entry of the allow-list stands
    for it: the type itself, its family or everything. *)
Lemma mime_match_exact types ct : mime_match (newMimeMatcher types) ct = true <-> Exists (fun t => type_allows t ct) types.
Proof.
  unfold newMimeMatcher. assert (forall m, mime_match (foldl add_type m types) ct = true <-> mime_match m ct = true \/ Exists (fun t => type_allows t ct) types) as HG.
  { induction types as [|t types IH]; intros m; cbn; [rewrite Exists_nil; tauto|]. rewrite IH, add_type_match, Exists_cons. tauto. }
  rewrite HG, mime_match_iff. cbn. unfold in_family. set_solver.
Qed.
End Mime.

(** ** Examples *)

Definition demo_parse_weight (s : gostring) : option Z :=
  if string_eqb s (str "0") then Some 0 else if string_eqb s (str "0.5") then Some 4602678819172646912 else if string_eqb s (str "1") then Some one else None.

Lemma demo_parse_weight_range s w : demo_parse_weight s = Some w -> 0 <= w <= one.
Proof. unfold demo_parse_weight, one. repeat case_match; intros [= <-]; lia. Qed.

Definition demo_weights : Weights := {| parse_weight := demo_parse_weight; parse_weight_range := demo_parse_weight_range |}.

Definition demo_accept : Header :=
  {[str "Accept-Encoding" := [str "br;q=0.5, GZIP, *;q=0"; str "gzip; q=0.5"]]}.

Lemma negotiate_exact_witness :
  negotiate (H := no_unicode) (H0 := demo_weights) [str "zstd"; str "gzip"; str "br"] demo_accept = Some (str "gzip") /\
  exists before after, [str "zstd"; str "gzip"; str "br"] = before ++ str "gzip" :: after.
Proof.
  assert (negotiate (H := no_unicode) (H0 := demo_weights) [str "zstd"; str "gzip"; str "br"] demo_accept = Some (str "gzip")) as E by (by vm_compute).
  split; [done|].
  pose proof (negotiate_exact (H := no_unicode) (H0 := demo_weights) [str "zstd"; str "gzip"; str "br"] demo_accept) as HT.
  cbv zeta in HT. rewrite E in HT.
  destruct HT as (before & after & EP & _).
  - vm_compute. by repeat constructor.
  - by repeat constructor.
  - by exists before, after.
Defined.
