(* ===== verification/Compress.v ===== *)
(** * The compressing response writer (src/internal/middleware/compress.go)

    The writer between a handler and the response: it holds back the start of
    the body until it can decide whether to compress, and then encodes or passes
    on what the handler writes.  What it does to the writer below is the list of
    the calls it makes.  The encoders are third-party or library code and are
    given by their steps, with the law that decoding gives back what was written;
    the failure of a call below is not modelled, nor is the metrics callback. *)

From S2P Require Import Prelude GoStrings Bytes Http Cors Encoding.

(** ** Encoders *)

(** A streaming encoder, by the chunks it passes on; [Reset] starts it anew. *)
Record encoder := MkEncoder {
  e_state : Type;
  e_init : e_state;
  e_write : e_state -> list Z -> e_state * list (list Z);
  e_flush : e_state -> e_state * list (list Z);
  e_close : e_state -> list (list Z)
}.

Inductive encAct := EWrite (b : list Z) | EFlush.

Definition act_bytes (a : encAct) : list Z := match a with EWrite b => b | EFlush => [] end.

Definition enc_step (e : encoder) (so : e_state e * list (list Z)) (a : encAct) : e_state e * list (list Z) :=
  let '(st, out) := match a with EWrite b => e_write e so.1 b | EFlush => e_flush e so.1 end in (st, so.2 ++ out).

Definition enc_run (e : encoder) (acts : list encAct) : e_state e * list (list Z) := foldl (enc_step e) (e_init e, []) acts.

(** Decoding all that was passed on, the end included, gives back the input. *)
Definition lossless (e : encoder) (decode : list Z -> option (list Z)) : Prop :=
  forall acts, let '(st, out) := enc_run e acts in decode (concat (out ++ e_close e st)) = Some (concat (map act_bytes acts)).

Lemma enc_run_snoc e acts a : enc_run e (acts ++ [a]) = enc_step e (enc_run e acts) a.
Proof. unfold enc_run. by rewrite foldl_app. Qed.

Record encoderPool := MkPool { ep_name : gostring; ep_encoder : encoder }.

(** ** The writer *)

(** The calls on the writer below: a status with the header at that time, a part
    of the body, a flush. *)
Inductive downCall := DStatus (code : Z) (h : Header) | DWrite (b : list Z) | DFlush.

Definition maxCompressionProbeBytes : Z := 65536.

Definition bodyAllowed (code : Z) : bool :=
  negb ((100 <=? code) && (code <? 200)) && negb ((code =? 204) || (code =? 304)).

Definition hAE : gostring := str "Accept-Encoding".
Definition hCE : gostring := str "Content-Encoding".
Definition hCL : gostring := str "Content-Length".
Definition hAR : gostring := str "Accept-Ranges".
Definition hCT : gostring := str "Content-Type".
Definition hETag : gostring := str "Etag".

Definition weaken (v : gostring) : gostring :=
  if string_eqb v [] || HasPrefix v (str "W/") then v else str "W/" ++ v.

Definition weakenETag (h : Header) : Header :=
  let values := header_Values h (str "ETag") in
  if bool_decide (values = []) then h else <[hETag := map weaken values]> h.

Section Writer.
Context `{Unicode}.
Context (pool : encoderPool) (mime : mimeMatcher) (minSize : Z) (req : Header).
(** [http.DetectContentType], and whether the writer below can flush. *)
Context (DetectContentType : list Z -> gostring) (can_flush : bool).

Record compressWriter := MkCW {
  cw_header : Header;
  cw_calls : list downCall;
  cw_buf : list Z;
  cw_code : Z;
  cw_sawHeader : bool;
  cw_headerWritten : bool;
  cw_decided : bool;
  cw_hijacked : bool;
  cw_enc : option (e_state (ep_encoder pool))
}.

Definition cw_init (h : Header) : compressWriter := MkCW h [] [] 0 false false false false None.

Definition set_header (h : Header) (w : compressWriter) : compressWriter :=
  MkCW h (cw_calls w) (cw_buf w) (cw_code w) (cw_sawHeader w) (cw_headerWritten w) (cw_decided w) (cw_hijacked w) (cw_enc w).

Definition call (l : list downCall) (w : compressWriter) : compressWriter :=
  MkCW (cw_header w) (cw_calls w ++ l) (cw_buf w) (cw_code w) (cw_sawHeader w) (cw_headerWritten w) (cw_decided w) (cw_hijacked w) (cw_enc w).

Definition set_buf (b : list Z) (w : compressWriter) : compressWriter :=
  MkCW (cw_header w) (cw_calls w) b (cw_code w) (cw_sawHeader w) (cw_headerWritten w) (cw_decided w) (cw_hijacked w) (cw_enc w).

Definition set_decided (enc : option (e_state (ep_encoder pool))) (w : compressWriter) : compressWriter :=
  MkCW (cw_header w) (cw_calls w) (cw_buf w) (cw_code w) (cw_sawHeader w) (cw_headerWritten w) true (cw_hijacked w) enc.

Definition flushHeader (w : compressWriter) : compressWriter :=
  if cw_headerWritten w then w
  else
    let h := addVary (cw_header w) hAE in
    let code := if cw_sawHeader w then cw_code w else 200 in
    MkCW h (cw_calls w ++ [DStatus code h]) (cw_buf w) code (cw_sawHeader w) true (cw_decided w) (cw_hijacked w) (cw_enc w).

Definition startPassthrough (w : compressWriter) : compressWriter := flushHeader (set_decided None w).

Definition startCompress (w : compressWriter) : compressWriter :=
  let h := header_Set (cw_header w) hCE (ep_name pool) in
  let h := header_Del (header_Del h hCL) hAR in
  set_decided (Some (e_init (ep_encoder pool))) (flushHeader (set_header (weakenETag h) (set_decided (cw_enc w) w))).

Definition no_transform (w : compressWriter) : bool := cacheControlNoTransform req || cacheControlNoTransform (cw_header w).

Definition decide_encoding (w : compressWriter) : compressWriter :=
  if cw_decided w then w
  else if negb (bool_decide (header_Values req (str "Range") = [])) || no_transform w then startPassthrough w
  else
    let ct := header_Get (cw_header w) hCT in
    let '(ct, w) := if string_eqb ct [] then (DetectContentType (cw_buf w), set_header (header_Set (cw_header w) hCT (DetectContentType (cw_buf w))) w)
                    else (ct, w) in
    if negb (mime_match mime ct) then startPassthrough w else startCompress w.

Definition cw_WriteHeader (code : Z) (w : compressWriter) : compressWriter :=
  if cw_sawHeader w then w
  else if interim code then call [DStatus code (cw_header w)] w
  else
    let w := MkCW (cw_header w) (cw_calls w) (cw_buf w) code true (cw_headerWritten w) (cw_decided w) (cw_hijacked w) (cw_enc w) in
    if negb (bodyAllowed code) || negb (bool_decide (header_Values (cw_header w) hCE = [])) || no_transform w
    then startPassthrough w else w.

(** A write to the encoder, or below if there is none. *)
Definition pass (b : list Z) (w : compressWriter) : compressWriter :=
  match cw_enc w with
  | Some st => let '(st, out) := e_write (ep_encoder pool) st b in set_decided (Some st) (call (map DWrite out) w)
  | None => call [DWrite b] w
  end.

Definition flushBuf (w : compressWriter) : compressWriter :=
  if bool_decide (cw_buf w = []) then w else set_buf [] (pass (cw_buf w) w).

Definition implicit_header (w : compressWriter) : compressWriter := if cw_sawHeader w then w else cw_WriteHeader 200 w.

Definition cw_Write (b : list Z) (w : compressWriter) : compressWriter :=
  let w := implicit_header w in
  if cw_decided w then pass b w
  else if (maxCompressionProbeBytes <? minSize) && (maxCompressionProbeBytes - zlen (cw_buf w) <? zlen b) then
    call [DWrite b] (flushBuf (startPassthrough w))
  else
    let w := set_buf (cw_buf w ++ b) w in
    if minSize <=? zlen (cw_buf w) then flushBuf (decide_encoding w) else w.

Definition cw_Flush (w : compressWriter) : compressWriter :=
  if cw_hijacked w then w
  else
    let w := flushBuf (decide_encoding (implicit_header w)) in
    let w := match cw_enc w with
             | Some st => let '(st, out) := e_flush (ep_encoder pool) st in set_decided (Some st) (call (map DWrite out) w)
             | None => w
             end in
    if can_flush then call [DFlush] w else w.

Definition cw_Hijack (ok : bool) (w : compressWriter) : compressWriter :=
  MkCW (cw_header w) (cw_calls w) (cw_buf w) (cw_code w) (cw_sawHeader w) (cw_headerWritten w) (cw_decided w) (ok || cw_hijacked w) (cw_enc w).

Definition cw_close (w : compressWriter) : compressWriter :=
  if cw_hijacked w then w
  else
    let w := flushBuf (if cw_decided w then w else startPassthrough w) in
    match cw_enc w with
    | Some st => set_decided None (call (map DWrite (e_close (ep_encoder pool) st)) w)
    | None => w
    end.

(** What a handler does: edit the header map, write a status or a part of the
    body, flush, take over the connection. *)
Inductive handlerOp := HHeader (f : Header -> Header) | HStatus (code : Z) | HWrite (b : list Z) | HFlush | HHijack (ok : bool).

Definition handler_step (w : compressWriter) (o : handlerOp) : compressWriter :=
  match o with
  | HHeader f => set_header (f (cw_header w)) w
  | HStatus code => cw_WriteHeader code w
  | HWrite b => cw_Write b w
  | HFlush => cw_Flush w
  | HHijack ok => cw_Hijack ok w
  end.

(** A response: the handler's operations and the close. *)
Definition compressed (h : Header) (ops : list handlerOp) : compressWriter := cw_close (foldl handler_step (cw_init h) ops).

(** ** What is delivered *)

Definition op_bytes (o : handlerOp) : list Z := match o with HWrite b => b | _ => [] end.

Definition written (ops : list handlerOp) : list Z := concat (map op_bytes ops).

Definition header_after (h : Header) (ops : list handlerOp) : Header :=
  foldl (fun h o => match o with HHeader f => f h | _ => h end) h ops.

(** The final status, and the header when it was written: the first that is not
    an interim one, or 200 with the first part of the body or flush. *)
Definition latch (h : Header) (o : handlerOp) : option (Z * Header) :=
  match o with
  | HStatus code => if interim code then None else Some (code, h)
  | HWrite _ | HFlush => Some (200, h)
  | HHeader _ | HHijack _ => None
  end.

Fixpoint final_status (h : Header) (ops : list handlerOp) : option (Z * Header) :=
  match ops with
  | [] => None
  | o :: ops => match latch h o with Some r => Some r | None => final_status (header_after h [o]) ops end
  end.

Definition call_body (c : downCall) : list Z := match c with DWrite b => b | _ => [] end.
Definition body (l : list downCall) : list Z := concat (map call_body l).

Definition interim_call (c : downCall) : Prop := match c with DStatus code _ => interim code = true | _ => False end.
Definition after_status (c : downCall) : Prop := match c with DStatus _ _ => False | _ => True end.

Definition keeps (ks : list gostring) (h h' : Header) : Prop := forall k, k ∉ ks -> h' !! k = h !! k.

Definition varies (h : Header) : Prop := exists v, v ∈ header_Values h hVary /\ (v = star \/ EqualFold v hAE = true).

Definition weak (v : gostring) : Prop := v = [] \/ HasPrefix v (str "W/") = true.

Definition plain_fields : list gostring := [hVary; hCT].
Definition coded_fields : list gostring := [hVary; hCT; hCE; hCL; hAR; hETag].

(** When a response is encoded, and what its header then says: [h0] is the
    header when the status was written, [hh] the handler's when it was sent, and
    [h] the one sent. *)
Record may_encode (code : Z) (h0 hh h : Header) : Prop := {
  m_body : bodyAllowed code = true;
  m_identity : header_Values h0 hCE = [];
  m_range : header_Values req (str "Range") = [];
  m_request : cacheControlNoTransform req = false;
  m_response : cacheControlNoTransform h = false;
  m_mime : mime_match mime (header_Get h hCT) = true;
  m_coding : header_Values h hCE = [ep_name pool];
  m_length : header_Values h hCL = [];
  m_ranges : header_Values h hAR = [];
  m_etag : Forall weak (header_Values h (str "ETag"));
  m_keeps : keeps coded_fields hh h
}.

(** The state once the header is sent, [W] being what the handler has written. *)
Definition sent (code : Z) (h0 hh : Header) (W : list Z) (w : compressWriter) : Prop :=
  cw_decided w = true /\ cw_headerWritten w = true /\ cw_hijacked w = false /\
  exists interims h calls, cw_calls w = interims ++ DStatus code h :: calls /\
    Forall interim_call interims /\ Forall after_status calls /\ varies h /\
    match cw_enc w with
    | None => keeps plain_fields hh h /\ body calls ++ cw_buf w = W
    | Some st => may_encode code h0 hh h /\ exists acts out, enc_run (ep_encoder pool) acts = (st, out) /\
        body calls = concat out /\ concat (map act_bytes acts) ++ cw_buf w = W
    end.

(** The states before: nothing held back yet, and the start of the body. *)
Definition fresh (hh : Header) (w : compressWriter) : Prop :=
  cw_decided w = false /\ cw_headerWritten w = false /\ cw_hijacked w = false /\ cw_enc w = None /\
  Forall interim_call (cw_calls w) /\ cw_buf w = [] /\ cw_header w = hh /\ cw_sawHeader w = false.

Definition held (code : Z) (h0 hh : Header) (W : list Z) (w : compressWriter) : Prop :=
  cw_decided w = false /\ cw_headerWritten w = false /\ cw_hijacked w = false /\ cw_enc w = None /\
  Forall interim_call (cw_calls w) /\ cw_buf w = W /\ cw_header w = hh /\ cw_sawHeader w = true /\
  cw_code w = code /\ bodyAllowed code = true /\ header_Values h0 hCE = [].

(** The state after an operation: nothing is held back once the header is sent. *)
Definition settled (code : Z) (h0 hh : Header) (W : list Z) (w : compressWriter) : Prop :=
  sent code h0 hh W w /\ cw_buf w = [] /\ cw_sawHeader w = true.

Definition progress (h : Header) (ops : list handlerOp) (w : compressWriter) : Prop :=
  match final_status h ops with
  | None => fresh (header_after h ops) w /\ written ops = []
  | Some (code, h0) =>
      held code h0 (header_after h ops) (written ops) w \/
      exists pre, pre `prefix_of` ops /\ settled code h0 (header_after h pre) (written ops) w
  end.

Lemma body_app l k : body (l ++ k) = body l ++ body k.
Proof. unfold body. by rewrite map_app, concat_app. Qed.

Lemma body_writes l : body (map DWrite l) = concat l.
Proof. unfold body. rewrite map_map. cbn. by rewrite map_id. Qed.

Lemma writes_after l : Forall after_status (map DWrite l).
Proof. apply Forall_map, Forall_true. done. Qed.

Lemma written_app ops o : written (ops ++ [o]) = written ops ++ op_bytes o.
Proof. unfold written. rewrite map_app, concat_app. cbn. by rewrite app_nil_r. Qed.

Lemma header_after_app h ops o : header_after h (ops ++ [o]) = header_after (header_after h ops) [o].
Proof. unfold header_after. by rewrite foldl_app. Qed.

Lemma final_status_app h ops o :
  final_status h (ops ++ [o]) = match final_status h ops with Some r => Some r | None => latch (header_after h ops) o end.
Proof.
  revert h. induction ops as [|p ops IH]; intros h; cbn [app final_status].
  - change (header_after h []) with h. by destruct (latch h o).
  - destruct (latch h p); [done|]. by rewrite IH.
Qed.

Lemma varies_addVary h : varies (addVary h hAE).
Proof. by apply addVary_covers. Qed.

(** Fields other than Vary are not touched by [addVary]. *)
Lemma addVary_Values h name : CanonicalHeaderKey name <> hVary -> header_Values (addVary h hAE) name = header_Values h name.
Proof. intros Hn. unfold header_Values. by rewrite addVary_lookup. Qed.

Lemma startPassthrough_sent code h0 w : cw_headerWritten w = false -> cw_hijacked w = false -> Forall interim_call (cw_calls w) ->
  (if cw_sawHeader w then cw_code w else 200) = code ->
  sent code h0 (cw_header w) (cw_buf w) (startPassthrough w).
Proof.
  intros HW HH HI HC. unfold startPassthrough, flushHeader. cbn. rewrite HW. cbn. split_and!; [done|done|done|].
  rewrite HC. exists (cw_calls w), (addVary (cw_header w) hAE), []. split_and!; [done|done|by apply Forall_nil|apply varies_addVary|].
  split; [|done]. intros k Hk. apply addVary_lookup. set_solver.
Qed.

Lemma pass_sent code h0 hh W b w : sent code h0 hh W w -> cw_buf w = [] -> sent code h0 hh (W ++ b) (pass b w) /\ cw_buf (pass b w) = [].
Proof.
  intros (HD & HW & HH & interims & h & calls & EC & HI & HA & HV & HE) HB. unfold pass. rewrite HB in HE.
  destruct (cw_enc w) as [st|] eqn:Ee.
  - destruct (e_write (ep_encoder pool) st b) as [st' out'] eqn:EW. split; [|done]. split_and!; [done|done|done|].
    destruct HE as [HM (acts & out & ER & EB & EA)]. rewrite app_nil_r in EA.
    exists interims, h, (calls ++ map DWrite out'). cbn. rewrite EC, <- app_assoc. split_and!; [done|done| |done|done|].
    + apply Forall_app. split; [done|apply writes_after].
    + exists (acts ++ [EWrite b]), (out ++ out'). rewrite enc_run_snoc, ER. unfold enc_step. cbn [fst snd]. rewrite EW.
      rewrite body_app, body_writes, concat_app, EB, map_app, concat_app, HB, <- EA. cbn. by rewrite !app_nil_r.
  - split; [|done]. split_and!; [done|done|done|]. destruct HE as [HK EB]. rewrite app_nil_r in EB.
    exists interims, h, (calls ++ [DWrite b]). cbn. rewrite EC, <- app_assoc. split_and!; [done|done| |done|].
    + apply Forall_app. split; [done|by repeat constructor].
    + rewrite Ee. split; [done|]. rewrite HB, body_app, EB. cbn. by rewrite !app_nil_r.
Qed.

(** The buffer counts as written but not yet passed on. *)
Lemma sent_buf code h0 hh W w : sent code h0 hh W w -> exists W', W = W' ++ cw_buf w /\ sent code h0 hh W' (set_buf [] w).
Proof.
  intros (HD & HW & HH & interims & h & calls & EC & HI & HA & HV & HE). unfold sent. cbn. destruct (cw_enc w) as [st|].
  - destruct HE as [HM (acts & out & ER & EB & EA)]. exists (concat (map act_bytes acts)). split; [done|].
    split_and!; [done|done|done|]. exists interims, h, calls. split_and!; [done|done|done|done|done|].
    exists acts, out. by rewrite app_nil_r.
  - destruct HE as [HK EB]. exists (body calls). split; [done|]. split_and!; [done|done|done|].
    exists interims, h, calls. by rewrite app_nil_r.
Qed.

Lemma flushBuf_sent code h0 hh W w : sent code h0 hh W w -> sent code h0 hh W (flushBuf w) /\ cw_buf (flushBuf w) = [].
Proof.
  intros HS. unfold flushBuf. case_bool_decide as HB; [done|]. apply sent_buf in HS as (W' & -> & HS).
  pose proof (pass_sent _ _ _ _ (cw_buf w) _ HS eq_refl) as HS'.
  assert (set_buf [] (pass (cw_buf w) w) = pass (cw_buf w) (set_buf [] w)) as ->; [|done].
  unfold pass. cbn. destruct (cw_enc w) as [st|]; [|done]. by destruct (e_write _ st (cw_buf w)).
Qed.

Lemma encFlush_sent code h0 hh W w st st' out' : sent code h0 hh W w -> cw_enc w = Some st -> e_flush (ep_encoder pool) st = (st', out') ->
  sent code h0 hh W (set_decided (Some st') (call (map DWrite out') w)).
Proof.
  intros (HD & HW & HH & interims & h & calls & EC & HI & HA & HV & HE) Ee EF. rewrite Ee in HE.
  destruct HE as [HM (acts & out & ER & EB & EA)]. split_and!; [done|done|done|].
  exists interims, h, (calls ++ map DWrite out'). cbn. rewrite EC, <- app_assoc. split_and!; [done|done| |done|done|].
  - apply Forall_app. split; [done|apply writes_after].
  - exists (acts ++ [EFlush]), (out ++ out'). rewrite enc_run_snoc, ER. unfold enc_step. cbn [fst snd]. rewrite EF.
    rewrite body_app, body_writes, concat_app, EB, map_app, concat_app. cbn. by rewrite app_nil_r.
Qed.

Lemma flushCall_sent code h0 hh W w : sent code h0 hh W w -> sent code h0 hh W (call [DFlush] w).
Proof.
  intros (HD & HW & HH & interims & h & calls & EC & HI & HA & HV & HE). split_and!; [done|done|done|].
  exists interims, h, (calls ++ [DFlush]). cbn. rewrite EC, <- app_assoc. split_and!; [done|done| |done|].
  - apply Forall_app. split; [done|by repeat constructor].
  - rewrite body_app. cbn. by rewrite app_nil_r.
Qed.

(** ** The decision *)

Lemma header_Values_Set h name v name' : header_Values (header_Set h name v) name' =
  if decide (CanonicalHeaderKey name = CanonicalHeaderKey name') then [v] else header_Values h name'.
Proof.
  unfold header_Values, header_Set. case_decide as E; [by rewrite E, lookup_insert_eq|by rewrite lookup_insert_ne].
Qed.

Lemma weakenETag_lookup h k : k <> hETag -> weakenETag h !! k = h !! k.
Proof. intros Hk. unfold weakenETag. case_bool_decide; [done|]. by rewrite lookup_insert_ne. Qed.

Lemma weakenETag_weak h : Forall weak (header_Values (weakenETag h) (str "ETag")).
Proof.
  unfold weakenETag. case_bool_decide as E; [rewrite E; constructor|]. unfold header_Values at 1.
  change (CanonicalHeaderKey (str "ETag")) with hETag. rewrite lookup_insert_eq. cbn. apply Forall_map, Forall_true. intros v.
  unfold weaken, weak, string_eqb. case_bool_decide as Ev; [by left|]. cbn [orb].
  destruct (HasPrefix v (str "W/")) eqn:Ew; right; [done|]. apply HasPrefix_app.
Qed.

(** The header a compressed response is sent with. *)
Definition coded_header (h : Header) : Header :=
  addVary (weakenETag (header_Del (header_Del (header_Set h hCE (ep_name pool)) hCL) hAR)) hAE.

Lemma coded_lookup h k : coded_header h !! k =
  if decide (k = hVary) then coded_header h !! k
  else if decide (k = hETag) then weakenETag (header_Del (header_Del (header_Set h hCE (ep_name pool)) hCL) hAR) !! k
  else if decide (k = hAR) then None else if decide (k = hCL) then None else if decide (k = hCE) then Some [ep_name pool] else h !! k.
Proof.
  case_decide as E1; [done|]. unfold coded_header. rewrite addVary_lookup by done. case_decide as E2; [done|].
  rewrite weakenETag_lookup by done. unfold header_Del, header_Set.
  change (CanonicalHeaderKey hAR) with hAR. change (CanonicalHeaderKey hCL) with hCL. change (CanonicalHeaderKey hCE) with hCE.
  case_decide as E3; [subst; by rewrite lookup_delete_eq|]. rewrite lookup_delete_ne by done.
  case_decide as E4; [subst; by rewrite lookup_delete_eq|]. rewrite lookup_delete_ne by done.
  case_decide as E5; [subst; by rewrite lookup_insert_eq|]. by rewrite lookup_insert_ne.
Qed.

Lemma coded_may_encode code h0 hh h : bodyAllowed code = true -> header_Values h0 hCE = [] -> header_Values req (str "Range") = [] ->
  cacheControlNoTransform req = false -> cacheControlNoTransform h = false -> mime_match mime (header_Get h hCT) = true ->
  keeps plain_fields hh h -> may_encode code h0 hh (coded_header h).
Proof.
  intros HB HI HR HQ HP HM HK.
  assert (forall name k, CanonicalHeaderKey name = k -> header_Values (coded_header h) name = default [] (coded_header h !! k)) as HV
    by (by intros name k <-).
  constructor; try done.
  - unfold cacheControlNoTransform in *. by rewrite (HV _ (str "Cache-Control")), coded_lookup.
  - unfold header_Get in *. by rewrite (HV _ hCT), coded_lookup.
  - by rewrite (HV _ hCE), coded_lookup.
  - by rewrite (HV _ hCL), coded_lookup.
  - by rewrite (HV _ hAR), coded_lookup.
  - unfold coded_header. rewrite addVary_Values by done. apply weakenETag_weak.
  - intros k Hk. rewrite coded_lookup. unfold coded_fields in Hk. rewrite !not_elem_of_cons in Hk.
    destruct Hk as (K1 & K2 & K3 & K4 & K5 & K6 & _). repeat (case_decide; [done|]). apply HK. unfold plain_fields. set_solver.
Qed.

Lemma keeps_no_transform h h' : keeps plain_fields h h' -> cacheControlNoTransform h' = cacheControlNoTransform h.
Proof.
  intros HK. unfold cacheControlNoTransform, header_Values. rewrite HK; [done|].
  apply (bool_decide_eq_true_1 _). by vm_compute.
Qed.

Lemma decide_sent code h0 w : cw_decided w = false -> cw_headerWritten w = false -> cw_hijacked w = false -> cw_enc w = None ->
  Forall interim_call (cw_calls w) -> cw_sawHeader w = true -> cw_code w = code -> bodyAllowed code = true -> header_Values h0 hCE = [] ->
  sent code h0 (cw_header w) (cw_buf w) (decide_encoding w).
Proof.
  intros HD HW HH HE HI HS HC HB H0. unfold decide_encoding. rewrite HD.
  destruct (negb _ || no_transform w) eqn:EN; [by apply startPassthrough_sent; [..|rewrite HS]|].
  apply orb_false_iff in EN as [ER ET]. apply negb_false_iff, bool_decide_eq_true in ER. apply orb_false_iff in ET as [EQ EP].
  set (ct := header_Get (cw_header w) hCT).
  assert (exists w', (if string_eqb ct [] then (DetectContentType (cw_buf w), set_header (header_Set (cw_header w) hCT (DetectContentType (cw_buf w))) w) else (ct, w))
     = (header_Get (cw_header w') hCT, w') /\ w' = set_header (cw_header w') w /\ keeps plain_fields (cw_header w) (cw_header w')) as (w' & -> & -> & HK).
  { destruct (string_eqb ct []); [|exists w; split_and!; [done|by destruct w|done]].
    eexists. split; [f_equal|split; [done|]].
    - cbn. unfold header_Get. rewrite header_Values_Set. by rewrite decide_True.
    - intros k Hk. cbn. unfold header_Set. change (CanonicalHeaderKey hCT) with hCT. rewrite lookup_insert_ne; [done|]. unfold plain_fields in Hk. set_solver. }
  cbn in HK. set (h := cw_header w') in *. destruct (mime_match mime _) eqn:EM; cbn [negb].
  - unfold startCompress, flushHeader. cbn. rewrite HW, HS. cbn. split_and!; [done|done|done|].
    exists (cw_calls w), (coded_header h), []. rewrite HC. split_and!; [done|done|by apply Forall_nil|apply varies_addVary|].
    cbn. split; [|by exists [], []]. apply coded_may_encode; try done.
    by rewrite (keeps_no_transform _ _ HK).
  - destruct (startPassthrough_sent code h0 (set_header h w) HW HH HI) as (A & B & C & interims & hs & calls & EC & I & J & V & HE'); [by cbn; rewrite HS|].
    split_and!; [done|done|done|]. exists interims, hs, calls. split_and!; [done|done|done|done|].
    revert HE'. unfold startPassthrough, flushHeader. cbn. rewrite HW. cbn. intros [HK' EB]. split; [|done].
    intros k Hk. by rewrite HK', HK.
Qed.

(** ** The operations *)

Lemma saw_pass b w : cw_sawHeader (pass b w) = cw_sawHeader w.
Proof. unfold pass. destruct (cw_enc w) as [st|]; [|done]. by destruct (e_write _ st b). Qed.

Lemma saw_flushBuf w : cw_sawHeader (flushBuf w) = cw_sawHeader w.
Proof. unfold flushBuf. case_bool_decide; [done|]. apply saw_pass. Qed.

Lemma saw_startPassthrough w : cw_sawHeader (startPassthrough w) = cw_sawHeader w.
Proof. unfold startPassthrough, flushHeader. cbn. by destruct (cw_headerWritten w). Qed.

Lemma buf_startPassthrough w : cw_buf (startPassthrough w) = cw_buf w.
Proof. unfold startPassthrough, flushHeader. cbn. by destruct (cw_headerWritten w). Qed.

Lemma enc_startPassthrough w : cw_enc (flushBuf (startPassthrough w)) = None.
Proof.
  assert (cw_enc (startPassthrough w) = None) as HE by (unfold startPassthrough, flushHeader; cbn; by destruct (cw_headerWritten w)).
  unfold flushBuf, pass. case_bool_decide; [done|]. by rewrite HE.
Qed.

Lemma saw_decide w : cw_sawHeader (decide_encoding w) = cw_sawHeader w.
Proof.
  unfold decide_encoding, startCompress, startPassthrough, flushHeader. destruct (cw_decided w); [done|].
  destruct (negb _ || _); [cbn; by destruct (cw_headerWritten w)|].
  destruct (string_eqb _ []); cbn; destruct (negb (mime_match _ _)); cbn; by destruct (cw_headerWritten w).
Qed.

Lemma sent_settled code h0 hh W w : sent code h0 hh W w -> cw_sawHeader w = true -> settled code h0 hh W (flushBuf w).
Proof.
  intros HS Hs. destruct (flushBuf_sent _ _ _ _ _ HS) as [HS' HB]. split_and!; [done|done|]. by rewrite saw_flushBuf.
Qed.

Lemma settled_pass code h0 hh W b w : settled code h0 hh W w -> settled code h0 hh (W ++ b) (pass b w).
Proof.
  intros (HS & HB & Hs). destruct (pass_sent _ _ _ _ b _ HS HB) as [HS' HB']. split_and!; [done|done|]. by rewrite saw_pass.
Qed.

Lemma held_decide code h0 hh W w : held code h0 hh W w -> settled code h0 hh W (flushBuf (decide_encoding w)).
Proof.
  intros (HD & HW & HH & HE & HI & HB & Hh & Hs & HC & HA & H0). apply sent_settled; [|by rewrite saw_decide].
  rewrite <- HB, <- Hh. by apply decide_sent.
Qed.

Lemma held_passthrough code h0 hh W w : held code h0 hh W w -> settled code h0 hh W (flushBuf (startPassthrough w)).
Proof.
  intros (HD & HW & HH & HE & HI & HB & Hh & Hs & HC & HA & H0). apply sent_settled; [|by rewrite saw_startPassthrough].
  rewrite <- HB, <- Hh. apply startPassthrough_sent; try done. by rewrite Hs.
Qed.

Lemma WriteHeader_cases code hh w : fresh hh w -> interim code = false ->
  held code hh hh [] (cw_WriteHeader code w) \/ settled code hh hh [] (cw_WriteHeader code w).
Proof.
  intros (HD & HW & HH & HE & HI & HB & Hh & Hs) Hi. unfold cw_WriteHeader. rewrite Hs, Hi.
  set (w' := MkCW _ _ _ _ _ _ _ _ _). destruct (negb (bodyAllowed code) || _ || _) eqn:EB.
  - right. split_and!; [|by rewrite buf_startPassthrough|by rewrite saw_startPassthrough].
    rewrite <- HB, <- Hh. by apply (startPassthrough_sent code (cw_header w) w').
  - left. apply orb_false_iff in EB as [[EB EC]%orb_false_iff _]. apply negb_false_iff in EB, EC.
    apply bool_decide_eq_true in EC. cbn in EC. rewrite Hh in EC. by split_and!.
Qed.

(** The state in which a write or a flush finds the writer. *)
Lemma implicit_cases h ops w : progress h ops w ->
  let '(code, h0) := default (200, header_after h ops) (final_status h ops) in
  held code h0 (header_after h ops) (written ops) (implicit_header w) \/
  exists pre, pre `prefix_of` ops /\ settled code h0 (header_after h pre) (written ops) (implicit_header w).
Proof.
  unfold progress, implicit_header. destruct (final_status h ops) as [[code h0]|]; cbn.
  - intros [HP|(pre & Hp & HP)].
    + replace (cw_sawHeader w) with true by (symmetry; apply HP). by left.
    + replace (cw_sawHeader w) with true by (symmetry; apply HP). right. by exists pre.
  - intros [HP ->]. replace (cw_sawHeader w) with false by (symmetry; apply HP).
    destruct (WriteHeader_cases 200 _ _ HP eq_refl) as [HC|HC]; [by left|]. right. by exists ops.
Qed.

Lemma Write_progress h ops w b : progress h ops w -> progress h (ops ++ [HWrite b]) (cw_Write b w).
Proof.
  intros HP%implicit_cases. unfold progress. rewrite final_status_app, written_app, header_after_app. cbn [latch op_bytes].
  change (header_after (header_after h ops) [HWrite b]) with (header_after h ops).
  assert (forall r, match final_status h ops with Some p => Some p | None => Some r end = Some (default r (final_status h ops))) as ->
    by (intros r; by destruct (final_status h ops)).
  destruct (default _ _) as [code h0]. unfold cw_Write. set (w' := implicit_header w) in *. destruct HP as [HP|(pre & Hp & HP)].
  - replace (cw_decided w') with false by (symmetry; apply HP). destruct (_ && _).
    + right. exists ops. split; [by apply prefix_app_r|]. pose proof (settled_pass _ _ _ _ b _ (held_passthrough _ _ _ _ _ HP)) as HS.
      unfold pass in HS. by rewrite enc_startPassthrough in HS.
    + set (w1 := set_buf _ w'). assert (held code h0 (header_after h ops) (written ops ++ b) w1) as HP1.
      { destruct HP as (? & ? & ? & ? & ? & HB & ? & ? & ? & ? & ?). unfold w1. rewrite HB. by split_and!. }
      destruct (minSize <=? _); [|by left]. right. exists ops. split; [by apply prefix_app_r|]. by apply held_decide.
  - replace (cw_decided w') with true by (symmetry; apply HP). right. exists pre. split; [by apply prefix_app_r|]. by apply settled_pass.
Qed.

Lemma settled_flushed code h0 hh W w : settled code h0 hh W w ->
  settled code h0 hh W
    (let w := match cw_enc w with
              | Some st => let '(st, out) := e_flush (ep_encoder pool) st in set_decided (Some st) (call (map DWrite out) w)
              | None => w
              end in
     if can_flush then call [DFlush] w else w).
Proof.
  intros (HS & HB & Hs). cbv zeta.
  assert (forall w', settled code h0 hh W w' -> settled code h0 hh W (if can_flush then call [DFlush] w' else w')) as HF.
  { intros w' (HS' & HB' & Hs'). destruct can_flush; [|done]. split_and!; [by apply flushCall_sent|done|done]. }
  apply HF. destruct (cw_enc w) as [st|] eqn:Ee; [|done]. destruct (e_flush _ st) as [st' out] eqn:EF.
  split_and!; [by eapply encFlush_sent|done|done].
Qed.

Lemma progress_not_hijacked h ops w : progress h ops w -> cw_hijacked w = false.
Proof.
  unfold progress. destruct (final_status h ops) as [[code h0]|].
  - intros [HP|(pre & _ & (_ & _ & ? & _) & _)]; [apply HP|done].
  - intros [HP _]. apply HP.
Qed.

Lemma Flush_progress h ops w : progress h ops w -> progress h (ops ++ [HFlush]) (cw_Flush w).
Proof.
  intros HP. unfold cw_Flush. rewrite (progress_not_hijacked _ _ _ HP). apply implicit_cases in HP.
  unfold progress. rewrite final_status_app, written_app, header_after_app. cbn [latch op_bytes]. rewrite app_nil_r.
  assert (forall r, match final_status h ops with Some p => Some p | None => Some r end = Some (default r (final_status h ops))) as ->
    by (intros r; by destruct (final_status h ops)).
  destruct (default _ _) as [code h0]. right. destruct HP as [HP|(pre & Hp & HP)].
  - exists ops. split; [by apply prefix_app_r|]. by apply settled_flushed, held_decide.
  - exists pre. split; [by apply prefix_app_r|]. apply settled_flushed.
    destruct HP as (HS & HB & Hs). unfold decide_encoding. rewrite (proj1 HS). by apply sent_settled.
Qed.

Lemma Status_progress h ops w code : progress h ops w -> progress h (ops ++ [HStatus code]) (cw_WriteHeader code w).
Proof.
  unfold progress. rewrite final_status_app, written_app, header_after_app. cbn [latch op_bytes]. rewrite app_nil_r.
  change (header_after (header_after h ops) [HStatus code]) with (header_after h ops).
  destruct (final_status h ops) as [[code' h0]|].
  - intros HP. assert (cw_sawHeader w = true) as Hs by (destruct HP as [HP|(? & _ & HP)]; apply HP).
    unfold cw_WriteHeader. rewrite Hs. destruct HP as [HP|(pre & Hp & HP)]; [by left|right]. exists pre. split; [by apply prefix_app_r|done].
  - intros [HP HW]. destruct (interim code) eqn:Hi.
    + split; [|done]. destruct HP as (? & ? & ? & ? & HI & ? & ? & Hs). unfold cw_WriteHeader. rewrite Hs, Hi. split_and!; try done.
      cbn. apply Forall_app. split; [done|]. by repeat constructor.
    + rewrite HW. destruct (WriteHeader_cases code _ _ HP Hi) as [HC|HC]; [by left|right]. exists ops. split; [by apply prefix_app_r|done].
Qed.

Lemma Header_progress h ops w f : progress h ops w -> progress h (ops ++ [HHeader f]) (set_header (f (cw_header w)) w).
Proof.
  unfold progress. rewrite final_status_app, written_app, header_after_app. cbn [latch op_bytes]. rewrite app_nil_r.
  change (header_after (header_after h ops) [HHeader f]) with (f (header_after h ops)).
  destruct (final_status h ops) as [[code' h0]|].
  - intros [(? & ? & ? & ? & ? & ? & Hh & ? & ? & ? & ?)|(pre & Hp & HP)].
    + left. rewrite <- Hh. by split_and!.
    + right. exists pre. split; [by apply prefix_app_r|done].
  - intros [(? & ? & ? & ? & ? & ? & Hh & ?) HW]. split; [|done]. rewrite <- Hh. by split_and!.
Qed.

Definition no_hijack (o : handlerOp) : Prop := match o with HHijack _ => False | _ => True end.

Lemma run_progress h ops : Forall no_hijack ops -> progress h ops (foldl handler_step (cw_init h) ops).
Proof.
  induction ops as [|o ops IH] using rev_ind; intros HF.
  - by split_and!.
  - apply Forall_app in HF as [HF [Ho _]%Forall_cons]. rewrite foldl_app. cbn [foldl]. specialize (IH HF).
    destruct o as [f|code|b| |ok]; [by apply Header_progress|by apply Status_progress|by apply Write_progress|by apply Flush_progress|done].
Qed.

Lemma run_settled h ops : Forall no_hijack ops ->
  let w := foldl handler_step (cw_init h) ops in
  let '(code, h0) := default (200, header_after h ops) (final_status h ops) in
  exists pre, pre `prefix_of` ops /\ sent code h0 (header_after h pre) (written ops) (flushBuf (if cw_decided w then w else startPassthrough w)) /\
    cw_buf (flushBuf (if cw_decided w then w else startPassthrough w)) = [].
Proof.
  intros HF w. pose proof (run_progress h ops HF) as HP. unfold progress in HP. fold w in HP.
  destruct (final_status h ops) as [[code h0]|]; cbn.
  - destruct HP as [HP|(pre & Hp & HP)].
    + replace (cw_decided w) with false by (symmetry; apply HP). exists ops. split; [done|].
      by destruct (held_passthrough _ _ _ _ _ HP) as (HS & HB & _).
    + replace (cw_decided w) with true by (symmetry; apply HP). exists pre. split; [done|]. apply flushBuf_sent, HP.
  - destruct HP as [(HD & HW & HH & HE & HI & HB & Hh & Hs) ->]. rewrite HD. exists ops. split; [done|]. apply flushBuf_sent.
    rewrite <- HB, <- Hh. apply startPassthrough_sent; try done. by rewrite Hs.
Qed.

(** C18: Whatever a handler does with its response, short of taking over the
    connection, the client gets the status it wrote, once, with a header that
    varies by Accept-Encoding, and after it a body that is what the handler
    wrote, or that decodes to it.  The latter only for a response that had no
    coding, may have a body, is of a configured media type, may be transformed
    and answers no range request; its header names the coding and makes no claim
    about the length, ranges or bytes of the original.  Every other field is the
    handler's. *)
Theorem compress_faithful (decode : list Z -> option (list Z)) (h : Header) (ops : list handlerOp) :
  lossless (ep_encoder pool) decode -> Forall no_hijack ops ->
  let '(code, h0) := default (200, header_after h ops) (final_status h ops) in
  exists interims h' calls pre, cw_calls (compressed h ops) = interims ++ DStatus code h' :: calls /\
    Forall interim_call interims /\ Forall after_status calls /\ varies h' /\ pre `prefix_of` ops /\
    ((keeps plain_fields (header_after h pre) h' /\ body calls = written ops) \/
     (may_encode code h0 (header_after h pre) h' /\ decode (body calls) = Some (written ops))).
Proof.
  intros HL HF. pose proof (run_settled h ops HF) as HS. cbv zeta in HS.
  destruct (default _ _) as [code h0]. destruct HS as (pre & Hp & HS & HB). unfold compressed, cw_close.
  rewrite (progress_not_hijacked h ops) by by apply run_progress. set (w := flushBuf _) in *.
  destruct HS as (_ & _ & _ & interims & h' & calls & EC & HI & HA & HV & HE). destruct (cw_enc w) as [st|].
  - destruct HE as [HM (acts & out & ER & EB & EA)]. rewrite HB, app_nil_r in EA.
    exists interims, h', (calls ++ map DWrite (e_close (ep_encoder pool) st)), pre. cbn. rewrite EC, <- app_assoc.
    split_and!; [done|done| |done|done|].
    + apply Forall_app. split; [done|apply writes_after].
    + right. split; [done|]. specialize (HL acts). rewrite ER in HL. by rewrite body_app, body_writes, EB, <- concat_app, HL, EA.
  - destruct HE as [HK EB]. rewrite HB, app_nil_r in EB. exists interims, h', calls, pre. split_and!; try done. by left.
Qed.
End Writer.

(** ** Examples *)

(** An encoder that complements bytes and ends with a zero byte. *)
Definition demo_encoder : encoder :=
  MkEncoder unit tt (fun st b => (st, [map (fun c => 255 - c) b])) (fun st => (st, [])) (fun _ => [[0]]).

Definition demo_decode (l : list Z) : option (list Z) :=
  match rev l with 0 :: l => Some (map (fun c => 255 - c) (rev l)) | _ => None end.

Lemma demo_run acts : concat (enc_run demo_encoder acts).2 = map (fun c => 255 - c) (concat (map act_bytes acts)).
Proof.
  induction acts as [|a acts IH] using rev_ind; [done|]. rewrite enc_run_snoc. unfold enc_step.
  destruct (enc_run demo_encoder acts) as [st out]. cbn in IH. destruct a as [b|]; cbn; rewrite concat_app, IH, map_app, concat_app, map_app; cbn; by rewrite !app_nil_r.
Qed.

Lemma demo_lossless : lossless demo_encoder demo_decode.
Proof.
  intros acts. pose proof (demo_run acts) as HR. destruct (enc_run demo_encoder acts) as [st out]. cbn in HR.
  rewrite concat_app, HR. cbn. unfold demo_decode. rewrite rev_app_distr. cbn. rewrite rev_involutive, map_map. f_equal.
  rewrite <- (map_id (concat _)) at 2. apply map_ext. lia.
Qed.

Definition demo_pool : encoderPool := MkPool (str "demo") demo_encoder.

Definition demo_ops : list (handlerOp) :=
  [HHeader (fun h => header_Set h hCT (str "text/html")); HStatus 103; HStatus 404; HWrite (str "not "); HWrite (str "found")].

Lemma compress_faithful_witness :
  exists interims h' calls,
    cw_calls demo_pool (compressed (H := no_unicode) demo_pool (newMimeMatcher (H := no_unicode) [str "text/*"]) 6 ∅ (fun _ => []) true ∅ demo_ops)
      = interims ++ DStatus 404 h' :: calls /\
    (body calls = str "not found" \/ demo_decode (body calls) = Some (str "not found")).
Proof.
  destruct (compress_faithful (H := no_unicode) demo_pool (newMimeMatcher (H := no_unicode) [str "text/*"]) 6 ∅ (fun _ => []) true
    demo_decode ∅ demo_ops demo_lossless) as (interims & h' & calls & pre & EC & _ & _ & _ & _ & HR).
  - by repeat constructor.
  - exists interims, h', calls. split; [exact EC|]. destruct HR as [[_ HR]|[_ HR]]; [left|right]; exact HR.
Defined.

(** The same response is compressed. *)
Lemma demo_compressed :
  demo_decode (body (cw_calls demo_pool (compressed (H := no_unicode) demo_pool (newMimeMatcher (H := no_unicode) [str "text/*"]) 6 ∅ (fun _ => []) true ∅ demo_ops)))
  = Some (str "not found").
Proof. by vm_compute. Qed.
