(* ===== verification/ClientUse.v ===== *)
(** * Consumers of the client address

    What the derived identity is used for: the CIDR gate of
    internal/auth/cidr.go, the rate-limit keys and the refusal of
    internal/middleware/ratelimit.go, the client_ip affinity key of
    internal/affinity/key.go, the outbound X-Forwarded-For chain of
    internal/handler/proxy.go and the PROXY-protocol listener of
    internal/server/proxyproto.go.  The theorems compose these with the
    derivation: a forged header gains no access and no other bucket, and the
    address survives the next hop. *)

From S2P Require Import Prelude GoStrings Bytes Netip NetipPrefix Http Affinity ProxyProto RateLimit ClientAddr Forwarded.

(** ** The CIDR gate *)

Record cidrGate := MkGate { g_allow : list Prefix; g_deny : list Prefix }.

(** One entry: an IPv4-mapped prefix becomes the IPv4 prefix; host bits are
    cleared; an entry that does not parse is skipped. *)
Definition gate_prefix (c : gostring) : option Prefix :=
  p ← netip_ParsePrefix c;
  let p := if Is4In6 (p_Addr p) && (96 <=? p_Bits p)
           then PrefixFrom (Unmap (p_Addr p)) (p_Bits p - 96) else p in
  Some (Masked p).

Definition parsePrefixes (cidrs : list gostring) : list Prefix := omap gate_prefix cidrs.
Definition newCIDRGate (allow deny : list gostring) : cidrGate := MkGate (parsePrefixes allow) (parsePrefixes deny).
Definition gate_empty (g : cidrGate) : bool := bool_decide (g_allow g = []) && bool_decide (g_deny g = []).

Definition allowed (g : cidrGate) (addr : option Addr) : bool :=
  match addr with
  | None => bool_decide (g_allow g = [])
  | Some a =>
      let a := Unmap a in
      if existsb (fun p => Contains_addr p a) (g_deny g) then false
      else if bool_decide (g_allow g = []) then true
      else existsb (fun p => Contains_addr p a) (g_allow g)
  end.

Definition cidrAllows (g : cidrGate) (r : reqctx) : bool :=
  match rq_identity r with
  | Some id => if negb (Attributed id) then false else allowed g (Client r)
  | None => allowed g (Client r)
  end.

(** ** Rate-limit keys *)

Definition unattributedKeyPrefix : gostring := str "unattributed:".

Definition clientKey (r : reqctx) : gostring :=
  let plain := match Client r with Some a => addr_string a | None => rq_RemoteAddr r end in
  match rq_identity r with
  | Some id =>
      if negb (Attributed id) then
        unattributedKeyPrefix ++ match id_Peer id with Some a => addr_string a | None => rq_RemoteAddr r end
      else plain
  | None => plain
  end.

Section RateKey.
Context `{Sha256}.

Definition boundedRateKey (value : gostring) : gostring :=
  if Z.of_nat (length value) <=? 256 then value else str "sha256:" ++ hex_string (sha256 value).

(** [claims] are the string claims of the request's validated token, if any. *)
Definition RateKeyFunc (spec : gostring) (h : Header) (claims : option (gmap gostring gostring)) (r : reqctx) : gostring :=
  if HasPrefix spec (str "header:") then
    match header_Values h (CanonicalHeaderKey (drop 7 spec)) with
    | [v] => if bool_decide (v = []) then clientKey r else boundedRateKey v
    | _ => clientKey r
    end
  else if HasPrefix spec (str "jwt:") then
    match claims with
    | Some m => match m !! drop 4 spec with
                | Some v => if bool_decide (v = []) then clientKey r else boundedRateKey v
                | None => clientKey r
                end
    | None => clientKey r
    end
  else clientKey r.
End RateKey.

(** The refusal: status 429 and, when a wait is known, Retry-After in whole
    seconds; the addition is in 64 bits. *)
Definition retry_secs (retryAfter : Z) : Z :=
  let secs := Z.quot (i64 (retryAfter + 1000000000 - 1)) 1000000000 in
  if secs <? 1 then 1 else secs.

Definition rate_refusal (h : Header) (retryAfter : Z) : Z * Header :=
  (429, if 0 <? retryAfter then header_Set h (str "Retry-After") (Itoa (retry_secs retryAfter)) else h).

(** ** Affinity keys *)

Definition addrKey (a : option Addr) : Key :=
  match a with Some a => MkKey (Sum (addr_string a)) StatusHashed | None => MkKey 0 StatusInvalid end.

Record affinity_Source := MkASource { as_kind : gostring; as_name : gostring }.

Definition NewSource (kind name : gostring) : affinity_Source :=
  MkASource kind (if string_eqb kind (str "header") then CanonicalHeaderKey name else name).

Definition FromRequest (s : affinity_Source) (h : Header) (r : reqctx) : Key :=
  if string_eqb (as_kind s) (str "client_ip") then
    match rq_identity r with
    | Some id => if negb (Attributed id) then MkKey 0 StatusInvalid else addrKey (Client r)
    | None => addrKey (Client r)
    end
  else if string_eqb (as_kind s) (str "header") then headerKey (default [] (h !! as_name s))
  else if string_eqb (as_kind s) (str "cookie") then cookieKey (default [] (h !! str "Cookie")) (as_name s)
  else MkKey 0 StatusNone.

(** A [net.Addr]: a TCP or UDP address with the bytes of its IP, none, or
    another kind with its text. *)
Inductive net_addr := NetTCP (ip : list Z) | NetUDP (ip : list Z) | NetNil | NetOther (text : gostring).

(** [netip.AddrFromSlice]. *)
Definition AddrFromSlice (ip : list Z) : option Addr :=
  if bool_decide (length ip = 4%nat) then Some (V4 ip)
  else if bool_decide (length ip = 16%nat) then Some (V6 ip []) else None.

Definition FromAddr (s : affinity_Source) (a : net_addr) : Key :=
  if negb (string_eqb (as_kind s) (str "client_ip")) then MkKey 0 StatusNone
  else addrKey (normalize match a with
                          | NetTCP ip | NetUDP ip => AddrFromSlice ip
                          | NetNil => None
                          | NetOther t => fst <$> ParseAddrPort t
                          end).

(** ** The outbound chain *)

Definition addrText (a : option Addr) : gostring := match a with Some a => addr_string a | None => [] end.
Definition forwardedAddrs (r : reqctx) : gostring * gostring := (addrText (Client r), addrText (Peer r)).

Definition forwardedChain (client peer : gostring) : gostring :=
  if bool_decide (client = []) then peer
  else if bool_decide (peer = []) || bool_decide (peer = client) then client
  else client ++ str ", " ++ peer.

Definition hXFF : gostring := str "X-Forwarded-For".

(** [ProxyRequest.SetXForwarded] of net/http/httputil on the outbound header. *)
Definition SetXForwarded (out : Header) (remote host : gostring) (tls : bool) : Header :=
  let out := match SplitHostPort remote with
             | Some (ip, _) =>
                 let prior := header_Values out hXFF in
                 header_Set out hXFF
                   (if bool_decide (prior = []) then ip
                    else concat (map (fun v => v ++ str ", ") prior) ++ ip)
             | None => header_Del out hXFF
             end in
  header_Set (header_Set out (str "X-Forwarded-Host") host) (str "X-Forwarded-Proto")
    (if tls then str "https" else str "http").

Definition set_forwarded_chain (out : Header) (r : reqctx) (host : gostring) (tls : bool) : Header :=
  let out := SetXForwarded out (rq_RemoteAddr r) host tls in
  let '(client, peer) := forwardedAddrs r in
  let chain := forwardedChain client peer in
  if bool_decide (chain = []) then out else header_Set out hXFF chain.

(** The certificate channel: the client's own assertions are removed, then
    Jul's is added when the connection carried a certificate to forward. *)
Definition certAssertionHeaders : list gostring := [str "Client-Cert"; str "Client-Cert-Chain"; str "X-Forwarded-Client-Cert"].

Record PeerCertIdentity := MkPeerCert { pc_Raw : list Z; pc_Chain : list (list Z) }.

Definition base64_char (n : Z) : Z :=
  if n <? 26 then 65 + n else if n <? 52 then 71 + n else if n <? 62 then n - 4 else if n =? 62 then 43 else 47.

(** [base64.StdEncoding.EncodeToString]. *)
Fixpoint base64 (s : list Z) : gostring :=
  match s with
  | a :: b :: c :: s =>
      base64_char (a / 4) :: base64_char (a mod 4 * 16 + b / 16) ::
      base64_char (b mod 16 * 4 + c / 64) :: base64_char (c mod 64) :: base64 s
  | [a; b] => [base64_char (a / 4); base64_char (a mod 4 * 16 + b / 16); base64_char (b mod 16 * 4); 61]
  | [a] => [base64_char (a / 4); base64_char (a mod 4 * 16); 61; 61]
  | [] => []
  end.

Definition certItem (der : list Z) : gostring := 58 :: base64 der ++ [58].

(** [strings.Join(items, comma and space)]. *)
Fixpoint join_comma_space (l : list gostring) : gostring :=
  match l with
  | [] => []
  | x :: l => match l with [] => x | _ :: _ => x ++ str ", " ++ join_comma_space l end
  end.

Definition setClientCertHeaders (out : Header) (id : option PeerCertIdentity) : Header :=
  let out := fold_left (fun h name => delete name h) certAssertionHeaders out in
  match id with
  | None => out
  | Some id =>
      if bool_decide (pc_Raw id = []) then out
      else
        let out := header_Set out (str "Client-Cert") (certItem (pc_Raw id)) in
        if bool_decide (pc_Chain id = []) then out
        else header_Set out (str "Client-Cert-Chain") (join_comma_space (map certItem (pc_Chain id)))
  end.

Definition setCanonicalXForwarded (out : Header) (r : reqctx) (host : gostring) (tls : bool)
    (cert : option PeerCertIdentity) : Header :=
  setClientCertHeaders (set_forwarded_chain out r host tls) cert.

(** ** The PROXY-protocol listener *)

(** [net.IP.String] and [TCPAddr.String]. *)
Definition IP_String (ip : list Z) : gostring :=
  if bool_decide (ip = []) then str "<nil>"
  else match To4 ip with
       | Some b => addr_string (V4 b)
       | None => if bool_decide (length ip = 16%nat) then addr_string (V6 ip []) else 63 :: hex_string ip
       end.
Definition TCPAddr_String (a : TCPAddr) : gostring := JoinHostPort (IP_String (IP a)) (Itoa (Port a)).

Section Admit.
Context `{Unicode}.

(** [admit]: the peer address the connection reports and the bytes left, or
    [None] when it is dropped. *)
Definition admit_conn (policy : option Policy) (remote : gostring) (stream : list Z) : option (gostring * list Z) :=
  if negb (Trusts policy (PeerFromRemoteAddr remote)) then None
  else match ReadHeader stream with
       | inl _ => None
       | inr (Some src, rest) => Some (TCPAddr_String src, rest)
       | inr (None, rest) => Some (remote, rest)
       end.
End Admit.

(** ** What a gate entry covers *)

(** The IPv6 clothing of an IPv4 address. *)
Definition map46 (a : Addr) : Addr := match a with V4 b => V6 (v4InV6Prefix ++ b) [] | V6 _ _ => a end.

Lemma Masked_ok p : prefix_ok p -> prefix_ok (Masked p).
Proof.
  intros (H1 & H2 & H3). unfold Masked. split_and!; cbn [p_Addr p_Bits]; [apply with_val_ok|by destruct (p_Addr p)|lia|].
  rewrite BitLen_with. lia.
Qed.

Lemma Masked_contains p a : prefix_ok p -> addr_ok a -> Contains_addr (Masked p) a = Contains_addr p a.
Proof.
  intros Hp Ha. apply eq_true_iff_eq. rewrite !Contains_spec by (done || by apply Masked_ok).
  destruct Hp as (H1 & H2 & H3). pose proof (addr_val_range _ H1) as Hv.
  assert (Hh : host_bits (Masked p) = host_bits p) by (unfold host_bits, Masked; cbn [p_Addr p_Bits]; by rewrite BitLen_with).
  rewrite Hh. unfold Masked. cbn [p_Addr]. rewrite BitLen_with.
  assert (Hk : 0 <= host_bits p) by (unfold host_bits; lia). pose proof (Z.pow_pos_nonneg 2 (host_bits p) ltac:(lia) Hk) as Hpow.
  rewrite Z.shiftl_mul_pow2, Z.shiftr_div_pow2 by lia.
  assert (Hq : 0 <= addr_val (p_Addr p) / 2 ^ host_bits p) by (apply Z.div_pos; lia).
  pose proof (Z.mul_div_le (addr_val (p_Addr p)) (2 ^ host_bits p) Hpow).
  rewrite addr_val_with by lia. by rewrite Z.div_mul by lia.
Qed.

Lemma be_val_app2 x y : be_val (x ++ y) = be_val x * 256 ^ Z.of_nat (length y) + be_val y.
Proof.
  induction y as [|c y IH] using rev_ind; [rewrite app_nil_r; change (be_val []) with 0; simpl; lia|].
  rewrite app_assoc, !be_val_app, IH, length_app, Nat.add_1_r, Nat2Z.inj_succ, Z.pow_succ_r by lia. lia.
Qed.

(** A mapped prefix of at least 96 bits, seen from the IPv4 side. *)
Lemma mapped_contains b n a :
  addr_ok (V6 b []) -> Is4In6 (V6 b []) = true -> 96 <= n <= 128 -> addr_ok (V4 a) ->
  Contains_addr (MkPrefix (V4 (drop 12 b)) (n - 96)) (V4 a) = Contains_addr (MkPrefix (V6 b []) n) (map46 (V4 a)).
Proof.
  intros [Lb Fb] H4 Hn [La Fa]. unfold Is4In6 in H4. apply bool_decide_eq_true in H4.
  assert (L12 : length (drop 12 b) = 4%nat) by (rewrite length_drop; lia).
  assert (Hb : b = v4InV6Prefix ++ drop 12 b) by (rewrite <- H4 at 1; by rewrite take_drop).
  assert (P4 : prefix_ok (MkPrefix (V4 (drop 12 b)) (n - 96))).
  { split; [split; [done|by apply Forall_drop]|]. split; [done|]. cbn [p_Addr p_Bits BitLen]. lia. }
  assert (P6 : prefix_ok (MkPrefix (V6 b []) n)) by (split; [done|]; split; [done|]; cbn [p_Addr p_Bits BitLen]; lia).
  assert (M6 : addr_ok (map46 (V4 a))).
  { cbn [map46 addr_ok]. split; [rewrite length_app; simpl; lia|]. apply Forall_app. split; [|done].
    repeat constructor; unfold is_byte; lia. }
  apply eq_true_iff_eq. rewrite !Contains_spec by done.
  unfold host_bits. cbn [p_Addr p_Bits BitLen map46 Zone]. unfold addr_val. cbn [addr_bytes].
  replace (32 - (n - 96)) with (128 - n) by lia. rewrite Hb at 2. rewrite !be_val_app2, L12, La.
  change (256 ^ Z.of_nat 4) with (2 ^ 32). set (k := 128 - n). assert (Hk : 0 <= k <= 32) by lia.
  assert (E : 2 ^ 32 = 2 ^ (32 - k) * 2 ^ k) by (rewrite <- Z.pow_add_r by lia; f_equal; lia).
  assert (Hp : 2 ^ k <> 0) by (apply Z.pow_nonzero; lia).
  assert (G : forall v, (be_val v4InV6Prefix * 2 ^ 32 + v) / 2 ^ k = be_val v4InV6Prefix * 2 ^ (32 - k) + v / 2 ^ k).
  { intros v. rewrite E, Z.mul_assoc, Z.div_add_l by done. done. }
  rewrite !G. split; intros (H1 & H2 & H3); split_and!; try done; lia.
Qed.

Lemma be_val_inj x y : length x = length y -> Forall is_byte x -> Forall is_byte y -> be_val x = be_val y -> x = y.
Proof. intros L Fx Fy E. rewrite <- (be_bytes_val x), <- (be_bytes_val y) by done. by rewrite L, E. Qed.

(** A native IPv6 address lies in no mapped prefix of at least 96 bits. *)
Lemma mapped_excludes b n x :
  addr_ok (V6 b []) -> Is4In6 (V6 b []) = true -> 96 <= n <= 128 -> canonical_addr (V6 x []) ->
  Contains_addr (MkPrefix (V6 b []) n) (V6 x []) = false.
Proof.
  intros Hb H4 Hn (Hx & _ & Hx4). apply not_true_iff_false.
  rewrite Contains_spec by (done || (split; [done|]; split; [done|]; cbn [p_Addr p_Bits BitLen]; lia)). intros (_ & _ & E).
  unfold host_bits, addr_val in E. cbn [p_Addr p_Bits BitLen addr_bytes] in E.
  unfold Is4In6 in H4, Hx4. apply bool_decide_eq_true in H4. apply bool_decide_eq_false in Hx4. apply Hx4. rewrite <- H4.
  destruct Hb as [Lb Fb], Hx as [Lx Fx]. cbn [addr_ok] in *.
  assert (T : forall v : list Z, length v = 16%nat -> Forall is_byte v -> be_val v / 2 ^ 32 = be_val (take 12 v)).
  { intros v Lv Fv. rewrite <- (take_drop 12 v) at 1. rewrite be_val_app2, length_drop, Lv.
    change (256 ^ Z.of_nat (16 - 12)) with (2 ^ 32). rewrite Z.div_add_l by lia.
    rewrite (Z.div_small (be_val (drop 12 v))); [lia|].
    pose proof (be_val_range (drop 12 v) ltac:(by apply Forall_drop)) as R. by rewrite length_drop, Lv in R. }
  apply be_val_inj; [rewrite !length_take; lia|by apply Forall_take|by apply Forall_take|].
  rewrite <- !T by done. set (k := 128 - n) in E. assert (Ek : 2 ^ 32 = 2 ^ k * 2 ^ (32 - k)) by (rewrite <- Z.pow_add_r by lia; f_equal; lia).
  rewrite Ek, <- !Z.div_div by (apply Z.pow_nonzero || apply Z.pow_pos_nonneg; lia). by rewrite E.
Qed.

(** A gate entry covers exactly the addresses of the CIDR it is written as: a
    client in canonical form matches the compiled entry if and only if the
    written prefix contains it, host bits or not, or the prefix is written in
    IPv4-mapped form (at least 96 bits) and contains the mapped client. *)
Theorem gate_prefix_exact (c : gostring) (p q : Prefix) (a : Addr) :
  netip_ParsePrefix c = Some p -> gate_prefix c = Some q -> canonical_addr a ->
  Contains_addr q a =
  (Contains_addr p a || (Is4 a && Is4In6 (p_Addr p) && (96 <=? p_Bits p) && Contains_addr p (map46 a))).
Proof.
  intros Hp Hq Ha. unfold gate_prefix in Hq. rewrite Hp in Hq. simpl in Hq. injection Hq as <-.
  pose proof (netip_ParsePrefix_ok _ _ Hp) as Hok. destruct p as [pa n]. cbn [p_Addr p_Bits] in *. destruct Hok as (Hpa & Hz & Hn).
  destruct (Is4In6 pa && (96 <=? n)) eqn:E.
  - apply andb_true_iff in E as [E4 E96]. destruct pa as [|b z]; [done|]. cbn [Zone p_Addr p_Bits BitLen] in *. subst z.
    assert (Hr : 96 <= n <= 128) by lia. unfold Unmap. rewrite E4, E96. unfold PrefixFrom. cbn [WithZone].
    rewrite Masked_contains; [|split; [split; [rewrite length_drop; destruct Hpa; lia|apply Forall_drop, Hpa]|split; [done|cbn [p_Addr p_Bits BitLen]; lia]]|apply Ha].
    destruct a as [x|x z]; cbn [Is4 andb].
    + rewrite (mapped_contains b n x) by (done || apply Ha). destruct (Contains_addr (MkPrefix (V6 b []) n) (map46 (V4 x))); by rewrite ?orb_true_r.
    + destruct Ha as (H1 & H2 & H3). cbn [Zone] in H2. subst z. rewrite mapped_excludes by done. done.
  - rewrite Masked_contains by (done || apply Ha). rewrite <- (andb_assoc (Is4 a)), E, andb_false_r, orb_false_r. done.
Qed.

Section Composition.
Context `{Unicode}.

Definition client_ip : affinity_Source := NewSource (str "client_ip") [].

(** What the consumers do with an identity of known peer. *)
Lemma consumers_spec policy remote h a g :
  PeerFromRemoteAddr remote = Some a ->
  let id := Derive policy (Some a) h in
  let r := ClientAddress policy remote h in
  exists c, id_Client id = Some c /\ canonical_addr c /\ Client r = Some c /\ Peer r = Some a /\ id_Peer id = Some a /\
  if Attributed id
  then cidrAllows g r = allowed g (Some c) /\ clientKey r = addr_string c /\ FromRequest client_ip h r = addrKey (Some c)
  else cidrAllows g r = false /\ clientKey r = unattributedKeyPrefix ++ addr_string a /\
       FromRequest client_ip h r = MkKey 0 StatusInvalid.
Proof.
  intros Ha id r. pose proof (PeerFromRemoteAddr_ok remote) as Hc. rewrite Ha in Hc.
  assert (Hn : normalize (Some a) = Some a) by (simpl; by rewrite normalize_canonical).
  destruct (Derive_canonical policy (Some a) h) as (H1 & H2 & H3); [by rewrite Hn|].
  fold id in H1, H2, H3. rewrite Hn in H2, H3.
  assert (Er : rq_identity r = Some id) by (subst r id; unfold ClientAddress; simpl; by rewrite Ha).
  destruct (id_Client id) as [c|] eqn:Ec; [|by destruct H3 as [H3 _]; specialize (H3 eq_refl)]. exists c.
  assert (EC : Client r = Some c) by (unfold Client; rewrite Er; destruct id; simpl in *; by subst).
  assert (EP : Peer r = Some a) by (unfold Peer; rewrite Er; destruct id; simpl in *; by subst).
  split; [done|]. split; [done|]. split; [done|]. split; [done|]. split; [done|].
  unfold cidrAllows, clientKey, FromRequest. change (string_eqb (as_kind client_ip) (str "client_ip")) with true.
  rewrite Er, EC, H2. by destruct (Attributed id).
Qed.

(** Forged forwarding entries gain nothing.  When a trusted proxy delivers
    an X-Forwarded-For whose last line ends with the address c the proxies saw
    and their own addresses, then, whatever a client put before it, the CIDR
    gate, the rate limiter and the affinity hash treat the request exactly as
    one from c; or the chain is unusable, and then the gate refuses, the request
    is limited in the separate bucket of degraded traffic of that proxy, and no
    affinity key is hashed. *)
Theorem forged_prefix_harmless (q : Policy) (remote : gostring) (a : Addr) (h : Header)
    (before after : list Source) (lines : list gostring) (forged client : gostring) (proxies : list gostring) (c : Addr)
    (g : cidrGate) :
  PeerFromRemoteAddr remote = Some a -> Trusts (Some q) (Some a) = true ->
  sources q = before ++ SourceXFF :: after ->
  Forall (fun s => hasValue (header_Values h (headerName s)) = false) before ->
  header_Values h (headerName SourceXFF) = lines ++ [forged ++ 44 :: JoinByte (client :: proxies) 44] ->
  hasValue (header_Values h (headerName SourceXFF)) = true ->
  44 ∉ client -> Forall (fun e => 44 ∉ e) proxies ->
  parseBareAddr (TrimSpace client) = Some c -> Trusts (Some q) (Some c) = false ->
  Forall (fun e => trusted_hop (Some q) (parseBareAddr (TrimSpace e))) proxies ->
  let r := ClientAddress (Some q) remote h in
  (cidrAllows g r = allowed g (Some c) /\ clientKey r = addr_string c /\ FromRequest client_ip h r = addrKey (Some c)) \/
  (cidrAllows g r = false /\ clientKey r = unattributedKeyPrefix ++ addr_string a /\
   FromRequest client_ip h r = MkKey 0 StatusInvalid).
Proof.
  intros Hp Ht Hs HB Hv Hh Hc1 Hc2 Hc3 Hc4 HT r.
  assert (Hn : normalize (Some a) = Some a).
  { simpl. rewrite normalize_canonical; [done|]. pose proof (PeerFromRemoteAddr_ok remote) as Hok. by rewrite Hp in Hok. }
  destruct (forged_prefix_cases q (Some a) a h before after lines forged client proxies c) as (_ & HC); try done.
  destruct (consumers_spec (Some q) remote h a g Hp) as (c' & E1 & _ & _ & _ & _ & E2). fold r in E2.
  destruct HC as [[HC1 HC2]|[HC1 HC2]]; rewrite HC2 in E2; [left|by right]. by replace c with c' by congruence.
Qed.

(** *** Rate-limit buckets *)

Lemma addr_string_inj a b : canonical_addr a -> canonical_addr b -> addr_string a = addr_string b -> a = b.
Proof. intros Ha Hb E. apply canonical_string in Ha, Hb. rewrite E in Ha. congruence. Qed.

Lemma unattributed_not_address a b : canonical_addr a -> unattributedKeyPrefix ++ b <> addr_string a.
Proof.
  intros Ha E. assert (H117 : 117 ∈ addr_string a) by (rewrite <- E; left).
  apply (addr_string_chars _ _ Ha) in H117. unfold addr_char, is_digit in H117. lia.
Qed.

(** Two requests share a rate-limit bucket exactly when they should: when
    both name the same client, or when both are degraded traffic of the same
    proxy; a degraded request never shares the bucket of a client. *)
Theorem clientKey_separates (p1 p2 : option Policy) (r1 r2 : gostring) (h1 h2 : Header) (a1 a2 : Addr) :
  PeerFromRemoteAddr r1 = Some a1 -> PeerFromRemoteAddr r2 = Some a2 ->
  let id1 := Derive p1 (Some a1) h1 in
  let id2 := Derive p2 (Some a2) h2 in
  clientKey (ClientAddress p1 r1 h1) = clientKey (ClientAddress p2 r2 h2) <->
  if Attributed id1 then Attributed id2 = true /\ id_Client id1 = id_Client id2
  else Attributed id2 = false /\ a1 = a2.
Proof.
  intros H1 H2 id1 id2. set (g := MkGate [] []).
  destruct (consumers_spec p1 r1 h1 a1 g H1) as (c1 & E1 & Q1' & _ & _ & _ & K1).
  destruct (consumers_spec p2 r2 h2 a2 g H2) as (c2 & E2 & Q2' & _ & _ & _ & K2).
  pose proof (PeerFromRemoteAddr_ok r1) as A1. rewrite H1 in A1. pose proof (PeerFromRemoteAddr_ok r2) as A2. rewrite H2 in A2.
  fold id1 in E1, K1. fold id2 in E2, K2. rewrite E1, E2.
  destruct (Attributed id1), (Attributed id2); destruct K1 as (_ & -> & _), K2 as (_ & -> & _).
  - split; [intros E; split; [done|f_equal; by apply addr_string_inj]|by intros [_ [= ->]]].
  - split; [intros E; symmetry in E; by apply unattributed_not_address in E|by intros []].
  - split; [intros E; by apply unattributed_not_address in E|by intros []].
  - split; [|by intros [_ ->]]. intros E. apply app_inv_head in E. split; [done|]. by apply addr_string_inj.
Qed.

(** *** The next hop *)

Lemma print_join_length gs : Forall group_ok gs -> (length (print_join gs) <= 5 * length gs)%nat.
Proof.
  unfold print_join. induction 1 as [|g gs Hg HF IH]; [done|]. cbn [map].
  assert (La : (length (appendHex g) <= 4)%nat) by (unfold appendHex; rewrite !length_app; repeat case_match; simpl; lia).
  destruct gs as [|g' gs]; [cbn [map JoinByte length]; lia|]. rewrite JoinByte_cons by done. rewrite length_app. cbn [length] in *. lia.
Qed.

Lemma addr_string_length a : canonical_addr a -> (length (addr_string a) <= 42)%nat.
Proof.
  intros (Hok & Hz & H4). destruct a as [b|b z]; cbn [addr_ok Zone addr_string] in *; destruct Hok as [L F].
  - assert (HD : forall x, is_byte x -> (length (FormatUint x) <= 3)%nat).
    { intros x Hx. rewrite FormatUint_byte by done. repeat case_match; simpl; lia. }
    destruct b as [|b0 [|b1 [|b2 [|b3 [|]]]]]; try done.
    repeat match goal with H : Forall _ (_ :: _) |- _ => apply Forall_cons in H as [?%HD H] end.
    unfold string4. rewrite !length_app. cbn [length]. rewrite !length_app. cbn [length]. rewrite !length_app. cbn [length]. lia.
  - subst z. rewrite H4. destruct (groups_ok b L F) as (Lg & HG & _). unfold string6.
    change (zone_suffix []) with (@nil Z). rewrite app_nil_r, print_groups_join; [|done|apply best_run_ok; [reflexivity|by left]].
    assert (HR : run_ok (groups b) (best_run 0 (groups b) (255, 255)%nat)) by (apply best_run_ok; [reflexivity|by left]).
    revert HR. generalize (best_run 0 (groups b) (255, 255)%nat). intros run HR.
    case_bool_decide as Er; [pose proof (print_join_length _ HG); lia|]. destruct HR as [?|[[R1 R2] _]]; [done|].
    rewrite !length_app. pose proof (print_join_length (take run.1 (groups b)) ltac:(by apply Forall_take)) as H1.
    pose proof (print_join_length (drop run.2 (groups b)) ltac:(by apply Forall_drop)) as H2.
    rewrite length_take in H1. rewrite length_drop in H2. simpl. lia.
Qed.

Lemma addr_string_trim a : canonical_addr a ->
  TrimSpace (addr_string a) = addr_string a /\ TrimSpace (32 :: addr_string a) = addr_string a.
Proof.
  intros Ha. assert (HA : ascii (addr_string a) = true) by (apply addr_char_ascii; intros c Hc; left; by apply (addr_string_chars a)).
  assert (HS : forall c, c ∈ addr_string a -> ascii_space c = false).
  { intros c Hc. apply (addr_string_chars _ _ Ha) in Hc. unfold addr_char, is_digit, ascii_space in *. lia. }
  assert (HT : Trim ascii_space (addr_string a) = addr_string a).
  { assert (G : forall s, (forall c, c ∈ s -> ascii_space c = false) -> TrimLeft ascii_space s = s).
    { intros [|c s] Hs; [done|]. apply TrimLeft_tight. apply Hs. left. }
    unfold Trim. rewrite (G (addr_string a)) by done. rewrite G by (intros c Hc; apply HS; by apply list_elem_of_In, in_rev, list_elem_of_In). apply rev_involutive. }
  unfold TrimSpace. rewrite HA. split; [done|]. change (ascii (32 :: addr_string a)) with (ascii (addr_string a)). rewrite HA.
  exact HT.
Qed.

(** The chain that names a client and a peer, read as X-Forwarded-For. *)
Lemma xff_hops_chain c p : canonical_addr c -> canonical_addr p ->
  xff_hops [forwardedChain (addr_string c) (addr_string p)] = if bool_decide (p = c) then [Some c] else [Some c; Some p].
Proof.
  intros Hc Hp. destruct (addr_string_trim c Hc) as [T1 _]. destruct (addr_string_trim p Hp) as [_ T2].
  assert (N : forall x, canonical_addr x -> 44 ∉ addr_string x).
  { intros x Hx Hn. apply (addr_string_chars _ _ Hx) in Hn. unfold addr_char, is_digit in Hn. lia. }
  unfold forwardedChain. rewrite !bool_decide_false by (by apply addr_string_nonempty). cbn [orb].
  assert (E : bool_decide (addr_string p = addr_string c) = bool_decide (p = c)).
  { apply bool_decide_ext. split; [by apply addr_string_inj|by intros ->]. }
  rewrite E. clear E. unfold xff_hops. cbn [map concat]. rewrite app_nil_r. case_bool_decide.
  - rewrite SplitByte_single by (by apply N). cbn [map]. by rewrite T1, parseBareAddr_string.
  - change (str ", ") with [44; 32]. cbn [app]. rewrite SplitByte_app by (by apply N).
    rewrite SplitByte_single by (apply not_elem_of_cons; split; [done|by apply N]). cbn [map].
    by rewrite T1, T2, !parseBareAddr_string.
Qed.

Lemma chain_length c p : canonical_addr c -> canonical_addr p ->
  (length (forwardedChain (addr_string c) (addr_string p)) <= 86)%nat.
Proof.
  intros Hc%addr_string_length Hp%addr_string_length. unfold forwardedChain. repeat case_match; rewrite ?length_app; simpl; lia.
Qed.

Lemma TrimLeft_nil (cut : Z -> bool) s c : TrimLeft cut s = [] -> c ∈ s -> cut c = true.
Proof.
  induction s as [|a s IH]; simpl; [by intros _ ?%elem_of_nil|]. destruct (cut a) eqn:E; [|done].
  intros Hs [-> |Hc]%elem_of_cons; auto.
Qed.

Lemma TrimLeft_head (cut : Z -> bool) s c t : TrimLeft cut s = c :: t -> cut c = false.
Proof. induction s as [|a s IH]; simpl; [done|]. destruct (cut a) eqn:E; [done|]. by intros [= <- <-]. Qed.

(** Trimming leaves something of a text with a byte that is not space. *)
Lemma Trim_nonempty (cut : Z -> bool) s c : c ∈ s -> cut c = false -> Trim cut s <> [].
Proof.
  intros Hc Hcut E. unfold Trim in E. apply (f_equal (@rev Z)) in E. rewrite rev_involutive in E. simpl in E.
  destruct (TrimLeft cut s) as [|d t] eqn:Et; [by rewrite (TrimLeft_nil _ _ _ Et Hc) in Hcut|].
  pose proof (TrimLeft_head _ _ _ _ Et) as Hd. rewrite (TrimLeft_nil _ _ d E) in Hd; [done|].
  apply list_elem_of_In, in_rev. rewrite rev_involutive. by left.
Qed.

Lemma chain_trim c p : canonical_addr c -> canonical_addr p -> TrimSpace (forwardedChain (addr_string c) (addr_string p)) <> [].
Proof.
  intros Hc Hp. set (chain := forwardedChain _ _).
  assert (HA : forall x, x ∈ chain -> addr_char x \/ x = 44 \/ x = 32).
  { intros x. subst chain. unfold forwardedChain. destruct (bool_decide _); [left; by apply (addr_string_chars p)|].
    destruct (_ || _); [left; by apply (addr_string_chars c)|]. rewrite !elem_of_app.
    intros [Hx|[Hx|Hx]]; [left; by apply (addr_string_chars c)| |left; by apply (addr_string_chars p)].
    change (str ", ") with [44; 32] in Hx. rewrite !elem_of_cons, elem_of_nil in Hx. lia. }
  unfold TrimSpace. replace (ascii chain) with true.
  2: { symmetry. unfold ascii. apply forallb_forall. intros x Hx%list_elem_of_In. apply HA in Hx. unfold addr_char, is_digit in Hx. lia. }
  destruct (addr_string_head c Hc) as (d & t & E & Hd). apply (Trim_nonempty _ _ d).
  - subst chain. unfold forwardedChain. rewrite bool_decide_false by (by apply addr_string_nonempty). rewrite E.
    destruct (_ || _); [left|]. cbn [app]. left.
  - unfold addr_char, is_digit, ascii_space in *. lia.
Qed.

(** The canonical address survives a chain of proxies.  The X-Forwarded-For
    that Jul sends upstream names the client and the peer it derived; a next
    Jul that trusts this one, and trusts that peer when it is not the client,
    derives the same client from it, attributed. *)
Theorem chain_next_hop (p1 : option Policy) (q2 : Policy) (r1 r2 : gostring) (h1 out h2 : Header)
    (host : gostring) (tls : bool) (a1 a2 c : Addr) :
  PeerFromRemoteAddr r1 = Some a1 -> id_Client (Derive p1 (Some a1) h1) = Some c ->
  PeerFromRemoteAddr r2 = Some a2 -> Trusts (Some q2) (Some a2) = true -> sources q2 = [SourceXFF] -> 2 <= maxHops q2 ->
  header_Values h2 hXFF = header_Values (set_forwarded_chain out (ClientAddress p1 r1 h1) host tls) hXFF ->
  (a1 = c \/ Trusts (Some q2) (Some a1) = true) ->
  let id := Derive (Some q2) (Some a2) h2 in
  id_Client id = Some c /\ id_Source id = SourceXFF /\ Attributed id = true.
Proof.
  intros H1 Hc H2 Ht Hs Hm Hv Ha id.
  destruct (consumers_spec p1 r1 h1 a1 (MkGate [] []) H1) as (c' & Ec & Cc & EC & EP & _). rewrite Ec in Hc. injection Hc as ->.
  pose proof (PeerFromRemoteAddr_ok r1) as A1. rewrite H1 in A1. pose proof (PeerFromRemoteAddr_ok r2) as A2. rewrite H2 in A2.
  set (chain := forwardedChain (addr_string c) (addr_string a1)).
  assert (Hne : chain <> []).
  { subst chain. unfold forwardedChain. rewrite !bool_decide_false by (by apply addr_string_nonempty). cbn [orb].
    case_bool_decide; [by apply addr_string_nonempty|]. intros E. apply app_eq_nil in E as [E _]. by apply addr_string_nonempty in E. }
  assert (Hval : header_Values h2 (headerName SourceXFF) = [chain]).
  { change (headerName SourceXFF) with hXFF. rewrite Hv. unfold set_forwarded_chain, forwardedAddrs. rewrite EC, EP. cbn [addrText].
    fold chain. rewrite bool_decide_false by done. unfold header_Values, header_Set. by rewrite lookup_insert_eq. }
  assert (Hh : hasValue [chain] = true).
  { unfold hasValue. cbn [existsb]. rewrite bool_decide_false; [done|]. by apply chain_trim. }
  assert (Hn : normalize (Some a2) = Some a2) by (simpl; by rewrite normalize_canonical).
  assert (Htr : trusted q2 <> []) by (intros E; unfold Trusts in Ht; by rewrite E in Ht).
  subst id. unfold Derive. rewrite Hn, Hs, Ht. rewrite !bool_decide_false by done. cbn [orb derive_sources].
  rewrite Hval, Hh. cbn [negb]. unfold parseChain. rewrite (proj2 (Z.ltb_ge _ _)).
  2: { cbn [sum_list_with]. rewrite Nat.add_0_r. pose proof (chain_length c a1 Cc A1) as HL. fold chain in HL. unfold maxHeaderBytes. lia. }
  rewrite parse_lines_xff. rewrite (bool_decide_false ([chain] = [])) by done. cbn [orb app length].
  subst chain. rewrite xff_hops_chain by done. case_bool_decide as Ea.
  - rewrite (proj2 (Z.leb_le _ _)) by (cbn [length]; lia). unfold walk. cbn [rev app walk_hops head default].
    by destruct (Trusts (Some q2) (Some c)).
  - rewrite (proj2 (Z.leb_le _ _)) by (cbn [length]; lia). unfold walk. cbn [rev app walk_hops head default].
    destruct Ha as [->|Ha]; [done|]. rewrite Ha. by destruct (Trusts (Some q2) (Some c)).
Qed.

(** *** The advertised peer *)

Lemma LastIndexByte_app (s t : gostring) c : c ∉ t -> LastIndexByte (s ++ c :: t) c = Some (length s).
Proof.
  intros Hn. unfold LastIndexByte. rewrite rev_app_distr. cbn [rev]. rewrite <- app_assoc. cbn [app].
  rewrite IndexByte_app by (rewrite list_elem_of_In, <- in_rev, <- list_elem_of_In; done).
  rewrite length_rev, length_app. cbn [length]. f_equal. lia.
Qed.

Lemma FormatUint_port n : 0 <= n < 65536 -> ParseUint (FormatUint n) 16 = Some n /\ 58 ∉ FormatUint n.
Proof.
  intros Hn. split.
  - unfold ParseUint. rewrite bool_decide_false by (apply FormatUint_nonempty). rewrite FormatUint_parse by lia.
    by rewrite (proj2 (Z.ltb_lt _ _)) by (change (2 ^ 16) with 65536; lia).
  - by apply FormatUint_notin.
Qed.

Lemma addr_string_colon a : canonical_addr a -> byte_in (addr_string a) 58 = Is6 a.
Proof.
  intros Ha. destruct (Is6 a) eqn:E6.
  - apply byte_in_spec. destruct a as [|b z]; [done|]. destruct Ha as ((L & F) & Hz & H4). cbn [Zone addr_string] in *. subst z. rewrite H4.
    pose proof (addr_kind_string6 b L F) as K. clear -K. induction (string6 b []) as [|c s IH]; [done|]. cbn [addr_kind] in K.
    destruct ((c =? 46) || (c =? 58) || (c =? 37)); [injection K as ->; left|right; by apply IH].
  - destruct (byte_in _ _) eqn:E; [|done]. apply byte_in_spec in E. exfalso. revert E. apply Is4_no_colon; [done|]. by destruct a.
Qed.

(** An address with a port is read back from its text. *)
Lemma ParseAddrPort_join a n : canonical_addr a -> 0 <= n < 65536 ->
  ParseAddrPort (JoinHostPort (addr_string a) (Itoa n)) = Some (a, n).
Proof.
  intros Ha Hn. destruct (FormatUint_port n Hn) as [P1 P2]. unfold JoinHostPort, Itoa.
  rewrite (proj2 (Z.ltb_ge n 0)) by lia. rewrite addr_string_colon by done. unfold ParseAddrPort.
  destruct (Is6 a) eqn:E6.
  - change (91 :: addr_string a ++ [93; 58] ++ FormatUint n) with ((91 :: addr_string a) ++ [93; 58] ++ FormatUint n).
    replace ((91 :: addr_string a) ++ [93; 58] ++ FormatUint n) with ((91 :: addr_string a ++ [93]) ++ 58 :: FormatUint n)
      by (cbn [app]; by rewrite <- app_assoc).
    rewrite LastIndexByte_app by done. rewrite take_app_length.
    rewrite (drop_app_ge _ _ (S _)), Nat.sub_succ_l, Nat.sub_diag by lia. cbn [drop].
    rewrite (bool_decide_false (_ = [])) by done. rewrite (bool_decide_false (FormatUint n = [])) by (apply FormatUint_nonempty). cbn [orb].
    cbn [head]. rewrite (bool_decide_true (Some 91 = Some 91)) by done. cbn [andb].
    rewrite last_cons, last_snoc, (bool_decide_true (Some 93 = Some 93)) by done. cbn [length negb]. rewrite length_app. cbn [length].
    rewrite (proj2 (Nat.ltb_ge _ _)) by lia. cbn [orb]. rewrite !drop_0.
    replace (S (length (addr_string a) + 1) - 2)%nat with (length (addr_string a)) by lia.
    rewrite take_app_length, P1, canonical_string by done. by rewrite E6.
  - rewrite LastIndexByte_app by done. rewrite take_app_length.
    rewrite (drop_app_ge _ _ (S _)), Nat.sub_succ_l, Nat.sub_diag by lia. cbn [drop].
    rewrite (bool_decide_false (addr_string a = [])) by (by apply addr_string_nonempty).
    rewrite (bool_decide_false (FormatUint n = [])) by (apply FormatUint_nonempty). cbn [orb].
    destruct (addr_string_head a Ha) as (c & t & E & Hc).
    rewrite (bool_decide_false (head (addr_string a) = Some 91)) by (rewrite E; simpl; unfold addr_char, is_digit in Hc; intros [= ->]; lia).
    cbn [andb]. rewrite !drop_0, P1, canonical_string by done. by rewrite E6.
Qed.

Lemma IP_String_canonical ip : (length ip = 4%nat \/ length ip = 16%nat) -> Forall is_byte ip ->
  exists a, canonical_addr a /\ IP_String ip = addr_string a /\ normalize (AddrFromSlice ip) = Some a /\
    forall ip', (length ip' = 4%nat \/ length ip' = 16%nat) -> To16 ip' = To16 ip -> IP_String ip' = addr_string a.
Proof.
  intros HL HF.
  assert (H16 : forall ip, (length ip = 4%nat \/ length ip = 16%nat) -> IP_String ip =
    match To16 ip with Some b => if bool_decide (take 12 b = v4InV6Prefix) then addr_string (V4 (drop 12 b)) else addr_string (V6 b []) | None => [] end).
  { intros x Hx. unfold IP_String, To4, To16. rewrite bool_decide_false by (intros ->; by destruct Hx). destruct Hx as [Hx|Hx]; rewrite Hx; [done|].
    rewrite (bool_decide_false (16 = 4)%nat), !(bool_decide_true (16 = 16)%nat) by done. cbn [andb]. by case_bool_decide. }
  assert (G : exists a, canonical_addr a /\ IP_String ip = addr_string a /\ normalize (AddrFromSlice ip) = Some a).
  { unfold IP_String, To4, AddrFromSlice. rewrite bool_decide_false by (intros ->; by destruct HL). destruct HL as [L|L]; rewrite L; cbn [bool_decide].
    - rewrite (bool_decide_true (4 = 4)%nat) by done. exists (V4 ip). split_and!; [split; [split; done|done]|done|done].
    - rewrite (bool_decide_false (16 = 4)%nat), !(bool_decide_true (16 = 16)%nat) by done. cbn [andb fmap option_fmap option_map].
      exists (normalize_addr (V6 ip [])). split; [by apply normalize_addr_ok|]. split; [|done].
      unfold normalize_addr, Unmap, Is4In6, v4InV6Prefix. by case_bool_decide. }
  destruct G as (a & Ca & Ea & En). exists a. split_and!; [done..|]. intros ip' L' E'. by rewrite <- Ea, !H16, E'.
Qed.

(** A connection to a PROXY-protocol listener is served only from a trusted
    balancer, and then as the client the balancer names: from an untrusted peer
    every connection is dropped; a version 2 header for a source and destination
    leaves exactly the bytes after it and makes that source, in canonical form,
    the transport peer from which the client address is derived. *)
Theorem proxy_header_peer (policy : option Policy) (remote : gostring) (s d : TCPAddr) (rest : list Z) :
  tcp_ok s -> tcp_ok d ->
  (Trusts policy (PeerFromRemoteAddr remote) = false -> forall stream, admit_conn policy remote stream = None) /\
  (Trusts policy (PeerFromRemoteAddr remote) = true ->
   exists peer, admit_conn policy remote (WriteV2 (Some s) (Some d) ++ rest) = Some (peer, rest) /\
     PeerFromRemoteAddr peer = normalize (AddrFromSlice (IP s)) /\ PeerFromRemoteAddr peer <> None).
Proof.
  intros Hs Hd. unfold admit_conn. split; [by intros -> |]. intros ->. cbn [negb].
  destruct (ReadHeader_written s d rest Hs Hd) as [(ip & -> & E16) _]. destruct Hs as (HL & HF & HP).
  eexists. split; [reflexivity|]. destruct (IP_String_canonical (IP s) HL HF) as (a & Ca & _ & En & HI).
  unfold TCPAddr_String. cbn [IP Port]. rewrite HI; [|  |done].
  - unfold PeerFromRemoteAddr. rewrite bool_decide_false.
    + rewrite ParseAddrPort_join by done. rewrite En. simpl. by rewrite normalize_canonical.
    + unfold JoinHostPort. destruct (byte_in _ _); [done|]. intros E. apply app_eq_nil in E as [_ E]. done.
  - unfold To16 in E16. repeat case_bool_decide; auto; destruct HL; congruence.
Qed.

(** *** Assertions sent upstream *)

(** The request fields by which Jul vouches for the connection. *)
Definition vouched : list gostring :=
  [hXFF; str "X-Forwarded-Host"; str "X-Forwarded-Proto"] ++ certAssertionHeaders.

(** The certificate field named [k] that an identity asserts. *)
Definition cert_field (id : option PeerCertIdentity) (k : gostring) : option (list gostring) :=
  id ← id;
  if bool_decide (pc_Raw id = []) then None
  else if decide (str "Client-Cert-Chain" = k) then
    if bool_decide (pc_Chain id = []) then None else Some [join_comma_space (map certItem (pc_Chain id))]
  else if decide (str "Client-Cert" = k) then Some [certItem (pc_Raw id)]
  else None.

Lemma delete_fields (names : list gostring) (h : Header) (k : gostring) :
  fold_left (fun h name => delete name h) names h !! k = if decide (k ∈ names) then None else h !! k.
Proof.
  revert h. induction names as [|n names IH]; intros h; cbn [fold_left]; [by rewrite decide_False by apply not_elem_of_nil|].
  rewrite IH. destruct (decide (k ∈ names)) as [Hk|Hk]; [by rewrite decide_True by (by right)|].
  destruct (decide (n = k)) as [->|Hn]; [rewrite lookup_delete_eq, decide_True by left; done|].
  rewrite lookup_delete_ne by done. rewrite decide_False; [done|]. intros [?|?]%elem_of_cons; congruence.
Qed.

Lemma setClientCertHeaders_lookup (out : Header) (id : option PeerCertIdentity) (k : gostring) :
  setClientCertHeaders out id !! k = if decide (k ∈ certAssertionHeaders) then cert_field id k else out !! k.
Proof.
  unfold setClientCertHeaders, cert_field.
  assert (HC : forall n, str "Client-Cert" = n \/ str "Client-Cert-Chain" = n -> n ∈ certAssertionHeaders)
    by (intros n [<- | <-]; [left|right; left]).
  destruct id as [id|]; cbn [mbind option_bind]; [|by rewrite delete_fields].
  case_bool_decide; [by rewrite delete_fields|].
  case_bool_decide; rewrite !set_field by done; rewrite delete_fields; repeat case_decide; try done; exfalso;
    first [match goal with H : _ ∉ _ |- _ => apply H, HC; auto end
          |match goal with H1 : str _ = ?x, H2 : str _ = ?x |- _ => by rewrite <- H1 in H2 end].
Qed.

Lemma set_forwarded_chain_lookup (out : Header) (r : reqctx) (host : gostring) (tls : bool) (a : Addr) (k : gostring) :
  Client r = Some a -> canonical_addr a ->
  set_forwarded_chain out r host tls !! k =
  if decide (hXFF = k) then Some [forwardedChain (addr_string a) (addrText (Peer r))]
  else if decide (str "X-Forwarded-Proto" = k) then Some [if tls then str "https" else str "http"]
  else if decide (str "X-Forwarded-Host" = k) then Some [host]
  else out !! k.
Proof.
  intros Hc Ha. unfold set_forwarded_chain, forwardedAddrs. rewrite Hc. cbn [addrText].
  rewrite bool_decide_false.
  2: { unfold forwardedChain. rewrite (bool_decide_false (addr_string a = [])) by (by apply addr_string_nonempty).
       destruct (_ || _); [by apply addr_string_nonempty|]. intros E. apply app_eq_nil in E as [E _]. by apply addr_string_nonempty in E. }
  rewrite set_field by done. destruct (decide (hXFF = k)) as [|Hk]; [done|]. unfold SetXForwarded. rewrite !set_field by done.
  do 2 (case_decide; [done|]). destruct (SplitHostPort _) as [[ip port]|]; [rewrite set_field by done; by rewrite decide_False|].
  unfold header_Del. by rewrite lookup_delete_ne.
Qed.

(** The fields by which Jul vouches for a connection to a backend carry
    Jul's own knowledge only: on a request whose client is known, the outbound
    X-Forwarded-For, -Host and -Proto and the client certificate fields are the
    same whatever the client sent in them, a certificate is asserted only when
    the connection presented one, and every other field is left alone. *)
Theorem outbound_assertions (out out' : Header) (r : reqctx) (host : gostring) (tls : bool)
    (cert : option PeerCertIdentity) (a : Addr) (k : gostring) :
  Client r = Some a -> canonical_addr a ->
  (k ∈ vouched -> setCanonicalXForwarded out r host tls cert !! k = setCanonicalXForwarded out' r host tls cert !! k) /\
  (k ∉ vouched -> setCanonicalXForwarded out r host tls cert !! k = out !! k) /\
  (cert = None -> k ∈ certAssertionHeaders -> setCanonicalXForwarded out r host tls cert !! k = None).
Proof.
  intros Hc Ha. unfold setCanonicalXForwarded.
  rewrite !setClientCertHeaders_lookup, !(set_forwarded_chain_lookup _ r host tls a) by done.
  destruct (decide (k ∈ certAssertionHeaders)) as [Hk|Hk].
  - split_and!; [done|intros []; unfold vouched; apply elem_of_app; by right|by intros ->].
  - unfold vouched. rewrite elem_of_app. split_and!; [|intros Hn|done].
    + intros [Hf|?]; [|done]. repeat case_decide; try done. rewrite !elem_of_cons, elem_of_nil in Hf. naive_solver.
    + repeat case_decide; try done; subst; destruct Hn; left; [left|right; right; left|right; left].
Qed.
End Composition.

(** Retry-After is the wait rounded up to whole seconds, at least one. *)
Lemma retry_secs_ceil d :
  0 < d <= 2 ^ 63 - 1000000000 -> 1 <= retry_secs d /\ (retry_secs d - 1) * 1000000000 < d <= retry_secs d * 1000000000.
Proof.
  intros Hd. unfold retry_secs. rewrite i64_small by lia. rewrite Z.quot_div_nonneg by lia.
  destruct (_ <? 1) eqn:E; zlia.
Qed.

(** ** Witnesses *)

Lemma gate_prefix_exact_witness :
  Contains_addr (MkPrefix (V4 [10; 0; 0; 0]) 8) (V4 [10; 1; 2; 3]) = true.
Proof.
  rewrite (gate_prefix_exact (str "::ffff:10.9.9.9/104") (MkPrefix (V6 (replicate 10 0 ++ [255; 255; 10; 9; 9; 9]) []) 104)
    _ (V4 [10; 1; 2; 3])); [vm_compute; reflexivity|vm_compute; reflexivity|vm_compute; reflexivity|].
  split; [|done]. split; [done|]. repeat constructor; unfold is_byte; lia.
Defined.

Lemma forged_prefix_harmless_witness :
  clientKey (ClientAddress (H := no_unicode) (Some demo_policy) (str "10.0.0.1:443") demo_header) <> str "6.6.6.6".
Proof.
  assert (H1 : 44 ∉ str " 203.0.113.9") by (rewrite <- byte_in_spec; discriminate).
  assert (H2 : Forall (fun e => 44 ∉ e) [str " 10.0.0.2"]) by (constructor; [rewrite <- byte_in_spec; discriminate|constructor]).
  assert (H3 : Forall (fun e => trusted_hop (Some demo_policy) (parseBareAddr (TrimSpace (H := no_unicode) e))) [str " 10.0.0.2"]).
  { constructor; [|constructor]. exists (V4 [10; 0; 0; 2]). split; vm_compute; reflexivity. }
  destruct (forged_prefix_harmless (H := no_unicode) demo_policy (str "10.0.0.1:443") demo_peer demo_header [] [] []
    (str "6.6.6.6") (str " 203.0.113.9") [str " 10.0.0.2"] (V4 [203; 0; 113; 9]) (MkGate [] [])
    eq_refl eq_refl eq_refl (Forall_nil_2 _) eq_refl eq_refl H1 H2 eq_refl eq_refl H3) as [(_ & E & _)|(_ & E & _)];
    rewrite E; clear; vm_compute; discriminate.
Defined.

Lemma clientKey_separates_witness :
  clientKey (ClientAddress (H := no_unicode) None (str "10.0.0.1:1") ∅) <>
  clientKey (ClientAddress (H := no_unicode) None (str "10.0.0.2:1") ∅).
Proof.
  intros E. apply (clientKey_separates (H := no_unicode) None None _ _ ∅ ∅ (V4 [10; 0; 0; 1]) (V4 [10; 0; 0; 2])) in E;
    [|vm_compute; reflexivity|vm_compute; reflexivity].
  vm_compute in E. destruct E as [_ E]. discriminate.
Defined.

Lemma chain_next_hop_witness :
  exists h, id_Client (Derive (H := no_unicode) (Some demo_policy) (Some (V4 [10; 0; 0; 9])) h) = Some (V4 [203; 0; 113; 9]).
Proof.
  exists (set_forwarded_chain ∅ (ClientAddress (H := no_unicode) (Some demo_policy) (str "10.0.0.1:443") demo_header) [] false).
  destruct (chain_next_hop (H := no_unicode) (Some demo_policy) demo_policy (str "10.0.0.1:443") (str "10.0.0.9:8080") demo_header ∅
    (set_forwarded_chain ∅ (ClientAddress (H := no_unicode) (Some demo_policy) (str "10.0.0.1:443") demo_header) [] false)
    [] false demo_peer (V4 [10; 0; 0; 9]) (V4 [203; 0; 113; 9]) eq_refl eq_refl eq_refl eq_refl eq_refl ltac:(done) eq_refl
    (or_intror eq_refl)) as (E & _).
  exact E.
Defined.

Lemma proxy_header_peer_witness :
  admit_conn (H := no_unicode) (Some demo_policy) (str "192.0.2.1:5000") [] = None.
Proof.
  destruct (proxy_header_peer (H := no_unicode) (Some demo_policy) (str "192.0.2.1:5000") demo_src demo_dst []) as [E _].
  - split; [by left|]. split; [repeat constructor; unfold is_byte; lia|simpl; lia].
  - split; [by right|]. split; [repeat constructor; unfold is_byte; lia|simpl; lia].
  - apply E. vm_compute. reflexivity.
Defined.

Lemma outbound_assertions_witness :
  setCanonicalXForwarded {[ str "Client-Cert" := [str ":forged:"] ]}
    (ClientAddress (H := no_unicode) None (str "10.0.0.1:1") ∅) [] false None !! str "Client-Cert" = None.
Proof.
  destruct (outbound_assertions {[ str "Client-Cert" := [str ":forged:"] ]} ∅
    (ClientAddress (H := no_unicode) None (str "10.0.0.1:1") ∅) [] false None (V4 [10; 0; 0; 1]) (str "Client-Cert")) as (_ & _ & E).
  - vm_compute. reflexivity.
  - split; [|done]. split; [done|]. repeat constructor; unfold is_byte; lia.
  - apply E; [done|left].
Defined.
