(* ===== verification/IPNet.v ===== *)
(** * Networks of Go's net package

    [net.ParseCIDR], [IP.Mask], [IPNet.Contains] and [IPNet.String] on byte
    lists, as the egress policy uses them, with what they mean: containment is
    agreement on the leading bits of addresses of one family, and the printed
    form determines the network. *)

From S2P Require Import Prelude GoStrings Bytes Netip NetipPrefix Http ClientAddr Forwarded ProxyProto ClientUse.

(** ** Masks and networks *)

Record IPNet := MkIPNet { n_IP : list Z; n_Mask : list Z }.

(** [CIDRMask] over [l] bytes: [n] leading ones. *)
Fixpoint CIDRMask (n : Z) (l : nat) : list Z :=
  match l with
  | O => []
  | S l => if 8 <=? n then 255 :: CIDRMask (n - 8) l else (255 - Z.shiftr 255 n) :: CIDRMask 0 l
  end.

Definition mask_bytes (ip mask : list Z) : list Z := zip_with Z.land ip mask.

(** [IP.Mask]; the length adjustments apply between IPv4 and IPv4-mapped forms. *)
Definition IP_Mask (ip mask : list Z) : option (list Z) :=
  let mask := if bool_decide (length mask = 16%nat) && bool_decide (length ip = 4%nat) &&
                 bool_decide (take 12 mask = replicate 12 255) then drop 12 mask else mask in
  let ip := if bool_decide (length mask = 4%nat) && bool_decide (length ip = 16%nat) &&
               bool_decide (take 12 ip = v4InV6Prefix) then drop 12 ip else ip in
  if bool_decide (length ip = length mask) then Some (mask_bytes ip mask) else None.

Definition networkNumberAndMask (n : IPNet) : option (list Z * list Z) :=
  let ip := match To4 (n_IP n) with
            | Some b => Some b
            | None => if bool_decide (length (n_IP n) = 16%nat) then Some (n_IP n) else None
            end in
  match ip with
  | None => None
  | Some ip =>
      if bool_decide (length (n_Mask n) = 4%nat) then
        if bool_decide (length ip = 4%nat) then Some (ip, n_Mask n) else None
      else if bool_decide (length (n_Mask n) = 16%nat) then
        Some (ip, if bool_decide (length ip = 4%nat) then drop 12 (n_Mask n) else n_Mask n)
      else None
  end.

Definition IPNet_Contains (n : IPNet) (ip : list Z) : bool :=
  let ip := default ip (To4 ip) in
  match networkNumberAndMask n with
  | None => bool_decide (ip = [])
  | Some (nn, m) => bool_decide (length ip = length nn) && bool_decide (mask_bytes nn m = mask_bytes ip m)
  end.

(** Leading ones of a byte, and the shifted rest. *)
Fixpoint byte_ones (fuel : nat) (v n : Z) : Z * Z :=
  match fuel with
  | O => (n, v)
  | S fuel => if negb (Z.land v 128 =? 0) then byte_ones fuel (Z.land (Z.shiftl v 1) 255) (n + 1) else (n, v)
  end.

(** [simpleMaskLength], -1 for a mask that is not leading ones. *)
Fixpoint simpleMaskLength (mask : list Z) (n : Z) : Z :=
  match mask with
  | [] => n
  | v :: mask =>
      if v =? 255 then simpleMaskLength mask (n + 8)
      else
        let '(n, v) := byte_ones 8 v n in
        if negb (v =? 0) then -1 else if forallb (fun b => b =? 0) mask then n else -1
  end.

(** [IPMask.String]. *)
Definition IPMask_String (m : list Z) : gostring :=
  match m with [] => str "<nil>" | _ => hex_string m end.

Definition IPNet_String (n : IPNet) : gostring :=
  match networkNumberAndMask n with
  | None => str "<nil>"
  | Some (nn, m) =>
      let l := simpleMaskLength m 0 in
      if l =? -1 then IP_String nn ++ 47 :: IPMask_String m else IP_String nn ++ 47 :: Itoa l
  end.

(** ** Parsing *)

(** [dtoi] on the whole text: digits only, below 0xFFFFFF. *)
Fixpoint dtoi (s : gostring) (n : Z) : option Z :=
  match s with
  | [] => Some n
  | c :: s => if is_digit c then
                let n := n * 10 + (c - 48) in if 16777215 <=? n then None else dtoi s n
              else None
  end.

(** The network part of [ParseCIDR]'s answer. *)
Definition ParseCIDR (s : gostring) : option IPNet :=
  let '(addr, mask, found) := CutByte s 47 in
  if negb found then None
  else match ParseAddr addr with
       | None => None
       | Some a =>
           if negb (bool_decide (Zone a = [])) then None
           else if bool_decide (mask = []) then None
           else match dtoi mask 0 with
                | None => None
                | Some n =>
                    if BitLen a <? n then None
                    else
                      let m := CIDRMask n (Z.to_nat (BitLen a / 8)) in
                      let addr16 := match a with V4 b => v4InV6Prefix ++ b | V6 b _ => b end in
                      ip ← IP_Mask addr16 m; Some (MkIPNet ip m)
                end
       end.

(** ** What containment means *)

(** A network in normal form: the number and the count of leading ones, for
    the family of the number. *)
Definition net_normal (n : IPNet) (nn : list Z) (k : Z) : Prop :=
  networkNumberAndMask n = Some (nn, CIDRMask k (length nn)) /\
  (length nn = 4%nat \/ length nn = 16%nat) /\ Forall is_byte nn /\ 0 <= k <= 8 * Z.of_nat (length nn) /\
  (length nn = 16%nat -> take 12 nn <> v4InV6Prefix).

Lemma CIDRMask_length k l : length (CIDRMask k l) = l.
Proof. revert k. induction l as [|l IH]; intros k; cbn [CIDRMask]; [done|]. destruct (8 <=? k); cbn [length]; by rewrite IH. Qed.

Lemma be_val_cons x b : be_val (x :: b) = x * 256 ^ Z.of_nat (length b) + be_val b.
Proof.
  induction b as [|y b IH] using rev_ind; [unfold be_val; simpl; lia|].
  rewrite app_comm_cons, !be_val_app, IH, length_app, Nat2Z.inj_add, Z.pow_add_r by lia. change (256 ^ Z.of_nat (length [y])) with 256. lia.
Qed.

(** A masked byte keeps its leading bits. *)
Lemma land_mask_byte x k : is_byte x -> 0 <= k <= 8 -> Z.land x (255 - Z.shiftr 255 k) = x / 2 ^ (8 - k) * 2 ^ (8 - k).
Proof.
  intros Hx Hk. unfold is_byte in Hx.
  assert (HC : forallb (fun k => forallb (fun x => Z.land x (255 - Z.shiftr 255 k) =? x / 2 ^ (8 - k) * 2 ^ (8 - k)) (seqZ 0 256)) (seqZ 0 9) = true)
    by (vm_compute; reflexivity).
  rewrite forallb_forall in HC. specialize (HC k). rewrite <- list_elem_of_In, elem_of_seqZ, forallb_forall in HC.
  specialize (HC ltac:(lia) x). rewrite <- list_elem_of_In, elem_of_seqZ in HC. apply Z.eqb_eq, HC. lia.
Qed.

Lemma mask_bytes_zero b : Forall is_byte b -> mask_bytes b (CIDRMask 0 (length b)) = replicate (length b) 0.
Proof.
  induction 1 as [|x b Hx HF IH]; [done|]. cbn [length CIDRMask replicate]. unfold mask_bytes in *. cbn [zip_with].
  change (8 <=? 0) with false. cbn [zip_with]. rewrite IH, land_mask_byte by (done || lia). unfold is_byte in Hx.
  change (2 ^ (8 - 0)) with 256. by rewrite Z.div_small by lia.
Qed.

(** Masked byte lists agree exactly when the leading bits of their values do. *)
Lemma masked_eq b c k :
  length b = length c -> Forall is_byte b -> Forall is_byte c -> 0 <= k <= 8 * Z.of_nat (length b) ->
  mask_bytes b (CIDRMask k (length b)) = mask_bytes c (CIDRMask k (length b)) <->
  be_val b / 2 ^ (8 * Z.of_nat (length b) - k) = be_val c / 2 ^ (8 * Z.of_nat (length b) - k).
Proof.
  revert c k. induction b as [|x b IH]; intros [|y c] k L Fb Fc Hk; try done.
  injection L as L. apply Forall_cons in Fb as [Hx Fb], Fc as [Hy Fc]. rewrite !be_val_cons, <- L. cbn [length].
  rewrite Nat2Z.inj_succ in *. set (l := Z.of_nat (length b)) in *. assert (Hl : 0 <= l) by lia.
  pose proof (be_val_range b Fb) as Vb. pose proof (be_val_range c Fc) as Vc. rewrite <- L in Vc. fold l in Vb, Vc.
  assert (E256 : 256 ^ l = 2 ^ (8 * l)) by (rewrite Z.pow_mul_r by lia; done). rewrite E256 in *.
  unfold mask_bytes. cbn [CIDRMask]. destruct (8 <=? k) eqn:E8; cbn [zip_with].
  - apply Z.leb_le in E8. replace (8 * Z.succ l - k) with (8 * l - (k - 8)) by lia. set (h := 8 * l - (k - 8)).
    assert (Hh : 0 <= h) by (unfold h; simpl in Hk; lia). replace (8 * l) with ((k - 8) + h) in Vb, Vc |- * by (unfold h; lia).
    rewrite Z.pow_add_r in * by lia. pose proof (Z.pow_pos_nonneg 2 h ltac:(lia) Hh). pose proof (Z.pow_pos_nonneg 2 (k - 8) ltac:(lia) ltac:(lia)).
    rewrite !Z.mul_assoc, !Z.div_add_l by lia.
    change 255 with (255 - Z.shiftr 255 8). rewrite !land_mask_byte by (done || lia). change (2 ^ (8 - 8)) with 1. rewrite !Z.div_1_r, !Z.mul_1_r.
    specialize (IH c (k - 8) L Fb Fc ltac:(lia)). fold l h in IH.
    assert (Db : 0 <= be_val b / 2 ^ h < 2 ^ (k - 8)) by (split; [apply Z.div_pos; lia|apply Z.div_lt_upper_bound; lia]).
    assert (Dc : 0 <= be_val c / 2 ^ h < 2 ^ (k - 8)) by (split; [apply Z.div_pos; lia|apply Z.div_lt_upper_bound; lia]).
    split.
    + intros [= -> E]. f_equal. by apply IH.
    + intros E. assert (x = y) as -> by nia. f_equal. apply IH. lia.
  - apply Z.leb_gt in E8. rewrite L at 2. fold (mask_bytes b (CIDRMask 0 (length b))). fold (mask_bytes c (CIDRMask 0 (length c))).
    rewrite !mask_bytes_zero, <- L, !land_mask_byte by (done || lia).
    replace (8 * Z.succ l - k) with (8 * l + (8 - k)) by lia. rewrite Z.pow_add_r, <- !Z.div_div by (try apply Z.pow_pos_nonneg; lia).
    rewrite !Z.div_add_l, !(Z.div_small (be_val _)), !Z.add_0_r by lia.
    pose proof (Z.pow_pos_nonneg 2 (8 - k) ltac:(lia) ltac:(lia)). split; [intros [= E]; nia|intros ->; done].
Qed.

(** The address a byte list stands for: IPv4 for four bytes and for the mapped
    form. *)
Definition slice_addr (ip : list Z) : Addr := normalize_addr (if bool_decide (length ip = 4%nat) then V4 ip else V6 ip []).

Definition slice_ok (ip : list Z) : Prop := (length ip = 4%nat \/ length ip = 16%nat) /\ Forall is_byte ip.

Lemma slice_nonnil ip : slice_ok ip -> ip <> [].
Proof. intros [[L|L] _] ->; done. Qed.

Lemma slice_addr_ok ip : slice_ok ip -> canonical_addr (slice_addr ip).
Proof. intros [[L|L] HF]; apply normalize_addr_ok; case_bool_decide; done || lia. Qed.

(** [To4] or the bytes themselves are the bytes of that address. *)
Lemma slice_bytes ip : slice_ok ip -> default ip (To4 ip) = addr_bytes (slice_addr ip) /\
  (To4 ip = None -> length ip = 16%nat /\ Is4 (slice_addr ip) = false).
Proof.
  intros [HL HF]. unfold slice_addr, normalize_addr, To4, Unmap, Is4In6, v4InV6Prefix.
  case_bool_decide as E4; [done|]. destruct HL as [?|L]; [done|]. rewrite (bool_decide_true (length ip = 16%nat)) by done.
  cbn [andb]. by case_bool_decide.
Qed.

(** The prefix of a network in normal form. *)
Definition net_prefix (nn : list Z) (k : Z) : Prefix := MkPrefix (slice_addr nn) k.

Lemma net_normal_addr n nn k : net_normal n nn k ->
  slice_ok nn /\ slice_addr nn = (if bool_decide (length nn = 4%nat) then V4 nn else V6 nn []) /\ prefix_ok (net_prefix nn k).
Proof.
  intros (_ & HL & HF & Hk & H6). assert (Hs : slice_ok nn) by done. split; [done|].
  assert (E : slice_addr nn = (if bool_decide (length nn = 4%nat) then V4 nn else V6 nn [])).
  { unfold slice_addr. apply normalize_canonical. case_bool_decide as E4; [done|]. destruct HL as [?|L]; [done|]. split_and!; [done..|].
    unfold Is4In6. rewrite bool_decide_false; [done|]. by apply H6. }
  split; [done|]. destruct (slice_addr_ok nn Hs) as (H1 & H2 & _). split_and!; [done..| | ]; unfold net_prefix; cbn [p_Bits p_Addr]; [lia|].
  rewrite E. case_bool_decide as E4; cbn [BitLen]; destruct HL as [L|L]; rewrite L in *; lia.
Qed.

(** Containment is that of the prefix, on the address the bytes stand for. *)
Lemma IPNet_Contains_spec n nn k ip : net_normal n nn k -> slice_ok ip ->
  IPNet_Contains n ip = Contains_addr (net_prefix nn k) (slice_addr ip).
Proof.
  intros HN Hip. destruct (net_normal_addr _ _ _ HN) as (Hnn & Enn & Hp). destruct HN as (EN & HL & HF & Hk & _).
  pose proof (slice_addr_ok ip Hip) as (Hok & Hz & _). destruct (slice_bytes ip Hip) as [Eb _].
  unfold IPNet_Contains. rewrite EN, Eb. apply eq_true_iff_eq. rewrite Contains_spec by done.
  unfold net_prefix. cbn [p_Addr]. unfold host_bits. cbn [p_Addr p_Bits]. rewrite andb_true_iff, !bool_decide_eq_true.
  assert (HB : BitLen (slice_addr nn) = 8 * Z.of_nat (length nn)).
  { rewrite Enn. destruct HL as [L|L]; rewrite L; done. }
  assert (EV : addr_val (slice_addr nn) = be_val nn) by (unfold addr_val; rewrite Enn; by case_bool_decide).
  rewrite HB, EV. unfold addr_val. set (a := slice_addr ip) in *.
  assert (HBa : BitLen a = 8 * Z.of_nat (length (addr_bytes a)) /\ Forall is_byte (addr_bytes a)).
  { destruct a as [b|b z]; cbn [addr_ok addr_bytes BitLen] in *; destruct Hok as [L F]; rewrite L; done. }
  destruct HBa as [HBa Fa]. rewrite HBa. split.
  - intros [L E]. split_and!; [done|lia|]. symmetry. rewrite masked_eq in E; done || lia.
  - intros (_ & L & E). assert (length (addr_bytes a) = length nn) by lia. split; [done|]. rewrite masked_eq; done || lia.
Qed.

Lemma byte_ones_mask k n : 0 <= k < 8 -> byte_ones 8 (255 - Z.shiftr 255 k) n = (n + k, 0).
Proof.
  intros Hk. assert (k = 0 \/ k = 1 \/ k = 2 \/ k = 3 \/ k = 4 \/ k = 5 \/ k = 6 \/ k = 7) as HC by lia.
  repeat destruct HC as [-> |HC]; try subst; cbn; f_equal; lia.
Qed.

Lemma CIDRMask_zero l : CIDRMask 0 l = replicate l 0.
Proof. induction l as [|l IH]; [done|]. cbn [CIDRMask replicate]. change (8 <=? 0) with false. by rewrite IH. Qed.

Lemma simpleMaskLength_CIDRMask k l n : 0 <= k <= 8 * Z.of_nat l -> simpleMaskLength (CIDRMask k l) n = n + k.
Proof.
  revert k n. induction l as [|l IH]; intros k n Hk; cbn [CIDRMask simpleMaskLength]; [lia|].
  destruct (8 <=? k) eqn:E; cbn [simpleMaskLength].
  - rewrite Z.eqb_refl, IH by lia. lia.
  - assert (HC : 255 - Z.shiftr 255 k <> 255).
    { assert (k = 0 \/ k = 1 \/ k = 2 \/ k = 3 \/ k = 4 \/ k = 5 \/ k = 6 \/ k = 7) as HC by lia. repeat destruct HC as [-> |HC]; subst; done. }
    rewrite (proj2 (Z.eqb_neq _ _)) by done. rewrite byte_ones_mask by lia. cbn [negb Z.eqb].
    rewrite CIDRMask_zero, (proj2 (forallb_forall _ _)); [done|]. intros x Hx%list_elem_of_In%elem_of_replicate. by destruct Hx as [-> _].
Qed.

(** ** The printed form determines the network *)

Lemma IP_String_slice ip : slice_ok ip -> IP_String ip = addr_string (slice_addr ip).
Proof.
  intros [HL HF]. unfold IP_String, slice_addr, normalize_addr, To4, Unmap, Is4In6, v4InV6Prefix.
  rewrite bool_decide_false by (intros ->; by destruct HL).
  case_bool_decide as E4; [done|]. destruct HL as [?|L]; [done|]. rewrite (bool_decide_true (length ip = 16%nat)) by done.
  cbn [andb]. by case_bool_decide.
Qed.

Lemma IPNet_String_normal n nn k : net_normal n nn k ->
  IPNet_String n = addr_string (slice_addr nn) ++ 47 :: FormatUint k.
Proof.
  intros HN. destruct (net_normal_addr _ _ _ HN) as (Hnn & _ & _). destruct HN as (EN & _ & _ & Hk & _).
  unfold IPNet_String. rewrite EN, simpleMaskLength_CIDRMask, Z.add_0_l by done.
  rewrite (proj2 (Z.eqb_neq k (-1))), IP_String_slice by (done || lia). unfold Itoa. by rewrite (proj2 (Z.ltb_ge k 0)) by lia.
Qed.

Lemma addr_string_no_slash a : canonical_addr a -> 47 ∉ addr_string a.
Proof. intros Ha Hc. apply (addr_string_chars a _ Ha) in Hc. unfold addr_char, is_digit in Hc. lia. Qed.

Lemma IPNet_String_inj n m nn k mm j :
  net_normal n nn k -> net_normal m mm j -> IPNet_String n = IPNet_String m -> nn = mm /\ k = j.
Proof.
  intros HN HM E. rewrite (IPNet_String_normal _ _ _ HN), (IPNet_String_normal _ _ _ HM) in E.
  destruct (net_normal_addr _ _ _ HN) as (Hn & En & _), (net_normal_addr _ _ _ HM) as (Hm & Em & _).
  apply slice_addr_ok in Hn, Hm. apply cut_unique in E as [E Ek]; [|by apply addr_string_no_slash..].
  assert (EA : Some (slice_addr nn) = Some (slice_addr mm)) by (by rewrite <- !canonical_string, E).
  injection EA as EA. destruct HN as (_ & LN & _ & Hk & _), HM as (_ & LM & _ & Hj & _). split.
  - rewrite En, Em in EA. repeat case_bool_decide; congruence.
  - assert (EP : Some k = Some j); [|by injection EP].
    assert (k < 10 ^ 20 /\ j < 10 ^ 20) by (destruct LN as [L|L], LM as [L'|L']; rewrite L in Hk; rewrite L' in Hj; lia).
    rewrite <- (FormatUint_parse k), <- (FormatUint_parse j) by lia. by rewrite Ek.
Qed.

(** ** Parsed networks are in normal form *)

Lemma mask_bytes_length b m : length b = length m -> length (mask_bytes b m) = length b.
Proof. intros L. unfold mask_bytes. rewrite length_zip_with. lia. Qed.

Lemma mask_bytes_byte b m : Forall is_byte b -> Forall (fun x => 0 <= x) m -> Forall is_byte (mask_bytes b m).
Proof.
  intros HF. revert m. induction HF as [|x b Hx HF IH]; intros [|y m] Hm; unfold mask_bytes; cbn [zip_with]; try constructor.
  - apply Forall_cons in Hm as [Hy _]. unfold is_byte in *. assert (0 <= Z.land x y) by (apply Z.land_nonneg; lia).
    assert (E : Z.land x y = Z.land x y mod 2 ^ 8).
    { rewrite <- Z.land_ones, <- Z.land_assoc, (Z.land_comm y), Z.land_assoc, (Z.land_ones x), (Z.mod_small x) by lia. done. }
    zlia.
  - apply IH. by apply Forall_cons in Hm as [_ ?].
Qed.

Lemma CIDRMask_nonneg k l : 0 <= k -> Forall (fun x => 0 <= x) (CIDRMask k l).
Proof.
  revert k. induction l as [|l IH]; intros k Hk; cbn [CIDRMask]; [constructor|]. destruct (8 <=? k) eqn:E; constructor; try (apply IH; lia); [lia|].
  assert (k = 0 \/ k = 1 \/ k = 2 \/ k = 3 \/ k = 4 \/ k = 5 \/ k = 6 \/ k = 7) as HC by lia. repeat destruct HC as [-> |HC]; subst; done.
Qed.

Lemma mask_bytes_idem b m : mask_bytes (mask_bytes b m) m = mask_bytes b m.
Proof.
  unfold mask_bytes. revert m. induction b as [|x b IH]; intros [|y m]; cbn [zip_with]; [done..|].
  rewrite IH. f_equal. by rewrite <- Z.land_assoc, Z.land_diag.
Qed.

Lemma CIDRMask_app k a b : 8 * Z.of_nat a <= k -> CIDRMask k (a + b) = replicate a 255 ++ CIDRMask (k - 8 * Z.of_nat a) b.
Proof.
  revert k. induction a as [|a IH]; intros k Hk; cbn [Nat.add CIDRMask replicate app]; [f_equal; lia|].
  rewrite (proj2 (Z.leb_le 8 k)) by lia. rewrite IH by lia. do 3 f_equal. lia.
Qed.

(** Below the full length the masked byte at the boundary is even. *)
Lemma masked_even b k a : Forall is_byte b -> 0 <= k -> k < 8 * Z.of_nat (S a) -> (a < length b)%nat ->
  mask_bytes b (CIDRMask k (length b)) !! a <> Some 255.
Proof.
  intros HF. revert k a. induction HF as [|x b Hx HF IH]; intros k a H0 Hk Ha; [done|]. cbn [length CIDRMask]. unfold mask_bytes in *.
  destruct (8 <=? k) eqn:E; cbn [zip_with].
  - destruct a as [|a]; [lia|]. cbn [lookup list_lookup]. apply IH; simpl in *; lia.
  - destruct a as [|a]; cbn [lookup list_lookup].
    + rewrite land_mask_byte by (done || lia). replace (8 - k) with (Z.succ (7 - k)) by lia. rewrite Z.pow_succ_r by lia. intros [= E2]. lia.
    + rewrite CIDRMask_zero. change (zip_with Z.land b (replicate (length b) 0) !! a <> Some 255). rewrite lookup_zip_with, bind_Some. intros (u & _ & E2). rewrite bind_Some in E2.
      destruct E2 as (w & Hw & [= E2]). apply lookup_replicate in Hw as [-> _]. by rewrite Z.land_0_r in E2.
Qed.

(** A masked IPv6 number that is IPv4 mapped has a mask of at least 96 bits. *)
Lemma mapped_mask b k : length b = 16%nat -> Forall is_byte b -> 0 <= k ->
  take 12 (mask_bytes b (CIDRMask k 16)) = v4InV6Prefix -> 96 <= k.
Proof.
  intros L HF H0 E. destruct (Z.le_gt_cases 96 k) as [?|Hk]; [done|]. exfalso.
  apply (masked_even b k 11 HF H0); [lia|lia|]. rewrite L, <- (lookup_take_lt _ 12) by lia. by rewrite E.
Qed.

(** The network of a number of 4 or 16 bytes and a mask of leading ones. *)
Lemma net_normal_masked b k : slice_ok b -> 0 <= k <= 8 * Z.of_nat (length b) ->
  exists nn j, net_normal (MkIPNet (mask_bytes b (CIDRMask k (length b))) (CIDRMask k (length b))) nn j.
Proof.
  intros [HL HF] Hk. set (m := CIDRMask k (length b)). set (v := mask_bytes b m).
  assert (Lm : length m = length b) by apply CIDRMask_length.
  assert (Lv : length v = length b) by (apply mask_bytes_length; lia).
  assert (Fv : Forall is_byte v) by (apply mask_bytes_byte; [done|]; apply CIDRMask_nonneg; lia).
  unfold net_normal, networkNumberAndMask, To4. cbn [n_IP n_Mask]. rewrite Lv, Lm. destruct HL as [L|L]; rewrite L.
  - exists v, k. rewrite !(bool_decide_true (4 = 4)%nat) by done. rewrite Lv, L, bool_decide_true by done.
    split_and!; [by unfold m; rewrite L|by left|done|lia|lia|done].
  - rewrite (bool_decide_false (16 = 4)%nat), !(bool_decide_true (16 = 16)%nat) by done. cbn [andb]. case_bool_decide as E.
    + assert (96 <= k) by (apply (mapped_mask b); [done|done|lia|]; unfold v, m in E; by rewrite L in E).
      exists (drop 12 v), (k - 96). rewrite length_drop, Lv, L. rewrite bool_decide_true by done.
      split_and!; [|by left|by apply Forall_drop|lia|simpl; lia|done]. do 2 f_equal. unfold m. rewrite L in *.
      change 16%nat with (12 + 4)%nat. rewrite CIDRMask_app by lia. done.
    + exists v, k. rewrite Lv, L. rewrite bool_decide_false by done. split_and!; [by unfold m; rewrite L|by right|done|lia|lia|done].
Qed.

Lemma dtoi_nonneg s n k : 0 <= n -> dtoi s n = Some k -> 0 <= k.
Proof.
  revert n. induction s as [|c s IH]; intros n Hn; cbn [dtoi]; [intros [= <-]; lia|]. destruct (is_digit c) eqn:E; [|done].
  case_match; [done|]. apply IH. unfold is_digit in E. lia.
Qed.

Lemma IP_Mask_same b m : length b = length m -> length b = 4%nat \/ length b = 16%nat -> IP_Mask b m = Some (mask_bytes b m).
Proof.
  intros L HL. unfold IP_Mask. rewrite <- L.
  assert (E : bool_decide (length b = 16%nat) && bool_decide (length b = 4%nat) = false) by (repeat case_bool_decide; lia || done).
  rewrite E. cbn [andb]. rewrite <- L, (andb_comm (bool_decide (length b = 4%nat))), E. cbn [andb]. by rewrite bool_decide_true.
Qed.

Lemma IP_Mask_mapped b m : length b = 4%nat -> length m = 4%nat -> IP_Mask (v4InV6Prefix ++ b) m = Some (mask_bytes b m).
Proof.
  intros Lb Lm. unfold IP_Mask. rewrite length_app, Lb, Lm. cbn [length v4InV6Prefix replicate app Nat.add].
  rewrite (bool_decide_false (4 = 16)%nat) by done. cbn [andb]. rewrite Lm.
  rewrite (bool_decide_true (4 = 4)%nat), (bool_decide_true (16 = 16)%nat) by done.
  change (take 12 _) with (v4InV6Prefix). rewrite (bool_decide_true (v4InV6Prefix = v4InV6Prefix)) by done. cbn [andb].
  change (drop 12 _) with b. by rewrite bool_decide_true by lia.
Qed.

Lemma ParseCIDR_normal s n : ParseCIDR s = Some n ->
  (exists nn k, net_normal n nn k) /\ IP_Mask (n_IP n) (n_Mask n) = Some (n_IP n).
Proof.
  unfold ParseCIDR. destruct (CutByte s 47) as [[addr mask] found]. destruct found; [|done]. cbn [negb].
  destruct (ParseAddr addr) as [a|] eqn:Ea; [|done]. case_bool_decide; [|done]. cbn [negb]. case_bool_decide; [done|].
  destruct (dtoi mask 0) as [k|] eqn:Ek; [|done]. apply dtoi_nonneg in Ek; [|lia]. destruct (BitLen a <? k) eqn:Hk; [done|]. apply Z.ltb_ge in Hk.
  apply ParseAddr_ok in Ea.
  assert (HX : forall b, slice_ok b -> k <= 8 * Z.of_nat (length b) ->
    (exists nn j, net_normal (MkIPNet (mask_bytes b (CIDRMask k (length b))) (CIDRMask k (length b))) nn j) /\
    IP_Mask (mask_bytes b (CIDRMask k (length b))) (CIDRMask k (length b)) = Some (mask_bytes b (CIDRMask k (length b)))).
  { intros b Hb HB. split; [apply net_normal_masked; done || lia|]. assert (L : length b = length (CIDRMask k (length b))) by (by rewrite CIDRMask_length).
    rewrite IP_Mask_same by (rewrite mask_bytes_length; [done || apply Hb|done]). by rewrite mask_bytes_idem. }
  destruct a as [b|b z]; cbn [BitLen addr_ok] in *; destruct Ea as [L F].
  - specialize (HX b (conj (or_introl L) F) ltac:(lia)). rewrite L in HX. change (Z.to_nat (32 / 8)) with 4%nat.
    rewrite IP_Mask_mapped by (done || apply CIDRMask_length). by intros [= <-].
  - specialize (HX b (conj (or_intror L) F) ltac:(lia)). rewrite L in HX. change (Z.to_nat (128 / 8)) with 16%nat.
    rewrite IP_Mask_same by (rewrite ?CIDRMask_length; auto). cbn [mbind option_bind]. generalize dependent (CIDRMask k 16). intros m HX [= <-]. exact HX.
Qed.

(** A single address as a network. *)
Lemma net_normal_single b : slice_ok b -> (length b = 16%nat -> take 12 b <> v4InV6Prefix) ->
  net_normal (MkIPNet b (CIDRMask (8 * Z.of_nat (length b)) (length b))) b (8 * Z.of_nat (length b)).
Proof.
  intros [HL HF] H6. unfold net_normal, networkNumberAndMask, To4. cbn [n_IP n_Mask]. rewrite CIDRMask_length.
  split_and!; [|done|done|lia|lia|done]. destruct HL as [L|L]; rewrite L.
  - rewrite !(bool_decide_true (4 = 4)%nat) by done. by rewrite L.
  - rewrite (bool_decide_false (16 = 4)%nat), !(bool_decide_true (16 = 16)%nat) by done. rewrite (bool_decide_false (take 12 b = _)) by auto.
    cbn [andb]. by rewrite L.
Qed.

(** ** The characters of an address text *)

Definition ip_char (c : Z) : bool := bool_decide (is_Some (hex_digit c)) || (c =? 46) || (c =? 58).

Lemma ipv4_fields_chars s fields v d sep b : ipv4_fields s fields v d sep = Some b -> forallb ip_char s = true.
Proof.
  revert fields v d sep. induction s as [|c s IH]; intros fields v d sep; cbn [ipv4_fields forallb]; [done|].
  unfold ip_char at 1, hex_digit. destruct (is_digit c) eqn:E.
  - destruct (_ && _); [done|]. case_match; [done|]. intros HI%IH. rewrite HI. by rewrite bool_decide_true.
  - destruct (c =? 46) eqn:E46; [|done]. destruct (_ || _); [done|]. case_bool_decide; [done|]. intros HI%IH. by rewrite HI, orb_true_r.
Qed.

Lemma hex_group_chars s off acc v n rest : hex_group s off acc = Some (v, n, rest) ->
  exists pre, s = pre ++ rest /\ forallb ip_char pre = true.
Proof.
  revert off acc. induction s as [|c s IH]; intros off acc; cbn [hex_group]; [intros [= <- <- <-]; by exists []|].
  destruct (hex_digit c) as [d|] eqn:E; [|intros [= <- <- <-]; by exists []]. case_match; [done|]. intros (pre & -> & HF)%IH.
  exists (c :: pre). split; [done|]. cbn [forallb]. rewrite HF. unfold ip_char. by rewrite E, bool_decide_true.
Qed.

Lemma ipv6_groups_chars fuel s ip ell ip' ell' : ipv6_groups fuel s ip ell = Some (ip', ell', []) -> forallb ip_char s = true.
Proof.
  revert s ip ell. induction fuel as [|fuel IH]; intros s ip ell; cbn [ipv6_groups]; [by intros [= _ _ ->]|].
  destruct (hex_group s 0 0) as [[[acc off] rest]|] eqn:Eh; [|done]. apply hex_group_chars in Eh as (pre & -> & HF).
  case_bool_decide; [done|]. case_bool_decide.
  - destruct (_ && _); [done|]. case_match; [done|]. destruct (parseIPv4Fields _) eqn:E4; [|done]. intros _. by apply ipv4_fields_chars in E4.
  - rewrite forallb_app, HF. cbn [andb]. destruct rest as [|c rest]; [done|]. cbn [forallb]. destruct (c =? 58) eqn:Ec; [|done]. cbn [negb].
    assert (Hc : ip_char c = true) by (unfold ip_char; rewrite Ec; apply orb_true_r). rewrite Hc. cbn [andb].
    destruct rest as [|c2 rest]; [done|]. destruct (c2 =? 58) eqn:E2.
    + case_bool_decide; [done|]. cbn [forallb]. assert (Hc2 : ip_char c2 = true) by (unfold ip_char; rewrite E2; apply orb_true_r). rewrite Hc2.
      destruct rest as [|c3 rest]; [done|]. apply IH.
    + apply IH.
Qed.

Lemma ParseAddr_chars s a : ParseAddr s = Some a -> Zone a = [] -> forallb ip_char s = true.
Proof.
  unfold ParseAddr. destruct (addr_kind s) as [c|]; [|done]. destruct (decide (c = 46)) as [->|]; [|destruct (decide (c = 58)) as [->|]].
  - destruct (parseIPv4Fields s) eqn:E; [|done]. intros _ _. by apply ipv4_fields_chars in E.
  - unfold parseIPv6. destruct (CutByte s 37) as [[t zone] z] eqn:Ec. apply CutByte_spec in Ec as Hs. clear Ec. destruct z.
    + case_bool_decide as Ez; [done|]. cbn [andb]. destruct (match t with 58 :: 58 :: s' => _ | _ => _ end) as [u ell].
      destruct (_ && _); [intros [= <-]; cbn [Zone]; intros ->; done|].
      destruct (ipv6_groups 8 u [] ell) as [[[ip e] [|]]|]; [|done..].
      case_match; [destruct e; [|done]|case_bool_decide; [done|]]; intros [= <-]; cbn [Zone]; intros ->; done.
    + cbn [andb]. destruct Hs as (_ & <- & ->).
      destruct (match s with 58 :: 58 :: s' => _ | _ => _ end) as [u ell] eqn:Eu.
      assert (Hu : u = s \/ s = 58 :: 58 :: u) by (revert Eu; clear; repeat case_match; intros [= <- <-]; subst; auto).
      assert (Hc : forallb ip_char u = true -> forallb ip_char s = true) by (destruct Hu as [-> | ->]; done).
      case_bool_decide as Ee; [subst u; intros _ _; by apply Hc|]. cbn [andb].
      destruct (ipv6_groups 8 u [] ell) as [[[ip e] [|]]|] eqn:E6; [|done..]. apply ipv6_groups_chars in E6. intros _ _. by apply Hc.
  - intros H. exfalso. revert H. destruct c as [|p|p]; try done. do 7 (destruct p as [p|p|]; try done).
Qed.
