(* ===== verification/Egress.v ===== *)
(** * The outbound allow-list (internal/egress)

    Rules and their normal form (normalize.go), the policy and the guarded dial
    (policy.go, error.go), the guards of HTTP clients (http.go), the generations
    of the policy (generation.go) and the limiter of block logs (blocklog.go).
    The IDNA conversion of golang.org/x/net, the resolver and the base dialer
    are parameters.  A dial returns its result, the addresses it passed to the
    base dialer in order, and the decisions it reported. *)

From S2P Require Import Prelude GoStrings Netip NetipPrefix Http ClientAddr Forwarded ProxyProto ClientUse IPNet.

(** ** Rules ([normalize.go]) *)

Record hostRule := MkRule { hr_value : gostring; hr_suffix : bool }.

Inductive entry := HostEntry (r : hostRule) | CidrEntry (n : IPNet).

Inductive hostErr := HostEmpty | HostIDNA | HostChars | HostEmptyLabel.

Inductive egErr :=
| errSkip
| LooksLikeURL (raw : gostring)
| InvalidCIDR (raw : gostring)
| InvalidHost (raw : gostring) (e : hostErr)
| NoEntries
| NilManager.

Definition isASCII (s : gostring) : bool := forallb (fun b => b <? 128) s.

Definition parseIPLiteral (s : gostring) : option (list Z) :=
  let s := TrimPrefix (TrimSuffix s [93]) [91] in
  if byte_in s 37 then None else ParseIP s.

Definition canonicalCIDR (n : IPNet) : IPNet := MkIPNet (default [] (IP_Mask (n_IP n) (n_Mask n))) (n_Mask n).

Definition ipToCIDR (ip : list Z) : IPNet :=
  match To4 ip with
  | Some v4 => MkIPNet v4 (CIDRMask 32 4)
  | None => MkIPNet ip (CIDRMask 128 16)
  end.

Definition validateHostname (h : gostring) : option hostErr :=
  if bool_decide (h = []) then Some HostEmpty
  else if ContainsAny h [32; 9; 13; 10; 47; 64; 58] then Some HostChars
  else if existsb (fun label => bool_decide (label = [])) (SplitByte h 46) then Some HostEmptyLabel
  else None.

Section Normalize.
Context `{Unicode}.
(** [idna.Lookup.ToASCII]. *)
Variable idna : gostring -> option gostring.

Definition normalizeHost (h : gostring) : hostErr + gostring :=
  let h := ToLower (TrimSpace h) in
  let h := TrimSuffix h [46] in
  if bool_decide (h = []) then inl HostEmpty
  else if isASCII h then inr h
  else match idna h with Some a => inr a | None => inl HostIDNA end.

Definition parseEntry (raw : gostring) : egErr + entry :=
  let e := TrimSpace raw in
  if bool_decide (e = []) then inl errSkip
  else if Contains e (str "://") then inl (LooksLikeURL raw)
  else if byte_in e 47 then
    match ParseCIDR e with
    | None => inl (InvalidCIDR raw)
    | Some n => inr (CidrEntry (canonicalCIDR n))
    end
  else match parseIPLiteral e with
       | Some ip => inr (CidrEntry (ipToCIDR ip))
       | None =>
           let suffix := HasPrefix e [46] in
           let name := if suffix then drop 1 e else e in
           match normalizeHost name with
           | inl err => inl (InvalidHost raw err)
           | inr nh => match validateHostname nh with
                       | Some err => inl (InvalidHost raw err)
                       | None => inr (HostEntry (MkRule nh suffix))
                       end
           end
       end.

Definition dial_name (h : gostring) : gostring :=
  match ParseIP h with
  | Some ip => match To4 ip with Some v4 => IP_String v4 | None => IP_String ip end
  | None => match normalizeHost h with inr nh => nh | inl _ => [] end
  end.

Definition normalizeDialHost (h : gostring) : gostring :=
  let h := TrimSpace h in
  let h := TrimPrefix (TrimSuffix h [93]) [91] in
  if bool_decide (h = []) then []
  else match IndexByte h 37 with
       | Some i => match ParseAddr h with
                   | Some a => addr_string (WithZone a [])
                   | None => dial_name (take i h)
                   end
       | None => dial_name h
       end.
End Normalize.

(** ** Policies ([policy.go]) *)

Record EgressConfig := MkEgress { eg_Enabled : bool; eg_Allow : list gostring }.

(** A disabled policy, Go's nil, is [None]. *)
Record Policy := MkPolicy { hosts : list hostRule; cidrs : list IPNet }.

Definition rule_key (r : hostRule) : gostring := if hr_suffix r then 46 :: hr_value r else hr_value r.

Definition rule_matches (r : hostRule) (host : gostring) : bool :=
  if hr_suffix r then HasSuffix host (46 :: hr_value r) else bool_decide (host = hr_value r).

Definition allowHost (p : Policy) (host : gostring) : bool :=
  if bool_decide (host = []) then false else existsb (fun r => rule_matches r host) (hosts p).

Definition allowIP (p : Policy) (ip : list Z) : bool :=
  if bool_decide (ip = []) then false else existsb (fun n => IPNet_Contains n ip) (cidrs p).

Section New.
Context `{Unicode}.
Variable idna : gostring -> option gostring.

(** The loop over the entries, with the sets of keys seen. *)
Fixpoint add_entries (p : Policy) (seenHost seenCIDR : list gostring) (allow : list gostring) : egErr + Policy :=
  match allow with
  | [] => inr p
  | raw :: allow =>
      match parseEntry idna raw with
      | inl errSkip => add_entries p seenHost seenCIDR allow
      | inl e => inl e
      | inr (CidrEntry n) =>
          let key := IPNet_String n in
          if bool_decide (key ∈ seenCIDR) then add_entries p seenHost seenCIDR allow
          else add_entries (MkPolicy (hosts p) (cidrs p ++ [n])) seenHost (key :: seenCIDR) allow
      | inr (HostEntry r) =>
          let key := rule_key r in
          if bool_decide (key ∈ seenHost) then add_entries p seenHost seenCIDR allow
          else add_entries (MkPolicy (hosts p ++ [r]) (cidrs p)) (key :: seenHost) seenCIDR allow
      end
  end.

Definition New (cfg : EgressConfig) : egErr + option Policy :=
  if negb (eg_Enabled cfg) then inr None
  else match add_entries (MkPolicy [] []) [] [] (eg_Allow cfg) with
       | inl e => inl e
       | inr p => if bool_decide (hosts p = []) && bool_decide (cidrs p = []) then inl NoEntries else inr (Some p)
       end.
End New.

(** ** Validation (internal/config/validate.go) *)

Inductive egressCfgErr := EgressURL (i : nat) | EgressEntry (i : nat) | EgressHost (i : nat) | EgressEmpty.

Section Validate.
Context `{Unicode}.

(** The error of one trimmed, non-empty entry. *)
Definition validate_entry (i : nat) (e : gostring) : list egressCfgErr :=
  if Contains e (str "://") then [EgressURL i]
  else if bool_decide (is_Some (ParseCIDR e)) then []
  else if bool_decide (is_Some (ParseIP e)) then []
  else if ContainsAny e [47; 32; 9] then [EgressEntry i]
  else let host := TrimPrefix e [46] in
       if bool_decide (host = []) || HasPrefix host [46] then [EgressHost i] else [].

Fixpoint validate_allow (i n : nat) (allow : list gostring) : list egressCfgErr * nat :=
  match allow with
  | [] => ([], n)
  | raw :: allow =>
      let e := TrimSpace raw in
      if bool_decide (e = []) then validate_allow (S i) n allow
      else let '(es, n) := validate_allow (S i) (S n) allow in (validate_entry i e ++ es, n)
  end.

Definition validateEgress (c : EgressConfig) : list egressCfgErr :=
  if negb (eg_Enabled c) then []
  else let '(es, n) := validate_allow 0 0 (eg_Allow c) in
       es ++ if bool_decide (n = 0%nat) then [EgressEmpty] else [].
End Validate.

(** ** Decisions and errors ([error.go]) *)

Inductive Reason := ReasonHostNotAllowed | ReasonIPNotAllowed | ReasonMixedDNS | ReasonNoDNSAnswers | ReasonInvalidAddress.

#[export] Instance Reason_eq_dec : EqDecision Reason.
Proof. solve_decision. Defined.

Record BlockError := MkBlockError { be_Subsystem : gostring; be_Host : gostring; be_IP : gostring; be_Reason : Reason }.

(** [d_Block] is the result: [Some] reason for a block, [None] for an allow. *)
Record Decision := MkDecision {
  d_Subsystem : gostring; d_Block : option Reason; d_Host : gostring; d_IP : gostring; d_DNSAnswers : nat
}.

Definition SubsystemAuth : gostring := str "auth".
Definition SubsystemDiscovery : gostring := str "discovery".
Definition SubsystemACME : gostring := str "acme".
Definition SubsystemOCSP : gostring := str "ocsp".
Definition SubsystemPlugin : gostring := str "plugin".

(** [BlockError.Error]; the destination is printed quoted. *)
Definition BlockError_dest (e : BlockError) : gostring :=
  if negb (bool_decide (be_IP e = [])) && negb (bool_decide (be_IP e = be_Host e))
  then be_Host e ++ str " (" ++ be_IP e ++ str ")" else be_Host e.

(** ** The guarded dial ([policy.go], [http.go]) *)

Section Dial.
Context `{Unicode}.
Variable idna : gostring -> option gostring.
(** Connections, and the errors of the base dialer and of the resolver. *)
Context {Conn DialErr : Type}.
(** The base dialer: the outcome of the [i]-th call of one guarded dial. *)
Variable baseDial : nat -> gostring -> DialErr + Conn.
(** [LookupIPAddr]: the addresses of the answer. *)
Variable resolver : gostring -> DialErr + list (list Z).

Inductive dialError := Blocked (e : BlockError) | Failed (e : DialErr).

Record dialRun := MkRun { out : dialError + Conn; dialed : list gostring; decisions : list Decision }.

Definition block (subsystem host ip : gostring) (r : Reason) (answers : nat) : dialRun :=
  MkRun (inl (Blocked (MkBlockError subsystem host ip r))) [] [MkDecision subsystem (Some r) host ip answers].

Definition observeAllow (subsystem host ip : gostring) (answers : nat) : Decision :=
  MkDecision subsystem None host ip answers.

Definition base (addr : gostring) (ds : list Decision) : dialRun :=
  MkRun (match baseDial 0 addr with inl e => inl (Failed e) | inr c => inr c end) [addr] ds.

(** The loop over validated addresses: the outcome, [None] when there was none
    to try, and the addresses tried. *)
Fixpoint dial_each (i : nat) (port : gostring) (lastErr : option DialErr) (ips : list (list Z))
  : option (DialErr + Conn) * list gostring :=
  match ips with
  | [] => (inl <$> lastErr, [])
  | ip :: ips =>
      let addr := JoinHostPort (IP_String ip) port in
      match baseDial i addr with
      | inr c => (Some (inr c), [addr])
      | inl e => let '(r, l) := dial_each (S i) port (Some e) ips in (r, addr :: l)
      end
  end.

Definition dial (p : Policy) (subsystem host port : gostring) : dialRun :=
  let nhost := normalizeDialHost idna host in
  if bool_decide (nhost = []) then block subsystem host [] ReasonInvalidAddress 0
  else match ParseIP nhost with
  | Some ip =>
      if negb (allowIP p ip) then block subsystem nhost (IP_String ip) ReasonIPNotAllowed 0
      else base (JoinHostPort host port) [observeAllow subsystem nhost (IP_String ip) 0]
  | None =>
      if allowHost p nhost then base (JoinHostPort host port) [observeAllow subsystem nhost [] 0]
      else match resolver nhost with
      | inl e => MkRun (inl (Failed e)) [] []
      | inr ips =>
          if bool_decide (ips = []) then block subsystem nhost [] ReasonNoDNSAnswers 0
          else
            let good := length (List.filter (allowIP p) ips) in
            let firstBad := match List.filter (fun ip => negb (allowIP p ip)) ips with ip :: _ => IP_String ip | [] => [] end in
            if bool_decide (good = 0%nat) then block subsystem nhost firstBad ReasonHostNotAllowed (length ips)
            else if (good <? length ips)%nat then block subsystem nhost firstBad ReasonMixedDNS (length ips)
            else
              let ds := [observeAllow subsystem nhost [] (length ips)] in
              match dial_each 0 port None ips with
              | (Some (inr c), l) => MkRun (inr c) l ds
              | (Some (inl e), l) => MkRun (inl (Failed e)) l ds
              | (None, l) =>
                  let b := block subsystem nhost [] ReasonHostNotAllowed (length ips) in
                  MkRun (out b) l (ds ++ decisions b)
              end
      end
  end.

(** A guard is [None] for a disabled policy. *)
Definition For (p : option Policy) (subsystem : gostring) : option (Policy * gostring) :=
  match p with Some p => Some (p, subsystem) | None => None end.

Definition DialContextWith (g : option (Policy * gostring)) (addr : gostring) : dialRun :=
  match g with
  | None => base addr []
  | Some (policy, subsystem) =>
      match SplitHostPort addr with
      | None => MkRun (inl (Blocked (MkBlockError subsystem addr [] ReasonInvalidAddress))) [] []
      | Some (host, port) => dial policy subsystem host port
      end
  end.

Definition staticBlock (p : Policy) (subsystem host : gostring) : option BlockError :=
  let nhost := normalizeDialHost idna host in
  if bool_decide (nhost = []) then Some (MkBlockError subsystem host [] ReasonInvalidAddress)
  else match ParseIP nhost with
       | Some ip => if negb (allowIP p ip) then Some (MkBlockError subsystem nhost (IP_String ip) ReasonIPNotAllowed) else None
       | None => None
       end.

(** [guardedRoundTripper.RoundTrip]: refuse, with the decision reported, or pass
    the request on. *)
Definition guarded_RoundTrip {Resp : Type} (p : Policy) (subsystem hostname : gostring) (next : Resp)
  : (BlockError * Decision) + Resp :=
  match staticBlock p subsystem hostname with
  | Some be => inl (be, MkDecision subsystem (Some (be_Reason be)) (be_Host be) (be_IP be) 0)
  | None => inr next
  end.
End Dial.

(** ** Generations ([generation.go]) *)

Definition policySignature (p : option Policy) : gostring :=
  match p with
  | None => str "disabled"
  | Some p =>
      let parts := map (fun r => (if hr_suffix r then str "suffix:" else str "host:") ++ hr_value r) (hosts p) ++
                   map (fun n => str "cidr:" ++ IPNet_String n) (cidrs p) in
      str "enabled" ++ 0 :: JoinByte (sort_Strings parts) 0
  end.

Record Generation := MkGeneration { g_id : Z; g_policy : option Policy; g_signature : gostring }.

Definition newGeneration (id : Z) (p : option Policy) : Generation := MkGeneration id p (policySignature p).

(** The manager: the last identifier handed out and the published generation. *)
Record Manager := MkManager { nextID : Z; current : option Generation }.

Section Manager.
Context `{Unicode}.
Variable idna : gostring -> option gostring.

Definition NewManager (cfg : EgressConfig) : egErr + Manager :=
  match New idna cfg with
  | inl e => inl e
  | inr p => inr (MkManager 1 (Some (newGeneration 1 p)))
  end.

(** The manager afterwards, the generation and whether it is new. *)
Definition Prepare (m : Manager) (cfg : EgressConfig) : egErr + Manager * Generation * bool :=
  match New idna cfg with
  | inl e => inl e
  | inr p =>
      let sig := policySignature p in
      let fresh := let id := u64 (nextID m + 1) in inr (MkManager id (current m), newGeneration id p, true) in
      match current m with
      | Some cur => if bool_decide (g_signature cur = sig) then inr (m, cur, false) else fresh
      | None => fresh
      end
  end.

(** The generation replaced, and the manager afterwards. *)
Definition Publish (m : Manager) (g : option Generation) : option Generation * Manager :=
  match g with
  | None => (None, m)
  | Some g => (current m, MkManager (nextID m) (Some g))
  end.
End Manager.

(** ** Block logs ([blocklog.go]) *)

Notation blockLogKey := (list Z * list Z * Reason)%type.

Definition blockLogWindow : Z := 60 * 10 ^ 9.
Definition blockLogMaxKeys : nat := 4096.

#[export] Instance Reason_countable : Countable Reason.
Proof.
  apply (inj_countable'
    (fun r => match r with ReasonHostNotAllowed => 0 | ReasonIPNotAllowed => 1 | ReasonMixedDNS => 2 | ReasonNoDNSAnswers => 3 | ReasonInvalidAddress => 4 end%nat)
    (fun n => match n with 0 => ReasonHostNotAllowed | 1 => ReasonIPNotAllowed | 2 => ReasonMixedDNS | 3 => ReasonNoDNSAnswers | _ => ReasonInvalidAddress end%nat)).
  by intros [].
Defined.

(** The time of the last line per key. *)
Notation blockLog := (gmap blockLogKey Z).

Definition log_allow (window : Z) (max : nat) (l : blockLog) (k : blockLogKey) (now : Z) : bool * blockLog :=
  if match l !! k with Some t => now - t <? window | None => false end then (false, l)
  else
    let l := if (max <=? size l)%nat then ∅ else l in
    (true, <[k := now]> l).

(** [observe]: whether a line is written. *)
Definition observe (window : Z) (max : nat) (l : blockLog) (d : Decision) (now : Z) : bool * blockLog :=
  match d_Block d with
  | None => (false, l)
  | Some r => log_allow window max l (d_Subsystem d, d_Host d, r) now
  end.

Inductive level := LevelInfo | LevelWarn.
Definition blockLevel (subsystem : gostring) : level := if string_eqb subsystem SubsystemPlugin then LevelInfo else LevelWarn.

(** ** Literal addresses survive normalisation *)

Lemma ParseIP_slice s ip : ParseIP s = Some ip ->
  exists a, ParseAddr s = Some a /\ Zone a = [] /\ slice_ok ip /\ slice_addr ip = normalize_addr a.
Proof.
  unfold ParseIP. destruct (ParseAddr s) as [a|] eqn:E; [|done]. apply ParseAddr_ok in E. intros Hip. exists a. split; [done|].
  destruct a as [b|b z]; cbn [addr_ok] in E; destruct E as [L F].
  - assert (ip = v4InV6Prefix ++ b) as -> by congruence. split; [done|]. split; [split; [right; by rewrite length_app, L|apply Forall_app; split; [|done]]|].
    + repeat constructor; unfold is_byte; lia.
    + unfold slice_addr. rewrite bool_decide_false by (rewrite length_app, L; done). unfold normalize_addr, Unmap, Is4In6.
      change (take 12 (v4InV6Prefix ++ b)) with v4InV6Prefix. by rewrite bool_decide_true.
  - case_bool_decide; [|done]. subst z. injection Hip as <-. split_and!; [done|split; auto|].
    unfold slice_addr. by rewrite bool_decide_false by lia.
Qed.

Lemma ParseIP_canonical a : canonical_addr a ->
  exists ip, ParseIP (addr_string a) = Some ip /\ slice_ok ip /\ slice_addr ip = a.
Proof.
  intros Ha. pose proof (canonical_string a Ha) as E.
  assert (Hs : is_Some (ParseIP (addr_string a))).
  { unfold ParseIP. rewrite E. destruct Ha as (_ & Hz & _). destruct a; [done|]. simpl in Hz. subst. by rewrite bool_decide_true. }
  destruct Hs as [ip Hip]. exists ip. split; [done|]. destruct (ParseIP_slice _ _ Hip) as (a' & E' & _ & Hok & ->).
  rewrite E in E'. injection E' as <-. split; [done|]. by apply normalize_canonical.
Qed.

(** The policy depends on the address only, not on its byte form. *)
Lemma allowIP_slice p ip ip' : slice_ok ip -> slice_ok ip' -> slice_addr ip = slice_addr ip' -> allowIP p ip = allowIP p ip'.
Proof.
  intros H1 H2 E. unfold allowIP. rewrite !bool_decide_false by (by apply slice_nonnil).
  f_equal. unfold IPNet_Contains. destruct (slice_bytes ip H1) as [-> _], (slice_bytes ip' H2) as [-> _]. by rewrite E.
Qed.

Lemma Trim_none cut s : forallb (fun c => negb (cut c)) s = true -> Trim cut s = s.
Proof.
  assert (HL : forall s, forallb (fun c => negb (cut c)) s = true -> TrimLeft cut s = s).
  { intros [|c t]; [done|]. cbn [forallb TrimLeft]. by destruct (cut c). }
  intros HF. unfold Trim. rewrite (HL s HF), HL, rev_involutive; [done|]. rewrite forallb_forall in *. intros c Hc. apply HF. by apply in_rev.
Qed.

Lemma Trim_affix_none (c : Z) s : c ∉ s -> TrimSuffix s [c] = s /\ TrimPrefix s [c] = s.
Proof.
  intros Hn. unfold TrimSuffix, TrimPrefix. split.
  - destruct (HasSuffix s [c]) eqn:E; [|done]. apply HasSuffix_spec in E as [t ->]. destruct Hn. apply elem_of_app. right. by apply list_elem_of_singleton.
  - destruct (HasPrefix s [c]) eqn:E; [|done]. apply HasPrefix_spec in E as [t ->]. destruct Hn. by left.
Qed.

Lemma ip_char_facts c : ip_char c = true -> c < 128 /\ ascii_space c = false /\ c <> 93 /\ c <> 91 /\ c <> 37 /\ c <> 47.
Proof.
  unfold ip_char, hex_digit, is_digit, ascii_space. intros E.
  assert (HC : 46 <= c <= 58 /\ c <> 47 \/ 65 <= c <= 70 \/ 97 <= c <= 102).
  { revert E. destruct ((48 <=? c) && (c <=? 57)) eqn:E1; [lia|]. destruct ((97 <=? c) && (c <=? 102)) eqn:E2; [lia|].
    destruct ((65 <=? c) && (c <=? 70)) eqn:E3; [lia|]. rewrite bool_decide_false by (by intros [? ?]). cbn [orb]. lia. }
  lia.
Qed.

Section Literal.
Context `{Unicode}.
Variable idna : gostring -> option gostring.

Lemma normalizeDialHost_literal h ip : ParseIP h = Some ip -> normalizeDialHost idna h = addr_string (slice_addr ip).
Proof.
  intros Hip. destruct (ParseIP_slice _ _ Hip) as (a & Ea & Hz & Hok & _).
  pose proof (ParseAddr_chars _ _ Ea Hz) as HC. rewrite forallb_forall in HC.
  assert (Hn : forall c, ~ (c < 128 /\ ascii_space c = false /\ c <> 93 /\ c <> 91 /\ c <> 37 /\ c <> 47) -> c ∉ h).
  { intros c Hc Hin. apply Hc, ip_char_facts, HC. by apply list_elem_of_In. }
  unfold normalizeDialHost, TrimSpace.
  assert (HA : ascii h = true) by (apply forallb_forall; intros c Hc; apply HC, ip_char_facts in Hc; lia).
  rewrite HA, Trim_none by (apply forallb_forall; intros c Hc; apply HC, ip_char_facts in Hc; destruct Hc as (_ & -> & _); done).
  destruct (Trim_affix_none 93 h ltac:(apply Hn; lia)) as [-> _]. destruct (Trim_affix_none 91 h ltac:(apply Hn; lia)) as [_ ->].
  rewrite bool_decide_false by (by intros ->).
  assert (HI : IndexByte h 37 = None).
  { pose proof (byte_in_spec h 37) as HB. unfold byte_in in HB. destruct (IndexByte h 37); [|done]. destruct (Hn 37); [lia|by apply HB]. }
  rewrite HI. unfold dial_name. rewrite Hip, <- IP_String_slice by done. unfold IP_String.
  destruct Hok as [HL HF]. rewrite (bool_decide_false (ip = [])) by (intros ->; by destruct HL).
  destruct (To4 ip) as [v4|] eqn:E4; [|done]. pose proof (To4_length _ _ E4) as L4. unfold To4 at 1. rewrite L4, (bool_decide_true (4 = 4)%nat) by done.
  rewrite bool_decide_false; [done|]. by intros ->.
Qed.
End Literal.

(** ** The guarded dial reaches permitted destinations only *)

Section DialSpec.
Context `{Unicode}.
Variable idna : gostring -> option gostring.
Context {Conn DialErr : Type}.
Variable baseDial : nat -> gostring -> DialErr + Conn.
Variable resolver : gostring -> DialErr + list (list Z).

(** What the policy permits for a normalised host: a literal inside a network,
    a listed name, or a name all of whose addresses are inside networks. *)
Definition permits (p : Policy) (nhost : gostring) : bool :=
  negb (bool_decide (nhost = [])) &&
  match ParseIP nhost with
  | Some ip => allowIP p ip
  | None => allowHost p nhost ||
            match resolver nhost with
            | inr ips => negb (bool_decide (ips = [])) && forallb (allowIP p) ips
            | inl _ => false
            end
  end.

Lemma dial_each_spec i port le ips r l : dial_each baseDial i port le ips = (r, l) ->
  (ips <> [] -> r <> None /\ l <> []) /\ forall addr, addr ∈ l -> exists ip, ip ∈ ips /\ addr = JoinHostPort (IP_String ip) port.
Proof.
  revert i le r l. induction ips as [|ip ips IH]; intros i le r l; cbn [dial_each].
  - intros [= <- <-]. split; [done|]. by intros addr ?%elem_of_nil.
  - destruct (baseDial i _) as [e|c] eqn:Eb.
    + destruct (dial_each baseDial (S i) port (Some e) ips) as [r' l'] eqn:Ed. intros [= <- <-]. apply IH in Ed as Ed'. destruct Ed' as [Hr Hl]. split.
      * intros _. split; [|done]. destruct ips as [|x ips]; [cbn in Ed; by injection Ed as <- _|]. by apply Hr.
      * intros addr [-> |Ha]%elem_of_cons; [exists ip; split; [by left|done]|]. apply Hl in Ha as (x & Hx & ->). exists x. split; [by right|done].
    + intros [= <- <-]. split; [done|]. intros addr ->%list_elem_of_singleton. exists ip. split; [by left|done].
Qed.

Lemma filter_all_length {A} (f : A -> bool) l :
  ((length (List.filter f l) <? length l)%nat = false <-> forallb f l = true) /\ (length (List.filter f l) <= length l)%nat.
Proof.
  induction l as [|x l [IH1 IH2]]; [done|]. cbn [List.filter length forallb]. destruct (f x); cbn [andb length].
  - split; [|lia]. rewrite <- IH1. split; intros E; rewrite Nat.ltb_ge in *; lia.
  - split; [|lia]. rewrite Nat.ltb_ge. split; [lia|done].
Qed.

(** The branches of the dial after the literal and the listed names. *)
Lemma dial_resolved p sub host port ips :
  let nhost := normalizeDialHost idna host in
  nhost <> [] -> ParseIP nhost = None -> allowHost p nhost = false -> resolver nhost = inr ips ->
  let r := dial idna baseDial resolver p sub host port in
  if negb (bool_decide (ips = [])) && forallb (allowIP p) ips
  then dialed r <> [] /\ (forall e, out r <> inl (Blocked e)) /\
       (forall addr, addr ∈ dialed r -> exists ip, ip ∈ ips /\ addr = JoinHostPort (IP_String ip) port)
  else dialed r = [] /\ exists e, out r = inl (Blocked e) /\ be_Reason e <> ReasonIPNotAllowed /\
         exists d, decisions r = [d] /\ d_Block d = Some (be_Reason e) /\ d_Host d = be_Host e.
Proof.
  intros nhost Hn Hip Hh Hr r. unfold r, dial. fold nhost. rewrite (bool_decide_false (nhost = [])), Hip, Hh, Hr by done.
  case_bool_decide as Ei; cbn [negb andb]; [split; [done|]; eexists; split; [done|]; split; [done|]; by eexists|].
  destruct (filter_all_length (allowIP p) ips) as [HF HL]. case_bool_decide as E0.
  - assert (forallb (allowIP p) ips = false) as ->.
    { destruct (forallb _ _); [|done]. rewrite E0 in HF. pose proof (proj2 HF eq_refl) as E. apply Nat.ltb_ge in E. destruct ips; [done|simpl in E; lia]. }
    split; [done|]. eexists; split; [done|]; split; [done|]; by eexists.
  - destruct (_ <? _)%nat eqn:El.
    + assert (forallb (allowIP p) ips = false) as -> by (destruct (forallb _ _); [|done]; discriminate (proj2 HF eq_refl)).
      split; [done|]. eexists; split; [done|]; split; [done|]; by eexists.
    + rewrite (proj1 HF eq_refl). destruct (dial_each baseDial 0 port None ips) as [o l] eqn:Ed. apply dial_each_spec in Ed as [Hnone Hl].
      destruct (Hnone Ei) as [Ho Hl0]. destruct o as [[e|c]|]; [split_and!; done..|done].
Qed.

(** The branches of the guarded dial together. *)
Lemma dial_outcome (p : Policy) (sub host port : gostring) :
  (forall h ips, resolver h = inr ips -> Forall slice_ok ips) ->
  let r := dial idna baseDial resolver p sub host port in
  let nhost := normalizeDialHost idna host in
  (dialed r <> [] <-> permits p nhost = true) /\
  (forall addr, addr ∈ dialed r -> exists h, addr = JoinHostPort h port /\
     match ParseIP h with
     | Some ip => allowIP p ip = true
     | None => h = host /\ (allowHost p nhost = true \/ exists ip, ParseIP nhost = Some ip /\ allowIP p ip = true)
     end) /\
  (forall e, out r = inl (Blocked e) ->
     permits p nhost = false /\ exists d, decisions r = [d] /\ d_Block d = Some (be_Reason e) /\ d_Host d = be_Host e).
Proof.
  intros Hres r nhost.
  assert (HB : forall addr ds, dialed (base baseDial addr ds) = [addr] /\ forall e, out (base baseDial addr ds) <> inl (Blocked e)).
  { intros addr ds. split; [done|]. intros e. unfold base. cbn [out]. by destruct (baseDial 0 addr). }
  assert (Hlit : forall ip, ParseIP host = Some ip -> exists ip', ParseIP nhost = Some ip' /\ allowIP p ip' = allowIP p ip).
  { intros ip Hip. unfold nhost. rewrite (normalizeDialHost_literal idna host ip Hip). destruct (ParseIP_slice _ _ Hip) as (a & _ & _ & Hok & _).
    destruct (ParseIP_canonical _ (slice_addr_ok ip Hok)) as (ip' & E & Hok' & Es). exists ip'. split; [done|]. by apply allowIP_slice. }
  unfold permits. case_bool_decide as En; cbn [negb andb].
  { unfold r, dial. fold nhost. rewrite bool_decide_true by done. cbn. split_and!; [done| |]; [by intros addr ?%elem_of_nil|].
    intros e [= <-]. split; [done|]. by eexists. }
  destruct (ParseIP nhost) as [ip|] eqn:Eip.
  - unfold r, dial. fold nhost. rewrite bool_decide_false, Eip by done. destruct (allowIP p ip) eqn:Ea; cbn [negb].
    + destruct (HB (JoinHostPort host port) [observeAllow sub nhost (IP_String ip) 0]) as [-> Ho]. split_and!; [done| |by intros e ?%Ho].
      intros addr ->%list_elem_of_singleton. exists host. split; [done|]. destruct (ParseIP host) as [ip0|] eqn:E0; [|eauto].
      destruct (Hlit _ eq_refl) as (ip' & [= <-] & E'). congruence.
    + cbn. split_and!; [done|by intros addr ?%elem_of_nil|]. intros e [= <-]. split; [done|]. by eexists.
  - assert (Eh : ParseIP host = None).
    { destruct (ParseIP host) as [ip0|] eqn:E0; [|done]. by destruct (Hlit _ eq_refl) as (ip' & ? & _). }
    destruct (allowHost p nhost) eqn:Ea; cbn [orb].
    { unfold r, dial. fold nhost. rewrite bool_decide_false, Eip, Ea by done.
      destruct (HB (JoinHostPort host port) [observeAllow sub nhost [] 0]) as [-> Ho]. split_and!; [done| |by intros e ?%Ho].
      intros addr ->%list_elem_of_singleton. exists host. rewrite Eh. auto. }
    destruct (resolver nhost) as [e|ips] eqn:Er.
    { unfold r, dial. fold nhost. rewrite bool_decide_false, Eip, Ea, Er by done. cbn. split_and!; [done|by intros addr ?%elem_of_nil|done]. }
    pose proof (dial_resolved p sub host port ips En Eip Ea Er) as HD. cbn zeta in HD. fold r in HD.
    destruct (negb (bool_decide (ips = [])) && forallb (allowIP p) ips) eqn:Eg.
    + destruct HD as (H1 & H2 & H3). split_and!; [done| |by intros e ?%H2]. intros addr (ip & Hin & ->)%H3. exists (IP_String ip). split; [done|].
      pose proof (Hres _ _ Er) as HF. rewrite Forall_forall in HF. specialize (HF ip Hin). rewrite IP_String_slice by done.
      destruct (ParseIP_canonical _ (slice_addr_ok ip HF)) as (ip' & -> & Hok' & Es). rewrite (allowIP_slice p ip' ip) by done.
      apply andb_true_iff in Eg as [_ Eg]. rewrite forallb_forall in Eg. apply Eg. by apply list_elem_of_In.
    + destruct HD as (-> & e & He & _ & HD). split_and!; [done|by intros addr ?%elem_of_nil|]. intros e' Ee. rewrite He in Ee. by injection Ee as <-.
Qed.

(** C4: The guarded dial reaches permitted destinations only.  The base dialer
    is called exactly when the policy permits the normalised host, and every
    address it is given is safe: when its host part is an IP literal, that
    literal lies in an allowed network, and otherwise it is the requested host,
    whose normal form is a listed name or an allowed literal.  A blocked dial
    has called nobody and reports one block with its reason; in particular a
    name that resolves to a mixture of allowed and other addresses is refused
    before any of them is tried. *)
Theorem dial_guarded (p : Policy) (sub host port : gostring) :
  (forall h ips, resolver h = inr ips -> Forall slice_ok ips) ->
  let r := dial idna baseDial resolver p sub host port in
  let nhost := normalizeDialHost idna host in
  (dialed r <> [] <-> permits p nhost = true) /\
  (forall addr, addr ∈ dialed r -> exists h, addr = JoinHostPort h port /\
     match ParseIP h with
     | Some ip => allowIP p ip = true
     | None => h = host /\ (allowHost p nhost = true \/ exists ip, ParseIP nhost = Some ip /\ allowIP p ip = true)
     end) /\
  (forall e, out r = inl (Blocked e) ->
     permits p nhost = false /\ exists d, decisions r = [d] /\ d_Block d = Some (be_Reason e) /\ d_Host d = be_Host e).
Proof. apply dial_outcome. Qed.
End DialSpec.

(** ** The policy is the union of its entries *)

Definition rule_ok (r : hostRule) : Prop := validateHostname (hr_value r) = None.
Definition net_ok (n : IPNet) : Prop := exists nn k, net_normal n nn k.

Lemma rule_ok_spec r : rule_ok r -> hr_value r <> [] /\ head (hr_value r) <> Some 46 /\ 58 ∉ hr_value r.
Proof.
  unfold rule_ok, validateHostname. case_bool_decide as En; [done|]. destruct (ContainsAny _ _) eqn:Ec; [done|]. destruct (existsb _ _) eqn:El; [done|].
  intros _. split; [done|]. split.
  - destruct (hr_value r) as [|c v]; [done|]. intros [= ->]. change (46 :: v) with ([] ++ 46 :: v) in El.
    by rewrite SplitByte_app in El by apply not_elem_of_nil.
  - intros Hin. unfold ContainsAny in Ec. rewrite <- not_true_iff_false, existsb_exists in Ec. apply Ec. exists 58. split; [by apply list_elem_of_In|done].
Qed.

(** The key of a rule determines it. *)
Lemma rule_key_inj r s : rule_ok r -> rule_ok s -> rule_key r = rule_key s -> r = s.
Proof.
  intros (Hr & Hr' & _)%rule_ok_spec (Hs & Hs' & _)%rule_ok_spec. destruct r as [v []], s as [w []]; unfold rule_key; cbn in *; intros E; subst; try done.
  by injection E as ->.
Qed.

Lemma net_same n m ip : net_ok n -> net_ok m -> slice_ok ip -> IPNet_String n = IPNet_String m -> IPNet_Contains n ip = IPNet_Contains m ip.
Proof.
  intros (nn & k & HN) (mm & j & HM) Hip E. destruct (IPNet_String_inj _ _ _ _ _ _ HN HM E) as [-> ->].
  by rewrite (IPNet_Contains_spec n mm j), (IPNet_Contains_spec m mm j).
Qed.

(** What a policy allows, through the keys of its rules and networks. *)
Lemma allowHost_keys p (rs : hostRule -> Prop) h : Forall rule_ok (hosts p) -> (forall r, rs r -> rule_ok r) ->
  (forall k, k ∈ map rule_key (hosts p) <-> exists r, rs r /\ k = rule_key r) ->
  allowHost p h = true <-> h <> [] /\ exists r, rs r /\ rule_matches r h = true.
Proof.
  intros HF Hrs HK. rewrite Forall_forall in HF. unfold allowHost. case_bool_decide as En; [naive_solver|]. rewrite existsb_exists. split.
  - intros (r & Hr%list_elem_of_In & Hm). split; [done|]. destruct (proj1 (HK (rule_key r))) as (r' & Hr' & Ek); [apply list_elem_of_fmap; eauto|].
    apply rule_key_inj in Ek as ->; eauto.
  - intros (_ & r & Hr & Hm). assert (Hin : rule_key r ∈ map rule_key (hosts p)) by (apply HK; eauto). apply list_elem_of_fmap in Hin as (r' & Ek & Hr').
    apply rule_key_inj in Ek as ->; [|eauto..]. exists r'. by rewrite <- list_elem_of_In.
Qed.

Lemma allowIP_keys p (ns : IPNet -> Prop) ip : Forall net_ok (cidrs p) -> (forall n, ns n -> net_ok n) -> slice_ok ip ->
  (forall k, k ∈ map IPNet_String (cidrs p) <-> exists n, ns n /\ k = IPNet_String n) ->
  allowIP p ip = true <-> exists n, ns n /\ IPNet_Contains n ip = true.
Proof.
  intros HF Hns Hip HK. rewrite Forall_forall in HF. unfold allowIP. rewrite bool_decide_false by (by apply slice_nonnil). rewrite existsb_exists. split.
  - intros (n & Hn%list_elem_of_In & Hm). destruct (proj1 (HK (IPNet_String n))) as (n' & Hn' & Ek); [apply list_elem_of_fmap; eauto|].
    exists n'. split; [done|]. rewrite <- (net_same n n'); eauto.
  - intros (n & Hn & Hm). assert (Hin : IPNet_String n ∈ map IPNet_String (cidrs p)) by (apply HK; eauto). apply list_elem_of_fmap in Hin as (n' & Ek & Hn').
    exists n'. rewrite <- list_elem_of_In. split; [done|]. rewrite <- (net_same n n'); eauto.
Qed.

Section NewSpec.
Context `{Unicode}.
Variable idna : gostring -> option gostring.

Lemma parseEntry_ok raw e : parseEntry idna raw = inr e -> match e with HostEntry r => rule_ok r | CidrEntry n => net_ok n end.
Proof.
  unfold parseEntry. case_bool_decide; [done|]. destruct (Contains _ _); [done|]. destruct (byte_in _ 47).
  - destruct (ParseCIDR _) as [n|] eqn:E; [|done]. intros [= <-]. destruct (ParseCIDR_normal _ _ E) as [HN HM].
    unfold canonicalCIDR. rewrite HM. by destruct n.
  - destruct (parseIPLiteral _) as [ip|] eqn:E.
    + intros [= <-]. unfold parseIPLiteral in E. destruct (byte_in _ 37); [done|]. apply ParseIP_slice in E as (a & _ & _ & Hok & _).
      unfold ipToCIDR. destruct (To4 ip) as [v4|] eqn:E4.
      * pose proof (To4_length _ _ E4) as L4. exists v4, 32. pose proof (net_normal_single v4) as HN. rewrite L4 in HN. apply HN; [|done].
        split; [by left|]. destruct Hok as [_ HF]. unfold To4 in E4. repeat case_bool_decide; simplify_eq/=; [done|by apply Forall_drop].
      * destruct (slice_bytes ip Hok) as [_ H16]. destruct (H16 E4) as [L16 _]. exists ip, 128. pose proof (net_normal_single ip Hok) as HN.
        rewrite L16 in HN. apply HN. intros _ Ht. unfold To4 in E4. rewrite L16, Ht in E4. done.
    + destruct (normalizeHost _ _) as [|nh]; [done|]. destruct (validateHostname nh) eqn:Ev; [done|]. by intros [= <-].
Qed.

(** What the loop has collected: the keys seen are those of the policy. *)
Definition collected (p : Policy) (sh sc : list gostring) : Prop :=
  Forall rule_ok (hosts p) /\ Forall net_ok (cidrs p) /\
  (forall k, k ∈ sh <-> k ∈ map rule_key (hosts p)) /\ (forall k, k ∈ sc <-> k ∈ map IPNet_String (cidrs p)) /\
  NoDup (map rule_key (hosts p)) /\ NoDup (map IPNet_String (cidrs p)).

Definition from_entries (allow : list gostring) (e : entry) : Prop := exists raw, raw ∈ allow /\ parseEntry idna raw = inr e.

Lemma from_entries_cons raw allow e : from_entries (raw :: allow) e <-> parseEntry idna raw = inr e \/ from_entries allow e.
Proof. unfold from_entries. setoid_rewrite elem_of_cons. naive_solver. Qed.

(** Adding a key that is new to a list without duplicates. *)
Lemma keys_snoc {A} (key : A -> gostring) l x seen :
  (forall k, k ∈ seen <-> k ∈ map key l) -> NoDup (map key l) -> key x ∉ seen ->
  (forall k, k ∈ key x :: seen <-> k ∈ map key (l ++ [x])) /\ NoDup (map key (l ++ [x])).
Proof.
  intros HS HN Hx. rewrite map_app. cbn [map]. split.
  - intros k. rewrite elem_of_cons, elem_of_app, HS, list_elem_of_singleton. tauto.
  - apply NoDup_app. split_and!; [done| |apply NoDup_singleton]. intros k Hk ->%list_elem_of_singleton. by apply Hx, HS.
Qed.

Lemma add_entries_host p sh sc r allow q : collected p sh sc -> rule_ok r ->
  (if bool_decide (rule_key r ∈ sh) then add_entries idna p sh sc allow
   else add_entries idna (MkPolicy (hosts p ++ [r]) (cidrs p)) (rule_key r :: sh) sc allow) = inr q ->
  exists p' sh', collected p' sh' sc /\ cidrs p' = cidrs p /\ add_entries idna p' sh' sc allow = inr q /\
    forall k, k ∈ map rule_key (hosts p') <-> k ∈ map rule_key (hosts p) \/ k = rule_key r.
Proof.
  intros HC Hr E. pose proof HC as (Q1 & Q2 & Q3 & Q4 & Q5 & Q6). case_bool_decide as Ek.
  - exists p, sh. split_and!; [done..|]. intros k. split; [by left|]. intros [?| ->]; [done|by apply Q3].
  - destruct (keys_snoc rule_key (hosts p) r sh Q3 Q5 Ek) as [K1 K2]. exists (MkPolicy (hosts p ++ [r]) (cidrs p)), (rule_key r :: sh).
    split_and!; [split_and!; cbn; [apply Forall_app; split; [done|by constructor]|done..]|done|done|].
    intros k. cbn [hosts]. rewrite map_app, elem_of_app. cbn [map]. by rewrite list_elem_of_singleton.
Qed.

Lemma add_entries_cidr p sh sc n allow q : collected p sh sc -> net_ok n ->
  (if bool_decide (IPNet_String n ∈ sc) then add_entries idna p sh sc allow
   else add_entries idna (MkPolicy (hosts p) (cidrs p ++ [n])) sh (IPNet_String n :: sc) allow) = inr q ->
  exists p' sc', collected p' sh sc' /\ hosts p' = hosts p /\ add_entries idna p' sh sc' allow = inr q /\
    forall k, k ∈ map IPNet_String (cidrs p') <-> k ∈ map IPNet_String (cidrs p) \/ k = IPNet_String n.
Proof.
  intros HC Hr E. pose proof HC as (Q1 & Q2 & Q3 & Q4 & Q5 & Q6). case_bool_decide as Ek.
  - exists p, sc. split_and!; [done..|]. intros k. split; [by left|]. intros [?| ->]; [done|by apply Q4].
  - destruct (keys_snoc IPNet_String (cidrs p) n sc Q4 Q6 Ek) as [K1 K2]. exists (MkPolicy (hosts p) (cidrs p ++ [n])), (IPNet_String n :: sc).
    split_and!; [split_and!; cbn; [done|apply Forall_app; split; [done|by constructor]|done..]|done|done|].
    intros k. cbn [cidrs]. rewrite map_app, elem_of_app. cbn [map]. by rewrite list_elem_of_singleton.
Qed.

Lemma add_entries_spec allow p sh sc q : collected p sh sc -> add_entries idna p sh sc allow = inr q ->
  (exists sh' sc', collected q sh' sc') /\
  (forall raw, raw ∈ allow -> parseEntry idna raw = inl errSkip \/ exists e, parseEntry idna raw = inr e) /\
  (forall k, k ∈ map rule_key (hosts q) <-> k ∈ map rule_key (hosts p) \/ exists r, from_entries allow (HostEntry r) /\ k = rule_key r) /\
  (forall k, k ∈ map IPNet_String (cidrs q) <-> k ∈ map IPNet_String (cidrs p) \/ exists n, from_entries allow (CidrEntry n) /\ k = IPNet_String n).
Proof.
  revert p sh sc. induction allow as [|raw allow IH]; intros p sh sc HC; cbn [add_entries].
  - intros [= <-]. split; [by eexists _, _|]. split; [by intros raw ?%elem_of_nil|].
    split; intros k; (split; [by left|]); intros [?|(? & (? & []%elem_of_nil & _) & _)]; done.
  - destruct (parseEntry idna raw) as [err|e] eqn:Ep.
    + assert (Herr : err = errSkip -> add_entries idna p sh sc allow = inr q -> _) by (intros -> E; exact (IH _ _ _ HC E)).
      destruct err; try done. intros E. destruct (Herr eq_refl E) as (H1 & H2 & H3 & H4). split; [done|]. split.
      { intros x [-> |Hx]%elem_of_cons; [by left|by apply H2]. }
      split; intros k; [rewrite H3|rewrite H4]; setoid_rewrite from_entries_cons; rewrite Ep; naive_solver.
    + pose proof (parseEntry_ok _ _ Ep) as Hok. intros E.
      assert (HG : exists p' sh' sc', collected p' sh' sc' /\ add_entries idna p' sh' sc' allow = inr q /\
        (forall k, k ∈ map rule_key (hosts p') <-> k ∈ map rule_key (hosts p) \/ exists r, e = HostEntry r /\ k = rule_key r) /\
        (forall k, k ∈ map IPNet_String (cidrs p') <-> k ∈ map IPNet_String (cidrs p) \/ exists n, e = CidrEntry n /\ k = IPNet_String n)).
      { destruct e as [r|n].
        - apply add_entries_host in E as (p' & sh' & HC' & E1 & E2 & HK); [|done..]. exists p', sh', sc. rewrite E1. split_and!; [done..| |];
            intros k; [rewrite HK|]; naive_solver.
        - apply add_entries_cidr in E as (p' & sc' & HC' & E1 & E2 & HK); [|done..]. exists p', sh, sc'. rewrite E1. split_and!; [done..| |];
            intros k; [|rewrite HK]; naive_solver. }
      destruct HG as (p' & sh' & sc' & HC' & E' & HK1 & HK2). destruct (IH _ _ _ HC' E') as (H1 & H2 & H3 & H4). split; [done|]. split.
      { intros x [-> |Hx]%elem_of_cons; [right; by exists e|by apply H2]. }
      split; intros k; [rewrite H3, HK1|rewrite H4, HK2]; setoid_rewrite from_entries_cons; rewrite Ep; naive_solver.
Qed.

Lemma New_collected cfg p : New idna cfg = inr (Some p) ->
  (exists sh sc, collected p sh sc) /\
  (forall raw, raw ∈ eg_Allow cfg -> parseEntry idna raw = inl errSkip \/ exists e, parseEntry idna raw = inr e) /\
  (forall k, k ∈ map rule_key (hosts p) <-> exists r, from_entries (eg_Allow cfg) (HostEntry r) /\ k = rule_key r) /\
  (forall k, k ∈ map IPNet_String (cidrs p) <-> exists n, from_entries (eg_Allow cfg) (CidrEntry n) /\ k = IPNet_String n).
Proof.
  unfold New. destruct (eg_Enabled cfg); [|done]. cbn [negb]. destruct (add_entries _ _ _ _ _) as [|q] eqn:E; [done|]. destruct (_ && _); [done|]. intros [= ->].
  apply add_entries_spec in E as (H1 & H2 & H3 & H4).
  - split_and!; [done..| |]; intros k; [rewrite H3|rewrite H4]; cbn; rewrite elem_of_nil; naive_solver.
  - split_and!; cbn; try constructor; try done; intros []%elem_of_nil.
Qed.

(** The policy is the union of the allow-list.  When the configuration is
    accepted, every entry is blank or well formed, and, whatever the order,
    spelling and repetitions of the entries, a host name is allowed exactly when
    some entry is a rule that matches it, and an address exactly when some entry
    is a network that contains it; dropping duplicates loses nothing. *)
Theorem New_exact (cfg : EgressConfig) (p : Policy) :
  New idna cfg = inr (Some p) ->
  (forall raw, raw ∈ eg_Allow cfg -> parseEntry idna raw = inl errSkip \/ exists e, parseEntry idna raw = inr e) /\
  (forall h, allowHost p h = true <-> h <> [] /\ exists r, from_entries (eg_Allow cfg) (HostEntry r) /\ rule_matches r h = true) /\
  (forall ip, slice_ok ip -> allowIP p ip = true <->
     exists n, from_entries (eg_Allow cfg) (CidrEntry n) /\ IPNet_Contains n ip = true) /\
  (hosts p <> [] \/ cidrs p <> []).
Proof.
  intros HN. destruct (New_collected _ _ HN) as ((sh & sc & Q1 & Q2 & _) & H2 & H3 & H4). split; [done|]. split; [|split].
  - intros h. apply allowHost_keys; [done| |done]. intros r (raw & _ & E). by apply parseEntry_ok in E.
  - intros ip Hip. apply allowIP_keys; [done| |done|done]. intros n (raw & _ & E). by apply parseEntry_ok in E.
  - unfold New in HN. destruct (eg_Enabled cfg); [|done]. cbn [negb] in HN. destruct (add_entries _ _ _ _ _) as [|q]; [done|].
    case_bool_decide; [case_bool_decide; [done|]|]; injection HN as ->; auto.
Qed.
End NewSpec.

(** ** The signature of a policy *)

(** Lists cut into blocks, each opened by a marked element, are cut one way. *)
Definition marked_block (m : gostring -> Prop) (b : list gostring) : Prop :=
  exists h t, b = h :: t /\ m h /\ Forall (fun x => ~ m x) t.

Lemma marked_blocks_inj m l k : Forall (marked_block m) l -> Forall (marked_block m) k -> concat l = concat k -> l = k.
Proof.
  assert (HH : forall l, Forall (marked_block m) l -> match concat l with x :: _ => m x | [] => True end).
  { intros x [|b y Hb _]; [done|]. destruct Hb as (h & t & -> & Hm & _). done. }
  assert (HC : forall t t' u v, Forall (fun x => ~ m x) t -> Forall (fun x => ~ m x) t' ->
    match u with x :: _ => m x | [] => True end -> match v with x :: _ => m x | [] => True end -> t ++ u = t' ++ v -> t = t' /\ u = v).
  { induction t as [|x t IH]; intros [|y t'] u v Ht Ht' Hu Hv E; cbn in E; subst; [done|..].
    - by apply Forall_cons in Ht' as [? _].
    - by apply Forall_cons in Ht as [? _].
    - injection E as -> E. apply Forall_cons in Ht as [_ Ht], Ht' as [_ Ht']. by destruct (IH t' u v Ht Ht' Hu Hv E) as [-> ->]. }
  intros Hl. revert k. induction Hl as [|b l (h & t & -> & _ & Ht) Hl IH]; intros k Hk E.
  - destruct Hk as [|b k (h & t & -> & _) _]; done.
  - destruct Hk as [|b k (h' & t' & -> & _ & Ht') Hk]; [done|]. cbn in E. injection E as -> E.
    apply HC in E as [-> E]; [f_equal; by apply IH|done|done|by apply HH..].
Qed.

Lemma SplitByte_prefix x v c : c ∉ x -> exists h t, SplitByte v c = h :: t /\ SplitByte (x ++ v) c = (x ++ h) :: t.
Proof.
  induction x as [|a x IH]; intros Hn; [destruct (SplitByte_cons v c) as (h & t & E); by exists h, t|].
  apply not_elem_of_cons in Hn as [Ha Hn]. destruct (IH Hn) as (h & t & E1 & E2). exists h, t. split; [done|].
  cbn [app SplitByte]. rewrite (proj2 (Z.eqb_neq a c)) by congruence. by rewrite E2.
Qed.

Lemma SplitByte_elem s c x b : x ∈ SplitByte s c -> b ∈ x -> b ∈ s.
Proof.
  revert x. induction s as [|a s IH]; intros x; cbn [SplitByte].
  - intros ->%list_elem_of_singleton Hb. by apply elem_of_nil in Hb.
  - destruct (a =? c).
    + intros [-> |Hx]%elem_of_cons Hb; [by apply elem_of_nil in Hb|]. right. by eapply IH.
    + destruct (SplitByte s c) as [|y l]; [intros ->%list_elem_of_singleton [-> |Hb]%elem_of_cons; [left|by apply elem_of_nil in Hb]|].
      intros [-> |Hx]%elem_of_cons Hb; [apply elem_of_cons in Hb as [-> |Hb]; [left|]|]; right; eapply IH; try done; [by left|by right].
Qed.

Lemma SplitByte_Join_concat l c : l <> [] -> SplitByte (JoinByte l c) c = concat (map (fun x => SplitByte x c) l).
Proof.
  induction l as [|x [|y l] IH]; intros Hn; [done|cbn; by rewrite app_nil_r|].
  rewrite JoinByte_cons, SplitByte_app_sep, IH by done. done.
Qed.

(** A part of the signature: a kind without the separator, a colon and a text
    without colons, or a text without separators. *)
Definition part_ok (x : gostring) : Prop :=
  exists kind v, x = kind ++ 58 :: v /\ 0 ∉ kind /\ (58 ∉ v \/ 0 ∉ v).

Lemma part_block x : part_ok x -> marked_block (fun s => 58 ∈ s) (SplitByte x 0).
Proof.
  intros (kind & v & -> & Hk & Hv). destruct (SplitByte_prefix (kind ++ [58]) v 0) as (h & t & E1 & E2).
  { apply not_elem_of_app. split; [done|]. by intros ?%list_elem_of_singleton. }
  rewrite <- app_assoc in E2. cbn [app] in E2. exists ((kind ++ [58]) ++ h), t. split; [done|]. split.
  - apply elem_of_app. left. apply elem_of_app. right. by apply list_elem_of_singleton.
  - destruct Hv as [Hv|Hv].
    + apply Forall_forall. intros s Hs Hin. apply Hv. apply (SplitByte_elem v 0 s); [rewrite E1; by right|done].
    + rewrite SplitByte_single in E1 by done. injection E1 as _ <-. constructor.
Qed.

Lemma addr_parts_inj l k : Forall part_ok l -> Forall part_ok k -> l <> [] -> k <> [] -> JoinByte l 0 = JoinByte k 0 -> l = k.
Proof.
  intros Hl Hk Nl Nk E. apply (f_equal (fun s => SplitByte s 0)) in E. rewrite !SplitByte_Join_concat in E by done.
  apply (marked_blocks_inj (fun s => 58 ∈ s)) in E.
  - apply (f_equal (map (fun x => JoinByte x 0))) in E. rewrite !map_map in E.
    rewrite !(map_ext (fun x => JoinByte (SplitByte x 0) 0) id), !map_id in E; [done|..]; intros x; apply JoinByte_SplitByte.
  - apply Forall_map. eapply Forall_impl; [done|]. apply part_block.
  - apply Forall_map. eapply Forall_impl; [done|]. apply part_block.
Qed.

Definition host_part (r : hostRule) : gostring := (if hr_suffix r then str "suffix:" else str "host:") ++ hr_value r.
Definition cidr_part (n : IPNet) : gostring := str "cidr:" ++ IPNet_String n.
Definition policy_parts (p : Policy) : list gostring := map host_part (hosts p) ++ map cidr_part (cidrs p).

Lemma host_part_ok r : rule_ok r -> part_ok (host_part r).
Proof.
  intros (_ & _ & Hc)%rule_ok_spec. exists (if hr_suffix r then str "suffix" else str "host"), (hr_value r).
  split; [unfold host_part; by destruct (hr_suffix r)|]. split; [|by left].
  destruct (hr_suffix r); rewrite <- byte_in_spec; discriminate.
Qed.

Lemma cidr_part_ok n : net_ok n -> part_ok (cidr_part n).
Proof.
  intros (nn & k & HN). exists (str "cidr"), (IPNet_String n). split; [done|]. split; [rewrite <- byte_in_spec; discriminate|]. right.
  rewrite (IPNet_String_normal _ _ _ HN). destruct (net_normal_addr _ _ _ HN) as (Hs & _ & _). intros [Hi|Hi]%elem_of_app.
  - apply (addr_string_chars _ _ (slice_addr_ok _ Hs)) in Hi. unfold addr_char, is_digit in Hi. lia.
  - apply elem_of_cons in Hi as [?|Hi]; [done|]. by apply FormatUint_digit in Hi.
Qed.

Lemma host_part_inj r s : host_part r = host_part s -> r = s.
Proof. destruct r as [v []], s as [w []]; unfold host_part; cbn; intros [= ->]; done. Qed.

Lemma host_cidr_part r n : host_part r <> cidr_part n.
Proof. destruct r as [v []]; unfold host_part, cidr_part; by cbn. Qed.

Definition policy_ok (p : Policy) : Prop :=
  Forall rule_ok (hosts p) /\ Forall net_ok (cidrs p) /\ NoDup (map rule_key (hosts p)) /\ NoDup (map IPNet_String (cidrs p)) /\
  (hosts p <> [] \/ cidrs p <> []).

Definition same_rules (p q : Policy) : Prop := hosts p ≡ₚ hosts q /\ map IPNet_String (cidrs p) ≡ₚ map IPNet_String (cidrs q).

Lemma map_cidr_part l : map cidr_part l = map (app (str "cidr:")) (map IPNet_String l).
Proof. by rewrite map_map. Qed.

(** Policies have one signature exactly when they have the same rules. *)
Lemma policySignature_same p q : policy_ok p -> policy_ok q ->
  policySignature (Some p) = policySignature (Some q) <-> same_rules p q.
Proof.
  intros (P1 & P2 & P3 & P4 & P5) (Q1 & Q2 & Q3 & Q4 & Q5).
  assert (HO : forall p, Forall rule_ok (hosts p) -> Forall net_ok (cidrs p) -> hosts p <> [] \/ cidrs p <> [] ->
    Forall part_ok (sort_Strings (policy_parts p)) /\ sort_Strings (policy_parts p) <> []).
  { intros x H1 H2 H3. assert (HP : sort_Strings (policy_parts x) ≡ₚ policy_parts x) by apply merge_sort_Permutation. split.
    - rewrite HP. apply Forall_app. split; apply Forall_map; [eapply Forall_impl; [exact H1|]|eapply Forall_impl; [exact H2|]]; [apply host_part_ok|apply cidr_part_ok].
    - intros E. rewrite E in HP. apply Permutation_nil in HP. unfold policy_parts in HP. apply app_eq_nil in HP as [E1 E2].
      apply map_eq_nil in E1, E2. naive_solver. }
  destruct (HO p P1 P2 P5) as [Op Np], (HO q Q1 Q2 Q5) as [Oq Nq].
  unfold policySignature. fold (policy_parts p) (policy_parts q). unfold same_rules. split.
  - intros E. apply app_inv_head in E. injection E as E. apply addr_parts_inj in E; [|done..]. apply sort_Strings_perm in E.
    assert (HM : forall x, x ∈ policy_parts p <-> x ∈ policy_parts q) by (intros x; by rewrite E).
    assert (Hh : forall r, r ∈ hosts p <-> r ∈ hosts q).
    { intros r. specialize (HM (host_part r)). unfold policy_parts in HM. rewrite !elem_of_app, !list_elem_of_fmap in HM. split; intros Hr.
      - destruct (proj1 HM) as [(s & Es & Hs)|(n & En & _)]; [left; eauto|by apply host_part_inj in Es as ->|by apply host_cidr_part in En].
      - destruct (proj2 HM) as [(s & Es & Hs)|(n & En & _)]; [left; eauto|by apply host_part_inj in Es as ->|by apply host_cidr_part in En]. }
    split.
    + apply NoDup_Permutation; [by eapply NoDup_fmap_1..|done].
    + apply NoDup_Permutation; [done..|]. intros k. specialize (HM (str "cidr:" ++ k)). unfold policy_parts in HM. rewrite !map_cidr_part in HM.
      rewrite !elem_of_app, !(list_elem_of_fmap (app (str "cidr:"))) in HM. rewrite !list_elem_of_fmap in HM.
      assert (HX : forall s : hostRule, str "cidr:" ++ k <> host_part s) by (intros [v []]; by cbn).
      split; intros Hk; [destruct (proj1 HM) as [(s & Es & _)|(k' & Ek & Hk')]|destruct (proj2 HM) as [(s & Es & _)|(k' & Ek & Hk')]];
        try (by apply HX in Es); try (right; eauto); by apply app_inv_head in Ek as ->.
  - intros [E1 E2]. do 3 f_equal. apply sort_Strings_perm. unfold policy_parts. rewrite !map_cidr_part, E1, E2. done.
Qed.

(** ** Generations *)

(** Two policies that decide alike. *)
Definition same_policy (p q : option Policy) : Prop :=
  match p, q with
  | None, None => True
  | Some p, Some q => (forall h, allowHost p h = allowHost q h) /\ (forall ip, slice_ok ip -> allowIP p ip = allowIP q ip)
  | _, _ => False
  end.

Lemma same_rules_policy p q : policy_ok p -> policy_ok q -> same_rules p q -> same_policy (Some p) (Some q).
Proof.
  intros (P1 & P2 & _) (Q1 & Q2 & _) [E1 E2]. split.
  - intros h. apply eq_true_iff_eq. rewrite (allowHost_keys p (fun r => r ∈ hosts q)), (allowHost_keys q (fun r => r ∈ hosts q)); try done.
    + by apply Forall_forall.
    + intros k. rewrite list_elem_of_fmap. naive_solver.
    + by apply Forall_forall.
    + intros k. rewrite E1, list_elem_of_fmap. naive_solver.
  - intros ip Hip. apply eq_true_iff_eq. rewrite (allowIP_keys p (fun n => n ∈ cidrs q)), (allowIP_keys q (fun n => n ∈ cidrs q)); try done.
    + by apply Forall_forall.
    + intros k. rewrite list_elem_of_fmap. naive_solver.
    + by apply Forall_forall.
    + intros k. rewrite E2, list_elem_of_fmap. naive_solver.
Qed.

Section ManagerSpec.
Context `{Unicode}.
Variable idna : gostring -> option gostring.

Lemma New_ok cfg p : New idna cfg = inr (Some p) -> policy_ok p.
Proof.
  intros HN. destruct (New_collected _ _ _ HN) as ((sh & sc & Q1 & Q2 & _ & _ & Q5 & Q6) & _). split_and!; [done..|].
  unfold New in HN. destruct (eg_Enabled cfg); [|done]. cbn [negb] in HN. destruct (add_entries _ _ _ _ _) as [|q]; [done|].
  case_bool_decide; [case_bool_decide; [done|]|]; injection HN as ->; auto.
Qed.

Lemma New_none cfg : New idna cfg = inr None <-> eg_Enabled cfg = false.
Proof.
  unfold New. destruct (eg_Enabled cfg); [|done]. cbn [negb]. split; [|done]. destruct (add_entries _ _ _ _ _); [done|]. by destruct (_ && _).
Qed.

(** The rules of a policy are those of its entries. *)
Lemma New_same_rules cfg cfg' p q : New idna cfg = inr (Some p) -> New idna cfg' = inr (Some q) ->
  (forall e, from_entries idna (eg_Allow cfg) e <-> from_entries idna (eg_Allow cfg') e) -> same_rules p q.
Proof.
  intros HP HQ HE. destruct (New_ok _ _ HP) as (P1 & _ & P3 & P4 & _), (New_ok _ _ HQ) as (Q1 & _ & Q3 & Q4 & _).
  destruct (New_collected _ _ _ HP) as (_ & _ & KP & NP), (New_collected _ _ _ HQ) as (_ & _ & KQ & NQ).
  rewrite Forall_forall in P1, Q1. split.
  - apply NoDup_Permutation; [by eapply NoDup_fmap_1..|]. intros r.
    assert (HK : forall k, k ∈ map rule_key (hosts p) <-> k ∈ map rule_key (hosts q)) by (intros k; rewrite KP, KQ; naive_solver).
    assert (HS : forall u v r, (forall k, k ∈ map rule_key u -> k ∈ map rule_key v) -> (forall x, x ∈ u -> rule_ok x) -> (forall x, x ∈ v -> rule_ok x) -> r ∈ u -> r ∈ v).
    { intros u v x HI Hu Hv Hx. assert (Hk : rule_key x ∈ map rule_key v) by (apply HI, list_elem_of_fmap; eauto).
      apply list_elem_of_fmap in Hk as (y & Ey & Hy). apply rule_key_inj in Ey as ->; eauto. }
    split; apply HS; try done; intros k; apply HK.
  - apply NoDup_Permutation; [done..|]. intros k. rewrite NP, NQ. naive_solver.
Qed.

(** A reload keeps the published generation only when nothing changes, and
    never publishes by itself.  Preparing an accepted configuration leaves the
    current generation in place; it returns either that very generation,
    reported unchanged, as it must when the entries differ in order and
    repetition only, or a generation with the new policy and the next
    identifier.  Either way the generation returned decides as the new
    configuration does, so the textual signature never confuses two policies;
    publishing it makes it current. *)
Theorem Prepare_exact (m : Manager) (cfg0 cfg : EgressConfig) (p0 p : option Policy) (id : Z) :
  New idna cfg0 = inr p0 -> New idna cfg = inr p -> current m = Some (newGeneration id p0) ->
  exists m' g changed, Prepare idna m cfg = inr (m', g, changed) /\ current m' = current m /\
    same_policy (g_policy g) p /\
    (if changed then g = newGeneration (u64 (nextID m + 1)) p /\ nextID m' = g_id g else g = newGeneration id p0 /\ m' = m) /\
    (eg_Enabled cfg = eg_Enabled cfg0 -> (forall e, from_entries idna (eg_Allow cfg) e <-> from_entries idna (eg_Allow cfg0) e) -> changed = false) /\
    (forall old m'', Publish m' (Some g) = (old, m'') -> old = current m /\ current m'' = Some g).
Proof.
  intros H0 H1 Hc. unfold Prepare. rewrite H1, Hc. cbn [newGeneration g_signature].
  assert (HP : forall (m : Manager) g, forall old m'', Publish m (Some g) = (old, m'') -> old = current m /\ current m'' = Some g).
  { intros x g old m'' [= <- <-]. done. }
  assert (HS : policySignature p0 = policySignature p -> same_policy p0 p).
  { destruct p0 as [p0|], p as [p|]; try done. intros E. apply New_ok in H0, H1. apply same_rules_policy; [done..|]. by apply policySignature_same in E. }
  assert (HE : same_policy p p).
  { destruct p; [|done]. by split. }
  case_bool_decide as Es.
  - exists m, (newGeneration id p0), false. split_and!; [done|done|by apply HS|done|done|done|]. intros old m'' E. apply HP in E as [-> E]. by rewrite Hc in *.
  - eexists _, _, true. split_and!; [reflexivity|done|done|done|done| |].
    2:{ intros old m'' E. by apply HP in E as [-> E]. }
    intros Een HF. destruct Es. destruct p0 as [p0|], p as [p|].
    + apply policySignature_same; [by eapply New_ok..|]. eapply New_same_rules; [exact H0|exact H1|]. intros e. by rewrite HF.
    + apply New_none in H1. rewrite Een in H1. by rewrite (proj2 (New_none cfg0) H1) in H0.
    + apply New_none in H0. rewrite <- Een in H0. by rewrite (proj2 (New_none cfg) H0) in H1.
    + done.
Qed.
End ManagerSpec.

(** ** Block logs *)

(** A line for a key is followed by another only after the window, unless the
    table was cleared in between, and the table never grows past its bound. *)
Lemma log_allow_spec window max l k now : (0 < max)%nat -> (size l <= max)%nat ->
  let '(ok, l') := log_allow window max l k now in
  (size l' <= max)%nat /\ (ok = true -> l' !! k = Some now) /\
  (ok = false -> exists t, l !! k = Some t /\ now - t < window /\ l' = l) /\
  (ok = true -> forall t, l !! k = Some t -> window <= now - t).
Proof.
  intros Hm Hl. unfold log_allow. destruct (l !! k) as [t|] eqn:E.
  - destruct (now - t <? window) eqn:Ew.
    + split_and!; [done|done|intros _; exists t; split_and!; [done|lia|done]|done].
    + destruct (max <=? size l)%nat eqn:Es.
      * split_and!; [rewrite map_size_insert_None, map_size_empty; [lia|done]|intros; apply lookup_insert_eq|done|intros _ t' [= <-]; lia].
      * split_and!; [rewrite map_size_insert_Some by eauto; lia|intros; apply lookup_insert_eq|done|intros _ t' [= <-]; lia].
  - destruct (max <=? size l)%nat eqn:Es.
    + split_and!; [rewrite map_size_insert_None, map_size_empty; [lia|done]|intros; apply lookup_insert_eq|done|done].
    + apply Nat.leb_gt in Es. split_and!; [rewrite map_size_insert_None by done; lia|intros; apply lookup_insert_eq|done|done].
Qed.

Section BlockLog.
Variables (window : Z) (max : nat).

(** The decisions observed in order, each with its time; the lines written. *)
Fixpoint observe_all (l : blockLog) (ds : list (Decision * Z)) : list bool * blockLog :=
  match ds with
  | [] => ([], l)
  | (d, now) :: ds =>
      let '(ok, l) := observe window max l d now in
      let '(oks, l) := observe_all l ds in (ok :: oks, l)
  end.

Lemma observe_all_bounded l ds : (0 < max)%nat -> (size l <= max)%nat -> (size (observe_all l ds).2 <= max)%nat.
Proof.
  intros Hm. revert l. induction ds as [|[d now] ds IH]; intros l Hl; [done|]. cbn [observe_all].
  assert (Ho : (size (observe window max l d now).2 <= max)%nat).
  { unfold observe. destruct (d_Block d) as [r|]; [|done]. pose proof (log_allow_spec window max l (d_Subsystem d, d_Host d, r) now Hm Hl) as HS.
    destruct (log_allow _ _ _ _ _). apply HS. }
  destruct (observe window max l d now) as [ok l']. specialize (IH l' Ho). by destruct (observe_all l' ds).
Qed.
End BlockLog.

(** ** Examples *)

Definition no_idna : gostring -> option gostring := fun _ => None.

Definition demo_egress : EgressConfig :=
  MkEgress true [str ".Example.com."; str "10.1.2.3/8"; str "[2001:DB8::1]"; str "10.0.0.0/8"; str " "].

Definition demo_egress_policy : Policy :=
  match New (H := no_unicode) no_idna demo_egress with inr (Some p) => p | _ => MkPolicy [] [] end.

(** Validation accepts a host with a port, which the policy refuses. *)
Example validateEgress_gap :
  let cfg := MkEgress true [str "api.example.com:443"] in
  validateEgress (H := no_unicode) cfg = [] /\
  New (H := no_unicode) no_idna cfg = inl (InvalidHost (str "api.example.com:443") HostChars).
Proof. vm_compute. done. Qed.

(** A name whose answers are mixed is refused before any is dialled. *)
Definition demo_resolver (h : gostring) : unit + list (list Z) := inr [[10; 0; 0; 7]; [192; 0; 2; 1]].
Definition demo_base (i : nat) (a : gostring) : unit + unit := inr tt.

Lemma demo_resolver_ok h ips : demo_resolver h = inr ips -> Forall slice_ok ips.
Proof.
  intros [= <-]. repeat constructor; try (left; done); cbn; lia.
Qed.

Lemma dial_guarded_witness :
  let r := dial (H := no_unicode) no_idna demo_base demo_resolver demo_egress_policy SubsystemAuth (str "rebind.test") (str "443") in
  permits demo_resolver demo_egress_policy (normalizeDialHost (H := no_unicode) no_idna (str "rebind.test")) = false /\
  exists d, decisions r = [d] /\ d_Block d = Some ReasonMixedDNS.
Proof.
  destruct (dial_guarded (H := no_unicode) no_idna demo_base demo_resolver demo_egress_policy SubsystemAuth (str "rebind.test") (str "443")
    demo_resolver_ok) as (_ & _ & HB).
  destruct (HB (MkBlockError SubsystemAuth (str "rebind.test") (str "192.0.2.1") ReasonMixedDNS) ltac:(vm_compute; reflexivity)) as [HP (d & Hd & Hr & _)].
  exact (conj HP (ex_intro _ d (conj Hd Hr))).
Defined.

Lemma New_exact_witness : hosts demo_egress_policy <> [] \/ cidrs demo_egress_policy <> [].
Proof.
  apply (New_exact (H := no_unicode) no_idna demo_egress demo_egress_policy). vm_compute. reflexivity.
Defined.

Lemma Prepare_exact_witness :
  exists m' g, Prepare (H := no_unicode) no_idna (MkManager 1 (Some (newGeneration 1 (Some demo_egress_policy))))
    (MkEgress true (rev (eg_Allow demo_egress))) = inr (m', g, false).
Proof.
  destruct (Prepare_exact (H := no_unicode) no_idna (MkManager 1 (Some (newGeneration 1 (Some demo_egress_policy)))) demo_egress
    (MkEgress true (rev (eg_Allow demo_egress))) (Some demo_egress_policy)
    (match New (H := no_unicode) no_idna (MkEgress true (rev (eg_Allow demo_egress))) with inr p => p | _ => None end) 1
    ltac:(vm_compute; reflexivity) ltac:(vm_compute; reflexivity) eq_refl) as (m' & g & changed & E & _ & _ & _ & HF & _).
  rewrite HF in E; [by exists m', g|done|].
  intros e. unfold from_entries. cbn [eg_Allow]. setoid_rewrite list_elem_of_In. setoid_rewrite <- in_rev. done.
Defined.
