(* ===== verification/Rbac.v ===== *)
(** * Role-based access control of the admin API

    internal/rbac: the permission catalogue and its wildcards, predefined and
    custom roles, bearer tokens, and the policy that is built from the
    configuration and authenticates requests.  Times are nanoseconds, a zero
    expiry is [None]; the custom roles, a Go map, come in the order in which the
    map is iterated, and the theorems hold for every order.  SHA-256 is the
    parameter [sha256], of which the code needs that a digest has 32 bytes. *)

From S2P Require Import Prelude GoStrings Netip.

(** ** Permissions ([permission.go]) *)

Notation Permission := (list Z).

Definition StatusRead : Permission := str "status:read".
Definition MetricsRead : Permission := str "metrics:read".
Definition ConfigRead : Permission := str "config:read".
Definition ConfigRaw : Permission := str "config:raw".
Definition ConfigWrite : Permission := str "config:write".
Definition ConfigApply : Permission := str "config:apply".
Definition ConfigTrust : Permission := str "config:trust".
Definition ConfigAdopt : Permission := str "config:adopt".
Definition HistoryRead : Permission := str "history:read".
Definition HistoryReadRaw : Permission := str "history:raw".
Definition HistoryRollback : Permission := str "history:rollback".
Definition PluginsUpload : Permission := str "plugins:upload".
Definition ObservabilityRead : Permission := str "observability:read".
Definition AuditRead : Permission := str "audit:read".
Definition AuditExport : Permission := str "audit:export".
Definition CacheInspect : Permission := str "cache:inspect".
Definition CachePurge : Permission := str "cache:purge".
Definition ReloadTrigger : Permission := str "reload:trigger".
Definition AdminManage : Permission := str "admin:manage".

Definition Wildcard : Permission := str "*".

Definition catalog : list Permission :=
  [StatusRead; MetricsRead; ConfigRead; ConfigRaw; ConfigWrite; ConfigApply; ConfigTrust; ConfigAdopt;
   HistoryRead; HistoryReadRaw; HistoryRollback; PluginsUpload; ObservabilityRead; AuditRead; AuditExport;
   CacheInspect; CachePurge; ReloadTrigger; AdminManage].

(** The resource of a permission of the form [resource:*]. *)
Definition wildcard_resource (s : Permission) : option gostring :=
  if (2 <? length s)%nat && bool_decide (drop (length s - 2) s = str ":*")
  then Some (take (length s - 2) s) else None.

(** A permission inside a resource: longer than the resource and its colon. *)
Definition in_resource (resource s : gostring) : bool :=
  (length resource + 1 <? length s)%nat && bool_decide (take (length resource + 1) s = resource ++ [58]).

Definition Known (p : Permission) : bool :=
  if string_eqb p Wildcard then true
  else match wildcard_resource p with
       | Some resource => existsb (in_resource resource) catalog
       | None => existsb (fun c => string_eqb c p) catalog
       end.

Definition Matches (g r : Permission) : bool :=
  if string_eqb g Wildcard then true
  else if string_eqb g r then true
  else match wildcard_resource g with
       | Some resource => in_resource resource r
       | None => false
       end.

(** Some grant of the list covers the permission: [Identity.Has] and the loop of
    [RoleHas]. *)
Definition grants (l : list Permission) (p : Permission) : bool := existsb (fun g => Matches g p) l.

(** ** Roles ([role.go]) *)

Definition RoleViewer : gostring := str "viewer".
Definition RoleOperator : gostring := str "operator".
Definition RoleAdmin : gostring := str "admin".
Definition RoleAuditor : gostring := str "auditor".

Definition predefinedRoles : gmap gostring (list Permission) := list_to_map [
  (RoleViewer, [StatusRead; MetricsRead; ConfigRead; HistoryRead; ObservabilityRead; AuditRead]);
  (RoleOperator, [StatusRead; MetricsRead; ConfigRead; ConfigWrite; ConfigApply; HistoryRead; HistoryRollback;
                  PluginsUpload; ObservabilityRead; AuditRead; AuditExport; CachePurge; ReloadTrigger]);
  (RoleAdmin, [Wildcard]);
  (RoleAuditor, [StatusRead; ObservabilityRead; AuditRead; AuditExport])].

Definition RoleHas (role : gostring) (p : Permission) : bool :=
  match predefinedRoles !! role with Some perms => grants perms p | None => false end.

Definition IsPredefined (name : gostring) : bool := bool_decide (is_Some (predefinedRoles !! name)).
Definition PermissionsForPredefined (name : gostring) : option (list Permission) := predefinedRoles !! name.

Inductive rbacErr :=
| UnknownPermission (s : gostring)
| CustomRoleErr (role : gostring) (e : rbacErr)
| LegacyRoleUnknown (role : gostring)
| DuplicateTokenID (id first second : gostring)
| NoToken (name : gostring)
| UnknownRole (name role : gostring)
| NoPrincipals
| NoAdmin.

(** [resolveCustom]: duplicates are dropped, the order of first uses kept. *)
Fixpoint resolve_aux (seen raw : list Permission) : rbacErr + list Permission :=
  match raw with
  | [] => inr []
  | s :: raw =>
      if negb (Known s) then inl (UnknownPermission s)
      else if bool_decide (s ∈ seen) then resolve_aux seen raw
      else match resolve_aux (s :: seen) raw with inl e => inl e | inr l => inr (s :: l) end
  end.

Definition resolveCustom (raw : list Permission) : rbacErr + list Permission := resolve_aux [] raw.

(** ** Tokens and identities ([token.go], [identity.go]) *)

Definition MinTokenLen : nat := 32.
Definition tokenIDLen : nat := 12.
Definition bearerPrefix : gostring := str "Bearer ".

Definition extractBearer (h : gostring) : option gostring :=
  if negb (HasPrefix h bearerPrefix) then None
  else let tok := drop (length bearerPrefix) h in if bool_decide (tok = []) then None else Some tok.

Definition tokenID (hash : list Z) : gostring := take tokenIDLen (hex_string hash).

Inductive tokenErr := TokenEmpty | TokenShort.
Definition ValidateToken (raw : gostring) : option tokenErr :=
  if bool_decide (raw = []) then Some TokenEmpty
  else if (length raw <? MinTokenLen)%nat then Some TokenShort else None.

Record principalEntry := MkPrincipal {
  pe_name : gostring;
  pe_role : gostring;
  pe_tokenHash : list Z;
  pe_tokenID : gostring;
  pe_permissions : list Permission;
  pe_disabled : bool;
  pe_expiresAt : option Z;
  pe_legacy : bool
}.

Definition expired (e : principalEntry) (now : Z) : bool :=
  match pe_expiresAt e with None => false | Some t => t <? now end.
Definition active (e : principalEntry) (now : Z) : bool := negb (pe_disabled e) && negb (expired e now).

Record Identity := MkRIdentity {
  ri_Authentication : gostring;
  ri_ProviderName : gostring;
  ri_SessionExpiresAt : option Z;
  ri_Principal : gostring;
  ri_Role : gostring;
  ri_TokenID : gostring;
  ri_TokenDigest : gostring;
  ri_Permissions : list Permission;
  ri_Legacy : bool
}.

Definition Has (id : Identity) (p : Permission) : bool := grants (ri_Permissions id) p.

Inductive authErr := ErrUnauthenticated | ErrDisabled | ErrForbidden.

(** ** Policies ([policy.go]) *)

Record Policy := MkRPolicy {
  entries : gmap gostring principalEntry;
  all : list principalEntry;
  enabled : bool;
  roles : gmap gostring (list Permission);
  catalogVersion : nat
}.

Record PrincipalDef := MkDef {
  def_Name : gostring; def_Role : gostring; def_Token : gostring; def_Disabled : bool; def_ExpiresAt : option Z
}.

(** The loop of [buildRoleMap] over the custom roles. *)
Fixpoint merge_roles (m : gmap gostring (list Permission)) (custom : list (gostring * list Permission))
  : rbacErr + gmap gostring (list Permission) :=
  match custom with
  | [] => inr m
  | (name, raw) :: custom =>
      match resolveCustom raw with
      | inl e => inl (CustomRoleErr name e)
      | inr resolved => merge_roles (<[name := resolved]> m) custom
      end
  end.

Definition buildRoleMap (custom : list (gostring * list Permission)) : rbacErr + gmap gostring (list Permission) :=
  merge_roles predefinedRoles custom.

Definition hasActivePrincipalWith (l : list principalEntry) (now : Z) (perm : Permission) : bool :=
  existsb (fun e => active e now && grants (pe_permissions e) perm) l.

Section Build.
Context `{Sha256}.

Definition hashToken (raw : gostring) : list Z := sha256 raw.
Definition TokenDigest (token : gostring) : gostring :=
  if bool_decide (token = []) then [] else hex_string (hashToken token).

Definition matchToken (e : principalEntry) (raw : gostring) : bool :=
  if bool_decide (pe_tokenHash e = []) then false else bool_decide (hashToken raw = pe_tokenHash e).

Definition buildLegacyEntry (legacyToken defaultRole : gostring) (custom : list (gostring * list Permission))
  : rbacErr + principalEntry :=
  match buildRoleMap custom with
  | inl e => inl e
  | inr rolePerms =>
      let role := if bool_decide (defaultRole = []) then RoleAdmin else defaultRole in
      match rolePerms !! role with
      | None => inl (LegacyRoleUnknown role)
      | Some perms =>
          let h := hashToken legacyToken in
          inr (MkPrincipal (str "shared") role h (tokenID h) perms false None true)
      end
  end.

(** Adding an entry to the index and the list. *)
Definition add_entry (p : gmap gostring principalEntry * list principalEntry) (e : principalEntry)
  : rbacErr + gmap gostring principalEntry * list principalEntry :=
  match p.1 !! pe_tokenID e with
  | Some existing => inl (DuplicateTokenID (pe_tokenID e) (pe_name existing) (pe_name e))
  | None => inr (<[pe_tokenID e := e]> p.1, p.2 ++ [e])
  end.

Definition principal_entry (perms : list Permission) (def : PrincipalDef) : principalEntry :=
  let h := hashToken (def_Token def) in
  MkPrincipal (def_Name def) (def_Role def) h (tokenID h) perms (def_Disabled def) (def_ExpiresAt def) false.

Fixpoint add_principals (rolePerms : gmap gostring (list Permission))
    (p : gmap gostring principalEntry * list principalEntry) (defs : list PrincipalDef)
  : rbacErr + gmap gostring principalEntry * list principalEntry :=
  match defs with
  | [] => inr p
  | def :: defs =>
      if bool_decide (def_Token def = []) then inl (NoToken (def_Name def))
      else match rolePerms !! def_Role def with
           | None => inl (UnknownRole (def_Name def) (def_Role def))
           | Some perms =>
               match add_entry p (principal_entry perms def) with
               | inl e => inl e
               | inr p => add_principals rolePerms p defs
               end
           end
  end.

Definition Build (enabled : bool) (defaultRole : gostring) (customRoles : list (gostring * list Permission))
    (principals : list PrincipalDef) (legacyToken : gostring) (now : Z) : rbacErr + Policy :=
  let legacy := if bool_decide (legacyToken = []) then inr None
                else match buildLegacyEntry legacyToken defaultRole customRoles with
                     | inl e => inl e
                     | inr e => inr (Some e)
                     end in
  if negb enabled then
    match legacy with
    | inl e => inl e
    | inr None => inr (MkRPolicy ∅ [] false ∅ (length catalog))
    | inr (Some e) => inr (MkRPolicy {[ pe_tokenID e := e ]} [e] false ∅ (length catalog))
    end
  else
    match buildRoleMap customRoles with
    | inl e => inl e
    | inr rolePerms =>
        match legacy with
        | inl e => inl e
        | inr l =>
            match (match l with None => inr (∅, []) | Some e => add_entry (∅, []) e end) with
            | inl e => inl e
            | inr p0 =>
                match add_principals rolePerms p0 principals with
                | inl e => inl e
                | inr (m, l) =>
                    if bool_decide (l = []) then inl NoPrincipals
                    else if negb (hasActivePrincipalWith l now AdminManage) then inl NoAdmin
                    else inr (MkRPolicy m l true rolePerms (length catalog))
                end
            end
        end
    end.

Definition identity_of (e : principalEntry) : Identity :=
  MkRIdentity [] [] None (pe_name e) (pe_role e) (pe_tokenID e) (hex_string (pe_tokenHash e)) (pe_permissions e) (pe_legacy e).

Definition Authenticate (p : Policy) (bearer : gostring) (now : Z) : authErr + Identity :=
  match extractBearer bearer with
  | None => inl ErrUnauthenticated
  | Some raw =>
      match entries p !! tokenID (hashToken raw) with
      | None => inl ErrUnauthenticated
      | Some entry =>
          if negb (matchToken entry raw) then inl ErrUnauthenticated
          else if negb (active entry now) then inl ErrDisabled
          else inr (identity_of entry)
      end
  end.

Definition Authorize (p : Policy) (id : Identity) (perm : Permission) : bool := Has id perm.
Definition PrincipalCount (p : Policy) : nat := length (all p).

Definition ExternalIdentity (p : option Policy) (principal role fingerprint : gostring) : authErr + Identity :=
  match p with
  | None => inl ErrUnauthenticated
  | Some p =>
      if negb (enabled p) then inl ErrUnauthenticated
      else match roles p !! role with
           | None => inl ErrForbidden
           | Some perms => inr (MkRIdentity [] [] None principal role (str "oidc:" ++ fingerprint) [] perms false)
           end
  end.
End Build.

(** ** The order of grants *)

Lemma wildcard_resource_spec s res :
  wildcard_resource s = Some res <-> res <> [] /\ s = res ++ str ":*".
Proof.
  unfold wildcard_resource. split.
  - destruct (2 <? length s)%nat eqn:E; [|done]. apply Nat.ltb_lt in E. simpl.
    case_bool_decide as Ed; [|done]. intros [= <-]. split.
    + intros Hn. apply (f_equal length) in Hn. rewrite length_take in Hn. simpl in Hn. lia.
    + rewrite <- Ed. by rewrite take_drop.
  - intros [Hn ->]. rewrite length_app. change (length (str ":*")) with 2%nat.
    assert (0 < length res)%nat by (destruct res; [done|simpl; lia]).
    rewrite (proj2 (Nat.ltb_lt _ _)) by lia. replace (length res + 2 - 2)%nat with (length res) by lia.
    rewrite drop_app_length, take_app_length. rewrite bool_decide_true by done. done.
Qed.

Lemma in_resource_spec res s : in_resource res s = true <-> exists x, x <> [] /\ s = res ++ 58 :: x.
Proof.
  unfold in_resource. rewrite andb_true_iff, bool_decide_eq_true, Nat.ltb_lt. split.
  - intros [L E]. exists (drop (length res + 1) s). split.
    + intros Hd. apply (f_equal length) in Hd. rewrite length_drop in Hd. simpl in Hd. lia.
    + rewrite <- (take_drop (length res + 1) s) at 1. rewrite E, <- app_assoc. done.
  - intros (x & Hx & ->). rewrite length_app. cbn [length]. destruct x as [|c x]; [done|]. cbn [length]. split; [lia|].
    replace (length res + 1)%nat with (length (res ++ [58])) by (rewrite length_app; simpl; lia).
    replace (res ++ 58 :: c :: x) with ((res ++ [58]) ++ c :: x) by (by rewrite <- app_assoc). by rewrite take_app_length.
Qed.

(** What a grant covers. *)
Definition covers (g r : Permission) : Prop :=
  g = Wildcard \/ g = r \/ exists res x, res <> [] /\ x <> [] /\ g = res ++ str ":*" /\ r = res ++ 58 :: x.

Lemma Matches_covers g r : Matches g r = true <-> covers g r.
Proof.
  unfold Matches, covers, string_eqb. case_bool_decide as E1; [tauto|]. case_bool_decide as E2; [tauto|].
  destruct (wildcard_resource g) as [res|] eqn:E3.
  - apply wildcard_resource_spec in E3 as [Hr ->]. rewrite in_resource_spec. split.
    + intros (x & Hx & ->). right. right. eauto 8.
    + intros [?|[?|(res' & x & H1 & H2 & H3 & ->)]]; [done..|]. apply app_inv_tail in H3 as ->. eauto.
  - split; [done|]. intros [?|[?|(res & x & H1 & H2 & -> & _)]]; [done..|].
    by rewrite (proj2 (wildcard_resource_spec _ res)) in E3.
Qed.

(** Grants form a preorder: every permission covers itself, covering is
    transitive, so a grant that covers a wildcard covers whatever that wildcard
    covers; the global wildcard covers everything and is covered by nothing
    else. *)
Theorem Matches_preorder (g m r : Permission) :
  Matches g g = true /\
  (Matches g m = true -> Matches m r = true -> Matches g r = true) /\
  Matches Wildcard r = true /\ (Matches g Wildcard = true -> g = Wildcard).
Proof.
  rewrite !Matches_covers. unfold covers.
  assert (HW : g = Wildcard \/ g = Wildcard \/ (exists res x, res <> [] /\ x <> [] /\ g = res ++ str ":*" /\ Wildcard = res ++ 58 :: x) -> g = Wildcard).
  { intros [?|[?|(res & x & _ & _ & _ & E)]]; [done..|]. by destruct res as [|? [|? ?]]. }
  split_and!; [auto| |auto|done].
  intros [-> |[-> |(res & x & H1 & H2 & -> & ->)]]; [auto|auto|].
  intros [E|[<- |(res' & y & H3 & H4 & E & ->)]]; [by destruct res as [|? [|? ?]]|by eauto 10|].
  right. right. exists res.
  (* the inner wildcard is the outer one, or lies below the outer resource *)
  assert (Hp : exists z, z <> [] /\ res' ++ 58 :: y = res ++ 58 :: z); [|naive_solver].
  change (str ":*") with [58; 42] in E. destruct (decide (length res' < S (length res))%nat) as [L|L].
  - exists y. split; [done|]. assert (Er : res = res').
    { apply (f_equal length) in E as EL. rewrite !length_app in EL. simpl in EL. destruct x as [|c x]; [done|]. simpl in EL.
      assert (length res' = length res) by lia. apply app_inj_1 in E as [E _]; done. }
    by rewrite Er.
  - exists (drop (S (length res)) res' ++ 58 :: y). split; [by destruct (drop _ _)|].
    assert (Ht : take (S (length res)) res' = res ++ [58]).
    { apply (f_equal (take (S (length res)))) in E. rewrite (take_app_le res') in E by lia. rewrite <- E.
      replace (S (length res)) with (length (res ++ [58])) by (rewrite length_app; simpl; lia).
      replace (res ++ 58 :: x) with ((res ++ [58]) ++ x) by (by rewrite <- app_assoc). by rewrite take_app_length. }
    rewrite <- (take_drop (S (length res)) res') at 1. rewrite Ht, <- !app_assoc. done.
Qed.

(** The permissions that only the admin role holds among the predefined ones. *)
Definition reserved : list Permission := [ConfigRaw; ConfigTrust; ConfigAdopt; HistoryReadRaw; CacheInspect; AdminManage].

Definition role_table : list (gostring * list Permission) := map_to_list predefinedRoles.

(** Least privilege of the predefined roles: the reserved permissions (raw
    configuration and history, trusted proxies, adoption, cache inspection,
    administration) are held by admin alone; viewer is contained in operator;
    auditor changes nothing; and every permission a role lists is known. *)
Theorem predefined_least_privilege (role : gostring) (p : Permission) :
  (RoleHas role p = true -> p ∈ reserved -> role = RoleAdmin) /\
  (p ∈ catalog -> RoleHas RoleViewer p = true -> RoleHas RoleOperator p = true) /\
  (p ∈ catalog -> RoleHas RoleAdmin p = true) /\
  (p ∈ catalog -> RoleHas RoleAuditor p = true -> p ∈ [StatusRead; ObservabilityRead; AuditRead; AuditExport]) /\
  (forall perms, predefinedRoles !! role = Some perms -> forallb Known perms = true).
Proof.
  assert (HC : forallb (fun c => implb (RoleHas RoleViewer c) (RoleHas RoleOperator c) && RoleHas RoleAdmin c &&
     implb (RoleHas RoleAuditor c) (bool_decide (c ∈ [StatusRead; ObservabilityRead; AuditRead; AuditExport]))) catalog = true)
    by (vm_compute; reflexivity).
  assert (HR : forallb (fun rp => bool_decide (rp.1 = RoleAdmin) || forallb (fun c => negb (grants rp.2 c)) reserved) role_table = true)
    by (vm_compute; reflexivity).
  assert (HK : forallb (fun rp => forallb Known rp.2) role_table = true) by (vm_compute; reflexivity).
  rewrite forallb_forall in HC, HR, HK.
  assert (HI : forall perms, predefinedRoles !! role = Some perms -> In (role, perms) role_table).
  { intros perms E. unfold role_table. rewrite <- list_elem_of_In, elem_of_map_to_list. exact E. }
  assert (HC' : p ∈ catalog -> implb (RoleHas RoleViewer p) (RoleHas RoleOperator p) = true /\ RoleHas RoleAdmin p = true /\
     implb (RoleHas RoleAuditor p) (bool_decide (p ∈ [StatusRead; ObservabilityRead; AuditRead; AuditExport])) = true).
  { intros Hp%list_elem_of_In. apply HC in Hp. rewrite !andb_true_iff in Hp. tauto. }
  split_and!.
  - intros Hg Hp%list_elem_of_In.
    assert (HG : exists perms, predefinedRoles !! role = Some perms /\ grants perms p = true).
    { clear -Hg. unfold RoleHas in Hg. destruct (predefinedRoles !! role) as [perms|]; [by exists perms|done]. }
    destruct HG as (perms & E & HG). pose proof (HR _ (HI _ E)) as HE. cbn [fst snd] in HE.
    apply orb_true_iff in HE as [HE|HE]; [by apply bool_decide_eq_true in HE|]. rewrite forallb_forall in HE.
    apply HE in Hp. by rewrite HG in Hp.
  - intros (H1 & _)%HC' H2. by rewrite H2 in H1.
  - by intros (_ & H1 & _)%HC'.
  - intros (_ & _ & H1)%HC' H2. rewrite H2 in H1. by apply bool_decide_eq_true in H1.
  - intros perms E. exact (HK _ (HI _ E)).
Qed.

(** ** The built policy *)

#[global] Arguments predefinedRoles : simpl never.
#[global] Opaque predefinedRoles.

Section PolicyOk.
Context `{Sha256}.

Definition entry_ok (e : principalEntry) : Prop :=
  exists tok, tok <> [] /\ pe_tokenHash e = sha256 tok /\ pe_tokenID e = tokenID (sha256 tok).

(** The index and the list hold the same entries, one per token identifier. *)
Definition index_ok (m : gmap gostring principalEntry) (l : list principalEntry) : Prop :=
  Forall entry_ok l /\ forall id e, m !! id = Some e <-> e ∈ l /\ pe_tokenID e = id.

Lemma index_ok_nil : index_ok ∅ [].
Proof.
  split; [constructor|]. intros id e. rewrite lookup_empty. split; [done|]. by intros [?%elem_of_nil _].
Qed.

Lemma add_entry_ok m l e m' l' :
  index_ok m l -> entry_ok e -> add_entry (m, l) e = inr (m', l') -> index_ok m' l' /\ l' = l ++ [e].
Proof.
  intros [HF HI] He. unfold add_entry. cbn [fst snd]. destruct (m !! pe_tokenID e) as [x|] eqn:Em; [done|].
  intros [= <- <-]. split; [|done]. split; [apply Forall_app; split; [done|by constructor]|].
  intros id x. rewrite elem_of_app, list_elem_of_singleton. destruct (decide (pe_tokenID e = id)) as [<-|Hn].
  - rewrite lookup_insert_eq. split; [intros [= <-]; auto|]. intros [[Hx| ->] E]; [|done].
    assert (m !! pe_tokenID e = Some x) by (by apply HI). congruence.
  - rewrite lookup_insert_ne by done. rewrite HI. split; [tauto|]. intros [[Hx| ->] E]; [done|congruence].
Qed.

Lemma principal_entry_ok perms def : def_Token def <> [] -> entry_ok (principal_entry perms def).
Proof. intros Ht. by exists (def_Token def). Qed.

(** The entries of the named principals, in order. *)
Definition from_def (rolePerms : gmap gostring (list Permission)) (def : PrincipalDef) (e : principalEntry) : Prop :=
  exists perms, def_Token def <> [] /\ rolePerms !! def_Role def = Some perms /\ e = principal_entry perms def.

Lemma add_principals_ok rolePerms defs m l m' l' :
  index_ok m l -> add_principals rolePerms (m, l) defs = inr (m', l') ->
  index_ok m' l' /\ exists es, l' = l ++ es /\ Forall2 (from_def rolePerms) defs es.
Proof.
  revert m l. induction defs as [|def defs IH]; intros m l HI; cbn [add_principals].
  - intros [= <- <-]. split; [done|]. exists []. by rewrite app_nil_r.
  - case_bool_decide as Ht; [done|]. destruct (rolePerms !! def_Role def) as [perms|] eqn:Er; [|done].
    destruct (add_entry (m, l) (principal_entry perms def)) as [?|[m1 l1]] eqn:Ea; [done|].
    apply add_entry_ok in Ea as [HI1 ->]; [|done|by apply principal_entry_ok].
    intros (HI' & es & -> & HF)%IH; [|done]. split; [done|]. exists (principal_entry perms def :: es).
    rewrite <- app_assoc. split; [done|]. constructor; [|done]. by exists perms.
Qed.

Lemma buildLegacyEntry_ok tok role custom e :
  tok <> [] -> buildLegacyEntry tok role custom = inr e ->
  entry_ok e /\ pe_tokenHash e = sha256 tok /\ pe_legacy e = true.
Proof.
  intros Ht. unfold buildLegacyEntry. destruct (buildRoleMap custom) as [?|rp]; [done|].
  destruct (rp !! _) as [perms|]; [|done]. intros [= <-]. split; [by exists tok|done].
Qed.

(** What [Build] promises: an exact index, the entries of the configuration and,
    when enabled, an active administrator. *)
Definition built (defaultRole : gostring) (custom : list (gostring * list Permission)) (defs : list PrincipalDef)
    (legacyToken : gostring) (now : Z) (p : Policy) : Prop :=
  index_ok (entries p) (all p) /\
  exists ls es, all p = ls ++ es /\
    (if bool_decide (legacyToken = []) then ls = []
     else exists e, ls = [e] /\ buildLegacyEntry legacyToken defaultRole custom = inr e) /\
    if enabled p then
      buildRoleMap custom = inr (roles p) /\ Forall2 (from_def (roles p)) defs es /\
      hasActivePrincipalWith (all p) now AdminManage = true
    else es = [].

Lemma Build_built en defaultRole custom defs legacyToken now p :
  Build en defaultRole custom defs legacyToken now = inr p ->
  enabled p = en /\ built defaultRole custom defs legacyToken now p.
Proof.
  unfold Build, built. case_bool_decide as Hl; destruct en; cbn [negb].
  - destruct (buildRoleMap custom) as [?|rp]; [done|].
    destruct (add_principals rp (∅, []) defs) as [?|[m l]] eqn:Ea; [done|].
    apply add_principals_ok in Ea as (HI & es & -> & HF); [|apply index_ok_nil].
    case_bool_decide; [done|]. destruct (hasActivePrincipalWith _ _ _) eqn:Eh; [|done]. intros [= <-].
    split; [done|]. split; [done|]. by exists [], es.
  - intros [= <-]. split; [done|]. split; [apply index_ok_nil|]. by exists [], [].
  - destruct (buildRoleMap custom) as [?|rp]; [done|].
    destruct (buildLegacyEntry legacyToken defaultRole custom) as [?|e] eqn:El; [done|].
    pose proof (buildLegacyEntry_ok _ _ _ _ Hl El) as (He & _ & _).
    destruct (add_entry (∅, []) e) as [?|[m0 l0]] eqn:E0; [done|].
    apply add_entry_ok in E0 as [HI0 ->]; [|apply index_ok_nil|done].
    destruct (add_principals rp (m0, [] ++ [e]) defs) as [?|[m l]] eqn:Ea; [done|].
    apply add_principals_ok in Ea as (HI & es & -> & HF); [|done].
    case_bool_decide; [done|]. destruct (hasActivePrincipalWith _ _ _) eqn:Eh; [|done]. intros [= <-].
    split; [done|]. split; [done|]. exists [e], es. split; [done|]. split; [by exists e|done].
  - destruct (buildLegacyEntry legacyToken defaultRole custom) as [?|e] eqn:El; [done|].
    pose proof (buildLegacyEntry_ok _ _ _ _ Hl El) as (He & _ & _). intros [= <-].
    split; [done|]. split.
    + assert (E0 : add_entry (∅, []) e = inr ({[ pe_tokenID e := e ]}, [e])) by (unfold add_entry; cbn [fst snd]; by rewrite lookup_empty).
      by apply add_entry_ok in E0 as [HI0 _]; [|apply index_ok_nil|].
    + exists [e], []. split; [done|]. split; [by exists e|done].
Qed.

Lemma extractBearer_spec b tok : extractBearer b = Some tok <-> b = bearerPrefix ++ tok /\ tok <> [].
Proof.
  unfold extractBearer. destruct (HasPrefix b bearerPrefix) eqn:E; cbn [negb].
  - apply HasPrefix_spec in E as [t ->]. rewrite drop_app_length. case_bool_decide as Et.
    + split; [done|]. intros [E ?]. apply app_inv_head in E. congruence.
    + split; [by intros [= <-]|]. intros [E _]. apply app_inv_head in E. congruence.
  - split; [done|]. intros [-> _]. by rewrite HasPrefix_app in E.
Qed.

(** The entry a token selects. *)
Lemma lookup_token m l tok :
  index_ok m l ->
  forall e, (m !! tokenID (hashToken tok) = Some e /\ matchToken e tok = true) <-> (e ∈ l /\ pe_tokenHash e = sha256 tok).
Proof.
  intros [HF HI] e. rewrite HI. unfold matchToken, hashToken. rewrite Forall_forall in HF. split.
  - intros [[He _] Hm]. split; [done|]. case_bool_decide; [done|]. by apply bool_decide_eq_true in Hm.
  - intros [He Eh]. split.
    + split; [done|]. destruct (HF e He) as (t & _ & Et & Ei). rewrite Ei. congruence.
    + rewrite Eh, bool_decide_false, bool_decide_true; [done|done|]. intros E. pose proof (sha256_length tok) as L. by rewrite E in L.
Qed.

(** The three outcomes, for a policy whose index is exact. *)
Lemma Authenticate_cases p b now :
  index_ok (entries p) (all p) ->
  (forall id, Authenticate p b now = inr id <->
     exists tok e, b = bearerPrefix ++ tok /\ tok <> [] /\ e ∈ all p /\ pe_tokenHash e = sha256 tok /\
       active e now = true /\ id = identity_of e) /\
  (Authenticate p b now = inl ErrDisabled <->
     exists tok e, b = bearerPrefix ++ tok /\ tok <> [] /\ e ∈ all p /\ pe_tokenHash e = sha256 tok /\ active e now = false) /\
  Authenticate p b now <> inl ErrForbidden.
Proof.
  intros HI. unfold Authenticate.
  destruct (extractBearer b) as [tok|] eqn:Eb.
  2: { assert (Hn : forall tok, b = bearerPrefix ++ tok -> tok <> [] -> False).
       { intros tok E1 E2. assert (extractBearer b = Some tok) by (by apply extractBearer_spec). congruence. }
       split_and!; [|naive_solver|done]. intros id. naive_solver. }
  apply extractBearer_spec in Eb as [-> Ht]. pose proof (lookup_token _ _ tok HI) as HL.
  assert (HU : forall tok' e, bearerPrefix ++ tok = bearerPrefix ++ tok' -> e ∈ all p -> pe_tokenHash e = sha256 tok' ->
    entries p !! tokenID (hashToken tok) = Some e /\ matchToken e tok = true).
  { intros tok' e E He Eh. apply app_inv_head in E as <-. by apply HL. }
  destruct (entries p !! tokenID (hashToken tok)) as [e|] eqn:Ee.
  2: { split_and!; [|naive_solver|done]. intros id. naive_solver. }
  destruct (matchToken e tok) eqn:Em; cbn [negb].
  2: { split_and!; [intros id| |done]; (split; [done|]).
       - intros (tok' & e' & E & _ & He & Eh & _). destruct (HU _ _ E He Eh) as [[= ->] ?]. congruence.
       - intros (tok' & e' & E & _ & He & Eh & _). destruct (HU _ _ E He Eh) as [[= ->] ?]. congruence. }
  destruct (proj1 (HL e) (conj eq_refl Em)) as [He Eh].
  assert (HE : forall tok' e', bearerPrefix ++ tok = bearerPrefix ++ tok' -> e' ∈ all p -> pe_tokenHash e' = sha256 tok' -> e' = e).
  { intros tok' e' E He' Eh'. destruct (HU _ _ E He' Eh') as [[= ->] _]. done. }
  destruct (active e now) eqn:Ea; cbn [negb]; split_and!; try done.
  - intros id. split; [intros [= <-]; by exists tok, e|]. intros (tok' & e' & E & _ & He' & Eh' & _ & ->).
    by rewrite (HE _ _ E He' Eh').
  - split; [done|]. intros (tok' & e' & E & _ & He' & Eh' & Ha). rewrite (HE _ _ E He' Eh') in Ha. congruence.
  - intros id. split; [done|]. intros (tok' & e' & E & _ & He' & Eh' & Ha & _). rewrite (HE _ _ E He' Eh') in Ha. congruence.
  - split; [|done]. intros _. by exists tok, e.
Qed.

(** Authentication against a built policy is exact: a bearer value is
    accepted as an identity if and only if it is the Bearer scheme with a
    non-empty token whose digest is that of an active principal, whose name,
    role and permissions the identity carries; it is reported disabled if and
    only if the principal of that digest is disabled or expired; everything else
    is unauthenticated. *)
Theorem Authenticate_exact (en : bool) (defaultRole : gostring) (custom : list (gostring * list Permission))
    (defs : list PrincipalDef) (legacyToken : gostring) (t0 : Z) (p : Policy) (b : gostring) (now : Z) :
  Build en defaultRole custom defs legacyToken t0 = inr p ->
  (forall id, Authenticate p b now = inr id <->
     exists tok e, b = bearerPrefix ++ tok /\ tok <> [] /\ e ∈ all p /\ pe_tokenHash e = sha256 tok /\
       active e now = true /\ id = identity_of e) /\
  (Authenticate p b now = inl ErrDisabled <->
     exists tok e, b = bearerPrefix ++ tok /\ tok <> [] /\ e ∈ all p /\ pe_tokenHash e = sha256 tok /\ active e now = false) /\
  Authenticate p b now <> inl ErrForbidden.
Proof. intros [_ [HI _]]%Build_built. by apply Authenticate_cases. Qed.

(** A built policy honours its configuration.  Every configured principal
    is authenticated by its own token: as itself, with the permissions of its
    role, while it is enabled and not expired, and as disabled otherwise; and an
    enabled policy always has an active principal that may administer it, so a
    configuration that locks everybody out is not installed. *)
Theorem Build_honours_config (defaultRole : gostring) (custom : list (gostring * list Permission))
    (defs : list PrincipalDef) (legacyToken : gostring) (t0 : Z) (p : Policy) :
  Build true defaultRole custom defs legacyToken t0 = inr p ->
  (forall def now, def ∈ defs -> exists perms,
     roles p !! def_Role def = Some perms /\
     Authenticate p (bearerPrefix ++ def_Token def) now =
     if active (principal_entry perms def) now then inr (identity_of (principal_entry perms def)) else inl ErrDisabled) /\
  (exists e, e ∈ all p /\ active e t0 = true /\ grants (pe_permissions e) AdminManage = true).
Proof.
  intros HB. apply Build_built in HB as (Een & HI & ls & es & Eall & _ & HX). rewrite Een in HX. destruct HX as (_ & HF & Hadm). split.
  - intros def now (i & Hd)%list_elem_of_lookup. destruct (Forall2_lookup_l _ _ _ _ _ HF Hd) as (e & He & perms & Ht & Hr & ->).
    exists perms. split; [done|]. set (e := principal_entry perms def) in *.
    assert (Hin : e ∈ all p) by (rewrite Eall; apply elem_of_app; right; by eapply list_elem_of_lookup_2).
    unfold Authenticate. rewrite (proj2 (extractBearer_spec _ (def_Token def))) by done.
    destruct (proj2 (lookup_token _ _ (def_Token def) HI e) (conj Hin eq_refl)) as [-> ->]. cbn [negb].
    by destruct (active e now).
  - unfold hasActivePrincipalWith in Hadm. apply existsb_exists in Hadm as (e & He & Hg). apply andb_true_iff in Hg as [H1 H2].
    exists e. by rewrite list_elem_of_In.
Qed.
End PolicyOk.

(** ** Examples *)

Definition demo_token (c : Z) : gostring := replicate 32 c.
Definition demo_defs : list PrincipalDef :=
  [MkDef (str "ops") RoleAdmin (demo_token 97) false None; MkDef (str "view") (str "cacher") (demo_token 98) false (Some 50)].
Definition demo_roles : list (gostring * list Permission) := [(str "cacher", [str "cache:*"; StatusRead])].
Definition demo_rbac : Policy :=
  match Build (H := demo_sha256) true [] demo_roles demo_defs [] 10 with
  | inr p => p
  | inl _ => MkRPolicy ∅ [] false ∅ 0
  end.

Lemma Authenticate_exact_witness :
  Authenticate (H := demo_sha256) demo_rbac (bearerPrefix ++ demo_token 98) 60 = inl ErrDisabled /\
  exists e, e ∈ all demo_rbac /\ active e 60 = false.
Proof.
  destruct (Authenticate_exact (H := demo_sha256) true [] demo_roles demo_defs [] 10 demo_rbac (bearerPrefix ++ demo_token 98) 60
    ltac:(vm_compute; reflexivity)) as (_ & HD & _).
  assert (HA : Authenticate (H := demo_sha256) demo_rbac (bearerPrefix ++ demo_token 98) 60 = inl ErrDisabled) by (vm_compute; reflexivity).
  split; [exact HA|]. destruct (proj1 HD HA) as (tok & e & _ & _ & H1 & _ & H2). eauto.
Defined.

Lemma Build_honours_config_witness :
  exists e, e ∈ all demo_rbac /\ active e 10 = true /\ grants (pe_permissions e) AdminManage = true.
Proof.
  apply (Build_honours_config (H := demo_sha256) [] demo_roles demo_defs [] 10 demo_rbac). vm_compute; reflexivity.
Defined.
