(* ===== verification/AdminAuth.v ===== *)
(** * Access to the admin API

    internal/config/validate_rbac.go, the construction of the policy in
    internal/app/serve.go (buildRBACPolicy) and the gate in front of every admin
    handler in internal/admin/rbac.go.  The session check of the OpenID Connect
    runtime is a parameter; handlers, the audit trail and the shape of error
    bodies are left out.  The theorems compose these with [Rbac]: a validated
    configuration builds, and the gate serves exactly who may. *)

From S2P Require Import Prelude GoStrings Netip Http Rbac.

(** ** Configuration *)

Record AdminRole := MkAdminRole { rl_Name : gostring; rl_Permissions : list Permission }.

Record AdminRBACConfig := MkRBACConfig {
  rb_Enabled : bool;
  rb_DefaultRole : gostring;
  rb_Roles : list AdminRole;
  rb_Principals : list PrincipalDef
}.

Record AdminConfig := MkAdminConfig { ac_Token : gostring; ac_RBAC : AdminRBACConfig }.

(** principalNameRe: a letter or digit, then up to 62 letters, digits, dots,
    underscores, at signs and hyphens. *)
Definition alnum (c : Z) : bool := is_alpha c || is_digit c.
Definition name_char (c : Z) : bool := alnum c || (c =? 46) || (c =? 95) || (c =? 64) || (c =? 45).
Definition principal_name_ok (s : gostring) : bool :=
  match s with c :: t => alnum c && forallb name_char t && (length t <=? 62)%nat | [] => false end.

Definition isKnownRole (name : gostring) (customs : list AdminRole) : bool :=
  IsPredefined name || existsb (fun r => string_eqb (rl_Name r) name) customs.

Definition hasAdminPermission (roleName : gostring) (customs : list AdminRole) : bool :=
  if IsPredefined roleName then grants (default [] (PermissionsForPredefined roleName)) AdminManage
  else existsb (fun r => string_eqb (rl_Name r) roleName && grants (rl_Permissions r) AdminManage) customs.

Definition isSecretRef (tok : gostring) : bool :=
  HasPrefix tok (str "${") && Contains tok (str ":") && HasSuffix tok (str "}").

Inductive rbacCfgErr :=
| DefaultRoleUnknown
| RoleNameEmpty (i : nat) | RoleNameInvalid (i : nat) | RolePredefined (i : nat) | RoleDuplicate (i : nat)
| RoleNoPermissions (i : nat) | RoleUnknownPermission (i : nat) (p : Permission)
| PrincipalNameEmpty (i : nat) | PrincipalNameInvalid (i : nat) | PrincipalDuplicate (i : nat)
| PrincipalReserved (i : nat) | PrincipalNoRole (i : nat) | PrincipalUnknownRole (i : nat)
| PrincipalNoToken (i : nat) | PrincipalBadToken (i : nat) (e : tokenErr) | PrincipalExpired (i : nat)
| NoAdminPrincipal.

Definition when {A} (b : bool) (e : A) : list A := if b then [e] else [].

Fixpoint validate_roles (i : nat) (seen : list gostring) (l : list AdminRole) : list rbacCfgErr :=
  match l with
  | [] => []
  | role :: l =>
      if bool_decide (rl_Name role = []) then RoleNameEmpty i :: validate_roles (S i) seen l
      else
        when (negb (principal_name_ok (rl_Name role))) (RoleNameInvalid i) ++
        if IsPredefined (rl_Name role) then RolePredefined i :: validate_roles (S i) seen l
        else if bool_decide (rl_Name role ∈ seen) then RoleDuplicate i :: validate_roles (S i) seen l
        else
          when (bool_decide (rl_Permissions role = [])) (RoleNoPermissions i) ++
          concat (map (fun p => when (negb (Known p)) (RoleUnknownPermission i p)) (rl_Permissions role)) ++
          validate_roles (S i) (rl_Name role :: seen) l
  end.

(** The loop over the principals: its errors, and whether an active principal
    may administer. *)
Fixpoint validate_principals (customs : list AdminRole) (now : Z) (i : nat) (seen : list gostring) (hasAdmin : bool)
    (l : list PrincipalDef) : list rbacCfgErr * bool :=
  match l with
  | [] => ([], hasAdmin)
  | p :: l =>
      if bool_decide (def_Name p = []) then
        let '(es, a) := validate_principals customs now (S i) seen hasAdmin l in (PrincipalNameEmpty i :: es, a)
      else
        let e1 := when (negb (principal_name_ok (def_Name p))) (PrincipalNameInvalid i) in
        if bool_decide (def_Name p ∈ seen) then
          let '(es, a) := validate_principals customs now (S i) seen hasAdmin l in (e1 ++ PrincipalDuplicate i :: es, a)
        else
          let e2 := when (string_eqb (def_Name p) (str "shared")) (PrincipalReserved i) in
          let e3 := if bool_decide (def_Role p = []) then [PrincipalNoRole i]
                    else when (negb (isKnownRole (def_Role p) customs)) (PrincipalUnknownRole i) in
          let e4 := if bool_decide (def_Token p = []) then [PrincipalNoToken i]
                    else if isSecretRef (def_Token p) then []
                    else match ValidateToken (def_Token p) with Some e => [PrincipalBadToken i e] | None => [] end in
          let e5 := match def_ExpiresAt p with Some t => when (t <? now) (PrincipalExpired i) | None => [] end in
          let live := negb (def_Disabled p) && match def_ExpiresAt p with Some t => now <? t | None => true end in
          let a := hasAdmin || (live && hasAdminPermission (def_Role p) customs) in
          let '(es, a) := validate_principals customs now (S i) (def_Name p :: seen) a l in
          (e1 ++ e2 ++ e3 ++ e4 ++ e5 ++ es, a)
  end.

(** [legacyToken] is [None] when the variadic argument is absent. *)
Definition validateRBACStructure (r : AdminRBACConfig) (legacyToken : option gostring) (now : Z) : list rbacCfgErr :=
  let e0 := if bool_decide (rb_DefaultRole r = []) then []
            else when (negb (isKnownRole (rb_DefaultRole r) (rb_Roles r))) DefaultRoleUnknown in
  let e1 := validate_roles 0 [] (rb_Roles r) in
  if negb (rb_Enabled r) then e0 ++ e1
  else
    let role := if bool_decide (rb_DefaultRole r = []) then RoleAdmin else rb_DefaultRole r in
    let a0 := match legacyToken with
              | Some t => negb (bool_decide (t = [])) && hasAdminPermission role (rb_Roles r)
              | None => false
              end in
    let '(e2, a) := validate_principals (rb_Roles r) now 0 [] a0 (rb_Principals r) in
    e0 ++ e1 ++ e2 ++ when (negb a) NoAdminPrincipal.

Definition validateRBAC (r : AdminRBACConfig) (legacyToken : option gostring) (now : Z) : list rbacCfgErr :=
  if negb (rb_Enabled r) then
    if bool_decide (rb_Principals r = []) && bool_decide (rb_Roles r = []) then [] else validateRBACStructure r None now
  else validateRBACStructure r legacyToken now.

(** ** The gate *)

(** What the gate reads of a request: the Authorization field lines, the method,
    and whether a session cookie is presented with the runtime's answer to it. *)
Record adminRequest := MkAdminRequest {
  ar_Authorization : list gostring;
  ar_Method : gostring;
  ar_Cookie : bool
}.

Inductive authMode := authModeOpen | authModeLegacy | authModeRBAC | authModeBlocked.

#[export] Instance authMode_eq_dec : EqDecision authMode.
Proof. solve_decision. Defined.

Section Gate.
Context `{Sha256} `{Unicode}.
(** The session runtime of a snapshot, when it has one. *)
Variable oidc : option (adminRequest -> authErr + Identity * option Z).

Record authSnapshot := MkSnapshot { as_mode : authMode; as_cfg : AdminConfig; as_policy : option Policy }.

Definition deriveAuthSnapshot (cfg : AdminConfig) (p : option Policy) : authSnapshot :=
  let m := if match p with Some q => enabled q | None => false end then authModeRBAC
           else if rb_Enabled (ac_RBAC cfg) then authModeBlocked
           else if negb (bool_decide (ac_Token cfg = [])) then authModeLegacy
           else authModeOpen in
  MkSnapshot m cfg p.

Definition legacyIdentity (token : gostring) : Identity :=
  MkRIdentity [] [] None (str "shared") (str "admin") (str "(legacy)") (TokenDigest token) [Wildcard] true.

Definition adminAuthorization (r : adminRequest) : gostring :=
  match ar_Authorization r with [v] => v | _ => [] end.

Definition checkLegacyToken (r : adminRequest) (token : gostring) : bool :=
  if bool_decide (token = []) then true
  else
    let h := adminAuthorization r in
    (7 <? length h)%nat && EqualFold (take 7 h) (str "Bearer ") && bool_decide (drop 7 h = token).

Definition authenticateAdminRBAC (r : adminRequest) (policy : Policy) (bearer : gostring) (now : Z) : authErr + Identity :=
  if ar_Cookie r then
    match oidc with
    | None => inl ErrUnauthenticated
    | Some run =>
        match run r with
        | inl e => inl e
        | inr (id, expiry) =>
            inr (MkRIdentity (str "oidc") (ri_ProviderName id) expiry (ri_Principal id) (ri_Role id) (ri_TokenID id)
                   (ri_TokenDigest id) (ri_Permissions id) (ri_Legacy id))
        end
    end
  else Authenticate policy bearer now.

(** What the gate answers: an error status, or the handler runs with the
    identity in its context ([None] where no identity is attached). *)
Inductive outcome :=
| Unavailable
| Unauthenticated (disabled : bool)
| Forbidden (required : list Permission) (id : Identity)
| NotAllowed
| Serve (id : option Identity).

Definition authenticate_rbac (s : authSnapshot) (r : adminRequest) (now : Z) : authErr + Identity :=
  match as_policy s with
  | Some policy => authenticateAdminRBAC r policy (adminAuthorization r) now
  | None => inl ErrUnauthenticated
  end.

Definition legacy_gate (s : authSnapshot) (r : adminRequest) : outcome :=
  if checkLegacyToken r (ac_Token (as_cfg s)) then Serve (Some (legacyIdentity (ac_Token (as_cfg s))))
  else Unauthenticated false.

Definition rbac_gate (s : authSnapshot) (r : adminRequest) (now : Z) (k : Identity -> outcome) : outcome :=
  match authenticate_rbac s r now with
  | inl ErrDisabled => Unauthenticated true
  | inl _ => Unauthenticated false
  | inr id => k id
  end.

Definition requirePermission (perm : Permission) (s : authSnapshot) (r : adminRequest) (now : Z) : outcome :=
  match as_mode s with
  | authModeBlocked => Unavailable
  | authModeRBAC =>
      rbac_gate s r now (fun id => if Has id perm then Serve (Some id) else Forbidden [perm] id)
  | _ => legacy_gate s r
  end.

Definition requireAnyPermission (perms : list Permission) (s : authSnapshot) (r : adminRequest) (now : Z) : outcome :=
  match as_mode s with
  | authModeBlocked => Unavailable
  | authModeRBAC =>
      rbac_gate s r now (fun id => if existsb (Has id) perms then Serve (Some id) else Forbidden perms id)
  | _ => legacy_gate s r
  end.

Definition authWithRBAC (s : authSnapshot) (r : adminRequest) (now : Z) : outcome :=
  match as_mode s with
  | authModeBlocked => Unavailable
  | authModeRBAC => rbac_gate s r now (fun id => Serve (Some id))
  | authModeLegacy => legacy_gate s r
  | authModeOpen => Serve None
  end.

Definition requirePermissionForMethods (perms : gmap gostring Permission) (s : authSnapshot) (r : adminRequest) (now : Z) : outcome :=
  match perms !! ar_Method r with
  | None => NotAllowed
  | Some perm => requirePermission perm s r now
  end.
End Gate.

(** ** The gate is exact *)

Section Sound.
Context `{Sha256} `{Unicode}.

(** The gate on a built policy, for any continuation after authentication. *)
Lemma rbac_gate_token oidc enabled0 role custom defs tok0 t0 p cfg perm r now o :
  Build enabled0 role custom defs tok0 t0 = inr p -> ar_Cookie r = false ->
  rbac_gate oidc (MkSnapshot authModeRBAC cfg (Some p)) r now (fun id => if Has id perm then Serve (Some id) else Forbidden [perm] id) = Serve o <->
  exists tok e, ar_Authorization r = [bearerPrefix ++ tok] /\ tok <> [] /\ e ∈ all p /\ pe_tokenHash e = sha256 tok /\
    active e now = true /\ grants (pe_permissions e) perm = true /\ o = Some (identity_of e).
Proof.
  intros (_ & HI & _)%Build_built Hc. unfold rbac_gate, authenticate_rbac, authenticateAdminRBAC.
  cbn [as_policy]. rewrite Hc. destruct (Authenticate_cases p (adminAuthorization r) now HI) as (HA & HD & HF).
  assert (Hauth : forall tok : gostring, adminAuthorization r = bearerPrefix ++ tok <-> ar_Authorization r = [bearerPrefix ++ tok]).
  { intros tok. unfold adminAuthorization. destruct (ar_Authorization r) as [|v [|w l]]; [by split|by split; [intros ->|intros [= ->]]|by split]. }
  destruct (Authenticate p (adminAuthorization r) now) as [e|id] eqn:Ea.
  - split; [by destruct e|]. intros (tok & x & E & H1 & H2 & H3 & H4 & _). apply Hauth in E.
    assert (@inl authErr Identity e = inr (identity_of x)) by (apply HA; by exists tok, x). done.
  - destruct (proj1 (HA id) eq_refl) as (tok & e & E & H1 & H2 & H3 & H4 & ->). split.
    + destruct (Has (identity_of e) perm) eqn:Eh; [|done]. intros [= <-]. exists tok, e. split_and!; try done. by apply Hauth.
    + intros (tok' & e' & E' & H1' & H2' & H3' & H4' & H5' & ->). apply Hauth in E'.
      assert (Eid : @inr authErr Identity (identity_of e) = inr (identity_of e')) by (apply HA; by exists tok', e').
      injection Eid as Eid. unfold Has, identity_of. cbn [ri_Permissions].
      assert (EP : pe_permissions e = pe_permissions e') by congruence. rewrite EP, H5'. do 2 f_equal. unfold identity_of. congruence.
Qed.

(** C15: The admin gate on a built policy serves exactly who may.  A handler that
    requires a permission runs in two cases.  A request without a session cookie
    is served if and only if it has exactly one Authorization line, it is the
    Bearer scheme with the token of an active principal, and that principal's
    permissions cover the required one; the handler then sees that principal's
    identity.  A request that presents a session cookie is served if and only if
    there is an OIDC runtime, it accepts the session, and the session's
    permissions cover the required one; its Authorization line plays no part, and
    the handler sees the session's identity, marked as one with its expiry.
    Without an enabled policy nothing is served when the configuration asks for
    role-based access control. *)
Theorem admin_gate_exact (oidc : option (adminRequest -> authErr + Identity * option Z)) (cfg : AdminConfig)
    (defs : list PrincipalDef) (custom : list (gostring * list Permission)) (t0 : Z) (p : Policy)
    (perm : Permission) (r : adminRequest) (now : Z) :
  Build true (rb_DefaultRole (ac_RBAC cfg)) custom defs (ac_Token cfg) t0 = inr p ->
  (forall o, requirePermission oidc perm (deriveAuthSnapshot cfg (Some p)) r now = Serve o <->
     (ar_Cookie r = false /\
      exists tok e, ar_Authorization r = [bearerPrefix ++ tok] /\ tok <> [] /\ e ∈ all p /\ pe_tokenHash e = sha256 tok /\
        active e now = true /\ grants (pe_permissions e) perm = true /\ o = Some (identity_of e)) \/
     (ar_Cookie r = true /\
      exists run id expiry, oidc = Some run /\ run r = inr (id, expiry) /\ grants (ri_Permissions id) perm = true /\
        o = Some (MkRIdentity (str "oidc") (ri_ProviderName id) expiry (ri_Principal id) (ri_Role id) (ri_TokenID id)
                    (ri_TokenDigest id) (ri_Permissions id) (ri_Legacy id)))) /\
  (rb_Enabled (ac_RBAC cfg) = true -> forall q, match q with Some q => enabled q = false | None => True end ->
     requirePermission oidc perm (deriveAuthSnapshot cfg q) r now = Unavailable).
Proof.
  intros HB. split.
  - intros o. pose proof (proj1 (Build_built _ _ _ _ _ _ _ HB)) as Een.
    unfold requirePermission, deriveAuthSnapshot. rewrite Een. cbn [as_mode].
    destruct (ar_Cookie r) eqn:Hc; [|rewrite (rbac_gate_token oidc _ _ _ _ _ _ p cfg perm r now o HB Hc); naive_solver].
    unfold rbac_gate, authenticate_rbac, authenticateAdminRBAC. cbn [as_policy]. rewrite Hc.
    destruct oidc as [run|]; [|split; [done|]; by intros [[? _]|(_ & ? & ? & ? & ? & _)]].
    destruct (run r) as [e|[id expiry]] eqn:Er.
    + split; [by destruct e|]. intros [[? _]|(_ & run' & ? & ? & [= <-] & ? & _)]; congruence.
    + unfold Has. cbn [ri_Permissions]. split.
      * destruct (grants (ri_Permissions id) perm) eqn:Eg; [|done]. intros [= <-]. right. split; [done|]. by exists run, id, expiry.
      * intros [[? _]|(_ & run' & id' & expiry' & [= <-] & E' & Eg & ->)]; [done|]. rewrite Er in E'. injection E' as -> ->. by rewrite Eg.
  - intros Hen q Hq. unfold requirePermission, deriveAuthSnapshot. destruct q as [q|]; [rewrite Hq|]; rewrite Hen; done.
Qed.

(** ** Validation *)

Lemma when_nil {A} (b : bool) (e : A) : when b e = [] <-> b = false.
Proof. by destruct b. Qed.

Lemma resolve_aux_ok seen raw : forallb Known raw = true ->
  exists l, resolve_aux seen raw = inr l /\ forall p, p ∈ l <-> p ∈ raw /\ p ∉ seen.
Proof.
  revert seen. induction raw as [|s raw IH]; intros seen HK; cbn [resolve_aux forallb] in *.
  - exists []. split; [done|]. intros p. rewrite elem_of_nil. tauto.
  - apply andb_true_iff in HK as [Hs HK]. rewrite Hs. cbn [negb]. case_bool_decide as Hin.
    + destruct (IH seen HK) as (l & -> & Hl). exists l. split; [done|]. intros p. rewrite Hl, elem_of_cons. naive_solver.
    + destruct (IH (s :: seen) HK) as (l & -> & Hl). exists (s :: l). split; [done|]. intros p.
      rewrite elem_of_cons, Hl, !elem_of_cons. destruct (decide (p = s)) as [->|]; naive_solver.
Qed.

Lemma grants_ext l k p : (forall g, g ∈ l <-> g ∈ k) -> grants l p = grants k p.
Proof.
  intros HE. unfold grants. apply eq_true_iff_eq. rewrite !existsb_exists.
  split; intros (g & Hg & Hm); exists g; (split; [|done]); apply list_elem_of_In; apply HE; by apply list_elem_of_In.
Qed.

Lemma resolveCustom_ok raw : forallb Known raw = true ->
  exists l, resolveCustom raw = inr l /\ forall p, grants l p = grants raw p.
Proof.
  intros HK. destruct (resolve_aux_ok [] raw HK) as (l & E & Hl). exists l. split; [done|]. intros p.
  apply grants_ext. intros g. rewrite Hl. pose proof (not_elem_of_nil g). tauto.
Qed.

(** Merging known, distinct custom roles succeeds, keeps the predefined roles
    and adds each custom role with what it grants. *)
Lemma merge_roles_ok m custom :
  Forall (fun c => forallb Known c.2 = true) custom -> NoDup custom.*1 ->
  exists m', merge_roles m custom = inr m' /\
    (forall name, name ∉ custom.*1 -> m' !! name = m !! name) /\
    (forall name raw, (name, raw) ∈ custom -> exists l, m' !! name = Some l /\ forall p, grants l p = grants raw p).
Proof.
  revert m. induction custom as [|[name raw] custom IH]; intros m HK HN; cbn [merge_roles fmap list_fmap] in *.
  - exists m. split_and!; [done|done|]. by intros ? ? ?%elem_of_nil.
  - apply Forall_cons in HK as [Hr HK]. apply NoDup_cons in HN as [Hn HN]. cbn [fst snd] in *.
    destruct (resolveCustom_ok raw Hr) as (l & -> & Hl).
    destruct (IH (<[name := l]> m) HK HN) as (m' & E & H1 & H2). exists m'. split; [done|]. split.
    + intros x Hx. apply not_elem_of_cons in Hx as [Hx1 Hx2]. rewrite H1 by done. by rewrite lookup_insert_ne by congruence.
    + intros x r [[= -> ->]|Hx]%elem_of_cons; [|by apply H2]. exists l. split; [|done]. rewrite H1 by done. apply lookup_insert_eq.
Qed.

Lemma validate_roles_nil i seen l :
  validate_roles i seen l = [] ->
  Forall (fun r => IsPredefined (rl_Name r) = false /\ forallb Known (rl_Permissions r) = true /\ rl_Name r ∉ seen) l /\
  NoDup (map rl_Name l).
Proof.
  revert i seen. induction l as [|r l IH]; intros i seen; cbn [validate_roles map]; [by split; constructor|].
  case_bool_decide; [done|]. intros E. apply app_eq_nil in E as [_ E]. destruct (IsPredefined (rl_Name r)) eqn:Ep; [done|].
  case_bool_decide as Hs; [done|]. apply app_eq_nil in E as [_ E]. apply app_eq_nil in E as [EK E].
  apply IH in E as [HF HN]. rewrite Forall_forall in HF. split; [constructor; [split_and!; [done| |done]|]|].
  - apply forallb_forall. intros p Hp. destruct (Known p) eqn:Ek; [done|]. exfalso.
    assert (Hin : RoleUnknownPermission i p ∈ concat (map (fun p => when (negb (Known p)) (RoleUnknownPermission i p)) (rl_Permissions r))).
    { apply list_elem_of_In, in_concat. exists [RoleUnknownPermission i p]. split; [|by left]. apply in_map_iff. exists p. by rewrite Ek. }
    rewrite EK in Hin. by apply elem_of_nil in Hin.
  - apply Forall_forall. intros x Hx. destruct (HF x Hx) as (? & ? & Hn). by apply not_elem_of_cons in Hn as [_ Hn].
  - constructor; [|done]. intros (x & E & Hx)%list_elem_of_fmap. destruct (HF x Hx) as (_ & _ & H3). apply H3. rewrite E. left.
Qed.

(** A principal that the validator counts as able to administer. *)
Definition live_admin (customs : list AdminRole) (now : Z) (p : PrincipalDef) : bool :=
  negb (def_Disabled p) && match def_ExpiresAt p with Some t => now <? t | None => true end &&
  hasAdminPermission (def_Role p) customs.

Lemma validate_principals_nil customs now i seen a l a' :
  validate_principals customs now i seen a l = ([], a') ->
  Forall (fun p => isKnownRole (def_Role p) customs = true) l /\ a' = a || existsb (live_admin customs now) l.
Proof.
  revert i seen a. induction l as [|p l IH]; intros i seen a; cbn [validate_principals existsb].
  - intros [= <-]. by rewrite orb_false_r.
  - destruct (bool_decide (def_Name p = [])); [by destruct (validate_principals _ _ _ _ _ _)|].
    destruct (bool_decide (def_Name p ∈ seen)).
    { destruct (validate_principals _ _ _ _ _ _). intros [= E _]. by apply app_eq_nil in E as [_ ?]. }
    destruct (validate_principals customs now (S i) (def_Name p :: seen) _ l) as [es b] eqn:Ev. intros [= E <-].
    apply app_eq_nil in E as [_ E]. apply app_eq_nil in E as [_ E]. apply app_eq_nil in E as [E3 E].
    apply app_eq_nil in E as [_ E]. apply app_eq_nil in E as [_ ->]. apply IH in Ev as [HF ->]. split.
    + constructor; [|done]. destruct (bool_decide (def_Role p = [])); [done|]. apply when_nil in E3. by destruct (isKnownRole _ _).
    + unfold live_admin at 2. by rewrite orb_assoc.
Qed.

Lemma add_principals_succeeds rp defs m l :
  Forall (fun d => def_Token d <> [] /\ is_Some (rp !! def_Role d)) defs ->
  NoDup (map (fun d => tokenID (sha256 (def_Token d))) defs) ->
  (forall d, d ∈ defs -> m !! tokenID (sha256 (def_Token d)) = None) ->
  exists m' l', add_principals rp (m, l) defs = inr (m', l').
Proof.
  intros HF. revert m l. induction HF as [|d defs [Ht [perms Hr]] HF IH]; intros m l HN Hm; cbn [add_principals map] in *; [eauto|].
  rewrite bool_decide_false by done. rewrite Hr. unfold add_entry. cbn [fst snd principal_entry pe_tokenID]. unfold hashToken.
  rewrite Hm by left. apply NoDup_cons in HN as [Hd HN]. apply IH; [done|]. intros x Hx. rewrite lookup_insert_ne; [apply Hm; by right|].
  intros E. apply Hd. rewrite E. apply list_elem_of_fmap. by exists x.
Qed.

(** The role map of a validated configuration. *)
Lemma role_map_ok rs custom :
  Forall (fun r => IsPredefined (rl_Name r) = false /\ forallb Known (rl_Permissions r) = true /\ rl_Name r ∉ @nil gostring) rs ->
  NoDup (map rl_Name rs) -> custom ≡ₚ map (fun x => (rl_Name x, rl_Permissions x)) rs ->
  exists rp, buildRoleMap custom = inr rp /\
    (forall role, IsPredefined role = true -> rp !! role = predefinedRoles !! role) /\
    (forall role, isKnownRole role rs = true -> is_Some (rp !! role)) /\
    (forall role perms, hasAdminPermission role rs = true -> rp !! role = Some perms -> grants perms AdminManage = true).
Proof.
  intros HF HN HP. rewrite Forall_forall in HF.
  assert (Hfst : custom.*1 ≡ₚ map rl_Name rs).
  { rewrite HP. apply eq_subrelation; [apply _|]. clear. induction rs as [|r rs IH]; [done|]. cbn. by rewrite IH. }
  assert (Hin : forall r, r ∈ rs -> (rl_Name r, rl_Permissions r) ∈ custom).
  { intros r Hr. rewrite HP. apply list_elem_of_fmap. by exists r. }
  destruct (merge_roles_ok predefinedRoles custom) as (rp & E & H1 & H2).
  { apply Forall_forall. intros [n p] Hc. rewrite HP in Hc. apply list_elem_of_fmap in Hc as (r & [= -> ->] & Hr). by apply HF. }
  { by rewrite Hfst. }
  assert (Hpre : forall role, IsPredefined role = true -> rp !! role = predefinedRoles !! role).
  { intros role Hrole. apply H1. rewrite Hfst. intros (r & -> & Hr)%list_elem_of_fmap. destruct (HF r Hr) as [? _]. congruence. }
  exists rp. split; [done|]. split; [done|]. split.
  - intros role Hk. unfold isKnownRole in Hk. apply orb_true_iff in Hk as [Hk|Hk].
    + rewrite Hpre by done. by apply bool_decide_eq_true in Hk.
    + apply existsb_exists in Hk as (r & Hr%list_elem_of_In & En). apply bool_decide_eq_true in En as <-.
      destruct (H2 _ _ (Hin r Hr)) as (l & -> & _). eauto.
  - intros role perms Ha Er. unfold hasAdminPermission in Ha. destruct (IsPredefined role) eqn:Ep.
    + rewrite Hpre in Er by done. unfold PermissionsForPredefined in Ha. by rewrite Er in Ha.
    + apply existsb_exists in Ha as (r & Hr%list_elem_of_In & Ha). apply andb_true_iff in Ha as [En Ha].
      apply bool_decide_eq_true in En as <-. destruct (H2 _ _ (Hin r Hr)) as (l & El & Hl). rewrite Er in El. injection El as <-. by rewrite Hl.
Qed.

(** The definitions that [buildRBACPolicy] passes: those of the configuration
    with the secret references of the tokens resolved. *)
Definition resolved (c d : PrincipalDef) : Prop :=
  def_Name d = def_Name c /\ def_Role d = def_Role c /\ def_Disabled d = def_Disabled c /\
  def_ExpiresAt d = def_ExpiresAt c /\ def_Token d <> [].

Definition bearer_tokens (legacy : gostring) (defs : list PrincipalDef) : list gostring :=
  (if bool_decide (legacy = []) then [] else [legacy]) ++ map def_Token defs.

Lemma add_principals_entries rp defs m l m' l' :
  add_principals rp (m, l) defs = inr (m', l') ->
  (forall e, e ∈ l -> e ∈ l') /\
  (forall d, d ∈ defs -> exists perms, rp !! def_Role d = Some perms /\ principal_entry perms d ∈ l').
Proof.
  revert m l. induction defs as [|d defs IH]; intros m l; cbn [add_principals].
  - intros [= <- <-]. split; [done|]. intros d Hd. by apply elem_of_nil in Hd.
  - case_bool_decide; [done|]. destruct (rp !! def_Role d) as [perms|] eqn:Er; [|done]. unfold add_entry. cbn [fst snd].
    destruct (m !! _); [done|]. intros E. apply IH in E as [Hk1 Hk2]. split; [intros e He; apply Hk1, elem_of_app; by left|].
    intros x [-> |Hx]%elem_of_cons; [|by apply Hk2]. exists perms. split; [done|]. apply Hk1, elem_of_app. right. by apply list_elem_of_singleton.
Qed.

(** An admin of the configuration is an active entry of the list. *)
Lemma live_admin_entry (rs : list AdminRole) (now : Z) (rp : gmap gostring (list Permission)) (cs defs : list PrincipalDef) (l : list principalEntry) :
  Forall2 resolved cs defs ->
  (forall role perms, hasAdminPermission role rs = true -> rp !! role = Some perms -> grants perms AdminManage = true) ->
  (forall d, d ∈ defs -> exists perms, rp !! def_Role d = Some perms /\ principal_entry perms d ∈ l) ->
  existsb (live_admin rs now) cs = true -> hasActivePrincipalWith l now AdminManage = true.
Proof.
  intros HF HG Hl Ha. apply existsb_exists in Ha as (c & Hc%list_elem_of_In & Ha). apply list_elem_of_lookup in Hc as [i Hc].
  destruct (Forall2_lookup_l _ _ _ _ _ HF Hc) as (d & Hd & (_ & Er & Ed & Ee & _)). apply list_elem_of_lookup_2 in Hd.
  destruct (Hl d Hd) as (perms & Ep & Hin). apply existsb_exists. exists (principal_entry perms d). split; [by apply list_elem_of_In|].
  unfold live_admin in Ha. apply andb_true_iff in Ha as [Hlive Ha]. rewrite Er in Ep. cbn [principal_entry pe_permissions]. rewrite (HG _ _ Ha Ep), andb_true_r.
  apply andb_true_iff in Hlive as [Hk1 Hk2]. unfold active, expired, principal_entry. cbn [pe_disabled pe_expiresAt]. rewrite Ed, Ee, Hk1.
  destruct (def_ExpiresAt c); [|done]. cbn [andb]. apply negb_true_iff. apply Z.ltb_lt in Hk2. apply Z.ltb_ge. lia.
Qed.

Lemma live_admin_added (rs : list AdminRole) (now : Z) (rp : gmap gostring (list Permission)) (cs defs : list PrincipalDef) :
  Forall2 resolved cs defs ->
  (forall role perms, hasAdminPermission role rs = true -> rp !! role = Some perms -> grants perms AdminManage = true) ->
  forall m l m' l', add_principals rp (m, l) defs = inr (m', l') ->
    hasActivePrincipalWith l now AdminManage || existsb (live_admin rs now) cs = true ->
    hasActivePrincipalWith l' now AdminManage = true.
Proof.
  intros HF HG m l m' l' E Hl. apply add_principals_entries in E as [Hk1 Hk2]. apply orb_true_iff in Hl as [Hl|Hl].
  - apply existsb_exists in Hl as (e & He & Hl). apply existsb_exists. exists e. split; [|done]. apply list_elem_of_In, Hk1. by apply list_elem_of_In.
  - by eapply live_admin_entry.
Qed.

Lemma resolved_defs (rs : list AdminRole) (rp : gmap gostring (list Permission)) (cs defs : list PrincipalDef) :
  Forall2 resolved cs defs -> Forall (fun p => isKnownRole (def_Role p) rs = true) cs ->
  (forall role, isKnownRole role rs = true -> is_Some (rp !! role)) ->
  Forall (fun d => def_Token d <> [] /\ is_Some (rp !! def_Role d)) defs.
Proof.
  intros HF HK Hknown. induction HF as [|c d cs ds (_ & Er & _ & _ & Et) HF IH]; [constructor|].
  apply Forall_cons in HK as [Hk HK]. constructor; [|by apply IH]. split; [done|]. rewrite Er. by apply Hknown.
Qed.

(** A validated configuration yields a policy: when validation reports
    nothing at some instant, the construction at that instant, with the tokens
    resolved and their identifiers distinct, succeeds in whatever order the
    custom roles are iterated; the policy is enabled and the predefined roles
    keep their permissions.  So the only causes of a refused start are the ones
    validation cannot see: an empty secret or two tokens with one identifier. *)
Theorem validated_rbac_builds (r : AdminRBACConfig) (legacy : gostring) (now : Z)
    (custom : list (gostring * list Permission)) (defs : list PrincipalDef) :
  rb_Enabled r = true -> validateRBAC r (Some legacy) now = [] ->
  custom ≡ₚ map (fun x => (rl_Name x, rl_Permissions x)) (rb_Roles r) ->
  Forall2 resolved (rb_Principals r) defs ->
  NoDup (map (fun t => tokenID (sha256 t)) (bearer_tokens legacy defs)) ->
  exists p, Build true (rb_DefaultRole r) custom defs legacy now = inr p /\ enabled p = true /\
    forall role, IsPredefined role = true -> roles p !! role = predefinedRoles !! role.
Proof.
  intros Hen HV HP HF HN. unfold validateRBAC, validateRBACStructure in HV. rewrite Hen in HV. cbn [negb] in HV.
  destruct (validate_principals _ _ _ _ _ _) as [e2 a] eqn:Ev. apply app_eq_nil in HV as [E0 HV].
  apply app_eq_nil in HV as [E1 HV]. apply app_eq_nil in HV as [-> Ha]. apply when_nil, negb_false_iff in Ha as ->.
  apply validate_roles_nil in E1 as [HR HRN]. apply validate_principals_nil in Ev as [HK Ha].
  destruct (role_map_ok _ _ HR HRN HP) as (rp & ER & Hpre & Hknown & Hgrant).
  set (role := if bool_decide (rb_DefaultRole r = []) then RoleAdmin else rb_DefaultRole r) in *.
  assert (Hrole : is_Some (rp !! role)).
  { apply Hknown. unfold role. case_bool_decide; [by vm_compute|]. apply when_nil in E0. by destruct (isKnownRole _ _). }
  destruct Hrole as [lperms Hlr].
  pose proof (resolved_defs _ _ _ _ HF HK Hknown) as Hdefs.
  unfold Build, buildLegacyEntry. cbn [negb]. rewrite ER. fold role. rewrite Hlr. unfold bearer_tokens in HN.
  pose proof (live_admin_added _ now rp _ _ HF Hgrant) as Hfin.
  case_bool_decide as El; cbn [negb andb orb app map] in *.
  - rewrite map_map in HN. destruct (add_principals_succeeds rp defs ∅ [] Hdefs HN) as (m' & l' & E); [by intros; apply lookup_empty|].
    rewrite E. pose proof (Hfin _ _ _ _ E (eq_sym Ha)) as Hact. rewrite Hact. cbn [negb].
    rewrite bool_decide_false by (by intros ->). eauto.
  - rewrite map_map in HN. apply NoDup_cons in HN as [Hd HN].
    set (le := MkPrincipal (str "shared") role (hashToken legacy) (tokenID (hashToken legacy)) lperms false None true).
    unfold add_entry. cbn [fst snd]. rewrite lookup_empty. cbn [app].
    destruct (add_principals_succeeds rp defs (<[pe_tokenID le := le]> ∅) [le] Hdefs HN) as (m' & l' & E).
    { intros d Hin. rewrite lookup_insert_ne; [apply lookup_empty|]. intros Eid. apply Hd. change (pe_tokenID le) with (tokenID (sha256 legacy)) in Eid.
      rewrite Eid. apply list_elem_of_fmap. by exists d. }
    rewrite E. assert (Hact : hasActivePrincipalWith l' now AdminManage = true).
    { apply (Hfin _ _ _ _ E). destruct (existsb _ (rb_Principals r)); [apply orb_true_r|]. rewrite orb_false_r in Ha |- *.
      unfold hasActivePrincipalWith. cbn [existsb]. change (active le now) with true. cbn [andb le pe_permissions].
      by rewrite (Hgrant _ _ (eq_sym Ha) Hlr). }
    rewrite Hact. cbn [negb]. rewrite bool_decide_false by (by intros ->). eauto.
Qed.
End Sound.

(** ** Examples *)

Definition demo_admin : AdminConfig :=
  MkAdminConfig [] (MkRBACConfig true [] [MkAdminRole (str "cacher") [str "cache:*"; StatusRead]] demo_defs).

Definition demo_request (c : Z) : adminRequest := MkAdminRequest [bearerPrefix ++ demo_token c] (str "GET") false.

(** The custom role may purge the cache while its principal has not expired. *)
Lemma admin_gate_exact_witness :
  exists tok e, ar_Authorization (demo_request 98) = [bearerPrefix ++ tok] /\ e ∈ all demo_rbac /\
    active e 40 = true /\ grants (pe_permissions e) CachePurge = true.
Proof.
  destruct (admin_gate_exact (H := demo_sha256) (H0 := no_unicode) None demo_admin demo_defs demo_roles 10 demo_rbac CachePurge (demo_request 98) 40
    ltac:(vm_compute; reflexivity)) as [HS _].
  assert (HG : requirePermission (H := demo_sha256) (H0 := no_unicode) None CachePurge (deriveAuthSnapshot demo_admin (Some demo_rbac)) (demo_request 98) 40 =
     Serve (Some (MkRIdentity [] [] None (str "view") (str "cacher") (str "626262626262") (concat (replicate 32 (str "62"))) [str "cache:*"; StatusRead] false)))
    by (vm_compute; reflexivity).
  destruct (proj1 (HS _) HG) as [(_ & tok & e & H1 & _ & H2 & _ & H3 & H4 & _)|[? _]]; [eauto 8|discriminate].
Defined.

Lemma validated_rbac_builds_witness :
  exists p, Build (H := demo_sha256) true [] demo_roles demo_defs [] 10 = inr p /\ enabled p = true.
Proof.
  destruct (validated_rbac_builds (H := demo_sha256) (ac_RBAC demo_admin) [] 10 demo_roles demo_defs eq_refl
    ltac:(vm_compute; reflexivity) (reflexivity _)) as (p & HB & HE & _).
  - repeat constructor; done.
  - vm_compute. repeat constructor; rewrite list_elem_of_In; simpl; intuition discriminate.
  - exists p. exact (conj HB HE).
Defined.
