(* ===== verification/Generations.v ===== *)
(** * Handler generations and their retirement

    internal/server/server.go (handlerGen, acquireGen, release, retireGen,
    doRetire, dynamicHandler), the publication order of
    internal/server/reload_plan.go and the lease group of
    internal/background/group.go and lease.go, as interleavings of their atomic
    actions.  A request loads the current generation, adds itself to its
    in-flight counter, re-reads the retiring flag and either serves or releases
    and retries; background work does the same under the group's mutex and is
    refused instead.  A reload stores the new generation, marks the old one,
    reads its counter and closes its resources at once, when it drains, or when
    the grace period ends.  The handlers themselves, and what closing does, are
    not modelled. *)

From S2P Require Import Prelude.

(** ** State *)

(** How a generation came to be closed: its counter was read as zero, it was
    reported drained, or the grace period ended. *)
Inductive mode := Immediate | Drained | Grace.

(** Where [retireGen] is with a generation. *)
Inductive stage := Live | Marked | Waiting | Retiring (m : mode) | Canceled (m : mode) | Closed (m : mode).

(** Whether the generation's secrets are masked: as those of a generation in
    use, not any more, or for the rest of the process. *)
Inductive masking := Active | Removed | Tombstone.

Record handlerGen := MkGen {
  inflight : Z;
  retiring : bool;
  drained : bool;
  bg_mu : bool;
  bg_canceled : bool;
  bg_active : Z;
  g_stage : stage;
  g_masking : masking
}.

Definition newHandlerGen : handlerGen := MkGen 0 false false false false 0 Live Active.

(** What a goroutine does after [release]. *)
Inductive cont := Finish | Retry | Refuse.

(** Where a goroutine is.  [PIdle] has nothing to do; the [P] states are a
    request in [dynamicHandler] and the [B] states a background operation in
    [Group.Acquire] and its release. *)
Inductive pc :=
| PIdle
| PStart                          (* acquireGen, before loading the current generation *)
| PLoaded (g : nat)               (* before inflight.Add(1) *)
| PAdded (g : nat)                (* before retiring.Load() *)
| PHold (g : nat)                 (* serving *)
| PRel (g : nat) (k : cont)       (* in release, before inflight.Add(-1) *)
| PZero (g : nat) (k : cont)      (* Add(-1) returned 0; before retiring.Load() *)
| BWant (g : nat)                 (* before mu.Lock() *)
| BLocked (g : nat)               (* in admitBackground, before inflight.Add(1) *)
| BAdded (g : nat)                (* before retiring.Load() *)
| BRefused (g : nat)              (* before mu.Unlock() *)
| BHold (g : nat)                 (* running *)
| BEnding (g : nat).              (* released its context; before mu.Lock() *)

#[export] Instance cont_eq_dec : EqDecision cont.
Proof. solve_decision. Defined.
#[export] Instance mode_eq_dec : EqDecision mode.
Proof. solve_decision. Defined.
#[export] Instance stage_eq_dec : EqDecision stage.
Proof. solve_decision. Defined.
#[export] Instance pc_eq_dec : EqDecision pc.
Proof. solve_decision. Defined.

Record sys := MkSys {
  gens : list handlerGen;
  current : option nat;
  threads : list pc;
  shutdown : bool
}.

(** ** Steps *)

Inductive label :=
| LArrive (t : nat) | LLoad (t : nat) | LAdd (t : nat) | LCheck (t : nat) | LFinish (t : nat)
| LDec (t : nat) | LZero (t : nat)
| LWant (t g : nat) | LLock (t : nat) | LBAdd (t : nat) | LBCheck (t : nat) | LUnlock (t : nat)
| LBEnd (t : nat) | LBDrop (t : nat)
| LInstall | LMark (g : nat) | LProbe (g : nat) | LDrain (g : nat) | LGrace (g : nat)
| LCancel (g : nat) | LClose (g : nat)
| LUnmask (g : nat) | LUnmaskDrained (g : nat) | LUnmaskGrace (g : nat)
| LShutdown.

Definition set_inflight (n : Z) (x : handlerGen) : handlerGen :=
  MkGen n (retiring x) (drained x) (bg_mu x) (bg_canceled x) (bg_active x) (g_stage x) (g_masking x).
Definition set_drained (x : handlerGen) : handlerGen :=
  MkGen (inflight x) (retiring x) true (bg_mu x) (bg_canceled x) (bg_active x) (g_stage x) (g_masking x).
Definition set_mu (b : bool) (x : handlerGen) : handlerGen :=
  MkGen (inflight x) (retiring x) (drained x) b (bg_canceled x) (bg_active x) (g_stage x) (g_masking x).
Definition set_bg (n : Z) (x : handlerGen) : handlerGen :=
  MkGen (inflight x) (retiring x) (drained x) (bg_mu x) (bg_canceled x) n (g_stage x) (g_masking x).
Definition set_stage (st : stage) (x : handlerGen) : handlerGen :=
  MkGen (inflight x) (retiring x) (drained x) (bg_mu x) (bg_canceled x) (bg_active x) st (g_masking x).
Definition set_masking (m : masking) (x : handlerGen) : handlerGen :=
  MkGen (inflight x) (retiring x) (drained x) (bg_mu x) (bg_canceled x) (bg_active x) (g_stage x) m.
Definition mark (x : handlerGen) : handlerGen :=
  MkGen (inflight x) true (drained x) (bg_mu x) (bg_canceled x) (bg_active x) Marked (g_masking x).
Definition cancel (m : mode) (x : handlerGen) : handlerGen :=
  MkGen (inflight x) (retiring x) (drained x) (bg_mu x) true (bg_active x) (Canceled m) (g_masking x).

(** Where [release] returns to: the handler, the loop of [acquireGen], or
    [admitBackground]. *)
Definition resume (g : nat) (k : cont) : pc :=
  match k with Finish => PIdle | Retry => PStart | Refuse => BRefused g end.

(** Goroutine [t] moves to [p], generation [g] becomes [x]. *)
Definition move (t : nat) (p : pc) (s : sys) : sys := MkSys (gens s) (current s) (<[t := p]> (threads s)) (shutdown s).
Definition put (g : nat) (x : handlerGen) (s : sys) : sys := MkSys (<[g := x]> (gens s)) (current s) (threads s) (shutdown s).

(** The goroutines that [retireGen] starts exist unless the counter was zero. *)
Definition waited (st : stage) : bool :=
  match st with Waiting => true | Retiring m | Canceled m | Closed m => negb (bool_decide (m = Immediate)) | _ => false end.

(** [acquireGen] in [dynamicHandler]: load, add, re-read the flag. *)
Definition acquire_step (s : sys) (t : nat) (l : label) (p : pc) : option sys :=
  match l, p with
  | LArrive _, PIdle => Some (move t PStart s)
  | LLoad _, PStart => match current s with None => Some (move t PIdle s) | Some g => Some (move t (PLoaded g) s) end
  | LAdd _, PLoaded g => x ← gens s !! g; Some (move t (PAdded g) (put g (set_inflight (inflight x + 1) x) s))
  | LCheck _, PAdded g =>
      x ← gens s !! g;
      Some (move t (if retiring x then PRel g Retry else PHold g) s)
  | LFinish _, PHold g => Some (move t (PRel g Finish) s)
  | _, _ => None
  end.

(** [release]: the decrement, and the flag read after a decrement to zero. *)
Definition release_step (s : sys) (t : nat) (l : label) (p : pc) : option sys :=
  match l, p with
  | LDec _, PRel g k =>
      x ← gens s !! g;
      let n := inflight x - 1 in
      Some (move t (if n =? 0 then PZero g k else resume g k) (put g (set_inflight n x) s))
  | LZero _, PZero g k =>
      x ← gens s !! g;
      Some (move t (resume g k) (if retiring x then put g (set_drained x) s else s))
  | _, _ => None
  end.

(** [admitBackground], under the group's lock. *)
Definition admit_step (s : sys) (t : nat) (l : label) (p : pc) : option sys :=
  match l, p with
  | LBAdd _, BLocked g => x ← gens s !! g; Some (move t (BAdded g) (put g (set_inflight (inflight x + 1) x) s))
  | LBCheck _, BAdded g =>
      x ← gens s !! g;
      if retiring x then Some (move t (PRel g Refuse) s)
      else Some (move t (BHold g) (put g (set_mu false (set_bg (bg_active x + 1) x)) s))
  | _, _ => None
  end.

(** [Group.Acquire] around it and the release function it returns. *)
Definition lease_step (s : sys) (t : nat) (l : label) (p : pc) : option sys :=
  match l, p with
  | LWant _ g, PIdle => if bool_decide (is_Some (gens s !! g)) then Some (move t (BWant g) s) else None
  | LLock _, BWant g =>
      x ← gens s !! g;
      if bg_mu x then None
      else if bg_canceled x || shutdown s then Some (move t PIdle s)
      else Some (move t (BLocked g) (put g (set_mu true x) s))
  | LBAdd _, _ | LBCheck _, _ => admit_step s t l p
  | LUnlock _, BRefused g => x ← gens s !! g; Some (move t PIdle (put g (set_mu false x) s))
  | LBEnd _, BHold g => Some (move t (BEnding g) s)
  | LBDrop _, BEnding g =>
      x ← gens s !! g;
      if bg_mu x then None else Some (move t (PRel g Finish) (put g (set_bg (bg_active x - 1) x) s))
  | _, _ => None
  end.

Definition thread_step (s : sys) (t : nat) (l : label) : option sys :=
  p ← threads s !! t;
  match l with
  | LArrive _ | LLoad _ | LAdd _ | LCheck _ | LFinish _ => acquire_step s t l p
  | LDec _ | LZero _ => release_step s t l p
  | LWant _ _ | LLock _ | LBAdd _ | LBCheck _ | LUnlock _ | LBEnd _ | LBDrop _ => lease_step s t l p
  | _ => None
  end.

(** The reload: storing a generation, and the steps of [retireGen] for [g]. *)
Definition retire_step (s : sys) (g : nat) (l : label) : option sys :=
  x ← gens s !! g;
  match l, g_stage x with
  | LMark _, Live => if bool_decide (current s = Some g) then None else Some (put g (mark x) s)
  | LProbe _, Marked => Some (put g (set_stage (if inflight x =? 0 then Retiring Immediate else Waiting) x) s)
  | LDrain _, Waiting => if drained x then Some (put g (set_stage (Retiring Drained) x) s) else None
  | LGrace _, Waiting => Some (put g (set_stage (Retiring Grace) x) s)
  | LCancel _, Retiring m => if bg_mu x then None else Some (put g (cancel m x) s)
  | LClose _, Canceled m => Some (put g (set_stage (Closed m) x) s)
  | LUnmask _, Closed Immediate => Some (put g (set_masking Removed x) s)
  | LUnmaskDrained _, st =>
      if waited st && drained x && match g_masking x with Active => true | _ => false end
      then Some (put g (set_masking Removed x) s) else None
  | LUnmaskGrace _, st =>
      if waited st && match g_masking x with Active => true | _ => false end
      then Some (put g (set_masking Tombstone x) s) else None
  | _, _ => None
  end.

Definition exec (s : sys) (l : label) : option sys :=
  match l with
  | LArrive t | LLoad t | LAdd t | LCheck t | LFinish t | LDec t | LZero t
  | LWant t _ | LLock t | LBAdd t | LBCheck t | LUnlock t | LBEnd t | LBDrop t => thread_step s t l
  | LInstall => Some (MkSys (gens s ++ [newHandlerGen]) (Some (length (gens s))) (threads s) (shutdown s))
  | LMark g | LProbe g | LDrain g | LGrace g | LCancel g | LClose g
  | LUnmask g | LUnmaskDrained g | LUnmaskGrace g => retire_step s g l
  | LShutdown => Some (MkSys (gens s) (current s) (threads s) true)
  end.

(** [n] goroutines and no generation yet. *)
Definition init (n : nat) : sys := MkSys [] None (replicate n PIdle) false.

(** ** The invariant of every run *)

(** The generation a goroutine refers to. *)
Definition pc_gen (p : pc) : option nat :=
  match p with
  | PIdle | PStart => None
  | PLoaded g | PAdded g | PHold g | PRel g _ | PZero g _ | BWant g | BLocked g | BAdded g | BRefused g | BHold g | BEnding g => Some g
  end.

Definition on (g : nat) (p : pc) : bool := bool_decide (pc_gen p = Some g).

(** Counted in the in-flight counter of [g]. *)
Definition charged (g : nat) (p : pc) : Z :=
  match p with PAdded _ | PHold _ | PRel _ _ | BAdded _ | BHold _ | BEnding _ => Z.b2z (on g p) | _ => 0 end.
(** Counted as an active background operation of [g]. *)
Definition leased (g : nat) (p : pc) : Z := match p with BHold _ | BEnding _ => Z.b2z (on g p) | _ => 0 end.
(** Holding the mutex of the lease group of [g]. *)
Definition locking (g : nat) (p : pc) : Z :=
  match p with BLocked _ | BAdded _ | PRel _ Refuse | PZero _ Refuse | BRefused _ => Z.b2z (on g p) | _ => 0 end.
(** Using the resources of [g]. *)
Definition serving (g : nat) (p : pc) : bool := match p with PHold _ | BHold _ | BEnding _ => on g p | _ => false end.

Definition in_use (s : sys) (g : nat) : Prop := exists t p, threads s !! t = Some p /\ serving g p = true.
Definition at_zero (s : sys) (g : nat) : Prop := exists t k, threads s !! t = Some (PZero g k).

Definition stage_mode (st : stage) : option mode := match st with Retiring m | Canceled m | Closed m => Some m | _ => None end.
Definition stage_canceled (st : stage) : bool := match st with Canceled _ | Closed _ => true | _ => false end.

Record gen_inv (s : sys) (g : nat) (x : handlerGen) : Prop := {
  gi_inflight : inflight x = total (charged g) (threads s);
  gi_active : bg_active x = total (leased g) (threads s);
  gi_mu : Z.b2z (bg_mu x) = total (locking g) (threads s);
  gi_retiring : retiring x = false <-> g_stage x = Live;
  gi_immediate : stage_mode (g_stage x) = Some Immediate -> ~ in_use s g;
  gi_waiting : g_stage x = Waiting -> inflight x = 0 -> drained x = true \/ at_zero s g;
  gi_drained : drained x = true -> retiring x = true;
  gi_mode : stage_mode (g_stage x) = Some Drained -> drained x = true;
  gi_canceled : bg_canceled x = stage_canceled (g_stage x);
  gi_masking : g_masking x = Removed -> stage_mode (g_stage x) = Some Immediate \/ drained x = true
}.

Record inv (s : sys) : Prop := {
  iv_gen g x : gens s !! g = Some x -> gen_inv s g x;
  iv_alloc t p g : threads s !! t = Some p -> pc_gen p = Some g -> is_Some (gens s !! g);
  iv_current g : current s = Some g -> exists x, gens s !! g = Some x /\ g_stage x = Live
}.

(** What a goroutine's step from [p] to [p'] may do to a generation. *)
Record gen_move (g : nat) (p p' : pc) (x x' : handlerGen) : Prop := {
  gm_inflight : inflight x' = inflight x - charged g p + charged g p';
  gm_active : bg_active x' = bg_active x - leased g p + leased g p';
  gm_mu : Z.b2z (bg_mu x') = Z.b2z (bg_mu x) - locking g p + locking g p';
  gm_retiring : retiring x' = retiring x;
  gm_stage : g_stage x' = g_stage x;
  gm_canceled : bg_canceled x' = bg_canceled x;
  gm_masking : g_masking x' = g_masking x;
  gm_drained : drained x' = drained x \/ drained x' = true /\ retiring x = true;
  gm_using : serving g p' = true -> serving g p = true \/ retiring x = false;
  gm_zero : retiring x = true -> inflight x' = 0 ->
    drained x' = true \/ (exists k, p' = PZero g k) \/ (inflight x = 0 /\ forall k, p <> PZero g k);
  gm_at_zero : forall k, p' = PZero g k -> inflight x' = 0;
  gm_change : inflight x' = inflight x \/ charged g p = 1 \/ p = PLoaded g \/ p = BLocked g;
  gm_close : drained x' = drained x \/ exists k, p = PZero g k
}.

(** A step of goroutine [t]. *)
Definition moves (t : nat) (s s' : sys) : Prop :=
  exists p p', threads s !! t = Some p /\ threads s' = <[t := p']> (threads s) /\ current s' = current s /\
    (forall g x', gens s' !! g = Some x' -> exists x, gens s !! g = Some x /\ gen_move g p p' x x') /\
    (forall g, is_Some (gens s !! g) -> is_Some (gens s' !! g)) /\
    (forall g, pc_gen p' = Some g -> is_Some (gens s !! g)).

Lemma gen_move_other g p p' x : pc_gen p <> Some g -> pc_gen p' <> Some g -> gen_move g p p' x x.
Proof.
  intros H1 H2. assert (E1 : on g p = false) by (unfold on; by rewrite bool_decide_false).
  assert (E2 : on g p' = false) by (unfold on; by rewrite bool_decide_false).
  assert (HC : forall p, on g p = false -> charged g p = 0 /\ leased g p = 0 /\ locking g p = 0 /\ serving g p = false).
  { intros q E. unfold charged, leased, locking, serving. rewrite E. destruct q as [| | | | |? []|? []| | | | | |]; done. }
  destruct (HC p E1) as (A1 & A2 & A3 & A4), (HC p' E2) as (B1 & B2 & B3 & B4).
  split; try done; rewrite ?A1, ?A2, ?A3, ?A4, ?B1, ?B2, ?B3, ?B4; try done; try lia; try (by left).
  - intros _ E. right. right. split; [done|]. intros k ->. by apply H1.
  - intros k ->. by destruct H2.
Qed.

Lemma moves_inv t s s' : inv s -> moves t s s' -> inv s'.
Proof.
  intros [IG IA IC] (p & p' & Ht & Et & Ec & HM & HS & Hp'). pose proof (lookup_lt_Some _ _ _ Ht) as Hlt. split; rewrite ?Et, ?Ec.
  - intros g x' Hx'. destruct (HM _ _ Hx') as (x & Hx & M). destruct (IG _ _ Hx) as [G1 G2 G3 G4 G5 G6 G7 G8 G9 G10], M as [M1 M2 M3 M4 M5 M6 M7 M8 M9 M10 _ _ _].
    assert (HU : retiring x = true -> in_use s' g -> in_use s g).
    { intros Hr (u & q & Hq & Hu). rewrite Et in Hq. destruct (decide (u = t)) as [->|Hne].
      - rewrite list_lookup_insert_eq in Hq by done. injection Hq as <-. destruct (M9 Hu) as [?|?]; [by exists t, p|congruence].
      - rewrite list_lookup_insert_ne in Hq by done. by exists u, q. }
    assert (HR : stage_mode (g_stage x) <> None \/ g_stage x = Waiting -> retiring x = true).
    { intros HS'. destruct (retiring x) eqn:E; [done|]. pose proof (proj1 G4 eq_refl) as EL. rewrite EL in HS'. by destruct HS' as [[]|]. }
    split; rewrite ?M4, ?M5, ?M6, ?M7, ?Et; try done.
    + rewrite (total_insert _ _ p), M1, G1 by done. lia.
    + rewrite (total_insert _ _ p), M2, G2 by done. lia.
    + rewrite (total_insert _ _ p), M3, G3 by done. lia.
    + intros E Hu. apply (G5 E). apply HU; [|done]. apply HR. left. by rewrite E.
    + intros E E0. assert (Hr : retiring x = true) by (apply HR; by right). destruct (M10 Hr E0) as [?|[[k ->]|[E1 Hn]]]; [by left| |].
      * right. exists t, k. rewrite Et. by rewrite list_lookup_insert_eq.
      * destruct (G6 E E1) as [Hd|(u & k & Hu)]; [destruct M8 as [->|[-> _]]; by left|]. right. exists u, k. rewrite Et.
        rewrite list_lookup_insert_ne; [done|]. intros ->. rewrite Ht in Hu. injection Hu as ->. by apply (Hn k).
    + intros E. destruct M8 as [M8|[_ ?]]; [apply G7; congruence|done].
    + intros E. destruct M8 as [-> |[-> _]]; auto.
    + intros E. destruct (G10 E) as [?|Hd]; [by left|]. right. destruct M8 as [-> |[-> _]]; done.
  - intros u q g Hq Hg. apply HS. destruct (decide (u = t)) as [->|Hne].
    + rewrite list_lookup_insert_eq in Hq by done. injection Hq as <-. by apply Hp'.
    + rewrite list_lookup_insert_ne in Hq by done. by eapply IA.
  - intros g Hg. destruct (IC g Hg) as (x & Hx & Hl). destruct (HS g (ex_intro _ _ Hx)) as [x' Hx']. exists x'. split; [done|].
    destruct (HM _ _ Hx') as (y & Hy & M). rewrite (gm_stage _ _ _ _ _ M). congruence.
Qed.

Definition mentions (g : nat) (p : pc) : Prop := pc_gen p = None \/ pc_gen p = Some g.

Lemma moves_put s t p p' g x x' :
  threads s !! t = Some p -> gens s !! g = Some x -> mentions g p -> mentions g p' -> gen_move g p p' x x' ->
  moves t s (move t p' (put g x' s)).
Proof.
  intros Ht Hx Hp Hp' HM. exists p, p'. unfold move, put. cbn [gens current threads]. split_and!; [done..| | |].
  - intros g' y Hy. destruct (decide (g' = g)) as [->|Hne].
    + rewrite list_lookup_insert_eq in Hy by (by eapply lookup_lt_Some). injection Hy as <-. by exists x.
    + rewrite list_lookup_insert_ne in Hy by done. exists y. split; [done|]. apply gen_move_other; unfold mentions in *; destruct Hp, Hp'; congruence.
  - intros g' Hg'. destruct (decide (g' = g)) as [->|Hne]; [rewrite list_lookup_insert_eq; [done|by eapply lookup_lt_Some]|by rewrite list_lookup_insert_ne].
  - intros g' Hg'. unfold mentions in Hp'. destruct Hp'; [congruence|]. assert (g' = g) as -> by congruence. by exists x.
Qed.

Lemma moves_same s t p p' g :
  threads s !! t = Some p -> mentions g p -> mentions g p' -> (pc_gen p' = Some g -> is_Some (gens s !! g)) ->
  (forall x, gens s !! g = Some x -> gen_move g p p' x x) -> moves t s (move t p' s).
Proof.
  intros Ht Hp Hp' Ha HM. exists p, p'. unfold move. cbn [gens current threads]. split_and!; [done..| |done|].
  - intros g' y Hy. exists y. split; [done|]. destruct (decide (g' = g)) as [->|Hne]; [by apply HM|].
    apply gen_move_other; unfold mentions in *; destruct Hp, Hp'; congruence.
  - intros g' Hg'. unfold mentions in Hp'. destruct Hp'; [congruence|]. assert (g' = g) as -> by congruence. by apply Ha.
Qed.

(** Moves between states that mention one generation, by computation. *)
Lemma on_same g p : pc_gen p = Some g -> on g p = true.
Proof. intros E. unfold on. by rewrite bool_decide_true. Qed.

Ltac gmove :=
  split; unfold charged, leased, locking, serving; rewrite ?on_same by done; cbn;
  try done; try lia; try (by left); try (intros; congruence); try (by right);
  try (by right; left); try (by right; right; left); try (by right; right; right); try (right; by eexists);
  try (intros; first [by left | right; left; eexists; reflexivity | right; right; split; [lia|intros; discriminate] | exfalso; lia]).

Lemma charged_nonneg g p : 0 <= charged g p.
Proof. unfold charged. destruct p; try done; destruct (on _ _); done. Qed.

Lemma locking_nonneg g p : 0 <= locking g p.
Proof. unfold locking. destruct p as [| | | | |? []|? []| | | | | |]; try done; destruct (on _ _); done. Qed.

Lemma thread_step_moves s t l s' : inv s -> thread_step s t l = Some s' -> moves t s s'.
Proof.
  intros HI. pose proof HI as [IG IA IC].
  assert (HN : forall g x, gens s !! g = Some x -> 0 <= inflight x).
  { intros g x Hx. rewrite (gi_inflight _ _ _ (IG g x Hx)). apply total_nonneg, charged_nonneg. }
  unfold thread_step, acquire_step, release_step, lease_step, admit_step.
  destruct (threads s !! t) as [p|] eqn:Ht; [|done]. cbn [mbind option_bind].
  assert (HL : forall g x, gens s !! g = Some x -> locking g p = 1 -> bg_mu x = true).
  { intros g x Hx HL. pose proof (gi_mu _ _ _ (IG g x Hx)) as Hm. pose proof (total_lookup (locking g) t p _ (locking_nonneg g) Ht). destruct (bg_mu x); [done|]. cbn in Hm. lia. }
  assert (HA : forall a, pc_gen p = Some a -> exists x, gens s !! a = Some x) by (intros a Ha; by eapply IA).
  destruct l; destruct p as [| |a|a|a|a k|a k|a|a|a|a|a|a]; try done;
    try (destruct (HA a eq_refl) as [x Hx]; rewrite ?Hx; cbn [mbind option_bind]; specialize (HN a x Hx); specialize (HL a x Hx); unfold locking in HL; rewrite ?on_same in HL by done).
  - intros [= <-]. apply (moves_same s t PIdle PStart 0); try done; try (by left). intros x _. gmove.
  - destruct (current s) as [g|] eqn:Ec; intros [= <-].
    + apply (moves_same s t PStart (PLoaded g) g); try done; [by left|by right| |intros x _; gmove]. intros _. destruct (IC g eq_refl) as (x & -> & _). done.
    + apply (moves_same s t PStart PIdle 0); try done; try (by left). intros x _. gmove.
  - intros [= <-]. apply (moves_put s t (PLoaded a) _ a x); try done; try (by right). gmove.
  - intros [= <-]. apply (moves_same s t (PAdded a) _ a); try done; [by right|by destruct (retiring x); right|].
    intros y Hy. assert (y = x) as -> by congruence. destruct (retiring x) eqn:Er; gmove.
  - intros [= <-]. apply (moves_same s t (PHold a) _ a); try done; try (by right). intros y Hy. gmove.
  - intros [= <-]. destruct (inflight x - 1 =? 0) eqn:E0.
    + apply (moves_put s t (PRel a k) _ a x); try done; try (by right). destruct k; gmove.
    + apply (moves_put s t (PRel a k) _ a x); try done; [by right|by destruct k; [left|left|right]|]. destruct k; gmove.
  - intros [= <-]. assert (HM : mentions a (resume a k)) by (by destruct k; [left|left|right]).
    assert (HS : mentions a (PZero a k)) by (by right). destruct (retiring x) eqn:Er.
    + apply (moves_put s t (PZero a k) _ a x); try done. destruct k; gmove.
    + apply (moves_same s t (PZero a k) _ a); try done. intros y Hy. assert (y = x) as -> by congruence. destruct k; gmove; congruence.
  - case_bool_decide as Hg; [|done]. intros [= <-]. apply (moves_same s t PIdle (BWant g) g); try done; [by left|by right|]. intros x _. gmove.
  - destruct (bg_mu x) eqn:Em; [done|]. destruct (_ || _); intros [= <-].
    + apply (moves_same s t (BWant a) PIdle a); try done; [by right|by left|]. intros y _. gmove.
    + apply (moves_put s t (BWant a) _ a x); try done; try (by right). gmove. by rewrite Em.
  - intros [= <-]. apply (moves_put s t (BLocked a) _ a x); try done; try (by right). gmove.
  - destruct (retiring x) eqn:Er; intros [= <-].
    + apply (moves_same s t (BAdded a) _ a); try done; try (by right). intros y _. gmove.
    + apply (moves_put s t (BAdded a) _ a x); try done; try (by right). gmove. by rewrite HL.
  - intros [= <-]. apply (moves_put s t (BRefused a) _ a x); try done; [by right|by left|]. gmove. by rewrite HL.
  - intros [= <-]. apply (moves_same s t (BHold a) _ a); try done; try (by right). intros y Hy. gmove.
  - destruct (bg_mu x) eqn:Em; [done|]. intros [= <-]. apply (moves_put s t (BEnding a) _ a x); try done; try (by right). gmove.
Qed.

Lemma gen_inv_threads s s' g x : threads s' = threads s -> gen_inv s g x -> gen_inv s' g x.
Proof.
  intros E [G1 G2 G3 G4 G5 G6 G7 G8 G9 G10]. unfold in_use, at_zero in *. split; unfold in_use, at_zero; rewrite ?E; done.
Qed.

Lemma put_inv s g x x' :
  inv s -> gens s !! g = Some x -> gen_inv s g x' -> (current s = Some g -> g_stage x' = Live) -> inv (put g x' s).
Proof.
  intros [IG IA IC] Hx HG Hc. pose proof (lookup_lt_Some _ _ _ Hx) as Hlt. split; unfold put; cbn [gens threads current].
  - intros g' y Hy. apply (gen_inv_threads s); [done|]. destruct (decide (g' = g)) as [->|Hne].
    + rewrite list_lookup_insert_eq in Hy by done. by injection Hy as <-.
    + rewrite list_lookup_insert_ne in Hy by done. by apply IG.
  - intros t p g' Ht Hp. destruct (decide (g' = g)) as [->|Hne]; [by rewrite list_lookup_insert_eq|]. rewrite list_lookup_insert_ne by done. by eapply IA.
  - intros g' Hg'. destruct (decide (g' = g)) as [->|Hne].
    + exists x'. rewrite list_lookup_insert_eq by done. auto.
    + rewrite list_lookup_insert_ne by done. by apply IC.
Qed.

(** A generation whose counter is zero is not in use. *)
Lemma idle_unused s g x : gen_inv s g x -> inflight x = 0 -> ~ in_use s g.
Proof.
  intros HG E0 (t & p & Ht & Hs). pose proof (gi_inflight _ _ _ HG) as Ei. pose proof (total_lookup (charged g) t p _ (charged_nonneg g) Ht) as Hl.
  assert (charged g p = 1); [|lia]. unfold serving in Hs. unfold charged. destruct p; try done; by rewrite Hs.
Qed.

Ltac retire_auto G4 G10 :=
  try done; try lia; try (rewrite G4; split; intros; discriminate); try (intros; by left); try (intros; by right);
  try (let HR := fresh in intros HR; destruct (G10 HR); [done|by right]).

Lemma retire_step_inv s g l s' : inv s -> retire_step s g l = Some s' -> inv s'.
Proof.
  intros HI. unfold retire_step. destruct (gens s !! g) as [x|] eqn:Hx; [|done]. cbn [mbind option_bind].
  pose proof (iv_gen _ HI g x Hx) as HG. pose proof HG as [G1 G2 G3 G4 G5 G6 G7 G8 G9 G10].
  assert (HC : g_stage x <> Live -> current s <> Some g).
  { intros Hn Hc. destruct (iv_current _ HI g Hc) as (y & Hy & Hl). congruence. }
  assert (HP : forall x', gen_inv s g x' -> (g_stage x <> Live \/ current s <> Some g) -> inv (put g x' s)).
  { intros x' HG' Hor. eapply put_inv; [done|done|done|]. intros Hc. exfalso. destruct Hor as [Hn|Hn]; [by apply HC|done]. }
  assert (HM : forall m, waited (g_stage x) = true -> (m = Removed -> drained x = true) -> inv (put g (set_masking m x) s)).
  { intros m Hw Hd. apply HP; [|left; by intros E; rewrite E in Hw]. split; cbn; try done. intros E. right. by apply Hd. }
  destruct l; try (destruct (waited (g_stage x)); [|done]; cbn [andb]; destruct (drained x); cbn [andb]; try done;
                   destruct (g_masking x); try done; intros [= <-]; by apply HM);
    try (destruct (g_stage x) as [| | |m|m|m] eqn:Es; try done).
  - case_bool_decide as Ec; [done|]. intros [= <-]. apply HP; [|by right]. split; cbn; try done.
  - intros [= <-]. apply HP; [|by left]. destruct (inflight x =? 0) eqn:E0; split; cbn; retire_auto G4 G10.
    intros _. apply (idle_unused s g x HG). lia.
  - destruct (drained x) eqn:Ed; [|done]. intros [= <-]. apply HP; [|by left]. split; cbn; retire_auto G4 G10. intros _. by apply G7.
  - intros [= <-]. apply HP; [|by left]. split; cbn; retire_auto G4 G10.
  - destruct (bg_mu x) eqn:Em; [done|]. intros [= <-]. apply HP; [|by left]. split; cbn; rewrite ?Em; retire_auto G4 G10.
  - intros [= <-]. apply HP; [|by left]. split; cbn; retire_auto G4 G10.
  - destruct m; try done. intros [= <-]. apply HP; [|by left]. split; cbn; rewrite ?Es; retire_auto G4 G10.
Qed.

Lemma install_inv s : inv s -> inv (MkSys (gens s ++ [newHandlerGen]) (Some (length (gens s))) (threads s) (shutdown s)).
Proof.
  intros [IG IA IC].
  assert (HZ : forall f : nat -> pc -> Z, (forall g p, on g p = false -> f g p = 0) -> total (f (length (gens s))) (threads s) = 0).
  { intros f Hf. apply total_zero. intros t p Ht. apply Hf. unfold on. apply bool_decide_eq_false. intros Hg.
    destruct (IA t p _ Ht Hg) as [y Hy]. apply lookup_lt_Some in Hy. lia. }
  split; cbn [gens threads current].
  - intros g x [Hx|[Hl Hx]]%lookup_app_Some; [apply (gen_inv_threads s); [done|by apply IG]|].
    apply list_lookup_singleton_Some in Hx as [Hg <-]. assert (g = length (gens s)) as -> by lia.
    split; cbn; try done; symmetry; apply HZ; intros g p E; unfold charged, leased, locking; rewrite E;
      destruct p as [| | | | |? []|? []| | | | | |]; done.
  - intros t p g Ht Hg. destruct (IA t p g Ht Hg) as [y Hy]. exists y. apply lookup_app_Some. by left.
  - intros g [= <-]. exists newHandlerGen. split; [|done]. rewrite lookup_app_r, Nat.sub_diag by lia. done.
Qed.

Lemma exec_inv s l s' : inv s -> exec s l = Some s' -> inv s'.
Proof.
  intros HI. destruct l; cbn [exec];
    try (intros E; apply (thread_step_moves _ _ _ _ HI) in E; by eapply moves_inv);
    try (by apply retire_step_inv).
  - intros [= <-]. by apply install_inv.
  - intros [= <-]. destruct HI as [IG IA IC]. split; cbn; [|done..]. intros g x Hx. apply (gen_inv_threads s); [done|by apply IG].
Qed.

Lemma init_inv n : inv (init n).
Proof.
  split; cbn; [done| |done]. intros t p g [-> _]%lookup_replicate. done.
Qed.

(** C13: Retirement of a handler generation, in every interleaving.  The
    in-flight counter of a generation is exactly the number of requests and
    background operations registered with it, and the group's count exactly the
    operations it leased.  When a reload reads the counter as zero and closes
    the generation's resources at once, nobody uses them, then or later.  No
    drain is lost: while a reload waits and the counter is zero, the drain has
    been reported or a goroutine is about to look.  Resources are closed for a
    reported drain or the end of the grace period only, always after the lease
    group was cancelled; and the secrets of a generation stop being masked only
    when its counter was read as zero or its drain was reported, never because
    the grace period ended. *)
Theorem generation_retirement (n : nat) (tr : list label) (s : sys) (g : nat) (x : handlerGen) :
  trace exec (init n) tr s -> gens s !! g = Some x ->
  inflight x = total (charged g) (threads s) /\ bg_active x = total (leased g) (threads s) /\
  (stage_mode (g_stage x) = Some Immediate -> ~ in_use s g) /\
  (g_stage x = Waiting -> inflight x = 0 -> drained x = true \/ at_zero s g) /\
  (forall m, g_stage x = Closed m -> bg_canceled x = true /\ (m = Drained -> drained x = true)) /\
  (g_masking x = Removed -> stage_mode (g_stage x) = Some Immediate \/ drained x = true).
Proof.
  intros HT Hx. assert (HI : inv s) by (eapply (trace_invariant exec inv); [apply exec_inv|exact HT|apply init_inv]).
  destruct (iv_gen _ HI g x Hx) as [G1 G2 G3 G4 G5 G6 G7 G8 G9 G10]. split_and!; try done.
  intros m Em. rewrite G9, Em. split; [done|]. intros ->. apply G8. by rewrite Em.
Qed.

(** ** Drains *)

Definition zero_on (g : nat) (p : pc) : bool := match p with PZero _ _ => on g p | _ => false end.

(** A step that does not register with a generation while a goroutine that
    brought its counter to zero has yet to read the retiring flag. *)
Definition prompt (s : sys) (l : label) : bool :=
  match l with
  | LAdd t | LBAdd t =>
      match threads s !! t with
      | Some p => match pc_gen p with Some g => forallb (fun q => negb (zero_on g q)) (threads s) | None => true end
      | None => true
      end
  | _ => true
  end.

Definition exec_prompt (s : sys) (l : label) : option sys := if prompt s l then exec s l else None.

Record drain_inv (s : sys) (g : nat) (x : handlerGen) : Prop := {
  di_zero : at_zero s g -> inflight x = 0;
  di_drained : drained x = true -> ~ in_use s g
}.

Lemma idle_at_zero s g : ~ at_zero s g <-> forallb (fun q => negb (zero_on g q)) (threads s) = true.
Proof.
  rewrite forallb_forall. split.
  - intros Hn q Hq%list_elem_of_In%list_elem_of_lookup. destruct Hq as [t Hq]. destruct (zero_on g q) eqn:E; [|done]. exfalso. apply Hn.
    destruct q; try done. unfold zero_on, on in E. apply bool_decide_eq_true in E. injection E as ->. by eexists t, _.
  - intros HF (t & k & Ht). specialize (HF (PZero g k)). rewrite <- list_elem_of_In in HF. specialize (HF (list_elem_of_lookup_2 _ _ _ Ht)).
    unfold zero_on in HF. by rewrite on_same in HF.
Qed.

Lemma moves_drain t s s' : inv s -> (forall g x, gens s !! g = Some x -> drain_inv s g x) -> moves t s s' ->
  (forall g, threads s !! t = Some (PLoaded g) \/ threads s !! t = Some (BLocked g) -> ~ at_zero s g) ->
  forall g x, gens s' !! g = Some x -> drain_inv s' g x.
Proof.
  intros HI HD (p & p' & Ht & Et & _ & HM & _ & _) Hpr g x' Hx'. pose proof (lookup_lt_Some _ _ _ Ht) as Hlt.
  destruct (HM _ _ Hx') as (x & Hx & M). destruct (HD _ _ Hx) as [D1 D2]. pose proof (iv_gen _ HI g x Hx) as HG. split.
  - intros (u & k & Hu). rewrite Et in Hu. destruct (decide (u = t)) as [->|Hne].
    + rewrite list_lookup_insert_eq in Hu by done. injection Hu as ->. by eapply gm_at_zero.
    + rewrite list_lookup_insert_ne in Hu by done. assert (E0 : inflight x = 0) by (apply D1; by exists u, k).
      destruct (gm_change _ _ _ _ _ M) as [-> |[Ec|[-> | ->]]]; [done| |exfalso; by apply (Hpr g); [auto|exists u, k]..].
      pose proof (gi_inflight _ _ _ HG). pose proof (total_lookup (charged g) t p _ (charged_nonneg g) Ht). lia.
  - intros Hd (u & q & Hq & Hs). rewrite Et in Hq.
    assert (HU : in_use s g -> False).
    { destruct (gm_close _ _ _ _ _ M) as [E|[k ->]]; [apply D2; congruence|]. apply (idle_unused s g x HG), D1. by exists t, k. }
    destruct (decide (u = t)) as [->|Hne].
    + rewrite list_lookup_insert_eq in Hq by done. injection Hq as <-. destruct (gm_using _ _ _ _ _ M Hs) as [?|Hr]; [apply HU; by exists t, p|].
      destruct (gm_drained _ _ _ _ _ M) as [E|[_ ?]]; [|congruence]. rewrite E in Hd. apply (gi_drained _ _ _ HG) in Hd. congruence.
    + rewrite list_lookup_insert_ne in Hq by done. apply HU. by exists u, q.
Qed.

Lemma retire_step_frame s g l s' : retire_step s g l = Some s' ->
  threads s' = threads s /\
  forall g' x', gens s' !! g' = Some x' -> exists x, gens s !! g' = Some x /\ inflight x' = inflight x /\ drained x' = drained x.
Proof.
  unfold retire_step. destruct (gens s !! g) as [x|] eqn:Hx; [|done]. cbn [mbind option_bind].
  assert (HP : forall y, inflight y = inflight x -> drained y = drained x -> Some (put g y s) = Some s' ->
    threads s' = threads s /\ forall g' x', gens s' !! g' = Some x' -> exists x, gens s !! g' = Some x /\ inflight x' = inflight x /\ drained x' = drained x).
  { intros y E1 E2 [= <-]. split; [done|]. intros g' x' Hx'. unfold put in Hx'. cbn in Hx'. destruct (decide (g' = g)) as [->|Hne].
    - rewrite list_lookup_insert_eq in Hx' by (by eapply lookup_lt_Some). injection Hx' as <-. by exists x.
    - rewrite list_lookup_insert_ne in Hx' by done. by exists x'. }
  destruct l; destruct (g_stage x) as [| | |m|m|m]; try done; repeat case_match; try done; try (by apply HP).
Qed.

Lemma exec_prompt_inv s l s' :
  inv s /\ (forall g x, gens s !! g = Some x -> drain_inv s g x) -> exec_prompt s l = Some s' ->
  inv s' /\ forall g x, gens s' !! g = Some x -> drain_inv s' g x.
Proof.
  intros [HI HD]. unfold exec_prompt. destruct (prompt s l) eqn:Ep; [|done]. intros E. split; [by eapply exec_inv|].
  assert (HT : forall t, thread_step s t l = Some s' ->
    (forall g, threads s !! t = Some (PLoaded g) \/ threads s !! t = Some (BLocked g) -> ~ at_zero s g) ->
    forall g x, gens s' !! g = Some x -> drain_inv s' g x).
  { intros t Es Hp. apply (thread_step_moves _ _ _ _ HI) in Es. by eapply moves_drain. }
  assert (HR : forall g, retire_step s g l = Some s' -> forall g x, gens s' !! g = Some x -> drain_inv s' g x).
  { intros g0 Es g x' Hx'. destruct (retire_step_frame _ _ _ _ Es) as [Et HF]. destruct (HF _ _ Hx') as (x & Hx & E1 & E2).
    destruct (HD _ _ Hx) as [D1 D2]. unfold at_zero, in_use in *. split; unfold at_zero, in_use; rewrite ?Et, ?E1, ?E2; done. }
  assert (HN : forall t, (forall g, threads s !! t <> Some (PLoaded g) /\ threads s !! t <> Some (BLocked g)) ->
    thread_step s t l = Some s' -> forall g x, gens s' !! g = Some x -> drain_inv s' g x).
  { intros t Hn Es. apply (HT t Es). intros g [Hg|Hg]; by destruct (Hn g). }
  destruct l; cbn [exec prompt] in *; try (by eapply HR);
    try (eapply HN; [|exact E]; intros g'; split; intros Et; unfold thread_step, acquire_step, release_step, lease_step, admit_step in E; rewrite Et in E; done).
  - apply (HT t E). intros g [Et|Et]; rewrite Et in Ep; cbn in Ep; by apply idle_at_zero.
  - apply (HT t E). intros g [Et|Et]; rewrite Et in Ep; cbn in Ep; by apply idle_at_zero.
  - injection E as <-. intros g x [Hx|[Hl Hx]]%lookup_app_Some.
    + destruct (HD _ _ Hx) as [D1 D2]. by split.
    + apply list_lookup_singleton_Some in Hx as [Hg <-]. assert (g = length (gens s)) as -> by lia. split; [done|done].
  - injection E as <-. intros g x Hx. destruct (HD _ _ Hx) as [D1 D2]. by split.
Qed.

(** A reported drain is a drain, as long as a release finishes promptly.  In
    every run in which nobody registers with a generation between the moment a
    release brings its counter to zero and the moment that release reads the
    retiring flag, a generation reported as drained is used by nobody, so
    closing its resources and unmasking its secrets disturbs no request and no
    background operation; only the end of the grace period can close a
    generation in use. *)
Theorem drain_prompt (n : nat) (tr : list label) (s : sys) (g : nat) (x : handlerGen) :
  trace exec_prompt (init n) tr s -> gens s !! g = Some x ->
  (drained x = true -> ~ in_use s g) /\
  (in_use s g -> g_masking x <> Removed /\ forall m, g_stage x = Closed m -> m = Grace).
Proof.
  intros HT Hx.
  assert (HI : inv s /\ forall g x, gens s !! g = Some x -> drain_inv s g x).
  { eapply (trace_invariant exec_prompt _ exec_prompt_inv); [exact HT|]. split; [apply init_inv|done]. }
  destruct HI as [HI HD]. destruct (HD _ _ Hx) as [_ D]. destruct (iv_gen _ HI g x Hx) as [_ _ _ _ G5 _ _ G8 _ G10]. split; [done|].
  intros Hu. split.
  - intros Hm. destruct (G10 Hm) as [?|?]; [by apply G5|by apply D].
  - intros m Em. rewrite Em in *. destruct m; [by destruct (G5 eq_refl)|by destruct (D (G8 eq_refl))|done].
Qed.

(** ** The race *)

(** One request finishes and is preempted after bringing the counter to zero; a
    second registers; the reload marks the generation and waits; the first
    request resumes, reads the flag and reports a drain. *)
Definition race_run : list label :=
  [LInstall;
   LArrive 0; LLoad 0; LAdd 0; LCheck 0; LFinish 0; LDec 0;
   LArrive 1; LLoad 1; LAdd 1; LCheck 1;
   LInstall; LMark 0; LProbe 0;
   LZero 0;
   LDrain 0; LCancel 0; LClose 0; LUnmaskDrained 0].

(** A generation can be closed under a request it is serving.  [release]
    decides on the value its decrement returned, not on the counter at the time
    it reads the retiring flag, so a release that brought the counter to zero
    before another request registered reports a drain after the reload marked
    the generation: its resources are closed and its secrets unmasked while the
    second request is being served, without the grace period having ended. *)
Theorem generation_drain_race :
  exists s x, trace exec (init 2) race_run s /\ gens s !! 0%nat = Some x /\
    g_stage x = Closed Drained /\ g_masking x = Removed /\ inflight x = 1 /\ in_use s 0 /\ LGrace 0 ∉ race_run.
Proof.
  assert (E : is_Some (exec_trace exec (init 2) race_run)) by (vm_compute; eauto). destruct E as [s E].
  exists s. pose proof E as E2. vm_compute in E2. injection E2 as <-. eexists. split; [by apply exec_trace_trace|].
  split; [reflexivity|]. split_and!; try reflexivity.
  - exists 1%nat, (PHold 0). done.
  - rewrite list_elem_of_In. simpl. intuition discriminate.
Qed.

(** A reload while a request and its background refresh run: both finish, the
    drain is reported and the generation is closed. *)
Definition graceful_run : list label :=
  [LInstall;
   LArrive 0; LLoad 0; LAdd 0; LCheck 0;
   LWant 1 0; LLock 1; LBAdd 1; LBCheck 1;
   LInstall; LMark 0; LProbe 0;
   LFinish 0; LDec 0; LArrive 2; LLoad 2; LAdd 2; LCheck 2;
   LBEnd 1; LBDrop 1; LDec 1; LZero 1;
   LDrain 0; LCancel 0; LClose 0; LUnmaskDrained 0].

Lemma generation_retirement_witness :
  exists s x, trace exec (init 3) graceful_run s /\ gens s !! 0%nat = Some x /\ g_stage x = Closed Drained /\ bg_canceled x = true.
Proof.
  assert (E : is_Some (exec_trace exec (init 3) graceful_run)) by (vm_compute; eauto). destruct E as [s E].
  pose proof E as E2. vm_compute in E2. injection E2 as <-. apply exec_trace_trace in E.
  destruct (generation_retirement 3 graceful_run _ 0 _ E eq_refl) as (_ & _ & _ & _ & HC & _). destruct (HC Drained eq_refl) as [Hc _].
  eexists _, _. exact (conj E (conj eq_refl (conj eq_refl Hc))).
Defined.

Lemma drain_prompt_witness :
  exists s x, trace exec_prompt (init 3) graceful_run s /\ gens s !! 0%nat = Some x /\ drained x = true /\ ~ in_use s 0.
Proof.
  assert (E : is_Some (exec_trace exec_prompt (init 3) graceful_run)) by (vm_compute; eauto). destruct E as [s E].
  pose proof E as E2. vm_compute in E2. injection E2 as <-. apply exec_trace_trace in E.
  destruct (drain_prompt 3 graceful_run _ 0 _ E eq_refl) as [HD _].
  eexists _, _. exact (conj E (conj eq_refl (conj eq_refl (HD eq_refl)))).
Defined.
