(* ===== verification/Sni.v ===== *)
(** * TLS ClientHello inspection (src/internal/stream/sni.go, alpn.go)

    The server name and the protocols a client offers are read from the bytes of
    its ClientHello, which may span several TLS records, without consuming them;
    they select the pool a stream connection is relayed to.  The parser is
    compared with the wire format written out as an encoder: it accepts exactly
    the encodings, whatever the fragmentation into records. *)

From S2P Require Import Prelude GoStrings Bytes Http.

(** ** The cursor *)

Record cursor := MkCursor { c_b : list Z; c_pos : Z; c_err : bool }.

Definition set_err (c : cursor) : cursor := MkCursor (c_b c) (c_pos c) true.
Definition advance (c : cursor) (n : Z) : cursor := MkCursor (c_b c) (c_pos c + n) (c_err c).

(** The byte [i] places after the position. *)
Definition at_pos (c : cursor) (i : Z) : Z := nth (Z.to_nat (c_pos c + i)) (c_b c) 0.

Definition c_u8 (c : cursor) : Z * cursor :=
  if c_err c || (zlen (c_b c) <? c_pos c + 1) then (0, set_err c)
  else (at_pos c 0, advance c 1).

Definition c_u16 (c : cursor) : Z * cursor :=
  if c_err c || (zlen (c_b c) <? c_pos c + 2) then (0, set_err c)
  else (Z.lor (Z.shiftl (at_pos c 0) 8) (at_pos c 1), advance c 2).

Definition c_u24 (c : cursor) : Z * cursor :=
  if c_err c || (zlen (c_b c) <? c_pos c + 3) then (0, set_err c)
  else (Z.lor (Z.lor (Z.shiftl (at_pos c 0) 16) (Z.shiftl (at_pos c 1) 8)) (at_pos c 2), advance c 3).

Definition c_skip (n : Z) (c : cursor) : cursor :=
  if c_err c || (n <? 0) || (zlen (c_b c) <? c_pos c + n) then set_err c else advance c n.

Definition c_take (n : Z) (c : cursor) : list Z * cursor :=
  if c_err c || (n <? 0) || (zlen (c_b c) <? c_pos c + n) then ([], set_err c)
  else (take (Z.to_nat n) (drop (Z.to_nat (c_pos c)) (c_b c)), advance c n).

(** ** Extensions *)

Definition tlsALPNMaxProtocols : Z := 64.
Definition tlsALPNMaxProtocolLen : Z := 255.

(** The loop of [parseALPNExtension]; [None] is the nil result.  Every turn
    reads a length byte, so the length of the extension is enough fuel. *)
Fixpoint alpn_loop (fuel : nat) (c : cursor) (protocols : list gostring) : option (list gostring) :=
  if (c_pos c <? zlen (c_b c)) && negb (c_err c) then
    match fuel with
    | O => None
    | S fuel =>
        let '(n, c) := c_u8 c in
        if (n =? 0) || (tlsALPNMaxProtocolLen <? n) || (Z.of_nat (length protocols) =? tlsALPNMaxProtocols) then None
        else
          let '(protocol, c) := c_take n c in
          if c_err c then None else alpn_loop fuel c (protocols ++ [protocol])
    end
  else Some protocols.

Definition parseALPNExtension (b : list Z) : option (list gostring) :=
  let '(listLen, c) := c_u16 (MkCursor b 0 false) in
  if c_err c || (listLen <? 2) || negb (listLen =? zlen b - 2) then None
  else alpn_loop (length b) c [].

(** Host names are ASCII without NUL, at most 255 bytes. *)
Definition host_char (ch : Z) : bool := negb ((ch =? 0) || (127 <? ch)).

Fixpoint sni_loop (fuel : nat) (c : cursor) (host : gostring) : gostring :=
  if negb (c_err c) && (c_pos c <? zlen (c_b c)) then
    match fuel with
    | O => []
    | S fuel =>
        let '(nameType, c) := c_u8 c in
        let '(nameLen, c) := c_u16 c in
        let '(name, c) := c_take nameLen c in
        if c_err c then []
        else if nameType =? 0 then
          if negb (bool_decide (host = [])) || (zlen name =? 0) || (255 <? zlen name) then []
          else if negb (forallb host_char name) then [] else sni_loop fuel c name
        else sni_loop fuel c host
    end
  else if c_err c || negb (c_pos c =? zlen (c_b c)) then [] else host.

Definition parseSNIExtension (b : list Z) : gostring :=
  let '(listLen, c) := c_u16 (MkCursor b 0 false) in
  if c_err c || negb (listLen =? zlen b - 2) then [] else sni_loop (length b) c [].

(** ** The handshake message *)

(** [protocols] is nil when no ALPN extension was inspected. *)
Record clientHelloInfo := MkInfo { serverName : gostring; protocols : list gostring }.
Definition no_info : clientHelloInfo := MkInfo [] [].

(** The extension loop; [alpn] is the offer list once its extension was seen. *)
Fixpoint ext_loop (fuel : nat) (inspectALPN : bool) (end_ : Z) (c : cursor) (sni : option gostring)
    (alpn : option (list gostring)) : clientHelloInfo :=
  if (c_pos c <? end_) && negb (c_err c) then
    match fuel with
    | O => no_info
    | S fuel =>
        let '(extType, c) := c_u16 c in
        let '(extLen, c) := c_u16 c in
        if c_err c || (end_ <? c_pos c + extLen) then no_info
        else
          let '(ext, c) := c_take extLen c in
          if extType =? 0 then
            match sni with
            | Some _ => no_info
            | None =>
                let host := parseSNIExtension ext in
                if bool_decide (host = []) then no_info else ext_loop fuel inspectALPN end_ c (Some host) alpn
            end
          else if inspectALPN && (extType =? 16) then
            match alpn with
            | Some _ => no_info
            | None =>
                match parseALPNExtension ext with
                | None => no_info
                | Some ps => ext_loop fuel inspectALPN end_ c sni (Some ps)
                end
            end
          else ext_loop fuel inspectALPN end_ c sni alpn
    end
  else if c_err c || negb (c_pos c =? end_) then no_info
  else MkInfo (default [] sni) (default [] alpn).

Definition parseClientHello (b : list Z) (inspectALPN : bool) : clientHelloInfo :=
  let '(t, c) := c_u8 (MkCursor b 0 false) in
  if negb (t =? 1) then no_info else
  let '(declared, c) := c_u24 c in
  if c_err c || negb (declared =? zlen b - 4) then no_info else
  let '(version, c) := c_u16 c in
  if (version <? 768) || (772 <? version) then no_info else
  let '(sessionLen, c) := c_u8 (c_skip 32 c) in
  if 32 <? sessionLen then no_info else
  let '(cipherLen, c) := c_u16 (c_skip sessionLen c) in
  if (cipherLen <? 2) || negb (cipherLen mod 2 =? 0) then no_info else
  let '(compressionLen, c) := c_u8 (c_skip cipherLen c) in
  if compressionLen <? 1 then no_info else
  let c := c_skip compressionLen c in
  if c_err c then no_info else
  if c_pos c =? zlen b then no_info else
  let '(extTotal, c) := c_u16 c in
  let end_ := c_pos c + extTotal in
  if c_err c || negb (end_ =? zlen b) then no_info
  else ext_loop (length b) inspectALPN end_ c None None.

(** ** Records *)

Definition tlsRecordMax : Z := 16384.
Definition tlsClientHelloMax : Z := 16384.
Definition tlsClientHelloMaxRecords : nat := 64.
Definition tlsInspectMax : Z := tlsClientHelloMax + 5 * Z.of_nat tlsClientHelloMaxRecords.

(** [Peek] of a reader with a buffer of [tlsInspectMax] bytes, on the bytes the
    client sends before it stops or the deadline passes. *)
Definition Peek (stream : list Z) (n : Z) : option (list Z) :=
  if (tlsInspectMax <? n) || (zlen stream <? n) then None else Some (take (Z.to_nat n) stream).

(** What one record adds to the message, and the length declared once four
    bytes are there; [None] rejects the connection's prefix. *)
Definition record_step (hello : list Z) (want : Z) (payload : list Z) : option (list Z * Z) :=
  let copyLen := if (0 <? want) && (want <? zlen hello + zlen payload) then want - zlen hello else zlen payload in
  if (copyLen <? 0) || (tlsClientHelloMax <? zlen hello + copyLen) then None
  else
    let hello := hello ++ take (Z.to_nat copyLen) payload in
    if (want =? 0) && (4 <=? zlen hello) then
      if negb (nth 0 hello 0 =? 1) then None
      else
        let want := 4 + Z.shiftl (nth 1 hello 0) 16 + Z.shiftl (nth 2 hello 0) 8 + nth 3 hello 0 in
        if (want <? 4) || (tlsClientHelloMax <? want) then None else Some (hello, want)
    else Some (hello, want).

Fixpoint record_loop (records : nat) (stream : list Z) (inspectALPN : bool) (offset : Z) (hello : list Z) (want : Z)
  : clientHelloInfo :=
  match records with
  | O => no_info
  | S records =>
      match Peek stream (offset + 5) with
      | None => no_info
      | Some hdr =>
          let hdr := drop (Z.to_nat offset) hdr in
          if negb (nth 0 hdr 0 =? 22) || negb (nth 1 hdr 0 =? 3) || (4 <? nth 2 hdr 0) then no_info
          else
            let recLen := Z.lor (Z.shiftl (nth 3 hdr 0) 8) (nth 4 hdr 0) in
            if (recLen =? 0) || (tlsRecordMax <? recLen) || (tlsInspectMax <? offset + 5 + recLen) then no_info
            else
              match Peek stream (offset + 5 + recLen) with
              | None => no_info
              | Some full =>
                  let payload := drop (Z.to_nat (offset + 5)) full in
                  match record_step hello want payload with
                  | None => no_info
                  | Some (hello, want) =>
                      if (0 <? want) && (want <=? zlen hello)
                      then parseClientHello (take (Z.to_nat want) hello) inspectALPN
                      else record_loop records stream inspectALPN (offset + 5 + recLen) hello want
                  end
              end
      end
  end.

Definition peekClientHello (stream : list Z) (inspectALPN : bool) : clientHelloInfo :=
  record_loop tlsClientHelloMaxRecords stream inspectALPN 0 [] 0.

(** ** Route selection *)

Section Select.
Context `{Unicode} {Pool : Type}.

Record alpnRoute := MkALPN { ar_serverName : gostring; ar_protocols : gset gostring; ar_pool : Pool }.

Record route := MkRoute {
  rt_defaultPool : option Pool;
  rt_sniPools : gmap gostring Pool;
  rt_alpnRoutes : list alpnRoute
}.

(** The rules of one tier that an offer matches. *)
Definition alpn_rule (exact : bool) (host : gostring) (offers : list gostring) (rule : alpnRoute) : bool :=
  (if exact then negb (bool_decide (host = []) || bool_decide (ar_serverName rule = str "*")
                       || negb (bool_decide (ar_serverName rule = host)))
   else bool_decide (ar_serverName rule = str "*"))
  && existsb (fun offered => bool_decide (offered ∈ ar_protocols rule)) offers.

Definition alpn_tier (exact : bool) (host : gostring) (offers : list gostring) (rules : list alpnRoute) : option Pool :=
  ar_pool <$> find (alpn_rule exact host offers) rules.

Definition selectPool (r : route) (hello : clientHelloInfo) : option Pool :=
  let host := ToLower (serverName hello) in
  match alpn_tier true host (protocols hello) (rt_alpnRoutes r) with
  | Some p => Some p
  | None =>
      match alpn_tier false host (protocols hello) (rt_alpnRoutes r) with
      | Some p => Some p
      | None =>
          match (if bool_decide (host = []) then None else rt_sniPools r !! host) with
          | Some p => Some p
          | None => match rt_sniPools r !! str "*" with Some p => Some p | None => rt_defaultPool r end
          end
      end
  end.

(** The pool of a connection: the bytes are inspected only when a rule needs
    them, and ALPN only when there are ALPN rules. *)
Definition connection_pool (r : route) (stream : list Z) : option Pool :=
  if bool_decide (rt_sniPools r = ∅) && bool_decide (rt_alpnRoutes r = []) then rt_defaultPool r
  else selectPool r (peekClientHello stream (negb (bool_decide (rt_alpnRoutes r = [])))).
End Select.

(** ** Reading with the cursor *)

(** The cursor has no error and [k] is what it has not read. *)
Definition sees (c : cursor) (k : list Z) : Prop :=
  c_err c = false /\ 0 <= c_pos c /\ drop (Z.to_nat (c_pos c)) (c_b c) = k /\ c_pos c + zlen k = zlen (c_b c).

Lemma sees_start b : sees (MkCursor b 0 false) b.
Proof. unfold sees. cbn. by rewrite drop_0. Qed.

Lemma sees_advance c x k : sees c (x ++ k) -> sees (advance c (zlen x)) k.
Proof.
  intros (HE & HP & HD & HL). rewrite zlen_app in HL. pose proof (zlen_nonneg x). unfold sees. cbn. split_and!; [done|lia| |lia].
  rewrite Z2Nat.inj_add, <- drop_drop, HD by lia. unfold zlen. by rewrite Nat2Z.id, drop_app_length.
Qed.

Lemma sees_at c x y k : sees c (x ++ y :: k) -> at_pos c (zlen x) = y.
Proof.
  intros (_ & HP & HD & _). unfold at_pos. pose proof (zlen_nonneg x). rewrite Z2Nat.inj_add by lia. unfold zlen. rewrite Nat2Z.id.
  rewrite <- nth_skipn. rewrite HD. rewrite app_nth2 by lia. by rewrite Nat.sub_diag.
Qed.

(** [n] more bytes are there, or they are not. *)
Lemma room_cases n c k : sees c k -> 0 <= n ->
  (exists x k', k = x ++ k' /\ zlen x = n /\ (zlen (c_b c) <? c_pos c + n) = false /\ sees (advance c n) k') \/
  (zlen k < n /\ (zlen (c_b c) <? c_pos c + n) = true).
Proof.
  intros HS Hn. pose proof HS as (_ & _ & _ & HL). destruct (Z.ltb_spec (zlen (c_b c)) (c_pos c + n)) as [Hl|Hl]; [right; lia|left].
  rewrite <- (take_drop (Z.to_nat n) k) in HS. exists (take (Z.to_nat n) k), (drop (Z.to_nat n) k).
  assert (EL : zlen (take (Z.to_nat n) k) = n) by (unfold zlen in *; rewrite length_take; lia).
  apply sees_advance in HS. rewrite EL in HS. split_and!; try done. symmetry. apply take_drop.
Qed.

Lemma sees_err c k : sees c k -> c_err c = false.
Proof. by intros [? _]. Qed.

Lemma c_u8_cases c k : sees c k ->
  (exists x k', k = x :: k' /\ c_u8 c = (x, advance c 1) /\ sees (advance c 1) k') \/ (k = [] /\ c_u8 c = (0, set_err c)).
Proof.
  intros HS. unfold c_u8. rewrite (sees_err _ _ HS). cbn [orb].
  destruct (room_cases 1 c k HS) as [(x & k' & -> & HL & -> & HS')|[HL ->]]; [lia|left|right].
  - destruct x as [|x [|? ?]]; [done| |unfold zlen in HL; cbn in HL; lia]. exists x, k'.
    pose proof (sees_at c [] x k' HS) as HA. change (zlen []) with 0 in HA. by rewrite HA.
  - split; [|done]. apply zlen_nil. pose proof (zlen_nonneg k). lia.
Qed.

Lemma be_val_2 x y : be_val [x; y] = x * 256 + y.
Proof. unfold be_val. cbn. lia. Qed.

Lemma c_u16_cases c k : sees c k -> Forall is_byte k ->
  (exists x k', k = be_bytes 2 x ++ k' /\ 0 <= x < 65536 /\ c_u16 c = (x, advance c 2) /\ sees (advance c 2) k') \/
  (zlen k < 2 /\ c_u16 c = (0, set_err c)).
Proof.
  intros HS HB. unfold c_u16. rewrite (sees_err _ _ HS). cbn [orb].
  destruct (room_cases 2 c k HS) as [(x & k' & -> & HL & -> & HS')|[HL ->]]; [lia|left|by right].
  destruct x as [|x [|y [|? ?]]]; unfold zlen in HL; cbn in HL; try lia. clear HL.
  pose proof (sees_at c [] x (y :: k') HS) as A0. pose proof (sees_at c [x] y k' HS) as A1. change (zlen []) with 0 in A0. change (zlen [x]) with 1 in A1. rewrite A0, A1.
  apply Forall_app in HB as [HB _]. exists (be_val [x; y]), k'. split; [by rewrite <- (be_bytes_val [x; y] HB) at 1|].
  split; [apply (be_val_range [x; y] HB)|]. split; [|done].
  apply Forall_cons in HB as [Hx HB%Forall_inv]. unfold is_byte in *. rewrite lor_shift, be_val_2 by lia. done.
Qed.

Lemma c_u24_cases c k : sees c k -> Forall is_byte k ->
  (exists x k', k = be_bytes 3 x ++ k' /\ 0 <= x < 2 ^ 24 /\ c_u24 c = (x, advance c 3) /\ sees (advance c 3) k') \/
  (zlen k < 3 /\ c_u24 c = (0, set_err c)).
Proof.
  intros HS HB. unfold c_u24. rewrite (sees_err _ _ HS). cbn [orb].
  destruct (room_cases 3 c k HS) as [(x & k' & -> & HL & -> & HS')|[HL ->]]; [lia|left|by right].
  destruct x as [|x [|y [|z [|? ?]]]]; unfold zlen in HL; cbn in HL; try lia. clear HL.
  pose proof (sees_at c [] x (y :: z :: k') HS) as A0. pose proof (sees_at c [x] y (z :: k') HS) as A1.
  pose proof (sees_at c [x; y] z k' HS) as A2. change (zlen []) with 0 in A0.
  change (zlen [x]) with 1 in A1. change (zlen [x; y]) with 2 in A2. rewrite A0, A1, A2.
  apply Forall_app in HB as [HB _]. exists (be_val [x; y; z]), k'. split; [by rewrite <- (be_bytes_val [x; y; z] HB) at 1|].
  split; [apply (be_val_range [x; y; z] HB)|]. split; [|done].
  rewrite !Forall_cons in HB. unfold is_byte in HB. 
  replace (Z.shiftl x 16) with (Z.shiftl (Z.shiftl x 8) 8) by (rewrite Z.shiftl_shiftl; [done|lia]).
  rewrite <- Z.shiftl_lor, !lor_shift by lia. done.
Qed.

Lemma c_take_cases n c k : sees c k -> 0 <= n ->
  (exists x k', k = x ++ k' /\ zlen x = n /\ c_take n c = (x, advance c n) /\ sees (advance c n) k') \/
  (zlen k < n /\ c_take n c = ([], set_err c)).
Proof.
  intros HS Hn. unfold c_take. rewrite (sees_err _ _ HS), (proj2 (Z.ltb_ge n 0)) by lia. cbn [orb].
  pose proof HS as (_ & _ & HD & _).
  destruct (room_cases n c k HS) as [(x & k' & -> & HL & -> & HS')|[HL ->]]; [done|left|by right].
  exists x, k'. split_and!; try done. rewrite HD. f_equal. unfold zlen in HL. subst n. by rewrite Nat2Z.id, take_app_length.
Qed.

Lemma c_skip_cases n c k : sees c k -> 0 <= n ->
  (exists x k', k = x ++ k' /\ zlen x = n /\ c_skip n c = advance c n /\ sees (advance c n) k') \/
  (zlen k < n /\ c_skip n c = set_err c).
Proof.
  intros HS Hn. unfold c_skip. rewrite (sees_err _ _ HS), (proj2 (Z.ltb_ge n 0)) by lia. cbn [orb].
  destruct (room_cases n c k HS) as [(x & k' & -> & HL & -> & HS')|[HL ->]]; [done|left|by right]. by exists x, k'.
Qed.

(** ** The wire format *)

Definition vec8 (s : list Z) : list Z := be_bytes 1 (zlen s) ++ s.
Definition vec16 (s : list Z) : list Z := be_bytes 2 (zlen s) ++ s.

(** A server_name extension: names with their type; 0 is a host name. *)
Definition sni_entry (e : Z * gostring) : list Z := be_bytes 1 e.1 ++ vec16 e.2.
Definition sni_body (l : list (Z * gostring)) : list Z := concat (map sni_entry l).

(** An extension with its type. *)
Definition ext_entry (e : Z * list Z) : list Z := be_bytes 2 e.1 ++ vec16 e.2.
Definition ext_body (l : list (Z * list Z)) : list Z := concat (map ext_entry l).

Record hello := MkHello {
  h_version : Z;
  h_random : list Z;
  h_session : list Z;
  h_ciphers : list Z;
  h_compression : list Z;
  h_exts : list (Z * list Z)
}.

Definition hello_body (h : hello) : list Z :=
  be_bytes 2 (h_version h) ++ h_random h ++ vec8 (h_session h) ++ vec16 (h_ciphers h) ++ vec8 (h_compression h)
  ++ vec16 (ext_body (h_exts h)).

(** The handshake message of a ClientHello with extensions. *)
Definition hello_message (h : hello) : list Z := 1 :: be_bytes 3 (zlen (hello_body h)) ++ hello_body h.

(** The lengths and values the format allows. *)
Record hello_ok (h : hello) : Prop := {
  ho_version : 768 <= h_version h <= 772;
  ho_random : zlen (h_random h) = 32;
  ho_session : zlen (h_session h) <= 32;
  ho_ciphers : 2 <= zlen (h_ciphers h) < 65536 /\ zlen (h_ciphers h) mod 2 = 0;
  ho_compression : 1 <= zlen (h_compression h) < 256;
  ho_exts : Forall (fun e => 0 <= e.1 < 65536 /\ zlen e.2 < 65536) (h_exts h) /\ zlen (ext_body (h_exts h)) < 65536
}.

(** A host name the parser accepts. *)
Definition host_ok (host : gostring) : Prop := 1 <= zlen host <= 255 /\ Forall (fun c => 1 <= c <= 127) host.

(** The only host name of the list. *)
Definition sni_names (l : list (Z * gostring)) (host : gostring) : Prop :=
  Forall (fun e => 0 <= e.1 < 256 /\ zlen e.2 < 65536) l /\ filter (fun e => e.1 = 0) l = [(0, host)] /\ host_ok host.

Lemma host_char_ok name : Forall is_byte name -> forallb host_char name = true <-> Forall (fun c => 1 <= c <= 127) name.
Proof.
  intros HB. rewrite forallb_forall. unfold host_char. split.
  - intros HF. apply Forall_forall. intros c Hc. rewrite Forall_forall in HB. specialize (HB c Hc). apply list_elem_of_In in Hc.
    specialize (HF c Hc). unfold is_byte in HB. lia.
  - intros HF c Hc%list_elem_of_In. rewrite Forall_forall in HF. specialize (HF c Hc). cbn beta in HF. lia.
Qed.

Lemma be_bytes_1 x : 0 <= x < 256 -> be_bytes 1 x = [x].
Proof. intros Hx. cbn. by rewrite Z.mod_small. Qed.

Lemma be_bytes_inj n x y a b :
  0 <= x < 256 ^ Z.of_nat n -> 0 <= y < 256 ^ Z.of_nat n -> be_bytes n x ++ a = be_bytes n y ++ b -> x = y /\ a = b.
Proof.
  intros Hx Hy E. apply app_inj_1 in E as [E ->]; [|by rewrite (proj1 (be_bytes_ok n x)), (proj1 (be_bytes_ok n y))].
  split; [|done]. by rewrite <- (be_val_bytes n x), E, be_val_bytes.
Qed.

(** ** The server_name extension *)

Definition entry_ok (e : Z * gostring) : Prop := 0 <= e.1 < 256 /\ zlen e.2 < 65536.

(** What the names still to come must be for the result to be [host]. *)
Definition names_left (l : list (Z * gostring)) (acc host : gostring) : Prop :=
  (filter (fun e => e.1 = 0) l = [] /\ acc = host) \/
  (acc = [] /\ filter (fun e => e.1 = 0) l = [(0, host)] /\ host_ok host).

Lemma sni_entry_nonempty e s : sni_entry e ++ s <> [].
Proof. unfold sni_entry. cbn. done. Qed.

Lemma names_left_other t name l acc host : t <> 0 -> names_left ((t, name) :: l) acc host <-> names_left l acc host.
Proof. intros Ht. unfold names_left. rewrite filter_cons_False by done. done. Qed.

Lemma names_left_host name l acc host : host <> [] -> host_ok name ->
  names_left ((0, name) :: l) acc host <-> acc = [] /\ names_left l name host.
Proof.
  intros HN HO. unfold names_left. rewrite filter_cons_True by done. split.
  - intros [[? _]|(-> & E & _)]; [done|]. injection E as -> E. split; [done|]. by left.
  - intros [-> [[E ->]|(-> & _)]]; [right; by rewrite E|]. unfold host_ok, zlen in HO. cbn in HO. lia.
Qed.

Lemma vec16_inj s t a b :
  zlen s < 65536 -> zlen t < 65536 -> vec16 s ++ a = vec16 t ++ b -> s = t /\ a = b.
Proof.
  intros Hs Ht. unfold vec16. rewrite <- !app_assoc. pose proof (zlen_nonneg s). pose proof (zlen_nonneg t).
  intros [EL E]%be_bytes_inj; [|cbn; lia..]. apply app_inj_1 in E; [done|]. unfold zlen in EL. lia.
Qed.

Lemma vec16_length s : zlen (vec16 s) = 2 + zlen s.
Proof. unfold vec16. by rewrite zlen_app, be_zlen. Qed.

Lemma sni_entry_inj e f a b : entry_ok e -> entry_ok f -> sni_entry e ++ a = sni_entry f ++ b -> e = f /\ a = b.
Proof.
  destruct e as [t s], f as [u r]. intros [H1 H2] [H3 H4]. unfold sni_entry. cbn [fst snd] in *. rewrite <- !app_assoc.
  intros [-> E]%be_bytes_inj; [|cbn; lia..]. apply vec16_inj in E as [-> ->]; done.
Qed.

(** Reading one name: the entry at the front, or an error when there is none. *)
Lemma entry_read c k : sees c k -> Forall is_byte k ->
  let '(t, c1) := c_u8 c in let '(n, c2) := c_u16 c1 in let '(name, c3) := c_take n c2 in
  (exists k', k = sni_entry (t, name) ++ k' /\ entry_ok (t, name) /\ sees c3 k') \/
  (c_err c3 = true /\ forall e k', entry_ok e -> k <> sni_entry e ++ k').
Proof.
  intros HS HB. assert (HN : forall e k', entry_ok e -> k = sni_entry e ++ k' -> exists x k1, k = x :: k1 /\
    k1 = vec16 e.2 ++ k' /\ 2 + zlen e.2 <= zlen k1).
  { intros e k' [HT HL] ->. unfold sni_entry. rewrite be_bytes_1 by done. eexists _, _. split; [done|]. split; [done|].
    rewrite zlen_app, vec16_length. pose proof (zlen_nonneg k'). lia. }
  destruct (c_u8_cases c k HS) as [(x & k1 & -> & -> & HS1)|[-> E8]]; [|rewrite E8; cbn].
  2: { right. split; [done|]. intros e k' He E. destruct (HN e k' He E) as (? & ? & ? & _). done. }
  apply Forall_cons in HB as [Hx HB].
  destruct (c_u16_cases _ _ HS1 HB) as [(n & k2 & -> & Hn & -> & HS2)|[HL E16]]; [|rewrite E16; cbn].
  2: { right. split; [done|]. intros e k' He E. destruct (HN e k' He E) as (? & ? & [= -> ->] & _ & ?).
       pose proof (zlen_nonneg e.2). lia. }
  destruct (c_take_cases n _ _ HS2) as [(name & k3 & -> & HLn & -> & HS3)|[HL ET]]; [lia| |].
  - left. exists k3. split; [|split; [unfold entry_ok, is_byte in *; cbn; lia|done]].
    unfold sni_entry, vec16. cbn [fst snd]. rewrite be_bytes_1, HLn by done. by rewrite <- !app_assoc.
  - rewrite ET. right. split; [done|]. intros e k' He E. destruct (HN e k' He E) as (? & ? & [= -> <-] & E2 & ?).
    unfold vec16 in E2. rewrite <- app_assoc in E2. destruct He as [_ He]. pose proof (zlen_nonneg e.2).
    apply (be_bytes_inj 2 n _ k2) in E2 as [-> ->]; [|cbn; lia..]. rewrite zlen_app in HL. pose proof (zlen_nonneg k'). lia.
Qed.

Lemma sni_loop_exact fuel c k acc host :
  sees c k -> Forall is_byte k -> (length k <= fuel)%nat -> host <> [] ->
  sni_loop fuel c acc = host <-> exists l, Forall entry_ok l /\ k = sni_body l /\ names_left l acc host.
Proof.
  intros HS HB HF HN. revert c k acc HS HB HF. induction fuel as [|fuel IH]; intros c k acc HS HB HF;
    pose proof HS as (HE & _ & _ & HL); cbn [sni_loop]; rewrite HE; cbn [negb andb];
    (destruct k as [|y k]; [change (zlen []) with 0 in HL|rewrite zlen_cons in HL; pose proof (zlen_nonneg k)]).
  1, 3: rewrite (proj2 (Z.ltb_ge _ _)), (proj2 (Z.eqb_eq _ _)) by lia; cbn [orb negb]; split;
    [intros ->; exists []; split_and!; [done|done|by left]|];
    intros ([|e l] & _ & HK & HN'); [destruct HN' as [[_ ?]|(_ & ? & _)]; done|];
    symmetry in HK; by apply sni_entry_nonempty in HK.
  - cbn in HF. lia.
  - rewrite (proj2 (Z.ltb_lt _ _)) by lia. set (k0 := y :: k) in *. pose proof (entry_read c k0 HS HB) as HR.
    destruct (c_u8 c) as [t c1]. destruct (c_u16 c1) as [n c2]. destruct (c_take n c2) as [name c3].
    destruct HR as [(k' & EK & HO & HS3)|[-> HR]].
    2: { split; [by intros <-|]. intros ([|e l] & HFl & HK & _); [done|]. apply Forall_cons in HFl as [He _].
         exfalso. by apply (HR e (sni_body l)). }
    rewrite (sees_err _ _ HS3). rewrite EK in HB. apply Forall_app in HB as [HBe HB'].
    assert (HF' : (length k' <= fuel)%nat).
    { apply (f_equal length) in EK. unfold k0, sni_entry in EK. cbn in EK, HF. rewrite length_app in EK. lia. }
    specialize (IH c3 k'). 
    assert (HX : (exists l, Forall entry_ok l /\ k0 = sni_body l /\ names_left l acc host) <->
       (exists l, Forall entry_ok l /\ k' = sni_body l /\ names_left ((t, name) :: l) acc host)).
    { split.
      - intros ([|e l] & HFl & HK & HNl); [done|]. apply Forall_cons in HFl as [He HFl]. rewrite EK in HK.
        apply sni_entry_inj in HK as [<- ->]; [|done..]. by exists l.
      - intros (l & HFl & -> & HNl). exists ((t, name) :: l). split_and!; [by constructor|done|done]. }
    rewrite HX. clear HX. destruct (Z.eqb_spec t 0) as [->|Ht].
    + assert (Hb : Forall is_byte name). { unfold sni_entry, vec16 in HBe. cbn [fst snd] in HBe. rewrite !Forall_app in HBe. tauto. }
      pose proof (host_char_ok name Hb) as HC.
      assert (HQ : host_ok name <-> (zlen name =? 0) || (255 <? zlen name) = false /\ forallb host_char name = true).
      { unfold host_ok. rewrite HC, orb_false_iff, Z.eqb_neq, Z.ltb_ge. pose proof (zlen_nonneg name).
        split; intros [? ?]; (split; [lia|done]). }
      destruct (decide (acc = [])) as [->|Ha]; cbn [negb orb].
      2: { rewrite bool_decide_false by done. cbn. split; [by intros <-|].
           intros (l & _ & _ & HNl). unfold names_left in HNl. rewrite filter_cons_True in HNl by done.
           destruct HNl as [[? _]|[? _]]; done. }
      rewrite bool_decide_true by done. cbn [negb orb].
      destruct ((zlen name =? 0) || (255 <? zlen name)) eqn:E1, (forallb host_char name) eqn:E2; cbn [negb].
      3: { rewrite IH by done. split; intros (l & HFl & HK & HNl); exists l; (split; [done|split; [done|]]).
           - apply names_left_host; tauto.
           - apply names_left_host in HNl; tauto. }
      all: split; [by intros <-|]; intros (l & _ & _ & HNl); unfold names_left in HNl; rewrite filter_cons_True in HNl by done;
        destruct HNl as [[? _]|(_ & [= -> _] & Ho)]; [done|]; apply HQ in Ho; naive_solver.
    + rewrite IH by done. by setoid_rewrite names_left_other.
Qed.

(** The extension is read exactly when it is a list with one host name. *)
Lemma parseSNIExtension_exact b host : Forall is_byte b -> host <> [] ->
  parseSNIExtension b = host <->
  exists l, b = vec16 (sni_body l) /\ zlen (sni_body l) < 65536 /\ sni_names l host.
Proof.
  intros HB HN. unfold parseSNIExtension.
  assert (HX : forall l, names_left l [] host <-> filter (fun e => e.1 = 0) l = [(0, host)] /\ host_ok host).
  { intros l. unfold names_left. split; [intros [[_ ?]|?]; [done|tauto]|tauto]. }
  destruct (c_u16_cases _ _ (sees_start b) HB) as [(n & k & -> & Hn & -> & HS)|[HL ->]].
  2: { split; [by intros <-|]. intros (l & -> & _). rewrite vec16_length in HL. pose proof (zlen_nonneg (sni_body l)). lia. }
  rewrite (sees_err _ _ HS). cbn [orb]. apply Forall_app in HB as [_ HB].
  replace (zlen (be_bytes 2 n ++ k) - 2) with (zlen k) by (rewrite zlen_app, be_zlen; lia).
  destruct (Z.eqb_spec n (zlen k)) as [->|HNe]; cbn [negb].
  - rewrite (sni_loop_exact _ _ _ _ _ HS HB) by (done || rewrite length_app; lia). split.
    + intros (l & HF & -> & HL%HX). exists l. split; [done|]. split; [lia|]. by split.
    + intros (l & E & HL & HF & HL2). apply (be_bytes_inj 2) in E as [_ ->]; [|pose proof (zlen_nonneg (sni_body l)); cbn; lia..].
      exists l. split_and!; [done|done|by apply HX].
  - split; [by intros <-|]. intros (l & E & HL & _). pose proof (zlen_nonneg (sni_body l)).
    apply (be_bytes_inj 2) in E as [-> ->]; [done|cbn; lia..].
Qed.

(** ** The ALPN extension *)

Definition alpn_body (l : list gostring) : list Z := concat (map vec8 l).

Definition offers_ok (l : list gostring) : Prop := Forall (fun p => 1 <= zlen p <= 255) l.

Lemma vec8_cons p : zlen p <= 255 -> vec8 p = zlen p :: p.
Proof. intros HL. pose proof (zlen_nonneg p). unfold vec8. by rewrite be_bytes_1 by lia. Qed.

Lemma alpn_body_cons p l : zlen p <= 255 -> alpn_body (p :: l) = zlen p :: p ++ alpn_body l.
Proof. intros HL. unfold alpn_body. cbn [map concat]. by rewrite vec8_cons. Qed.

Lemma alpn_loop_exact fuel c k acc ps :
  sees c k -> Forall is_byte k -> (length k <= fuel)%nat -> (length acc <= 64)%nat ->
  alpn_loop fuel c acc = Some ps <->
  exists l, offers_ok l /\ k = alpn_body l /\ ps = acc ++ l /\ (length ps <= 64)%nat.
Proof.
  revert c k acc. induction fuel as [|fuel IH]; intros c k acc HS HB HF HA;
    pose proof HS as (HE & _ & _ & HL); cbn [alpn_loop]; rewrite HE; cbn [negb andb]; rewrite andb_true_r;
    (destruct k as [|y k]; [change (zlen []) with 0 in HL|rewrite zlen_cons in HL; pose proof (zlen_nonneg k)]).
  1, 3: rewrite (proj2 (Z.ltb_ge _ _)) by lia; split; [intros [= <-]; exists []; split_and!; [by apply Forall_nil|done|by rewrite app_nil_r|done]|];
    intros ([|p l] & HO & HK & -> & _); [by rewrite app_nil_r|]; apply Forall_cons in HO as [Hp _];
    rewrite alpn_body_cons in HK by lia; done.
  - cbn in HF. lia.
  - rewrite (proj2 (Z.ltb_lt _ _)) by lia. apply Forall_cons in HB as [Hy HB].
    destruct (c_u8_cases c _ HS) as [(x & k' & [= <- <-] & -> & HS1)|[? _]]; [|done]. unfold is_byte in Hy.
    set (bad := _ || _). assert (HX : bad = false <-> 1 <= y <= 255 /\ (length acc < 64)%nat).
    { unfold bad, tlsALPNMaxProtocolLen, tlsALPNMaxProtocols. rewrite !orb_false_iff. lia. }
    destruct bad.
    + split; [done|]. intros ([|p l] & HO & HK & -> & HP); [done|]. apply Forall_cons in HO as [Hp _]. rewrite alpn_body_cons in HK by lia. injection HK as -> ->.
      rewrite length_app in HP. cbn in HP. discriminate (proj2 HX ltac:(lia)).
    + destruct (proj1 HX eq_refl) as [Hy1 HA1]. clear HX.
      destruct (c_take_cases y _ _ HS1) as [(p & k2 & -> & HLp & -> & HS2)|[HLk ->]]; [lia| |].
      * assert (HB2 : Forall is_byte k2) by (by apply Forall_app in HB as [_ ?]).
        assert (HF2 : (length k2 <= fuel)%nat) by (cbn in HF; rewrite length_app in HF; lia).
        rewrite (sees_err _ _ HS2), (IH _ k2 (acc ++ [p]) HS2 HB2 HF2) by (rewrite length_app; cbn; lia). split.
        -- intros (l & HO & -> & -> & HP). exists (p :: l). rewrite <- app_assoc in *. split_and!; try done; [by constructor; [lia|]|].
           by rewrite alpn_body_cons, HLp by lia.
        -- intros ([|q l] & HO & HK & -> & HP); [done|]. apply Forall_cons in HO as [Hq HO].
           rewrite alpn_body_cons in HK by lia. injection HK as EL HK.
           apply app_inj_1 in HK as [-> ->]; [|unfold zlen in *; lia]. exists l. by rewrite <- app_assoc.
      * split; [done|]. intros ([|q l] & HO & HK & -> & HP); [done|]. apply Forall_cons in HO as [Hq HO].
        rewrite alpn_body_cons in HK by lia. injection HK as -> ->.
        rewrite zlen_app in HLk. pose proof (zlen_nonneg (alpn_body l)). lia.
Qed.

Lemma parseALPNExtension_exact b ps : Forall is_byte b ->
  parseALPNExtension b = Some ps <->
  b = vec16 (alpn_body ps) /\ zlen (alpn_body ps) < 65536 /\ offers_ok ps /\ (1 <= length ps <= 64)%nat.
Proof.
  intros HB. unfold parseALPNExtension.
  assert (H2 : forall l, offers_ok l -> l <> [] -> 2 <= zlen (alpn_body l)).
  { intros [|p l] HO HN; [done|]. apply Forall_cons in HO as [Hp _]. rewrite alpn_body_cons, zlen_cons, zlen_app by lia.
    pose proof (zlen_nonneg (alpn_body l)). lia. }
  destruct (c_u16_cases _ _ (sees_start b) HB) as [(n & k & -> & Hn & -> & HS)|[HL ->]].
  2: { split; [done|]. intros (-> & _). rewrite vec16_length in HL. pose proof (zlen_nonneg (alpn_body ps)). lia. }
  rewrite (sees_err _ _ HS). cbn [orb]. apply Forall_app in HB as [_ HB].
  replace (zlen (be_bytes 2 n ++ k) - 2) with (zlen k) by (rewrite zlen_app, be_zlen; lia).
  destruct ((n <? 2) || negb (n =? zlen k)) eqn:EG.
  - split; [done|]. intros (E & HL & HO & HP). pose proof (zlen_nonneg (alpn_body ps)).
    apply (be_bytes_inj 2) in E as [-> ->]; [|cbn; lia..]. specialize (H2 ps HO). destruct ps; [cbn in HP; lia|]. specialize (H2 ltac:(done)). lia.
  - assert (HF : (length k <= length (be_bytes 2 n ++ k))%nat) by (rewrite length_app; lia).
    rewrite (alpn_loop_exact _ _ _ [] _ HS HB HF) by (cbn; lia). cbn [app]. split.
    + intros (l & HO & -> & -> & HP). assert (n = zlen (alpn_body l)) as -> by lia. split_and!; try done; [lia|].
      destruct l; [by vm_compute in EG|cbn; lia].
    + intros (E & HL & HO & HP). pose proof (zlen_nonneg (alpn_body ps)).
      apply (be_bytes_inj 2) in E as [-> ->]; [|cbn; lia..]. exists ps. split_and!; try done. lia.
Qed.

(** ** The extension list *)

Definition ext_ok (e : Z * list Z) : Prop := 0 <= e.1 < 65536 /\ zlen e.2 < 65536.

Definition of_type (t : Z) (l : list (Z * list Z)) : list (Z * list Z) := filter (fun e => e.1 = t) l.

(** The extensions name [name]: no server_name extension and no name, or exactly
    one, with one host name. *)
Definition names_in (l : list (Z * list Z)) (seen : option gostring) (name : gostring) : Prop :=
  (of_type 0 l = [] /\ default [] seen = name) \/
  (seen = None /\ exists names, of_type 0 l = [(0, vec16 (sni_body names))] /\ zlen (sni_body names) < 65536 /\ sni_names names name).

(** The extensions offer [ps]. *)
Definition offers_in (l : list (Z * list Z)) (seen : option (list gostring)) (ps : list gostring) : Prop :=
  (of_type 16 l = [] /\ default [] seen = ps) \/
  (seen = None /\ of_type 16 l = [(16, vec16 (alpn_body ps))] /\ zlen (alpn_body ps) < 65536 /\ offers_ok ps /\
   (1 <= length ps <= 64)%nat).

Definition hello_offers (ia : bool) (l : list (Z * list Z)) (sni : option gostring) (alpn : option (list gostring))
    (info : clientHelloInfo) : Prop :=
  names_in l sni (serverName info) /\ (if ia then offers_in l alpn (protocols info) else default [] alpn = protocols info).

Lemma ext_entry_inj e f a b : ext_ok e -> ext_ok f -> ext_entry e ++ a = ext_entry f ++ b -> e = f /\ a = b.
Proof.
  destruct e as [t s], f as [u r]. intros [H1 H2] [H3 H4]. unfold ext_entry. cbn [fst snd] in *. rewrite <- !app_assoc.
  intros [-> E]%be_bytes_inj; [|cbn; lia..]. apply vec16_inj in E as [-> ->]; done.
Qed.

(** Reading one extension inside the list. *)
Lemma ext_read c k : sees c k -> Forall is_byte k ->
  let '(t, c1) := c_u16 c in let '(n, c2) := c_u16 c1 in let '(d, c3) := c_take n c2 in
  (exists k', k = ext_entry (t, d) ++ k' /\ ext_ok (t, d) /\ Forall is_byte d /\ sees c3 k' /\ c_b c3 = c_b c /\
    c_err c2 || (zlen (c_b c) <? c_pos c2 + n) = false) \/
  (c_err c2 || (zlen (c_b c) <? c_pos c2 + n) = true /\ forall e k', ext_ok e -> k <> ext_entry e ++ k').
Proof.
  intros HS HB. assert (HN : forall e k', ext_ok e -> k = ext_entry e ++ k' ->
    exists k1, k = be_bytes 2 e.1 ++ k1 /\ k1 = be_bytes 2 (zlen e.2) ++ e.2 ++ k' /\ 4 + zlen e.2 <= zlen k).
  { intros e k' [HT HL] ->. unfold ext_entry, vec16. rewrite <- !app_assoc. eexists. split; [done|]. split; [done|].
    rewrite !zlen_app, !be_zlen. pose proof (zlen_nonneg k'). lia. }
  destruct (c_u16_cases c k HS HB) as [(t & k1 & -> & Ht & -> & HS1)|[HL E1]].
  2: { rewrite E1. right. split; [done|]. intros e k' He E. destruct (HN e k' He E) as (? & _ & _ & ?).
       pose proof (zlen_nonneg e.2). lia. }
  apply Forall_app in HB as [_ HB].
  destruct (c_u16_cases _ _ HS1 HB) as [(n & k2 & -> & Hn & -> & HS2)|[HL E16]].
  2: { rewrite E16. right. split; [done|]. intros e k' He E. destruct (HN e k' He E) as (k0 & E1 & -> & ?).
       destruct He as [He1 He2]. apply be_bytes_inj in E1 as [_ ->]; [|cbn; lia..].
       rewrite zlen_app, be_zlen in HL. pose proof (zlen_nonneg (e.2 ++ k')). lia. }
  rewrite (sees_err _ _ HS2). cbn [orb]. change (c_b c) with (c_b (advance (advance c 2) 2)). set (c2 := advance (advance c 2) 2) in *.
  pose proof HS2 as (_ & _ & _ & HL2).
  destruct (c_take_cases n _ _ HS2) as [(d & k3 & -> & HLn & -> & HS3)|[HL ET]]; [lia| |].
  - left. exists k3. apply Forall_app in HB as [_ [HB _]%Forall_app].
    split; [unfold ext_entry, vec16; cbn [fst snd]; rewrite HLn; by rewrite <- !app_assoc|].
    split; [unfold ext_ok; cbn; lia|]. split; [done|]. split; [done|]. split; [done|].
    rewrite zlen_app in HL2. pose proof (zlen_nonneg k3). lia.
  - rewrite ET. right. split; [lia|]. intros e k' He E. destruct (HN e k' He E) as (k0 & E1 & -> & ?). destruct He as [He1 He2].
    apply be_bytes_inj in E1 as [_ E1]; [|cbn; lia..]. pose proof (zlen_nonneg e.2).
    apply be_bytes_inj in E1 as [-> ->]; [|cbn; lia..]. rewrite zlen_app in HL. pose proof (zlen_nonneg k'). lia.
Qed.

Lemma of_type_other t u d l : u <> t -> of_type t ((u, d) :: l) = of_type t l.
Proof. intros Hu. unfold of_type. by rewrite filter_cons_False. Qed.

Lemma of_type_same t d l : of_type t ((t, d) :: l) = (t, d) :: of_type t l.
Proof. unfold of_type. by rewrite filter_cons_True. Qed.

Lemma names_in_other t d l seen name : t <> 0 -> names_in ((t, d) :: l) seen name <-> names_in l seen name.
Proof. intros Ht. unfold names_in. by rewrite of_type_other. Qed.

Lemma offers_in_other t d l seen ps : t <> 16 -> offers_in ((t, d) :: l) seen ps <-> offers_in l seen ps.
Proof. intros Ht. unfold offers_in. by rewrite of_type_other. Qed.

Lemma names_in_first d l seen name : Forall is_byte d ->
  names_in ((0, d) :: l) seen name <->
  seen = None /\ parseSNIExtension d <> [] /\ names_in l (Some (parseSNIExtension d)) name.
Proof.
  intros HB. unfold names_in at 1. rewrite of_type_same. split.
  - intros [[? _]|(-> & names & [= -> EL] & HL & HN)]; [done|]. split; [done|].
    assert (HE : name <> []). { destruct HN as (_ & _ & [HO _]). intros ->. unfold zlen in HO. cbn in HO. lia. }
    assert (EP : parseSNIExtension (vec16 (sni_body names)) = name) by (apply parseSNIExtension_exact; eauto).
    rewrite EP. split; [done|]. by left.
  - intros (-> & HE & [[EL E]|[? _]]); [|done]. right. split; [done|]. cbn in E.
    destruct (proj1 (parseSNIExtension_exact d name HB ltac:(by rewrite <- E)) E) as (names & -> & HL & HN).
    exists names. by rewrite EL.
Qed.

Lemma offers_in_first d l seen ps : Forall is_byte d ->
  offers_in ((16, d) :: l) seen ps <->
  seen = None /\ exists qs, parseALPNExtension d = Some qs /\ offers_in l (Some qs) ps.
Proof.
  intros HB. unfold offers_in at 1. rewrite of_type_same. split.
  - intros [[? _]|(-> & [= -> EL] & HO)]; [done|]. split; [done|]. exists ps. split; [by apply parseALPNExtension_exact|]. by left.
  - intros (-> & qs & HP & [[EL <-]|[? _]]); [|done]. right. cbn. rewrite EL. apply parseALPNExtension_exact in HP; [|done].
    destruct HP as (-> & HP). done.
Qed.

Lemma hello_offers_name ia d l sni alpn info : Forall is_byte d ->
  hello_offers ia ((0, d) :: l) sni alpn info <->
  sni = None /\ parseSNIExtension d <> [] /\ hello_offers ia l (Some (parseSNIExtension d)) alpn info.
Proof. intros HB. unfold hello_offers. rewrite names_in_first by done. destruct ia; [rewrite offers_in_other by done|]; tauto. Qed.

Lemma hello_offers_alpn d l sni alpn info : Forall is_byte d ->
  hello_offers true ((16, d) :: l) sni alpn info <->
  alpn = None /\ exists qs, parseALPNExtension d = Some qs /\ hello_offers true l sni (Some qs) info.
Proof. intros HB. unfold hello_offers. rewrite names_in_other, offers_in_first by done. naive_solver. Qed.

Lemma hello_offers_other ia t d l sni alpn info : t <> 0 -> ia && (t =? 16) = false ->
  hello_offers ia ((t, d) :: l) sni alpn info <-> hello_offers ia l sni alpn info.
Proof.
  intros Ht Hi. unfold hello_offers. rewrite names_in_other by done. destruct ia; [|done]. cbn [andb] in Hi.
  by rewrite offers_in_other by lia.
Qed.

Lemma info_eta info : MkInfo (serverName info) (protocols info) = info.
Proof. by destruct info. Qed.

Lemma ext_body_nil l : ext_body l = [] -> l = [].
Proof. by destruct l. Qed.

Lemma ext_loop_exact fuel ia c k sni alpn info :
  sees c k -> Forall is_byte k -> (length k <= fuel)%nat -> info <> no_info ->
  ext_loop fuel ia (zlen (c_b c)) c sni alpn = info <->
  exists l, Forall ext_ok l /\ k = ext_body l /\ hello_offers ia l sni alpn info.
Proof.
  intros HS HB HF HN. revert c k sni alpn HS HB HF. induction fuel as [|fuel IH]; intros c k sni alpn HS HB HF;
    pose proof HS as (HE & _ & _ & HL); cbn [ext_loop]; rewrite HE; cbn [negb]; rewrite andb_true_r;
    (destruct k as [|y k]; [change (zlen []) with 0 in HL|rewrite zlen_cons in HL; pose proof (zlen_nonneg k)]).
  1, 3: rewrite (proj2 (Z.ltb_ge _ _)), (proj2 (Z.eqb_eq _ _)) by lia; cbn [orb negb]; split;
    [intros <-; exists []; split_and!; [done|done|split; [by left|destruct ia; [by left|done]]]|];
    intros (l & _ & HK & [HN1 HN2]); symmetry in HK; apply ext_body_nil in HK as ->;
    rewrite <- (info_eta info); f_equal; [destruct HN1 as [[_ ?]|(_ & ? & ? & _)]|
      destruct ia; [destruct HN2 as [[_ ?]|(_ & ? & _)]|]]; done.
  - cbn in HF. lia.
  - rewrite (proj2 (Z.ltb_lt _ _)) by lia. set (k0 := y :: k) in *. pose proof (ext_read c k0 HS HB) as HR.
    destruct (c_u16 c) as [t c1]. destruct (c_u16 c1) as [n c2].
    destruct (c_take n c2) as [d c3].
    destruct HR as [(k' & EK & HO & HD & HS3 & HBc & ->)|[-> HR]].
    2: { split; [by intros <-|]. intros ([|e l] & HFl & HK & _); [done|]. apply Forall_cons in HFl as [He _].
         exfalso. by apply (HR e (ext_body l)). }
    rewrite EK in HB. apply Forall_app in HB as [HBe HB'].
    assert (HF' : (length k' <= fuel)%nat).
    { apply (f_equal length) in EK. unfold k0, ext_entry in EK. cbn in EK, HF. rewrite length_app in EK. lia. }
    assert (HX : (exists l, Forall ext_ok l /\ k0 = ext_body l /\ hello_offers ia l sni alpn info) <->
       (exists l, Forall ext_ok l /\ k' = ext_body l /\ hello_offers ia ((t, d) :: l) sni alpn info)).
    { split.
      - intros ([|e l] & HFl & HK & HNl); [done|]. apply Forall_cons in HFl as [He HFl]. rewrite EK in HK.
        apply ext_entry_inj in HK as [<- ->]; [|done..]. by exists l.
      - intros (l & HFl & -> & HNl). exists ((t, d) :: l). split_and!; [by constructor|done|done]. }
    rewrite HX, <- HBc. clear HX HS. destruct (Z.eqb_spec t 0) as [->|Ht].
    + setoid_rewrite hello_offers_name; [|done].
      destruct sni as [h|]; [split; [by intros <-|naive_solver]|]. case_bool_decide as EP; [split; [by intros <-|naive_solver]|].
      rewrite (IH c3 k') by done. naive_solver.
    + destruct (ia && (t =? 16)) eqn:EI; [|setoid_rewrite hello_offers_other; [by apply IH|done..]].
      destruct ia; [|done]. cbn [andb] in EI. apply Z.eqb_eq in EI as ->. setoid_rewrite hello_offers_alpn; [|done].
      destruct alpn as [h|]; [split; [by intros <-|naive_solver]|].
      destruct (parseALPNExtension d) as [ps|]; [|split; [by intros <-|naive_solver]]. rewrite (IH c3 k') by done. naive_solver.
Qed.

(** ** The message *)

Lemma u8_stuck c : c_err c = true -> c_u8 c = (0, set_err c).
Proof. intros HE. unfold c_u8. by rewrite HE. Qed.

Lemma u16_stuck c : c_err c = true -> c_u16 c = (0, set_err c).
Proof. intros HE. unfold c_u16. by rewrite HE. Qed.

Lemma skip_stuck n c : c_err c = true -> c_skip n c = set_err c.
Proof. intros HE. unfold c_skip. by rewrite HE. Qed.

Lemma hello_body_split h s :
  hello_body h ++ s = be_bytes 2 (h_version h) ++ h_random h ++ be_bytes 1 (zlen (h_session h)) ++ h_session h ++
    be_bytes 2 (zlen (h_ciphers h)) ++ h_ciphers h ++ be_bytes 1 (zlen (h_compression h)) ++ h_compression h ++
    be_bytes 2 (zlen (ext_body (h_exts h))) ++ ext_body (h_exts h) ++ s.
Proof. unfold hello_body, vec8, vec16. by rewrite <- !app_assoc. Qed.

(** Every accepted message is an encoding. *)
Lemma parse_sound b0 b ia info : b0 = b -> Forall is_byte b -> info <> no_info -> parseClientHello b0 ia = info ->
  exists h, hello_ok h /\ b = hello_message h /\ hello_offers ia (h_exts h) None None info.
Proof.
  intros Hb HB HN. unfold parseClientHello. assert (HS0 : sees (MkCursor b0 0 false) b) by (subst; apply sees_start).
  assert (HFl : (length b <= length b0)%nat) by (by subst).
  destruct (c_u8_cases _ _ HS0) as [(t & k0 & -> & -> & HS)|[-> E]]; [|rewrite E; by intros <-].
  destruct (Z.eqb_spec t 1) as [->|]; cbn [negb]; [|by intros <-]. apply Forall_cons in HB as [_ HB].
  destruct (c_u24_cases _ _ HS HB) as [(n & k1 & -> & Hn & -> & HS1)|[_ E]]; [|rewrite E; cbn; by intros <-].
  apply Forall_app in HB as [_ HB]. rewrite (sees_err _ _ HS1). cbn [orb].
  destruct (Z.eqb_spec n (zlen b0 - 4)) as [Hd|]; cbn [negb]; [|by intros <-].
  destruct (c_u16_cases _ _ HS1 HB) as [(v & k2 & -> & Hv & -> & HS2)|[_ E]]; [|rewrite E; by intros <-].
  apply Forall_app in HB as [_ HB]. destruct ((v <? 768) || (772 <? v)) eqn:EV; [by intros <-|].
  destruct (c_skip_cases 32 _ _ HS2 ltac:(lia)) as [(rnd & k3 & -> & Hrnd & -> & HS3)|[_ E]].
  2: { rewrite E, u8_stuck, skip_stuck, u16_stuck by done. by intros <-. }
  apply Forall_app in HB as [_ HB].
  destruct (c_u8_cases _ _ HS3) as [(sl & k4 & -> & -> & HS4)|[-> E]]; [|rewrite E, skip_stuck, u16_stuck by done; by intros <-].
  apply Forall_cons in HB as [Hsl HB]. unfold is_byte in Hsl. destruct (Z.ltb_spec 32 sl) as [|Hsl32]; [by intros <-|].
  destruct (c_skip_cases sl _ _ HS4 ltac:(lia)) as [(ses & k5 & -> & Hses & -> & HS5)|[_ E]]; [|rewrite E, u16_stuck by done; by intros <-].
  apply Forall_app in HB as [_ HB].
  destruct (c_u16_cases _ _ HS5 HB) as [(cl & k6 & -> & Hcl & -> & HS6)|[_ E]]; [|rewrite E; by intros <-].
  apply Forall_app in HB as [_ HB]. destruct ((cl <? 2) || negb (cl mod 2 =? 0)) eqn:EC; [by intros <-|].
  destruct (c_skip_cases cl _ _ HS6 ltac:(lia)) as [(cs & k7 & -> & Hcs & -> & HS7)|[_ E]]; [|rewrite E, u8_stuck by done; by intros <-].
  apply Forall_app in HB as [_ HB].
  destruct (c_u8_cases _ _ HS7) as [(ml & k8 & -> & -> & HS8)|[-> E]]; [|rewrite E; by intros <-].
  apply Forall_cons in HB as [Hml HB]. unfold is_byte in Hml. destruct (Z.ltb_spec ml 1) as [|Hml1]; [by intros <-|].
  destruct (c_skip_cases ml _ _ HS8 ltac:(lia)) as [(cm & k9 & -> & Hcm & -> & HS9)|[_ E]]; [|rewrite E; by intros <-].
  apply Forall_app in HB as [_ HB]. rewrite (sees_err _ _ HS9).
  destruct (_ =? zlen b0); [by intros <-|].
  destruct (c_u16_cases _ _ HS9 HB) as [(el & k10 & -> & Hel & -> & HS10)|[_ E]]; [|rewrite E; cbn; by intros <-].
  apply Forall_app in HB as [_ HB]. rewrite (sees_err _ _ HS10). cbn [orb].
  match goal with |- context [?p + el =? ?q] => destruct (Z.eqb_spec (p + el) q) as [He|]; cbn [negb]; [rewrite He|by intros <-] end.
  pose proof HS10 as (_ & _ & _ & HL10). cbn [c_b c_pos advance] in HL10, He. intros HX.
  assert (HF : (length k10 <= length b0)%nat) by (revert HFl; repeat (rewrite length_app || cbn [length]); lia).
  destruct (proj1 (ext_loop_exact _ ia _ k10 None None info HS10 HB HF HN) HX) as (l & HFx & -> & HO).
  exists (MkHello v rnd ses cs cm l). split; [|split; [|done]].
  - constructor; cbn [h_version h_random h_session h_ciphers h_compression h_exts]; try blia.
    + rewrite Hcs. bool_props. lia.
    + split; [done|lia].
  - set (h := MkHello v rnd ses cs cm l). unfold hello_message. rewrite <- (app_nil_r (hello_body h)) at 2.
    assert (HE : hello_body h ++ [] = be_bytes 2 v ++ rnd ++ sl :: ses ++ be_bytes 2 cl ++ cs ++ ml :: cm ++ be_bytes 2 el ++ ext_body l).
    { rewrite hello_body_split. unfold h. cbn [h_version h_random h_session h_ciphers h_compression h_exts].
      rewrite Hses, Hcs, Hcm, app_nil_r. rewrite (be_bytes_1 sl), (be_bytes_1 ml) by lia.
      replace (zlen (ext_body l)) with el by lia. done. }
    rewrite HE. rewrite app_nil_r in HE. rewrite HE. f_equal. f_equal. f_equal. subst b0.
    rewrite zlen_cons, zlen_app, be_zlen in Hd. lia.
Qed.

Lemma u8_reads c x k : sees c (x :: k) -> c_u8 c = (x, advance c 1) /\ sees (advance c 1) k.
Proof. intros HS. destruct (c_u8_cases _ _ HS) as [(? & ? & [= <- <-] & ?)|[? _]]; done. Qed.

Lemma u16_reads c n k : 0 <= n < 65536 -> Forall is_byte (be_bytes 2 n ++ k) -> sees c (be_bytes 2 n ++ k) ->
  c_u16 c = (n, advance c 2) /\ sees (advance c 2) k.
Proof.
  intros Hn HB HS. destruct (c_u16_cases _ _ HS HB) as [(m & k' & E & Hm & HR)|[HL _]].
  - apply be_bytes_inj in E as [-> ->]; [done|cbn; lia..].
  - rewrite zlen_app, be_zlen in HL. pose proof (zlen_nonneg k). lia.
Qed.

Lemma u24_reads c n k : 0 <= n < 2 ^ 24 -> Forall is_byte (be_bytes 3 n ++ k) -> sees c (be_bytes 3 n ++ k) ->
  c_u24 c = (n, advance c 3) /\ sees (advance c 3) k.
Proof.
  intros Hn HB HS. destruct (c_u24_cases _ _ HS HB) as [(m & k' & E & Hm & HR)|[HL _]].
  - apply be_bytes_inj in E as [-> ->]; [done|cbn; lia..].
  - rewrite zlen_app, be_zlen in HL. pose proof (zlen_nonneg k). lia.
Qed.

Lemma skip_reads c s k : sees c (s ++ k) -> c_skip (zlen s) c = advance c (zlen s) /\ sees (advance c (zlen s)) k.
Proof.
  intros HS. pose proof (zlen_nonneg s). destruct (c_skip_cases (zlen s) _ _ HS) as [(x & k' & E & HL & HR)|[HL _]]; [done| |].
  - apply app_inj_1 in E as [-> ->]; [done|]. unfold zlen in HL. lia.
  - rewrite zlen_app in HL. pose proof (zlen_nonneg k). lia.
Qed.

Lemma hello_body_length h : hello_ok h -> zlen (hello_body h) =
  40 + zlen (h_session h) + zlen (h_ciphers h) + zlen (h_compression h) + zlen (ext_body (h_exts h)).
Proof.
  intros [_ HR _ _ _ _]. rewrite <- (app_nil_r (hello_body h)), hello_body_split. rewrite !zlen_app, !be_zlen, HR.
  change (zlen []) with 0. lia.
Qed.

(** Every encoding is accepted with what its extensions say. *)
Lemma parse_complete h ia info :
  hello_ok h -> Forall is_byte (hello_message h) -> info <> no_info -> hello_offers ia (h_exts h) None None info ->
  parseClientHello (hello_message h) ia = info.
Proof.
  intros HO HB HN HI. pose proof (hello_body_length h HO) as HLb. pose proof HO as [HV HR HS [HC HC2] HM [HX1 HX2]].
  pose proof (sees_start (hello_message h)) as H0. unfold parseClientHello. remember (hello_message h) as b0 eqn:Hb.
  rewrite Hb in HB. unfold hello_message in HB. assert (H1 : sees (MkCursor b0 0 false) (hello_message h)) by (by rewrite <- Hb).
  apply u8_reads in H1 as [-> H1]. cbn [Z.eqb Pos.eqb negb]. apply Forall_cons in HB as [_ HB].
  pose proof (zlen_nonneg (h_session h)). pose proof (zlen_nonneg (ext_body (h_exts h))).
  assert (Hz : zlen b0 = 4 + zlen (hello_body h)) by (rewrite Hb; unfold hello_message; rewrite zlen_cons, zlen_app, be_zlen; lia).
  apply u24_reads in H1 as [-> H1]; [|lia|done]. apply Forall_app in HB as [_ HB]. rewrite (sees_err _ _ H1), (proj2 (Z.eqb_eq _ _)) by lia.
  cbn [orb negb]. rewrite <- (app_nil_r (hello_body h)), hello_body_split in H1, HB.
  apply u16_reads in H1 as [-> H1]; [|lia|done]. apply Forall_app in HB as [_ HB].
  rewrite (proj2 (Z.ltb_ge _ _)), (proj2 (Z.ltb_ge 772 _)) by lia. cbn [orb].
  apply skip_reads in H1 as [Es H1]. rewrite HR in Es, H1. rewrite Es. apply Forall_app in HB as [_ HB]. rewrite be_bytes_1 in H1, HB by lia.
  apply u8_reads in H1 as [-> H1]. apply Forall_cons in HB as [_ HB]. rewrite (proj2 (Z.ltb_ge 32 _)) by lia.
  apply skip_reads in H1 as [-> H1]. apply Forall_app in HB as [_ HB].
  apply u16_reads in H1 as [-> H1]; [|lia|done]. apply Forall_app in HB as [_ HB].
  rewrite (proj2 (Z.ltb_ge _ 2)), HC2 by lia. cbn [orb negb Z.eqb].
  apply skip_reads in H1 as [-> H1]. apply Forall_app in HB as [_ HB]. rewrite be_bytes_1 in H1, HB by lia.
  apply u8_reads in H1 as [-> H1]. apply Forall_cons in HB as [_ HB]. rewrite (proj2 (Z.ltb_ge _ 1)) by lia.
  apply skip_reads in H1 as [-> H1]. apply Forall_app in HB as [_ HB]. rewrite (sees_err _ _ H1).
  pose proof H1 as (_ & _ & _ & HL). rewrite zlen_app, be_zlen, app_nil_r in HL.
  cbn [c_b c_pos advance] in HL. rewrite (proj2 (Z.eqb_neq _ _)) by (cbn [c_pos advance]; lia).
  apply u16_reads in H1 as [-> H1]; [|lia|done]. apply Forall_app in HB as [_ HB]. rewrite (sees_err _ _ H1). cbn [orb].
  rewrite (proj2 (Z.eqb_eq _ _)) by (cbn [c_pos advance]; lia). cbn [negb]. rewrite app_nil_r in H1, HB.
  match goal with |- ext_loop _ _ ?e ?c _ _ = _ => replace e with (zlen (c_b c)) by (cbn [c_b c_pos advance]; lia) end.
  apply (ext_loop_exact _ _ _ (ext_body (h_exts h))); [done|done|unfold zlen in *; lia|done|]. by exists (h_exts h).
Qed.

(** C34: The parser accepts exactly the encodings of a ClientHello: whenever it
    reports a server name or protocols, the message is the encoding of a hello
    with well-formed lengths that has at most one server_name extension, with
    exactly one host name, and, where ALPN is inspected, at most one ALPN list,
    and it reports precisely those (an empty name for a hello that only offers
    protocols); and it reports them for every such hello. *)
Theorem client_hello_exact (b : list Z) (inspectALPN : bool) (info : clientHelloInfo) :
  Forall is_byte b -> info <> no_info ->
  parseClientHello b inspectALPN = info <->
  exists h, hello_ok h /\ b = hello_message h /\ hello_offers inspectALPN (h_exts h) None None info.
Proof.
  intros HB HN. split; [by apply (parse_sound b b)|]. intros (h & HO & -> & HI). by apply parse_complete.
Qed.

(** ** Fragmentation *)

(** A handshake record with its legacy version. *)
Definition record (f : Z * list Z) : list Z := [22; 3; f.1] ++ vec16 f.2.

Definition record_ok (f : Z * list Z) : Prop := 0 <= f.1 <= 4 /\ 1 <= zlen f.2 <= tlsRecordMax.

Definition payloads (l : list (Z * list Z)) : list Z := concat (map snd l).

Lemma record_length f : zlen (record f) = 5 + zlen f.2.
Proof. unfold record. rewrite zlen_app, vec16_length. change (zlen [22; 3; f.1]) with 3. lia. Qed.

Lemma Peek_middle a x s : zlen a + zlen x <= tlsInspectMax ->
  exists t, Peek (a ++ x ++ s) (zlen a + zlen x) = Some t /\ drop (Z.to_nat (zlen a)) t = x.
Proof.
  intros HM. unfold Peek. rewrite (proj2 (Z.ltb_ge tlsInspectMax _)) by lia.
  rewrite (proj2 (Z.ltb_ge _ _)) by (rewrite !zlen_app; pose proof (zlen_nonneg s); lia). cbn [orb]. eexists. split; [done|].
  unfold zlen. rewrite <- Nat2Z.inj_add, !Nat2Z.id. rewrite app_assoc, <- length_app, take_app_length, drop_app_length. done.
Qed.

Lemma shifted_length n b1 b2 b3 : 0 <= n < 2 ^ 24 -> be_bytes 3 n = [b1; b2; b3] -> Z.shiftl b1 16 + Z.shiftl b2 8 + b3 = n.
Proof.
  intros Hn E. rewrite <- (be_val_bytes 3 n), E by (cbn; lia). unfold be_val. cbn. rewrite !Z.shiftl_mul_pow2 by lia. lia.
Qed.

(** A message that says its own length. *)
Definition handshake (m : list Z) : Prop :=
  exists body, m = 1 :: be_bytes 3 (zlen body) ++ body /\ zlen m <= tlsClientHelloMax.

(** The first four bytes give the type and the length. *)
Lemma handshake_head m extra u w : handshake m -> u ++ w = m ++ extra -> 4 <= zlen u ->
  nth 0 u 0 = 1 /\ 4 + Z.shiftl (nth 1 u 0) 16 + Z.shiftl (nth 2 u 0) 8 + nth 3 u 0 = zlen m.
Proof.
  intros (body & Hm & HL) E Hu. pose proof (zlen_nonneg body).
  assert (Hz : zlen m = 4 + zlen body) by (rewrite Hm, zlen_cons, zlen_app, be_zlen; lia). unfold tlsClientHelloMax in HL.
  destruct u as [|u0 [|u1 [|u2 [|u3 u]]]]; unfold zlen in Hu; cbn [length] in Hu; try lia.
  cbn [nth]. rewrite Hm in E. remember (be_bytes 3 (zlen body)) as l3 eqn:E3.
  assert (HL3 : length l3 = 3%nat) by (rewrite E3; apply be_bytes_ok).
  destruct l3 as [|b1 [|b2 [|b3 [|? ?]]]]; try done. injection E as -> -> -> -> _. split; [done|].
  pose proof (shifted_length (zlen body) b1 b2 b3 ltac:(lia) ltac:(done)). lia.
Qed.

Lemma handshake_min m : handshake m -> 4 <= zlen m.
Proof. intros (body & -> & _). rewrite zlen_cons, zlen_app, be_zlen. pose proof (zlen_nonneg body). lia. Qed.

Lemma message_prefix (m extra u w : list Z) : u ++ w = m ++ extra -> zlen m <= zlen u -> take (Z.to_nat (zlen m)) u = m.
Proof.
  intros E HL. unfold zlen in *. rewrite Nat2Z.id. apply (f_equal (take (length m))) in E.
  rewrite take_app_length, take_app_le in E by lia. done.
Qed.

(** The length known so far. *)
Definition want_of (m u : list Z) : Z := if zlen u <? 4 then 0 else zlen m.

(** One record of a fragmented message: the message is complete, or it is
    longer by the payload. *)
Lemma record_step_frag m extra u p w :
  handshake m -> u ++ p ++ w = m ++ extra -> zlen (m ++ extra) <= tlsClientHelloMax -> zlen u < zlen m ->
  exists u', record_step u (want_of m u) p = Some (u', want_of m u') /\
    ((zlen m <= zlen u' /\ take (Z.to_nat (zlen m)) u' = m) \/ (u' = u ++ p /\ zlen u' < zlen m)).
Proof.
  intros HM E HT HU. pose proof (handshake_min m HM) as H4. pose proof (zlen_nonneg u). pose proof (zlen_nonneg p). pose proof (zlen_nonneg w).
  pose proof (f_equal zlen E) as EZ. rewrite !zlen_app in EZ. rewrite zlen_app in HT. unfold record_step, want_of.
  destruct (Z.ltb_spec (zlen u) 4) as [Hs|Hs].
  - change (0 <? 0) with false. cbn [andb]. rewrite (proj2 (Z.ltb_ge (zlen p) 0)), (proj2 (Z.ltb_ge tlsClientHelloMax _)) by lia. cbn [orb].
    replace (take (Z.to_nat (zlen p)) p) with p by (unfold zlen; by rewrite Nat2Z.id, take_ge).
    rewrite app_assoc in E. exists (u ++ p). change (0 =? 0) with true. cbn [andb]. rewrite zlen_app. destruct (Z.leb_spec 4 (zlen u + zlen p)) as [Hf|Hf].
    + destruct (handshake_head m extra (u ++ p) w HM E ltac:(rewrite zlen_app; lia)) as [-> ->]. change (1 =? 1) with true. cbn [negb].
      destruct HM as (body & _ & HL). rewrite (proj2 (Z.ltb_ge (zlen m) 4)), (proj2 (Z.ltb_ge tlsClientHelloMax (zlen m))) by lia. cbn [orb].
      rewrite (proj2 (Z.ltb_ge _ 4)) by lia. split; [done|]. destruct (Z.le_gt_cases (zlen m) (zlen u + zlen p)); [left|right; split; [done|lia]].
      split; [done|]. apply (message_prefix m extra (u ++ p) w E). rewrite zlen_app. lia.
    + rewrite (proj2 (Z.ltb_lt _ 4)) by lia. split; [done|]. right. split; [done|lia].
  - rewrite (proj2 (Z.ltb_lt 0 (zlen m))) by lia. cbn [andb]. rewrite (proj2 (Z.eqb_neq (zlen m) 0)) by lia. cbn [andb].
    destruct (Z.ltb_spec (zlen m) (zlen u + zlen p)) as [Hc|Hc].
    + rewrite (proj2 (Z.ltb_ge _ 0)), (proj2 (Z.ltb_ge tlsClientHelloMax _)) by lia. cbn [orb].
      set (u' := u ++ take (Z.to_nat (zlen m - zlen u)) p). exists u'.
      assert (HL : zlen u' = zlen m) by (unfold u'; rewrite zlen_app; unfold zlen in *; rewrite length_take; lia).
      rewrite HL, (proj2 (Z.ltb_ge _ 4)) by lia. split; [done|]. left. split; [lia|].
      apply (message_prefix m extra u' (drop (Z.to_nat (zlen m - zlen u)) p ++ w)); [|lia].
      unfold u'. rewrite <- app_assoc, (app_assoc (take _ _)), take_drop. done.
    + rewrite (proj2 (Z.ltb_ge _ 0)), (proj2 (Z.ltb_ge tlsClientHelloMax _)) by lia. cbn [orb].
      replace (take (Z.to_nat (zlen p)) p) with p by (unfold zlen; by rewrite Nat2Z.id, take_ge). rewrite app_assoc in E.
      exists (u ++ p). rewrite zlen_app, (proj2 (Z.ltb_ge _ 4)) by lia. split; [done|].
      destruct (Z.le_gt_cases (zlen m) (zlen u + zlen p)); [left|right; split; [done|lia]].
      split; [done|]. apply (message_prefix m extra (u ++ p) w E). rewrite zlen_app. lia.
Qed.

Lemma record_header v n : 0 <= n < 65536 -> exists hi lo, be_bytes 2 n = [hi; lo] /\ Z.lor (Z.shiftl hi 8) lo = n /\
  nth 2 ([22; 3; v] ++ be_bytes 2 n) 0 = v.
Proof.
  intros Hn. destruct (be_bytes_ok 2 n) as [HL HB]. destruct (be_bytes 2 n) as [|hi [|lo [|? ?]]] eqn:E; try done.
  exists hi, lo. split; [done|]. split; [|done]. rewrite !Forall_cons in HB. unfold is_byte in HB.
  rewrite lor_shift by lia. rewrite <- (be_val_bytes 2 n), E, be_val_2 by (cbn; lia). done.
Qed.

(** One turn of the loop at a well-formed record. *)
Lemma record_loop_next n a v p s ia u want :
  record_ok (v, p) -> zlen a + 5 + zlen p <= tlsInspectMax ->
  record_loop (S n) (a ++ record (v, p) ++ s) ia (zlen a) u want =
  match record_step u want p with
  | None => no_info
  | Some (u', w) =>
      if (0 <? w) && (w <=? zlen u') then parseClientHello (take (Z.to_nat w) u') ia
      else record_loop n (a ++ record (v, p) ++ s) ia (zlen a + 5 + zlen p) u' w
  end.
Proof.
  intros [Hv Hp] HI. cbn [fst snd] in Hv, Hp. unfold tlsRecordMax in Hp. cbn [record_loop].
  destruct (record_header v (zlen p) ltac:(lia)) as (hi & lo & Eb & El & _).
  assert (ER : record (v, p) = [22; 3; v; hi; lo] ++ p) by (unfold record, vec16; cbn [fst snd]; by rewrite Eb).
  assert (P1 : exists t, Peek (a ++ record (v, p) ++ s) (zlen a + 5) = Some t /\ drop (Z.to_nat (zlen a)) t = [22; 3; v; hi; lo]).
  { rewrite ER. change 5 with (zlen [22; 3; v; hi; lo]). rewrite <- (app_assoc _ p s). apply Peek_middle. change (zlen [22; 3; v; hi; lo]) with 5. lia. }
  destruct P1 as (t & -> & ->). cbn [nth]. change (22 =? 22) with true. change (3 =? 3) with true. cbn [negb orb].
  rewrite El, (proj2 (Z.ltb_ge 4 v)), (proj2 (Z.eqb_neq (zlen p) 0)), (proj2 (Z.ltb_ge tlsRecordMax _)), (proj2 (Z.ltb_ge tlsInspectMax _))
    by (unfold tlsRecordMax; lia). cbn [orb].
  assert (P2 : exists t, Peek (a ++ record (v, p) ++ s) (zlen a + 5 + zlen p) = Some t /\ drop (Z.to_nat (zlen a + 5)) t = p).
  { pose proof (Peek_middle (a ++ [22; 3; v; hi; lo]) p s) as HP. rewrite zlen_app in HP. change (zlen [22; 3; v; hi; lo]) with 5 in HP.
    rewrite ER, <- (app_assoc _ p s). rewrite <- app_assoc in HP. by apply HP. }
  by destruct P2 as (t2 & -> & ->).
Qed.

(** The records read so far, and the ones to come. *)
Lemma record_loop_frag m extra frs : forall n seen rest ia,
  handshake m -> Forall record_ok frs -> (length frs <= n)%nat -> (length seen + length frs <= 64)%nat ->
  payloads seen ++ payloads frs = m ++ extra -> zlen (m ++ extra) <= tlsClientHelloMax -> zlen (payloads seen) < zlen m ->
  zlen (concat (map record seen)) = zlen (payloads seen) + 5 * Z.of_nat (length seen) ->
  record_loop n (concat (map record seen) ++ concat (map record frs) ++ rest) ia (zlen (concat (map record seen)))
    (payloads seen) (want_of m (payloads seen)) = parseClientHello m ia.
Proof.
  induction frs as [|[v p] frs IH]; intros n seen rest ia HM HF Hn H64 E HT HU HZ.
  { apply (f_equal zlen) in E. unfold payloads at 2 in E. cbn in E. rewrite app_nil_r, zlen_app in E. pose proof (zlen_nonneg extra). lia. }
  apply Forall_cons in HF as [Hr HF]. destruct n as [|n]; [cbn in Hn; lia|].
  set (a := concat (map record seen)) in *. set (u := payloads seen) in *.
  assert (HS : concat (map record ((v, p) :: frs)) ++ rest = record (v, p) ++ concat (map record frs) ++ rest)
    by (cbn [map concat]; by rewrite <- app_assoc). rewrite HS. clear HS.
  change (payloads ((v, p) :: frs)) with (p ++ payloads frs) in E.
  pose proof (f_equal zlen E) as EZ. rewrite !zlen_app in EZ. rewrite zlen_app in HT.
  pose proof (zlen_nonneg (payloads frs)). cbn [length] in H64.
  rewrite record_loop_next by (done || unfold tlsInspectMax, tlsClientHelloMax, tlsClientHelloMaxRecords in *; lia).
  destruct (record_step_frag m extra u p (payloads frs) HM) as (u' & -> & HC); [done|rewrite zlen_app; lia|done|].
  pose proof (handshake_min m HM). destruct HC as [[HL HT']|[-> HL]].
  - unfold want_of. rewrite (proj2 (Z.ltb_ge (zlen u') 4)), (proj2 (Z.ltb_lt 0 (zlen m))), (proj2 (Z.leb_le _ _)) by lia.
    cbn [andb]. by rewrite HT'.
  - assert (HW : (0 <? want_of m (u ++ p)) && (want_of m (u ++ p) <=? zlen (u ++ p)) = false)
      by (unfold want_of; destruct (_ <? 4); [done|]; rewrite (proj2 (Z.leb_gt _ _)) by lia; apply andb_false_r).
    rewrite HW. rewrite zlen_app in HL. assert (ES : u ++ p = payloads (seen ++ [(v, p)])).
    { unfold u, payloads. rewrite map_app, concat_app. cbn. by rewrite app_nil_r. }
    assert (EA : a ++ record (v, p) = concat (map record (seen ++ [(v, p)]))).
    { unfold a. rewrite map_app, concat_app. cbn [map concat]. by rewrite app_nil_r. }
    rewrite (app_assoc a). replace (zlen a + 5 + zlen p) with (zlen (a ++ record (v, p))) by (rewrite zlen_app, record_length; cbn [snd]; lia).
    rewrite ES, EA. apply IH; try done; rewrite ?length_app, <- ?ES, <- ?EA, ?zlen_app, ?record_length; cbn [snd length] in *; try lia.
    by rewrite <- app_assoc.
Qed.

Lemma peek_frag m extra rest frs ia :
  handshake m -> Forall record_ok frs -> (length frs <= tlsClientHelloMaxRecords)%nat ->
  payloads frs = m ++ extra -> zlen (m ++ extra) <= tlsClientHelloMax ->
  peekClientHello (concat (map record frs) ++ rest) ia = parseClientHello m ia.
Proof.
  intros HM HF HN E HT. pose proof (handshake_min m HM).
  apply (record_loop_frag m extra frs tlsClientHelloMaxRecords [] rest ia); try done. change (zlen (payloads [])) with 0. lia.
Qed.

(** However a ClientHello is cut into handshake records, with whatever
    follows it, the peeked bytes give what the message itself says, as long as
    the records and the message are within the caps. *)
Theorem client_hello_fragmentation (m extra rest : list Z) (frs : list (Z * list Z)) (inspectALPN : bool) :
  handshake m -> Forall record_ok frs -> (length frs <= tlsClientHelloMaxRecords)%nat ->
  payloads frs = m ++ extra -> zlen (m ++ extra) <= tlsClientHelloMax ->
  peekClientHello (concat (map record frs) ++ rest) inspectALPN = parseClientHello m inspectALPN.
Proof. apply peek_frag. Qed.

(** ** Routing *)

(** The records carry a ClientHello that names and offers [info]. *)
Record client_sends (frs : list (Z * list Z)) (ia : bool) (info : clientHelloInfo) : Prop := {
  cs_records : Forall record_ok frs /\ (length frs <= tlsClientHelloMaxRecords)%nat;
  cs_hello : exists h extra, hello_ok h /\ Forall is_byte (hello_message h) /\ payloads frs = hello_message h ++ extra /\
    zlen (hello_message h ++ extra) <= tlsClientHelloMax /\ hello_offers ia (h_exts h) None None info;
  cs_info : info <> no_info
}.

Lemma client_sends_peeked frs ia info rest :
  client_sends frs ia info -> peekClientHello (concat (map record frs) ++ rest) ia = info.
Proof.
  intros [[HR HL] (h & extra & HO & HB & HP & HT & HI) HN].
  rewrite (peek_frag (hello_message h) extra); try done; [by apply parse_complete|].
  exists (hello_body h). split; [done|]. rewrite zlen_app in HT. pose proof (zlen_nonneg extra). lia.
Qed.

Section Routing.
Context `{Unicode} {Pool : Type}.

Lemma existsb_same_set {A} (f : A -> bool) (l k : list A) : (forall x, x ∈ l <-> x ∈ k) -> existsb f l = existsb f k.
Proof.
  intros HS. apply eq_true_iff_eq. rewrite !existsb_exists. split; intros (x & Hx & Hf); exists x; (split; [|done]);
    apply list_elem_of_In, HS, list_elem_of_In, Hx.
Qed.

Lemma selectPool_offers (r : route (Pool := Pool)) i j :
  ToLower (serverName i) = ToLower (serverName j) -> (forall p, p ∈ protocols i <-> p ∈ protocols j) ->
  selectPool r i = selectPool r j.
Proof.
  intros EH EP. unfold selectPool. rewrite EH.
  assert (ET : forall ex host, alpn_tier ex host (protocols i) (rt_alpnRoutes r) = alpn_tier ex host (protocols j) (rt_alpnRoutes r)).
  { intros ex host. unfold alpn_tier. f_equal. induction (rt_alpnRoutes r) as [|rule l IH]; [done|]. cbn [find].
    unfold alpn_rule at 1 3. by rewrite (existsb_same_set _ _ _ EP), IH. }
  by rewrite !ET.
Qed.

(** Two clients that ask for the same name, up to case, and offer the same
    protocols, in any order, are relayed to the same pool, however their hellos
    are fragmented and whatever else these contain; a matching rule for the
    exact name wins over every wildcard rule. *)
Theorem stream_route_stable (r : route (Pool := Pool)) (frs frs' : list (Z * list Z)) (rest rest' : list Z) (info info' : clientHelloInfo) :
  let ia := negb (bool_decide (rt_alpnRoutes r = [])) in
  client_sends frs ia info -> client_sends frs' ia info' ->
  ToLower (serverName info) = ToLower (serverName info') -> (forall p, p ∈ protocols info <-> p ∈ protocols info') ->
  connection_pool r (concat (map record frs) ++ rest) = connection_pool r (concat (map record frs') ++ rest') /\
  (forall rule, rule ∈ rt_alpnRoutes r -> ToLower (serverName info) <> [] -> ar_serverName rule <> str "*" ->
     ar_serverName rule = ToLower (serverName info) -> (exists p, p ∈ protocols info /\ p ∈ ar_protocols rule) ->
     exists rule', rule' ∈ rt_alpnRoutes r /\ ar_serverName rule' = ToLower (serverName info) /\
       connection_pool r (concat (map record frs) ++ rest) = Some (ar_pool rule')).
Proof.
  intros ia HS HS' EH EP. unfold connection_pool. fold ia.
  rewrite (client_sends_peeked frs ia info rest HS), (client_sends_peeked frs' ia info' rest' HS'), (selectPool_offers r info info' EH EP).
  split; [done|]. intros rule HR HNe HSt HNm (p & Hp & Hq).
  assert (HM : alpn_rule true (ToLower (serverName info')) (protocols info') rule = true).
  { unfold alpn_rule. rewrite <- EH, !bool_decide_false, bool_decide_true by done. cbn [orb negb andb].
    apply existsb_exists. exists p. split; [by apply list_elem_of_In, EP|]. by apply bool_decide_eq_true. }
  destruct (find (alpn_rule true (ToLower (serverName info')) (protocols info')) (rt_alpnRoutes r)) as [rule'|] eqn:EF.
  2: { eapply find_none in EF; [|by apply list_elem_of_In]. congruence. }
  exists rule'. pose proof (find_some _ _ EF) as [HI HF]. split; [by apply list_elem_of_In|].
  unfold alpn_rule in HF. apply andb_true_iff in HF as [HF _]. apply negb_true_iff, orb_false_iff in HF as [_ HF%negb_false_iff].
  apply bool_decide_eq_true in HF. rewrite EH. split; [done|].
  assert (EB : bool_decide (rt_alpnRoutes r = []) = false) by (apply bool_decide_false; intros E; rewrite E in HR; by apply elem_of_nil in HR).
  rewrite EB, andb_false_r. unfold selectPool, alpn_tier. by rewrite EF.
Qed.
End Routing.

(** ** A concrete hello *)

Definition demo_hello : hello :=
  MkHello 771 (replicate 32 7) [] [19; 1] [0]
    [(0, vec16 (sni_body [(0, str "a.b")])); (16, vec16 (alpn_body [str "h2"])); (43, [2; 3; 4])].
Definition demo_info : clientHelloInfo := MkInfo (str "a.b") [str "h2"].

(** The message in two records, the first with its first two bytes. *)
Definition demo_records : list (Z * list Z) := [(1, take 2 (hello_message demo_hello)); (3, drop 2 (hello_message demo_hello) ++ [0; 0])].

(** Closed comparisons, by evaluation. *)
Ltac closed_ineq :=
  match goal with
  | |- _ /\ _ => split; closed_ineq
  | |- _ <= _ => apply Z.leb_le; vm_compute; reflexivity
  | |- _ < _ => apply Z.ltb_lt; vm_compute; reflexivity
  | |- (_ <= _)%nat => apply Nat.leb_le; vm_compute; reflexivity
  | |- Forall _ _ => repeat (apply Forall_cons_2; [cbn beta; closed_ineq|]); apply Forall_nil_2
  | |- _ => reflexivity
  end.

Lemma demo_hello_ok : hello_ok demo_hello /\ Forall is_byte (hello_message demo_hello) /\
  hello_offers true (h_exts demo_hello) None None demo_info.
Proof.
  split; [constructor; closed_ineq|]. split.
  - apply Forall_forall. intros b Hb%list_elem_of_In. revert b Hb. unfold is_byte.
    assert (HF : forallb (fun b => (0 <=? b) && (b <? 256)) (hello_message demo_hello) = true) by (vm_compute; reflexivity).
    intros b Hb. eapply forallb_forall in HF; [|exact Hb]. lia.
  - split.
    + right. split; [done|]. exists [(0, str "a.b")]. unfold sni_names, host_ok. closed_ineq.
    + right. unfold offers_ok. closed_ineq.
Qed.

Lemma demo_sends : client_sends demo_records true demo_info.
Proof.
  destruct demo_hello_ok as (HO & HB & HI). constructor; [|exists demo_hello, [0; 0]|done].
  - split; [|closed_ineq]. unfold record_ok. closed_ineq.
  - split; [done|]. split; [done|]. split; [vm_compute; reflexivity|]. split; [closed_ineq|done].
Qed.

Lemma client_hello_exact_witness :
  parseClientHello (hello_message demo_hello) true = demo_info /\ demo_info <> no_info.
Proof.
  destruct demo_hello_ok as (HO & HB & HI). split; [|discriminate].
  apply (client_hello_exact (hello_message demo_hello) true demo_info HB); [discriminate|].
  exists demo_hello. split; [exact HO|]. split; [reflexivity|exact HI].
Defined.

Lemma client_hello_fragmentation_witness :
  peekClientHello (concat (map record demo_records) ++ [23; 3]) true = demo_info.
Proof.
  destruct demo_hello_ok as (HO & HB & HI). destruct demo_sends as [[HR HL] _ _].
  rewrite (client_hello_fragmentation (hello_message demo_hello) [0; 0] [23; 3] demo_records true); try assumption.
  - vm_compute. reflexivity.
  - exists (hello_body demo_hello). split; [reflexivity|closed_ineq].
  - vm_compute. reflexivity.
  - closed_ineq.
Defined.

Definition demo_route : route (Pool := Z) :=
  MkRoute (Some 0) {[ str "*" := 1 ]} [MkALPN (str "*") {[ str "h2" ]} 2; MkALPN (str "a.b") {[ str "h2" ]} 3].

Lemma stream_route_stable_witness :
  connection_pool (H := no_unicode) demo_route (concat (map record demo_records) ++ []) = Some 3.
Proof.
  destruct (stream_route_stable (H := no_unicode) demo_route demo_records demo_records [] [] demo_info demo_info demo_sends demo_sends eq_refl
    (fun p => iff_refl _)) as [_ HX].
  destruct (HX (MkALPN (str "a.b") {[ str "h2" ]} 3)) as (rule' & HI & HN & ->).
  - right. left.
  - discriminate.
  - discriminate.
  - reflexivity.
  - exists (str "h2"). split; [left|]. apply elem_of_singleton_2. reflexivity.
  - apply elem_of_cons in HI as [->|HI]; [discriminate HN|]. apply elem_of_cons in HI as [->|HI]; [reflexivity|].
    apply elem_of_nil in HI. destruct HI.
Defined.
