(* ===== verification/Redact.v ===== *)
(** * Masking of secrets (src/internal/redact, src/internal/server/server.go)

    The redaction state a configuration generation brings along, the masking of
    a line of output, and the server's registry that keeps the secrets of every
    generation masked until it has drained. *)

From S2P Require Import Prelude GoStrings Bytes.

(** ** States *)

Definition Mask : gostring := str "***".
Definition DefaultMinLen : Z := 4.

Record State := MkState { values : gset gostring; sorted : list gostring; minLen : Z }.

(** Longest first; Go's sort leaves the order of equal lengths open. *)
Definition longer (v w : gostring) : Prop := (length w <= length v)%nat.
#[global] Instance longer_dec v w : Decision (longer v w) := decide (length w <= length v)%nat.

Definition sortedLongestFirst (m : gset gostring) : list gostring := merge_sort longer (elements m).

Definition floor_len (n : Z) : Z := if n <? 1 then DefaultMinLen else n.

Definition NewState (vals : list gostring) (n : Z) : State :=
  let n := floor_len n in
  let m := list_to_set (filter (fun v => n <= zlen v) vals) in
  MkState m (sortedLongestFirst m) n.

Definition EmptyState : State := MkState ∅ [] DefaultMinLen.

(** The zero value of the Go type. *)
Definition zeroState : State := MkState ∅ [] 0.

Definition WithValue (s : State) (value : gostring) : State :=
  if zlen value <? minLen s then s
  else if bool_decide (value ∈ values s) then s
  else MkState ({[ value ]} ∪ values s) (merge_sort longer (sorted s ++ [value])) (minLen s).

Definition WithMinLen (s : State) (n : Z) : State := MkState (values s) (sorted s) (floor_len n).

Definition Union (s other : State) : State :=
  let n := if minLen other <? minLen s then minLen other else minLen s in
  let m := values s ∪ values other in
  MkState m (sortedLongestFirst m) (floor_len n).

Definition Retain (s : State) (keep : gostring -> bool) : State :=
  let m := filter (fun v => keep v = true) (values s) in
  MkState m (sortedLongestFirst m) (floor_len (minLen s)).

(** [strings.ReplaceAll] of a non-empty text: leftmost, non-overlapping. *)
Fixpoint replace_all (fuel : nat) (s old new : gostring) : gostring :=
  match fuel, s with
  | S fuel, c :: t =>
      if HasPrefix s old then new ++ replace_all fuel (drop (length old) s) old new else c :: replace_all fuel t old new
  | _, _ => s
  end.
Definition ReplaceAll (s old new : gostring) : gostring := replace_all (length s) s old new.

Definition Apply (s : State) (input : gostring) : gostring :=
  if bool_decide (values s = ∅) then input
  else foldl (fun input v => if Contains input v then ReplaceAll input v Mask else input) input (sorted s).

(** ** The registry of the server *)

Record registry := MkRegistry {
  redactGens : gmap Z State;
  redactGenBases : gmap Z State;
  retiredRedaction : State;
  live : State
}.

Definition new_registry : registry := MkRegistry ∅ ∅ zeroState EmptyState.

Definition Count (s : State) : nat := size (values s).

Definition redactUnionLocked (gens : gmap Z State) (retired : State) : State :=
  match (map_to_list gens).*2 with
  | st :: rest =>
      let merged := foldl Union st rest in
      if (0 <? Count retired)%nat then Union merged retired else merged
  | [] => if (0 <? Count retired)%nat then retired else EmptyState
  end.

Definition install (gens bases : gmap Z State) (retired : State) : registry :=
  MkRegistry gens bases retired (redactUnionLocked gens retired).

Definition registerRedactionGen (r : registry) (genID : Z) (state : State) : registry :=
  install (<[genID := state]> (redactGens r)) (<[genID := state]> (redactGenBases r)) (retiredRedaction r).

(** [effective] answers whether a value occurs in the effective configuration. *)
Definition mergeRedactionGen (r : registry) (genID : Z) (candidate : State) (effective : gostring -> bool) : registry :=
  let own := default zeroState (redactGens r !! genID) in
  let base := default own (redactGenBases r !! genID) in
  let gens := <[genID := Union (Union base (Retain own effective)) candidate]> (redactGens r) in
  install gens (<[genID := base]> (redactGenBases r)) (retiredRedaction r).

Definition retireRedactionGen (r : registry) (genID : Z) : registry :=
  install (delete genID (redactGens r)) (delete genID (redactGenBases r)) (retiredRedaction r).

Definition retireRedactionForGen (r : registry) (genID : Z) : registry :=
  match redactGens r !! genID with
  | None => r
  | Some state =>
      install (delete genID (redactGens r)) (delete genID (redactGenBases r))
        (if (Count (retiredRedaction r) =? 0)%nat then state else Union (retiredRedaction r) state)
  end.

(** A generation that does not drain in time keeps its secrets masked for good. *)
Definition moveRedactionToRetired (r : registry) (genID : Z) : registry :=
  let r := retireRedactionForGen r genID in
  install (redactGens r) (redactGenBases r) (retiredRedaction r).

Inductive redact_op :=
| RRegister (genID : Z) (state : State)
| RMerge (genID : Z) (candidate : State) (effective : gostring -> bool)
| RRetire (genID : Z)
| RMove (genID : Z).

Definition redact_exec (r : registry) (op : redact_op) : registry :=
  match op with
  | RRegister g st => registerRedactionGen r g st
  | RMerge g st eff => mergeRedactionGen r g st eff
  | RRetire g => retireRedactionGen r g
  | RMove g => moveRedactionToRetired r g
  end.

(** ** What masking does *)

(** The output is the input with some occurrences of the values masked. *)
Inductive masked (vs : list gostring) : gostring -> gostring -> Prop :=
| masked_nil : masked vs [] []
| masked_char c i o : masked vs i o -> masked vs (c :: i) (c :: o)
| masked_value v i o : v ∈ vs -> masked vs i o -> masked vs (v ++ i) (Mask ++ o).

(** A value worth masking: text without the mask's own character. *)
Definition plain (v : gostring) : Prop := v <> [] /\ 42 ∉ v.

Lemma masked_refl vs s : masked vs s s.
Proof. induction s; by constructor. Qed.

(** Text without a star at the front of the output is text of the input. *)
Lemma masked_prefix vs v i o : 42 ∉ v -> masked vs i (v ++ o) -> exists i', i = v ++ i' /\ masked vs i' o.
Proof.
  revert i. induction v as [|c v IH]; intros i Hv HM; [by exists i|]. apply not_elem_of_cons in Hv as [Hc Hv].
  inversion HM as [|c' i' o' HM' Ei Eo|u i' o' Hu HM' Ei Eo]; subst.
  - destruct (IH i' Hv HM') as (i2 & -> & H2). by exists i2.
  - done.
Qed.

Lemma masked_infix vs v i o a b : plain v -> masked vs i o -> o = a ++ v ++ b -> exists a' b', i = a' ++ v ++ b'.
Proof.
  intros [HN Hv] HM. revert a. induction HM as [|c i o HM IH|u i o Hu HM IH]; intros a E.
  - destruct a, v; done.
  - destruct a as [|x a].
    + rewrite app_nil_l in E. destruct (masked_prefix vs v (c :: i) b Hv) as (i' & -> & _); [rewrite <- E; by constructor|].
      by exists [], i'.
    + injection E as -> E. destruct (IH a E) as (a' & b' & ->). by exists (x :: a'), b'.
  - unfold Mask in E. cbn in E. destruct a as [|x1 [|x2 [|x3 a]]]; destruct v as [|y v]; try done.
    1-3: exfalso; cbn in E; apply Hv; injection E; intros; subst; left.
    cbn in E. injection E as _ _ _ E. destruct (IH a E) as (a' & b' & ->). exists (u ++ a'), b'. by rewrite <- !app_assoc.
Qed.

Lemma star_prefix v s : plain v -> HasPrefix (42 :: s) v = false.
Proof.
  intros [HN Hv]. apply not_true_iff_false. intros [t E]%HasPrefix_spec. destruct v as [|y v]; [done|]. injection E as <- _. apply Hv. left.
Qed.

Lemma replace_mask fuel o v :
  plain v -> replace_all (S (S (S fuel))) (Mask ++ o) v Mask = Mask ++ replace_all fuel o v Mask.
Proof.
  intros HP. change (Mask ++ o) with (42 :: 42 :: 42 :: o). cbn [replace_all]. by rewrite !star_prefix.
Qed.

(** Replacing refines a masking. *)
Lemma replace_masked vs v i o fuel :
  plain v -> v ∈ vs -> (length o <= fuel)%nat -> masked vs i o -> masked vs i (replace_all fuel o v Mask).
Proof.
  intros HP Hin Hf HM. revert i o Hf HM. induction fuel as [fuel IH] using lt_wf_ind. intros i o Hf HM.
  destruct o as [|c o]; [destruct fuel; done|]. destruct fuel as [|fuel]; [cbn in Hf; lia|]. pose proof HP as [HN Hv].
  destruct (HasPrefix (c :: o) v) eqn:EP.
  - cbn [replace_all]. rewrite EP. apply HasPrefix_spec in EP as [o' Eo]. rewrite Eo in *.
    destruct (masked_prefix _ _ _ _ Hv HM) as (i' & -> & HM'). rewrite drop_app_length. apply masked_value; [done|].
    apply IH; [lia| |done]. destruct v; [done|]. cbn in Hf. rewrite length_app in Hf. lia.
  - inversion HM as [|c' i' o' HM' Ei Eo|u i' o' Hu HM' Ei Eo]; subst.
    + cbn [replace_all]. rewrite EP. apply masked_char. apply IH; [lia| |done]. cbn in Hf. lia.
    + destruct fuel as [|[|fuel]]; [cbn in Hf; lia..|].
      change (42 :: 42 :: 42 :: o') with (Mask ++ o'). rewrite (replace_mask fuel o' v HP). apply masked_value; [done|]. apply IH; [lia| |done]. cbn in Hf. lia.
Qed.

(** After replacing [v] no occurrence of it is left. *)
Lemma replace_clean v s fuel a b :
  plain v -> (length s <= fuel)%nat -> replace_all fuel s v Mask <> a ++ v ++ b.
Proof.
  intros HP Hf. revert s a Hf. induction fuel as [|fuel IH]; intros s a Hf.
  { destruct s; [|cbn in Hf; lia]. destruct HP as [HN _], a, v; done. }
  pose proof HP as [HN Hv]. destruct s as [|c t]; [destruct a, v; done|]. cbn [replace_all].
  destruct (HasPrefix (c :: t) v) eqn:EP.
  - destruct v as [|y v]; [done|]. apply not_elem_of_cons in Hv as [Hy _].
    destruct a as [|x1 [|x2 [|x3 a]]]; cbn; intros E; injection E; intros; subst; try done.
    eapply (IH (drop (length v) t) a); [rewrite length_drop; cbn in Hf; lia|done].
  - destruct a as [|x a]; intros E.
    + rewrite app_nil_l in E. assert (HM : masked [v] (c :: t) (v ++ b)).
      { rewrite <- E. apply masked_char. apply replace_masked; [done|left|cbn in Hf; lia|apply masked_refl]. }
      destruct (masked_prefix _ _ _ _ Hv HM) as (i' & Ei & _). rewrite Ei, HasPrefix_app in EP. done.
    + injection E as -> E. eapply (IH t a); [cbn in Hf; lia|exact E].
Qed.

Lemma substring_spec s p : Contains s p = true <-> exists a b, s = a ++ p ++ b.
Proof.
  induction s as [|c s IH]; cbn [Contains]; rewrite orb_true_iff, HasPrefix_spec.
  - split; [intros [[t E]|]; [|done]; by exists [], t|]. intros (a & b & E). left. exists b. by destruct a.
  - rewrite IH. split.
    + intros [[t E]|(a & b & ->)]; [by exists [], t|by exists (c :: a), b].
    + intros ([|x a] & b & E); [left; by exists b|right]. injection E as -> E. by exists a, b.
Qed.

(** ** States are well formed *)

(** The list holds the values, longest first, and no value is empty. *)
Record state_ok (s : State) : Prop := {
  so_values : forall v, v ∈ sorted s <-> v ∈ values s;
  so_order : Sorted longer (sorted s);
  so_nonempty : [] ∉ values s
}.

Lemma longer_total v w : longer v w \/ longer w v.
Proof. unfold longer. lia. Qed.

Lemma sorted_ok m n : [] ∉ m -> state_ok (MkState m (sortedLongestFirst m) n).
Proof.
  intros HN. constructor; cbn; [|apply Sorted_merge_sort; intros v w; apply longer_total|done].
  intros v. unfold sortedLongestFirst. rewrite merge_sort_Permutation. apply elem_of_elements.
Qed.

Lemma floor_len_pos n : 1 <= floor_len n.
Proof. unfold floor_len, DefaultMinLen. destruct (Z.ltb_spec n 1); lia. Qed.

Lemma zeroState_ok : state_ok zeroState.
Proof. constructor; cbn; [|constructor|]; set_solver. Qed.

Lemma EmptyState_ok : state_ok EmptyState.
Proof. constructor; cbn; [|constructor|]; set_solver. Qed.

Lemma NewState_ok vals n : state_ok (NewState vals n).
Proof.
  apply sorted_ok. rewrite elem_of_list_to_set, list_elem_of_filter. intros [HL _]. pose proof (floor_len_pos n).
  change (zlen []) with 0 in HL. lia.
Qed.

Lemma Union_ok s t : state_ok s -> state_ok t -> state_ok (Union s t).
Proof. intros [_ _ H1] [_ _ H2]. apply sorted_ok. set_solver. Qed.

Lemma Retain_ok s keep : state_ok s -> state_ok (Retain s keep).
Proof. intros [_ _ H1]. apply sorted_ok. set_solver. Qed.

Lemma WithValue_ok s v : 1 <= minLen s -> state_ok s -> state_ok (WithValue s v).
Proof.
  intros HM [H1 H2 H3]. unfold WithValue. destruct (Z.ltb_spec (zlen v) (minLen s)); [done|]. case_bool_decide; [done|].
  constructor; cbn; [|apply Sorted_merge_sort; intros x y; apply longer_total|].
  - intros w. rewrite merge_sort_Permutation, elem_of_app, list_elem_of_singleton, H1. set_solver.
  - rewrite elem_of_union, elem_of_singleton. intros [<-|?]; [|done]. change (zlen []) with 0 in *. lia.
Qed.

(** ** Applying a state *)

Lemma Apply_fold vs input :
  Forall plain vs -> let out := foldl (fun i v => if Contains i v then ReplaceAll i v Mask else i) input vs in
  masked vs input out /\ Forall (fun v => Contains out v = false) vs.
Proof.
  intros HP. cbn zeta. induction vs as [|v vs IH] using rev_ind; [split; [apply masked_refl|done]|].
  apply Forall_app in HP as [HP Hv%Forall_inv]. destruct (IH HP) as [HM HC]. clear IH. rewrite foldl_app. cbn [foldl].
  set (o := foldl _ input vs) in *.
  assert (HM' : masked (vs ++ [v]) input o).
  { clear -HM. induction HM; constructor; try done. set_solver. }
  destruct (Contains o v) eqn:EC.
  - assert (HR : masked (vs ++ [v]) input (ReplaceAll o v Mask)) by (apply replace_masked; [done|set_solver|done|done]).
    split; [done|]. apply Forall_app. split.
    + rewrite Forall_forall in HC |- *. intros w Hw. specialize (HC w Hw). cbn beta in HC. apply not_true_iff_false.
      intros (a & b & E)%substring_spec. rewrite Forall_forall in HP.
      assert (H1 : masked [v] o (ReplaceAll o v Mask)) by (apply replace_masked; [done|left|done|apply masked_refl]).
      destruct (masked_infix _ w _ _ a b (HP w Hw) H1 E) as (a' & b' & E').
      assert (Contains o w = true) by (apply substring_spec; eauto). congruence.
    + constructor; [|done]. apply not_true_iff_false. intros (a & b & E)%substring_spec. by apply (replace_clean v o (length o) a b) in E.
  - split; [done|]. apply Forall_app. split; [done|]. by constructor.
Qed.

Lemma masked_values vs ws i o : (forall v, v ∈ vs -> v ∈ ws) -> masked vs i o -> masked ws i o.
Proof. intros HI HM. induction HM; constructor; auto. Qed.

Lemma Apply_ok s input : state_ok s -> (forall v, v ∈ values s -> 42 ∉ v) ->
  masked (elements (values s)) input (Apply s input) /\ forall v, v ∈ values s -> Contains (Apply s input) v = false.
Proof.
  intros [H1 H2 H3] HP. unfold Apply. case_bool_decide as HE; [rewrite HE; split; [apply masked_refl|set_solver]|].
  destruct (Apply_fold (sorted s) input) as [HM HC].
  - apply Forall_forall. intros v Hv%H1. split; [|by apply HP]. by intros ->.
  - split.
    + eapply masked_values; [|exact HM]. intros v Hv%H1. by apply elem_of_elements.
    + intros v Hv%H1. rewrite Forall_forall in HC. by apply HC.
Qed.

(** A line that was masked is the line with occurrences of registered values
    replaced by the mask and nothing else changed, and no registered value
    occurs in it, as long as the values do not contain the mask's character. *)
Theorem Apply_masks (s : State) (input : gostring) :
  state_ok s -> (forall v, v ∈ values s -> 42 ∉ v) ->
  masked (elements (values s)) input (Apply s input) /\ forall v, v ∈ values s -> Contains (Apply s input) v = false.
Proof. apply Apply_ok. Qed.

(** ** The registry *)

Lemma foldl_union st rest : values (foldl Union st rest) = values st ∪ ⋃ (values <$> rest).
Proof. revert st. induction rest as [|x rest IH]; intros st; cbn; [set_solver|]. rewrite IH. cbn. set_solver. Qed.

Lemma foldl_union_ok st rest : state_ok st -> Forall state_ok rest -> state_ok (foldl Union st rest).
Proof. revert st. induction rest as [|x rest IH]; intros st HS; cbn; [done|]. intros [Hx HR]%Forall_cons. apply IH; [by apply Union_ok|done]. Qed.

Lemma Count_0 s : Count s = 0%nat <-> values s = ∅.
Proof. unfold Count. rewrite size_empty_iff. unfold_leibniz. done. Qed.

(** The live state masks what any generation or the retired union masks. *)
Lemma redactUnion_values gens retired v :
  v ∈ values (redactUnionLocked gens retired) <-> v ∈ values retired \/ exists g st, gens !! g = Some st /\ v ∈ values st.
Proof.
  assert (HG : (exists g st, gens !! g = Some st /\ v ∈ values st) <-> exists st, st ∈ (map_to_list gens).*2 /\ v ∈ values st).
  { split.
    - intros (g & st & Hg & Hv). exists st. split; [|done]. apply list_elem_of_fmap. exists (g, st). split; [done|]. by apply elem_of_map_to_list.
    - intros (st & ([g st'] & -> & Hg)%list_elem_of_fmap & Hv). exists g, st'. split; [by apply elem_of_map_to_list|done]. }
  rewrite HG. clear HG. unfold redactUnionLocked.
  assert (HU : forall st rest, v ∈ values (foldl Union st rest) <-> exists x, x ∈ st :: rest /\ v ∈ values x).
  { intros st rest. rewrite foldl_union. rewrite elem_of_union, elem_of_union_list. setoid_rewrite elem_of_cons. split.
    - intros [?|(X & (x & -> & Hx)%list_elem_of_fmap & Hv)]; [by exists st; split; [left|]|exists x; split; [by right|done]].
    - intros (x & [->|Hx] & Hv); [by left|right]. exists (values x). split; [|done]. apply list_elem_of_fmap. by exists x. }
  destruct (map_to_list gens).*2 as [|st rest].
  - destruct (Nat.ltb_spec 0 (Count retired)) as [Hc|Hc]; cbn.
    + split; [by left|intros [?|(st & Hst & _)]; [done|by apply elem_of_nil in Hst]].
    + assert (values retired = ∅) as -> by (apply Count_0; lia). split; [by left|intros [?|(st & Hst & _)]; [done|by apply elem_of_nil in Hst]].
  - destruct (Nat.ltb_spec 0 (Count retired)) as [Hc|Hc]; cbn [values Union].
    + rewrite elem_of_union, HU. tauto.
    + assert (values retired = ∅) as -> by (apply Count_0; lia). rewrite HU. set_solver.
Qed.

(** Well-formed states of values without the mask's character. *)
Definition clean (s : State) : Prop := state_ok s /\ forall v, v ∈ values s -> 42 ∉ v.

Definition op_clean (op : redact_op) : Prop :=
  match op with RRegister _ st | RMerge _ st _ => clean st | _ => True end.

Record registry_ok (r : registry) : Prop := {
  ro_live : live r = redactUnionLocked (redactGens r) (retiredRedaction r);
  ro_gens : map_Forall (fun _ s => clean s) (redactGens r);
  ro_bases : map_Forall (fun _ s => clean s) (redactGenBases r);
  ro_retired : clean (retiredRedaction r)
}.

Lemma clean_union s t : clean s -> clean t -> clean (Union s t).
Proof. intros [O1 K1] [O2 K2]. split; [by apply Union_ok|]. cbn. set_solver. Qed.

Lemma clean_retain s keep : clean s -> clean (Retain s keep).
Proof. intros [O1 K1]. split; [by apply Retain_ok|]. cbn. set_solver. Qed.

Lemma clean_zero : clean zeroState.
Proof. split; [apply zeroState_ok|]. cbn. set_solver. Qed.

Lemma clean_default (m : gmap Z State) g d : map_Forall (fun _ s => clean s) m -> clean d -> clean (default d (m !! g)).
Proof. intros HM HD. destruct (m !! g) eqn:E; [by apply (HM g)|done]. Qed.

Lemma new_registry_ok : registry_ok new_registry.
Proof. constructor; cbn; [done|apply map_Forall_empty..|apply clean_zero]. Qed.

Lemma redact_exec_ok r op : registry_ok r -> op_clean op -> registry_ok (redact_exec r op).
Proof.
  intros [HL HG HB HR] HO. destruct op as [g st|g st eff|g|g]; cbn in *.
  - constructor; cbn; try done; by apply map_Forall_insert_2.
  - assert (Hown := clean_default _ g _ HG clean_zero). assert (Hbase := clean_default _ g _ HB Hown).
    constructor; cbn; try done; apply map_Forall_insert_2; try done. by apply clean_union; [apply clean_union; [|apply clean_retain]|].
  - constructor; cbn; try done; by apply map_Forall_delete.
  - unfold moveRedactionToRetired, retireRedactionForGen. destruct (redactGens r !! g) as [s|] eqn:E; [|by constructor].
    constructor; cbn; [done|by apply map_Forall_delete..|]. destruct (_ =? _)%nat; [by apply (HG g)|]. apply clean_union; [done|by apply (HG g)].
Qed.

Lemma redact_run_ok r ops : registry_ok r -> Forall op_clean ops -> registry_ok (foldl redact_exec r ops).
Proof. intros HR HO. revert r HR. induction HO as [|op ops Ho HO IH]; intros r HR; [done|]. cbn. by apply IH, redact_exec_ok. Qed.

(** The secrets of a generation are in its base, or retired for good. *)
Definition kept (r : registry) (g : Z) (vs : gset gostring) : Prop :=
  vs ⊆ values (retiredRedaction r) \/
  exists b s, redactGenBases r !! g = Some b /\ redactGens r !! g = Some s /\ vs ⊆ values b /\ values b ⊆ values s.

(** The operation ends generation [g]: it drained, or its number is reused. *)
Definition ends (g : Z) (op : redact_op) : Prop :=
  match op with RRegister g' _ | RRetire g' => g' = g | _ => False end.

Lemma kept_exec r g vs op : kept r g vs -> ~ ends g op -> kept (redact_exec r op) g vs.
Proof.
  intros [HK|(b & s & Hb & Hs & H1 & H2)] HE; destruct op as [g' st|g' st eff|g'|g']; cbn in *.
  1-3: by left.
  - left. unfold moveRedactionToRetired, retireRedactionForGen. destruct (redactGens r !! g'); [|done]. cbn.
    destruct (Nat.eqb_spec (Count (retiredRedaction r)) 0) as [E%Count_0|_]; cbn; set_solver.
  - right. exists b, s. cbn. by rewrite !lookup_insert_ne.
  - right. unfold mergeRedactionGen. cbn. destruct (decide (g' = g)) as [->|Hne]; [|exists b, s; by rewrite !lookup_insert_ne].
    rewrite Hb, Hs. cbn. eexists b, _. rewrite !lookup_insert_eq. split_and!; [done..|]. cbn. set_solver.
  - right. exists b, s. cbn. by rewrite !lookup_delete_ne.
  - unfold moveRedactionToRetired, retireRedactionForGen. destruct (decide (g' = g)) as [->|Hne].
    + rewrite Hs. left. cbn. destruct (_ =? _)%nat; cbn; set_solver.
    + destruct (redactGens r !! g') eqn:E; right; exists b, s; cbn; by rewrite ?lookup_delete_ne.
Qed.

Lemma kept_run r g vs ops : kept r g vs -> Forall (fun op => ~ ends g op) ops -> kept (foldl redact_exec r ops) g vs.
Proof. intros HK HO. revert r HK. induction HO as [|op ops Ho HO IH]; intros r HK; [done|]. cbn. by apply IH, kept_exec. Qed.

(** The live state is clean, as the union of clean states. *)
Lemma live_clean r : registry_ok r -> clean (live r).
Proof.
  intros [HL HG HB [HRo HRc]]. rewrite HL. split.
  - unfold redactUnionLocked. assert (HF : Forall state_ok (map_to_list (redactGens r)).*2).
    { apply Forall_fmap, Forall_forall. intros [g s] Hg%elem_of_map_to_list. by destruct (HG g s Hg). }
    destruct (map_to_list (redactGens r)).*2 as [|st rest]; [destruct (_ <? _)%nat; [done|apply EmptyState_ok]|].
    apply Forall_cons in HF as [Hst HF]. destruct (_ <? _)%nat; [apply Union_ok; [|done]|]; by apply foldl_union_ok.
  - intros v [?|(g & s & Hg & Hv)]%redactUnion_values; [by apply HRc|]. destruct (HG g s Hg) as [_ HC]. by apply HC.
Qed.

(** The installed state is the union of the registered ones. *)
Lemma redact_run_live ops : let r := foldl redact_exec new_registry ops in live r = redactUnionLocked (redactGens r) (retiredRedaction r).
Proof. cbv zeta. induction ops as [|op ops _] using rev_ind; [done|]. rewrite foldl_app. by destruct op. Qed.

(** C36: From the moment the secrets of a generation are registered, and until the
    server retires their registration (which it does for a generation whose
    drain was reported, or whose counter it read as zero) or reuses the number,
    each of them is among the values the live redaction masks, whatever reloads,
    metadata merges, other retirements and moves to the retired set happen in
    between.  And as long as no registered value contains an asterisk, the
    character of the mask, none of them occurs in a line that passes the live
    redaction. *)
Theorem redaction_until_drained (before after : list redact_op) (g : Z) (st : State) (line v : gostring) :
  Forall (fun op => ~ ends g op) after -> v ∈ values st ->
  let r := foldl redact_exec new_registry (before ++ RRegister g st :: after) in
  v ∈ values (live r) /\
  (Forall op_clean (before ++ RRegister g st :: after) -> Contains (Apply (live r) line) v = false).
Proof.
  intros HE Hv r. assert (HK : kept r g (values st)).
  { unfold r. rewrite foldl_app. cbn [foldl]. apply kept_run; [|done]. right. exists st, st. cbn. by rewrite !lookup_insert_eq. }
  assert (HV : v ∈ values (live r)).
  { unfold r. rewrite redact_run_live. fold r. apply redactUnion_values. destruct HK as [HK|(b & s & _ & Hs & H1 & H2)]; [left; set_solver|].
    right. exists g, s. split; [done|]. set_solver. }
  split; [done|]. intros HC. assert (HR : registry_ok r) by (apply redact_run_ok; [apply new_registry_ok|done]).
  destruct (live_clean r HR) as [HO HP]. by apply Apply_ok.
Qed.

(** A value with asterisks can come back: the mask of a shorter value completes
    it after its own turn has passed. *)
Lemma mask_rebuilds_value :
  let st := NewState [str "pass***word"; str "secret"] 0 in
  str "pass***word" ∈ values st /\ Apply st (str "passsecretword") = str "pass***word".
Proof. split; [apply (bool_decide_eq_true_1 _)|]; vm_compute; reflexivity. Qed.

(** ** A concrete run *)

Definition demo_state : State := NewState [str "hunter2"; str "pw"] 0.

Lemma demo_state_clean : clean demo_state.
Proof.
  split; [apply NewState_ok|]. intros v Hv. apply elem_of_list_to_set, list_elem_of_filter in Hv as [_ Hv].
  rewrite !elem_of_cons in Hv. destruct Hv as [->|[->|Hv%elem_of_nil]]; [..|done];
    apply (bool_decide_eq_true_1 _); vm_compute; reflexivity.
Qed.

Lemma EmptyState_clean : clean EmptyState.
Proof. split; [apply EmptyState_ok|]. cbn. set_solver. Qed.

Lemma Apply_masks_witness :
  Apply demo_state (str "user bob pass hunter2!") = str "user bob pass ***!" /\
  Contains (Apply demo_state (str "user bob pass hunter2!")) (str "hunter2") = false.
Proof.
  split; [vm_compute; reflexivity|].
  destruct (Apply_masks demo_state (str "user bob pass hunter2!") (proj1 demo_state_clean) (proj2 demo_state_clean)) as [_ HA].
  apply HA. apply (bool_decide_eq_true_1 _). vm_compute. reflexivity.
Defined.

Lemma redaction_until_drained_witness :
  Contains (Apply (live (foldl redact_exec new_registry [RRegister 1 demo_state; RRegister 2 EmptyState; RMove 1; RRetire 2]))
    (str "x hunter2")) (str "hunter2") = false.
Proof.
  apply (redaction_until_drained [] [RRegister 2 EmptyState; RMove 1; RRetire 2] 1 demo_state (str "x hunter2") (str "hunter2")).
  - apply Forall_cons_2; [discriminate|]. apply Forall_cons_2; [intros []|]. apply Forall_cons_2; [discriminate|]. apply Forall_nil_2.
  - apply (bool_decide_eq_true_1 _). vm_compute. reflexivity.
  - apply Forall_cons_2; [exact demo_state_clean|]. apply Forall_cons_2; [exact EmptyState_clean|].
    apply Forall_cons_2; [exact I|]. apply Forall_cons_2; [exact I|]. apply Forall_nil_2.
Defined.
