(* ===== verification/Secrets.v ===== *)
(** * Secret references in the configuration (src/internal/config/secrets.go)

    The scanner for [${env:NAME}] and [${file:/path}] references, their
    resolution, and the walk over every string of a configuration that replaces
    them and collects the values to mask.  The environment and the files are
    parameters, and so is the deep copy the walk works on. *)

From S2P Require Import Prelude GoStrings Bytes Netip Http Redact.

(** ** References *)

Definition name_char (c : Z) : bool := is_alpha c || (c =? 95).

Fixpoint span (p : Z -> bool) (s : gostring) : gostring * gostring :=
  match s with
  | c :: t => if p c then let '(a, b) := span p t in (c :: a, b) else ([], s)
  | [] => ([], [])
  end.

(** A match of [secretRefAnyRE] at the start of [s]: the scheme, the body and
    the text after it. *)
Definition ref_at (s : gostring) : option (gostring * gostring * gostring) :=
  if HasPrefix s (str "${") then
    let '(scheme, rest) := span name_char (drop 2 s) in
    match rest with
    | 58 :: rest =>
        if bool_decide (scheme = []) then None
        else if bool_decide (125 ∈ rest) then let '(body, after) := span (fun c => negb (c =? 125)) rest in Some (scheme, body, drop 1 after)
        else None
    | _ => None
    end
  else None.

Definition known (scheme : gostring) : bool :=
  string_eqb scheme (str "env") || string_eqb scheme (str "file") || string_eqb scheme (str "secret").

(** The matches of a pattern, leftmost first and not overlapping, with the
    text between them; [supported] restricts it to [secretRefRE]. *)
Inductive piece := Text (c : Z) | Ref (scheme body : gostring).

Fixpoint scan (fuel : nat) (supported : bool) (s : gostring) : list piece :=
  match fuel, s with
  | S fuel, c :: t =>
      match ref_at s with
      | Some (scheme, body, after) =>
          if supported && negb (known scheme) then Text c :: scan fuel supported t
          else Ref scheme body :: scan fuel supported after
      | None => Text c :: scan fuel supported t
      end
  | _, _ => []
  end.
Definition pieces (supported : bool) (s : gostring) : list piece := scan (length s) supported s.

(** The text a reference was written as. *)
Definition ref_text (scheme body : gostring) : gostring := str "${" ++ scheme ++ 58 :: body ++ [125].

(** ** Resolution *)

Inductive secretErr :=
| ErrScheme (scheme body : gostring) | ErrEmptyEnv | ErrEnvUnset (name : gostring) | ErrEmptyFile
| ErrOpen (path : gostring) | ErrNotRegular (path : gostring) | ErrRead (path : gostring) | ErrClose (path : gostring)
| ErrTooLarge (path : gostring).

(** What opening and reading a file gives; the content is not yet cut off. *)
Inductive file_result := FileMissing | FileIrregular | FileReadError | FileCloseError | FileData (data : list Z).

Class Sources := { LookupEnv : gostring -> option gostring; OpenFile : gostring -> file_result }.

Definition maxSecretFile : Z := 2 ^ 20.

Definition newline (c : Z) : bool := (c =? 13) || (c =? 10).
Definition TrimRightNL (s : gostring) : gostring := rev (TrimLeft newline (rev s)).

Section Resolve.
Context `{Unicode} `{Sources} `{Sha256}.

Definition resolveOne (scheme body : gostring) : secretErr + gostring :=
  if string_eqb scheme (str "env") then
    if bool_decide (body = []) then inl ErrEmptyEnv
    else match LookupEnv body with Some v => inr v | None => inl (ErrEnvUnset body) end
  else if string_eqb scheme (str "file") || string_eqb scheme (str "secret") then
    if bool_decide (body = []) then inl ErrEmptyFile
    else match OpenFile body with
         | FileMissing => inl (ErrOpen body)
         | FileIrregular => inl (ErrNotRegular body)
         | FileReadError => inl (ErrRead body)
         | FileCloseError => inl (ErrClose body)
         | FileData data =>
             let data := take (Z.to_nat (maxSecretFile + 1)) data in
             if maxSecretFile <? zlen data then inl (ErrTooLarge body) else inr (TrimRightNL data)
         end
  else inl (ErrScheme scheme body).

Definition digestBytes (b : list Z) : gostring := str "sha256:" ++ hex_string (sha256 b).

(** The values seen so far and the digests of what was read. *)
Record collected := MkCollected { active : gset gostring; digests : gmap gostring gostring }.

Definition unknown_scheme (s : gostring) : option (gostring * gostring) :=
  head (omap (fun p => match p with Ref scheme body => if known scheme then None else Some (scheme, body) | Text _ => None end)
         (pieces false s)).

(** One match of the replacement: the text to put in its place, the first
    error, and the collection. *)
Definition resolve_piece (minLen : Z) (acc : collected * option secretErr * gostring) (p : piece)
  : collected * option secretErr * gostring :=
  let '(c, err, out) := acc in
  match p with
  | Text x => (c, err, out ++ [x])
  | Ref scheme body =>
      match resolveOne scheme (TrimSpace body) with
      | inl e => (c, match err with None => Some e | Some _ => err end, out ++ ref_text scheme body)
      | inr val =>
          (MkCollected (if minLen <=? zlen val then {[ val ]} ∪ active c else active c)
                       (<[ref_text scheme body := digestBytes val]> (digests c)), err, out ++ val)
      end
  end.

Definition resolveSecretRefs (minLen : Z) (c : collected) (s : gostring) : collected * (secretErr + gostring) :=
  if negb (Contains s (str "${")) then (c, inr s)
  else match unknown_scheme s with
       | Some (scheme, body) => (c, inl (ErrScheme scheme body))
       | None =>
           let '(c, err, out) := foldl (resolve_piece minLen) (c, None, []) (pieces true s) in
           (c, match err with Some e => inl e | None => inr out end)
       end.

(** ** The configuration as the reflective walk sees it *)

Inductive value :=
| VPtr (target : option value)
| VStruct (fields : list value)
| VList (elems : list value)
| VMap (entries : list (gostring * value))
| VString (canSet : bool) (s : gostring)
| VOther.

(** [walkValue]: every settable string, in order, with the state the callback
    threads through. *)
Fixpoint walk {S} (fn : S -> gostring -> S * gostring) (st : S) (v : value) : S * value :=
  let walk_list := fix walk_list (st : S) (l : list value) : S * list value :=
    match l with
    | [] => (st, [])
    | v :: l => let '(st, v) := walk fn st v in let '(st, l) := walk_list st l in (st, v :: l)
    end in
  let walk_map := fix walk_map (st : S) (l : list (gostring * value)) : S * list (gostring * value) :=
    match l with
    | [] => (st, [])
    | (k, v) :: l => let '(st, v) := walk fn st v in let '(st, l) := walk_map st l in (st, (k, v) :: l)
    end in
  match v with
  | VPtr None | VOther => (st, v)
  | VPtr (Some t) => let '(st, t) := walk fn st t in (st, VPtr (Some t))
  | VStruct l => let '(st, l) := walk_list st l in (st, VStruct l)
  | VList l => let '(st, l) := walk_list st l in (st, VList l)
  | VMap l => let '(st, l) := walk_map st l in (st, VMap l)
  | VString true s => let '(st, s) := fn st s in (st, VString true s)
  | VString false s => (st, v)
  end.

Definition IsResolved (v : value) : bool :=
  (walk (fun resolved s => (if Contains s (str "${") then false else resolved, s)) true v).1.

Definition ContainsStringValue (v : value) (needle : gostring) : bool :=
  if bool_decide (needle = []) then false
  else (walk (fun found s => (if Contains s needle then true else found, s)) false v).1.

(** [Resolve] on the copy of the configuration; [redactMin] is its
    redact_min_secret_length. *)
Definition Resolve (redactMin : Z) (clone : value) : list secretErr + (value * State * gmap gostring gostring) :=
  let minLen := if 0 <? redactMin then redactMin else DefaultMinLen in
  if IsResolved clone then inr (clone, NewState [] minLen, ∅)
  else
    let '(c, errs, v) :=
      walk (fun '(c, errs) s =>
              match resolveSecretRefs minLen c s with
              | (c, inl e) => ((c, errs ++ [e]), s)
              | (c, inr out) => ((c, errs), out)
              end) (MkCollected ∅ ∅, []) clone in
    if bool_decide (errs = []) then inr (v, NewState (elements (active c)) minLen, digests c) else inl errs.
End Resolve.

(** ** The walk *)

Section Walk.
Variable P : value -> Prop.
Hypothesis P_ptr : forall v, P v -> P (VPtr (Some v)).
Hypothesis P_nil : P (VPtr None).
Hypothesis P_struct : forall l, Forall P l -> P (VStruct l).
Hypothesis P_list : forall l, Forall P l -> P (VList l).
Hypothesis P_map : forall l, Forall (fun e => P e.2) l -> P (VMap l).
Hypothesis P_string : forall b s, P (VString b s).
Hypothesis P_other : P VOther.

(** Induction over the nested lists. *)
Fixpoint value_nested (v : value) : P v :=
  let all := fix all (l : list value) : Forall P l :=
    match l with [] => Forall_nil_2 P | v :: l => Forall_cons_2 P v l (value_nested v) (all l) end in
  let all_map := fix all_map (l : list (gostring * value)) : Forall (fun e => P e.2) l :=
    match l with [] => Forall_nil_2 _ | (k, v) :: l => Forall_cons_2 (fun e => P e.2) (k, v) l (value_nested v) (all_map l) end in
  match v with
  | VPtr None => P_nil
  | VPtr (Some v) => P_ptr v (value_nested v)
  | VStruct l => P_struct l (all l)
  | VList l => P_list l (all l)
  | VMap l => P_map l (all_map l)
  | VString b s => P_string b s
  | VOther => P_other
  end.
End Walk.

(** The settable strings in order, and the tree with each replaced by [g]. *)
Fixpoint strings_of (v : value) : list gostring :=
  match v with
  | VPtr (Some t) => strings_of t
  | VStruct l | VList l => concat (map strings_of l)
  | VMap l => concat (map (fun e => strings_of e.2) l)
  | VString true s => [s]
  | _ => []
  end.

Fixpoint map_strings (g : gostring -> gostring) (v : value) : value :=
  match v with
  | VPtr (Some t) => VPtr (Some (map_strings g t))
  | VStruct l => VStruct (map (map_strings g) l)
  | VList l => VList (map (map_strings g) l)
  | VMap l => VMap (map (fun e => (e.1, map_strings g e.2)) l)
  | VString true s => VString true (g s)
  | _ => v
  end.

(** A callback whose text does not depend on the state visits the strings in
    order and replaces each of them. *)
Lemma walk_strings {S} fn (upd : S -> gostring -> S) (g : gostring -> gostring) v st :
  (forall st s, fn st s = (upd st s, g s)) -> walk fn st v = (foldl upd st (strings_of v), map_strings g v).
Proof.
  intros HF. revert v st. apply (value_nested (fun v => forall st, walk _ st v = _)); cbn [walk strings_of map_strings]; try done.
  - intros v IH st. by rewrite IH.
  - intros l IH st. match goal with |- context [?f st l] => set (wl := f) end.
    assert (E : forall st, wl st l = (foldl upd st (concat (map strings_of l)), map (map_strings g) l)); [|by rewrite E].
    clear st. induction IH as [|v l Hv Hl IHl]; intros st; [done|]. cbn [map concat]. rewrite foldl_app. cbn. by rewrite Hv, IHl.
  - intros l IH st. match goal with |- context [?f st l] => set (wl := f) end.
    assert (E : forall st, wl st l = (foldl upd st (concat (map strings_of l)), map (map_strings g) l)); [|by rewrite E].
    clear st. induction IH as [|v l Hv Hl IHl]; intros st; [done|]. cbn [map concat]. rewrite foldl_app. cbn. by rewrite Hv, IHl.
  - intros l IH st. match goal with |- context [?f st l] => set (wl := f) end.
    assert (E : forall st, wl st l = (foldl upd st (concat (map (fun e => strings_of e.2) l)), map (fun e => (e.1, map_strings g e.2)) l)); [|by rewrite E].
    clear st. induction IH as [|[k v] l Hv Hl IHl]; intros st; [done|]. cbn [map concat]. rewrite foldl_app. cbn in Hv |- *. by rewrite Hv, IHl.
  - intros [|] s st; [by rewrite HF|done].
Qed.

Lemma IsResolved_spec v : IsResolved v = true <-> Forall (fun s => Contains s (str "${") = false) (strings_of v).
Proof.
  unfold IsResolved. rewrite (walk_strings _ (fun r s => if Contains s (str "${") then false else r) (fun s => s)) by done. cbn [fst].
  assert (HF : forall l b, foldl (fun r s => if Contains s (str "${") then false else r) b l = true <->
    b = true /\ Forall (fun s => Contains s (str "${") = false) l); [|rewrite HF; tauto].
  induction l as [|s l IH]; intros b; cbn [foldl]; [split; [done|tauto]|]. rewrite IH, Forall_cons. destruct (Contains s _); [|tauto].
  split; [by intros [? _]|by intros (_ & ? & _)].
Qed.

Lemma map_strings_ext g g' v : (forall s, s ∈ strings_of v -> g s = g' s) -> map_strings g v = map_strings g' v.
Proof.
  revert v. apply (value_nested (fun v => (forall s, s ∈ strings_of v -> g s = g' s) -> map_strings g v = map_strings g' v)); cbn; try done.
  - intros v IH HE. f_equal. f_equal. auto.
  - intros l IH HE. f_equal. rewrite Forall_forall in IH. apply map_ext_in. intros v Hv%list_elem_of_In. apply IH; [done|].
    intros s Hs. apply HE. apply list_elem_of_In, in_concat. exists (strings_of v). split; [by apply in_map, list_elem_of_In|by apply list_elem_of_In].
  - intros l IH HE. f_equal. rewrite Forall_forall in IH. apply map_ext_in. intros v Hv%list_elem_of_In. apply IH; [done|].
    intros s Hs. apply HE. apply list_elem_of_In, in_concat. exists (strings_of v). split; [by apply in_map, list_elem_of_In|by apply list_elem_of_In].
  - intros l IH HE. f_equal. rewrite Forall_forall in IH. apply map_ext_in. intros [k v] Hv%list_elem_of_In. cbn. f_equal. apply (IH (k, v)); [done|].
    intros s Hs. apply HE. apply list_elem_of_In, in_concat. exists (strings_of v).
    split; [|by apply list_elem_of_In]. by apply (in_map (fun e => strings_of e.2) l (k, v)), list_elem_of_In.
  - intros [|] s HE; [|done]. f_equal. apply HE. left.
Qed.

Lemma map_strings_id v : map_strings id v = v.
Proof.
  revert v. apply value_nested; cbn; try done.
  - by intros v ->.
  - intros l IH. f_equal. induction IH as [|v l Hv Hl IHl]; [done|]. cbn. by rewrite Hv, IHl.
  - intros l IH. f_equal. induction IH as [|v l Hv Hl IHl]; [done|]. cbn. by rewrite Hv, IHl.
  - intros l IH. f_equal. induction IH as [|[k v] l Hv Hl IHl]; [done|]. cbn in *. by rewrite Hv, IHl.
  - by intros [|] s.
Qed.

(** ** What resolution gives *)

Lemma ref_at_prefix s r : ref_at s = Some r -> HasPrefix s (str "${") = true.
Proof. unfold ref_at. by destruct (HasPrefix s (str "${")). Qed.

(** Text without the opening has no references. *)
Lemma scan_literal fuel b s : (length s <= fuel)%nat -> Contains s (str "${") = false -> scan fuel b s = map Text s.
Proof.
  revert s. induction fuel as [|fuel IH]; intros [|c t] HF HC; cbn in HF; try done; [lia|]. cbn [scan].
  cbn [Contains] in HC. apply orb_false_iff in HC as [HP HC]. destruct (ref_at (c :: t)) as [r|] eqn:E.
  - apply ref_at_prefix in E. congruence.
  - cbn [map]. f_equal. apply IH; [lia|done].
Qed.

(** Where every scheme is known the two patterns find the same. *)
Lemma scan_known fuel s : (forall scheme body, Ref scheme body ∈ scan fuel false s -> known scheme = true) ->
  scan fuel true s = scan fuel false s.
Proof.
  revert s. induction fuel as [|fuel IH]; intros [|c t] HK; try done. cbn [scan] in *.
  destruct (ref_at (c :: t)) as [[[scheme body] after]|]; cbn [andb] in *.
  - rewrite (HK scheme body) by left. cbn [negb]. f_equal. apply IH. intros sc bd Hin. apply (HK sc bd). by right.
  - f_equal. apply IH. intros sc bd Hin. apply (HK sc bd). by right.
Qed.

Section Exact.
Context `{Unicode} `{Sources} `{Sha256}.

(** Every reference of the text has a known scheme and a value. *)
Definition good (s : gostring) : Prop :=
  forall scheme body, Ref scheme body ∈ pieces false s -> known scheme = true /\ exists val, resolveOne scheme (TrimSpace body) = inr val.

(** What a piece becomes, the value it contributes, and the error it meets. *)
Definition piece_text (p : piece) : gostring :=
  match p with
  | Text c => [c]
  | Ref scheme body => match resolveOne scheme (TrimSpace body) with inr v => v | inl _ => ref_text scheme body end
  end.

Definition piece_secret (minLen : Z) (p : piece) : option gostring :=
  match p with
  | Text _ => None
  | Ref scheme body => match resolveOne scheme (TrimSpace body) with
                       | inr v => if minLen <=? zlen v then Some v else None
                       | inl _ => None
                       end
  end.

Definition piece_error (p : piece) : option secretErr :=
  match p with
  | Text _ => None
  | Ref scheme body => match resolveOne scheme (TrimSpace body) with inl e => Some e | inr _ => None end
  end.

(** The text with its references replaced by their values. *)
Definition expand (s : gostring) : gostring := concat (map piece_text (pieces false s)).

Lemma resolve_fold minLen ps c err out :
  exists c', foldl (resolve_piece minLen) (c, err, out) ps =
    (c', match err with Some e => Some e | None => head (omap piece_error ps) end, out ++ concat (map piece_text ps)) /\
    forall v, v ∈ active c' <-> v ∈ active c \/ v ∈ omap (piece_secret minLen) ps.
Proof.
  revert c err out. induction ps as [|p ps IH]; intros c err out; cbn [foldl].
  - exists c. split; [cbn; rewrite app_nil_r; by destruct err|]. intros v. rewrite elem_of_nil. tauto.
  - destruct p as [x|scheme body]; cbn [resolve_piece].
    + destruct (IH c err (out ++ [x])) as (c' & -> & HV). exists c'. split; [cbn; by rewrite <- app_assoc|done].
    + destruct (resolveOne scheme (TrimSpace body)) as [e|val] eqn:E.
      * match goal with |- context [foldl _ (c, ?e', ?o') ps] => destruct (IH c e' o') as (c' & -> & HV) end.
        exists c'. split; [|cbn; rewrite E; done]. cbn. rewrite E. rewrite <- app_assoc. by destruct err.
      * match goal with |- context [foldl _ (?c0, ?e', ?o') ps] => destruct (IH c0 e' o') as (c' & -> & HV) end.
        exists c'. split; [cbn; rewrite E, <- app_assoc; by destruct err|]. intros v. rewrite HV. cbn. rewrite E.
        destruct (minLen <=? zlen val); [|done]. rewrite elem_of_union, elem_of_singleton, elem_of_cons. tauto.
Qed.

Lemma omap_nil {A B} (f : A -> option B) l : omap f l = [] <-> forall x, x ∈ l -> f x = None.
Proof.
  split.
  - intros E x Hx. destruct (f x) as [y|] eqn:Ef; [|done]. assert (y ∈ omap f l) as Hy by (apply list_elem_of_omap; eauto).
    rewrite E in Hy. by apply elem_of_nil in Hy.
  - intros HN. destruct (omap f l) as [|y k] eqn:E; [done|]. assert (y ∈ omap f l) as Hy by (rewrite E; left).
    apply list_elem_of_omap in Hy as (x & Hx & Ef). by rewrite HN in Ef.
Qed.

(** One string: its expansion when every reference is good, an error when one
    is not; nothing long enough escapes the collection. *)
Lemma resolveSecretRefs_spec minLen c s :
  let '(c', r) := resolveSecretRefs minLen c s in
  match r with
  | inr out => good s /\ out = expand s /\
      forall v, v ∈ active c' <-> v ∈ active c \/ v ∈ omap (piece_secret minLen) (pieces false s)
  | inl _ => ~ good s
  end.
Proof.
  unfold resolveSecretRefs. destruct (Contains s (str "${")) eqn:EC; cbn [negb].
  2: { unfold good, expand, pieces. rewrite scan_literal by done. split_and!.
       - intros sc bd Hin. apply list_elem_of_fmap in Hin as (? & ? & _). done.
       - clear EC. induction s as [|x s IH]; [done|]. cbn. by f_equal.
       - intros v. replace (omap (piece_secret minLen) (map Text s)) with (@nil gostring); [rewrite elem_of_nil; tauto|].
         symmetry. apply omap_nil. intros p Hp. by apply list_elem_of_fmap in Hp as (x & -> & _). }
  unfold unknown_scheme. destruct (head _) as [[scheme body]|] eqn:EU.
  - intros HG. destruct (omap _ (pieces false s)) as [|y k] eqn:EO; [done|]. injection EU as ->.
    assert (Hy : (scheme, body) ∈ (scheme, body) :: k) by left. rewrite <- EO in Hy. apply list_elem_of_omap in Hy as (p & Hp & Ep).
    destruct p as [|sc bd]; [done|]. destruct (known sc) eqn:EK; [done|]. destruct (HG sc bd Hp) as [? _]. congruence.
  - assert (HK : forall sc bd, Ref sc bd ∈ pieces false s -> known sc = true).
    { intros sc bd Hin. destruct (omap _ (pieces false s)) as [|y k] eqn:EO; [|done]. rewrite omap_nil in EO. specialize (EO _ Hin). cbn in EO.
      by destruct (known sc). }
    replace (pieces true s) with (pieces false s) by (symmetry; by apply scan_known).
    destruct (resolve_fold minLen (pieces false s) c None []) as (c' & -> & HV). cbn [app].
    destruct (omap piece_error (pieces false s)) as [|e k] eqn:EO; cbn [head].
    + split; [|done]. intros sc bd Hin. split; [by apply (HK sc bd)|]. rewrite omap_nil in EO. specialize (EO _ Hin). cbn in EO.
      destruct (resolveOne sc (TrimSpace bd)) as [|val]; [done|by exists val].
    + intros HG. assert (He : e ∈ e :: k) by left. rewrite <- EO in He. apply list_elem_of_omap in He as (p & Hp & Ep).
      destruct p as [|sc bd]; [done|]. destruct (HG sc bd Hp) as [_ [val Hval]]. cbn in Ep. by rewrite Hval in Ep.
Qed.

Lemma resolve_text minLen c c0 s : (resolveSecretRefs minLen c s).2 = (resolveSecretRefs minLen c0 s).2.
Proof.
  unfold resolveSecretRefs. destruct (negb _); [done|]. destruct (unknown_scheme s) as [[? ?]|]; [done|].
  destruct (resolve_fold minLen (pieces true s) c None []) as (c1 & -> & _).
  by destruct (resolve_fold minLen (pieces true s) c0 None []) as (c2 & -> & _).
Qed.

(** The state of the walk after one more string. *)
Definition walk_step (minLen : Z) (st : collected * list secretErr) (s : gostring) : collected * list secretErr :=
  match resolveSecretRefs minLen st.1 s with
  | (c, inl e) => (c, st.2 ++ [e])
  | (c, inr _) => (c, st.2)
  end.

Lemma walk_fold minLen l : let '(c, errs) := foldl (walk_step minLen) (MkCollected ∅ ∅, []) l in
  (errs = [] /\ (forall s, s ∈ l -> good s) \/ errs <> [] /\ exists s, s ∈ l /\ ~ good s) /\
  (errs = [] -> forall v, v ∈ active c <-> exists s, s ∈ l /\ v ∈ omap (piece_secret minLen) (pieces false s)).
Proof.
  induction l as [|s l IH] using rev_ind; [cbn; split; [left; set_solver|]; intros _ v; set_solver|].
  rewrite foldl_app. cbn [foldl]. destruct (foldl (walk_step minLen) _ l) as [c errs]. destruct IH as [IH1 IH2].
  unfold walk_step. cbn [fst snd]. pose proof (resolveSecretRefs_spec minLen c s) as HS.
  destruct (resolveSecretRefs minLen c s) as [c' [e|out]].
  - split; [|by destruct errs]. right. split; [by destruct errs|]. exists s. set_solver.
  - destruct HS as (HG & _ & HV). split.
    + destruct IH1 as [[-> HA]|[HE (x & Hx & HN)]]; [left|right; set_solver]. split; [done|].
      intros x. rewrite elem_of_app, list_elem_of_singleton. intros [?| ->]; auto.
    + intros HE v. rewrite HV, (IH2 HE v). setoid_rewrite elem_of_app. setoid_rewrite list_elem_of_singleton. naive_solver.
Qed.

Lemma piece_secret_spec minLen (ps : list piece) v :
  v ∈ omap (piece_secret minLen) ps <->
  exists scheme body, Ref scheme body ∈ ps /\ resolveOne scheme (TrimSpace body) = inr v /\ minLen <= zlen v.
Proof.
  rewrite list_elem_of_omap. split.
  - intros ([|sc bd] & Hp & E); [done|]. cbn in E. destruct (resolveOne sc (TrimSpace bd)) as [|w] eqn:ER; [done|].
    destruct (Z.leb_spec minLen (zlen w)); [|done]. injection E as ->. eauto.
  - intros (sc & bd & Hp & ER & HL). exists (Ref sc bd). split; [done|]. cbn. rewrite ER. by rewrite (proj2 (Z.leb_le _ _)).
Qed.

(** Resolving a configuration either reports errors, and then some string
    has a reference with an unknown scheme or without a value, or succeeds, and
    then every reference of every string had a value, the strings are the
    originals with the references replaced, and exactly the values of at least
    the minimum length are masked from then on: no line that passes the
    redaction contains one of them. *)
Theorem Resolve_exact (redactMin : Z) (clone : value) :
  let minLen := if 0 <? redactMin then redactMin else DefaultMinLen in
  match Resolve redactMin clone with
  | inl errs => errs <> [] /\ exists s, s ∈ strings_of clone /\ ~ good s
  | inr (v, st, _) =>
      (forall s, s ∈ strings_of clone -> good s) /\ v = map_strings expand clone /\ state_ok st /\
      (forall val, val ∈ values st <-> exists s scheme body, s ∈ strings_of clone /\ Ref scheme body ∈ pieces false s /\
         resolveOne scheme (TrimSpace body) = inr val /\ minLen <= zlen val) /\
      ((forall val, val ∈ values st -> 42 ∉ val) -> forall line val, val ∈ values st -> Contains (Apply st line) val = false)
  end.
Proof.
  cbn zeta. set (minLen := if 0 <? redactMin then redactMin else DefaultMinLen).
  assert (HM : floor_len minLen = minLen).
  { unfold floor_len, minLen, DefaultMinLen. destruct (Z.ltb_spec 0 redactMin); [|done]. by rewrite (proj2 (Z.ltb_ge _ _)) by lia. }
  pose proof (walk_fold minLen (strings_of clone)) as HW. unfold Resolve. fold minLen.
  destruct (IsResolved clone) eqn:ER.
  - rewrite IsResolved_spec, Forall_forall in ER.
    assert (HP : forall s, s ∈ strings_of clone -> good s /\ s = expand s /\ omap (piece_secret minLen) (pieces false s) = []).
    { intros s Hs. specialize (ER s Hs). cbn beta in ER. pose proof (resolveSecretRefs_spec minLen (MkCollected ∅ ∅) s) as HS.
      unfold resolveSecretRefs in HS. rewrite ER in HS. cbn [negb] in HS. destruct HS as (HG & HE & HV). split_and!; try done.
      destruct (omap _ _) as [|v k]; [done|]. specialize (HV v). set_solver. }
    split; [intros s Hs; by destruct (HP s Hs)|]. split; [|split; [apply NewState_ok|split]].
    + rewrite <- (map_strings_id clone) at 1. apply map_strings_ext. intros s Hs. by destruct (HP s Hs) as (_ & ? & _).
    + intros val. split; [cbn; set_solver|]. intros (s & sc & bd & Hs & Hr). destruct (HP s Hs) as (_ & _ & HN).
      assert (Hv : val ∈ omap (piece_secret minLen) (pieces false s)) by (apply piece_secret_spec; eauto). rewrite HN in Hv. by apply elem_of_nil in Hv.
    + intros _ line val Hv. cbn in Hv. set_solver.
  - rewrite (walk_strings _ (walk_step minLen) (fun s => match (resolveSecretRefs minLen (MkCollected ∅ ∅) s).2 with inl _ => s | inr out => out end)).
    2: { intros [c errs] s. unfold walk_step. cbn [fst snd]. rewrite <- (resolve_text minLen c _ s). by destruct (resolveSecretRefs minLen c s) as [? [?|?]]. }
    destruct (foldl (walk_step minLen) _ (strings_of clone)) as [c errs]. destruct HW as [HW1 HW2]. case_bool_decide as EE.
    2: { by destruct HW1 as [[? _]|?]. }
    destruct HW1 as [[_ HG]|[? _]]; [|done]. specialize (HW2 EE).
    assert (HV : forall val, val ∈ values (NewState (elements (active c)) minLen) <-> exists s scheme body, s ∈ strings_of clone /\
      Ref scheme body ∈ pieces false s /\ resolveOne scheme (TrimSpace body) = inr val /\ minLen <= zlen val).
    { intros val. unfold NewState. cbn [values]. rewrite HM, elem_of_list_to_set, list_elem_of_filter, elem_of_elements, HW2.
      setoid_rewrite piece_secret_spec. naive_solver. }
    split; [done|]. split; [|split; [apply NewState_ok|split; [done|]]].
    + apply map_strings_ext. intros s Hs. specialize (HG s Hs). pose proof (resolveSecretRefs_spec minLen (MkCollected ∅ ∅) s) as HS.
      destruct (resolveSecretRefs minLen (MkCollected ∅ ∅) s) as [c' [e|out]]; cbn; [done|by destruct HS as (_ & ? & _)].
    + intros HS line val Hval. by apply Apply_ok; [apply NewState_ok|..].
Qed.
End Exact.

(** A scheme with a digit is neither resolved nor reported: the text keeps its
    literal reference. *)
Definition demo_sources : Sources := {| LookupEnv := fun _ => Some (str "value"); OpenFile := fun _ => FileMissing |}.

Lemma digit_scheme_kept :
  (resolveSecretRefs (H := no_unicode) (H0 := demo_sources) (H1 := demo_sha256) 4 (MkCollected ∅ ∅)
    (str "${vault2:x} ${env:X}")).2 = inr (str "${vault2:x} value").
Proof. vm_compute. reflexivity. Qed.
