(* ===== verification/CacheEntry.v ===== *)
(** * Cache entries and policies

    The data of src/internal/cache: a stored response ([Entry], store.go), the
    evidence of its publication (inspection.go), the policy snapshot a decision
    reads (scalar_policy.go), and the header helpers of http.go and tags.go.
    Instants and durations are nanoseconds, instants counted from the Unix
    epoch; a disk-backed body is represented by its length. *)

From S2P Require Import Prelude GoStrings Bytes Netip Http.

(** ** Time *)

(** Go's zero [time.Time], the first instant of year 1. *)
Definition zeroTime : Z := -62135596800 * 10 ^ 9.
Definition IsZero (t : Z) : bool := t =? zeroTime.

(** [Time.Sub] saturates. *)
Definition time_Sub (t u : Z) : Z := Z.max (- 2 ^ 63) (Z.min max_int64 (t - u)).

(** ** Entries *)

Record publicationEvidence := MkEvidence {
  ev_InsertedAt : Z;
  ev_ValidatedAt : Z;
  ev_PolicyID : list Z;
  ev_SWR : Z;
  ev_SIE : Z;
  ev_FreshnessSource : Z;
  ev_SWRSource : Z;
  ev_SIESource : Z;
  ev_Flags : Z
}.

Definition evidenceStaleIfError : Z := 8.
Definition evidenceStaleBasisKnown : Z := 16.
Definition evidenceNoRequestCookies : Z := 32.

Definition has_flag (flags bit : Z) : bool := negb (Z.land flags bit =? 0).

Record Entry := MkEntry {
  Evidence : option publicationEvidence;
  Status : Z;
  e_Header : Header;
  Body : list Z;
  diskBody : option Z;
  CreatedAt : Z;
  ExpiresAt : Z;
  StaleUntil : Z;
  ETag : gostring;
  LastModified : gostring;
  RequiresValidation : bool;
  MustRevalidate : bool;
  SharedAuthReuse : bool;
  StaleIfError : Z;
  HasStaleIfError : bool;
  Vary : list gostring;
  VaryValues : gmap gostring gostring;
  IsVaryStub : bool;
  Variants : list gostring;
  Tags : list gostring;
  RouteScope : gostring;
  RouteEpoch : Z;
  BypassDigest : list Z;
  RouteConfigDigest : list Z;
  RouteVary : option (gmap gostring (list gostring))
}.

(** The zero value of the struct. *)
Definition zeroEntry : Entry :=
  MkEntry None 0 ∅ [] None zeroTime zeroTime zeroTime [] [] false false false 0 false [] ∅ false [] [] [] 0
    (replicate 16 0) (replicate 16 0) None.

Definition with_Body (b : list Z) (e : Entry) : Entry :=
  MkEntry (Evidence e) (Status e) (e_Header e) b (diskBody e) (CreatedAt e) (ExpiresAt e) (StaleUntil e) (ETag e)
    (LastModified e) (RequiresValidation e) (MustRevalidate e) (SharedAuthReuse e) (StaleIfError e) (HasStaleIfError e)
    (Vary e) (VaryValues e) (IsVaryStub e) (Variants e) (Tags e) (RouteScope e) (RouteEpoch e) (BypassDigest e)
    (RouteConfigDigest e) (RouteVary e).

Definition BodyLen (e : Entry) : Z :=
  match diskBody e with Some n => n | None => Z.of_nat (length (Body e)) end.

Definition header_size (h : gmap gostring (list gostring)) : Z :=
  map_fold (fun k vs n => n + zlen k + total zlen vs) 0 h.

(** [Entry.Size]. *)
Definition Size (e : Entry) : Z :=
  let n := zlen (Body e) + 256 in
  let n := if Evidence e then n + 96 else n in
  let n := n + header_size (e_Header e) in
  let n := n + total zlen (Vary e) in
  let n := n + map_fold (fun name value n => n + (zlen name + zlen value)) 0 (VaryValues e) in
  let n := n + total zlen (Variants e) in
  let n := n + total zlen (Tags e) in
  let n := n + header_size (default ∅ (RouteVary e)) in
  n + (zlen (RouteScope e) + zlen (ETag e) + zlen (LastModified e)).

Definition Fresh (e : Entry) (now : Z) : bool := now <? ExpiresAt e.
Definition ServableStale (e : Entry) (now : Z) : bool := negb (Fresh e now) && (now <? StaleUntil e).

Definition ownsVariant (e : Entry) (vk : gostring) : bool := bool_decide (vk ∈ Variants e).

Definition maxVariantsPerResource : nat := 64.

(** ** The policy snapshot *)

(** The transformed-header guard of a route (vary_security.go). *)
Record varyTransformPolicy := MkGuard {
  vg_names : gset gostring;
  vg_prefixes : list gostring;
  vg_reject : bool;
  vg_cgi : bool
}.

Record CachePolicy := MkCachePolicy {
  cp_DefaultTTL : Z;
  cp_StaleWhileRevalidate : Z;
  cp_StaleIfError : Z;
  cp_MemoryMaxBytes : Z;
  cp_MaxEntryBytes : Z;
  cp_Lock : bool;
  cp_LockTimeout : Z;
  cp_RangeEnabled : bool;
  cp_MaxRanges : Z;
  cp_TagHeaders : list gostring;
  cp_StripTagHeaders : bool;
  cp_RouteScope : gostring;
  cp_RouteEpoch : Z;
  cp_MultiRouteOverlap : bool;
  cp_HasRouteDefaultTTL : bool;
  cp_HasMaxTTL : bool;
  cp_MaxTTL : Z;
  cp_HasRouteSWR : bool;
  cp_HasRouteSIE : bool;
  cp_BypassAnyCookie : bool;
  cp_BypassCookies : list gostring;
  cp_varyGuard : option varyTransformPolicy
}.

Definition MemoryCapBytes (p : CachePolicy) : Z :=
  if cp_MemoryMaxBytes p <=? 0 then cp_MaxEntryBytes p
  else if (0 <? cp_MaxEntryBytes p) && (cp_MaxEntryBytes p <? cp_MemoryMaxBytes p) then cp_MaxEntryBytes p
  else cp_MemoryMaxBytes p.

(** ** Headers *)

Definition hasHeaderField (h : Header) (name : gostring) : bool := negb (bool_decide (header_Values h name = [])).

Definition hopByHopHeaders : list gostring :=
  [str "Connection"; str "Proxy-Connection"; str "Keep-Alive"; str "Proxy-Authenticate"; str "Proxy-Authorization";
   str "Te"; str "Trailer"; str "Transfer-Encoding"; str "Upgrade"; str "X-Jul-WAF-Event"].

Definition del_all (names : list gostring) (h : Header) : Header := foldl header_Del h names.

(** [stripConfiguredTagHeaders]. *)
Definition stripConfiguredTagHeaders (h : Header) (tagHeaders : list gostring) : Header := del_all tagHeaders h.

Section Lists.
Context `{Unicode}.

Definition parseList (v : gostring) : list gostring :=
  filter (fun p => p <> []) (map TrimSpace (SplitByte v 44)).

(** The names listed by [Connection] are read before any of them is removed. *)
Definition removeHopByHop (h : Header) : Header :=
  del_all hopByHopHeaders (del_all (concat (map parseList (header_Values h (str "Connection")))) h).

(** The lines of every field whose name is [Vary] in some case. *)
Definition vary_lines (h : Header) : list gostring :=
  concat (map snd (filter (fun kv => EqualFold kv.1 (str "Vary") = true) (map_to_list h))).

Definition varyFields (h : Header) : list gostring := concat (map parseList (vary_lines h)).

End Lists.

Lemma header_size_nonneg h : 0 <= header_size h.
Proof.
  unfold header_size. apply (map_fold_weak_ind (fun n _ => 0 <= n)); [done|].
  intros k vs m n _ Hn. pose proof (zlen_nonneg k). pose proof (total_nonneg zlen vs zlen_nonneg). lia.
Qed.

Lemma Size_pos e : 256 <= Size e.
Proof.
  unfold Size. pose proof (zlen_nonneg (Body e)). pose proof (header_size_nonneg (e_Header e)).
  pose proof (header_size_nonneg (default ∅ (RouteVary e))).
  pose proof (total_nonneg zlen (Vary e) zlen_nonneg). pose proof (total_nonneg zlen (Variants e) zlen_nonneg).
  pose proof (total_nonneg zlen (Tags e) zlen_nonneg).
  pose proof (zlen_nonneg (RouteScope e)). pose proof (zlen_nonneg (ETag e)). pose proof (zlen_nonneg (LastModified e)).
  assert (0 <= map_fold (fun name value n => n + (zlen name + zlen value)) 0 (VaryValues e)).
  { apply (map_fold_weak_ind (fun n _ => 0 <= n)); [done|]. intros k v m n _ Hn.
    pose proof (zlen_nonneg k). pose proof (zlen_nonneg v). lia. }
  destruct (Evidence e); lia.
Qed.
