(* ===== verification/CacheIdentity.v ===== *)
(** * The identity of a cache policy (src/internal/cache/inspection.go, route_policy.go)

    The digests that tie a stored entry to the policy it was stored under: the
    length-prefixed encoding of the policy hashed by [policyID], the digest of
    its cookie bypass rules and that of its route fields.  Equal encodings mean
    equal policies, up to the two fields the encoding leaves out. *)

From S2P Require Import Prelude GoStrings Bytes CacheEntry.

(** ** Policy digests *)

(** [binary.AppendUvarint]; ten bytes hold every 64-bit value. *)
Fixpoint uvarint_aux (fuel : nat) (n : Z) : list Z :=
  match fuel with
  | O => []
  | S fuel => if n <? 128 then [n] else (n mod 128 + 128) :: uvarint_aux fuel (n / 128)
  end.
Definition uvarint (n : Z) : list Z := uvarint_aux 10 (u64 n).

Definition flag_byte (b : bool) : Z := if b then 1 else 0.
Definition framed (s : gostring) : list Z := uvarint (zlen s) ++ s.

(** A Go array of [n] strings with the given ones first. *)
Definition string_array (n : nat) (l : list gostring) : list gostring := take n (l ++ replicate n []).

Definition MaxBypassCookies : nat := 32.

Definition policy_numbers (p : CachePolicy) : list Z :=
  [cp_DefaultTTL p; cp_StaleWhileRevalidate p; cp_StaleIfError p; cp_MemoryMaxBytes p; cp_MaxEntryBytes p;
   cp_LockTimeout p; cp_MaxRanges p; Z.of_nat (length (cp_TagHeaders p)); cp_RouteEpoch p; cp_MaxTTL p;
   Z.of_nat (length (cp_BypassCookies p))].

Definition policy_flags (p : CachePolicy) : list bool :=
  [cp_Lock p; cp_RangeEnabled p; cp_StripTagHeaders p; cp_HasRouteDefaultTTL p; cp_HasMaxTTL p; cp_HasRouteSWR p;
   cp_HasRouteSIE p; cp_BypassAnyCookie p].

Definition policy_strings (p : CachePolicy) : list gostring :=
  cp_RouteScope p :: string_array 8 (cp_TagHeaders p) ++ string_array MaxBypassCookies (cp_BypassCookies p).

Definition policy_encoding (p : CachePolicy) : list Z :=
  str "jul-cache-policy-v2" ++ 0 :: concat (map uvarint (policy_numbers p)) ++
  map flag_byte (policy_flags p) ++ concat (map framed (policy_strings p)).

Section Digest.
Context `{Sha256}.

Definition policyID (p : CachePolicy) : list Z := sha256 (policy_encoding p).

Definition bypasses (p : CachePolicy) : bool := cp_BypassAnyCookie p || negb (bool_decide (cp_BypassCookies p = [])).

Definition bypassPolicyDigest (p : CachePolicy) : list Z :=
  if negb (bypasses p) then replicate 16 0
  else take 16 (sha256 ((if cp_BypassAnyCookie p then str "any" ++ [10] else [])
                        ++ concat (map (fun c => c ++ [10]) (take MaxBypassCookies (cp_BypassCookies p))))).

(** The policy restricted to the fields a route sets. *)
Definition route_fields (p : CachePolicy) : CachePolicy :=
  MkCachePolicy (if cp_HasRouteDefaultTTL p then cp_DefaultTTL p else 0)
    (if cp_HasRouteSWR p then cp_StaleWhileRevalidate p else 0) (if cp_HasRouteSIE p then cp_StaleIfError p else 0)
    0 0 false 0 false 0 [] false (cp_RouteScope p) (cp_RouteEpoch p) false (cp_HasRouteDefaultTTL p) (cp_HasMaxTTL p)
    (cp_MaxTTL p) (cp_HasRouteSWR p) (cp_HasRouteSIE p) (cp_BypassAnyCookie p) (cp_BypassCookies p) None.

Definition routeConfigDigest (p : CachePolicy) : list Z :=
  if bool_decide (cp_RouteScope p = []) && negb (cp_HasRouteDefaultTTL p) && negb (cp_HasMaxTTL p) && negb (cp_HasRouteSWR p)
     && negb (cp_HasRouteSIE p) && negb (bypasses p)
  then replicate 16 0
  else take 16 (policyID (route_fields p)).
End Digest.

(** ** The encoding is exact *)

Lemma uvarint_aux_prefix fuel n m a b :
  0 <= n < 128 ^ Z.of_nat fuel -> 0 <= m < 128 ^ Z.of_nat fuel ->
  uvarint_aux fuel n ++ a = uvarint_aux fuel m ++ b -> n = m /\ a = b.
Proof.
  revert n m. induction fuel as [|f IH]; intros n m Hn Hm; [cbn; intros; split; [lia|done]|].
  rewrite Nat2Z.inj_succ, Z.pow_succ_r in * by lia. cbn [uvarint_aux].
  pose proof (Z.mod_pos_bound n 128 eq_refl) as Bn. pose proof (Z.mod_pos_bound m 128 eq_refl) as Bm.
  pose proof (Z.div_mod n 128 ltac:(lia)) as Dn. pose proof (Z.div_mod m 128 ltac:(lia)) as Dm.
  destruct (Z.ltb_spec n 128), (Z.ltb_spec m 128); intros E; injection E; try lia.
  - done.
  - intros HT HH. apply IH in HT; [|lia..]. destruct HT as [HD ->]. split; [lia|done].
Qed.

Lemma uvarint_prefix n m a b : uvarint n ++ a = uvarint m ++ b -> u64 n = u64 m /\ a = b.
Proof. pose proof (u64_range n). pose proof (u64_range m). apply uvarint_aux_prefix; change (128 ^ Z.of_nat 10) with (2 ^ 70); lia. Qed.

Lemma framed_prefix s t a b :
  zlen s < 2 ^ 64 -> zlen t < 2 ^ 64 -> framed s ++ a = framed t ++ b -> s = t /\ a = b.
Proof.
  intros Hs Ht. unfold framed. rewrite <- !app_assoc. intros [EL E]%uvarint_prefix.
  pose proof (zlen_nonneg s). pose proof (zlen_nonneg t). rewrite !u64_small in EL by lia.
  apply app_inj_1 in E; [done|]. unfold zlen in EL. lia.
Qed.

(** Lists of the same length of self-delimiting pieces. *)
Lemma pieces_prefix {A} (enc : A -> list Z) (R : A -> A -> Prop) (ok : A -> Prop) l k a b :
  (forall x y a b, ok x -> ok y -> enc x ++ a = enc y ++ b -> R x y /\ a = b) ->
  length l = length k -> Forall ok l -> Forall ok k ->
  concat (map enc l) ++ a = concat (map enc k) ++ b -> Forall2 R l k /\ a = b.
Proof.
  intros HE. revert k. induction l as [|x l IH]; intros [|y k]; try done. cbn [length map concat].
  intros [= HL] [Hx Hl]%Forall_cons [Hy Hk]%Forall_cons. rewrite <- !app_assoc.
  intros [HR [? ->]%IH]%HE; [|done..]. split; [by constructor|done].
Qed.

Lemma flag_bytes_inj l k a b :
  length l = length k -> map flag_byte l ++ a = map flag_byte k ++ b -> l = k /\ a = b.
Proof.
  revert k. induction l as [|x l IH]; intros [|y k]; try done. intros [= HL] [= HF [-> ->]%IH]; [|done].
  split; [|done]. by destruct x, y.
Qed.

Lemma string_array_length n l : length (string_array n l) = n.
Proof. unfold string_array. rewrite length_take, length_app, length_replicate. lia. Qed.

(** An array determines its first strings. *)
Lemma string_array_inj n l k :
  (length l <= n)%nat -> length l = length k -> string_array n l = string_array n k -> l = k.
Proof.
  intros Hn HL E. unfold string_array in E. apply (f_equal (take (length l))) in E.
  rewrite !take_take, Nat.min_l in E by lia. rewrite take_app_length in E. rewrite HL in E. by rewrite take_app_length in E.
Qed.

(** The sizes Go's types give the fields. *)
Record policy_fits (p : CachePolicy) : Prop := {
  pf_numbers : Forall (fun n => -2 ^ 63 <= n < 2 ^ 63)
    [cp_DefaultTTL p; cp_StaleWhileRevalidate p; cp_StaleIfError p; cp_MemoryMaxBytes p; cp_MaxEntryBytes p;
     cp_LockTimeout p; cp_MaxRanges p; cp_MaxTTL p];
  pf_epoch : 0 <= cp_RouteEpoch p < 2 ^ 64;
  pf_counts : (length (cp_TagHeaders p) <= 8)%nat /\ (length (cp_BypassCookies p) <= MaxBypassCookies)%nat;
  pf_strings : Forall (fun s => zlen s < 2 ^ 64) (cp_RouteScope p :: cp_TagHeaders p ++ cp_BypassCookies p)
}.

(** The fields that change no freshness evidence, cleared. *)
Definition identity_fields (p : CachePolicy) : CachePolicy :=
  MkCachePolicy (cp_DefaultTTL p) (cp_StaleWhileRevalidate p) (cp_StaleIfError p) (cp_MemoryMaxBytes p)
    (cp_MaxEntryBytes p) (cp_Lock p) (cp_LockTimeout p) (cp_RangeEnabled p) (cp_MaxRanges p) (cp_TagHeaders p)
    (cp_StripTagHeaders p) (cp_RouteScope p) (cp_RouteEpoch p) false (cp_HasRouteDefaultTTL p) (cp_HasMaxTTL p)
    (cp_MaxTTL p) (cp_HasRouteSWR p) (cp_HasRouteSIE p) (cp_BypassAnyCookie p) (cp_BypassCookies p) None.

Lemma u64_inj n m : -2 ^ 63 <= n < 2 ^ 63 -> -2 ^ 63 <= m < 2 ^ 63 -> u64 n = u64 m -> n = m.
Proof. unfold u64, wrap. intros Hn Hm E. pose proof (Z.div_mod n (2^64) ltac:(lia)). pose proof (Z.div_mod m (2^64) ltac:(lia)). nia. Qed.

Lemma array_fits n l : Forall (fun s => zlen s < 2 ^ 64) l -> Forall (fun s => zlen s < 2 ^ 64) (string_array n l).
Proof. intros HF. apply Forall_take, Forall_app. split; [done|]. by apply Forall_replicate. Qed.

Lemma policy_encoding_inj p q :
  policy_fits p -> policy_fits q -> policy_encoding p = policy_encoding q -> identity_fields p = identity_fields q.
Proof.
  intros [N1 E1 [T1 B1] S1] [N2 E2 [T2 B2] S2]. unfold policy_encoding. intros [_ E]%app_inv_head%(inj2 cons).
  apply (pieces_prefix uvarint (fun n m => u64 n = u64 m) (fun _ => True)) in E; [|intros; by apply uvarint_prefix|done|by apply Forall_true..].
  destruct E as [EN E]. apply flag_bytes_inj in E as [EF E]; [|done].
  apply Forall_cons in S1 as [S1 [S1t S1b]%Forall_app], S2 as [S2 [S2t S2b]%Forall_app].
  rewrite <- (app_nil_r (concat (map framed (policy_strings p)))), <- (app_nil_r (concat (map framed (policy_strings q)))) in E.
  apply (pieces_prefix framed eq (fun s => zlen s < 2 ^ 64)) in E; [|intros; by apply framed_prefix|..].
  2: { unfold policy_strings. cbn [length]. by rewrite !length_app, !string_array_length. }
  2, 3: constructor; [done|apply Forall_app; split; by apply array_fits].
  destruct E as [ES%list_eq_Forall2 _]. injection ES as ER ES. apply app_inj_1 in ES as [ET EB]; [|by rewrite !string_array_length].
  unfold policy_numbers in EN. rewrite !Forall2_cons in EN. destruct EN as (U1 & U2 & U3 & U4 & U5 & U6 & U7 & U8 & U9 & U10 & U11 & _).
  rewrite !Forall_cons in N1, N2. unfold MaxBypassCookies in *. rewrite !u64_small in U8, U9, U11 by lia.
  apply string_array_inj in ET; [|lia..]. apply string_array_inj in EB; [|unfold MaxBypassCookies; lia..].
  injection EF as F1 F2 F3 F4 F5 F6 F7 F8. unfold identity_fields.
  rewrite (u64_inj _ _ (proj1 N1) (proj1 N2) U1). f_equal; try done; apply u64_inj; tauto.
Qed.
