(* ===== verification/CacheMem.v ===== *)
(** * The memory tier of the cache (src/internal/cache/memstore.go)

    [memStore], a byte-bounded least-recently-used store: insertion with
    eviction, reads that renew an entry, deletion fenced by generation, purge
    and resizing.  An element of the recency list is named by its key, which
    the [items] map records.  The hooks that receive evicted entries are the
    returned victims. *)

From S2P Require Import Prelude GoStrings Bytes Netip Http CacheEntry.

Record memItem := MkItem { mi_key : gostring; mi_entry : Entry; mi_size : Z; mi_gen : Z }.

(** [ll] is the recency list, most recently used first. *)
Record memStore := MkMem {
  maxBytes : Z;
  curBytes : Z;
  evictions : Z;
  ll : list memItem;
  items : gset gostring
}.

Definition default_cap (n : Z) : Z := if n <=? 0 then 64 * 2 ^ 20 else n.

Definition newMemStore (max : Z) : memStore := MkMem (default_cap max) 0 0 [] ∅.

(** ** Elements *)

Definition element (key : gostring) (l : list memItem) : option memItem := find (fun it => string_eqb (mi_key it) key) l.
Definition list_Remove (key : gostring) (l : list memItem) : list memItem := filter (fun it => mi_key it <> key) l.

Definition hasKey (m : memStore) (key : gostring) : bool := bool_decide (key ∈ items m).

(** ** Operations *)

Definition getWithGen (m : memStore) (key : gostring) : memStore * option (Entry * Z) :=
  if bool_decide (key ∈ items m) then
    match element key (ll m) with
    | Some it => (MkMem (maxBytes m) (curBytes m) (evictions m) (it :: list_Remove key (ll m)) (items m),
                  Some (mi_entry it, mi_gen it))
    | None => (m, None)
    end
  else (m, None).

(** The loop of [evictLocked], on the list from its back. *)
Fixpoint evict_loop (max cur : Z) (back : list memItem) (keys : gset gostring) (victims : list memItem)
  : Z * list memItem * gset gostring * list memItem :=
  match back with
  | it :: back' =>
      if max <? cur then evict_loop max (cur - mi_size it) back' (keys ∖ {[ mi_key it ]}) (victims ++ [it])
      else (cur, back, keys, victims)
  | [] => (cur, back, keys, victims)
  end.

Definition evictLocked (m : memStore) : memStore * list memItem :=
  let '(cur, back, keys, victims) := evict_loop (maxBytes m) (curBytes m) (rev (ll m)) (items m) [] in
  (MkMem (maxBytes m) cur (evictions m + Z.of_nat (length victims)) (rev back) keys, victims).

Definition item_size (key : gostring) (e : Entry) : Z := Size e + zlen key.

Definition putWithGen (m : memStore) (key : gostring) (e : Entry) (gen : Z) : memStore * list memItem :=
  let size := item_size key e in
  match (if bool_decide (key ∈ items m) then element key (ll m) else None) with
  | Some it =>
      let it' := MkItem (mi_key it) e size (if gen =? 0 then mi_gen it else gen) in
      evictLocked (MkMem (maxBytes m) (curBytes m + (size - mi_size it)) (evictions m)
                     (it' :: list_Remove key (ll m)) (items m))
  | None =>
      evictLocked (MkMem (maxBytes m) (curBytes m + size) (evictions m)
                     (MkItem key e size gen :: ll m) ({[ key ]} ∪ items m))
  end.

Definition delIfGenAtMost (m : memStore) (key : gostring) (maxGen : Z) : memStore * bool :=
  match (if bool_decide (key ∈ items m) then element key (ll m) else None) with
  | Some it =>
      if negb (maxGen =? max_uint64) && (maxGen <? mi_gen it) then (m, false)
      else (MkMem (maxBytes m) (curBytes m - mi_size it) (evictions m) (list_Remove key (ll m))
              (items m ∖ {[ mi_key it ]}), true)
  | None => (m, false)
  end.

Definition purge (m : memStore) : memStore := MkMem (maxBytes m) 0 (evictions m) [] ∅.

(** The store, the evicted entries, their number and their total size. *)
Definition Resize (m : memStore) (max : Z) : memStore * list memItem * (Z * Z) :=
  let '(m', victims) := evictLocked (MkMem (default_cap max) (curBytes m) (evictions m) (ll m) (items m)) in
  (m', victims, (Z.of_nat (length victims), total mi_size victims)).

(** One operation on the store, as a client issues it. *)
Inductive mem_op :=
| MGet (key : gostring) | MPut (key : gostring) (e : Entry) (gen : Z) | MDel (key : gostring) (maxGen : Z)
| MPurge | MResize (max : Z).

Definition mem_exec (m : memStore) (op : mem_op) : memStore :=
  match op with
  | MGet k => (getWithGen m k).1
  | MPut k e gen => (putWithGen m k e gen).1
  | MDel k maxGen => (delIfGenAtMost m k maxGen).1
  | MPurge => purge m
  | MResize n => (Resize m n).1.1
  end.

(** ** The invariant *)

Record mem_ok (m : memStore) : Prop := {
  ok_keys : NoDup (map mi_key (ll m));
  ok_items : forall k, k ∈ items m <-> k ∈ map mi_key (ll m);
  ok_cur : curBytes m = total mi_size (ll m);
  ok_sizes : Forall (fun it => mi_size it = item_size (mi_key it) (mi_entry it)) (ll m);
  ok_evictions : 0 <= evictions m
}.

Lemma item_size_pos k e : 256 <= item_size k e.
Proof. unfold item_size. pose proof (Size_pos e). pose proof (zlen_nonneg k). lia. Qed.

Lemma element_Some k l it : element k l = Some it -> it ∈ l /\ mi_key it = k.
Proof. intros E. apply find_some in E as [Hi E]. split; [by apply list_elem_of_In|by apply bool_decide_eq_true in E]. Qed.

Lemma element_None k l : element k l = None <-> k ∉ map mi_key l.
Proof.
  induction l as [|it l IH]; simpl; [split; [intros _; apply not_elem_of_nil|done]|].
  unfold string_eqb. case_bool_decide as E; [|rewrite IH; set_solver].
  split; [done|]. intros []. rewrite E. left.
Qed.

Lemma list_Remove_notin k l : k ∉ map mi_key l -> list_Remove k l = l.
Proof.
  induction l as [|it l IH]; [done|]. intros Hk. unfold list_Remove. rewrite filter_cons_True by set_solver.
  f_equal. apply IH. set_solver.
Qed.

Lemma list_Remove_keys k l : map mi_key (list_Remove k l) = filter (fun x => x <> k) (map mi_key l).
Proof.
  induction l as [|it l IH]; [done|]. unfold list_Remove in *. cbn [map]. rewrite !filter_cons.
  case_decide; simpl; by rewrite IH.
Qed.

Lemma list_Remove_total k l it :
  NoDup (map mi_key l) -> element k l = Some it -> total mi_size l = mi_size it + total mi_size (list_Remove k l).
Proof.
  induction l as [|x l IH]; [done|]. intros [Hx HN]%NoDup_cons. unfold element. cbn [find]. unfold string_eqb.
  case_bool_decide as E.
  - intros [= <-]. unfold list_Remove. rewrite filter_cons_False by auto. fold (list_Remove k l).
    rewrite list_Remove_notin by (by rewrite <- E). done.
  - intros Hf. unfold list_Remove. rewrite filter_cons_True by done. fold (list_Remove k l). simpl.
    rewrite (IH HN Hf). lia.
Qed.

(** ** Eviction *)

Lemma evict_loop_spec max cur back keys acc :
  cur = total mi_size back -> Forall (fun it => 0 < mi_size it) back ->
  exists vs back', evict_loop max cur back keys acc = (total mi_size back', back', keys ∖ list_to_set (map mi_key vs), acc ++ vs) /\
    back = vs ++ back' /\ (total mi_size back' <= max \/ back' = []) /\
    (forall v, last vs = Some v -> max < mi_size v + total mi_size back').
Proof.
  revert cur keys acc. induction back as [|it back IH]; intros cur keys acc Hc HP; simpl.
  { exists [], []. rewrite app_nil_r. simpl in *. subst cur. split_and!; try done; [|by right].
    by rewrite difference_empty_L. }
  apply Forall_cons in HP as [Hp HP]. destruct (Z.ltb_spec max cur) as [Hm|Hm].
  - destruct (IH (cur - mi_size it) (keys ∖ {[mi_key it]}) (acc ++ [it])) as (vs & b' & -> & -> & Hb & Hl); [simpl in Hc; lia|done|].
    exists (it :: vs), b'. split_and!; try done.
    + rewrite <- app_assoc. cbn [map list_to_set]. by rewrite difference_difference_l_L.
    + intros v Hv. destruct vs as [|w vs]; [|by apply Hl]. injection Hv as <-. simpl in *. lia.
  - exists [], (it :: back). rewrite app_nil_r. split_and!; try done; [|left; lia].
    cbn [map list_to_set]. by rewrite Hc, difference_empty_L.
Qed.

Lemma total_rev {A} (f : A -> Z) l : total f (rev l) = total f l.
Proof. symmetry. apply total_perm, Permutation_rev. Qed.

Lemma sizes_pos l : Forall (fun it => mi_size it = item_size (mi_key it) (mi_entry it)) l -> Forall (fun it => 0 < mi_size it) l.
Proof. intros HF. eapply Forall_impl; [exact HF|]. intros it ->. pose proof (item_size_pos (mi_key it) (mi_entry it)). lia. Qed.

(** The store keeps the longest part of the recency list that fits, and the
    victims are the rest, least recently used first. *)
Lemma evictLocked_spec m m' vs :
  mem_ok m -> 0 < maxBytes m -> evictLocked m = (m', vs) ->
  mem_ok m' /\ maxBytes m' = maxBytes m /\ ll m = ll m' ++ rev vs /\ curBytes m' <= maxBytes m /\
  evictions m' = evictions m + Z.of_nat (length vs) /\
  (forall v, last vs = Some v -> maxBytes m < curBytes m' + mi_size v).
Proof.
  intros [HN HI HC HS HE] Hm. unfold evictLocked.
  destruct (evict_loop_spec (maxBytes m) (curBytes m) (rev (ll m)) (items m) []) as (vs' & b & -> & Hb & Hle & Hl).
  { by rewrite total_rev. } { apply Forall_rev. by apply sizes_pos. }
  intros [= <- <-]. assert (Hll : ll m = rev b ++ rev vs') by (rewrite <- rev_app_distr, <- Hb; by rewrite rev_involutive).
  rewrite Hll in HN, HI, HS. rewrite map_app in HN. apply NoDup_app in HN as (N1 & N2 & N3). apply Forall_app in HS as [S1 S2].
  split_and!; simpl; try done; [constructor; simpl; try done; [|by rewrite total_rev|lia]| |].
  - intros k. rewrite elem_of_difference, HI, map_app, elem_of_app, elem_of_list_to_set.
    rewrite !map_rev, <- !Permutation_rev. split; [by intros [[?|?] ?]|]. intros Hk. split; [by left|].
    intros Hv. apply (N2 k); rewrite map_rev; by rewrite <- Permutation_rev.
  - destruct Hle as [?| ->]; [done|simpl; lia].
  - intros v Hv. specialize (Hl v Hv). lia.
Qed.

(** ** Operations preserve the invariant *)

Lemma present_element m k :
  mem_ok m -> (if bool_decide (k ∈ items m) then element k (ll m) else None) = element k (ll m).
Proof.
  intros HM. case_bool_decide as E; [done|]. symmetry. apply element_None. by rewrite <- (ok_items m HM).
Qed.

(** Replacing the element of a key by one at the front. *)
Lemma front_ok m k it it' cur :
  mem_ok m -> element k (ll m) = Some it -> mi_key it' = k ->
  mi_size it' = item_size k (mi_entry it') -> cur = curBytes m + (mi_size it' - mi_size it) ->
  mem_ok (MkMem (maxBytes m) cur (evictions m) (it' :: list_Remove k (ll m)) (items m)).
Proof.
  intros [HN HI HC HS HE] He Hk Hs ->. pose proof (element_Some _ _ _ He) as [Hin Hk'].
  constructor; simpl; try done.
  - rewrite Hk, list_Remove_keys. constructor; [rewrite list_elem_of_filter; naive_solver|by apply NoDup_filter].
  - intros k'. rewrite HI, Hk, list_Remove_keys, elem_of_cons, list_elem_of_filter.
    destruct (decide (k' = k)) as [->|Hne]; [|naive_solver]. split; [by left|]. intros _. rewrite <- Hk'.
    apply list_elem_of_fmap. by exists it.
  - rewrite HC, (list_Remove_total k _ it HN He). lia.
  - constructor; [by rewrite Hk|]. apply Forall_forall. intros x Hx. apply list_elem_of_filter in Hx as [_ Hx].
    by eapply Forall_forall in HS.
Qed.

Lemma insert_ok m k e gen :
  mem_ok m -> element k (ll m) = None ->
  mem_ok (MkMem (maxBytes m) (curBytes m + item_size k e) (evictions m)
            (MkItem k e (item_size k e) gen :: ll m) ({[ k ]} ∪ items m)).
Proof.
  intros [HN HI HC HS HE] He%element_None. constructor; simpl; try done.
  - by constructor.
  - intros k'. rewrite elem_of_union, elem_of_singleton, HI, elem_of_cons. done.
  - rewrite HC. lia.
  - by constructor.
Qed.

Lemma remove_ok m k it :
  mem_ok m -> element k (ll m) = Some it ->
  mem_ok (MkMem (maxBytes m) (curBytes m - mi_size it) (evictions m) (list_Remove k (ll m)) (items m ∖ {[ mi_key it ]})).
Proof.
  intros [HN HI HC HS HE] He. pose proof (element_Some _ _ _ He) as [_ ->]. constructor; simpl; try done.
  - rewrite list_Remove_keys. by apply NoDup_filter.
  - intros k'. rewrite elem_of_difference, elem_of_singleton, HI, list_Remove_keys, list_elem_of_filter. naive_solver.
  - rewrite HC, (list_Remove_total k _ it HN He). lia.
  - apply Forall_forall. intros x Hx. apply list_elem_of_filter in Hx as [_ Hx]. by eapply Forall_forall in HS.
Qed.

Lemma default_cap_pos n : 0 < default_cap n.
Proof. unfold default_cap. destruct (Z.leb_spec n 0); lia. Qed.

Definition bounded (m : memStore) : Prop := mem_ok m /\ 0 < maxBytes m /\ curBytes m <= maxBytes m.

Lemma put_cases m k e gen :
  mem_ok m ->
  exists m1, putWithGen m k e gen = evictLocked m1 /\ mem_ok m1 /\ maxBytes m1 = maxBytes m /\
    evictions m1 = evictions m /\
    ll m1 = MkItem k e (item_size k e) (match element k (ll m) with Some it => if gen =? 0 then mi_gen it else gen | None => gen end)
            :: list_Remove k (ll m).
Proof.
  intros HM. unfold putWithGen. rewrite present_element by done. destruct (element k (ll m)) as [it|] eqn:E.
  - pose proof (element_Some _ _ _ E) as [_ Hk]. eexists. split_and!; [done|..]; try done; [|by rewrite Hk].
    rewrite Hk. by apply (front_ok m k it).
  - eexists. split_and!; [done|..]; try done; [by apply insert_ok|]. simpl. f_equal. symmetry.
    by apply list_Remove_notin, element_None.
Qed.

Lemma exec_bounded m op : bounded m -> bounded (mem_exec m op).
Proof.
  intros (HM & Hp & Hb). destruct op as [k|k e gen|k g| |n]; simpl.
  - unfold getWithGen. case_bool_decide; [|done]. destruct (element k (ll m)) as [it|] eqn:E; [|done].
    split_and!; simpl; try done. pose proof (element_Some _ _ _ E) as [Hi Hk].
    apply (front_ok m k it it); try done; [|lia]. rewrite <- Hk. by eapply Forall_forall in Hi; [|apply (ok_sizes m HM)].
  - destruct (put_cases m k e gen HM) as (m1 & -> & H1 & M1 & _ & _). destruct (evictLocked m1) as [m' vs] eqn:E.
    destruct (evictLocked_spec m1 m' vs H1) as (H2 & H3 & _ & H4 & _); [by rewrite M1|done|].
    simpl. split_and!; [done|by rewrite H3, M1|by rewrite H3].
  - unfold delIfGenAtMost. rewrite present_element by done. destruct (element k (ll m)) as [it|] eqn:E; [|done].
    destruct (_ && _); [done|]. simpl. pose proof (element_Some _ _ _ E) as [Hi _].
    pose proof (sizes_pos _ (ok_sizes m HM)) as HP. eapply Forall_forall in HP; [|done].
    split_and!; simpl; [by apply remove_ok|done|lia].
  - split_and!; simpl; try done; [|lia]. constructor; simpl; try done; [constructor| |by apply (ok_evictions m)].
    intros k. set_solver.
  - unfold Resize. destruct (evictLocked _) as [m' vs] eqn:E. simpl.
    assert (HM' : mem_ok (MkMem (default_cap n) (curBytes m) (evictions m) (ll m) (items m))) by (destruct HM; by constructor).
    destruct (evictLocked_spec _ m' vs HM' (default_cap_pos n) E) as (H2 & H3 & _ & H4 & _). simpl in *.
    split_and!; [done|rewrite H3; apply default_cap_pos|by rewrite H3].
Qed.

Lemma new_bounded n : bounded (newMemStore n).
Proof.
  pose proof (default_cap_pos n). split_and!; simpl; [|done|lia]. constructor; simpl; try done; [constructor|set_solver].
Qed.

Lemma run_bounded n ops : bounded (foldl mem_exec (newMemStore n) ops).
Proof. induction ops as [|op ops IH] using rev_ind; [apply new_bounded|]. rewrite foldl_app. by apply exec_bounded. Qed.

Lemma get_element m k : mem_ok m -> (getWithGen m k).2 = (fun it => (mi_entry it, mi_gen it)) <$> element k (ll m).
Proof.
  intros HM. unfold getWithGen. pose proof (present_element m k HM) as HP. revert HP.
  case_bool_decide; [|by intros <-]. intros _. by destruct (element k (ll m)).
Qed.

(** In every run of the memory tier the byte counter is the total size of
    the entries held and within the cap, and an insertion is exactly LRU: the
    new entry goes to the front of the recency order, the longest part of that
    order that fits is kept, and the victims are the rest, least recently used
    first.  The inserted entry is found afterwards unless it alone exceeds the
    cap, in which case the whole tier is empty. *)
Theorem mem_lru (n : Z) (ops : list mem_op) (k : gostring) (e : Entry) (gen : Z) :
  let m := foldl mem_exec (newMemStore n) ops in
  let '(m', vs) := putWithGen m k e gen in
  curBytes m' = total (fun it => item_size (mi_key it) (mi_entry it)) (ll m') /\ curBytes m' <= maxBytes m' /\
  (exists g, MkItem k e (item_size k e) g :: list_Remove k (ll m) = ll m' ++ rev vs) /\
  (forall v, last vs = Some v -> maxBytes m' < curBytes m' + mi_size v) /\
  evictions m' = evictions m + Z.of_nat (length vs) /\
  (item_size k e <= maxBytes m -> exists g, (getWithGen m' k).2 = Some (e, g)) /\
  (maxBytes m < item_size k e -> ll m' = []).
Proof.
  intros m. pose proof (run_bounded n ops) as (HM & Hp & _). fold m in HM, Hp.
  destruct (put_cases m k e gen HM) as (m1 & -> & H1 & M1 & E1 & L1). destruct (evictLocked m1) as [m' vs] eqn:E.
  destruct (evictLocked_spec m1 m' vs H1) as (H2 & H3 & H4 & H5 & H6 & H7); [by rewrite M1|done|].
  rewrite L1 in H4. remember (MkItem k e (item_size k e) _) as it eqn:Ei.
  assert (HF : total mi_size (ll m') = total (fun it => item_size (mi_key it) (mi_entry it)) (ll m')).
  { pose proof (ok_sizes m' H2) as HS. revert HS. generalize (ll m'). induction l as [|x l IH]; [done|].
    intros [Hx Hl]%Forall_cons. simpl. by rewrite Hx, IH. }
  assert (HL : ll m' = [] \/ exists l, ll m' = it :: l).
  { destruct (ll m') as [|x l]; [by left|]. right. exists l. by injection H4 as <- _. }
  split_and!.
  - by rewrite (ok_cur m' H2).
  - by rewrite H3.
  - rewrite Ei in H4. by eexists.
  - rewrite H3. exact H7.
  - by rewrite H6, E1.
  - intros Hs. rewrite get_element by done. destruct HL as [HL|[l HL]].
    + exfalso. rewrite HL in H4. simpl in H4. assert (Hv : last vs = Some it).
      { rewrite <- (rev_involutive vs), <- H4. simpl. apply last_snoc. }
      specialize (H7 _ Hv). rewrite (ok_cur m' H2), HL, M1, Ei in H7. simpl in H7. lia.
    + rewrite HL, Ei. unfold element. simpl. unfold string_eqb. rewrite bool_decide_true by done. by eexists.
  - intros Hs. destruct HL as [HL|[l HL]]; [done|]. exfalso. rewrite (ok_cur m' H2), HL, M1, Ei in H5. simpl in H5.
    pose proof (sizes_pos _ (ok_sizes m' H2)) as HP. rewrite HL in HP. apply Forall_cons in HP as [_ HP].
    assert (0 <= total mi_size l); [|lia]. clear -HP. induction HP; simpl; lia.
Qed.

(** ** What the tier promises *)

(** The contract: a list of keys, entries and generations, most recently used
    first.  After an insertion or a resizing the longest part from the front
    that fits the cap is kept. *)
Definition lru_item : Type := gostring * Entry * Z.
Definition lru_size (x : lru_item) : Z := item_size x.1.1 x.1.2.

Fixpoint fitting (cap : Z) (l : list lru_item) : list lru_item :=
  match l with
  | [] => []
  | x :: l => if lru_size x <=? cap then x :: fitting (cap - lru_size x) l else []
  end.

Definition lru_find (k : gostring) (l : list lru_item) : option (Entry * Z) :=
  (fun x : lru_item => (x.1.2, x.2)) <$> find (fun x => string_eqb x.1.1 k) l.
Definition lru_drop (k : gostring) (l : list lru_item) : list lru_item := filter (fun x => x.1.1 <> k) l.

(** A deletion up to a generation spares what was written later; the largest
    number spares nothing. *)
Definition deletes (maxGen gen : Z) : bool := (maxGen =? max_uint64) || (gen <=? maxGen).

Definition lru_step (s : Z * list lru_item) (op : mem_op) : Z * list lru_item :=
  let '(cap, l) := s in
  match op with
  | MGet k => (cap, match lru_find k l with Some (e, g) => (k, e, g) :: lru_drop k l | None => l end)
  | MPut k e gen => (cap, fitting cap ((k, e, if gen =? 0 then default 0 (snd <$> lru_find k l) else gen) :: lru_drop k l))
  | MDel k maxGen => (cap, match lru_find k l with Some (_, g) => if deletes maxGen g then lru_drop k l else l | None => l end)
  | MPurge => (cap, [])
  | MResize n => (default_cap n, fitting (default_cap n) l)
  end.

(** The last write of each key that no deletion took back. *)
Definition map_exec (s : gmap gostring (Entry * Z)) (op : mem_op) : gmap gostring (Entry * Z) :=
  match op with
  | MPut k e gen => <[k := (e, gen)]> s
  | MDel k maxGen => match s !! k with Some (_, g) => if deletes maxGen g then delete k s else s | None => s end
  | MPurge => ∅
  | MGet _ | MResize _ => s
  end.

(** *** The tier keeps it *)

Definition view (it : memItem) : lru_item := (mi_key it, mi_entry it, mi_gen it).

Lemma element_view k l : lru_find k (map view l) = (fun it => (mi_entry it, mi_gen it)) <$> element k l.
Proof.
  unfold lru_find, element. induction l as [|it l IH]; [done|]. cbn [map find]. cbn [view fst snd]. by destruct (string_eqb _ _).
Qed.

Lemma remove_view k l : map view (list_Remove k l) = lru_drop k (map view l).
Proof.
  unfold list_Remove, lru_drop. induction l as [|it l IH]; [done|]. cbn [map]. rewrite !filter_cons. cbn [view fst snd].
  case_decide; cbn [map]; by rewrite IH.
Qed.

Lemma lru_size_pos x : 0 < lru_size x.
Proof. unfold lru_size. pose proof (item_size_pos x.1.1 x.1.2). lia. Qed.

Lemma fitting_app a b : forall cap, total lru_size a <= cap ->
  (forall v, head b = Some v -> cap < total lru_size a + lru_size v) -> fitting cap (a ++ b) = a.
Proof.
  induction a as [|x a IH]; intros cap Ha Hb; cbn [app fitting total] in *.
  - destruct b as [|v b]; [done|]. specialize (Hb v eq_refl). cbn [fitting total] in *. by rewrite (proj2 (Z.leb_gt _ _)) by lia.
  - assert (0 <= total lru_size a) as HT by (apply total_nonneg; intros y; pose proof (lru_size_pos y); lia).
    rewrite (proj2 (Z.leb_le _ _)) by lia. f_equal. apply IH; [lia|]. intros v Hv. specialize (Hb v Hv). lia.
Qed.

Lemma total_view l : Forall (fun it => mi_size it = item_size (mi_key it) (mi_entry it)) l -> total mi_size l = total lru_size (map view l).
Proof. induction 1 as [|it l Hi HL IH]; [done|]. cbn [total map]. by rewrite IH, Hi. Qed.

Lemma evicted_fitting m m' vs :
  mem_ok m -> 0 < maxBytes m -> evictLocked m = (m', vs) ->
  map view (ll m') = fitting (maxBytes m) (map view (ll m)) /\ maxBytes m' = maxBytes m.
Proof.
  intros H1 H2 H3. destruct (evictLocked_spec m m' vs H1 H2 H3) as (H4 & H5 & H6 & H7 & _ & H8). split; [|done].
  pose proof (ok_sizes m H1) as HS. rewrite H6 in HS. apply Forall_app in HS as [S1 S2].
  rewrite H6, map_app. symmetry. apply fitting_app; rewrite <- (total_view _ S1), <- (ok_cur m' H4); [done|].
  intros v Hv. destruct vs as [|x vs] using rev_ind; [done|]. clear IHvs. rewrite rev_app_distr in *. cbn in Hv. injection Hv as <-.
  apply Forall_cons in S2 as [Sx _]. specialize (H8 x (last_snoc _ _)). unfold lru_size. cbn [view fst snd]. lia.
Qed.

Definition represents (m : memStore) (s : Z * list lru_item) : Prop := maxBytes m = s.1 /\ map view (ll m) = s.2.

Lemma get_represents m s k : bounded m -> represents m s -> represents (getWithGen m k).1 (lru_step s (MGet k)).
Proof.
  intros (HM & _) [E1 E2]. destruct s as [cap l]. cbn [fst snd lru_step] in *. subst l. rewrite element_view. unfold getWithGen.
  pose proof (present_element m k HM) as HP. case_bool_decide; [|by rewrite <- HP].
  destruct (element k (ll m)) as [it|] eqn:E; [|done]. apply element_Some in E as [_ Hk]. split; [done|]. cbn [fst snd ll fmap option_fmap option_map map].
  rewrite remove_view. unfold view. by rewrite Hk.
Qed.

Lemma put_represents m s k e gen : bounded m -> represents m s -> represents (putWithGen m k e gen).1 (lru_step s (MPut k e gen)).
Proof.
  intros (HM & Hp & _) [E1 E2]. destruct s as [cap l]. cbn [fst snd lru_step] in *. subst cap l.
  destruct (put_cases m k e gen HM) as (m1 & -> & H1 & M1 & _ & L1). destruct (evictLocked m1) as [m' vs] eqn:E.
  destruct (evicted_fitting m1 m' vs H1) as [F1 F2]; [by rewrite M1|done|]. split; cbn [fst snd]; [by rewrite F2, M1|].
  rewrite F1, M1, L1. cbn [map]. rewrite remove_view, element_view. unfold view. cbn [mi_key mi_entry mi_gen].
  destruct (element k (ll m)); cbn; [done|]. by destruct (Z.eqb_spec gen 0) as [->|].
Qed.

Lemma del_fence maxGen gen : negb (maxGen =? max_uint64) && (maxGen <? gen) = negb (deletes maxGen gen).
Proof. unfold deletes. rewrite negb_orb. f_equal. by rewrite Z.ltb_antisym. Qed.

Lemma del_represents m s k g : bounded m -> represents m s ->
  represents (delIfGenAtMost m k g).1 (lru_step s (MDel k g)) /\
  (delIfGenAtMost m k g).2 = match lru_find k s.2 with Some (_, gen) => deletes g gen | None => false end.
Proof.
  intros (HM & _) [E1 E2]. destruct s as [cap l]. cbn [fst snd lru_step] in *. subst cap l. rewrite element_view. unfold delIfGenAtMost.
  rewrite present_element by done. destruct (element k (ll m)) as [it|]; cbn [fmap option_fmap option_map]; [|done].
  rewrite del_fence. destruct (deletes g (mi_gen it)); cbn [negb fst snd]; (split; [|done]); split; try done. apply remove_view.
Qed.

Lemma exec_represents m s op : bounded m -> represents m s -> represents (mem_exec m op) (lru_step s op).
Proof.
  intros HB HR. destruct op as [k|k e gen|k g| |n]; cbn [mem_exec].
  - by apply get_represents.
  - by apply put_represents.
  - by apply del_represents.
  - destruct s, HR. by split.
  - destruct HB as ([HN HI HC HS HE] & Hp & _), HR as [E1 E2], s as [cap l]. cbn [fst snd lru_step] in *. subst cap l.
    unfold Resize. destruct (evictLocked _) as [m' vs] eqn:E.
    destruct (evicted_fitting (MkMem (default_cap n) (curBytes m) (evictions m) (ll m) (items m)) m' vs) as [F1 F2]; [by constructor|apply default_cap_pos|done|].
    by split.
Qed.

Lemma run_represents n ops : represents (foldl mem_exec (newMemStore n) ops) (foldl lru_step (default_cap n, []) ops).
Proof.
  induction ops as [|op ops IH] using rev_ind; [done|]. rewrite !foldl_app. apply exec_represents; [apply run_bounded|done].
Qed.

(** *** The contract returns last writes *)

Lemma fitting_sub l : forall cap x, x ∈ fitting cap l -> x ∈ l.
Proof.
  induction l as [|y l IH]; intros cap x; cbn [fitting]; [done|]. destruct (_ <=? _); [|by intros ?%elem_of_nil].
  intros [->|Hx]%elem_of_cons; [left|right; by eapply IH].
Qed.

Definition within (l : list lru_item) (s : gmap gostring (Entry * Z)) : Prop := forall k e g, (k, e, g) ∈ l -> s !! k = Some (e, g).

Lemma find_in k l e g : lru_find k l = Some (e, g) -> (k, e, g) ∈ l.
Proof.
  unfold lru_find. intros (x & Hf & E)%fmap_Some. apply find_some in Hf as [Hi Ek]. apply bool_decide_eq_true in Ek.
  destruct x as [[k' e'] g']. cbn in *. injection E as <- <-. subst k'. by apply list_elem_of_In.
Qed.

Definition tagged (op : mem_op) : Prop := match op with MPut _ _ gen => gen <> 0 | _ => True end.

Lemma within_step cap l s op : tagged op -> within l s -> within (lru_step (cap, l) op).2 (map_exec s op).
Proof.
  intros Hg HW k' e' g'. destruct op as [k|k e gen|k x| |n]; cbn [lru_step map_exec snd].
  - destruct (lru_find k l) as [[e g]|] eqn:E; [|apply HW]. intros [[= -> -> ->]|[_ Hx]%list_elem_of_filter]%elem_of_cons; [by apply HW, find_in|by apply HW].
  - intros Hx%fitting_sub. rewrite (proj2 (Z.eqb_neq gen 0) Hg) in Hx. apply elem_of_cons in Hx as [[= -> -> ->]|[Hne Hx]%list_elem_of_filter];
      [apply lookup_insert_eq|]. cbn in Hne. rewrite lookup_insert_ne by done. by apply HW.
  - destruct (lru_find k l) as [[e g]|] eqn:E.
    + rewrite (HW _ _ _ (find_in _ _ _ _ E)). destruct (deletes x g); [|apply HW].
      intros [Hne Hx]%list_elem_of_filter. cbn in Hne. rewrite lookup_delete_ne by done. by apply HW.
    + intros Hx. assert (k <> k') as Hne.
      { intros <-. unfold lru_find in E. destruct (find (fun x => string_eqb x.1.1 k) l) eqn:Ef; [done|]. eapply find_none in Ef; [|by apply list_elem_of_In]. cbn in Ef.
        unfold string_eqb in Ef. by rewrite bool_decide_true in Ef. }
      apply HW in Hx. destruct (s !! k) as [[e0 g0]|]; [|done]. destruct (deletes x g0); [|done]. by rewrite lookup_delete_ne.
  - by intros ?%elem_of_nil.
  - intros Hx%fitting_sub. by apply HW.
Qed.

Lemma run_within n ops : Forall tagged ops -> within (foldl lru_step (default_cap n, []) ops).2 (foldl map_exec ∅ ops).
Proof.
  intros HG. induction ops as [|op ops IH] using rev_ind; [intros k e g ?%elem_of_nil; done|]. apply Forall_app in HG as [HG Ho%Forall_inv].
  rewrite !foldl_app. specialize (IH HG). destruct (foldl lru_step _ ops) as [cap l]. by apply within_step.
Qed.

(** C24: The memory tier is exactly a least-recently-used store with a byte cap.
    After any insertions, reads, deletions, purges and resizings it holds what
    the contract holds, in the same order: a read finds an entry if and only if
    the contract has it, with the generation it was written under, and a
    deletion succeeds if and only if the entry is there and not newer than the
    generation of the deletion.  The byte counter is the total size of what is
    held, within the cap.  And when every insertion has a generation, what a
    read finds is the last entry written under the key, with its generation, and
    no deletion or purge since has covered it. *)
Theorem mem_reads_last_write (n : Z) (ops : list mem_op) (k : gostring) :
  let m := foldl mem_exec (newMemStore n) ops in
  let '(cap, l) := foldl lru_step (default_cap n, []) ops in
  (getWithGen m k).2 = lru_find k l /\
  (forall maxGen, (delIfGenAtMost m k maxGen).2 = match lru_find k l with Some (_, g) => deletes maxGen g | None => false end) /\
  map (fun it => (mi_key it, mi_entry it, mi_gen it)) (ll m) = l /\
  maxBytes m = cap /\ curBytes m = total lru_size l /\ curBytes m <= cap /\
  (Forall tagged ops -> forall e g, (getWithGen m k).2 = Some (e, g) -> foldl map_exec ∅ ops !! k = Some (e, g)).
Proof.
  intros m. pose proof (run_bounded n ops) as HB. pose proof (run_represents n ops) as HR. pose proof (run_within n ops) as HW. fold m in HB, HR.
  destruct (foldl lru_step _ ops) as [cap l]. pose proof HB as (HM & _ & Hle). pose proof HR as [E1 E2]. cbn [fst snd] in *.
  assert ((getWithGen m k).2 = lru_find k l) as HG by (by rewrite get_element, <- E2, element_view).
  split_and!; [done| |done|done| |lia|].
  - intros maxGen. by apply (del_represents m (cap, l) k maxGen).
  - rewrite (ok_cur m HM), <- E2. apply total_view, (ok_sizes m HM).
  - intros HN e g. rewrite HG. intros HF%find_in. by apply HW.
Qed.

(** ** A concrete run *)

Definition demo_item (c : Z) : Entry := with_Body (replicate 40 c) zeroEntry.

Definition demo_mem_ops : list mem_op :=
  [MPut [1] (demo_item 1) 1; MPut [2] (demo_item 2) 2; MGet [1]; MPut [3] (demo_item 3) 3; MDel [3] 2].

(** The entry least recently used made room; the deletion came too late. *)
Lemma mem_reads_last_write_witness :
  (getWithGen (foldl mem_exec (newMemStore 600) demo_mem_ops) [2]).2 = None /\
  foldl map_exec ∅ demo_mem_ops !! [3] = Some (demo_item 3, 3).
Proof.
  split; [vm_compute; reflexivity|]. pose proof (mem_reads_last_write 600 demo_mem_ops [3]) as HM. cbv zeta in HM.
  destruct (foldl lru_step _ _) as [cap l]. destruct HM as (_ & _ & _ & _ & _ & _ & HW).
  apply HW; [by repeat constructor|vm_compute; reflexivity].
Defined.
