(* ===== verification/CacheTags.v ===== *)
(** * Grouping tags of cached responses (src/internal/cache/tags.go)

    Validation of a tag, the rules that keep credential-shaped values out of
    the index, ingestion from the configured origin headers with its bounds,
    and the union of the tags of several variants. *)

From S2P Require Import Prelude GoStrings Bytes Netip Http CacheEntry.

Definition MaxTagsPerEntry : nat := 32.
Definition MaxTagLength : nat := 128.
Definition MaxTagBytesPerEntry : Z := 1024.
Definition MaxRawTagHeaderBytes : Z := 4096.

Inductive tagErr := errEmptyTag | errTagTooLong | errInvalidTagChr | errCredentialTag.

Inductive tagSkip := TagSkipInvalid | TagSkipOversize.

Definition tag_char (c : Z) : bool :=
  (33 <=? c) && (c <=? 126) && negb ((c =? 44) || (c =? 59) || (c =? 34) || (c =? 39)).

(** [strings.Count (s, ".")] for one byte. *)
Definition count_byte (c : Z) (s : gostring) : nat := length (filter (fun x => x = c) s).

Definition credential_words : list gostring :=
  [str "bearer"; str "basic"; str "digest"; str "negotiate"; str "ntlm"; str "oauth"; str "aws4-hmac-sha256"].

Definition tab : gostring := [9].

Definition credential_prefixes : list gostring :=
  [str "bearer "; str "bearer" ++ tab; str "bearer:"; str "bearer_"; str "bearer-";
   str "basic "; str "basic" ++ tab; str "basic:"; str "basic_"; str "basic-";
   str "digest "; str "digest" ++ tab; str "digest:";
   str "token "; str "token" ++ tab; str "token="; str "token:"; str "access_token="; str "refresh_token=";
   str "secret "; str "secret" ++ tab; str "secret="; str "secret:"; str "client_secret=";
   str "password="; str "passwd="; str "pwd=";
   str "apikey="; str "api_key="; str "api-key=";
   str "authorization="; str "authorization:";
   str "cookie="; str "set-cookie="; str "session="; str "sessionid="; str "session_id=";
   str "ghp_"; str "gho_"; str "ghu_"; str "ghs_"; str "ghr_"; str "github_pat_";
   str "sk-"; str "akia"].

Section Tags.
Context `{Unicode}.

Definition looksLikeCredentialTag (tag : gostring) : bool :=
  let lower := ToLower (TrimSpace tag) in
  bool_decide (lower ∈ credential_words)
  || existsb (HasPrefix lower) credential_prefixes
  || HasPrefix tag (str "eyJ") && (2 <=? count_byte 46 tag)%nat && (24 <=? length tag)%nat.

Definition ValidateTag (tag : gostring) : option tagErr :=
  if bool_decide (tag = []) then Some errEmptyTag
  else if (MaxTagLength <? length tag)%nat then Some errTagTooLong
  else if negb (forallb tag_char tag) then Some errInvalidTagChr
  else if looksLikeCredentialTag tag then Some errCredentialTag
  else None.

(** ** Ingestion *)

(** The tags collected so far, in order of appearance, and their bytes. *)
Record collected := MkCollected { c_tags : list gostring; c_bytes : Z }.

Fixpoint add_tokens (c : collected) (toks : list gostring) : tagSkip + collected :=
  match toks with
  | [] => inr c
  | tok :: toks =>
      match ValidateTag tok with
      | Some _ => inl TagSkipInvalid
      | None =>
          if bool_decide (tok ∈ c_tags c) then add_tokens c toks
          else
            let c := MkCollected (c_tags c ++ [tok]) (c_bytes c + zlen tok) in
            if (MaxTagsPerEntry <? length (c_tags c))%nat then inl TagSkipOversize
            else if MaxTagBytesPerEntry <? c_bytes c then inl TagSkipOversize
            else add_tokens c toks
      end
  end.

Fixpoint add_parts (c : collected) (parts : list gostring) : tagSkip + collected :=
  match parts with
  | [] => inr c
  | part :: parts =>
      let part := TrimSpace part in
      if bool_decide (part = []) || looksLikeCredentialTag part then inl TagSkipInvalid
      else match add_tokens c (Fields part) with inl e => inl e | inr c => add_parts c parts end
  end.

Fixpoint add_lines (c : collected) (rawBytes : Z) (lines : list gostring) : tagSkip + (collected * Z) :=
  match lines with
  | [] => inr (c, rawBytes)
  | line :: lines =>
      let rawBytes := rawBytes + zlen line in
      if MaxRawTagHeaderBytes <? rawBytes then inl TagSkipOversize
      else
        let t := TrimSpace line in
        if bool_decide (t = []) then add_lines c rawBytes lines
        else if looksLikeCredentialTag t then inl TagSkipInvalid
        else match add_parts c (SplitByte t 44) with inl e => inl e | inr c => add_lines c rawBytes lines end
  end.

Fixpoint add_headers (h : Header) (c : collected) (rawBytes : Z) (present : bool) (names : list gostring)
  : tagSkip + (list gostring * bool) :=
  match names with
  | [] => inr (c_tags c, present)
  | name :: names =>
      let lines := header_Values h name in
      if bool_decide (lines = []) then add_headers h c rawBytes present names
      else match add_lines c rawBytes lines with
           | inl e => inl e
           | inr (c, rawBytes) => add_headers h c rawBytes true names
           end
  end.

(** The sorted tags and whether a configured header was there, or the reason
    the response is not stored. *)
Definition extractOriginTags (h : Header) (tagHeaders : list gostring) : tagSkip + (list gostring * bool) :=
  if bool_decide (h = ∅) || bool_decide (tagHeaders = []) then inr ([], false)
  else match add_headers h (MkCollected [] 0) 0 false tagHeaders with
       | inl e => inl e
       | inr (tags, present) => inr (sort_Strings tags, present)
       end.

(** [canonicalizeTagHeaders]. *)
Fixpoint canonical_names (seen : list gostring) (headers : list gostring) : list gostring :=
  match headers with
  | [] => []
  | raw :: headers =>
      let trimmed := TrimSpace raw in
      if bool_decide (trimmed = []) then canonical_names seen headers
      else
        let canon := CanonicalHeaderKey trimmed in
        let lower := ToLower canon in
        if bool_decide (lower ∈ seen) then canonical_names seen headers
        else canon :: canonical_names (lower :: seen) headers
  end.

Definition canonicalizeTagHeaders (headers : list gostring) : list gostring := canonical_names [] headers.
End Tags.

(** ** The union of several sets *)

(** One set: it stops at the first tag that would exceed a bound. *)
Fixpoint merge_set (maxCount : nat) (maxBytes : Z) (acc : list gostring * Z) (s : list gostring) : list gostring * Z :=
  match s with
  | [] => acc
  | t :: s =>
      let '(out, bytes) := acc in
      if bool_decide (t ∈ out) then merge_set maxCount maxBytes acc s
      else if (0 <? maxCount)%nat && (maxCount <? S (length out))%nat || (0 <? maxBytes) && (maxBytes <? bytes + zlen t)
           then acc
      else merge_set maxCount maxBytes (out ++ [t], bytes + zlen t) s
  end.

Definition mergeTagSetsBounded (maxCount : nat) (maxBytes : Z) (sets : list (list gostring)) : list gostring :=
  sort_Strings (foldl (merge_set maxCount maxBytes) ([], 0) sets).1.

Definition mergeTagSets (sets : list (list gostring)) : list gostring :=
  mergeTagSetsBounded MaxTagsPerEntry MaxTagBytesPerEntry sets.

Definition mergeBaseTagSets (sets : list (list gostring)) : list gostring := mergeTagSetsBounded 0 0 sets.

(** ** Ingestion is exact and bounded *)

Section Bounds.
Context `{Unicode}.

Record tags_ok (c : collected) : Prop := {
  to_nodup : NoDup (c_tags c);
  to_count : (length (c_tags c) <= MaxTagsPerEntry)%nat;
  to_bytes : c_bytes c = total zlen (c_tags c) /\ c_bytes c <= MaxTagBytesPerEntry;
  to_valid : Forall (fun t => ValidateTag t = None) (c_tags c)
}.

(** Adding to [c] gives [c'], whose tags are those of [c] and of [toks]. *)
Definition extends (c c' : collected) (toks : list gostring) : Prop :=
  tags_ok c' /\ forall t, t ∈ c_tags c' <-> t ∈ c_tags c \/ t ∈ toks.

Lemma extends_nil c : tags_ok c -> extends c c [].
Proof. intros HC. split; [done|]. set_solver. Qed.

Lemma extends_app c c1 c2 t1 t2 : extends c c1 t1 -> extends c1 c2 t2 -> extends c c2 (t1 ++ t2).
Proof. intros [_ E1] [H2 E2]. split; [done|]. intros t. rewrite E2, E1. set_solver. Qed.

Lemma add_tokens_ok c toks c' : tags_ok c -> add_tokens c toks = inr c' -> extends c c' toks.
Proof.
  revert c. induction toks as [|tok toks IH]; intros c HC; cbn [add_tokens]; [intros [= <-]; by apply extends_nil|].
  destruct (ValidateTag tok) eqn:Ev; [done|]. case_bool_decide as Ein.
  - intros E. destruct (IH c HC E) as [H1 H2]. split; [done|]. intros t. rewrite H2, elem_of_cons. naive_solver.
  - cbn [c_tags c_bytes]. destruct (_ <? _)%nat eqn:E1; [done|]. destruct (MaxTagBytesPerEntry <? _) eqn:E2; [done|].
    apply Nat.ltb_ge in E1. apply Z.ltb_ge in E2. intros E. destruct HC as [Q1 Q2 [Q3 Q4] Q5].
    destruct (IH (MkCollected (c_tags c ++ [tok]) (c_bytes c + zlen tok))) as [H1 H2]; [|done|].
    + constructor; simpl; [|done|rewrite total_app, Q3; simpl in *; lia|apply Forall_app; split; [done|by constructor]].
      apply NoDup_app. split; [done|]. split; [set_solver|apply NoDup_singleton].
    + split; [done|]. intros t. rewrite H2. simpl. set_solver.
Qed.

Lemma add_parts_ok c parts c' :
  tags_ok c -> add_parts c parts = inr c' -> extends c c' (concat (map (fun p => Fields (TrimSpace p)) parts)).
Proof.
  revert c. induction parts as [|p parts IH]; intros c HC; cbn [add_parts]; [intros [= <-]; by apply extends_nil|].
  destruct (_ || _); [done|]. destruct (add_tokens c (Fields (TrimSpace p))) as [e|c1] eqn:E; [done|]. intros E2.
  pose proof (add_tokens_ok _ _ _ HC E) as H1. cbn [map concat]. eapply extends_app; [exact H1|]. apply IH; [apply H1|done].
Qed.

(** The tokens of a field line. *)
Definition line_tokens (line : gostring) : list gostring :=
  if bool_decide (TrimSpace line = []) then []
  else concat (map (fun p => Fields (TrimSpace p)) (SplitByte (TrimSpace line) 44)).

Lemma add_lines_ok c n lines c' n' :
  tags_ok c -> add_lines c n lines = inr (c', n') -> extends c c' (concat (map line_tokens lines)).
Proof.
  revert c n. induction lines as [|l lines IH]; intros c n HC; cbn [add_lines]; [intros [= <- <-]; by apply extends_nil|].
  destruct (_ <? _); [done|]. cbn [map concat]. unfold line_tokens at 1. case_bool_decide; [by apply IH|].
  destruct (looksLikeCredentialTag _); [done|]. destruct (add_parts _ _) as [e|c1] eqn:E; [done|]. intros E2.
  pose proof (add_parts_ok _ _ _ HC E) as H1. eapply extends_app; [exact H1|]. eapply IH; [apply H1|done].
Qed.

Definition header_tokens (h : Header) (names : list gostring) : list gostring :=
  concat (map (fun name => concat (map line_tokens (header_Values h name))) names).

Lemma add_headers_ok h c n present names tags p :
  tags_ok c -> add_headers h c n present names = inr (tags, p) ->
  exists c', tags = c_tags c' /\ extends c c' (header_tokens h names).
Proof.
  revert c n present. induction names as [|x names IH]; intros c n present HC; cbn [add_headers].
  { intros [= <- _]. exists c. split; [done|]. by apply extends_nil. }
  unfold header_tokens. cbn [map concat]. fold (header_tokens h names). case_bool_decide as Ev.
  { rewrite Ev. cbn. by apply IH. }
  destruct (add_lines _ _ _) as [e|[c1 n1]] eqn:E; [done|]. intros E2. pose proof (add_lines_ok _ _ _ _ _ HC E) as H1.
  destruct (IH c1 n1 true) as (c' & -> & H2); [apply H1|done|]. exists c'. split; [done|]. by eapply extends_app.
Qed.

(** The tags stored with a response are exactly the tokens of its tag
    headers, sorted and without repetition, at most 32 of them and 1024 bytes
    in all, and none is credential-shaped. *)
Theorem extractOriginTags_bounded (h : Header) (names tags : list gostring) (present : bool) :
  extractOriginTags h names = inr (tags, present) ->
  Sorted string_le tags /\ NoDup tags /\ (length tags <= 32)%nat /\ total zlen tags <= 1024 /\
  (forall t, t ∈ tags -> ValidateTag t = None /\ looksLikeCredentialTag t = false) /\
  (h <> ∅ -> forall t, t ∈ tags <-> t ∈ header_tokens h names).
Proof.
  unfold extractOriginTags. destruct (bool_decide (h = ∅)) eqn:Eh; cbn [orb].
  { intros [= <- _]. apply bool_decide_eq_true in Eh. split_and!; try done; try (by constructor); simpl; try lia; set_solver. }
  destruct (bool_decide (names = [])) eqn:En; cbn [orb].
  { intros [= <- _]. apply bool_decide_eq_true in En as ->. split_and!; try done; try (by constructor); simpl; try lia; set_solver. }
  destruct (add_headers _ _ _ _ _) as [e|[ts p]] eqn:E; [done|]. intros [= <- <-].
  apply add_headers_ok in E as (c' & -> & [Q1 Q2 [Q3 Q4] Q5] & HT).
  2: { constructor; simpl; try done; [constructor|unfold MaxTagsPerEntry; lia]. }
  assert (HP : sort_Strings (c_tags c') ≡ₚ c_tags c') by (unfold sort_Strings; apply merge_sort_Permutation).
  split_and!.
  - apply Sorted_merge_sort. intros x y. unfold string_le. destruct (string_ltb y x) eqn:E1; [right|by left]. by apply string_ltb_asym.
  - by rewrite HP.
  - by rewrite HP.
  - by rewrite (total_perm _ _ _ HP), <- Q3.
  - intros t Ht. rewrite HP in Ht. eapply Forall_forall in Q5; [|done]. split; [done|]. unfold ValidateTag in Q5.
    repeat case_bool_decide; try done. destruct (_ <? _)%nat; [done|]. destruct (negb _); [done|]. by destruct (looksLikeCredentialTag t).
  - intros _ t. rewrite HP, HT. simpl. set_solver.
Qed.
End Bounds.

Definition demo_tags : Header := {[ str "Cache-Tag" := [str "shop, product 42"; str "shop"] ]}.

Lemma extractOriginTags_bounded_witness :
  let tags := [str "42"; str "product"; str "shop"] in
  extractOriginTags (H := no_unicode) demo_tags [str "Cache-Tag"] = inr (tags, true) /\
  Sorted string_le tags /\ NoDup tags /\ (length tags <= 32)%nat.
Proof.
  split; [vm_compute; reflexivity|].
  destruct (extractOriginTags_bounded (H := no_unicode) demo_tags [str "Cache-Tag"] [str "42"; str "product"; str "shop"] true
    ltac:(vm_compute; reflexivity)) as (H1 & H2 & H3 & _). done.
Defined.
