(* ===== verification/CacheGuard.v ===== *)
(** * The Vary guard (src/internal/cache/vary_security.go)

    A response may be stored under the request headers its Vary names only if
    those headers are not credentials and reach the origin unchanged.  The
    guard of a route lists the headers its proxy or CGI adapter rewrites.
    [httpguts.ValidHeaderFieldName] is a third-party function, a parameter. *)

From S2P Require Import Prelude GoStrings Bytes Netip Http CacheEntry.

(** ** Credentials *)

Definition quote_mark (c : Z) : bool := (c =? 34) || (c =? 39).

Section Sensitive.
Context `{Unicode}.

Definition isSensitiveVaryField (field : gostring) : bool :=
  let trimmed := Trim quote_mark (TrimSpace field) in
  let '(base, _, ok) := CutByte trimmed 59 in
  let trimmed := if (ok : bool) then Trim quote_mark (TrimSpace base) else trimmed in
  let trimmed := TrimSpace trimmed in
  EqualFold trimmed (str "cookie") || EqualFold trimmed (str "authorization").

Definition sensitiveVaryFields (fields : list gostring) : bool :=
  existsb (fun field => existsb isSensitiveVaryField (SplitByte field 44)) fields.

Definition sensitiveVaryHeader (h : Header) : bool :=
  existsb (fun line => existsb isSensitiveVaryField (SplitByte line 44)) (vary_lines h).

Definition sensitiveVaryEntry (e : Entry) : bool :=
  sensitiveVaryFields (Vary e) || sensitiveVaryHeader (e_Header e)
  || existsb (fun kv => isSensitiveVaryField kv.1) (map_to_list (VaryValues e))
  || existsb (fun kv => sensitiveVaryFields kv.2) (map_to_list (default ∅ (RouteVary e))).
End Sensitive.

(** ** Rewritten headers *)

Definition MaxProxyVaryNames : nat := 256.
Definition maxConnectionVaryBytes : Z := 8192.
Definition maxConnectionVaryNames : nat := 128.
Definition maxProxyVaryFieldBytes : nat := 128.
Definition maxProxyVaryFields : nat := 128.
Definition maxProxyVaryBytes : Z := 8192.

Definition dash_under (s : gostring) : gostring := map (fun c => if c =? 45 then 95 else c) s.

Section Guard.
Context `{Unicode} `{HttpGuts}.

(** The names collected until one is invalid or one too many. *)
Fixpoint guard_names (acc : gset gostring) (names : list gostring) : gset gostring * bool :=
  match names with
  | [] => (acc, false)
  | name :: names =>
      if negb (ValidHeaderFieldName name) then (acc, true)
      else
        let lower := ToLower name in
        if bool_decide (lower ∉ acc) && (MaxProxyVaryNames <=? size acc)%nat then (acc, true)
        else guard_names ({[ lower ]} ∪ acc) names
  end.

Definition newProxyVaryTransformPolicy (names : list gostring) (complete : bool) : varyTransformPolicy :=
  let '(acc, overflow) := guard_names ∅ names in
  MkGuard acc [] (negb complete || overflow) false.

Fixpoint guard_prefixes (prefixes : list gostring) : list gostring * bool :=
  match prefixes with
  | [] => ([], false)
  | prefix :: prefixes =>
      if negb (ValidHeaderFieldName prefix) then ([], true)
      else let '(l, bad) := guard_prefixes prefixes in (dash_under (ToLower prefix) :: l, bad)
  end.

Definition newCGIVaryTransformPolicy (names prefixes : list gostring) (complete : bool) : varyTransformPolicy :=
  let p := newProxyVaryTransformPolicy names complete in
  let '(l, bad) := guard_prefixes prefixes in
  MkGuard (set_map dash_under (vg_names p)) l
    (vg_reject p || (MaxProxyVaryNames <? length names + length prefixes)%nat || bad) true.

(** The names of one Connection line: the count so far, or a rejection. *)
Fixpoint connection_fields (name : gostring) (count : nat) (fields : list gostring) : option nat :=
  match fields with
  | [] => Some count
  | field :: fields =>
      let field := TrimSpace field in
      if (maxConnectionVaryNames <? S count)%nat || negb (ValidHeaderFieldName field) || EqualFold field name then None
      else connection_fields name (S count) fields
  end.

Fixpoint connection_lines (name : gostring) (bytes : Z) (count : nat) (lines : list gostring) : bool :=
  match lines with
  | [] => false
  | line :: lines =>
      let bytes := bytes + zlen line in
      if maxConnectionVaryBytes <? bytes then true
      else match connection_fields name count (SplitByte line 44) with
           | None => true
           | Some count => connection_lines name bytes count lines
           end
  end.

(** The name in lower case; a CGI variable name has underscores for dashes. *)
Definition guard_name (policy : varyTransformPolicy) (name : gostring) : gostring :=
  map (fun b => let b := lower_byte b in if vg_cgi policy && (b =? 45) then 95 else b) name.

(** Whether a varied field may be rewritten on its way; the request is absent
    when the field is judged on its own. *)
Definition proxyVaryField (r : option Header) (policy : option varyTransformPolicy) (name : gostring) : bool :=
  match policy with
  | None => false
  | Some policy =>
      if vg_reject policy then true
      else
        let name := TrimSpace name in
        if (maxProxyVaryFieldBytes <? length name)%nat || negb (ValidHeaderFieldName name) then true
        else
          let normalized := guard_name policy name in
          if bool_decide (normalized ∈ vg_names policy) then true
          else if vg_cgi policy then
            if existsb (fun prefix => HasPrefix normalized prefix) (vg_prefixes policy) then true
            else if bool_decide (95 ∈ name) then true
            else match r with
                 | None => false
                 | Some h =>
                     if (MaxProxyVaryNames <? size h)%nat then true
                     else existsb (fun kv => bool_decide (length kv.1 = length name) && negb (EqualFold kv.1 name)
                                             && EqualFold (dash_under kv.1) normalized) (map_to_list h)
                 end
          else match r with
               | None => false
               | Some h =>
                   let lines := header_Values h (str "Connection") in
                   if (maxConnectionVaryNames <? length lines)%nat then true
                   else connection_lines name 0 0 lines
               end
  end.

Inductive varyReason := VarySensitive | VaryCGIRewrite | VaryProxyRewrite.

Definition varyRewriteReason (policy : varyTransformPolicy) : varyReason :=
  if vg_cgi policy then VaryCGIRewrite else VaryProxyRewrite.

Definition varyRejectionFields (r : option Header) (policy : option varyTransformPolicy) (fields : list gostring)
  : option varyReason :=
  if sensitiveVaryFields fields then Some VarySensitive
  else match policy with
       | None => None
       | Some p =>
           if (maxProxyVaryFields <? length fields)%nat then Some (varyRewriteReason p)
           else if existsb (fun field => existsb (fun tok =>
                     let tok := TrimSpace tok in
                     negb (bool_decide (tok = [])) && negb (string_eqb tok (str "*")) && proxyVaryField r policy tok)
                   (SplitByte field 44)) fields
                then Some (varyRewriteReason p)
           else None
       end.

(** The fields of one line: the count so far, or a rejection. *)
Fixpoint header_fields (r : option Header) (policy : option varyTransformPolicy) (count : nat) (fields : list gostring)
  : option nat :=
  match fields with
  | [] => Some count
  | field :: fields =>
      let trimmed := TrimSpace field in
      if (maxProxyVaryFields <? S count)%nat || negb (string_eqb trimmed (str "*")) && proxyVaryField r policy trimmed
      then None
      else header_fields r policy (S count) fields
  end.

Fixpoint header_lines (r : option Header) (policy : option varyTransformPolicy) (bytes : Z) (count : nat)
  (lines : list gostring) : bool :=
  match lines with
  | [] => false
  | line :: lines =>
      let bytes := bytes + zlen line in
      if maxProxyVaryBytes <? bytes then true
      else match header_fields r policy count (SplitByte line 44) with
           | None => true
           | Some count => header_lines r policy bytes count lines
           end
  end.

Definition varyRejectionHeader (r : option Header) (policy : option varyTransformPolicy) (h : Header) : option varyReason :=
  if sensitiveVaryHeader h then Some VarySensitive
  else match policy with
       | None => None
       | Some p => if header_lines r policy 0 0 (vary_lines h) then Some (varyRewriteReason p) else None
       end.

Definition varyRejectionEntry (r : option Header) (policy : option varyTransformPolicy) (e : Entry) : option varyReason :=
  if sensitiveVaryEntry e then Some VarySensitive
  else match varyRejectionFields r policy (Vary e) with
       | Some reason => Some reason
       | None =>
           match varyRejectionHeader r policy (e_Header e) with
           | Some reason => Some reason
           | None =>
               match policy with
               | Some p =>
                   if (maxProxyVaryFields <? size (VaryValues e))%nat then Some (varyRewriteReason p)
                   else head (omap (fun kv => varyRejectionFields r policy [kv.1]) (map_to_list (VaryValues e)))
               | None => head (omap (fun kv => varyRejectionFields r policy [kv.1]) (map_to_list (VaryValues e)))
               end
           end
       end.
End Guard.

(** ** What the guard lets through *)

(** A word spelled in letters of either case. *)
Definition spells (f word : gostring) : Prop := lower_ascii f = word.

Lemma spells_alpha f word : Forall (fun c => 97 <= c <= 122) word -> spells f word -> Forall (fun c => is_alpha c = true) f.
Proof.
  intros HW HS. unfold spells in HS. rewrite <- HS in HW. unfold lower_ascii in HW. apply Forall_map in HW.
  eapply Forall_impl; [exact HW|]. intros c Hc. unfold is_alpha. unfold lower_byte in Hc.
  destruct ((65 <=? c) && (c <=? 90)) eqn:E; lia.
Qed.

Section Sound.
Context `{Unicode}.

Lemma spelled_ascii f : Forall (fun c => is_alpha c = true) f -> ascii f = true /\ TrimSpace f = f.
Proof.
  intros HF. assert (HA : ascii f = true).
  { apply forallb_forall. intros c Hc. apply list_elem_of_In in Hc. eapply Forall_forall in HF; [|done]. unfold is_alpha in HF. lia. }
  split; [done|]. unfold TrimSpace. rewrite HA. apply Trim_id. eapply Forall_impl; [exact HF|]. intros c. unfold is_alpha, ascii_space. lia.
Qed.

(** A field that trims to "cookie" or "authorization", in any case, is
    sensitive. *)
Lemma spelled_sensitive part word :
  word = str "cookie" \/ word = str "authorization" -> spells (TrimSpace part) word -> isSensitiveVaryField part = true.
Proof.
  intros HW HS. assert (HF : Forall (fun c => is_alpha c = true) (TrimSpace part)).
  { apply (spells_alpha _ word); [|done]. destruct HW as [->| ->]; apply Forall_forall; vm_compute; intros c Hc; repeat (apply elem_of_cons in Hc as [->|Hc]; [by split|]); by apply elem_of_nil in Hc. }
  destruct (spelled_ascii _ HF) as [HA HT]. set (f := TrimSpace part) in *. unfold isSensitiveVaryField. fold f.
  assert (HQ : Trim quote_mark f = f).
  { apply Trim_id. eapply Forall_impl; [exact HF|]. intros c. unfold is_alpha, quote_mark. lia. }
  rewrite HQ, CutByte_notin. 2: { intros Hc. eapply Forall_forall in HF; [|exact Hc]. done. }
  rewrite HT. unfold EqualFold. rewrite HA. unfold spells in HS. cbn [andb]. rewrite HS.
  apply orb_true_iff. destruct HW as [->| ->]; [left|right]; by vm_compute.
Qed.

Lemma varyFields_parts h f :
  f ∈ varyFields h -> f <> [] /\ exists line part, line ∈ vary_lines h /\ part ∈ SplitByte line 44 /\ f = TrimSpace part.
Proof.
  unfold varyFields. intros Hf. apply list_elem_of_In, in_concat in Hf as (l & Hl & Hf).
  apply in_map_iff in Hl as (line & <- & Hl). apply list_elem_of_In in Hl, Hf. unfold parseList in Hf.
  apply list_elem_of_filter in Hf as [Hne Hf]. apply list_elem_of_fmap in Hf as (part & -> & Hp). split; [done|]. by exists line, part.
Qed.

Lemma sensitiveVaryHeader_false h :
  sensitiveVaryHeader h = false ->
  forall f, f ∈ varyFields h -> ~ spells f (str "cookie") /\ ~ spells f (str "authorization").
Proof.
  intros HS f Hf. apply varyFields_parts in Hf as (_ & line & part & Hl & Hp & ->).
  assert (HN : isSensitiveVaryField part = false).
  { destruct (isSensitiveVaryField part) eqn:E; [|done]. exfalso.
    assert (HE : sensitiveVaryHeader h = true); [|congruence]. unfold sensitiveVaryHeader. apply existsb_exists.
    exists line. split; [by apply list_elem_of_In|]. apply existsb_exists. exists part. split; [by apply list_elem_of_In|done]. }
  split; intros HP; (eapply spelled_sensitive in HP; [|by auto]); congruence.
Qed.

Context `{HttpGuts}.

Lemma header_fields_pass r policy count fields n :
  header_fields r policy count fields = Some n ->
  forall part, part ∈ fields -> TrimSpace part <> str "*" -> proxyVaryField r policy (TrimSpace part) = false.
Proof.
  revert count. induction fields as [|x fields IH]; intros count; cbn [header_fields]; [set_solver|].
  destruct (_ || _) eqn:E; [done|]. intros HR part [->|Hp]%elem_of_cons Hs; [|by eapply IH].
  apply orb_false_iff in E as [_ E]. unfold string_eqb in E. by rewrite bool_decide_false in E by done.
Qed.

Lemma header_lines_pass r policy bytes count lines :
  header_lines r policy bytes count lines = false ->
  forall line part, line ∈ lines -> part ∈ SplitByte line 44 -> TrimSpace part <> str "*" ->
  proxyVaryField r policy (TrimSpace part) = false.
Proof.
  revert bytes count. induction lines as [|l lines IH]; intros bytes count; cbn [header_lines]; [set_solver|].
  destruct (_ <? _); [done|]. destruct (header_fields _ _ _ _) as [n|] eqn:E; [|done].
  intros HR line part [->|Hl]%elem_of_cons; [by eapply header_fields_pass|by eapply IH].
Qed.

Lemma connection_pass name bytes count lines :
  connection_lines name bytes count lines = false ->
  forall line part, line ∈ lines -> part ∈ SplitByte line 44 -> EqualFold (TrimSpace part) name = false.
Proof.
  assert (HF : forall fields count n, connection_fields name count fields = Some n ->
    forall part, part ∈ fields -> EqualFold (TrimSpace part) name = false).
  { induction fields as [|x fields IH]; intros c n; cbn [connection_fields]; [set_solver|].
    destruct (_ || _) eqn:E; [done|]. intros HR part [->|Hp]%elem_of_cons; [|by eapply IH].
    apply orb_false_iff in E as [_ E]. done. }
  revert bytes count. induction lines as [|l lines IH]; intros bytes count; cbn [connection_lines]; [set_solver|].
  destruct (_ <? _); [done|]. destruct (connection_fields _ _ _) as [n|] eqn:E; [|done].
  intros HR line part [->|Hl]%elem_of_cons; [by eapply HF|by eapply IH].
Qed.

Lemma guard_names_all acc names s :
  guard_names acc names = (s, false) -> forall n, n ∈ names -> ValidHeaderFieldName n = true /\ ToLower n ∈ s.
Proof.
  assert (HM : forall names acc s b, guard_names acc names = (s, b) -> acc ⊆ s).
  { clear. induction names as [|n names IH]; intros acc s b; cbn [guard_names]; [by intros [= <- _]|].
    destruct (negb _); [by intros [= <- _]|]. destruct (_ && _); [by intros [= <- _]|]. intros E%IH. set_solver. }
  revert acc. induction names as [|n names IH]; intros acc; cbn [guard_names]; [set_solver|].
  destruct (ValidHeaderFieldName n) eqn:Ev; [|done]. cbn [negb]. destruct (_ && _); [done|].
  intros E m [->|Hm]%elem_of_cons; [|by eapply IH]. split; [done|]. apply HM in E. set_solver.
Qed.

(** A response the guard of a reverse-proxy route accepts for a request
    varies on no credential header, on no header the route rewrites and on none
    the request's Connection header drops, in whatever case they are written;
    every name it varies on other than the wildcard is a valid field name. *)
Theorem vary_guard_sound (names : list gostring) (rh h : Header) (f : gostring) :
  varyRejectionHeader (Some rh) (Some (newProxyVaryTransformPolicy names true)) h = None ->
  f ∈ varyFields h ->
  ~ spells f (str "cookie") /\ ~ spells f (str "authorization") /\
  (f <> str "*" ->
     ValidHeaderFieldName f = true /\
     (forall n, n ∈ names -> lower_ascii f <> lower_ascii n) /\
     (forall line part, line ∈ header_Values rh (str "Connection") -> part ∈ SplitByte line 44 ->
        EqualFold (TrimSpace part) f = false)).
Proof.
  unfold varyRejectionHeader. destruct (sensitiveVaryHeader h) eqn:ES; [done|].
  destruct (header_lines _ _ _ _ _) eqn:EL; [done|]. intros _ Hf.
  destruct (sensitiveVaryHeader_false h ES f Hf) as [S1 S2]. split; [done|]. split; [done|]. intros Hs.
  apply varyFields_parts in Hf as (_ & line & part & Hl & Hp & ->).
  pose proof (header_lines_pass _ _ _ _ _ EL line part Hl Hp Hs) as HP. unfold newProxyVaryTransformPolicy in HP.
  destruct (guard_names ∅ names) as [acc over] eqn:EN. cbn [proxyVaryField vg_reject negb orb vg_cgi] in HP.
  rewrite TrimSpace_idem in HP. destruct over; [done|]. set (f := TrimSpace part) in *.
  destruct (ValidHeaderFieldName f) eqn:EV; [|by rewrite orb_true_r in HP].
  destruct (_ || _); [done|]. destruct (valid_name_token _ EV) as [_ HT]. destruct (token_ascii _ HT) as [HA _].
  case_bool_decide as EM; [done|]. destruct (_ <? _)%nat; [done|]. split; [done|]. split.
  - intros n Hn E. apply EM. destruct (guard_names_all _ _ _ EN n Hn) as [Vn Ln]. cbn [vg_names].
    destruct (valid_name_token _ Vn) as [_ Tn]. destruct (token_ascii _ Tn) as [An _]. unfold ToLower in Ln. rewrite An in Ln.
    rewrite <- E in Ln. unfold guard_name. cbn [vg_cgi andb]. exact Ln.
  - intros line' part' Hl' Hp'. by eapply connection_pass.
Qed.
End Sound.

(** ** A concrete route *)

Definition demo_vary : Header := {[ str "Vary" := [str "Accept-Encoding, Accept-Language"] ]}.
Definition demo_proxied : Header := {[ str "Connection" := [str "keep-alive, X-Drop"] ]}.

Lemma vary_guard_sound_witness :
  str "Accept-Language" ∈ varyFields (H := no_unicode) demo_vary /\
  varyRejectionHeader (H := no_unicode) (H0 := demo_guts) (Some demo_proxied)
    (Some (newProxyVaryTransformPolicy (H := no_unicode) (H0 := demo_guts) [str "X-Forwarded-For"] true)) demo_vary = None /\
  ~ spells (str "Accept-Language") (str "cookie") /\
  lower_ascii (str "Accept-Language") <> lower_ascii (str "X-Forwarded-For").
Proof.
  assert (HF : str "Accept-Language" ∈ varyFields (H := no_unicode) demo_vary).
  { assert (HE : varyFields (H := no_unicode) demo_vary = [str "Accept-Encoding"; str "Accept-Language"]) by (vm_compute; reflexivity).
    rewrite HE. right. left. }
  assert (HR : varyRejectionHeader (H := no_unicode) (H0 := demo_guts) (Some demo_proxied)
    (Some (newProxyVaryTransformPolicy (H := no_unicode) (H0 := demo_guts) [str "X-Forwarded-For"] true)) demo_vary = None)
    by (vm_compute; reflexivity).
  destruct (vary_guard_sound (H := no_unicode) (H0 := demo_guts) [str "X-Forwarded-For"] demo_proxied demo_vary
    (str "Accept-Language") HR HF) as (S1 & _ & S3). split; [done|]. split; [done|]. split; [done|].
  destruct S3 as (_ & S3 & _); [discriminate|]. apply S3. left.
Defined.
