(* ===== verification/CacheControl.v ===== *)
(** * Cache-Control (src/internal/cache/policy.go)

    Parsing of Cache-Control field lines into a directive set, of delta-seconds
    and Age values, and the request and response policies read from them.  The
    structured-field parser behind CDN-Cache-Control is
    [github.com/dunglas/httpsfv], a parameter. *)

From S2P Require Import Prelude GoStrings Bytes Netip Http CacheEntry.

(** ** [strconv.ParseInt] in base 10 and 64 bits *)

Inductive parsed := NumOk (n : Z) | NumRange | NumSyntax.

(** The loop of [ParseUint]: it stops at the first digit that overflows, before
    it has seen the rest of the text. *)
Fixpoint uint_digits (s : gostring) (n : Z) : parsed :=
  match s with
  | [] => NumOk n
  | c :: s =>
      if is_digit c then
        if max_uint64 / 10 + 1 <=? n then NumRange
        else let n1 := n * 10 + (c - 48) in if max_uint64 <? n1 then NumRange else uint_digits s n1
      else NumSyntax
  end.

Definition parse_uint (s : gostring) : parsed := if bool_decide (s = []) then NumSyntax else uint_digits s 0.

Definition ParseInt (s : gostring) : parsed :=
  let '(neg, u) := match s with 43 :: t => (false, t) | 45 :: t => (true, t) | _ => (false, s) end in
  match parse_uint u with
  | NumSyntax => NumSyntax
  | NumRange => NumRange
  | NumOk n => if negb neg && (2 ^ 63 <=? n) then NumRange else if neg && (2 ^ 63 <? n) then NumRange
               else NumOk (if neg then - n else n)
  end.

(** ** Delta-seconds *)

Definition second : Z := 10 ^ 9.

Definition maxDeltaSeconds : Z := 100 * 365 * 24 * 60 * 60.

(** The argument is [None] for a directive without one. *)
Definition parseDeltaSeconds (v : option gostring) : Z :=
  match v with
  | None | Some [] => 0
  | Some v =>
      match ParseInt v with
      | NumRange => if HasPrefix v (str "-") then 0 else maxDeltaSeconds * second
      | NumSyntax => 0
      | NumOk n => if n <? 0 then 0 else Z.min n maxDeltaSeconds * second
      end
  end.

Fixpoint age_digits (s : gostring) (seconds : Z) : option Z :=
  match s with
  | [] => Some seconds
  | c :: s => if is_digit c then age_digits s (Z.min (seconds * 10 + (c - 48)) maxDeltaSeconds) else None
  end.

Definition parseAge (values : list gostring) : Z :=
  match values with
  | [] => 0
  | v :: _ => default 0 (age_digits (Trim blank (CutByte v 44).1.1) 0) * second
  end.

(** ** Directives *)

Record cacheControl := MkCC { flags : gmap gostring bool; secs : gmap gostring Z }.

Definition has (cc : cacheControl) (name : gostring) : bool := default false (flags cc !! name).
Definition delta (cc : cacheControl) (name : gostring) : option Z := secs cc !! name.

Definition deltaDirectives : list gostring :=
  [str "max-age"; str "s-maxage"; str "stale-while-revalidate"; str "stale-if-error"; str "min-fresh"; str "max-stale"].

Definition cons_head (c : Z) (l : list gostring) : list gostring :=
  match l with x :: l => (c :: x) :: l | [] => [[c]] end.

(** The pieces of [v] between commas outside quoted strings. *)
Fixpoint split_directives (v : gostring) (inQuotes escaped : bool) : list gostring :=
  match v with
  | [] => [[]]
  | c :: v =>
      if escaped then cons_head c (split_directives v inQuotes false)
      else if (c =? 92) && inQuotes then cons_head c (split_directives v inQuotes true)
      else if c =? 34 then cons_head c (split_directives v (negb inQuotes) false)
      else if (c =? 44) && negb inQuotes then [] :: split_directives v inQuotes false
      else cons_head c (split_directives v inQuotes false)
  end.

Definition splitDirectives (v : gostring) : list gostring := split_directives v false false.

(** [strings.ReplaceAll (s, `\"`, `"`)]. *)
Fixpoint unescape_quotes (s : gostring) : gostring :=
  match s with
  | 92 :: 34 :: s => 34 :: unescape_quotes s
  | c :: s => c :: unescape_quotes s
  | [] => []
  end.

(** A value in double quotes, without them. *)
Definition unquote_value (value : gostring) : gostring :=
  match value with
  | 34 :: rest => match rev rest with 34 :: inner => unescape_quotes (rev inner) | _ => value end
  | _ => value
  end.

Section Parse.
Context `{Unicode}.

(** The name and the argument of a directive; an empty name stands for none. *)
Definition splitDirective (part : gostring) : gostring * option gostring :=
  let part := TrimSpace part in
  if bool_decide (part = []) then ([], None)
  else match IndexByte part 61 with
       | None => (ToLower part, None)
       | Some i => (ToLower (TrimSpace (take i part)), Some (unquote_value (TrimSpace (drop (S i) part))))
       end.

(** One directive added to the set; of a repeated one the smallest value wins. *)
Definition add_directive (cc : cacheControl) (d : gostring * option gostring) : cacheControl :=
  let '(name, value) := d in
  if bool_decide (name = []) then cc
  else
    let fl := <[name := true]> (flags cc) in
    if bool_decide (name ∈ deltaDirectives) then
      let d := parseDeltaSeconds value in
      MkCC fl (match secs cc !! name with
               | Some prev => if d <? prev then <[name := d]> (secs cc) else secs cc
               | None => <[name := d]> (secs cc)
               end)
    else MkCC fl (secs cc).

Definition directives (lines : list gostring) : list (gostring * option gostring) :=
  map splitDirective (concat (map splitDirectives lines)).

Definition parseCacheControl (h : Header) (field : gostring) : cacheControl :=
  foldl add_directive (MkCC ∅ ∅) (directives (header_Values h field)).

(** ** The request policy *)

Record requestPolicy := MkReqPolicy { rp_NoStore : bool; rp_MustValidate : bool }.

Definition pragmaNoCache (h : Header) : bool :=
  existsb (fun d => string_eqb d.1 (str "no-cache")) (directives (header_Values h (str "Pragma"))).

Definition parseRequestPolicy (h : Header) : requestPolicy :=
  let cc := parseCacheControl h (str "Cache-Control") in
  MkReqPolicy (has cc (str "no-store"))
    (has cc (str "no-cache") || bool_decide (delta cc (str "max-age") = Some 0)
     || bool_decide (flags cc = ∅) && pragmaNoCache h).
End Parse.

(** ** The response policy *)

(** The structured-field values the code distinguishes. *)
Inductive sfv_value := SfvInt (n : Z) | SfvBool (b : bool) | SfvString (s : gostring) | SfvOther.
Inductive sfv_member := SfvItem (v : sfv_value) | SfvInner.

(** [httpsfv.UnmarshalDictionary]: the members in order, or an error. *)
Class Sfv := { UnmarshalDictionary : list gostring -> option (list (gostring * sfv_member)) }.

Record responsePolicy := MkResPolicy {
  Targeted : bool;
  NoStore : bool;
  Private : bool;
  Public : bool;
  NoCache : bool;
  rs_MustRevalidate : bool;
  ProxyRevalidate : bool;
  SMaxAge : option Z;
  MaxAge : option Z;
  SWR : option Z;
  SIE : option Z
}.

Definition targeted_member (cc : cacheControl) (m : gostring * sfv_member) : cacheControl :=
  match m with
  | (_, SfvInner) => cc
  | (name, SfvItem v) =>
      if bool_decide (name ∈ [str "max-age"; str "s-maxage"; str "stale-while-revalidate"; str "stale-if-error"]) then
        match v with
        | SfvInt n => MkCC (flags cc) (<[name := Z.min (Z.max n 0) maxDeltaSeconds * second]> (secs cc))
        | _ => cc
        end
      else if bool_decide (name ∈ [str "no-cache"; str "private"]) then
        MkCC (<[name := match v with SfvBool b => b | SfvString _ => true | _ => false end]> (flags cc)) (secs cc)
      else if bool_decide (name ∈ [str "no-store"; str "must-revalidate"; str "proxy-revalidate"; str "public"]) then
        MkCC (<[name := match v with SfvBool b => b | _ => false end]> (flags cc)) (secs cc)
      else cc
  end.

(** The lines fit the bound on the joined value. *)
Fixpoint targeted_fits (values : list gostring) (size : Z) : bool :=
  match values with
  | [] => true
  | v :: values => if 16 * 1024 - size <? zlen v then false else targeted_fits values (size + zlen v)
  end.

Section Response.
Context `{Unicode} `{Sfv}.

Definition parseTargetedCacheControl (values : list gostring) : option cacheControl :=
  let n := Z.of_nat (length values) in
  if (n =? 0) || (128 <? n) then None
  else if negb (targeted_fits values (2 * (n - 1))) then None
  else match UnmarshalDictionary values with
       | None | Some [] => None
       | Some members => Some (foldl targeted_member (MkCC ∅ ∅) members)
       end.

Definition selectResponseCacheControl (h : Header) : cacheControl * bool :=
  match parseTargetedCacheControl (header_Values h (str "CDN-Cache-Control")) with
  | Some cc => (cc, true)
  | None => (parseCacheControl h (str "Cache-Control"), false)
  end.

Definition parseResponsePolicy (h : Header) : responsePolicy :=
  let '(cc, targeted) := selectResponseCacheControl h in
  MkResPolicy targeted (has cc (str "no-store")) (has cc (str "private")) (has cc (str "public"))
    (has cc (str "no-cache")) (has cc (str "must-revalidate")) (has cc (str "proxy-revalidate"))
    (delta cc (str "s-maxage")) (delta cc (str "max-age")) (delta cc (str "stale-while-revalidate"))
    (delta cc (str "stale-if-error")).
End Response.

Definition is_some {A} (o : option A) : bool := if o then true else false.

Definition revalidationRequired (p : responsePolicy) : bool :=
  rs_MustRevalidate p || ProxyRevalidate p || is_some (SMaxAge p).
Definition sharedAuthReuse (p : responsePolicy) : bool := Public p || is_some (SMaxAge p) || revalidationRequired p.
Definition sharedAuthStorable (p : responsePolicy) : bool := Public p || is_some (SMaxAge p).

(** ** Bounds *)

Lemma maxDelta_fits : 0 <= maxDeltaSeconds * second /\ 2 * (maxDeltaSeconds * second) <= max_int64.
Proof. split; vm_compute; discriminate. Qed.

Lemma parseDeltaSeconds_range v : 0 <= parseDeltaSeconds v <= maxDeltaSeconds * second.
Proof.
  pose proof maxDelta_fits. unfold parseDeltaSeconds. destruct v as [[|c v]|]; [lia| |lia].
  destruct (ParseInt (c :: v)) as [n| |]; [|destruct (HasPrefix _ _); lia|lia].
  destruct (Z.ltb_spec n 0); [lia|]. assert (0 < maxDeltaSeconds) by done. unfold second. lia.
Qed.

Lemma parseAge_range vs : 0 <= parseAge vs <= maxDeltaSeconds * second.
Proof.
  assert (HG : forall s n, 0 <= n <= maxDeltaSeconds -> 0 <= default 0 (age_digits s n) <= maxDeltaSeconds).
  { assert (0 < maxDeltaSeconds) by done. induction s as [|c s IH]; intros n Hn; simpl; [done|].
    destruct (is_digit c) eqn:E; [|simpl; lia]. apply IH. unfold is_digit in E. blia. }
  unfold parseAge. destruct vs as [|v vs]; [pose proof maxDelta_fits; lia|].
  specialize (HG (Trim blank (CutByte v 44).1.1) 0 ltac:(split; [done|by vm_compute])). unfold second. lia.
Qed.

(** ** The directive set *)

Section Exact.
Context `{Unicode}.

(** The values given to a name, and the smallest of a list. *)
Definition values_of (name : gostring) (ds : list (gostring * option gostring)) : list Z :=
  map (fun d => parseDeltaSeconds d.2) (filter (fun d => d.1 = name) ds).

Definition min_step (acc : option Z) (x : Z) : option Z :=
  Some (match acc with Some prev => Z.min x prev | None => x end).

Lemma foldl_min_spec l acc d :
  foldl min_step acc l = Some d <->
  (acc = Some d \/ d ∈ l) /\ (forall x, acc = Some x \/ x ∈ l -> d <= x).
Proof.
  revert acc. induction l as [|y l IH]; intros acc; simpl.
  { split; [intros ->; split; [by left|]; intros x [[= ->]|Hx]; [lia|by apply elem_of_nil in Hx]|].
    by intros [[?|Hd%elem_of_nil] _]. }
  rewrite IH. unfold min_step. setoid_rewrite elem_of_cons. destruct acc as [prev|]; [|naive_solver].
  split.
  - intros [Hd Hall]. split.
    + destruct Hd as [[= <-]|Hd]; [|naive_solver]. destruct (Z.min_spec y prev) as [[_ ->]|[_ ->]]; naive_solver.
    + intros x [[= ->]|[->|Hx]]; [| |by apply Hall; right]; (etrans; [by apply Hall; left|lia]).
  - intros [Hd Hall]. pose proof (Hall prev (or_introl eq_refl)). pose proof (Hall y (or_intror (or_introl eq_refl))).
    split; [|intros x [[= <-]|Hx]; [lia|apply Hall; naive_solver]].
    destruct Hd as [[= <-]|[<-|Hd]]; [left; f_equal; lia|left; f_equal; lia|by right].
Qed.

Lemma delta_names_nonempty name : name ∈ deltaDirectives -> name <> [].
Proof. intros Hn ->. by repeat (apply elem_of_cons in Hn as [Hn|Hn]; [discriminate|]); apply elem_of_nil in Hn. Qed.

Lemma add_directive_flags cc d :
  flags (add_directive cc d) = if bool_decide (d.1 = []) then flags cc else <[d.1 := true]> (flags cc).
Proof. destruct d as [name v]. simpl. repeat case_bool_decide; done. Qed.

Lemma add_directive_delta cc d name :
  name ∈ deltaDirectives ->
  delta (add_directive cc d) name = if decide (d.1 = name) then min_step (delta cc name) (parseDeltaSeconds d.2) else delta cc name.
Proof.
  intros Hd. pose proof (delta_names_nonempty _ Hd) as Hne. destruct d as [n v]. unfold delta, min_step. simpl.
  case_decide as E.
  - subst n. rewrite bool_decide_false, bool_decide_true by done. simpl.
    destruct (secs cc !! name) as [prev|] eqn:Es; [|by rewrite lookup_insert_eq].
    destruct (Z.ltb_spec (parseDeltaSeconds v) prev); [rewrite lookup_insert_eq|rewrite Es]; f_equal; lia.
  - repeat case_bool_decide; try done. simpl.
    destruct (secs cc !! n); [destruct (_ <? _); [|done]|]; by rewrite lookup_insert_ne.
Qed.

Lemma add_directive_other cc d name : name ∉ deltaDirectives -> delta (add_directive cc d) name = delta cc name.
Proof.
  intros Hd. destruct d as [n v]. unfold delta. simpl. repeat case_bool_decide; try done. simpl.
  assert (n <> name) by naive_solver.
  destruct (secs cc !! n); [destruct (_ <? _); [|done]|]; by rewrite lookup_insert_ne.
Qed.

Lemma fold_delta cc ds name :
  delta (foldl add_directive cc ds) name =
  if decide (name ∈ deltaDirectives) then foldl min_step (delta cc name) (values_of name ds) else delta cc name.
Proof.
  revert cc. induction ds as [|d ds IH]; intros cc; simpl; [by case_decide|]. rewrite IH. case_decide as Hd.
  - rewrite add_directive_delta by done. unfold values_of. rewrite filter_cons. by case_decide.
  - by apply add_directive_other.
Qed.

Lemma fold_has cc ds name :
  has (foldl add_directive cc ds) name = true <-> has cc name = true \/ name <> [] /\ exists v, (name, v) ∈ ds.
Proof.
  revert cc. induction ds as [|[n w] ds IH]; intros cc; cbn [foldl].
  { split; [by left|]. intros [?|(_ & v & Hv%elem_of_nil)]; done. }
  assert (HX : (exists v, (name, v) ∈ (n, w) :: ds) <-> name = n \/ exists v, (name, v) ∈ ds).
  { split; [intros (v & [[= -> ->]|Hv]%elem_of_cons); naive_solver|]. intros [->|[v Hv]]; [exists w|exists v]; by constructor. }
  rewrite IH, HX. unfold has. rewrite add_directive_flags. simpl. case_bool_decide as En; [naive_solver|]. destruct (decide (n = name)) as [->|Hne]; [rewrite lookup_insert_eq; naive_solver|].
  rewrite lookup_insert_ne by done. naive_solver.
Qed.

(** The directive set of a header is exact: a directive is recorded when
    some field line carries it, and the lifetime kept for a delta-seconds
    directive is the smallest of those given, between zero and the bound that
    keeps durations representable. *)
Theorem parseCacheControl_exact (h : Header) (field name : gostring) :
  let cc := parseCacheControl h field in
  let ds := directives (header_Values h field) in
  (has cc name = true <-> name <> [] /\ exists v, (name, v) ∈ ds) /\
  (forall d, delta cc name = Some d <->
     name ∈ deltaDirectives /\ (exists v, (name, v) ∈ ds /\ parseDeltaSeconds v = d) /\
     forall v, (name, v) ∈ ds -> d <= parseDeltaSeconds v) /\
  (forall d, delta cc name = Some d -> 0 <= d <= maxDeltaSeconds * second).
Proof.
  intros cc ds. assert (HV : forall x, x ∈ values_of name ds <-> exists v, (name, v) ∈ ds /\ parseDeltaSeconds v = x).
  { intros x. unfold values_of. rewrite list_elem_of_fmap. setoid_rewrite list_elem_of_filter. split.
    - intros ([n v] & -> & <- & Hd). by exists v.
    - intros (v & Hd & <-). by exists (name, v). }
  assert (HD : forall d, delta cc name = Some d <->
     name ∈ deltaDirectives /\ (exists v, (name, v) ∈ ds /\ parseDeltaSeconds v = d) /\
     forall v, (name, v) ∈ ds -> d <= parseDeltaSeconds v).
  { intros d. unfold cc, parseCacheControl. rewrite fold_delta. fold ds. change (delta (MkCC ∅ ∅) name) with (@None Z).
    case_decide as Hd; [|naive_solver]. rewrite foldl_min_spec. setoid_rewrite HV. naive_solver. }
  split_and!; [|exact HD|].
  - unfold cc, parseCacheControl. rewrite fold_has. unfold has. simpl. rewrite lookup_empty. simpl. naive_solver.
  - intros d (_ & (v & _ & <-) & _)%HD. apply parseDeltaSeconds_range.
Qed.

(** ** Field lines *)

(** The state of the splitter at the end of a line. *)
Fixpoint quote_state (v : gostring) (inQuotes escaped : bool) : bool * bool :=
  match v with
  | [] => (inQuotes, escaped)
  | c :: v =>
      if escaped then quote_state v inQuotes false
      else if (c =? 92) && inQuotes then quote_state v inQuotes true
      else if c =? 34 then quote_state v (negb inQuotes) false
      else quote_state v inQuotes false
  end.

Definition closed (v : gostring) : Prop := quote_state v false false = (false, false).

Lemma cons_head_app c l k : l <> [] -> cons_head c (l ++ k) = cons_head c l ++ k.
Proof. by destruct l. Qed.

Lemma split_directives_nonnil v q e : split_directives v q e <> [].
Proof.
  destruct v as [|c v]; [done|]. simpl. repeat match goal with |- context [if ?b then _ else _] => destruct b end; try done;
    destruct (split_directives _ _ _); done.
Qed.

Lemma split_directives_app v w q e :
  quote_state v q e = (false, false) -> split_directives (v ++ 44 :: w) q e = split_directives v q e ++ splitDirectives w.
Proof.
  revert q e. induction v as [|c v IH]; intros q e; simpl; [by intros [= -> ->]|].
  destruct e; [intros Hq; rewrite IH by done; apply cons_head_app, split_directives_nonnil|].
  destruct (_ && _); [intros Hq; rewrite IH by done; apply cons_head_app, split_directives_nonnil|].
  destruct (c =? 34); [intros Hq; rewrite IH by done; apply cons_head_app, split_directives_nonnil|].
  destruct (_ && _); intros Hq; rewrite IH by done; [done|apply cons_head_app, split_directives_nonnil].
Qed.

(** Several field lines mean what one comma-separated line means, as long as
    the quoted strings of every line are closed in it. *)
Lemma directives_join lines line :
  Forall closed lines -> directives (lines ++ [line]) = directives [JoinByte (lines ++ [line]) 44].
Proof.
  intros HC. unfold directives. f_equal. induction HC as [|l lines Hl HC IH]; [done|].
  rewrite <- app_comm_cons, JoinByte_cons by (by destruct lines). cbn [map concat]. rewrite IH. simpl. rewrite !app_nil_r.
  symmetry. by apply split_directives_app.
Qed.

(** A header with several Cache-Control lines is read as the header with
    the one comma-separated line. *)
Lemma cache_control_lines (h : Header) (field line : gostring) (lines : list gostring) :
  Forall closed lines -> header_Values h field = lines ++ [line] ->
  parseCacheControl h field = parseCacheControl (header_Set h field (JoinByte (lines ++ [line]) 44)) field.
Proof.
  intros HC HV. unfold parseCacheControl. rewrite HV, (directives_join lines line HC).
  unfold header_Values, header_Set. by rewrite lookup_insert_eq.
Qed.
End Exact.
