(* ===== verification/CacheKey.v ===== *)
(** * Cache keys (src/internal/cache/cache.go)

    The primary key of a request, the per-variant keys derived from a response's
    Vary fields and the request's values for them, and the membership list of a
    Vary stub.  The keys are proved to determine the requests they stand for. *)

From S2P Require Import Prelude GoStrings Bytes Netip Http CacheEntry.

(** ** Derivation *)

Section Keys.
Context `{Unicode}.

Definition keyFor (method host requestURI : gostring) : gostring :=
  method ++ 10 :: ToLower host ++ 10 :: requestURI.

(** [key], the primary key of a request. *)
Definition request_key (r : Request) : gostring := keyFor (r_Method r) (r_Host r) (r_RequestURI r).

Definition normalize_field (f : gostring) : gostring := ToLower (TrimSpace f).
Definition normalizeFields (f : list gostring) : list gostring := sort_Strings (map normalize_field f).

Definition sameFields (a b : list gostring) : bool :=
  bool_decide (length a = length b) && bool_decide (normalizeFields a = normalizeFields b).

(** The framing of one value: its length and its bytes. *)
Definition frame (v : gostring) : gostring := 58 :: Itoa (zlen v) ++ 58 :: v.

Definition varyRequestValue (h : Header) (name : gostring) : gostring :=
  0 :: str "v2:" ++ Itoa (Z.of_nat (length (header_Values h name))) ++ concat (map frame (header_Values h name)).

Definition vary_part (h : Header) (f : gostring) : gostring := 0 :: f ++ 31 :: varyRequestValue h f.

Definition variantKey (base : gostring) (vary : list gostring) (h : Header) : gostring :=
  base ++ concat (map (vary_part h) (normalizeFields vary)).

Definition route_mark (routeScope : gostring) : gostring := 0 :: str "route" ++ 31 :: routeScope.

Definition routeVariantKey (base routeScope : gostring) (vary : list gostring) (h : Header) : gostring :=
  if bool_decide (routeScope = []) then variantKey base vary h
  else base ++ route_mark routeScope ++ concat (map (vary_part h) (normalizeFields vary)).

(** [Entry.matchesVary]. *)
Definition matchesVary (e : Entry) (h : Header) : bool :=
  forallb (fun name => negb (string_eqb name (str "*"))
                       && string_eqb (varyRequestValue h name) (default [] (VaryValues e !! name))) (Vary e).
End Keys.

(** [Entry.addVariant] on the membership list: the list, and the key dropped
    when the cap is exceeded. *)
Definition addVariant (variants : list gostring) (vk : gostring) : list gostring * option gostring :=
  if bool_decide (vk ∈ variants) then (variants, None)
  else
    let l := variants ++ [vk] in
    if (maxVariantsPerResource <? length l)%nat then (tail l, head l) else (l, None).

(** ** Framing is uniquely decodable *)

(** Text that ends a run of digits. *)
Definition stops (s : gostring) : Prop := match s with [] => True | c :: _ => is_digit c = false end.

Lemma digits_cut (x y s t : gostring) :
  Forall (fun c => is_digit c = true) x -> Forall (fun c => is_digit c = true) y -> stops s -> stops t ->
  x ++ s = y ++ t -> x = y /\ s = t.
Proof.
  intros HX. revert y. induction HX as [|c x Hc HX IH]; intros [|d y] HY Hs Ht E; simpl in *.
  - done.
  - subst s. apply Forall_cons in HY as [Hd _]. simpl in Hs. congruence.
  - subst t. simpl in Ht. congruence.
  - injection E as -> E. apply Forall_cons in HY as [_ HY]. destruct (IH y HY Hs Ht E) as [-> ->]. done.
Qed.

Lemma Itoa_nat n : Itoa (Z.of_nat n) = FormatUint (Z.of_nat n).
Proof. unfold Itoa. by rewrite (proj2 (Z.ltb_ge _ 0)) by lia. Qed.

Lemma Itoa_nat_digits n : Forall (fun c => is_digit c = true) (Itoa (Z.of_nat n)).
Proof. rewrite Itoa_nat. apply Forall_forall. intros c. apply FormatUint_digit. Qed.

(** Lengths a Go program can have. *)
Definition fits (l : list gostring) : Prop :=
  Z.of_nat (length l) <= max_int64 /\ Forall (fun v => zlen v <= max_int64) l.

Lemma frames_inj l k s t :
  length l = length k -> Forall (fun v => zlen v <= max_int64) l -> Forall (fun v => zlen v <= max_int64) k ->
  concat (map frame l) ++ s = concat (map frame k) ++ t -> l = k /\ s = t.
Proof.
  intros Hn HL. revert k Hn. induction HL as [|v l Hv HL IH]; intros [|w k] Hn HK E; try done.
  apply Forall_cons in HK as [Hw HK]. cbn [map concat] in E. unfold frame at 1 3 in E. rewrite <- !app_assoc in E.
  cbn [app] in E. rewrite <- !app_assoc in E. injection E as E. cbn [app] in E.
  apply Itoa_length_cut in E as [El E]; try done. apply app_inj_1 in E as [-> E]; [|done].
  apply IH in E as [-> ->]; [done|by injection Hn|done].
Qed.

Lemma frames_stop l s : stops s -> stops (concat (map frame l) ++ s).
Proof. by destruct l. Qed.

Lemma varyRequestValue_inj h h' f f' s t :
  fits (header_Values h f) -> fits (header_Values h' f') -> stops s -> stops t ->
  varyRequestValue h f ++ s = varyRequestValue h' f' ++ t ->
  header_Values h f = header_Values h' f' /\ s = t.
Proof.
  intros [F1 F2] [G1 G2] Hs Ht. unfold varyRequestValue. generalize dependent (header_Values h f).
  generalize dependent (header_Values h' f'). intros k G1 G2 l F1 F2. cbn. rewrite <- !app_assoc. intros [= E].
  apply digits_cut in E as [En E]; try apply Itoa_nat_digits; try by apply frames_stop.
  rewrite !Itoa_nat in En. unfold max_int64 in *. apply FormatUint_inj in En; [|lia|lia].
  apply frames_inj in E; try done. lia.
Qed.

Definition field_ok (f : gostring) : Prop := 31 ∉ f.

Lemma parts_stop h l : stops (concat (map (vary_part h) l)).
Proof. by destruct l. Qed.

Lemma parts_inj h h' l k :
  Forall field_ok l -> Forall field_ok k ->
  Forall (fun f => fits (header_Values h f)) l -> Forall (fun f => fits (header_Values h' f)) k ->
  concat (map (vary_part h) l) = concat (map (vary_part h') k) ->
  l = k /\ Forall (fun f => header_Values h f = header_Values h' f) l.
Proof.
  intros HL. revert k. induction HL as [|f l Hf HL IH]; intros [|g k] HK FL FK E; try done.
  apply Forall_cons in HK as [Hg HK]. apply Forall_cons in FL as [Ff FL]. apply Forall_cons in FK as [Fg FK].
  cbn [map concat] in E. unfold vary_part at 1 3 in E. cbn [app] in E. rewrite <- !app_assoc in E. injection E as E.
  cbn [app] in E. apply cut_unique in E as [-> E]; try done.
  apply varyRequestValue_inj in E as [Ev E]; try done; try apply parts_stop.
  apply IH in E as [-> HE]; try done. split; [done|]. by constructor.
Qed.

(** ** Field names *)

Definition token (f : gostring) : Prop := forallb token_byte f = true.

Lemma token_range f c : token f -> c ∈ f -> 33 <= c < 127.
Proof. intros Hf Hc. apply token_byte_range. eapply forallb_forall; [exact Hf|]. by apply list_elem_of_In. Qed.

Section Exact.
Context `{Unicode}.

Lemma normalize_token f : token f -> normalize_field f = lower_ascii f.
Proof.
  intros Hf. destruct (token_ascii f Hf) as [HA HT].
  unfold normalize_field. rewrite HT. unfold ToLower. by rewrite HA.
Qed.

Lemma Values_normalize h f : token f -> header_Values h (normalize_field f) = header_Values h f.
Proof.
  intros Hf. rewrite normalize_token by done. unfold header_Values. f_equal. f_equal.
  apply CanonicalHeaderKey_fold; [by rewrite forallb_token_lower|apply lower_ascii_idem].
Qed.

Lemma normalizeFields_Forall (P : gostring -> Prop) vary :
  Forall P (normalizeFields vary) <-> Forall (fun f => P (normalize_field f)) vary.
Proof. unfold normalizeFields, sort_Strings. rewrite merge_sort_Permutation. apply Forall_fmap. Qed.

(** What a request's varied fields must satisfy: names are tokens, values have
    lengths a machine can represent. *)
Definition vary_ok (h : Header) (vary : list gostring) : Prop :=
  Forall (fun f => token f /\ fits (header_Values h f)) vary.

Lemma vary_ok_normal h vary :
  vary_ok h vary -> Forall field_ok (normalizeFields vary) /\ Forall (fun f => fits (header_Values h f)) (normalizeFields vary).
Proof.
  intros HV. rewrite !normalizeFields_Forall. split; (eapply Forall_impl; [exact HV|]); intros f [Hf HF].
  - rewrite normalize_token by done. intros Hc. assert (HT : token (lower_ascii f)) by (unfold token; by rewrite forallb_token_lower).
    apply (token_range _ _ HT) in Hc. lia.
  - by rewrite Values_normalize.
Qed.

(** Equal values for every varied field. *)
Definition same_values (h h' : Header) (vary : list gostring) : Prop :=
  Forall (fun f => header_Values h f = header_Values h' f) vary.

Lemma parts_exact h h' vary vary' :
  vary_ok h vary -> vary_ok h' vary' ->
  concat (map (vary_part h) (normalizeFields vary)) = concat (map (vary_part h') (normalizeFields vary')) <->
  normalizeFields vary = normalizeFields vary' /\ same_values h h' vary.
Proof.
  intros V1 V2. destruct (vary_ok_normal _ _ V1) as [N1 F1]. destruct (vary_ok_normal _ _ V2) as [N2 F2].
  assert (HS : Forall (fun f => header_Values h f = header_Values h' f) (normalizeFields vary) <-> same_values h h' vary).
  { rewrite normalizeFields_Forall. unfold same_values. split; intros HF; apply Forall_forall; intros f Hf;
      pose proof (proj1 (Forall_forall _ _) HF f Hf) as E; pose proof (proj1 (Forall_forall _ _) V1 f Hf) as [Tf _]; cbn beta in *;
      [by rewrite !Values_normalize in E|by rewrite !Values_normalize]. }
  split.
  - intros E. apply parts_inj in E as [E HE]; try done. split; [done|]. by apply HS.
  - intros [E HE%HS]. rewrite <- E. f_equal. clear -HE. induction HE as [|f l Hf HE IH]; [done|]. cbn [map].
    rewrite IH. f_equal. unfold vary_part, varyRequestValue. by rewrite Hf.
Qed.

(** A key suffix: nothing, or text that starts with a zero byte. *)
Lemma base_cut (b b' s t : gostring) :
  0 ∉ b -> 0 ∉ b' -> (s = [] \/ exists s', s = 0 :: s') -> (t = [] \/ exists t', t = 0 :: t') ->
  b ++ s = b' ++ t -> b = b' /\ s = t.
Proof.
  intros Hb Hb' [->|[s' ->]] [->|[t' ->]] E.
  - by rewrite !app_nil_r in E.
  - rewrite app_nil_r in E. subst b. exfalso. apply Hb. set_solver.
  - rewrite app_nil_r in E. subst b'. exfalso. apply Hb'. set_solver.
  - apply cut_unique in E as [-> ->]; done.
Qed.

Definition route_suffix (scope : gostring) (vary : list gostring) (h : Header) : gostring :=
  (if bool_decide (scope = []) then [] else route_mark scope) ++ concat (map (vary_part h) (normalizeFields vary)).

Lemma routeVariantKey_suffix base scope vary h : routeVariantKey base scope vary h = base ++ route_suffix scope vary h.
Proof. unfold routeVariantKey, route_suffix, variantKey. by case_bool_decide. Qed.

Lemma parts_zero h vary : let s := concat (map (vary_part h) (normalizeFields vary)) in s = [] \/ exists s', s = 0 :: s'.
Proof. simpl. destruct (normalizeFields vary); [by left|right; by eexists]. Qed.

Lemma route_suffix_zero scope vary h : let s := route_suffix scope vary h in s = [] \/ exists s', s = 0 :: s'.
Proof. simpl. unfold route_suffix. case_bool_decide; [apply parts_zero|]. right. by eexists. Qed.

(** The mark of a scope is not a varied field: a field's value starts with a
    zero byte and a scope does not. *)
Lemma route_mark_no_part scope s h vary :
  scope <> [] -> 0 ∉ scope -> Forall field_ok (normalizeFields vary) ->
  route_mark scope ++ s <> concat (map (vary_part h) (normalizeFields vary)).
Proof.
  intros Hne H0 HF. destruct (normalizeFields vary) as [|f l]; [done|]. apply Forall_inv in HF.
  cbn [map concat]. unfold route_mark, vary_part. cbn [app]. rewrite <- !app_assoc. intros [= E]. cbn [app] in E.
  apply (cut_unique (str "route") f _ _ 31) in E as [_ E]; [|by vm_compute; set_solver|done].
  destruct scope as [|c scope]; [done|]. injection E as -> _. apply H0. left.
Qed.

Lemma route_suffix_exact scope scope' vary vary' h h' :
  0 ∉ scope -> 0 ∉ scope' -> vary_ok h vary -> vary_ok h' vary' ->
  route_suffix scope vary h = route_suffix scope' vary' h' <->
  scope = scope' /\ normalizeFields vary = normalizeFields vary' /\ same_values h h' vary.
Proof.
  intros H0 H0' V1 V2. destruct (vary_ok_normal _ _ V1) as [N1 _]. destruct (vary_ok_normal _ _ V2) as [N2 _].
  rewrite <- parts_exact by done. unfold route_suffix. split; [|intros [-> ->]; done].
  repeat case_bool_decide; subst; cbn [app].
  - done.
  - intros E. symmetry in E. by apply route_mark_no_part in E.
  - intros E. by apply route_mark_no_part in E.
  - unfold route_mark. cbn [app]. rewrite <- !app_assoc. intros [= E]. apply base_cut in E as [-> E]; try done; apply parts_zero.
Qed.

(** Storage keys determine what they stand for.  Two requests have the same
    key exactly when they agree on method, host up to case, request target,
    route scope, the set of varied field names, and every value of every varied
    field. *)
Theorem cache_key_exact (m m' host host' uri uri' scope scope' : gostring) (vary vary' : list gostring) (h h' : Header) :
  10 ∉ m -> 10 ∉ m' -> 10 ∉ ToLower host -> 10 ∉ ToLower host' ->
  0 ∉ keyFor m host uri ++ scope -> 0 ∉ keyFor m' host' uri' ++ scope' ->
  vary_ok h vary -> vary_ok h' vary' ->
  routeVariantKey (keyFor m host uri) scope vary h = routeVariantKey (keyFor m' host' uri') scope' vary' h' <->
  m = m' /\ ToLower host = ToLower host' /\ uri = uri' /\ scope = scope' /\
  normalizeFields vary = normalizeFields vary' /\ same_values h h' vary.
Proof.
  intros Hm Hm' Hh Hh' [K1 S1]%not_elem_of_app [K2 S2]%not_elem_of_app V1 V2. rewrite !routeVariantKey_suffix. split.
  - intros E. apply base_cut in E as [EK E]; try done; try apply route_suffix_zero.
    apply route_suffix_exact in E as (-> & EN & EV); try done. unfold keyFor in EK.
    apply cut_unique in EK as [-> EK]; try done. apply cut_unique in EK as [-> ->]; done.
  - intros (-> & EH & -> & -> & EN & EV). unfold keyFor. rewrite EH. f_equal. by apply route_suffix_exact.
Qed.
End Exact.

Definition demo_accepts (v : gostring) : Header := {[ str "Accept" := [v] ]}.

Lemma cache_key_exact_witness :
  routeVariantKey (H := no_unicode) (keyFor (H := no_unicode) (str "GET") (str "A.example") (str "/x")) (str "r1")
    [str "accept"] (demo_accepts (str "a")) <>
  routeVariantKey (H := no_unicode) (keyFor (H := no_unicode) (str "GET") (str "a.example") (str "/x")) (str "r1")
    [str "Accept"] (demo_accepts (str "b")).
Proof.
  assert (HV : forall f v, f ∈ [str "accept"; str "Accept"] -> v ∈ [str "a"; str "b"] -> vary_ok (demo_accepts v) [f]).
  { intros f v Hf Hv. assert (EV : header_Values (demo_accepts v) f = [v]).
    { rewrite !elem_of_cons in Hf. destruct Hf as [->|[->|Hf%elem_of_nil]]; [..|done];
        unfold header_Values, demo_accepts; by rewrite lookup_singleton_eq. }
    constructor; [|constructor]. unfold token, fits. rewrite EV, !Forall_singleton. unfold zlen.
    rewrite !elem_of_cons in Hf, Hv. destruct Hf as [->|[->|[]%elem_of_nil]], Hv as [->|[->|[]%elem_of_nil]]; vm_compute; intuition discriminate. }
  intros E. apply (cache_key_exact (H := no_unicode)) in E.
  { destruct E as (_ & _ & _ & _ & _ & E). apply Forall_inv in E. vm_compute in E. discriminate E. }
  all: try apply HV; apply (bool_decide_eq_true_1 _); vm_compute; reflexivity.
Defined.
