(* ===== verification/CacheReuse.v ===== *)
(** * Storing and reusing responses (src/internal/cache/cache.go, merge.go)

    The freshness decision, the corrected initial age, the construction of an
    entry from a captured response, the merge of a 304 into a stored entry, and
    the decision how a stored entry may answer a request.  HTTP dates are those of the standard library, a parameter. *)

From S2P Require Import Prelude GoStrings Netip Http CacheEntry CacheIdentity CacheKey CacheControl CacheTags CacheGuard.

(** ** Dates *)

(** [http.ParseTime], [Time.Format] and the calendar, in UTC. *)
Class GoTime := {
  ParseTime : gostring -> option Z;
  FormatTime : gostring -> Z -> gostring;
  TimeYear : Z -> Z;
  AddYears : Z -> Z -> Z
}.

Definition TimeFormat : gostring := str "Mon, 02 Jan 2006 15:04:05 GMT".
Definition RFC850GMT : gostring := str "Monday, 02-Jan-06 15:04:05 GMT".
Definition ANSIC : gostring := str "Mon Jan _2 15:04:05 2006".

Section Reuse.
Context `{Unicode} `{Sfv} `{HttpGuts} `{Sha256} `{GoTime}.

Definition gmt_suffix (value : gostring) : gostring :=
  if (3 <=? length value)%nat && EqualFold (drop (length value - 3) value) (str "GMT")
  then take (length value - 3) value ++ str "GMT" else value.

(** The two-digit year of an RFC 850 date, placed at most fifty years ahead. *)
Definition rfc850_candidate (parsed now : Z) : Z :=
  let limit := AddYears now 50 in
  let year := TimeYear limit / 100 * 100 + TimeYear parsed mod 100 in
  let candidate := AddYears parsed (year - TimeYear parsed) in
  if limit <? candidate then AddYears candidate (-100) else candidate.

Definition parseCacheDate (value : gostring) (now : Z) : option Z :=
  if (33 <? length value)%nat then None
  else
    let value := gmt_suffix value in
    match ParseTime value with
    | None => None
    | Some parsed =>
        let try (layout : gostring) (candidate : Z) := EqualFold (FormatTime layout candidate) value in
        if try TimeFormat parsed then Some parsed
        else if try RFC850GMT (rfc850_candidate parsed now) then Some (rfc850_candidate parsed now)
        else if try ANSIC parsed then Some parsed
        else None
    end.

(** RFC 9111 4.2.3: the largest apparent age of a Date, and the Age field. *)
Definition apparent_age (dates : list gostring) (now : Z) : Z :=
  foldl (fun age v => match ParseTime v with Some d => if age <? time_Sub now d then time_Sub now d else age | None => age end)
    0 dates.

Definition initialAge (h : Header) (now : Z) : Z :=
  let apparent := apparent_age (header_Values h (str "Date")) now in
  let age := parseAge (header_Values h (str "Age")) in
  if apparent <? age then age else apparent.

(** ** Freshness *)

Definition cacheableStatus (status : Z) : bool := bool_decide (status ∈ [200; 203; 301; 404; 410]).

(** The instant Expires is measured from: the latest Date, or the clock. *)
Definition date_base (dates : list gostring) (now : Z) : Z :=
  (foldl (fun '(base, found) v =>
     match ParseTime v with
     | Some d => if negb found || (base <? d) then (d, true) else (base, found)
     | None => (base, found)
     end) (now, false) dates).1.

(** The lifetime the response or the policy gives, and where it comes from. *)
Definition lifetime (h : Header) (p : responsePolicy) (now : Z) (pol : CachePolicy) : option (Z * gostring) :=
  let fallback := (cp_DefaultTTL pol, if cp_HasRouteDefaultTTL pol then str "route_default_ttl" else str "gateway_fallback") in
  match SMaxAge p, MaxAge p with
  | Some d, _ => Some (d, str "origin_s_maxage")
  | None, Some d => Some (d, str "origin_max_age")
  | None, None =>
      if Targeted p then Some fallback
      else match header_Values h (str "Expires") with
           | [] => Some fallback
           | [v] => match parseCacheDate v now with
                    | Some expiry => Some (time_Sub expiry (date_base (header_Values h (str "Date")) now), str "origin_expires")
                    | None => None
                    end
           | _ => None
           end
  end.

Definition cap_ttl (pol : CachePolicy) (t : Z * gostring) : Z * gostring :=
  if cp_HasMaxTTL pol && (cp_MaxTTL pol <? t.1) then (cp_MaxTTL pol, str "route_max_ttl_cap") else t.

(** A no-cache response is kept for validation even without a lifetime. *)
Definition no_cache_ttl (pol : CachePolicy) (t : Z * gostring) : option (Z * gostring) :=
  if cp_HasMaxTTL pol && (cp_MaxTTL pol <=? 0) then None
  else
    let t := if t.1 <=? 0
             then cap_ttl pol (cp_DefaultTTL pol, if cp_HasRouteDefaultTTL pol then str "route_default_ttl_no_cache"
                                                  else str "gateway_fallback_no_cache")
             else t in
    if t.1 <=? 0 then None else Some t.

Definition freshnessDecision (status : Z) (h : Header) (p : responsePolicy) (now : Z) (pol : CachePolicy)
  : option (Z * Z * gostring) :=
  if negb (cacheableStatus status) then None
  else if (1 <? length (header_Values h (str "ETag")))%nat || (1 <? length (header_Values h (str "Last-Modified")))%nat then None
  else if NoStore p then None
  else if Private p then None
  else if hasHeaderField h (str "Set-Cookie") then None
  else
    match lifetime h p now pol with
    | None => None
    | Some t =>
        let t := cap_ttl pol t in
        if (t.1 <=? 0) && negb (NoCache p) then None
        else match (if NoCache p then no_cache_ttl pol t else Some t) with
             | None => None
             | Some (ttl, source) =>
                 let swr := default (cp_StaleWhileRevalidate pol) (SWR p) in
                 let swr := if revalidationRequired p || NoCache p then 0 else swr in
                 Some (ttl, swr, if Targeted p then str "targeted_" ++ source else source)
             end
    end.

Definition staleOnErrorWindow (e : Entry) (pol : CachePolicy) : Z :=
  if MustRevalidate e then 0
  else if HasStaleIfError e then StaleIfError e
  else if RequiresValidation e then 0
  else cp_StaleIfError pol.

(** The labels recorded for a Vary the guard refuses. *)
Definition reason_text (r : varyReason) : gostring :=
  match r with
  | VarySensitive => str "vary_sensitive_rejected"
  | VaryCGIRewrite => str "vary_cgi_rewrite_rejected"
  | VaryProxyRewrite => str "vary_proxy_rewrite_rejected"
  end.

(** Why a response is not stored; [None] when it may be. *)
Definition storageReason (rh : Header) (status : Z) (h : Header) (now : Z) (pol : CachePolicy) : option gostring :=
  let p := parseResponsePolicy h in
  match freshnessDecision status h p now pol with
  | None => Some (if NoStore p then str "response_no_store" else if Private p then str "response_private"
                  else if hasHeaderField h (str "Set-Cookie") then str "response_set_cookie" else str "response_policy_rejected")
  | Some _ =>
      match varyRejectionHeader (Some rh) (cp_varyGuard pol) h with
      | Some reason => Some (reason_text reason)
      | None =>
          if hasHeaderField rh (str "Authorization") && negb (sharedAuthStorable p) then Some (str "auth_storage_restricted")
          else if bool_decide (str "*" ∈ varyFields h) then Some (str "vary_star")
          else None
      end
  end.

(** ** Publication evidence *)

Definition freshnessSources : list gostring :=
  [[]; str "gateway_fallback"; str "origin_s_maxage"; str "origin_max_age"; str "origin_expires"; str
   "gateway_fallback_no_cache"; str "targeted_gateway_fallback"; str "targeted_origin_s_maxage"; str
   "targeted_origin_max_age"; str "targeted_gateway_fallback_no_cache"; str "route_default_ttl"; str
   "route_default_ttl_no_cache"; str "targeted_route_default_ttl"; str "targeted_route_default_ttl_no_cache"; str
   "route_max_ttl_cap"; str "targeted_route_max_ttl_cap"].

Definition windowSources : list gostring :=
  [[]; str "gateway_fallback"; str "origin"; str "mandatory_validation"; str "route_policy"].

(** The position of a label in its table. *)
Definition sourceCode (s : gostring) (values : list gostring) : Z :=
  match list_find (fun v => s = v) values with Some (i, _) => Z.of_nat i mod 256 | None => 0 end.

Definition entryEvidenceForRequest (r : option Header) (status : Z) (h : Header) (p : responsePolicy) (pol : CachePolicy)
  (now ttl swr : Z) : publicationEvidence :=
  let source := match freshnessDecision status h p now pol with Some (_, _, s) => s | None => [] end in
  let forced := revalidationRequired p || NoCache p && negb (is_some (SIE p)) in
  let sie := if forced then 0 else default (cp_StaleIfError pol) (SIE p) in
  let flags := evidenceStaleBasisKnown in
  let flags := if NoCache p then Z.lor flags 1 else flags in
  let flags := if revalidationRequired p then Z.lor flags 2 else flags in
  let flags := if sharedAuthReuse p then Z.lor flags 4 else flags in
  let flags := match r with
               | Some rh => if bool_decide (header_Values rh (str "Cookie") = []) then Z.lor flags evidenceNoRequestCookies else flags
               | None => flags
               end in
  let swrSource := if revalidationRequired p || NoCache p then str "mandatory_validation" else if SWR p then str "origin"
                   else if cp_HasRouteSWR pol then str "route_policy" else str "gateway_fallback" in
  let sieSource := if forced then str "mandatory_validation" else if SIE p then str "origin"
                   else if cp_HasRouteSIE pol then str "route_policy" else str "gateway_fallback" in
  MkEvidence now 0 (policyID pol) swr sie (sourceCode source freshnessSources) (sourceCode swrSource windowSources)
    (sourceCode sieSource windowSources) flags.

(** ** Building an entry *)

(** [declaredLength] (http.go): a single valid Content-Length. *)
Definition declaredLength (h : Header) : option Z :=
  match header_Values h (str "Content-Length") with
  | [v] => match ParseInt (TrimSpace v) with NumOk n => if n <? 0 then None else Some n | _ => None end
  | _ => None
  end.

(** The request values an entry is stored against. *)
Definition vary_values (rh : Header) (vary : list gostring) : gmap gostring gostring :=
  foldl (fun m name => <[name := varyRequestValue rh name]> m) ∅ vary.

Definition strip_tags (pol : CachePolicy) (h : Header) : Header :=
  if cp_StripTagHeaders pol && negb (bool_decide (cp_TagHeaders pol = [])) then stripConfiguredTagHeaders h (cp_TagHeaders pol) else h.

(** The headers kept with an entry. *)
Definition stored_header (h : Header) (now : Z) (pol : CachePolicy) : Header :=
  let stored := strip_tags pol (removeHopByHop h) in
  if hasHeaderField stored (str "Date") then stored else header_Set stored (str "Date") (FormatTime TimeFormat now).

(** The tags of a response; the left is the reason it is not stored. *)
Definition ingest_tags (h : Header) (pol : CachePolicy) : tagSkip + (list gostring * bool) :=
  if bool_decide (cp_TagHeaders pol = []) then inr ([], false) else extractOriginTags h (cp_TagHeaders pol).

(** The entry, or the decision recorded for not storing the response. *)
Definition buildEntryFromCapture (method : gostring) (rh : Header) (status : Z) (h : Header) (body : list Z) (bodyLen : Z)
  (streamBacked : bool) (now : Z) (pol : CachePolicy) : gostring + Entry :=
  if negb (string_eqb method (str "HEAD")) && match declaredLength h with Some cl => negb (bodyLen =? cl) | None => false end
  then inl (str "capture_incomplete")
  else
    match ingest_tags h pol with
    | inl _ => inl (str "tag_capture_rejected")
    | inr (tags, _) =>
        let p := parseResponsePolicy h in
        match freshnessDecision status h p now pol with
        | None => inl (default [] (storageReason rh status h now pol))
        | Some (ttl, swr, _) =>
            match varyRejectionHeader (Some rh) (cp_varyGuard pol) h with
            | Some reason => inl (reason_text reason)
            | None =>
                if hasHeaderField rh (str "Authorization") && negb (sharedAuthStorable p) then inl (str "auth_storage_restricted")
                else if bool_decide (str "*" ∈ varyFields h) then inl (str "vary_star")
                else
                  let created := now - initialAge h now in
                  let vary := varyFields h in
                  inr (MkEntry (Some (entryEvidenceForRequest (Some rh) status h p pol now ttl swr)) status
                         (stored_header h now pol) (if streamBacked then [] else body) None
                         created (created + ttl) (created + i64 (ttl + swr)) (header_Get h (str "ETag"))
                         (header_Get h (str "Last-Modified")) (NoCache p) (revalidationRequired p) (sharedAuthReuse p)
                         (default 0 (SIE p)) (is_some (SIE p)) vary (vary_values rh vary) false [] tags
                         (cp_RouteScope pol) (cp_RouteEpoch pol) (bypassPolicyDigest pol) (routeConfigDigest pol) None)
            end
        end
    end.

(** ** The stale-if-error extension *)

(** A failed validation extends the stale window ([markStaleIfError]; the
    publication itself is the caller's). *)
Definition mark_flags (ev : publicationEvidence) : publicationEvidence :=
  MkEvidence (ev_InsertedAt ev) (ev_ValidatedAt ev) (ev_PolicyID ev) (ev_SWR ev) (ev_SIE ev) (ev_FreshnessSource ev)
    (ev_SWRSource ev) (ev_SIESource ev) (Z.lor (ev_Flags ev) (Z.lor evidenceStaleIfError evidenceStaleBasisKnown)).

Definition extendStale (e : Entry) (until : Z) : Entry :=
  MkEntry (mark_flags <$> Evidence e) (Status e) (e_Header e) (Body e) (diskBody e) (CreatedAt e) (ExpiresAt e) until (ETag e)
    (LastModified e) (RequiresValidation e) (MustRevalidate e) (SharedAuthReuse e) (StaleIfError e) (HasStaleIfError e)
    (Vary e) (VaryValues e) (IsVaryStub e) (Variants e) (Tags e) (RouteScope e) (RouteEpoch e) (BypassDigest e)
    (RouteConfigDigest e) (RouteVary e).

(** What a validation answered with status 500 or more makes of the stored
    entry; [None] leaves it as it is. *)
Definition staleIfError (req : option Header) (stored : Entry) (h5xx : Header) (now : Z) (pol : CachePolicy) : option Entry :=
  match varyRejectionEntry req (cp_varyGuard pol) stored, varyRejectionHeader req (cp_varyGuard pol) h5xx with
  | None, None =>
      let p := parseResponsePolicy h5xx in
      if negb (NoStore p) && negb (Private p) && negb (hasHeaderField h5xx (str "Set-Cookie")) then
        let sie := staleOnErrorWindow stored pol in
        if 0 <? sie then Some (extendStale stored (now + sie)) else None
      else None
  | _, _ => None
  end.

(** ** Merging a 304 *)

Definition clear_flag (flags bit : Z) : Z := Z.ldiff flags bit.

(** The evidence of the refreshed entry: its first insertion and whether it was
    stored for a request with cookies are inherited. *)
Definition merged_evidence (stored : option publicationEvidence) (ev : publicationEvidence) (now : Z) : publicationEvidence :=
  let '(inserted, flags) :=
    match stored with
    | Some s => (ev_InsertedAt s, if has_flag (ev_Flags s) evidenceNoRequestCookies then ev_Flags ev
                                  else clear_flag (ev_Flags ev) evidenceNoRequestCookies)
    | None => (0, clear_flag (ev_Flags ev) evidenceNoRequestCookies)
    end in
  MkEvidence inserted now (ev_PolicyID ev) (ev_SWR ev) (ev_SIE ev) (ev_FreshnessSource ev) (ev_SWRSource ev)
    (ev_SIESource ev) flags.

(** The headers after a merge: those of the 304 replace the stored ones. *)
Definition merged_header (stored h304 : Header) (pol : CachePolicy) : Header :=
  let update := del_all [str "Content-Length"; str "X-Cache"] (removeHopByHop h304) in
  strip_tags pol (update ∪ header_Del stored (str "Warning")).

(** [Left] discards the stored entry for a reason. *)
Definition merge304 (req : option Header) (stored : Entry) (h304 : Header) (now : Z) (pol : CachePolicy) : gostring + Entry :=
  match varyRejectionEntry req (cp_varyGuard pol) stored with
  | Some reason => inl (reason_text reason)
  | None =>
  match varyRejectionHeader req (cp_varyGuard pol) h304 with
  | Some reason => inl (reason_text reason)
  | None =>
  match ingest_tags h304 pol with
  | inl _ => inl (str "tag_capture_rejected")
  | inr (tags304, present304) =>
      let merged := merged_header (e_Header stored) h304 pol in
      match varyRejectionHeader req (cp_varyGuard pol) merged with
      | Some reason => inl (reason_text reason)
      | None =>
          if negb (sameFields (Vary stored) (varyFields merged)) then inl (str "vary_changed")
          else
            let p := parseResponsePolicy merged in
            match freshnessDecision (Status stored) merged p now pol with
            | None => inl (default [] (storageReason ∅ (Status stored) merged now pol))
            | Some (ttl, swr, _) =>
                let created := if hasHeaderField h304 (str "Date") || hasHeaderField h304 (str "Age")
                               then now - initialAge merged now else now in
                let ev := entryEvidenceForRequest req (Status stored) merged p pol now ttl swr in
                inr (MkEntry (Some (merged_evidence (Evidence stored) ev now)) (Status stored) merged (Body stored)
                       (diskBody stored) created (created + ttl) (created + i64 (ttl + swr))
                       (header_Get merged (str "ETag")) (header_Get merged (str "Last-Modified")) (NoCache p)
                       (revalidationRequired p) (sharedAuthReuse p) (default 0 (SIE p)) (is_some (SIE p)) (Vary stored)
                       (VaryValues stored) (IsVaryStub stored) (Variants stored)
                       (if bool_decide (cp_TagHeaders pol = []) then [] else if (present304 : bool) then tags304 else Tags stored)
                       (cp_RouteScope pol) (cp_RouteEpoch pol) (bypassPolicyDigest pol) (routeConfigDigest pol)
                       (RouteVary stored))
            end
      end
  end end end.

(** ** Reuse *)

Inductive reuseKind := reuseNone | reuseHit | reuseStale | reuseValidate.

Definition reuseDecision (e : Entry) (rh : Header) (p : requestPolicy) (now : Z) : reuseKind :=
  if hasHeaderField rh (str "Authorization") && negb (SharedAuthReuse e) then reuseNone
  else
    let mustValidate := rp_MustValidate p || RequiresValidation e in
    if negb mustValidate && Fresh e now then reuseHit
    else if negb mustValidate && (negb (MustRevalidate e) && ServableStale e now) then reuseStale
    else if bool_decide (ETag e = []) && bool_decide (LastModified e = []) then reuseNone
    else reuseValidate.

(** Whether a route with cookie bypass must not use the entry. *)
Definition bypass_mismatch (e : Entry) (pol : CachePolicy) : bool :=
  bypasses pol
  && negb (match Evidence e with Some ev => has_flag (ev_Flags ev) evidenceNoRequestCookies | None => false end)
  && negb (bool_decide (BypassDigest e = bypassPolicyDigest pol)).

(** The instant the entry was last confirmed. *)
Definition reference_time (e : Entry) : Z :=
  match Evidence e with
  | Some ev => if negb (ev_ValidatedAt ev =? 0) then ev_ValidatedAt ev
               else if negb (ev_InsertedAt ev =? 0) then ev_InsertedAt ev else CreatedAt e
  | None => CreatedAt e
  end.

(** The earlier of a computed deadline and a stored one that is set. *)
Definition cap_deadline (d stored : Z) : Z := if negb (IsZero stored) && (stored <? d) then stored else d.

(** The decision under the policy of a route ([reuseDecisionWithIdentity]; the
    identity is the policy with its digests). *)
Definition reuseDecisionWithPolicy (e : Entry) (rh : Header) (p : requestPolicy) (pol : CachePolicy) (now : Z)
  : reuseKind * gostring :=
  if hasHeaderField rh (str "Authorization") && negb (SharedAuthReuse e) then (reuseNone, str "auth_reuse_restricted")
  else if bypass_mismatch e pol then (reuseNone, str "route_policy_mismatch")
  else if match Evidence e with
          | Some ev => bool_decide (ev_PolicyID ev = policyID pol)
          | None => negb (cp_HasRouteDefaultTTL pol) && negb (cp_HasMaxTTL pol) && negb (cp_HasRouteSWR pol)
                    && negb (cp_HasRouteSIE pol)
          end
  then (reuseDecision e rh p now, [])
  else
    let refNow := reference_time e in
    match freshnessDecision (Status e) (e_Header e) (parseResponsePolicy (e_Header e)) refNow pol with
    | None => (reuseNone, str "route_policy_mismatch")
    | Some (ttl, swr, _) =>
        let expires := cap_deadline (CreatedAt e + ttl) (ExpiresAt e) in
        let stale :=
          if match Evidence e with Some ev => has_flag (ev_Flags ev) evidenceStaleIfError | None => false end then
            let sie := staleOnErrorWindow e pol in
            if sie <=? 0 then expires else cap_deadline (refNow + sie) (StaleUntil e)
          else cap_deadline (expires + swr) (StaleUntil e) in
        let mustValidate := rp_MustValidate p || RequiresValidation e in
        if negb mustValidate && (now <? expires) then (reuseHit, [])
        else if negb mustValidate && (negb (MustRevalidate e) && (now <? stale)) then (reuseStale, [])
        else if bool_decide (ETag e = []) && bool_decide (LastModified e = []) then
          (reuseNone,
           if negb (IsZero (ExpiresAt e)) && (expires <? ExpiresAt e) && (now <? ExpiresAt e)
              || negb (IsZero (StaleUntil e)) && (stale <? StaleUntil e) && (now <? StaleUntil e)
           then str "route_policy_mismatch" else [])
        else (reuseValidate, [])
    end.
End Reuse.

(** ** What the cache publishes *)

Section Published.
Context `{Unicode} `{Sfv} `{HttpGuts} `{Sha256} `{GoTime}.

(** [published e h t pol]: the entry [e] can reach the store, and [h] is the
    header its metadata was computed from, at [t] under [pol].  For an entry
    built from a response [h] is the header of that response; for one refreshed
    by a 304 it is the stored header updated with that of the 304; an entry
    kept past an origin error keeps the response it had. *)
Inductive published : Entry -> Header -> Z -> CachePolicy -> Prop :=
| pub_build method rh status h body bodyLen streamed now pol e :
    policy_fits pol -> buildEntryFromCapture method rh status h body bodyLen streamed now pol = inr e -> published e h now pol
| pub_merge req stored h0 t0 pol0 h304 now pol e :
    published stored h0 t0 pol0 -> policy_fits pol -> merge304 req stored h304 now pol = inr e ->
    published e (merged_header (e_Header stored) h304 pol) now pol
| pub_error req stored h0 t0 pol0 h5xx now pol e :
    published stored h0 t0 pol0 -> staleIfError req stored h5xx now pol = Some e -> published e h0 t0 pol0.

(** The metadata of an entry is what the decision taken at [t] under [pol]
    gives for the response header [h]. *)
Record derived (e : Entry) (h : Header) (t : Z) (pol : CachePolicy) (ttl swr : Z) : Prop := {
  dv_decision : exists src, freshnessDecision (Status e) h (parseResponsePolicy h) t pol = Some (ttl, swr, src);
  dv_created : CreatedAt e <= t;
  dv_expires : ExpiresAt e = CreatedAt e + ttl;
  dv_validate : RequiresValidation e = NoCache (parseResponsePolicy h);
  dv_must : MustRevalidate e = revalidationRequired (parseResponsePolicy h);
  dv_auth : SharedAuthReuse e = sharedAuthReuse (parseResponsePolicy h);
  dv_sie : HasStaleIfError e = is_some (SIE (parseResponsePolicy h)) /\ StaleIfError e = default 0 (SIE (parseResponsePolicy h));
  dv_fits : policy_fits pol;
  dv_policy : exists ev, Evidence e = Some ev /\ ev_PolicyID ev = policyID pol
}.

Lemma apparent_age_nonneg dates now : 0 <= apparent_age dates now.
Proof.
  unfold apparent_age. assert (HG : forall l a, 0 <= a -> 0 <= foldl (fun age v => match ParseTime v with
    Some d => if age <? time_Sub now d then time_Sub now d else age | None => age end) a l); [|by apply HG].
  induction l as [|v l IH]; intros a Ha; simpl; [done|]. apply IH. destruct (ParseTime v); [|done].
  destruct (Z.ltb_spec a (time_Sub now z)); lia.
Qed.

Lemma initialAge_nonneg h now : 0 <= initialAge h now.
Proof.
  unfold initialAge. pose proof (apparent_age_nonneg (header_Values h (str "Date")) now).
  pose proof (parseAge_range (header_Values h (str "Age"))). destruct (_ <? _); lia.
Qed.

Lemma published_derived e h t pol : published e h t pol -> exists ttl swr, derived e h t pol ttl swr.
Proof.
  induction 1 as [m rh st h body n s now pol e HW E|req stored h0 t0 pol0 h304 now pol e HP IH HW E|req stored h0 t0 pol0 h5 now pol e HP IH E].
  - unfold buildEntryFromCapture in E. destruct (_ && _); [done|]. destruct (ingest_tags h pol) as [|[tags pr]]; [done|].
    destruct (freshnessDecision st h (parseResponsePolicy h) now pol) as [[[ttl swr] src]|] eqn:EF; [|done].
    destruct (varyRejectionHeader _ _ _); [done|]. destruct (_ && _); [done|]. case_bool_decide; [done|].
    injection E as <-. exists ttl, swr. pose proof (initialAge_nonneg h now).
    constructor; cbn; try done; [by exists src|lia|by eexists].
  - unfold merge304 in E. destruct (varyRejectionEntry _ _ _); [done|]. destruct (varyRejectionHeader _ _ h304); [done|].
    destruct (ingest_tags h304 pol) as [|[tags pr]]; [done|]. destruct (varyRejectionHeader _ _ _); [done|].
    destruct (negb _); [done|]. set (merged := merged_header _ _ _) in *.
    destruct (freshnessDecision (Status stored) merged (parseResponsePolicy merged) now pol) as [[[ttl swr] src]|] eqn:EF; [|done].
    injection E as <-. exists ttl, swr. pose proof (initialAge_nonneg merged now).
    constructor; cbn; try done; [by exists src|destruct (_ || _); lia|].
    eexists. split; [done|]. unfold merged_evidence. by destruct (Evidence stored) as [ev|]; cbn.
  - unfold staleIfError in E. destruct (varyRejectionEntry _ _ _); [done|]. destruct (varyRejectionHeader _ _ _); [done|].
    destruct (_ && _); [|done]. destruct (_ <? _); [|done]. injection E as <-.
    destruct IH as (ttl & swr & [D1 D2 D3 D4 D5 D6 D7 DW (ev & D8 & D9)]). exists ttl, swr.
    constructor; cbn; try done. rewrite D8. by exists (mark_flags ev).
Qed.

(** What a positive freshness decision implies. *)
Lemma freshness_facts status h p now pol ttl swr src :
  freshnessDecision status h p now pol = Some (ttl, swr, src) ->
  cacheableStatus status = true /\ NoStore p = false /\ Private p = false /\ hasHeaderField h (str "Set-Cookie") = false /\
  0 < ttl /\ (cp_HasMaxTTL pol = true -> ttl <= cp_MaxTTL pol) /\
  (revalidationRequired p = true \/ NoCache p = true -> swr = 0) /\
  (NoCache p = false -> exists t s, lifetime h p now pol = Some (t, s) /\ ttl <= t).
Proof.
  unfold freshnessDecision. destruct (cacheableStatus status); [|done]. cbn [negb]. destruct (_ || _); [done|].
  destruct (NoStore p); [done|]. destruct (Private p); [done|]. destruct (hasHeaderField h _); [done|].
  destruct (lifetime h p now pol) as [[t0 s0]|]; [|done].
  assert (HC : forall x, (cap_ttl pol x).1 <= x.1 /\ (cp_HasMaxTTL pol = true -> (cap_ttl pol x).1 <= cp_MaxTTL pol)).
  { intros x. unfold cap_ttl. destruct (cp_HasMaxTTL pol); cbn [andb]; [|split; [lia|done]].
    destruct (Z.ltb_spec (cp_MaxTTL pol) x.1); cbn; lia. }
  destruct (HC (t0, s0)) as [L1 L2]. set (t := cap_ttl pol (t0, s0)) in *.
  destruct (NoCache p) eqn:EN; cbn [negb andb].
  - rewrite andb_false_r. unfold no_cache_ttl. destruct (_ && _) eqn:EM; [done|].
    set (u := if t.1 <=? 0 then _ else t). assert (HU : cp_HasMaxTTL pol = true -> u.1 <= cp_MaxTTL pol).
    { unfold u. destruct (t.1 <=? 0); [apply HC|done]. }
    destruct (Z.leb_spec u.1 0); [done|]. destruct u as [ut us]. intros [= <- <- <-]. cbn in *. rewrite orb_true_r.
    split_and!; done.
  - rewrite andb_true_r. destruct (Z.leb_spec t.1 0) as [|Hp]; [done|]. destruct t as [tt ts]. intros [= <- <- <-]. cbn in *.
    rewrite orb_false_r. split_and!; try done.
    + intros [->|?]; done.
    + intros _. by exists t0, s0.
Qed.

(** What an answer from the store implies. *)
Lemma reuse_served e rh p now :
  reuseDecision e rh p now = reuseHit \/ reuseDecision e rh p now = reuseStale ->
  (hasHeaderField rh (str "Authorization") = true -> SharedAuthReuse e = true) /\ rp_MustValidate p = false /\
  RequiresValidation e = false /\ (reuseDecision e rh p now = reuseHit -> now < ExpiresAt e) /\
  (reuseDecision e rh p now = reuseStale -> MustRevalidate e = false /\ ServableStale e now = true).
Proof.
  unfold reuseDecision, Fresh. destruct (hasHeaderField rh (str "Authorization")), (SharedAuthReuse e), (rp_MustValidate p),
    (RequiresValidation e), (MustRevalidate e), (ServableStale e now), (Z.ltb_spec now (ExpiresAt e));
    cbn [andb orb negb]; try (intros HR; split_and!; done);
    destruct (bool_decide (ETag e = []) && bool_decide (LastModified e = [])); by intros [?|?].
Qed.

(** Deleting fields and setting another one leave a missing field missing. *)
Lemma has_field_subseteq h h' name : h' ⊆ h -> hasHeaderField h name = false -> hasHeaderField h' name = false.
Proof.
  unfold hasHeaderField, header_Values. rewrite !negb_false_iff, !bool_decide_eq_true. intros HS.
  destruct (h' !! CanonicalHeaderKey name) as [v|] eqn:E; [|done]. by rewrite (lookup_weaken _ _ _ _ E HS).
Qed.

Lemma del_all_subseteq names h : del_all names h ⊆ h.
Proof. revert h. induction names as [|n l IH]; intros h; [done|]. cbn. etrans; [apply IH|apply delete_subseteq]. Qed.

Lemma stored_header_subseteq h pol : strip_tags pol (removeHopByHop h) ⊆ h.
Proof.
  unfold strip_tags, removeHopByHop, stripConfiguredTagHeaders. destruct (_ && _); repeat (etrans; [apply del_all_subseteq|]); done.
Qed.

(** The header sent with an entry has a Set-Cookie only if the response had. *)
Lemma published_no_cookie e h t pol :
  published e h t pol -> hasHeaderField h (str "Set-Cookie") = false -> hasHeaderField (e_Header e) (str "Set-Cookie") = false.
Proof.
  induction 1 as [m rh st h body n s now pol e HW E|req stored h0 t0 pol0 h304 now pol e HP IH HW E|req stored h0 t0 pol0 h5 now pol e HP IH E]; intros HC.
  - unfold buildEntryFromCapture in E. destruct (_ && _); [done|]. destruct (ingest_tags h pol) as [|[tags pr]]; [done|].
    destruct (freshnessDecision _ _ _ _ _) as [[[ttl swr] src]|]; [|done].
    destruct (varyRejectionHeader _ _ _); [done|]. destruct (_ && _); [done|]. case_bool_decide; [done|].
    injection E as <-. cbn. unfold stored_header.
    assert (HN := has_field_subseteq _ _ _ (stored_header_subseteq h pol) HC).
    destruct (hasHeaderField _ (str "Date")); [done|]. unfold hasHeaderField, header_Values, header_Set in *.
    by rewrite lookup_insert_ne by (vm_compute; discriminate).
  - unfold merge304 in E. destruct (varyRejectionEntry _ _ _); [done|]. destruct (varyRejectionHeader _ _ h304); [done|].
    destruct (ingest_tags h304 pol) as [|[tags pr]]; [done|]. destruct (varyRejectionHeader _ _ _); [done|].
    destruct (negb _); [done|]. destruct (freshnessDecision _ _ _ _ _) as [[[ttl swr] src]|]; [|done]. by injection E as <-.
  - unfold staleIfError in E. destruct (varyRejectionEntry _ _ _); [done|]. destruct (varyRejectionHeader _ _ _); [done|].
    destruct (_ && _); [|done]. destruct (_ <? _); [|done]. injection E as <-. by apply IH.
Qed.

(** C7: Let [h] be the header the cache published an entry from: that of the
    captured response, or the stored one updated with that of a 304, for the
    entry as built, refreshed, or kept past an origin error.  The entry answers
    a request without contacting the origin only if [h] says neither no-store,
    private nor no-cache and sets no cookie (nor does the header that is sent),
    its status is one a cache may keep, the request did not ask for validation,
    and an authenticated request only if [h] allows it to be shared.  A hit is
    younger than the lifetime that [h], or the policy in the absence of one,
    gives, and than the policy's maximum; a stale answer is never given for a
    response that requires revalidation. *)
Theorem published_reuse_sound (e : Entry) (h : Header) (t : Z) (pol : CachePolicy) (rh : Header) (rp : requestPolicy) (now : Z) :
  published e h t pol -> reuseDecision e rh rp now = reuseHit \/ reuseDecision e rh rp now = reuseStale ->
  let p := parseResponsePolicy h in
  NoStore p = false /\ Private p = false /\ NoCache p = false /\ cacheableStatus (Status e) = true /\
  hasHeaderField h (str "Set-Cookie") = false /\ hasHeaderField (e_Header e) (str "Set-Cookie") = false /\
  rp_MustValidate rp = false /\
  (hasHeaderField rh (str "Authorization") = true -> sharedAuthReuse p = true) /\
  (reuseDecision e rh rp now = reuseHit ->
   CreatedAt e <= t /\ (exists life src, lifetime h p t pol = Some (life, src) /\ now - CreatedAt e < life) /\
   (cp_HasMaxTTL pol = true -> now - CreatedAt e < cp_MaxTTL pol)) /\
  (reuseDecision e rh rp now = reuseStale -> revalidationRequired p = false).
Proof.
  intros HP HR. destruct (published_derived _ _ _ _ HP) as (ttl & swr & [(src & HF) DC D3 D4 D5 D6 _ _ _]).
  destruct (freshness_facts _ _ _ _ _ _ _ _ HF) as (F1 & F2 & F3 & F4 & F5 & F6 & _ & F8).
  cbn zeta. destruct (reuse_served _ _ _ _ HR) as (R1 & R2 & R3 & R4 & R5). rewrite D4 in R3. destruct (F8 R3) as (life & s & HL & Hle).
  rewrite <- D5, <- D6. split_and!; try done.
  - by apply (published_no_cookie _ _ _ _ HP).
  - intros E%R4. split_and!; [done|exists life, s; split; [done|lia]|intros ?%F6; lia].
  - by intros [E _]%R5.
Qed.

(** ** Expires *)

Lemma apparent_age_ge dates now d v :
  v ∈ dates -> ParseTime v = Some d -> time_Sub now d <= apparent_age dates now.
Proof.
  unfold apparent_age. match goal with |- context [foldl ?g _ _] => set (f := g) end.
  assert (HM : forall l a, a <= foldl f a l).
  { induction l as [|w l IH]; intros a; simpl; [lia|]. etrans; [|apply IH]. unfold f. destruct (ParseTime w) as [x|]; [|lia].
    destruct (Z.ltb_spec a (time_Sub now x)); lia. }
  intros Hv Hp. generalize 0. induction dates as [|w l IH]; intros a; [by apply elem_of_nil in Hv|]. simpl.
  apply elem_of_cons in Hv as [<-|Hv]; [|by apply IH]. etrans; [|apply HM]. unfold f. rewrite Hp.
  destruct (Z.ltb_spec a (time_Sub now d)); lia.
Qed.

Lemma date_base_cases dates now :
  date_base dates now = now \/ exists v, v ∈ dates /\ ParseTime v = Some (date_base dates now).
Proof.
  unfold date_base. match goal with |- context [foldl ?g _ _] => set (f := g) end.
  assert (HG : forall l acc, (foldl f acc l).1 = acc.1 \/ exists v, v ∈ l /\ ParseTime v = Some (foldl f acc l).1); [|apply HG].
  induction l as [|w l IH]; intros [b fd]; [by left|]. cbn [foldl]. destruct (IH (f (b, fd) w)) as [E|(v & Hv & Ev)].
  - rewrite E. unfold f. destruct (ParseTime w) as [d|] eqn:Ew; [|by left]. destruct (_ || _); [right|by left].
    exists w. split; [left|done].
  - right. exists v. split; [by right|done].
Qed.

(** A response whose lifetime comes from Expires is never served as fresh
    at or after that date, whatever Date and Age fields, clock skew and
    saturating differences go into the computation. *)
Theorem fresh_until_expires (method : gostring) (rh : Header) (status : Z) (h : Header) (body : list Z) (n : Z) (streamed : bool)
    (t0 : Z) (pol : CachePolicy) (e : Entry) (v : gostring) (expiry now : Z) :
  buildEntryFromCapture method rh status h body n streamed t0 pol = inr e ->
  let p := parseResponsePolicy h in
  SMaxAge p = None -> MaxAge p = None -> Targeted p = false -> NoCache p = false ->
  header_Values h (str "Expires") = [v] -> parseCacheDate v t0 = Some expiry ->
  t0 <= now -> Fresh e now = true -> now < expiry.
Proof.
  intros E p P1 P2 P3 P4 HV HE Ht HF.
  unfold buildEntryFromCapture in E. destruct (_ && _); [done|]. destruct (ingest_tags h pol) as [|[tags pr]]; [done|].
  fold p in E. destruct (freshnessDecision status h p t0 pol) as [[[ttl swr] src]|] eqn:EF; [|done].
  destruct (varyRejectionHeader _ _ _); [done|]. destruct (_ && _); [done|]. case_bool_decide; [done|]. injection E as <-.
  unfold Fresh in HF. cbn in HF. apply Z.ltb_lt in HF.
  destruct (freshness_facts _ _ _ _ _ _ _ _ EF) as (_ & _ & _ & _ & F5 & _ & _ & F8). destruct (F8 P4) as (t & s & HL & Hle).
  unfold lifetime in HL. rewrite P1, P2, P3, HV, HE in HL. injection HL as <- _.
  set (dates := header_Values h (str "Date")) in *. set (base := date_base dates t0) in *.
  assert (HA : apparent_age dates t0 <= initialAge h t0).
  { unfold initialAge. fold dates. destruct (Z.ltb_spec (apparent_age dates t0) (parseAge (header_Values h (str "Age")))); lia. }
  pose proof (apparent_age_nonneg dates t0) as HN. unfold time_Sub, max_int64 in *.
  destruct (date_base_cases dates t0) as [EB|(w & Hw & EB)].
  - unfold base in *. rewrite EB in Hle. lia.
  - pose proof (apparent_age_ge dates t0 _ w Hw EB) as HG. fold base in HG. unfold time_Sub, max_int64 in HG. lia.
Qed.
(** ** Route policies *)

(** How much of the origin's part a decision lets the store play. *)
Definition reuse_rank (k : reuseKind) : nat :=
  match k with reuseNone => 0 | reuseValidate => 1 | reuseStale => 2 | reuseHit => 3 end.

Lemma cap_deadline_le d stored : cap_deadline d stored <= d /\ (IsZero stored = false -> cap_deadline d stored <= stored).
Proof. unfold cap_deadline. destruct (IsZero stored); cbn; [split; [lia|done]|]. destruct (Z.ltb_spec stored d); lia. Qed.

(** A policy that owns the entry takes the plain decision; any other recomputes
    the deadlines, which only come earlier. *)
Lemma route_rank e rh rp pol now :
  IsZero (ExpiresAt e) = false -> IsZero (StaleUntil e) = false ->
  (reuse_rank (reuseDecisionWithPolicy e rh rp pol now).1 <= reuse_rank (reuseDecision e rh rp now))%nat.
Proof.
  intros HX HS. unfold reuseDecisionWithPolicy, reuseDecision, ServableStale, Fresh.
  destruct (_ && negb (SharedAuthReuse e)); [done|]. destruct (bypass_mismatch e pol); [cbn; lia|].
  destruct (match Evidence e with Some _ => _ | None => _ end); [done|].
  destruct (freshnessDecision _ _ _ _ _) as [[[ttl swr] src]|]; [|cbn; lia]. cbv zeta.
  destruct (cap_deadline_le (CreatedAt e + ttl) (ExpiresAt e)) as [_ X1]. specialize (X1 HX).
  set (expires := cap_deadline (CreatedAt e + ttl) (ExpiresAt e)) in *.
  set (stale := if match Evidence e with Some ev => has_flag (ev_Flags ev) evidenceStaleIfError | None => false end then _ else _).
  assert (X2 : stale <= expires \/ stale <= StaleUntil e).
  { unfold stale. destruct (match Evidence e with Some _ => _ | None => _ end); [destruct (_ <=? 0); [by left|]|];
      right; by apply cap_deadline_le. }
  clearbody expires stale. destruct (rp_MustValidate rp || RequiresValidation e); cbn [negb andb].
  - by destruct (bool_decide _ && _).
  - destruct (Z.ltb_spec now expires); [rewrite (proj2 (Z.ltb_lt now (ExpiresAt e))) by lia; done|].
    destruct (now <? ExpiresAt e); [by repeat destruct (_ && _); cbn; lia|].
    destruct (MustRevalidate e); cbn [negb andb]; [by destruct (bool_decide _ && _)|].
    destruct (Z.ltb_spec now stale); [rewrite (proj2 (Z.ltb_lt now (StaleUntil e))) by lia; cbn; lia|].
    destruct (now <? StaleUntil e); destruct (bool_decide _ && _); cbn; lia.
Qed.

(** Under the policy of a route a published entry is never used more freely
    than its own metadata allows, and a hit is younger than the route's maximum
    lifetime even when the entry was stored or refreshed under another policy,
    as long as no other policy has the digest of this one. *)
Theorem route_policy_enforced (e : Entry) (h : Header) (t : Z) (pol0 : CachePolicy) (rh : Header) (rp : requestPolicy) (pol : CachePolicy) (now : Z) :
  published e h t pol0 -> policy_fits pol ->
  (forall q, policy_fits q -> policyID q = policyID pol -> policy_encoding q = policy_encoding pol) ->
  IsZero (ExpiresAt e) = false -> IsZero (StaleUntil e) = false ->
  let k := (reuseDecisionWithPolicy e rh rp pol now).1 in
  (reuse_rank k <= reuse_rank (reuseDecision e rh rp now))%nat /\
  (k = reuseHit -> cp_HasMaxTTL pol = true -> now < CreatedAt e + cp_MaxTTL pol).
Proof.
  intros (ttl & swr & HD)%published_derived HW HC HX HS k. split; [by apply route_rank|].
  destruct HD as [(src & HF) _ D3 _ _ _ _ DW (ev & EV & EP)]. unfold k, reuseDecisionWithPolicy. rewrite EV.
  destruct (_ && negb (SharedAuthReuse e)); [done|]. destruct (bypass_mismatch e pol); [done|]. case_bool_decide as EI.
  - cbn [fst]. intros HH HM. destruct (reuse_served e rh rp now) as (_ & _ & _ & R4 & _); [by left|]. specialize (R4 HH).
    rewrite EP in EI. apply HC, policy_encoding_inj in EI; [|done..].
    destruct (freshness_facts _ _ _ _ _ _ _ _ HF) as (_ & _ & _ & _ & _ & F6 & _ & _).
    assert (E1 : cp_HasMaxTTL pol0 = true) by (change (cp_HasMaxTTL (identity_fields pol0) = true); by rewrite EI).
    assert (E2 : cp_MaxTTL pol0 = cp_MaxTTL pol)
      by (change (cp_MaxTTL (identity_fields pol0) = cp_MaxTTL (identity_fields pol)); by rewrite EI). specialize (F6 E1). lia.
  - clear HF. destruct (freshnessDecision _ _ _ _ _) as [[[ttl' swr'] src']|] eqn:EF; [|done]. cbv zeta.
    destruct (freshness_facts _ _ _ _ _ _ _ _ EF) as (_ & _ & _ & _ & _ & F6 & _ & _).
    destruct (cap_deadline_le (CreatedAt e + ttl') (ExpiresAt e)) as [X1 _].
    set (expires := cap_deadline _ _) in *. intros HH HM%F6. revert HH.
    destruct (Z.ltb_spec now expires); [lia|]. rewrite andb_false_r. destruct (_ && _); [done|]. by destruct (_ && _).
Qed.
End Published.

(** ** A concrete run *)

Definition demo_sfv : Sfv := {| UnmarshalDictionary := fun _ => None |}.

(** Dates written as a number of nanoseconds. *)
Definition demo_time : GoTime :=
  {| ParseTime := fun v => match ParseInt v with NumOk n => Some n | _ => None end;
     FormatTime := fun _ t => Itoa t; TimeYear := fun _ => 2024; AddYears := fun t _ => t |}.

Lemma code_length (s : gostring) : length (Z.pos (encode s) :: replicate 31 0) = 32%nat.
Proof. done. Qed.

(** A digest without collisions. *)
Definition code_sha256 : Sha256 := {| sha256 := fun s => Z.pos (encode s) :: replicate 31 0; sha256_length := code_length |}.

Definition demo_policy (hasMax : bool) : CachePolicy :=
  MkCachePolicy (30 * second) second 0 0 0 false 0 false 0 [] false [] 0 false false hasMax (5 * second) false false false [] None.

Definition demo_response : Header := {[ str "Cache-Control" := [str "max-age=60"]; str "Etag" := [str "v1"] ]}.
Definition demo_expiring : Header := {[ str "Expires" := [str "7000000000"]; str "Date" := [str "1000000000"]; str "Etag" := [str "v1"] ]}.

Section Demo.
#[local] Existing Instance no_unicode.
#[local] Existing Instance demo_sfv.
#[local] Existing Instance demo_guts.
#[local] Existing Instance code_sha256.
#[local] Existing Instance demo_time.

Definition demo_entry (h : Header) : Entry :=
  match buildEntryFromCapture (str "GET") ∅ 200 h [1] 1 false (2 * second) (demo_policy false) with
  | inr e => e
  | inl _ => zeroEntry
  end.

Lemma demo_fits b : policy_fits (demo_policy b).
Proof. constructor; cbn; [repeat constructor; vm_compute; intuition discriminate|lia|unfold MaxBypassCookies; lia|by repeat constructor]. Qed.

Lemma demo_built h :
  match buildEntryFromCapture (str "GET") ∅ 200 h [1] 1 false (2 * second) (demo_policy false) with inr _ => true | _ => false end = true ->
  buildEntryFromCapture (str "GET") ∅ 200 h [1] 1 false (2 * second) (demo_policy false) = inr (demo_entry h).
Proof. unfold demo_entry. by destruct (buildEntryFromCapture _ _ _ _ _ _ _ _ _). Qed.

Lemma demo_published : published (demo_entry demo_response) demo_response (2 * second) (demo_policy false).
Proof. eapply pub_build; [apply (demo_fits false)|]. apply demo_built. vm_compute. reflexivity. Qed.

Lemma published_reuse_sound_witness :
  reuseDecision (demo_entry demo_response) ∅ (MkReqPolicy false false) (40 * second) = reuseHit /\
  hasHeaderField demo_response (str "Set-Cookie") = false /\ NoStore (parseResponsePolicy demo_response) = false.
Proof.
  assert (HR : reuseDecision (demo_entry demo_response) ∅ (MkReqPolicy false false) (40 * second) = reuseHit) by (vm_compute; reflexivity).
  split; [exact HR|].
  destruct (published_reuse_sound (demo_entry demo_response) demo_response (2 * second) (demo_policy false)
    ∅ (MkReqPolicy false false) (40 * second) demo_published (or_introl HR)) as (HN & _ & _ & _ & HC & _).
  split; assumption.
Defined.

Lemma fresh_until_expires_witness :
  Fresh (demo_entry demo_expiring) (6 * second) = true /\ 6 * second < 7000000000.
Proof.
  assert (HF : Fresh (demo_entry demo_expiring) (6 * second) = true) by (vm_compute; reflexivity).
  split; [exact HF|].
  apply (fresh_until_expires (str "GET") ∅ 200 demo_expiring [1] 1 false (2 * second) (demo_policy false)
    (demo_entry demo_expiring) (str "7000000000") 7000000000 (6 * second)); try exact HF; try (vm_compute; reflexivity).
  vm_compute. discriminate.
Defined.

Lemma route_policy_enforced_witness :
  reuseDecision (demo_entry demo_response) ∅ (MkReqPolicy false false) (4 * second) = reuseHit /\
  (reuseDecisionWithPolicy (demo_entry demo_response) ∅ (MkReqPolicy false false) (demo_policy true) (4 * second)).1 = reuseHit /\
  4 * second < CreatedAt (demo_entry demo_response) + 5 * second.
Proof.
  assert (HR : (reuseDecisionWithPolicy (demo_entry demo_response) ∅ (MkReqPolicy false false) (demo_policy true) (4 * second)).1 = reuseHit)
    by (vm_compute; reflexivity).
  split; [vm_compute; reflexivity|]. split; [exact HR|].
  destruct (route_policy_enforced (demo_entry demo_response) demo_response (2 * second) (demo_policy false) ∅ (MkReqPolicy false false) (demo_policy true) (4 * second)
    demo_published (demo_fits true)) as [_ HM].
  - intros q _ E. injection E as E. by apply (inj encode) in E.
  - vm_compute. reflexivity.
  - vm_compute. reflexivity.
  - apply HM; [exact HR|reflexivity].
Defined.
End Demo.
