(* ===== verification/CacheServe.v ===== *)
(** * Serving a stored response (src/internal/cache/range.go, http.go, cache.go)

    Conditional requests against a stored entity tag or modification date, the
    parsing and resolution of byte ranges, the response written for a reusable
    entry (200, 206, 304 or 416), and the check that lets a complete response
    fetched without the request's range fields be stored on its behalf. *)

From Stdlib Require Import Floats.SpecFloat.
From S2P Require Import Prelude GoStrings Bytes Netip Http CacheEntry CacheIdentity CacheKey CacheControl CacheTags CacheGuard CacheReuse.

(** ** Entity tags *)

(** [opaqueETag]: a syntactically valid tag, without its weakness prefix. *)
Definition etag_char (c : Z) : bool := negb ((c <? 33) || (c =? 34) || (c =? 127)).

Definition opaqueETag (tag : gostring) : option gostring :=
  let tag := TrimPrefix tag (str "W/") in
  match tag with
  | 34 :: rest =>
      match rev rest with
      | 34 :: middle => if forallb etag_char (rev middle) then Some tag else None
      | _ => None
      end
  | _ => None
  end.

(** The parts of a line between commas outside quotes, and whether a quote is
    left open at its end. *)
Fixpoint etag_split (line : gostring) (quoted : bool) : list gostring * bool :=
  match line with
  | [] => ([[]], quoted)
  | c :: line =>
      let quoted := if c =? 34 then negb quoted else quoted in
      let '(parts, open) := etag_split line quoted in
      if (c =? 44) && negb quoted then ([] :: parts, open) else (cons_head c parts, open)
  end.

(** ** Byte ranges *)

Inductive byteRangeSpec := RangePrefix (first last : Z) | RangeOpen (first : Z) | RangeSuffix (suffix : Z).

#[export] Instance byteRangeSpec_eq_dec : EqDecision byteRangeSpec.
Proof. solve_decision. Defined.

Inductive rangeParse := ParseSingle (spec : byteRangeSpec) | ParseMulti | ParseNonBytes | ParseBad.

Definition maxRangeParserHardCap : Z := 16.

(** [textproto.TrimString]. *)
Definition textproto_space (b : Z) : bool := (b =? 32) || (b =? 9) || (b =? 10) || (b =? 13).
Definition TrimString (s : gostring) : gostring := Trim textproto_space s.

Definition isHTTPToken (s : gostring) : bool := negb (bool_decide (s = [])) && forallb token_byte s.

(** The digits of a number below 2^63, checked before each step. *)
Fixpoint decimal63 (s : gostring) (n : Z) : option Z :=
  match s with
  | [] => Some n
  | c :: s =>
      if is_digit c then
        if (max_int64 - (c - 48)) / 10 <? n then None else decimal63 s (n * 10 + (c - 48))
      else None
  end.

Definition parseDecimalInt63 (s : gostring) : option Z :=
  if bool_decide (s = []) || (19 <? zlen s) then None else decimal63 s 0.

Definition parseSingleByteRangeSpec (s : gostring) : option byteRangeSpec :=
  match CutByte s 45 with
  | (_, _, false) => None
  | ([], suffix, true) => RangeSuffix <$> parseDecimalInt63 suffix
  | (before, rem, true) =>
      match parseDecimalInt63 before with
      | None => None
      | Some first =>
          if bool_decide (rem = []) then Some (RangeOpen first)
          else
            match parseDecimalInt63 rem with
            | Some last => if last <? first then None else Some (RangePrefix first last)
            | None => None
            end
      end
  end.

(** The loop over the elements of the range set: [segments] counts all of them,
    [count] the nonempty ones. *)
Fixpoint range_loop (parts : list gostring) (hardCap maxRanges segments count : Z) (firstSpec : option byteRangeSpec)
  : option (Z * option byteRangeSpec) :=
  match parts with
  | [] => Some (count, firstSpec)
  | part :: parts =>
      let part := TrimString part in
      if hardCap <? segments + 1 then None
      else if bool_decide (part = []) then range_loop parts hardCap maxRanges (segments + 1) count firstSpec
      else if maxRanges <? count + 1 then None
      else
        match parseSingleByteRangeSpec part with
        | None => None
        | Some spec =>
            range_loop parts hardCap maxRanges (segments + 1) (count + 1) (if count + 1 =? 1 then Some spec else firstSpec)
        end
  end.

Section Serve.
Context `{Unicode} `{Sfv} `{HttpGuts} `{Sha256} `{GoTime}.

Definition parseRangeHeader (values : list gostring) (maxRanges : Z) : rangeParse :=
  match values with
  | [value] =>
      let maxRanges := if maxRanges <=? 0 then 1 else maxRanges in
      let hardCap := if maxRanges <? maxRangeParserHardCap then maxRangeParserHardCap else maxRanges in
      match CutByte (TrimString value) 61 with
      | (unit, rest, true) =>
          if negb (isHTTPToken unit) then ParseBad
          else if negb (EqualFold unit (str "bytes")) then ParseNonBytes
          else
            let rest := TrimString rest in
            if bool_decide (rest = []) then ParseBad
            else
              match range_loop (SplitByte rest 44) hardCap maxRanges 0 0 None with
              | None => ParseBad
              | Some (count, firstSpec) =>
                  if count =? 0 then ParseBad
                  else if 1 <? count then ParseMulti
                  else match firstSpec with Some spec => ParseSingle spec | None => ParseBad end
              end
      | _ => ParseBad
      end
  | _ => ParseBad
  end.

(** The start and the length of a range in [totalLen] bytes; [None] is 416. *)
Definition resolveByteRange (spec : byteRangeSpec) (totalLen : Z) : option (Z * Z) :=
  if totalLen <=? 0 then None
  else
    match spec with
    | RangePrefix first last =>
        if totalLen <=? first then None
        else
          let last := if totalLen <=? last then totalLen - 1 else last in
          Some (first, last - first + 1)
    | RangeOpen first => if totalLen <=? first then None else Some (first, totalLen - first)
    | RangeSuffix suffix =>
        if suffix <=? 0 then None
        else if totalLen <=? suffix then Some (0, totalLen)
        else Some (totalLen - suffix, suffix)
    end.

(** ** Preconditions *)

(** One part of an If-None-Match line; [None] is the malformed list. *)
Definition etag_part (want : gostring) (matched : option bool) (part : gostring) : option bool :=
  match matched with
  | None => None
  | Some m =>
      let part := TrimSpace part in
      if bool_decide (part = []) then Some m
      else match opaqueETag part with None => None | Some got => Some (m || string_eqb got want) end
  end.

Definition etag_line (want : gostring) (matched : option bool) (line : gostring) : option bool :=
  let '(parts, quoted) := etag_split line false in
  match foldl (etag_part want) matched parts with
  | Some m => if quoted then None else Some m
  | None => None
  end.

Definition matchesIfNoneMatch (fields : list gostring) (stored : gostring) : bool :=
  if match fields with [v] => string_eqb (TrimSpace v) (str "*") | _ => false end then true
  else
    match opaqueETag stored with
    | None => false
    | Some want => default false (foldl (etag_line want) (Some false) fields)
    end.

Definition notModified (rh : Header) (e : Entry) : bool :=
  let inm := header_Values rh (str "If-None-Match") in
  if negb (bool_decide (inm = [])) then matchesIfNoneMatch inm (ETag e)
  else
    match header_Values rh (str "If-Modified-Since") with
    | [ims] =>
        if bool_decide (LastModified e = []) then false
        else
          match ParseTime ims, ParseTime (LastModified e) with
          | Some t1, Some t2 => negb (t1 <? t2)
          | _, _ => false
          end
    | _ => false
    end.

Definition weak_prefix (s : gostring) : bool := HasPrefix s (str "W/") || HasPrefix s (str "w/").

(** [clock] is the time read when the entry has no creation time. *)
Definition ifRangeMatches (rh : Header) (e : Entry) (clock : Z) : bool :=
  match header_Values rh (str "If-Range") with
  | [v] =>
      let val := TrimString v in
      if bool_decide (val = []) then false
      else if weak_prefix val then false
      else if HasPrefix val [34] then
        if bool_decide (ETag e = []) || weak_prefix (ETag e) then false
        else match opaqueETag val, opaqueETag (ETag e) with Some a, Some b => string_eqb a b | _, _ => false end
      else if bool_decide (LastModified e = []) then false
      else
        let refNow := if IsZero (CreatedAt e) then clock else CreatedAt e in
        match parseCacheDate val refNow, parseCacheDate (TrimString (LastModified e)) refNow with
        | Some tReq, Some tEntry =>
            if negb (tReq =? tEntry) then false
            else
              match header_Values (e_Header e) (str "Date") with
              | [d] => match parseCacheDate (TrimString d) refNow with Some tDate => second <=? time_Sub tDate tEntry | None => false end
              | _ => false
              end
        | _, _ => false
        end
  | _ => false
  end.

(** ** The response *)

Record served := MkServed { sv_status : Z; sv_header : Header; sv_body : list Z }.

(** [Set] the first value of a field, [Add] the others. *)
Definition copy_field (h : Header) (k : gostring) (vs : list gostring) : Header :=
  match vs with
  | [] => h
  | v :: vs => foldl (fun h v => header_Add h k v) (header_Set h k v) vs
  end.

Definition copy_headers (skip : gostring -> bool) (stored h : Header) : Header :=
  foldl (fun h kv => if skip kv.1 then h else copy_field h kv.1 kv.2) h (map_to_list stored).

Definition isContentScopedHeader (k : gostring) : bool :=
  EqualFold k (str "Content-Digest") || EqualFold k (str "Content-MD5") || EqualFold k (str "Signature")
  || EqualFold k (str "Signature-Input").

(** The fields a 416 does not take from the stored response. *)
Definition unsatisfiable_skip (k : gostring) : bool :=
  EqualFold k (str "Content-Length") || EqualFold k (str "Content-Encoding") || EqualFold k (str "Content-Range")
  || isContentScopedHeader k.

(** The part of the content of a section reader. *)
Definition section (start len : Z) (content : list Z) : list Z := take (Z.to_nat len) (drop (Z.to_nat start) content).

(** [content] is the body the response is cut from, [h] the fields outer layers
    have set. *)
Definition serveRangeResponse (h : Header) (e : Entry) (spec : byteRangeSpec) (content : list Z) (state : gostring) (age : Z)
  (pol : CachePolicy) : served :=
  let totalLen := BodyLen e in
  match resolveByteRange spec totalLen with
  | None =>
      let h := strip_tags pol (copy_headers unsatisfiable_skip (e_Header e) h) in
      let h := header_Set h (str "Accept-Ranges") (str "bytes") in
      let h := header_Set h (str "Content-Range") (str "bytes */" ++ Itoa totalLen) in
      let h := header_Set h (str "Content-Length") (str "0") in
      let h := header_Set h (str "Age") (Itoa age) in
      MkServed 416 (header_Set h (str "X-Cache") state) []
  | Some (start, len) =>
      let h := strip_tags pol (copy_headers isContentScopedHeader (e_Header e) h) in
      let h := header_Set h (str "Accept-Ranges") (str "bytes") in
      let h := header_Set h (str "Content-Range")
                 (str "bytes " ++ Itoa start ++ 45 :: Itoa (start + len - 1) ++ 47 :: Itoa totalLen) in
      let h := header_Set h (str "Content-Length") (Itoa len) in
      let h := header_Set h (str "Age") (Itoa age) in
      MkServed 206 (header_Set h (str "X-Cache") state) (section start len content)
  end.

(** [int(d.Seconds())]: [Seconds] adds the whole seconds and the fraction as
    binary64 values, and the conversion drops the fraction. *)
Definition float_of (n : Z) : spec_float := binary_normalize 53 1024 n 0 false.

Definition float_trunc (f : spec_float) : Z :=
  match f with
  | S754_finite s m ex =>
      let a := if 0 <=? ex then Zpos m * 2 ^ ex else Zpos m / 2 ^ (- ex) in
      if s then - a else a
  | _ => 0
  end.

Definition int_seconds (d : Z) : Z :=
  float_trunc (SFadd 53 1024 (float_of (Z.quot d second)) (SFdiv 53 1024 (float_of (Z.rem d second)) (float_of second))).

Definition entry_age (e : Entry) (now : Z) : Z :=
  let age := int_seconds (time_Sub now (CreatedAt e)) in
  if age <? 0 then 0 else age.

(** [Cache.serve]: [disk] is what opening the disk body gives, [None] when that
    fails; [spec] is the range attached to the request.  No response is written
    when the body cannot be opened. *)
Definition serve (h : Header) (method : gostring) (rh : Header) (spec : option byteRangeSpec) (e : Entry) (disk : option (list Z))
  (state : gostring) (now clock : Z) (pol : CachePolicy) : option served :=
  let modified := negb (notModified rh e) in
  let head := string_eqb method (str "HEAD") in
  let opened := if modified && negb head && is_some (diskBody e) then disk else Some (Body e) in
  match opened with
  | None => None
  | Some content =>
      let age := entry_age e now in
      let full :=
        let h := strip_tags pol (copy_headers (fun _ => false) (e_Header e) h) in
        let h := header_Set h (str "Age") (Itoa age) in
        let h := header_Set h (str "X-Cache") state in
        if modified then MkServed (Status e) h (if head then [] else content) else MkServed 304 h [] in
      match spec with
      | Some spec =>
          if modified && string_eqb method (str "GET") && (Status e =? 200) then
            if BodyLen e =? 0 then Some full
            else if hasHeaderField rh (str "If-Range") && negb (ifRangeMatches rh e clock) then Some full
            else Some (serveRangeResponse h e spec content state age pol)
          else Some full
      | None => Some full
      end
  end.

(** ** Range requests *)

(** What [handleRangeRequest] does before it consults the cache. *)
Inductive rangePlan :=
  | RangeBypass
  | RangeFull (rh : Header)
  | RangeFallback
  | RangeLookup (spec : byteRangeSpec).

Definition planRange (method : gostring) (rh : Header) (pol : CachePolicy) : rangePlan :=
  if negb (string_eqb method (str "GET")) then RangeBypass
  else if rp_NoStore (parseRequestPolicy rh) then RangeBypass
  else if negb (hasHeaderField rh (str "Range")) then RangeFull (header_Del rh (str "If-Range"))
  else
    match parseRangeHeader (header_Values rh (str "Range")) (cp_MaxRanges pol) with
    | ParseBad => RangeBypass
    | ParseNonBytes | ParseMulti => RangeFallback
    | ParseSingle spec => RangeLookup spec
    end.

(** The request sent to fill the cache with the complete object. *)
Definition fillHeader (rh : Header) : Header :=
  del_all [str "Range"; str "If-Range"; str "If-None-Match"; str "If-Modified-Since"] rh.

Definition varyCompatibleWithModifiedRequest (h modified orig : Header) : bool :=
  forallb (fun name => negb (string_eqb name (str "*")) && string_eqb (varyRequestValue modified name) (varyRequestValue orig name))
    (varyFields h).

(** The check of the filling response's header. *)
Definition fillHeaderCheck (rh : Header) (code : Z) (h : Header) (now : Z) (pol : CachePolicy) : bool :=
  match ingest_tags h pol with
  | inl _ => false
  | inr _ =>
      (code =? 200) && negb (is_some (storageReason (fillHeader rh) code h now pol))
      && varyCompatibleWithModifiedRequest h (fillHeader rh) rh
  end.

(** The entry a fill publishes for the original request; the clock is read when
    the header arrives and again after the body. *)
Definition fillEntry (rh : Header) (status : Z) (h : Header) (body : list Z) (bodyLen : Z) (streamBacked : bool) (checked now : Z)
  (pol : CachePolicy) : option Entry :=
  if fillHeaderCheck rh status h checked pol then
    match buildEntryFromCapture (str "GET") (fillHeader rh) status h body bodyLen streamBacked now pol with
    | inr e => if matchesVary e rh then Some e else None
    | inl _ => None
    end
  else None.
End Serve.

(** ** Numbers and range texts *)

Lemma parse_dec_mono s n m : 0 <= n -> parse_dec s n = Some m -> n <= m.
Proof.
  revert n. induction s as [|c s IH]; intros n Hn; cbn [parse_dec]; [intros [= ->]; lia|].
  destruct (is_digit c) eqn:Hd; [|done]. unfold is_digit in Hd. intros E%IH; lia.
Qed.

(** The checked accumulation computes the plain one, up to 2^63. *)
Lemma decimal63_exact s n :
  0 <= n <= max_int64 -> decimal63 s n = (m ← parse_dec s n; if m <=? max_int64 then Some m else None).
Proof.
  revert n. induction s as [|c s IH]; intros n Hn; cbn [parse_dec decimal63 mbind option_bind].
  - by rewrite (proj2 (Z.leb_le _ _)) by lia.
  - destruct (is_digit c) eqn:Hd; [|done]. unfold is_digit in Hd.
    pose proof (Z.div_mod (max_int64 - (c - 48)) 10 ltac:(lia)) as D.
    pose proof (Z.mod_pos_bound (max_int64 - (c - 48)) 10 ltac:(lia)) as B.
    destruct (_ <? n) eqn:L.
    + destruct (parse_dec s _) as [m|] eqn:E; [|done]. apply parse_dec_mono in E; [|lia]. simpl.
      by rewrite (proj2 (Z.leb_gt _ _)) by lia.
    + apply IH. lia.
Qed.

Lemma decimal_aux_length fuel n acc : (length (decimal_aux fuel n acc) <= fuel + length acc)%nat.
Proof.
  revert n acc. induction fuel as [|fuel IH]; intros n acc; cbn [decimal_aux]; [simpl; lia|].
  destruct (n <? 10); [simpl; lia|]. etransitivity; [apply IH|]. simpl. lia.
Qed.

Lemma decimal_aux_fuel fuel k n acc :
  0 <= n < 10 ^ Z.of_nat fuel -> (0 < fuel)%nat -> decimal_aux (fuel + k) n acc = decimal_aux fuel n acc.
Proof.
  revert n acc. induction fuel as [|fuel IH]; intros n acc Hn Hf; [lia|]. cbn [decimal_aux Nat.add].
  destruct (n <? 10) eqn:E; [done|]. rewrite Nat2Z.inj_succ, Z.pow_succ_r in Hn by lia.
  destruct fuel; [change (10 ^ Z.of_nat 0) with 1 in Hn; lia|].
  apply IH; [|lia]. split; [apply Z.div_pos; lia|apply Z.div_lt_upper_bound; lia].
Qed.

Lemma FormatUint_nonnil n : FormatUint n <> [].
Proof.
  unfold FormatUint. enough (forall fuel m acc, acc <> [] -> decimal_aux fuel m acc <> []) as Ha.
  { change (decimal_aux 20 n []) with (if n <? 10 then [48 + n mod 10] else decimal_aux 19 (n / 10) [48 + n mod 10]).
    destruct (n <? 10); [done|by apply Ha]. }
  induction fuel as [|fuel IH]; intros m acc Hn; [done|]. cbn [decimal_aux]. destruct (m <? 10); [done|by apply IH].
Qed.

Lemma parseDecimalInt63_print n : 0 <= n <= max_int64 -> parseDecimalInt63 (FormatUint n) = Some n.
Proof.
  intros Hn. unfold parseDecimalInt63. rewrite bool_decide_false by apply FormatUint_nonnil. cbn [orb].
  assert (L : n < 10 ^ Z.of_nat 19) by (unfold max_int64 in Hn; lia).
  rewrite (proj2 (Z.ltb_ge _ _)).
  - rewrite decimal63_exact, FormatUint_parse by (unfold max_int64 in *; lia). simpl. by rewrite (proj2 (Z.leb_le _ _)) by lia.
  - unfold FormatUint. rewrite (decimal_aux_fuel 19 1) by lia. unfold zlen.
    pose proof (decimal_aux_length 19 n []) as Hl. change (19 + length [])%nat with 19%nat in Hl. lia.
Qed.

(** The text of a range, and the ranges a client may write. *)
Definition range_text (spec : byteRangeSpec) : gostring :=
  match spec with
  | RangePrefix first last => FormatUint first ++ 45 :: FormatUint last
  | RangeOpen first => FormatUint first ++ [45]
  | RangeSuffix suffix => 45 :: FormatUint suffix
  end.

Definition spec_ok (spec : byteRangeSpec) : Prop :=
  match spec with
  | RangePrefix first last => 0 <= first <= last /\ last <= max_int64
  | RangeOpen n | RangeSuffix n => 0 <= n <= max_int64
  end.

Lemma range_text_bytes spec c : c ∈ range_text spec -> is_digit c = true \/ c = 45.
Proof.
  destruct spec as [a b|a|a]; simpl; rewrite ?elem_of_app, ?elem_of_cons, ?elem_of_nil; intros Hc;
    naive_solver (eauto using FormatUint_digit).
Qed.

Lemma range_text_trim spec : TrimString (range_text spec) = range_text spec.
Proof.
  apply Trim_id, Forall_forall. intros c [Hd| ->]%range_text_bytes; [|done]. unfold is_digit in Hd. unfold textproto_space. lia.
Qed.

Lemma range_text_nonnil spec : range_text spec <> [].
Proof. destruct spec; simpl; [| |done]; intros [E _]%app_nil; by apply FormatUint_nonnil in E. Qed.

Lemma parse_range_text spec : spec_ok spec -> parseSingleByteRangeSpec (range_text spec) = Some spec.
Proof.
  unfold parseSingleByteRangeSpec. destruct spec as [a b|a|a]; simpl range_text; intros Hok.
  - destruct Hok as [Hab Hb]. rewrite CutByte_app by (by apply FormatUint_notin).
    pose proof (FormatUint_nonnil a) as Na. destruct (FormatUint a) as [|x l] eqn:Ea; [done|]. rewrite <- Ea.
    rewrite !parseDecimalInt63_print, bool_decide_false by (lia || apply FormatUint_nonnil).
    by rewrite (proj2 (Z.ltb_ge _ _)) by lia.
  - rewrite CutByte_app by (by apply FormatUint_notin).
    pose proof (FormatUint_nonnil a) as Na. destruct (FormatUint a) as [|x l] eqn:Ea; [done|]. rewrite <- Ea.
    by rewrite parseDecimalInt63_print by done.
  - cbn [CutByte]. rewrite Z.eqb_refl. by rewrite parseDecimalInt63_print by done.
Qed.

Lemma parseDecimalInt63_range s n : parseDecimalInt63 s = Some n -> 0 <= n <= max_int64.
Proof.
  unfold parseDecimalInt63. destruct (_ || _); [done|]. rewrite decimal63_exact by (unfold max_int64; lia).
  destruct (parse_dec s 0) as [m|] eqn:E; [|done]. apply parse_dec_mono in E; [|lia]. simpl.
  destruct (_ <=? _) eqn:L; [|done]. intros [= <-]. lia.
Qed.

Lemma parse_spec_ok s spec : parseSingleByteRangeSpec s = Some spec -> spec_ok spec.
Proof.
  unfold parseSingleByteRangeSpec. destruct (CutByte s 45) as [[b t] []]; [|by destruct b].
  destruct b as [|x b].
  - intros (n & E & ->)%fmap_Some. by apply parseDecimalInt63_range in E.
  - destruct (parseDecimalInt63 (x :: b)) as [f|] eqn:Ef; [|done]. apply parseDecimalInt63_range in Ef.
    case_bool_decide; [by intros [= <-]|]. destruct (parseDecimalInt63 t) as [l|] eqn:El; [|done].
    apply parseDecimalInt63_range in El. destruct (_ <? _) eqn:L; [done|]. intros [= <-]. simpl. lia.
Qed.

Lemma range_loop_texts (l : list byteRangeSpec) hardCap maxRanges k fs :
  Forall spec_ok l -> 0 <= k <= maxRanges -> maxRanges <= hardCap ->
  range_loop (map range_text l) hardCap maxRanges k k fs =
    if maxRanges <? k + Z.of_nat (length l) then None else Some (k + Z.of_nat (length l), if k =? 0 then match l with s :: _ => Some s | [] => fs end else fs).
Proof.
  intros HF. revert k fs. induction HF as [|s l Hs HF IH]; intros k fs Hk Hc; cbn [map range_loop].
  - cbn [length]. rewrite Z.add_0_r, (proj2 (Z.ltb_ge _ _)) by lia. by destruct (k =? 0).
  - rewrite range_text_trim, bool_decide_false by apply range_text_nonnil. cbn [length]. rewrite Nat2Z.inj_succ, <- Z.add_1_l.
    destruct (hardCap <? k + 1) eqn:L.
    { by rewrite (proj2 (Z.ltb_lt _ _)) by lia. }
    destruct (maxRanges <? k + 1) eqn:L'; [by rewrite (proj2 (Z.ltb_lt _ _)) by lia|].
    rewrite parse_range_text by done. rewrite IH by lia. replace (k + 1 + Z.of_nat (length l)) with (k + (1 + Z.of_nat (length l))) by lia.
    destruct (maxRanges <? _); [done|]. rewrite (proj2 (Z.eqb_neq (k + 1) 0)) by lia.
    replace (k + 1 =? 1) with (k =? 0) by lia. done.
Qed.

Lemma range_loop_ok parts hardCap maxRanges segments count fs n spec :
  (forall s, fs = Some s -> spec_ok s) -> range_loop parts hardCap maxRanges segments count fs = Some (n, Some spec) -> spec_ok spec.
Proof.
  revert segments count fs. induction parts as [|p parts IH]; intros segments count fs Hfs; cbn [range_loop].
  - intros [= <- ->]. by apply Hfs.
  - destruct (_ <? _); [done|]. case_bool_decide; [by apply IH|]. destruct (_ <? _); [done|].
    destruct (parseSingleByteRangeSpec _) as [s|] eqn:E; [|done]. apply IH. intros s'.
    destruct (_ =? 1); [intros [= <-]; by apply parse_spec_ok in E|apply Hfs].
Qed.

(** ** Bytes a range names *)

(** RFC 9110 14.1.2: the positions of a range in a representation of [total]
    bytes. *)
Definition selected (spec : byteRangeSpec) (total i : Z) : bool :=
  match spec with
  | RangePrefix first last => (first <=? i) && (i <=? last)
  | RangeOpen first => first <=? i
  | RangeSuffix suffix => total - suffix <=? i
  end.

(** The elements at the positions of [p], the first one at position [i]. *)
Fixpoint bytes_where (p : Z -> bool) (i : Z) (l : list Z) : list Z :=
  match l with
  | [] => []
  | b :: l => if p i then b :: bytes_where p (i + 1) l else bytes_where p (i + 1) l
  end.

Definition select (spec : byteRangeSpec) (content : list Z) : list Z := bytes_where (selected spec (zlen content)) 0 content.

Lemma bytes_where_none p i l : (forall j, i <= j < i + zlen l -> p j = false) -> bytes_where p i l = [].
Proof.
  revert i. induction l as [|b l IH]; intros i Hp; [done|]. cbn [bytes_where]. rewrite zlen_cons in Hp.
  pose proof (zlen_nonneg l). rewrite Hp by lia. apply IH. intros j Hj. apply Hp. lia.
Qed.

Lemma bytes_where_interval p a n l i :
  i <= a -> 0 <= n -> (forall j, i <= j < i + zlen l -> p j = (a <=? j) && (j <? a + n)) ->
  bytes_where p i l = section (a - i) n l.
Proof.
  unfold section. revert a n i. induction l as [|b l IH]; intros a n i Ha Hn Hp; [by rewrite drop_nil, take_nil|].
  rewrite zlen_cons in Hp. pose proof (zlen_nonneg l). cbn [bytes_where]. rewrite Hp by lia.
  destruct (decide (a = i)) as [->|].
  - rewrite Z.sub_diag. change (Z.to_nat 0) with 0%nat. destruct (decide (n = 0)) as [->|].
    + rewrite (proj2 (Z.ltb_ge i (i + 0))) by lia. rewrite andb_false_r. change (Z.to_nat 0) with 0%nat. rewrite take_0.
      apply bytes_where_none. intros j Hj. rewrite Hp by lia. lia.
    + rewrite (proj2 (Z.leb_le i i)), (proj2 (Z.ltb_lt i (i + n))) by lia. cbn [andb].
      rewrite (IH (i + 1) (n - 1)) by (try lia; intros j Hj; rewrite Hp by lia; lia).
      replace (i + 1 - (i + 1)) with 0 by lia. replace (Z.to_nat n) with (S (Z.to_nat (n - 1))) by lia. done.
  - rewrite (proj2 (Z.leb_gt a i)) by lia. cbn [andb].
    rewrite (IH a n) by (try lia; intros j Hj; apply Hp; lia).
    replace (Z.to_nat (a - i)) with (S (Z.to_nat (a - (i + 1)))) by lia. done.
Qed.

(** Resolving a range finds the positions it names. *)
Lemma resolve_select spec content :
  spec_ok spec ->
  match resolveByteRange spec (zlen content) with
  | None => select spec content = []
  | Some (start, len) =>
      0 <= start /\ 0 < len /\ start + len <= zlen content /\ select spec content = section start len content
  end.
Proof.
  intros Hok. unfold resolveByteRange. pose proof (zlen_nonneg content) as Hz.
  destruct (zlen content <=? 0) eqn:L0.
  { assert (content = []) as -> by (apply zlen_nil; lia). done. }
  assert (forall start len, 0 <= start -> 0 < len -> start + len <= zlen content ->
    (forall j, 0 <= j < zlen content -> selected spec (zlen content) j = (start <=? j) && (j <? start + len)) ->
    0 <= start /\ 0 < len /\ start + len <= zlen content /\ select spec content = section start len content) as Hs.
  { intros start len H1 H2 H3 H4. do 3 (split; [done|]). unfold select.
    rewrite (bytes_where_interval _ start len) by (try lia; intros j Hj; apply H4; lia). by rewrite Z.sub_0_r. }
  destruct spec as [a b|a|a]; simpl in Hok.
  - destruct (_ <=? a) eqn:La; [apply bytes_where_none; simpl; lia|].
    destruct (_ <=? b) eqn:Lb; apply Hs; simpl; lia.
  - destruct (_ <=? a) eqn:La; [apply bytes_where_none; simpl; lia|]. apply Hs; simpl; lia.
  - destruct (a <=? 0) eqn:La; [apply bytes_where_none; simpl; lia|].
    destruct (_ <=? a) eqn:Lb; apply Hs; simpl; lia.
Qed.

(** ** Responses to ranges *)

Section Ranges.
Context `{Unicode} `{Sfv} `{HttpGuts} `{Sha256} `{GoTime}.

Definition range_header (l : list byteRangeSpec) : gostring := str "bytes=" ++ JoinByte (map range_text l) 44.

Lemma JoinByte_elem c l d : c ∈ JoinByte l d -> c = d \/ exists x, x ∈ l /\ c ∈ x.
Proof.
  induction l as [|x l IH]; [by intros ?%elem_of_nil|]. destruct (decide (l = [])) as [->|Hl].
  - intros Hc. right. exists x. split; [by apply list_elem_of_here|done].
  - rewrite JoinByte_cons by done. rewrite elem_of_app, elem_of_cons. intros [Hc|[->|Hc]]; [|by left|].
    + right. exists x. split; [by apply list_elem_of_here|done].
    + destruct (IH Hc) as [->|(y & Hy & Hc')]; [by left|]. right. exists y. split; [by apply list_elem_of_further|done].
Qed.

Lemma join_texts_byte l c : c ∈ JoinByte (map range_text l) 44 -> is_digit c = true \/ c = 45 \/ c = 44.
Proof.
  intros [->|(x & Hx & Hc)]%JoinByte_elem; [tauto|]. apply list_elem_of_fmap in Hx as (s & -> & _).
  apply range_text_bytes in Hc. tauto.
Qed.

Lemma join_texts_trim l : TrimString (JoinByte (map range_text l) 44) = JoinByte (map range_text l) 44.
Proof.
  apply Trim_id, Forall_forall. intros c Hc%join_texts_byte. unfold textproto_space, is_digit in *.
  destruct Hc as [Hc|[->| ->]]; [lia|done|done].
Qed.

Lemma range_header_trim l : TrimString (range_header l) = range_header l.
Proof.
  apply Trim_id, Forall_app. split; [by repeat constructor|]. apply Forall_forall. intros c Hc%join_texts_byte.
  unfold textproto_space, is_digit in *. destruct Hc as [Hc|[->| ->]]; [lia|done|done].
Qed.

Lemma join_texts_nonnil l : l <> [] -> JoinByte (map range_text l) 44 <> [].
Proof.
  destruct l as [|s [|s' l]]; [done| |]; intros _; cbn [map]; [apply range_text_nonnil|].
  rewrite JoinByte_cons by done. intros [E _]%app_nil. by apply range_text_nonnil in E.
Qed.

Lemma split_texts l : l <> [] -> SplitByte (JoinByte (map range_text l) 44) 44 = map range_text l.
Proof.
  intros Hl. apply SplitByte_JoinByte; [by destruct l|]. apply Forall_forall. intros x Hx.
  apply list_elem_of_fmap in Hx as (s & -> & _). intros Hc%range_text_bytes. destruct Hc as [Hc|Hc]; [by vm_compute in Hc|done].
Qed.

(** A Range header that lists byte ranges is parsed as written: one range
    comes back exactly, a list within the configured bound is reported as
    several ranges, a longer one is refused; and any range the parser accepts,
    from whatever header, has ordered bounds below 2^63. *)
Theorem parseRangeHeader_roundtrip (l : list byteRangeSpec) (maxRanges : Z) :
  l <> [] -> Forall spec_ok l ->
  parseRangeHeader [range_header l] maxRanges =
    (if Z.max 1 maxRanges <? Z.of_nat (length l) then ParseBad
     else match l with [spec] => ParseSingle spec | _ => ParseMulti end) /\
  (forall values spec, parseRangeHeader values maxRanges = ParseSingle spec -> spec_ok spec).
Proof.
  intros Hl HF. split.
  - unfold parseRangeHeader. rewrite range_header_trim. unfold range_header.
    change (str "bytes=" ++ JoinByte (map range_text l) 44) with (str "bytes" ++ 61 :: JoinByte (map range_text l) 44).
    rewrite CutByte_app by (by apply (bool_decide_unpack _)). cbv beta zeta iota.
    change (isHTTPToken (str "bytes")) with true. change (EqualFold (str "bytes") (str "bytes")) with true. cbn [negb].
    rewrite join_texts_trim, bool_decide_false by (by apply join_texts_nonnil). rewrite split_texts by done.
    replace (if maxRanges <=? 0 then 1 else maxRanges) with (Z.max 1 maxRanges) by (destruct (_ <=? 0) eqn:?; lia).
    rewrite range_loop_texts by (done || lia || (destruct (_ <? maxRangeParserHardCap) eqn:?; lia)). rewrite Z.add_0_l.
    destruct (_ <? _) eqn:L; [done|]. destruct l as [|s [|s' l]]; [done|done|].
    cbn [length]. rewrite (proj2 (Z.eqb_neq _ 0)), (proj2 (Z.ltb_lt 1 _)) by lia. done.
  - intros values spec. unfold parseRangeHeader. destruct values as [|v []]; [done| |done].
    destruct (CutByte _ _) as [[u t] []]; [|done]. repeat (case_match; try done);
      intros [= <-]; (eapply range_loop_ok; [|eassumption]; done).
Qed.

(** *** Fields of the response *)

Lemma copy_field_lookup (h : Header) k vs name :
  CanonicalHeaderKey k <> name -> copy_field h k vs !! name = h !! name.
Proof.
  intros Hk. unfold copy_field. destruct vs as [|v vs]; [done|].
  enough (forall vs h, foldl (fun h v => header_Add h k v) h vs !! name = h !! name) as ->.
  { unfold header_Set. by rewrite lookup_insert_ne. }
  clear v vs h. induction vs as [|v vs IH]; intros h; [done|]. cbn [foldl]. rewrite IH. unfold header_Add. by rewrite lookup_insert_ne.
Qed.

(** A skipped name is left to the outer layers. *)
Lemma copy_headers_skipped (skip : gostring -> bool) (stored h : Header) name :
  (forall k, CanonicalHeaderKey k = name -> skip k = true) -> copy_headers skip stored h !! name = h !! name.
Proof.
  intros Hs. unfold copy_headers. revert h. induction (map_to_list stored) as [|kv l IH]; intros h; [done|]. cbn [foldl]. rewrite IH.
  destruct (skip kv.1) eqn:E; [done|]. apply copy_field_lookup. intros Hk%Hs. congruence.
Qed.

Lemma strip_tags_none (pol : CachePolicy) (h : Header) (name : gostring) : h !! name = None -> strip_tags pol h !! name = None.
Proof.
  intros Hn. unfold strip_tags. destruct (_ && _); [|done]. unfold stripConfiguredTagHeaders, del_all.
  revert h Hn. induction (cp_TagHeaders pol) as [|t l IH]; intros h Hn; [done|]. cbn [foldl]. apply IH.
  unfold header_Del. apply lookup_delete_None. by right.
Qed.

(** A stored name is its canonical form up to case. *)
Lemma canonical_fold k name t :
  CanonicalHeaderKey k = name -> ascii name = true -> ascii t = true -> lower_ascii name = lower_ascii t -> EqualFold k t = true.
Proof.
  unfold EqualFold. intros E Ha -> Hl. assert (ascii k = true /\ lower_ascii k = lower_ascii name) as [-> L].
  - unfold CanonicalHeaderKey in E. destruct (forallb token_byte k) eqn:Hk; [|by subst k].
    split; [by apply token_ascii|]. by rewrite <- E, lower_canonical_bytes.
  - apply bool_decide_eq_true. by rewrite L.
Qed.

(** The fields computed over the message content. *)
Definition contentScoped : list gostring := [str "Content-Digest"; str "Content-Md5"; str "Signature"; str "Signature-Input"].

Lemma content_scoped_skipped name k : name ∈ contentScoped -> CanonicalHeaderKey k = name -> isContentScopedHeader k = true.
Proof.
  intros Hn E. unfold isContentScopedHeader. rewrite !orb_true_iff. unfold contentScoped in Hn.
  repeat (apply elem_of_cons in Hn as [Hn|Hn]); [| | | |by apply elem_of_nil in Hn].
  - left; left; left. eapply (canonical_fold k _); [rewrite E; exact Hn|done..].
  - left; left; right. eapply (canonical_fold k _); [rewrite E; exact Hn|done..].
  - left; right. eapply (canonical_fold k _); [rewrite E; exact Hn|done..].
  - right. eapply (canonical_fold k _); [rewrite E; exact Hn|done..].
Qed.

(** What a range response promises about a part [part] of [content]. *)
Definition partial_response (content part : list Z) (r : served) : Prop :=
  header_Values (sv_header r) (str "Content-Length") = [Itoa (zlen part)] /\ sv_body r = part /\
  (if bool_decide (part = [])
   then sv_status r = 416 /\ header_Values (sv_header r) (str "Content-Range") = [str "bytes */" ++ Itoa (zlen content)]
   else sv_status r = 206 /\
     exists start, 0 <= start /\ part = section start (zlen part) content /\
       header_Values (sv_header r) (str "Content-Range") =
         [str "bytes " ++ Itoa start ++ 45 :: Itoa (start + zlen part - 1) ++ 47 :: Itoa (zlen content)]).

Lemma section_zlen start len content :
  0 <= start -> 0 <= len -> start + len <= zlen content -> zlen (section start len content) = len.
Proof. unfold section, zlen. intros. rewrite length_take, length_drop. lia. Qed.

Lemma serveRange_partial h e spec content state age pol :
  spec_ok spec -> BodyLen e = zlen content ->
  partial_response content (select spec content) (serveRangeResponse h e spec content state age pol).
Proof.
  intros Hok Hb. unfold serveRangeResponse. rewrite Hb. pose proof (resolve_select spec content Hok) as R.
  destruct (resolveByteRange _ _) as [[start len]|].
  - destruct R as (R1 & R2 & R3 & R4). pose proof (section_zlen start len content R1 ltac:(lia) R3) as L. rewrite R4.
    unfold partial_response. rewrite bool_decide_false by (intros E; rewrite E in L; change (zlen []) with 0 in L; lia).
    rewrite L. cbn [sv_header sv_body sv_status]. unfold header_Values. split; [by rewrite !set_field by done|].
    split; [done|]. split; [done|]. exists start. by rewrite !set_field by done.
  - rewrite R. unfold partial_response. cbn [sv_header sv_body sv_status]. rewrite bool_decide_true by done.
    unfold header_Values. by rewrite !set_field by done.
Qed.

Lemma serveRange_scoped h e spec content state age pol name :
  name ∈ contentScoped -> h !! name = None -> sv_header (serveRangeResponse h e spec content state age pol) !! name = None.
Proof.
  intros Hn Hh. unfold serveRangeResponse.
  assert (forall skip : gostring -> bool, (forall k, isContentScopedHeader k = true -> skip k = true) ->
    strip_tags pol (copy_headers skip (e_Header e) h) !! name = None) as HS.
  { intros skip Hs. apply strip_tags_none. rewrite copy_headers_skipped; [done|]. intros k Hk. by eapply Hs, content_scoped_skipped. }
  destruct (resolveByteRange _ _) as [[start len]|]; cbn [sv_header]; rewrite !set_field by done;
    repeat (case_decide; [subst name; by apply (bool_decide_pack _) in Hn|]); apply HS; [done|].
  intros k Hk. unfold unsatisfiable_skip. by rewrite Hk, orb_true_r.
Qed.
(** The bytes of a stored representation, in memory or read from disk. *)
Definition entry_content (e : Entry) (disk : option (list Z)) (content : list Z) : Prop :=
  match diskBody e with
  | None => content = Body e
  | Some n => disk = Some content /\ n = zlen content
  end.

(** C27: A range request answered from a stored 200 gets a response that fits the
    representation: 304 with no body when its precondition says the client has
    it, the complete body with 200 when the representation is empty or If-Range
    does not match it, and otherwise exactly the bytes at the positions the range
    names, as a 206 whose Content-Range and Content-Length describe them, or a
    416 when it names none.  A 206 or 416 carries no digest or signature of the
    complete message. *)
Theorem range_response_exact (h rh : Header) (spec : byteRangeSpec) (e : Entry) (disk : option (list Z)) (content : list Z)
  (state : gostring) (now clock : Z) (pol : CachePolicy) :
  spec_ok spec -> Status e = 200 -> entry_content e disk content ->
  exists r, serve h (str "GET") rh (Some spec) e disk state now clock pol = Some r /\
    if notModified rh e then sv_status r = 304 /\ sv_body r = []
    else if bool_decide (content = []) || (hasHeaderField rh (str "If-Range") && negb (ifRangeMatches rh e clock))
    then sv_status r = 200 /\ sv_body r = content
    else partial_response content (select spec content) r /\
         forall name, name ∈ contentScoped -> h !! name = None -> sv_header r !! name = None.
Proof.
  intros Hok Hs Hc. unfold serve. change (string_eqb (str "GET") (str "HEAD")) with false.
  change (string_eqb (str "GET") (str "GET")) with true. rewrite Hs. change (200 =? 200) with true. rewrite !andb_true_r. cbn [negb].
  destruct (notModified rh e); cbn [negb andb]; [eauto|].
  assert (BodyLen e = zlen content /\ (if is_some (diskBody e) then disk else Some (Body e)) = Some content) as [Hb ->].
  { unfold entry_content in Hc. unfold BodyLen. destruct (diskBody e); naive_solver. }
  rewrite Hb. case_bool_decide as E.
  - subst content. change (zlen [] =? 0) with true. cbn [orb]. eauto.
  - rewrite (proj2 (Z.eqb_neq _ 0)) by (by rewrite zlen_nil). cbn [orb]. destruct (_ && _); [eauto|].
    eexists. split; [done|]. split; [by apply serveRange_partial|]. intros name. apply serveRange_scoped.
Qed.

(** *** Filling on behalf of a range *)

Lemma vary_values_lookup rh vary name : name ∈ vary -> vary_values rh vary !! name = Some (varyRequestValue rh name).
Proof.
  unfold vary_values. induction vary as [|x vary IH] using rev_ind; [by intros ?%elem_of_nil|].
  rewrite foldl_app. cbn [foldl]. intros Hn. destruct (decide (x = name)) as [->|].
  - by rewrite lookup_insert_eq.
  - rewrite lookup_insert_ne by done. apply IH. set_solver.
Qed.

Lemma built_vary method rh status h body n streamed now pol e :
  buildEntryFromCapture method rh status h body n streamed now pol = inr e ->
  Status e = status /\ Vary e = varyFields h /\ VaryValues e = vary_values rh (varyFields h).
Proof. unfold buildEntryFromCapture. intros Hb. repeat (case_match; try done); injection Hb as <-; done. Qed.

(** A complete response fetched without the range and conditional fields is
    stored for exactly the requests that agree with the original one on what it
    varies by; the check after the build never discards it. *)
Lemma range_fill_reusable rh status h body n streamed checked now pol e :
  fillHeaderCheck rh status h checked pol = true ->
  buildEntryFromCapture (str "GET") (fillHeader rh) status h body n streamed now pol = inr e ->
  fillEntry rh status h body n streamed checked now pol = Some e /\ Status e = 200 /\
  forall rh', matchesVary e rh' = true <-> forall name, name ∈ varyFields h -> varyRequestValue rh' name = varyRequestValue rh name.
Proof.
  intros Hc Hb. unfold fillEntry. rewrite Hc, Hb. apply built_vary in Hb as (Es & Ev & Ex).
  assert (Hiff : forall rh', matchesVary e rh' = true <->
    forall name, name ∈ varyFields h -> varyRequestValue rh' name = varyRequestValue rh name).
  { intros rh'. unfold fillHeaderCheck in Hc. destruct (ingest_tags h pol); [done|]. apply andb_true_iff in Hc as [_ Hv].
    unfold varyCompatibleWithModifiedRequest in Hv. rewrite forallb_forall in Hv.
    unfold matchesVary. rewrite Ev, Ex, forallb_forall. setoid_rewrite <- list_elem_of_In. setoid_rewrite <- list_elem_of_In in Hv.
    apply forall_proper; intros name. split; intros Hm Hi; specialize (Hm Hi); specialize (Hv name Hi);
      rewrite andb_true_iff in *; destruct Hv as [Hv1 Hv2]; apply bool_decide_eq_true in Hv2.
    - destruct Hm as [_ Hm]. apply bool_decide_eq_true in Hm. rewrite vary_values_lookup in Hm by done. simpl in Hm. congruence.
    - split; [done|]. apply bool_decide_eq_true. rewrite vary_values_lookup by done. simpl. congruence. }
  rewrite (proj2 (Hiff rh)) by done. split; [done|]. split; [|done].
  unfold fillHeaderCheck in Hc. destruct (ingest_tags h pol); [done|]. rewrite !andb_true_iff in Hc. destruct Hc as [[Hc _] _].
  lia.
Qed.
End Ranges.

(** ** Concrete requests *)

Section Demo.
#[local] Existing Instance no_unicode.
#[local] Existing Instance demo_time.

Lemma parseRangeHeader_roundtrip_witness :
  parseRangeHeader [str "bytes=2-4"] 1 = ParseSingle (RangePrefix 2 4) /\
  parseRangeHeader [range_header [RangePrefix 0 1; RangeSuffix 2]] 4 = ParseMulti.
Proof.
  assert (HF : Forall spec_ok [RangePrefix 2 4]) by (repeat constructor; unfold max_int64; lia).
  assert (HG : Forall spec_ok [RangePrefix 0 1; RangeSuffix 2]) by (repeat constructor; unfold max_int64; lia).
  split.
  - exact (proj1 (parseRangeHeader_roundtrip [RangePrefix 2 4] 1 ltac:(discriminate) HF)).
  - exact (proj1 (parseRangeHeader_roundtrip [RangePrefix 0 1; RangeSuffix 2] 4 ltac:(discriminate) HG)).
Defined.

(** A stored body of six bytes. *)
Definition demo_body : Entry :=
  MkEntry None 200 {[ str "Content-Digest" := [str "d"] ]} [1; 2; 3; 4; 5; 6] None 0 0 0 (str "v1") [] false false false 0 false [] ∅ false [] [] [] 0 [] [] None.

Lemma range_response_exact_witness :
  exists r, serve ∅ (str "GET") ∅ (Some (RangeSuffix 2)) demo_body None (str "HIT") second 0 (demo_policy false) = Some r /\
    sv_body r = [5; 6] /\ sv_header r !! str "Content-Digest" = None.
Proof.
  destruct (range_response_exact ∅ ∅ (RangeSuffix 2) demo_body None [1; 2; 3; 4; 5; 6] (str "HIT") second 0 (demo_policy false))
    as (r & Hr & HP).
  - simpl. unfold max_int64. lia.
  - reflexivity.
  - reflexivity.
  - exists r. split; [exact Hr|]. change (notModified ∅ demo_body) with false in HP.
    change (bool_decide ([1; 2; 3; 4; 5; 6] = []) || (hasHeaderField ∅ (str "If-Range") && negb (ifRangeMatches ∅ demo_body 0))) with false in HP.
    destruct HP as [(_ & HB & _) HS]. split; [exact HB|]. apply HS; [by apply (bool_decide_unpack _)|reflexivity].
Defined.
End Demo.
