(* ===== verification/CacheFlight.v ===== *)
(** * Coalesced origin requests (src/internal/cache/fill.go, revalidate.go, validate.go)

    Concurrent misses on one key wait for the one request that fills it, and
    concurrent validations for the one that validates.  Both keep a table of the
    calls in flight: the first request registers a call and leads it, the others
    join it until it is finished.  The table is modelled once; the two protocols
    over it are interleavings of their critical sections.  What a lookup finds,
    what a fetch stores and when clients give up are the choices of the labels;
    a purge may detach calls from the table at any time. *)
From S2P Require Import Prelude GoStrings Netip CacheEntry CacheIdentity.

(** ** The table of calls *)

Section Flights.
Context {K R : Type} `{Countable K}.

(** [c.fills] or [c.calls]: the call a key is bound to, and for every call made
    so far what it was finished with, [None] before that. *)
Record flights := MkFlights { inflight : gmap K nat; calls : list (option R) }.

Definition no_flights : flights := MkFlights ∅ [].

(** [beginFill], [beginRevalidate]: the call and whether the caller leads it. *)
Definition begin_call (k : K) (f : flights) : flights * nat * bool :=
  match inflight f !! k with
  | Some c => (f, c, false)
  | None => let c := length (calls f) in (MkFlights (<[k := c]> (inflight f)) (calls f ++ [None]), c, true)
  end.

(** [endFill], [endRevalidate]: only the caller's own call is removed. *)
Definition end_call (k : K) (c : nat) (f : flights) : flights :=
  MkFlights (if decide (inflight f !! k = Some c) then delete k (inflight f) else inflight f) (calls f).

(** [finish], once. *)
Definition finish_call (c : nat) (r : R) (f : flights) : flights :=
  MkFlights (inflight f) (alter (fun o => Some (default r o)) c (calls f)).

Definition result (f : flights) (c : nat) : option R := mjoin (calls f !! c).

(** A purge drops the calls it matches from the table. *)
Definition detach_calls (hit : K -> bool) (f : flights) : flights :=
  MkFlights (filter (fun kc => hit kc.1 = false) (inflight f)) (calls f).

(** *** Who is responsible for a call

    A goroutine that leads a call has registered it under a key until it ends
    it ([holds]) and still has to finish it ([owes]). *)
Section Roles.
Context {P : Type} (leads : P -> option nat) (holds : P -> option (K * nat)) (owes waits : P -> option nat).
Context (holds_leads : forall p k c, holds p = Some (k, c) -> leads p = Some c).
Context (owes_leads : forall p c, owes p = Some c -> leads p = Some c).

Record flight_ok (f : flights) (ps : list P) : Prop := {
  fo_unique : forall t u p q c, ps !! t = Some p -> ps !! u = Some q -> leads p = Some c -> leads q = Some c -> t = u;
  fo_leads : forall t p c, ps !! t = Some p -> leads p = Some c -> (c < length (calls f))%nat;
  fo_waits : forall t p c, ps !! t = Some p -> waits p = Some c -> (c < length (calls f))%nat;
  fo_table : forall k c, inflight f !! k = Some c -> exists t p, ps !! t = Some p /\ holds p = Some (k, c);
  fo_owed : forall c, calls f !! c = Some None -> exists t p, ps !! t = Some p /\ owes p = Some c }.

(** Without purges a leader's call stays in the table until it ends it. *)
Definition flight_excl (f : flights) (ps : list P) : Prop :=
  forall t p k c, ps !! t = Some p -> holds p = Some (k, c) -> inflight f !! k = Some c.

Lemma fo_holder f ps t p k c u q :
  flight_ok f ps -> ps !! t = Some p -> leads p = Some c -> ps !! u = Some q -> holds q = Some (k, c) -> u = t /\ q = p.
Proof. intros [HU _ _ _ _] Ht Hp Hu Hq. assert (u = t) as -> by eauto. split; [done|]. congruence. Qed.

Lemma flight_init (p : P) n : leads p = None -> waits p = None -> flight_ok no_flights (replicate n p).
Proof.
  intros Hl Hw. split.
  - intros t u q q' c [-> _]%lookup_replicate. congruence.
  - intros t q c [-> _]%lookup_replicate. congruence.
  - intros t q c [-> _]%lookup_replicate. congruence.
  - intros k c. cbn. by rewrite lookup_empty.
  - intros c. done.
Qed.

(** What one goroutine's step leaves of the roles: calls keep their one leader,
    and whoever held or owed something still does. *)
Lemma unique_insert f ps t p p' :
  flight_ok f ps -> ps !! t = Some p -> (leads p' = leads p \/ leads p' = None) ->
  forall u v q q' c, <[t := p']> ps !! u = Some q -> <[t := p']> ps !! v = Some q' -> leads q = Some c -> leads q' = Some c -> u = v.
Proof.
  intros [HU _ _ _ _] Ht El u v q q' c Hu Hv Lq Lq'.
  apply list_lookup_insert_Some in Hu as [(-> & -> & _)|[_ Hu]], Hv as [(-> & -> & _)|[_ Hv]]; [done| | |by eauto];
    (destruct El as [El|El]; [|congruence]); rewrite El in *; eauto.
Qed.

Lemma range_insert (g : P -> option nat) (ps : list P) (t : nat) p' n :
  (forall u q c, ps !! u = Some q -> g q = Some c -> (c < n)%nat) -> (forall c, g p' = Some c -> (c < n)%nat) ->
  forall u q c, <[t := p']> ps !! u = Some q -> g q = Some c -> (c < n)%nat.
Proof. intros HL Hp u q c [(-> & -> & _)|[_ Hu]]%list_lookup_insert_Some; eauto. Qed.

Lemma role_insert {X} (g : P -> option X) (ps : list P) (t : nat) p p' x :
  ps !! t = Some p -> (g p = Some x -> g p' = Some x) ->
  (exists u q, ps !! u = Some q /\ g q = Some x) -> exists u q, <[t := p']> ps !! u = Some q /\ g q = Some x.
Proof.
  intros Ht Hg (u & q & Hu & Hq). destruct (decide (u = t)) as [->|Hn].
  - exists t, p'. rewrite list_lookup_insert_eq by (by eapply lookup_lt_Some). split; [done|]. apply Hg. congruence.
  - exists u, q. by rewrite list_lookup_insert_ne.
Qed.

(** A goroutine goes on without touching the table. *)
Lemma flight_move f ps t p p' :
  flight_ok f ps -> ps !! t = Some p ->
  (leads p' = leads p \/ leads p' = None) -> holds p' = holds p -> owes p' = owes p ->
  (forall c, waits p' = Some c -> (c < length (calls f))%nat) -> flight_ok f (<[t := p']> ps).
Proof.
  intros Hok Ht El Eh Eo Ew. pose proof Hok as [HU HL HW HT HO]. split.
  - by eapply unique_insert.
  - eapply range_insert; [exact HL|]. intros c Hc. destruct El as [El|El]; [|congruence]. rewrite El in Hc. eauto.
  - by eapply range_insert.
  - intros k c Hk. eapply role_insert; [done|by rewrite Eh|eauto].
  - intros c Hc. eapply role_insert; [done|by rewrite Eo|eauto].
Qed.

(** The first request of a key leads a new call. *)
Lemma flight_begin f ps t p p' k :
  flight_ok f ps -> ps !! t = Some p -> holds p = None -> owes p = None ->
  leads p' = Some (length (calls f)) -> holds p' = Some (k, length (calls f)) -> owes p' = Some (length (calls f)) -> waits p' = None ->
  inflight f !! k = None -> flight_ok (begin_call k f).1.1 (<[t := p']> ps).
Proof.
  intros [HU HL HW HT HO] Ht Hp Hp' El Eh Eo Ew Hk. unfold begin_call. rewrite Hk. cbn [fst].
  assert (Hself : <[t := p']> ps !! t = Some p') by (apply list_lookup_insert_eq; by eapply lookup_lt_Some).
  split; cbn [inflight calls]; rewrite ?length_app; cbn [length].
  - intros u v q q' c Hu Hv Lq Lq'. apply list_lookup_insert_Some in Hu as [(-> & -> & _)|[Hne Hu]], Hv as [(-> & -> & _)|[Hne' Hv]]; try done.
    + pose proof (HL v q' c Hv Lq'). rewrite El in Lq. simplify_eq. lia.
    + pose proof (HL u q c Hu Lq). rewrite El in Lq'. simplify_eq. lia.
    + eauto.
  - eapply range_insert; [|intros c Hc; simplify_eq; lia]. intros u q c Hu Lq. pose proof (HL u q c Hu Lq). lia.
  - eapply range_insert; [|congruence]. intros u q c Hu Wq. pose proof (HW u q c Hu Wq). lia.
  - intros k' c [(<- & <-)|[_ Hk']]%lookup_insert_Some; [eauto|]. eapply role_insert; [done|congruence|eauto].
  - intros c [Hc|[Hc Hn]]%lookup_app_Some; [eapply role_insert; [done|congruence|eauto]|].
    exists t, p'. split; [done|]. apply list_lookup_singleton_Some in Hn as [Hn _]. rewrite Eo. f_equal. lia.
Qed.

(** A leader takes its call out of the table; a late cleanup changes nothing. *)
Lemma flight_end f ps t p p' k c :
  flight_ok f ps -> ps !! t = Some p -> leads p = Some c -> (forall k', holds p = Some (k', c) -> k' = k) ->
  leads p' = Some c -> owes p' = owes p -> waits p' = None -> flight_ok (end_call k c f) (<[t := p']> ps).
Proof.
  intros Hok Ht Lp Hkey El Eo Ew. pose proof Hok as [HU HL HW HT HO]. split; cbn [calls end_call].
  - eapply unique_insert; [done..|]. left. congruence.
  - eapply range_insert; [exact HL|]. intros d Hd. eapply HL; [exact Ht|]. congruence.
  - eapply range_insert; [exact HW|congruence].
  - unfold end_call. cbn. intros k' c' E.
    assert (inflight f !! k' = Some c' /\ (k', c') <> (k, c)) as [Hin Hne].
    { case_decide as D; [apply lookup_delete_Some in E as [Hne E]; split; [done|congruence]|]. split; [done|]. by intros [= -> ->]. }
    eapply role_insert; [done| |eauto]. intros Hq. exfalso. rewrite (holds_leads _ _ _ Hq) in Lp. simplify_eq. apply Hne. f_equal. by apply Hkey.
  - intros d Hd. eapply role_insert; [done|by rewrite Eo|eauto].
Qed.

(** Finishing a call pays the debt. *)
Lemma flight_finish f ps t p p' c r :
  flight_ok f ps -> ps !! t = Some p -> leads p = Some c ->
  (leads p' = Some c \/ leads p' = None) -> holds p' = holds p -> waits p' = None ->
  flight_ok (finish_call c r f) (<[t := p']> ps).
Proof.
  intros Hok Ht Lp El Eh Ew. pose proof Hok as [HU HL HW HT HO]. rewrite <- Lp in El.
  split; cbn [inflight calls finish_call]; rewrite ?length_alter.
  - by eapply unique_insert.
  - eapply range_insert; [exact HL|]. intros d Hd. destruct El as [El|El]; [|congruence]. rewrite El in Hd. eauto.
  - eapply range_insert; [exact HW|congruence].
  - intros k d Hk. eapply role_insert; [done|by rewrite Eh|eauto].
  - intros d Hd. rewrite list_lookup_alter in Hd. case_decide as D; [subst; by destruct (calls f !! d) as [[]|]; simplify_eq/=|].
    eapply role_insert; [done| |eauto]. intros Hq%owes_leads. congruence.
Qed.

(** A purge only shrinks the table. *)
Lemma flight_detach f ps hit : flight_ok f ps -> flight_ok (detach_calls hit f) ps.
Proof.
  intros [HU HL HW HT HO]. split; try done. cbn. intros k c [Hk _]%map_lookup_filter_Some. eauto.
Qed.

(** A finished call stays finished, and one nobody owes stays open. *)
Lemma result_finish f c d r x : result f d = Some x -> result (finish_call c r f) d = Some x.
Proof.
  unfold result. cbn. rewrite list_lookup_alter. case_decide as D; [subst|done]. by destruct (calls f !! d) as [[]|].
Qed.

(** *** Exclusion, as long as nothing is detached *)

Lemma excl_move f g ps t p p' :
  flight_excl f ps -> inflight g = inflight f -> ps !! t = Some p -> (holds p' = holds p \/ holds p' = None) ->
  flight_excl g (<[t := p']> ps).
Proof.
  intros HX Eg Ht Eh u q k c [(-> & -> & _)|[_ Hu]]%list_lookup_insert_Some Hq; rewrite Eg; [|by eauto].
  destruct Eh as [Eh|Eh]; [|congruence]. rewrite Eh in Hq. eauto.
Qed.

Lemma excl_begin f ps t p' k :
  flight_excl f ps -> inflight f !! k = None -> holds p' = Some (k, length (calls f)) ->
  flight_excl (begin_call k f).1.1 (<[t := p']> ps).
Proof.
  intros HX Hk Eh u q k' c Hu Hq. unfold begin_call. rewrite Hk. cbn.
  apply list_lookup_insert_Some in Hu as [(-> & -> & _)|[_ Hu]].
  - rewrite Eh in Hq. simplify_eq. by rewrite lookup_insert_eq.
  - pose proof (HX u q k' c Hu Hq) as E. rewrite lookup_insert_ne by congruence. done.
Qed.

Lemma excl_end f ps t p p' k c :
  flight_ok f ps -> flight_excl f ps -> ps !! t = Some p -> leads p = Some c -> holds p' = None ->
  flight_excl (end_call k c f) (<[t := p']> ps).
Proof.
  intros Hok HX Ht Lp Eh u q k' c' [(-> & -> & _)|[Hne Hu]]%list_lookup_insert_Some Hq; [congruence|].
  pose proof (HX u q k' c' Hu Hq) as E. cbn. case_decide as D; [|done]. rewrite lookup_delete_ne; [done|].
  intros ->. simplify_eq. apply Hne. symmetry. eapply (fo_unique _ _ Hok); eauto.
Qed.

(** Two leaders of one key are one. *)
Lemma excl_one f ps t u p q k c d :
  flight_ok f ps -> flight_excl f ps -> ps !! t = Some p -> ps !! u = Some q ->
  holds p = Some (k, c) -> holds q = Some (k, d) -> t = u.
Proof.
  intros Hok HX Ht Hu Hp Hq. pose proof (HX _ _ _ _ Ht Hp) as E. pose proof (HX _ _ _ _ Hu Hq) as E'. simplify_eq.
  eapply (fo_unique _ _ Hok); eauto.
Qed.
End Roles.
End Flights.
Arguments flights K R {_ _} : assert.

(** *** Running one goroutine to the end of its call *)

Section Completes.
Context {St Lb P : Type} (exec : St -> Lb -> option St) (threads : St -> list P) (finished : St -> Prop) (u : nat).

(** In at most [k] steps of goroutine [u] alone. *)
Definition completes (k : nat) (s : St) : Prop :=
  exists tr s', trace exec s tr s' /\ (length tr <= k)%nat /\ finished s' /\ forall t, t <> u -> threads s' !! t = threads s !! t.

Lemma completes_now k s : finished s -> completes k s.
Proof. intros Hf. exists [], s. split_and!; [constructor|cbn; lia|done|done]. Qed.

Lemma completes_step k s l p s1 :
  exec s l = Some s1 -> threads s1 = <[u := p]> (threads s) -> completes k s1 -> completes (S k) s.
Proof.
  intros E Et (tr & s' & T & L & F & O). exists (l :: tr), s'. split_and!; [by econstructor|cbn; lia|done|].
  intros t Ht. rewrite O, Et by done. by rewrite list_lookup_insert_ne.
Qed.

Lemma completes_le k m s : completes k s -> (k <= m)%nat -> completes m s.
Proof. intros (tr & s' & T & L & F & O) Hk. exists tr, s'. split_and!; [done|lia|done|done]. Qed.
End Completes.

(** ** Filling a cold key (fill.go) *)

Section LockKey.
Context `{Sha256}.

Definition hashKey (k : gostring) : gostring := hex_string (sha256 k).

Definition fillLockKey (base effKey : gostring) : gostring :=
  if bool_decide (effKey = base) then base else base ++ 0 :: hashKey effKey.

Definition fillLockKeyForPolicy (base effKey : gostring) (pol : CachePolicy) : gostring :=
  let fk := fillLockKey base effKey in
  if bool_decide (cp_RouteScope pol = []) && negb (cp_HasRouteDefaultTTL pol) && negb (cp_HasMaxTTL pol)
     && negb (cp_HasRouteSWR pol) && negb (cp_HasRouteSIE pol) && negb (bypasses pol)
  then fk
  else fk ++ 0 :: str "p:" ++ routeConfigDigest pol.
End LockKey.

Section Fill.
Context `{Sha256}.

(** A request of the locked cache: its primary key and its policy. *)
Record fillRequest := MkFillRequest { fr_base : gostring; fr_pol : CachePolicy }.

Inductive fillOutcome := fillServed | fillStored (b : bool) | fillReused | fillTimeout | fillCanceled | fillPanicked.

(** Where a request is: before [fillOrWait]; as the leader, repeating the lookup,
    fetching, running [release] in two steps ([final] when the handler returns
    afterwards, [again] when it has run before), or streaming on after an early release; as a waiter, woken up,
    or repeating the lookup; fetching for itself; done. *)
Inductive fillPc :=
| FIdle
| FRecheck (q : fillRequest) (fk : gostring) (c : nat)
| FFetch (fk : gostring) (c : nat)
| FEnding (fk : gostring) (c : nat) (stored final again : bool)
| FFinishing (fk : gostring) (c : nat) (stored final again : bool)
| FTail (fk : gostring) (c : nat)
| FWait (q : fillRequest) (fk : gostring) (c : nat) (retry : bool)
| FWoken (q : fillRequest) (fk : gostring) (c : nat) (retry : bool)
| FLookup (q : fillRequest) (fk : gostring) (retry : bool)
| FOwn
| FDone (o : fillOutcome).

Inductive fillLabel :=
| FBegin (t : nat) (q : fillRequest) (effKey : gostring)
| FServed (t : nat)
| FMissed (t : nat) (latest : gostring)
| FRecheckPanic (t : nat)
| FAbandon (t : nat)
| FReturn (t : nat) (stored : bool)
| FEnd (t : nat)
| FFinish (t : nat)
| FWake (t : nat)
| FCancel (t : nat)
| FTimeout (t : nat)
| FRead (t : nat)
| FFetched (t : nat) (stored : bool)
| FDetach (hit : gostring -> bool).

Record fillState := MkFill { fills : flights gostring bool; requests : list fillPc }.

Definition goto (t : nat) (p : fillPc) (f : flights gostring bool) (s : fillState) : option fillState :=
  Some (MkFill f (<[t := p]> (requests s))).

(** [fillOrWait]: [beginFill], then the leader's or the waiter's part. *)
Definition fillOrWait (t : nat) (q : fillRequest) (effKey : gostring) (retry : bool) (s : fillState) : option fillState :=
  let fk := fillLockKeyForPolicy (fr_base q) effKey (fr_pol q) in
  let '(f, c, leader) := begin_call fk (fills s) in
  goto t (if leader then FRecheck q fk c else FWait q fk c retry) f s.

(** What [awaitFill] does when the completed fill cannot serve the request. *)
Definition not_reusable (t : nat) (q : fillRequest) (fk : gostring) (retry : bool) (latest : gostring) (s : fillState) : option fillState :=
  if retry && negb (bool_decide (latest = fr_base q))
     && negb (bool_decide (fillLockKeyForPolicy (fr_base q) latest (fr_pol q) = fk))
  then fillOrWait t q latest false s
  else goto t FOwn (fills s) s.

Definition fill_exec (s : fillState) (l : fillLabel) : option fillState :=
  match l with
  | FBegin t q effKey =>
      match requests s !! t with
      | Some FIdle => fillOrWait t q effKey (bool_decide (effKey = fr_base q)) s
      | _ => None
      end
  | FServed t =>
      match requests s !! t with
      | Some (FRecheck q fk c) => goto t (FEnding fk c true true false) (fills s) s
      | Some (FLookup q fk retry) => goto t (FDone fillReused) (fills s) s
      | _ => None
      end
  | FMissed t latest =>
      match requests s !! t with
      | Some (FRecheck q fk c) => goto t (FFetch fk c) (fills s) s
      | Some (FLookup q fk retry) => not_reusable t q fk retry latest s
      | _ => None
      end
  | FRecheckPanic t => match requests s !! t with Some (FRecheck q fk c) => goto t (FDone fillPanicked) (fills s) s | _ => None end
  | FAbandon t =>
      match requests s !! t with
      | Some (FFetch fk c) => goto t (FEnding fk c false false false) (fills s) s
      | Some (FTail fk c) => goto t (FEnding fk c false false true) (fills s) s
      | _ => None
      end
  | FReturn t stored =>
      match requests s !! t with
      | Some (FFetch fk c) => goto t (FEnding fk c stored true false) (fills s) s
      | Some (FTail fk c) => goto t (FEnding fk c stored true true) (fills s) s
      | _ => None
      end
  | FEnd t =>
      match requests s !! t with
      | Some (FEnding fk c stored final again) => goto t (FFinishing fk c stored final again) (end_call fk c (fills s)) s
      | _ => None
      end
  | FFinish t =>
      match requests s !! t with
      | Some (FFinishing fk c stored final again) =>
          goto t (if final then FDone (fillStored stored) else FTail fk c) (finish_call c stored (fills s)) s
      | _ => None
      end
  | FWake t =>
      match requests s !! t with
      | Some (FWait q fk c retry) => if result (fills s) c then goto t (FWoken q fk c retry) (fills s) s else None
      | _ => None
      end
  | FCancel t =>
      match requests s !! t with
      | Some (FWait q fk c retry) | Some (FWoken q fk c retry) => goto t (FDone fillCanceled) (fills s) s
      | _ => None
      end
  | FTimeout t => match requests s !! t with Some (FWait q fk c retry) => goto t (FDone fillTimeout) (fills s) s | _ => None end
  | FRead t =>
      match requests s !! t with
      | Some (FWoken q fk c retry) =>
          goto t (if default false (result (fills s) c) then FLookup q fk retry else FOwn) (fills s) s
      | _ => None
      end
  | FFetched t stored => match requests s !! t with Some FOwn => goto t (FDone (fillStored stored)) (fills s) s | _ => None end
  | FDetach hit => Some (MkFill (detach_calls hit (fills s)) (requests s))
  end.

Definition fill_init (n : nat) : fillState := MkFill no_flights (replicate n FIdle).

(** The roles of a request. *)
Definition f_leads (p : fillPc) : option nat :=
  match p with
  | FRecheck _ _ c | FFetch _ c | FEnding _ c _ _ _ | FFinishing _ c _ _ _ | FTail _ c => Some c
  | _ => None
  end.

Definition f_holds (p : fillPc) : option (gostring * nat) :=
  match p with
  | FRecheck _ fk c | FFetch fk c | FEnding fk c _ _ false => Some (fk, c)
  | _ => None
  end.

Definition f_owes (p : fillPc) : option nat :=
  match p with
  | FRecheck _ _ c | FFetch _ c | FEnding _ c _ _ false | FFinishing _ c _ _ false => Some c
  | _ => None
  end.

Definition f_waits (p : fillPc) : option nat :=
  match p with FWait _ _ c _ | FWoken _ _ c _ => Some c | _ => None end.

Lemma f_holds_leads p k c : f_holds p = Some (k, c) -> f_leads p = Some c.
Proof. destruct p as [| | |? ? ? ? []| | | | | | |]; cbn; congruence. Qed.

Lemma f_owes_leads p c : f_owes p = Some c -> f_leads p = Some c.
Proof. destruct p as [| | |? ? ? ? []|? ? ? ? []| | | | | |]; cbn; congruence. Qed.

Definition fill_ok (s : fillState) : Prop := flight_ok f_leads f_holds f_owes f_waits (fills s) (requests s).
Definition fill_excl (s : fillState) : Prop := flight_excl f_holds (fills s) (requests s).

Lemma fillOrWait_ok t q effKey retry p s s' :
  requests s !! t = Some p -> f_holds p = None -> f_owes p = None -> f_leads p = None -> fillOrWait t q effKey retry s = Some s' ->
  fill_ok s -> fill_ok s' /\ (fill_excl s -> fill_excl s').
Proof.
  intros Ht Hh Ho Hl E Hok. unfold fillOrWait in E. set (fk := fillLockKeyForPolicy _ _ _) in *.
  destruct (inflight (fills s) !! fk) as [c|] eqn:Ek; unfold begin_call in E; rewrite Ek in E; injection E as <-.
  - assert (c < length (calls (fills s)))%nat.
    { destruct (fo_table _ _ _ _ _ _ Hok fk c Ek) as (u & p' & Hu & Hp'). eapply (fo_leads _ _ _ _ _ _ Hok); [exact Hu|]. by eapply f_holds_leads. }
    split; [|intros HX; eapply excl_move; [done|done|exact Ht|by left]].
    eapply flight_move; [exact Hok|exact Ht|by left|done|done|]. by intros d [= <-].
  - pose proof (flight_begin f_leads f_holds f_owes f_waits (fills s) (requests s) t p (FRecheck q fk (length (calls (fills s)))) fk) as HB.
    pose proof (excl_begin f_holds (fills s) (requests s) t (FRecheck q fk (length (calls (fills s)))) fk) as HE.
    unfold begin_call in HB, HE. rewrite Ek in HB, HE. split; [by apply HB|]. intros HX. by apply HE.
Qed.

(** Steps that only move a request, keeping what it holds and owes. *)
Lemma goto_ok t p p' s :
  requests s !! t = Some p -> (f_leads p' = f_leads p \/ f_leads p' = None) -> f_holds p' = f_holds p -> f_owes p' = f_owes p ->
  (f_waits p' = f_waits p \/ f_waits p' = None) -> fill_ok s ->
  forall s', goto t p' (fills s) s = Some s' -> fill_ok s' /\ (fill_excl s -> fill_excl s').
Proof.
  intros Ht El Eh Eo Ew Hok s' [= <-]. split; [|intros HX; eapply excl_move; [done|done|exact Ht|by left]].
  eapply flight_move; [exact Hok|exact Ht|done|done|done|]. intros c Hc. destruct Ew as [Ew|Ew]; [|congruence].
  rewrite Ew in Hc. by eapply (fo_waits _ _ _ _ _ _ Hok).
Qed.

(** The label by which the leader's repeated lookup panics. *)
Definition is_recheck_panic (l : fillLabel) : bool := match l with FRecheckPanic _ => true | _ => false end.
Definition is_detach (l : fillLabel) : bool := match l with FDetach _ => true | _ => false end.

Lemma fill_step s l s' :
  is_recheck_panic l = false -> fill_exec s l = Some s' -> fill_ok s ->
  fill_ok s' /\ (is_detach l = false -> fill_excl s -> fill_excl s').
Proof.
  intros Hl E Hok.
  assert (HG : forall t p p', requests s !! t = Some p -> (f_leads p' = f_leads p \/ f_leads p' = None) -> f_holds p' = f_holds p ->
    f_owes p' = f_owes p -> (f_waits p' = f_waits p \/ f_waits p' = None) -> goto t p' (fills s) s = Some s' ->
    fill_ok s' /\ (is_detach l = false -> fill_excl s -> fill_excl s')).
  { intros t p p' Ht E1 E2 E3 E4 E5. destruct (goto_ok t p p' s Ht E1 E2 E3 E4 Hok s' E5) as [H1 H2]. auto. }
  assert (HF : forall t p q effKey retry, requests s !! t = Some p -> f_holds p = None -> f_owes p = None -> f_leads p = None ->
    fillOrWait t q effKey retry s = Some s' -> fill_ok s' /\ (is_detach l = false -> fill_excl s -> fill_excl s')).
  { intros t p q effKey retry Ht E1 E2 E3 E4. destruct (fillOrWait_ok t q effKey retry p s s' Ht E1 E2 E3 E4 Hok). auto. }
  destruct l as [t q effKey|t|t latest|t|t|t stored|t|t|t|t|t|t|t stored|hit]; cbn in E; try done.
  13: { injection E as <-. split; [by apply flight_detach|done]. }
  all: destruct (requests s !! t) as [[]|] eqn:Ht; try done.
  all: try (by eapply HF; [exact Ht|..]).
  all: try (by eapply HG; [exact Ht|..|exact E]; auto).
  - unfold not_reusable in E. destruct (_ && _); [by eapply HF; [exact Ht|..]|by eapply HG; [exact Ht|..|exact E]; auto].
  - injection E as <-. pose proof (f_holds_leads) as HHL. split.
    + eapply flight_end; [exact HHL|exact Hok|exact Ht|done| |done|by destruct again|done]. destruct again; cbn; congruence.
    + intros _ HX. eapply excl_end; [exact HHL|exact Hok|exact HX|exact Ht|done|done].
  - injection E as <-. split.
    + eapply flight_finish; [exact f_owes_leads|exact Hok|exact Ht|done|destruct final; auto|by destruct final, again|by destruct final].
    + intros _ HX. eapply excl_move; [exact HX|done|exact Ht|]. destruct final; auto.
  - destruct (result _ _) eqn:Er; [|done]. eapply HG; [exact Ht|..|exact E]; auto.
  - eapply HG; [exact Ht|..|exact E]; destruct (default _ _); auto.
Qed.

Lemma fill_trace s tr s' :
  trace fill_exec s tr s' -> Forall (fun l => is_recheck_panic l = false) tr -> fill_ok s ->
  fill_ok s' /\ (Forall (fun l => is_detach l = false) tr -> fill_excl s -> fill_excl s').
Proof.
  induction 1 as [|s l s1 tr s2 E T IH]; [done|]. intros [Hl Htr]%Forall_cons Hok.
  destruct (fill_step _ _ _ Hl E Hok) as [H1 X1]. destruct (IH Htr H1) as [H2 X2]. split; [done|].
  intros [Hd Hds]%Forall_cons HX. auto.
Qed.

(** Calls a request may still lead. *)
Definition credit (p : fillPc) : Z :=
  match p with
  | FIdle => 1
  | FWait _ _ _ retry | FWoken _ _ _ retry | FLookup _ _ retry => if retry then 1 else 0
  | _ => 0
  end.

Definition fill_spent (n : nat) (s : fillState) : Prop :=
  Z.of_nat (length (calls (fills s))) + total credit (requests s) <= Z.of_nat n.

Lemma goto_spent n t p p' f s s' :
  requests s !! t = Some p -> Z.of_nat (length (calls f)) + credit p' <= Z.of_nat (length (calls (fills s))) + credit p ->
  goto t p' f s = Some s' -> fill_spent n s -> fill_spent n s'.
Proof. intros Ht Hc [= <-] Hs. unfold fill_spent in *. cbn. rewrite (total_insert _ _ _ _ _ Ht). lia. Qed.

Lemma fillOrWait_spent n t q effKey retry p s s' :
  requests s !! t = Some p -> credit p = 1 -> fillOrWait t q effKey retry s = Some s' -> fill_spent n s -> fill_spent n s'.
Proof.
  intros Ht Hp. unfold fillOrWait, begin_call. destruct (inflight _ !! _); apply goto_spent with (p := p); try done; cbn.
  - destruct retry; lia.
  - rewrite length_app. cbn. lia.
Qed.

Lemma fill_spent_step n s l s' : fill_exec s l = Some s' -> fill_spent n s -> fill_spent n s'.
Proof.
  intros E. destruct l as [t q effKey|t|t latest|t|t|t stored|t|t|t|t|t|t|t stored|hit]; cbn in E; [..|by injection E as <-].
  all: destruct (requests s !! t) as [[]|] eqn:Ht; try done.
  all: try (by eapply fillOrWait_spent; [exact Ht|..|exact E]).
  all: try (eapply goto_spent; [exact Ht| |exact E]; cbn; try destruct final; try destruct retry; try destruct (default _ _); cbn; rewrite ?length_alter; lia).
  - unfold not_reusable in E. destruct retry; cbn in E.
    + destruct (_ && _); [by eapply fillOrWait_spent; [exact Ht|..|exact E]|]. eapply goto_spent; [exact Ht| |exact E]. cbn. lia.
    + eapply goto_spent; [exact Ht| |exact E]. cbn. lia.
  - destruct (result _ _); [|done]. eapply goto_spent; [exact Ht| |exact E]. done.
Qed.

(** A leader alone can always finish its call, in at most four steps. *)
Definition finishable (u c k : nat) (s : fillState) : Prop :=
  completes fill_exec requests (fun s => is_Some (result (fills s) c)) u k s.

Lemma finish_result {K R} `{Countable K} (f : flights K R) c r :
  (c < length (calls f))%nat -> is_Some (result (finish_call c r f) c).
Proof. intros Hc. unfold result. cbn. rewrite list_lookup_alter_eq. destruct (lookup_lt_is_Some_2 _ _ Hc) as [o ->]. cbn. eauto. Qed.

Lemma finishing_finishable u c s fk v final again :
  requests s !! u = Some (FFinishing fk c v final again) -> (c < length (calls (fills s)))%nat -> finishable u c 1 s.
Proof.
  intros Hu Hc. eapply (completes_step _ _ _ _ _ _ (FFinish u)); [cbn; by rewrite Hu|done|]. apply completes_now. by apply finish_result.
Qed.

Lemma ending_finishable u c s fk v final again :
  requests s !! u = Some (FEnding fk c v final again) -> (c < length (calls (fills s)))%nat -> finishable u c 2 s.
Proof.
  intros Hu Hc. pose proof (lookup_lt_Some _ _ _ Hu). eapply (completes_step _ _ _ _ _ _ (FEnd u)); [cbn; by rewrite Hu|done|].
  eapply finishing_finishable; [by cbn; apply list_lookup_insert_eq|done].
Qed.

Lemma fetch_finishable u c s fk :
  requests s !! u = Some (FFetch fk c) -> (c < length (calls (fills s)))%nat -> finishable u c 3 s.
Proof.
  intros Hu Hc. pose proof (lookup_lt_Some _ _ _ Hu). eapply (completes_step _ _ _ _ _ _ (FReturn u false)); [cbn; by rewrite Hu|done|].
  eapply ending_finishable; [by cbn; apply list_lookup_insert_eq|done].
Qed.

Lemma leader_finishes s u p c :
  requests s !! u = Some p -> f_owes p = Some c -> (c < length (calls (fills s)))%nat -> finishable u c 4 s.
Proof.
  intros Hu Ho Hc. pose proof (lookup_lt_Some _ _ _ Hu).
  destruct p as [|q fk d|fk d|fk d v final []|fk d v final []| | | | | |]; simplify_eq/=.
  - eapply (completes_step _ _ _ _ _ _ (FMissed u [])); [cbn; by rewrite Hu|done|]. eapply fetch_finishable; [by cbn; apply list_lookup_insert_eq|done].
  - eapply completes_le; [by eapply fetch_finishable|lia].
  - eapply completes_le; [by eapply ending_finishable|lia].
  - eapply completes_le; [by eapply finishing_finishable|lia].
Qed.

(** C22: Coalesced misses, in every interleaving of requests, fetches, timeouts,
    cancellations and purges in which no leader's repeated lookup panics.  A
    request that waits can be woken, or within four steps of the one leader of
    its call alone; a key stays locked only as long as its leader has not
    released it; no request leads more than one call; and unless a purge
    detaches calls, no two requests lead the same key at once. *)
Theorem fill_coalesced (n : nat) (tr : list fillLabel) (s : fillState) :
  trace fill_exec (fill_init n) tr s -> Forall (fun l => is_recheck_panic l = false) tr ->
  (forall t q fk c retry, requests s !! t = Some (FWait q fk c retry) ->
     exists tr' s', trace fill_exec s tr' s' /\ (length tr' <= 4)%nat /\ is_Some (fill_exec s' (FWake t))) /\
  (forall fk c, inflight (fills s) !! fk = Some c -> exists t p, requests s !! t = Some p /\ f_holds p = Some (fk, c)) /\
  (length (calls (fills s)) <= n)%nat /\
  (Forall (fun l => is_detach l = false) tr ->
     forall t u p p' fk c d, requests s !! t = Some p -> requests s !! u = Some p' ->
       f_holds p = Some (fk, c) -> f_holds p' = Some (fk, d) -> t = u).
Proof.
  intros T Hp. assert (H0 : fill_ok (fill_init n)) by by apply flight_init.
  destruct (fill_trace _ _ _ T Hp H0) as [Hok HX]. split_and!.
  - intros t q fk c retry Ht. pose proof (fo_waits _ _ _ _ _ _ Hok t _ c Ht eq_refl) as Hc.
    destruct (lookup_lt_is_Some_2 _ _ Hc) as [[r|] Er].
    + exists [], s. split_and!; [constructor|cbn; lia|]. cbn. rewrite Ht. unfold result. rewrite Er. cbn. eauto.
    + destruct (fo_owed _ _ _ _ _ _ Hok c Er) as (u & p & Hu & Ho). destruct (leader_finishes _ _ _ _ Hu Ho Hc) as (tr' & s' & T' & L & [r R] & O).
      exists tr', s'. split_and!; [done|done|]. cbn. rewrite O by (intros ->; rewrite Ht in Hu; by simplify_eq). rewrite Ht, R. eauto.
  - apply (fo_table _ _ _ _ _ _ Hok).
  - enough (fill_spent n s) as HS by (unfold fill_spent in HS; pose proof (total_nonneg credit (requests s)) as Hn;
      assert (0 <= total credit (requests s)) by (apply Hn; intros p'; destruct p' as [| | | | | |? ? ? []|? ? ? []|? ? []| |]; done); lia).
    eapply trace_invariant; [intros ???? E; eapply fill_spent_step; [exact E|eassumption]|exact T|].
    unfold fill_spent. cbn. rewrite total_replicate. cbn. lia.
  - intros Hd t u p p' fk c d. eapply excl_one; [exact f_holds_leads|exact Hok|]. apply HX; [done|].
    intros v q k e [-> _]%lookup_replicate. done.
Qed.

(** A key whose call nobody leads any more. *)
Definition abandoned (fk : gostring) (c : nat) (s : fillState) : Prop :=
  inflight (fills s) !! fk = Some c /\ calls (fills s) !! c = Some None /\
  forall t p, requests s !! t = Some p -> f_leads p <> Some c.

Lemma goto_abandoned fk c t p p' f s s' :
  abandoned fk c s -> requests s !! t = Some p -> goto t p' f s = Some s' ->
  inflight f !! fk = Some c -> calls f !! c = Some None -> f_leads p' <> Some c -> abandoned fk c s'.
Proof.
  intros (Hi & Hc & Hl) Ht [= <-] Hi' Hc' Hp'. split_and!; [done..|]. cbn. intros u q [(-> & -> & _)|[_ Hu]]%list_lookup_insert_Some; eauto.
Qed.

Lemma fillOrWait_abandoned fk c t q effKey retry p s s' :
  abandoned fk c s -> requests s !! t = Some p -> fillOrWait t q effKey retry s = Some s' -> abandoned fk c s'.
Proof.
  intros HA Ht E. pose proof HA as (Hi & Hc & Hl). unfold fillOrWait, begin_call in E.
  destruct (inflight (fills s) !! _) eqn:Ek; (eapply goto_abandoned; [exact HA|exact Ht|exact E|..]); cbn; try done.
  - by rewrite lookup_insert_ne by congruence.
  - rewrite lookup_app_l; [done|]. by eapply lookup_lt_Some.
  - intros [= E']. apply lookup_lt_Some in Hc. lia.
Qed.

Lemma abandoned_step fk c s l s' : is_detach l = false -> abandoned fk c s -> fill_exec s l = Some s' -> abandoned fk c s'.
Proof.
  intros Hd HA E. pose proof HA as (Hi & Hc & Hl).
  destruct l as [t q effKey|t|t latest|t|t|t stored|t|t|t|t|t|t|t stored|hit]; cbn in E; [..|done].
  all: destruct (requests s !! t) as [[]|] eqn:Ht; try done; pose proof (Hl t _ Ht) as Hlt; cbn in Hlt.
  all: try (by eapply fillOrWait_abandoned).
  all: try (by eapply goto_abandoned; [exact HA|exact Ht|exact E|..]).
  - unfold not_reusable in E. destruct (_ && _); [by eapply fillOrWait_abandoned|by eapply goto_abandoned].
  - eapply goto_abandoned; [exact HA|exact Ht|exact E| |done|done]. cbn. case_decide as D; [|done].
    apply lookup_delete_Some. split; [|done]. intros ->. congruence.
  - eapply goto_abandoned; [exact HA|exact Ht|exact E|done| |by destruct final]. cbn. rewrite list_lookup_alter_ne by congruence. done.
  - destruct (result _ _); [|done]. by eapply goto_abandoned.
  - eapply goto_abandoned; [exact HA|exact Ht|exact E|done|done|]. by destruct (default _ _).
Qed.

(** A panic in the leader's repeated lookup locks the key for good.  [fillOrWait]
    repeats the lookup as the leader before the cleanup of [leadFill] is
    deferred, so when the handler a stored response is revalidated with panics,
    the call is neither removed nor finished: whatever happens later short of a
    purge, every request of the key joins it and can only time out. *)
Theorem fill_recheck_panic (n : nat) (q : fillRequest) (effKey : gostring) :
  let fk := fillLockKeyForPolicy (fr_base q) effKey (fr_pol q) in
  exists s, trace fill_exec (fill_init (S n)) [FBegin 0 q effKey; FRecheckPanic 0] s /\
    forall tr s', trace fill_exec s tr s' -> Forall (fun l => is_detach l = false) tr ->
      begin_call fk (fills s') = (fills s', 0%nat, false) /\
      forall t q' retry, requests s' !! t = Some (FWait q' fk 0 retry) -> fill_exec s' (FWake t) = None.
Proof.
  cbn zeta. set (fk := fillLockKeyForPolicy _ _ _).
  exists (MkFill (MkFlights {[fk := 0%nat]} [None]) (FDone fillPanicked :: replicate n FIdle)). split.
  - econstructor; [done|]. econstructor; [done|]. constructor.
  - intros tr s' T Hd.
    assert (HA : abandoned fk 0 s').
    { assert (H0 : abandoned fk 0 (MkFill (MkFlights {[fk := 0%nat]} [None]) (FDone fillPanicked :: replicate n FIdle))).
      { split_and!; [by apply lookup_singleton_eq|done|]. intros [|t] p Ht; cbn in Ht; [by simplify_eq|]. by apply lookup_replicate in Ht as [-> _]. }
      revert Hd H0. induction T as [|s l s1 tr s2 E T IH]; [done|]. intros [Hl Htr]%Forall_cons H0. eauto using abandoned_step. }
    destruct HA as (Hi & Hc & _). split; [unfold begin_call; by rewrite Hi|]. intros t q' retry Ht. cbn. rewrite Ht. unfold result. by rewrite Hc.
Qed.
End Fill.

(** ** Validating a stored response (revalidate.go, validate.go, cache.go) *)

Inductive revalidateOutcome :=
  outcomeStored | outcomeNotModified | outcomeUncacheable | outcomeOriginError | outcomeCanceled | outcomePanic.

(** [revalidateKey]: the storage key, the handler generation, the route scope and
    the digest of the route's configuration. *)
Definition revalidateKey : Type := gostring * Z * gostring * list Z.

(** What a call publishes. *)
Definition validation : Type := option Entry * revalidateOutcome.

(** Where a goroutine is: before it begins; leading, before and after it has
    published a result; in the deferred cleanup, before [endRevalidate] and
    before the last [finish], with what it recovered from and whether a result
    is still owed; waiting; done, with what it was given. *)
Inductive valPc :=
| VIdle
| VLead (k : revalidateKey) (c : nat)
| VServing (k : revalidateKey) (c : nat)
| VCleanup (k : revalidateKey) (c : nat) (panicked owed : bool)
| VLast (k : revalidateKey) (c : nat) (panicked owed : bool)
| VWait (c : nat)
| VDone (o : option validation).

Inductive valLabel :=
| VBegin (t : nat) (k : revalidateKey)
| VBackground (t : nat) (k : revalidateKey)
| VPublish (t : nat) (r : validation)
| VExit (t : nat) (panicked : bool)
| VEnd (t : nat)
| VFinish (t : nat)
| VWake (t : nat)
| VCancel (t : nat)
| VDetach (hit : revalidateKey -> bool).

Record valState := MkVal { reCalls : flights revalidateKey validation; workers : list valPc }.

Definition vgoto (t : nat) (p : valPc) (f : flights revalidateKey validation) (s : valState) : option valState :=
  Some (MkVal f (<[t := p]> (workers s))).

(** [validateAndServeWithPolicy] joins a call in flight; a background refresh
    leaves it alone. *)
Definition beginRevalidate (t : nat) (k : revalidateKey) (background : bool) (s : valState) : option valState :=
  let '(f, c, leader) := begin_call k (reCalls s) in
  vgoto t (if leader then VLead k c else if background then VDone None else VWait c) f s.

(** What the deferred cleanup publishes when nothing was. *)
Definition last_result (panicked : bool) : validation := (None, if panicked then outcomePanic else outcomeCanceled).

Definition val_exec (s : valState) (l : valLabel) : option valState :=
  match l with
  | VBegin t k => match workers s !! t with Some VIdle => beginRevalidate t k false s | _ => None end
  | VBackground t k => match workers s !! t with Some VIdle => beginRevalidate t k true s | _ => None end
  | VPublish t r =>
      match workers s !! t with
      | Some (VLead k c) => vgoto t (VServing k c) (finish_call c r (reCalls s)) s
      | _ => None
      end
  | VExit t panicked =>
      match workers s !! t with
      | Some (VLead k c) => vgoto t (VCleanup k c panicked true) (reCalls s) s
      | Some (VServing k c) => vgoto t (VCleanup k c panicked false) (reCalls s) s
      | _ => None
      end
  | VEnd t =>
      match workers s !! t with
      | Some (VCleanup k c panicked owed) => vgoto t (VLast k c panicked owed) (end_call k c (reCalls s)) s
      | _ => None
      end
  | VFinish t =>
      match workers s !! t with
      | Some (VLast k c panicked owed) => vgoto t (VDone None) (finish_call c (last_result panicked) (reCalls s)) s
      | _ => None
      end
  | VWake t =>
      match workers s !! t with
      | Some (VWait c) => match result (reCalls s) c with Some r => vgoto t (VDone (Some r)) (reCalls s) s | None => None end
      | _ => None
      end
  | VCancel t => match workers s !! t with Some (VWait c) => vgoto t (VDone None) (reCalls s) s | _ => None end
  | VDetach hit => Some (MkVal (detach_calls hit (reCalls s)) (workers s))
  end.

Definition val_init (n : nat) : valState := MkVal no_flights (replicate n VIdle).

Definition v_leads (p : valPc) : option nat :=
  match p with VLead _ c | VServing _ c | VCleanup _ c _ _ | VLast _ c _ _ => Some c | _ => None end.
Definition v_holds (p : valPc) : option (revalidateKey * nat) :=
  match p with VLead k c | VServing k c | VCleanup k c _ _ => Some (k, c) | _ => None end.
Definition v_owes (p : valPc) : option nat :=
  match p with VLead _ c | VCleanup _ c _ true | VLast _ c _ true => Some c | _ => None end.
Definition v_waits (p : valPc) : option nat := match p with VWait c => Some c | _ => None end.

Lemma v_holds_leads p k c : v_holds p = Some (k, c) -> v_leads p = Some c.
Proof. destruct p; cbn; congruence. Qed.

Lemma v_owes_leads p c : v_owes p = Some c -> v_leads p = Some c.
Proof. destruct p as [| | |? ? ? []|? ? ? []| |]; cbn; congruence. Qed.

Definition val_ok (s : valState) : Prop := flight_ok v_leads v_holds v_owes v_waits (reCalls s) (workers s).
Definition val_excl (s : valState) : Prop := flight_excl v_holds (reCalls s) (workers s).
Definition v_detach (l : valLabel) : bool := match l with VDetach _ => true | _ => false end.

Lemma beginRevalidate_ok t k background s s' :
  workers s !! t = Some VIdle -> beginRevalidate t k background s = Some s' -> val_ok s ->
  val_ok s' /\ (val_excl s -> val_excl s').
Proof.
  intros Ht E Hok. unfold beginRevalidate in E.
  destruct (inflight (reCalls s) !! k) as [c|] eqn:Ek; unfold begin_call in E; rewrite Ek in E; injection E as <-.
  - assert (c < length (calls (reCalls s)))%nat.
    { destruct (fo_table _ _ _ _ _ _ Hok k c Ek) as (u & p' & Hu & Hp'). eapply (fo_leads _ _ _ _ _ _ Hok); [exact Hu|]. by eapply v_holds_leads. }
    split; [|intros HX; eapply excl_move; [done|done|exact Ht|right; by destruct background]].
    eapply flight_move; [exact Hok|exact Ht|by right; destruct background|by destruct background|by destruct background|].
    destruct background; [done|]. by intros d [= <-].
  - pose proof (flight_begin v_leads v_holds v_owes v_waits (reCalls s) (workers s) t VIdle (VLead k (length (calls (reCalls s)))) k) as HB.
    pose proof (excl_begin v_holds (reCalls s) (workers s) t (VLead k (length (calls (reCalls s)))) k) as HE.
    unfold begin_call in HB, HE. rewrite Ek in HB, HE. split; [by apply HB|]. intros HX. by apply HE.
Qed.

Lemma val_step s l s' :
  val_exec s l = Some s' -> val_ok s -> val_ok s' /\ (v_detach l = false -> val_excl s -> val_excl s').
Proof.
  intros E Hok. destruct l as [t k|t k|t r|t panicked|t|t|t|t|hit]; cbn in E; [..|by injection E as <-; split; [apply flight_detach|]].
  all: destruct (workers s !! t) as [[]|] eqn:Ht; try done.
  - destruct (beginRevalidate_ok _ _ _ _ _ Ht E Hok). auto.
  - destruct (beginRevalidate_ok _ _ _ _ _ Ht E Hok). auto.
  - injection E as <-. split; [eapply flight_finish; [exact v_owes_leads|exact Hok|exact Ht|auto..]|].
    intros _ HX. eapply excl_move; [exact HX|done|exact Ht|by left].
  - injection E as <-. split; [eapply flight_move; [exact Hok|exact Ht|auto..|done]|]. intros _ HX. eapply excl_move; [exact HX|done|exact Ht|by left].
  - injection E as <-. split; [eapply flight_move; [exact Hok|exact Ht|auto..|done]|]. intros _ HX. eapply excl_move; [exact HX|done|exact Ht|by left].
  - injection E as <-. split.
    + eapply flight_end; [exact v_holds_leads|exact Hok|exact Ht|done| |done|by destruct owed|done]. cbn. congruence.
    + intros _ HX. eapply excl_end; [exact v_holds_leads|exact Hok|exact HX|exact Ht|done|done].
  - injection E as <-. split; [eapply flight_finish; [exact v_owes_leads|exact Hok|exact Ht|auto..]|].
    intros _ HX. eapply excl_move; [exact HX|done|exact Ht|by left].
  - destruct (result _ _); [|done]. injection E as <-. split; [eapply flight_move; [exact Hok|exact Ht|auto..|done]|].
    intros _ HX. eapply excl_move; [exact HX|done|exact Ht|by left].
  - injection E as <-. split; [eapply flight_move; [exact Hok|exact Ht|auto..|done]|]. intros _ HX. eapply excl_move; [exact HX|done|exact Ht|by left].
Qed.

Lemma val_finishes s u p c :
  workers s !! u = Some p -> v_owes p = Some c -> (c < length (calls (reCalls s)))%nat ->
  completes val_exec workers (fun s => is_Some (result (reCalls s) c)) u 3 s.
Proof.
  intros Hu Ho Hc. pose proof (lookup_lt_Some _ _ _ Hu) as HL.
  assert (HF : forall s k b o, workers s !! u = Some (VLast k c b o) -> (c < length (calls (reCalls s)))%nat ->
    completes val_exec workers (fun s => is_Some (result (reCalls s) c)) u 1 s).
  { clear. intros s k b o Hu Hc. eapply (completes_step _ _ _ _ _ _ (VFinish u)); [cbn; by rewrite Hu|done|]. apply completes_now. by apply finish_result. }
  assert (HE : forall s k b o, workers s !! u = Some (VCleanup k c b o) -> (c < length (calls (reCalls s)))%nat ->
    completes val_exec workers (fun s => is_Some (result (reCalls s) c)) u 2 s).
  { clear -HF. intros s k b o Hu Hc. pose proof (lookup_lt_Some _ _ _ Hu).
    eapply (completes_step _ _ _ _ _ _ (VEnd u)); [cbn; by rewrite Hu|done|]. eapply HF; [by cbn; apply list_lookup_insert_eq|done]. }
  destruct p as [|k d| |k d b []|k d b []| |]; simplify_eq/=.
  - eapply (completes_step _ _ _ _ _ _ (VExit u false)); [cbn; by rewrite Hu|done|]. eapply HE; [by cbn; apply list_lookup_insert_eq|done].
  - eapply completes_le; [by eapply HE|lia].
  - eapply completes_le; [by eapply HF|lia].
Qed.

(** A waiter whose call is finished gets that result or gives up. *)
Lemma val_waiter_step s l s' t c r :
  workers s !! t = Some (VWait c) -> result (reCalls s) c = Some r -> val_exec s l = Some s' ->
  workers s' !! t = Some (VDone (Some r)) \/ workers s' !! t = Some (VDone None) \/
  workers s' !! t = Some (VWait c) /\ result (reCalls s') c = Some r.
Proof.
  intros Ht Hr E. pose proof (lookup_lt_Some _ _ _ Ht) as HL.
  assert (HO : forall u p f, u <> t -> result f c = Some r -> vgoto u p f s = Some s' ->
    workers s' !! t = Some (VWait c) /\ result (reCalls s') c = Some r).
  { intros u p f Hn Hf [= <-]. cbn. by rewrite list_lookup_insert_ne. }
  destruct l as [u k|u k|u x|u b|u|u|u|u|hit]; cbn in E; [..|injection E as <-; by right; right].
  all: destruct (workers s !! u) as [[]|] eqn:Hu; try done; (destruct (decide (u = t)) as [->|Hn]; [rewrite Ht in Hu; simplify_eq|]).
  all: try (by right; right; eapply HO; [exact Hn|..|exact E]; try apply result_finish).
  - unfold beginRevalidate, begin_call in E. destruct (inflight _ !! k); right; right; eapply HO; [exact Hn| |exact E|exact Hn| |exact E]; [done|].
    unfold result in *. cbn. rewrite lookup_app_l; [done|]. destruct (calls _ !! c) eqn:Ec; [by eapply lookup_lt_Some|done].
  - unfold beginRevalidate, begin_call in E. destruct (inflight _ !! k); right; right; eapply HO; [exact Hn| |exact E|exact Hn| |exact E]; [done|].
    unfold result in *. cbn. rewrite lookup_app_l; [done|]. destruct (calls _ !! c) eqn:Ec; [by eapply lookup_lt_Some|done].
  - rewrite Hr in E. injection E as <-. left. cbn. by apply list_lookup_insert_eq.
  - destruct (result (reCalls s) c0) eqn:E0; [|done]. right; right. by eapply HO; [exact Hn|..|exact E].
  - injection E as <-. right; left. cbn. by apply list_lookup_insert_eq.
Qed.

Lemma val_trace s tr s' :
  trace val_exec s tr s' -> val_ok s -> val_ok s' /\ (Forall (fun l => v_detach l = false) tr -> val_excl s -> val_excl s').
Proof.
  induction 1 as [|s l s1 tr s2 E T IH]; [done|]. intros Hok. destruct (val_step _ _ _ E Hok) as [H1 X1]. destruct (IH H1) as [H2 X2].
  split; [done|]. intros [Hd Hds]%Forall_cons HX. auto.
Qed.

(** Coalesced validations, in every interleaving, panics of the origin handler
    included.  A waiter can be woken, or within three steps of the one leader of
    its call alone; what it is given is what the leader published first; a call
    stays registered only as long as its leader runs; and unless a purge
    detaches calls, a key of a generation has one leader, so one origin request
    in flight. *)
Theorem validation_coalesced (n : nat) (tr : list valLabel) (s : valState) :
  trace val_exec (val_init n) tr s ->
  (forall t c, workers s !! t = Some (VWait c) ->
     exists tr' s', trace val_exec s tr' s' /\ (length tr' <= 3)%nat /\ is_Some (val_exec s' (VWake t))) /\
  (forall t c r l s', workers s !! t = Some (VWait c) -> result (reCalls s) c = Some r -> val_exec s l = Some s' ->
     workers s' !! t = Some (VDone (Some r)) \/ workers s' !! t = Some (VDone None) \/
     workers s' !! t = Some (VWait c) /\ result (reCalls s') c = Some r) /\
  (forall k c, inflight (reCalls s) !! k = Some c -> exists t p, workers s !! t = Some p /\ v_holds p = Some (k, c)) /\
  (Forall (fun l => v_detach l = false) tr ->
     forall t u p p' k c d, workers s !! t = Some p -> workers s !! u = Some p' ->
       v_holds p = Some (k, c) -> v_holds p' = Some (k, d) -> t = u).
Proof.
  intros T. assert (H0 : val_ok (val_init n)) by by apply flight_init. destruct (val_trace _ _ _ T H0) as [Hok HX]. split_and!.
  - intros t c Ht. pose proof (fo_waits _ _ _ _ _ _ Hok t _ c Ht eq_refl) as Hc. destruct (lookup_lt_is_Some_2 _ _ Hc) as [[r|] Er].
    + exists [], s. split_and!; [constructor|cbn; lia|]. cbn. rewrite Ht. unfold result. rewrite Er. cbn. eauto.
    + destruct (fo_owed _ _ _ _ _ _ Hok c Er) as (u & p & Hu & Ho). destruct (val_finishes _ _ _ _ Hu Ho Hc) as (tr' & s' & T' & L & [r R] & O).
      exists tr', s'. split_and!; [done|done|]. cbn. rewrite O by (intros ->; rewrite Ht in Hu; by simplify_eq). rewrite Ht, R. eauto.
  - intros t c r l s' Ht Hr E. eauto using val_waiter_step.
  - apply (fo_table _ _ _ _ _ _ Hok).
  - intros Hd t u p p' k c d. eapply excl_one; [exact v_holds_leads|exact Hok|]. apply HX; [done|]. by intros v q k' e [-> _]%lookup_replicate.
Qed.

Definition demo_fill_policy : CachePolicy := MkCachePolicy 0 0 0 0 0 true 0 false 0 [] false [] 0 false false false 0 false false false [] None.
Definition demo_fill_request : fillRequest := MkFillRequest (str "GET h /") demo_fill_policy.
Definition demo_fill_run : list fillLabel :=
  [FBegin 0 demo_fill_request (str "GET h /"); FBegin 1 demo_fill_request (str "GET h /"); FMissed 0 [];
   FBegin 2 demo_fill_request (str "GET h /"); FReturn 0 true; FEnd 0; FFinish 0; FWake 1].

Lemma fill_coalesced_witness :
  exists s, exec_trace (fill_exec (H := demo_sha256)) (fill_init 3) demo_fill_run = Some s /\ (length (calls (fills s)) <= 3)%nat /\
    requests s !! 2%nat = Some (FWait demo_fill_request (str "GET h /") 0 true).
Proof.
  destruct (exec_trace (fill_exec (H := demo_sha256)) (fill_init 3) demo_fill_run) as [s|] eqn:E; [|by vm_compute in E].
  exists s. split; [done|]. split.
  - refine (proj1 (proj2 (proj2 (fill_coalesced (H := demo_sha256) 3 demo_fill_run s _ _)))); [by apply exec_trace_trace|by repeat constructor].
  - by vm_compute in E; injection E as <-.
Defined.

Definition demo_key : revalidateKey := (str "GET h /", 1, [], []).
Definition demo_val_run : list valLabel := [VBegin 0 demo_key; VBegin 1 demo_key; VBackground 2 demo_key; VExit 0 true; VEnd 0; VFinish 0].

Lemma validation_coalesced_witness :
  exists s, exec_trace val_exec (val_init 3) demo_val_run = Some s /\ workers s = [VDone None; VWait 0; VDone None] /\
    exists tr' s', trace val_exec s tr' s' /\ (length tr' <= 3)%nat /\ is_Some (val_exec s' (VWake 1)).
Proof.
  destruct (exec_trace val_exec (val_init 3) demo_val_run) as [s|] eqn:E; [|by vm_compute in E].
  assert (Hw : workers s = [VDone None; VWait 0; VDone None]) by (by vm_compute in E; injection E as <-).
  exists s. split; [done|]. split; [done|]. apply (proj1 (validation_coalesced 3 demo_val_run s ltac:(by apply exec_trace_trace)) 1%nat 0%nat). by rewrite Hw.
Defined.
