(* ===== verification/CacheSelector.v ===== *)
(** * Purge selectors (src/internal/cache/selector.go, scoped_purge.go)

    What a cache invalidation selects: the validated forms of URLs, prefixes,
    globs, tags and keys, and the test whether a cached resource matches.  The
    two glob matchers share one backtracking loop, which is proved to decide the
    declarative meaning of wildcards. *)
From S2P Require Import Prelude GoStrings Bytes Netip Http CanonicalPath ProxyProto CacheEntry CacheKey CacheTags CacheFlight.

(** ** Wildcard matching *)

Section Glob.
Context {Q A : Type} (is_star : Q -> bool) (fits : Q -> A -> bool).

(** The loop of [matchAnchoredGlob] and [matchSingleGlobSegment]: the rest of the
    pattern and of the input, and where to resume: the pattern after the last
    wildcard and the input it was last tried at. *)
Fixpoint glob_loop (fuel : nat) (p : list Q) (s : list A) (back : option (list Q * list A)) : bool :=
  match fuel with
  | O => false
  | S fuel =>
      match s with
      | [] => forallb is_star p
      | x :: s' =>
          let resume :=
            match back with
            | Some (bp, _ :: bs) => glob_loop fuel bp bs (Some (bp, bs))
            | _ => false
            end in
          match p with
          | q :: p' =>
              if is_star q then glob_loop fuel p' s (Some (p', s))
              else if fits q x then glob_loop fuel p' s' back
              else resume
          | [] => resume
          end
      end
  end.

Definition glob_fuel (p : list Q) (s : list A) : nat := S (length p + 2) * S (length s) * S (length p + 2).

(** A wildcard stands for any run of elements. *)
Inductive glob_match : list Q -> list A -> Prop :=
| glob_nil : glob_match [] []
| glob_one q p x s : is_star q = false -> fits q x = true -> glob_match p s -> glob_match (q :: p) (x :: s)
| glob_skip q p s : is_star q = true -> glob_match p s -> glob_match (q :: p) s
| glob_more q p x s : is_star q = true -> glob_match (q :: p) s -> glob_match (q :: p) (x :: s).

Lemma glob_star q p s : is_star q = true -> glob_match (q :: p) s <-> exists a b, s = a ++ b /\ glob_match p b.
Proof.
  intros Hq. split.
  - revert q Hq. enough (forall l s, glob_match l s -> forall q p, l = q :: p -> is_star q = true -> exists a b, s = a ++ b /\ glob_match p b) by eauto.
    induction 1 as [|q p' x s' Hs Hf Hm IH|q p' s' Hs Hm IH|q p' x s' Hs Hm IH]; intros q0 p0 E H0; simplify_eq; try congruence.
    + by exists [], s'.
    + destruct (IH q0 p0 eq_refl H0) as (a & b & -> & Hb). by exists (x :: a), b.
  - intros (a & b & -> & Hb). induction a as [|x a IH]; [by apply glob_skip|by apply glob_more].
Qed.

Lemma glob_empty p : glob_match p [] <-> forallb is_star p = true.
Proof.
  induction p as [|q p IH]; [split; [done|constructor]|]. cbn. rewrite andb_true_iff, <- IH. split.
  - by inversion 1.
  - intros [Hq Hp]. by apply glob_skip.
Qed.

Lemma glob_single q p x s : is_star q = false -> glob_match (q :: p) (x :: s) <-> fits q x = true /\ glob_match p s.
Proof. intros Hq. split; [inversion 1; simplify_eq; [done|congruence..]|]. intros [Hf Hm]. by apply glob_one. Qed.

(** Patterns without wildcards fit exactly as many elements. *)
Definition run (cp : list Q) (cs : list A) : Prop := Forall2 (fun q x => is_star q = false /\ fits q x = true) cp cs.

Lemma glob_run cp p t :
  Forall (fun q => is_star q = false) cp -> glob_match (cp ++ p) t ->
  exists ct t', t = ct ++ t' /\ length ct = length cp /\ glob_match p t'.
Proof.
  intros HF. revert t. induction HF as [|q cp Hq HF IH]; intros t; cbn; [by exists [], t|].
  destruct t as [|x t].
  - rewrite glob_empty. cbn. by rewrite Hq.
  - rewrite (glob_single _ _ _ _ Hq). intros [_ (ct & t' & -> & HL & Hm)%IH]. exists (x :: ct), t'. cbn. auto.
Qed.

(** What resuming may still find: the pattern after the last wildcard, later. *)
Definition later (back : option (list Q * list A)) : Prop :=
  match back with
  | Some (bp, _ :: bs) => exists a b, bs = a ++ b /\ glob_match bp b
  | _ => False
  end.

(** The pattern read since the last wildcard has fitted the input read since. *)
Definition since (p : list Q) (s : list A) (back : option (list Q * list A)) : Prop :=
  match back with
  | Some (bp, bs) => exists cp cs, bp = cp ++ p /\ bs = cs ++ s /\ run cp cs
  | None => True
  end.

Lemma since_start p s : since p s (Some (p, s)).
Proof. exists [], []. split_and!; [done..|constructor]. Qed.

(** Everything found by resuming passes the wildcard that is read next. *)
Lemma later_star q p s back : is_star q = true -> since (q :: p) s back -> later back -> glob_match (q :: p) s.
Proof.
  intros Hq. destruct back as [[bp [|x bs]]|]; [done| |done]. intros (cp & cs & -> & Es & HR) (a & b & -> & Hm).
  apply glob_run in Hm as (ct & t' & -> & HL & Hm); [|by eapply Forall2_Forall_l; [exact HR|]; apply Forall_forall; intros ? _ ? []].
  apply (glob_star _ _ _ Hq). apply (glob_star _ _ _ Hq) in Hm as (a' & b' & -> & Hm).
  exists (drop (length cs) (x :: a ++ ct ++ a')), b'. split; [|done].
  apply Forall2_length in HR. apply (f_equal (drop (length cs))) in Es. rewrite drop_app_length in Es. rewrite <- Es.
  rewrite !app_assoc, (app_comm_cons _ _ x), drop_app_le; [done|]. cbn. rewrite !length_app. lia.
Qed.

Lemma later_empty p back : since p [] back -> ~ later back.
Proof.
  destruct back as [[bp [|x bs]]|]; [by intros _ []| |by intros _ []]. intros (cp & cs & -> & Es & HR) (a & b & -> & Hm).
  apply glob_run in Hm as (ct & t' & -> & HL & _); [|by eapply Forall2_Forall_l; [exact HR|]; apply Forall_forall; intros ? _ ? []].
  apply Forall2_length in HR. rewrite app_nil_r in Es. apply (f_equal length) in Es. cbn in Es. rewrite !length_app in Es. lia.
Qed.

(** Turns of the loop that remain: every wildcard read is final, every resumption
    moves the input on, and every fitting element the pattern. *)
Definition cost (m n : nat) (p : list Q) (back : option (list Q * list A)) : nat :=
  match back with
  | Some (bp, bs) => length bp * (S n * S m) + length bs * S m + length p
  | None => S m * (S n * S m) + length p
  end.

Definition bounded (m n : nat) (p : list Q) (s : list A) (back : option (list Q * list A)) : Prop :=
  (length p <= m /\ length s <= n)%nat /\ match back with Some (bp, bs) => (length bp <= m /\ length bs <= n)%nat | None => True end.

Lemma glob_loop_spec m n fuel p s back :
  since p s back -> bounded m n p s back -> (cost m n p back < fuel)%nat ->
  glob_loop fuel p s back = true <-> glob_match p s \/ later back.
Proof.
  revert p s back. induction fuel as [|fuel IH]; intros p s back Hs Hb Hc; [lia|]. cbn [glob_loop].
  destruct s as [|x s].
  { rewrite <- glob_empty. split; [by left|]. intros [?|?]; [done|]. by apply later_empty in Hs. }
  set (resume := match back with Some (bp, _ :: bs) => glob_loop fuel bp bs (Some (bp, bs)) | _ => false end).
  assert (Hres : resume = true <-> later back).
  { unfold resume. destruct back as [[bp [|b bs]]|]; [done| |done]. destruct Hb as [[? ?] [? ?]]. cbn [length cost] in *.
    rewrite IH; [|apply since_start|split; lia|cbn [cost]; rewrite Nat.mul_succ_l in Hc; lia]. cbn [later]. split.
    - intros [Hm|Hl]; [by exists [], bs|]. destruct bs as [|b' bs]; [done|]. destruct Hl as (a & b'' & -> & Hm). by exists (b' :: a), b''.
    - intros (a & b' & -> & Hm). destruct a as [|a0 a]; [by left|]. right. by exists a, b'. }
  destruct p as [|q p].
  { rewrite Hres. split; [by right|]. intros [Hm|?]; [inversion Hm|done]. }
  destruct (is_star q) eqn:Eq.
  - rewrite IH; [| |destruct Hb as [[? ?] ?]; cbn [length] in *; split; cbn; lia|].
    + rewrite (glob_star _ _ _ Eq). cbn [later]. split.
      * intros [Hm|(a & b & -> & Hm)]; left; [by exists [], (x :: s)|by exists (x :: a), b].
      * intros [Hm|Hl]; [|eapply later_star in Hl; [|done..]; apply (glob_star _ _ _ Eq) in Hl as Hm];
          destruct Hm as ([|a0 a] & b & E & Hm); simplify_eq/=; [by left|right; by exists a, b|by left|right; by exists a, b].
    + apply since_start.
    + destruct Hb as [[H1 H2] H3]. cbn [length] in *. destruct back as [[bp bs]|]; cbn [cost length] in *.
      * destruct Hs as (cp & cs & -> & -> & HR'). rewrite !length_app in *. cbn [length] in *.
        rewrite !Nat.mul_add_distr_r, !Nat.mul_succ_l in Hc. rewrite Nat.mul_succ_l. lia.
      * pose proof (Nat.mul_le_mono_r (length p) m (S n * S m) ltac:(lia)). pose proof (Nat.mul_le_mono_r (S (length s)) n (S m) ltac:(lia)).
        rewrite !Nat.mul_succ_l in *. lia.
  - destruct (fits q x) eqn:Ef.
    + rewrite IH; [| |destruct Hb as [[? ?] ?]; cbn [length] in *; split; [lia|done]|].
      * rewrite (glob_single _ _ _ _ Eq). tauto.
      * destruct back as [[bp bs]|]; [|done]. destruct Hs as (cp & cs & -> & -> & HR').
        exists (cp ++ [q]), (cs ++ [x]). rewrite <- !app_assoc. split_and!; [done..|]. apply Forall2_app; [done|]. by constructor.
      * destruct back as [[bp bs]|]; cbn [cost length] in *; lia.
    + rewrite Hres, (glob_single _ _ _ _ Eq). split; [by right|]. by intros [[? _]|?]; [congruence|].
Qed.

(** The loop decides the declarative meaning, and its fuel is enough. *)
Lemma glob_loop_exact p s : glob_loop (glob_fuel p s) p s None = true <-> glob_match p s.
Proof.
  rewrite (glob_loop_spec (length p) (length s)); [cbn; tauto|done|by split|]. unfold glob_fuel. cbn [cost].
  generalize (length p) (length s). intros a b. rewrite (Nat.mul_comm _ (S (a + 2))), Nat.mul_assoc, (Nat.mul_comm (S a)), <- (Nat.mul_assoc (S b)).
  pose proof (Nat.mul_le_mono_l (S a * S a) (S (a + 2) * S (a + 2)) (S b) ltac:(apply Nat.mul_le_mono; lia)). lia.
Qed.
End Glob.

(** ** Selectors *)

Inductive SelectorKind := SelectorExactURL | SelectorPrefix | SelectorGlob | SelectorTag | SelectorHost | SelectorKey | SelectorAll.
Inductive TagMatchMode := TagMatchAny | TagMatchAll.

#[global] Instance SelectorKind_eq_dec : EqDecision SelectorKind.
Proof. solve_decision. Defined.
#[global] Instance TagMatchMode_eq_dec : EqDecision TagMatchMode.
Proof. solve_decision. Defined.

Definition MaxSelectorHostBytes : Z := 255.
Definition MaxSelectorURIBytes : Z := 2048.
Definition MaxSelectorPatternBytes : Z := 512.
Definition MaxGlobSegments : nat := 32.
Definition MaxGlobSingleWildcards : nat := 8.
Definition MaxGlobMultiWildcards : nat := 2.
Definition MaxSelectorTags : nat := 16.

(** The caller's selector; [s_Kind] and [s_TagMatch] are its raw words. *)
Record Selector := MkSelector {
  s_Kind : gostring; s_Host : gostring; s_URL : gostring; s_URI : gostring; s_Prefix : gostring; s_Pattern : gostring;
  s_Tags : list gostring; s_TagMatch : gostring; s_Key : gostring; s_RouteID : gostring; s_All : bool }.

Record NormalizedSelector := MkNormalized {
  n_Kind : SelectorKind;
  n_Host : gostring;
  n_URI : gostring;
  n_Prefix : gostring;
  n_Pattern : gostring;
  n_Tags : list gostring;
  n_TagMatch : option TagMatchMode;
  n_Key : gostring;
  n_KeyMethod : gostring;
  n_RouteID : gostring;
  n_BroadScope : bool;
  n_ExplicitDefaultPort : bool;
  n_globSegments : list gostring;
  n_inspectionRouteExact : gostring;
  n_inspectionRoutePrefix : gostring;
  n_cutoverExactPath : gostring;
  n_cutoverRawPrefix : gostring;
  n_cutoverMatchAnyPort : bool;
  n_cutoverRouteScopes : list gostring }.

Definition matchesCutoverRoute (s : NormalizedSelector) (routeScope : gostring) : bool :=
  bool_decide (n_cutoverRouteScopes s = []) || bool_decide (routeScope = []) || bool_decide (routeScope ∈ n_cutoverRouteScopes s).

(** An error names the field it is about; the message is left out. *)
Definition selErr (A : Type) : Type := gostring + A.

(** ** Matching a resource *)

Definition stripSelectorHostPort (host : gostring) : gostring :=
  if HasPrefix host (str "[") then
    match IndexByte host 93 with Some i => if (0 <? i)%nat then take (S i) host else host | None => host end
  else
    match IndexByte host 58 with Some i => if (0 <? i)%nat then take i host else host | None => host end.

Definition matchesHost (s : NormalizedSelector) (host : gostring) : bool :=
  bool_decide (host = n_Host s)
  || n_cutoverMatchAnyPort s && bool_decide (stripSelectorHostPort host = stripSelectorHostPort (n_Host s)).

Definition stripQueryFromURI (requestURI : gostring) : gostring :=
  match IndexByte requestURI 63 with Some q => take q requestURI | None => requestURI end.

Definition isHexByte (c : Z) : bool := ((48 <=? c) && (c <=? 57)) || ((97 <=? c) && (c <=? 102)) || ((65 <=? c) && (c <=? 70)).
Definition fromHexByte (c : Z) : Z := if (48 <=? c) && (c <=? 57) then c - 48 else if (97 <=? c) && (c <=? 102) then c - 87 else c - 55.

(** [url.PathUnescape]. *)
Fixpoint PathUnescape (s : gostring) : option gostring :=
  match s with
  | [] => Some []
  | c :: rest =>
      if c =? 37 then
        match rest with
        | a :: b :: rest => if isHexByte a && isHexByte b then cons (16 * fromHexByte a + fromHexByte b) <$> PathUnescape rest else None
        | _ => None
        end
      else cons c <$> PathUnescape rest
  end.

(** [path.Clean] of a rooted path. *)
Definition clean_rooted (p : gostring) : gostring := rooted (walk [] (segments p)).

Definition decodeRoutePath (rawPath : gostring) : gostring :=
  let rawPath :=
    if byte_in rawPath 37
    then match PathUnescape rawPath with Some u => if bool_decide (u = []) then rawPath else u | None => rawPath end
    else rawPath in
  if HasPrefix rawPath (str "/") && (Contains rawPath (str "//") || Contains rawPath (str "/.")) then
    let trailing := (1 <? zlen rawPath) && HasSuffix rawPath (str "/") in
    let cleaned := clean_rooted rawPath in
    if trailing && negb (bool_decide (cleaned = str "/")) then cleaned ++ str "/" else cleaned
  else rawPath.

Definition matchesInspectionRoutePath (s : NormalizedSelector) (uri : gostring) : bool :=
  let path := decodeRoutePath (stripQueryFromURI uri) in
  (bool_decide (n_inspectionRouteExact s = []) || bool_decide (path = n_inspectionRouteExact s))
  && (bool_decide (n_inspectionRoutePrefix s = []) || HasPrefix path (n_inspectionRoutePrefix s)).

Definition matchSegmentPrefix (prefix path : gostring) : bool :=
  HasPrefix path prefix
  && (HasSuffix prefix (str "/") || bool_decide (length path = length prefix) || bool_decide (path !! length prefix = Some 47)).

Definition matchSingleGlobSegment (pattern segment : gostring) : bool :=
  if bool_decide (pattern = str "*") then true
  else if negb (byte_in pattern 42) then bool_decide (pattern = segment)
  else glob_loop (Z.eqb 42) Z.eqb (glob_fuel pattern segment) pattern segment None.

Definition is_globstar (seg : gostring) : bool := bool_decide (seg = str "**").

Definition matchAnchoredGlob (patternSegs : list gostring) (path : gostring) : bool :=
  HasPrefix path (str "/")
  && (let segs := SplitByte (drop 1 path) 47 in
      glob_loop is_globstar matchSingleGlobSegment (glob_fuel patternSegs segs) patternSegs segs None).

Definition matchTags (wanted : list gostring) (mode : option TagMatchMode) (entryTags : list gostring) : bool :=
  if bool_decide (wanted = []) || bool_decide (entryTags = []) then false
  else if bool_decide (mode = Some TagMatchAll) then forallb (fun w => bool_decide (w ∈ entryTags)) wanted
  else existsb (fun w => bool_decide (w ∈ entryTags)) wanted.

Definition MatchesResource (s : NormalizedSelector) (host requestURI : gostring) (tags : list gostring) : bool :=
  if negb (matchesInspectionRoutePath s requestURI) then false
  else match n_Kind s with
  | SelectorAll => true
  | SelectorHost => matchesHost s host
  | SelectorExactURL | SelectorKey => matchesHost s host && bool_decide (requestURI = n_URI s)
  | SelectorPrefix =>
      matchesHost s host &&
      (let path := stripQueryFromURI requestURI in
       if negb (bool_decide (n_cutoverRawPrefix s = []))
       then HasPrefix path (n_cutoverRawPrefix s) || HasPrefix (decodeRoutePath path) (n_cutoverRawPrefix s)
       else matchSegmentPrefix (n_Prefix s) path)
  | SelectorGlob =>
      matchesHost s host &&
      (let path := stripQueryFromURI requestURI in
       if negb (bool_decide (n_cutoverExactPath s = []))
       then bool_decide (path = n_cutoverExactPath s) || bool_decide (decodeRoutePath path = n_cutoverExactPath s)
       else matchAnchoredGlob (n_globSegments s) path)
  | SelectorTag => matchesHost s host && negb (bool_decide (tags = [])) && matchTags (n_Tags s) (n_TagMatch s) tags
  end.

(** ** Validation *)

Section Parse.
Context `{Unicode}.

Definition bad_byte (c : Z) : bool := (c <=? 32) || (127 <=? c) || (c =? 92).

(** The percent-encoding rules shared by URIs and patterns. *)
Definition bad_escape (rest : gostring) : bool :=
  match rest with
  | a :: b :: _ =>
      negb (isHexByte a && isHexByte b) ||
      (let decoded := 16 * fromHexByte a + fromHexByte b in (decoded <=? 31) || (decoded =? 127) || (decoded =? 92))
  | _ => true
  end.

Fixpoint uri_bytes_ok (s : gostring) : bool :=
  match s with
  | [] => true
  | c :: rest => negb (bad_byte c) && negb ((c =? 37) && bad_escape rest) && uri_bytes_ok rest
  end.

Definition dot_segment (seg : gostring) : bool :=
  bool_decide (seg = str ".") || bool_decide (seg = str "..")
  || bool_decide (ToLower seg ∈ [str "%2e"; str "%2e."; str ".%2e"; str "%2e%2e"]).

Definition hasDotSegment (path : gostring) : bool :=
  if negb (HasPrefix path (str "/")) then true else existsb dot_segment (SplitByte (drop 1 path) 47).

Definition validateRawRequestURI (raw field : gostring) : selErr gostring :=
  if bool_decide (raw = []) || (MaxSelectorURIBytes <? zlen raw) || negb (HasPrefix raw (str "/")) || byte_in raw 35
     || negb (uri_bytes_ok raw) || hasDotSegment (stripQueryFromURI raw)
  then inl field else inr raw.

Definition validateSelectorPrefix (raw : gostring) : selErr gostring :=
  if bool_decide (raw = []) || (MaxSelectorPatternBytes <? zlen raw) || bool_decide (raw = str "/") || byte_in raw 63 || byte_in raw 42
     || Contains raw (str "//")
  then inl (str "prefix") else validateRawRequestURI raw (str "prefix").

Definition glob_meta : gostring := str "?#[]{}^$()|".

Fixpoint glob_bytes_ok (s : gostring) : bool :=
  match s with
  | [] => true
  | c :: rest => negb (bad_byte c) && negb (byte_in glob_meta c) && negb ((c =? 37) && bad_escape rest) && glob_bytes_ok rest
  end.

(** The wildcard budgets, counted over the segments in order. *)
Fixpoint glob_budget (segs : list gostring) (single multi : nat) : bool :=
  match segs with
  | [] => true
  | seg :: segs =>
      if is_globstar seg then (S multi <=? MaxGlobMultiWildcards)%nat && glob_budget segs single (S multi)
      else if Contains seg (str "**") then false
      else let single := (single + count_byte 42 seg)%nat in (single <=? MaxGlobSingleWildcards)%nat && glob_budget segs single multi
  end.

Definition validateSelectorGlob (raw : gostring) : selErr (gostring * list gostring) :=
  let segs := SplitByte (drop 1 raw) 47 in
  if bool_decide (raw = []) || (MaxSelectorPatternBytes <? zlen raw) || negb (HasPrefix raw (str "/"))
     || bool_decide (raw = str "/") || bool_decide (raw = str "/**")
     || negb (glob_bytes_ok raw) || hasDotSegment raw || (MaxGlobSegments <? length segs)%nat || negb (glob_budget segs 0 0)
  then inl (str "pattern") else inr (raw, segs).

(** Tags in order of appearance, without repetitions. *)
Fixpoint collect_tags (i : Z) (out rawTags : list gostring) : selErr (list gostring) :=
  match rawTags with
  | [] => inr out
  | t :: rest =>
      let field := str "tags[" ++ Itoa i ++ str "]" in
      if negb (bool_decide (TrimSpace t = t)) then inl field
      else match ValidateTag t with
      | Some _ => inl field
      | None => collect_tags (i + 1) (if bool_decide (t ∈ out) then out else out ++ [t]) rest
      end
  end.

Definition validateSelectorTags (rawTags : list gostring) (rawMode : gostring) : selErr (list gostring * TagMatchMode) :=
  if bool_decide (rawTags = []) || (MaxSelectorTags <? length rawTags)%nat then inl (str "tags")
  else match collect_tags 0 [] rawTags with
  | inl e => inl e
  | inr out =>
      let mode := ToLower (TrimSpace rawMode) in
      if bool_decide (mode = []) || bool_decide (mode = str "any") then inr (out, TagMatchAny)
      else if bool_decide (mode = str "all") then inr (out, TagMatchAll)
      else inl (str "tag_match")
  end.

Definition host_byte (c : Z) : bool :=
  negb ((c <=? 32) || (127 <=? c) || byte_in (str "/?#@") c || (c =? 92)).
Definition hostname_byte (c : Z) : bool := ((97 <=? c) && (c <=? 122)) || is_digit c || byte_in (str "-._") c.

(** The port, which must be printed the way it is read. *)
Definition port_ok (portPart : gostring) : option Z :=
  match Atoi portPart with
  | Some n => if (n <? 1) || (65535 <? n) || negb (bool_decide (Itoa n = portPart)) then None else Some n
  | None => None
  end.

Definition host_parts (lower : gostring) : option (option gostring) :=
  if HasPrefix lower (str "[") then
    match IndexByte lower 93 with
    | Some closeIdx =>
        if (closeIdx <=? 1)%nat then None
        else match ParseIP (take (closeIdx - 1) (drop 1 lower)) with
        | None => None
        | Some _ =>
            match drop (S closeIdx) lower with
            | [] => Some None
            | 58 :: portPart => if bool_decide (portPart = []) then None else Some (Some portPart)
            | _ => None
            end
        end
    | None => None
    end
  else if (1 <? count_byte 58 lower)%nat then None
  else
    let '(hostPart, portPart, hasPort) := CutByte lower 58 in
    if hasPort && bool_decide (portPart = []) then None
    else if bool_decide (hostPart = []) || byte_in hostPart 42 || HasPrefix hostPart (str ".") || HasSuffix hostPart (str ".")
            || Contains hostPart (str "..") || negb (forallb hostname_byte hostPart) then None
    else Some (if hasPort then Some portPart else None).

(** The host in lower case, and whether it names a default port. *)
Definition normalizeSelectorHostWithPortFlag (raw field : gostring) : selErr (gostring * bool) :=
  if bool_decide (TrimSpace raw = []) || negb (bool_decide (TrimSpace raw = raw)) || (MaxSelectorHostBytes <? zlen raw)
     || negb (forallb host_byte raw) then inl field
  else
    let lower := ToLower raw in
    match host_parts lower with
    | None => inl field
    | Some None => inr (lower, false)
    | Some (Some portPart) =>
        match port_ok portPart with
        | Some n => inr (lower, (n =? 80) || (n =? 443))
        | None => inl field
        end
    end.

Definition parseRequiredHost (rawHost field : gostring) : selErr (gostring * bool) :=
  if bool_decide (TrimSpace rawHost = []) then inl field else normalizeSelectorHostWithPortFlag rawHost field.

Definition validateSelectorRawKey (rawKey : gostring) : selErr (gostring * gostring * gostring * bool) :=
  match SplitByte rawKey 10 with
  | [method; host; uri] =>
      if negb (bool_decide (method = str "GET") || bool_decide (method = str "HEAD")) then inl (str "key")
      else match normalizeSelectorHostWithPortFlag host (str "key") with
      | inl e => inl e
      | inr (h, p) =>
          if negb (bool_decide (h = host)) then inl (str "key")
          else match validateRawRequestURI uri (str "key") with inl e => inl e | inr u => inr (method, h, u, p) end
      end
  | _ => inl (str "key")
  end.

(** Where a scheme ends. *)
Fixpoint scheme_split (s : gostring) : option (gostring * gostring) :=
  match s with
  | [] => None
  | c :: rest =>
      if HasPrefix s (str "://") then Some ([], drop 3 s)
      else match scheme_split rest with Some (a, b) => Some (c :: a, b) | None => None end
  end.

Definition parseExactURLInputs (rawHost rawURL rawURI : gostring) : selErr (gostring * gostring * bool) :=
  let url := str "url" in
  let with_uri uri field (r : selErr (gostring * bool)) : selErr (gostring * gostring * bool) :=
    match r with
    | inl e => inl e
    | inr (h, p) => match validateRawRequestURI uri field with inl e => inl e | inr u => inr (h, u, p) end
    end in
  if negb (bool_decide (rawURL = [])) && negb (bool_decide (rawURI = [])) then inl url
  else if negb (bool_decide (rawURL = [])) then
    if (MaxSelectorURIBytes + MaxSelectorHostBytes + 16 <? zlen rawURL) || byte_in rawURL 35 then inl url
    else match scheme_split rawURL with
    | None => inl url
    | Some (scheme, after) =>
        if negb (bool_decide (ToLower scheme ∈ [str "http"; str "https"])) || bool_decide (after = []) then inl url
        else
          let '(urlHost, path, hasPath) := CutByte after 47 in
          if byte_in urlHost 63 then inl url
          else
            let uriPart := if hasPath then 47 :: path else str "/" in
            match normalizeSelectorHostWithPortFlag urlHost url with
            | inl e => inl e
            | inr (parsed, p) =>
                if bool_decide (rawHost = []) then with_uri uriPart url (inr (parsed, p))
                else match normalizeSelectorHostWithPortFlag rawHost (str "host") with
                | inl e => inl e
                | inr (explicit, _) =>
                    if bool_decide (explicit = parsed) then with_uri uriPart url (inr (parsed, p)) else inl (str "host")
                end
            end
    end
  else if bool_decide (rawURI = []) then inl (str "uri")
  else with_uri rawURI (str "uri") (parseRequiredHost rawHost (str "host")).

(** A route of the active configuration: its id, its servers' names and its match. *)
Record routeConfig := MkRouteConfig { rc_id : gostring; rc_serverNames : list gostring; rc_path : gostring; rc_type : gostring }.

Definition route_hosts (names : list gostring) : list gostring :=
  omap (fun sn => match normalizeSelectorHostWithPortFlag sn (str "host") with
                  | inr (h, _) => if HasPrefix h (str "*.") || bool_decide (h = str "*") then None else Some h
                  | inl _ => None
                  end) names.

(** The field an excluded host is blamed on. *)
Definition checkRouteHostAllowed (host : gostring) (route : option routeConfig) : option gostring :=
  match route with
  | None => None
  | Some rc =>
      let hosts := route_hosts (rc_serverNames rc) in
      if bool_decide (hosts = []) then Some (str "route_id")
      else if bool_decide (host ∈ hosts) || bool_decide (stripSelectorHostPort host ∈ hosts) then None else Some (str "host")
  end.

Definition kind_of (raw : gostring) : option SelectorKind :=
  let w := ToLower (TrimSpace raw) in
  if bool_decide (w = str "exact_url") then Some SelectorExactURL
  else if bool_decide (w = str "prefix") then Some SelectorPrefix
  else if bool_decide (w = str "glob") then Some SelectorGlob
  else if bool_decide (w = str "tag") then Some SelectorTag
  else if bool_decide (w = str "host") then Some SelectorHost
  else if bool_decide (w = str "key") then Some SelectorKey
  else if bool_decide (w = str "all") then Some SelectorAll
  else None.

Definition given (s : gostring) : bool := negb (bool_decide (s = [])).

(** The fields a kind may not be combined with. *)
Definition conflicting (kind : SelectorKind) (i : Selector) : bool :=
  let url := given (s_URL i) || given (s_URI i) in
  let prefix := given (s_Prefix i) in
  let pattern := given (s_Pattern i) in
  let tags := negb (bool_decide (s_Tags i = [])) in
  let key := given (s_Key i) in
  match kind with
  | SelectorExactURL => s_All i || prefix || pattern || tags || key
  | SelectorPrefix => s_All i || url || pattern || tags || key
  | SelectorGlob => s_All i || url || prefix || tags || key
  | SelectorTag => s_All i || url || prefix || pattern || key
  | SelectorHost => s_All i || url || prefix || pattern || tags || key
  | SelectorKey => s_All i || given (TrimSpace (s_Host i)) || url || prefix || pattern || tags
  | SelectorAll => url || prefix || pattern || tags || key || given (TrimSpace (s_RouteID i))
  end.

(** The case of one kind, its route resolved and its host defaulted. *)
Definition parse_kind (kind : SelectorKind) (i : Selector) (routeID : gostring) (route : option routeConfig) (rawHost : gostring)
    : selErr NormalizedSelector :=
  let hosted (k : gostring -> bool -> selErr NormalizedSelector) : selErr NormalizedSelector :=
    match parseRequiredHost rawHost (str "host") with
    | inl e => inl e
    | inr (h, p) => match checkRouteHostAllowed h route with None => k h p | Some e => inl e end
    end in
  match kind with
  | SelectorExactURL =>
      match parseExactURLInputs rawHost (s_URL i) (s_URI i) with
      | inl e => inl e
      | inr (h, u, p) =>
          match checkRouteHostAllowed h route with
          | None => inr (MkNormalized kind h u [] [] [] None [] [] routeID false p [] [] [] [] [] false [])
          | Some e => inl e
          end
      end
  | SelectorPrefix =>
      hosted (fun h p =>
        let routed := match route with
                      | Some rc => if given (rc_path rc) && negb (bool_decide (rc_path rc = str "/"))
                                      && (bool_decide (rc_type rc = []) || bool_decide (rc_type rc = str "prefix")) then rc_path rc else []
                      | None => []
                      end in
        match validateSelectorPrefix (if given (s_Prefix i) then s_Prefix i else routed) with
        | inl e => inl e
        | inr prefix => inr (MkNormalized kind h [] prefix [] [] None [] [] routeID false p [] [] [] [] [] false [])
        end)
  | SelectorGlob =>
      hosted (fun h p =>
        match validateSelectorGlob (s_Pattern i) with
        | inl e => inl e
        | inr (pattern, segs) => inr (MkNormalized kind h [] [] pattern [] None [] [] routeID false p segs [] [] [] [] false [])
        end)
  | SelectorTag =>
      hosted (fun h p =>
        match validateSelectorTags (s_Tags i) (s_TagMatch i) with
        | inl e => inl e
        | inr (tags, mode) => inr (MkNormalized kind h [] [] [] tags (Some mode) [] [] routeID false p [] [] [] [] [] false [])
        end)
  | SelectorHost => hosted (fun h p => inr (MkNormalized kind h [] [] [] [] None [] [] routeID true p [] [] [] [] [] false []))
  | SelectorKey =>
      match validateSelectorRawKey (s_Key i) with
      | inl e => inl e
      | inr (m, h, u, p) =>
          match checkRouteHostAllowed h route with
          | None => inr (MkNormalized kind h u [] [] [] None (keyFor m h u) m routeID false p [] [] [] [] [] false [])
          | Some e => inl e
          end
      end
  | SelectorAll => inr (MkNormalized kind [] [] [] [] [] None [] [] routeID true false [] [] [] [] [] false [])
  end.

(** [routes] are the routes of the active configuration that have an id, in
    order; [None] when there is no configuration. *)
Definition ParseSelector (i : Selector) (routes : option (list routeConfig)) : selErr NormalizedSelector :=
  let routeID := TrimSpace (s_RouteID i) in
  let resolve : selErr (option routeConfig) :=
    if bool_decide (routeID = []) then inr None
    else match routes with
    | None => inl (str "route_id")
    | Some l => match List.find (fun rc => bool_decide (rc_id rc = routeID)) l with Some rc => inr (Some rc) | None => inl (str "route_id") end
    end in
  match resolve with
  | inl e => inl e
  | inr route =>
      let rawHost :=
        match TrimSpace (s_Host i), route with
        | [], Some rc => match route_hosts (rc_serverNames rc) with [h] => h | _ => [] end
        | h, _ => h
        end in
      match kind_of (s_Kind i) with
      | None => inl (str "kind")
      | Some kind =>
          if bool_decide (kind = SelectorAll) && (negb (s_All i) || given rawHost || conflicting kind i) then inl (str "all")
          else if conflicting kind i then inl (str "kind")
          else parse_kind kind i routeID route rawHost
      end
  end.
End Parse.

(** ** Keys and resources *)

Definition baseKeyOf (key : gostring) : gostring := match IndexByte key 0 with Some i => take i key | None => key end.
Definition resourceKeyOf (host reqURI : gostring) : gostring := host ++ 10 :: reqURI.

(** Method, host and URI of a key, and whether it is a variant's. *)
Definition parseBaseKeyParts (k : gostring) : option (gostring * gostring * gostring * bool) :=
  let basePart := baseKeyOf k in
  let '(method, rest, ok1) := CutByte basePart 10 in
  let '(host, uri, ok2) := CutByte rest 10 in
  if ok1 && negb (bool_decide (method = [])) && (ok2 && negb (bool_decide (host = []))) && HasPrefix uri (str "/")
  then Some (method, host, uri, byte_in k 0) else None.

(** What follows a mark up to the next NUL. *)
Fixpoint after_mark (mark s : gostring) : option gostring :=
  match s with
  | [] => None
  | _ :: rest => if HasPrefix s mark then Some (drop (length mark) s) else after_mark mark rest
  end.

Definition routeScopeFromVariantKey (key : gostring) : gostring :=
  match after_mark (0 :: str "route" ++ [31]) key with
  | None => []
  | Some rest => baseKeyOf rest
  end.

(** ** Detaching the calls in flight that a purge matches *)

(** The test on the key of a fill. *)
Definition fill_hit (sel : NormalizedSelector) (detach : bool) (fk : gostring) : bool :=
  let rScope := routeScopeFromVariantKey fk in
  if negb (bool_decide (n_cutoverRouteScopes sel = [])) && given rScope && negb (matchesCutoverRoute sel rScope) then false
  else
    let base := baseKeyOf fk in
    match parseBaseKeyParts base with
    | None => false
    | Some (_, host, reqURI, _) =>
        match n_Kind sel with
        | SelectorKey => bool_decide (fk = n_Key sel) || bool_decide (base = baseKeyOf (n_Key sel))
        | SelectorTag => bool_decide (host = n_Host sel) && detach
        | _ => MatchesResource sel host reqURI []
        end
    end.

(** The test on the key of a validation; [tags] are the indexed tags. *)
Definition call_hit (sel : NormalizedSelector) (tags : gostring -> list gostring) (detach : bool) (rk : revalidateKey) : bool :=
  let '(key, _, route, _) := rk in
  if negb (bool_decide (n_cutoverRouteScopes sel = [])) && given route && negb (matchesCutoverRoute sel route) then false
  else
    let base := baseKeyOf key in
    match parseBaseKeyParts base with
    | None => false
    | Some (_, host, reqURI, _) =>
        let ts := tags (resourceKeyOf host reqURI) in
        match n_Kind sel with
        | SelectorKey => bool_decide (key = n_Key sel) || bool_decide (base = baseKeyOf key)
        | SelectorTag => MatchesResource sel host reqURI ts || bool_decide (host = n_Host sel) && (detach && bool_decide (ts = []))
        | _ => MatchesResource sel host reqURI ts
        end
    end.

(** [detachMatchingInflightLocked] on both tables. *)
Definition detachMatchingInflightLocked (sel : NormalizedSelector) (tags : gostring -> list gostring)
    (fills : flights gostring bool) (calls : flights revalidateKey validation)
    : flights gostring bool * flights revalidateKey validation :=
  (detach_calls (fill_hit sel true) fills, detach_calls (call_hit sel tags true) calls).

(** ** Globs mean what they say *)

(** A segment pattern: a star is any run of bytes, every other byte itself. *)
Definition segment_matches (pattern segment : gostring) : Prop := glob_match (Z.eqb 42) Z.eqb pattern segment.

(** A path pattern: a double star is any run of segments. *)
Definition path_matches (pats : list gostring) (path : gostring) : Prop :=
  exists rest, path = 47 :: rest /\ glob_match is_globstar matchSingleGlobSegment pats (SplitByte rest 47).

Lemma segment_literal pattern segment : byte_in pattern 42 = false -> segment_matches pattern segment <-> pattern = segment.
Proof.
  unfold segment_matches. revert segment. induction pattern as [|c p IH]; intros segment Hn.
  - destruct segment; split; intros E; inversion E; constructor.
  - assert (c <> 42 /\ byte_in p 42 = false) as [Hc Hp].
    { unfold byte_in in *. cbn [IndexByte] in Hn. destruct (Z.eqb_spec c 42); [done|]. split; [done|]. by destruct (IndexByte p 42). }
    assert (Es : (42 =? c) = false) by lia. destruct segment as [|x s].
    + rewrite glob_empty. cbn [forallb]. rewrite Es. by split.
    + rewrite (glob_single _ _ _ _ _ _ Es), (IH s Hp), Z.eqb_eq. split; [intros [-> ->]; done|]. by intros [= -> ->].
Qed.

Lemma matchSingleGlobSegment_exact pattern segment :
  matchSingleGlobSegment pattern segment = true <-> segment_matches pattern segment.
Proof.
  unfold matchSingleGlobSegment. case_bool_decide as E.
  - subst. split; [|done]. intros _. apply glob_star; [done|]. exists segment, []. rewrite app_nil_r. split; [done|constructor].
  - destruct (byte_in pattern 42) eqn:Eb; cbn [negb]; [apply glob_loop_exact|]. rewrite bool_decide_eq_true. by rewrite segment_literal.
Qed.

Lemma HasPrefix_slash s : HasPrefix s (str "/") = true <-> exists rest, s = 47 :: rest.
Proof. rewrite HasPrefix_spec. split; intros [t ->]; by exists t. Qed.

Lemma matchAnchoredGlob_exact pats path : matchAnchoredGlob pats path = true <-> path_matches pats path.
Proof.
  unfold matchAnchoredGlob, path_matches. rewrite andb_true_iff, HasPrefix_slash, glob_loop_exact. split.
  - intros [[rest ->] Hm]. by exists rest.
  - intros (rest & -> & Hm). split; [by exists rest|done].
Qed.

Section Parsed.
Context `{Unicode}.

(** What every parsed selector has: no cutover or inspection fields, and the
    fields of its kind as validated. *)
Definition plain_selector (s : NormalizedSelector) : Prop :=
  n_inspectionRouteExact s = [] /\ n_inspectionRoutePrefix s = [] /\ n_cutoverExactPath s = [] /\ n_cutoverRawPrefix s = [] /\
  n_cutoverMatchAnyPort s = false /\ n_cutoverRouteScopes s = [] /\ (n_Kind s <> SelectorTag -> n_Tags s = []) /\
  match n_Kind s with
  | SelectorGlob => validateSelectorGlob (n_Pattern s) = inr (n_Pattern s, n_globSegments s)
  | SelectorPrefix => validateSelectorPrefix (n_Prefix s) = inr (n_Prefix s)
  | SelectorKey => n_Key s = keyFor (n_KeyMethod s) (n_Host s) (n_URI s) /\ validateRawRequestURI (n_URI s) (str "key") = inr (n_URI s) /\
      (n_KeyMethod s = str "GET" \/ n_KeyMethod s = str "HEAD") /\ exists b, normalizeSelectorHostWithPortFlag (n_Host s) (str "key") = inr (n_Host s, b)
  | _ => True
  end.

Lemma validateRawRequestURI_same raw f u : validateRawRequestURI raw f = inr u -> u = raw.
Proof. unfold validateRawRequestURI. destruct (_ || _); congruence. Qed.

Lemma validateSelectorPrefix_same raw u : validateSelectorPrefix raw = inr u -> u = raw.
Proof. unfold validateSelectorPrefix. destruct (_ || _); [done|]. apply validateRawRequestURI_same. Qed.

Lemma validateSelectorGlob_same raw u segs : validateSelectorGlob raw = inr (u, segs) -> u = raw.
Proof. unfold validateSelectorGlob. destruct (_ || _); [done|]. by intros [= <- _]. Qed.

Lemma validateSelectorRawKey_inv k m h u b :
  validateSelectorRawKey k = inr (m, h, u, b) ->
  validateRawRequestURI u (str "key") = inr u /\ (m = str "GET" \/ m = str "HEAD") /\ normalizeSelectorHostWithPortFlag h (str "key") = inr (h, b).
Proof.
  unfold validateSelectorRawKey. destruct (SplitByte k 10) as [|x [|y [|z [|]]]]; try done.
  destruct (_ || _) eqn:Em; [|done]. rewrite orb_true_iff, !bool_decide_eq_true in Em. cbn [negb]. destruct (normalizeSelectorHostWithPortFlag y _) as [|[h' p]] eqn:Eh; [done|].
  case_bool_decide as E; cbn [negb]; [|done]. destruct (validateRawRequestURI z _) as [|u'] eqn:Eu; [done|]. intros [= <- <- <- <-].
  pose proof (validateRawRequestURI_same _ _ _ Eu). by subst.
Qed.

Lemma parse_kind_plain kind i routeID route rawHost s :
  parse_kind kind i routeID route rawHost = inr s -> plain_selector s /\ n_Kind s = kind.
Proof.
  unfold parse_kind, plain_selector. destruct kind.
  - destruct (parseExactURLInputs _ _ _) as [|[[h u] p]]; [done|]. destruct (checkRouteHostAllowed _ _); [done|]. by intros [= <-].
  - destruct (parseRequiredHost _ _) as [|[h p]]; [done|]. destruct (checkRouteHostAllowed _ _); [done|].
    destruct (validateSelectorPrefix _) eqn:E; [done|]. intros [= <-]. cbn. pose proof (validateSelectorPrefix_same _ _ E). by subst.
  - destruct (parseRequiredHost _ _) as [|[h p]]; [done|]. destruct (checkRouteHostAllowed _ _); [done|].
    destruct (validateSelectorGlob _) as [|[pat segs]] eqn:E; [done|]. intros [= <-]. cbn. pose proof (validateSelectorGlob_same _ _ _ E). by subst.
  - destruct (parseRequiredHost _ _) as [|[h p]]; [done|]. destruct (checkRouteHostAllowed _ _); [done|].
    destruct (validateSelectorTags _ _) as [|[tags mode]]; [done|]. by intros [= <-].
  - destruct (parseRequiredHost _ _) as [|[h p]]; [done|]. destruct (checkRouteHostAllowed _ _); [done|]. by intros [= <-].
  - destruct (validateSelectorRawKey _) as [|[[[m h] u] p]] eqn:E; [done|]. destruct (checkRouteHostAllowed _ _); [done|]. intros [= <-]. cbn.
    apply validateSelectorRawKey_inv in E as (E1 & E2 & E3). split_and!; [done..|by eexists|done].
  - by intros [= <-].
Qed.

Lemma ParseSelector_plain i routes s : ParseSelector i routes = inr s -> plain_selector s.
Proof.
  unfold ParseSelector. destruct (if bool_decide _ then _ else _) as [|route]; [done|]. destruct (kind_of _); [|done].
  destruct (_ && _); [done|]. destruct (conflicting _ _); [done|]. intros [? _]%parse_kind_plain. done.
Qed.

(** C30: A parsed glob selects exactly the resources of its host whose path, without
    the query, its pattern matches segment by segment: a star within a segment
    stands for any bytes of that segment, a double star for any number of
    segments, and everything else for itself. *)
Theorem glob_selector_exact (i : Selector) (routes : option (list routeConfig)) (s : NormalizedSelector)
    (host uri : gostring) (tags : list gostring) :
  ParseSelector i routes = inr s -> n_Kind s = SelectorGlob ->
  (MatchesResource s host uri tags = true <-> host = n_Host s /\ path_matches (SplitByte (drop 1 (n_Pattern s)) 47) (stripQueryFromURI uri)) /\
  (forall pattern segment, matchSingleGlobSegment pattern segment = true <-> segment_matches pattern segment).
Proof.
  intros HP HK. split; [|exact matchSingleGlobSegment_exact].
  destruct (ParseSelector_plain _ _ _ HP) as (E1 & E2 & E3 & E4 & E5 & E6 & _ & E7). rewrite HK in E7.
  unfold MatchesResource, matchesInspectionRoutePath, matchesHost. rewrite E1, E2, HK, E3, E5. cbn [negb bool_decide andb orb].
  rewrite !bool_decide_true by done. cbn [negb orb andb]. rewrite orb_false_r, andb_true_iff, bool_decide_eq_true, matchAnchoredGlob_exact.
  replace (n_globSegments s) with (SplitByte (drop 1 (n_Pattern s)) 47); [done|].
  unfold validateSelectorGlob in E7. destruct (_ || _) in E7; congruence.
Qed.

(** *** No traversal through percent-encoding *)

Lemma uri_bytes_app a c b :
  isHexByte c = false -> uri_bytes_ok (a ++ c :: b) = true -> uri_bytes_ok a = true /\ uri_bytes_ok b = true.
Proof.
  intros Hc. induction a as [|x a IH]; cbn [app uri_bytes_ok].
  - rewrite !andb_true_iff. tauto.
  - rewrite !andb_true_iff, !negb_true_iff. intros [[Hx He] [H1 H2]%IH]. split_and!; [done| |done..].
    destruct (x =? 37); [|done]. cbn [andb] in *. destruct a as [|y [|z a]]; cbn [app bad_escape] in *; [| |done].
    + destruct b; cbn in He; rewrite ?Hc in He; done.
    + rewrite Hc, andb_false_r in He. done.
Qed.

(** Well-formed escapes are decoded, and to no control byte or backslash. *)
Definition clean_byte (c : Z) : Prop := 31 < c /\ c <> 127 /\ c <> 92.

Lemma uri_bytes_unescape s :
  uri_bytes_ok s = true -> exists d, PathUnescape s = Some d /\ Forall clean_byte d.
Proof.
  remember (length s) as n eqn:En. revert s En. induction n as [n IH] using lt_wf_ind. intros s ->.
  destruct s as [|c s]; [by exists []|]. cbn [uri_bytes_ok PathUnescape]. rewrite !andb_true_iff, !negb_true_iff. intros [[Hc He] Hs].
  destruct (Z.eqb_spec c 37) as [->|Hne].
  - destruct s as [|x [|y s]]; [done|done|]. cbn [andb bad_escape] in He. apply orb_false_iff in He as [Hh Hd].
    apply negb_false_iff in Hh. rewrite Hh. cbn [uri_bytes_ok] in Hs. rewrite !andb_true_iff in Hs.
    destruct (IH (length s) ltac:(cbn; lia) s eq_refl) as (d & -> & Hf); [tauto|].
    eexists. split; [done|]. constructor; [|done]. unfold clean_byte. lia.
  - destruct (IH (length s) ltac:(cbn; lia) s eq_refl Hs) as (d & -> & Hf). exists (c :: d). split; [done|].
    constructor; [|done]. unfold bad_byte, clean_byte in *. lia.
Qed.

Lemma hex_dot a b : isHexByte a = true -> isHexByte b = true -> 16 * fromHexByte a + fromHexByte b = 46 -> a = 50 /\ (b = 69 \/ b = 101).
Proof.
  unfold isHexByte, fromHexByte. intros Ha Hb.
  destruct ((48 <=? a) && (a <=? 57)) eqn:A1, ((48 <=? b) && (b <=? 57)) eqn:B1;
    destruct ((97 <=? a) && (a <=? 102)) eqn:A2, ((97 <=? b) && (b <=? 102)) eqn:B2; lia.
Qed.

(** What decodes to one or two dots is caught. *)
Lemma unescape_dot s d : PathUnescape s = Some (46 :: d) ->
  exists t, PathUnescape t = Some d /\ (s = 46 :: t \/ s = 37 :: 50 :: 69 :: t \/ s = 37 :: 50 :: 101 :: t).
Proof.
  destruct s as [|c s]; [done|]. cbn [PathUnescape]. destruct (Z.eqb_spec c 37) as [->|Hne].
  - destruct s as [|a [|b s]]; [done|done|]. destruct (isHexByte a) eqn:Ha; [|done]. destruct (isHexByte b) eqn:Hb; [|done]. cbn [andb].
    destruct (PathUnescape s) as [e|] eqn:E; [|done]. cbn. intros [= Hd ->]. destruct (hex_dot a b Ha Hb Hd) as [-> [->| ->]]; exists s; auto.
  - destruct (PathUnescape s) as [e|] eqn:E; [|done]. cbn. intros [= -> ->]. exists s. auto.
Qed.

Lemma unescape_nil s : PathUnescape s = Some [] -> s = [].
Proof.
  destruct s as [|c s]; [done|]. cbn [PathUnescape]. destruct (c =? 37); [|by destruct (PathUnescape s)].
  destruct s as [|a [|b s]]; [done|done|]. destruct (_ && _); [|done]. by destruct (PathUnescape s).
Qed.

Lemma dots_caught s d : PathUnescape s = Some d -> d = str "." \/ d = str ".." -> dot_segment s = true.
Proof.
  intros E [->| ->]; apply unescape_dot in E as (t & Et & Es).
  - apply unescape_nil in Et as ->. destruct Es as [->|[->| ->]]; vm_compute; reflexivity.
  - apply unescape_dot in Et as (u & Eu & Et). apply unescape_nil in Eu as ->.
    destruct Es as [->|[->| ->]], Et as [->|[->| ->]]; vm_compute; reflexivity.
Qed.

Lemma uri_bytes_segments s : uri_bytes_ok s = true -> Forall (fun seg => uri_bytes_ok seg = true) (SplitByte s 47).
Proof.
  remember (length s) as n eqn:En. revert s En. induction n as [n IH] using lt_wf_ind. intros s -> Hs.
  destruct (decide (47 ∈ s)) as [(a & b & -> & Hn)%list_elem_of_split_l|Hn].
  - rewrite SplitByte_app by done. apply uri_bytes_app in Hs as [Ha Hb]; [|done].
    constructor; [done|]. eapply IH; [|done|done]. rewrite length_app. cbn. lia.
  - rewrite SplitByte_single by done. by constructor.
Qed.

(** A URI a selector may name cannot climb: it is rooted and bounded, and every
    segment of its path, percent-decoded, is neither a dot nor a double dot and
    has no control byte and no backslash, in whatever case the escapes are
    written. *)
Theorem selector_uri_sound (raw field uri seg : gostring) :
  validateRawRequestURI raw field = inr uri -> seg ∈ SplitByte (drop 1 (stripQueryFromURI uri)) 47 ->
  uri = raw /\ head uri = Some 47 /\ zlen uri <= MaxSelectorURIBytes /\
  exists d, PathUnescape seg = Some d /\ d <> str "." /\ d <> str ".." /\ Forall clean_byte d.
Proof.
  intros HV Hseg. pose proof (validateRawRequestURI_same _ _ _ HV) as ->. unfold validateRawRequestURI in HV.
  destruct (_ || _) eqn:E in HV; [done|]. rewrite !orb_false_iff, !negb_false_iff in E. destruct E as [[[[[_ HL] HR] _] HB] HD].
  apply HasPrefix_slash in HR as [rest ->]. split_and!; [done|done|lia|].
  assert (Hp : exists path, stripQueryFromURI (47 :: rest) = 47 :: path /\ uri_bytes_ok path = true).
  { unfold stripQueryFromURI. cbn [IndexByte Z.eqb Pos.eqb]. cbn [uri_bytes_ok] in HB. rewrite !andb_true_iff in HB. destruct HB as [_ HB].
    destruct (IndexByte rest 63) as [q|] eqn:Eq; cbn; [|by exists rest]. exists (take q rest). split; [done|].
    assert (exists b, rest = take q rest ++ 63 :: b) as [b Eb].
    { clear -Eq. revert q Eq. induction rest as [|x rest IH]; intros q; cbn; [done|]. destruct (Z.eqb_spec x 63) as [->|].
      - intros [= <-]. by exists rest.
      - destruct (IndexByte rest 63) as [q'|]; [|done]. intros [= <-]. destruct (IH q' eq_refl) as [b E]. exists b. cbn. by rewrite <- E. }
    rewrite Eb in HB. by apply uri_bytes_app in HB as [? _]. }
  destruct Hp as (path & Ep & Hpath). rewrite Ep in *. cbn [drop] in Hseg.
  pose proof (uri_bytes_segments _ Hpath) as HF. rewrite Forall_forall in HF. specialize (HF seg Hseg).
  destruct (uri_bytes_unescape seg HF) as (d & Ed & Hd). exists d.
  assert (Hno : dot_segment seg = false).
  { unfold hasDotSegment in HD. rewrite (proj2 (HasPrefix_slash (47 :: path))) in HD by eauto. cbn [negb drop] in HD.
    apply not_true_iff_false. intros Es. rewrite <- not_true_iff_false in HD. apply HD. apply existsb_exists. exists seg. split; [by apply list_elem_of_In|done]. }
  split_and!; [done| | |done]; intros ->; rewrite (dots_caught _ _ Ed) in Hno; auto; done.
Qed.
End Parsed.

Definition demo_glob : Selector :=
  MkSelector (str "glob") (str "shop.example") [] [] [] (str "/a/**/im*.png") [] [] [] [] false.

Lemma glob_selector_exact_witness :
  exists s, ParseSelector (H := no_unicode) demo_glob None = inr s /\
    (MatchesResource s (str "shop.example") (str "/a/b/c/img1.png?v=2") [] = true <->
     str "shop.example" = n_Host s /\ path_matches (SplitByte (drop 1 (n_Pattern s)) 47) (str "/a/b/c/img1.png")).
Proof.
  destruct (ParseSelector (H := no_unicode) demo_glob None) as [|s] eqn:E; [by vm_compute in E|]. exists s. split; [done|].
  apply (glob_selector_exact (H := no_unicode) demo_glob None s (str "shop.example") (str "/a/b/c/img1.png?v=2") []); [done|].
  by vm_compute in E; injection E as <-.
Defined.

Lemma selector_uri_sound_witness :
  validateRawRequestURI (H := no_unicode) (str "/a/%2e%2Ex/b?q=../..") (str "uri") = inr (str "/a/%2e%2Ex/b?q=../..") /\
  exists d, PathUnescape (str "%2e%2Ex") = Some d /\ d <> str "." /\ d <> str ".." /\ Forall clean_byte d.
Proof.
  split; [by vm_compute|].
  refine (proj2 (proj2 (proj2 (selector_uri_sound (H := no_unicode) (str "/a/%2e%2Ex/b?q=../..") (str "uri") _ (str "%2e%2Ex") _ _)))); [by vm_compute|].
  vm_compute. right. left.
Defined.

(** A purge by key detaches every validation in flight: the test compares the
    call's key with itself, where that of the fills compares with the purged
    key. *)
Lemma key_purge_detaches_all (sel : NormalizedSelector) tags rk m h u v :
  n_Kind sel = SelectorKey -> n_cutoverRouteScopes sel = [] -> parseBaseKeyParts (baseKeyOf rk.1.1.1) = Some (m, h, u, v) ->
  call_hit sel tags true rk = true.
Proof.
  destruct rk as [[[key gen] route] digest]. cbn. intros HK HC HP. rewrite HC, HP, HK. cbn.
  by rewrite (bool_decide_true (baseKeyOf key = baseKeyOf key)), orb_true_r.
Qed.
