(* ===== verification/CacheFence.v ===== *)
(** * Purge fences (src/internal/cache/scoped_purge.go, cache.go)

    A purge must also stop what is on its way: a response whose fetch started
    before the purge may not be published after it.  The cache numbers fetches
    and purges from one sequence and keeps, for every purge that a fetch in
    flight may have to respect, a fence with its selector.  Fences are bounded:
    completed ones with the same selector are merged, those beyond the cap are
    replaced by a floor for their host or for the whole cache, and those that no
    fetch in flight predates are dropped.  Every operation runs under one mutex
    and is a function here; the generations are unbounded integers. *)
From S2P Require Import Prelude GoStrings Bytes Netip Http CacheEntry CacheKey CacheTags CacheReuse CacheFlight CacheSelector.

Definition MaxActiveFences : nat := 256.
Definition MaxUint64 : Z := 2 ^ 64 - 1.

(** ** The digest of a selector *)

Definition kind_text (k : SelectorKind) : gostring :=
  match k with
  | SelectorExactURL => str "exact_url" | SelectorPrefix => str "prefix" | SelectorGlob => str "glob" | SelectorTag => str "tag"
  | SelectorHost => str "host" | SelectorKey => str "key" | SelectorAll => str "all"
  end.
Definition mode_text (m : option TagMatchMode) : gostring :=
  match m with None => [] | Some TagMatchAny => str "any" | Some TagMatchAll => str "all" end.

(** [writePart]: the length, the bytes and a newline. *)
Definition part (p : gostring) : gostring := Itoa (zlen p) ++ 58 :: p ++ [10].

Definition selector_parts (s : NormalizedSelector) : list gostring :=
  [kind_text (n_Kind s); n_Host s; n_URI s; n_Prefix s; n_Pattern s; mode_text (n_TagMatch s); n_Key s; n_RouteID s]
  ++ (if given (n_cutoverExactPath s) || given (n_cutoverRawPrefix s) || n_cutoverMatchAnyPort s
      then [n_cutoverExactPath s; n_cutoverRawPrefix s; if n_cutoverMatchAnyPort s then str "1" else str "0"] else [])
  ++ (if given (n_inspectionRouteExact s) || given (n_inspectionRoutePrefix s) then [n_inspectionRouteExact s; n_inspectionRoutePrefix s] else [])
  ++ (if bool_decide (n_cutoverRouteScopes s = []) then []
      else [str "cutover_scopes"; Itoa (Z.of_nat (length (n_cutoverRouteScopes s)))] ++ n_cutoverRouteScopes s)
  ++ Itoa (Z.of_nat (length (n_Tags s))) :: n_Tags s.

(** ** The state *)

Record selectorFence := MkFence {
  f_gen : Z;
  f_sel : NormalizedSelector;
  f_active : bool;
  f_remaining : Z;
  f_matched : gset gostring }.

Definition completed (f : selectorFence) : bool := negb (f_active f) && (f_remaining f =? 0).

Record fenceState := MkFences {
  genSeq : Z;
  purgeGen : Z;
  originOpSeq : Z;
  inflightOps : gmap Z Z;
  fences : list selectorFence;
  fenceFloorGen : Z;
  hostFenceFloorGen : gmap gostring Z;
  incompleteFloorGen : Z;
  incompleteHostFloorGen : gmap gostring Z;
  evictedIncompleteHostGens : gmap gostring (gset Z);
  latestFenceGen : Z;
  incompleteFenceGen : Z;
  incompleteFenceHost : option gostring }.

Definition no_fences : fenceState := MkFences 0 0 0 ∅ [] 0 ∅ 0 ∅ ∅ 0 0 None.

Section Fences.
Context `{Sha256}.

Definition computeSelectorDigest (s : NormalizedSelector) : list Z := sha256 (concat (map part (selector_parts s))).

(** ** Maintenance *)

Definition minInflightStartGenLocked (s : fenceState) : Z := map_fold (fun _ g m => Z.min g m) MaxUint64 (inflightOps s).

(** Merging completed fences with the same digest into the first of them. *)
Definition merge_fence (f p : selectorFence) : selectorFence :=
  MkFence (Z.max (f_gen f) (f_gen p)) (f_sel p) (f_active p) (f_remaining p) (f_matched p ∪ f_matched f).

Fixpoint coalesce_into (f : selectorFence) (l : list selectorFence) : list selectorFence :=
  match l with
  | [] => [f]
  | p :: l =>
      if completed p && bool_decide (computeSelectorDigest (f_sel p) = computeSelectorDigest (f_sel f))
      then merge_fence f p :: l else p :: coalesce_into f l
  end.

Definition coalesce (l : list selectorFence) : list selectorFence :=
  foldl (fun acc f => if completed f then coalesce_into f acc else acc ++ [f]) [] l.

(** The first completed fence, or else the first. *)
Fixpoint first_completed (l : list selectorFence) : option (selectorFence * list selectorFence) :=
  match l with
  | [] => None
  | f :: l => if completed f then Some (f, l) else match first_completed l with Some (e, r) => Some (e, f :: r) | None => None end
  end.

Definition pick_evicted (l : list selectorFence) : option (selectorFence * list selectorFence) :=
  match first_completed l with
  | Some x => Some x
  | None => match l with f :: l => Some (f, l) | [] => None end
  end.

(** What evicting a fence leaves behind. *)
Definition raise (g : Z) (o : option Z) : option Z := Some (Z.max g (default 0 o)).

Definition leave_floor (e : selectorFence) (s : fenceState) : fenceState :=
  if completed e && negb (bool_decide (n_cutoverRouteScopes (f_sel e) = [])) then s
  else
    let host := n_Host (f_sel e) in
    if given host && negb (bool_decide (n_Kind (f_sel e) = SelectorAll)) then
      MkFences (genSeq s) (purgeGen s) (originOpSeq s) (inflightOps s) (fences s) (fenceFloorGen s)
        (partial_alter (raise (f_gen e)) host (hostFenceFloorGen s)) (incompleteFloorGen s)
        (if completed e then incompleteHostFloorGen s else partial_alter (raise (f_gen e)) host (incompleteHostFloorGen s))
        (if completed e then evictedIncompleteHostGens s
         else partial_alter (fun o => Some (default ∅ o ∪ {[f_gen e]})) host (evictedIncompleteHostGens s))
        (latestFenceGen s) (incompleteFenceGen s) (incompleteFenceHost s)
    else
      MkFences (genSeq s) (purgeGen s) (originOpSeq s) (inflightOps s) (fences s) (Z.max (f_gen e) (fenceFloorGen s))
        (hostFenceFloorGen s) (if completed e then incompleteFloorGen s else Z.max (f_gen e) (incompleteFloorGen s))
        (incompleteHostFloorGen s) (evictedIncompleteHostGens s) (latestFenceGen s) (incompleteFenceGen s) (incompleteFenceHost s).

Definition set_fences (l : list selectorFence) (s : fenceState) : fenceState :=
  MkFences (genSeq s) (purgeGen s) (originOpSeq s) (inflightOps s) l (fenceFloorGen s) (hostFenceFloorGen s) (incompleteFloorGen s)
    (incompleteHostFloorGen s) (evictedIncompleteHostGens s) (latestFenceGen s) (incompleteFenceGen s) (incompleteFenceHost s).

Fixpoint evict_fences (fuel : nat) (s : fenceState) : fenceState :=
  match fuel with
  | O => s
  | S fuel =>
      if (MaxActiveFences <? length (fences s))%nat then
        match pick_evicted (fences s) with
        | Some (e, rest) => evict_fences fuel (leave_floor e (set_fences rest s))
        | None => s
        end
      else s
  end.

(** The host of every incomplete fence, when there is just one. *)
Fixpoint single_host (host : option gostring) (l : list selectorFence) : option gostring :=
  match l with
  | [] => host
  | f :: l =>
      if completed f then single_host host l
      else if bool_decide (n_Kind (f_sel f) = SelectorAll) || negb (given (n_Host (f_sel f))) || n_cutoverMatchAnyPort (f_sel f) then None
      else match host with
      | Some h => if bool_decide (h = n_Host (f_sel f)) then single_host host l else None
      | None => single_host (Some (n_Host (f_sel f))) l
      end
  end.

Definition updateFenceAtomicsLocked (maxGen incompleteMax : Z) (s : fenceState) : fenceState :=
  let host :=
    if (incompleteMax =? 0) || (0 <? incompleteFloorGen s) || (1 <? size (incompleteHostFloorGen s))%nat then None
    else match map_to_list (incompleteHostFloorGen s) with
    | [(h, hg)] => if 0 <? hg then (if given h then single_host (Some h) (fences s) else None) else single_host None (fences s)
    | _ => single_host None (fences s)
    end in
  MkFences (genSeq s) (purgeGen s) (originOpSeq s) (inflightOps s) (fences s) (fenceFloorGen s) (hostFenceFloorGen s) (incompleteFloorGen s)
    (incompleteHostFloorGen s) (evictedIncompleteHostGens s) maxGen incompleteMax host.

Definition max_floor (m : gmap gostring Z) (g : Z) : Z := map_fold (fun _ a b => Z.max a b) g m.

Definition refresh_atomics (s : fenceState) : fenceState :=
  updateFenceAtomicsLocked
    (foldl (fun m f => Z.max m (f_gen f)) (max_floor (hostFenceFloorGen s) (fenceFloorGen s)) (fences s))
    (foldl (fun m f => if completed f then m else Z.max m (f_gen f)) (max_floor (incompleteHostFloorGen s) (incompleteFloorGen s)) (fences s)) s.

Definition enforceFenceCapLocked (s : fenceState) : fenceState :=
  let s := if (1 <? length (fences s))%nat then set_fences (coalesce (fences s)) s else s in
  refresh_atomics (evict_fences (length (fences s)) s).

Definition set_floors (hosts ihosts : gmap gostring Z) (evicted : gmap gostring (gset Z)) (s : fenceState) : fenceState :=
  MkFences (genSeq s) (purgeGen s) (originOpSeq s) (inflightOps s) (fences s) (fenceFloorGen s) hosts (incompleteFloorGen s)
    ihosts evicted (latestFenceGen s) (incompleteFenceGen s) (incompleteFenceHost s).

Definition clearEvictedIncompleteFenceLocked (host : gostring) (fenceGen : Z) (s : fenceState) : fenceState :=
  match evictedIncompleteHostGens s !! host with
  | None => s
  | Some gm =>
      if negb (given host) then s
      else
        let gm := gm ∖ {[fenceGen]} in
        if bool_decide (gm = ∅)
        then set_floors (hostFenceFloorGen s) (delete host (incompleteHostFloorGen s)) (delete host (evictedIncompleteHostGens s)) s
        else set_floors (hostFenceFloorGen s) (<[host := set_fold Z.max 0 gm]> (incompleteHostFloorGen s))
               (<[host := gm]> (evictedIncompleteHostGens s)) s
  end.

Definition reclaimFencesLocked (s : fenceState) : fenceState :=
  let minInflight := minInflightStartGenLocked s in
  let hosts := if minInflight =? MaxUint64 then ∅ else filter (fun hg => minInflight <= hg.2) (hostFenceFloorGen s) in
  let s := set_floors hosts (incompleteHostFloorGen s) (evictedIncompleteHostGens s) s in
  match fences s with
  | [] => refresh_atomics s
  | _ => enforceFenceCapLocked (set_fences (filter (fun f => completed f = false \/ minInflight <= f_gen f) (fences s)) s)
  end.

(** ** Operations *)

Definition set_ops (genSeq' opSeq : Z) (ops : gmap Z Z) (s : fenceState) : fenceState :=
  MkFences genSeq' (purgeGen s) opSeq ops (fences s) (fenceFloorGen s) (hostFenceFloorGen s) (incompleteFloorGen s)
    (incompleteHostFloorGen s) (evictedIncompleteHostGens s) (latestFenceGen s) (incompleteFenceGen s) (incompleteFenceHost s).

Definition beginInflightOriginOp (s : fenceState) : fenceState :=
  let id := originOpSeq s + 1 in
  let g := genSeq s + 1 in
  set_ops g id (<[id := g]> (inflightOps s)) s.

Definition endInflightOriginOp (id : Z) (s : fenceState) : fenceState :=
  reclaimFencesLocked (set_ops (genSeq s) (originOpSeq s) (delete id (inflightOps s)) s).

(** A publication, a deletion or a policy change takes a number too. *)
Definition next_gen (s : fenceState) : fenceState := set_ops (genSeq s + 1) (originOpSeq s) (inflightOps s) s.

(** The resources a selector matches among the indexed base keys. *)
Definition snapshotMatchedResourcesLocked (tags : gostring -> list gostring) (candidates : list gostring) (sel : NormalizedSelector) : gset gostring :=
  if bool_decide (n_Kind sel = SelectorAll) || bool_decide (n_Kind sel = SelectorKey) then ∅
  else list_to_set (omap (fun bk =>
    match parseBaseKeyParts bk with
    | Some (_, host, reqURI, _) =>
        let resKey := resourceKeyOf host reqURI in
        if MatchesResource sel host reqURI (tags resKey) then Some resKey else None
    | None => None
    end) candidates).

Definition append_fence (f : selectorFence) (s : fenceState) : fenceState := set_fences (fences s ++ [f]) s.

(** [BeginSelectorFenceWithError], and a first [InvalidateScope]: a new number,
    an active fence and the cap. *)
Definition install_fence (sel : NormalizedSelector) (matched : gset gostring) (s : fenceState) : fenceState :=
  let s := next_gen s in enforceFenceCapLocked (append_fence (MkFence (genSeq s) sel true 0 matched) s).

Definition alter_first (g : Z) (h : selectorFence -> selectorFence) : list selectorFence -> list selectorFence :=
  fix go l := match l with [] => [] | f :: l => if f_gen f =? g then h f :: l else f :: go l end.

(** The end of a purge: [remaining] entries are left over. *)
Definition complete_fence (g : Z) (host : gostring) (remaining : Z) (s : fenceState) : fenceState :=
  let s := set_fences (alter_first g (fun f => MkFence (f_gen f) (f_sel f) false remaining (f_matched f)) (fences s)) s in
  reclaimFencesLocked (if remaining =? 0 then clearEvictedIncompleteFenceLocked host g s else s).

(** A retry reuses the number of its purge.  A fence of that number with another
    selector makes the retry fail. *)
Definition has_gen (g : Z) (s : fenceState) : bool := existsb (fun f => f_gen f =? g) (fences s).

Definition other_selector (g : Z) (sel : NormalizedSelector) (s : fenceState) : bool :=
  match List.find (fun f => f_gen f =? g) (fences s) with
  | Some f => negb (bool_decide (computeSelectorDigest (f_sel f) = computeSelectorDigest sel))
  | None => false
  end.

Definition reuse_gen (g : Z) (s : fenceState) : fenceState := set_ops (Z.max g (genSeq s)) (originOpSeq s) (inflightOps s) s.

(** The fence of the retry is active again, or put back if it is gone. *)
Definition reopen_fence (g : Z) (sel : NormalizedSelector) (matched : gset gostring) (s : fenceState) : fenceState :=
  if other_selector g sel s then s
  else
    let s := reuse_gen g s in
    let s :=
      if bool_decide (n_Kind sel = SelectorAll) && bool_decide (n_cutoverRouteScopes sel = []) then
        MkFences (genSeq s) (Z.max g (purgeGen s)) (originOpSeq s) (inflightOps s) (fences s) (Z.max g (fenceFloorGen s)) (hostFenceFloorGen s)
          (incompleteFloorGen s) (incompleteHostFloorGen s) (evictedIncompleteHostGens s) (latestFenceGen s) (incompleteFenceGen s) (incompleteFenceHost s)
      else s in
    enforceFenceCapLocked
      (if has_gen g s
       then set_fences (alter_first g (fun f => MkFence (f_gen f) (f_sel f) true (f_remaining f) (f_matched f ∪ matched)) (fences s)) s
       else append_fence (MkFence g sel true 0 matched) s).

(** The purge could not be recorded: its number, new or reused, is fenced all the
    same. *)
Definition failed_commit (reuse : option Z) (sel : NormalizedSelector) (matched : gset gostring) (s : fenceState) : fenceState :=
  if match reuse with Some g => other_selector g sel s | None => false end then s
  else
    let s := match reuse with Some g => reuse_gen g s | None => next_gen s end in
    let g := default (genSeq s) reuse in
    reclaimFencesLocked (if has_gen g s then s else append_fence (MkFence g sel false 0 matched) s).

(** The purge of everything replaces every fence by its number. *)
Definition purge_all (s : fenceState) : fenceState :=
  let s := next_gen s in
  MkFences (genSeq s) (genSeq s) (originOpSeq s) (inflightOps s) [] (genSeq s) ∅ 0 ∅ ∅ (genSeq s) 0 None.

Inductive fenceOp :=
| OBegin
| OEnd (id : Z)
| ONext
| OFence (sel : NormalizedSelector) (matched : gset gostring)
| OComplete (g : Z) (host : gostring) (remaining : Z)
| OReopen (g : Z) (sel : NormalizedSelector) (matched : gset gostring)
| OFailed (reuse : option Z) (sel : NormalizedSelector) (matched : gset gostring)
| OPurgeAll.

Definition fence_step (s : fenceState) (o : fenceOp) : fenceState :=
  match o with
  | OBegin => beginInflightOriginOp s
  | OEnd id => endInflightOriginOp id s
  | ONext => next_gen s
  | OFence sel matched => install_fence sel matched s
  | OComplete g host remaining => complete_fence g host remaining s
  | OReopen g sel matched => reopen_fence g sel matched s
  | OFailed reuse sel matched => failed_commit reuse sel matched s
  | OPurgeAll => purge_all s
  end.

(** ** The test before a publication *)

(** What the test reads of the catalogue: the tags indexed for a resource and the
    route scope recorded for a key. *)
Context (resTags : gostring -> list gostring) (recordedScope : gostring -> gostring).

Definition keyRouteScopeLocked (key : gostring) : gostring :=
  let s := routeScopeFromVariantKey key in if given s then s else recordedScope key.

(** Whether one fence matches, its number aside. *)
Definition fence_hit (f : selectorFence) (key : gostring) (tags extraTags : list gostring) : bool :=
  let scope := keyRouteScopeLocked key in
  if negb (bool_decide (n_cutoverRouteScopes (f_sel f) = [])) && given scope && negb (matchesCutoverRoute (f_sel f) scope) then false
  else if bool_decide (n_Kind (f_sel f) = SelectorKey)
  then bool_decide (key = n_Key (f_sel f)) || bool_decide (baseKeyOf key = n_Key (f_sel f))
  else match parseBaseKeyParts key with
  | None => false
  | Some (_, host, reqURI, _) =>
      let resKey := resourceKeyOf host reqURI in
      bool_decide (resKey ∈ f_matched f)
      || MatchesResource (f_sel f) host reqURI (mergeBaseTagSets [tags; extraTags; resTags resKey])
  end.

Definition matchesAnyFenceLocked (s : fenceState) (entryGen : Z) (key : gostring) (tags extraTags : list gostring) (onlyIncomplete : bool) : bool :=
  existsb (fun f => (entryGen <=? f_gen f) && negb (onlyIncomplete && completed f) && fence_hit f key tags extraTags) (fences s).

(** A floor for the host of a key, with or without its port. *)
Definition under_floor (floors : gmap gostring Z) (entryGen : Z) (key : gostring) : bool :=
  match parseBaseKeyParts key with
  | None => false
  | Some (_, host, _, _) =>
      let below h := match floors !! h with Some hf => (0 <? hf) && (entryGen <=? hf) | None => false end in
      let bare := stripSelectorHostPort host in
      below host || negb (bool_decide (bare = host)) && below bare
  end.

Definition isPublicationFencedLocked (s : fenceState) (entryGen : Z) (key : gostring) (tags extraTags : list gostring) : bool :=
  (entryGen <? purgeGen s)
  || (0 <? fenceFloorGen s) && (entryGen <=? fenceFloorGen s)
  || under_floor (hostFenceFloorGen s) entryGen key
  || matchesAnyFenceLocked s entryGen key tags extraTags false.

Definition isResidentEntryFencedLocked (s : fenceState) (entryGen : Z) (key : gostring) (tags : list gostring) : bool :=
  (entryGen <? purgeGen s)
  || (0 <? incompleteFloorGen s) && (entryGen <=? incompleteFloorGen s)
  || under_floor (incompleteHostFloorGen s) entryGen key
  || matchesAnyFenceLocked s entryGen key tags [] true.

(** The lock-free test of [get] before the locked one. *)
Definition mayMatchIncompleteFenceHost (s : fenceState) (key : gostring) : bool :=
  match incompleteFenceHost s with
  | None => true
  | Some hp =>
      if negb (given hp) then true
      else
        let '(_, rest, ok1) := CutByte key 10 in
        let '(host, _, ok2) := CutByte rest 10 in
        if ok1 && ok2 then bool_decide (host = hp) else true
  end.

Definition get_fenced (s : fenceState) (mgen : Z) (key : gostring) (tags : list gostring) : bool :=
  (0 <? incompleteFenceGen s) && (mgen <=? incompleteFenceGen s) && mayMatchIncompleteFenceHost s key
  && isResidentEntryFencedLocked s mgen key tags.

(** ** The digest determines a parsed selector *)

Context `{Unicode}.

Lemma part_inj p q a b :
  zlen p <= max_int64 -> zlen q <= max_int64 -> part p ++ a = part q ++ b -> p = q /\ a = b.
Proof.
  unfold part. rewrite <- !app_assoc. cbn [app]. intros Hp Hq E.
  apply Itoa_length_cut in E as [El E]; [|done..]. rewrite <- !app_assoc in E.
  apply app_inj_1 in E as [-> E]; [|done]. by injection E.
Qed.

Lemma concat_parts_inj l k :
  Forall (fun v => zlen v <= max_int64) l -> Forall (fun v => zlen v <= max_int64) k ->
  concat (map part l) = concat (map part k) -> l = k.
Proof.
  intros HL. revert k. induction HL as [|p l Hp HL IH]; intros [|q k] HK; cbn [map concat]; [done|..].
  - unfold part at 1. by destruct (Itoa _).
  - unfold part at 1. by destruct (Itoa _).
  - apply Forall_cons in HK as [Hq HK]. intros [-> E]%part_inj; [|done..]. by rewrite (IH k).
Qed.

Lemma kind_text_inj a b : kind_text a = kind_text b -> a = b.
Proof. by destruct a, b. Qed.

Lemma mode_text_inj a b : mode_text a = mode_text b -> a = b.
Proof. by destruct a as [[]|], b as [[]|]. Qed.

(** A selector in use: a parsed one, or that of a route cutover; its parts have
    lengths a Go program can have. *)
Definition cutover_selector (s : NormalizedSelector) : Prop :=
  n_cutoverMatchAnyPort s = true /\ n_Kind s <> SelectorTag.

Definition used_selector (s : NormalizedSelector) : Prop :=
  (plain_selector s \/ cutover_selector s) /\ Forall (fun v => zlen v <= max_int64) (selector_parts s).

Lemma plain_parts s : plain_selector s ->
  selector_parts s = [kind_text (n_Kind s); n_Host s; n_URI s; n_Prefix s; n_Pattern s; mode_text (n_TagMatch s); n_Key s; n_RouteID s]
    ++ Itoa (Z.of_nat (length (n_Tags s))) :: n_Tags s.
Proof. intros (E1 & E2 & E3 & E4 & E5 & E6 & _). unfold selector_parts. by rewrite E1, E2, E3, E4, E5, E6. Qed.

(** Same kind and same fields. *)
Definition same_selector (a s : NormalizedSelector) : Prop := plain_selector a /\ selector_parts a = selector_parts s.

Lemma parts_plain a s : used_selector a -> plain_selector s -> selector_parts a = selector_parts s -> plain_selector a.
Proof.
  intros [[Ha|[E5 HK]] _] Hs E; [done|exfalso]. rewrite (plain_parts s Hs) in E. unfold selector_parts in E.
  rewrite E5, orb_true_r in E. injection E as EK _ _ _ _ _ _ _ _ E. apply kind_text_inj in EK.
  destruct Hs as (_ & _ & _ & _ & _ & _ & HT & _). by rewrite HT in E by congruence.
Qed.

Lemma digest_same a b s :
  (forall x y, sha256 x = sha256 y -> x = y) -> used_selector a -> used_selector b -> plain_selector s ->
  computeSelectorDigest a = computeSelectorDigest b -> same_selector b s -> same_selector a s.
Proof.
  intros Hsha Ha Hb Hs E [Hpb Eb]. unfold computeSelectorDigest in E. apply Hsha, concat_parts_inj in E; [|apply Ha|apply Hb].
  rewrite Eb in E. split; [exact (parts_plain a s Ha Hs E)|done].
Qed.

Lemma same_fields a s : plain_selector s -> same_selector a s ->
  n_Kind a = n_Kind s /\ n_Host a = n_Host s /\ n_URI a = n_URI s /\ n_Prefix a = n_Prefix s /\ n_Pattern a = n_Pattern s /\
  n_TagMatch a = n_TagMatch s /\ n_Key a = n_Key s /\ n_Tags a = n_Tags s.
Proof.
  intros Hs [Ha E]. rewrite (plain_parts a), (plain_parts s) in E by done.
  injection E as E1 E2 E3 E4 E5 E6 E7 _ _ E8. apply kind_text_inj in E1. apply mode_text_inj in E6. done.
Qed.

Lemma same_MatchesResource a s host uri tags :
  plain_selector s -> same_selector a s -> MatchesResource a host uri tags = MatchesResource s host uri tags.
Proof.
  intros Hs Ha. destruct (same_fields a s Hs Ha) as (E1 & E2 & E3 & E4 & E5 & E6 & E7 & E8). destruct Ha as [Ha _].
  destruct Hs as (S1 & S2 & S3 & S4 & S5 & S6 & _ & S8), Ha as (A1 & A2 & A3 & A4 & A5 & A6 & _ & A8).
  unfold MatchesResource, matchesInspectionRoutePath, matchesHost. rewrite S1, S2, S3, S4, S5, A1, A2, A3, A4, A5, E2, E3, E4, E6, E8.
  rewrite E1 in *. destruct (n_Kind s); try done. rewrite E5 in A8. rewrite A8 in S8. injection S8 as ->. done.
Qed.

(** A fence with more matched resources and the same selector stops as much. *)
Lemma same_fence_hit f g key tags extra :
  plain_selector (f_sel f) -> same_selector (f_sel g) (f_sel f) -> f_matched f ⊆ f_matched g ->
  fence_hit f key tags extra = true -> fence_hit g key tags extra = true.
Proof.
  intros Hf Hg HM. unfold fence_hit. destruct (same_fields _ _ Hf Hg) as (E1 & _ & _ & _ & _ & _ & E7 & _).
  assert (n_cutoverRouteScopes (f_sel f) = []) as -> by apply Hf. assert (n_cutoverRouteScopes (f_sel g) = []) as -> by apply Hg.
  cbn. rewrite E1, E7. case_bool_decide; [done|]. destruct (parseBaseKeyParts key) as [[[[m h] u] v]|]; [|done].
  rewrite (same_MatchesResource _ _ _ _ _ Hf Hg), !orb_true_iff, !bool_decide_eq_true. set_solver.
Qed.

(** ** A fence outlives the fetches it has to stop *)

Section Kept.
Context (Hsha : forall x y, sha256 x = sha256 y -> x = y).
Context (F : selectorFence) (HF : plain_selector (f_sel F)).

(** A fence that stands for [F]. *)
Definition stands (f : selectorFence) : Prop :=
  f_gen F <= f_gen f /\ same_selector (f_sel f) (f_sel F) /\ f_matched F ⊆ f_matched f.

Definition has_host (s : NormalizedSelector) : Prop := n_Host s <> [] /\ n_Kind s <> SelectorAll.

(** No fetch in flight predates [F], or something that replaces it is kept. *)
Definition covered (s : fenceState) : Prop :=
  (forall id g, inflightOps s !! id = Some g -> f_gen F < g) \/
  f_gen F <= fenceFloorGen s \/
  (has_host (f_sel F) /\ exists hg, hostFenceFloorGen s !! n_Host (f_sel F) = Some hg /\ f_gen F <= hg) \/
  Exists stands (fences s).

Definition used_fences (s : fenceState) : Prop := Forall (fun f => used_selector (f_sel f)) (fences s).

Lemma coalesce_into_used f l :
  used_selector (f_sel f) -> Forall (fun f => used_selector (f_sel f)) l -> Forall (fun f => used_selector (f_sel f)) (coalesce_into f l).
Proof.
  intros Hf. induction 1 as [|p l Hp HL IH]; cbn; [by constructor|]. destruct (_ && _); by constructor.
Qed.

Lemma coalesce_into_old f l : Exists stands l -> Exists stands (coalesce_into f l).
Proof.
  induction 1 as [p l (H1 & H2 & H3)|p l Hl IH]; cbn; destruct (_ && _); try (by constructor).
  left. split_and!; cbn; [lia|done|set_solver].
Qed.

Lemma coalesce_into_new f l :
  used_selector (f_sel f) -> Forall (fun f => used_selector (f_sel f)) l -> stands f -> Exists stands (coalesce_into f l).
Proof.
  intros Hu HL (H1 & H2 & H3). induction HL as [|p l Hp HL IH]; cbn; [by left|].
  destruct (completed p); cbn; [case_bool_decide as E|]; [|by right..].
  left. split_and!; cbn; [lia|exact (digest_same (f_sel p) (f_sel f) (f_sel F) Hsha Hp Hu HF E H2)|set_solver].
Qed.

Lemma coalesce_kept l :
  Forall (fun f => used_selector (f_sel f)) l ->
  Forall (fun f => used_selector (f_sel f)) (coalesce l) /\ (Exists stands l -> Exists stands (coalesce l)).
Proof.
  intros HL. unfold coalesce.
  induction l as [|f l IH] using rev_ind; [done|]. apply Forall_app in HL as [HL [Hf _]%Forall_cons].
  destruct (IH HL) as [IH1 IH2]. rewrite foldl_app. cbn. split.
  - destruct (completed f); [apply coalesce_into_used; [exact Hf|exact IH1]|]. apply Forall_app. split; [done|]. by constructor.
  - intros [Hl|Hl]%Exists_app.
    + destruct (completed f); [by apply coalesce_into_old, IH2|]. apply Exists_app. left. by apply IH2.
    + apply Exists_cons in Hl as [Hl|Hl%Exists_nil]; [|done].
      destruct (completed f); [by apply coalesce_into_new|]. apply Exists_app. right. by left.
Qed.

Lemma pick_evicted_perm l e rest : pick_evicted l = Some (e, rest) -> l ≡ₚ e :: rest.
Proof.
  assert (forall l e rest, first_completed l = Some (e, rest) -> l ≡ₚ e :: rest) as HC.
  { clear. induction l as [|f l IH]; cbn; [done|]. intros e rest. destruct (completed f); [by intros [= -> ->]|].
    destruct (first_completed l) as [[e' r]|]; [|done]. intros [= <- <-]. rewrite (IH e' r) by done. apply Permutation_swap. }
  unfold pick_evicted. destruct (first_completed l) as [[e' r]|] eqn:E; [intros [= <- <-]; by apply HC|].
  destruct l; [done|]. by intros [= -> ->].
Qed.

(** Evicting a fence that stands for [F] leaves a floor that covers it. *)
Lemma leave_floor_stands e s : stands e -> covered (leave_floor e s).
Proof.
  intros (H1 & H2 & _). destruct (same_fields _ _ HF H2) as (EK & EH & _). unfold leave_floor.
  assert (n_cutoverRouteScopes (f_sel e) = []) as -> by apply H2. rewrite bool_decide_true, andb_false_r by done. unfold given.
  rewrite EK, EH. case_bool_decide; cbn; [right; left; cbn; lia|]. case_bool_decide; cbn; [right; left; cbn; lia|].
  right. right. left. split; [done|]. cbn. eexists. rewrite lookup_partial_alter_eq. split; [done|]. lia.
Qed.

Lemma leave_floor_kept e s : covered s -> covered (leave_floor e s).
Proof.
  unfold leave_floor. destruct (_ && _) eqn:E; [done|]. intros [HC|[HC|[(Hh & hg & Hl & Hg)|HC]]]; destruct (given _ && _); cbn.
  all: try (by left). all: try (by right; right; right). all: try (right; left; cbn; lia).
  - right. right. left. split; [done|]. cbn. destruct (decide (n_Host (f_sel e) = n_Host (f_sel F))) as [->|Hne].
    + eexists. rewrite lookup_partial_alter_eq, Hl. split; [done|]. cbn. lia.
    + rewrite lookup_partial_alter_ne by done. by exists hg.
  - right. right. left. split; [done|]. by exists hg.
Qed.

(** *** Maintenance keeps it *)

Lemma leave_floor_fences e s : fences (leave_floor e s) = fences s.
Proof. unfold leave_floor. destruct (_ && _); [done|]. by destruct (_ && _). Qed.

Lemma set_fences_covered l s : (Exists stands (fences s) -> Exists stands l) -> covered s -> covered (set_fences l s).
Proof. unfold covered. cbn. naive_solver. Qed.

Lemma evict_fences_kept n s : used_fences s -> covered s -> used_fences (evict_fences n s) /\ covered (evict_fences n s).
Proof.
  revert s. induction n as [|n IH]; intros s HU HC; cbn [evict_fences]; [done|]. destruct (_ <? _)%nat; [|done].
  destruct (pick_evicted (fences s)) as [[e rest]|] eqn:E; [|done]. apply pick_evicted_perm in E as EP. apply IH.
  - unfold used_fences in *. rewrite leave_floor_fences. cbn. rewrite EP in HU. by apply Forall_cons in HU as [_ HU].
  - destruct HC as [HC|[HC|[HC|HC]]]; [apply leave_floor_kept; by left|apply leave_floor_kept; by right; left|
      apply leave_floor_kept; by right; right; left|].
    rewrite EP in HC. apply Exists_cons in HC as [HC|HC]; [by apply leave_floor_stands|apply leave_floor_kept; by right; right; right].
Qed.

Lemma enforce_kept s : used_fences s -> covered s -> used_fences (enforceFenceCapLocked s) /\ covered (enforceFenceCapLocked s).
Proof.
  intros HU HC. unfold enforceFenceCapLocked. destruct (coalesce_kept _ HU) as [H1 H2].
  destruct (_ <? _)%nat; apply evict_fences_kept; [done| |done..]. by apply set_fences_covered.
Qed.

Lemma minInflight_le s id g : inflightOps s !! id = Some g -> minInflightStartGenLocked s <= g.
Proof.
  unfold minInflightStartGenLocked. revert id g. generalize (inflightOps s). intros m. 
  apply (map_fold_weak_ind (fun r m => forall id g, m !! id = Some g -> r <= g)).
  - intros id g. by rewrite lookup_empty.
  - intros i x m' r Hi IH id g. rewrite lookup_insert_Some. intros [[-> ->]|[Hne Hl]]; [lia|]. specialize (IH id g Hl). lia.
Qed.

(** Dropping what no fetch in flight predates. *)
Lemma reclaim_kept s :
  f_gen F < MaxUint64 -> used_fences s -> covered s -> used_fences (reclaimFencesLocked s) /\ covered (reclaimFencesLocked s).
Proof.
  intros HM HU HC. unfold reclaimFencesLocked. set (m := minInflightStartGenLocked s).
  set (hosts := if m =? MaxUint64 then ∅ else _).
  assert (covered (set_floors hosts (incompleteHostFloorGen s) (evictedIncompleteHostGens s) s)) as HC1.
  { destruct HC as [HC|[HC|[(Hh & hg & Hl & Hg)|HC]]]; [by left|by right; left| |by right; right; right].
    destruct (decide (f_gen F < m)) as [Hlt|Hge].
    - left. intros id g Hid. pose proof (minInflight_le s id g Hid : m <= g). lia.
    - right. right. left. split; [done|]. exists hg. split; [|done]. unfold set_floors, hosts. cbn.
      rewrite (proj2 (Z.eqb_neq m MaxUint64)) by lia. apply map_lookup_filter_Some. split; [done|]. cbn. lia. }
  destruct (fences (set_floors _ _ _ _)) eqn:EF; [by split; [|exact HC1]|]. rewrite <- EF. clear EF. apply enforce_kept.
  - apply Forall_forall. intros f [_ Hf]%list_elem_of_filter. unfold used_fences in HU. rewrite Forall_forall in HU. by apply HU.
  - destruct (decide (f_gen F < m)) as [Hlt|Hge]; [left; intros id g Hid; pose proof (minInflight_le s id g Hid : m <= g); lia|].
    apply set_fences_covered; [|done]. cbn. rewrite !Exists_exists. intros (f & Hin & Hf). exists f. split; [|done].
    apply list_elem_of_filter. split; [right; destruct Hf; lia|done].
Qed.

(** *** Operations keep it *)

Lemma leave_floor_gen e s : genSeq (leave_floor e s) = genSeq s.
Proof. unfold leave_floor. destruct (_ && _); [done|]. by destruct (_ && _). Qed.

Lemma evict_fences_gen n s : genSeq (evict_fences n s) = genSeq s.
Proof.
  revert s. induction n as [|n IH]; intros s; cbn [evict_fences]; [done|]. destruct (_ <? _)%nat; [|done].
  destruct (pick_evicted _) as [[e rest]|]; [|done]. by rewrite IH, leave_floor_gen.
Qed.

Lemma enforce_gen s : genSeq (enforceFenceCapLocked s) = genSeq s.
Proof. unfold enforceFenceCapLocked, refresh_atomics, updateFenceAtomicsLocked. cbn [genSeq]. rewrite evict_fences_gen. by destruct (_ <? _)%nat. Qed.

Lemma reclaim_gen s : genSeq (reclaimFencesLocked s) = genSeq s.
Proof. unfold reclaimFencesLocked. destruct (fences (set_floors _ _ _ _)); [done|]. by rewrite enforce_gen. Qed.

Definition op_ok (o : fenceOp) : Prop :=
  match o with OFence sel _ | OFailed _ sel _ | OReopen _ sel _ => used_selector sel | _ => True end.

Definition kept (s : fenceState) : Prop := f_gen F <= genSeq s /\ used_fences s /\ covered s.

Lemma enforce_keeps s : kept s -> kept (enforceFenceCapLocked s).
Proof. intros (HG & HU & HC). unfold kept. rewrite enforce_gen. split; [done|]. by apply enforce_kept. Qed.

Lemma reclaim_keeps s : f_gen F < MaxUint64 -> kept s -> kept (reclaimFencesLocked s).
Proof. intros HM (HG & HU & HC). unfold kept. rewrite reclaim_gen. split; [done|]. by apply reclaim_kept. Qed.

Lemma append_keeps f s : used_selector (f_sel f) -> kept s -> kept (append_fence f s).
Proof.
  intros Hf (HG & HU & HC). split_and!; [done|apply Forall_app; split; [done|by constructor]|].
  apply set_fences_covered; [|done]. intros HE. apply Exists_app. by left.
Qed.

Lemma alter_keeps g h s :
  (forall f, f_gen (h f) = f_gen f /\ f_sel (h f) = f_sel f /\ f_matched f ⊆ f_matched (h f)) ->
  kept s -> kept (set_fences (alter_first g h (fences s)) s).
Proof.
  intros Hh (HG & HU & HC). split_and!; [done|..].
  - unfold used_fences in *. cbn. induction HU as [|f l Hf HU IH]; cbn; [done|]. destruct (_ =? _); constructor; try done.
    by rewrite (proj1 (proj2 (Hh f))).
  - apply set_fences_covered; [|done]. clear HC HU. induction 1 as [f l (H1 & H2 & H3)|f l HE IH]; cbn; destruct (_ =? _); try (by constructor).
    left. destruct (Hh f) as (E1 & E2 & E3). unfold stands. rewrite E1, E2. split_and!; [done|done|set_solver].
Qed.

Lemma next_gen_keeps s : kept s -> kept (next_gen s).
Proof. intros (HG & HU & HC). split_and!; [cbn; lia|done|done]. Qed.

Lemma reuse_gen_keeps g s : kept s -> kept (reuse_gen g s).
Proof. intros (HG & HU & HC). split_and!; [cbn; lia|done|done]. Qed.

Lemma reopen_keeps g sel matched s : used_selector sel -> kept s -> kept (reopen_fence g sel matched s).
Proof.
  intros Hs HK. unfold reopen_fence. destruct (other_selector _ _ _); [done|]. apply (reuse_gen_keeps g) in HK as H1.
  set (s1 := reuse_gen g s) in *. set (s2 := if _ && _ then _ else s1).
  assert (kept s2) as H2.
  { unfold s2. destruct (_ && _); [|done]. destruct H1 as (HG & HU & HC). split_and!; [done|done|].
    destruct HC as [HC|[HC|[HC|HC]]]; [by left|right; left; cbn in *; lia|by right; right; left|by right; right; right]. }
  apply enforce_keeps. destruct (has_gen _ _); [|by apply append_keeps].
  apply alter_keeps; [|done]. intros f. cbn. split_and!; [done|done|set_solver].
Qed.

Lemma failed_keeps reuse sel matched s : f_gen F < MaxUint64 -> used_selector sel -> kept s -> kept (failed_commit reuse sel matched s).
Proof.
  intros HM Hs HK. unfold failed_commit. destruct (match reuse with Some _ => _ | None => _ end); [done|]. apply reclaim_keeps; [done|].
  assert (kept (match reuse with Some g => reuse_gen g s | None => next_gen s end)) as H1.
  { destruct reuse; [by apply reuse_gen_keeps|by apply next_gen_keeps]. }
  destruct (has_gen _ _); [done|by apply append_keeps].
Qed.

Lemma fence_step_keeps s o : f_gen F < MaxUint64 -> op_ok o -> kept s -> kept (fence_step s o).
Proof.
  intros HM Ho HK. destruct o; cbn [fence_step].
  - destruct HK as (HG & HU & HC). split_and!; [cbn; lia|done|]. destruct HC as [HC|HC]; [left|by right].
    cbn. intros id g. rewrite lookup_insert_Some. intros [[_ <-]|[_ Hl]]; [lia|by eapply HC].
  - apply reclaim_keeps; [done|]. destruct HK as (HG & HU & HC). split_and!; [done|done|]. destruct HC as [HC|HC]; [left|by right].
    cbn. intros id' g [_ Hl]%lookup_delete_Some. by eapply HC.
  - by apply next_gen_keeps.
  - by apply enforce_keeps, append_keeps, next_gen_keeps.
  - apply reclaim_keeps; [done|]. set (s1 := set_fences _ s). assert (kept s1) as H1 by (by apply alter_keeps).
    destruct (_ =? _); [|done]. unfold clearEvictedIncompleteFenceLocked. destruct (_ !! _); [|done]. destruct (negb _); [done|]. by case_bool_decide.
  - by apply reopen_keeps.
  - by apply failed_keeps.
  - destruct HK as (HG & _ & _). split_and!; [cbn; lia|by constructor|]. right. left. cbn. lia.
Qed.

Lemma fence_run_keeps os s : f_gen F < MaxUint64 -> Forall op_ok os -> kept s -> kept (foldl fence_step s os).
Proof. intros HM HO. revert s. induction HO as [|o os Ho HO IH]; intros s HK; cbn; [done|]. by apply IH, fence_step_keeps. Qed.

End Kept.

(** ** Every number in use comes from the sequence *)

Definition numbered (n : Z) (s : fenceState) : Prop :=
  purgeGen s <= n /\ fenceFloorGen s <= n /\ map_Forall (fun _ hg => hg <= n) (hostFenceFloorGen s) /\
  Forall (fun f => f_gen f <= n) (fences s) /\ map_Forall (fun _ g => g <= n) (inflightOps s).

Lemma numbered_le n m s : n <= m -> numbered n s -> numbered m s.
Proof.
  intros Hle (H1 & H2 & H3 & H4 & H5). split_and!; [lia|lia|..].
  - eapply map_Forall_impl; [exact H3|]. cbn. lia.
  - eapply Forall_impl; [exact H4|]. cbn. lia.
  - eapply map_Forall_impl; [exact H5|]. cbn. lia.
Qed.

Lemma coalesce_numbered n l : Forall (fun f => f_gen f <= n) l -> Forall (fun f => f_gen f <= n) (coalesce l).
Proof.
  intros HL. unfold coalesce. induction l as [|f l IH] using rev_ind; [done|]. apply Forall_app in HL as [HL [Hf _]%Forall_cons].
  rewrite foldl_app. cbn. specialize (IH HL). destruct (completed f); [|apply Forall_app; split; [done|by constructor]].
  induction IH as [|p k Hp HK IHk]; cbn; [by constructor|]. destruct (_ && _); constructor; cbn; (done || lia).
Qed.

Lemma leave_floor_numbered n e s : f_gen e <= n -> 0 <= n -> numbered n s -> numbered n (leave_floor e s).
Proof.
  intros He Hn (H1 & H2 & H3 & H4 & H5). unfold leave_floor. destruct (_ && _); [done|].
  destruct (_ && _); split_and!; cbn; try done; [|lia].
  intros h hg. rewrite lookup_partial_alter_Some. intros [[-> Hr]|[_ Hl]]; [|by eapply H3].
  unfold raise in Hr. injection Hr as <-. destruct (hostFenceFloorGen s !! _) as [x|] eqn:E; cbn; [apply H3 in E|]; lia.
Qed.

Lemma evict_fences_numbered n k s : 0 <= n -> numbered n s -> numbered n (evict_fences k s).
Proof.
  intros Hn. revert s. induction k as [|k IH]; intros s HN; cbn [evict_fences]; [done|]. destruct (_ <? _)%nat; [|done].
  destruct (pick_evicted (fences s)) as [[e rest]|] eqn:E; [|done]. apply pick_evicted_perm in E as EP.
  destruct HN as (H1 & H2 & H3 & H4 & H5). rewrite EP in H4. apply Forall_cons in H4 as [He H4].
  apply IH, leave_floor_numbered; done.
Qed.

Lemma enforce_numbered n s : 0 <= n -> numbered n s -> numbered n (enforceFenceCapLocked s).
Proof.
  intros Hn HN. unfold enforceFenceCapLocked. destruct (_ <? _)%nat; apply evict_fences_numbered; try done.
  destruct HN as (H1 & H2 & H3 & H4 & H5). split_and!; try done. by apply coalesce_numbered.
Qed.

Lemma reclaim_numbered n s : 0 <= n -> numbered n s -> numbered n (reclaimFencesLocked s).
Proof.
  intros Hn (H1 & H2 & H3 & H4 & H5). unfold reclaimFencesLocked. set (hosts := if _ =? MaxUint64 then ∅ else _).
  assert (map_Forall (fun _ hg => hg <= n) hosts) as HH.
  { unfold hosts. destruct (_ =? _); [apply map_Forall_empty|]. intros h hg [Hl _]%map_lookup_filter_Some. by eapply H3. }
  destruct (fences (set_floors _ _ _ _)) eqn:EF; [done|]. rewrite <- EF. clear EF. apply enforce_numbered; [done|]. split_and!; try done.
  apply Forall_forall. intros f [_ Hf]%list_elem_of_filter. rewrite Forall_forall in H4. by apply H4.
Qed.

Lemma append_numbered n f s : f_gen f <= n -> numbered n s -> numbered n (append_fence f s).
Proof. intros Hf (H1 & H2 & H3 & H4 & H5). split_and!; try done. apply Forall_app. split; [done|by constructor]. Qed.

Lemma alter_numbered n g h s :
  (forall f, f_gen (h f) = f_gen f) -> numbered n s -> numbered n (set_fences (alter_first g h (fences s)) s).
Proof.
  intros Hh (H1 & H2 & H3 & H4 & H5). split_and!; try done. cbn. clear -H4 Hh.
  induction H4 as [|f l Hf HL IH]; cbn; [done|]. destruct (_ =? _); constructor; try done. by rewrite Hh.
Qed.

Definition well_numbered (s : fenceState) : Prop := 0 <= genSeq s /\ numbered (genSeq s) s.

Lemma reuse_gen_numbered g s : well_numbered s -> well_numbered (reuse_gen g s).
Proof. intros [Hge HN]. split; [cbn; lia|]. eapply (numbered_le (genSeq s)); [cbn; lia|exact HN]. Qed.

Lemma reopen_numbered g sel matched s : well_numbered s -> well_numbered (reopen_fence g sel matched s).
Proof.
  intros HW. unfold reopen_fence. destruct (other_selector _ _ _); [done|]. apply (reuse_gen_numbered g) in HW as [Hge HN].
  assert (g <= genSeq (reuse_gen g s)) as Hg by (cbn; lia). set (s1 := reuse_gen g s) in *. set (s2 := if _ && _ then _ else s1).
  assert (genSeq s2 = genSeq s1 /\ numbered (genSeq s1) s2) as [EG H2].
  { unfold s2. destruct (_ && _); [|done]. split; [done|]. destruct HN as (H1 & H2 & H3 & H4 & H5). split_and!; try done; cbn in *; lia. }
  clearbody s1 s2. unfold well_numbered. rewrite enforce_gen. destruct (has_gen _ _); cbn; rewrite EG; (split; [lia|]); apply enforce_numbered; try lia.
  - by apply alter_numbered.
  - by apply append_numbered.
Qed.

Lemma failed_numbered reuse sel matched s : well_numbered s -> well_numbered (failed_commit reuse sel matched s).
Proof.
  intros HW. unfold failed_commit. destruct (match reuse with Some _ => _ | None => _ end); [done|].
  set (s1 := match reuse with Some g => reuse_gen g s | None => next_gen s end).
  assert (well_numbered s1 /\ default (genSeq s1) reuse <= genSeq s1) as [[Hge HN] Hg].
  { unfold s1. destruct reuse as [g|]; cbn; (split; [|lia]); [by apply reuse_gen_numbered|]. destruct HW as [Hge HN]. split; [cbn; lia|].
    eapply (numbered_le (genSeq s)); [cbn; lia|exact HN]. }
  clearbody s1. unfold well_numbered. rewrite reclaim_gen. destruct (has_gen _ _); cbn; (split; [lia|]); apply reclaim_numbered; try done.
  by apply append_numbered.
Qed.

Lemma fence_step_numbered s o : well_numbered s -> well_numbered (fence_step s o).
Proof.
  intros [Hge HN]. unfold well_numbered. pose proof (numbered_le (genSeq s) (genSeq s + 1) _ ltac:(lia) HN) as HN'. destruct o; cbn [fence_step].
  - destruct HN' as (H1 & H2 & H3 & H4 & H5). split; [cbn; lia|]. split_and!; try done. cbn. apply map_Forall_insert_2; [lia|done].
  - unfold endInflightOriginOp. rewrite reclaim_gen. split; [done|]. apply reclaim_numbered; [done|].
    destruct HN as (H1 & H2 & H3 & H4 & H5). split_and!; try done. by apply map_Forall_delete.
  - split; [cbn; lia|done].
  - unfold install_fence. rewrite enforce_gen. cbn. split; [lia|]. apply enforce_numbered; [lia|]. by apply append_numbered.
  - unfold complete_fence. rewrite reclaim_gen. set (s1 := set_fences _ s).
    assert (numbered (genSeq s) s1) as HS by (by apply alter_numbered). assert (genSeq s1 = genSeq s) as EG by done.
    clearbody s1. unfold clearEvictedIncompleteFenceLocked.
    destruct (_ =? _); [destruct (_ !! _); [destruct (negb _); [|case_bool_decide]|]|]; cbn; rewrite EG; (split; [done|]); by apply reclaim_numbered.
  - by apply reopen_numbered.
  - by apply failed_numbered.
  - destruct HN' as (H1 & H2 & H3 & H4 & H5). split; [cbn; lia|]. split_and!; cbn; try done; lia.
Qed.

(** ** A fence with a host only matches keys of that host *)

Lemma parse_no_newline key m h u v : parseBaseKeyParts key = Some (m, h, u, v) -> 10 ∉ h.
Proof.
  unfold parseBaseKeyParts. destruct (CutByte _ 10) as [[method rest] ok1] eqn:E1. destruct (CutByte rest 10) as [[host uri] ok2] eqn:E2.
  destruct (_ && _); [|done]. intros [= <- <- <- <-]. by apply CutByte_spec in E2 as [? _].
Qed.

Lemma MatchesResource_host s h u tags :
  plain_selector s -> n_Kind s <> SelectorAll -> MatchesResource s h u tags = true -> h = n_Host s.
Proof.
  intros (_ & _ & _ & _ & E5 & _) HK. unfold MatchesResource, matchesHost. rewrite E5. destruct (negb _); [done|].
  rewrite !andb_false_l, orb_false_r. destruct (n_Kind s); try done; case_bool_decide; done.
Qed.

Lemma uri_bytes_range u c : uri_bytes_ok u = true -> c ∈ u -> 32 < c.
Proof.
  induction u as [|a u IH]; cbn; [by intros _ ?%elem_of_nil|]. rewrite !andb_true_iff. intros [[Ha _] Hu] [->|Hc]%elem_of_cons; [|by apply IH].
  unfold bad_byte in Ha. lia.
Qed.

(** The key of a parsed selector: its method, host and URI, in visible bytes. *)
Lemma plain_key s : plain_selector s -> n_Kind s = SelectorKey ->
  exists m, n_Key s = m ++ 10 :: n_Host s ++ 10 :: n_URI s /\ (m = str "GET" \/ m = str "HEAD") /\ n_Host s <> [] /\
    (forall c, c ∈ n_Host s \/ c ∈ n_URI s -> 32 < c) /\ HasPrefix (n_URI s) (str "/") = true.
Proof.
  intros (_ & _ & _ & _ & _ & _ & _ & HK) EK. rewrite EK in HK. destruct HK as (HK & HU & HM & b & HH).
  unfold normalizeSelectorHostWithPortFlag in HH. destruct (_ || _) eqn:Eh in HH; [done|].
  rewrite !orb_false_iff in Eh. destruct Eh as [[[Et _] _] Eb].
  assert (ToLower (n_Host s) = n_Host s) as EL.
  { destruct (host_parts _) as [[p|]|]; [destruct (port_ok p)| |]; try done; by injection HH. }
  unfold validateRawRequestURI in HU. destruct (_ || _) eqn:Eu in HU; [done|]. rewrite !orb_false_iff in Eu.
  destruct Eu as [[[[_ Eu1%negb_false_iff] _] Eu2%negb_false_iff] _].
  exists (n_KeyMethod s). rewrite HK. unfold CacheKey.keyFor. rewrite EL. split_and!; [done|done| | |done].
  - intros E. rewrite E in Et. by apply bool_decide_eq_false in Et.
  - intros c [Hc|Hc]; [|by eapply uri_bytes_range]. apply negb_false_iff in Eb. rewrite forallb_forall in Eb.
    apply list_elem_of_In, Eb in Hc. unfold host_byte in Hc. lia.
Qed.

Lemma plain_key_base s key :
  plain_selector s -> n_Kind s = SelectorKey -> key = n_Key s \/ baseKeyOf key = n_Key s -> baseKeyOf key = n_Key s.
Proof.
  intros Hs EK [->|E]; [|done]. destruct (plain_key s Hs EK) as (m & -> & HM & _ & HC & _). unfold baseKeyOf.
  rewrite IndexByte_notin; [done|]. rewrite !not_elem_of_app, !not_elem_of_cons, !not_elem_of_app, !not_elem_of_cons. split_and!; try done.
  - destruct HM as [-> | ->]; by apply (bool_decide_unpack _).
  - intros Hc. specialize (HC 0 (or_introl Hc)). lia.
  - intros Hc. specialize (HC 0 (or_intror Hc)). lia.
Qed.

Lemma plain_key_host s key :
  plain_selector s -> n_Kind s = SelectorKey -> baseKeyOf key = n_Key s ->
  exists m u v, parseBaseKeyParts key = Some (m, n_Host s, u, v).
Proof.
  intros Hs EK HB. destruct (plain_key s Hs EK) as (m & E & HM & Hne & HC & Hu). unfold parseBaseKeyParts.
  rewrite HB, E, CutByte_app by (destruct HM as [-> | ->]; by apply (bool_decide_unpack _)).
  rewrite CutByte_app by (intros Hc; specialize (HC 10 (or_introl Hc)); lia).
  rewrite Hu, (bool_decide_false (n_Host s = [])) by done. destruct HM as [-> | ->]; by do 3 eexists.
Qed.

Lemma hit_host f cands rtags key tags extra :
  plain_selector (f_sel f) -> has_host (f_sel f) -> (n_Kind (f_sel f) <> SelectorKey -> f_matched f ⊆ snapshotMatchedResourcesLocked rtags cands (f_sel f)) ->
  fence_hit f key tags extra = true -> exists m u v, parseBaseKeyParts key = Some (m, n_Host (f_sel f), u, v).
Proof.
  intros Hs [Hh HK] HM. unfold fence_hit. assert (n_cutoverRouteScopes (f_sel f) = []) as -> by apply Hs. cbn. case_bool_decide as EK.
  - rewrite orb_true_iff, !bool_decide_eq_true. intros HB%plain_key_base; [|done..]. by apply plain_key_host.
  - destruct (parseBaseKeyParts key) as [[[[m h] u] v]|] eqn:EP; [|done]. rewrite orb_true_iff, bool_decide_eq_true.
    intros [Hin%(HM EK)|Hin%MatchesResource_host]; [|by subst; do 3 eexists|done..]. unfold snapshotMatchedResourcesLocked in Hin.
    rewrite !bool_decide_false in Hin by done. apply elem_of_list_to_set, list_elem_of_omap in Hin as (bk & _ & Hin).
    destruct (parseBaseKeyParts bk) as [[[[m' h'] u'] v']|] eqn:EB; [|done]. destruct (MatchesResource _ h' u' _) eqn:EM; [|done].
    injection Hin as Hin. apply MatchesResource_host in EM; [|done..]. unfold resourceKeyOf in Hin.
    apply cut_unique in Hin as [-> _]; [|by eapply parse_no_newline..]. subst. by do 3 eexists.
Qed.

(** ** Soundness *)

(** Something that covers a fence stops what the fence stops. *)
Lemma covered_fenced F s cands rtags id g key tags extra :
  plain_selector (f_sel F) -> (n_Kind (f_sel F) <> SelectorKey -> f_matched F ⊆ snapshotMatchedResourcesLocked rtags cands (f_sel F)) -> covered F s ->
  0 < f_gen F -> g <= f_gen F -> inflightOps s !! id = Some g -> fence_hit F key tags extra = true ->
  isPublicationFencedLocked s g key tags extra = true.
Proof.
  intros HF HM HC Hpos Hg Hid Hhit. unfold isPublicationFencedLocked. rewrite !orb_true_iff.
  destruct HC as [HC|[HC|[(Hh & hg & Hl & Hle)|HC]]].
  - apply HC in Hid. lia.
  - left. left. right. lia.
  - left. right. destruct (hit_host _ _ _ _ _ _ HF Hh HM Hhit) as (m & u & v & EP). unfold under_floor. rewrite EP, Hl.
    apply orb_true_iff. left. lia.
  - right. apply existsb_exists. apply Exists_exists in HC as (f & Hin & Hle & Hsame & Hsub). exists f.
    split; [by apply list_elem_of_In|]. cbn. rewrite (same_fence_hit F f) by done. rewrite andb_true_r. lia.
Qed.

Lemma numbered_open n s key tags extra : numbered n s -> isPublicationFencedLocked s (n + 1) key tags extra = false.
Proof.
  intros (H1 & H2 & H3 & H4 & _). unfold isPublicationFencedLocked. rewrite !orb_false_iff. split_and!; [lia|lia|..].
  - unfold under_floor. destruct (parseBaseKeyParts key) as [[[[m h] u] v]|]; [|done].
    assert (forall h, match hostFenceFloorGen s !! h with Some hf => (0 <? hf) && (n + 1 <=? hf) | None => false end = false) as HB.
    { intros k. destruct (hostFenceFloorGen s !! k) eqn:E; [|done]. apply H3 in E. lia. }
    by rewrite !HB, andb_false_r.
  - unfold matchesAnyFenceLocked. apply not_true_iff_false. rewrite existsb_exists. intros (f & Hin%list_elem_of_In & Hf).
    rewrite Forall_forall in H4. apply H4 in Hin. lia.
Qed.

Lemma fence_run_numbered os s : well_numbered s -> well_numbered (foldl fence_step s os).
Proof. revert s. induction os as [|o os IH]; intros s HW; cbn; [done|]. by apply IH, fence_step_numbered. Qed.

Lemma no_fences_numbered : well_numbered no_fences.
Proof. split; [done|]. split_and!; try done; apply map_Forall_empty. Qed.

(** The fence of a route cutover is the exception: once its purge is complete, the
    cap drops it and leaves no floor, and what it refused is tested against the
    other fences only, a fetch of before the cutover still in flight or not. *)
Lemma cutover_fence_forgotten F l sel matched s :
  fences s = F :: l -> completed F = true -> n_cutoverRouteScopes (f_sel F) <> [] ->
  Forall (fun f => completed f = false) l -> S (length l) = MaxActiveFences ->
  forall g key tags extra, isPublicationFencedLocked (install_fence sel matched s) g key tags extra =
    isPublicationFencedLocked (append_fence (MkFence (genSeq s + 1) sel true 0 matched) (set_fences l s)) g key tags extra.
Proof.
  intros EF HC HS HL HN g key tags extra. unfold install_fence, enforceFenceCapLocked.
  set (f := MkFence _ sel true 0 matched). set (s1 := append_fence f (next_gen s)).
  assert (fences s1 = F :: (l ++ [f])) as E1 by (unfold s1; cbn; by rewrite EF).
  assert (coalesce (F :: (l ++ [f])) = F :: (l ++ [f])) as EC.
  { unfold coalesce. cbn [foldl]. rewrite HC. cbn [coalesce_into].
    assert (Forall (fun f => completed f = false) (l ++ [f])) as HA by (apply Forall_app; split; [done|by constructor]).
    change (F :: l ++ [f]) with ([F] ++ (l ++ [f])). clear E1. generalize [F]. induction HA as [|x k Hx HK IH]; intros acc; cbn; [by rewrite app_nil_r|].
    rewrite Hx, IH, <- app_assoc. done. }
  assert (length (F :: l ++ [f]) = S (S (length l))) as EL by (cbn; rewrite length_app; cbn; lia).
  rewrite E1, EL, EC. change (1 <? S (S (length l)))%nat with true. cbv iota.
  change (fences (set_fences (F :: l ++ [f]) s1)) with (F :: l ++ [f]). rewrite EL.
  set (s2 := set_fences (F :: l ++ [f]) s1). assert (evict_fences (S (S (length l))) s2 = set_fences (l ++ [f]) s2) as ->; [|done].
  cbn [evict_fences]. change (fences s2) with (F :: l ++ [f]). rewrite EL, HN. change (MaxActiveFences <? S MaxActiveFences)%nat with true. cbv iota.
  unfold pick_evicted. cbn [first_completed]. rewrite HC. unfold leave_floor. rewrite HC, bool_decide_false by done. cbn [negb andb].
  change (fences (set_fences (l ++ [f]) s2)) with (l ++ [f]).
  assert (length (l ++ [f]) = MaxActiveFences) as -> by (rewrite length_app; cbn; lia). by rewrite Nat.ltb_irrefl.
Qed.

(** C8: Let the digest of selectors be injective, and let a purge with a selector
    that is not one of a route cutover (what [ParseSelector] returns is none) be
    fenced while a fetch is in flight.  The response to that fetch is refused
    publication for as long as the fetch is in flight, whatever fetches, purges,
    completions, retries and evictions of fences come after, if the purge's
    selector or the resources it was found to match select it.  And a fetch that
    starts after everything fenced so far is refused nothing.  Every purge uses a
    parsed selector or one of a route cutover, with parts of at most 2^63-1
    bytes, and the number of the purge is below 2^64-1. *)
Theorem purge_fences_publications (before after : list fenceOp) (sel : NormalizedSelector) (rtags : gostring -> list gostring)
    (cands : list gostring) (matched : gset gostring) (id g : Z) (key : gostring) (tags extra : list gostring) :
  (forall x y, sha256 x = sha256 y -> x = y) -> Forall op_ok before -> Forall op_ok after -> plain_selector sel -> used_selector sel ->
  (n_Kind sel <> SelectorKey -> matched ⊆ snapshotMatchedResourcesLocked rtags cands sel) ->
  let s1 := foldl fence_step no_fences before in
  let f := MkFence (genSeq s1 + 1) sel true 0 matched in
  let s3 := foldl fence_step (fence_step s1 (OFence sel matched)) after in
  f_gen f < MaxUint64 -> inflightOps s1 !! id = Some g ->
  (inflightOps s3 !! id = Some g -> fence_hit f key tags extra = true -> isPublicationFencedLocked s3 g key tags extra = true) /\
  (forall key' tags' extra', isPublicationFencedLocked (beginInflightOriginOp s3) (genSeq (beginInflightOriginOp s3)) key' tags' extra' = false).
Proof.
  intros Hsha HB HA Hp Hu Hm s1 f s3 HM Hid. pose proof (fence_run_numbered before _ no_fences_numbered) as [Hge HN]. fold s1 in Hge, HN. split.
  - intros Hid3 Hhit. eapply (covered_fenced f); try done; cbn; [|lia|].
    + assert (kept (MkFence 0 sel true 0 ∅) s1) as (_ & HU & _).
      { apply fence_run_keeps; try done. split_and!; [done|by constructor|by left]. }
      apply (fence_run_keeps Hsha f); try done. apply enforce_keeps; try done. split_and!; [cbn; lia|apply Forall_app; split; [done|by constructor]|].
      right. right. right. apply Exists_app. right. left. by split_and!.
    + apply HN in Hid. cbn in Hid. lia.
  - intros. apply (numbered_open (genSeq s3) s3). apply (fence_run_numbered after), fence_step_numbered. by split.
Qed.
End Fences.

(** ** A run *)

Definition demo_host : NormalizedSelector :=
  MkNormalized SelectorHost (str "h") [] [] [] [] None [] [] [] false false [] [] [] [] [] false [].
Definition demo_after : list fenceOp := [OBegin; OComplete 2 (str "h") 0; ONext].

(** The purge of a host completes while the fetch of one of its pages is in
    flight. *)
Lemma purge_fences_publications_witness :
  let step := fence_step (H := code_sha256) in
  let s1 := foldl step no_fences [OBegin] in
  isPublicationFencedLocked (fun _ => []) (fun _ => [])
    (foldl step (step s1 (OFence demo_host ∅)) demo_after)
    1 (71 :: 10 :: str "h" ++ 10 :: str "/p") [] [] = true.
Proof.
  intros step s1.
  refine (proj1 (purge_fences_publications (H := code_sha256) (fun _ => []) (fun _ => []) (H0 := no_unicode)
    [OBegin] demo_after demo_host (fun _ => []) [] ∅ 1 1 _ [] [] _ _ _ _ _ _ _ _) _ _).
  - intros x y. cbn. intros [= E]. by apply (inj encode) in E.
  - by repeat constructor.
  - by repeat constructor.
  - by split_and!.
  - split; [left; by split_and!|]. by repeat constructor.
  - set_solver.
  - done.
  - by vm_compute.
  - by vm_compute.
  - by vm_compute.
Defined.
