(* ===== verification/PluginFetch.v ===== *)
(** * Outbound requests of plugins (src/internal/plugins/fetch.go)

    The allow-list of hosts, the guard against addresses inside the network, the
    dialer that resolves a name once and connects only to addresses it has
    checked, beneath the egress policy, and the bounded reading of the answer. *)

From S2P Require Import Prelude GoStrings Bytes Netip NetipPrefix Http ProxyProto Forwarded ClientUse IPNet Egress.

(** [net/url]: the scheme and host name of a URL, the path and query of a request
    target, and the text of one. *)
Class GoUrl := {
  ParseURL : gostring -> option (gostring * gostring);
  ParseRequestURI : gostring -> option (gostring * gostring);
  RequestURI : gostring -> gostring -> gostring
}.

(** ** Address classes ([net.IP]) *)

Definition IPv6zero : list Z := replicate 16 0.
Definition IPv6loopback : list Z := replicate 15 0 ++ [1].

(** [IP.Equal]: an IPv4 address and its mapped form are the same. *)
Definition IP_Equal (ip x : list Z) : bool :=
  if bool_decide (length ip = length x) then bool_decide (ip = x)
  else if bool_decide (length ip = 4%nat) && bool_decide (length x = 16%nat)
  then bool_decide (take 12 x = v4InV6Prefix) && bool_decide (ip = drop 12 x)
  else if bool_decide (length ip = 16%nat) && bool_decide (length x = 4%nat)
  then bool_decide (take 12 ip = v4InV6Prefix) && bool_decide (drop 12 ip = x)
  else false.

(** The [i]-th byte of an address of sufficient length. *)
Notation byte ip i := (nth i%nat ip 0).

Definition IsUnspecified (ip : list Z) : bool := IP_Equal ip (v4InV6Prefix ++ [0; 0; 0; 0]) || IP_Equal ip IPv6zero.

Definition IsLoopback (ip : list Z) : bool :=
  match To4 ip with Some v4 => byte v4 0 =? 127 | None => IP_Equal ip IPv6loopback end.

Definition IsPrivate (ip : list Z) : bool :=
  match To4 ip with
  | Some v4 => (byte v4 0 =? 10) || ((byte v4 0 =? 172) && (Z.land (byte v4 1) 240 =? 16)) || ((byte v4 0 =? 192) && (byte v4 1 =? 168))
  | None => bool_decide (length ip = 16%nat) && (Z.land (byte ip 0) 254 =? 252)
  end.

Definition IsMulticast (ip : list Z) : bool :=
  match To4 ip with
  | Some v4 => Z.land (byte v4 0) 240 =? 224
  | None => bool_decide (length ip = 16%nat) && (byte ip 0 =? 255)
  end.

Definition IsLinkLocalMulticast (ip : list Z) : bool :=
  match To4 ip with
  | Some v4 => (byte v4 0 =? 224) && (byte v4 1 =? 0) && (byte v4 2 =? 0)
  | None => bool_decide (length ip = 16%nat) && (byte ip 0 =? 255) && (Z.land (byte ip 1) 15 =? 2)
  end.

Definition IsLinkLocalUnicast (ip : list Z) : bool :=
  match To4 ip with
  | Some v4 => (byte v4 0 =? 169) && (byte v4 1 =? 254)
  | None => bool_decide (length ip = 16%nat) && (byte ip 0 =? 254) && (Z.land (byte ip 1) 192 =? 128)
  end.

(** ** The guards *)

(** [nil] is the empty list. *)
Definition ipBlocked (ip : list Z) : bool :=
  if bool_decide (ip = []) then true
  else if IsLoopback ip || IsLinkLocalUnicast ip || IsLinkLocalMulticast ip || IsMulticast ip || IsUnspecified ip || IsPrivate ip
  then true
  else
    match To4 ip with
    | Some v4 =>
        ((byte v4 0 =? 100) && (64 <=? byte v4 1) && (byte v4 1 <=? 127))
        || ((byte v4 0 =? 0) || (240 <=? byte v4 0) || ((byte v4 0 =? 198) && ((byte v4 1 =? 18) || (byte v4 1 =? 19))))
    | None => false
    end.

Section Fetch.
Context `{Unicode}.

Definition allows (host a : gostring) : bool :=
  let a := ToLower (TrimSpace a) in
  if bool_decide (a = []) then false
  else string_eqb a host || (HasPrefix a [46] && HasSuffix host a).

Definition hostAllowed (allowed : list gostring) (host : gostring) : bool :=
  let host := ToLower (TrimSpace host) in
  if bool_decide (host = []) then false else existsb (allows host) allowed.

Variable idna : gostring -> option gostring.
Context {Conn NetErr : Type}.

(** A dial fails in the guard, or in the network. *)
Inductive fetchErr := ErrFetchBlocked | ErrNet (e : NetErr).

(** The dialer of the operating system: what the connection attempt to an
    address yields. *)
Variable sysDial : gostring -> NetErr + Conn.

(** The loop over checked addresses; the list is the addresses tried. *)
Fixpoint try_ips (port : gostring) (lastErr : option NetErr) (ips : list (list Z)) : (fetchErr + Conn) * list gostring :=
  match ips with
  | [] => (inl match lastErr with Some e => ErrNet e | None => ErrFetchBlocked end, [])
  | ip :: ips =>
      let addr := JoinHostPort (IP_String ip) port in
      match sysDial addr with
      | inr c => (inr c, [addr])
      | inl e => let '(r, l) := try_ips port (Some e) ips in (r, addr :: l)
      end
  end.

Definition dialValidatedIPs (answer : NetErr + list (list Z)) (port : gostring) : (fetchErr + Conn) * list gostring :=
  match answer with
  | inl e => (inl (ErrNet e), [])
  | inr ips =>
      if existsb ipBlocked ips then (inl ErrFetchBlocked, [])
      else if bool_decide (ips = []) then (inl ErrFetchBlocked, [])
      else try_ips port None ips
  end.

(** The answers of the resolver to the lookups of one dial: the guard's own, and
    that of its [i]-th call of the dialer beneath it, which may differ. *)
Variable guardLookup : gostring -> fetchErr + list (list Z).
Variable lookup : nat -> gostring -> NetErr + list (list Z).
(** The error of an address that does not split into host and port. *)
Variable addrErr : NetErr.

Definition ssrf (i : nat) (addr : gostring) : (fetchErr + Conn) * list gostring :=
  match SplitHostPort addr with
  | None => (inl (ErrNet addrErr), [])
  | Some (host, port) => dialValidatedIPs (lookup i host) port
  end.

(** [plugin.fetchDial] under the egress policy [g], with all the addresses the
    operating system was asked to connect to. *)
Definition fetchDial (g : option Policy) (addr : gostring) : dialRun (Conn := Conn) (DialErr := fetchErr) * list gostring :=
  let run := DialContextWith idna (fun i a => (ssrf i a).1) guardLookup (For g SubsystemPlugin) addr in
  (run, concat (imap (fun i a => (ssrf i a).2) (dialed run))).
End Fetch.

(** ** One fetch *)

(** What the exchange with the last host came to: refused by the egress policy
    or by the address guard, failed, or a status and the bytes that can be read,
    possibly ending in an error. *)
Inductive netAnswer := NetEgress | NetBlocked | NetFailed | NetAnswer (status : Z) (body : list Z) (broken : bool).

Inductive fetchResult :=
  | FetchEgress
  | FetchBlocked
  | FetchTransport
  | FetchOk (status : Z) (body : list Z) (truncated : bool).

Section DoFetch.
Context `{Unicode} `{GoUrl}.

(** [CheckRedirect] over the hosts redirected to. *)
Fixpoint followRedirects (allowed : list gostring) (via : nat) (hops : list gostring) (final : netAnswer) : netAnswer :=
  match hops with
  | [] => final
  | host :: hops =>
      if (5 <=? via)%nat then NetFailed
      else if hostAllowed allowed host then followRedirects allowed (S via) hops final else NetBlocked
  end.

Definition doFetch (allowed : list gostring) (maxFetchResp : Z) (rawURL : gostring) (hops : list gostring) (final : netAnswer)
  : fetchResult :=
  match ParseURL rawURL with
  | None => FetchTransport
  | Some (scheme, hostname) =>
      if negb (string_eqb scheme (str "http") || string_eqb scheme (str "https")) then FetchBlocked
      else if negb (hostAllowed allowed hostname) then FetchBlocked
      else
        match followRedirects allowed 1 hops final with
        | NetEgress => FetchEgress
        | NetBlocked => FetchBlocked
        | NetFailed => FetchTransport
        | NetAnswer status body broken =>
            if maxFetchResp <? zlen body then FetchOk status (take (Z.to_nat maxFetchResp) body) true
            else if broken then FetchTransport
            else FetchOk status body false
        end
  end.
End DoFetch.

(** [fetchFailure]: the code a guest gets. *)
Definition fetchFailure (r : fetchResult) : Z :=
  match r with FetchEgress => -5 | FetchBlocked => -3 | _ => -4 end.

(** ** The guard refuses exactly these networks *)

Definition blockedNets : list gostring :=
  [str "0.0.0.0/8"; str "10.0.0.0/8"; str "100.64.0.0/10"; str "127.0.0.0/8"; str "169.254.0.0/16"; str "172.16.0.0/12";
   str "192.168.0.0/16"; str "198.18.0.0/15"; str "224.0.0.0/4"; str "240.0.0.0/4";
   str "::/128"; str "::1/128"; str "fc00::/7"; str "fe80::/10"; str "ff00::/8"].

Definition in_net (ip : list Z) (cidr : gostring) : bool :=
  match ParseCIDR cidr with Some n => IPNet_Contains n ip | None => false end.

Lemma bytes_check (f g : Z -> bool) :
  forallb (fun i => Bool.eqb (f (Z.of_nat i)) (g (Z.of_nat i))) (seq 0 256) = true -> forall b, is_byte b -> f b = g b.
Proof.
  rewrite forallb_forall. intros HF b Hb. unfold is_byte in Hb. specialize (HF (Z.to_nat b)).
  rewrite Z2Nat.id in HF by lia. apply eqb_prop, HF, in_seq. lia.
Qed.

Lemma land_full b : is_byte b -> Z.land b 255 = b.
Proof. intros Hb. change 255 with (Z.ones 8). rewrite Z.land_ones by lia. apply Z.mod_small. exact Hb. Qed.

(** A four-byte network of at most two bytes. *)
Lemma v4_net cidr n0 n1 m0 m1 a b c d ip :
  ParseCIDR cidr = Some (MkIPNet [n0; n1; 0; 0] [m0; m1; 0; 0]) -> To4 ip = Some [a; b; c; d] ->
  in_net ip cidr = (Z.land n0 m0 =? Z.land a m0) && (Z.land n1 m1 =? Z.land b m1).
Proof.
  intros E E4. unfold in_net, IPNet_Contains. rewrite E, E4.
  change (networkNumberAndMask _) with (Some ([n0; n1; 0; 0], [m0; m1; 0; 0])). cbn [default id length].
  rewrite (bool_decide_true (_ = _ :> nat)) by done. unfold mask_bytes. cbn [zip_with andb]. rewrite !Z.land_0_r.
  case_bool_decide as D; [injection D as -> ->; by rewrite !Z.eqb_refl|].
  symmetry. apply not_true_iff_false. intros [A%Z.eqb_eq B%Z.eqb_eq]%andb_true_iff. apply D. congruence.
Qed.

Lemma v4_net_v6 cidr n m ip : ParseCIDR cidr = Some (MkIPNet n m) -> length n = 4%nat -> length m = 4%nat ->
  To4 ip = None -> length ip = 16%nat -> in_net ip cidr = false.
Proof.
  intros E Hn Hm E4 HL. unfold in_net, IPNet_Contains, networkNumberAndMask. rewrite E, E4. cbn [n_IP n_Mask default id].
  unfold To4. rewrite !(bool_decide_true (length n = 4%nat)), (bool_decide_true (length m = 4%nat)) by done.
  rewrite bool_decide_false by lia. done.
Qed.

Lemma v6_net_v4 cidr n m v4 ip : ParseCIDR cidr = Some (MkIPNet n m) -> length n = 16%nat -> length m = 16%nat -> take 12 n <> v4InV6Prefix ->
  To4 ip = Some v4 -> length v4 = 4%nat -> in_net ip cidr = false.
Proof.
  intros E Hn Hm Hp E4 HL. unfold in_net, IPNet_Contains, networkNumberAndMask. rewrite E, E4. cbn [n_IP n_Mask default id].
  unfold To4. rewrite (bool_decide_false (length n = 4%nat)), (bool_decide_true (length n = 16%nat)) by lia.
  rewrite (bool_decide_false (take 12 n = _)) by done. cbn [andb]. rewrite (bool_decide_false (length m = 4%nat)), (bool_decide_true (length m = 16%nat)) by lia.
  rewrite (bool_decide_false (length n = 4%nat)) by lia. rewrite bool_decide_false by lia. done.
Qed.

Lemma v6_net cidr n m ip : ParseCIDR cidr = Some (MkIPNet n m) -> length n = 16%nat -> length m = 16%nat -> take 12 n <> v4InV6Prefix ->
  To4 ip = None -> length ip = 16%nat -> in_net ip cidr = bool_decide (mask_bytes n m = mask_bytes ip m).
Proof.
  intros E Hn Hm Hp E4 HL. unfold in_net, IPNet_Contains, networkNumberAndMask. rewrite E, E4. cbn [n_IP n_Mask default id].
  unfold To4. rewrite (bool_decide_false (length n = 4%nat)), (bool_decide_true (length n = 16%nat)) by lia.
  rewrite (bool_decide_false (take 12 n = _)) by done. cbn [andb]. rewrite (bool_decide_false (length m = 4%nat)), (bool_decide_true (length m = 16%nat)) by lia.
  rewrite (bool_decide_false (length n = 4%nat)) by lia. rewrite bool_decide_true by lia. done.
Qed.

Lemma To4_Some ip v4 : slice_ok ip -> To4 ip = Some v4 -> exists a b c d, v4 = [a; b; c; d] /\ is_byte a /\ is_byte b /\ is_byte c /\ is_byte d.
Proof.
  intros [HL HF] E. assert (length v4 = 4%nat /\ Forall is_byte v4) as [L F].
  { unfold To4 in E. destruct (bool_decide (length ip = 4%nat)) eqn:E4; [injection E as <-; split; [by apply bool_decide_eq_true in E4|done]|].
    destruct (_ && _) eqn:E16; [|done]. injection E as <-. apply andb_true_iff in E16 as [E16%bool_decide_eq_true _].
    rewrite length_drop. split; [lia|by apply Forall_drop]. }
  destruct v4 as [|a [|b [|c [|d []]]]]; try done. exists a, b, c, d. split; [done|].
  by rewrite !Forall_cons in F; destruct F as (? & ? & ? & ? & _).
Qed.

Lemma land_ranges b : is_byte b ->
  (64 =? Z.land b 192) = (64 <=? b) && (b <=? 127) /\ (16 =? Z.land b 240) = (16 <=? b) && (b <=? 31) /\
  (18 =? Z.land b 254) = (18 <=? b) && (b <=? 19) /\ (224 =? Z.land b 240) = (224 <=? b) && (b <=? 239) /\
  (240 =? Z.land b 240) = (240 <=? b) /\ (128 =? Z.land b 192) = (128 <=? b) && (b <=? 191) /\
  (252 =? Z.land b 254) = (252 <=? b) && (b <=? 253).
Proof. intros Hb. split_and!; revert b Hb; apply bytes_check; vm_compute; reflexivity. Qed.

Lemma IP_Equal_To4 ip x v4 : To4 ip = Some v4 -> length x = 16%nat -> IP_Equal ip x = true -> take 12 x = v4InV6Prefix /\ v4 = drop 12 x.
Proof.
  unfold To4, IP_Equal. intros E Hx. rewrite Hx. case_bool_decide as E4.
  - injection E as <-. rewrite E4. change (bool_decide (4%nat = 16%nat)) with false. change (bool_decide (4%nat = 4%nat)) with true.
    change (bool_decide (16%nat = 16%nat)) with true. cbn [andb]. by intros [?%bool_decide_eq_true ?%bool_decide_eq_true]%andb_true_iff.
  - destruct (_ && _) eqn:E16; [|done]. injection E as <-. apply andb_true_iff in E16 as [L%bool_decide_eq_true P%bool_decide_eq_true].
    rewrite L. change (bool_decide (16%nat = 16%nat)) with true. cbn. by intros ->%bool_decide_eq_true.
Qed.

(** The IPv4 addresses refused. *)
Lemma ipBlocked_v4 ip v4 : slice_ok ip -> To4 ip = Some v4 -> ipBlocked ip = existsb (in_net ip) blockedNets.
Proof.
  intros Hs E4. destruct (To4_Some ip v4 Hs E4) as (a & b & c & d & -> & Ha & Hb & Hc & Hd).
  assert (HU : IsUnspecified ip = true -> a = 0).
  { unfold IsUnspecified. rewrite orb_true_iff. intros [E|E]; apply (IP_Equal_To4 _ _ _ E4) in E as [P E]; try done. by injection E. }
  unfold blockedNets. cbn [existsb].
  do 10 (erewrite v4_net; [|vm_compute; reflexivity|exact E4]).
  repeat (erewrite v6_net_v4; [|vm_compute; reflexivity|done..]).
  rewrite !land_full, !Z.land_0_r by (done || (unfold is_byte; lia)).
  change (Z.land 64 192) with 64. change (Z.land 16 240) with 16. change (Z.land 18 254) with 18.
  change (Z.land 224 240) with 224. change (Z.land 240 240) with 240.
  destruct (land_ranges a Ha) as (_ & _ & _ & A1 & A2 & _). destruct (land_ranges b Hb) as (B1 & B2 & B3 & _).
  rewrite A1, A2, B1, B2, B3. unfold ipBlocked, IsLoopback, IsLinkLocalUnicast, IsLinkLocalMulticast, IsMulticast, IsPrivate. rewrite E4.
  rewrite bool_decide_false by (by apply slice_nonnil). cbn [nth]. rewrite (Z.eqb_sym (Z.land a 240)), A1, (Z.eqb_sym (Z.land b 240)), B2.
  match goal with |- (if ?x then true else ?y) = ?z => change (x || y = z) end. unfold is_byte in *.
  clear - HU Ha Hb. apply eq_true_iff_eq. rewrite !orb_true_iff, !andb_true_iff, !Z.eqb_eq, !Z.leb_le. clear Hb. split.
  - intros HB. destruct_or!; destruct_and?; subst; tauto || (try apply HU in HB; lia).
  - intros HB. destruct_or!; destruct_and?; subst; tauto || lia.
Qed.

(** The IPv6 addresses refused. *)
Lemma mask_bytes_full l : Forall is_byte l -> mask_bytes l (replicate (length l) 255) = l.
Proof. unfold mask_bytes. induction 1 as [|b l Hb HF IH]; [done|]. cbn [length replicate zip_with]. by rewrite IH, land_full. Qed.

Lemma mask_bytes_head x l m n : length l = n -> mask_bytes (x :: l) (m :: replicate n 0) = Z.land x m :: replicate n 0.
Proof.
  intros <-. unfold mask_bytes. cbn [zip_with]. f_equal. induction l as [|b l IH]; [done|].
  cbn [length replicate zip_with]. by rewrite IH, Z.land_0_r.
Qed.

Lemma bool_decide_cons (x y : Z) (l k : list Z) : bool_decide (x :: l = y :: k) = (x =? y) && bool_decide (l = k).
Proof.
  destruct (Z.eqb_spec x y) as [->|N]; [|by rewrite bool_decide_false by congruence]. cbn [andb].
  apply bool_decide_ext. split; [by intros [= ->]|by intros ->].
Qed.

Lemma ipBlocked_v6 ip : slice_ok ip -> To4 ip = None -> ipBlocked ip = existsb (in_net ip) blockedNets.
Proof.
  intros Hs E4. destruct (slice_bytes ip Hs) as [_ HL]. destruct (HL E4) as [L _]. destruct Hs as [_ HF].
  unfold blockedNets. cbn [existsb].
  do 10 (erewrite v4_net_v6; [|vm_compute; reflexivity|done..]). cbn [orb].
  rewrite (v6_net (str "::/128") IPv6zero (replicate 16 255)), (v6_net (str "::1/128") IPv6loopback (replicate 16 255)),
    (v6_net (str "fc00::/7") (252 :: replicate 15 0) (254 :: replicate 15 0)),
    (v6_net (str "fe80::/10") (254 :: 128 :: replicate 14 0) (255 :: 192 :: replicate 14 0)),
    (v6_net (str "ff00::/8") (255 :: replicate 15 0) (255 :: replicate 15 0)) by (done || (vm_compute; reflexivity)).
  assert (HE : forall x, length x = 16%nat -> IP_Equal ip x = bool_decide (ip = x)).
  { intros x Hx. unfold IP_Equal. by rewrite bool_decide_true by lia. }
  assert (HM : ip <> v4InV6Prefix ++ [0; 0; 0; 0]) by (intros ->; done).
  assert (HS : forall x, bool_decide (x = ip) = bool_decide (ip = x)) by (intros x; by apply bool_decide_ext).
  assert (HK : mask_bytes ip (replicate 16 255) = ip) by (rewrite <- L; by apply mask_bytes_full).
  rewrite HK. change (mask_bytes IPv6zero (replicate 16 255)) with IPv6zero. change (mask_bytes IPv6loopback (replicate 16 255)) with IPv6loopback.
  rewrite !HS. unfold ipBlocked, IsLoopback, IsLinkLocalUnicast, IsLinkLocalMulticast, IsMulticast, IsPrivate, IsUnspecified. rewrite E4, !HE by done.
  rewrite (bool_decide_false (ip = v4InV6Prefix ++ _)), (bool_decide_true (length ip = 16%nat)) by done.
  rewrite (bool_decide_false (ip = [])) by (by intros ->). clear HE HM HS HK HL E4.
  destruct ip as [|b0 [|b1 l]]; try done. rewrite !Forall_cons in HF. destruct HF as (H0 & H1 & _). cbn [nth andb].
  rewrite !(mask_bytes_head b0) by (cbn [length] in *; lia).
  assert (HL : mask_bytes (b0 :: b1 :: l) (255 :: 192 :: replicate 14 0) = Z.land b0 255 :: mask_bytes (b1 :: l) (192 :: replicate 14 0)) by done.
  rewrite HL, (mask_bytes_head b1) by (cbn [length] in *; lia).
  change (mask_bytes (252 :: replicate 15 0) (254 :: replicate 15 0)) with (252 :: replicate 15 0).
  change (mask_bytes (255 :: replicate 15 0) (255 :: replicate 15 0)) with (255 :: replicate 15 0).
  change (mask_bytes (254 :: 128 :: replicate 14 0) (255 :: 192 :: replicate 14 0)) with (254 :: 128 :: replicate 14 0).
  rewrite !(bool_decide_cons 252), !(bool_decide_cons 255), !(bool_decide_cons 254), !(bool_decide_cons 128), !(bool_decide_true (replicate _ _ = _)) by done.
  rewrite land_full, !andb_true_r, !orb_false_r, (Z.eqb_sym _ 252), (Z.eqb_sym _ 128), (Z.eqb_sym b0 254), (Z.eqb_sym b0 255) by done.
  generalize (252 =? Z.land b0 254) (254 =? b0) (128 =? Z.land b1 192) (255 =? b0) (Z.land b1 15 =? 2) (bool_decide (b0 :: b1 :: l = IPv6zero))
    (bool_decide (b0 :: b1 :: l = IPv6loopback)).
  by intros [] [] [] [] [] [] [].
Qed.

Lemma ipBlocked_exact ip : slice_ok ip -> ipBlocked ip = existsb (in_net ip) blockedNets.
Proof. intros Hs. destruct (To4 ip) as [v4|] eqn:E; [by eapply ipBlocked_v4|by apply ipBlocked_v6]. Qed.

(** ** Host and port *)

Lemma byte_in_notin s c : byte_in s c = false <-> c ∉ s.
Proof. rewrite <- byte_in_spec. by rewrite not_true_iff_false. Qed.

(** A host without brackets and a port without separators are found again. *)
Lemma SplitHostPort_Join host port :
  91 ∉ host -> 93 ∉ host -> 58 ∉ port -> 91 ∉ port -> 93 ∉ port -> SplitHostPort (JoinHostPort host port) = Some (host, port).
Proof.
  intros H1 H2 P0 P1 P2. unfold JoinHostPort, SplitHostPort. destruct (byte_in host 58) eqn:E.
  - assert (EA : 91 :: host ++ [93; 58] ++ port = (91 :: host ++ [93]) ++ 58 :: port) by (cbn; by rewrite <- app_assoc).
    rewrite EA, LastIndexByte_app by done. rewrite <- EA. rewrite bool_decide_true by done.
    assert (EI : IndexByte (91 :: host ++ [93; 58] ++ port) 93 = Some (S (length host))).
    { change (91 :: host ++ [93; 58] ++ port) with ((91 :: host) ++ 93 :: 58 :: port). rewrite IndexByte_app; [done|]. by intros [?|?]%elem_of_cons. }
    rewrite EI. rewrite bool_decide_false by (cbn; rewrite !length_app; cbn; lia).
    rewrite bool_decide_true by (cbn; rewrite length_app; cbn; lia).
    change (drop 1 (91 :: host ++ [93; 58] ++ port)) with (host ++ 93 :: 58 :: port).
    rewrite (proj2 (byte_in_notin _ 91)) by (rewrite elem_of_app, !elem_of_cons; intuition done).
    cbn [length]. rewrite EA. rewrite (drop_app_length' (91 :: host ++ [93]) (58 :: port) (S (S (length host)))) by (cbn; rewrite length_app; cbn; lia).
    rewrite (proj2 (byte_in_notin _ _)) by (rewrite elem_of_cons; intuition done). do 2 f_equal.
    + cbn [Nat.sub]. by rewrite Nat.sub_0_r, take_app_length.
    + assert (EB : (91 :: host ++ [93]) ++ 58 :: port = ((91 :: host ++ [93]) ++ [58]) ++ port) by (by rewrite <- app_assoc).
      rewrite EB. apply drop_app_length'. rewrite !length_app. cbn [length]. rewrite !length_app. cbn [length]. lia.
  - apply byte_in_notin in E. rewrite LastIndexByte_app by done. rewrite bool_decide_false.
    2: { destruct host; cbn; [done|]. intros [= ->]. apply H1. left. }
    rewrite take_app_length, (proj2 (byte_in_notin host 58) E). cbn [drop].
    rewrite !(proj2 (byte_in_notin (host ++ 58 :: port) _)) by (rewrite elem_of_app, elem_of_cons; intuition done).
    do 2 f_equal. assert (EB : host ++ 58 :: port = (host ++ [58]) ++ port) by (by rewrite <- app_assoc).
    rewrite EB. apply drop_app_length'. rewrite length_app. cbn. lia.
Qed.

(** ** Guarded fetches *)

Section Guarded.
Context `{Unicode}.
Variable idna : gostring -> option gostring.
Context {Conn NetErr : Type}.
Variable sysDial : gostring -> NetErr + Conn.
Variable guardLookup : gostring -> fetchErr (NetErr := NetErr) + list (list Z).
Variable lookup : nat -> gostring -> NetErr + list (list Z).
Variable addrErr : NetErr.

Lemma try_ips_dialed port le ips a : a ∈ (try_ips sysDial port le ips).2 -> exists ip, ip ∈ ips /\ a = JoinHostPort (IP_String ip) port.
Proof.
  revert le. induction ips as [|ip ips IH]; intros le; cbn [try_ips]; [by intros ?%elem_of_nil|].
  destruct (sysDial _) as [e|c]; cbn [snd].
  - specialize (IH (Some e)). destruct (try_ips sysDial port (Some e) ips) as [r l]. cbn [snd] in *.
    intros [->|Ha]%elem_of_cons; [exists ip; split; [left|done]|]. apply IH in Ha as (x & Hx & ->). exists x. split; [by right|done].
  - intros ->%list_elem_of_singleton. exists ip. split; [left|done].
Qed.

(** The dialer beneath the egress guard connects to checked addresses only. *)
Lemma ssrf_dialed i host port a :
  91 ∉ host -> 93 ∉ host -> 58 ∉ port -> 91 ∉ port -> 93 ∉ port ->
  a ∈ (ssrf sysDial lookup addrErr i (JoinHostPort host port)).2 ->
  exists ips ip, lookup i host = inr ips /\ ip ∈ ips /\ a = JoinHostPort (IP_String ip) port /\ ipBlocked ip = false.
Proof.
  intros. unfold ssrf in *. rewrite SplitHostPort_Join in * by done. unfold dialValidatedIPs in *.
  destruct (lookup i host) as [e|ips]; [by apply elem_of_nil in H5|].
  destruct (existsb ipBlocked ips) eqn:E; [by apply elem_of_nil in H5|]. case_bool_decide; [by apply elem_of_nil in H5|].
  apply try_ips_dialed in H5 as (ip & Hi & ->). exists ips, ip. split_and!; [done..|].
  destruct (ipBlocked ip) eqn:B; [|done]. exfalso. apply not_true_iff_false in E. apply E, existsb_exists. exists ip. split; [by apply list_elem_of_In|done].
Qed.

Lemma ParseIP_plain h ip c : ParseIP h = Some ip -> ip_char c = false -> c ∉ h.
Proof.
  unfold ParseIP. destruct (ParseAddr h) as [a|] eqn:E; [|done]. intros Hz Hc Hi.
  assert (HF : forallb ip_char h = true).
  { eapply ParseAddr_chars; [done|]. destruct a as [b|b z]; [done|]. by case_bool_decide. }
  rewrite forallb_forall in HF. rewrite (HF c) in Hc; [done|by apply list_elem_of_In].
Qed.

Hypothesis lookup_ok : forall i h ips, lookup i h = inr ips -> Forall slice_ok ips.
Hypothesis guard_ok : forall h ips, guardLookup h = inr ips -> Forall slice_ok ips.
(** Looking up a literal gives the address it denotes. *)
Hypothesis lookup_literal : forall i h ip ips,
  ParseIP h = Some ip -> lookup i h = inr ips -> Forall (fun x => slice_addr x = slice_addr ip) ips.

(** C19: Every address a plugin's fetch connects to has passed both guards,
    whatever the resolver answers and however its answers change between the two
    lookups: it is one of the checked addresses, in none of the loopback,
    private, link-local, carrier, benchmark, multicast and reserved networks, and
    under an egress policy the address itself lies in an allowed network or the
    requested host is allowed by the policy. *)
Theorem plugin_fetch_guarded (g : option Policy) (host port a : gostring) :
  91 ∉ host -> 93 ∉ host -> 58 ∉ port -> 91 ∉ port -> 93 ∉ port ->
  a ∈ (fetchDial idna sysDial guardLookup lookup addrErr g (JoinHostPort host port)).2 ->
  exists ip, slice_ok ip /\ a = JoinHostPort (IP_String ip) port /\ existsb (in_net ip) blockedNets = false /\
    match g with
    | None => True
    | Some p =>
        let nhost := normalizeDialHost idna host in
        allowIP p ip = true \/ allowHost p nhost = true \/
        (ParseIP host = None /\ exists ip0, ParseIP nhost = Some ip0 /\ allowIP p ip0 = true)
    end.
Proof.
  intros H1 H2 P0 P1 P2. unfold fetchDial. cbn [snd]. intros (l & Hl%list_elem_of_In & Ha%list_elem_of_In)%list_elem_of_In%in_concat.
  apply elem_of_lookup_imap in Hl as (i & d & -> & Hd). apply list_elem_of_lookup_2 in Hd.
  assert (HS : forall i h, 91 ∉ h -> 93 ∉ h -> a ∈ (ssrf sysDial lookup addrErr i (JoinHostPort h port)).2 ->
    exists ips ip, lookup i h = inr ips /\ ip ∈ ips /\ slice_ok ip /\ a = JoinHostPort (IP_String ip) port /\ existsb (in_net ip) blockedNets = false).
  { intros k h Hh1 Hh2 Hk. apply ssrf_dialed in Hk as (ips & ip & El & Hi & -> & HB); [|done..]. exists ips, ip.
    pose proof (lookup_ok _ _ _ El) as HF. rewrite Forall_forall in HF. rewrite <- ipBlocked_exact by auto. auto 10. }
  destruct g as [p|]; cbn [For DialContextWith] in Hd.
  - rewrite SplitHostPort_Join in Hd by done.
    destruct (dial_outcome idna (fun i a => (ssrf sysDial lookup addrErr i a).1) guardLookup p SubsystemPlugin host port guard_ok) as (_ & HA & _).
    destruct (HA d Hd) as (h & -> & Hh). destruct (ParseIP h) as [ip0|] eqn:E0.
    + destruct (HS i h) as (ips & ip & El & Hi & Hs & -> & HB); [by eapply ParseIP_plain|by eapply ParseIP_plain|done|].
      exists ip. split_and!; [done..|]. left. pose proof (lookup_literal _ _ _ _ E0 El) as HL. rewrite Forall_forall in HL.
      destruct (ParseIP_slice _ _ E0) as (a0 & _ & _ & Hok & _). by rewrite (allowIP_slice p ip ip0) by auto.
    + destruct Hh as [-> Hh]. destruct (HS i host) as (ips & ip & El & Hi & Hs & -> & HB); [done..|]. exists ip. split_and!; [done..|].
      destruct Hh as [Hh|(ip0 & E1 & A)]; [by auto|]. right. right. eauto.
  - cbn [dialed base] in Hd. apply list_elem_of_singleton in Hd as ->.
    destruct (HS i host) as (ips & ip & El & Hi & Hs & -> & HB); [done..|]. exists ip. auto.
Qed.
End Guarded.

(** A fetch that succeeds went to allowed hosts only, at most four redirects
    away, and retains a prefix of the answer within the limit. *)
Lemma doFetch_bounded `{Unicode} `{GoUrl} allowed maxFetchResp rawURL hops final status body truncated :
  0 <= maxFetchResp -> doFetch allowed maxFetchResp rawURL hops final = FetchOk status body truncated ->
  exists scheme host full broken, ParseURL rawURL = Some (scheme, host) /\ (scheme = str "http" \/ scheme = str "https") /\
    Forall (fun h => hostAllowed allowed h = true) (host :: hops) /\ (length hops <= 4)%nat /\ final = NetAnswer status full broken /\
    zlen body <= maxFetchResp /\ if truncated then body `prefix_of` full /\ maxFetchResp < zlen full else body = full.
Proof.
  intros Hm. unfold doFetch. destruct (ParseURL rawURL) as [[scheme host]|]; [|done].
  destruct (_ || _) eqn:Es; cbn [negb]; [|done]. destruct (hostAllowed allowed host) eqn:Eh; cbn [negb]; [|done].
  assert (HF : forall via, via <> 0%nat -> forall st b br, followRedirects allowed via hops final = NetAnswer st b br ->
    Forall (fun h => hostAllowed allowed h = true) hops /\ (length hops + via <= 5)%nat /\ final = NetAnswer st b br \/ hops = [] /\ final = NetAnswer st b br).
  { clear. induction hops as [|h hops IH]; intros via Hv st b br; cbn [followRedirects]; [by right|].
    destruct (5 <=? via)%nat eqn:L; [done|]. apply Nat.leb_gt in L. destruct (hostAllowed allowed h) eqn:E; [|done]. intros HE. left.
    apply IH in HE as [(F & L' & ->)|(-> & ->)]; [split_and!; [by constructor|cbn; lia|done]|split_and!; [by repeat constructor|cbn; lia|done]|done]. }
  destruct (followRedirects allowed 1 hops final) as [| | |st b br] eqn:E; try done. apply HF in E; [|done].
  assert (Forall (fun h => hostAllowed allowed h = true) hops /\ (length hops <= 4)%nat /\ final = NetAnswer st b br) as (F & L & ->).
  { destruct E as [(F & L & ->)|(-> & ->)]; split_and!; try done; cbn; lia. }
  apply orb_true_iff in Es. unfold string_eqb in Es. rewrite !bool_decide_eq_true in Es.
  destruct (maxFetchResp <? zlen b) eqn:Lb; [|destruct br; [done|]]; intros [= <- <- <-]; exists scheme, host, b, br || exists scheme, host, b, false;
    split_and!; try done; try by constructor.
  - unfold zlen in *. rewrite length_take. lia.
  - by apply prefix_take.
  - lia.
  - lia.
Qed.

(** ** A concrete fetch *)

Definition demo_lookup (h : gostring) : list (list Z) := match ParseIP h with Some ip => [ip] | None => [[93; 184; 216; 34]] end.

Lemma demo_lookup_ok h : Forall slice_ok (demo_lookup h).
Proof.
  unfold demo_lookup. destruct (ParseIP h) as [ip|] eqn:E.
  - destruct (ParseIP_slice _ _ E) as (a & _ & _ & Hok & _). by apply Forall_singleton.
  - apply Forall_cons_2; [|constructor]. split; [by left|]. repeat (apply Forall_cons_2; [unfold is_byte; lia|]). constructor.
Qed.

Lemma plugin_fetch_guarded_witness :
  (fetchDial (H := no_unicode) no_idna (fun _ => inr tt : unit + unit) (fun h => inr (demo_lookup h)) (fun _ h => inr (demo_lookup h)) tt
     None (JoinHostPort (str "api.test") (str "443"))).2 = [str "93.184.216.34:443"] /\
  exists ip, slice_ok ip /\ JoinHostPort (IP_String ip) (str "443") = str "93.184.216.34:443".
Proof.
  assert (HD : (fetchDial (H := no_unicode) no_idna (fun _ => inr tt : unit + unit) (fun h => inr (demo_lookup h)) (fun _ h => inr (demo_lookup h)) tt
     None (JoinHostPort (str "api.test") (str "443"))).2 = [str "93.184.216.34:443"]) by (vm_compute; reflexivity).
  split; [exact HD|].
  destruct (plugin_fetch_guarded (H := no_unicode) no_idna (fun _ => inr tt : unit + unit) (fun h => inr (demo_lookup h))
    (fun _ h => inr (demo_lookup h)) tt) with (g := @None Policy) (host := str "api.test") (port := str "443") (a := str "93.184.216.34:443")
    as (ip & Hs & Ea & _).
  - intros i h ips [= <-]. apply demo_lookup_ok.
  - intros h ips [= <-]. apply demo_lookup_ok.
  - intros i h ip ips Hp [= <-]. unfold demo_lookup. rewrite Hp. by repeat constructor.
  - by apply (bool_decide_unpack _).
  - by apply (bool_decide_unpack _).
  - by apply (bool_decide_unpack _).
  - by apply (bool_decide_unpack _).
  - by apply (bool_decide_unpack _).
  - rewrite HD. left.
  - exists ip. split; [exact Hs|symmetry; exact Ea].
Defined.
