(* ===== verification/PluginHost.v ===== *)
(** * Plugin host functions (src/internal/plugins)

    The functions a WebAssembly guest may call: jul-abi/v1 (host.go) and
    jul-abi/v2 (abi_v2.go), with the key/value store (kv.go) and its quota
    (runtime.go).  Guest memory is the runtime's, a parameter with the documented
    behaviour of its reads and writes; a guest is any sequence of host calls and
    changes of its own memory. *)

From S2P Require Import Prelude GoStrings Bytes Netip Http CacheEntry PluginFetch.

(** ** Guest memory *)

(** [api.Memory]: a linear memory of at most 2^32 bytes.  A read or write that
    leaves it fails and changes nothing. *)
Class GuestMemory := {
  memory : Type;
  mem_read : memory -> Z -> Z -> option (list Z);
  mem_write : memory -> Z -> list Z -> option memory;
  mem_read_length : forall m p n s, 0 <= n -> mem_read m p n = Some s -> zlen s = n;
  mem_write_bound : forall m p d m', mem_write m p d = Some m' -> p + zlen d <= 2 ^ 32;
  mem_write_frame : forall m p d m' q n, mem_write m p d = Some m' -> 0 <= q -> 0 <= n ->
    q + n <= p \/ p + zlen d <= q -> mem_read m' q n = mem_read m q n;
  mem_write_read : forall m p d m', mem_write m p d = Some m' -> 0 <= p -> mem_read m' p (zlen d) = Some d
}.

(** ** The key/value store *)

(** [KVStore]: what the host functions rely on. *)
Class KVStore (S : Type) := {
  kv_Get : S -> gostring -> option (list Z);
  kv_Set : S -> gostring -> list Z -> S;
  kv_get_set : forall s k v k', kv_Get (kv_Set s k v) k' = if decide (k = k') then Some v else kv_Get s k'
}.

Definition kvShards : Z := 16.

(** [memKV]: an array of maps, indexed by a seeded hash of the key; values are
    copied in and out. *)
Record memKV := MkMemKV { shards : Z -> gmap gostring (list Z); kv_hash : gostring -> Z }.

Definition newMemKV (hash : gostring -> Z) : memKV := MkMemKV (fun _ => ∅) hash.

Definition kv_shard (kv : memKV) (key : gostring) : Z := u64 (kv_hash kv key) mod kvShards.

Definition memKV_Get (kv : memKV) (key : gostring) : option (list Z) := shards kv (kv_shard kv key) !! key.

Definition memKV_Set (kv : memKV) (key : gostring) (value : list Z) : memKV :=
  let j := kv_shard kv key in
  MkMemKV (fun i => if i =? j then <[key := value]> (shards kv j) else shards kv i) (kv_hash kv).

Lemma memKV_get_set kv k v k' : memKV_Get (memKV_Set kv k v) k' = if decide (k = k') then Some v else memKV_Get kv k'.
Proof.
  unfold memKV_Get, memKV_Set, kv_shard. cbn [shards kv_hash]. case_decide as D.
  - subst k'. by rewrite Z.eqb_refl, lookup_insert_eq.
  - destruct (Z.eqb_spec (u64 (kv_hash kv k') mod kvShards) (u64 (kv_hash kv k) mod kvShards)) as [->|]; [|done]. by rewrite lookup_insert_ne.
Qed.

#[export] Instance memKV_store : KVStore memKV := {| kv_Get := memKV_Get; kv_Set := memKV_Set; kv_get_set := memKV_get_set |}.

(** [kvLedger]: the size of each key's value, and their sum. *)
Record kvLedger := MkLedger { l_keys : gmap gostring Z; l_bytes : Z }.
Definition newKVLedger : kvLedger := MkLedger ∅ 0.

(** ** Invocations *)

Inductive hostErr := errGuestMemory | errWrongPhase | errBadResult | errBodyTooLarge | errRespTooLarge | errBodyRead.

Inductive invocationPhase := phaseRequest | phaseResponse.
#[export] Instance invocationPhase_eq_dec : EqDecision invocationPhase.
Proof. solve_decision. Defined.

Definition responseModeMetadata : Z := 0.
Definition responseModeBody : Z := 1.

Definition bodyAvailable : Z := 0.
Definition bodyNotRequested : Z := 1.
Definition bodyNone : Z := 2.
Definition bodyTooLarge : Z := 3.
Definition bodyStreaming : Z := 4.
Definition bodyEncoded : Z := 5.
Definition bodyPartial : Z := 6.
Definition bodyUpgraded : Z := 7.

Definition codeOK : Z := 0.
Definition codeNotFound : Z := -1.
Definition codeInvalid : Z := -2.
Definition codeForbidden : Z := -3.
Definition codeUnavailable : Z := -4.
Definition codeTooLarge : Z := -5.
Definition codeCommitted : Z := -6.
Definition codeWrongPhase : Z := -7.
Definition codeUnsupported : Z := -8.

Definition maxRequestState : Z := 4096.
Definition maxAddedHeaderBytes : Z := 65536.

Record responseView := MkView {
  origStatus : Z;
  v_status : Z;
  statusSet : bool;
  v_header : Header;
  v_body : list Z;
  bodyState : Z;
  committed : bool;
  replaced : bool
}.

(** The request: [rq_Body] is what reading it yields, and whether the reading
    ends in an error; [None] is a request without a body. *)
Record hostRequest := MkHostRequest {
  rq_Method : gostring;
  rq_Path : gostring;
  rq_RawQuery : gostring;
  rq_RequestURI : gostring;
  rq_Header : Header;
  rq_Body : option (list Z * bool);
  rq_ContentLength : Z
}.

(** What a request hook prepares for the client: the header map of the writer,
    the status (0 when unset) and the body. *)
Record hookOutput := MkOutput { o_Header : Header; o_status : Z; o_body : list Z }.

Record invocation := MkInvocation {
  i_phase : invocationPhase;
  i_err : option hostErr;
  i_req : hostRequest;
  bodyBuffered : bool;
  i_body : list Z;
  i_out : hookOutput;
  lastFetch : list Z;
  lastFetchTruncated : bool;
  i_sub : Z;
  i_state : list Z;
  i_resp : responseView;
  addedHeaderBytes : Z
}.

(** What [compilePlugin] fixes of a plugin. *)
Record plugin := MkPlugin {
  p_name : gostring;
  isHandler : bool;
  hasResponse : bool;
  capKV : bool;
  capFetch : bool;
  configJSON : list Z;
  maxReqBody : Z;
  maxRespBody : Z;
  maxFetchResp : Z;
  allowedHosts : list gostring;
  kvMaxEntries : Z;
  kvMaxBytes : Z
}.

Definition with_err (e : hostErr) (i : invocation) : invocation :=
  MkInvocation (i_phase i) (match i_err i with None => Some e | e => e end) (i_req i) (bodyBuffered i) (i_body i) (i_out i)
    (lastFetch i) (lastFetchTruncated i) (i_sub i) (i_state i) (i_resp i) (addedHeaderBytes i).
Definition with_req (r : hostRequest) (i : invocation) : invocation :=
  MkInvocation (i_phase i) (i_err i) r (bodyBuffered i) (i_body i) (i_out i) (lastFetch i) (lastFetchTruncated i) (i_sub i)
    (i_state i) (i_resp i) (addedHeaderBytes i).
Definition with_buffer (r : hostRequest) (b : list Z) (i : invocation) : invocation :=
  MkInvocation (i_phase i) (i_err i) r true b (i_out i) (lastFetch i) (lastFetchTruncated i) (i_sub i) (i_state i) (i_resp i)
    (addedHeaderBytes i).
Definition with_out (o : hookOutput) (i : invocation) : invocation :=
  MkInvocation (i_phase i) (i_err i) (i_req i) (bodyBuffered i) (i_body i) o (lastFetch i) (lastFetchTruncated i) (i_sub i)
    (i_state i) (i_resp i) (addedHeaderBytes i).
Definition with_fetch (d : list Z) (truncated : bool) (i : invocation) : invocation :=
  MkInvocation (i_phase i) (i_err i) (i_req i) (bodyBuffered i) (i_body i) (i_out i) d truncated (i_sub i) (i_state i) (i_resp i)
    (addedHeaderBytes i).
Definition with_sub (m : Z) (i : invocation) : invocation :=
  MkInvocation (i_phase i) (i_err i) (i_req i) (bodyBuffered i) (i_body i) (i_out i) (lastFetch i) (lastFetchTruncated i) m
    (i_state i) (i_resp i) (addedHeaderBytes i).
Definition with_state (s : list Z) (i : invocation) : invocation :=
  MkInvocation (i_phase i) (i_err i) (i_req i) (bodyBuffered i) (i_body i) (i_out i) (lastFetch i) (lastFetchTruncated i) (i_sub i)
    s (i_resp i) (addedHeaderBytes i).
Definition with_resp (v : responseView) (added : Z) (i : invocation) : invocation :=
  MkInvocation (i_phase i) (i_err i) (i_req i) (bodyBuffered i) (i_body i) (i_out i) (lastFetch i) (lastFetchTruncated i) (i_sub i)
    (i_state i) v added.

Definition set_header (h : Header) (v : responseView) : responseView :=
  MkView (origStatus v) (v_status v) (statusSet v) h (v_body v) (bodyState v) (committed v) (replaced v).
Definition set_status (s : Z) (v : responseView) : responseView :=
  MkView (origStatus v) s true (v_header v) (v_body v) (bodyState v) (committed v) (replaced v).
Definition set_body (b : list Z) (v : responseView) : responseView :=
  MkView (origStatus v) (v_status v) (statusSet v) (v_header v) b (bodyState v) (committed v) true.

(** [forbiddenResponseHeaders]: framing and hop-by-hop fields. *)
Definition forbiddenResponseHeaders : list gostring :=
  [str "Connection"; str "Keep-Alive"; str "Proxy-Connection"; str "Transfer-Encoding"; str "Te"; str "Trailer"; str "Upgrade";
   str "Content-Length"; str "Content-Encoding"; str "Content-Range"].

Definition forbiddenResponseHeader (canonical : gostring) : bool := bool_decide (canonical ∈ forbiddenResponseHeaders).

(** [invocation.bufferRequestBody]: the body is read up to one byte past the
    limit, and only a complete body is kept. *)
Definition consumed (rest : list Z * bool) (r : hostRequest) : hostRequest :=
  MkHostRequest (rq_Method r) (rq_Path r) (rq_RawQuery r) (rq_RequestURI r) (rq_Header r) (Some rest) (rq_ContentLength r).
Definition rebuffered (data : list Z) (r : hostRequest) : hostRequest :=
  MkHostRequest (rq_Method r) (rq_Path r) (rq_RawQuery r) (rq_RequestURI r) (rq_Header r) (Some (data, false)) (zlen data).

Definition bufferRequestBody (maxReqBody : Z) (i : invocation) : invocation * bool :=
  if bodyBuffered i then (i, match i_err i with None => true | Some _ => false end)
  else
    match rq_Body (i_req i) with
    | None => (with_buffer (i_req i) (i_body i) i, true)
    | Some (data, broken) =>
        if maxReqBody <? zlen data then
          (with_err errBodyTooLarge (with_buffer (consumed (drop (Z.to_nat (maxReqBody + 1)) data, broken) (i_req i)) (i_body i) i), false)
        else if broken then (with_err errBodyRead (with_buffer (consumed ([], true) (i_req i)) (i_body i) i), false)
        else (with_buffer (rebuffered data (i_req i)) data i, true)
    end.

(** ** Calls *)

(** The exported functions with their arguments; [Fetch] carries the
    hosts redirected to and what the network answers. *)
Inductive hostCall :=
  | Log (level ptr n : Z)
  | GetMethod (buf limit : Z)
  | GetUri (buf limit : Z)
  | SetUri (ptr n : Z)
  | GetRequestHeader (namePtr nameLen buf limit : Z)
  | SetRequestHeader (namePtr nameLen valPtr valLen : Z)
  | SetResponseHeader (namePtr nameLen valPtr valLen : Z)
  | ReadRequestBody (buf limit : Z)
  | WriteResponseBody (ptr n : Z)
  | SetResponseStatus (code : Z)
  | GetConfig (buf limit : Z)
  | KvGet (keyPtr keyLen buf limit : Z)
  | KvSet (keyPtr keyLen valPtr valLen : Z)
  | Fetch (methodPtr methodLen urlPtr urlLen bodyPtr bodyLen buf limit : Z) (hops : list gostring) (final : netAnswer)
  | LastFetchLen
  | FetchRead (buf limit : Z)
  | LastFetchTruncated
  | SubscribeResponse (mode : Z)
  | SetRequestState (ptr n : Z)
  | GetRequestState (buf limit : Z)
  | RespStatus
  | RespSetStatus (code : Z)
  | RespGetHeader (namePtr nameLen index buf limit : Z)
  | RespHeaderNames (buf limit : Z)
  | RespSetHeader (add : bool) (namePtr nameLen valPtr valLen : Z)
  | RespDelHeader (namePtr nameLen : Z)
  | RespBodyState
  | RespBodyRead (buf limit : Z)
  | RespBodyReplace (ptr n : Z).

Section Host.
Context `{Unicode} `{HttpGuts} `{GuestMemory} `{GoUrl} {S : Type} `{KVStore S}.

Record world := MkWorld { w_mem : memory; w_inv : invocation; w_kv : S; w_ledger : kvLedger }.

Definition upd (f : invocation -> invocation) (w : world) : world := MkWorld (w_mem w) (f (w_inv w)) (w_kv w) (w_ledger w).
Definition with_mem (m : memory) (w : world) : world := MkWorld m (w_inv w) (w_kv w) (w_ledger w).

(** [invocation.fail]. *)
Definition fail_inv (e : hostErr) (w : world) : world := upd (with_err e) w.

(** [v2str] and [v2read]: a copy of guest memory; leaving it fails the
    invocation. *)
Definition v2read (w : world) (ptr n : Z) : world * option (list Z) :=
  match mem_read (w_mem w) ptr n with
  | Some b => (w, Some b)
  | None => (fail_inv errGuestMemory w, None)
  end.

(** [v2write]: the data is copied when it fits; the result is its length. *)
Definition v2write (w : world) (buf limit : Z) (data : list Z) : world * Z :=
  let n := u32 (zlen data) in
  if negb (n =? 0) && (n <=? limit) then
    match mem_write (w_mem w) buf data with
    | Some m => (with_mem m w, n)
    | None => (fail_inv errGuestMemory w, n)
    end
  else (w, n).

Definition i32r (r : world * Z) : world * Z := (r.1, i32 r.2).

(** [plugin.kvSet]: the store and the ledger after it, [None] over the quota. *)
Definition kvSet (p : plugin) (key val : list Z) (kv : S) (u : kvLedger) : option (S * kvLedger) :=
  let prev := default 0 (l_keys u !! key) in
  let newTotal := l_bytes u - prev + zlen val in
  if kvMaxBytes p <? newTotal then None
  else if bool_decide (l_keys u !! key = None) && (kvMaxEntries p <=? Z.of_nat (size (l_keys u))) then None
  else Some (kv_Set kv key val, MkLedger (<[key := zlen val]> (l_keys u)) newTotal).

Definition kvNamespace (p : plugin) : gostring := p_name p ++ [0].

Definition requestOnly (w : world) : bool := bool_decide (i_phase (w_inv w) = phaseRequest).

(** The gate of the response mutators. *)
Definition mutableResponse (w : world) : Z :=
  if negb (bool_decide (i_phase (w_inv w) = phaseResponse)) then codeWrongPhase
  else if committed (i_resp (w_inv w)) then codeCommitted
  else codeOK.

(** A header name from guest memory, in canonical form. *)
Definition headerArgs (w : world) (namePtr nameLen : Z) : world * (Z + gostring) :=
  match v2read w namePtr nameLen with
  | (w, None) => (w, inl codeInvalid)
  | (w, Some name) =>
      if negb (ValidHeaderFieldName name) then (w, inl codeInvalid)
      else
        let name := CanonicalHeaderKey name in
        if forbiddenResponseHeader name then (w, inl codeForbidden) else (w, inr name)
  end.

Definition set_uri (raw path query : gostring) (r : hostRequest) : hostRequest :=
  MkHostRequest (rq_Method r) path query raw (rq_Header r) (rq_Body r) (rq_ContentLength r).
Definition set_req_header (h : Header) (r : hostRequest) : hostRequest :=
  MkHostRequest (rq_Method r) (rq_Path r) (rq_RawQuery r) (rq_RequestURI r) h (rq_Body r) (rq_ContentLength r).

(** The response of a fetch is kept; a failed one leaves none behind. *)
Definition keep_fetch (r : fetchResult) (i : invocation) : invocation :=
  match r with
  | FetchOk _ body truncated => with_fetch body truncated i
  | _ => with_fetch [] false i
  end.

(** The names of the response header, sorted and joined by line feeds. *)
Definition header_names (h : Header) : gostring := JoinByte (sort_Strings (map fst (map_to_list h))) 10.

Definition settable_status (code : Z) : bool :=
  negb ((code <? 200) || (599 <? code) || (code =? 204) || (code =? 205) || (code =? 304)).

(** *** jul-abi/v2 *)

(** The request and the reply a request hook prepares. *)
Definition request_surface (p : plugin) (c : hostCall) (w : world) : world * Z :=
  let inv := w_inv w in
  match c with
  | Log _ ptr n => ((v2read w ptr n).1, 0)
  | GetMethod buf limit => v2write w buf limit (rq_Method (i_req inv))
  | GetUri buf limit => v2write w buf limit (RequestURI (rq_Path (i_req inv)) (rq_RawQuery (i_req inv)))
  | SetUri ptr n =>
      if negb (requestOnly w) then (fail_inv errWrongPhase w, 0)
      else
        match v2read w ptr n with
        | (w, None) => (w, 0)
        | (w, Some raw) =>
            match ParseRequestURI raw with
            | None => (w, 0)
            | Some (path, query) => (upd (with_req (set_uri raw path query (i_req inv))) w, 0)
            end
        end
  | GetRequestHeader namePtr nameLen buf limit =>
      match v2read w namePtr nameLen with
      | (w, None) => (w, -1)
      | (w, Some name) =>
          if bool_decide (header_Values (rq_Header (i_req inv)) name = []) then (w, -1)
          else i32r (v2write w buf limit (header_Get (rq_Header (i_req inv)) name))
      end
  | SetRequestHeader namePtr nameLen valPtr valLen =>
      if negb (requestOnly w) then (fail_inv errWrongPhase w, 0)
      else
        let '(w, name) := v2read w namePtr nameLen in
        let '(w, val) := v2read w valPtr valLen in
        match name, val with
        | Some name, Some val => (upd (with_req (set_req_header (header_Set (rq_Header (i_req inv)) name val) (i_req inv))) w, 0)
        | _, _ => (w, 0)
        end
  | SetResponseHeader namePtr nameLen valPtr valLen =>
      if negb (requestOnly w) then (fail_inv errWrongPhase w, 0)
      else
        let '(w, name) := v2read w namePtr nameLen in
        let '(w, val) := v2read w valPtr valLen in
        match name, val with
        | Some name, Some val =>
            (upd (with_out (MkOutput (header_Set (o_Header (i_out inv)) name val) (o_status (i_out inv)) (o_body (i_out inv)))) w, 0)
        | _, _ => (w, 0)
        end
  | ReadRequestBody buf limit =>
      if negb (requestOnly w) then (fail_inv errWrongPhase w, 0)
      else
        let '(inv, ok) := bufferRequestBody (maxReqBody p) inv in
        let w := upd (fun _ => inv) w in
        if ok then v2write w buf limit (i_body inv) else (w, 0)
  | WriteResponseBody ptr n =>
      if negb (requestOnly w) then (fail_inv errWrongPhase w, 0)
      else if maxRespBody p <? zlen (o_body (i_out inv)) + n then (fail_inv errRespTooLarge w, 0)
      else
        match v2read w ptr n with
        | (w, Some data) => (upd (with_out (MkOutput (o_Header (i_out inv)) (o_status (i_out inv)) (o_body (i_out inv) ++ data))) w, 0)
        | (w, None) => (w, 0)
        end
  | SetResponseStatus code =>
      if negb (requestOnly w) then (fail_inv errWrongPhase w, 0)
      else (upd (with_out (MkOutput (o_Header (i_out inv)) code (o_body (i_out inv)))) w, 0)
  | GetConfig buf limit => v2write w buf limit (configJSON p)
  | _ => (w, 0)
  end.

(** The key/value store and outbound requests. *)
Definition store_surface (p : plugin) (c : hostCall) (w : world) : world * Z :=
  let inv := w_inv w in
  match c with
  | KvGet keyPtr keyLen buf limit =>
      if negb (capKV p) then (w, -2)
      else
        match v2read w keyPtr keyLen with
        | (w, None) => (w, -1)
        | (w, Some key) =>
            match kv_Get (w_kv w) (kvNamespace p ++ key) with
            | None => (w, -1)
            | Some v => i32r (v2write w buf limit v)
            end
        end
  | KvSet keyPtr keyLen valPtr valLen =>
      if negb (capKV p) then (w, -2)
      else
        let '(w, key) := v2read w keyPtr keyLen in
        let '(w, val) := v2read w valPtr valLen in
        match key, val with
        | Some key, Some val =>
            match kvSet p (kvNamespace p ++ key) val (w_kv w) (w_ledger w) with
            | None => (w, -3)
            | Some (kv, u) => (MkWorld (w_mem w) (w_inv w) kv u, 0)
            end
        | _, _ => (w, -1)
        end
  | Fetch methodPtr methodLen urlPtr urlLen bodyPtr bodyLen buf limit hops final =>
      if negb (capFetch p) then (w, -2)
      else
        let '(w, method) := v2read w methodPtr methodLen in
        let '(w, rawURL) := v2read w urlPtr urlLen in
        let '(w, body) := v2read w bodyPtr bodyLen in
        match method, rawURL, body with
        | Some _, Some rawURL, Some _ =>
            let r := doFetch (allowedHosts p) (maxFetchResp p) rawURL hops final in
            let w := upd (keep_fetch r) w in
            match r with
            | FetchOk status data _ => ((v2write w buf limit data).1, i32 status)
            | _ => (w, fetchFailure r)
            end
        | _, _, _ => (w, -4)
        end
  | LastFetchLen => (w, u32 (zlen (lastFetch inv)))
  | FetchRead buf limit => v2write w buf limit (lastFetch inv)
  | LastFetchTruncated => (w, if lastFetchTruncated inv then 1 else 0)
  | _ => (w, 0)
  end.

(** The subscription and the state kept for the response hook. *)
Definition phase_surface (p : plugin) (c : hostCall) (w : world) : world * Z :=
  let inv := w_inv w in
  match c with
  | SubscribeResponse mode =>
      if negb (requestOnly w) then (w, codeWrongPhase)
      else if isHandler p || negb (hasResponse p) then (w, codeUnsupported)
      else if negb ((mode =? responseModeMetadata) || (mode =? responseModeBody)) then (w, codeInvalid)
      else (upd (with_sub mode) w, codeOK)
  | SetRequestState ptr n =>
      if negb (requestOnly w) then (w, codeWrongPhase)
      else if maxRequestState <? n then (w, codeTooLarge)
      else
        match v2read w ptr n with
        | (w, None) => (w, codeInvalid)
        | (w, Some data) => (upd (with_state data) w, codeOK)
        end
  | GetRequestState buf limit => i32r (v2write w buf limit (i_state inv))
  | _ => (w, 0)
  end.

(** The response shown to a response hook. *)
Definition response_surface (p : plugin) (c : hostCall) (w : world) : world * Z :=
  let inv := w_inv w in
  match c with
  | RespStatus => (w, if requestOnly w then codeWrongPhase else i32 (v_status (i_resp inv)))
  | RespSetStatus code =>
      if negb (mutableResponse w =? codeOK) then (w, mutableResponse w)
      else if (origStatus (i_resp inv) =? 204) || (origStatus (i_resp inv) =? 304) then (w, codeForbidden)
      else if negb (settable_status code) then (w, codeInvalid)
      else (upd (with_resp (set_status code (i_resp inv)) (addedHeaderBytes inv)) w, codeOK)
  | RespGetHeader namePtr nameLen index buf limit =>
      if requestOnly w then (w, codeWrongPhase)
      else
        match v2read w namePtr nameLen with
        | (w, None) => (w, codeInvalid)
        | (w, Some name) =>
            if negb (ValidHeaderFieldName name) then (w, codeInvalid)
            else
              match header_Values (v_header (i_resp inv)) name !! Z.to_nat index with
              | None => (w, codeNotFound)
              | Some v => i32r (v2write w buf limit v)
              end
        end
  | RespHeaderNames buf limit =>
      if requestOnly w then (w, codeWrongPhase) else i32r (v2write w buf limit (header_names (v_header (i_resp inv))))
  | RespSetHeader add namePtr nameLen valPtr valLen =>
      if negb (mutableResponse w =? codeOK) then (w, mutableResponse w)
      else
        match headerArgs w namePtr nameLen with
        | (w, inl rc) => (w, rc)
        | (w, inr name) =>
            match v2read w valPtr valLen with
            | (w, None) => (w, codeInvalid)
            | (w, Some val) =>
                let added := addedHeaderBytes inv + zlen name + zlen val in
                if negb (ValidHeaderFieldValue val) then (w, codeInvalid)
                else if maxAddedHeaderBytes <? added then (w, codeTooLarge)
                else
                  let h := v_header (i_resp inv) in
                  let h := if add then header_Add h name val else header_Set h name val in
                  (upd (with_resp (set_header h (i_resp inv)) added) w, codeOK)
            end
        end
  | RespDelHeader namePtr nameLen =>
      if negb (mutableResponse w =? codeOK) then (w, mutableResponse w)
      else
        match headerArgs w namePtr nameLen with
        | (w, inl rc) => (w, rc)
        | (w, inr name) => (upd (with_resp (set_header (header_Del (v_header (i_resp inv)) name) (i_resp inv)) (addedHeaderBytes inv)) w, codeOK)
        end
  | RespBodyState => (w, if requestOnly w then codeWrongPhase else i32 (bodyState (i_resp inv)))
  | RespBodyRead buf limit =>
      if requestOnly w then (w, codeWrongPhase)
      else if negb (bodyState (i_resp inv) =? bodyAvailable) then (w, codeUnavailable)
      else i32r (v2write w buf limit (v_body (i_resp inv)))
  | RespBodyReplace ptr n =>
      if negb (mutableResponse w =? codeOK) then (w, mutableResponse w)
      else if negb (bodyState (i_resp inv) =? bodyAvailable) then (w, codeUnavailable)
      else if maxRespBody p <? n then (w, codeTooLarge)
      else
        match v2read w ptr n with
        | (w, None) => (w, codeInvalid)
        | (w, Some data) => (upd (with_resp (set_body data (i_resp inv)) (addedHeaderBytes inv)) w, codeOK)
        end
  | _ => (w, 0)
  end.

(** One call of a guest while an invocation runs: the new world and the result,
    0 for a function without one. *)
Definition host_call (p : plugin) (c : hostCall) (w : world) : world * Z :=
  match c with
  | Log _ _ _ | GetMethod _ _ | GetUri _ _ | SetUri _ _ | GetRequestHeader _ _ _ _ | SetRequestHeader _ _ _ _
  | SetResponseHeader _ _ _ _ | ReadRequestBody _ _ | WriteResponseBody _ _ | SetResponseStatus _ | GetConfig _ _ => request_surface p c w
  | KvGet _ _ _ _ | KvSet _ _ _ _ | Fetch _ _ _ _ _ _ _ _ _ _ | LastFetchLen | FetchRead _ _ | LastFetchTruncated => store_surface p c w
  | SubscribeResponse _ | SetRequestState _ _ | GetRequestState _ _ => phase_surface p c w
  | RespStatus | RespSetStatus _ | RespGetHeader _ _ _ _ _ | RespHeaderNames _ _ | RespSetHeader _ _ _ _ _
  | RespDelHeader _ _ | RespBodyState | RespBodyRead _ _ | RespBodyReplace _ _ => response_surface p c w
  end.

(** A guest: changes of its own memory, and host calls. *)
Inductive guestStep := GuestStore (m : memory) | GuestCall (c : hostCall).

Definition guest_step (p : plugin) (w : world) (s : guestStep) : world :=
  match s with
  | GuestStore m => with_mem m w
  | GuestCall c => (host_call p c w).1
  end.

Definition run_guest (p : plugin) (steps : list guestStep) (w : world) : world := foldl (guest_step p) w steps.
End Host.

(** ** Confinement of the response hook *)

Section Confined.
Context `{Unicode} `{HttpGuts} `{GuestMemory} `{GoUrl} {S : Type} `{KVStore S}.

(** What a guest may do to the response it is shown. *)
Record view_confined (p : plugin) (a b : Z) (v v' : responseView) : Prop := {
  vc_fixed : origStatus v' = origStatus v /\ bodyState v' = bodyState v /\ committed v' = committed v;
  vc_marks : (statusSet v = true -> statusSet v' = true) /\ (replaced v = true -> replaced v' = true);
  vc_framing : forall k, k ∈ forbiddenResponseHeaders -> v_header v' !! k = v_header v !! k;
  vc_size : a <= b /\ header_size (v_header v') + a <= header_size (v_header v) + b /\ b <= Z.max a maxAddedHeaderBytes;
  vc_values : forall k x, x ∈ default [] (v_header v' !! k) -> x ∈ default [] (v_header v !! k) \/ (0 ∉ x /\ 10 ∉ x /\ 13 ∉ x);
  vc_status : v_status v' = v_status v \/
    (origStatus v <> 204 /\ origStatus v <> 304 /\ statusSet v' = true /\ 200 <= v_status v' <= 599 /\
     v_status v' <> 204 /\ v_status v' <> 205 /\ v_status v' <> 304);
  vc_body : v_body v' = v_body v \/ (bodyState v = bodyAvailable /\ replaced v' = true /\ zlen (v_body v') <= maxRespBody p)
}.

Record confined (p : plugin) (i i' : invocation) : Prop := {
  cf_phase : i_phase i' = i_phase i;
  cf_err : i_err i <> None -> i_err i' = i_err i;
  cf_request : i_phase i = phaseResponse ->
    i_req i' = i_req i /\ i_out i' = i_out i /\ i_sub i' = i_sub i /\ i_state i' = i_state i /\ bodyBuffered i' = bodyBuffered i;
  cf_view : i_phase i = phaseResponse -> view_confined p (addedHeaderBytes i) (addedHeaderBytes i') (i_resp i) (i_resp i');
  cf_commit : i_phase i = phaseResponse -> committed (i_resp i) = true -> i_resp i' = i_resp i
}.

Lemma view_confined_refl p a v : view_confined p a a v v.
Proof. constructor; [done|done|by intros k _|lia|by left|by left|by left]. Qed.

Lemma view_confined_trans p a b c u v x : view_confined p a b u v -> view_confined p b c v x -> view_confined p a c u x.
Proof.
  intros [(O & B & C) [M N] F Z1 V St Bd] [(O' & B' & C') [M' N'] F' Z2 V' St' Bd']. constructor.
  - split_and!; congruence.
  - auto.
  - intros k Hk. by rewrite F', F.
  - lia.
  - intros k y Hy. destruct (V' k y Hy) as [Hy'|?]; [by apply V|by right].
  - rewrite O in *. destruct St' as [E|?]; [|by right]. rewrite E. destruct St as [?|(? & ? & ? & ?)]; [by left|]. right. auto.
  - rewrite B in *. destruct Bd' as [E|?]; [|by right]. rewrite E. destruct Bd as [?|(? & ? & ?)]; [by left|]. right. auto.
Qed.

Lemma confined_refl p i : confined p i i.
Proof. constructor; auto using view_confined_refl. Qed.

Lemma confined_trans p i j k : confined p i j -> confined p j k -> confined p i k.
Proof.
  intros [P1 E1 R1 V1 K1] [P2 E2 R2 V2 K2]. rewrite P1 in *. constructor.
  - congruence.
  - intros Hn. rewrite <- E1 by done. apply E2. by rewrite E1.
  - intros HP. destruct (R1 HP) as (A1 & A2 & A3 & A4 & A5), (R2 HP) as (B1 & B2 & B3 & B4 & B5). split_and!; congruence.
  - intros HP. eapply view_confined_trans; auto.
  - intros HP HC. rewrite <- K1 by done. apply K2; [done|]. by rewrite K1.
Qed.

(** Failing an invocation, and reading, touch nothing of this. *)
Lemma confined_err p e i : confined p i (with_err e i).
Proof. constructor; cbn; auto using view_confined_refl. by destruct (i_err i). Qed.

(** *** The header map *)

Lemma header_size_insert (h : Header) k vs :
  header_size (<[k := vs]> h) = header_size (delete k h) + zlen k + total zlen vs.
Proof.
  unfold header_size. rewrite <- insert_delete_eq. rewrite map_fold_insert_L; [lia| |by rewrite lookup_delete_eq].
  intros j1 j2 z1 z2 y _ _ _. lia.
Qed.

Lemma header_size_delete (h : Header) k : header_size h = header_size (delete k h) + match h !! k with Some vs => zlen k + total zlen vs | None => 0 end.
Proof.
  destruct (h !! k) as [vs|] eqn:E.
  - rewrite <- (insert_id h k vs E) at 1. rewrite header_size_insert. lia.
  - rewrite delete_id by done. lia.
Qed.

Lemma forbidden_ne name k : forbiddenResponseHeader name = false -> k ∈ forbiddenResponseHeaders -> name <> k.
Proof. unfold forbiddenResponseHeader. rewrite bool_decide_eq_false. by intros Hn Hk ->. Qed.

Lemma view_set_header p v name val a add :
  CanonicalHeaderKey name = name -> forbiddenResponseHeader name = false -> ValidHeaderFieldValue val = true -> 0 <= a ->
  a + zlen name + zlen val <= maxAddedHeaderBytes ->
  view_confined p a (a + zlen name + zlen val) v (set_header (if add : bool then header_Add (v_header v) name val else header_Set (v_header v) name val) v).
Proof.
  intros Hc Hf Hv Ha Hs. pose proof (zlen_nonneg name). pose proof (zlen_nonneg val).
  assert (HV : 0 ∉ val /\ 10 ∉ val /\ 13 ∉ val) by (split_and!; intros Hi; destruct (valid_value_line val _ Hv Hi) as (? & ? & ?); done).
  constructor; cbn [set_header origStatus bodyState committed statusSet replaced v_header v_status v_body]; auto.
  - intros k Hk. pose proof (forbidden_ne name k Hf Hk). unfold header_Add, header_Set. rewrite Hc. by destruct add; rewrite lookup_insert_ne.
  - split; [lia|]. split; [|lia]. rewrite (header_size_delete (v_header v) name).
    unfold header_Add, header_Set, header_Values. rewrite Hc. destruct add; rewrite header_size_insert.
    + rewrite total_app. destruct (v_header v !! name) as [vs|]; cbn; lia.
    + cbn [total]. destruct (v_header v !! name) as [vs|]; [pose proof (total_nonneg zlen vs zlen_nonneg)|]; cbn; lia.
  - intros k x Hx. destruct (decide (name = k)) as [<-|Hk].
    + unfold header_Add, header_Set, header_Values in Hx. rewrite Hc in Hx. destruct add; rewrite lookup_insert_eq in Hx; cbn in Hx.
      * apply elem_of_app in Hx as [?| ->%list_elem_of_singleton]; [by left|by right].
      * apply list_elem_of_singleton in Hx as ->. by right.
    + unfold header_Add, header_Set in Hx. rewrite Hc in Hx. left. by destruct add; rewrite lookup_insert_ne in Hx.
Qed.

Lemma view_del_header p v name a :
  CanonicalHeaderKey name = name -> forbiddenResponseHeader name = false -> 0 <= a ->
  view_confined p a a v (set_header (header_Del (v_header v) name) v).
Proof.
  intros Hc Hf Ha. constructor; cbn [set_header origStatus bodyState committed statusSet replaced v_header v_status v_body]; auto; unfold header_Del; rewrite Hc.
  - intros k Hk. pose proof (forbidden_ne name k Hf Hk). by rewrite lookup_delete_ne.
  - split; [lia|]. split; [|lia]. rewrite (header_size_delete (v_header v) name).
    destruct (v_header v !! name) as [vs|]; [pose proof (total_nonneg zlen vs zlen_nonneg); pose proof (zlen_nonneg name)|]; lia.
  - intros k x Hx. left. destruct (decide (name = k)) as [<-|Hk]; [rewrite lookup_delete_eq in Hx; by apply elem_of_nil in Hx|by rewrite lookup_delete_ne in Hx].
Qed.

Lemma view_set_status p v code a :
  (origStatus v =? 204) || (origStatus v =? 304) = false -> settable_status code = true -> view_confined p a a v (set_status code v).
Proof.
  intros Ho Hs. unfold settable_status in Hs. constructor; cbn [set_status origStatus bodyState committed statusSet replaced v_header v_status v_body]; auto.
  - lia.
  - right. lia.
Qed.

Lemma view_set_body p v d a : bodyState v = bodyAvailable -> zlen d <= maxRespBody p -> view_confined p a a v (set_body d v).
Proof.
  intros Hb Hd. constructor; cbn [set_body origStatus bodyState committed statusSet replaced v_header v_status v_body]; auto. lia.
Qed.

(** *** Steps *)

Lemma confined_view p i v b :
  view_confined p (addedHeaderBytes i) b (i_resp i) v -> committed (i_resp i) = false -> confined p i (with_resp v b i).
Proof. intros HV HC. constructor; cbn; auto. by rewrite HC. Qed.

Lemma confined_request p i i' :
  i_phase i = phaseRequest -> i_phase i' = phaseRequest -> (i_err i <> None -> i_err i' = i_err i) -> confined p i i'.
Proof. intros HP HP' HE. constructor; rewrite ?HP, ?HP'; done. Qed.

Lemma v2read_cases w ptr n :
  (exists d, v2read (S := S) w ptr n = (w, Some d) /\ mem_read (w_mem w) ptr n = Some d) \/
  v2read w ptr n = (fail_inv errGuestMemory w, None) /\ mem_read (w_mem w) ptr n = None.
Proof. unfold v2read. destruct (mem_read _ _ _) as [d|]; eauto. Qed.

Lemma headerArgs_cases w namePtr nameLen :
  (exists name, headerArgs (S := S) w namePtr nameLen = (w, inr name) /\ CanonicalHeaderKey name = name /\ forbiddenResponseHeader name = false) \/
  (exists rc w', headerArgs w namePtr nameLen = (w', inl rc) /\ (w' = w \/ w' = fail_inv errGuestMemory w)).
Proof.
  unfold headerArgs. destruct (v2read_cases w namePtr nameLen) as [(d & -> & _)|[-> _]]; [|right; eauto].
  destruct (ValidHeaderFieldName d); cbn [negb]; [|right; eauto]. destruct (forbiddenResponseHeader _) eqn:F; [right; eauto|].
  left. eexists. split; [done|]. split; [apply CanonicalHeaderKey_idem|done].
Qed.

Lemma confined_fail p i e (w : world (S := S)) : confined p i (w_inv w) -> confined p i (w_inv (fail_inv e w)).
Proof. intros HC. eapply confined_trans; [done|apply confined_err]. Qed.

Lemma confined_write p i (w : world (S := S)) buf limit d : confined p i (w_inv w) -> confined p i (w_inv (v2write w buf limit d).1).
Proof. intros HC. unfold v2write. destruct (_ && _); [|done]. destruct (mem_write _ _ _); [done|by apply confined_fail]. Qed.

Lemma mutable_ok (w : world (S := S)) : (mutableResponse w =? codeOK) = true -> i_phase (w_inv w) = phaseResponse /\ committed (i_resp (w_inv w)) = false.
Proof. unfold mutableResponse. destruct (i_phase (w_inv w)); [done|]. cbn. by destruct (committed _). Qed.

Lemma buffer_request p m i : i_phase i = phaseRequest -> confined p i (bufferRequestBody m i).1.
Proof.
  intros HP. unfold bufferRequestBody. destruct (bodyBuffered i); [apply confined_refl|].
  destruct (rq_Body (i_req i)) as [[data broken]|]; [destruct (_ <? _); [|destruct broken]|]; apply confined_request; cbn; auto;
    by destruct (i_err i).
Qed.
End Confined.

Create HintDb confine.
#[export] Hint Resolve confined_refl confined_fail confined_write : confine.

(** Split a guest read into its two outcomes. *)
Ltac read_cases :=
  match goal with
  | |- context [v2read ?w ?p ?n] =>
      let d := fresh "d" in let E := fresh "E" in let M := fresh "M" in
      destruct (v2read_cases w p n) as [(d & E & M)|[E M]]; rewrite E; clear E; cbn [fst snd]
  end.

Section Sandbox.
Context `{Unicode} `{HttpGuts} `{GuestMemory} `{GoUrl} {S : Type} `{KVStore S}.

Lemma requestOnly_phase (w : world (S := S)) : requestOnly w = true -> i_phase (w_inv w) = phaseRequest.
Proof. unfold requestOnly. by rewrite bool_decide_eq_true. Qed.

Lemma confined_upd p (w : world (S := S)) f : i_phase (w_inv w) = phaseRequest -> i_phase (f (w_inv w)) = phaseRequest ->
  (i_err (w_inv w) <> None -> i_err (f (w_inv w)) = i_err (w_inv w)) -> confined p (w_inv w) (w_inv (upd f w)).
Proof. intros. by apply confined_request. Qed.

(** Calls that only a request hook may make. *)
Lemma request_call_confined p c w : 0 <= addedHeaderBytes (w_inv w) ->
  match c with SetUri _ _ | SetRequestHeader _ _ _ _ | SetResponseHeader _ _ _ _ | ReadRequestBody _ _ | WriteResponseBody _ _
             | SetResponseStatus _ | SubscribeResponse _ | SetRequestState _ _ => True | _ => False end ->
  confined p (w_inv w) (w_inv (host_call (S := S) p c w).1).
Proof.
  intros Ha Hc. destruct c; try done; cbn [host_call request_surface store_surface phase_surface response_surface]; destruct (requestOnly w) eqn:ER; cbn [negb fst]; auto with confine;
    apply requestOnly_phase in ER; repeat read_cases; repeat (case_match; cbn [fst snd]; auto with confine); auto with confine;
    try (by apply confined_upd).
  all: pose proof (buffer_request p (maxReqBody p) (w_inv w) ER) as HB; rewrite H4 in HB; cbn [fst] in HB; auto with confine.
Qed.

(** The length arguments are unsigned. *)
Definition call_ok (c : hostCall) : Prop :=
  match c with RespBodyReplace _ n => 0 <= n | _ => True end.

(** Calls that change the response. *)
Lemma response_call_confined p c w : 0 <= addedHeaderBytes (w_inv w) ->
  match c with RespSetStatus _ | RespSetHeader _ _ _ _ _ | RespDelHeader _ _ | RespBodyReplace _ _ => call_ok c | _ => False end ->
  confined p (w_inv w) (w_inv (host_call (S := S) p c w).1).
Proof.
  intros Ha Hc. destruct c; try done; cbn [host_call request_surface store_surface phase_surface response_surface]; destruct (mutableResponse w =? codeOK) eqn:EM; cbn [negb fst]; auto with confine;
    apply mutable_ok in EM as [HP HC].
  - destruct (_ || _) eqn:Eo; [auto with confine|]. destruct (settable_status code) eqn:Es; cbn [negb fst]; [|auto with confine].
    by apply confined_view; [apply view_set_status|].
  - destruct (headerArgs_cases w namePtr nameLen) as [(name & -> & Hn & Hf)|(rc & w' & -> & [->| ->])]; cbn [fst]; [|auto with confine..].
    read_cases; [|auto with confine]. destruct (ValidHeaderFieldValue d) eqn:EV; cbn [negb fst]; [|auto with confine].
    destruct (_ <? _) eqn:EL; cbn [fst]; [auto with confine|]. apply confined_view; [|done]. apply view_set_header; auto. lia.
  - destruct (headerArgs_cases w namePtr nameLen) as [(name & -> & Hn & Hf)|(rc & w' & -> & [->| ->])]; cbn [fst]; [|auto with confine..].
    by apply confined_view; [apply view_del_header|].
  - destruct (_ =? _) eqn:Eb; cbn [negb fst]; [|auto with confine]. destruct (_ <? _) eqn:EL; cbn [fst]; [auto with confine|].
    read_cases; [|auto with confine]. apply confined_view; [|done]. apply view_set_body; [lia|].
    pose proof (mem_read_length _ _ _ _ Hc M). lia.
Qed.

Lemma confined_keep_fetch p i r (w : world (S := S)) : confined p i (w_inv w) -> confined p i (w_inv (upd (keep_fetch r) w)).
Proof.
  intros HC. eapply confined_trans; [exact HC|]. cbn [upd w_inv]. destruct r; constructor; cbn; auto using view_confined_refl.
Qed.

Lemma host_call_confined p c w : 0 <= addedHeaderBytes (w_inv w) -> call_ok c -> confined p (w_inv w) (w_inv (host_call (S := S) p c w).1).
Proof.
  intros Ha Hc. destruct c; try (by apply request_call_confined); try (by apply response_call_confined); cbn [host_call request_surface store_surface phase_surface response_surface i32r fst];
    auto with confine; repeat (read_cases || (case_match; cbn [fst snd i32r])); eauto using confined_keep_fetch with confine.
Qed.

(** The state of an invocation along the calls of a guest. *)
Lemma run_guest_confined p steps w : 0 <= addedHeaderBytes (w_inv w) -> i_phase (w_inv w) = phaseResponse ->
  Forall (fun s => match s with GuestCall c => call_ok c | GuestStore _ => True end) steps ->
  confined p (w_inv w) (w_inv (run_guest (S := S) p steps w)).
Proof.
  unfold run_guest. intros Ha HP HF. revert w Ha HP. induction HF as [|s steps Hs HF IH]; intros w Ha HP; [apply confined_refl|]. cbn [foldl].
  assert (HC : confined p (w_inv w) (w_inv (guest_step p w s))).
  { destruct s as [m|c]; [apply confined_refl|by apply host_call_confined]. }
  eapply confined_trans; [exact HC|]. apply IH; [|by rewrite (cf_phase _ _ _ HC)].
  pose proof (vc_size _ _ _ _ _ (cf_view _ _ _ HC HP)). lia.
Qed.
End Sandbox.

(** ** The shared store *)

Section Shared.
Context {S : Type} `{KVStore S}.

(** The store and the ledgers of the process, by plugin name ([kvLedgerFor]). *)
Record system := MkSystem { s_kv : S; s_ledgers : gmap gostring kvLedger }.

Definition kvLedgerFor (name : gostring) (s : system) : kvLedger := default newKVLedger (s_ledgers s !! name).

(** A plugin reads or writes a key of its own. *)
Record kvCall := MkKvCall { kc_plugin : plugin; kc_key : gostring; kc_set : option (list Z) }.
Inductive kvAnswer := KvValue (v : option (list Z)) | KvStored (ok : bool).

Definition kv_step (s : system) (c : kvCall) : system * kvAnswer :=
  let p := kc_plugin c in
  let key := kvNamespace p ++ kc_key c in
  match kc_set c with
  | None => (s, KvValue (kv_Get (s_kv s) key))
  | Some val =>
      match kvSet p key val (s_kv s) (kvLedgerFor (p_name p) s) with
      | None => (s, KvStored false)
      | Some (kv, u) => (MkSystem kv (<[p_name p := u]> (s_ledgers s)), KvStored true)
      end
  end.

Fixpoint kv_run (s : system) (trace : list kvCall) : system * list (gostring * kvAnswer) :=
  match trace with
  | [] => (s, [])
  | c :: trace =>
      let '(s1, a) := kv_step s c in
      let '(s2, l) := kv_run s1 trace in
      (s2, (p_name (kc_plugin c), a) :: l)
  end.

(** What a plugin can see of the store. *)
Definition same_namespace (n : gostring) (s t : system) : Prop :=
  kvLedgerFor n s = kvLedgerFor n t /\ forall key, kv_Get (s_kv s) (n ++ 0 :: key) = kv_Get (s_kv t) (n ++ 0 :: key).

Lemma namespace_key p key : kvNamespace p ++ key = p_name p ++ 0 :: key.
Proof. unfold kvNamespace. by rewrite <- app_assoc. Qed.

Lemma kv_step_same n s t c : p_name (kc_plugin c) = n -> same_namespace n s t ->
  (kv_step s c).2 = (kv_step t c).2 /\ same_namespace n (kv_step s c).1 (kv_step t c).1.
Proof.
  intros <- [HL HK]. unfold kv_step. rewrite namespace_key, HL, HK. destruct (kc_set c) as [val|]; [|done].
  unfold kvSet. destruct (_ <? _); [done|]. destruct (_ && _); [done|]. cbn [fst snd]. split; [done|]. split.
  - unfold kvLedgerFor. cbn [s_ledgers]. by rewrite !lookup_insert_eq.
  - intros key. cbn [s_kv]. rewrite !kv_get_set. by case_decide.
Qed.

Lemma kv_step_other n s c : p_name (kc_plugin c) <> n -> 0 ∉ p_name (kc_plugin c) -> 0 ∉ n -> same_namespace n s (kv_step s c).1.
Proof.
  intros Hn Hp H0. unfold kv_step. rewrite namespace_key. destruct (kc_set c) as [val|]; [|done].
  unfold kvSet. destruct (_ <? _); [done|]. destruct (_ && _); [done|]. cbn [fst]. split.
  - unfold kvLedgerFor. cbn [s_ledgers]. by rewrite lookup_insert_ne.
  - intros key. cbn [s_kv]. rewrite kv_get_set. case_decide as D; [|done]. apply cut_unique in D as [D _]; done.
Qed.

Lemma kv_run_same n trace s t :
  Forall (fun c => 0 ∉ p_name (kc_plugin c)) trace -> 0 ∉ n -> same_namespace n s t ->
  filter (fun a => a.1 = n) (kv_run s trace).2 = (kv_run t (filter (fun c => p_name (kc_plugin c) = n) trace)).2 /\
  same_namespace n (kv_run s trace).1 (kv_run t (filter (fun c => p_name (kc_plugin c) = n) trace)).1.
Proof.
  intros HF H0. revert s t. induction HF as [|c trace Hc HF IH]; intros s t HS; [done|]. cbn [kv_run].
  destruct (kv_step s c) as [s1 a] eqn:E1. destruct (decide (p_name (kc_plugin c) = n)) as [Hn|Hn].
  - rewrite (filter_cons_True _ c) by done. cbn [kv_run]. destruct (kv_step_same n s t c Hn HS) as [Ea HS1]. rewrite E1 in Ea, HS1.
    destruct (kv_step t c) as [t1 b]. cbn [fst snd] in *. subst b. specialize (IH s1 t1 HS1).
    destruct (kv_run s1 trace) as [s2 l]. destruct (kv_run t1 _) as [t2 l']. cbn [fst snd] in *. rewrite filter_cons_True by done.
    destruct IH as [-> IH]. done.
  - rewrite (filter_cons_False _ c) by done. pose proof (kv_step_other n s c Hn Hc H0) as HO. rewrite E1 in HO. cbn [fst] in HO.
    assert (HS1 : same_namespace n s1 t) by (destruct HO as [O1 O2], HS as [S1 S2]; split; [congruence|intros key; by rewrite <- O2]).
    specialize (IH s1 t HS1). destruct (kv_run s1 trace) as [s2 l]. cbn [fst snd] in *. by rewrite filter_cons_False.
Qed.

(** *** The quota *)

Definition ledger_sum (m : gmap gostring Z) : Z := map_fold (fun _ n acc => n + acc) 0 m.

Lemma ledger_sum_insert m k n : ledger_sum (<[k := n]> m) = ledger_sum m - default 0 (m !! k) + n.
Proof.
  assert (HI : forall m k n, m !! k = None -> ledger_sum (<[k := n]> m) = n + ledger_sum m).
  { intros m' k' n' E. unfold ledger_sum. apply map_fold_insert_L; [|done]. intros. lia. }
  destruct (m !! k) as [x|] eqn:E; cbn.
  - rewrite <- (insert_id m k x E) at 2. rewrite <- insert_delete_eq, <- (insert_delete_eq m k x), !HI by (by rewrite lookup_delete_eq). lia.
  - rewrite HI by done. lia.
Qed.

(** A namespace within [bytes] bytes of values and [entries] keys, every value of
    which is on its ledger. *)
Record within (n : gostring) (bytes entries : Z) (s : system) : Prop := {
  wi_sum : l_bytes (kvLedgerFor n s) = ledger_sum (l_keys (kvLedgerFor n s));
  wi_bytes : l_bytes (kvLedgerFor n s) <= bytes;
  wi_entries : Z.of_nat (size (l_keys (kvLedgerFor n s))) <= entries;
  wi_values : forall key, l_keys (kvLedgerFor n s) !! (n ++ 0 :: key) = zlen <$> kv_Get (s_kv s) (n ++ 0 :: key)
}.

Lemma kv_step_within n bytes entries s c :
  0 ∉ p_name (kc_plugin c) -> 0 ∉ n ->
  (p_name (kc_plugin c) = n -> kvMaxBytes (kc_plugin c) <= bytes /\ kvMaxEntries (kc_plugin c) <= entries) ->
  within n bytes entries s -> within n bytes entries (kv_step s c).1.
Proof.
  intros Hp H0 Hq [W1 W2 W3 W4]. destruct (decide (p_name (kc_plugin c) = n)) as [Hn|Hn].
  - specialize (Hq Hn). unfold kv_step. rewrite namespace_key, Hn. destruct (kc_set c) as [val|]; [|done].
    unfold kvSet. destruct (_ <? _) eqn:EB; [done|]. destruct (_ && _) eqn:EE; [done|]. cbn [fst].
    assert (EL : forall kv u, kvLedgerFor n (MkSystem kv (<[n := u]> (s_ledgers s))) = u).
    { intros. unfold kvLedgerFor. cbn [s_ledgers]. by rewrite lookup_insert_eq. }
    constructor; rewrite EL; cbn [l_bytes l_keys s_kv].
    + rewrite ledger_sum_insert. lia.
    + lia.
    + destruct (l_keys (kvLedgerFor n s) !! (n ++ 0 :: kc_key c)) as [x|] eqn:EX.
      * by rewrite map_size_insert_Some by done.
      * rewrite map_size_insert_None by done. rewrite bool_decide_true in EE by done. cbn [andb] in EE. lia.
    + intros key. rewrite kv_get_set. case_decide as D; [rewrite D; by rewrite lookup_insert_eq|]. by rewrite lookup_insert_ne.
  - destruct (kv_step_other n s c Hn Hp H0) as [E1 E2]. constructor; rewrite <- ?E1; auto. intros key. by rewrite <- E2.
Qed.

(** Plugins that share the key/value store do not see each other: in any
    interleaving of their reads and writes, a plugin gets exactly the answers it
    would get running alone, and what is stored under its name stays within the
    largest quota it was configured with, in bytes of values and in keys. *)
Theorem plugin_kv_isolated (n : gostring) (bytes entries : Z) (trace : list kvCall) (s : system) :
  0 ∉ n -> Forall (fun c => 0 ∉ p_name (kc_plugin c)) trace ->
  Forall (fun c => p_name (kc_plugin c) = n -> kvMaxBytes (kc_plugin c) <= bytes /\ kvMaxEntries (kc_plugin c) <= entries) trace ->
  within n bytes entries s ->
  filter (fun a => a.1 = n) (kv_run s trace).2 = (kv_run s (filter (fun c => p_name (kc_plugin c) = n) trace)).2 /\
  within n bytes entries (kv_run s trace).1.
Proof.
  intros H0 HF HQ HW. split; [by apply kv_run_same|].
  revert s HW HQ. induction HF as [|c trace Hc HF IH]; intros s HW HQ; [done|]. cbn [kv_run]. apply Forall_cons in HQ as [Hq HQ].
  pose proof (kv_step_within n bytes entries s c Hc H0 Hq HW) as HW1. destruct (kv_step s c) as [s1 a]. cbn [fst] in HW1.
  specialize (IH s1 HW1 HQ). by destruct (kv_run s1 trace).
Qed.
End Shared.

(** ** What any guest can do *)

Section Guests.
Context `{Unicode} `{HttpGuts} `{GuestMemory} `{GoUrl} {S : Type} `{KVStore S}.

Definition step_ok (s : guestStep) : Prop := match s with GuestCall c => call_ok c | GuestStore _ => True end.

(** C6: Whatever calls a response hook makes, and whatever it writes into its own
    memory, the request, the output of the request hook and the saved state are
    untouched; of the response it cannot change framing and hop-by-hop fields,
    cannot make the header map grow by more than 64 KiB, cannot add a value with
    a line break, cannot choose an interim or bodyless status, cannot change a
    204 or 304, and can replace only an available body within the limit; and once
    the response is committed it changes nothing. *)
Theorem response_hook_confined (p : plugin) (steps : list guestStep) (w : world (S := S)) :
  i_phase (w_inv w) = phaseResponse -> addedHeaderBytes (w_inv w) = 0 -> Forall step_ok steps ->
  let i := w_inv w in
  let i' := w_inv (run_guest p steps w) in
  let v := i_resp i in
  let v' := i_resp i' in
  i_req i' = i_req i /\ i_out i' = i_out i /\ i_state i' = i_state i /\
  (forall k, k ∈ forbiddenResponseHeaders -> v_header v' !! k = v_header v !! k) /\
  header_size (v_header v') <= header_size (v_header v) + maxAddedHeaderBytes /\
  (forall k x, x ∈ default [] (v_header v' !! k) -> x ∈ default [] (v_header v !! k) \/ (0 ∉ x /\ 10 ∉ x /\ 13 ∉ x)) /\
  (v_status v' = v_status v \/ origStatus v <> 204 /\ origStatus v <> 304 /\ settable_status (v_status v') = true) /\
  (v_body v' = v_body v \/ bodyState v = bodyAvailable /\ replaced v' = true /\ zlen (v_body v') <= maxRespBody p) /\
  (committed v = true -> v' = v).
Proof.
  intros HP Ha HF i i' v v'. assert (HC : confined p i i') by (apply run_guest_confined; [rewrite Ha; done|done|exact HF]).
  destruct (cf_request _ _ _ HC HP) as (R1 & R2 & _ & R3 & _). pose proof (cf_view _ _ _ HC HP) as HV. fold v v' in HV.
  pose proof (vc_size _ _ _ _ _ HV) as HZ. unfold i in HZ. rewrite Ha in HZ. split_and!; auto.
  - exact (vc_framing _ _ _ _ _ HV).
  - fold i in HZ. unfold maxAddedHeaderBytes in *. lia.
  - exact (vc_values _ _ _ _ _ HV).
  - destruct (vc_status _ _ _ _ _ HV) as [?|(? & ? & _ & HS)]; [by left|]. right. split_and!; [done..|]. unfold settable_status. lia.
  - exact (vc_body _ _ _ _ _ HV).
  - exact (cf_commit _ _ _ HC HP).
Qed.

(** The buffer a call may fill. *)
Definition call_buffer (c : hostCall) : Z * Z :=
  match c with
  | GetMethod b l | GetUri b l | GetRequestHeader _ _ b l | ReadRequestBody b l | GetConfig b l | KvGet _ _ b l
  | Fetch _ _ _ _ _ _ b l _ _ | FetchRead b l | GetRequestState b l | RespGetHeader _ _ _ b l | RespHeaderNames b l
  | RespBodyRead b l => (b, l)
  | _ => (0, 0)
  end.

(** Two memories that agree outside a buffer. *)
Definition same_outside (b l : Z) (m m' : memory) : Prop :=
  forall q n, 0 <= q -> 0 <= n -> q + n <= b \/ b + l <= q -> mem_read m' q n = mem_read m q n.

Lemma v2write_memory b l d (w : world (S := S)) m :
  0 <= b -> same_outside b l m (w_mem w) -> same_outside b l m (w_mem (v2write w b l d).1).
Proof.
  intros Hb Hm. unfold v2write. destruct (_ && _) eqn:E; [|done]. destruct (mem_write (w_mem w) b d) as [m'|] eqn:Ew; [|done].
  intros q n Hq Hn Hd. cbn [fst with_mem w_mem]. rewrite <- (Hm q n) by done. eapply mem_write_frame; [exact Ew|done|done|].
  pose proof (mem_write_bound _ _ _ _ Ew). pose proof (zlen_nonneg d). unfold u32, wrap in E.
  assert (zlen d <> 2 ^ 32) by (intros Ez; rewrite Ez, Z_mod_same_full in E; done).
  rewrite Z.mod_small in E by lia. lia.
Qed.

Lemma v2write_memory' b l d (w : world (S := S)) m :
  0 <= b -> same_outside b l m (w_mem w) -> same_outside b l m (w_mem (i32r (v2write w b l d)).1).
Proof. apply v2write_memory. Qed.

Lemma same_outside_refl b l m : same_outside b l m m.
Proof. done. Qed.

Lemma headerArgs_memory (w : world (S := S)) namePtr nameLen : w_mem (headerArgs w namePtr nameLen).1 = w_mem w.
Proof. unfold headerArgs. read_cases; [|done]. by repeat case_match. Qed.

(** A host call writes guest memory only inside the buffer the guest named
    for it; every byte outside is as the guest left it. *)
Theorem host_writes_in_buffer (p : plugin) (c : hostCall) (w : world (S := S)) :
  0 <= (call_buffer c).1 -> same_outside (call_buffer c).1 (call_buffer c).2 (w_mem w) (w_mem (host_call p c w).1).
Proof.
  destruct c; cbn [call_buffer host_call request_surface store_surface phase_surface response_surface fst snd]; intros Hb; auto using v2write_memory, same_outside_refl;
    try (destruct (headerArgs w _ _) as [w' [rc|name]] eqn:EH; pose proof (headerArgs_memory w namePtr nameLen) as HM; rewrite EH in HM; cbn [fst] in HM);
    repeat (read_cases || (case_match; cbn [fst snd]));
    eauto using v2write_memory, v2write_memory', same_outside_refl.
  all: cbn [w_mem upd fail_inv]; rewrite HM; apply same_outside_refl.
Qed.

(** *** The request hook *)

(** The bounds of a request hook's state, and the body the next handler reads:
    [body] is what the client sends. *)
Record request_ok (p : plugin) (body : option (list Z * bool)) (i : invocation) : Prop := {
  rk_phase : i_phase i = phaseRequest;
  rk_out : zlen (o_body (i_out i)) <= maxRespBody p;
  rk_state : zlen (i_state i) <= maxRequestState;
  rk_sub : -1 <= i_sub i <= 1;
  rk_body : i_err i = None ->
    if bodyBuffered i
    then match body with
         | None => rq_Body (i_req i) = None
         | Some (data, broken) => broken = false /\ zlen data <= maxReqBody p /\ i_body i = data /\ rq_Body (i_req i) = Some (data, false)
         end
    else rq_Body (i_req i) = body
}.

Lemma request_ok_err p body e i : request_ok p body i -> request_ok p body (with_err e i).
Proof. intros [H1' H2' H3' H4' H5']. constructor; cbn; auto. by destruct (i_err i). Qed.

Lemma request_ok_fail p body e (w : world (S := S)) : request_ok p body (w_inv w) -> request_ok p body (w_inv (fail_inv e w)).
Proof. apply request_ok_err. Qed.

Lemma request_ok_write p body (w : world (S := S)) b l d : request_ok p body (w_inv w) -> request_ok p body (w_inv (v2write w b l d).1).
Proof. intros HR. unfold v2write. destruct (_ && _); [|done]. destruct (mem_write _ _ _); [done|by apply request_ok_err]. Qed.

Lemma request_ok_buffer p body i : request_ok p body i -> request_ok p body (bufferRequestBody (maxReqBody p) i).1.
Proof.
  intros HR. unfold bufferRequestBody. destruct (bodyBuffered i) eqn:EB; [done|]. destruct HR as [R1 R2 R3 R4 R5]. rewrite EB in R5.
  destruct (rq_Body (i_req i)) as [[data broken]|] eqn:EQ.
  - destruct (_ <? _) eqn:EL; [|destruct broken]; constructor; cbn; auto; try (by destruct (i_err i)).
    intros He. rewrite <- (R5 He). split_and!; auto. lia.
  - constructor; cbn; auto. intros He. by rewrite <- (R5 He).
Qed.

(** The length arguments are unsigned. *)
Definition args_ok (c : hostCall) : Prop :=
  match c with WriteResponseBody _ n | SetRequestState _ n | RespBodyReplace _ n => 0 <= n | _ => True end.

Lemma host_call_request p body c (w : world (S := S)) :
  args_ok c -> request_ok p body (w_inv w) -> request_ok p body (w_inv (host_call p c w).1).
Proof.
  intros Ha HR. pose proof (rk_phase _ _ _ HR) as HP.
  assert (HO : requestOnly w = true) by (unfold requestOnly; by rewrite bool_decide_eq_true).
  assert (HM : mutableResponse w = codeWrongPhase) by (unfold mutableResponse; by rewrite HP).
  assert (HK : forall r w, request_ok p body (w_inv w) -> request_ok p body (w_inv (upd (S := S) (keep_fetch r) w))).
  { intros r w1 [R1 R2 R3 R4 R5]. destruct r; by constructor. }
  pose proof (request_ok_buffer p body (w_inv w) HR) as HB.
  destruct c; cbn [host_call request_surface store_surface phase_surface response_surface i32r fst]; rewrite ?HO, ?HM; change (codeWrongPhase =? codeOK) with false; cbn [negb fst];
    auto using request_ok_write, request_ok_fail;
    repeat (read_cases || (case_match; cbn [fst snd i32r])); auto using request_ok_write, request_ok_fail;
    try (by constructor; cbn; destruct HR; auto).
  - destruct HR as [R1 R2 R3 R4 R5]. constructor; cbn; auto. rewrite zlen_app, (mem_read_length _ _ _ _ Ha M). lia.
  - destruct HR as [R1 R2 R3 R4 R5]. constructor; cbn; auto. unfold responseModeMetadata, responseModeBody in *. lia.
  - destruct HR as [R1 R2 R3 R4 R5]. constructor; cbn; auto. rewrite (mem_read_length _ _ _ _ Ha M). lia.
Qed.

(** The invocation [invoke] starts a request hook with; [h] is the header map of
    the client's writer. *)
Definition newInvocation (r : hostRequest) (h : Header) : invocation :=
  MkInvocation phaseRequest None r false [] (MkOutput h 0 []) [] false (-1) [] (MkView 0 0 false ∅ [] 0 false false) 0.

(** Whatever a request hook does, the response it prepares stays within
    max_response_body and the state it saves within 4 KiB; and unless the
    invocation fails, the next handler reads either the client's body untouched
    or the whole of it, within max_request_body and read without error: never a
    part of it. *)
Theorem request_hook_bounded (p : plugin) (steps : list guestStep) (w : world (S := S)) (r : hostRequest) (h : Header) :
  w_inv w = newInvocation r h -> 0 <= maxRespBody p ->
  Forall (fun s => match s with GuestCall c => args_ok c | GuestStore _ => True end) steps ->
  let i := w_inv (run_guest p steps w) in
  zlen (o_body (i_out i)) <= maxRespBody p /\ zlen (i_state i) <= maxRequestState /\
  (i_err i = None -> rq_Body (i_req i) = rq_Body r \/
     exists data, rq_Body r = Some (data, false) /\ rq_Body (i_req i) = Some (data, false) /\ i_body i = data /\ zlen data <= maxReqBody p).
Proof.
  intros Hw Hm HF. assert (HR : request_ok p (rq_Body r) (w_inv (run_guest p steps w))).
  { unfold run_guest. assert (H0' : request_ok p (rq_Body r) (w_inv w)).
    { rewrite Hw. constructor; cbn; auto; unfold maxRequestState; lia || (change (zlen []) with 0; lia). }
    clear Hw. revert w H0'. induction HF as [|s steps Hs HF IH]; intros w H0'; [done|]. cbn [foldl]. apply IH.
    destruct s as [m|c]; [done|by apply host_call_request]. }
  intros i. fold i in HR. destruct HR as [R1 R2 R3 R4 R5]. split_and!; auto. intros He. specialize (R5 He). destruct (bodyBuffered i); [|by left].
  destruct (rq_Body r) as [[data broken]|]; [|by left]. destruct R5 as (-> & HL & Hb & Hq). right. eauto 10.
Qed.
End Guests.

(** ** A concrete guest *)

(** Memory as a list of bytes. *)
Definition list_read (m : list Z) (p n : Z) : option (list Z) :=
  if (0 <=? p) && (0 <=? n) && (p + n <=? zlen m) then Some (take (Z.to_nat n) (drop (Z.to_nat p) m)) else None.
Definition list_write (m : list Z) (p : Z) (d : list Z) : option (list Z) :=
  if (0 <=? p) && (p + zlen d <=? zlen m) && (zlen m <=? 2 ^ 32)
  then Some (take (Z.to_nat p) m ++ d ++ drop (Z.to_nat p + length d) m) else None.

Lemma list_read_length m p n s : 0 <= n -> list_read m p n = Some s -> zlen s = n.
Proof. unfold list_read, zlen. intros Hn. destruct (_ && _) eqn:E; [|done]. intros [= <-]. rewrite length_take, length_drop. lia. Qed.

Lemma list_write_bound m p d m' : list_write m p d = Some m' -> p + zlen d <= 2 ^ 32.
Proof. unfold list_write. destruct (_ && _) eqn:E; [|done]. intros _. lia. Qed.

Lemma list_write_zlen m p d m' : list_write m p d = Some m' -> zlen m' = zlen m.
Proof.
  unfold list_write, zlen. destruct (_ && _) eqn:E; [|done]. intros [= <-]. rewrite !length_app, length_take, length_drop. lia.
Qed.

Lemma list_write_lookup m p d m' i : list_write m p d = Some m' ->
  (i < Z.to_nat p \/ Z.to_nat p + length d <= i)%nat -> m' !! i = m !! i.
Proof.
  unfold list_write. destruct (_ && _) eqn:E; [|done]. intros [= <-] Hi. unfold zlen in E.
  assert (HL : length (take (Z.to_nat p) m) = Z.to_nat p) by (rewrite length_take; lia). destruct Hi as [Hi|Hi].
  - rewrite lookup_app_l by lia. by rewrite lookup_take_lt.
  - rewrite lookup_app_r, lookup_app_r by lia. rewrite lookup_drop. f_equal. lia.
Qed.

Lemma list_write_frame m p d m' q n : list_write m p d = Some m' -> 0 <= q -> 0 <= n ->
  q + n <= p \/ p + zlen d <= q -> list_read m' q n = list_read m q n.
Proof.
  intros Hw Hq Hn Hd. assert (Hp : 0 <= p) by (unfold list_write in Hw; destruct (_ && _) eqn:E; [lia|done]).
  unfold list_read. rewrite (list_write_zlen _ _ _ _ Hw). destruct (_ && _) eqn:E; [|done]. f_equal.
  apply list_eq. intros i. destruct (decide (i < Z.to_nat n)%nat) as [Hi|Hi].
  - rewrite !lookup_take_lt, !lookup_drop by done. eapply list_write_lookup; [exact Hw|]. unfold zlen in *. lia.
  - by rewrite !lookup_take_ge by lia.
Qed.

Lemma list_write_read m p d m' : list_write m p d = Some m' -> 0 <= p -> list_read m' p (zlen d) = Some d.
Proof.
  intros Hw Hp. unfold list_read. rewrite (list_write_zlen _ _ _ _ Hw). unfold list_write in Hw. destruct (_ && _) eqn:E; [|done].
  injection Hw as <-. unfold zlen in *. rewrite !andb_true_iff in E. destruct E as [[E1 E2] E3].
  rewrite (proj2 (Z.leb_le 0 p)), (proj2 (Z.leb_le 0 (Z.of_nat (length d)))), E2 by lia. cbn [andb]. f_equal. apply Z.leb_le in E2.
  rewrite (drop_app_length' (take (Z.to_nat p) m)) by (rewrite length_take; lia). rewrite Nat2Z.id. apply take_app_length.
Qed.

Definition list_memory : GuestMemory :=
  {| memory := list Z; mem_read := list_read; mem_write := list_write; mem_read_length := list_read_length;
     mem_write_bound := list_write_bound; mem_write_frame := list_write_frame; mem_write_read := list_write_read |}.

Definition demo_url : GoUrl :=
  {| ParseURL := fun _ => None; ParseRequestURI := fun _ => None; RequestURI := fun path _ => path |}.

Definition demo_plugin : plugin := MkPlugin (str "p") false true true false [] 8 8 0 [] 2 8.
Definition demo_hook_request : hostRequest := MkHostRequest (str "GET") (str "/") [] (str "/") ∅ (Some ([1; 2; 3], false)) 3.

(** Memory that holds a header name, a value and a buffer. *)
Definition demo_memory : list Z := str "X-A" ++ str "v" ++ replicate 8 0.

Definition demo_view : responseView := MkView 200 200 false {[ str "Content-Length" := [str "3"] ]} [1; 2; 3] 0 false false.

Section Demo.
#[local] Existing Instance no_unicode.
#[local] Existing Instance demo_guts.
#[local] Existing Instance list_memory.
#[local] Existing Instance demo_url.

Definition demo_world (i : invocation) : world (S := memKV) := MkWorld (demo_memory : memory) i (newMemKV (fun _ => 0)) newKVLedger.

Definition demo_response_inv : invocation :=
  MkInvocation phaseResponse None demo_hook_request false [] (MkOutput ∅ 0 []) [] false (-1) [] demo_view 0.

Lemma response_hook_confined_witness :
  let w := run_guest demo_plugin [GuestCall (RespSetHeader false 0 3 3 1); GuestCall (RespBodyReplace 4 2)] (demo_world demo_response_inv) in
  header_Values (v_header (i_resp (w_inv w))) (str "X-A") = [str "v"] /\ v_body (i_resp (w_inv w)) = [0; 0] /\
  v_header (i_resp (w_inv w)) !! str "Content-Length" = Some [str "3"].
Proof.
  split; [vm_compute; reflexivity|]. split; [vm_compute; reflexivity|].
  destruct (response_hook_confined demo_plugin [GuestCall (RespSetHeader false 0 3 3 1); GuestCall (RespBodyReplace 4 2)]
    (demo_world demo_response_inv)) as (_ & _ & _ & HF & _).
  - reflexivity.
  - reflexivity.
  - apply Forall_cons_2; [exact I|]. apply Forall_cons_2; [cbn; lia|constructor].
  - rewrite HF by (by apply (bool_decide_unpack _)). reflexivity.
Defined.

Lemma host_writes_in_buffer_witness :
  let w := demo_world (newInvocation demo_hook_request ∅) in
  mem_read (w_mem (host_call demo_plugin (ReadRequestBody 4 8) w).1) 4 3 = Some [1; 2; 3] /\
  mem_read (w_mem (host_call demo_plugin (ReadRequestBody 4 8) w).1) 0 4 = Some (str "X-Av").
Proof.
  split; [vm_compute; reflexivity|].
  rewrite (host_writes_in_buffer demo_plugin (ReadRequestBody 4 8) (demo_world (newInvocation demo_hook_request ∅))); try (cbn; lia).
  vm_compute. reflexivity.
Defined.

Lemma request_hook_bounded_witness :
  let i := w_inv (run_guest demo_plugin [GuestCall (ReadRequestBody 4 8); GuestCall (WriteResponseBody 4 3)]
                    (demo_world (newInvocation demo_hook_request ∅))) in
  i_err i = None /\ o_body (i_out i) = [1; 2; 3] /\ zlen (o_body (i_out i)) <= 8.
Proof.
  split; [vm_compute; reflexivity|]. split; [vm_compute; reflexivity|].
  apply (request_hook_bounded demo_plugin [GuestCall (ReadRequestBody 4 8); GuestCall (WriteResponseBody 4 3)]
    (demo_world (newInvocation demo_hook_request ∅)) demo_hook_request ∅).
  - reflexivity.
  - cbn. lia.
  - apply Forall_cons_2; [exact I|]. apply Forall_cons_2; [cbn; lia|constructor].
Defined.

Definition demo_kv_trace : list kvCall :=
  [MkKvCall demo_plugin (str "k") (Some [1; 2; 3]);
   MkKvCall (MkPlugin (str "q") false true true false [] 8 8 0 [] 2 8) (str "k") (Some [9]);
   MkKvCall demo_plugin (str "k") None].

Lemma plugin_kv_isolated_witness :
  let s := MkSystem (newMemKV (fun _ => 0)) ∅ in
  (kv_run s demo_kv_trace).2 = [(str "p", KvStored true); (str "q", KvStored true); (str "p", KvValue (Some [1; 2; 3]))] /\
  within (str "p") 8 2 (kv_run s demo_kv_trace).1.
Proof.
  split; [vm_compute; reflexivity|].
  apply (plugin_kv_isolated (str "p") 8 2 demo_kv_trace (MkSystem (newMemKV (fun _ => 0)) ∅)).
  - by apply (bool_decide_unpack _).
  - repeat (apply Forall_cons_2; [by apply (bool_decide_unpack _)|]). constructor.
  - repeat (apply Forall_cons_2; [cbn; intros; lia|]). constructor.
  - constructor; [reflexivity|vm_compute; discriminate|vm_compute; discriminate|].
    intros key. unfold kvLedgerFor. cbn [s_ledgers s_kv]. rewrite lookup_empty. reflexivity.
Defined.
End Demo.
