(* ===== verification/PluginCall.v ===== *)
(** * Running plugins (src/internal/plugins/host.go, negotiate.go, runtime.go, set.go)

    The frozen jul-abi/v1 host functions and their agreement with the v2 ones,
    the static check of a module's ABI, one call of a guest, the request
    middleware and the terminal handler, and the bounded set of module
    instances. *)

From S2P Require Import Prelude GoStrings Bytes Netip Http CacheEntry PluginFetch PluginHost.

(** ** jul-abi/v1 *)

Section V1.
Context `{Unicode} `{HttpGuts} `{GuestMemory} `{GoUrl} {S : Type} `{KVStore S}.

Definition readStr (w : world (S := S)) (ptr n : Z) : gostring := default [] (mem_read (w_mem w) ptr n).

(** [writeInto]: a write that does not fit is dropped. *)
Definition writeInto (w : world (S := S)) (buf limit : Z) (data : list Z) : world (S := S) * Z :=
  let n := u32 (zlen data) in
  if negb (n =? 0) && (n <=? limit) then (match mem_write (w_mem w) buf data with Some m => with_mem m w | None => w end, n)
  else (w, n).

(** The first error is not kept: the response overflow replaces it. *)
Definition set_err (e : hostErr) (i : invocation) : invocation :=
  MkInvocation (i_phase i) (Some e) (i_req i) (bodyBuffered i) (i_body i) (i_out i) (lastFetch i) (lastFetchTruncated i) (i_sub i)
    (i_state i) (i_resp i) (addedHeaderBytes i).

(** The request and the reply. *)
Definition request_surface_v1 (p : plugin) (c : hostCall) (w : world (S := S)) : option (world (S := S) * Z) :=
  let inv := w_inv w in
  match c with
  | Log _ _ _ => Some (w, 0)
  | GetMethod buf limit => Some (writeInto w buf limit (rq_Method (i_req inv)))
  | GetUri buf limit => Some (writeInto w buf limit (RequestURI (rq_Path (i_req inv)) (rq_RawQuery (i_req inv))))
  | SetUri ptr n =>
      let raw := readStr w ptr n in
      match ParseRequestURI raw with
      | None => Some (w, 0)
      | Some (path, query) => Some (upd (with_req (set_uri raw path query (i_req inv))) w, 0)
      end
  | GetRequestHeader namePtr nameLen buf limit =>
      let name := readStr w namePtr nameLen in
      if bool_decide (header_Values (rq_Header (i_req inv)) name = []) then Some (w, -1)
      else Some (i32r (writeInto w buf limit (header_Get (rq_Header (i_req inv)) name)))
  | SetRequestHeader namePtr nameLen valPtr valLen =>
      let h := header_Set (rq_Header (i_req inv)) (readStr w namePtr nameLen) (readStr w valPtr valLen) in
      Some (upd (with_req (set_req_header h (i_req inv))) w, 0)
  | SetResponseHeader namePtr nameLen valPtr valLen =>
      let h := header_Set (o_Header (i_out inv)) (readStr w namePtr nameLen) (readStr w valPtr valLen) in
      Some (upd (with_out (MkOutput h (o_status (i_out inv)) (o_body (i_out inv)))) w, 0)
  | ReadRequestBody buf limit =>
      let '(inv, ok) := bufferRequestBody (maxReqBody p) inv in
      let w := upd (fun _ => inv) w in
      if ok then Some (writeInto w buf limit (i_body inv)) else Some (w, 0)
  | WriteResponseBody ptr n =>
      if maxRespBody p <? zlen (o_body (i_out inv)) + n then Some (upd (set_err errRespTooLarge) w, 0)
      else
        match mem_read (w_mem w) ptr n with
        | None => Some (w, 0)
        | Some data => Some (upd (with_out (MkOutput (o_Header (i_out inv)) (o_status (i_out inv)) (o_body (i_out inv) ++ data))) w, 0)
        end
  | SetResponseStatus code => Some (upd (with_out (MkOutput (o_Header (i_out inv)) code (o_body (i_out inv)))) w, 0)
  | GetConfig buf limit => Some (writeInto w buf limit (configJSON p))
  | _ => None
  end.

(** The key/value store and outbound requests. *)
Definition store_surface_v1 (p : plugin) (c : hostCall) (w : world (S := S)) : option (world (S := S) * Z) :=
  let inv := w_inv w in
  match c with
  | KvGet keyPtr keyLen buf limit =>
      if negb (capKV p) then Some (w, -2)
      else
        match kv_Get (w_kv w) (kvNamespace p ++ readStr w keyPtr keyLen) with
        | None => Some (w, -1)
        | Some v => Some (i32r (writeInto w buf limit v))
        end
  | KvSet keyPtr keyLen valPtr valLen =>
      if negb (capKV p) then Some (w, -2)
      else
        match mem_read (w_mem w) valPtr valLen with
        | None => Some (w, -1)
        | Some val =>
            match kvSet p (kvNamespace p ++ readStr w keyPtr keyLen) val (w_kv w) (w_ledger w) with
            | None => Some (w, -3)
            | Some (kv, u) => Some (MkWorld (w_mem w) (w_inv w) kv u, 0)
            end
        end
  | Fetch methodPtr methodLen urlPtr urlLen bodyPtr bodyLen buf limit hops final =>
      if negb (capFetch p) then Some (w, -2)
      else
        let r := doFetch (allowedHosts p) (maxFetchResp p) (readStr w urlPtr urlLen) hops final in
        let w := upd (keep_fetch r) w in
        match r with
        | FetchOk status data _ => Some ((writeInto w buf limit data).1, i32 status)
        | _ => Some (w, fetchFailure r)
        end
  | LastFetchLen => Some (w, u32 (zlen (lastFetch inv)))
  | FetchRead buf limit => Some (writeInto w buf limit (lastFetch inv))
  | LastFetchTruncated => Some (w, if lastFetchTruncated inv then 1 else 0)
  | _ => None
  end.

(** The functions of the host module [jul]; the others are not exported there,
    and a module that imports one is not instantiated. *)
Definition host_call_v1 (p : plugin) (c : hostCall) (w : world (S := S)) : option (world (S := S) * Z) :=
  match c with
  | Log _ _ _ | GetMethod _ _ | GetUri _ _ | SetUri _ _ | GetRequestHeader _ _ _ _ | SetRequestHeader _ _ _ _
  | SetResponseHeader _ _ _ _ | ReadRequestBody _ _ | WriteResponseBody _ _ | SetResponseStatus _ | GetConfig _ _ => request_surface_v1 p c w
  | KvGet _ _ _ _ | KvSet _ _ _ _ | Fetch _ _ _ _ _ _ _ _ _ _ | LastFetchLen | FetchRead _ _ | LastFetchTruncated => store_surface_v1 p c w
  | _ => None
  end.

(** The functions both modules export. *)
Definition v1_exports (c : hostCall) : bool :=
  match c with
  | Log _ _ _ | GetMethod _ _ | GetUri _ _ | SetUri _ _ | GetRequestHeader _ _ _ _ | SetRequestHeader _ _ _ _
  | SetResponseHeader _ _ _ _ | ReadRequestBody _ _ | WriteResponseBody _ _ | SetResponseStatus _ | GetConfig _ _
  | KvGet _ _ _ _ | KvSet _ _ _ _ | Fetch _ _ _ _ _ _ _ _ _ _ | LastFetchLen | FetchRead _ _ | LastFetchTruncated => true
  | _ => false
  end.

(** The calls of a guest with their results. *)
Fixpoint run_v2 (p : plugin) (steps : list guestStep) (w : world (S := S)) : world (S := S) * list Z :=
  match steps with
  | [] => (w, [])
  | GuestStore m :: steps => run_v2 p steps (with_mem m w)
  | GuestCall c :: steps =>
      let '(w, r) := host_call p c w in
      let '(w, l) := run_v2 p steps w in (w, r :: l)
  end.

Fixpoint run_v1 (p : plugin) (steps : list guestStep) (w : world (S := S)) : option (world (S := S) * list Z) :=
  match steps with
  | [] => Some (w, [])
  | GuestStore m :: steps => run_v1 p steps (with_mem m w)
  | GuestCall c :: steps =>
      '(w, r) ← host_call_v1 p c w;
      '(w, l) ← run_v1 p steps w;
      Some (w, r :: l)
  end.

Lemma read_ok (w : world (S := S)) ptr n :
  (exists d, v2read w ptr n = (w, Some d) /\ readStr w ptr n = d /\ mem_read (w_mem w) ptr n = Some d) \/
  v2read w ptr n = (fail_inv errGuestMemory w, None).
Proof. unfold readStr. destruct (v2read_cases w ptr n) as [(d & E & M)|[E M]]; [left|by right]. exists d. by rewrite M. Qed.

Lemma fail_failed e (w : world (S := S)) : i_err (w_inv (fail_inv e w)) <> None.
Proof. cbn. by destruct (i_err (w_inv w)). Qed.

Lemma read_failed (w : world (S := S)) ptr n : i_err (w_inv w) <> None -> i_err (w_inv (v2read w ptr n).1) <> None.
Proof. unfold v2read. destruct (mem_read _ _ _); [done|]. intros _. apply fail_failed. Qed.

Lemma write_agree (w : world (S := S)) buf limit d : i_err (w_inv (v2write w buf limit d).1) = None -> v2write w buf limit d = writeInto w buf limit d.
Proof.
  unfold v2write, writeInto. destruct (_ && _); [|done]. destruct (mem_write _ _ _); [done|]. intros HE. by destruct (fail_failed errGuestMemory w).
Qed.

(** A call of the strict module that does not fail the invocation is the call of
    the frozen one. *)
Lemma call_agree p c (w : world (S := S)) : v1_exports c = true -> i_phase (w_inv w) = phaseRequest ->
  i_err (w_inv (host_call p c w).1) = None -> host_call_v1 p c w = Some (host_call p c w).
Proof.
  intros Hx HP. assert (HO : requestOnly w = true) by (unfold requestOnly; by rewrite bool_decide_eq_true).
  destruct c; try done; cbn [host_call request_surface store_surface phase_surface response_surface host_call_v1 request_surface_v1 store_surface_v1]; rewrite ?HO; cbn [negb];
    repeat (match goal with
            | |- context [v2read ?w' ?a ?b] =>
                let E := fresh in let ER := fresh in let EM := fresh in
                destruct (read_ok w' a b) as [(? & E & ER & EM)|E]; rewrite E, ?ER, ?EM; cbn [fst]
            end); repeat (case_match; cbn [fst i32r]);
    intros HE; rewrite <- ?write_agree by exact HE; try done; try (exfalso; revert HE; cbn; by destruct (i_err (w_inv w))).
Qed.

(** Errors and the phase do not change back. *)
Lemma v2_sticky p c (w : world (S := S)) : 0 <= addedHeaderBytes (w_inv w) -> v1_exports c = true ->
  i_phase (w_inv (host_call p c w).1) = i_phase (w_inv w) /\ (i_err (w_inv w) <> None -> i_err (w_inv (host_call p c w).1) <> None).
Proof.
  intros Ha Hx. assert (HC : confined p (w_inv w) (w_inv (host_call p c w).1)) by (apply host_call_confined; [done|by destruct c]).
  split; [exact (cf_phase _ _ _ HC)|]. intros He. by rewrite (cf_err _ _ _ HC He).
Qed.

Lemma v1_added p c (w : world (S := S)) : v1_exports c = true -> i_phase (w_inv w) = phaseRequest ->
  addedHeaderBytes (w_inv (host_call p c w).1) = addedHeaderBytes (w_inv w).
Proof.
  intros Hx HP. assert (HO : requestOnly w = true) by (unfold requestOnly; by rewrite bool_decide_eq_true).
  assert (HW : forall w b l d, addedHeaderBytes (w_inv (v2write (S := S) w b l d).1) = addedHeaderBytes (w_inv w)).
  { intros w1 b l d. unfold v2write. destruct (_ && _); [|done]. by destruct (mem_write _ _ _). }
  destruct c; try done; cbn [host_call request_surface store_surface phase_surface response_surface]; rewrite ?HO; cbn [negb]; repeat (read_cases || (case_match; cbn [fst snd i32r])); rewrite ?HW; try done.
  all: unfold bufferRequestBody in *; repeat case_match; simplify_eq/=; done.
Qed.

(** C23: Jul-abi/v2 keeps the request surface of v1 under strict bounds: a guest
    that uses only the v1 functions, run against the v2 module without failing
    its invocation, makes the same changes and gets the same results as against
    the frozen v1 module. *)
Theorem abi_v2_refines_v1 (p : plugin) (steps : list guestStep) (w : world (S := S)) :
  i_phase (w_inv w) = phaseRequest -> 0 <= addedHeaderBytes (w_inv w) ->
  Forall (fun s => match s with GuestCall c => v1_exports c = true | GuestStore _ => True end) steps ->
  i_err (w_inv (run_v2 p steps w).1) = None -> run_v1 p steps w = Some (run_v2 p steps w).
Proof.
  intros HP Ha HF. revert w HP Ha. induction HF as [|s steps Hs HF IH]; intros w HP Ha HE; [done|].
  destruct s as [m|c]; cbn [run_v1 run_v2] in *; [by apply IH|].
  assert (HS : forall w', i_err (w_inv w') <> None -> i_phase (w_inv w') = phaseRequest -> 0 <= addedHeaderBytes (w_inv w') -> i_err (w_inv (run_v2 p steps w').1) <> None).
  { clear -HF. induction HF as [|s steps Hs HF IH]; intros w' Hw HP Ha; [done|]. destruct s as [m|c]; cbn [run_v2]; [by apply IH|].
    destruct (v2_sticky p c w' Ha Hs) as [S1 S2]. pose proof (v1_added p c w' Hs HP) as S3. destruct (host_call p c w') as [w1 r]. cbn [fst] in *.
    assert (i_err (w_inv (run_v2 p steps w1).1) <> None) by (apply IH; [by apply S2|congruence|by rewrite S3]).
    by destruct (run_v2 p steps w1). }
  destruct (v2_sticky p c w Ha Hs) as [S1 _]. pose proof (v1_added p c w Hs HP) as S3. pose proof (call_agree p c w Hs HP) as HA.
  destruct (host_call p c w) as [w1 r] eqn:E1. cbn [fst] in *.
  assert (H1' : i_err (w_inv w1) = None).
  { destruct (i_err (w_inv w1)) eqn:Ee; [|done]. exfalso. apply (HS w1); [by rewrite Ee|congruence|by rewrite S3|]. by destruct (run_v2 p steps w1). }
  rewrite (HA H1'). cbn [mbind option_bind]. rewrite IH; [|congruence|by rewrite S3|by destruct (run_v2 p steps w1)].
  by destruct (run_v2 p steps w1).
Qed.
End V1.

(** ** The ABI a module declares *)

Definition ABIJulV1 : gostring := str "jul-abi/v1".
Definition ABIJulV2 : gostring := str "jul-abi/v2".
Definition hostModuleV1 : gostring := str "jul".
Definition hostModuleV2 : gostring := ABIJulV2.
Definition exportHandleRequest : gostring := str "handle_request".
Definition exportHandleResponse : gostring := str "handle_response".

(** A compiled module: the types of its exported functions and the modules its
    imports name.  A value type is its binary code; i32 is 127. *)
Record compiledModule := MkCompiled { m_exports : gmap gostring (list Z * list Z); m_imports : list gostring }.
Definition i32_type : Z := 127.

Inductive abiErr := AbiDeclaresV2 | AbiNoHandler | AbiNoMarker | AbiImportsV1 | AbiMissing (name : gostring) | AbiType (name : gostring) | AbiUnknown.

Definition sameTypes (a b : list Z) : bool := bool_decide (a = b).

Definition checkSignature (m : compiledModule) (name : gostring) (params results : list Z) : option abiErr :=
  match m_exports m !! name with
  | None => Some (AbiMissing name)
  | Some (ps, rs) => if negb (sameTypes ps params) || negb (sameTypes rs results) then Some (AbiType name) else None
  end.

(** [negotiateABI]: whether the module exports handle_response. *)
Definition negotiateABI (abi : gostring) (m : compiledModule) : abiErr + bool :=
  let marker := bool_decide (m_exports m !! ABIJulV2 <> None) in
  if string_eqb abi ABIJulV1 then
    if marker || bool_decide (hostModuleV2 ∈ m_imports m) then inl AbiDeclaresV2
    else if bool_decide (m_exports m !! exportHandleRequest = None) then inl AbiNoHandler
    else inr false
  else if string_eqb abi ABIJulV2 then
    if negb marker then inl AbiNoMarker
    else if bool_decide (hostModuleV1 ∈ m_imports m) then inl AbiImportsV1
    else
      match checkSignature m ABIJulV2 [] [] with
      | Some e => inl e
      | None =>
          match checkSignature m exportHandleRequest [] [i32_type] with
          | Some e => inl e
          | None =>
              if bool_decide (m_exports m !! exportHandleResponse <> None) then
                match checkSignature m exportHandleResponse [] [i32_type] with Some e => inl e | None => inr true end
              else inr false
          end
      end
  else inl AbiUnknown.

(** A module is accepted under one ABI at most, and a response hook runs only
    with the type the host calls it with. *)
Lemma negotiate_exclusive m hr1 hr2 :
  negotiateABI ABIJulV1 m = inr hr1 -> negotiateABI ABIJulV2 m = inr hr2 -> False.
Proof.
  unfold negotiateABI. change (string_eqb ABIJulV1 ABIJulV1) with true. change (string_eqb ABIJulV2 ABIJulV1) with false.
  change (string_eqb ABIJulV2 ABIJulV2) with true. cbn [negb].
  destruct (bool_decide (m_exports m !! ABIJulV2 <> None)); cbn [orb negb]; done.
Qed.

Lemma negotiate_response m abi :
  negotiateABI abi m = inr true -> abi = ABIJulV2 /\ m_exports m !! exportHandleResponse = Some ([], [i32_type]).
Proof.
  unfold negotiateABI. destruct (string_eqb abi ABIJulV1); [by repeat case_match|]. destruct (string_eqb abi ABIJulV2) eqn:E2; [|done].
  apply bool_decide_eq_true in E2. destruct (negb _); [done|]. case_bool_decide; [done|]. destruct (checkSignature m ABIJulV2 _ _); [done|].
  destruct (checkSignature m exportHandleRequest _ _); [done|]. case_bool_decide; [|done].
  destruct (checkSignature m exportHandleResponse _ _) eqn:ES; [done|]. intros _. split; [done|]. unfold checkSignature in ES.
  destruct (m_exports m !! exportHandleResponse) as [[ps rs]|]; [|done]. unfold sameTypes in ES.
  do 2 (case_bool_decide; [|done]). by subst.
Qed.

(** ** One call *)

Inductive callErr := ErrInstanceLimit | ErrInstantiate | ErrTrap | ErrHost (e : hostErr).
Inductive callOutcome := callOK | callAcquireFailed | callTrapped | callHostError.

(** What running the export did: a trap, panic or timeout, or the invocation it
    left and its result. *)
Definition guestRun : Type := option (invocation * Z).

(** [plugin.call] once an instance is held: the outcome, the result, the error and
    whether the instance goes back to the pool. *)
Definition finishCall (valid : option (Z -> bool)) (run : guestRun) : callOutcome * (callErr + Z) * bool :=
  match run with
  | None => (callTrapped, inl ErrTrap, false)
  | Some (inv, res) =>
      match i_err inv with
      | Some e => (callHostError, inl (ErrHost e), false)
      | None =>
          match valid with
          | Some valid => if valid (u32 res) then (callOK, inr (u32 res), true) else (callHostError, inl (ErrHost errBadResult), false)
          | None => (callOK, inr (u32 res), true)
          end
      end
  end.

Definition request_results (res : Z) : bool := (res =? 0) || (res =? 1).
Definition response_results (committed : bool) (res : Z) : bool := (res =? 0) || ((res =? 1) && negb committed).

(** [plugin.invoke]: the action and the invocation. *)
Definition invoke (abi : gostring) (acquired : option callErr) (run : guestRun) : callErr + (Z * invocation) :=
  match acquired with
  | Some e => inl e
  | None =>
      match finishCall (if string_eqb abi ABIJulV2 then Some request_results else None) run, run with
      | (_, inr action, _), Some (inv, _) => inr (action, inv)
      | (_, inl e, _), _ => inl e
      | _, None => inl ErrTrap
      end
  end.

(** ** The middleware and the handler *)

(** What the client's writer is asked to do, or the request handed on with the
    subscription the hook made. *)
Inductive hookResult :=
  | HookNext (r : hostRequest) (subscription : option (Z * list Z)) (h : Header)
  | HookReply (status : Z) (h : Header) (body : list Z).

(** [invocation.flush]. *)
Definition flush (i : invocation) : hookResult :=
  let status := if o_status (i_out i) =? 0 then 200 else o_status (i_out i) in
  let status := if (status <? 100) || (599 <? status) then 500 else status in
  HookReply status (o_Header (i_out i)) (o_body (i_out i)).

(** [http.Error] on the header map of the writer. *)
Definition httpError (h : Header) (text : gostring) (code : Z) : hookResult :=
  let h := header_Del h (str "Content-Length") in
  let h := header_Set h (str "Content-Type") (str "text/plain; charset=utf-8") in
  let h := header_Set h (str "X-Content-Type-Options") (str "nosniff") in
  HookReply code h (text ++ [10]).

Definition writePluginError (h : Header) (e : callErr) : hookResult :=
  match e with
  | ErrInstanceLimit => httpError (header_Set h (str "Retry-After") (str "1")) (str "plugin busy") 503
  | _ => httpError h (str "plugin error") 500
  end.

(** [Set.Middleware]; [h] is the header map after the call. *)
Definition pluginMiddleware (abi : gostring) (acquired : option callErr) (run : guestRun) (h : Header) : hookResult :=
  match invoke abi acquired run with
  | inl e => writePluginError h e
  | inr (action, inv) =>
      if action =? 1 then HookNext (i_req inv) (if 0 <=? i_sub inv then Some (i_sub inv, i_state inv) else None) (o_Header (i_out inv))
      else flush inv
  end.

(** [Set.Handler]. *)
Definition pluginHandler (abi : gostring) (acquired : option callErr) (run : guestRun) (h : Header) : hookResult :=
  match invoke abi acquired run with
  | inl e => writePluginError h e
  | inr (_, inv) => flush inv
  end.

(** A request goes on to the next handler only after a call that completed
    without a host error, and a plugin's own reply has a status the server
    accepts. *)
Lemma middleware_sound abi acquired run h :
  match pluginMiddleware abi acquired run h with
  | HookNext r sub _ => acquired = None /\ exists inv res, run = Some (inv, res) /\ i_err inv = None /\ u32 res = 1 /\ r = i_req inv
  | HookReply status _ _ => 100 <= status <= 599
  end.
Proof.
  assert (HW : forall e, match writePluginError h e with HookReply status _ _ => 100 <= status <= 599 | HookNext _ _ _ => False end) by (by intros []).
  assert (HX : forall inv, match flush inv with HookReply status _ _ => 100 <= status <= 599 | HookNext _ _ _ => False end).
  { intros inv. cbn. destruct (_ || _) eqn:E; lia. }
  unfold pluginMiddleware, invoke. destruct acquired as [e|]; [by specialize (HW e); destruct e|].
  destruct run as [[inv res]|]; [|by specialize (HW ErrTrap)]. cbn [finishCall]. destruct (i_err inv) as [e|] eqn:EE; [by specialize (HW (ErrHost e))|].
  assert (HN : match (if u32 res =? 1 then HookNext (i_req inv) (if 0 <=? i_sub inv then Some (i_sub inv, i_state inv) else None) (o_Header (i_out inv)) else flush inv) with
    | HookNext r _ _ => (None : option callErr) = None /\ exists inv' res', Some (inv, res) = Some (inv', res') /\ i_err inv' = None /\ u32 res' = 1 /\ r = i_req inv'
    | HookReply status _ _ => 100 <= status <= 599 end).
  { destruct (u32 res =? 1) eqn:E1; [|by specialize (HX inv)]. split; [done|]. exists inv, res. split_and!; [done..|lia|done]. }
  destruct (string_eqb abi ABIJulV2); [|exact HN]. destruct (request_results (u32 res)); [exact HN|by specialize (HW (ErrHost errBadResult))].
Qed.

(** ** Module instances *)

(** A call of [acquire], then of the guest, then of [release] or [discard], at
    its channel operations. *)
Inductive instPhase :=
  | PStart
  | PTrySlot
  | PWaiting
  | PCreating
  | PUsing (calls : Z)
  | PDone (served : bool).

(** [idle] is the channel of idle instances with their call counts, [slots] the
    number of tokens in the channel of slots. *)
Record instances := MkInstances { idle : list Z; slots : Z; threads : list instPhase }.

Definition poolCapacity : Z := 64.

(** What happens next to a thread: the obvious step, an idle instance or a slot
    becoming free for one that waits, the end of its patience, and the two
    outcomes of instantiating and of the call. *)
Inductive instLabel := LStep (t : nat) | LIdle (t : nat) | LSlot (t : nat) | LGiveUp (t : nat) | LOk (t : nat) | LFail (t : nat).

Section Instances.
(** [cap(p.slots)] and [maxInstanceInvocations]. *)
Variables (maxInstances maxInvocations : Z).

(** [freeSlot] does not block. *)
Definition freeSlot (n : Z) : Z := if 0 <? n then n - 1 else n.

Definition set_thread (t : nat) (ph : instPhase) (s : instances) (idle : list Z) (slots : Z) : option instances :=
  Some (MkInstances idle slots (<[t := ph]> (threads s))).

(** [release] and, for an instance not kept, [discard]. *)
Definition release_inst (t : nat) (calls : Z) (s : instances) : option instances :=
  if (calls + 1 <? maxInvocations) && (Z.of_nat (length (idle s)) <? poolCapacity)
  then set_thread t (PDone true) s (idle s ++ [calls + 1]) (slots s)
  else set_thread t (PDone true) s (idle s) (freeSlot (slots s)).

Definition inst_exec (s : instances) (l : instLabel) : option instances :=
  match l with
  | LStep t =>
      match threads s !! t with
      | Some PStart =>
          match idle s with
          | c :: rest => set_thread t (PUsing c) s rest (slots s)
          | [] => set_thread t PTrySlot s (idle s) (slots s)
          end
      | Some PTrySlot =>
          if slots s <? maxInstances then set_thread t PCreating s (idle s) (slots s + 1) else set_thread t PWaiting s (idle s) (slots s)
      | _ => None
      end
  | LIdle t =>
      match threads s !! t, idle s with Some PWaiting, c :: rest => set_thread t (PUsing c) s rest (slots s) | _, _ => None end
  | LSlot t =>
      match threads s !! t with
      | Some PWaiting => if slots s <? maxInstances then set_thread t PCreating s (idle s) (slots s + 1) else None
      | _ => None
      end
  | LGiveUp t => match threads s !! t with Some PWaiting => set_thread t (PDone false) s (idle s) (slots s) | _ => None end
  | LOk t =>
      match threads s !! t with
      | Some PCreating => set_thread t (PUsing 0) s (idle s) (slots s)
      | Some (PUsing calls) => release_inst t calls s
      | _ => None
      end
  | LFail t =>
      match threads s !! t with
      | Some PCreating => set_thread t (PDone false) s (idle s) (freeSlot (slots s))
      | Some (PUsing _) => set_thread t (PDone true) s (idle s) (freeSlot (slots s))
      | _ => None
      end
  end.

(** A plugin as compiled: one idle instance, and [n] calls to come. *)
Definition inst_init (n : nat) : instances := MkInstances [0] 1 (replicate n PStart).

(** Instances held by a thread: in use, or being instantiated. *)
Definition held (ph : instPhase) : Z := match ph with PCreating | PUsing _ => 1 | _ => 0 end.

(** The modules alive in the runtime. *)
Definition live (s : instances) : Z := Z.of_nat (length (idle s)) + total held (threads s).

Record inst_ok (s : instances) : Prop := {
  io_slots : slots s = live s;
  io_cap : slots s <= maxInstances;
  io_idle : Forall (fun c => 0 <= c < maxInvocations) (idle s);
  io_using : Forall (fun ph => match ph with PUsing c => 0 <= c < maxInvocations | _ => True end) (threads s)
}.

Lemma held_nonneg ph : 0 <= held ph.
Proof. by destruct ph. Qed.

Lemma inst_ok_init n : 1 <= maxInstances -> 1 <= maxInvocations -> inst_ok (inst_init n).
Proof.
  intros Hc Hv. constructor; cbn.
  - unfold live. cbn. rewrite total_replicate. cbn. lia.
  - done.
  - apply Forall_singleton. lia.
  - by apply Forall_replicate.
Qed.

(** Replacing a thread's phase, and with it the counts it stands for. *)
Lemma inst_ok_set t ph ph' s l k s' :
  threads s !! t = Some ph -> set_thread t ph' s l k = Some s' -> inst_ok s ->
  k = Z.of_nat (length l) + total held (threads s) - held ph + held ph' -> k <= maxInstances ->
  Forall (fun c => 0 <= c < maxInvocations) l -> (forall c, ph' = PUsing c -> 0 <= c < maxInvocations) -> inst_ok s'.
Proof.
  intros Ht [= <-] [H1 H2 H3 H4] Hk Hm Hl Hp. constructor; cbn [slots idle threads]; auto.
  - unfold live. cbn [idle threads]. rewrite (total_insert held t ph) by done. lia.
  - apply Forall_insert; [done|]. destruct ph'; auto.
Qed.

Lemma inst_ok_step s l s' : 1 <= maxInvocations -> inst_ok s -> inst_exec s l = Some s' -> inst_ok s'.
Proof.
  intros Hv Hok E. pose proof Hok as [H1 H2 H3 H4]. unfold live in H1. pose proof (total_nonneg held (threads s) held_nonneg) as H0.
  assert (HU : forall t c, threads s !! t = Some (PUsing c) -> 0 <= c < maxInvocations).
  { intros t c Ht. rewrite Forall_lookup in H4. exact (H4 t _ Ht). }
  assert (HF : forall t ph, threads s !! t = Some ph -> held ph = 1 -> freeSlot (slots s) = slots s - 1).
  { intros t ph Ht Hh. pose proof (total_lookup held t ph _ held_nonneg Ht). unfold freeSlot. destruct (_ <? _) eqn:L; lia. }
  destruct l as [t|t|t|t|t|t]; cbn [inst_exec] in E; destruct (threads s !! t) as [[| | | |c|b]|] eqn:Et; try done.
  - destruct (idle s) as [|c rest] eqn:Ei; (eapply inst_ok_set; [exact Et|exact E|done|cbn [held length] in *; lia|lia| |]).
    + done.
    + done.
    + by apply Forall_cons in H3 as [_ ?].
    + intros c' [= <-]. by apply Forall_cons in H3 as [? _].
  - destruct (_ <? _) eqn:L; (eapply inst_ok_set; [exact Et|exact E|done|cbn [held] in *; lia|lia|done|done]).
  - destruct (idle s) as [|c rest] eqn:Ei; [done|]. eapply inst_ok_set; [exact Et|exact E|done|cbn [held length] in *; lia|lia| |].
    + by apply Forall_cons in H3 as [_ ?].
    + intros c' [= <-]. by apply Forall_cons in H3 as [? _].
  - destruct (_ <? _) eqn:L; [|done]. eapply inst_ok_set; [exact Et|exact E|done|cbn [held] in *; lia|lia|done|done].
  - eapply inst_ok_set; [exact Et|exact E|done|cbn [held] in *; lia|lia|done|done].
  - eapply inst_ok_set; [exact Et|exact E|done|cbn [held] in *; lia|lia|done|]. intros c [= <-]. lia.
  - unfold release_inst in E. pose proof (HF t _ Et eq_refl) as HFr. specialize (HU t c Et). destruct (_ && _) eqn:L.
    + eapply inst_ok_set; [exact Et|exact E|done|rewrite length_app; cbn [held length] in *; lia|lia| |done].
      apply Forall_app. split; [done|]. apply Forall_singleton. lia.
    + eapply inst_ok_set; [exact Et|exact E|done|cbn [held] in *; lia|lia|done|done].
  - pose proof (HF t _ Et eq_refl) as HFr. eapply inst_ok_set; [exact Et|exact E|done|cbn [held] in *; lia|lia|done|done].
  - pose proof (HF t _ Et eq_refl) as HFr. eapply inst_ok_set; [exact Et|exact E|done|cbn [held] in *; lia|lia|done|done].
Qed.

(** However calls of a plugin interleave, the modules alive never exceed
    max_instances and every slot belongs to one of them, so none leaks; an
    instance serves fewer calls than its budget before it is reused; and a call
    that waits is not stuck: unless some call holds an instance, an idle instance
    or a free slot is there for it. *)
Theorem plugin_instances_bounded (n : nat) (tr : list instLabel) (s : instances) :
  1 <= maxInstances -> 1 <= maxInvocations -> trace inst_exec (inst_init n) tr s ->
  slots s = live s /\ live s <= maxInstances /\ Forall (fun c => 0 <= c < maxInvocations) (idle s) /\
  forall t, threads s !! t = Some PWaiting -> total held (threads s) = 0 ->
    is_Some (inst_exec s (LIdle t)) \/ is_Some (inst_exec s (LSlot t)).
Proof.
  intros Hc Hv T. assert (Hok : inst_ok s) by (eapply trace_invariant; [by eauto using inst_ok_step|exact T|by apply inst_ok_init]).
  destruct Hok as [H1 H2 H3 H4]. split_and!; [done|lia|done|]. intros t Ht Hh. cbn [inst_exec]. rewrite Ht. unfold live in H1. rewrite Hh in H1.
  destruct (idle s) as [|c rest]; [right|left; by eexists]. cbn in H1. rewrite (proj2 (Z.ltb_lt _ _)) by lia. by eexists.
Qed.
End Instances.

(** ** Concrete runs *)

Definition demo_inst_run : list instLabel := [LStep 0; LStep 1; LStep 1; LOk 1; LStep 2; LStep 2; LOk 0; LIdle 2].

Lemma plugin_instances_bounded_witness :
  exists s, exec_trace (inst_exec 2 10) (inst_init 3) demo_inst_run = Some s /\ live s = 2 /\ slots s = live s.
Proof.
  destruct (exec_trace (inst_exec 2 10) (inst_init 3) demo_inst_run) as [s|] eqn:E; [|by vm_compute in E].
  exists s. split; [done|]. split; [vm_compute in E; by injection E as <-|].
  apply (plugin_instances_bounded 2 10 3 demo_inst_run s); [lia|lia|by apply exec_trace_trace].
Defined.

Section Demo.
#[local] Existing Instance no_unicode.
#[local] Existing Instance demo_guts.
#[local] Existing Instance list_memory.
#[local] Existing Instance demo_url.

Lemma abi_v2_refines_v1_witness :
  let steps := [GuestCall (SetRequestHeader 0 3 3 1); GuestCall (ReadRequestBody 4 8); GuestCall (KvSet 0 3 3 1)] in
  let w := demo_world (newInvocation demo_hook_request ∅) in
  (run_v2 demo_plugin steps w).2 = [0; 3; 0] /\ run_v1 demo_plugin steps w = Some (run_v2 demo_plugin steps w).
Proof.
  split; [vm_compute; reflexivity|].
  apply (abi_v2_refines_v1 demo_plugin [GuestCall (SetRequestHeader 0 3 3 1); GuestCall (ReadRequestBody 4 8); GuestCall (KvSet 0 3 3 1)]
    (demo_world (newInvocation demo_hook_request ∅))).
  - reflexivity.
  - cbn. lia.
  - repeat (apply Forall_cons_2; [reflexivity|]). constructor.
  - vm_compute. reflexivity.
Defined.
End Demo.
