(* ===== verification/PluginPhase.v ===== *)
(** * The response phase of plugins (src/internal/plugins/phase.go)

    The subscription a request hook makes, the eligibility of a response body,
    and the writer layer that shows a response to the subscribed plugin before
    any of it reaches the client.  The hook is the guest of [PluginHost], here a
    function of the view it is given; the writer beneath the layer records what
    it is told. *)

From S2P Require Import Prelude GoStrings Bytes Netip Http ProxyProto CacheEntry CacheControl PluginFetch PluginHost PluginCall.

(** [mime.ParseMediaType]: the media type, in lower case and without parameters. *)
Class MediaType := { ParseMediaType : gostring -> gostring }.

(** ** Body eligibility *)

Section Classify.
Context `{Unicode} `{MediaType}.

Definition streamingResponse (h : Header) : bool :=
  let mt := ParseMediaType (header_Get h (str "Content-Type")) in
  if string_eqb mt (str "text/event-stream") || string_eqb mt (str "multipart/x-mixed-replace") || HasPrefix mt (str "application/grpc")
  then true
  else if EqualFold (TrimSpace (header_Get h (str "X-Accel-Buffering"))) (str "no") then true
  else negb (bool_decide (header_Values h (str "Trailer") = [])).

Definition encoded_token (tok : gostring) : bool :=
  let t := TrimSpace tok in negb (bool_decide (t = [])) && negb (EqualFold t (str "identity")).

Definition classifyResponse (mode : Z) (method : gostring) (status : Z) (h : Header) (maxBody : Z) : Z :=
  if negb (mode =? responseModeBody) then bodyNotRequested
  else if string_eqb method (str "HEAD") || (status =? 204) || (status =? 304) then bodyNone
  else if status =? 206 then bodyPartial
  else if existsb (fun ce => existsb encoded_token (SplitByte ce 44)) (header_Values h (str "Content-Encoding")) then bodyEncoded
  else if streamingResponse h then bodyStreaming
  else
    let cl := TrimSpace (header_Get h (str "Content-Length")) in
    if negb (bool_decide (cl = [])) && match ParseInt cl with NumOk n => maxBody <? n | _ => false end then bodyTooLarge
    else bodyAvailable.
End Classify.

(** ** The layer *)

Inductive layerState := layerPending | layerBuffering | layerPassthrough | layerDiscard | layerUpgraded.
#[export] Instance layerState_eq_dec : EqDecision layerState.
Proof. solve_decision. Defined.

(** What the writer beneath is told: a status with the header map of that moment,
    and body bytes. *)
Inductive parentEvent := ParentHeader (code : Z) (h : Header) | ParentWrite (p : list Z).

(** [l_header] is the header map all layers share, [l_views] the views shown to
    the guest. *)
Record layer := MkLayer {
  l_state : layerState;
  l_status : Z;
  l_buf : list Z;
  l_header : Header;
  l_final : Z;
  l_failed : bool;
  l_canceled : bool;
  l_sent : list parentEvent;
  l_views : list responseView
}.

Definition responseContinue : Z := 0.
Definition responseReject : Z := 1.

Definition identityRequestHeaders : list gostring := [str "Range"; str "If-Range"; str "Accept-Encoding"].
Definition replacedValidators : list gostring :=
  [str "Etag"; str "Content-Md5"; str "Digest"; str "Content-Digest"; str "Repr-Digest"].

(** The request handed to the action under the subscriptions of a request. *)
Definition innerHeader (modes : list Z) (rh : Header) : Header :=
  if existsb (fun m => m =? responseModeBody) modes then del_all identityRequestHeaders rh else rh.

Section Layer.
Context `{Unicode} `{MediaType}.
(** The subscription's mode and bound, the request's method, and the header map
    when the action was entered. *)
Variables (mode maxBody : Z) (method : gostring) (entry : Header).
(** The guest: what it makes of the view, and its result. *)
Variable hook : responseView -> responseView * (callErr + Z).

Definition set_layer (st : layerState) (l : layer) : layer :=
  MkLayer st (l_status l) (l_buf l) (l_header l) (l_final l) (l_failed l) (l_canceled l) (l_sent l) (l_views l).
Definition send (e : parentEvent) (l : layer) : layer :=
  MkLayer (l_state l) (l_status l) (l_buf l) (l_header l) (l_final l) (l_failed l) (l_canceled l) (l_sent l ++ [e]) (l_views l).
Definition set_buf (b : list Z) (l : layer) : layer :=
  MkLayer (l_state l) (l_status l) b (l_header l) (l_final l) (l_failed l) (l_canceled l) (l_sent l) (l_views l).
Definition set_layer_header (h : Header) (l : layer) : layer :=
  MkLayer (l_state l) (l_status l) (l_buf l) h (l_final l) (l_failed l) (l_canceled l) (l_sent l) (l_views l).
Definition set_layer_status (s : Z) (l : layer) : layer :=
  MkLayer (l_state l) s (l_buf l) (l_header l) (l_final l) (l_failed l) (l_canceled l) (l_sent l) (l_views l).
Definition refuse (final : Z) (failed : bool) (l : layer) : layer :=
  MkLayer layerDiscard (l_status l) (l_buf l) (l_header l) final failed true (l_sent l) (l_views l).

(** [run]: the guest sees the live header map. *)
Definition run_hook (state : Z) (body : list Z) (committed : bool) (l : layer) : layer * responseView * (callErr + Z) :=
  let view := MkView (l_status l) (l_status l) false (l_header l) body state committed false in
  let '(view', res) := hook view in
  (MkLayer (l_state l) (l_status l) (l_buf l) (v_header view') (l_final l) (l_failed l) (l_canceled l) (l_sent l) (l_views l ++ [view]),
   view', res).

(** [decide]: the view to deliver, or [None] after a refusal. *)
Definition decide_layer (state : Z) (body : list Z) (l : layer) : layer * option responseView :=
  let '(l, view, res) := run_hook state body false l in
  match res with
  | inl ErrInstanceLimit => (refuse 503 true l, None)
  | inl _ => (refuse 500 true l, None)
  | inr r =>
      if r =? responseReject then
        (refuse (if statusSet view && (400 <=? v_status view) && (v_status view <=? 599) then v_status view else 502) (l_failed l) l, None)
      else (l, Some view)
  end.

(** Commit the header map with a status. *)
Definition commit (status : Z) (l : layer) : layer := set_layer layerPassthrough (send (ParentHeader status (l_header l)) l).

Definition interim (code : Z) : bool := (100 <=? code) && (code <? 200) && negb (code =? 101).

Definition WriteHeader_layer (code : Z) (l : layer) : layer :=
  if negb (bool_decide (l_state l = layerPending)) then l
  else if interim code then send (ParentHeader code (l_header l)) l
  else
    let l := set_layer_status code l in
    if code =? 101 then send (ParentHeader code (l_header l)) (set_layer layerUpgraded l)
    else
      let state := classifyResponse mode method code (l_header l) maxBody in
      if state =? bodyAvailable then set_layer layerBuffering l
      else
        match decide_layer state [] l with
        | (l, Some view) => commit (v_status view) l
        | (l, None) => l
        end.

(** [Write] once the status is decided. *)
Definition write_decided (p : list Z) (l : layer) : layer :=
  match l_state l with
  | layerBuffering =>
      if zlen (l_buf l) + zlen p <=? maxBody then set_buf (l_buf l ++ p) l
      else
        let buffered := l_buf l in
        match decide_layer bodyTooLarge [] l with
        | (l, None) => set_buf [] l
        | (l, Some view) =>
            let l := commit (v_status view) (set_buf [] l) in
            let l := if bool_decide (buffered = []) then l else send (ParentWrite buffered) l in
            send (ParentWrite p) l
        end
  | layerPassthrough => send (ParentWrite p) l
  | _ => l
  end.

Definition Write_layer (p : list Z) (l : layer) : layer :=
  write_decided p (if bool_decide (l_state l = layerPending) then WriteHeader_layer 200 l else l).

Definition Flush_layer (l : layer) : layer := if bool_decide (l_state l = layerPending) then WriteHeader_layer 200 l else l.

(** A hijacked connection: the response is committed. *)
Definition Hijack_layer (l : layer) : layer :=
  let l := set_buf [] (set_layer layerUpgraded l) in
  if l_status l =? 0 then set_layer_status 101 l else l.

(** [writeFinal]: the rejection or failure replaces the response. *)
Definition writeFinal (l : layer) : layer :=
  let body := if l_failed l then str "plugin error" ++ [10] else [] in
  let h := entry in
  let h := if l_failed l then
             let h := header_Set h (str "Content-Type") (str "text/plain; charset=utf-8") in
             let h := header_Set h (str "X-Content-Type-Options") (str "nosniff") in
             if l_final l =? 503 then header_Set h (str "Retry-After") (str "1") else h
           else h in
  let h := header_Set h (str "Content-Length") (Itoa (zlen body)) in
  let l := commit (l_final l) (set_layer_header h l) in
  if bool_decide (body = []) then l else send (ParentWrite body) l.

(** The header map of a buffered response that is delivered. *)
Definition delivered_header (view : responseView) (h : Header) : Header :=
  let h := header_Del (header_Del h (str "Transfer-Encoding")) (str "Accept-Ranges") in
  let h := if replaced view then del_all replacedValidators h else h in
  header_Set h (str "Content-Length") (Itoa (zlen (v_body view))).

Definition finish_layer (l : layer) : layer :=
  let l := if bool_decide (l_state l = layerPending) then WriteHeader_layer 200 l else l in
  match l_state l with
  | layerBuffering =>
      match decide_layer bodyAvailable (l_buf l) l with
      | (l, None) => writeFinal (set_buf [] l)
      | (l, Some view) =>
          let l := set_layer_header (delivered_header view (l_header l)) (set_buf [] l) in
          let l := commit (v_status view) l in
          if bool_decide (v_body view = []) then l else send (ParentWrite (v_body view)) l
      end
  | layerDiscard => writeFinal l
  | layerUpgraded => if bool_decide (l_views l = []) then (run_hook bodyUpgraded [] true l).1.1 else l
  | _ => l
  end.

(** What the action does with its writer: it changes the header map, and calls
    the writer's methods. *)
Inductive action := ASetHeader (h : Header) | AWriteHeader (code : Z) | AWrite (p : list Z) | AFlush | AHijack.

Definition act (l : layer) (a : action) : layer :=
  match a with
  | ASetHeader h => set_layer_header h l
  | AWriteHeader code => WriteHeader_layer code l
  | AWrite p => Write_layer p l
  | AFlush => Flush_layer l
  | AHijack => Hijack_layer l
  end.

Definition newLayer (h : Header) : layer := MkLayer layerPending 0 [] h 0 false false [] [].

(** [responsePoint] with one subscription: the action, then [finish]. *)
Definition run_layer (acts : list action) (h : Header) : layer := finish_layer (foldl act (newLayer h) acts).

(** ** What reaches the client *)

(** The bytes an action writes, and the status it commits first. *)
Definition action_bytes (a : action) : list Z := match a with AWrite p => p | _ => [] end.
Definition written (acts : list action) : list Z := concat (map action_bytes acts).

Definition action_status (a : action) : option Z :=
  match a with
  | AWriteHeader code => if interim code then None else Some code
  | AWrite _ | AFlush => Some 200
  | _ => None
  end.

Fixpoint first_status (acts : list action) : option Z :=
  match acts with
  | [] => None
  | a :: acts => match action_status a with Some s => Some s | None => first_status acts end
  end.

(** Actions that stay with HTTP: no protocol switch. *)
Definition plain (a : action) : Prop := match a with AHijack => False | AWriteHeader code => code <> 101 | _ => True end.

Definition event_bytes (e : parentEvent) : list Z := match e with ParentWrite p => p | ParentHeader _ _ => [] end.
Definition is_write (e : parentEvent) : Prop := exists p, e = ParentWrite p.
Definition is_interim (e : parentEvent) : Prop := exists c h, e = ParentHeader c h /\ interim c = true.

(** One final header, interim ones before it and body bytes after it. *)
Definition one_response (status : Z) (h : Header) (body : list Z) (sent : list parentEvent) : Prop :=
  exists pre post, sent = pre ++ ParentHeader status h :: post /\ Forall is_interim pre /\ Forall is_write post /\
    concat (map event_bytes post) = body.

(** The refusal of a hook: the final status and whether it is a failure. *)
Definition refusal (view : responseView) (res : callErr + Z) : option (Z * bool) :=
  match res with
  | inl ErrInstanceLimit => Some (503, true)
  | inl _ => Some (500, true)
  | inr r =>
      if r =? responseReject
      then Some (if statusSet view && (400 <=? v_status view) && (v_status view <=? 599) then v_status view else 502, false)
      else None
  end.

(** The layer before [finish]: [w] the bytes written, [st] the status committed
    by the action. *)
Inductive layer_inv (w : list Z) : option Z -> layer -> Prop :=
  | inv_pending l : l_state l = layerPending -> w = [] -> l_buf l = [] -> l_views l = [] -> l_failed l = false -> Forall is_interim (l_sent l) ->
      layer_inv w None l
  | inv_buffering l : l_state l = layerBuffering -> l_buf l = w -> zlen w <= Z.max 0 maxBody -> l_views l = [] -> l_failed l = false ->
      Forall is_interim (l_sent l) -> layer_inv w (Some (l_status l)) l
  | inv_pass l v v' res : l_state l = layerPassthrough -> l_views l = [v] -> origStatus v = l_status l -> bodyState v <> bodyAvailable ->
      hook v = (v', res) -> refusal v' res = None -> one_response (v_status v') (v_header v') w (l_sent l) -> layer_inv w (Some (l_status l)) l
  | inv_discard l v v' res : l_state l = layerDiscard -> l_views l = [v] -> origStatus v = l_status l -> bodyState v <> bodyAvailable ->
      hook v = (v', res) -> refusal v' res = Some (l_final l, l_failed l) -> Forall is_interim (l_sent l) -> layer_inv w (Some (l_status l)) l.

(** Deciding turns an undecided layer into a refused one, or one ready to commit
    the header map the guest left. *)
Lemma decide_spec state body l :
  l_views l = [] -> l_failed l = false ->
  exists v v' res, hook v = (v', res) /\ origStatus v = l_status l /\ bodyState v = state /\ v_body v = body /\
    ((exists l', decide_layer state body l = (l', Some v') /\ refusal v' res = None /\ l_header l' = v_header v' /\ l_views l' = [v] /\
        l_sent l' = l_sent l /\ l_status l' = l_status l /\ l_buf l' = l_buf l) \/
     (exists l', decide_layer state body l = (l', None) /\ refusal v' res = Some (l_final l', l_failed l') /\ l_views l' = [v] /\
        l_sent l' = l_sent l /\ l_status l' = l_status l /\ l_state l' = layerDiscard)).
Proof.
  intros HV HF. unfold decide_layer, run_hook.
  destruct (hook (MkView (l_status l) (l_status l) false (l_header l) body state false false)) as [v' res] eqn:E.
  eexists _, v', res. split; [exact E|]. do 3 (split; [done|]). unfold refusal. rewrite HV, HF. cbn [app].
  destruct res as [[]|r]; [right; eexists; split; [reflexivity|done]..|].
  destruct (r =? responseReject); [right|left]; eexists; (split; [reflexivity|done]).
Qed.

Lemma one_response_write st h b p sent : one_response st h b sent -> one_response st h (b ++ p) (sent ++ [ParentWrite p]).
Proof.
  intros (pre & post & -> & H1 & H2 & <-). exists pre, (post ++ [ParentWrite p]). split; [by rewrite <- app_assoc|]. split; [done|]. split.
  - apply Forall_app. split; [done|]. apply Forall_singleton. by eexists.
  - rewrite map_app, concat_app. cbn. by rewrite app_nil_r.
Qed.

Lemma one_response_start st h sent : Forall is_interim sent -> one_response st h [] (sent ++ [ParentHeader st h]).
Proof. intros HF. exists sent, []. done. Qed.

(** The first status an action commits. *)
Lemma inv_WriteHeader code l : l_state l = layerPending -> layer_inv [] None l -> code <> 101 -> interim code = false ->
  layer_inv [] (Some code) (WriteHeader_layer code l).
Proof.
  intros HS HI H101 Hc. inversion HI as [? _ _ HB HV HF HSent| | |]; subst; clear HI. unfold WriteHeader_layer.
  rewrite HS, bool_decide_true by done. cbn [negb]. rewrite Hc, (proj2 (Z.eqb_neq _ _) H101).
  destruct (_ =? bodyAvailable) eqn:EA.
  - apply (inv_buffering [] (set_layer layerBuffering (set_layer_status code l))); cbn; auto. change (zlen []) with 0. lia.
  - set (l1 := set_layer_status code l). set (state := classifyResponse _ _ _ _ _) in *.
    destruct (decide_spec state [] l1 HV HF) as (v & v' & res & Eh & Ho & Hst & _ & [(l' & -> & Er & Eh' & Ev & Es & El & _)|(l' & -> & Er & Ev & Es & El & Est)]).
    + replace code with (l_status (commit (v_status v') l')) by (cbn; by rewrite El).
      apply (inv_pass [] _ v v' res); cbn; auto; [congruence|rewrite Hst; apply Z.eqb_neq, EA|]. rewrite Es, Eh'. by apply one_response_start.
    + replace code with (l_status l') by (by rewrite El). apply (inv_discard [] _ v v' res); auto; [congruence|rewrite Hst; apply Z.eqb_neq, EA|by rewrite Es].
Qed.

Lemma inv_set_header w st h l : layer_inv w st l -> layer_inv w st (set_layer_header h l).
Proof.
  intros HI. inversion HI; subst.
  - by apply inv_pending.
  - by apply (inv_buffering _ (set_layer_header h l)).
  - by eapply (inv_pass _ (set_layer_header h l)).
  - by eapply (inv_discard _ (set_layer_header h l)).
Qed.

(** Writing once the status is decided. *)
Lemma inv_write w s p l : layer_inv w (Some s) l -> layer_inv (w ++ p) (Some s) (write_decided p l).
Proof.
  intros HI. inversion HI as [|? HS HB HL HV HF HSent|? v v' res HS HV Ho Hb Eh Er HR|? v v' res HS HV Ho Hb Eh Er HSent]; subst; clear HI;
    unfold write_decided; rewrite HS.
  - destruct (_ <=? _) eqn:L.
    + apply (inv_buffering _ (set_buf (l_buf l ++ p) l)); cbn; auto. rewrite zlen_app. lia.
    + destruct (decide_spec bodyTooLarge [] l HV HF) as (v & v' & res & Eh & Ho & Hst & _ & [(l' & -> & Er & Eh' & Ev & Es & El & Eb)|(l' & -> & Er & Ev & Es & El & Est)]).
      * assert (HR : one_response (v_status v') (v_header v') (l_buf l)
          (l_sent (if bool_decide (l_buf l = []) then commit (v_status v') (set_buf [] l') else send (ParentWrite (l_buf l)) (commit (v_status v') (set_buf [] l'))))).
        { pose proof (one_response_start (v_status v') (v_header v') (l_sent l) HSent) as H1. case_bool_decide as EB.
          - rewrite EB. cbn. by rewrite Es, Eh'.
          - cbn. rewrite Es, Eh'. by apply (one_response_write _ _ [] (l_buf l)). }
        apply (one_response_write _ _ _ p) in HR. rewrite <- El.
        match goal with |- layer_inv _ _ ?x => replace (l_status l') with (l_status x) by (by case_bool_decide) end.
        apply (inv_pass _ _ v v' res); auto; [by case_bool_decide|by case_bool_decide|by rewrite Ho, <- El; case_bool_decide|by rewrite Hst].
      * rewrite <- El. change (l_status l') with (l_status (set_buf [] l')).
        apply (inv_discard _ _ v v' res); cbn; auto; [congruence|by rewrite Hst|by rewrite Es].
  - apply (inv_pass _ (send (ParentWrite p) l) v v' res); cbn; auto. by apply one_response_write.
  - by apply (inv_discard _ l v v' res).
Qed.

Lemma inv_decided w s l : layer_inv w (Some s) l -> l_state l <> layerPending.
Proof. intros HI. inversion HI; subst; congruence. Qed.

Lemma inv_pending_state w l : layer_inv w None l -> l_state l = layerPending /\ w = [].
Proof. intros HI. by inversion HI. Qed.

Lemma inv_act w st l a : plain a -> layer_inv w st l ->
  layer_inv (w ++ action_bytes a) (match st with Some s => Some s | None => action_status a end) (act l a).
Proof.
  intros Hp HI. destruct a as [h|code|p| |]; cbn [act action_bytes action_status]; rewrite ?app_nil_r.
  - destruct st; by apply inv_set_header.
  - destruct st as [s|].
    + unfold WriteHeader_layer. by rewrite bool_decide_false by (by eapply inv_decided).
    + destruct (inv_pending_state _ _ HI) as [HS ->]. destruct (interim code) eqn:Ei; [|by apply inv_WriteHeader].
      unfold WriteHeader_layer. rewrite HS, bool_decide_true by done. cbn [negb]. rewrite Ei.
      inversion HI as [? _ _ HB HV HF HSent| | |]; subst. apply inv_pending; cbn; auto. apply Forall_app. split; [done|]. apply Forall_singleton. by eexists _, _.
  - unfold Write_layer. destruct st as [s|].
    + rewrite bool_decide_false by (by eapply inv_decided). by apply inv_write.
    + destruct (inv_pending_state _ _ HI) as [HS ->]. rewrite HS, bool_decide_true by done. by apply inv_write, inv_WriteHeader.
  - unfold Flush_layer. destruct st as [s|].
    + by rewrite bool_decide_false by (by eapply inv_decided).
    + destruct (inv_pending_state _ _ HI) as [HS ->]. rewrite HS, bool_decide_true by done. by apply inv_WriteHeader.
  - done.
Qed.

Lemma first_status_snoc acts a : first_status (acts ++ [a]) = match first_status acts with Some s => Some s | None => action_status a end.
Proof. induction acts as [|x acts IH]; cbn; [by destruct (action_status a)|]. by destruct (action_status x). Qed.

Lemma inv_acts acts h : Forall plain acts -> layer_inv (written acts) (first_status acts) (foldl act (newLayer h) acts).
Proof.
  induction acts as [|a acts IH] using rev_ind; intros HF; [by apply inv_pending|]. apply Forall_app in HF as [HF Ha%Forall_inv].
  rewrite foldl_app, first_status_snoc. unfold written. rewrite map_app, concat_app. cbn [map concat foldl]. rewrite app_nil_r.
  by apply inv_act; [|apply IH].
Qed.

(** The header map of a refusal. *)
Definition refusal_header (final : Z) (failed : bool) : Header :=
  let h := if failed then
             let h := header_Set entry (str "Content-Type") (str "text/plain; charset=utf-8") in
             let h := header_Set h (str "X-Content-Type-Options") (str "nosniff") in
             if final =? 503 then header_Set h (str "Retry-After") (str "1") else h
           else entry in
  header_Set h (str "Content-Length") (Itoa (zlen (if failed then str "plugin error" ++ [10] else []))).

Lemma writeFinal_sent l : Forall is_interim (l_sent l) ->
  one_response (l_final l) (refusal_header (l_final l) (l_failed l)) (if l_failed l then str "plugin error" ++ [10] else []) (l_sent (writeFinal l)) /\
  l_views (writeFinal l) = l_views l.
Proof.
  intros HF. unfold writeFinal, refusal_header. destruct (l_failed l); cbn [l_sent send commit set_layer set_layer_header].
  - split; [|done]. apply (one_response_write _ _ []). by apply one_response_start.
  - split; [|done]. by apply one_response_start.
Qed.

(** A response shown to a plugin reaches the client exactly once, and only
    after the plugin decided.  Whatever the action does short of a protocol
    switch, the hook runs once, on the status the action committed first; then
    the writer beneath gets interim headers, one final header and body bytes.
    When the hook refuses or fails, they are the refusal with the header map from
    before the action, and nothing of the action's.  Otherwise the status and
    header map are the hook's, and the body is the action's bytes in order, or,
    when the whole body was shown to the hook, the body the hook left, under its
    Content-Length. *)
Theorem response_layer_exact (acts : list action) (h : Header) :
  Forall plain acts ->
  let l := run_layer acts h in
  exists v v' res, l_views l = [v] /\ hook v = (v', res) /\ origStatus v = default 200 (first_status acts) /\
    match refusal v' res with
    | Some (final, failed) =>
        one_response final (refusal_header final failed) (if failed then str "plugin error" ++ [10] else []) (l_sent l)
    | None =>
        if bodyState v =? bodyAvailable
        then v_body v = written acts /\ zlen (written acts) <= Z.max 0 maxBody /\
             one_response (v_status v') (delivered_header v' (v_header v')) (v_body v') (l_sent l)
        else one_response (v_status v') (v_header v') (written acts) (l_sent l)
    end.
Proof.
  intros HP. unfold run_layer, finish_layer. pose proof (inv_acts acts h HP) as HI. set (l0 := foldl act (newLayer h) acts) in *.
  set (l1 := if bool_decide (l_state l0 = layerPending) then WriteHeader_layer 200 l0 else l0).
  assert (HI1 : layer_inv (written acts) (Some (default 200 (first_status acts))) l1).
  { unfold l1. destruct (first_status acts) as [s|].
    - by rewrite bool_decide_false by (by eapply inv_decided).
    - destruct (inv_pending_state _ _ HI) as [HS E]. rewrite HS, bool_decide_true by done. rewrite E in *. by apply inv_WriteHeader. }
  clearbody l1. clear HI l0. set (s := default 200 (first_status acts)) in *. clearbody s. cbn zeta.
  inversion HI1 as [|? HS HB HL HV HF HSent|? v v' res HS HV Ho Hb Eh Er HR|? v v' res HS HV Ho Hb Eh Er HSent]; subst; rewrite HS.
  - destruct (decide_spec bodyAvailable (l_buf l1) l1 HV HF) as (v & v' & res & Eh & Ho & Hst & Hbd & [(l' & -> & Er & Eh' & Ev & Es & El & Eb)|(l' & -> & Er & Ev & Es & El & Est)]).
    + exists v, v', res. rewrite Er, Hst. change (bodyAvailable =? bodyAvailable) with true. rewrite Eh'.
      assert (HR : one_response (v_status v') (delivered_header v' (v_header v')) [] (l_sent (commit (v_status v') (set_layer_header (delivered_header v' (v_header v')) (set_buf [] l'))))).
      { cbn. rewrite Es. by apply one_response_start. }
      split; [by case_bool_decide|]. split; [done|]. split; [done|]. split; [by rewrite Hbd|]. split; [done|]. case_bool_decide as E.
      * by rewrite E.
      * by apply (one_response_write _ _ [] (v_body v')).
    + exists v, v', res. rewrite Er. destruct (writeFinal_sent (set_buf [] l')) as [HR HW]; [cbn; by rewrite Es|]. rewrite HW. auto.
  - exists v, v', res. rewrite Er, (proj2 (Z.eqb_neq _ _) Hb). auto.
  - exists v, v', res. rewrite Er. destruct (writeFinal_sent l1 HSent) as [HR HW]. rewrite HW. auto.
Qed.
End Layer.

(** ** A concrete response *)

Definition demo_media : MediaType := {| ParseMediaType := fun s => s |}.

(** A hook that drops the body to its first byte. *)
Definition demo_hook (v : responseView) : responseView * (callErr + Z) := (set_body (take 1 (v_body v)) v, inr 0).

Definition demo_acts : list action := [AWriteHeader 103; AWrite [1; 2]; AWrite [3]].

Section Demo.
#[local] Existing Instance no_unicode.
#[local] Existing Instance demo_media.

Lemma response_layer_exact_witness :
  exists v, l_views (run_layer 1 8 (str "GET") ∅ demo_hook demo_acts ∅) = [v] /\ v_body v = [1; 2; 3] /\
    one_response 200 (delivered_header (set_body [1] v) (v_header v)) [1] (l_sent (run_layer 1 8 (str "GET") ∅ demo_hook demo_acts ∅)).
Proof.
  destruct (response_layer_exact 1 8 (str "GET") ∅ demo_hook demo_acts ∅) as (v & v' & res & HV & HH & _ & HR).
  - repeat (apply Forall_cons_2; [cbn; lia || exact I|]). constructor.
  - exists v. split; [exact HV|]. vm_compute in HV. injection HV as <-. injection HH as <- <-. destruct HR as (_ & _ & HR).
    split; [reflexivity|exact HR].
Defined.
End Demo.
