(* ===== verification/ConnLimit.v ===== *)
(** * Connection limits (src/internal/server/dynamic_conn_limit.go, http3_gate.go)

    The listener wrapper that bounds the connections being served under a cap
    that a reload may change, as interleavings of its critical sections over any
    number of accepted connections, and its QUIC counterpart, which also lets a
    shutdown wait until it is idle.  A goroutine in [cond.Wait] is asleep until a
    broadcast, after which it takes the lock again. *)
From S2P Require Import Prelude.

(** ** The TCP listener *)

Record dynamicConnLimiter := MkLimiter { limit : Z; active : Z; closed : bool }.

Definition effective_limit (n : Z) : Z := if n <? 0 then 0 else n.
Definition newDynamicConnLimiter (n : Z) : dynamicConnLimiter := MkLimiter (effective_limit n) 0 false.

Definition SetLimit (n : Z) (l : dynamicConnLimiter) : dynamicConnLimiter := MkLimiter (effective_limit n) (active l) (closed l).
Definition Close (l : dynamicConnLimiter) : dynamicConnLimiter := MkLimiter (limit l) (active l) true.
Definition release (l : dynamicConnLimiter) : dynamicConnLimiter :=
  MkLimiter (limit l) (if 0 <? active l then active l - 1 else active l) (closed l).

(** The condition of the loop in [Accept]. *)
Definition blocked (l : dynamicConnLimiter) : bool := negb (closed l) && (0 <? limit l) && (limit l <=? active l).

(** [effectiveConnectionCap]: the master switch and the configured number. *)
Definition effectiveConnectionCap (cfg : option (bool * Z)) : Z :=
  match cfg with
  | None => 0
  | Some (enabled, maxConns) => if negb enabled || (maxConns <=? 0) then 0 else maxConns
  end.

(** A connection: not there yet, accepted from the socket and about to take the
    lock, asleep, served, closed but not yet released, released, and closed
    because the listener was. *)
Inductive connPhase := CFree | CPending | CWaiting | CServed | CClosing | CDone | CRefused.

#[global] Instance connPhase_eq_dec : EqDecision connPhase.
Proof. solve_decision. Defined.

Record listener := MkListener { lim : dynamicConnLimiter; conns : list connPhase }.

Inductive connLabel :=
| LAccept (t : nat)
| LLock (t : nat)
| LCloseConn (t : nat)
| LRelease (t : nat)
| LSetLimit (n : Z)
| LClose.

(** [cond.Broadcast]. *)
Definition wake (c : connPhase) : connPhase := match c with CWaiting => CPending | _ => c end.
Definition broadcast (cs : list connPhase) : list connPhase := map wake cs.

(** [Accept] under the lock: another round of the loop, or its end. *)
Definition accept_locked (l : dynamicConnLimiter) : dynamicConnLimiter * connPhase :=
  if blocked l then (l, CWaiting)
  else if closed l then (l, CRefused)
  else (MkLimiter (limit l) (active l + 1) (closed l), CServed).

Definition conn_exec (s : listener) (l : connLabel) : option listener :=
  match l with
  | LAccept t => match conns s !! t with Some CFree => Some (MkListener (lim s) (<[t := CPending]> (conns s))) | _ => None end
  | LLock t =>
      match conns s !! t with
      | Some CPending => let '(l, c) := accept_locked (lim s) in Some (MkListener l (<[t := c]> (conns s)))
      | _ => None
      end
  | LCloseConn t =>
      match conns s !! t with
      | Some CServed => Some (MkListener (lim s) (<[t := CClosing]> (conns s)))
      | Some CDone => Some s
      | _ => None
      end
  | LRelease t =>
      match conns s !! t with
      | Some CClosing => Some (MkListener (release (lim s)) (broadcast (<[t := CDone]> (conns s))))
      | _ => None
      end
  | LSetLimit n => Some (MkListener (SetLimit n (lim s)) (broadcast (conns s)))
  | LClose => Some (MkListener (Close (lim s)) (broadcast (conns s)))
  end.

Definition conn_init (cap : Z) (n : nat) : listener := MkListener (newDynamicConnLimiter cap) (replicate n CFree).

(** Connections that count. *)
Definition counts (c : connPhase) : Z := match c with CServed | CClosing => 1 | _ => 0 end.

(** Caps within a bound. *)
Definition capped (L n : Z) : Prop := 0 < n <= L.
Definition label_capped (L : Z) (l : connLabel) : Prop := match l with LSetLimit n => capped L n | _ => True end.

(** ** The QUIC listener

    Channels are numbered; [closedChans] tells which are closed, and [idle] is
    the current one.  Closing a closed channel panics. *)
Record h3ConnGate := MkGate { gate : dynamicConnLimiter; idle : nat; closedChans : list bool }.

Definition newH3ConnGate (n : Z) : h3ConnGate := MkGate (newDynamicConnLimiter n) 0 [true].

Definition chan_closed (g : h3ConnGate) (ch : nat) : bool := default false (closedChans g !! ch).

Definition close_chan (ch : nat) (g : h3ConnGate) : option h3ConnGate :=
  if chan_closed g ch then None else Some (MkGate (gate g) (idle g) (<[ch := true]> (closedChans g))).

Definition set_gate (l : dynamicConnLimiter) (g : h3ConnGate) : h3ConnGate := MkGate l (idle g) (closedChans g).

Definition gate_acquire (g : h3ConnGate) : h3ConnGate * connPhase :=
  let '(l, c) := accept_locked (gate g) in
  match c with
  | CServed =>
      (if active (gate g) =? 0 then MkGate l (length (closedChans g)) (closedChans g ++ [false]) else set_gate l g, c)
  | _ => (g, c)
  end.

(** [None] is the panic of a channel closed twice. *)
Definition gate_release (g : h3ConnGate) : option h3ConnGate :=
  if 0 <? active (gate g) then
    let g := set_gate (release (gate g)) g in
    if active (gate g) =? 0 then close_chan (idle g) g else Some g
  else Some g.

(** [waitIdle]: at once, or the channel to wait for. *)
Definition gate_waitIdle (g : h3ConnGate) : option nat := if active (gate g) =? 0 then None else Some (idle g).

Inductive waitPhase := WStart | WOn (ch : nat) | WIdle | WExpired.

Record quicListener := MkQuic { q_gate : h3ConnGate; q_conns : list connPhase; q_waits : list waitPhase }.

Inductive quicLabel :=
| QConn (l : connLabel)
| QDone (t : nat)
| QWait (w : nat)
| QIdle (w : nat)
| QExpire (w : nat).

Definition set_wait (w : nat) (p : waitPhase) (s : quicListener) : quicListener := MkQuic (q_gate s) (q_conns s) (<[w := p]> (q_waits s)).

Definition gate_label (g : h3ConnGate) (cs : list connPhase) (l : connLabel) : option (h3ConnGate * list connPhase) :=
  match l with
  | LAccept t => match cs !! t with Some CFree => Some (g, <[t := CPending]> cs) | _ => None end
  | LLock t => match cs !! t with Some CPending => let '(g, c) := gate_acquire g in Some (g, <[t := c]> cs) | _ => None end
  | LSetLimit n => Some (set_gate (SetLimit n (gate g)) g, broadcast cs)
  | LClose => Some (set_gate (Close (gate g)) g, broadcast cs)
  | LCloseConn _ | LRelease _ => None
  end.

Definition quic_exec (s : quicListener) (l : quicLabel) : option quicListener :=
  match l with
  | QConn l => match gate_label (q_gate s) (q_conns s) l with Some (g, cs) => Some (MkQuic g cs (q_waits s)) | None => None end
  | QDone t =>
      match q_conns s !! t with
      | Some CServed =>
          match gate_release (q_gate s) with
          | Some g => Some (MkQuic g (broadcast (<[t := CDone]> (q_conns s))) (q_waits s))
          | None => None
          end
      | _ => None
      end
  | QWait w =>
      match q_waits s !! w with
      | Some WStart => Some (set_wait w (match gate_waitIdle (q_gate s) with None => WIdle | Some ch => WOn ch end) s)
      | _ => None
      end
  | QIdle w =>
      match q_waits s !! w with
      | Some (WOn ch) => if chan_closed (q_gate s) ch then Some (set_wait w WIdle s) else None
      | _ => None
      end
  | QExpire w => match q_waits s !! w with Some (WOn _) => Some (set_wait w WExpired s) | _ => None end
  end.

Definition quic_init (cap : Z) (n m : nat) : quicListener :=
  MkQuic (newH3ConnGate cap) (replicate n CFree) (replicate m WStart).

(** What the QUIC listener is as a TCP listener, and its steps as those of one. *)
Definition erase (s : quicListener) : listener := MkListener (gate (q_gate s)) (q_conns s).
Definition erase_label (l : quicLabel) : list connLabel :=
  match l with QConn l => [l] | QDone t => [LCloseConn t; LRelease t] | _ => [] end.

(** ** The counter is exact and no wakeup is lost *)

Lemma total_broadcast cs : total counts (broadcast cs) = total counts cs.
Proof. induction cs as [|c cs IH]; [done|]. change (counts (wake c) + total counts (broadcast cs) = counts c + total counts cs). rewrite IH. by destruct c. Qed.

Lemma broadcast_awake cs t : broadcast cs !! t <> Some CWaiting.
Proof. unfold broadcast. rewrite list_lookup_fmap. by destruct (cs !! t) as [[]|]. Qed.

Record conn_ok (s : listener) : Prop := {
  ok_active : active (lim s) = total counts (conns s);
  ok_asleep : forall t, conns s !! t = Some CWaiting -> blocked (lim s) = true }.

Lemma conn_ok_init cap n : conn_ok (conn_init cap n).
Proof. split; cbn; [by rewrite total_replicate, Z.mul_0_r|]. by intros t [? _]%lookup_replicate. Qed.

Lemma counts_nonneg c : 0 <= counts c.
Proof. by destruct c. Qed.

(** A step that leaves the limiter alone and puts nobody to sleep. *)
Lemma conn_ok_move s t c c' :
  conns s !! t = Some c -> counts c' = counts c -> (c' = CWaiting -> blocked (lim s) = true) ->
  conn_ok s -> conn_ok (MkListener (lim s) (<[t := c']> (conns s))).
Proof.
  intros Ht Hc Hb [H1 H2]. split; cbn; [rewrite (total_insert _ _ _ _ _ Ht); lia|]. intros u [(-> & E & _)|[_ Hu]]%list_lookup_insert_Some; eauto.
Qed.

Lemma conn_ok_step s l s' : conn_ok s -> conn_exec s l = Some s' -> conn_ok s'.
Proof.
  intros Hok E. pose proof Hok as [H1 H2].
  destruct l as [t|t|t|t|n|]; cbn in E.
  1-4: destruct (conns s !! t) as [[]|] eqn:Ht; try done.
  - injection E as <-. by eapply conn_ok_move.
  - unfold accept_locked in E. destruct (blocked (lim s)) eqn:B; [|destruct (closed (lim s)) eqn:C]; injection E as <-; try by eapply conn_ok_move.
    split; cbn; [rewrite (total_insert _ _ _ _ _ Ht); cbn; lia|].
    intros u [(-> & E & _)|[_ Hu]]%list_lookup_insert_Some; [done|]. pose proof (H2 u Hu). congruence.
  - injection E as <-. by eapply conn_ok_move.
  - by injection E as <-.
  - injection E as <-. pose proof (total_lookup counts t _ _ counts_nonneg Ht) as Hp. cbn in Hp.
    split; cbn; [|by intros u Hu%broadcast_awake].
    rewrite total_broadcast, (total_insert _ _ _ _ _ Ht). cbn. destruct (Z.ltb_spec 0 (active (lim s))); lia.
  - injection E as <-. split; cbn; [by rewrite total_broadcast|by intros u Hu%broadcast_awake].
  - injection E as <-. split; cbn; [by rewrite total_broadcast|by intros u Hu%broadcast_awake].
Qed.

Lemma conn_ok_reach cap n tr s : trace conn_exec (conn_init cap n) tr s -> conn_ok s.
Proof. intros T. eapply trace_invariant; [exact conn_ok_step|exact T|apply conn_ok_init]. Qed.

(** A step that serves a connection leaves the count within the cap in force. *)
Lemma admission_within s l s' :
  conn_exec s l = Some s' -> active (lim s) < active (lim s') -> limit (lim s) <= 0 \/ active (lim s') <= limit (lim s).
Proof.
  intros E Ha. destruct l as [t|t|t|t|n|]; cbn in E.
  1-4: destruct (conns s !! t) as [[]|]; try done.
  2: { unfold accept_locked, blocked in E. destruct (closed (lim s)) eqn:C, (Z.ltb_spec 0 (limit (lim s))), (Z.leb_spec (limit (lim s)) (active (lim s))); cbn in E; injection E as <-; cbn in Ha |- *; lia. }
  all: injection E as <-; cbn in Ha; try destruct (_ <? _); lia.
Qed.

Definition within_cap (L : Z) (s : listener) : Prop := 0 < limit (lim s) <= L /\ active (lim s) <= L.

Lemma within_cap_step L s l s' : label_capped L l -> within_cap L s -> conn_exec s l = Some s' -> within_cap L s'.
Proof.
  intros Hl [HL Ha] E. pose proof (admission_within _ _ _ E) as HA.
  assert (0 < limit (lim s') <= L) as HL'.
  { destruct l as [t|t|t|t|n|]; cbn in E.
    1-4: destruct (conns s !! t) as [[]|]; try done.
    2: { unfold accept_locked in E. destruct (blocked _); [|destruct (closed _)]; by injection E as <-. }
    all: injection E as <-; cbn; try done. unfold effective_limit. cbn in Hl. destruct Hl as [? ?]. destruct (Z.ltb_spec n 0); lia. }
  split; [done|]. destruct (Z.lt_ge_cases (active (lim s)) (active (lim s'))) as [Hlt|]; [|lia]. specialize (HA Hlt). lia.
Qed.

Lemma within_cap_trace L s tr s' : trace conn_exec s tr s' -> Forall (label_capped L) tr -> within_cap L s -> within_cap L s'.
Proof. induction 1 as [|s l s1 tr s2 E T IH]; [done|]. intros [Hl Htr]%Forall_cons Hs. eauto using within_cap_step. Qed.

(** C28: The listener's cap, in every interleaving of accepts, closes, releases,
    reloads and the shutdown.  The counter is exactly the number of connections
    served and not yet released, however often a connection is closed; a
    connection is served only below the cap in force, so that with caps of at
    most [L] never more than [L] are; and a connection that sleeps has a reason
    to: the listener is open, the cap is positive and reached. *)
Theorem conn_limit_exact (cap : Z) (n : nat) (tr : list connLabel) (s : listener) :
  trace conn_exec (conn_init cap n) tr s ->
  active (lim s) = total counts (conns s) /\
  (forall t, conns s !! t = Some CWaiting -> closed (lim s) = false /\ 0 < limit (lim s) <= active (lim s)) /\
  (forall L, capped L cap -> Forall (label_capped L) tr -> total counts (conns s) <= L) /\
  (forall l s', conn_exec s l = Some s' -> active (lim s) < active (lim s') ->
     limit (lim s) <= 0 \/ total counts (conns s') <= limit (lim s)).
Proof.
  intros T. pose proof (conn_ok_reach _ _ _ _ T) as Hok. pose proof Hok as [H1 H2]. split_and!; [done| | |].
  - intros t Ht%H2. unfold blocked in Ht. rewrite !andb_true_iff, negb_true_iff in Ht. destruct Ht as [[Hc Hl] Ha]. split; [done|lia].
  - intros L [Hc HL] Htr. rewrite <- H1. eapply within_cap_trace; [exact T|exact Htr|]. unfold within_cap, effective_limit. cbn.
    unfold effective_limit. destruct (Z.ltb_spec cap 0); lia.
  - intros l s' E Ha. rewrite <- (ok_active _ (conn_ok_step _ _ _ Hok E)). by eapply admission_within.
Qed.

Definition demo_conn_run : list connLabel :=
  [LAccept 0; LLock 0; LAccept 1; LLock 1; LCloseConn 0; LRelease 0; LCloseConn 0; LLock 1; LAccept 2; LLock 2].

Lemma conn_limit_exact_witness :
  exists s, exec_trace conn_exec (conn_init 1 3) demo_conn_run = Some s /\ conns s = [CDone; CServed; CWaiting] /\
    active (lim s) = total counts (conns s).
Proof.
  destruct (exec_trace conn_exec (conn_init 1 3) demo_conn_run) as [s|] eqn:E; [|by vm_compute in E].
  exists s. split; [done|]. split; [by vm_compute in E; injection E as <-|].
  apply (conn_limit_exact 1 3 demo_conn_run s). by apply exec_trace_trace.
Defined.

(** ** The QUIC gate is that limiter, with a channel that is closed when idle *)

Record gate_ok (s : quicListener) : Prop := {
  gate_conn : conn_ok (erase s);
  gate_idle : (idle (q_gate s) < length (closedChans (q_gate s)))%nat;
  gate_flag : chan_closed (q_gate s) (idle (q_gate s)) = (active (gate (q_gate s)) =? 0);
  gate_old : forall ch, (ch < length (closedChans (q_gate s)))%nat -> ch <> idle (q_gate s) -> chan_closed (q_gate s) ch = true;
  gate_waits : forall w ch, q_waits s !! w = Some (WOn ch) -> (ch < length (closedChans (q_gate s)))%nat }.

Lemma gate_ok_init cap n m : gate_ok (quic_init cap n m).
Proof.
  split; cbn; [apply conn_ok_init|lia|done| |].
  - intros ch ? ?. by replace ch with 0%nat in * by lia.
  - by intros w ch [? _]%lookup_replicate.
Qed.

(** What a release leaves: the same channels, the current one closed when idle. *)
Lemma gate_release_ok s t :
  gate_ok s -> q_conns s !! t = Some CServed ->
  exists g, gate_release (q_gate s) = Some g /\ gate g = release (gate (q_gate s)) /\ idle g = idle (q_gate s) /\
    length (closedChans g) = length (closedChans (q_gate s)) /\
    chan_closed g (idle g) = (active (gate g) =? 0) /\
    forall ch, ch <> idle g -> chan_closed g ch = chan_closed (q_gate s) ch.
Proof.
  intros [[Ha _] Hi Hf Ho _] Ht. cbn in Ha. pose proof (total_lookup counts t _ _ counts_nonneg Ht) as Hp. cbn in Hp.
  unfold gate_release. rewrite (proj2 (Z.ltb_lt _ _)) by lia. cbn [set_gate gate release active].
  rewrite (proj2 (Z.ltb_lt 0 (active (gate (q_gate s))))) by lia.
  rewrite (proj2 (Z.eqb_neq (active (gate (q_gate s))) 0)) in Hf by lia.
  destruct (active (gate (q_gate s)) - 1 =? 0) eqn:E.
  - unfold close_chan. change (chan_closed (set_gate _ (q_gate s)) ?x) with (chan_closed (q_gate s) x). cbn [set_gate idle].
    rewrite Hf. eexists. split; [done|]. unfold release, chan_closed. cbn.
    rewrite (proj2 (Z.ltb_lt 0 (active (gate (q_gate s))))) by lia. rewrite length_insert, list_lookup_insert_eq by lia.
    split_and!; [done..|]. intros ch Hc. by rewrite list_lookup_insert_ne.
  - eexists. split; [done|]. unfold release. cbn. rewrite (proj2 (Z.ltb_lt 0 (active (gate (q_gate s))))) by lia. split_and!; try done.
    change (chan_closed (q_gate s) (idle (q_gate s)) = (active (gate (q_gate s)) - 1 =? 0)). by rewrite Hf, E.
Qed.

(** Taking a slot: a new channel for the first connection. *)
Lemma gate_acquire_ok s :
  gate_ok s ->
  let '(g, c) := gate_acquire (q_gate s) in
  accept_locked (gate (q_gate s)) = (gate g, c) /\ (idle g < length (closedChans g))%nat /\
  (length (closedChans (q_gate s)) <= length (closedChans g))%nat /\
  chan_closed g (idle g) = (active (gate g) =? 0) /\
  forall ch, (ch < length (closedChans g))%nat -> ch <> idle g -> chan_closed g ch = true.
Proof.
  intros [[Ha _] Hi Hf Ho _]. cbn in Ha. pose proof (total_nonneg counts (q_conns s) counts_nonneg) as Hp.
  unfold gate_acquire, accept_locked. destruct (blocked _) eqn:B; [done|]. destruct (closed _) eqn:C; [done|].
  destruct (active (gate (q_gate s)) =? 0) eqn:E; [|split_and!; try done; change (chan_closed (q_gate s) (idle (q_gate s)) = (active (gate (q_gate s)) + 1 =? 0)); rewrite Hf; symmetry; apply Z.eqb_neq; lia].
  cbn [gate idle closedChans active]. rewrite length_app. cbn [length].
  split_and!; [done|lia|lia| |].
  - unfold chan_closed. cbn. rewrite list_lookup_middle by done. cbn. symmetry. apply Z.eqb_neq. lia.
  - intros ch H1 H2. unfold chan_closed. cbn. rewrite lookup_app_l by lia. destruct (decide (ch = idle (q_gate s))) as [->|Hne]; [done|].
    apply Ho; [lia|done].
Qed.

(** The steps the two listeners share. *)
Lemma gate_label_step s l g cs :
  gate_ok s -> gate_label (q_gate s) (q_conns s) l = Some (g, cs) ->
  conn_exec (erase s) l = Some (MkListener (gate g) cs) /\ gate_ok (MkQuic g cs (q_waits s)).
Proof.
  intros Hok E. pose proof Hok as [Hc Hi Hf Ho Hw]. pose proof (gate_acquire_ok _ Hok) as HA.
  assert (He : conn_exec (erase s) l = Some (MkListener (gate g) cs)).
  { destruct l as [t|t|t|t|n|]; cbn in E |- *; try done; try by injection E as <- <-.
    - destruct (q_conns s !! t) as [[]|]; try done. by injection E as <- <-.
    - destruct (q_conns s !! t) as [[]|]; try done. destruct (gate_acquire (q_gate s)) as [g' c]. destruct HA as (-> & _). by injection E as <- <-. }
  split; [done|]. pose proof (conn_ok_step _ _ _ Hc He) as Hc'.
  destruct l as [t|t|t|t|n|]; cbn in E; try done; try (injection E as <- <-; by split).
  - destruct (q_conns s !! t) as [[]|]; try done. injection E as <- <-. by split.
  - destruct (q_conns s !! t) as [[]|]; try done. destruct (gate_acquire (q_gate s)) as [g' c].
    destruct HA as (_ & H1 & H2 & H3 & H4). injection E as <- <-. split; cbn; try done. intros w ch Hch%Hw. lia.
Qed.

Lemma gate_ok_wait s w p :
  gate_ok s -> (forall ch, p = WOn ch -> (ch < length (closedChans (q_gate s)))%nat) -> gate_ok (set_wait w p s).
Proof.
  intros [Hc Hi Hf Ho Hw] Hp. split; try done. intros u ch [(-> & E & _)|[_ Hu]]%list_lookup_insert_Some; [by apply Hp|by eapply Hw].
Qed.

(** A step of the QUIC listener keeps its invariant and is zero, one or two
    steps of the TCP listener. *)
Lemma quic_step s l s' :
  gate_ok s -> quic_exec s l = Some s' -> gate_ok s' /\ trace conn_exec (erase s) (erase_label l) (erase s').
Proof.
  intros Hok E. pose proof Hok as [Hc Hi Hf Ho Hw]. destruct l as [l|t|w|w|w]; cbn [quic_exec erase_label] in E |- *.
  3-5: destruct (q_waits s !! w) as [[]|] eqn:Ew; try done.
  - destruct (gate_label _ _ l) as [[g cs]|] eqn:El; [|done]. injection E as <-.
    destruct (gate_label_step _ _ _ _ Hok El) as [H1 H2]. eauto using trace.
  - destruct (q_conns s !! t) as [[]|] eqn:Ht; try done.
    destruct (gate_release_ok _ _ Hok Ht) as (g & Eg & Egate & Ei & El & Ef & Ech). rewrite Eg in E. injection E as <-.
    set (s1 := MkListener (gate (q_gate s)) (<[t := CClosing]> (q_conns s))).
    assert (E1 : conn_exec (erase s) (LCloseConn t) = Some s1) by (cbn; by rewrite Ht).
    assert (E2 : conn_exec s1 (LRelease t) = Some (MkListener (gate g) (broadcast (<[t := CDone]> (q_conns s))))).
    { cbn. rewrite list_lookup_insert_eq by (by eapply lookup_lt_Some). by rewrite list_insert_insert_eq, Egate. }
    split; [|by eauto using trace]. split; cbn; rewrite ?El; try done.
    + eauto using conn_ok_step.
    + by rewrite Ei.
    + intros ch H1 H2. rewrite Ech by done. apply Ho; congruence.
  - injection E as <-. split; [|constructor]. apply gate_ok_wait; [done|]. unfold gate_waitIdle. destruct (_ =? 0); [done|]. by intros ch [= <-].
  - destruct (chan_closed _ _); [|done]. injection E as <-. split; [by apply gate_ok_wait|constructor].
  - injection E as <-. split; [by apply gate_ok_wait|constructor].
Qed.

Lemma quic_trace s tr s' :
  gate_ok s -> trace quic_exec s tr s' -> gate_ok s' /\ trace conn_exec (erase s) (concat (map erase_label tr)) (erase s').
Proof.
  intros Hok T. induction T as [s|s l s1 tr s2 E T IH]; [split; [done|constructor]|].
  destruct (quic_step _ _ _ Hok E) as [H1 T1]. destruct (IH H1) as [H2 T2]. split; [done|]. cbn. by eapply trace_app.
Qed.

(** The QUIC gate is the TCP limiter.  Every run of it is a run of the limiter
    on the same connections; a release never closes a channel twice; and the
    shutdown that waits for the connections waits for the right thing: as long
    as a connection is served the channel it holds is the current one and open,
    and once none is every channel it may hold is closed. *)
Theorem quic_gate_refines (cap : Z) (n m : nat) (tr : list quicLabel) (s : quicListener) :
  trace quic_exec (quic_init cap n m) tr s ->
  trace conn_exec (conn_init cap n) (concat (map erase_label tr)) (erase s) /\
  (forall t, q_conns s !! t = Some CServed -> is_Some (quic_exec s (QDone t))) /\
  (forall w ch, q_waits s !! w = Some (WOn ch) ->
     if total counts (q_conns s) =? 0 then is_Some (quic_exec s (QIdle w))
     else ch = idle (q_gate s) -> quic_exec s (QIdle w) = None).
Proof.
  intros T. destruct (quic_trace _ _ _ (gate_ok_init cap n m) T) as [Hok T']. pose proof Hok as [[Ha _] Hi Hf Ho Hw]. cbn in Ha.
  split_and!; [done| |].
  - intros t Ht. cbn. rewrite Ht. destruct (gate_release_ok _ _ Hok Ht) as (g & -> & _). eauto.
  - intros w ch Hch. cbn. rewrite Hch. rewrite <- Ha. destruct (active _ =? 0) eqn:E.
    + destruct (decide (ch = idle (q_gate s))) as [->|Hne]; [by rewrite Hf|]. rewrite Ho; eauto.
    + intros ->. by rewrite Hf.
Qed.

Definition demo_quic_run : list quicLabel :=
  [QConn (LAccept 0); QConn (LLock 0); QWait 0; QConn (LAccept 1); QConn (LLock 1); QDone 0; QIdle 0; QConn (LLock 1)].

Lemma quic_gate_refines_witness :
  exists s, exec_trace quic_exec (quic_init 1 2 1) demo_quic_run = Some s /\ q_waits s = [WIdle] /\ q_conns s = [CDone; CServed] /\
    trace conn_exec (conn_init 1 2) (concat (map erase_label demo_quic_run)) (erase s).
Proof.
  destruct (exec_trace quic_exec (quic_init 1 2 1) demo_quic_run) as [s|] eqn:E; [|by vm_compute in E].
  exists s. split; [done|]. split; [by vm_compute in E; injection E as <-|]. split; [by vm_compute in E; injection E as <-|].
  apply (quic_gate_refines 1 2 1 demo_quic_run s). by apply exec_trace_trace.
Defined.
