(* ===== verification/Cgi.v ===== *)
(** * CGI adapters: what an application server is told (src/internal/handler/fastcgi.go)

    The parameters a FastCGI or uWSGI application receives for a request, the
    script they name, and the uWSGI packet they travel in.  An application
    trusts these variables, so the identity among them is rebuilt from the
    listener's view of the connection and never from a request header.  The
    parameters gofast computes before fcgiScriptParams are an argument; a Go map
    is iterated in an unspecified order, the class [HeaderRange].  Paths are those of a Unix system. *)
From S2P Require Import Prelude GoStrings Bytes Netip Http ClientAddr Forwarded ClientUse CanonicalPath.

(** ** path.Clean and path.Join of the Go library *)

Fixpoint clean_segs (is_rooted : bool) (out segs : list gostring) : list gostring :=
  match segs with
  | [] => out
  | s :: segs =>
      if string_eqb s [] || string_eqb s dot then clean_segs is_rooted out segs
      else if string_eqb s dotdot then
        match last out with
        | Some d => clean_segs is_rooted (if string_eqb d dotdot then out ++ [dotdot] else removelast out) segs
        | None => clean_segs is_rooted (if is_rooted then out else out ++ [dotdot]) segs
        end
      else clean_segs is_rooted (out ++ [s]) segs
  end.

Definition path_Clean (p : gostring) : gostring :=
  match p with
  | [] => dot
  | c :: rest =>
      if c =? slash then rooted (clean_segs true [] (SplitByte rest slash))
      else match clean_segs false [] (SplitByte p slash) with [] => dot | out => JoinByte out slash end
  end.

Definition path_Join (a b : gostring) : gostring :=
  match a, b with
  | [], [] => []
  | [], _ => path_Clean b
  | _, _ => path_Clean (a ++ slash :: b)
  end.

(** ** The script *)

Definition scriptNameFor (urlPath : gostring) (index : list gostring) : gostring :=
  let clean := path_Clean (slash :: TrimLeft (fun c => c =? slash) urlPath) in
  if HasSuffix urlPath (str "/") || string_eqb clean (str "/")
  then path_Join clean (default (str "index.php") (head index))
  else clean.

(** ** The parameters *)

Notation params := (gmap gostring gostring).

(** The parts of a location the adapters read. *)
Record cgiLocation := MkCgiLocation { l_Root : gostring; l_Index : list gostring; l_FastCGIParams : params }.

(** A request: what net/http parsed, its protocol and declared length, the
    identity derived for it, and the certificate of its connection. *)
Record cgiRequest := MkCgiRequest {
  q_http : Request;
  q_Proto : gostring;
  q_ContentLength : Z;
  q_ctx : reqctx;
  q_cert : option PeerCertIdentity }.

Definition cgiIdentityPrefixes : list gostring := [str "HTTP_X_FORWARDED_"; str "HTTP_X_SSL_CLIENT_"; str "HTTP_SSL_CLIENT_"].
Definition cgiIdentityFields : list gostring :=
  [str "HTTP_FORWARDED"; str "HTTP_X_REAL_IP"; str "HTTP_CLIENT_CERT"; str "HTTP_CLIENT_CERT_CHAIN"; str "HTTP_X_FORWARDED_CLIENT_CERT";
   str "HTTP_X_CLIENT_CERT"; str "HTTP_X_CLIENT_VERIFY"].

Definition identity_prefix (name : gostring) : bool := existsb (HasPrefix name) cgiIdentityPrefixes.

Definition set_given (k v : gostring) (p : params) : params := if bool_decide (v = []) then p else <[k := v]> p.

Definition sanitizeCGIIdentityParams (p : params) (r : cgiRequest) : params :=
  let p := filter (fun kv => identity_prefix kv.1 = false) p in
  let p := foldl (fun p name => delete name p) p cgiIdentityFields in
  let '(client, peer) := forwardedAddrs (q_ctx r) in
  let p := if negb (bool_decide (client = [])) then <[str "REMOTE_ADDR" := client]> p else set_given (str "REMOTE_ADDR") peer p in
  let p := set_given (str "JUL_PEER_ADDR") peer p in
  let p := set_given (str "HTTP_X_FORWARDED_FOR") (forwardedChain client peer) p in
  let p := <[str "HTTP_X_FORWARDED_HOST" := r_Host (q_http r)]> p in
  let p := <[str "HTTP_X_FORWARDED_PROTO" := if r_TLS (q_http r) then str "https" else str "http"]> p in
  match q_cert r with
  | Some id => if bool_decide (pc_Raw id = []) then p else <[str "HTTP_CLIENT_CERT" := certItem (pc_Raw id)]> p
  | None => p
  end.

Definition set_script (loc : cgiLocation) (scriptName : gostring) (p : params) : params :=
  if bool_decide (l_Root loc = []) then p
  else <[str "SCRIPT_FILENAME" := path_Join (l_Root loc) scriptName]> (<[str "DOCUMENT_ROOT" := l_Root loc]> p).

(** FastCGI: what the script and the configuration add to the parameters
    computed so far. *)
Definition fcgiScriptParams (loc : cgiLocation) (r : cgiRequest) (p : params) : params :=
  let scriptName := scriptNameFor (r_Path (q_http r)) (l_Index loc) in
  let p := <[str "SCRIPT_NAME" := scriptName]> (set_script loc scriptName p) in
  l_FastCGIParams loc ∪ sanitizeCGIIdentityParams (delete (str "HTTP_PROXY") p) r.

(** [range] over a header visits every entry once, in some order. *)
Class HeaderRange := {
  visit : Header -> list (gostring * list gostring);
  visit_perm : forall h, visit h ≡ₚ map_to_list h
}.

Section Params.
Context `{Unicode} `{HeaderRange}.

Definition param_of (name : gostring) : gostring :=
  str "HTTP_" ++ ToUpper (map (fun c => if c =? 45 then 95 else c) name).

(** The parameters of the header entries, in the order they are visited. *)
Definition header_params (hs : list (gostring * list gostring)) (p : params) : params :=
  foldl (fun p nv => <[param_of nv.1 := join_comma_space nv.2]> p) p hs.

(** Everything but the parameters named after header fields. *)
Definition base_params (loc : cgiLocation) (r : cgiRequest) : params :=
  let h := q_http r in
  let p : params := list_to_map
    [(str "GATEWAY_INTERFACE", str "CGI/1.1"); (str "SERVER_SOFTWARE", str "jul"); (str "SERVER_PROTOCOL", q_Proto r);
     (str "REQUEST_METHOD", r_Method h); (str "REQUEST_URI", r_RequestURI h); (str "QUERY_STRING", r_RawQuery h);
     (str "CONTENT_TYPE", header_Get (r_Header h) (str "Content-Type")); (str "REDIRECT_STATUS", str "200")] in
  let p := if 0 <=? q_ContentLength r then <[str "CONTENT_LENGTH" := Itoa (q_ContentLength r)]> p else p in
  let '(host, port) := default (r_Host h, []) (SplitHostPort (r_Host h)) in
  let p := <[str "SERVER_PORT" := port]> (<[str "SERVER_NAME" := host]> p) in
  let '(client, peer) := forwardedAddrs (q_ctx r) in
  let p := <[str "REMOTE_ADDR" := if negb (bool_decide (client = [])) then client
                                  else if negb (bool_decide (peer = [])) then peer else rq_RemoteAddr (q_ctx r)]> p in
  let p := set_given (str "JUL_PEER_ADDR") peer p in
  let p := match SplitHostPort (rq_RemoteAddr (q_ctx r)) with Some (_, rp) => <[str "REMOTE_PORT" := rp]> p | None => p end in
  let p := if r_TLS h then <[str "HTTPS" := str "on"]> p else p in
  let p := <[str "REQUEST_SCHEME" := if r_TLS h then str "https" else str "http"]> p in
  let scriptName := scriptNameFor (r_Path h) (l_Index loc) in
  set_script loc scriptName (<[str "PATH_INFO" := r_Path h]> (<[str "SCRIPT_NAME" := scriptName]> p)).

Definition buildCGIParams (loc : cgiLocation) (r : cgiRequest) : params :=
  let p := header_params (visit (r_Header (q_http r))) (base_params loc r) in
  l_FastCGIParams loc ∪ sanitizeCGIIdentityParams (delete (str "HTTP_PROXY") p) r.
End Params.

(** ** The uWSGI packet *)

Definition le16 (n : Z) : list Z := [n mod 256; n / 256 mod 256].

Definition writeUWSGIVar (kv : gostring * gostring) : list Z :=
  le16 (zlen kv.1) ++ kv.1 ++ le16 (zlen kv.2) ++ kv.2.

(** The variables so far, and the loop that refuses what does not fit. *)
Fixpoint write_vars (vars : list Z) (l : list (gostring * gostring)) : option (list Z) :=
  match l with
  | [] => Some vars
  | (k, v) :: l =>
      if (65535 <? zlen k) || (65535 <? zlen v) || (65535 <? zlen vars + 4 + zlen k + zlen v) then None
      else write_vars (vars ++ writeUWSGIVar (k, v)) l
  end.

(** Everything [sendRequest] writes when no write fails. *)
Definition sendRequest (l : list (gostring * gostring)) (body : list Z) : option (list Z) :=
  vars ← write_vars [] l;
  Some ([0; zlen vars mod 256; zlen vars / 256 mod 256; 0] ++ vars ++ body).

(** ** The header fields whose parameters are not the client's *)

Section Transformed.
Context `{Unicode}.

Definition header_of (param : gostring) : gostring := map (fun c => if c =? 95 then 45 else c) (TrimPrefix param (str "HTTP_")).

(** [add]: a parameter without the prefix is left out; [None] is the end of the
    limit. *)
Definition add_header (limit : nat) (param : gostring) (taken : nat) (dst : list gostring) : option (list gostring) :=
  if negb (HasPrefix param (str "HTTP_")) then Some dst
  else if (limit <=? taken)%nat then None
  else Some (dst ++ [header_of param]).

Fixpoint add_headers (limit : nat) (others : nat) (l dst : list gostring) : list gostring * bool :=
  match l with
  | [] => (dst, true)
  | param :: l =>
      match add_header limit param (others + length dst) dst with
      | Some dst => add_headers limit others l dst
      | None => (dst, false)
      end
  end.

Definition override_param (param : gostring) : gostring :=
  let upper := ToUpper (TrimSpace param) in
  if string_eqb upper (str "CONTENT_TYPE") || string_eqb upper (str "CONTENT_LENGTH") then str "HTTP_" ++ upper else upper.

Definition CGITransformedRequestHeaders (loc : cgiLocation) (limit : Z) : list gostring * list gostring * bool :=
  if limit <=? 0 then ([], [], false)
  else
    let limit := Z.to_nat limit in
    let '(names, ok) := add_headers limit 0 cgiIdentityFields [] in
    if negb ok then (names, [], false)
    else
      let '(prefixes, ok) := add_headers limit (length names) cgiIdentityPrefixes [] in
      if negb ok then (names, prefixes, false)
      else
        let '(names, ok) := add_headers limit (length prefixes) [str "HTTP_HOST"; str "HTTP_PROXY"; str "HTTP_CONTENT_LENGTH"] names in
        if negb ok then (names, prefixes, false)
        else
          let keys := sort_Strings (map fst (map_to_list (l_FastCGIParams loc))) in
          let '(names, ok) := add_headers limit (length prefixes) (map override_param keys) names in
          (names, prefixes, ok).
End Transformed.

(** ** Paths stay below their root *)

Lemma clean_segs_app b l1 : forall out l2, clean_segs b out (l1 ++ l2) = clean_segs b (clean_segs b out l1) l2.
Proof.
  induction l1 as [|s l1 IH]; intros out l2; [done|]. cbn [app clean_segs].
  destruct (_ || _); [apply IH|]. destruct (string_eqb s dotdot); [destruct (last out)|]; apply IH.
Qed.

Lemma proper_tests s : proper s -> string_eqb s [] = false /\ string_eqb s dot = false /\ string_eqb s dotdot = false.
Proof. intros (H1 & H2 & H3). unfold string_eqb. by rewrite !bool_decide_false. Qed.

Lemma clean_segs_proper b segs : forall out, Forall proper segs -> clean_segs b out segs = out ++ segs.
Proof.
  induction segs as [|s segs IH]; intros out HP; cbn [clean_segs]; [by rewrite app_nil_r|]. apply Forall_cons in HP as [Hs HP].
  destruct (proper_tests s Hs) as (-> & -> & ->). cbn [orb]. rewrite IH by done. by rewrite <- app_assoc.
Qed.

(** A rooted path climbs no higher than the root. *)
Definition entry (s : gostring) : Prop := proper s /\ slash ∉ s.

Lemma clean_segs_entries segs : forall out,
  Forall (fun s => slash ∉ s) segs -> Forall entry out -> Forall entry (clean_segs true out segs).
Proof.
  induction segs as [|s segs IH]; intros out HN HO; cbn [clean_segs]; [done|]. apply Forall_cons in HN as [Hs HN].
  unfold string_eqb. case_bool_decide; cbn; [by apply IH|]. case_bool_decide; cbn; [by apply IH|]. case_bool_decide.
  - destruct (last out) as [d|] eqn:El; apply IH; try done. destruct out as [|x out] using rev_ind; [done|].
    rewrite last_snoc in El. injection El as <-. apply Forall_app in HO as [HO Hd]. apply Forall_singleton in Hd as [Hd _].
    rewrite bool_decide_false by apply Hd. by rewrite removelast_last.
  - apply IH; [done|]. apply Forall_app. split; [done|]. apply Forall_singleton. by repeat split.
Qed.

Lemma SplitByte_join segs : Forall entry segs -> exists l, SplitByte (JoinByte segs slash) slash = l /\ (l = segs \/ segs = [] /\ l = [[]]).
Proof.
  intros HE. eexists. split; [done|]. destruct segs; [by right|left]. apply SplitByte_JoinByte; [done|].
  eapply Forall_impl; [exact HE|]. by intros x [_ ?].
Qed.

Lemma clean_segs_joined b out segs : Forall entry segs -> clean_segs b out (SplitByte (JoinByte segs slash) slash) = out ++ segs.
Proof.
  intros HE. destruct (SplitByte_join segs HE) as (l & -> & [->|[-> ->]]); [|by rewrite app_nil_r].
  apply clean_segs_proper. eapply Forall_impl; [exact HE|]. by intros x [? _].
Qed.

Lemma path_Clean_rooted rest : exists segs, Forall entry segs /\ path_Clean (slash :: rest) = rooted segs.
Proof. eexists. split; [|cbn; reflexivity]. apply clean_segs_entries; [apply SplitByte_notin|done]. Qed.

(** What a cleaned path is made of. *)
Definition shown (absolute : bool) (segs : list gostring) : gostring :=
  if absolute then rooted segs else match segs with [] => dot | _ => JoinByte segs slash end.

Lemma path_Join_below root segs :
  root <> [] -> Forall entry segs ->
  exists dir, let absolute := bool_decide (head root = Some slash) in
    path_Clean root = shown absolute dir /\ path_Join root (rooted segs) = shown absolute (dir ++ segs).
Proof.
  intros Hne HE. destruct root as [|c rest]; [done|]. cbn [head].
  assert (forall b out, clean_segs b out (SplitByte (rooted segs) slash) = out ++ segs) as HR.
  { intros b out. unfold rooted. change (slash :: JoinByte segs slash) with ([] ++ slash :: JoinByte segs slash).
    rewrite SplitByte_app_sep, clean_segs_app. cbn [SplitByte clean_segs string_eqb orb]. by apply clean_segs_joined. }
  unfold path_Join, path_Clean. cbn [app]. destruct (c =? slash) eqn:E.
  - apply Z.eqb_eq in E as ->. rewrite bool_decide_true by done. exists (clean_segs true [] (SplitByte rest slash)). split; [done|].
    by rewrite SplitByte_app_sep, clean_segs_app, HR.
  - apply Z.eqb_neq in E. rewrite bool_decide_false by congruence. exists (clean_segs false [] (SplitByte (c :: rest) slash)).
    split; [by destruct (clean_segs _ _ _)|]. rewrite app_comm_cons, SplitByte_app_sep, clean_segs_app, HR. by destruct (_ ++ segs).
Qed.

Lemma scriptNameFor_rooted urlPath index : exists segs, Forall entry segs /\ scriptNameFor urlPath index = rooted segs.
Proof.
  unfold scriptNameFor. destruct (path_Clean_rooted (TrimLeft (fun c => c =? slash) urlPath)) as (segs & HE & ->).
  destruct (_ || _); [|by exists segs]. unfold path_Join, rooted at 1. apply path_Clean_rooted.
Qed.

(** ** The identity is the listener's *)

Definition identity_name (name : gostring) : bool := identity_prefix name || bool_decide (name ∈ cgiIdentityFields).

Definition given_value (v : gostring) : option gostring := if bool_decide (v = []) then None else Some v.

(** What the listener knows of the client, by parameter. *)
Definition identity_view (r : cgiRequest) (name : gostring) : option gostring :=
  if decide (name = str "HTTP_CLIENT_CERT") then q_cert r ≫= fun id => if bool_decide (pc_Raw id = []) then None else Some (certItem (pc_Raw id))
  else if decide (name = str "HTTP_X_FORWARDED_PROTO") then Some (if r_TLS (q_http r) then str "https" else str "http")
  else if decide (name = str "HTTP_X_FORWARDED_HOST") then Some (r_Host (q_http r))
  else if decide (name = str "HTTP_X_FORWARDED_FOR") then
    let '(client, peer) := forwardedAddrs (q_ctx r) in given_value (forwardedChain client peer)
  else None.

Lemma lookup_set_given k v p name :
  (set_given k v p) !! name = if decide (k = name) then (if bool_decide (v = []) then p !! name else Some v) else p !! name.
Proof. unfold set_given. case_bool_decide; [by case_decide|]. by rewrite lookup_insert. Qed.

Lemma lookup_delete_all (l : list gostring) : forall (p : params) name,
  foldl (fun p name => delete name p) p l !! name = if bool_decide (name ∈ l) then None else p !! name.
Proof.
  induction l as [|k l IH]; intros p name; cbn; [done|]. rewrite IH, lookup_delete.
  destruct (decide (k = name)) as [->|Hne]; [by rewrite (bool_decide_true (name ∈ name :: l)) by left; case_bool_decide|].
  case_bool_decide; [by rewrite bool_decide_true by (by right)|]. rewrite bool_decide_false; [done|]. by intros [->|?]%elem_of_cons.
Qed.

(** The parameters left after the purge of identity assertions. *)
Definition unclaimed (p : params) : params :=
  foldl (fun p name => delete name p) (filter (fun kv => identity_prefix kv.1 = false) p) cgiIdentityFields.

Lemma lookup_unclaimed p name : unclaimed p !! name = if identity_name name then None else p !! name.
Proof.
  unfold unclaimed, identity_name. rewrite lookup_delete_all. case_bool_decide; [by rewrite orb_true_r|]. rewrite orb_false_r.
  destruct (identity_prefix name) eqn:E.
  - apply map_lookup_filter_None. right. intros v _ E'. cbn [fst] in E'. congruence.
  - destruct (p !! name) as [v|] eqn:Ep; [by apply map_lookup_filter_Some|]. apply map_lookup_filter_None. by left.
Qed.

Lemma sanitize_identity p r name : identity_name name = true -> sanitizeCGIIdentityParams p r !! name = identity_view r name.
Proof.
  intros HI. unfold sanitizeCGIIdentityParams. fold (unclaimed p). unfold identity_view. destruct (forwardedAddrs _) as [client peer].
  assert (str "REMOTE_ADDR" <> name) as HR by (intros <-; by vm_compute in HI).
  assert (str "JUL_PEER_ADDR" <> name) as HJ by (intros <-; by vm_compute in HI).
  set (p1 := if negb _ then _ else _). assert (p1 !! name = None) as H1.
  { unfold p1. destruct (negb _); [rewrite lookup_insert_ne by done|rewrite lookup_set_given, decide_False by done]; by rewrite lookup_unclaimed, HI. }
  set (p2 := set_given (str "HTTP_X_FORWARDED_FOR") _ _).
  assert (p2 !! name = if decide (name = str "HTTP_X_FORWARDED_FOR") then given_value (forwardedChain client peer) else None) as H2.
  { unfold p2. rewrite lookup_set_given, lookup_set_given, (decide_False (P := str "JUL_PEER_ADDR" = name)), H1 by done. unfold given_value.
    destruct (decide (str "HTTP_X_FORWARDED_FOR" = name)) as [<-|Hne]; [by rewrite decide_True|]. rewrite decide_False; [done|congruence]. }
  clearbody p2.
  destruct (decide (name = str "HTTP_CLIENT_CERT")) as [->|Hc].
  - destruct (q_cert r) as [id|]; cbn [mbind option_bind]; [case_bool_decide|]; rewrite ?lookup_insert_eq; try done;
      rewrite !lookup_insert_ne by done; by rewrite H2.
  - assert (forall m : params, match q_cert r with Some id => if bool_decide (pc_Raw id = []) then m else <[str "HTTP_CLIENT_CERT" := certItem (pc_Raw id)]> m
      | None => m end !! name = m !! name) as HC.
    { intros m. destruct (q_cert r); [case_bool_decide|]; try done. by rewrite lookup_insert_ne. }
    rewrite HC, lookup_insert. destruct (decide (name = str "HTTP_X_FORWARDED_PROTO")) as [->|Hp]; [by rewrite decide_True|].
    rewrite decide_False, lookup_insert by congruence. destruct (decide (name = str "HTTP_X_FORWARDED_HOST")) as [->|Hh]; [by rewrite decide_True|].
    rewrite decide_False by congruence. done.
Qed.

Lemma set_given_union (k v : gostring) (p m : params) : set_given k v (p ∪ m) = set_given k v p ∪ m.
Proof. unfold set_given. case_bool_decide; [done|]. apply insert_union_l. Qed.

(** What the listener adds lies over what was not an identity claim. *)
Lemma sanitize_union p r : sanitizeCGIIdentityParams p r = sanitizeCGIIdentityParams ∅ r ∪ unclaimed p.
Proof.
  unfold sanitizeCGIIdentityParams. fold (unclaimed p). fold (unclaimed ∅). assert (unclaimed ∅ = ∅) as -> by done.
  destruct (forwardedAddrs _) as [client peer]. set (m := unclaimed p). clearbody m.
  set (p1 := if negb _ then _ else set_given _ _ m). set (p1' := if negb _ then _ else set_given _ _ ∅).
  assert (p1 = p1' ∪ m) as ->.
  { unfold p1, p1', set_given. do 2 case_bool_decide; cbn [negb]; by rewrite <- ?insert_union_l, ?(left_id_L ∅ (∪)). }
  clearbody p1'. rewrite !set_given_union, !insert_union_l. destruct (q_cert r); [case_bool_decide|]; try done. by rewrite insert_union_l.
Qed.

Lemma sanitize_same p p' r name : p !! name = p' !! name -> sanitizeCGIIdentityParams p r !! name = sanitizeCGIIdentityParams p' r !! name.
Proof. intros E. by rewrite (sanitize_union p), (sanitize_union p'), !lookup_union, !lookup_unclaimed, E. Qed.

(** The names it adds. *)
Definition added_names : list gostring :=
  [str "REMOTE_ADDR"; str "JUL_PEER_ADDR"; str "HTTP_X_FORWARDED_FOR"; str "HTTP_X_FORWARDED_HOST"; str "HTTP_X_FORWARDED_PROTO"; str "HTTP_CLIENT_CERT"].

Lemma set_given_other k v p name : k <> name -> p !! name = None -> set_given k v p !! name = None.
Proof. intros Hk Hp. unfold set_given. case_bool_decide; [done|]. by rewrite lookup_insert_ne. Qed.

Lemma sanitize_other r name : name ∉ added_names -> sanitizeCGIIdentityParams ∅ r !! name = None.
Proof.
  unfold added_names. rewrite !not_elem_of_cons. intros (H1 & H2 & H3 & H4 & H5 & H6 & _). unfold sanitizeCGIIdentityParams.
  destruct (forwardedAddrs _) as [client peer]. set (p1 := if negb _ then _ else _).
  assert (p1 !! name = None) as HP.
  { unfold p1. destruct (negb _); [rewrite lookup_insert_ne by congruence; done|]. by apply set_given_other; [congruence|]. }
  clearbody p1. set (p2 := <[str "HTTP_X_FORWARDED_PROTO" := _]> _). assert (p2 !! name = None) as HQ.
  { unfold p2. rewrite !lookup_insert_ne by congruence. by do 2 (apply set_given_other; [congruence|]). }
  clearbody p2. destruct (q_cert r); [case_bool_decide|]; try done. by rewrite lookup_insert_ne by congruence.
Qed.

Lemma sanitize_keeps p r name v :
  name ∉ added_names -> identity_name name = false -> p !! name = v -> sanitizeCGIIdentityParams p r !! name = v.
Proof. intros HA HI <-. rewrite sanitize_union, lookup_union_r by (by apply sanitize_other). by rewrite lookup_unclaimed, HI. Qed.

Lemma sanitize_proxy p r : sanitizeCGIIdentityParams (delete (str "HTTP_PROXY") p) r !! str "HTTP_PROXY" = None.
Proof. apply sanitize_keeps; [by apply (bool_decide_unpack _)|done|apply lookup_delete_eq]. Qed.

Section Identity.
Context `{Unicode} `{HeaderRange}.

Lemma header_params_other hs : forall p name, HasPrefix name (str "HTTP_") = false -> header_params hs p !! name = p !! name.
Proof.
  induction hs as [|[n vs] hs IH]; intros p name HP; [done|]. unfold header_params in *. cbn [foldl]. rewrite IH by done.
  apply lookup_insert_ne. intros <-. unfold param_of in HP. by rewrite HasPrefix_app in HP.
Qed.

(** The request with another header. *)
Definition with_header (r : cgiRequest) (h : Header) : cgiRequest :=
  let q := q_http r in
  MkCgiRequest (MkRequest (r_Method q) (r_Host q) (r_Path q) (r_RawPath q) (r_RawQuery q) (r_RequestURI q) h (r_TLS q))
    (q_Proto r) (q_ContentLength r) (q_ctx r) (q_cert r).

Lemma lookup_insert_step (m m' : params) k v name :
  (k <> name -> m !! name = m' !! name) -> <[k := v]> m !! name = <[k := v]> m' !! name.
Proof. intros E. destruct (decide (k = name)) as [->|Hk]; [by rewrite !lookup_insert_eq|]. rewrite !lookup_insert_ne by done. by apply E. Qed.

Lemma set_given_step (m m' : params) k v name : m !! name = m' !! name -> set_given k v m !! name = set_given k v m' !! name.
Proof. intros E. unfold set_given. case_bool_decide; [done|]. by apply lookup_insert_step. Qed.

Lemma if_step (b : bool) (m m' n n' : params) name :
  m !! name = m' !! name -> n !! name = n' !! name -> (if b then m else n) !! name = (if b then m' else n') !! name.
Proof. by destruct b. Qed.

Lemma set_script_step (loc : cgiLocation) (sn : gostring) (m m' : params) (name : gostring) : m !! name = m' !! name -> set_script loc sn m !! name = set_script loc sn m' !! name.
Proof. intros E. unfold set_script. case_bool_decide; [done|]. by do 2 (apply lookup_insert_step; intros _). Qed.

(** Every parameter but CONTENT_TYPE is independent of the header. *)
Lemma base_params_other loc r h name :
  name <> str "CONTENT_TYPE" -> base_params loc (with_header r h) !! name = base_params loc r !! name.
Proof.
  intros Hn. unfold base_params. cbn [with_header q_http q_Proto q_ContentLength q_ctx r_Method r_Host r_Path r_RawQuery r_RequestURI r_Header r_TLS].
  destruct (default _ _) as [host port], (forwardedAddrs _) as [client peer].
  set (m := if 0 <=? _ then _ else _). set (m' := if 0 <=? _ then _ else list_to_map _).
  assert (m !! name = m' !! name) as HM.
  { unfold m, m'. cbn [list_to_map foldr curry fst snd].
    apply if_step; repeat (apply lookup_insert_step; intros _); by rewrite !(lookup_insert_ne _ (str "CONTENT_TYPE")) by congruence. }
  clearbody m m'. apply set_script_step. do 3 (apply lookup_insert_step; intros _).
  apply if_step; [apply lookup_insert_step; intros _|]; (destruct (SplitHostPort _) as [[? rp]|]; [apply lookup_insert_step; intros _|]);
    apply set_given_step; do 3 (apply lookup_insert_step; intros _); exact HM.
Qed.

Lemma base_params_type loc r : base_params loc r !! str "CONTENT_TYPE" = Some (header_Get (r_Header (q_http r)) (str "Content-Type")).
Proof.
  unfold base_params. destruct (default _ _) as [host port], (forwardedAddrs _) as [client peer].
  set (m := if 0 <=? _ then _ else _). assert (m !! str "CONTENT_TYPE" = Some (header_Get (r_Header (q_http r)) (str "Content-Type"))) as HM.
  { unfold m. cbn [list_to_map foldr curry fst snd]. destruct (0 <=? _); rewrite !lookup_insert_ne by done; apply lookup_insert_eq. }
  clearbody m. unfold set_script, set_given. destruct (SplitHostPort _) as [[? rp]|]; case_bool_decide; case_bool_decide;
    destruct (r_TLS (q_http r)); rewrite !lookup_insert_ne by done; exact HM.
Qed.

(** C16: Unless the configuration sets it, no request header claims an identity: a
    parameter that applications take for the identity of the client is what the
    listener derived, for FastCGI over whatever parameters were computed before
    and for uWSGI over any header, visited in any order; a Proxy header reaches
    neither; and for uWSGI the parameters without the HTTP_ prefix (the remote
    address among them) are the same whatever the header holds, but for
    CONTENT_TYPE, which is its first Content-Type field. *)
Theorem cgi_identity_exact (loc : cgiLocation) (r : cgiRequest) (p : params) (name : gostring) :
  l_FastCGIParams loc !! name = None ->
  (identity_name name = true -> fcgiScriptParams loc r p !! name = identity_view r name /\ buildCGIParams loc r !! name = identity_view r name) /\
  (name = str "HTTP_PROXY" -> fcgiScriptParams loc r p !! name = None /\ buildCGIParams loc r !! name = None) /\
  (HasPrefix name (str "HTTP_") = false -> name <> str "CONTENT_TYPE" ->
   forall h, buildCGIParams loc (with_header r h) !! name = buildCGIParams loc r !! name) /\
  (name = str "CONTENT_TYPE" -> buildCGIParams loc r !! name = Some (header_Get (r_Header (q_http r)) (str "Content-Type"))).
Proof.
  intros HO. unfold fcgiScriptParams, buildCGIParams. rewrite !lookup_union_r by done. split_and!.
  - intros HI. split; by apply sanitize_identity.
  - intros ->. split; apply sanitize_proxy.
  - intros HP HC h. rewrite lookup_union_r by done. change (sanitizeCGIIdentityParams ?m (with_header r h)) with (sanitizeCGIIdentityParams m r).
    apply sanitize_same. rewrite !lookup_delete. case_decide; [done|]. rewrite !header_params_other by done. by apply base_params_other.
  - intros ->. apply sanitize_keeps; [by apply (bool_decide_unpack _)|done|]. rewrite lookup_delete_ne, header_params_other by done.
    apply base_params_type.
Qed.
End Identity.

(** ** The script lies below the root *)

(** The script of any request is a rooted path without dot segments, and its
    file is the cleaned document root followed by those segments. *)
Theorem cgi_script_confined (loc : cgiLocation) (r : cgiRequest) (p : params) :
  l_FastCGIParams loc !! str "SCRIPT_NAME" = None -> l_FastCGIParams loc !! str "SCRIPT_FILENAME" = None -> l_Root loc <> [] ->
  exists segs dir, let absolute := bool_decide (head (l_Root loc) = Some slash) in
    Forall entry segs /\ fcgiScriptParams loc r p !! str "SCRIPT_NAME" = Some (rooted segs) /\
    path_Clean (l_Root loc) = shown absolute dir /\ fcgiScriptParams loc r p !! str "SCRIPT_FILENAME" = Some (shown absolute (dir ++ segs)).
Proof.
  intros H1 H2 HR. destruct (scriptNameFor_rooted (r_Path (q_http r)) (l_Index loc)) as (segs & HE & ES).
  destruct (path_Join_below (l_Root loc) segs HR HE) as (dir & ED & EJ). exists segs, dir. cbv zeta.
  unfold fcgiScriptParams. rewrite !lookup_union_r by done. unfold set_script. rewrite (bool_decide_false (l_Root loc = [])) by done.
  split_and!; [done| |done|].
  - rewrite <- ES. apply sanitize_keeps; [by apply (bool_decide_unpack _)|done|]. by rewrite lookup_delete_ne, lookup_insert_eq.
  - rewrite <- EJ, <- ES. apply sanitize_keeps; [by apply (bool_decide_unpack _)|done|].
    by rewrite lookup_delete_ne, lookup_insert_ne, lookup_insert_eq.
Qed.

(** ** The packet is read back as it was written *)

(** A reader of the uWSGI protocol: the length of the variables, then pairs of
    length-prefixed strings. *)
Definition read_string (b : list Z) : option (gostring * list Z) :=
  match b with
  | lo :: hi :: b =>
      let n := Z.to_nat (lo + 256 * hi) in
      if (n <=? length b)%nat then Some (take n b, drop n b) else None
  | _ => None
  end.

Fixpoint read_vars (fuel : nat) (b : list Z) : option (list (gostring * gostring)) :=
  match fuel, b with
  | _, [] => Some []
  | O, _ => None
  | S fuel, _ =>
      '(k, b) ← read_string b;
      '(v, b) ← read_string b;
      l ← read_vars fuel b;
      Some ((k, v) :: l)
  end.

Definition uwsgi_read (pkt : list Z) : option (list (gostring * gostring) * list Z) :=
  match pkt with
  | _ :: lo :: hi :: _ :: b =>
      let n := Z.to_nat (lo + 256 * hi) in
      if (n <=? length b)%nat then l ← read_vars (length b) (take n b); Some (l, drop n b) else None
  | _ => None
  end.

Definition var_size (kv : gostring * gostring) : Z := 4 + zlen kv.1 + zlen kv.2.

Lemma le16_value n : 0 <= n <= 65535 -> n mod 256 + 256 * (n / 256 mod 256) = n.
Proof.
  intros Hn. rewrite (Z.mod_small (n / 256)) by (split; [apply Z.div_pos; lia|apply Z.div_lt_upper_bound; lia]).
  rewrite Z.add_comm. symmetry. by apply Z.div_mod.
Qed.

Lemma read_string_le16 s b : zlen s <= 65535 -> read_string (le16 (zlen s) ++ s ++ b) = Some (s, b).
Proof.
  intros Hs. unfold le16, read_string. cbn [app]. rewrite le16_value by (pose proof (zlen_nonneg s); lia). unfold zlen. rewrite Nat2Z.id.
  rewrite (proj2 (Nat.leb_le _ _)) by (rewrite length_app; lia). by rewrite take_app_length, drop_app_length.
Qed.

Lemma var_length kv : zlen (writeUWSGIVar kv) = var_size kv.
Proof. destruct kv as [k v]. unfold writeUWSGIVar, le16, var_size. rewrite !zlen_app, !zlen_cons. cbn [fst snd]. unfold zlen at 1 3. cbn. lia. Qed.

Lemma write_vars_spec l : forall vars, zlen vars <= 65535 ->
  write_vars vars l = if zlen vars + total var_size l <=? 65535 then Some (vars ++ concat (map writeUWSGIVar l)) else None.
Proof.
  induction l as [|[k v] l IH]; intros vars HV; cbn [write_vars map concat].
  - rewrite app_nil_r. cbn. by rewrite (proj2 (Z.leb_le _ _)) by lia.
  - cbn [total]. assert (0 <= total var_size l) as HT.
    { apply total_nonneg. intros [a b]. unfold var_size. cbn. pose proof (zlen_nonneg a). pose proof (zlen_nonneg b). lia. }
    unfold var_size at 1. cbn [fst snd]. pose proof (zlen_nonneg k). pose proof (zlen_nonneg v). pose proof (zlen_nonneg vars).
    destruct (_ || _) eqn:E; [by rewrite (proj2 (Z.leb_gt _ _)) by lia|].
    assert (zlen (vars ++ writeUWSGIVar (k, v)) = zlen vars + (4 + zlen k + zlen v)) as EL by (by rewrite zlen_app, var_length).
    rewrite IH by lia. rewrite EL, <- !app_assoc.
    by replace (zlen vars + (4 + zlen k + zlen v) + total var_size l) with (zlen vars + (4 + zlen k + zlen v + total var_size l)) by lia.
Qed.

Lemma read_vars_written l : forall fuel, Forall (fun kv => zlen kv.1 <= 65535 /\ zlen kv.2 <= 65535) l -> (length l <= fuel)%nat ->
  read_vars fuel (concat (map writeUWSGIVar l)) = Some l.
Proof.
  induction l as [|[k v] l IH]; intros fuel HF HL; [by destruct fuel|]. apply Forall_cons in HF as [[Hk Hv] HF]. cbn [fst snd] in *.
  destruct fuel as [|fuel]; [cbn in HL; lia|]. cbn [map concat]. unfold writeUWSGIVar at 1. cbn [fst snd].
  rewrite <- !app_assoc. cbn [read_vars]. rewrite read_string_le16 by done. cbn [mbind option_bind].
  rewrite read_string_le16 by done. cbn [mbind option_bind]. rewrite IH; [done|done|cbn in HL; lia].
Qed.

(** C35: A request whose variables fit 65535 bytes is sent, in whatever order they
    are visited, and read back exactly; one whose variables do not fit is
    refused. *)
Theorem uwsgi_packet_roundtrip (l : list (gostring * gostring)) (body : list Z) :
  match sendRequest l body with
  | Some pkt => total var_size l <= 65535 /\ uwsgi_read pkt = Some (l, body)
  | None => 65535 < total var_size l
  end.
Proof.
  unfold sendRequest. rewrite write_vars_spec by (by vm_compute). change (zlen [] + total var_size l) with (total var_size l).
  destruct (_ <=? _) eqn:E; cbn [mbind option_bind]; [|lia]. split; [lia|]. cbn [app]. set (vars := concat (map writeUWSGIVar l)).
  assert (forall kv, 0 <= var_size kv) as Hpos.
  { intros [a b]. unfold var_size. cbn. pose proof (zlen_nonneg a). pose proof (zlen_nonneg b). lia. }
  assert (zlen vars = total var_size l) as EL.
  { unfold vars. clear. induction l as [|kv l IH]; [done|]. cbn [map concat total]. by rewrite zlen_app, var_length, IH. }
  unfold uwsgi_read. rewrite le16_value by (pose proof (zlen_nonneg vars); lia). unfold zlen. rewrite Nat2Z.id.
  rewrite (proj2 (Nat.leb_le _ _)) by (rewrite length_app; lia). rewrite take_app_length, drop_app_length. unfold vars at 2.
  rewrite read_vars_written; [done|..].
  - apply Forall_forall. intros kv [i Hi]%list_elem_of_lookup. pose proof (total_lookup var_size i kv l Hpos Hi) as HT.
    change (var_size kv) with (4 + zlen kv.1 + zlen kv.2) in HT. pose proof (zlen_nonneg kv.1). pose proof (zlen_nonneg kv.2). lia.
  - assert (Z.of_nat (length l) <= total var_size l) as HL; [|rewrite length_app; unfold zlen in EL; lia].
    clear -Hpos. induction l as [|kv l IH]; [done|]. cbn [length total].
    change (var_size kv) with (4 + zlen kv.1 + zlen kv.2). pose proof (zlen_nonneg kv.1). pose proof (zlen_nonneg kv.2). lia.
Qed.

(** ** The list of rewritten fields is complete *)

Section Listed.
Context `{Unicode} `{HeaderRange}.

Lemma add_headers_all limit others l : forall dst names,
  add_headers limit others l dst = (names, true) ->
  (forall x, x ∈ dst -> x ∈ names) /\ (forall p, p ∈ l -> HasPrefix p (str "HTTP_") = true -> header_of p ∈ names).
Proof.
  induction l as [|q l IH]; intros dst names; cbn [add_headers]; [intros [= <-]; split; [done|by intros p ?%elem_of_nil]|].
  unfold add_header. destruct (HasPrefix q _) eqn:Eq; cbn [negb]; [destruct (_ <=? _)%nat; [done|]|].
  - intros [H1 H2]%IH. split; [intros x Hx; apply H1, elem_of_app; by left|]. intros p [->|Hp]%elem_of_cons Hpre; [|by apply H2].
    apply H1, elem_of_app. right. by apply list_elem_of_singleton.
  - intros [H1 H2]%IH. split; [done|]. intros p [->|Hp]%elem_of_cons Hpre; [congruence|by apply H2].
Qed.

(** Names without an underscore, as header fields have them. *)
Definition field_name (n : gostring) : Prop := forallb token_byte n = true /\ 95 ∉ n.

Definition upper (n : gostring) : gostring := map upper_byte n.
Definition dash_to_under (c : Z) : Z := if c =? 45 then 95 else c.
Definition under_to_dash (c : Z) : Z := if c =? 95 then 45 else c.

Lemma param_of_field n : field_name n -> param_of n = str "HTTP_" ++ map dash_to_under (upper n).
Proof.
  intros [Hn _]. unfold param_of. f_equal. assert (ascii (map (fun c => if c =? 45 then 95 else c) n) = true) as HA.
  { apply token_ascii in Hn as [Hn _]. unfold ascii in *. rewrite forallb_forall in *. intros c [x [<- Hx]]%in_map_iff.
    specialize (Hn x Hx). destruct (x =? 45); [done|]. done. }
  unfold ToUpper. rewrite HA. unfold upper. rewrite !map_map. apply map_ext. intros c. unfold upper_byte, dash_to_under.
  destruct (c =? 45) eqn:E; [apply Z.eqb_eq in E as ->; done|]. destruct (_ && _) eqn:E2; [|by rewrite E].
  by rewrite (proj2 (Z.eqb_neq (c - 32) 45)) by lia.
Qed.

Lemma header_of_param n : field_name n -> header_of (param_of n) = upper n.
Proof.
  intros Hn. rewrite param_of_field by done. unfold header_of. rewrite TrimPrefix_app, map_map. rewrite <- (map_id (upper n)) at 2.
  apply map_ext_in. intros c Hc. unfold dash_to_under. destruct (c =? 45) eqn:E; [by apply Z.eqb_eq in E as ->|].
  rewrite (proj2 (Z.eqb_neq c 95)); [done|]. intros ->. unfold upper in Hc. apply in_map_iff in Hc as (x & Hx & Hin).
  destruct Hn as [_ Hn]. apply Hn, list_elem_of_In. unfold upper_byte in Hx. destruct (_ && _) eqn:E2; [lia|by subst].
Qed.

Lemma HasPrefix_map f s p : HasPrefix s p = true -> HasPrefix (map f s) (map f p) = true.
Proof. rewrite !HasPrefix_spec. intros [t ->]. rewrite map_app. by eexists. Qed.

Lemma header_of_prefix n p : field_name n -> HasPrefix (param_of n) (str "HTTP_" ++ p) = true -> HasPrefix (upper n) (header_of (str "HTTP_" ++ p)) = true.
Proof.
  intros Hn HP. rewrite <- (header_of_param n Hn). unfold header_of. rewrite param_of_field in * by done. rewrite !TrimPrefix_app.
  apply HasPrefix_map. apply HasPrefix_spec in HP as [t E]. rewrite <- app_assoc in E. apply app_inv_head in E. rewrite E. apply HasPrefix_app.
Qed.

(** The parameter itself is upper-case text without spaces. *)
Lemma param_of_override n : field_name n -> override_param (param_of n) = param_of n.
Proof.
  intros Hn. rewrite param_of_field by done. unfold override_param.
  assert (forall c, c ∈ str "HTTP_" ++ map dash_to_under (upper n) -> 33 <= c < 127 /\ upper_byte c = c) as HC.
  { intros c [Hc|Hc]%elem_of_app; [revert c Hc; apply Forall_forall; by repeat constructor|].
    apply list_elem_of_In, in_map_iff in Hc as (x & <- & Hx). unfold upper in Hx. apply in_map_iff in Hx as (y & <- & Hy).
    destruct Hn as [Hn _]. rewrite forallb_forall in Hn. apply Hn, token_byte_range in Hy.
    assert (33 <= upper_byte y < 127 /\ upper_byte (upper_byte y) = upper_byte y) as [HU1 HU2].
    { unfold upper_byte. destruct ((97 <=? y) && _) eqn:E1; [|rewrite E1; lia]. split; [lia|]. by rewrite (proj2 (Z.leb_gt 97 (y - 32))) by lia. }
    unfold dash_to_under. by destruct (_ =? 45). }
  set (s := str "HTTP_" ++ _) in *. assert (ascii s = true) as HA.
  { unfold ascii. apply forallb_forall. intros c Hc%list_elem_of_In%HC. lia. }
  assert (TrimSpace s = s) as ->.
  { unfold TrimSpace. rewrite HA. apply Trim_id, Forall_forall. intros c [Hc _]%HC. unfold ascii_space. lia. }
  assert (ToUpper s = s) as ->.
  { unfold ToUpper. rewrite HA. rewrite <- (map_id s) at 2. apply map_ext_in. intros c Hc%list_elem_of_In. by apply HC. }
  unfold string_eqb. rewrite !bool_decide_false; [done| |]; unfold s; by intros [=].
Qed.

(** The parameter of a field that shares it with no other, in any order. *)
Lemma header_params_field hs n vs : forall p, (n, vs) ∈ hs -> (forall n' vs', (n', vs') ∈ hs -> param_of n' = param_of n -> vs' = vs) ->
  header_params hs p !! param_of n = Some (join_comma_space vs).
Proof.
  unfold header_params. induction hs as [|[m ws] hs IH] using rev_ind; intros p Hin HU; [by apply elem_of_nil in Hin|].
  rewrite foldl_app. cbn [foldl fst snd]. destruct (decide (param_of m = param_of n)) as [E|Hne].
  - rewrite E, lookup_insert_eq. rewrite (HU m ws); [done|apply elem_of_app; right; by left|done].
  - rewrite lookup_insert_ne by done. apply IH; [|intros n' vs' H'; apply HU, elem_of_app; by left].
    apply elem_of_app in Hin as [Hin|Hin%list_elem_of_singleton]; [done|]. congruence.
Qed.

(** When the list of rewritten fields is complete, a field that is not on it
    reaches the application as it came: its parameter is the field's value,
    unless another field of the header has the same parameter. *)
Theorem cgi_transformed_complete (loc : cgiLocation) (limit : Z) (names prefixes : list gostring) (r : cgiRequest)
    (n : gostring) (vs : list gostring) :
  CGITransformedRequestHeaders loc limit = (names, prefixes, true) -> field_name n ->
  upper n ∉ names -> Forall (fun p => HasPrefix (upper n) p = false) prefixes ->
  r_Header (q_http r) !! n = Some vs -> (forall n', is_Some (r_Header (q_http r) !! n') -> param_of n' = param_of n -> n' = n) ->
  buildCGIParams loc r !! param_of n = Some (join_comma_space vs).
Proof.
  unfold CGITransformedRequestHeaders. intros HT Hn Hnot Hpre Hfield Hone. destruct (limit <=? 0); [done|]. set (lim := Z.to_nat limit) in HT.
  destruct (add_headers lim 0 cgiIdentityFields []) as [n1 []] eqn:E1; cbn [negb] in HT; [|done].
  destruct (add_headers lim (length n1) cgiIdentityPrefixes []) as [p1 []] eqn:E2; cbn [negb] in HT; [|done].
  destruct (add_headers lim (length p1) _ n1) as [n2 []] eqn:E3 in HT; cbn [negb] in HT; [|done].
  destruct (add_headers lim (length p1) _ n2) as [n3 ok] eqn:E4 in HT. injection HT as -> -> ->.
  apply add_headers_all in E1 as [_ H1], E2 as [_ H2], E3 as [K3 H3], E4 as [K4 H4].
  assert (forall p, p ∈ cgiIdentityFields \/ p = str "HTTP_PROXY" \/ p ∈ map fst (map_to_list (l_FastCGIParams loc)) -> param_of n <> p) as HN.
  { intros p Hp <-. apply Hnot. rewrite <- (header_of_param n Hn). assert (HasPrefix (param_of n) (str "HTTP_") = true) as HH by apply HasPrefix_app.
    destruct Hp as [Hp|[Hp|Hp]]; [by apply K4, K3, H1|apply K4, H3; [rewrite Hp; right; left|done]|].
    apply H4; [|done]. rewrite <- (param_of_override n Hn) at 1. apply list_elem_of_In, in_map, list_elem_of_In. unfold sort_Strings. by rewrite merge_sort_Permutation. }
  assert (identity_name (param_of n) = false) as HI.
  { apply not_true_iff_false. unfold identity_name. rewrite orb_true_iff, bool_decide_eq_true. intros [HI|HI]; [|by eapply HN; [left|]].
    unfold identity_prefix in HI. apply existsb_exists in HI as (p & Hin & HP). apply list_elem_of_In in Hin.
    rewrite Forall_forall in Hpre. assert (exists q, p = str "HTTP_" ++ q) as [q ->].
    { assert (Forall (fun p => exists q, p = str "HTTP_" ++ q) cgiIdentityPrefixes) as HX by (repeat constructor; by eexists).
      rewrite Forall_forall in HX. by apply HX. }
    pose proof (Hpre _ (H2 _ Hin (HasPrefix_app _ _))) as HF. rewrite header_of_prefix in HF; done. }
  unfold buildCGIParams. rewrite lookup_union_r.
  - apply sanitize_keeps.
    + intros Ha. assert (identity_name (param_of n) = true \/ HasPrefix (param_of n) (str "HTTP_") = false) as [HJ|HJ].
      { revert Ha. generalize (param_of n). apply Forall_forall. unfold added_names. repeat constructor; (left; by vm_compute) || (right; by vm_compute). }
      * congruence.
      * unfold param_of in HJ. by rewrite HasPrefix_app in HJ.
    + exact HI.
    + rewrite lookup_delete_ne by (intros E; by eapply HN; [|symmetry; exact E]; right; left).
      apply header_params_field; [by rewrite visit_perm, elem_of_map_to_list|]. intros n' vs'.
      rewrite visit_perm, elem_of_map_to_list. intros Hn' E'. rewrite (Hone n' ltac:(by eexists) E') in Hn'. congruence.
  - apply eq_None_not_Some. intros [v Hv]. apply (HN (param_of n)); [|done]. right. right.
    apply list_elem_of_In, in_map_iff. exists (param_of n, v). split; [done|]. by apply list_elem_of_In, elem_of_map_to_list.
Qed.
End Listed.

(** ** A request *)

Definition demo_header_range : HeaderRange := {| visit := map_to_list; visit_perm := fun h => reflexivity _ |}.

Definition demo_cgi_location : cgiLocation := MkCgiLocation (str "/srv/www/") [] ∅.
Definition demo_cgi_request (h : Header) : cgiRequest :=
  MkCgiRequest (MkRequest (str "GET") (str "a.example") (str "/../x/../app/") [] [] (str "/") h false) (str "HTTP/1.1") 0
    (MkReqctx None (str "192.0.2.7:4711")) None.

(** A forged X_Forwarded_For does not reach the application. *)
Lemma cgi_identity_exact_witness :
  buildCGIParams (H := no_unicode) (H0 := demo_header_range) demo_cgi_location
    (demo_cgi_request {[ str "X_forwarded_for" := [str "6.6.6.6"] ]}) !! str "HTTP_X_FORWARDED_FOR" = Some (str "192.0.2.7").
Proof.
  destruct (cgi_identity_exact (H := no_unicode) (H0 := demo_header_range) demo_cgi_location
    (demo_cgi_request {[ str "X_forwarded_for" := [str "6.6.6.6"] ]}) ∅ (str "HTTP_X_FORWARDED_FOR"))
    as [HI _]; [done|]. rewrite (proj2 (HI eq_refl)). by vm_compute.
Defined.

Lemma cgi_script_confined_witness :
  exists segs dir, Forall entry segs /\ path_Clean (str "/srv/www/") = rooted dir /\
    fcgiScriptParams demo_cgi_location (demo_cgi_request ∅) ∅ !! str "SCRIPT_FILENAME" = Some (rooted (dir ++ segs)).
Proof.
  destruct (cgi_script_confined demo_cgi_location (demo_cgi_request ∅) ∅) as (segs & dir & H1 & _ & H2 & H3); [done|done|done|].
  exists segs, dir. split_and!; [exact H1|exact H2|exact H3].
Defined.

Lemma cgi_transformed_complete_witness :
  exists names prefixes, CGITransformedRequestHeaders (H := no_unicode) demo_cgi_location 64 = (names, prefixes, true) /\
    buildCGIParams (H := no_unicode) (H0 := demo_header_range) demo_cgi_location
      (demo_cgi_request {[ str "X-Trace" := [str "a"; str "b"] ]}) !! str "HTTP_X_TRACE" = Some (str "a, b").
Proof.
  destruct (CGITransformedRequestHeaders (H := no_unicode) demo_cgi_location 64) as [[names prefixes] ok] eqn:E.
  exists names, prefixes. vm_compute in E. injection E as <- <- <-. split; [done|].
  refine (cgi_transformed_complete (H := no_unicode) (H0 := demo_header_range) demo_cgi_location 64 _ _
    (demo_cgi_request {[ str "X-Trace" := [str "a"; str "b"] ]}) (str "X-Trace") [str "a"; str "b"] _ _ _ _ _ _);
    [by vm_compute|split; [by vm_compute|by apply (bool_decide_unpack _)]|by apply (bool_decide_unpack _)|by repeat constructor|by vm_compute|].
  intros n' [vs Hv] _. cbn [demo_cgi_request q_http r_Header] in Hv. by apply lookup_singleton_Some in Hv as [<- _].
Defined.
