(* ===== verification/CgiResponse.v ===== *)
(** * CGI responses (src/internal/handler/fastcgi.go)

    The reader of a CGI-style response, which a uWSGI application produces, and
    what the client is sent for it.  The backend's bytes are the whole of what it
    sends before its connection ends, in order or with a read error; the
    client's connection accepts every byte or fails after some.  [bufio.Reader]
    is given by its buffer of 4096 bytes. *)
From S2P Require Import Prelude GoStrings Bytes Netip Http ProxyProto CacheControl ClientUse.

(** ** Reading a line *)

Definition bufSize : nat := 4096.
Definition cgiResponseHeaderMax : Z := 65536.
Definition cgiResponseHeaderFields : nat := 256.

(** What a read ended with. *)
Inductive readEnd := EndNone | EndFull | EndStream.

(** [ReadSlice]: up to the first newline in the buffer, a full buffer without
    one, or what is left. *)
Definition ReadSlice (rest : list Z) : list Z * list Z * readEnd :=
  match IndexByte (take bufSize rest) 10 with
  | Some i => (take (S i) rest, drop (S i) rest, EndNone)
  | None => if (bufSize <=? length rest)%nat then (take bufSize rest, drop bufSize rest, EndFull) else (rest, [], EndStream)
  end.

(** A line, what follows it, the header bytes so far and whether the stream
    ended; [None] is a header that is too large. *)
Fixpoint readCGIHeaderLine (fuel : nat) (rest line : list Z) (total : Z) : option (list Z * list Z * Z * bool) :=
  match fuel with
  | O => None
  | S fuel =>
      let '(fragment, rest', e) := ReadSlice rest in
      if cgiResponseHeaderMax - total <? zlen fragment then None
      else
        let total := total + zlen fragment in
        match e with
        | EndFull => readCGIHeaderLine fuel rest' (line ++ fragment) total
        | EndNone => Some (line ++ fragment, rest', total, false)
        | EndStream => Some (line ++ fragment, rest', total, true)
        end
  end.

(** ** The response *)

Inductive cgiErr :=
| ErrHeaderTooLarge | ErrRead | ErrUnexpectedEOF | ErrStatusLine | ErrStatusCode | ErrHeaderLine | ErrFieldCount | ErrHeader
| ErrConflictingStatus | ErrEmptyStatus | ErrStatusHeader | ErrAmbiguousLength | ErrInvalidLength | ErrWrite.

Record cgiHead := MkHead { h_status : Z; h_seen : bool; h_header : Header; h_first : bool; h_fields : nat }.

Definition status_of (text : gostring) : option Z :=
  match Atoi text with Some code => if (code <? 200) || (599 <? code) then None else Some code | None => None end.

Section Response.
Context `{Unicode} `{HttpGuts}.

Definition line_end (c : Z) : bool := (c =? 13) || (c =? 10).
Definition TrimRight (cut : Z -> bool) (s : gostring) : gostring := rev (TrimLeft cut (rev s)).

(** One line of the header block. *)
Definition header_line (trimmed : gostring) (h : cgiHead) : cgiErr + cgiHead :=
  if h_first h && HasPrefix trimmed (str "HTTP/") then
    match Fields trimmed with
    | _ :: f :: _ =>
        match status_of f with
        | Some code => inr (MkHead code true (h_header h) false (h_fields h))
        | None => inl ErrStatusCode
        end
    | _ => inl ErrStatusLine
    end
  else
    match IndexByte trimmed 58 with
    | None | Some O => inl ErrHeaderLine
    | Some idx =>
        if (cgiResponseHeaderFields <? S (h_fields h))%nat then inl ErrFieldCount
        else
          let key := TrimSpace (take idx trimmed) in
          let val := TrimSpace (drop (S idx) trimmed) in
          if negb (ValidHeaderFieldName key) || negb (ValidHeaderFieldValue val) then inl ErrHeader
          else if EqualFold key (str "Status") then
            if h_seen h then inl ErrConflictingStatus
            else match Fields val with
            | [] => inl ErrEmptyStatus
            | f :: _ =>
                match status_of f with
                | Some code => inr (MkHead code true (h_header h) false (S (h_fields h)))
                | None => inl ErrStatusHeader
                end
            end
          else inr (MkHead (h_status h) (h_seen h) (header_Add (h_header h) key val) false (S (h_fields h)))
    end.

(** The header block, and what follows it. *)
Fixpoint read_head (fuel : nat) (eof : bool) (rest : list Z) (total : Z) (h : cgiHead) : cgiErr + cgiHead * list Z :=
  match fuel with
  | O => inl ErrRead
  | S fuel =>
      match readCGIHeaderLine (S (length rest)) rest [] total with
      | None => inl ErrHeaderTooLarge
      | Some (line, rest', total, ended) =>
          if ended && negb eof then inl ErrRead
          else if bool_decide (last line <> Some 10) then inl ErrUnexpectedEOF
          else
            let trimmed := TrimRight line_end line in
            if bool_decide (trimmed = []) then inr (h, rest')
            else match header_line trimmed h with
            | inl e => inl e
            | inr h => read_head fuel eof rest' total h
            end
      end
  end.

Definition hopFields : list gostring :=
  [str "Connection"; str "Proxy-Connection"; str "Keep-Alive"; str "TE"; str "Trailer"; str "Transfer-Encoding"; str "Upgrade";
   str "Proxy-Authenticate"; str "Proxy-Authorization"; str "X-Jul-WAF-Event"].

(** The fields the Connection fields name. *)
Definition nominated (h : Header) : list gostring :=
  concat (map (fun field => map TrimSpace (SplitByte field 44)) (header_Values h (str "Connection"))).

Definition end_to_end (h : Header) : Header := foldl header_Del (foldl header_Del h (nominated h)) hopFields.

Definition declared_length (h : Header) : cgiErr + option Z :=
  match header_Values h (str "Content-Length") with
  | [] => inr None
  | [v] => match ParseInt v with NumOk n => if n <? 0 then inl ErrInvalidLength else inr (Some n) | _ => inl ErrInvalidLength end
  | _ => inl ErrAmbiguousLength
  end.

(** What reached the client: the status and header, if written, the body, and
    the error returned. *)
Record cgiOut := MkOut { o_sent : option (Z * Header); o_body : list Z; o_err : option cgiErr }.

(** Copying to a client that accepts [room] bytes, all of them when [None]. *)
Definition copy_body (room : option nat) (body : list Z) (e : option cgiErr) : list Z * option cgiErr :=
  match room with
  | Some n => if (n <? length body)%nat then (take n body, Some ErrWrite) else (body, e)
  | None => (body, e)
  end.

(** The body: of the declared length, or up to the end of the stream. *)
Definition write_body (len : option Z) (body : list Z) (eof : bool) (room : option nat) : list Z * option cgiErr :=
  match len with
  | Some n =>
      if n <=? zlen body then copy_body room (take (Z.to_nat n) body) None
      else copy_body room body (Some (if eof then ErrUnexpectedEOF else ErrRead))
  | None => copy_body room body (if eof then None else Some ErrRead)
  end.

Definition writeCGIResponse (data : list Z) (eof : bool) (room : option nat) : cgiOut :=
  match read_head (S (length data)) eof data 0 (MkHead 200 false ∅ true 0) with
  | inl e => MkOut None [] (Some e)
  | inr (h, body) =>
      let header := end_to_end (h_header h) in
      match declared_length header with
      | inl e => MkOut None [] (Some e)
      | inr len =>
          let status := h_status h in
          let header := if status =? 204 then header_Del header (str "Content-Length") else header in
          if (status =? 204) || (status =? 304) then MkOut (Some (status, header)) [] None
          else
            let '(sent, e) := write_body len body eof room in
            MkOut (Some (status, header)) sent e
      end
  end.

(** ** What the client is sent *)

(** The tail of the uWSGI handler: a response that failed before anything was
    written becomes a 502, unless the client is gone. *)
Definition http_Error_header : Header :=
  <[str "Content-Type" := [str "text/plain; charset=utf-8"]]> (<[str "X-Content-Type-Options" := [str "nosniff"]]> ∅).

Definition uwsgi_respond (data : list Z) (eof : bool) (room : option nat) (cancelled : bool) : option (Z * Header) * list Z :=
  let out := writeCGIResponse data eof room in
  match o_sent out, o_err out with
  | None, Some _ =>
      if cancelled then (None, [])
      else (Some (502, http_Error_header), (copy_body room (str "502 Bad Gateway" ++ [10]) None).1)
  | _, _ => (o_sent out, o_body out)
  end.

(** How the attempt counts against the backend. *)
Inductive attemptClass := ClassCancelled | ClassClientGone | ClassProtocol | ClassSuccess.

Definition uwsgi_class (out : cgiOut) (cancelled : bool) : attemptClass :=
  if cancelled then ClassCancelled
  else match o_err out with
  | Some ErrWrite => ClassClientGone
  | Some _ => ClassProtocol
  | None => ClassSuccess
  end.
End Response.

(** ** Reading fragments reads lines *)

(** A line with its newline, or all that is left. *)
Definition first_line (rest : list Z) : list Z * list Z * bool :=
  match IndexByte rest 10 with
  | Some i => (take (S i) rest, drop (S i) rest, false)
  | None => (rest, [], true)
  end.

Lemma IndexByte_lt (s : gostring) c i : IndexByte s c = Some i -> (i < length s)%nat.
Proof.
  revert i. induction s as [|a s IH]; intros i; cbn; [done|]. destruct (a =? c); [intros [= <-]; lia|].
  destruct (IndexByte s c) as [j|]; cbn; [|done]. intros [= <-]. specialize (IH j eq_refl). lia.
Qed.

Lemma IndexByte_prefix (s t : gostring) c :
  IndexByte (s ++ t) c = match IndexByte s c with Some i => Some i | None => (Nat.add (length s)) <$> IndexByte t c end.
Proof.
  induction s as [|a s IH]; cbn; [by destruct (IndexByte t c)|]. destruct (a =? c); [done|]. rewrite IH.
  destruct (IndexByte s c); cbn; [done|]. by destruct (IndexByte t c).
Qed.

Lemma readCGIHeaderLine_exact fuel : forall rest line total,
  (length rest < fuel)%nat ->
  readCGIHeaderLine fuel rest line total =
    let '(l, rest', ended) := first_line rest in
    if total + zlen l <=? cgiResponseHeaderMax then Some (line ++ l, rest', total + zlen l, ended) else None.
Proof.
  induction fuel as [|fuel IH]; intros rest line total HF; [lia|]. cbn [readCGIHeaderLine]. unfold ReadSlice, first_line.
  pose proof (IndexByte_prefix (take bufSize rest) (drop bufSize rest) 10) as HI. rewrite take_drop in HI. rewrite HI.
  destruct (IndexByte (take bufSize rest) 10) as [i|].
  - set (l := take (S i) rest). destruct (_ <? _) eqn:E; [by rewrite (proj2 (Z.leb_gt _ _)) by lia|]. by rewrite (proj2 (Z.leb_le _ _)) by lia.
  - destruct (bufSize <=? length rest)%nat eqn:EB.
    + apply Nat.leb_le in EB. assert (length (take bufSize rest) = bufSize) as HL by (rewrite length_take; lia).
      rewrite HL. rewrite IH by (rewrite length_drop; unfold bufSize in *; lia). unfold first_line.
      set (f := take bufSize rest) in *. set (d := drop bufSize rest). assert (rest = f ++ d) as ER by (symmetry; apply take_drop).
      clearbody f d. subst rest. pose proof (zlen_nonneg f) as Hf.
      destruct (IndexByte d 10) as [j|]; cbn [fmap option_fmap option_map].
      * replace (S (bufSize + j)) with (length f + S j)%nat by lia. rewrite take_app_add, drop_app_add, zlen_app, app_assoc.
        pose proof (zlen_nonneg (take (S j) d)). destruct (_ <? _) eqn:E; [by rewrite (proj2 (Z.leb_gt _ _)) by lia|]. by rewrite Z.add_assoc.
      * rewrite zlen_app, app_assoc. pose proof (zlen_nonneg d).
        destruct (_ <? _) eqn:E; [by rewrite (proj2 (Z.leb_gt _ _)) by lia|]. by rewrite Z.add_assoc.
    + apply Nat.leb_gt in EB. rewrite drop_ge by lia. cbn.
      destruct (_ <? _) eqn:E; [by rewrite (proj2 (Z.leb_gt _ _)) by lia|]. by rewrite (proj2 (Z.leb_le _ _)) by lia.
Qed.

(** ** Sound responses *)

Section Sound.
Context `{Unicode} `{HttpGuts}.

Lemma first_line_app rest l rest' ended : first_line rest = (l, rest', ended) -> rest = l ++ rest'.
Proof.
  unfold first_line. destruct (IndexByte rest 10); intros [= <- <- _]; [by rewrite take_drop|by rewrite app_nil_r].
Qed.

Lemma status_of_range text code : status_of text = Some code -> 200 <= code <= 599.
Proof. unfold status_of. destruct (Atoi text); [|done]. destruct (_ || _) eqn:E; [done|]. intros [= <-]. lia. Qed.

Lemma header_line_status trimmed h h' : 200 <= h_status h <= 599 -> header_line trimmed h = inr h' -> 200 <= h_status h' <= 599.
Proof.
  intros Hs. unfold header_line. destruct (_ && _).
  - destruct (Fields trimmed) as [|? [|f ?]]; try done. destruct (status_of f) eqn:E; [|done]. intros [= <-]. by apply status_of_range in E.
  - destruct (IndexByte trimmed 58) as [[|idx]|]; try done. destruct (_ <? _)%nat; [done|]. destruct (_ || _); [done|].
    destruct (EqualFold _ _); [|by intros [= <-]]. destruct (h_seen h); [done|]. destruct (Fields _) as [|f ?]; [done|].
    destruct (status_of f) eqn:E; [|done]. intros [= <-]. by apply status_of_range in E.
Qed.

Lemma read_head_sound fuel eof : forall rest total h h' body,
  0 <= total -> 200 <= h_status h <= 599 -> read_head fuel eof rest total h = inr (h', body) ->
  200 <= h_status h' <= 599 /\ exists head, rest = head ++ body /\ total + zlen head <= cgiResponseHeaderMax.
Proof.
  induction fuel as [|fuel IH]; intros rest total h h' body Ht Hs; cbn [read_head]; [done|].
  rewrite readCGIHeaderLine_exact by lia. destruct (first_line rest) as [[l rest'] ended] eqn:EL. apply first_line_app in EL as ->.
  destruct (_ <=? _) eqn:EM; [|done]. cbn [app]. pose proof (zlen_nonneg l). destruct (_ && _); [done|]. case_bool_decide; [done|].
  case_bool_decide; [intros [= <- <-]; split; [done|]; exists l; split; [done|lia]|].
  destruct (header_line _ h) as [|h1] eqn:EH; [done|]. intros HR. apply header_line_status in EH; [|done].
  apply IH in HR as (Hs' & head & -> & Hh); [|lia|done]. split; [done|]. exists (l ++ head). rewrite app_assoc, zlen_app. split; [done|lia].
Qed.

Lemma header_Del_all l : forall h name, name ∈ l -> header_Values (foldl header_Del h l) name = [].
Proof.
  assert (forall l h k, h !! k = None -> foldl header_Del h l !! k = None) as HK.
  { clear. induction l as [|x l IH]; intros h k Hk; [done|]. cbn. apply IH. unfold header_Del. rewrite lookup_delete. by case_decide. }
  induction l as [|x l IH]; intros h name; [by intros ?%elem_of_nil|]. intros [->|Hn]%elem_of_cons; cbn; [|by apply IH].
  unfold header_Values. rewrite HK; [done|]. unfold header_Del. apply lookup_delete_eq.
Qed.

Lemma header_Del_keeps h name n : header_Values h n = [] -> header_Values (header_Del h name) n = [].
Proof. unfold header_Values, header_Del. rewrite lookup_delete. by case_decide. Qed.

Lemma header_Dels_keep l : forall h n, header_Values h n = [] -> header_Values (foldl header_Del h l) n = [].
Proof. induction l as [|x l IH]; intros h n Hn; [done|]. cbn. by apply IH, header_Del_keeps. Qed.

Lemma end_to_end_clean h n : n ∈ nominated h \/ n ∈ hopFields -> header_Values (end_to_end h) n = [].
Proof. intros [Hn|Hn]; unfold end_to_end; [by apply header_Dels_keep, header_Del_all|by apply header_Del_all]. Qed.

Lemma copy_body_prefix room body e : exists t, body = (copy_body room body e).1 ++ t.
Proof. unfold copy_body. destruct room as [n|]; [destruct (_ <? _)%nat|]; cbn; [exists (drop n body); by rewrite take_drop|by exists []; rewrite app_nil_r..]. Qed.

Lemma copy_body_done room body e : (copy_body room body e).2 = None -> (copy_body room body e).1 = body /\ e = None.
Proof. unfold copy_body. destruct room as [n|]; [destruct (_ <? _)%nat|]; done. Qed.

Lemma write_body_spec len body eof room :
  exists rest, body = (write_body len body eof room).1 ++ rest /\
    ((write_body len body eof room).2 = None ->
      match len with Some n => 0 <= n -> zlen (write_body len body eof room).1 = n | None => eof = true /\ rest = [] end).
Proof.
  destruct len as [n|]; cbn [write_body].
  - destruct (n <=? zlen body) eqn:En.
    + destruct (copy_body_prefix room (take (Z.to_nat n) body) None) as [t Ht]. exists (t ++ drop (Z.to_nat n) body).
      split; [by rewrite app_assoc, <- Ht, take_drop|]. intros [-> _]%copy_body_done Hn. unfold zlen in *. rewrite length_take. lia.
    + destruct (copy_body_prefix room body (Some (if eof then ErrUnexpectedEOF else ErrRead))) as [t Ht]. exists t.
      split; [done|]. by intros [_ ?]%copy_body_done.
  - destruct (copy_body_prefix room body (if eof then None else Some ErrRead)) as [t Ht]. exists t.
    split; [done|]. intros [E HE]%copy_body_done. rewrite E in Ht. split; [by destruct eof|].
    apply (app_inv_head body). by rewrite app_nil_r.
Qed.

Lemma declared_length_spec h len : declared_length h = inr len ->
  match header_Values h (str "Content-Length"), len with
  | [], None => True
  | [v], Some n => ParseInt v = NumOk n /\ 0 <= n
  | _, _ => False
  end.
Proof.
  unfold declared_length. destruct (header_Values _ _) as [|v [|]]; [by intros [= <-]| |done].
  destruct (ParseInt v) as [n| |]; [|done|done]. destruct (n <? 0) eqn:E; [done|]. intros [= <-]. split; [done|lia].
Qed.

(** C25: A response is written only after its whole header block has been read, of
    at most 64 KiB, with a final status, and without a hop-by-hop field or a
    field that its Connection fields name; its body is a prefix of what follows
    the block.  When no error is returned the body is complete: empty for 204 and
    304, of the declared length if one is declared, and otherwise all the backend
    sent before it closed the connection in order. *)
Theorem cgi_response_sound (data : list Z) (eof : bool) (room : option nat) :
  let out := writeCGIResponse data eof room in
  match o_sent out with
  | None => o_body out = [] /\ o_err out <> None
  | Some (status, header) =>
      200 <= status <= 599 /\
      (exists block head rest, read_head (S (length data)) eof data 0 (MkHead 200 false ∅ true 0) = inr (head, o_body out ++ rest) /\
        data = block ++ o_body out ++ rest /\ zlen block <= cgiResponseHeaderMax /\
        (forall n, n ∈ nominated (h_header head) \/ n ∈ hopFields -> header_Values header n = []) /\
        (o_err out = None ->
          if (status =? 204) || (status =? 304) then o_body out = []
          else match header_Values header (str "Content-Length") with
          | [] => eof = true /\ rest = []
          | [v] => ParseInt v = NumOk (zlen (o_body out))
          | _ => False
          end))
  end.
Proof.
  cbv zeta. unfold writeCGIResponse. destruct (read_head _ eof data 0 _) as [e|[head body]] eqn:ER; [done|].
  apply read_head_sound in ER as HS; [|done|cbn; lia]. destruct HS as (Hs & block & Hd & Hb).
  destruct (declared_length _) as [e|len] eqn:EL; [done|]. set (header := end_to_end (h_header head)) in *.
  assert (forall n, n ∈ nominated (h_header head) \/ n ∈ hopFields -> header_Values header n = []) as HN by apply end_to_end_clean.
  destruct ((h_status head =? 204) || (h_status head =? 304)) eqn:E4.
  - cbn. split; [done|]. exists block, head, body. split_and!; [done|done|lia| |by rewrite E4]. intros n Hn.
    destruct (h_status head =? 204); [|by apply HN]. by apply header_Del_keeps, HN.
  - rewrite (proj1 (orb_false_elim _ _ E4)). destruct (write_body_spec len body eof room) as (rest & Hrest & HW).
    destruct (write_body len body eof room) as [sent e]. cbn [o_sent o_body o_err fst snd] in *. split; [done|]. exists block, head, rest.
    rewrite <- Hrest. split_and!; [done|done|lia|done|]. intros ->. specialize (HW eq_refl). rewrite E4. apply declared_length_spec in EL.
    destruct (header_Values header (str "Content-Length")) as [|v [|]], len as [n|]; try done. destruct EL as [-> Hn]. by rewrite HW.
Qed.
End Sound.

(** ** A printed response is read back *)

Section Printed.
Context `{Unicode} `{HttpGuts}.

Definition print_field (kv : gostring * gostring) : gostring := (kv.1 ++ 58 :: 32 :: kv.2) ++ [13; 10].
Definition add_field (h : Header) (kv : gostring * gostring) : Header := header_Add h kv.1 kv.2.

Definition valid_field (kv : gostring * gostring) : Prop :=
  ValidHeaderFieldName kv.1 = true /\ ValidHeaderFieldValue kv.2 = true /\ ascii kv.2 = true /\ Trim ascii_space kv.2 = kv.2.

Lemma first_line_crlf x t : 10 ∉ x -> first_line ((x ++ [13; 10]) ++ t) = (x ++ [13; 10], t, false).
Proof.
  intros Hx. unfold first_line. assert ((x ++ [13; 10]) ++ t = (x ++ [13]) ++ 10 :: t) as -> by (by rewrite <- !app_assoc).
  rewrite IndexByte_app by (rewrite elem_of_app, list_elem_of_singleton; by intros [?|?]).
  assert (S (length (x ++ [13])) = length (x ++ [13; 10])) as -> by (rewrite !length_app; cbn; lia).
  assert ((x ++ [13]) ++ 10 :: t = (x ++ [13; 10]) ++ t) as -> by (by rewrite <- !app_assoc). by rewrite take_app_length, drop_app_length.
Qed.

Lemma TrimRight_crlf x : match last x with Some c => line_end c = false | None => True end -> TrimRight line_end (x ++ [13; 10]) = x.
Proof.
  intros Hx. unfold TrimRight. rewrite rev_app_distr. cbn. destruct x as [|c x _] using rev_ind; [done|].
  rewrite last_snoc in Hx. rewrite rev_app_distr. cbn. rewrite Hx. cbn. by rewrite rev_involutive.
Qed.

Lemma token_not_status k t : forallb token_byte k = true -> HasPrefix (k ++ 58 :: t) (str "HTTP/") = false.
Proof.
  intros Hk. apply not_true_iff_false. rewrite HasPrefix_spec. intros [u E].
  destruct k as [|a [|b [|c [|d [|e k]]]]]; try (by injection E). injection E as -> -> -> -> -> E. by vm_compute in Hk.
Qed.

Lemma valid_field_line kv : valid_field kv ->
  10 ∉ kv.1 ++ 58 :: 32 :: kv.2 /\ TrimRight line_end ((kv.1 ++ 58 :: 32 :: kv.2) ++ [13; 10]) = kv.1 ++ 58 :: 32 :: kv.2 /\
  IndexByte (kv.1 ++ 58 :: 32 :: kv.2) 58 = Some (length kv.1) /\ kv.1 <> [] /\
  TrimSpace kv.1 = kv.1 /\ TrimSpace (32 :: kv.2) = kv.2.
Proof.
  destruct kv as [k v]. intros (Hk & Hv & HA & HT). cbn [fst snd] in *. apply valid_name_token in Hk as [Hne Hk].
  assert (forall c, c ∈ k -> 33 <= c < 127 /\ c <> 58) as Hc.
  { intros c Hc. rewrite forallb_forall in Hk. apply list_elem_of_In, Hk in Hc. pose proof (token_byte_range c Hc). split; [done|]. intros ->. by vm_compute in Hc. }
  pose proof (valid_value_line v) as HL. split_and!; [..|done| |].
  - rewrite elem_of_app, !elem_of_cons. intros [Hx%Hc|[?|[?|Hx]]]; [lia|lia|lia|]. apply (HL 10) in Hx; [lia|done].
  - apply TrimRight_crlf. destruct v as [|c v _] using rev_ind; [by rewrite last_app|].
    assert (k ++ 58 :: 32 :: v ++ [c] = (k ++ 58 :: 32 :: v) ++ [c]) as -> by (by rewrite <- app_assoc). rewrite last_snoc.
    destruct (HL c Hv) as (_ & H1 & H2); [set_solver|]. unfold line_end. lia.
  - apply IndexByte_app. intros Hx%Hc. lia.
  - by apply token_ascii.
  - unfold TrimSpace. cbn [ascii forallb]. fold (ascii v). rewrite HA. exact HT.
Qed.

Lemma header_line_field kv h : valid_field kv -> (h_fields h < cgiResponseHeaderFields)%nat -> EqualFold kv.1 (str "Status") = false ->
  header_line (kv.1 ++ 58 :: 32 :: kv.2) h = inr (MkHead (h_status h) (h_seen h) (add_field (h_header h) kv) false (S (h_fields h))).
Proof.
  intros HV HF HS. destruct (valid_field_line kv HV) as (_ & _ & EI & Hne & ET & EV). destruct HV as (Hk & Hv & _). unfold header_line.
  rewrite token_not_status by (by apply valid_name_token). rewrite andb_false_r, EI. destruct (length kv.1) eqn:EL; [by destruct kv.1|].
  rewrite (proj2 (Nat.ltb_ge _ _)) by lia. rewrite <- EL, take_app_length.
  assert (drop (S (length kv.1)) (kv.1 ++ 58 :: 32 :: kv.2) = 32 :: kv.2) as ->.
  { rewrite (cons_middle 58), app_assoc. rewrite drop_app_length'; [done|]. rewrite length_app. cbn. lia. }
  by rewrite ET, EV, Hk, Hv, HS.
Qed.

Lemma header_line_Status val f fs code h : valid_field (str "Status", val) -> (h_fields h < cgiResponseHeaderFields)%nat -> h_seen h = false ->
  Fields val = f :: fs -> status_of f = Some code ->
  header_line (str "Status" ++ 58 :: 32 :: val) h = inr (MkHead code true (h_header h) false (S (h_fields h))).
Proof.
  intros HV HF Hseen EF ES. destruct (valid_field_line _ HV) as (_ & _ & EI & _ & _ & EV). destruct HV as (Hk & Hv & _). cbn [fst snd] in *. unfold header_line.
  rewrite token_not_status by (by apply valid_name_token). rewrite andb_false_r, EI. change (length (str "Status")) with 6%nat.
  rewrite (proj2 (Nat.ltb_ge _ _)) by lia. change (take 6 _) with (str "Status"). change (drop 7 _) with (32 :: val).
  assert (TrimSpace (str "Status") = str "Status") as -> by (by vm_compute).
  assert (EqualFold (str "Status") (str "Status") = true) as -> by (by vm_compute).
  by rewrite EV, Hk, Hv, Hseen, EF, ES.
Qed.

(** One step of the header block over a printed field. *)
Lemma read_head_field kv fuel eof t total h h' :
  valid_field kv -> header_line (kv.1 ++ 58 :: 32 :: kv.2) h = inr h' -> total + zlen (print_field kv) <= cgiResponseHeaderMax ->
  read_head (S fuel) eof (print_field kv ++ t) total h = read_head fuel eof t (total + zlen (print_field kv)) h'.
Proof.
  intros HV HL HT. destruct (valid_field_line kv HV) as (Hn & ET & _). cbn [read_head]. unfold print_field.
  rewrite readCGIHeaderLine_exact by lia. rewrite first_line_crlf by done. fold (print_field kv).
  rewrite (proj2 (Z.leb_le _ _)) by done. cbn [app andb]. rewrite (bool_decide_false (last _ <> _)).
  2: { unfold print_field. rewrite (app_assoc _ [13] [10]), last_snoc. by intros []. }
  change (TrimRight line_end ((kv.1 ++ 58 :: 32 :: kv.2) ++ [13; 10])) with (TrimRight line_end (print_field kv)) in ET.
  rewrite ET, bool_decide_false by (by destruct kv.1). by rewrite HL.
Qed.

Lemma read_head_fields l : forall fuel eof body total h,
  Forall valid_field l -> Forall (fun kv => EqualFold kv.1 (str "Status") = false) l -> (length l < fuel)%nat ->
  (h_fields h + length l <= cgiResponseHeaderFields)%nat -> total + zlen (concat (map print_field l)) + 2 <= cgiResponseHeaderMax -> 
  exists first n, read_head fuel eof (concat (map print_field l) ++ [13; 10] ++ body) total h =
    inr (MkHead (h_status h) (h_seen h) (foldl add_field (h_header h) l) first n, body).
Proof.
  induction l as [|kv l IH]; intros fuel eof body total h HV HS HF HN HT; (destruct fuel as [|fuel]; [cbn in HF; lia|]).
  - cbn [map concat app]. cbn [read_head]. rewrite readCGIHeaderLine_exact by lia.
    change (13 :: 10 :: body) with (([] ++ [13; 10]) ++ body). rewrite first_line_crlf by apply not_elem_of_nil.
    rewrite (proj2 (Z.leb_le _ _)) by (unfold zlen in *; cbn in *; lia). cbn. exists (h_first h), (h_fields h). by destruct h.
  - apply Forall_cons in HV as [Hkv HV]. apply Forall_cons in HS as [Hs HS]. cbn [map concat foldl length] in *. rewrite zlen_app in HT.
    pose proof (zlen_nonneg (concat (map print_field l))). rewrite <- app_assoc.
    erewrite read_head_field; [|done|apply header_line_field; [done|lia|done]|lia]. apply IH; try done; cbn; lia.
Qed.

(** A response printed with a Status field, valid fields and a body comes out
    with that status, the end-to-end fields and the whole body, as long as the
    header block keeps to the bounds. *)
Theorem cgi_response_roundtrip (val f : gostring) (fs : list gostring) (code : Z) (l : list (gostring * gostring)) (body : list Z) :
  valid_field (str "Status", val) -> Fields val = f :: fs -> status_of f = Some code -> code <> 204 -> code <> 304 ->
  Forall valid_field l -> Forall (fun kv => EqualFold kv.1 (str "Status") = false) l -> (length l < cgiResponseHeaderFields)%nat ->
  zlen (concat (map print_field ((str "Status", val) :: l))) + 2 <= cgiResponseHeaderMax ->
  header_Values (end_to_end (foldl add_field ∅ l)) (str "Content-Length") = [] ->
  writeCGIResponse (concat (map print_field ((str "Status", val) :: l)) ++ [13; 10] ++ body) true None =
    MkOut (Some (code, end_to_end (foldl add_field ∅ l))) body None.
Proof.
  intros HV EF ES H4 H3 HL HS HN HT HC. cbn [map concat] in *. rewrite zlen_app in HT. rewrite <- app_assoc.
  pose proof (zlen_nonneg (concat (map print_field l))). pose proof (zlen_nonneg (print_field (str "Status", val))).
  set (tail := concat (map print_field l) ++ [13; 10] ++ body). unfold writeCGIResponse.
  erewrite read_head_field; [|done|apply (header_line_Status val f fs code); [done|by apply Nat.ltb_lt|done|done|done]|lia].
  match goal with |- context [read_head ?fuel _ _ ?t ?h] => destruct (read_head_fields l fuel true body t h) as (first & n & ER) end;
    [done|done| |cbn [h_fields]; lia| |fold tail in ER; rewrite ER].
  - unfold tail. rewrite !length_app. assert (length l <= length (concat (map print_field l)))%nat; [|cbn [length]; lia]. clear. induction l as [|kv l IH]; [done|].
    cbn [map concat length]. unfold print_field at 1. rewrite !length_app. cbn. lia.
  - lia.
  - cbn [h_header h_status]. unfold declared_length. rewrite HC. rewrite (proj2 (Z.eqb_neq code 204)), (proj2 (Z.eqb_neq code 304)) by done. done.
Qed.
End Printed.

(** ** A response *)

Definition demo_fields : list (gostring * gostring) := [(str "Connection", str "X-A"); (str "X-A", str "1"); (str "X-B", str "2")].

Lemma cgi_response_roundtrip_witness :
  exists header, header_Values header (str "X-A") = [] /\ header_Values header (str "X-B") = [str "2"] /\
    writeCGIResponse (H := no_unicode) (H0 := demo_guts)
      (concat (map print_field ((str "Status", str "404 Not Found") :: demo_fields)) ++ [13; 10] ++ str "gone") true None =
    MkOut (Some (404, header)) (str "gone") None.
Proof.
  exists (end_to_end (H := no_unicode) (foldl add_field ∅ demo_fields)). split; [by vm_compute|]. split; [by vm_compute|].
  refine (cgi_response_roundtrip (H := no_unicode) (H0 := demo_guts) (str "404 Not Found") (str "404") [str "Not"; str "Found"] 404 demo_fields (str "gone")
    _ _ _ _ _ _ _ _ _ _); try done; repeat constructor; by vm_compute.
Defined.
