(* ===== verification/Attribution.v ===== *)
(** * Whose failure it was (src/internal/upstream/attribution.go, reason.go, body.go, inbound_body.go, dialfailure.go)

    Every attempt at a backend ends in a classification, which alone decides
    whether the attempt counts for or against the backend's health.  An error is
    what errors.Is and errors.As find in it; a context is its error and its
    deadline. *)
From S2P Require Import Prelude GoStrings Bytes Retry.

(** ** Errors and contexts *)

Record goErr := MkErr {
  is_overloaded : bool;
  is_retired : bool;
  is_capacity : bool;
  is_no_backend : bool;
  is_canceled : bool;
  is_deadline : bool;
  is_client_body : bool;
  is_tls_identity : bool;
  is_fd_limit : bool;
  is_net_timeout : bool;
  is_refused : bool;
  says_refused : bool }.

(** An error none of the tests recognises. *)
Definition plain_error : goErr := MkErr false false false false false false false false false false false false.
Definition err_canceled : goErr := MkErr false false false false true false false false false false false false.
Definition err_deadline : goErr := MkErr false false false false false true false false false true false false.
(** A [*ClientBodyError] around an error, which it unwraps to. *)
Definition client_body_error (e : goErr) : goErr :=
  MkErr (is_overloaded e) (is_retired e) (is_capacity e) (is_no_backend e) (is_canceled e) (is_deadline e) true (is_tls_identity e) (is_fd_limit e)
    (is_net_timeout e) (is_refused e) (says_refused e).

Inductive ctxErr := Canceled | DeadlineExceeded.
Record context := MkContext { c_Err : option ctxErr; c_Deadline : option Z }.

Definition ctx_error (e : ctxErr) : goErr := match e with Canceled => err_canceled | DeadlineExceeded => err_deadline end.

(** ** Reasons *)

Inductive Reason :=
| ReasonUpstreamUnavailable | ReasonCircuitOpen | ReasonProxyOverloaded | ReasonBackendAtCapacity | ReasonUpstreamConnectFailed | ReasonUpstreamTimeout
| ReasonUpstreamTLSIdentity | ReasonRetryBudgetExhausted | ReasonRetryDeadlineExhausted | ReasonRequestNotReplayable | ReasonClientCancelled
| ReasonClientDeadline | ReasonClientRequestBody.

Definition StatusFromLastAttempt : Z := 0.

(** The table of statuses and gRPC codes. *)
Definition reasonTable : list (Reason * Z * Z) :=
  [(ReasonUpstreamUnavailable, 503, 14); (ReasonCircuitOpen, 503, 14); (ReasonProxyOverloaded, 503, 14); (ReasonBackendAtCapacity, 503, 14);
   (ReasonUpstreamConnectFailed, 502, 14); (ReasonUpstreamTimeout, 504, 4); (ReasonUpstreamTLSIdentity, 502, 14);
   (ReasonRetryBudgetExhausted, StatusFromLastAttempt, 0); (ReasonRetryDeadlineExhausted, 504, 4); (ReasonRequestNotReplayable, StatusFromLastAttempt, 0);
   (ReasonClientCancelled, 499, 1); (ReasonClientDeadline, 504, 4); (ReasonClientRequestBody, 400, 3)].

#[export] Instance Reason_eq_dec : EqDecision Reason.
Proof. solve_decision. Defined.

Definition table_row (r : Reason) : option (Reason * Z * Z) := List.find (fun row => bool_decide (row.1.1 = r)) reasonTable.
Definition HTTPStatus (r : Reason) : Z := match table_row r with Some row => row.1.2 | None => 502 end.
Definition GRPCCode (r : Reason) : Z := match table_row r with Some row => row.2 | None => 14 end.
Definition RetryAfter (r : Reason) : bool := bool_decide (r = ReasonProxyOverloaded).

(** [None] is the empty reason. *)
Definition ReasonFor (err : option goErr) (inbound : option context) : option Reason :=
  match err with
  | None => None
  | Some e =>
      if is_overloaded e || is_retired e then Some ReasonProxyOverloaded
      else if is_capacity e then Some ReasonBackendAtCapacity
      else if is_no_backend e then Some ReasonUpstreamUnavailable
      else match inbound ≫= c_Err with
      | Some Canceled => Some ReasonClientCancelled
      | Some DeadlineExceeded => Some ReasonClientDeadline
      | None =>
          if is_client_body e then Some ReasonClientRequestBody
          else if is_tls_identity e then Some ReasonUpstreamTLSIdentity
          else if is_canceled e then Some ReasonRetryDeadlineExhausted
          else if is_deadline e then Some ReasonUpstreamTimeout
          else if is_net_timeout e then Some ReasonUpstreamTimeout
          else Some ReasonUpstreamConnectFailed
      end
  end.

Definition ReasonForStop (stop : StopReason) (err : option goErr) (inbound : option context) : option Reason :=
  match stop with
  | StopBudget => Some ReasonRetryBudgetExhausted
  | StopNotRetryable | StopResponseStarted => Some ReasonRequestNotReplayable
  | StopDeadline => Some ReasonRetryDeadlineExhausted
  | StopCancelled => ReasonFor (Some err_canceled) inbound
  | StopNoBackend => match ReasonFor err inbound with Some r => Some r | None => Some ReasonUpstreamUnavailable end
  | _ => ReasonFor err inbound
  end.

(** ** Dial failures *)

Inductive dialReason := DialNoBackend | DialTimeout | DialRefused | DialOther | DialOverloaded | DialShutdown.

Definition ClassifyDialError (e : goErr) : dialReason :=
  if is_no_backend e then DialNoBackend
  else if is_deadline e then DialTimeout
  else if is_net_timeout e then DialTimeout
  else if is_refused e then DialRefused
  else if says_refused e then DialRefused
  else DialOther.

Definition ClassifyAdmissionError (e : goErr) : dialReason :=
  if is_overloaded e then DialOverloaded else if is_retired e || is_canceled e then DialShutdown else ClassifyDialError e.

(** ** Classifications *)

Inductive FailureOrigin :=
| OriginSuccess | OriginClientCancellation | OriginClientDeadline | OriginClientRequest | OriginJulTimeout | OriginJulPolicy | OriginBackendTransport
| OriginBackendIdentity | OriginBackendProtocol | OriginBackendApplication.

Inductive HealthConsequence := HealthNeutral | HealthFailure | HealthSuccess.

Record AttemptClassification := MkClass { cl_origin : FailureOrigin; cl_reason : option Reason; cl_health : HealthConsequence }.

Definition SuccessfulAttempt : AttemptClassification := MkClass OriginSuccess None HealthSuccess.
Definition BackendApplicationResult : AttemptClassification := MkClass OriginBackendApplication None HealthSuccess.
Definition ClientCancellationResult : AttemptClassification := MkClass OriginClientCancellation (Some ReasonClientCancelled) HealthNeutral.
Definition JulPolicyFailure (r : option Reason) : AttemptClassification := MkClass OriginJulPolicy r HealthNeutral.
Definition client_deadline : AttemptClassification := MkClass OriginClientDeadline (Some ReasonClientDeadline) HealthNeutral.
Definition jul_timeout : AttemptClassification := MkClass OriginJulTimeout (Some ReasonRetryDeadlineExhausted) HealthNeutral.

Definition BackendProtocolFailure (r : option Reason) : AttemptClassification :=
  MkClass OriginBackendProtocol (Some (default ReasonUpstreamConnectFailed r)) HealthFailure.

Definition deadlineReached (c : option context) (now : Z) : bool :=
  match c ≫= c_Deadline with Some d => d <=? now | None => false end.

Definition ClassifyAttemptError (now : Z) (err : option goErr) (inbound attempt : option context) : AttemptClassification :=
  match err with
  | None => SuccessfulAttempt
  | Some e =>
      match inbound ≫= c_Err with
      | Some Canceled => ClientCancellationResult
      | Some DeadlineExceeded => client_deadline
      | None =>
          if is_deadline e && deadlineReached inbound now then client_deadline
          else if is_deadline e && deadlineReached attempt now then jul_timeout
          else match attempt ≫= c_Err with
          | Some _ => jul_timeout
          | None =>
              if is_client_body e then MkClass OriginClientRequest (Some ReasonClientRequestBody) HealthNeutral
              else if is_tls_identity e then MkClass OriginBackendIdentity (Some ReasonUpstreamTLSIdentity) HealthNeutral
              else if is_fd_limit e then JulPolicyFailure (Some ReasonProxyOverloaded)
              else MkClass OriginBackendTransport
                     (Some (if is_deadline e then ReasonUpstreamTimeout else if is_net_timeout e then ReasonUpstreamTimeout else ReasonUpstreamConnectFailed))
                     HealthFailure
          end
      end
  end.

Definition ClassifyProtocolError (now : Z) (err : option goErr) (inbound attempt : option context) : AttemptClassification :=
  let c := ClassifyAttemptError now err inbound attempt in
  match cl_origin c with
  | OriginBackendTransport => MkClass OriginBackendProtocol (cl_reason c) (cl_health c)
  | _ => c
  end.

(** The call that [RecordAttempt] makes on the pool. *)
Inductive healthCall := CallMarkFailure | CallMarkSuccess | CallReleaseProbe.
Definition RecordAttempt (c : AttemptClassification) : healthCall :=
  match cl_health c with HealthFailure => CallMarkFailure | HealthSuccess => CallMarkSuccess | HealthNeutral => CallReleaseProbe end.

(** ** The inbound body *)

(** The watcher keeps the first read error other than the end of the body. *)
Record InboundBody := MkInbound { ib_err : option goErr }.

Inductive readResult := ReadData | ReadEOF | ReadFailed (e : goErr).

Definition inbound_Read (b : InboundBody) (r : readResult) : InboundBody :=
  match r, ib_err b with ReadFailed e, None => MkInbound (Some e) | _, _ => b end.

(** [None] for a request without a body. *)
Definition Attribute (b : option InboundBody) (err : option goErr) : option goErr :=
  match b, err with
  | Some b, Some e => match ib_err b with Some be => Some (client_body_error be) | None => Some e end
  | _, _ => err
  end.

(** ** The response body *)

(** The length a backend owes, [-1] for none. *)
Definition OwedBodyLength (head : bool) (status contentLength : Z) : Z :=
  if head then -1 else if (status <? 200) || (status =? 204) || (status =? 304) then -1 else contentLength.

(** The bytes seen and the verdict, once there is one. *)
Record attemptBody := MkBody { ab_expected : Z; ab_read : Z; ab_verdict : option AttemptClassification }.

Definition finish (c : AttemptClassification) (b : attemptBody) : attemptBody :=
  match ab_verdict b with Some _ => b | None => MkBody (ab_expected b) (ab_read b) (Some c) end.

(** One call: what the body underneath did, the contexts and the time. *)
Inductive bodyOp :=
| BRead (n : Z) (r : readResult) (inbound attempt : option context) (now : Z)
| BWrite (err : option goErr) (inbound attempt : option context) (now : Z)
| BClose (err : option goErr) (inbound attempt : option context) (now : Z).

Definition body_Read (n : Z) (r : readResult) (inbound attempt : option context) (now : Z) (b : attemptBody) : attemptBody :=
  let b := MkBody (ab_expected b) (ab_read b + n) (ab_verdict b) in
  let seen := ab_read b in
  let eof := match r with ReadEOF => true | _ => false end in
  if eof && (0 <=? ab_expected b) && (seen <? ab_expected b) then finish (ClassifyAttemptError now (Some plain_error) inbound attempt) b
  else if eof || (0 <=? ab_expected b) && (ab_expected b <=? seen) then finish SuccessfulAttempt b
  else match r with ReadFailed e => finish (ClassifyAttemptError now (Some e) inbound attempt) b | _ => b end.

Definition body_Close (err : option goErr) (inbound attempt : option context) (now : Z) (b : attemptBody) : attemptBody :=
  if (0 <=? ab_expected b) && (ab_expected b <=? ab_read b) then finish SuccessfulAttempt b
  else match inbound ≫= c_Err with
  | Some e => finish (ClassifyAttemptError now (Some (ctx_error e)) inbound attempt) b
  | None =>
      match attempt ≫= c_Err with
      | Some e => finish (ClassifyAttemptError now (Some (ctx_error e)) inbound attempt) b
      | None => finish (match err with Some e => ClassifyAttemptError now (Some e) inbound attempt | None => JulPolicyFailure None end) b
      end
  end.

Definition body_op (b : attemptBody) (o : bodyOp) : attemptBody :=
  match o with
  | BRead n r inbound attempt now => body_Read n r inbound attempt now b
  | BWrite (Some e) inbound attempt now => finish (ClassifyAttemptError now (Some e) inbound attempt) b
  | BWrite None _ _ _ => b
  | BClose err inbound attempt now => body_Close err inbound attempt now b
  end.

Definition WrapAttemptBody (expected : Z) : attemptBody := MkBody expected 0 None.

(** ** Health changes only for what the backend did *)

Definition live (c : option context) : Prop := c ≫= c_Err = None.

(** An error that is the backend's, at a time, under the two contexts. *)
Definition backend_owned (now : Z) (e : goErr) (inbound attempt : option context) : Prop :=
  live inbound /\ live attempt /\
  (is_deadline e = true -> deadlineReached inbound now = false /\ deadlineReached attempt now = false) /\
  is_client_body e = false /\ is_tls_identity e = false /\ is_fd_limit e = false.

Lemma classify_health now e inbound attempt :
  cl_health (ClassifyAttemptError now (Some e) inbound attempt) <> HealthSuccess /\
  (cl_health (ClassifyAttemptError now (Some e) inbound attempt) = HealthFailure <-> backend_owned now e inbound attempt) /\
  (cl_health (ClassifyAttemptError now (Some e) inbound attempt) = HealthFailure <-> cl_origin (ClassifyAttemptError now (Some e) inbound attempt) = OriginBackendTransport).
Proof.
  unfold ClassifyAttemptError, backend_owned, live. destruct (inbound ≫= c_Err) as [[]|]; [by split_and!; intuition done..|].
  destruct (is_deadline e), (deadlineReached inbound now), (deadlineReached attempt now), (attempt ≫= c_Err) as [|], (is_client_body e), (is_tls_identity e), (is_fd_limit e);
    cbn; split_and!; intuition done.
Qed.

Lemma classify_failure now e inbound attempt :
  cl_health (ClassifyAttemptError now (Some e) inbound attempt) = HealthFailure <-> backend_owned now e inbound attempt.
Proof. apply classify_health. Qed.

(** C17: An attempt counts against a backend exactly when it failed with an error of
    the backend's: not when the client has left or its deadline has passed, not
    when jul gave up, not for an unreadable request body, a certificate mismatch
    or a lack of descriptors; and it counts for a backend exactly when there was no
    error.  The refinement for protocol errors changes neither. *)
Theorem attribution_exact (now : Z) (err : option goErr) (inbound attempt : option context) :
  let call c := RecordAttempt (c now err inbound attempt) in
  (call ClassifyAttemptError = CallMarkFailure <-> exists e, err = Some e /\ backend_owned now e inbound attempt) /\
  (call ClassifyAttemptError = CallMarkSuccess <-> err = None) /\
  call ClassifyProtocolError = call ClassifyAttemptError /\
  (call ClassifyProtocolError = CallMarkFailure <-> cl_origin (ClassifyProtocolError now err inbound attempt) = OriginBackendProtocol).
Proof.
  cbv zeta. destruct err as [e|].
  - destruct (classify_health now e inbound attempt) as (H1 & H2 & H3). unfold RecordAttempt, ClassifyProtocolError.
    destruct (ClassifyAttemptError now (Some e) inbound attempt) as [o r h] eqn:E. cbn [cl_health cl_origin] in *.
    assert (o <> OriginBackendProtocol) as Ho.
    { intros ->. unfold ClassifyAttemptError in E. repeat case_match; discriminate. }
    split_and!.
    + split.
      * intros Hc. exists e. split; [done|]. apply H2. by destruct h.
      * intros (e' & [= <-] & Hb). apply H2 in Hb as ->. done.
    + destruct h; split; done.
    + by destruct o, h.
    + destruct o, h; cbn; split; try done; intros HX; exfalso;
        first [by apply Ho|discriminate (proj1 H3 eq_refl)|discriminate (proj2 H3 eq_refl)].
  - split_and!; try done; split; try done. by intros (e & ? & _).
Qed.

(** ** One verdict, when the body's fate is known *)

Definition op_bytes (o : bodyOp) : Z := match o with BRead n _ _ _ _ => n | _ => 0 end.
Definition is_close (o : bodyOp) : Prop := match o with BClose _ _ _ _ => True | _ => False end.

(** What was owed has been read. *)
Definition paid (expected seen : Z) : Prop := 0 <= expected <= seen.

(** The calls that settle the fate of the body, by the bytes read up to and with
    them: a read that fails, reaches the end or completes what is owed, a write
    that fails, and the close. *)
Definition settles (expected seen : Z) (o : bodyOp) : Prop :=
  match o with
  | BRead _ ReadData _ _ _ => paid expected seen
  | BRead _ _ _ _ _ | BWrite (Some _) _ _ _ | BClose _ _ _ _ => True
  | BWrite None _ _ _ => False
  end.

(** When such a call speaks for the backend: what was owed has come, or the body
    of a response that owed nothing has ended. *)
Definition rewards (expected seen : Z) (o : bodyOp) : Prop :=
  match o with
  | BRead _ ReadEOF _ _ _ => expected < 0 \/ paid expected seen
  | BRead _ _ _ _ _ | BClose _ _ _ _ => paid expected seen
  | BWrite _ _ _ _ => False
  end.

(** And when against it: the body ended short, or the call failed with an error
    of the backend's before what was owed had come. *)
Definition blames (expected seen : Z) (o : bodyOp) : Prop :=
  match o with
  | BRead _ ReadData _ _ _ => False
  | BRead _ ReadEOF i a now => 0 <= expected /\ seen < expected /\ backend_owned now plain_error i a
  | BRead _ (ReadFailed e) i a now | BClose (Some e) i a now => ~ paid expected seen /\ backend_owned now e i a
  | BWrite (Some e) i a now => backend_owned now e i a
  | _ => False
  end.

(** A call on a body, with the calls before and after it. *)
Definition occurs (ops pre : list bodyOp) (o : bodyOp) (post : list bodyOp) : Prop := ops = pre ++ o :: post.

Definition unsettled (expected : Z) (ops : list bodyOp) : Prop :=
  forall pre o post, occurs ops pre o post -> ~ settles expected (total op_bytes (pre ++ [o])) o.

Definition judged (expected seen : Z) (o : bodyOp) (c : AttemptClassification) : Prop :=
  settles expected seen o /\ (cl_health c = HealthSuccess <-> rewards expected seen o) /\
  (cl_health c = HealthFailure <-> blames expected seen o).

Definition body_ok (expected : Z) (ops : list bodyOp) (b : attemptBody) : Prop :=
  ab_expected b = expected /\ ab_read b = total op_bytes ops /\
  match ab_verdict b with
  | None => unsettled expected ops
  | Some c => exists pre o post, occurs ops pre o post /\ unsettled expected pre /\ judged expected (total op_bytes (pre ++ [o])) o c
  end.

Lemma judged_error expected seen o now e i a :
  settles expected seen o -> ~ rewards expected seen o -> (backend_owned now e i a <-> blames expected seen o) ->
  judged expected seen o (ClassifyAttemptError now (Some e) i a).
Proof.
  intros H1 H2 H3. destruct (classify_health now e i a) as (K1 & K2 & _). split_and!; [done|by split|]. by rewrite K2.
Qed.

Lemma judged_success expected seen o :
  settles expected seen o -> rewards expected seen o -> ~ blames expected seen o -> judged expected seen o SuccessfulAttempt.
Proof. intros H1 H2 H3. by split_and!. Qed.

(** The first call that settles the fate decides. *)
Lemma read_judged expected rd n r i a now :
  let b := body_Read n r i a now (MkBody expected rd None) in
  ab_expected b = expected /\ ab_read b = rd + n /\
  match ab_verdict b with
  | None => ~ settles expected (rd + n) (BRead n r i a now)
  | Some c => judged expected (rd + n) (BRead n r i a now) c
  end.
Proof.
  unfold body_Read. cbn [ab_expected ab_read ab_verdict]. destruct r as [| |e]; cbn [andb orb].
  - destruct (_ && _) eqn:E; cbn [finish ab_verdict ab_expected ab_read]; (split; [done|]; split; [done|]).
    + apply judged_success; cbn; unfold paid; [lia|lia|tauto].
    + cbn. unfold paid. lia.
  - destruct (_ && _) eqn:E; cbn [finish ab_verdict ab_expected ab_read]; (split_and!; [done|done|]).
    + apply judged_error; cbn; unfold paid; [done|lia|]. split; [intros Hb; split_and!; [lia|lia|done]|tauto].
    + apply judged_success; cbn; unfold paid; [done|lia|lia].
  - destruct (_ && _) eqn:E; cbn [finish ab_verdict ab_expected ab_read]; (split_and!; [done|done|]).
    + apply judged_success; cbn; unfold paid; [done|lia|]. intros [Hp _]. lia.
    + apply judged_error; cbn; unfold paid; [done|lia|]. split; [intros Hb; split; [lia|done]|tauto].
Qed.

Lemma close_judged expected rd err i a now :
  let b := body_Close err i a now (MkBody expected rd None) in
  ab_expected b = expected /\ ab_read b = rd /\ exists c, ab_verdict b = Some c /\ judged expected rd (BClose err i a now) c.
Proof.
  unfold body_Close. cbn [ab_expected ab_read]. destruct (_ && _) eqn:E; cbn [finish ab_verdict].
  - split_and!; [done|done|]. eexists. split; [done|]. apply judged_success; cbn; unfold paid; [done|lia|]. destruct err; [intros [Hp _]; lia|tauto].
  - assert (~ paid expected rd) as HN by (unfold paid; lia).
    assert (forall ei, judged expected rd (BClose err i a now) (ClassifyAttemptError now (Some (ctx_error ei)) i a) \/ live i /\ live a) as HJ.
    { intros ei. destruct (decide (i ≫= c_Err = None)) as [Hi|Hi]; [destruct (decide (a ≫= c_Err = None)) as [Ha|Ha]; [by right|]|];
        left; (apply judged_error; [done|done|]); split; try (by intros (? & ? & _)); destruct err; try done; by intros (_ & ? & ? & _). }
    destruct (i ≫= c_Err) as [ei|] eqn:Ei; [|destruct (a ≫= c_Err) as [ea|] eqn:Ea]; cbn [finish ab_verdict]; (split_and!; [done|done|]); eexists; (split; [done|]).
    + destruct (HJ ei) as [?|[Hl _]]; [done|]. unfold live in Hl. congruence.
    + destruct (HJ ea) as [?|[_ Hl]]; [done|]. unfold live in Hl. congruence.
    + destruct err as [e|]; [apply judged_error; cbn; tauto|]. split_and!; cbn; [done|split; [done|tauto]|done].
Qed.

Lemma body_op_judged expected rd o :
  let b := body_op (MkBody expected rd None) o in
  ab_expected b = expected /\ ab_read b = rd + op_bytes o /\
  match ab_verdict b with None => ~ settles expected (rd + op_bytes o) o | Some c => judged expected (rd + op_bytes o) o c end.
Proof.
  destruct o as [n r i a now|[e|] i a now|err i a now]; cbn [body_op op_bytes]; rewrite ?Z.add_0_r.
  - apply read_judged.
  - cbn [finish ab_verdict ab_expected ab_read]. split_and!; [done|done|]. apply judged_error; cbn; tauto.
  - cbn. tauto.
  - destruct (close_judged expected rd err i a now) as (H1 & H2 & c & -> & H3). done.
Qed.

Lemma body_verdict_stays b o c : ab_verdict b = Some c -> ab_verdict (body_op b o) = Some c.
Proof.
  intros Hv. assert (forall d e r, ab_verdict (finish d (MkBody e r (Some c))) = Some c) as HF by done. destruct b as [e r v]. cbn in Hv. subst v.
  destruct o as [n [] i a now|[] i a now|[] i a now]; cbn [body_op]; unfold body_Read, body_Close; repeat case_match; try done; apply HF.
Qed.

Lemma body_op_fields b o : ab_expected (body_op b o) = ab_expected b /\ ab_read (body_op b o) = ab_read b + op_bytes o.
Proof.
  assert (forall d b, ab_expected (finish d b) = ab_expected b /\ ab_read (finish d b) = ab_read b) as HF.
  { intros d b'. unfold finish. by destruct (ab_verdict b'). }
  destruct o as [n [] i a now|[] i a now|[] i a now]; cbn [body_op op_bytes]; unfold body_Read, body_Close; repeat case_match;
    rewrite ?(proj1 (HF _ _)), ?(proj2 (HF _ _)); cbn; rewrite ?Z.add_0_r; done.
Qed.

Lemma occurs_snoc ops o pre x post :
  occurs (ops ++ [o]) pre x post -> (pre = ops /\ x = o) \/ exists post', occurs ops pre x post'.
Proof.
  unfold occurs. destruct post as [|y post] using rev_ind.
  - intros [-> [= ->]]%app_inj_tail_iff. by left.
  - clear IHpost. rewrite app_comm_cons, app_assoc. intros [-> _]%app_inj_tail_iff. right. by exists post.
Qed.

Lemma body_ok_step expected ops b o : body_ok expected ops b -> body_ok expected (ops ++ [o]) (body_op b o).
Proof.
  intros (E1 & E2 & HV). destruct (body_op_fields b o) as [F1 F2]. rewrite E1 in F1. rewrite E2 in F2.
  assert (total op_bytes ops + op_bytes o = total op_bytes (ops ++ [o])) as ET by (rewrite total_app; cbn; lia).
  split_and!; [done|by rewrite F2|]. destruct (ab_verdict b) as [c|] eqn:EV.
  - rewrite (body_verdict_stays b o c EV). destruct HV as (pre & x & post & HO & HR). exists pre, x, (post ++ [o]). split; [|done].
    unfold occurs in *. rewrite HO, <- app_assoc. done.
  - destruct b as [ex rd v]. cbn in E1, E2, EV. subst ex rd v. destruct (body_op_judged expected (total op_bytes ops) o) as (_ & _ & HJ). rewrite ET in HJ.
    destruct (ab_verdict (body_op _ o)) as [c|]; [by exists ops, o, []|].
    intros pre x post [[-> ->]|[post' Hx]]%occurs_snoc; [done|by eapply HV].
Qed.


