(* ===== verification/UwsgiAttempt.v ===== *)
(** * The verdict on a uWSGI attempt (src/internal/handler/fastcgi.go)

    What the uWSGI adapter tells the pool of an attempt: before the response, for
    a body that cannot be rewound, a failed dial or a failed send, and after it,
    by the fate of the response.  The theorems compose the packet, the response
    reader and the attribution of failures. *)
From S2P Require Import Prelude GoStrings Bytes Netip Http CacheControl ClientUse Retry Attribution Cgi CgiResponse.

(** ** The attempt *)

(** What [sendRequest] returns: the refusal of an oversized variable block, which
    is an error of its own, or the first failure of the connection or of the
    client's body. *)
Definition send_error (vars : list (gostring * gostring)) (body : list Z) (io : option goErr) : option goErr :=
  match sendRequest vars body with None => Some plain_error | Some _ => io end.

(** The recorded classification, and whether the attempt is the one kept. *)
Record attempt := MkAttempt { at_recorded : option AttemptClassification; at_err : option goErr; at_terminal : bool; at_retained : bool }.

Definition uwsgi_attempt (now : Z) (inbound ctx : option context) (n : Z) (rewind dial : option goErr)
    (vars : list (gostring * gostring)) (body : list Z) (io : option goErr) : attempt :=
  match (if 1 <? n then rewind else None) with
  | Some e => MkAttempt (Some (JulPolicyFailure (Some ReasonRequestNotReplayable))) (Some e) true false
  | None =>
      match dial with
      | Some e => MkAttempt (Some (ClassifyAttemptError now (Some e) inbound ctx)) (Some e) false false
      | None =>
          match send_error vars body io with
          | Some e => MkAttempt (Some (ClassifyProtocolError now (Some e) inbound ctx)) (Some e) false false
          | None => MkAttempt None None false true
          end
      end
  end.

(** ** After the response *)

Section Verdict.
Context `{Unicode} `{HttpGuts}.

(** The error of [writeCGIResponse] as the attribution sees it; a read error is
    the connection's own. *)
Definition response_error (read_err : goErr) (e : cgiErr) : goErr := match e with ErrRead => read_err | _ => plain_error end.

Definition uwsgi_verdict (now : Z) (inbound : option context) (read_err : goErr) (data : list Z) (eof : bool) (room : option nat) : AttemptClassification :=
  match inbound ≫= c_Err with
  | Some e => ClassifyAttemptError now (Some (ctx_error e)) inbound inbound
  | None =>
      match o_err (writeCGIResponse data eof room) with
      | Some ErrWrite => ClientCancellationResult
      | Some e => ClassifyProtocolError now (Some (response_error read_err e)) inbound inbound
      | None => SuccessfulAttempt
      end
  end.

Lemma protocol_health now e inbound ctx :
  cl_health (ClassifyProtocolError now (Some e) inbound ctx) = cl_health (ClassifyAttemptError now (Some e) inbound ctx).
Proof. unfold ClassifyProtocolError. cbv zeta. by destruct (ClassifyAttemptError _ _ _ _) as [[] ? ?]. Qed.

Lemma plain_blamed now inbound ctx : live inbound -> live ctx -> cl_health (ClassifyAttemptError now (Some plain_error) inbound ctx) = HealthFailure.
Proof. intros Hi Hc. apply classify_failure. by split_and!. Qed.

(** A response counts for the backend only if it was forwarded without an error,
    and against it only if the client is still there, took every byte it was
    sent, and the response was malformed, short or cut off. *)
Theorem uwsgi_verdict_sound (now : Z) (inbound : option context) (read_err : goErr) (data : list Z) (eof : bool) (room : option nat) :
  let out := writeCGIResponse data eof room in
  match cl_health (uwsgi_verdict now inbound read_err data eof room) with
  | HealthSuccess => live inbound /\ o_err out = None
  | HealthFailure => live inbound /\ exists e, o_err out = Some e /\ e <> ErrWrite /\ backend_owned now (response_error read_err e) inbound inbound
  | HealthNeutral => True
  end.
Proof.
  cbv zeta. unfold uwsgi_verdict. destruct (inbound ≫= c_Err) as [e|] eqn:Ei.
  - destruct (cl_health _) eqn:EH; [done|..].
    + apply classify_failure in EH as [Hl _]. unfold live in Hl. congruence.
    + by destruct (classify_health now (ctx_error e) inbound inbound).
  - destruct (o_err _) as [e|]; [|done].
    assert (e <> ErrWrite -> match cl_health (ClassifyProtocolError now (Some (response_error read_err e)) inbound inbound) with
      | HealthNeutral => True
      | HealthFailure => live inbound /\ (exists e0, Some e = Some e0 /\ e0 <> ErrWrite /\ backend_owned now (response_error read_err e0) inbound inbound)
      | HealthSuccess => live inbound /\ Some e = None end) as HP.
    { intros Hw. rewrite protocol_health. destruct (classify_health now (response_error read_err e) inbound inbound) as (H1 & H2 & _).
      destruct (cl_health _); [done| |done]. split; [done|]. exists e. split; [done|]. split; [done|]. by apply H2. }
    destruct e; try (by apply HP). done.
Qed.

(** ** Failures that are not the backend's *)

(** C39: A request whose variables do not fit the packet fails in jul, before
    anything is sent, and an unreadable request body is the client's; both are
    recorded as failures of every backend that is tried.  The reverse proxy's
    watcher would attribute the second to the client.  And the response to a HEAD
    request that declares the length of the body it rightly leaves out is
    recorded as truncated, where [OwedBodyLength] owes it nothing. *)
Theorem uwsgi_blames_backend (now : Z) (inbound ctx : option context) (vars vars' : list (gostring * gostring)) (body : list Z) (e : goErr) :
  live inbound -> live ctx -> 65535 < total var_size vars -> total var_size vars' <= 65535 ->
  is_deadline e = false -> is_client_body e = false -> is_tls_identity e = false -> is_fd_limit e = false ->
  (cl_health <$> at_recorded (uwsgi_attempt now inbound ctx 1 None None vars body None) = Some HealthFailure) /\
  (cl_health <$> at_recorded (uwsgi_attempt now inbound ctx 1 None None vars' body (Some e)) = Some HealthFailure) /\
  cl_health (ClassifyAttemptError now (Attribute (Some (inbound_Read (MkInbound None) (ReadFailed e))) (Some e)) inbound ctx) = HealthNeutral /\
  (forall data head v n, read_head (S (length data)) true data 0 (MkHead 200 false ∅ true 0) = inr (head, []) -> h_status head = 200 ->
    header_Values (end_to_end (h_header head)) (str "Content-Length") = [v] -> ParseInt v = NumOk n -> 0 < n ->
    cl_health (uwsgi_verdict now inbound plain_error data true None) = HealthFailure /\ OwedBodyLength true 200 n = -1).
Proof.
  intros Hi Hc Hbig Hfit H1 H2 H3 H4.
  assert (forall v b, sendRequest v b = None <-> 65535 < total var_size v) as HS.
  { intros v b. unfold sendRequest. rewrite write_vars_spec by (by vm_compute). change (zlen [] + total var_size v) with (total var_size v).
    destruct (_ <=? _) eqn:E; cbn; split; (done || lia). }
  split_and!.
  - unfold uwsgi_attempt, send_error. cbn [Z.ltb]. rewrite (proj2 (HS vars body) Hbig). cbn. f_equal. rewrite protocol_health. by apply plain_blamed.
  - unfold uwsgi_attempt, send_error. cbn [Z.ltb]. destruct (sendRequest vars' body) eqn:E; [|apply HS in E; lia]. cbn. f_equal. rewrite protocol_health.
    apply classify_failure. split_and!; try done. congruence.
  - cbn [inbound_Read ib_err Attribute]. unfold ClassifyAttemptError. unfold live in *. rewrite Hi, Hc. cbn. by rewrite H1.
  - intros data head v n HR HT HL HP Hn. split; [|done]. unfold uwsgi_verdict. pose proof Hi as Hi'. unfold live in Hi. rewrite Hi.
    unfold writeCGIResponse, declared_length. rewrite HR, HL, HP, HT. rewrite (proj2 (Z.ltb_ge _ _)) by lia. cbn [Z.eqb Pos.eqb orb write_body].
    rewrite (proj2 (Z.leb_gt n (zlen []))) by (unfold zlen; cbn; lia). cbn. rewrite protocol_health. by apply plain_blamed.
Qed.
End Verdict.

(** ** An oversized request *)

Definition big_vars : list (gostring * gostring) := replicate 17 (str "HTTP_X", replicate 4000 97).

Lemma uwsgi_blames_backend_witness :
  cl_health <$> at_recorded (uwsgi_attempt 0 None None 1 None None big_vars [] None) = Some HealthFailure.
Proof.
  refine (proj1 (uwsgi_blames_backend (H := no_unicode) (H0 := demo_guts) 0 None None big_vars [] [] plain_error _ _ _ _ _ _ _ _)); [done|done| |done..].
  unfold big_vars. rewrite total_replicate. unfold var_size, zlen. cbn [fst snd]. by rewrite length_replicate.
Defined.
