(* ===== verification/AuthCreds.v ===== *)
(** * Credentials (src/internal/auth/basic.go, jwt.go)

    HTTP Basic credentials against an htpasswd file, bearer tokens, the key set
    of a JWKS document and the key a token is verified with.  bcrypt, the JSON
    decoder, the curves and the JWT parser are other packages: parameters, with
    the behaviour they document. *)
From S2P Require Import Prelude GoStrings Bytes Netip Http ClientUse.

(** ** Base64 of the Go library *)

Definition std_digit (c : Z) : option Z :=
  if (65 <=? c) && (c <=? 90) then Some (c - 65) else if (97 <=? c) && (c <=? 122) then Some (c - 71)
  else if (48 <=? c) && (c <=? 57) then Some (c + 4) else if c =? 43 then Some 62 else if c =? 47 then Some 63 else None.
Definition url_digit (c : Z) : option Z :=
  if c =? 45 then Some 62 else if c =? 95 then Some 63 else if (c =? 43) || (c =? 47) then None else std_digit c.

Section Base64.
Context (digit : Z -> option Z) (padded : bool).

Fixpoint decode_groups (s : gostring) : option (list Z) :=
  match s with
  | [] => Some []
  | [_] => None
  | [a; b] => if padded then None else x ← digit a; y ← digit b; Some [x * 4 + y / 16]
  | [a; b; c] => if padded then None else x ← digit a; y ← digit b; z ← digit c; Some [x * 4 + y / 16; y mod 16 * 16 + z / 4]
  | a :: b :: c :: d :: t =>
      x ← digit a; y ← digit b;
      if padded && (c =? 61) then (if (d =? 61) && bool_decide (t = []) then Some [x * 4 + y / 16] else None)
      else
        z ← digit c;
        if padded && (d =? 61) then (if bool_decide (t = []) then Some [x * 4 + y / 16; y mod 16 * 16 + z / 4] else None)
        else w ← digit d; r ← decode_groups t; Some (x * 4 + y / 16 :: y mod 16 * 16 + z / 4 :: z mod 4 * 64 + w :: r)
  end.

(** [DecodeString] skips line breaks. *)
Definition decode64 (s : gostring) : option (list Z) := decode_groups (filter (fun c => c <> 10 /\ c <> 13) s).
End Base64.

(** ** Basic credentials *)

Class Bcrypt := {
  bcrypt_Cost : gostring -> option Z;
  bcrypt_Compare : gostring -> gostring -> bool }.

Section Basic.
Context `{Unicode} `{Bcrypt}.

Record basicAuth := MkBasic { b_realm : gostring; b_users : gmap gostring gostring; b_raw : list Z }.

Inductive basicErr := ErrTooBig | ErrMalformed (line : Z) | ErrNotBcrypt (line : Z) | ErrCost (line : Z) | ErrDuplicate (line : Z) | ErrLongLine | ErrNoEntries.

(** The lines of a [bufio.Scanner]: there is no empty line after the last
    newline, and one carriage return at the end of a line is dropped. *)
Definition raw_lines (data : list Z) : list gostring :=
  let l := SplitByte data 10 in if bool_decide (last l = Some []) then removelast l else l.
Definition drop_cr (l : gostring) : gostring := if HasSuffix l [13] then take (length l - 1) l else l.
(** A line too long for the scanner's buffer. *)
Definition long_line (l : gostring) : bool := 65536 <=? zlen l.

Definition isBcryptHash (h : gostring) : bool :=
  HasPrefix h (str "$2a$") || HasPrefix h (str "$2b$") || HasPrefix h (str "$2y$").

(** The scan: [raw] lines are those before the carriage return is dropped. *)
Fixpoint read_users (line : Z) (raw : list gostring) (users : gmap gostring gostring) : basicErr + gmap gostring gostring :=
  match raw with
  | [] => inr users
  | l :: raw =>
      if long_line l then inl ErrLongLine
      else
        let row := TrimSpace (drop_cr l) in
        if bool_decide (row = []) || HasPrefix row (str "#") then read_users (line + 1) raw users
        else
          let '(user, hash, ok) := CutByte row 58 in
          if negb ok || bool_decide (user = []) then inl (ErrMalformed line)
          else if negb (isBcryptHash hash) then inl (ErrNotBcrypt line)
          else match bcrypt_Cost hash with
          | None => inl (ErrCost line)
          | Some _ =>
              match users !! user with
              | Some _ => inl (ErrDuplicate line)
              | None => read_users (line + 1) raw (<[user := hash]> users)
              end
          end
  end.

(** [newBasicAuth] on the bytes of a regular file. *)
Definition newBasicAuth (realm : gostring) (data : list Z) : basicErr + basicAuth :=
  if 1048576 <? zlen data then inl ErrTooBig
  else match read_users 1 (raw_lines data) ∅ with
  | inl e => inl e
  | inr users => if bool_decide (users = ∅) then inl ErrNoEntries else inr (MkBasic realm users data)
  end.

(** [Request.BasicAuth]. *)
Definition parseBasicAuth (auth : gostring) : option (gostring * gostring) :=
  if (length auth <? 6)%nat || negb (string_eqb (lower_ascii (take 6 auth)) (str "basic ")) then None
  else
    c ← decode64 std_digit true (drop 6 auth);
    let '(user, pass, ok) := CutByte c 58 in
    if ok then Some (user, pass) else None.

Definition basic_check (b : basicAuth) (h : Header) : bool :=
  match header_Values h (str "Authorization") with
  | [auth] =>
      match parseBasicAuth auth with
      | None => false
      | Some (user, pass) =>
          match b_users b !! user with
          | None => false
          | Some hash => bcrypt_Compare hash pass
          end
      end
  | _ => false
  end.
End Basic.

(** ** Bearer tokens *)

Definition bearerToken `{Unicode} (h : Header) : option gostring :=
  match header_Values h (str "Authorization") with
  | [v] =>
      if (length v <=? 7)%nat || negb (EqualFold (take 7 v) (str "Bearer ")) then None
      else Some (TrimSpace (drop 7 v))
  | _ => None
  end.

(** ** Key sets *)

Inductive curve := P256 | P384 | P521.

Inductive publicKey := RsaKey (n e : Z) | EcKey (c : curve) (x y : Z).

Record jwk := MkJwk {
  k_Kty : gostring; k_Use : gostring; k_KeyOps : list gostring; k_Kid : gostring; k_Crv : gostring;
  k_N : gostring; k_E : gostring; k_X : gostring; k_Y : gostring }.

Class Curves := { IsOnCurve : curve -> Z -> Z -> bool }.

Section Keys.
Context `{Curves}.

Definition RawURL : gostring -> option (list Z) := decode64 url_digit false.

(** The exponent loop, and its fallback for the value 0, which reads the same
    bytes. *)
Definition exponent (eBytes : list Z) : Z :=
  let e := fold_left (fun e b => Z.lor (Z.shiftl e 8) b) eBytes 0 in if e =? 0 then be_val (replicate (8 - length eBytes) 0 ++ eBytes) else e.

Definition rsaKey (k : jwk) : option publicKey :=
  n ← RawURL (k_N k);
  e ← RawURL (k_E k);
  if bool_decide (e = []) || (4 <? zlen e) || (zlen n <? 128) || (1024 <? zlen n) then None
  else if exponent e <=? 0 then None else Some (RsaKey (be_val n) (exponent e)).

Definition ecKey (k : jwk) : option publicKey :=
  c ← (if string_eqb (k_Crv k) (str "P-256") then Some P256 else if string_eqb (k_Crv k) (str "P-384") then Some P384
       else if string_eqb (k_Crv k) (str "P-521") then Some P521 else None);
  x ← RawURL (k_X k);
  y ← RawURL (k_Y k);
  if IsOnCurve c (be_val x) (be_val y) then Some (EcKey c (be_val x) (be_val y)) else None.

Definition publicKey_of (k : jwk) : option publicKey :=
  if string_eqb (k_Kty k) (str "RSA") then rsaKey k else if string_eqb (k_Kty k) (str "EC") then ecKey k else None.

Inductive jwksErr := ErrTooManyKeys | ErrDuplicateKid | ErrNoUsableKey.

Fixpoint collect_keys (l : list jwk) (keys : gmap gostring publicKey) : jwksErr + gmap gostring publicKey :=
  match l with
  | [] => inr keys
  | k :: l =>
      if negb (bool_decide (k_Use k = [])) && negb (string_eqb (k_Use k) (str "sig")) then collect_keys l keys
      else if negb (bool_decide (k_KeyOps k = [])) && negb (bool_decide (str "verify" ∈ k_KeyOps k)) then collect_keys l keys
      else match keys !! k_Kid k with
      | Some _ => inl ErrDuplicateKid
      | None => match publicKey_of k with Some pub => collect_keys l (<[k_Kid k := pub]> keys) | None => collect_keys l keys end
      end
  end.

(** [parseJWKS] on the decoded document. *)
Definition parseJWKS (l : list jwk) : jwksErr + gmap gostring publicKey :=
  if 128 <? Z.of_nat (length l) then inl ErrTooManyKeys
  else match collect_keys l ∅ with
  | inl e => inl e
  | inr keys => if bool_decide (keys = ∅) then inl ErrNoUsableKey else inr keys
  end.

End Keys.

(** ** Base64 round trip *)

Lemma std_digit_char n : 0 <= n < 64 -> std_digit (base64_char n) = Some n /\ base64_char n <> 61 /\ base64_char n <> 10 /\ base64_char n <> 13.
Proof.
  intros Hn. assert (Forall (fun n => std_digit (base64_char n) = Some n /\ base64_char n <> 61 /\ base64_char n <> 10 /\ base64_char n <> 13)
    (map Z.of_nat (seq 0 64))) as HK by (apply (bool_decide_unpack _); by vm_compute).
  rewrite Forall_forall in HK. apply HK, list_elem_of_In, in_map_iff. exists (Z.to_nat n). rewrite in_seq. lia.
Qed.

Ltac digits := unfold is_byte in *; Z.to_euclidean_division_equations; lia.

(** Three bytes are four digits. *)
Lemma three_digits a b c : is_byte a -> is_byte b -> is_byte c ->
  let x := a / 4 in let y := a mod 4 * 16 + b / 16 in let z := b mod 16 * 4 + c / 64 in let w := c mod 64 in
  (0 <= x < 64 /\ 0 <= y < 64 /\ 0 <= z < 64 /\ 0 <= w < 64) /\ x * 4 + y / 16 = a /\ y mod 16 * 16 + z / 4 = b /\ z mod 4 * 64 + w = c.
Proof. intros Ha Hb Hc. cbv zeta. split_and!; digits. Qed.

Lemma base64_digit n : 0 <= n < 64 -> std_digit (base64_char n) = Some n /\ (base64_char n =? 61) = false.
Proof. intros Hn. destruct (std_digit_char n Hn) as (E & H1 & _). split; [done|]. by apply Z.eqb_neq. Qed.

Lemma decode_groups_base64 (s : list Z) : Forall is_byte s -> decode_groups std_digit true (base64 s) = Some s.
Proof.
  revert s. fix IH 1. intros [|a [|b [|c s]]] HF; [done|..].
  - apply Forall_cons in HF as [Ha _]. assert (is_byte 0) as H0 by done. destruct (three_digits a 0 0 Ha H0 H0) as ((Hx & Hy & _) & E1 & _).
    cbn [base64]. cbn in Hy, E1. rewrite Z.add_0_r in Hy, E1. cbn [decode_groups].
    destruct (base64_digit _ Hx) as [-> _]. destruct (base64_digit _ Hy) as [-> _]. cbn. by rewrite E1.
  - apply Forall_cons in HF as [Ha HF]. apply Forall_cons in HF as [Hb _]. assert (is_byte 0) as H0 by done.
    destruct (three_digits a b 0 Ha Hb H0) as ((Hx & Hy & Hz & _) & E1 & E2 & _).
    cbn [base64]. rewrite Z.div_0_l, Z.add_0_r in Hz, E2 by done. cbn [decode_groups].
    destruct (base64_digit _ Hx) as [-> _]. destruct (base64_digit _ Hy) as [-> _]. destruct (base64_digit _ Hz) as [-> ->]. cbn. by rewrite E1, E2.
  - apply Forall_cons in HF as [Ha HF]. apply Forall_cons in HF as [Hb HF]. apply Forall_cons in HF as [Hc HF].
    destruct (three_digits a b c Ha Hb Hc) as ((Hx & Hy & Hz & Hw) & E1 & E2 & E3). cbn [base64 decode_groups].
    destruct (base64_digit _ Hx) as [-> _]. destruct (base64_digit _ Hy) as [-> _]. destruct (base64_digit _ Hz) as [-> ->].
    destruct (base64_digit _ Hw) as [-> ->]. cbn [andb mbind option_bind]. rewrite (IH s HF). cbn [mbind option_bind]. by rewrite E1, E2, E3.
Qed.

Lemma base64_no_breaks (s : list Z) : Forall is_byte s -> filter (fun c => c <> 10 /\ c <> 13) (base64 s) = base64 s.
Proof.
  assert (forall n l, 0 <= n < 64 -> filter (fun c => c <> 10 /\ c <> 13) (base64_char n :: l) = base64_char n :: filter (fun c => c <> 10 /\ c <> 13) l) as HD.
  { intros n l Hn. destruct (std_digit_char n Hn) as (_ & _ & H1 & H2). by rewrite filter_cons_True. }
  revert s. fix IH 1. intros [|a [|b [|c s]]] HF; [done|..].
  - apply Forall_cons in HF as [Ha _]. cbn [base64]. rewrite !HD by digits. done.
  - apply Forall_cons in HF as [Ha HF]. apply Forall_cons in HF as [Hb _]. cbn [base64]. rewrite !HD by digits. done.
  - apply Forall_cons in HF as [Ha HF]. apply Forall_cons in HF as [Hb HF]. apply Forall_cons in HF as [Hc HF]. cbn [base64].
    rewrite !HD by digits. by rewrite (IH s HF).
Qed.

Lemma decode64_base64 (s : list Z) : Forall is_byte s -> decode64 std_digit true (base64 s) = Some s.
Proof. intros HF. unfold decode64. rewrite base64_no_breaks by done. by apply decode_groups_base64. Qed.

(** ** The file and the check *)

Section Htpasswd.
Context `{Unicode} `{Bcrypt}.

Definition row_of (e : gostring * gostring) : gostring := e.1 ++ 58 :: e.2.
Definition print_entry (e : gostring * gostring) : gostring := row_of e ++ [10].

Definition valid_entry (e : gostring * gostring) : Prop :=
  e.1 <> [] /\ 58 ∉ e.1 /\ 10 ∉ row_of e /\ 13 ∉ row_of e /\ TrimSpace (row_of e) = row_of e /\ HasPrefix (row_of e) (str "#") = false /\
  zlen (row_of e) < 65536 /\ isBcryptHash e.2 = true /\ is_Some (bcrypt_Cost e.2).

Lemma raw_lines_printed l : Forall valid_entry l -> raw_lines (concat (map print_entry l)) = map row_of l.
Proof.
  intros HL. unfold raw_lines. assert (SplitByte (concat (map print_entry l)) 10 = map row_of l ++ [[]]) as ->.
  { induction HL as [|e l He HL IH]; [done|]. cbn [map concat]. unfold print_entry at 1. rewrite <- app_assoc. cbn [app].
    rewrite SplitByte_app by apply He. by rewrite IH. }
  rewrite last_snoc, bool_decide_true by done. apply removelast_last.
Qed.

Lemma read_users_printed l : forall n users,
  Forall valid_entry l -> NoDup (map fst l) -> Forall (fun e => users !! e.1 = None) l ->
  read_users n (map row_of l) users = inr (foldl (fun m e => <[e.1 := e.2]> m) users l).
Proof.
  induction l as [|e l IH]; intros n users HL HN HF; [done|].
  apply Forall_cons in HL as [(H1 & H2 & H3 & H4 & H5 & H6 & H7 & H8 & H9) HL]. apply Forall_cons in HF as [Hf HF].
  cbn [map] in HN. apply NoDup_cons in HN as [Hn HN]. cbn [map read_users foldl]. unfold long_line. rewrite (proj2 (Z.leb_gt _ _)) by lia.
  assert (drop_cr (row_of e) = row_of e) as ->.
  { unfold drop_cr. destruct (HasSuffix _ _) eqn:E; [|done]. apply HasSuffix_spec in E as [t E]. destruct H4. rewrite E. set_solver. }
  rewrite H5, H6, bool_decide_false by (unfold row_of; by destruct e.1). cbn [orb]. unfold row_of at 1. rewrite CutByte_app by done.
  cbn [negb orb]. rewrite bool_decide_false, H8, Hf by done. cbn [negb]. destruct H9 as [c ->]. apply IH; [done|done|].
  apply Forall_forall. intros x Hx. rewrite Forall_forall in HF. rewrite lookup_insert_ne; [by apply HF|].
  intros E. apply Hn. rewrite E. apply list_elem_of_In, in_map, list_elem_of_In, Hx.
Qed.

Lemma foldl_insert_lookup (l : list (gostring * gostring)) : forall (m : gmap gostring gostring) u,
  NoDup (map fst l) -> Forall (fun e => m !! e.1 = None) l ->
  foldl (fun m e => <[e.1 := e.2]> m) m l !! u = match list_to_map (M := gmap gostring gostring) l !! u with Some h => Some h | None => m !! u end.
Proof.
  induction l as [|[k h] l IH]; intros m u HN HF; [done|]. cbn [map] in HN. apply NoDup_cons in HN as [Hn HN].
  apply Forall_cons in HF as [Hf HF]. cbn [foldl fst snd]. rewrite IH; [|done|].
  2: { apply Forall_forall. intros x Hx. rewrite Forall_forall in HF. rewrite lookup_insert_ne; [by apply HF|].
       cbn. intros ->. apply Hn, list_elem_of_In, in_map_iff. exists x. split; [done|]. by apply list_elem_of_In. }
  rewrite list_to_map_cons, !lookup_insert. destruct (decide (k = u)) as [->|Hne]; [|done].
  destruct (list_to_map l !! u) as [h'|] eqn:E; [|done]. apply elem_of_list_to_map_2 in E. destruct Hn.
  apply list_elem_of_In. apply in_map_iff. exists (u, h'). split; [done|]. by apply list_elem_of_In.
Qed.

Definition basic_header (user pass : gostring) : Header :=
  {[ str "Authorization" := [str "Basic " ++ base64 (user ++ 58 :: pass)] ]}.

Lemma parseBasicAuth_header user pass :
  Forall is_byte (user ++ 58 :: pass) -> 58 ∉ user -> parseBasicAuth (str "Basic " ++ base64 (user ++ 58 :: pass)) = Some (user, pass).
Proof.
  intros HB Hu. unfold parseBasicAuth. rewrite (proj2 (Nat.ltb_ge _ _)) by (rewrite length_app; cbn; lia).
  change (take 6 (str "Basic " ++ base64 (user ++ 58 :: pass))) with (str "Basic ").
  change (drop 6 (str "Basic " ++ base64 (user ++ 58 :: pass))) with (base64 (user ++ 58 :: pass)).
  assert (string_eqb (lower_ascii (str "Basic ")) (str "basic ") = true) as -> by done. cbn [orb negb].
  rewrite decode64_base64 by done. cbn [mbind option_bind]. by rewrite CutByte_app.
Qed.

(** An htpasswd file loads exactly the users it lists, and a request that
    presents a user and a password the way clients encode them is let in exactly
    when the password matches that user's hash: never for a user the file does not
    list, whatever bcrypt says. *)
Theorem htpasswd_exact (realm : gostring) (l : list (gostring * gostring)) (user pass : gostring) :
  l <> [] -> Forall valid_entry l -> NoDup (map fst l) -> zlen (concat (map print_entry l)) <= 1048576 ->
  Forall is_byte (user ++ 58 :: pass) -> 58 ∉ user ->
  exists b, newBasicAuth realm (concat (map print_entry l)) = inr b /\
    basic_check b (basic_header user pass) = match list_to_map (M := gmap gostring gostring) l !! user with Some hash => bcrypt_Compare hash pass | None => false end.
Proof.
  intros Hne HL HN HZ HB Hu. unfold newBasicAuth. rewrite (proj2 (Z.ltb_ge _ _)) by lia. rewrite raw_lines_printed by done.
  rewrite read_users_printed by (try done; by apply Forall_true). set (m := foldl _ _ _).
  assert (forall u, m !! u = list_to_map (M := gmap gostring gostring) l !! u) as HM.
  { intros u. unfold m. rewrite foldl_insert_lookup by (try done; by apply Forall_true). by destruct (list_to_map l !! u). }
  clearbody m. rewrite bool_decide_false.
  2: { intros ->. destruct l as [|[k h] l]; [done|]. specialize (HM k). cbn in HM. by rewrite lookup_insert_eq in HM. }
  eexists. split; [done|]. unfold basic_check. 
  assert (header_Values (basic_header user pass) (str "Authorization") = [str "Basic " ++ base64 (user ++ 58 :: pass)]) as ->.
  { unfold header_Values, basic_header. assert (CanonicalHeaderKey (str "Authorization") = str "Authorization") as -> by (by vm_compute). by rewrite lookup_singleton_eq. }
  rewrite parseBasicAuth_header by done. cbn [b_users]. by rewrite HM.
Qed.

(** Whatever the file holds, a loaded user has a name and a bcrypt hash. *)
Definition sound_user (u h : gostring) : Prop := u <> [] /\ isBcryptHash h = true /\ is_Some (bcrypt_Cost h).

Lemma read_users_sound raw : forall n users users',
  map_Forall sound_user users -> read_users n raw users = inr users' -> map_Forall sound_user users'.
Proof.
  induction raw as [|l raw IH]; intros n users users' HU; cbn [read_users]; [by intros [= <-]|]. destruct (long_line l); [done|].
  destruct (_ || _); [by apply IH|]. destruct (CutByte _ 58) as [[user hash] ok]. destruct ok; cbn [negb orb]; [|done].
  case_bool_decide; [done|]. destruct (isBcryptHash hash) eqn:EB; cbn [negb]; [|done]. destruct (bcrypt_Cost hash) eqn:EC; [|done].
  destruct (users !! user) eqn:EU; [done|]. apply IH. apply map_Forall_insert; [done|]. split; [|done]. split_and!; [done|done|by eexists].
Qed.
End Htpasswd.

(** ** Key sets *)

Lemma url_digit_range c d : url_digit c = Some d -> 0 <= d < 64.
Proof.
  unfold url_digit, std_digit. repeat match goal with |- context [if ?b then _ else _] => destruct b eqn:? end; intros [= <-]; lia.
Qed.

Lemma decode_groups_bytes (digit : Z -> option Z) padded s b :
  (forall c d, digit c = Some d -> 0 <= d < 64) -> decode_groups digit padded s = Some b -> Forall is_byte b.
Proof.
  intros HD. assert (forall x y, 0 <= x < 64 -> 0 <= y < 64 -> is_byte (x * 4 + y / 16) /\ is_byte (x mod 16 * 16 + y / 4) /\ is_byte (x mod 4 * 64 + y)) as HB.
  { intros x y Hx Hy. split_and!; digits. }
  remember (length s) as n eqn:En. assert (length s <= n)%nat as HL by lia. clear En. revert s b HL.
  induction n as [n IH] using lt_wf_ind. intros [|a [|b [|c [|d t]]]] r HL; cbn [decode_groups].
  - by intros [= <-].
  - done.
  - destruct padded; [done|]. destruct (digit a) as [x|] eqn:Ea; cbn; [|done]. destruct (digit b) as [y|] eqn:Eb; cbn; [|done].
    intros [= <-]. apply HD in Ea, Eb. constructor; [apply HB; done|done].
  - destruct padded; [done|]. destruct (digit a) as [x|] eqn:Ea; cbn; [|done]. destruct (digit b) as [y|] eqn:Eb; cbn; [|done].
    destruct (digit c) as [z|] eqn:Ec; cbn; [|done]. intros [= <-]. apply HD in Ea, Eb, Ec. repeat constructor; apply HB; done.
  - destruct (digit a) as [x|] eqn:Ea; cbn [mbind option_bind]; [|done]. destruct (digit b) as [y|] eqn:Eb; cbn [mbind option_bind]; [|done]. apply HD in Ea, Eb.
    destruct (padded && (c =? 61)); [destruct (_ && _); [intros [= <-]; repeat constructor; by apply HB|done]|].
    destruct (digit c) as [z|] eqn:Ec; cbn [mbind option_bind]; [|done]. apply HD in Ec.
    destruct (padded && (d =? 61)); [destruct (bool_decide _); [intros [= <-]; repeat constructor; by apply HB|done]|].
    destruct (digit d) as [w|] eqn:Ed; cbn [mbind option_bind]; [|done]. apply HD in Ed.
    destruct (decode_groups digit padded t) as [r'|] eqn:Er; cbn [mbind option_bind]; [|done]. intros [= <-].
    repeat constructor; [by apply HB..|]. cbn in HL. by apply (IH (length t) ltac:(lia) t).
Qed.

Lemma RawURL_bytes s b : RawURL s = Some b -> Forall is_byte b.
Proof. apply decode_groups_bytes, url_digit_range. Qed.

Lemma exponent_be_val e : Forall is_byte e -> exponent e = be_val e.
Proof.
  intros HE. assert (forall acc, 0 <= acc -> fold_left (fun e b => Z.lor (Z.shiftl e 8) b) e acc = fold_left (fun acc x => acc * 256 + x) e acc) as HF.
  { induction HE as [|b e Hb HE IH]; intros acc Ha; [done|]. cbn [fold_left]. rewrite lor_shift by (unfold is_byte in Hb; lia).
    apply IH. unfold is_byte in Hb. lia. }
  assert (forall n, be_val (replicate n 0 ++ e) = be_val e) as HR.
  { intros n. unfold be_val. rewrite fold_left_app. f_equal. induction n as [|n IH]; [done|]. exact IH. }
  unfold exponent. rewrite HF by lia. fold (be_val e). by destruct (be_val e =? 0).
Qed.

Section KeySets.
Context `{Curves}.

Definition sound_key (k : publicKey) : Prop :=
  match k with RsaKey n e => 0 <= n < 256 ^ 1024 /\ 0 < e < 2 ^ 32 | EcKey c x y => IsOnCurve c x y = true end.

Lemma publicKey_sound k pub : publicKey_of k = Some pub -> sound_key pub.
Proof.
  unfold publicKey_of. destruct (string_eqb _ _); [|destruct (string_eqb _ _); [|done]].
  - unfold rsaKey. destruct (RawURL (k_N k)) as [n|] eqn:En; cbn [mbind option_bind]; [|done].
    destruct (RawURL (k_E k)) as [e|] eqn:Ee; cbn [mbind option_bind]; [|done]. apply RawURL_bytes in En, Ee.
    rewrite exponent_be_val by done. destruct (_ || _) eqn:EB; [done|]. destruct (_ <=? 0) eqn:E0; [done|]. intros [= <-].
    rewrite !orb_false_iff in EB. apply be_val_range in En, Ee. unfold zlen in EB. split.
    + split; [lia|]. eapply Z.lt_le_trans; [apply En|]. apply Z.pow_le_mono_r; lia.
    + split; [lia|]. eapply Z.lt_le_trans; [apply Ee|]. change (2 ^ 32) with (256 ^ 4). apply Z.pow_le_mono_r; lia.
  - unfold ecKey. destruct (if string_eqb _ _ then _ else _) as [c|]; cbn [mbind option_bind]; [|done].
    destruct (RawURL (k_X k)) as [x|]; cbn [mbind option_bind]; [|done]. destruct (RawURL (k_Y k)) as [y|]; cbn [mbind option_bind]; [|done].
    destruct (IsOnCurve _ _ _) eqn:E; [|done]. by intros [= <-].
Qed.

(** A key meant for verifying signatures. *)
Definition verifies (k : jwk) : Prop :=
  (k_Use k = [] \/ k_Use k = str "sig") /\ (k_KeyOps k = [] \/ str "verify" ∈ k_KeyOps k).

Lemma collect_keys_spec l : forall keys keys', collect_keys l keys = inr keys' ->
  forall kid pub, keys' !! kid = Some pub <-> keys !! kid = Some pub \/ exists k, k ∈ l /\ verifies k /\ k_Kid k = kid /\ publicKey_of k = Some pub.
Proof.
  induction l as [|k l IH]; intros keys keys'; cbn [collect_keys].
  { intros [= <-] kid pub. split; [by left|]. by intros [?|(? & ?%elem_of_nil & _)]. }
  assert (forall K kid pub, ~ (verifies k /\ publicKey_of k <> None) -> collect_keys l K = inr keys' ->
    keys' !! kid = Some pub <-> K !! kid = Some pub \/ exists j, j ∈ k :: l /\ verifies j /\ k_Kid j = kid /\ publicKey_of j = Some pub) as HSkip.
  { intros K kid pub HV HC. rewrite (IH _ _ HC). split; (intros [?|(j & Hj & HR)]; [by left|right; exists j]).
    - split; [by right|done].
    - apply elem_of_cons in Hj as [->|Hj]; [|by split]. destruct HR as (H1 & _ & H3). destruct HV. split; [done|congruence]. }
  destruct (negb (bool_decide (k_Use k = [])) && _) eqn:E1.
  { intros HC kid pub. apply HSkip; [|done]. intros [[[HU|HU] _] _]; rewrite HU in E1; by vm_compute in E1. }
  destruct (negb (bool_decide (k_KeyOps k = [])) && _) eqn:E2.
  { intros HC kid pub. apply HSkip; [|done]. intros [[_ [HU|HU]] _]; [by rewrite HU in E2|]. by rewrite (bool_decide_true _ HU), andb_false_r in E2. }
  assert (verifies k) as HV.
  { unfold verifies, string_eqb in *. rewrite andb_false_iff, !negb_false_iff, !bool_decide_eq_true in E1, E2. done. }
  destruct (keys !! k_Kid k) eqn:EK; [done|]. destruct (publicKey_of k) as [p|] eqn:EP; [|intros HC kid pub; apply HSkip; [by intros [_ []]|done]].
  intros HC kid pub. rewrite (IH _ _ HC), lookup_insert. destruct (decide (k_Kid k = kid)) as [<-|Hne]; split.
  - intros [[= <-]|(j & Hj & HR)]; right; [exists k; split; [by left|done]|exists j; split; [by right|done]].
  - intros [?|(j & [->|Hj]%elem_of_cons & H1 & H2 & H3)]; [congruence|left; congruence|right; by exists j].
  - intros [?|(j & Hj & HR)]; [by left|]. right. exists j. split; [by right|done].
  - intros [?|(j & [->|Hj]%elem_of_cons & H1 & H2 & H3)]; [by left|done|right; by exists j].
Qed.

(** A key set that is accepted has at least one key and comes from at most 128
    entries; a key identifier names a key exactly when an entry meant for
    verification describes it, so no two such entries claim one identifier with
    different keys; and each key is an RSA key of bounded size with a positive
    exponent or a point on its curve. *)
Theorem parseJWKS_exact (l : list jwk) (keys : gmap gostring publicKey) :
  parseJWKS l = inr keys ->
  keys <> ∅ /\ (length l <= 128)%nat /\ (forall kid pub, keys !! kid = Some pub -> sound_key pub) /\
  (forall kid pub, keys !! kid = Some pub <-> exists k, k ∈ l /\ verifies k /\ k_Kid k = kid /\ publicKey_of k = Some pub).
Proof.
  unfold parseJWKS. destruct (128 <? _) eqn:EL; [done|]. destruct (collect_keys l ∅) as [|ks] eqn:EC; [done|]. case_bool_decide; [done|].
  intros [= <-]. pose proof (collect_keys_spec _ _ _ EC) as HS.
  assert (forall kid pub, ks !! kid = Some pub <-> exists k, k ∈ l /\ verifies k /\ k_Kid k = kid /\ publicKey_of k = Some pub) as HK.
  { intros kid pub. rewrite HS, lookup_empty. split; [by intros [?|?]|by right]. }
  split_and!; [done|lia| |done]. intros kid pub (k & _ & _ & _ & HP)%HK. by eapply publicKey_sound.
Qed.
End KeySets.

(** ** Examples *)

(** A hash that is its password after the prefix. *)
Definition demo_bcrypt : Bcrypt := {| bcrypt_Cost := fun h => Some 10; bcrypt_Compare := fun h p => string_eqb h (str "$2b$" ++ p) |}.
Definition demo_curves : Curves := {| IsOnCurve := fun _ x y => x =? y |}.

Lemma htpasswd_exact_witness :
  exists b, newBasicAuth (H := no_unicode) (H0 := demo_bcrypt) (str "r") (str "ann:$2b$s3" ++ [10]) = inr b /\
    basic_check (H0 := demo_bcrypt) b (basic_header (str "ann") (str "s3")) = true.
Proof.
  destruct (htpasswd_exact (H := no_unicode) (H0 := demo_bcrypt) (str "r") [(str "ann", str "$2b$s3")] (str "ann") (str "s3")) as (b & E1 & E2); [done|..].
  - repeat constructor; try done; by apply (bool_decide_unpack _).
  - apply NoDup_singleton.
  - by vm_compute.
  - by repeat constructor.
  - by apply (bool_decide_unpack _).
  - exists b. split; [exact E1|]. rewrite E2. by vm_compute.
Defined.

Definition demo_jwk : jwk := MkJwk (str "EC") (str "sig") [] (str "k1") (str "P-256") [] [] (str "AQ") (str "AQ").

Lemma parseJWKS_exact_witness : exists keys pub, parseJWKS (H := demo_curves) [demo_jwk] = inr keys /\ keys !! str "k1" = Some pub /\ sound_key (H := demo_curves) pub.
Proof.
  destruct (parseJWKS (H := demo_curves) [demo_jwk]) as [|keys] eqn:E; [by vm_compute in E|]. exists keys, (EcKey P256 1 1).
  destruct (parseJWKS_exact (H := demo_curves) [demo_jwk] keys E) as (_ & _ & HS & HK).
  assert (keys !! str "k1" = Some (EcKey P256 1 1)) as HL.
  { apply HK. exists demo_jwk. split_and!; [by left|split; [by right|by left]|done|by vm_compute]. }
  split_and!; [done|exact HL|]. by apply (HS _ _ HL).
Defined.
