(* ===== verification/Jwks.v ===== *)
(** * The cache of verification keys (src/internal/auth/jwt.go)

    Requests ask a shared cache for the key of a token.  A fresh key is read
    under a read lock; otherwise one request at a time, and at most once every
    thirty seconds, fetches the key set again, and a key of an earlier set is
    used for at most an hour after its fetch.  The goroutines are an interleaving
    of their critical sections; the network is the outcome of a fetch. *)
From S2P Require Import Prelude GoStrings Bytes Netip Http ClientUse AuthCreds.

Definition refreshAfter : Z := 900 * 10 ^ 9.
Definition staleGrace : Z := 3600 * 10 ^ 9.
Definition minRefresh : Z := 30 * 10 ^ 9.

Notation keySet := (gmap gostring publicKey).

(** An answer to a request for a key: when it was asked for and given, and the
    key. *)
Record answer := MkAnswer { a_kid : gostring; a_start : Z; a_at : Z; a_key : option publicKey }.

(** Where a goroutine is in [keyByIDContext]. *)
Inductive askPc :=
| AskIdle
| AskRefresh (kid : gostring) (start : Z)
| AskFetching (kid : gostring) (start : Z)
| AskReread (kid : gostring) (start : Z)
| AskStale (kid : gostring) (start : Z)
| AskDone (a : answer).

(** The cache and the clock.  [fetches] records the fetches begun and
    [installed] the sets installed, newest first. *)
Record jwksCache := MkJwks {
  j_now : Z;
  j_keys : keySet;
  j_fetchedAt : option Z;
  j_lastAttempt : option Z;
  j_refreshing : option nat;
  j_pcs : list askPc;
  j_fetches : list Z;
  j_installed : list (Z * keySet) }.

Definition jwks_init (n : nat) : jwksCache := MkJwks 0 ∅ None None None (replicate n AskIdle) [] [].

Inductive askLabel :=
| LTick (d : Z)
| LAsk (th : nat) (kid : gostring)
| LLock (th : nat)
| LFetched (th : nat) (res : option keySet)
| LReread (th : nat)
| LStale (th : nat).

Definition set_pc (th : nat) (pc : askPc) (s : jwksCache) : jwksCache :=
  MkJwks (j_now s) (j_keys s) (j_fetchedAt s) (j_lastAttempt s) (j_refreshing s) (<[th := pc]> (j_pcs s)) (j_fetches s) (j_installed s).

(** [time.Since] of a time that may be unset. *)
Definition within (s : jwksCache) (t : option Z) (d : Z) : bool := match t with Some t => j_now s - t <? d | None => false end.

Definition read_key (s : jwksCache) (kid : gostring) (start : Z) (ok : bool) : askPc :=
  AskDone (MkAnswer kid start (j_now s) (if ok then j_keys s !! kid else None)).

Definition ask_exec (s : jwksCache) (l : askLabel) : option jwksCache :=
  match l with
  | LTick d =>
      if 0 <=? d then Some (MkJwks (j_now s + d) (j_keys s) (j_fetchedAt s) (j_lastAttempt s) (j_refreshing s) (j_pcs s) (j_fetches s) (j_installed s)) else None
  | LAsk th kid =>
      match j_pcs s !! th with
      | Some AskIdle | Some (AskDone _) =>
          Some (set_pc th (if bool_decide (is_Some (j_keys s !! kid)) && within s (j_fetchedAt s) refreshAfter
                           then read_key s kid (j_now s) true else AskRefresh kid (j_now s)) s)
      | _ => None
      end
  | LLock th =>
      match j_pcs s !! th, j_refreshing s with
      | Some (AskRefresh kid start), None =>
          if within s (j_lastAttempt s) minRefresh then Some (set_pc th (AskStale kid start) s)
          else Some (MkJwks (j_now s) (j_keys s) (j_fetchedAt s) (Some (j_now s)) (Some th) (<[th := AskFetching kid start]> (j_pcs s))
                       (j_now s :: j_fetches s) (j_installed s))
      | _, _ => None
      end
  | LFetched th res =>
      match j_pcs s !! th with
      | Some (AskFetching kid start) =>
          match res with
          | Some keys =>
              Some (MkJwks (j_now s) keys (Some (j_now s)) (j_lastAttempt s) None (<[th := AskReread kid start]> (j_pcs s)) (j_fetches s)
                      ((j_now s, keys) :: j_installed s))
          | None =>
              Some (MkJwks (j_now s) (j_keys s) (j_fetchedAt s) (j_lastAttempt s) None (<[th := AskStale kid start]> (j_pcs s)) (j_fetches s) (j_installed s))
          end
      | _ => None
      end
  | LReread th =>
      match j_pcs s !! th with
      | Some (AskReread kid start) => Some (set_pc th (read_key s kid start true) s)
      | _ => None
      end
  | LStale th =>
      match j_pcs s !! th with
      | Some (AskStale kid start) => Some (set_pc th (read_key s kid start (within s (j_fetchedAt s) staleGrace)) s)
      | _ => None
      end
  end.

(** ** Choosing a key *)

(** The signing methods of the JWT package that the code tells apart. *)
Inductive signingMethod := SigningRSA | SigningRSAPSS | SigningECDSA | SigningOther.

Definition keyFunc (keyByID : gostring -> option publicKey) (m : signingMethod) (kid : gostring) : option publicKey :=
  match keyByID kid with
  | None => None
  | Some key =>
      match m, key with
      | SigningRSA, RsaKey _ _ | SigningRSAPSS, RsaKey _ _ | SigningECDSA, EcKey _ _ _ => Some key
      | _, _ => None
      end
  end.

(** The JWT package: [ParseWithClaims] with a list of methods, an issuer and an
    audience.  A token it accepts has a method on the list, is signed with the
    key the callback returned, and carries the issuer and the audience asked for
    and an expiry not yet past. *)
Class JwtParser := {
  claims : Type;
  method_of : gostring -> signingMethod;
  signed : signingMethod -> publicKey -> gostring -> bool;
  claims_valid : gostring -> gostring -> Z -> claims -> bool;
  ParseWithClaims : list gostring -> gostring -> gostring -> Z -> gostring -> (signingMethod -> gostring -> option publicKey) -> option claims;
  parse_accepts : forall algs iss aud now raw kf c, ParseWithClaims algs iss aud now raw kf = Some c ->
    exists alg kid key, alg ∈ algs /\ kf (method_of alg) kid = Some key /\ signed (method_of alg) key raw = true /\ claims_valid iss aud now c = true }.

Record jwtAuth := MkJwtAuth { jw_issuer : gostring; jw_audience : gostring; jw_algorithms : list gostring }.

Definition jwt_validate `{Unicode} `{JwtParser} (j : jwtAuth) (keyByID : gostring -> option publicKey) (now : Z) (h : Header) : option claims :=
  match bearerToken h with
  | None => None
  | Some raw => ParseWithClaims (jw_algorithms j) (jw_issuer j) (jw_audience j) now raw (keyFunc keyByID)
  end.

(** ** Invariants of the cache *)

Definition is_fetching (pc : askPc) : Z := match pc with AskFetching _ _ => 1 | _ => 0 end.

(** Where an answer comes from: the set that was installed when the key was
    read, fetched less than the grace period before or after the request. *)
Definition sourced (installed : list (Z * keySet)) (a : answer) : Prop :=
  forall key, a_key a = Some key -> exists t keys, (t, keys) ∈ installed /\ keys !! a_kid a = Some key /\
    (a_at a - t < staleGrace \/ a_start a <= t) /\ (forall t' keys', (t', keys') ∈ installed -> t' < a_at a -> t' <= t).

Definition pc_ok (s : jwksCache) (pc : askPc) : Prop :=
  match pc with
  | AskIdle => True
  | AskRefresh _ start | AskFetching _ start | AskStale _ start => start <= j_now s
  | AskReread _ start => exists t, j_fetchedAt s = Some t /\ start <= t
  | AskDone a => a_at a <= j_now s /\ sourced (j_installed s) a
  end.

Record jwks_ok (s : jwksCache) : Prop := MkJwksOk {
  ok_current : match j_installed s with [] => j_keys s = ∅ /\ j_fetchedAt s = None | (t, k) :: _ => j_keys s = k /\ j_fetchedAt s = Some t end;
  ok_installed : StronglySorted (fun a b => b.1 <= a.1) (j_installed s) /\ Forall (fun tk => tk.1 <= j_now s) (j_installed s);
  ok_fetches : StronglySorted (fun a b => b + minRefresh <= a) (j_fetches s) /\ Forall (fun t => t <= j_now s) (j_fetches s) /\ j_lastAttempt s = head (j_fetches s);
  ok_refreshing : total is_fetching (j_pcs s) = match j_refreshing s with Some _ => 1 | None => 0 end;
  ok_pcs : forall th pc, j_pcs s !! th = Some pc -> pc_ok s pc }.

Lemma jwks_ok_init n : jwks_ok (jwks_init n).
Proof.
  constructor; cbn; [done|by repeat constructor|by repeat constructor|by rewrite total_replicate; cbn; lia|].
  intros th pc [-> _]%lookup_replicate. done.
Qed.

(** The newest installed set is the current one. *)
Lemma current_newest s t : jwks_ok s -> j_fetchedAt s = Some t ->
  (t, j_keys s) ∈ j_installed s /\ t <= j_now s /\ (forall t' k', (t', k') ∈ j_installed s -> t' <= t).
Proof.
  intros [HC [HS HN] _ _ _] HF. destruct (j_installed s) as [|[t0 k0] l]; [destruct HC; congruence|]. destruct HC as [-> HC]. rewrite HC in HF. injection HF as <-.
  apply Forall_cons in HN as [Hn _]. split_and!; [by left|done|]. intros t' k' [[= -> ->]|Hin]%elem_of_cons; [done|].
  apply StronglySorted_inv in HS as [_ HS]. rewrite Forall_forall in HS. by apply HS in Hin.
Qed.

Lemma read_key_ok s kid start (ok : bool) :
  jwks_ok s -> (ok = true -> match j_fetchedAt s with Some t => j_now s - t < staleGrace \/ start <= t | None => True end) -> pc_ok s (read_key s kid start ok).
Proof.
  intros HO Hok. split; [done|]. intros key. cbn. destruct ok; [|done]. intros HK. specialize (Hok eq_refl).
  destruct (j_fetchedAt s) as [t|] eqn:EF.
  - destruct (current_newest s t HO EF) as (Hin & Hle & Hmax). exists t, (j_keys s). split_and!; [done|done|done|]. intros t' k' Hk _. by eapply Hmax.
  - destruct HO as [HC _ _ _ _]. destruct (j_installed s) as [|[t0 k0] l]; [|destruct HC; congruence]. destruct HC as [HC _]. by rewrite HC, lookup_empty in HK.
Qed.

(** A goroutine that moves without touching the cache. *)
Lemma jwks_ok_move s th pc pc' : jwks_ok s -> j_pcs s !! th = Some pc -> is_fetching pc' = is_fetching pc -> pc_ok s pc' -> jwks_ok (set_pc th pc' s).
Proof.
  intros [HC HI HF HR HP] Hth HE Hpc. constructor; cbn; [done|done|done| |].
  - rewrite (total_insert _ _ _ _ _ Hth), HE, HR. lia.
  - intros th' q Hq. apply list_lookup_insert_Some in Hq as [(<- & <- & _)|[_ Hq]]; [done|]. by eapply (HP th').
Qed.

Lemma sourced_mono l t k a : a_at a <= t -> sourced l a -> sourced ((t, k) :: l) a.
Proof.
  intros Ht HS key Hk. destruct (HS key Hk) as (t0 & k0 & H1 & H2 & H3 & H4). exists t0, k0. split_and!; [by right|done|done|].
  intros t' k' [[= -> ->]|Hin]%elem_of_cons Hlt; [lia|by eapply H4].
Qed.

Lemma jwks_ok_tick s d s' : jwks_ok s -> ask_exec s (LTick d) = Some s' -> jwks_ok s'.
Proof.
  intros [HC [HI1 HI2] (HF1 & HF2 & HF3) HR HP]. cbn [ask_exec]. destruct (0 <=? d) eqn:Ed; [|done]. intros [= <-]. constructor; cbn; [done|..|done|].
  - split; [done|]. eapply Forall_impl; [exact HI2|]. cbn. lia.
  - split_and!; [done| |done]. eapply Forall_impl; [exact HF2|]. cbn. lia.
  - intros th pc Hpc. apply HP in Hpc. destruct pc as [| | | | |a]; cbn in *; try done; try lia. destruct Hpc as [Ha Hs]. split; [lia|done].
Qed.

Lemma jwks_ok_lock s th s' : jwks_ok s -> ask_exec s (LLock th) = Some s' -> jwks_ok s'.
Proof.
  intros HO. cbn [ask_exec]. destruct (j_pcs s !! th) as [pc|] eqn:Eth; [|done]. destruct pc as [|kid start| | | |]; try done. destruct (j_refreshing s) eqn:ER; [done|].
  destruct (within _ _ _) eqn:EW; intros [= <-]; [by eapply jwks_ok_move; [done|exact Eth|done|]; apply (ok_pcs s HO th _ Eth)|].
  destruct HO as [HC HI (HF1 & HF2 & HF3) HR HP]. constructor; cbn; [done|done|..].
  - split_and!; [|by constructor|done]. constructor; [done|]. unfold within in EW. rewrite HF3 in EW. destruct (j_fetches s) as [|t l]; [done|]. cbn in EW.
    apply StronglySorted_inv in HF1 as [_ HF1]. constructor; [lia|]. eapply Forall_impl; [exact HF1|]. cbn. unfold minRefresh in *. lia.
  - rewrite (total_insert _ _ _ _ _ Eth), HR, ER. done.
  - intros th' q Hq. apply list_lookup_insert_Some in Hq as [(<- & <- & _)|[_ Hq]]; [by apply (HP th _ Eth)|]. by apply (HP th' q) in Hq.
Qed.

Lemma jwks_ok_fetched s th res s' : jwks_ok s -> ask_exec s (LFetched th res) = Some s' -> jwks_ok s'.
Proof.
  intros HO. cbn [ask_exec]. destruct (j_pcs s !! th) as [pc|] eqn:Eth; [|done]. destruct pc as [| |kid start| | |]; try done.
  assert (total is_fetching (j_pcs s) = 1) as H1.
  { pose proof (total_lookup is_fetching th _ _ ltac:(by intros []) Eth) as HT. cbn in HT. rewrite (ok_refreshing s HO) in *. by destruct (j_refreshing s). }
  pose proof (ok_pcs s HO th _ Eth) as Hst. cbn in Hst. destruct HO as [HC [HI1 HI2] HF HR HP]. destruct res as [keys|]; intros [= <-]; constructor; cbn; try done.
  - split; [|by constructor]. constructor; [done|]. eapply Forall_impl; [exact HI2|]. done.
  - rewrite (total_insert _ _ _ _ _ Eth), H1. done.
  - intros th' q Hq. apply list_lookup_insert_Some in Hq as [(<- & <- & _)|[_ Hq]]; [by exists (j_now s)|]. apply (HP th' q) in Hq.
    destruct q as [| | |kid' start'|kid' start'|a]; cbn in *; try done.
    + destruct Hq as (t & Ht & Hle). exists (j_now s). split; [done|]. destruct (j_installed s) as [|[t0 k0] l]; destruct HC as [_ HC]; [congruence|].
      apply Forall_cons in HI2 as [Hn _]. cbn in Hn. assert (t = t0) as -> by congruence. lia.
    + destruct Hq as [Ha Hs]. split; [done|]. by apply sourced_mono.
  - rewrite (total_insert _ _ _ _ _ Eth), H1. done.
  - intros th' q Hq. apply list_lookup_insert_Some in Hq as [(<- & <- & _)|[_ Hq]]; [done|]. by apply (HP th' q) in Hq.
Qed.

Lemma jwks_ok_step s l s' : jwks_ok s -> ask_exec s l = Some s' -> jwks_ok s'.
Proof.
  intros HO. destruct l as [d|th kid|th|th res|th|th]; [by apply jwks_ok_tick| |by apply jwks_ok_lock|by apply jwks_ok_fetched|..]; cbn [ask_exec].
  - destruct (j_pcs s !! th) as [pc|] eqn:Eth; [|done].
    assert (pc_ok s (if bool_decide (is_Some (j_keys s !! kid)) && within s (j_fetchedAt s) refreshAfter then read_key s kid (j_now s) true else AskRefresh kid (j_now s))) as HK.
    { destruct (_ && _) eqn:EB; [|cbn; lia]. apply read_key_ok; [done|]. intros _. unfold within in EB. destruct (j_fetchedAt s); [|done]. left. unfold refreshAfter, staleGrace in *. lia. }
    destruct pc; try done; intros [= <-]; (eapply jwks_ok_move; [done|exact Eth|by destruct (_ && _)|done]).
  - destruct (j_pcs s !! th) as [pc|] eqn:Eth; [|done]. destruct pc as [| | |kid start| |]; try done. intros [= <-].
    eapply jwks_ok_move; [done|exact Eth|done|]. apply read_key_ok; [done|]. intros _. destruct (ok_pcs s HO th _ Eth) as (t & -> & Hle). by right.
  - destruct (j_pcs s !! th) as [pc|] eqn:Eth; [|done]. destruct pc as [| | | |kid start|]; try done. intros [= <-].
    eapply jwks_ok_move; [done|exact Eth|done|]. apply read_key_ok; [done|]. intros HW. unfold within in HW.
    destruct (j_fetchedAt s); [|done]. left. lia.
Qed.

(** C20: Whatever the goroutines do: fetches of the key set never overlap and begin
    at least thirty seconds apart, and a key that is handed out was in the set
    installed when it was read, a set fetched less than an hour before or after
    the request began, with no newer set installed before the reading. *)
Theorem jwks_cache_sound (n : nat) (tr : list askLabel) (s : jwksCache) :
  trace ask_exec (jwks_init n) tr s ->
  StronglySorted (fun t t' => t' + minRefresh <= t) (j_fetches s) /\
  total is_fetching (j_pcs s) <= 1 /\
  (forall th a, j_pcs s !! th = Some (AskDone a) -> sourced (j_installed s) a).
Proof.
  intros T. assert (jwks_ok s) as HO by (eapply trace_invariant; [exact jwks_ok_step|exact T|apply jwks_ok_init]).
  split_and!; [apply HO|rewrite (ok_refreshing s HO); destruct (j_refreshing s); lia|]. intros th a Ha. apply (ok_pcs s HO th _ Ha).
Qed.

(** A bearer token is accepted only if it is the request's only credential and a
    key of the cache of the kind its method needs verifies it: a method that is
    neither RSA nor ECDSA is never accepted, whatever methods are configured. *)
Lemma jwt_validate_sound `{Unicode} `{JwtParser} (j : jwtAuth) (keyByID : gostring -> option publicKey) (now : Z) (h : Header) (c : claims) :
  jwt_validate j keyByID now h = Some c ->
  exists auth alg kid key, header_Values h (str "Authorization") = [auth] /\ alg ∈ jw_algorithms j /\ keyByID kid = Some key /\
    signed (method_of alg) key (TrimSpace (drop 7 auth)) = true /\ claims_valid (jw_issuer j) (jw_audience j) now c = true /\
    match method_of alg, key with SigningRSA, RsaKey _ _ | SigningRSAPSS, RsaKey _ _ | SigningECDSA, EcKey _ _ _ => True | _, _ => False end.
Proof.
  unfold jwt_validate, bearerToken. destruct (header_Values _ _) as [|auth [|]]; try done. destruct (_ || _); [done|].
  intros (alg & kid & key & H1 & H2 & H3 & H4)%parse_accepts. unfold keyFunc in H2. destruct (keyByID kid) as [key'|] eqn:EK; [|done].
  exists auth, alg, kid, key'. destruct (method_of alg), key'; try done; injection H2 as <-; done.
Qed.

(** ** A run *)

(** A key is fetched, goes stale while the endpoint is down, and is still used
    within the grace period. *)
Definition demo_jwks_run : list askLabel :=
  [LAsk 0 (str "k"); LLock 0; LFetched 0 (Some {[ str "k" := RsaKey 5 3 ]}); LReread 0; LTick (901 * 10 ^ 9); LAsk 1 (str "k"); LLock 1; LFetched 1 None; LStale 1].

Lemma jwks_cache_sound_witness :
  exists s, trace ask_exec (jwks_init 2) demo_jwks_run s /\ j_pcs s !! 1%nat = Some (AskDone (MkAnswer (str "k") (901 * 10 ^ 9) (901 * 10 ^ 9) (Some (RsaKey 5 3)))) /\
    sourced (j_installed s) (MkAnswer (str "k") (901 * 10 ^ 9) (901 * 10 ^ 9) (Some (RsaKey 5 3))).
Proof.
  destruct (exec_trace ask_exec (jwks_init 2) demo_jwks_run) as [s|] eqn:E; [|by vm_compute in E]. exists s.
  assert (j_pcs s !! 1%nat = Some (AskDone (MkAnswer (str "k") (901 * 10 ^ 9) (901 * 10 ^ 9) (Some (RsaKey 5 3))))) as HP by (vm_compute in E; injection E as <-; by vm_compute).
  apply exec_trace_trace in E. split_and!; [done|done|]. exact (proj2 (proj2 (jwks_cache_sound 2 demo_jwks_run s E)) 1%nat _ HP).
Defined.
