(* ===== verification/AuthGate.v ===== *)
(** * Access control of a location (src/internal/auth/auth.go, forward.go)

    The middleware that decides whether a request reaches a location: the
    address gate, then at most one credential method.  A forward-auth service
    decides on a subrequest whose identity fields are the listener's, and the
    fields it vouches for replace the client's.  The exchange with the service is
    an argument, as is the quoting of a realm; a [http.Header] is visited in an
    unspecified order, so the copy takes its entries as a list. *)
From S2P Require Import Prelude GoStrings Bytes Netip NetipPrefix Http ClientAddr Forwarded ClientUse AuthCreds Jwks.

(** ** Connection-scoped fields *)

Definition hopByHopHeaders : list gostring :=
  [str "Connection"; str "Proxy-Connection"; str "Keep-Alive"; str "Proxy-Authenticate"; str "Proxy-Authorization"; str "Te"; str "Trailer";
   str "Transfer-Encoding"; str "Upgrade"; str "Content-Length"].

Section Gate.
Context `{Unicode}.

Definition connectionScopedHeaders (h : Header) : list gostring :=
  hopByHopHeaders
  ++ filter (fun n => n <> []) (concat (map (fun line => map (fun token => CanonicalHeaderKey (TrimSpace token)) (SplitByte line 44))
                                            (header_Values h (str "Connection")))).

Definition in_scope (hop : list gostring) (name : gostring) : bool := bool_decide (CanonicalHeaderKey name ∈ hop).

Definition add_all (h : Header) (name : gostring) (vals : list gostring) : Header := foldl (fun h v => header_Add h name v) h vals.

Definition copyForwardHeaders (src : Header) (hs : list (gostring * list gostring)) : Header :=
  let hop := connectionScopedHeaders src in
  foldl (fun dst nv => if in_scope hop nv.1 then dst else add_all dst nv.1 nv.2) ∅ hs.

(** ** The subrequest *)

Record forwardResult := MkForward { fr_ok : bool; fr_status : Z; fr_body : list Z; fr_header : Header; fr_copy : Header }.

(** What the service answered; the body is absent when it could not be read. *)
Record authResponse := MkAuthResponse { ar_status : Z; ar_header : Header; ar_body : option (list Z) }.

(** The request as the middleware sees it; [a_uri] is [URL.RequestURI()]. *)
Record authRequest := MkAuthRequest { a_http : Request; a_ctx : reqctx; a_uri : gostring; a_entries : list (gostring * list gostring) }.

Definition set_or_del (h : Header) (name v : gostring) : Header := if bool_decide (v = []) then header_Del h name else header_Set h name v.

Definition subrequest_header (r : authRequest) : Header :=
  let h := copyForwardHeaders (r_Header (a_http r)) (a_entries r) in
  let h := foldl header_Del h [str "Client-Cert"; str "Client-Cert-Chain"; str "X-Forwarded-Client-Cert"; str "Forwarded"; str "X-Forwarded-For"; str "X-Real-Ip"] in
  let h := match Client (a_ctx r) with
           | Some a => header_Set (header_Set h (str "X-Forwarded-For") (addr_string a)) (str "X-Real-Ip") (addr_string a)
           | None => h
           end in
  let h := header_Set h (str "X-Forwarded-Proto") (if r_TLS (a_http r) then str "https" else str "http") in
  let h := header_Set h (str "X-Forwarded-Method") (r_Method (a_http r)) in
  let h := header_Set h (str "X-Forwarded-Uri") (a_uri r) in
  set_or_del h (str "X-Forwarded-Host") (r_Host (a_http r)).

Definition copy_vouched (names : list gostring) (resp : Header) : Header :=
  let hop := connectionScopedHeaders resp in
  foldl (fun h name => if in_scope hop name then h else add_all h name (header_Values resp name)) ∅ names.

(** [decide]: [None] is the error that denies with 503. *)
Definition forward_decide (names : list gostring) (exchange : Header -> option authResponse) (r : authRequest) : option forwardResult :=
  if match rq_identity (a_ctx r) with Some id => negb (Attributed id) | None => false end then Some (MkForward false 403 [] ∅ ∅)
  else if (1 <? length (header_Values (r_Header (a_http r)) (str "Authorization")))%nat then Some (MkForward false 401 [] ∅ ∅)
  else match exchange (subrequest_header r) with
  | None => None
  | Some resp =>
      let ok := (200 <=? ar_status resp) && (ar_status resp <? 300) in
      Some (MkForward ok (ar_status resp) (take 65536 (default [] (ar_body resp))) (ar_header resp)
              (if ok then copy_vouched names (ar_header resp) else ∅))
  end.

(** ** The denial *)

Definition forwardLoginRedirect (status : Z) (location : gostring) : bool :=
  negb (bool_decide (location = [])) && bool_decide (status ∈ [301; 302; 303; 307; 308]).

(** The entries under their canonical names. *)
Definition canonical_entries (h : Header) : Header := list_to_map (map (fun nv => (CanonicalHeaderKey nv.1, nv.2)) (map_to_list h)).

(** [writeForwardDenied] over the header the response has so far. *)
Definition writeForwardDenied (w : Header) (res : forwardResult) : Z * Header * list Z :=
  let hop := connectionScopedHeaders (fr_header res) in
  let kept := filter (fun nv => in_scope hop nv.1 = false) (fr_header res) in
  let status := fr_status res in
  (if (status <? 400) && negb (forwardLoginRedirect status (header_Get (fr_header res) (str "Location"))) then 403 else status, canonical_entries kept ∪ w, fr_body res).

(** ** The middleware *)

Context `{Bcrypt} `{JwtParser} (Quote : gostring -> gostring).

Inductive method :=
| MethodNone
| MethodBasic (b : basicAuth)
| MethodJWT (j : jwtAuth) (keyByID : gostring -> option publicKey) (now : Z)
| MethodForward (names : list gostring) (exchange : Header -> option authResponse).

(** What becomes of a request: passed on with a header and perhaps claims, or
    answered with a status. *)
Inductive decision :=
| Passed (h : Header) (c : option claims)
| Refused (status : Z) (header : Header) (body : list Z).

(** [http.Error]. *)
Definition http_Error (header : Header) (code : Z) (text : gostring) : decision :=
  Refused code (header_Set (header_Set header (str "Content-Type") (str "text/plain; charset=utf-8")) (str "X-Content-Type-Options") (str "nosniff"))
    (text ++ [10]).

Definition quoted (s : gostring) : gostring := 34 :: s ++ [34].

Definition Wrap (gate : cidrGate) (m : method) (r : authRequest) : decision :=
  let h := r_Header (a_http r) in
  if negb (gate_empty gate) && negb (cidrAllows gate (a_ctx r)) then http_Error ∅ 403 (str "403 Forbidden")
  else match m with
  | MethodNone => Passed h None
  | MethodBasic b =>
      if basic_check b h then Passed h None
      else http_Error (header_Set ∅ (str "WWW-Authenticate") (str "Basic realm=" ++ Quote (b_realm b) ++ str ", charset=" ++ quoted (str "UTF-8")))
             401 (str "401 Unauthorized")
  | MethodJWT j keyByID now =>
      match jwt_validate j keyByID now h with
      | Some c => Passed h (Some c)
      | None => http_Error (header_Set ∅ (str "WWW-Authenticate") (str "Bearer error=" ++ quoted (str "invalid_token"))) 401 (str "401 Unauthorized")
      end
  | MethodForward names exchange =>
      match forward_decide names exchange r with
      | None => http_Error ∅ 503 (str "503 Service Unavailable")
      | Some res =>
          if negb (fr_ok res) then let '(st, hd, body) := writeForwardDenied ∅ res in Refused st hd body
          else Passed (fr_copy res ∪ foldl header_Del h names) None
      end
  end.

(** ** Sound decisions *)

(** What a method has established of a request it passes. *)
Definition established (m : method) (r : authRequest) : Prop :=
  let h := r_Header (a_http r) in
  match m with
  | MethodNone => True
  | MethodBasic b => exists auth user pass hash, header_Values h (str "Authorization") = [auth] /\ parseBasicAuth auth = Some (user, pass) /\
      b_users b !! user = Some hash /\ bcrypt_Compare hash pass = true
  | MethodJWT j keyByID now => exists auth alg kid key c, header_Values h (str "Authorization") = [auth] /\ alg ∈ jw_algorithms j /\
      keyByID kid = Some key /\ signed (method_of alg) key (TrimSpace (drop 7 auth)) = true /\ claims_valid (jw_issuer j) (jw_audience j) now c = true
  | MethodForward names exchange =>
      match rq_identity (a_ctx r) with Some id => Attributed id = true | None => True end /\
      (length (header_Values h (str "Authorization")) <= 1)%nat /\
      exists resp, exchange (subrequest_header r) = Some resp /\ 200 <= ar_status resp < 300
  end.

(** C12: The middleware fails closed: a request is passed on only when the address
    gate lets its client through and the configured method has established who
    sends it; every other request, an unreachable service included, is answered
    with an error status or the service's own redirect to a login page. *)
Theorem auth_fails_closed (gate : cidrGate) (m : method) (r : authRequest) :
  match Wrap gate m r with
  | Passed _ _ => (gate_empty gate = true \/ cidrAllows gate (a_ctx r) = true) /\ established m r
  | Refused status header _ => 400 <= status \/ status ∈ [301; 302; 303; 307; 308]
  end.
Proof.
  unfold Wrap. destruct (negb (gate_empty gate) && _) eqn:EG; [left; cbn; lia|].
  assert (gate_empty gate = true \/ cidrAllows gate (a_ctx r) = true) as HG.
  { rewrite andb_false_iff, !negb_false_iff in EG. done. }
  destruct m as [|b|j keyByID now|names exchange]; [done|..].
  - destruct (basic_check b _) eqn:EB; [|left; cbn; lia]. split; [done|]. unfold basic_check in EB. cbn.
    destruct (header_Values _ _) as [|auth [|]]; try done. destruct (parseBasicAuth auth) as [[user pass]|] eqn:EP; [|done].
    destruct (b_users b !! user) as [hash|] eqn:EU; [|done]. by exists auth, user, pass, hash.
  - destruct (jwt_validate _ _ _ _) as [c|] eqn:EJ; [|left; cbn; lia]. split; [done|].
    apply jwt_validate_sound in EJ as (auth & alg & kid & key & J1 & J2 & J3 & J4 & J5 & _). by exists auth, alg, kid, key, c.
  - destruct (forward_decide names exchange r) as [res|] eqn:EF; [|left; cbn; lia]. destruct (fr_ok res) eqn:EO; cbn [negb].
    + split; [done|]. unfold forward_decide in EF. destruct (match rq_identity _ with Some _ => _ | None => _ end) eqn:EI; [by injection EF as <-|].
      destruct (1 <? _)%nat eqn:EA; [by injection EF as <-|]. destruct (exchange _) as [resp|] eqn:EX; [|done]. injection EF as <-. cbn in EO.
      split_and!; [destruct (rq_identity _) as [id|]; [by apply negb_false_iff|done]|by apply Nat.ltb_ge in EA|]. exists resp. split; [done|lia].
    + unfold writeForwardDenied. cbv zeta iota beta. destruct (fr_status res <? 400) eqn:E4; cbn [andb]; [|left; lia].
      destruct (forwardLoginRedirect _ _) eqn:ES; cbn [negb]; [|by left]. right.
      unfold forwardLoginRedirect in ES. apply andb_true_iff in ES as [_ ES]. by apply bool_decide_eq_true in ES.
Qed.

(** ** The fields of a passed request *)

Lemma add_all_values vals : forall (h : Header) name k,
  add_all h name vals !! k = if decide (CanonicalHeaderKey name = k) then (if bool_decide (vals = []) then h !! k else Some (default [] (h !! k) ++ vals)) else h !! k.
Proof.
  induction vals as [|v vals IH]; intros h name k; [by cbn; case_decide|]. unfold add_all in *. cbn [foldl]. rewrite IH. unfold header_Add, header_Values.
  rewrite lookup_insert. destruct (decide (CanonicalHeaderKey name = k)) as [->|Hne]; [|done]. rewrite (bool_decide_false (v :: vals = [])) by done.
  case_bool_decide; [by subst|]. cbn. by rewrite <- app_assoc.
Qed.

(** A response field a name of the list stands for. *)
Definition vouched (names : list gostring) (resp : Header) (k : gostring) : option (list gostring) :=
  if decide (k ∈ connectionScopedHeaders resp) then None
  else match default [] (resp !! k) with [] => None | vals => Some vals end.

Lemma copy_vouched_other names resp : forall (h : Header) k, k ∉ map CanonicalHeaderKey names ->
  foldl (fun h name => if in_scope (connectionScopedHeaders resp) name then h else add_all h name (header_Values resp name)) h names !! k = h !! k.
Proof.
  induction names as [|n names IH]; intros h k Hk; [done|]. cbn [map] in Hk. apply not_elem_of_cons in Hk as [Hn Hk]. cbn [foldl].
  rewrite IH by done. destruct (in_scope _ n); [done|]. rewrite add_all_values, decide_False; [done|congruence].
Qed.

Lemma copy_vouched_exact names resp : forall (h : Header) k, NoDup (map CanonicalHeaderKey names) -> k ∈ map CanonicalHeaderKey names -> h !! k = None ->
  foldl (fun h name => if in_scope (connectionScopedHeaders resp) name then h else add_all h name (header_Values resp name)) h names !! k = vouched names resp k.
Proof.
  induction names as [|n names IH]; intros h k HN Hk Hh; [by apply elem_of_nil in Hk|]. cbn [map] in *. apply NoDup_cons in HN as [Hn HN]. cbn [foldl].
  apply elem_of_cons in Hk as [->|Hk].
  - rewrite copy_vouched_other by done. unfold in_scope, vouched, header_Values. case_bool_decide; [by rewrite decide_True by done|]. rewrite decide_False by done.
    rewrite add_all_values, decide_True, Hh by done. by destruct (default [] (resp !! CanonicalHeaderKey n)).
  - rewrite IH; [done|done|done|]. destruct (in_scope _ n); [done|]. rewrite add_all_values, decide_False; [done|]. intros E. rewrite E in Hn. done.
Qed.

Lemma header_Dels_lookup names : forall (h : Header) k,
  foldl header_Del h names !! k = if decide (k ∈ map CanonicalHeaderKey names) then None else h !! k.
Proof.
  induction names as [|n names IH]; intros h k; [done|]. cbn [foldl map]. rewrite IH. unfold header_Del. rewrite lookup_delete.
  repeat case_decide; try done; set_solver.
Qed.

(** C29: A client cannot speak for the service: of the fields configured to be copied
    from it, the request carries what the service answered, if anything, and
    never what the client sent; every other field is the client's own. *)
Theorem forward_fields_exact (gate : cidrGate) (names : list gostring) (exchange : Header -> option authResponse) (r : authRequest) (h' : Header) (c : option claims) :
  NoDup (map CanonicalHeaderKey names) -> Wrap gate (MethodForward names exchange) r = Passed h' c ->
  exists resp, exchange (subrequest_header r) = Some resp /\
    forall k, h' !! k = if decide (k ∈ map CanonicalHeaderKey names) then vouched names (ar_header resp) k else r_Header (a_http r) !! k.
Proof.
  intros HN. unfold Wrap. destruct (_ && _); [done|]. destruct (forward_decide names exchange r) as [res|] eqn:EF; [|done].
  destruct (fr_ok res) eqn:EO; cbn [negb]; [|by destruct (writeForwardDenied ∅ res) as [[]]]. intros [= <- <-].
  unfold forward_decide in EF. destruct (match rq_identity _ with Some _ => _ | None => _ end); [by injection EF as <-|].
  destruct (1 <? _)%nat; [by injection EF as <-|]. destruct (exchange _) as [resp|]; [|done]. injection EF as <-. cbn in EO. exists resp. split; [done|].
  intros k. cbn [fr_copy]. rewrite EO, lookup_union, header_Dels_lookup. unfold copy_vouched. case_decide as Hk.
  - rewrite copy_vouched_exact by done. by destruct (vouched _ _ _).
  - rewrite copy_vouched_other by done. rewrite lookup_empty. by destruct (r_Header (a_http r) !! k).
Qed.

(** ** The subrequest's identity *)

Lemma values_Set h n v m : header_Values (header_Set h n v) m = if decide (CanonicalHeaderKey n = CanonicalHeaderKey m) then [v] else header_Values h m.
Proof. unfold header_Values, header_Set. rewrite lookup_insert. by case_decide. Qed.

Lemma values_Dels h names m : header_Values (foldl header_Del h names) m = if decide (CanonicalHeaderKey m ∈ map CanonicalHeaderKey names) then [] else header_Values h m.
Proof. unfold header_Values. rewrite header_Dels_lookup. by case_decide. Qed.

(** What the service is told of the client is what the listener derived, and
    nothing the client's header says of it. *)
Definition identity_values (r : authRequest) : list (gostring * list gostring) :=
  let client := match Client (a_ctx r) with Some a => [addr_string a] | None => [] end in
  [(str "Client-Cert", []); (str "Client-Cert-Chain", []); (str "X-Forwarded-Client-Cert", []); (str "Forwarded", []);
   (str "X-Forwarded-For", client); (str "X-Real-Ip", client);
   (str "X-Forwarded-Proto", [if r_TLS (a_http r) then str "https" else str "http"]);
   (str "X-Forwarded-Method", [r_Method (a_http r)]); (str "X-Forwarded-Uri", [a_uri r]);
   (str "X-Forwarded-Host", if bool_decide (r_Host (a_http r) = []) then [] else [r_Host (a_http r)])].

Theorem subrequest_identity_exact (r : authRequest) : Forall (fun nv => header_Values (subrequest_header r) nv.1 = nv.2) (identity_values r).
Proof.
  unfold subrequest_header. set (h0 := copyForwardHeaders _ _). clearbody h0. set (names := [str "Client-Cert"; _; _; _; _; _]).
  assert (forall h m, header_Values (set_or_del h (str "X-Forwarded-Host") (r_Host (a_http r))) m =
    if decide (CanonicalHeaderKey (str "X-Forwarded-Host") = CanonicalHeaderKey m) then (if bool_decide (r_Host (a_http r) = []) then [] else [r_Host (a_http r)])
    else header_Values h m) as HH.
  { intros h m. unfold set_or_del. case_bool_decide; [|by rewrite values_Set; case_decide]. unfold header_Del, header_Values. rewrite lookup_delete. by case_decide. }
  unfold identity_values. destruct (Client (a_ctx r)) as [a|]; repeat constructor; cbn [fst snd]; rewrite HH, !values_Set, ?values_Dels;
    repeat (rewrite decide_False by (by vm_compute)); try done.
Qed.
End Gate.

(** ** A request *)

(** A parser that verifies with the unnamed key and its first method. *)
Definition demo_parse (algs : list gostring) (kf : signingMethod -> gostring -> option publicKey) : option unit :=
  match algs with [] => None | _ => (fun _ => tt) <$> kf SigningRSA [] end.

Lemma demo_parse_accepts (algs : list gostring) (iss aud : gostring) (now : Z) (raw : gostring) (kf : signingMethod -> gostring -> option publicKey) (c : unit) :
  demo_parse algs kf = Some c -> exists alg kid key, alg ∈ algs /\ kf SigningRSA kid = Some key /\ true = true /\ true = true.
Proof.
  destruct algs as [|alg algs]; [done|]. cbn. destruct (kf SigningRSA []) as [key|] eqn:E; [|done]. intros _. exists alg, [], key. split; [by left|done].
Qed.

Definition demo_jwt : JwtParser :=
  {| claims := unit; method_of := fun _ => SigningRSA; signed := fun _ _ _ => true; claims_valid := fun _ _ _ _ => true;
     ParseWithClaims := fun algs _ _ _ _ kf => demo_parse algs kf; parse_accepts := demo_parse_accepts |}.

Definition demo_auth_request : authRequest :=
  let h : Header := {[ str "X-User" := [str "root"]; str "X-Other" := [str "1"] ]} in
  MkAuthRequest (MkRequest (str "GET") (str "a.example") (str "/") [] [] (str "/") h false) (MkReqctx None (str "192.0.2.7:4711")) (str "/") (map_to_list h).
Definition demo_exchange (_ : Header) : option authResponse := Some (MkAuthResponse 200 {[ str "X-User" := [str "ann"] ]} None).

(** The client's own claim to be root is replaced by the service's answer. *)
Lemma forward_fields_exact_witness :
  exists h' c, Wrap (H := no_unicode) (H0 := demo_bcrypt) (H1 := demo_jwt) id (MkGate [] []) (MethodForward [str "x-user"] demo_exchange) demo_auth_request = Passed h' c /\
    h' !! str "X-User" = Some [str "ann"].
Proof.
  destruct (Wrap (H := no_unicode) (H0 := demo_bcrypt) (H1 := demo_jwt) id (MkGate [] []) (MethodForward [str "x-user"] demo_exchange) demo_auth_request)
    as [h' c|] eqn:E; [|by vm_compute in E].
  destruct (forward_fields_exact (H := no_unicode) (H0 := demo_bcrypt) (H1 := demo_jwt) id (MkGate [] []) [str "x-user"] demo_exchange demo_auth_request h' c)
    as (resp & HR & HK); [apply NoDup_singleton|exact E|]. injection HR as <-. exists h', c. split; [done|]. rewrite HK. by vm_compute.
Defined.
