(* ===== verification/HttpRule.v ===== *)
(** * REST routes of the gRPC transcoder (internal/transcode/httprule.go)

    The path templates of google.api.http annotations: their parser, the matching
    of a request path with the variables it captures, and the choice of a route.
    The annotations come out of protobuf descriptors, which a third-party library
    decodes; a rule is given by its fields. *)

From S2P Require Import Prelude GoStrings Http.

(** ** Templates *)

Inductive tmplElem :=
| tmplLiteral (lit : gostring)
| tmplSingle
| tmplRest.

#[export] Instance tmplElem_dec : EqDecision tmplElem.
Proof. solve_decision. Defined.

Record tmplCapture := MkCapture { c_field : list gostring; c_start : nat; c_end : nat }.

Record pathTemplate := MkTemplate {
  t_raw : gostring;
  t_elems : list tmplElem;
  t_captures : list tmplCapture;
  t_verb : gostring;
  t_hasRest : bool
}.

Inductive tmplErr :=
| ErrNoSlash
| ErrMalformedSegment (seg : gostring)
| ErrEmptyField
| ErrEmptyComponent (inner : gostring)
| ErrEmptySub (inner : gostring)
| ErrMalformedSub (inner : gostring)
| ErrRestNotLast.

Definition slash : Z := 47.
Definition colon : Z := 58.
Definition lbrace : Z := 123.
Definition rbrace : Z := 125.
Definition asterisk : Z := 42.

(** ** Splitting *)

(** [splitSegments]: the pieces between the slashes outside braces. *)
Fixpoint split_depth (depth : nat) (s : gostring) : list gostring :=
  match s with
  | [] => [[]]
  | c :: s =>
      if (c =? slash) && (depth =? 0)%nat then [] :: split_depth depth s
      else
        let depth := if c =? lbrace then S depth else if c =? rbrace then Nat.pred depth else depth in
        match split_depth depth s with x :: l => (c :: x) :: l | [] => [[c]] end
  end.

Definition splitSegments (s : gostring) : list gostring := split_depth 0 s.

(** [lastVerbColon] reads from the end: the bytes after the colon it finds. *)
Fixpoint verb_scan (depth : nat) (r : gostring) : option nat :=
  match r with
  | [] => None
  | c :: r =>
      if c =? rbrace then S <$> verb_scan (S depth) r
      else if c =? lbrace then S <$> verb_scan (Nat.pred depth) r
      else if (c =? slash) && (depth =? 0)%nat then None
      else if (c =? colon) && (depth =? 0)%nat then Some O
      else S <$> verb_scan depth r
  end.

Definition lastVerbColon (s : gostring) : option nat :=
  (fun after => length s - S after)%nat <$> verb_scan 0 (rev s).

(** ** Parsing *)

Definition ContainsAny (s chars : gostring) : bool := existsb (fun c => bool_decide (c ∈ chars)) s.

Definition sub_elem (inner ss : gostring) : tmplErr + tmplElem :=
  if string_eqb ss (str "*") then inr tmplSingle
  else if string_eqb ss (str "**") then inr tmplRest
  else if string_eqb ss [] then inl (ErrEmptySub inner)
  else if ContainsAny ss (str "{}*") then inl (ErrMalformedSub inner)
  else inr (tmplLiteral ss).

Fixpoint sub_elems (inner : gostring) (l : list gostring) : tmplErr + list tmplElem :=
  match l with
  | [] => inr []
  | ss :: l =>
      match sub_elem inner ss with
      | inl e => inl e
      | inr el => match sub_elems inner l with inl e => inl e | inr els => inr (el :: els) end
      end
  end.

(** The elements and captures collected so far. *)
Definition building : Type := list tmplElem * list tmplCapture.

Definition add_elems (els : list tmplElem) (t : building) : building := (t.1 ++ els, t.2).

Section Templates.
Context `{Unicode}.

Definition addVariable (inner : gostring) (t : building) : tmplErr + building :=
  let '(fieldStr, sub, hasSub) := CutByte inner 61 in
  let fieldStr := TrimSpace fieldStr in
  if string_eqb fieldStr [] then inl ErrEmptyField
  else
    let field := SplitByte fieldStr 46 in
    if existsb (fun f => string_eqb f []) field then inl (ErrEmptyComponent inner)
    else
      match (if negb hasSub || string_eqb sub [] || string_eqb sub (str "*") then inr [tmplSingle]
             else sub_elems inner (splitSegments sub)) with
      | inl e => inl e
      | inr els =>
          let t' := add_elems els t in
          inr (t'.1, t'.2 ++ [MkCapture field (length t.1) (length t'.1)])
      end.

Definition addSegment (seg : gostring) (t : building) : tmplErr + building :=
  if string_eqb seg (str "*") then inr (add_elems [tmplSingle] t)
  else if string_eqb seg (str "**") then inr (add_elems [tmplRest] t)
  else if HasPrefix seg [lbrace] && HasSuffix seg [rbrace] then addVariable (take (length seg - 2) (drop 1 seg)) t
  else if string_eqb seg [] then inr (add_elems [tmplLiteral []] t)
  else if ContainsAny seg (str "{}") then inl (ErrMalformedSegment seg)
  else inr (add_elems [tmplLiteral seg] t).

Fixpoint addSegments (segs : list gostring) (t : building) : tmplErr + building :=
  match segs with
  | [] => inr t
  | seg :: segs => match addSegment seg t with inl e => inl e | inr t => addSegments segs t end
  end.

(** A double star that is not the last element. *)
Fixpoint early_rest (els : list tmplElem) : bool :=
  match els with
  | [] => false
  | el :: els => match els with [] => false | _ :: _ => bool_decide (el = tmplRest) || early_rest els end
  end.

Definition parseTemplate (raw : gostring) : tmplErr + pathTemplate :=
  match raw with
  | c :: _ =>
      if negb (c =? slash) then inl ErrNoSlash
      else
        let '(s, verb) := match lastVerbColon raw with
                          | Some i => (take i raw, drop (S i) raw)
                          | None => (raw, [])
                          end in
        match addSegments (splitSegments (drop 1 s)) ([], []) with
        | inl e => inl e
        | inr (els, caps) =>
            if early_rest els then inl ErrRestNotLast
            else inr (MkTemplate raw els caps verb (bool_decide (last els = Some tmplRest)))
        end
  | [] => inl ErrNoSlash
  end.

(** ** Matching *)

(** The segment at which each element begins, and the end. *)
Fixpoint walk (els : list tmplElem) (segs : list gostring) (si : nat) : option (list nat) :=
  match els with
  | [] => if (si =? length segs)%nat then Some [si] else None
  | el :: els =>
      cons si <$>
        match el with
        | tmplLiteral lit => if bool_decide (segs !! si = Some lit) then walk els segs (S si) else None
        | tmplSingle =>
            match segs !! si with
            | Some seg => if string_eqb seg [] then None else walk els segs (S si)
            | None => None
            end
        | tmplRest => walk els segs (length segs)
        end
  end.

Definition slice (segs : list gostring) (a b : nat) : list gostring := take (b - a) (drop a segs).

Definition captured (segs : list gostring) (starts : list nat) (c : tmplCapture) : gostring :=
  JoinByte (slice segs (default O (starts !! c_start c)) (default O (starts !! c_end c))) slash.

Definition set_capture (value : tmplCapture -> gostring) (vars : gmap gostring gostring) (c : tmplCapture) : gmap gostring gostring :=
  <[JoinByte (c_field c) 46 := value c]> vars.

Definition template_match (t : pathTemplate) (path : gostring) : option (gmap gostring gostring) :=
  let suffix := colon :: t_verb t in
  let verbed := negb (string_eqb (t_verb t) []) in
  if verbed && negb (HasSuffix path suffix) then None
  else
    match (if verbed then take (length path - length suffix) path else path) with
    | c :: rest =>
        if negb (c =? slash) then None
        else
          let segs := SplitByte rest slash in
          (fun starts => foldl (set_capture (captured segs starts)) ∅ (t_captures t)) <$> walk (t_elems t) segs 0
    | [] => None
    end.

(** ** Routes *)

(** The pattern of a rule: a method and a path. *)
Inductive rulePattern :=
| RuleGet (path : gostring)
| RulePut (path : gostring)
| RulePost (path : gostring)
| RuleDelete (path : gostring)
| RulePatch (path : gostring)
| RuleCustom (kind path : gostring)
| RuleNone.

Record binding := MkBinding { r_pattern : rulePattern; r_body : gostring }.

(** A rule and its additional bindings. *)
Record httpRule := MkRule { r_main : binding; r_additional : list binding }.

Record httpBinding := MkHttpBinding { b_method : gostring; b_path : gostring; b_body : gostring }.

Definition bindingOf (r : binding) : option httpBinding :=
  let mk m p := if string_eqb m [] || string_eqb p [] then None else Some (MkHttpBinding m p (r_body r)) in
  match r_pattern r with
  | RuleGet p => mk (str "GET") p
  | RulePut p => mk (str "PUT") p
  | RulePost p => mk (str "POST") p
  | RuleDelete p => mk (str "DELETE") p
  | RulePatch p => mk (str "PATCH") p
  | RuleCustom k p => mk (ToUpper k) p
  | RuleNone => None
  end.

Definition flattenRule (r : httpRule) : list httpBinding := omap bindingOf (r_main r :: r_additional r).

Record methodDesc := MkMethod { m_name : gostring; m_rule : option httpRule; m_streaming : bool }.

Record route := MkRoute {
  rt_httpMethod : gostring;
  rt_template : pathTemplate;
  rt_body : gostring;
  rt_method : gostring;
  rt_streaming : bool
}.

Fixpoint method_routes (m : methodDesc) (bs : list httpBinding) : tmplErr + list route :=
  match bs with
  | [] => inr []
  | b :: bs =>
      match parseTemplate (b_path b) with
      | inl e => inl e
      | inr t =>
          match method_routes m bs with
          | inl e => inl e
          | inr l => inr (MkRoute (b_method b) t (b_body b) (m_name m) (m_streaming m) :: l)
          end
      end
  end.

Inductive routesErr := ErrTemplate (method : gostring) (e : tmplErr) | ErrNoRoutes.

Fixpoint collect_routes (ms : list methodDesc) : routesErr + list route :=
  match ms with
  | [] => inr []
  | m :: ms =>
      match m_rule m with
      | None => collect_routes ms
      | Some rule =>
          match method_routes m (flattenRule rule) with
          | inl e => inl (ErrTemplate (m_name m) e)
          | inr l => match collect_routes ms with inl e => inl e | inr k => inr (l ++ k) end
          end
      end
  end.

(** [routesFromFiles], over the methods in the order in which they are visited. *)
Definition routesFromFiles (ms : list methodDesc) : routesErr + list route :=
  match collect_routes ms with
  | inl e => inl e
  | inr [] => inl ErrNoRoutes
  | inr l => inr l
  end.

(** [Transcoder.match]: the first route that matches. *)
Fixpoint route_match (routes : list route) (httpMethod path : gostring) : option (route * gmap gostring gostring) :=
  match routes with
  | [] => None
  | rt :: routes =>
      if negb (string_eqb (rt_httpMethod rt) httpMethod) then route_match routes httpMethod path
      else match template_match (rt_template rt) path with
           | Some vars => Some (rt, vars)
           | None => route_match routes httpMethod path
           end
  end.
End Templates.

(** ** What a template matches *)

(** The segments an element takes. *)
Inductive fits : tmplElem -> list gostring -> Prop :=
| fits_literal lit : fits (tmplLiteral lit) [lit]
| fits_single seg : seg <> [] -> fits tmplSingle [seg]
| fits_rest segs : fits tmplRest segs.

Definition part_of (parts : list (list gostring)) (c : tmplCapture) : gostring :=
  JoinByte (concat (take (c_end c - c_start c) (drop (c_start c) parts))) slash.

Definition verb_suffix (verb : gostring) : gostring := if string_eqb verb [] then [] else colon :: verb.

Fixpoint offsets (si : nat) (parts : list (list gostring)) : list nat :=
  si :: match parts with [] => [] | p :: parts => offsets (si + length p) parts end.

Lemma offsets_lookup parts : forall si i, (i <= length parts)%nat -> offsets si parts !! i = Some (si + length (concat (take i parts)))%nat.
Proof.
  induction parts as [|p parts IH]; intros si [|i] Hi; cbn in *; [f_equal; lia|lia|f_equal; lia|].
  rewrite IH by lia. f_equal. rewrite length_app. lia.
Qed.

Lemma drop_lookup_cons {A} (l : list A) i x : l !! i = Some x -> drop i l = x :: drop (S i) l.
Proof. intros E. by rewrite (drop_S l x i). Qed.

Lemma walk_fits els segs : forall si starts, (si <= length segs)%nat -> walk els segs si = Some starts ->
  exists parts, Forall2 fits els parts /\ drop si segs = concat parts /\ starts = offsets si parts.
Proof.
  induction els as [|el els IH]; intros si starts Hsi; cbn.
  - destruct (si =? length segs)%nat eqn:E; [|done]. intros [= <-]. exists []. apply Nat.eqb_eq in E as ->.
    by rewrite drop_all.
  - intros (rest & HW & ->)%fmap_Some. destruct el as [lit| |].
    + case_bool_decide as El; [|done]. pose proof (lookup_lt_Some _ _ _ El).
      apply IH in HW as (parts & HF & HD & ->); [|lia]. exists ([lit] :: parts).
      rewrite (drop_lookup_cons _ _ _ El), HD. cbn. rewrite Nat.add_1_r. by repeat constructor.
    + destruct (segs !! si) as [seg|] eqn:El; [|done]. pose proof (lookup_lt_Some _ _ _ El).
      unfold string_eqb in HW. case_bool_decide as En; [done|].
      apply IH in HW as (parts & HF & HD & ->); [|lia]. exists ([seg] :: parts).
      rewrite (drop_lookup_cons _ _ _ El), HD. cbn. rewrite Nat.add_1_r. by repeat constructor.
    + apply IH in HW as (parts & HF & HD & ->); [|done]. exists (drop si segs :: parts).
      rewrite drop_all in HD. cbn. rewrite <- HD, app_nil_r, length_drop.
      rewrite Nat.add_comm, Nat.sub_add by done. by repeat constructor.
Qed.

Lemma fits_walk els segs parts : Forall2 fits els parts -> early_rest els = false -> forall si, (si <= length segs)%nat ->
  drop si segs = concat parts -> walk els segs si = Some (offsets si parts).
Proof.
  induction 1 as [|el p els parts Hf HF IH]; intros HE si Hsi HD; cbn.
  - apply (f_equal length) in HD. rewrite length_drop in HD. cbn in HD. by rewrite (proj2 (Nat.eqb_eq si (length segs))) by lia.
  - assert (early_rest els = false) as HE' by (destruct els; [done|]; by apply orb_false_iff in HE as [_ ?]).
    assert (forall x k, drop si segs = x :: k -> segs !! si = Some x /\ drop (S si) segs = k /\ (S si <= length segs)%nat) as Hc.
    { intros x k E. assert (segs !! si = Some x) as El by (by rewrite <- (Nat.add_0_r si), <- lookup_drop, E).
      pose proof (lookup_lt_Some _ _ _ El). rewrite (drop_lookup_cons _ _ _ El) in E. by simplify_eq. }
    destruct Hf as [lit|seg Hs|rest]; cbn in HD.
    + apply Hc in HD as (El & HD & HL). rewrite bool_decide_true by done. rewrite IH, Nat.add_1_r by done. done.
    + apply Hc in HD as (El & HD & HL). rewrite El. unfold string_eqb. rewrite bool_decide_false by done.
      by rewrite IH, Nat.add_1_r.
    + destruct HF as [|el' p' els parts]; [|by cbn in HE; rewrite bool_decide_true in HE].
      cbn in *. rewrite app_nil_r in HD. rewrite <- HD, length_drop, Nat.eqb_refl. cbn. do 3 f_equal. lia.
Qed.

(** Captures stay within the elements. *)
Definition capture_ok (n : nat) (c : tmplCapture) : Prop := (c_start c <= c_end c <= n)%nat.

Definition building_ok (t : building) : Prop := Forall (capture_ok (length t.1)) t.2.

Lemma capture_ok_le n m c : (n <= m)%nat -> capture_ok n c -> capture_ok m c.
Proof. unfold capture_ok. lia. Qed.

Lemma add_elems_ok els t : building_ok t -> building_ok (add_elems els t).
Proof.
  unfold building_ok. cbn. intros HF. eapply Forall_impl; [exact HF|]. intros c. apply capture_ok_le. rewrite length_app. lia.
Qed.

Lemma add_capture_ok els field t : building_ok t ->
  building_ok ((add_elems els t).1, (add_elems els t).2 ++ [MkCapture field (length t.1) (length (add_elems els t).1)]).
Proof.
  intros HA%(add_elems_ok els). apply Forall_app. split; [apply HA|]. constructor; [|done].
  unfold capture_ok. cbn. rewrite length_app. lia.
Qed.

Section Match.
Context `{Unicode}.

Lemma addSegment_ok seg t t' : building_ok t -> addSegment seg t = inr t' -> building_ok t'.
Proof.
  intros HB. unfold addSegment, addVariable.
  repeat (case_match; try done); intros [= <-]; first [by apply add_elems_ok|by apply add_capture_ok].
Qed.

Lemma addSegments_ok segs : forall t t', building_ok t -> addSegments segs t = inr t' -> building_ok t'.
Proof.
  induction segs as [|seg segs IH]; intros t t' HB; cbn; [by intros [= <-]|].
  destruct (addSegment seg t) as [|t1] eqn:E; [done|]. apply IH. by eapply addSegment_ok.
Qed.

Lemma parse_ok raw t : parseTemplate raw = inr t ->
  early_rest (t_elems t) = false /\ Forall (capture_ok (length (t_elems t))) (t_captures t).
Proof.
  unfold parseTemplate. destruct raw as [|c raw]; [done|]. destruct (negb _); [done|].
  destruct (match lastVerbColon _ with Some _ => _ | None => _ end) as [s verb].
  destruct (addSegments _ _) as [|[els caps]] eqn:E; [done|]. destruct (early_rest els) eqn:ER; [done|].
  intros [= <-]. split; [done|]. exact (addSegments_ok _ ([], []) _ (Forall_nil_2 _) E).
Qed.
End Match.

Lemma captured_part segs parts c : capture_ok (length parts) c -> segs = concat parts ->
  captured segs (offsets 0 parts) c = part_of parts c.
Proof.
  intros [H1 H2] ->. unfold captured, part_of, slice. rewrite !offsets_lookup by lia. cbn. f_equal.
  set (a := c_start c) in *. set (b := (c_end c - a)%nat).
  replace (c_end c) with (a + b)%nat by (subst b; lia). rewrite <- take_take_drop, concat_app, length_app.
  replace (concat parts) with (concat (take a parts) ++ concat (take b (drop a parts)) ++ concat (drop b (drop a parts)))
    by (by rewrite <- !concat_app, !take_drop).
  rewrite drop_app_length. apply take_app_length'. lia.
Qed.

Lemma foldl_captures (f g : tmplCapture -> gostring) (l : list tmplCapture) m :
  Forall (fun c => f c = g c) l -> foldl (set_capture f) m l = foldl (set_capture g) m l.
Proof.
  intros HF. revert m. induction HF as [|c l Hc HF IH]; intros m; [done|]. cbn. unfold set_capture at 2 4. by rewrite Hc, IH.
Qed.

(** The part of a path before the verb. *)
Lemma verb_split verb path rest :
  (if negb (string_eqb verb []) && negb (HasSuffix path (colon :: verb)) then None
   else Some (if negb (string_eqb verb []) then take (length path - length (colon :: verb)) path else path)) = Some rest <->
  path = rest ++ verb_suffix verb.
Proof.
  unfold verb_suffix. destruct (string_eqb verb []) eqn:Ev; cbn [negb andb].
  - rewrite app_nil_r. naive_solver.
  - destruct (HasSuffix path (colon :: verb)) eqn:Es; cbn [negb].
    + apply HasSuffix_spec in Es as [t ->]. rewrite length_app.
      replace (length t + length (colon :: verb) - length (colon :: verb))%nat with (length t) by lia.
      rewrite take_app_length. split; [by intros [= <-]|]. intros E%app_inv_tail. congruence.
    + split; [done|]. intros ->. by rewrite HasSuffix_app in Es.
Qed.

Lemma template_match_cases t path vars : template_match t path = Some vars <->
  exists rest starts, path = slash :: rest ++ verb_suffix (t_verb t) /\ walk (t_elems t) (SplitByte rest slash) 0 = Some starts /\
    vars = foldl (set_capture (captured (SplitByte rest slash) starts)) ∅ (t_captures t).
Proof.
  pose proof (verb_split (t_verb t) path) as HV. unfold template_match.
  destruct (negb (string_eqb (t_verb t) []) && negb (HasSuffix path (colon :: t_verb t))).
  - split; [done|]. intros (rest & starts & E & _). by apply (HV (slash :: rest)) in E.
  - set (p := if negb _ then _ else _) in *. assert (path = p ++ verb_suffix (t_verb t)) as Ep by by apply HV.
    destruct p as [|c rest] eqn:E; [|destruct (negb (c =? slash)) eqn:Ec].
    + split; [done|]. intros (rest & starts & Hp & _). by apply (HV (slash :: rest)) in Hp.
    + split; [done|]. intros (rest' & starts & Hp & _). apply (HV (slash :: rest')) in Hp as [= -> ->]. done.
    + assert (c = slash) as -> by lia. rewrite fmap_Some. split.
      * intros (starts & HW & ->). by exists rest, starts.
      * intros (rest' & starts & Hp & HW & ->). apply (HV (slash :: rest')) in Hp as [= ->]. by exists starts.
Qed.

(** C31: A template matches exactly the paths that spell it: the path is cut into
    segments, each literal stands for itself, each star for one segment that is
    not empty, a final double star for all that are left, with the verb behind;
    and each variable is bound to the part of the path its elements stand for. *)
Theorem template_match_exact `{Unicode} (raw : gostring) (t : pathTemplate) (path : gostring) (vars : gmap gostring gostring) :
  parseTemplate raw = inr t ->
  (template_match t path = Some vars <->
   exists parts, Forall2 fits (t_elems t) parts /\ concat parts <> [] /\ Forall (fun seg => slash ∉ seg) (concat parts) /\
     path = slash :: JoinByte (concat parts) slash ++ verb_suffix (t_verb t) /\
     vars = foldl (set_capture (part_of parts)) ∅ (t_captures t)).
Proof.
  intros [HE HC]%parse_ok. rewrite template_match_cases. split.
  - intros (rest & starts & -> & HW & ->). apply walk_fits in HW as (parts & HF & HD & ->); [|lia]. rewrite drop_0 in HD.
    exists parts. rewrite <- HD. split_and!; [done| |apply SplitByte_notin|by rewrite JoinByte_SplitByte|].
    + by destruct (SplitByte_cons rest slash) as (x & l & ->).
    + apply foldl_captures. eapply Forall_impl; [exact HC|]. intros c Hc. apply captured_part; [|done].
      by rewrite <- (Forall2_length _ _ _ HF).
  - intros (parts & HF & Hn & HS & -> & ->). exists (JoinByte (concat parts) slash), (offsets 0 parts).
    rewrite SplitByte_JoinByte by done. split_and!; [done|apply fits_walk; [done|done|lia|done]|].
    symmetry. apply foldl_captures. eapply Forall_impl; [exact HC|]. intros c Hc. apply captured_part; [|done].
    by rewrite <- (Forall2_length _ _ _ HF).
Qed.

(** ** Printing templates *)

Inductive item :=
| ILit (lit : gostring)
| IStar
| IRest
| IVar (field : list gostring) (subs : list tmplElem).

Definition print_elem (el : tmplElem) : gostring :=
  match el with tmplLiteral lit => lit | tmplSingle => str "*" | tmplRest => str "**" end.

Definition print_inner (field : list gostring) (subs : list tmplElem) : gostring :=
  JoinByte field 46 ++ 61 :: JoinByte (map print_elem subs) slash.

Definition print_item (it : item) : gostring :=
  match it with
  | ILit lit => lit
  | IStar => str "*"
  | IRest => str "**"
  | IVar field subs => lbrace :: print_inner field subs ++ [rbrace]
  end.

Definition print_template (items : list item) (verb : gostring) : gostring :=
  slash :: JoinByte (map print_item items) slash ++ verb_suffix verb.

Definition compile_item (t : building) (it : item) : building :=
  match it with
  | ILit lit => add_elems [tmplLiteral lit] t
  | IStar => add_elems [tmplSingle] t
  | IRest => add_elems [tmplRest] t
  | IVar field subs => ((add_elems subs t).1, t.2 ++ [MkCapture field (length t.1) (length (add_elems subs t).1)])
  end.

Definition compile (items : list item) : building := foldl compile_item ([], []) items.

(** Text without the bytes of a set. *)
Definition without (chars : gostring) (s : gostring) : Prop := Forall (fun c => c ∉ chars) s.

Definition ident_byte (c : Z) : bool := is_alpha c || is_digit c || (c =? 95).

Definition valid_sub (el : tmplElem) : Prop :=
  match el with tmplLiteral lit => lit <> [] /\ without (str "/{}*") lit | _ => True end.

Definition valid_item (it : item) : Prop :=
  match it with
  | ILit lit => without (str "/{}:") lit /\ lit <> str "*" /\ lit <> str "**"
  | IStar | IRest => True
  | IVar field subs =>
      field <> [] /\ Forall (fun f => f <> [] /\ forallb ident_byte f = true) field /\ subs <> [] /\ Forall valid_sub subs
  end.

Lemma without_not c chars s : without chars s -> c ∈ chars -> c ∉ s.
Proof. intros HW Hc Hs. exact (proj1 (Forall_forall _ _) HW c Hs Hc). Qed.

Lemma without_Join chars l c : c ∉ chars -> Forall (without chars) l -> without chars (JoinByte l c).
Proof.
  intros Hc HF. induction HF as [|x l Hx HF IH]; [by constructor|]. destruct l as [|y l]; [done|].
  rewrite JoinByte_cons by done. apply Forall_app. split; [done|]. by constructor.
Qed.

(** Bytes that do not change the depth stay in one segment. *)
Definition glue (p : gostring) (l : list gostring) : list gostring :=
  match l with x :: l => (p ++ x) :: l | [] => [p] end.

Lemma split_depth_cons d s : exists x l, split_depth d s = x :: l.
Proof.
  destruct s as [|c s]; cbn; [by eexists _, _|]. destruct ((c =? slash) && (d =? 0)%nat); [by eexists _, _|].
  destruct (split_depth _ s); by eexists _, _.
Qed.

Lemma split_plain p : forall d s, without (str "{}") p -> (d = O -> slash ∉ p) ->
  split_depth d (p ++ s) = glue p (split_depth d s).
Proof.
  induction p as [|c p IH]; intros d s HW Hd; cbn [app].
  - by destruct (split_depth_cons d s) as (x & l & ->).
  - inversion_clear HW as [|?? Hc HW']. cbn [split_depth].
    replace ((c =? slash) && (d =? 0)%nat) with false.
    2:{ symmetry. apply andb_false_iff. destruct d; [left|by right]. specialize (Hd eq_refl). set_unfold. lia. }
    replace (c =? lbrace) with false by (symmetry; apply Z.eqb_neq; intros ->; by apply Hc; vm_compute; constructor).
    replace (c =? rbrace) with false by (symmetry; apply Z.eqb_neq; intros ->; by apply Hc; vm_compute; repeat constructor).
    rewrite IH by (done || (intros E; specialize (Hd E); set_solver)).
    by destruct (split_depth_cons d s) as (x & l & ->).
Qed.

Lemma split_braces p s : without (str "{}") p ->
  split_depth 0 (lbrace :: p ++ rbrace :: s) = glue (lbrace :: p ++ [rbrace]) (split_depth 0 s).
Proof.
  intros HW. cbn [split_depth]. change ((lbrace =? slash) && _) with false. change (lbrace =? lbrace) with true. cbn iota.
  rewrite split_plain by done. cbn [split_depth]. change ((rbrace =? slash) && _) with false. cbn.
  destruct (split_depth_cons 0 s) as (x & l & ->). cbn. by rewrite <- app_assoc.
Qed.

Lemma print_elem_without el : valid_sub el -> without (str "/{}") (print_elem el).
Proof.
  destruct el as [lit| |]; cbn.
  - intros [_ HW]. eapply Forall_impl; [exact HW|]. intros c Hc. set_unfold. naive_solver.
  - intros _. apply Forall_forall. vm_compute. intros x. set_solver.
  - intros _. apply Forall_forall. vm_compute. intros x. set_solver.
Qed.

Lemma ident_range c : ident_byte c = true -> 48 <= c <= 122 /\ c <> 61 /\ c <> 58.
Proof. unfold ident_byte, is_alpha, is_digit. lia. Qed.

(** A dotted field path: plain bytes, none of them a space. *)
Lemma field_text field : Forall (fun f => f <> [] /\ forallb ident_byte f = true) field ->
  Forall (fun c => ident_byte c = true \/ c = 46) (JoinByte field 46).
Proof.
  intros HF. induction HF as [|f l [_ Hf] HF IH]; [by constructor|].
  assert (Forall (fun c => ident_byte c = true \/ c = 46) f) as Hf'.
  { apply Forall_forall. intros c Hc. left. rewrite forallb_forall in Hf. apply Hf. by apply list_elem_of_In. }
  destruct l as [|g l]; [done|]. rewrite JoinByte_cons by done. apply Forall_app. split; [done|]. constructor; [by right|done].
Qed.

Lemma field_text_range s : Forall (fun c => ident_byte c = true \/ c = 46) s -> Forall (fun c => 46 <= c <= 122 /\ c <> 61 /\ c <> 58 /\ c <> 47) s.
Proof.
  intros HF. eapply Forall_impl; [exact HF|]. intros c [Hc| ->]; [|lia]. apply ident_range in Hc. lia.
Qed.

Lemma without_range (chars s : gostring) (P : Z -> Prop) : Forall P s -> (forall c, P c -> c ∉ chars) -> without chars s.
Proof. intros HF HP. eapply Forall_impl; [exact HF|]. exact HP. Qed.

Lemma inner_without field subs : valid_item (IVar field subs) -> without (str "{}") (print_inner field subs).
Proof.
  intros (_ & HF & _ & HS). apply Forall_app. split.
  - apply field_text, field_text_range in HF. eapply without_range; [exact HF|]. intros c Hc. vm_compute. set_unfold. lia.
  - constructor; [vm_compute; set_unfold; lia|]. apply without_Join; [vm_compute; set_unfold; lia|]. apply Forall_map.
    eapply Forall_impl; [exact HS|]. intros el He. eapply Forall_impl; [by apply print_elem_without|].
    intros c. cbn. set_unfold. naive_solver.
Qed.

Lemma split_item it s : valid_item it -> split_depth 0 (print_item it ++ s) = glue (print_item it) (split_depth 0 s).
Proof.
  assert (forall p, without (str "/{}") p -> split_depth 0 (p ++ s) = glue p (split_depth 0 s)) as Hp.
  { intros p HW. apply split_plain; [|intros _; eapply without_not; [exact HW|vm_compute; constructor]].
    eapply Forall_impl; [exact HW|]. intros c. cbn. set_unfold. naive_solver. }
  destruct it as [lit| | |field subs]; intros HV.
  - apply Hp. destruct HV as [HW _]. eapply Forall_impl; [exact HW|]. intros c. cbn. set_unfold. naive_solver.
  - by apply Hp, (print_elem_without tmplSingle).
  - by apply Hp, (print_elem_without tmplRest).
  - cbn [print_item]. cbn [app]. rewrite <- app_assoc. by apply split_braces, inner_without.
Qed.

Lemma split_slash s : split_depth 0 (slash :: s) = [] :: split_depth 0 s.
Proof. done. Qed.

Lemma split_items items : items <> [] -> Forall valid_item items ->
  splitSegments (JoinByte (map print_item items) slash) = map print_item items.
Proof.
  intros Hn HF. unfold splitSegments. induction HF as [|it items Hi HF IH]; [done|]. cbn [map].
  destruct items as [|it' items]; cbn [map].
  - cbn [JoinByte]. rewrite <- (app_nil_r (print_item it)) at 1. rewrite split_item by done. cbn. by rewrite app_nil_r.
  - rewrite JoinByte_cons by done. rewrite split_item by done. rewrite split_slash. cbn [glue]. rewrite app_nil_r.
    f_equal. by apply IH.
Qed.

(** A sub-template has no braces, so that every slash separates. *)
Lemma split_no_braces s : without (str "{}") s -> split_depth 0 s = SplitByte s slash.
Proof.
  induction s as [|c s IH]; intros HW; [done|]. inversion_clear HW as [|?? Hc HW']. cbn [split_depth SplitByte].
  change (0 =? 0)%nat with true. rewrite andb_true_r.
  replace (c =? lbrace) with false by (symmetry; apply Z.eqb_neq; intros ->; by apply Hc; vm_compute; constructor).
  replace (c =? rbrace) with false by (symmetry; apply Z.eqb_neq; intros ->; by apply Hc; vm_compute; repeat constructor).
  by rewrite IH.
Qed.

Lemma ContainsAny_without s chars : without chars s -> ContainsAny s chars = false.
Proof.
  intros HW. unfold ContainsAny. induction HW as [|c s Hc HW IH]; [done|]. cbn. by rewrite bool_decide_false, IH.
Qed.

Lemma sub_elem_print inner el : valid_sub el -> sub_elem inner (print_elem el) = inr el.
Proof.
  destruct el as [lit| |]; [|done|done]. intros [Hn HW]. cbn. unfold sub_elem, string_eqb.
  assert (42 ∉ lit) as Hs by (eapply without_not; [exact HW|vm_compute; repeat constructor]).
  rewrite !bool_decide_false; [|done|intros ->; apply Hs; vm_compute; constructor|intros ->; apply Hs; vm_compute; constructor].
  rewrite ContainsAny_without; [done|]. eapply Forall_impl; [exact HW|]. intros c. cbn. set_unfold. naive_solver.
Qed.

Lemma sub_elems_print inner subs : Forall valid_sub subs -> sub_elems inner (map print_elem subs) = inr subs.
Proof. induction 1 as [|el subs He HF IH]; [done|]. cbn. by rewrite sub_elem_print, IH. Qed.

Lemma subs_split subs : subs <> [] -> Forall valid_sub subs ->
  splitSegments (JoinByte (map print_elem subs) slash) = map print_elem subs.
Proof.
  intros Hn HS. assert (Forall (without (str "/{}")) (map print_elem subs)) as HW.
  { apply Forall_map. eapply Forall_impl; [exact HS|]. apply print_elem_without. }
  unfold splitSegments. rewrite split_no_braces.
  - apply SplitByte_JoinByte; [by destruct subs|]. eapply Forall_impl; [exact HW|]. intros p Hp.
    eapply without_not; [exact Hp|vm_compute; constructor].
  - apply without_Join; [vm_compute; set_unfold; lia|]. eapply Forall_impl; [exact HW|]. intros p Hp.
    eapply Forall_impl; [exact Hp|]. intros c. cbn. set_unfold. naive_solver.
Qed.

Section Roundtrip.
Context `{Unicode}.

Lemma field_parsed field : field <> [] -> Forall (fun f => f <> [] /\ forallb ident_byte f = true) field ->
  let s := JoinByte field 46 in TrimSpace s = s /\ s <> [] /\ SplitByte s 46 = field /\ 61 ∉ s.
Proof.
  intros Hn HF s. pose proof (field_text_range _ (field_text _ HF)) as HR. split_and!.
  - unfold TrimSpace. replace (ascii _) with true.
    + apply Trim_id. eapply Forall_impl; [exact HR|]. intros c Hc. cbn in Hc. unfold ascii_space. lia.
    + symmetry. apply forallb_forall. intros c Hc%list_elem_of_In. rewrite Forall_forall in HR. apply HR in Hc. lia.
  - destruct HF as [|f l [Hf _] HF]; [done|]. subst s. destruct l; cbn; [done|]. by destruct f.
  - apply SplitByte_JoinByte; [done|]. eapply Forall_impl; [exact HF|]. intros f [_ Hf] Hi%list_elem_of_In.
    rewrite forallb_forall in Hf. apply Hf, ident_range in Hi. lia.
  - intros Hi. rewrite Forall_forall in HR. apply HR in Hi. lia.
Qed.

Lemma addVariable_print field subs t : valid_item (IVar field subs) ->
  addVariable (print_inner field subs) t = inr (compile_item t (IVar field subs)).
Proof.
  intros (Hf & HF & Hs & HS). destruct (field_parsed field Hf HF) as (ET & Hn & ES & H61).
  unfold addVariable, print_inner. rewrite CutByte_app by done. rewrite ET. unfold string_eqb at 1.
  rewrite bool_decide_false by done. rewrite ES.
  replace (existsb _ field) with false.
  2:{ symmetry. clear -HF. induction HF as [|f l [Hf _] HF IH]; [done|]. cbn. unfold string_eqb at 1. by rewrite bool_decide_false, IH. }
  rewrite subs_split, sub_elems_print by done. cbn [negb orb].
  destruct (string_eqb _ [] || string_eqb _ (str "*")) eqn:E; [|done].
  assert (subs = [tmplSingle]) as ->; [|done].
  apply orb_true_iff in E as [E|E]; apply bool_decide_eq_true in E.
  all: pose proof (subs_split subs Hs HS) as HP; rewrite E in HP.
  all: destruct subs as [|el [|]]; try done; cbn in HP; injection HP as HP; destruct el as [lit| |]; try done; cbn in HP.
  - apply Forall_cons in HS as [[Hl _] _]. by subst lit.
  - apply Forall_cons in HS as [[_ HW] _]. subst lit. exfalso. eapply (without_not 42); [exact HW| |]; vm_compute; repeat constructor.
Qed.

Lemma addSegment_print it t : valid_item it -> addSegment (print_item it) t = inr (compile_item t it).
Proof.
  destruct it as [lit| | |field subs]; [|done|done|].
  - intros (HW & H1 & H2). cbn. unfold addSegment, string_eqb. rewrite !bool_decide_false by done.
    destruct lit as [|c lit]; [done|]. pose proof (Forall_inv HW) as Hc. cbn [HasPrefix].
    replace (c =? lbrace) with false by (symmetry; apply Z.eqb_neq; intros ->; apply Hc; vm_compute; repeat constructor).
    cbn [andb]. rewrite bool_decide_false by done. rewrite ContainsAny_without; [done|].
    eapply Forall_impl; [exact HW|]. intros d. cbn. set_unfold. naive_solver.
  - intros HV. unfold addSegment. cbn [print_item]. set (p := print_inner field subs).
    unfold string_eqb. rewrite !bool_decide_false by done.
    replace (HasPrefix _ _ && HasSuffix _ _) with true.
    2:{ symmetry. apply andb_true_iff. split; [by destruct (p ++ [rbrace])|]. exact (HasSuffix_app [rbrace] (lbrace :: p)). }
    cbn [drop length]. rewrite length_app. replace (S (length p + length [rbrace]) - 2)%nat with (length p) by (cbn; lia).
    rewrite drop_0, take_app_length. by apply addVariable_print.
Qed.

Lemma addSegments_print items : forall t, Forall valid_item items ->
  addSegments (map print_item items) t = inr (foldl compile_item t items).
Proof.
  induction items as [|it items IH]; intros t HF; [done|]. inversion_clear HF. cbn. rewrite addSegment_print by done. by apply IH.
Qed.
End Roundtrip.

(** ** The verb *)

Lemma verb_scan_plain p : forall d r, without (str "{}") p -> (d = O -> slash ∉ p /\ colon ∉ p) ->
  verb_scan d (p ++ r) = (fun n => length p + n)%nat <$> verb_scan d r.
Proof.
  induction p as [|c p IH]; intros d r HW Hd; cbn [app].
  - by destruct (verb_scan d r).
  - inversion_clear HW as [|?? Hc HW']. cbn [verb_scan].
    replace (c =? rbrace) with false by (symmetry; apply Z.eqb_neq; intros ->; by apply Hc; vm_compute; repeat constructor).
    replace (c =? lbrace) with false by (symmetry; apply Z.eqb_neq; intros ->; by apply Hc; vm_compute; constructor).
    assert ((c =? slash) && (d =? 0)%nat = false /\ (c =? colon) && (d =? 0)%nat = false) as [-> ->].
    { destruct d; [|by rewrite !andb_false_r]. specialize (Hd eq_refl). set_unfold. unfold slash, colon in *. lia. }
    rewrite IH; [by destruct (verb_scan d r)|done|]. intros E. specialize (Hd E). set_solver.
Qed.

Lemma without_rev chars s : without chars s -> without chars (rev s).
Proof. intros HW. apply Forall_rev. exact HW. Qed.

Lemma verb_scan_item it r : valid_item it -> verb_scan 0 (rev (print_item it) ++ slash :: r) = None.
Proof.
  assert (forall p, without (str "/{}:") p -> verb_scan 0 (rev p ++ slash :: r) = None) as Hp.
  { intros p HW%without_rev. rewrite verb_scan_plain; [done| |].
    - eapply Forall_impl; [exact HW|]. intros c. cbn. set_unfold. naive_solver.
    - intros _. split; (eapply without_not; [exact HW|vm_compute; repeat constructor]). }
  destruct it as [lit| | |field subs]; intros HV.
  - apply Hp. apply HV.
  - apply Hp. apply Forall_forall. vm_compute. intros x. set_solver.
  - apply Hp. apply Forall_forall. vm_compute. intros x. set_solver.
  - cbn [print_item rev]. rewrite rev_app_distr, <- !app_assoc. cbn [rev app verb_scan]. change (rbrace =? rbrace) with true. cbn iota.
    rewrite verb_scan_plain; [done|by apply without_rev, inner_without|done].
Qed.

Lemma items_end items : items <> [] -> exists it r, it ∈ items /\
  slash :: JoinByte (map print_item items) slash = r ++ slash :: print_item it.
Proof.
  induction items as [|it items IH]; [done|]. intros _. destruct items as [|it' items].
  - exists it, []. split; [constructor|done].
  - destruct IH as (last & r & Hin & E); [done|]. exists last, (slash :: print_item it ++ r). split; [by constructor|].
    cbn [map]. rewrite JoinByte_cons by done. rewrite <- app_comm_cons, <- app_assoc. by rewrite <- E.
Qed.

Definition valid_verb (verb : gostring) : Prop := without (str "/{}:") verb.

Lemma lastVerbColon_print items verb : items <> [] -> Forall valid_item items -> valid_verb verb ->
  lastVerbColon (print_template items verb) =
  if string_eqb verb [] then None else Some (length (slash :: JoinByte (map print_item items) slash)).
Proof.
  intros Hn HF HV. unfold lastVerbColon, print_template, verb_suffix. destruct (string_eqb verb []).
  - rewrite app_nil_r. destruct (items_end items Hn) as (it & r & Hin & ->). rewrite rev_app_distr. cbn [rev].
    rewrite <- app_assoc. cbn [app]. rewrite verb_scan_item; [done|]. by eapply Forall_forall in HF.
  - rewrite app_comm_cons. set (p := slash :: JoinByte _ _). rewrite rev_app_distr. cbn [rev]. rewrite <- !app_assoc.
    apply without_rev in HV. rewrite verb_scan_plain.
    + cbn. f_equal. rewrite length_app, length_rev. cbn. lia.
    + eapply Forall_impl; [exact HV|]. intros c. cbn. set_unfold. naive_solver.
    + intros _. split; (eapply without_not; [exact HV|vm_compute; repeat constructor]).
Qed.

(** What a template's author writes is what the parser reads: the text of a list
    of items, with the double star at most at the end, is parsed to exactly their
    elements, captures and verb. *)
Theorem template_roundtrip `{Unicode} (items : list item) (verb : gostring) :
  items <> [] -> Forall valid_item items -> valid_verb verb ->
  parseTemplate (print_template items verb) =
  if early_rest (compile items).1 then inl ErrRestNotLast
  else inr (MkTemplate (print_template items verb) (compile items).1 (compile items).2 verb (bool_decide (last (compile items).1 = Some tmplRest))).
Proof.
  intros Hn HF HV. unfold parseTemplate. rewrite lastVerbColon_print by done. unfold print_template at 1.
  change (negb (slash =? slash)) with false. cbn iota.
  transitivity (match addSegments (splitSegments (JoinByte (map print_item items) slash)) ([], []) with
    | inl e => inl e
    | inr (els, caps) => if early_rest els then inl ErrRestNotLast
        else inr (MkTemplate (print_template items verb) els caps verb (bool_decide (last els = Some tmplRest))) end).
  - unfold print_template, verb_suffix. destruct (string_eqb verb []) eqn:Ev.
    + apply bool_decide_eq_true in Ev as ->. by rewrite app_nil_r.
    + rewrite app_comm_cons. rewrite take_app_length. rewrite drop_app_ge by (cbn; lia).
      replace (S (length _) - length _)%nat with 1%nat by lia. done.
  - rewrite split_items, addSegments_print by done. unfold compile. by destruct (foldl compile_item ([], []) items).
Qed.

(** ** The route table *)

Definition route_binding (rt : route) : gostring * gostring * gostring * gostring * bool :=
  (rt_httpMethod rt, t_raw (rt_template rt), rt_body rt, rt_method rt, rt_streaming rt).

Definition method_bindings `{Unicode} (m : methodDesc) : list (gostring * gostring * gostring * gostring * bool) :=
  match m_rule m with
  | None => []
  | Some rule => map (fun b => (b_method b, b_path b, b_body b, m_name m, m_streaming m)) (flattenRule rule)
  end.

Definition answers (httpMethod path : gostring) (rt : route) : Prop :=
  rt_httpMethod rt = httpMethod /\ is_Some (template_match (rt_template rt) path).

Section Routes.
Context `{Unicode}.

Definition parsed (rt : route) : Prop := parseTemplate (t_raw (rt_template rt)) = inr (rt_template rt).

Lemma parse_raw raw t : parseTemplate raw = inr t -> t_raw t = raw.
Proof. unfold parseTemplate. repeat (case_match; try done). all: by intros [= <-]. Qed.

Lemma method_routes_spec m bs : forall l, method_routes m bs = inr l ->
  map route_binding l = map (fun b => (b_method b, b_path b, b_body b, m_name m, m_streaming m)) bs /\ Forall parsed l.
Proof.
  induction bs as [|b bs IH]; intros l; cbn; [by intros [= <-]|].
  destruct (parseTemplate (b_path b)) as [|t] eqn:E; [done|]. destruct (method_routes m bs) as [|k]; [done|].
  intros [= <-]. destruct (IH k eq_refl) as [<- HF]. pose proof (parse_raw _ _ E) as Er. cbn. unfold route_binding at 1. cbn. rewrite Er.
  split; [done|]. constructor; [|done]. unfold parsed. cbn. by rewrite Er.
Qed.

Lemma collect_routes_spec ms : forall l, collect_routes ms = inr l ->
  map route_binding l = concat (map method_bindings ms) /\ Forall parsed l.
Proof.
  induction ms as [|m ms IH]; intros l; cbn [collect_routes map concat]; [by intros [= <-]|]. unfold method_bindings at 1. destruct (m_rule m) as [rule|].
  - destruct (method_routes m (flattenRule rule)) as [|k] eqn:Ek; [done|]. destruct (collect_routes ms) as [|k']; [done|].
    intros [= <-]. apply method_routes_spec in Ek as [<- HF]. destruct (IH k' eq_refl) as [<- HF'].
    rewrite map_app. split; [done|by apply Forall_app].
  - intros E. by apply IH.
Qed.

Lemma route_match_first routes httpMethod path rt vars :
  route_match routes httpMethod path = Some (rt, vars) <->
  exists before after, routes = before ++ rt :: after /\ Forall (fun q => ~ answers httpMethod path q) before /\
    rt_httpMethod rt = httpMethod /\ template_match (rt_template rt) path = Some vars.
Proof.
  split.
  - induction routes as [|q routes IH]; cbn; [done|]. unfold string_eqb. case_bool_decide as Em; cbn.
    + destruct (template_match (rt_template q) path) as [v|] eqn:E.
      * intros [= -> ->]. by exists [], routes.
      * intros (before & after & -> & HF & HR)%IH. exists (q :: before), after. split; [done|]. split; [|done].
        constructor; [|done]. intros [_ [v Hv]]. congruence.
    + intros (before & after & -> & HF & HR)%IH. exists (q :: before), after. split; [done|]. split; [|done].
      constructor; [|done]. by intros [? _].
  - intros (before & after & -> & HF & Em & Et). induction HF as [|q before Hq HF IH]; cbn; unfold string_eqb.
    + by rewrite bool_decide_true, Et.
    + rewrite IH. case_bool_decide as Eq; cbn; [|done]. destruct (template_match (rt_template q) path) as [v|] eqn:E; [|done].
      exfalso. apply Hq. by split; [|exists v].
Qed.

(** The route table holds every binding of every annotated method, in order,
    with the template its path is parsed to; and a request is given to the first
    route of its method whose template matches its path. *)
Theorem routes_exact (ms : list methodDesc) (routes : list route) :
  routesFromFiles ms = inr routes ->
  routes <> [] /\ map route_binding routes = concat (map method_bindings ms) /\ Forall parsed routes /\
  forall httpMethod path rt vars, route_match routes httpMethod path = Some (rt, vars) <->
    exists before after, routes = before ++ rt :: after /\ Forall (fun q => ~ answers httpMethod path q) before /\
      rt_httpMethod rt = httpMethod /\ template_match (rt_template rt) path = Some vars.
Proof.
  unfold routesFromFiles. destruct (collect_routes ms) as [|l] eqn:E; [done|]. apply collect_routes_spec in E as [HM HF].
  destruct l as [|q l]; [done|]. intros [= <-]. split_and!; [done|done|done|]. intros. apply route_match_first.
Qed.
End Routes.

(** ** Examples *)

Definition demo_items : list item :=
  [ILit (str "v1"); IVar [str "book"; str "name"] [tmplLiteral (str "shelves"); tmplSingle]; IStar; IVar [str "rest"] [tmplRest]].

Definition demo_template : gostring := str "/v1/{book.name=shelves/*}/*/{rest=**}:read".

Definition demo_path : gostring := str "/v1/shelves/7/x/a/b:read".

Definition demo_compiled : pathTemplate :=
  MkTemplate demo_template (compile demo_items).1 (compile demo_items).2 (str "read") true.

Definition demo_parts : list (list gostring) :=
  [[str "v1"]; [str "shelves"]; [str "7"]; [str "x"]; [str "a"; str "b"]].

Lemma template_match_exact_witness :
  parseTemplate (H := no_unicode) demo_template = inr demo_compiled /\
  template_match demo_compiled demo_path = Some (foldl (set_capture (part_of demo_parts)) ∅ (t_captures demo_compiled)) /\
  map (part_of demo_parts) (t_captures demo_compiled) = [str "shelves/7"; str "a/b"].
Proof.
  assert (parseTemplate (H := no_unicode) demo_template = inr demo_compiled) as E by (by vm_compute).
  split_and!; [done| |by vm_compute].
  apply (template_match_exact (H := no_unicode) demo_template demo_compiled demo_path _ E). exists demo_parts. split_and!; [|done| |done|done].
  - by repeat constructor.
  - repeat constructor; vm_compute; set_unfold; lia.
Defined.

Lemma template_roundtrip_witness :
  print_template demo_items (str "read") = demo_template /\
  exists t, parseTemplate (H := no_unicode) (print_template demo_items (str "read")) = inr t /\ t_verb t = str "read" /\ t_hasRest t = true.
Proof.
  split; [by vm_compute|].
  rewrite (template_roundtrip (H := no_unicode) demo_items (str "read")).
  - by eexists.
  - done.
  - repeat constructor; vm_compute; try done; set_unfold; lia.
  - repeat constructor; vm_compute; set_unfold; lia.
Defined.

Definition demo_method : methodDesc :=
  MkMethod (str "lib.Get") (Some (MkRule (MkBinding (RuleGet (str "/v1/{id}")) []) [MkBinding (RuleCustom (str "head") (str "/v1/*")) []])) false.

Lemma routes_exact_witness :
  exists routes, routesFromFiles (H := no_unicode) [demo_method] = inr routes /\ length routes = 2%nat /\ Forall (parsed (H := no_unicode)) routes.
Proof.
  destruct (routesFromFiles (H := no_unicode) [demo_method]) as [|routes] eqn:E; [by vm_compute in E|].
  exists routes. split_and!; [done|by vm_compute in E; injection E as <-|].
  exact (proj1 (proj2 (proj2 (routes_exact (H := no_unicode) _ routes E)))).
Defined.
