(* ===== verification/GrpcConns.v ===== *)
(** * The connection cache of the gRPC transcoder (src/internal/transcode/invoke.go)

    The transcoder keeps one connection per backend and workload: active ones,
    and retired ones that stay usable for a grace period.  The operations are
    interleaved at the granularity of the mutex that guards the cache; the dial
    is outside it.  A connection is a number, given out by the dial; the
    connections an operation closes after it has released the mutex are recorded
    with it.  The order in which sync.Map visits its entries is a parameter. *)

From S2P Require Import Prelude GoStrings.

(** A dial identity is a scheme, a network and an address. *)
Notation dialIdentity := (list Z * list Z * list Z)%type.

(** The dial identity and the workload's logical identity. *)
Notation connectionIdentity := (dialIdentity * list Z)%type.

Record cachedConn := MkCached { cc_conn : nat; cc_id : gostring }.
Record retiredConn := MkRetired { rc_conn : nat; rc_id : gostring; rc_retiredAt : Z }.

Definition maxRetiredConns : nat := 256.
(** Thirty seconds. *)
Definition retiredConnGrace : Z := 30000000000.

Record cache := MkCache {
  conns : gmap connectionIdentity cachedConn;
  retired : gmap connectionIdentity retiredConn
}.

(** [sync.Map.Range] visits every entry once, in some order. *)
Class MapRange := {
  range : forall {A : Type}, Z -> gmap connectionIdentity A -> list (connectionIdentity * A);
  range_perm : forall {A : Type} seed (m : gmap connectionIdentity A), range seed m ≡ₚ map_to_list m
}.

(** ** Operations under the mutex *)

Section Cache.
Context `{MapRange} (seed : Z).

(** The first of the entries with the least time. *)
Definition oldest (l : list (connectionIdentity * retiredConn)) : option (connectionIdentity * retiredConn) :=
  foldl (fun o e => match o with
                    | Some b => if rc_retiredAt e.2 <? rc_retiredAt b.2 then Some e else Some b
                    | None => Some e
                    end) None l.

Fixpoint trim_loop (fuel : nat) (m : gmap connectionIdentity retiredConn) : gmap connectionIdentity retiredConn * list nat :=
  match fuel with
  | O => (m, [])
  | S fuel =>
      let l := range seed m in
      if (length l <=? maxRetiredConns)%nat then (m, [])
      else match oldest l with
           | None => (m, [])
           | Some (id, rc) => let '(m, out) := trim_loop fuel (delete id m) in (m, rc_conn rc :: out)
           end
  end.

Definition trimRetiredLocked (c : cache) : cache * list nat :=
  let '(m, out) := trim_loop (S (size (retired c))) (retired c) in (MkCache (conns c) m, out).

Definition retireConnLocked (id : connectionIdentity) (cc : cachedConn) (now : Z) (c : cache) : cache * list nat :=
  let out := match retired c !! id with
             | Some rc => if (rc_conn rc =? cc_conn cc)%nat then [] else [rc_conn rc]
             | None => []
             end in
  let '(c, trimmed) := trimRetiredLocked (MkCache (delete id (conns c)) (<[id := MkRetired (cc_conn cc) (cc_id cc) now]> (retired c))) in
  (c, out ++ trimmed).

(** A callback over the entries visited, collecting what is to be closed. *)
Fixpoint visit {A : Type} (f : connectionIdentity -> A -> cache -> cache * list nat) (l : list (connectionIdentity * A)) (c : cache) : cache * list nat :=
  match l with
  | [] => (c, [])
  | (id, a) :: l => let '(c, out) := f id a c in let '(c, out') := visit f l c in (c, out ++ out')
  end.

Definition retire_other (identity : connectionIdentity) (now : Z) (other : connectionIdentity) (cc : cachedConn) (c : cache) : cache * list nat :=
  if bool_decide (other = identity) || negb (bool_decide (other.1 = identity.1)) then (c, []) else retireConnLocked other cc now c.

Definition retireOtherActiveLocked (identity : connectionIdentity) (now : Z) (c : cache) : cache * list nat :=
  visit (retire_other identity now) (range seed (conns c)) c.

(** ** Eviction *)

(** The logical identity the pool has at a dial identity. *)
Definition live (valid : gmap dialIdentity gostring) (id : connectionIdentity) (held : gostring) : bool :=
  match valid !! id.1 with
  | Some liveID => bool_decide (liveID = id.2) && bool_decide (held = id.2)
  | None => false
  end.

Definition evict_active (valid : gmap dialIdentity gostring) (now : Z) (id : connectionIdentity) (cc : cachedConn) (c : cache) : cache * list nat :=
  if live valid id (cc_id cc) then (c, []) else retireConnLocked id cc now c.

Definition evict_retired (valid : gmap dialIdentity gostring) (now : Z) (id : connectionIdentity) (rc : retiredConn) (c : cache) : cache * list nat :=
  let expired := retiredConnGrace <=? now - rc_retiredAt rc in
  if live valid id (rc_id rc) && negb expired then
    match conns c !! id with
    | Some _ => (c, [])
    | None => (MkCache (<[id := MkCached (rc_conn rc) (rc_id rc)]> (conns c)) (delete id (retired c)), [])
    end
  else if expired then (MkCache (conns c) (delete id (retired c)), [rc_conn rc])
  else (c, []).

Definition evictStaleConns (valid : gmap dialIdentity gostring) (now : Z) (c : cache) : cache * list nat :=
  let '(c, out) := visit (evict_active valid now) (range seed (conns c)) c in
  let '(c, out') := visit (evict_retired valid now) (range seed (retired c)) c in
  (c, out ++ out').

(** ** Lookups *)

(** What a critical section of [connFor] finds: a connection to use, or none. *)
Definition promote (identity : connectionIdentity) (now : Z) (c : cache) : option nat * cache * list nat :=
  match retired c !! identity with
  | Some rc =>
      if now - rc_retiredAt rc <? retiredConnGrace then
        let c := MkCache (<[identity := MkCached (rc_conn rc) identity.2]> (conns c)) (delete identity (retired c)) in
        let '(c, out) := retireOtherActiveLocked identity now c in (Some (rc_conn rc), c, out)
      else (None, MkCache (conns c) (delete identity (retired c)), [rc_conn rc])
  | None => (None, c, [])
  end.

(** The section before the dial. *)
Definition conn_lookup (identity : connectionIdentity) (now : Z) (c : cache) : option nat * cache * list nat :=
  match conns c !! identity with
  | Some cc => let '(c, out) := retireOtherActiveLocked identity now c in (Some (cc_conn cc), c, out)
  | None => promote identity now c
  end.

(** The section after it: the connection to use, the cache, and what is closed,
    the connection dialed included when it is not used. *)
Definition conn_publish (identity : connectionIdentity) (dialed : nat) (now : Z) (c : cache) : nat * cache * list nat :=
  match conns c !! identity with
  | Some cc => (cc_conn cc, c, [dialed])
  | None =>
      match promote identity now c with
      | (Some conn, c, out) => (conn, c, out ++ [dialed])
      | (None, c, out) =>
          let '(c, out') := retireOtherActiveLocked identity now c in
          (dialed, MkCache (<[identity := MkCached dialed identity.2]> (conns c)) (retired c), out ++ out')
      end
  end.

(** [closeConnections]: each connection once. *)
Fixpoint close_once (seen : list nat) (l : list nat) : list nat :=
  match l with
  | [] => []
  | x :: l => if bool_decide (x ∈ seen) then close_once seen l else x :: close_once (x :: seen) l
  end.

Definition closeConnections (l : list nat) : list nat := close_once [] l.

(** Both maps are emptied, each connection closed once. *)
Definition cache_conns (c : cache) : list nat :=
  map (fun e => cc_conn e.2) (map_to_list (conns c)) ++ map (fun e => rc_conn e.2) (map_to_list (retired c)).

Definition close_all (c : cache) : list nat := elements (list_to_set (cache_conns c) : gset nat).
End Cache.

(** ** Requests *)

Inductive grpcPc :=
| CIdle
| CDial (identity : connectionIdentity)
| CPublish (identity : connectionIdentity) (dialed : nat)
| CDone (identity : connectionIdentity) (result : option nat).

(** The state, with the identity each connection was dialed for and the
    connections that were closed. *)
Record transcoder := MkTranscoder {
  tr_cache : cache;
  tr_closed : bool;
  tr_dialed : list connectionIdentity;
  tr_log : list nat;
  tr_pcs : list grpcPc
}.

Definition transcoder_init (n : nat) : transcoder := MkTranscoder (MkCache ∅ ∅) false [] [] (replicate n CIdle).

Inductive grpcLabel :=
| LGet (t : nat) (identity : connectionIdentity) (now seed : Z)
| LDial (t : nat) (ok : bool)
| LPublish (t : nat) (now seed : Z)
| LEvict (valid : gmap dialIdentity gostring) (now seed : Z)
| LCloseAll.

Section Requests.
Context `{MapRange}.

(** A request moves on, with the cache left behind and what is closed. *)
Definition move (t : nat) (pc : grpcPc) (c : cache) (closing : list nat) (s : transcoder) : transcoder :=
  MkTranscoder c (tr_closed s) (tr_dialed s) (tr_log s ++ closing) (<[t := pc]> (tr_pcs s)).

Definition grpc_exec (s : transcoder) (l : grpcLabel) : option transcoder :=
  match l with
  | LGet t identity now seed =>
      match tr_pcs s !! t with
      | Some CIdle | Some (CDone _ _) =>
          if tr_closed s then Some (move t (CDone identity None) (tr_cache s) [] s)
          else
            let '(found, c, out) := conn_lookup seed identity now (tr_cache s) in
            Some (move t (match found with Some conn => CDone identity (Some conn) | None => CDial identity end) c (closeConnections out) s)
      | _ => None
      end
  | LDial t ok =>
      match tr_pcs s !! t with
      | Some (CDial identity) =>
          if ok then
            Some (MkTranscoder (tr_cache s) (tr_closed s) (tr_dialed s ++ [identity]) (tr_log s) (<[t := CPublish identity (length (tr_dialed s))]> (tr_pcs s)))
          else Some (move t (CDone identity None) (tr_cache s) [] s)
      | _ => None
      end
  | LPublish t now seed =>
      match tr_pcs s !! t with
      | Some (CPublish identity dialed) =>
          if tr_closed s then Some (move t (CDone identity None) (tr_cache s) [dialed] s)
          else
            let '(conn, c, out) := conn_publish seed identity dialed now (tr_cache s) in
            Some (move t (CDone identity (Some conn)) c (closeConnections out) s)
      | _ => None
      end
  | LEvict valid now seed =>
      if tr_closed s then Some s
      else
        let '(c, out) := evictStaleConns seed valid now (tr_cache s) in
        Some (MkTranscoder c (tr_closed s) (tr_dialed s) (tr_log s ++ closeConnections out) (tr_pcs s))
  | LCloseAll =>
      if tr_closed s then Some s
      else Some (MkTranscoder (MkCache ∅ ∅) true (tr_dialed s) (tr_log s ++ close_all (tr_cache s)) (tr_pcs s))
  end.
End Requests.

(** ** Ownership *)

Section Values.
Context {A : Type} (f : A -> nat).

Definition vals (m : gmap connectionIdentity A) : list nat := map (fun e => f e.2) (map_to_list m).

Lemma vals_delete m i x : m !! i = Some x -> f x :: vals (delete i m) ≡ₚ vals m.
Proof. intros E. unfold vals. rewrite <- (map_to_list_delete m i x E). done. Qed.

Lemma vals_insert m i x : m !! i = None -> vals (<[i := x]> m) ≡ₚ f x :: vals m.
Proof. intros E. unfold vals. by rewrite (map_to_list_insert m i x E). Qed.

Lemma vals_replace m i x : vals (<[i := x]> m) ≡ₚ f x :: vals (delete i m).
Proof. rewrite <- insert_delete_eq. apply vals_insert. apply lookup_delete_eq. Qed.
End Values.

Lemma cache_conns_vals c : cache_conns c = vals cc_conn (conns c) ++ vals rc_conn (retired c).
Proof. done. Qed.

(** What leaves the cache is what is closed. *)
Definition conserves (c c' : cache) (out : list nat) : Prop := cache_conns c' ++ out ≡ₚ cache_conns c.

(** Each connection is filed under the identity it was dialed for. *)
Definition filed (d : list connectionIdentity) (c : cache) : Prop :=
  (forall i cc, conns c !! i = Some cc -> d !! cc_conn cc = Some i /\ cc_id cc = i.2) /\
  (forall i rc, retired c !! i = Some rc -> d !! rc_conn rc = Some i /\ rc_id rc = i.2).

Definition bounded (c : cache) : Prop := (size (retired c) <= maxRetiredConns)%nat.

Definition one_active (c : cache) : Prop :=
  forall i j, is_Some (conns c !! i) -> is_Some (conns c !! j) -> i.1 = j.1 -> i = j.

Lemma conserves_trans c c1 c2 o1 o2 : conserves c c1 o1 -> conserves c1 c2 o2 -> conserves c c2 (o1 ++ o2).
Proof. unfold conserves. intros <- <-. rewrite <- app_assoc. apply Permutation_app_head, Permutation_app_comm. Qed.

Lemma conserves_NoDup c c' out : conserves c c' out -> NoDup (cache_conns c) -> NoDup (cache_conns c').
Proof. unfold conserves. intros <-. by intros [? _]%NoDup_app. Qed.

Section Range.
Context `{MapRange} (seed : Z).

Lemma range_elem {A} (m : gmap connectionIdentity A) i a : (i, a) ∈ range seed m <-> m !! i = Some a.
Proof. rewrite (range_perm seed m). apply elem_of_map_to_list. Qed.

Lemma range_keys {A} (m : gmap connectionIdentity A) : NoDup (map fst (range seed m)).
Proof. rewrite (range_perm seed m). apply NoDup_fst_map_to_list. Qed.

Lemma range_length {A} (m : gmap connectionIdentity A) : length (range seed m) = size m.
Proof. rewrite (range_perm seed m). apply length_map_to_list. Qed.

Lemma oldest_in l e : oldest l = Some e -> e ∈ l.
Proof.
  unfold oldest. assert (forall o, foldl (fun o e => match o with Some b => if rc_retiredAt e.2 <? rc_retiredAt b.2 then Some e else Some b | None => Some e end) o l
    = Some e -> o = Some e \/ e ∈ l) as HG; [|intros E; by apply HG in E as [?|?]].
  induction l as [|x l IH]; intros o; cbn; [by left|]. intros E%IH. destruct o as [b|].
  - destruct (_ <? _); destruct E as [[= <-]|E]; set_solver.
  - destruct E as [[= <-]|E]; set_solver.
Qed.

Lemma oldest_some x l : is_Some (oldest (x :: l)).
Proof.
  unfold oldest. cbn. generalize x. induction l as [|y l IH]; intros b; cbn; [by eexists|]. destruct (_ <? _); apply IH.
Qed.

Lemma trim_spec fuel : forall m m' out, (size m < fuel)%nat -> trim_loop seed fuel m = (m', out) ->
  vals rc_conn m' ++ out ≡ₚ vals rc_conn m /\ m' ⊆ m /\ (size m' <= maxRetiredConns)%nat.
Proof.
  induction fuel as [|fuel IH]; intros m m' out Hf; cbn [trim_loop]; [lia|]. rewrite range_length.
  destruct (size m <=? maxRetiredConns)%nat eqn:EL.
  - intros [= <- <-]. rewrite app_nil_r. split_and!; [done|done|]. by apply Nat.leb_le.
  - apply Nat.leb_gt in EL. pose proof (range_length m) as HL. destruct (oldest (range seed m)) as [[id rc]|] eqn:EO.
    + apply oldest_in, range_elem in EO. destruct (trim_loop seed fuel (delete id m)) as [m1 out1] eqn:ET. intros [= <- <-].
      apply IH in ET as (HP & HS & HB); [|rewrite map_size_delete_Some; [lia|by eexists]].
      split_and!; [|by etransitivity; [exact HS|apply delete_subseteq]|done].
      rewrite <- (vals_delete rc_conn m id rc EO), <- HP. symmetry. apply Permutation_middle.
    + destruct (range seed m) as [|x l]; [cbn in HL; unfold maxRetiredConns in EL; lia|]. by destruct (oldest_some x l) as [y Hy]; rewrite Hy in EO.
Qed.
End Range.

Section Operations.
Context `{MapRange} (seed : Z) (d : list connectionIdentity).

(** A cache whose connections are distinct and filed under their identities. *)
Definition sound (c : cache) : Prop := NoDup (cache_conns c) /\ filed d c /\ bounded c.

Lemma vals_elem {A} (f : A -> nat) m i x : m !! i = Some x -> f x ∈ vals f m.
Proof. intros E. rewrite <- (vals_delete f m i x E). by left. Qed.

Lemma retireConn_spec id cc now c c' out : sound c -> conns c !! id = Some cc -> retireConnLocked seed id cc now c = (c', out) ->
  conserves c c' out /\ sound c' /\ conns c' = delete id (conns c).
Proof.
  intros (HN & [HF1 HF2] & HB) Ec. unfold retireConnLocked, trimRetiredLocked. cbn [retired conns].
  set (m := <[id := MkRetired (cc_conn cc) (cc_id cc) now]> (retired c)).
  destruct (trim_loop seed _ m) as [m' trimmed] eqn:ET. intros [= <- <-].
  apply trim_spec in ET as (HP & HS & HL); [|lia].
  set (pre := match retired c !! id with Some rc => _ | None => _ end).
  assert (vals rc_conn m ++ pre ≡ₚ cc_conn cc :: vals rc_conn (retired c)) as HM.
  { unfold m. rewrite vals_replace. cbn. unfold pre. destruct (retired c !! id) as [rc|] eqn:Er.
    - rewrite <- (vals_delete rc_conn _ _ _ Er). destruct (rc_conn rc =? cc_conn cc)%nat eqn:Eq.
      + apply Nat.eqb_eq in Eq. rewrite cache_conns_vals in HN. apply NoDup_app in HN as (_ & HD & _).
        exfalso. apply (HD (cc_conn cc)); [by eapply vals_elem|]. rewrite <- Eq. by eapply vals_elem.
      + apply Permutation_skip. rewrite Permutation_app_comm. done.
    - rewrite app_nil_r. by rewrite delete_id. }
  assert (conserves c (MkCache (delete id (conns c)) m') (pre ++ trimmed)) as HC.
  { unfold conserves. rewrite !cache_conns_vals. cbn [conns retired]. rewrite <- (vals_delete cc_conn _ _ _ Ec).
    rewrite <- app_comm_cons, Permutation_middle, <- HM, <- HP. rewrite <- !app_assoc. do 2 apply Permutation_app_head. apply Permutation_app_comm. }
  split; [done|]. split; [|done]. split_and!; [by eapply conserves_NoDup| |done]. split; cbn [conns retired].
  - intros i x Hx. apply lookup_delete_Some in Hx as [_ Hx]. by apply HF1.
  - intros i x Hx. eapply lookup_weaken in Hx; [|exact HS]. unfold m in Hx. apply lookup_insert_Some in Hx as [[<- <-]|[_ Hx]]; [|by apply HF2].
    cbn. by apply HF1.
Qed.

Lemma visit_retire (keep : connectionIdentity -> cachedConn -> bool) now l : forall c c' out, sound c -> NoDup (map fst l) ->
  (forall i a, (i, a) ∈ l -> conns c !! i = Some a) ->
  visit (fun i a c => if keep i a then (c, []) else retireConnLocked seed i a now c) l c = (c', out) ->
  conserves c c' out /\ sound c' /\
  forall i a, conns c' !! i = Some a <-> conns c !! i = Some a /\ ((i, a) ∈ l -> keep i a = true).
Proof.
  induction l as [|[i a] l IH]; intros c c' out HS HN HL; cbn [visit].
  - intros [= <- <-]. split_and!; [unfold conserves; by rewrite app_nil_r|done|]. intros i a. split; [|by intros [? _]]. intros E. split; [done|]. set_solver.
  - cbn in HN. apply NoDup_cons in HN as [Hi HN].
    assert (forall b, (i, b) ∉ l) as Hni by (intros b Hb; apply Hi, list_elem_of_fmap; by exists (i, b)).
    pose proof (HL i a ltac:(by left)) as Ea. destruct (keep i a) eqn:Ek.
    + destruct (visit _ l c) as [c2 out2] eqn:EV. intros [= <- <-].
      apply IH in EV as (HC & HS' & HE); [|done|done|intros j b Hj; apply HL; by right]. split_and!; [done|done|].
      intros j b. rewrite HE. split; intros [E HK]; (split; [done|]); [|intros Hj; apply HK; by right].
      intros [[= -> ->]|Hj]%elem_of_cons; [done|by apply HK].
    + destruct (retireConnLocked seed i a now c) as [c1 out1] eqn:ER. destruct (visit _ l c1) as [c2 out2] eqn:EV. intros [= <- <-].
      apply retireConn_spec in ER as (HC1 & HS1 & E1); [|done|done].
      apply IH in EV as (HC & HS' & HE); [|done|done|].
      * split_and!; [by eapply conserves_trans|done|]. intros j b. rewrite HE, E1, lookup_delete_Some. split.
        -- intros [[Hij E] HK]. split; [done|]. intros [[= -> ->]|Hj]%elem_of_cons; [done|by apply HK].
        -- intros [E HK]. assert (i <> j) as Hij; [|split; [done|]; intros Hj; apply HK; by right].
           intros ->. rewrite Ea in E. injection E as ->. rewrite HK in Ek; [done|by left].
      * intros j b Hj. rewrite E1, lookup_delete_ne; [apply HL; by right|]. intros ->. by eapply Hni.
Qed.

Lemma visit_ext {A} (f g : connectionIdentity -> A -> cache -> cache * list nat) l : (forall i a c, f i a c = g i a c) ->
  forall c, visit f l c = visit g l c.
Proof. intros HE. induction l as [|[i a] l IH]; intros c; cbn; [done|]. rewrite HE. destruct (g i a c). by rewrite IH. Qed.

Lemma retireOther_spec identity now c c' out : sound c -> retireOtherActiveLocked seed identity now c = (c', out) ->
  conserves c c' out /\ sound c' /\
  forall i a, conns c' !! i = Some a <-> conns c !! i = Some a /\ (i = identity \/ i.1 <> identity.1).
Proof.
  intros HS. unfold retireOtherActiveLocked.
  rewrite (visit_ext _ (fun i a c => if bool_decide (i = identity) || negb (bool_decide (i.1 = identity.1)) then (c, []) else retireConnLocked seed i a now c)) by done.
  intros (HC & HS' & HE)%visit_retire; [|done|apply range_keys|intros i a; apply range_elem].
  split_and!; [done|done|]. intros i a. rewrite HE, range_elem, orb_true_iff, negb_true_iff, bool_decide_eq_true, bool_decide_eq_false. tauto.
Qed.

Lemma evict_active_spec valid now c c' out : sound c -> visit (evict_active seed valid now) (range seed (conns c)) c = (c', out) ->
  conserves c c' out /\ sound c' /\ forall i, is_Some (conns c' !! i) -> valid !! i.1 = Some i.2.
Proof.
  intros HS. rewrite (visit_ext _ (fun i a c => if live valid i (cc_id a) then (c, []) else retireConnLocked seed i a now c)) by done.
  intros (HC & HS' & HE)%visit_retire; [|done|apply range_keys|intros i a; apply range_elem].
  split_and!; [done|done|]. intros i [a Ha]. apply HE in Ha as [Ha HK]. rewrite range_elem in HK. specialize (HK Ha).
  unfold live in HK. destruct (valid !! i.1) as [v|]; [|done]. apply andb_true_iff in HK as [HK _]. by apply bool_decide_eq_true in HK as ->.
Qed.

(** A connection is put back in use. *)
Lemma promote_spec i rc id c : sound c -> retired c !! i = Some rc -> conns c !! i = None -> id = i.2 ->
  let c' := MkCache (<[i := MkCached (rc_conn rc) id]> (conns c)) (delete i (retired c)) in conserves c c' [] /\ sound c'.
Proof.
  intros (HN & [HF1 HF2] & HB) Er Ec ->. cbv zeta. set (c' := MkCache _ _).
  assert (conserves c c' []) as HC.
  { unfold conserves. rewrite app_nil_r, !cache_conns_vals. cbn [c' conns retired]. rewrite vals_insert by done.
    rewrite <- (vals_delete rc_conn _ _ _ Er). cbn. apply Permutation_middle. }
  split; [done|]. split_and!; [by eapply conserves_NoDup| |].
  - split; cbn.
    + intros j x Hx. apply lookup_insert_Some in Hx as [[<- <-]|[_ Hx]]; [|by apply HF1]. cbn. split; [|done]. by apply HF2.
    + intros j x Hx. apply lookup_delete_Some in Hx as [_ Hx]. by apply HF2.
  - unfold bounded in *. cbn. rewrite map_size_delete_Some by by eexists. lia.
Qed.

Lemma drop_spec i rc c : sound c -> retired c !! i = Some rc ->
  let c' := MkCache (conns c) (delete i (retired c)) in conserves c c' [rc_conn rc] /\ sound c'.
Proof.
  intros (HN & [HF1 HF2] & HB) Er. cbv zeta. set (c' := MkCache _ _).
  assert (conserves c c' [rc_conn rc]) as HC.
  { unfold conserves. rewrite !cache_conns_vals. cbn [c' conns retired]. rewrite <- (vals_delete rc_conn _ _ _ Er).
    rewrite <- app_assoc. apply Permutation_app_head. apply Permutation_app_comm. }
  split; [done|]. split_and!; [by eapply conserves_NoDup| |].
  - split; cbn; [done|]. intros j x Hx. apply lookup_delete_Some in Hx as [_ Hx]. by apply HF2.
  - unfold bounded in *. cbn. rewrite map_size_delete_Some by by eexists. lia.
Qed.

Lemma evict_retired_spec valid now l : forall c c' out, sound c -> NoDup (map fst l) ->
  (forall i a, (i, a) ∈ l -> retired c !! i = Some a) -> (forall i, is_Some (conns c !! i) -> valid !! i.1 = Some i.2) ->
  visit (evict_retired valid now) l c = (c', out) ->
  conserves c c' out /\ sound c' /\ forall i, is_Some (conns c' !! i) -> valid !! i.1 = Some i.2.
Proof.
  induction l as [|[i a] l IH]; intros c c' out HS HN HL HV; cbn [visit].
  - intros [= <- <-]. split_and!; [unfold conserves; by rewrite app_nil_r|done|done].
  - cbn in HN. apply NoDup_cons in HN as [Hi HN]. pose proof (HL i a ltac:(by left)) as Ea.
    destruct (evict_retired valid now i a c) as [c1 out1] eqn:EE.
    assert (conserves c c1 out1 /\ sound c1 /\ (forall j, j <> i -> retired c1 !! j = retired c !! j) /\
      (forall j, is_Some (conns c1 !! j) -> valid !! j.1 = Some j.2)) as (HC1 & HS1 & HR1 & HV1).
    { revert EE. unfold evict_retired. destruct (live valid i (rc_id a) && _) eqn:EL; [|destruct (retiredConnGrace <=? _)].
      - apply andb_true_iff in EL as [EL _]. unfold live in EL. destruct (valid !! i.1) as [v|] eqn:Ev; [|done].
        apply andb_true_iff in EL as [E1%bool_decide_eq_true E2%bool_decide_eq_true].
        destruct (conns c !! i) as [x|] eqn:Ex; intros [= <- <-]; [split_and!; [unfold conserves; by rewrite app_nil_r|done|done|done]|].
        destruct (promote_spec i a (rc_id a) c HS Ea Ex E2) as [HC HS']. split_and!; [done|done| |]; cbn.
        + intros j Hj. by rewrite lookup_delete_ne.
        + intros j [y Hy]. apply lookup_insert_Some in Hy as [[<- _]|[_ Hy]]; [by rewrite Ev, E1|by apply HV].
      - intros [= <- <-]. destruct (drop_spec i a c HS Ea) as [HC HS']. split_and!; [done|done| |done]. intros j Hj. cbn. by rewrite lookup_delete_ne.
      - intros [= <- <-]. split_and!; [unfold conserves; by rewrite app_nil_r|done|done|done]. }
    destruct (visit _ l c1) as [c2 out2] eqn:EV. intros [= <- <-]. apply IH in EV as (HC & HS' & HV'); [|done|done| |done].
    + split_and!; [by eapply conserves_trans|done|done].
    + intros j b Hj. rewrite HR1; [apply HL; by right|]. intros ->. apply Hi, list_elem_of_fmap. by exists (i, b).
Qed.

Lemma evict_spec valid now c c' out : sound c -> evictStaleConns seed valid now c = (c', out) ->
  conserves c c' out /\ sound c' /\ one_active c'.
Proof.
  intros HS. unfold evictStaleConns. destruct (visit (evict_active seed valid now) _ c) as [c1 out1] eqn:E1.
  destruct (visit (evict_retired valid now) _ c1) as [c2 out2] eqn:E2. intros [= <- <-].
  apply evict_active_spec in E1 as (HC1 & HS1 & HV1); [|done].
  apply evict_retired_spec in E2 as (HC2 & HS2 & HV2); [|done|apply range_keys|intros i a; apply range_elem|done].
  split_and!; [by eapply conserves_trans|done|]. intros i j Hi Hj E. apply HV2 in Hi, Hj. rewrite E, Hj in Hi.
  destruct i, j; cbn in *. congruence.
Qed.
End Operations.

Section Lookups.
Context `{MapRange} (seed : Z) (d : list connectionIdentity).

Lemma retireOther_one identity now c c' out : sound d c -> retireOtherActiveLocked seed identity now c = (c', out) ->
  (forall i j, is_Some (conns c !! i) -> is_Some (conns c !! j) -> i.1 = j.1 -> i.1 <> identity.1 -> i = j) ->
  conserves c c' out /\ sound d c' /\ conns c' !! identity = conns c !! identity /\
  (forall i, is_Some (conns c' !! i) -> i.1 = identity.1 -> i = identity) /\
  (forall i j, is_Some (conns c' !! i) -> is_Some (conns c' !! j) -> i.1 = j.1 -> i = j).
Proof.
  intros HS HR HO. apply (retireOther_spec seed d) in HR as (HC & HS' & HE); [|done].
  assert (forall i, is_Some (conns c' !! i) -> is_Some (conns c !! i) /\ (i = identity \/ i.1 <> identity.1)) as HI.
  { intros i [a [Ha Hi]%HE]. by split; [eexists|]. }
  split_and!; [done|done| | |].
  - apply option_eq. intros a. rewrite HE. split; [by intros [? _]|]. intros Ha. by split; [|left].
  - intros i Hi E. apply HI in Hi as [_ [?|?]]; [done|congruence].
  - intros i j [Hi Hi']%HI [Hj Hj']%HI E. destruct Hi' as [->|Hi'], Hj' as [->|Hj']; [done|congruence|congruence|]. by apply HO.
Qed.

Lemma promote_found identity now c found c' out : sound d c -> one_active c -> conns c !! identity = None ->
  promote seed identity now c = (found, c', out) ->
  conserves c c' out /\ sound d c' /\ one_active c' /\
  match found with Some conn => d !! conn = Some identity | None => conns c' = conns c end.
Proof.
  intros HS HO Ec. unfold promote. destruct (retired c !! identity) as [rc|] eqn:Er; [destruct (now - rc_retiredAt rc <? retiredConnGrace)|].
  - destruct (promote_spec d identity rc _ c HS Er Ec eq_refl) as [HC1 HS1]. set (c1 := MkCache _ _) in *.
    destruct (retireOtherActiveLocked seed identity now c1) as [c2 out2] eqn:E2. intros [= <- <- <-].
    apply retireOther_one in E2 as (HC2 & HS2 & _ & _ & HO2); [|done|].
    + split_and!; [by apply (conserves_trans _ _ _ [] _ HC1 HC2)|done|done|]. by apply HS.
    + intros i j [a Ha] [b Hb] E Hn. cbn in Ha, Hb. rewrite lookup_insert_ne in Ha, Hb by congruence. apply HO; [by eexists|by eexists|done].
  - destruct (drop_spec d identity rc c HS Er) as [HC1 HS1]. intros [= <- <- <-]. by split_and!.
  - intros [= <- <- <-]. split_and!; [unfold conserves; by rewrite app_nil_r|done|done|done].
Qed.

Lemma conn_lookup_spec identity now c found c' out : sound d c -> one_active c -> conn_lookup seed identity now c = (found, c', out) ->
  conserves c c' out /\ sound d c' /\ one_active c' /\ (forall conn, found = Some conn -> d !! conn = Some identity).
Proof.
  intros HS HO. unfold conn_lookup. destruct (conns c !! identity) as [cc|] eqn:Ec.
  - destruct (retireOtherActiveLocked seed identity now c) as [c1 out1] eqn:E1. intros [= <- <- <-].
    apply retireOther_one in E1 as (HC & HS' & _ & _ & HO'); [|done|intros; by apply HO]. split_and!; [done|done|done|].
    intros conn [= <-]. by apply HS.
  - intros (HC & HS' & HO' & HF)%promote_found; [|done|done|done]. split_and!; [done|done|done|]. by intros conn ->.
Qed.

Lemma conn_publish_spec identity dialed now c conn c' out : sound d c -> one_active c -> d !! dialed = Some identity ->
  NoDup (dialed :: cache_conns c) -> conn_publish seed identity dialed now c = (conn, c', out) ->
  cache_conns c' ++ out ≡ₚ dialed :: cache_conns c /\ sound d c' /\ one_active c' /\ d !! conn = Some identity.
Proof.
  intros HS HO Hd HN. unfold conn_publish. destruct (conns c !! identity) as [cc|] eqn:Ec.
  - intros [= <- <- <-]. split_and!; [by rewrite Permutation_app_comm|done|done|]. by apply HS.
  - destruct (promote seed identity now c) as [[found c1] out1] eqn:E1. apply promote_found in E1 as (HC1 & HS1 & HO1 & HF); [|done|done|done].
    destruct found as [x|].
    + intros [= <- <- <-]. split_and!; [|done|done|done]. unfold conserves in HC1. rewrite app_assoc, HC1. by rewrite Permutation_app_comm.
    + destruct (retireOtherActiveLocked seed identity now c1) as [c2 out2] eqn:E2. intros [= <- <- <-].
      apply retireOther_one in E2 as (HC2 & HS2 & EI & HI & HO2); [|done|intros; by apply HO1].
      rewrite HF, Ec in EI.
      assert (cache_conns (MkCache (<[identity := MkCached dialed identity.2]> (conns c2)) (retired c2)) ≡ₚ dialed :: cache_conns c2) as HP.
      { rewrite !cache_conns_vals. cbn [conns retired]. by rewrite vals_insert. }
      pose proof (conserves_trans _ _ _ _ _ HC1 HC2) as HC. destruct HS2 as (HN2 & [HF1 HF2] & HB2).
      split_and!; [by rewrite HP, <- app_comm_cons, HC| | |done].
      * split_and!; [|split; cbn; [|done]|done].
        -- rewrite HP. rewrite <- HC in HN. rewrite app_comm_cons in HN. by apply NoDup_app in HN as [? _].
        -- intros i a Ha. apply lookup_insert_Some in Ha as [[<- <-]|[_ Ha]]; [done|by apply HF1].
      * intros i j [a Ha] [b Hb] E. cbn in Ha, Hb. apply lookup_insert_Some in Ha as [[<- _]|[_ Ha]], Hb as [[<- _]|[_ Hb]].
        -- done.
        -- symmetry. apply HI; [by eexists|done].
        -- apply HI; [by eexists|done].
        -- apply HO2; [by eexists|by eexists|done].
Qed.
End Lookups.

Lemma close_once_id l : forall seen, NoDup l -> (forall x, x ∈ l -> x ∉ seen) -> close_once seen l = l.
Proof.
  induction l as [|x l IH]; intros seen HN HD; cbn; [done|]. apply NoDup_cons in HN as [Hx HN].
  rewrite bool_decide_false by (apply HD; by left). f_equal. apply IH; [done|]. intros y Hy. apply not_elem_of_cons.
  split; [by intros ->|apply HD; by right].
Qed.

Lemma closeConnections_id l : NoDup l -> closeConnections l = l.
Proof. intros HN. apply close_once_id; [done|]. intros x _. apply not_elem_of_nil. Qed.

(** ** Every connection has one owner *)

(** The connection a request has dialed and not yet published. *)
Definition holding (pc : grpcPc) : option nat := match pc with CPublish _ dialed => Some dialed | _ => None end.

Definition holdings (pcs : list grpcPc) : list nat := omap holding pcs.

Lemma holdings_insert pcs t p q : pcs !! t = Some p ->
  option_list (holding p) ++ holdings (<[t := q]> pcs) ≡ₚ option_list (holding q) ++ holdings pcs.
Proof.
  revert t. induction pcs as [|r pcs IH]; intros [|t] E; cbn in *; [done|done| |].
  - injection E as ->. destruct (holding p), (holding q); cbn; [apply Permutation_swap|done|done|done].
  - specialize (IH t E). destruct (holding r) as [x|]; [|done].
    rewrite <- !Permutation_middle. by apply Permutation_skip.
Qed.

Definition pc_filed (d : list connectionIdentity) (pc : grpcPc) : Prop :=
  match pc with
  | CPublish i n | CDone i (Some n) => d !! n = Some i
  | _ => True
  end.

Record grpc_inv (s : transcoder) : Prop := {
  gi_owned : cache_conns (tr_cache s) ++ holdings (tr_pcs s) ++ tr_log s ≡ₚ seq 0 (length (tr_dialed s));
  gi_sound : sound (tr_dialed s) (tr_cache s);
  gi_one : one_active (tr_cache s);
  gi_pcs : Forall (pc_filed (tr_dialed s)) (tr_pcs s);
  gi_closed : tr_closed s = true -> tr_cache s = MkCache ∅ ∅
}.

Lemma owned_NoDup s : grpc_inv s -> NoDup (cache_conns (tr_cache s) ++ holdings (tr_pcs s) ++ tr_log s).
Proof. intros HI. rewrite (gi_owned _ HI). apply NoDup_seq. Qed.

Section Run.
Context `{MapRange}.

(** A request that leaves a cache behind and closes the rest. *)
Lemma move_inv s t p pc c out : grpc_inv s -> tr_pcs s !! t = Some p -> holding pc = None ->
  cache_conns c ++ out ≡ₚ option_list (holding p) ++ cache_conns (tr_cache s) ->
  sound (tr_dialed s) c -> one_active c -> pc_filed (tr_dialed s) pc -> (tr_closed s = true -> c = MkCache ∅ ∅) ->
  grpc_inv (move t pc c out s).
Proof.
  intros HI Et Hh HP HS HO Hpc HC. constructor; cbn; [|done|done|by apply Forall_insert; [apply HI|]|done].
  rewrite <- (gi_owned _ HI). pose proof (holdings_insert _ _ _ pc Et) as HH. rewrite Hh in HH. cbn in HH. rewrite <- HH.
  set (k := holdings (<[t:=pc]> (tr_pcs s))). transitivity ((cache_conns c ++ out) ++ k ++ tr_log s).
  - rewrite <- app_assoc. apply Permutation_app_head. rewrite app_assoc. apply Permutation_app_comm.
  - rewrite HP, (Permutation_app_comm (option_list (holding p))). by rewrite <- !app_assoc.
Qed.

(** What an operation closes is closed once. *)
Lemma closing_NoDup s t p c out : grpc_inv s -> tr_pcs s !! t = Some p ->
  cache_conns c ++ out ≡ₚ option_list (holding p) ++ cache_conns (tr_cache s) -> NoDup (option_list (holding p) ++ cache_conns (tr_cache s)) ->
  closeConnections out = out.
Proof. intros HI Et HP HN. apply closeConnections_id. rewrite <- HP in HN. by apply NoDup_app in HN as (_ & _ & ?). Qed.

Lemma held_NoDup s t p : grpc_inv s -> tr_pcs s !! t = Some p -> NoDup (option_list (holding p) ++ cache_conns (tr_cache s)).
Proof.
  intros HI Et. pose proof (owned_NoDup _ HI) as HN. rewrite <- (holdings_insert _ _ _ CIdle Et : _ ≡ₚ holdings (tr_pcs s)) in HN.
  rewrite <- app_assoc, app_assoc in HN. apply NoDup_app in HN as [HN _]. by rewrite Permutation_app_comm.
Qed.

Lemma dial_inv s t i : grpc_inv s -> tr_pcs s !! t = Some (CDial i) ->
  grpc_inv (MkTranscoder (tr_cache s) (tr_closed s) (tr_dialed s ++ [i]) (tr_log s) (<[t := CPublish i (length (tr_dialed s))]> (tr_pcs s))).
Proof.
  intros HI Et. destruct (gi_sound _ HI) as (HN & [HF1 HF2] & HB). constructor; cbn.
  - rewrite length_app, seq_app, <- (gi_owned _ HI). cbn.
    pose proof (holdings_insert _ _ _ (CPublish i (length (tr_dialed s))) Et) as HH. cbn in HH. rewrite HH.
    rewrite <- app_comm_cons, <- Permutation_middle. apply Permutation_cons_append.
  - split_and!; [done| |done]. split; intros j x Hx; [apply HF1 in Hx as [Hx ?]|apply HF2 in Hx as [Hx ?]]; (split; [by apply lookup_app_l_Some|done]).
  - apply HI.
  - apply Forall_insert.
    + eapply Forall_impl; [apply HI|]. intros [| | |j [n|]]; cbn; try done; apply lookup_app_l_Some.
    + cbn. by rewrite lookup_app_r, Nat.sub_diag by done.
  - apply HI.
Qed.

Lemma evict_inv s valid now seed c out : grpc_inv s -> tr_closed s = false -> evictStaleConns seed valid now (tr_cache s) = (c, out) ->
  grpc_inv (MkTranscoder c (tr_closed s) (tr_dialed s) (tr_log s ++ closeConnections out) (tr_pcs s)).
Proof.
  intros HI HC HE. apply (evict_spec seed (tr_dialed s)) in HE as (HP & HS & HO); [|apply HI].
  rewrite closeConnections_id.
  - constructor; cbn; [|done|done|apply HI|congruence]. rewrite <- (gi_owned _ HI), <- HP, <- !app_assoc. apply Permutation_app_head.
    rewrite app_assoc. apply Permutation_app_comm.
  - pose proof (gi_sound _ HI) as (HN & _). unfold conserves in HP. rewrite <- HP in HN. by apply NoDup_app in HN as (_ & _ & ?).
Qed.

Lemma close_inv s : grpc_inv s -> grpc_inv (MkTranscoder (MkCache ∅ ∅) true (tr_dialed s) (tr_log s ++ close_all (tr_cache s)) (tr_pcs s)).
Proof.
  intros HI. constructor; cbn; [| | |apply HI|done].
  - rewrite <- (gi_owned _ HI). unfold close_all. rewrite elements_list_to_set by apply (gi_sound _ HI).
    change (cache_conns (MkCache ∅ ∅)) with (@nil nat). cbn [app]. rewrite app_assoc. apply Permutation_app_comm.
  - split_and!; [constructor|split; cbn; intros i x; by rewrite lookup_empty|]. unfold bounded. cbn. rewrite map_size_empty. lia.
  - intros i j [x Hx]. cbn in Hx. by rewrite lookup_empty in Hx.
Qed.

Lemma grpc_step_inv s l s' : grpc_inv s -> grpc_exec s l = Some s' -> grpc_inv s'.
Proof.
  intros HI. destruct l as [t i now seed|t ok|t now seed|valid now seed|]; cbn.
  - destruct (tr_pcs s !! t) as [pc|] eqn:Et; [|done].
    assert (holding pc = None -> (if tr_closed s then Some (move t (CDone i None) (tr_cache s) [] s) else
      let '(found, c, out) := conn_lookup seed i now (tr_cache s) in
      Some (move t (match found with Some conn => CDone i (Some conn) | None => CDial i end) c (closeConnections out) s)) = Some s' -> grpc_inv s') as HG.
    { intros Hh. destruct (tr_closed s) eqn:EC.
      - intros [= <-]. eapply move_inv; [done|exact Et|done|by rewrite Hh, app_nil_r|apply HI|apply HI|done|]. intros _. by apply HI.
      - destruct (conn_lookup seed i now (tr_cache s)) as [[found c] out] eqn:EL. intros [= <-].
        apply (conn_lookup_spec seed (tr_dialed s)) in EL as (HP & HS & HO & HF); [|apply HI|apply HI].
        assert (cache_conns c ++ out ≡ₚ option_list (holding pc) ++ cache_conns (tr_cache s)) as HP' by (by rewrite Hh).
        rewrite (closing_NoDup s t pc c out HI Et HP' (held_NoDup _ _ _ HI Et)).
        eapply move_inv; [done|exact Et|by destruct found|done|done|done| |congruence]. destruct found as [x|]; [|done]. by apply HF. }
    destruct pc; try done; by apply HG.
  - destruct (tr_pcs s !! t) as [[| i | |]|] eqn:Et; try done. destruct ok; intros [= <-]; [by apply dial_inv|].
    eapply move_inv; [done|exact Et|done|by rewrite app_nil_r|apply HI|apply HI|done|apply HI].
  - destruct (tr_pcs s !! t) as [[| |i n|]|] eqn:Et; try done. pose proof (Forall_lookup_1 _ _ _ _ (gi_pcs _ HI) Et) as Hn. cbn in Hn.
    destruct (tr_closed s) eqn:EC.
    + intros [= <-]. eapply move_inv; [done|exact Et|done|by rewrite Permutation_app_comm|apply HI|apply HI|done|]. intros _. by apply HI.
    + destruct (conn_publish seed i n now (tr_cache s)) as [[conn c] out] eqn:EL. intros [= <-].
      pose proof (held_NoDup _ _ _ HI Et) as HN.
      apply (conn_publish_spec seed (tr_dialed s)) in EL as (HP & HS & HO & HF); [|apply HI|apply HI|done|done].
      rewrite (closing_NoDup s t _ c out HI Et HP HN). eapply move_inv; [done|exact Et|done|done|done|done|done|congruence].
  - destruct (tr_closed s) eqn:EC; [by intros [= <-]|]. destruct (evictStaleConns seed valid now (tr_cache s)) as [c out] eqn:EE.
    intros [= <-]. rewrite <- EC. by eapply evict_inv.
  - destruct (tr_closed s); intros [= <-]; [done|by apply close_inv].
Qed.

Lemma grpc_init_inv n : grpc_inv (transcoder_init n).
Proof.
  assert (holdings (replicate n CIdle) = []) as HH by (induction n as [|n IH]; [done|exact IH]).
  constructor; cbn [transcoder_init tr_cache tr_closed tr_dialed tr_log tr_pcs].
  - by rewrite HH.
  - split_and!; [constructor|split; cbn; intros i x; by rewrite lookup_empty|]. unfold bounded. cbn. rewrite map_size_empty. lia.
  - intros i j [x Hx]. cbn in Hx. by rewrite lookup_empty in Hx.
  - by apply Forall_replicate.
  - done.
Qed.

(** C21: Whatever requests, dials, evictions and the shutdown do: every connection
    ever dialed is in the cache once, held by the request that dialed it, or
    closed, and is closed at most once; the cache holds at most 256 retired
    connections and one active connection per address; a request is given a
    connection that was dialed for its own backend and workload; and after the
    shutdown every connection is closed except those of dials under way, which
    close theirs. *)
Theorem grpc_conns_owned (n : nat) (tr : list grpcLabel) (s : transcoder) :
  trace grpc_exec (transcoder_init n) tr s ->
  cache_conns (tr_cache s) ++ holdings (tr_pcs s) ++ tr_log s ≡ₚ seq 0 (length (tr_dialed s)) /\
  NoDup (tr_log s) /\ (size (retired (tr_cache s)) <= maxRetiredConns)%nat /\ one_active (tr_cache s) /\
  (forall t i conn, tr_pcs s !! t = Some (CDone i (Some conn)) -> tr_dialed s !! conn = Some i) /\
  (tr_closed s = true -> holdings (tr_pcs s) ++ tr_log s ≡ₚ seq 0 (length (tr_dialed s))).
Proof.
  intros HT. assert (grpc_inv s) as HI.
  { eapply (trace_invariant _ grpc_inv); [|exact HT|apply grpc_init_inv]. intros. by eapply grpc_step_inv. }
  split_and!.
  - apply HI.
  - pose proof (owned_NoDup _ HI) as HN. apply NoDup_app in HN as (_ & _ & HN). by apply NoDup_app in HN as (_ & _ & ?).
  - apply (gi_sound _ HI).
  - apply HI.
  - intros t i conn Et. exact (Forall_lookup_1 _ _ _ _ (gi_pcs _ HI) Et).
  - intros HC. pose proof (gi_owned _ HI) as HO. by rewrite (gi_closed _ HI HC) in HO.
Qed.
End Run.

(** ** Examples *)

Definition demo_range : MapRange := {| range := fun A _ m => map_to_list m; range_perm := fun A _ m => reflexivity _ |}.

Definition demo_dial : dialIdentity := (str "grpc", str "tcp", str "10.0.0.1:50051").

(** Two requests race for one workload, a third is for its replacement; then the
    transcoder is closed. *)
Definition demo_grpc_run : list grpcLabel :=
  [LGet 0 (demo_dial, str "a") 0 0; LGet 1 (demo_dial, str "a") 0 0; LDial 0 true; LDial 1 true; LPublish 0 1 0; LPublish 1 2 0;
   LGet 2 (demo_dial, str "b") 3 0; LDial 2 true; LPublish 2 4 0; LCloseAll].

Lemma grpc_conns_owned_witness :
  exists s, exec_trace (grpc_exec (H := demo_range)) (transcoder_init 3) demo_grpc_run = Some s /\
    NoDup (tr_log s) /\ length (tr_log s) = 3%nat.
Proof.
  destruct (exec_trace (grpc_exec (H := demo_range)) (transcoder_init 3) demo_grpc_run) as [s|] eqn:E; [|by vm_compute in E].
  exists s. split; [done|]. pose proof (proj1 (exec_trace_trace _ _ _ _) E) as HT.
  split; [exact (proj1 (proj2 (grpc_conns_owned (H := demo_range) 3 demo_grpc_run s HT)))|].
  vm_compute in E. by injection E as <-.
Defined.
